(* ===== verification/_CoqProject ===== *)
-Q . S2P
Prelude.v
SharedTypes.v
Blocks.v
Mempool.v
MempoolInv.v
MempoolBlock.v
MempoolProps.v
Merkle.v
MerkleFacts.v
MerkleProps.v
Ordering.v
OrderingFacts.v
OrderingBuild.v
OrderingProps.v
Finality.v
FinalityFacts.v
FinalityProps.v
SlashingDb.v
CrossChain.v
CrossChainProps.v
BlockStorage.v
BlockKv.v
BlockService.v
BlockFacts.v
BlockInv.v
BlockCalls.v
BlockProps.v
BlockFile.v
Mmr.v
StateTrie.v
StateFacts.v
StateProps.v
Consensus.v
ConsensusFacts.v
ConsensusProps.v
ForkChoice.v
ForkChoiceProps.v
ConsensusSide.v
Sharding.v
ShardingProps.v
EvmBase.v
Evm.v
EvmService.v
EvmFacts.v
EvmExec.v
EvmProps.v
Messages.v
Production.v
ProductionProps.v
Difficulty.v
Breaker.v
Bloom.v
BloomProps.v
Gcs.v
Cuckoo.v
Peers.v
PeersProps.v
LightClient.v
LightClientProps.v
Propagation.v
PropagationProps.v
FinalitySide.v
Gateway.v
GatewayProps.v
GatewayState.v
MempoolSide.v
MempoolFamily.v
Signatures.v
MempoolIpc.v
BlockIpc.v
TxIndex.v
OrderingIpc.v
Choreography.v
ChoreographyFacts.v
ChoreographyProps.v
Registry.v
StateIpc.v
Mining.v
PeerNet.v
PeerEntry.v
