(* ===== verification/Prelude.v ===== *)
(** * Quantum-Chain: a verification library

    Quantum-Chain ([src/]) is a blockchain node written in Rust as a set of
    subsystems, one crate each under [src/crates/], that talk over an event bus.
    This library models the subsystems that carry the node's own decisions as
    executable functions on explicit states and proves what makes them correct.

    ** The parts and how they interact

    Peers are found and admitted by [qc-01-peer-discovery]; [qc-05-block-propagation]
    gossips blocks between them and [qc-13-light-client-sync] follows the headers of
    full nodes.  Signed transactions ([shared-types]) are verified by
    [qc-10-signature-verification] and offered to the mempool ([qc-06-mempool]),
    which keeps a bounded, replaceable, priority-ordered pool and hands
    candidates to block production in two phases (propose, then confirm or roll
    back).  [qc-17-block-production] selects transactions, adjusts the difficulty
    and mines with an engine of [qc-compute].  A produced block enters the event
    bus of the [node-runtime]: [qc-08-consensus] validates it,
    [qc-03-transaction-indexing] computes its Merkle root and
    [qc-04-state-management] its state root, [qc-12-transaction-ordering] orders
    its transactions into parallel groups for [qc-11-smart-contracts], and
    [qc-02-block-storage] assembles the three announcements and stores the block.
    [qc-09-finality] justifies and finalizes checkpoints, [qc-07-bloom-filters]
    serves light clients, [qc-14-sharding] and [qc-15-cross-chain] commit across
    shards and chains, [qc-16-api-gateway] answers JSON-RPC.  Messages between
    subsystems carry an authenticated envelope ([shared-types], [shared-bus]), which
    the handlers in front of the mempool, storage, indexing, state, ordering,
    signatures and peer discovery check before they call their service.

    ** The files

    Shared:
    - [Prelude]: machine integers, results, byte strings, ordered iteration,
      transition sequences, the tactics [split_matches] and [bools], the hint
      database [qc], and generic lemmas.
    - [SharedTypes], [Blocks]: transactions and blocks of
      [shared-types/src/entities.rs].
    - [Messages]: envelopes, their verification, derived keys, the authorization
      matrix ([shared-types/src/security.rs], [envelope.rs]) and the replay cache
      and filters of [shared-bus].
    - [Registry]: [shared-types/src/subsystem_registry.rs].

    Transactions:
    - [Mempool]: [TransactionPool] of [qc-06-mempool/src/domain/pool.rs], one
      function per method; [MempoolInv] has the invariant of the three indices,
      [MempoolBlock] block building and the two-phase commit, [MempoolProps] the
      theorems.  [MempoolSide] and [MempoolFamily] are the other modules of the
      domain, [MempoolIpc] the message handler.
    - [Merkle], [MerkleFacts], [MerkleProps]: Merkle trees and proofs of
      [qc-03-transaction-indexing/src/domain/entities.rs]; [TxIndex]: the index and
      its message handlers.
    - [Ordering], [OrderingFacts] (graph, Kahn's sort, depth-first search),
      [OrderingBuild], [OrderingProps], [OrderingIpc]:
      [qc-12-transaction-ordering].
    - [Signatures]: [qc-10-signature-verification].

    Blocks, state and agreement:
    - [BlockStorage], [BlockKv], [BlockService]: entities, stores and service of
      [qc-02-block-storage]; [BlockFacts], [BlockInv], [BlockCalls], [BlockProps],
      [BlockFile]: what is proved of them; [Mmr]: the mountain range; [BlockIpc]:
      the message handlers.
    - [StateTrie], [StateFacts] (paths, tries, the invariant), [StateProps],
      [StateIpc]: [qc-04-state-management].
    - [Consensus], [ConsensusFacts], [ConsensusProps], [ForkChoice],
      [ForkChoiceProps], [ConsensusSide]: [qc-08-consensus].
    - [Finality], [FinalityFacts] (threshold, votes, the invariant),
      [FinalityProps], [SlashingDb], [FinalitySide]: [qc-09-finality].
    - [EvmBase], [Evm], [EvmService], [EvmFacts], [EvmExec], [EvmProps]:
      [qc-11-smart-contracts].
    - [Sharding], [ShardingProps]: [qc-14-sharding].  [CrossChain],
      [CrossChainProps]: [qc-15-cross-chain].
    - [Production], [ProductionProps], [Difficulty], [Breaker], [Mining]:
      [qc-17-block-production]; [Mining] has the CPU engine of [qc-compute] and the
      threads of the miner too.

    Network and composition:
    - [Peers], [PeersProps]: the routing table and service of
      [qc-01-peer-discovery]; [PeerNet]: addresses, connection slots, probes,
      handshakes, records; [PeerEntry]: how peers get in.
    - [Propagation], [PropagationProps]: [qc-05-block-propagation].
    - [Bloom], [BloomProps], [Gcs], [Cuckoo]: [qc-07-bloom-filters].
    - [LightClient], [LightClientProps]: [qc-13-light-client-sync].
    - [Gateway], [GatewayProps], [GatewayState]: [qc-16-api-gateway].
    - [Choreography], [ChoreographyFacts], [ChoreographyProps]: the node, that is
      how [node-runtime] wires production, consensus, indexing, state, storage,
      ordering and finality over one broadcast channel.

    ** How code becomes definitions

    A method that changes [self] is a function from the old state to the new
    one and its result; [?] is the bind of [result], whose third case is a
    panic ([None] where the code has no error of its own).  Integers are [Z] at the
    width written in the source: release builds wrap, and saturating and checked
    operations are spelled out; [U256] panics on overflow.  Lengths of vectors are
    [nat] where they only count elements.  Hashes and addresses are the numbers
    their bytes spell, so their order is the order of the byte arrays.  A [HashMap]
    is a [gmap]; where a result depends on its iteration order, the order is an
    argument.  Sorting with ties is [stable_sort].  State behind locks is split at
    the critical sections where another call can come between them (finality,
    consensus, the node), threads at their accesses to shared variables (the mining
    engine, the miner), and the theorems hold for every interleaving of them.  Clocks are arguments.  Texts of errors, logging,
    counters that only feed dashboards, and correlation identifiers are left out.

    Code outside the repository is a parameter with its documented behaviour as
    the only hypothesis: hash functions and HMAC are arbitrary functions (where a
    claim needs collision resistance it says so by exhibiting the collision);
    [primitive-types], [bitvec], [lru], [bincode], the broadcast channel, the
    serializer, the curves of [k256] and [blst] and floating-point scores are classes, with their
    laws in a class of their own where anything is assumed; signature verifiers,
    validator sets, disks, JSON parsing, token buckets, random slots and full
    nodes are functions; so are the bodies of the gateway's RPC handlers, on the state
    of the node they share.  The interfaces between components of the
    repository (key-value stores, state and access lists of the virtual machine)
    are classes with the repository's own implementations as instances.

    ** What the theorems show

    Mempool: the indices stay consistent and the limits hold in every reachable
    pool; what an addition changes; proposed transactions are never displaced;
    proposing and rolling back is the identity; the handler lets through exactly
    the authorized messages, each once.  Indexing: roots are the reference roots,
    proofs are complete and binding, answered proofs verify.  Ordering: schedules
    satisfy the crate's own invariants, cycles are reported exactly, batches in
    nonce order are scheduled.  Signatures: a transaction is accepted exactly when
    a recovery gives its sender, and no malleable twin of a signature is.
    Storage: the index, the keys and the metadata agree with the stored blocks
    in every reachable service, written blocks are read back, also after a restart,
    assembly does not depend on the order of events, and the message handler
    refines the service.  State: the trie answers what the accounts say, proofs
    verify, a block of values below [2^127] moves exactly the amounts it states.  Consensus:
    acceptance is exactly its specification, the chain of headers is linked
    however validations interleave (its heights as long as no parent is pruned in
    between), the fork choice is the heaviest chain for the validator set its weights
    were cached with, conflicting blocks share a signer.
    Finality: justification needs more than two thirds of the stake of the set the
    votes were counted with, finalization two consecutive justified epochs, evidence
    is genuine.  Virtual
    machine: execution ends within its gas, stack, memory and jumps stay
    well formed, static calls change nothing.  Production: selections are valid,
    difficulty is exact and bounded, the mining threads find a nonce or there is
    none, mined blocks are linked and meet their difficulty.  Network: the routing table, the address
    manager and the connection slots keep their bounds; a peer enters only with
    proof of work and a positive identity result; light-client chains are linked;
    filters have no false negatives under the tweak they have; the gateway answers
    every request with the handler its method is documented for.  The node:
    every event on the channel has its cause before it, and the blocks let in are
    stored.  Sharding and cross-chain: decisions agree with votes, contracts pay at
    most once and the timelock margin protects the counterparty.  Examples on concrete
    inputs show where the code falls short of its own rules.

    ** Bounds and fuel

    Loops that are not structural take fuel; what they get is enough, which is
    part of what is proved of them.
    - One unit per element: [kahn_loop] (a round schedules a node),
      [bsearch_loop], [decode_loop], [merge_loop], [select_loop], [rle_loop],
      [chunks_of], [pack_bits], [analyze_loop] (bytes of code), [root_loop],
      [proof_loop] and [merkle_loop] (hashes of a level), [weight_loop] (blocks and
      one), [has_cycle_dfs] (nodes and one), [parallel_levels] (leaves and one),
      [ancestors_loop] (entries of the parent map), [visit] of [Registry]
      (subsystems and one).
    - One unit per unit of gas and one more: [execute_loop].
    - Fixed by the code: the depth of a path of 64 nibbles ([trie_fuel]), 256 bits
      ([mod_exp_loop]), 500 kicks ([Cuckoo]), 1000 ancestors (light client),
      the limits of ancestors and descendants of the mempool families.
    - The accesses the threads of a search can still make: [join] of [Scheduler].
    - Loops the code does not bound ([head_loop] of the fork choice, the
      synchronization of the light client, [engine_loop] of a mining round) return
      [None] while they are still running; theorems say how much
      fuel ends them, or examples show that they do not end.
    [proof_path] is defined by well-founded recursion.  The finality threshold is exact
    below [2^127] of total stake; above it the code rounds.

    ** Not modelled

    - Pure input and output: transports (QUIC, UDP), RocksDB, bus publishers and
      subscribers that only forward, OpenCL kernels, telemetry, metrics, TLS,
      start-up and the container of the node, configuration files, JSON queries
      that only read ([api_handler.rs] of the crates, [api_query.rs]).
    - Placeholders and wrappers of third-party code: [qc-zkp], [shared-crypto], BLS
      aggregation of consensus, the gateways to other subsystems, memory zeroing.
    - Floating-point arithmetic: peer scores, reputations, hash-rate estimates, the
      token counts of the bus and filter-size formulas; where
      such a number decides something, it is an argument.
    - Side features that no service calls: snapshots, repair, pruning and
      compression of storage, the bytecode optimizer, header-first download.
    - The bodies of the gateway's RPC handlers, which forward to the bus, and RLP
      decoding of raw transactions there. *)

From Stdlib Require Export ZArith Lia.
From stdpp Require Export prelude gmap sorting.

Local Open Scope Z_scope.

(** ** Machine integers

    Rust's unsigned integers are integers [Z] kept in their range; the node
    is built with [cargo build --release], whose profile has no overflow
    checks, so [+] and [*] wrap around at the width of their type. *)

Abbreviation u8 := Z (only parsing).
Abbreviation u64 := Z (only parsing).
Abbreviation u128 := Z (only parsing).
Abbreviation usize := Z (only parsing).
Abbreviation U256 := Z (only parsing).

(** A 32-byte hash and a 20-byte address are the numbers their bytes spell in
    big-endian order: the derived [Ord] of a byte array is then the order of
    the numbers, and its [Eq] is equality. *)
Abbreviation Hash := Z (only parsing).
Abbreviation Address := Z (only parsing).
Abbreviation Timestamp := Z (only parsing).

Definition in_width (w x : Z) : Prop := 0 <= x < 2 ^ w.

#[export] Instance in_width_dec w x : Decision (in_width w x).
Proof. unfold in_width. apply _. Defined.

Definition wrapping_add (w a b : Z) : Z := (a + b) mod 2 ^ w.
Definition wrapping_mul (w a b : Z) : Z := (a * b) mod 2 ^ w.
Definition saturating_add (w a b : Z) : Z := Z.min (a + b) (2 ^ w - 1).
Definition saturating_sub (a b : Z) : Z := Z.max 0 (a - b).
Definition saturating_mul (w a b : Z) : Z := Z.min (a * b) (2 ^ w - 1).
Definition checked_mul (w a b : Z) : option Z :=
  if a * b <? 2 ^ w then Some (a * b) else None.
Definition checked_sub (a b : Z) : option Z :=
  if b <=? a then Some (a - b) else None.

(** ** Results

    A call returns a value, returns an error, or panics. *)
Inductive result (E A : Type) : Type :=
| Ok (a : A)
| Err (e : E)
| Panic.
Arguments Ok {E A} a.
Arguments Err {E A} e.
Arguments Panic {E A}.

Declare Scope qc_scope.
Delimit Scope qc_scope with qc.

(** Rust's [?] operator on a pure call. *)
Definition rbind {E A B} (m : result E A) (k : A -> result E B) : result E B :=
  match m with Ok a => k a | Err e => Err e | Panic => Panic end.

(** [?] on a call that also threads the state [S]. *)
Definition sbind {S E A B} (m : S * result E A) (k : S -> A -> S * result E B)
  : S * result E B :=
  match m with
  | (s, Ok a) => k s a
  | (s, Err e) => (s, Err e)
  | (s, Panic) => (s, Panic)
  end.

Notation "'let?' x := m 'in' k" := (rbind m (fun x => k))
  (at level 10, x name, m at level 100, k at level 200) : qc_scope.
Notation "'let?' ( s , x ) := m 'in' k" := (sbind m (fun s x => k))
  (at level 10, s name, x name, m at level 100, k at level 200) : qc_scope.

Definition is_ok {E A} (r : result E A) : bool :=
  match r with Ok _ => true | _ => false end.

(** ** The interface of the [primitive-types] crate

    [U256] is a third-party type.  Its values are the naturals below [2^256];
    [*] and [+] panic when the exact result does not fit and [/] panics on a
    zero divisor, in every build profile.  [None] is the panic. *)
Class U256Ops : Type := {
  u256_mul : Z -> Z -> option Z;
  u256_add : Z -> Z -> option Z;
  u256_div : Z -> Z -> option Z
}.

Class U256Laws (U : U256Ops) : Prop := {
  u256_mul_spec a b : in_width 256 a -> in_width 256 b ->
    u256_mul a b = if a * b <? 2 ^ 256 then Some (a * b) else None;
  u256_add_spec a b : in_width 256 a -> in_width 256 b ->
    u256_add a b = if a + b <? 2 ^ 256 then Some (a + b) else None;
  u256_div_spec a b : in_width 256 a -> in_width 256 b ->
    u256_div a b = if b =? 0 then None else Some (a / b)
}.

(** A concrete implementation, used by the witnesses. *)
Definition exact_u256 : U256Ops := {|
  u256_mul a b := if a * b <? 2 ^ 256 then Some (a * b) else None;
  u256_add a b := if a + b <? 2 ^ 256 then Some (a + b) else None;
  u256_div a b := if b =? 0 then None else Some (a / b)
|}.

Lemma exact_u256_laws : U256Laws exact_u256.
Proof. by split. Qed.

(** ** Byte strings *)

(** [to_le_bytes]: the [n] little-endian bytes of [z]. *)
Fixpoint le_bytes (n : nat) (z : Z) : list Z :=
  match n with
  | O => []
  | S n => z mod 256 :: le_bytes n (z / 256)
  end.

(** The [n] big-endian bytes of [z]: the array a [Hash] or [Address] stands
    for, and [U256::to_big_endian]. *)
Definition be_bytes (n : nat) (z : Z) : list Z := reverse (le_bytes n z).

Abbreviation hash_bytes := (be_bytes 32).
Abbreviation address_bytes := (be_bytes 20).

(** [from_le_bytes] and [from_be_bytes]: the number the bytes spell. *)
Fixpoint from_le_bytes (l : list Z) : Z :=
  match l with
  | [] => 0
  | b :: l => b + 256 * from_le_bytes l
  end.
Definition from_be_bytes (l : list Z) : Z := from_le_bytes (reverse l).

(** ** Ordered iteration

    A [BTreeSet] or [BTreeMap] is a finite set or map whose iterators visit
    the elements in the order of their [Ord] instance.  On a total order the
    result of [sort] is unique and [merge_sort] computes it; where keys can tie
    the sort has to be stable, as Rust's is, and [stable_sort] is used. *)
Definition btree_iter {A} (R : relation A) `{!forall x y, Decision (R x y)}
  `{Countable A} (X : gset A) : list A := merge_sort R (elements X).

(** The keys of a [BTreeMap<u64, V>] in order, its first key, its values. *)
Definition btree_keys {V} (m : gmap Z V) : list Z :=
  merge_sort Z.le (elements (dom m)).
Definition btree_first_key {V} (m : gmap Z V) : option Z := head (btree_keys m).
Definition btree_values {V} (m : gmap Z V) : list V :=
  omap (fun k => m !! k) (btree_keys m).

(** [sort] on a vector of hashes. *)
Definition sort_hashes (l : list Hash) : list Hash := merge_sort Z.le l.

(** [sort_by]: the stable sort, by insertion. *)
Fixpoint stable_insert {A} (R : relation A) `{!forall x y, Decision (R x y)} (x : A)
  (l : list A) : list A :=
  match l with
  | [] => [x]
  | y :: l' => if decide (R x y) then x :: l else y :: stable_insert R x l'
  end.
Definition stable_sort {A} (R : relation A) `{!forall x y, Decision (R x y)} (l : list A)
  : list A := foldr (stable_insert R) [] l.

(** ** Transition sequences *)
Inductive star {A} (R : relation A) : relation A :=
| star_refl a : star R a a
| star_step a b c : R a b -> star R b c -> star R a c.

(** * Lemmas *)

Create HintDb qc discriminated.
Create Rewrite HintDb qc.

(** Splits every [match] and [if] of the goal and closes what the equations
    contradict. *)
Ltac split_matches := repeat (case_match; simplify_eq/=; try done).

(** Turns the boolean tests of the source into propositions. *)
Ltac bools :=
  repeat match goal with
  | H : (_ && _)%bool = true |- _ => apply andb_true_iff in H as [? ?]
  | H : (_ && _)%bool = false |- _ => apply andb_false_iff in H
  | H : (_ || _)%bool = false |- _ => apply orb_false_iff in H as [? ?]
  | H : (_ || _)%bool = true |- _ => apply orb_true_iff in H
  | H : negb _ = true |- _ => apply negb_true_iff in H
  | H : negb _ = false |- _ => apply negb_false_iff in H
  | H : (_ <? _) = true |- _ => apply Z.ltb_lt in H
  | H : (_ <? _) = false |- _ => apply Z.ltb_ge in H
  | H : (_ <=? _) = true |- _ => apply Z.leb_le in H
  | H : (_ <=? _) = false |- _ => apply Z.leb_gt in H
  | H : (_ =? _) = true |- _ => apply Z.eqb_eq in H
  | H : (_ =? _) = false |- _ => apply Z.eqb_neq in H
  | H : bool_decide _ = true |- _ => apply bool_decide_eq_true in H
  | H : bool_decide _ = false |- _ => apply bool_decide_eq_false in H
  end.

#[export] Instance Z_le_total : Total Z.le.
Proof. intros x y. lia. Qed.

Lemma star_trans {A} (R : relation A) a b c : star R a b -> star R b c -> star R a c.
Proof. induction 1; eauto using star. Qed.

Lemma star_invariant {A} (R : relation A) (I : A -> Prop) :
  (forall a b, I a -> R a b -> I b) -> forall a b, I a -> star R a b -> I b.
Proof. intros HI a b Ha. induction 1; eauto. Qed.

(** *** Machine integers *)

Lemma mod_width w x : 0 <= w -> in_width w (x mod 2 ^ w).
Proof. intros Hw. apply Z.mod_pos_bound. by apply Z.pow_pos_nonneg. Qed.

Lemma wrapping_add_width w a b : 0 <= w -> in_width w (wrapping_add w a b).
Proof. apply mod_width. Qed.

Lemma wrapping_add_small w a b : 0 <= a + b < 2 ^ w -> wrapping_add w a b = a + b.
Proof. intros. by apply Z.mod_small. Qed.

(** *** Bits *)

(** A bitwise operation that keeps zeros stays within the width. *)
Lemma bits_width (w x : Z) : 0 <= w -> 0 <= x ->
  (forall i, w <= i -> Z.testbit x i = false) -> in_width w x.
Proof.
  intros Hw Hx Hb. split; [done|]. destruct (Z.lt_ge_cases x (2 ^ w)) as [|Hge]; [done|].
  pose proof (Z.pow_pos_nonneg 2 w ltac:(lia) Hw).
  specialize (Hb (Z.log2 x)). rewrite Z.bit_log2 in Hb by lia.
  assert (w <= Z.log2 x) by (apply Z.log2_le_pow2; lia). by discriminate Hb.
Qed.

Lemma width_bits w x i : 0 <= w -> in_width w x -> w <= i -> Z.testbit x i = false.
Proof.
  intros Hw [H0 H1] Hi. destruct (Z.eq_dec x 0) as [->|]; [apply Z.bits_0|].
  apply Z.bits_above_log2; [done|]. apply Z.log2_lt_pow2 in H1; lia.
Qed.

Lemma land_width w a b : 0 <= w -> in_width w a -> in_width w b -> in_width w (Z.land a b).
Proof.
  intros Hw Ha Hb. apply bits_width; [done| |].
  - apply Z.land_nonneg. left. apply Ha.
  - intros i Hi. by rewrite Z.land_spec, (width_bits w a) by done.
Qed.

Lemma lor_width w a b : 0 <= w -> in_width w a -> in_width w b -> in_width w (Z.lor a b).
Proof.
  intros Hw Ha Hb. apply bits_width; [done| |].
  - apply Z.lor_nonneg. split; [apply Ha|apply Hb].
  - intros i Hi. by rewrite Z.lor_spec, (width_bits w a), (width_bits w b) by done.
Qed.

Lemma lxor_width w a b : 0 <= w -> in_width w a -> in_width w b -> in_width w (Z.lxor a b).
Proof.
  intros Hw Ha Hb. apply bits_width; [done| |].
  - apply Z.lxor_nonneg. split; intros _; [apply Hb|apply Ha].
  - intros i Hi. by rewrite Z.lxor_spec, (width_bits w a), (width_bits w b) by done.
Qed.

(** *** Bytes *)

Lemma length_le_bytes n z : length (le_bytes n z) = n.
Proof. revert z. induction n; intros; simpl; auto. Qed.

Lemma length_be_bytes n z : length (be_bytes n z) = n.
Proof. unfold be_bytes. by rewrite length_reverse, length_le_bytes. Qed.

#[export] Hint Rewrite length_le_bytes length_be_bytes : qc.

Lemma le_bytes_inj n : forall x y,
  0 <= x < 256 ^ Z.of_nat n -> 0 <= y < 256 ^ Z.of_nat n ->
  le_bytes n x = le_bytes n y -> x = y.
Proof.
  induction n as [|n IH]; intros x y Hx Hy Heq.
  { change (256 ^ Z.of_nat 0) with 1 in *. lia. }
  rewrite Nat2Z.inj_succ, Z.pow_succ_r in Hx, Hy by lia.
  simpl in Heq. injection Heq as Hm Hd.
  apply IH in Hd.
  - rewrite (Z.div_mod x 256), (Z.div_mod y 256) by lia. by rewrite Hm, Hd.
  - split; [apply Z.div_pos; lia | apply Z.div_lt_upper_bound; lia].
  - split; [apply Z.div_pos; lia | apply Z.div_lt_upper_bound; lia].
Qed.

Lemma be_bytes_inj n x y :
  0 <= x < 256 ^ Z.of_nat n -> 0 <= y < 256 ^ Z.of_nat n ->
  be_bytes n x = be_bytes n y -> x = y.
Proof.
  intros Hx Hy H. apply (f_equal reverse) in H. unfold be_bytes in H.
  rewrite !reverse_involutive in H. by apply (le_bytes_inj n).
Qed.

Lemma hash_bytes_inj x y : in_width 256 x -> in_width 256 y ->
  hash_bytes x = hash_bytes y -> x = y.
Proof.
  unfold in_width. intros Hx Hy. apply be_bytes_inj;
  change (256 ^ Z.of_nat 32) with (2 ^ 256); lia.
Qed.

Lemma from_le_bytes_to n : forall x, 0 <= x < 256 ^ Z.of_nat n ->
  from_le_bytes (le_bytes n x) = x.
Proof.
  induction n as [|n IH]; intros x Hx.
  { change (256 ^ Z.of_nat 0) with 1 in *. simpl. lia. }
  rewrite Nat2Z.inj_succ, Z.pow_succ_r in Hx by lia. simpl. rewrite IH.
  - pose proof (Z.div_mod x 256). lia.
  - split; [apply Z.div_pos; lia | apply Z.div_lt_upper_bound; lia].
Qed.

Lemma from_be_bytes_to n x : 0 <= x < 256 ^ Z.of_nat n ->
  from_be_bytes (be_bytes n x) = x.
Proof.
  intros Hx. unfold from_be_bytes, be_bytes. rewrite reverse_involutive.
  by apply from_le_bytes_to.
Qed.

Lemma le_bytes_bytes n : forall x, Forall (in_width 8) (le_bytes n x).
Proof.
  induction n as [|n IH]; intros x; simpl; constructor; [|done].
  apply Z.mod_pos_bound. lia.
Qed.

Lemma be_bytes_bytes n x : Forall (in_width 8) (be_bytes n x).
Proof. unfold be_bytes. apply Forall_reverse, le_bytes_bytes. Qed.

Lemma le_bytes_snoc n : forall x,
  le_bytes (S n) x = le_bytes n x ++ [(x / 256 ^ Z.of_nat n) mod 256].
Proof.
  induction n as [|n IH]; intros x.
  { cbn. by rewrite Z.div_1_r. }
  change (le_bytes (S (S n)) x) with (x mod 256 :: le_bytes (S n) (x / 256)).
  rewrite IH. cbn [le_bytes app]. do 3 f_equal.
  rewrite Nat2Z.inj_succ, Z.pow_succ_r, Z.div_div by lia. done.
Qed.

(** The most significant byte comes first. *)
Lemma be_bytes_cons n x :
  be_bytes (S n) x = (x / 256 ^ Z.of_nat n) mod 256 :: be_bytes n x.
Proof. unfold be_bytes. by rewrite le_bytes_snoc, reverse_app. Qed.

(** The numbers bytes spell are bounded by their count. *)
Lemma from_le_bytes_width l : Forall (in_width 8) l ->
  0 <= from_le_bytes l < 256 ^ Z.of_nat (length l).
Proof.
  induction 1 as [|b l Hb _ IH]; simpl length; simpl from_le_bytes; [lia|].
  rewrite Nat2Z.inj_succ, Z.pow_succ_r by lia. unfold in_width in Hb.
  change (2 ^ 8) with 256 in Hb. nia.
Qed.

Lemma from_be_bytes_bound l : Forall (in_width 8) l ->
  0 <= from_be_bytes l < 256 ^ Z.of_nat (length l).
Proof.
  intros Hl. unfold from_be_bytes. rewrite <-(length_reverse l).
  apply from_le_bytes_width. by apply Forall_reverse.
Qed.

(** The bytes of the number bytes spell are those bytes. *)
Lemma le_bytes_from l : Forall (in_width 8) l -> le_bytes (length l) (from_le_bytes l) = l.
Proof.
  induction 1 as [|b l Hb _ IH]; [done|]. cbn [length le_bytes from_le_bytes].
  unfold in_width in Hb. change (2 ^ 8) with 256 in Hb. f_equal.
  - rewrite Z.mul_comm, Z.mod_add by lia. apply Z.mod_small. lia.
  - rewrite Z.mul_comm, Z.div_add, Z.div_small by lia. exact IH.
Qed.

Lemma from_le_bytes_app l k : from_le_bytes (l ++ k) =
  from_le_bytes l + 256 ^ Z.of_nat (length l) * from_le_bytes k.
Proof.
  induction l as [|b l IH]; cbn [app from_le_bytes length].
  - change (256 ^ Z.of_nat 0) with 1. lia.
  - rewrite IH, Nat2Z.inj_succ, Z.pow_succ_r by lia. lia.
Qed.

Lemma from_be_bytes_cons b l : from_be_bytes (b :: l) =
  b * 256 ^ Z.of_nat (length l) + from_be_bytes l.
Proof.
  unfold from_be_bytes. rewrite reverse_cons, from_le_bytes_app, length_reverse. cbn. lia.
Qed.

#[global] Opaque le_bytes be_bytes.

(** *** Ordered iteration *)

Section btree.
Context {A : Type} `{Countable A} (R : relation A) `{!forall x y, Decision (R x y)}.

Lemma btree_iter_perm (X : gset A) : btree_iter R X ≡ₚ elements X.
Proof. apply merge_sort_Permutation. Qed.

Lemma elem_of_btree_iter (X : gset A) x : x ∈ btree_iter R X <-> x ∈ X.
Proof. rewrite btree_iter_perm. apply elem_of_elements. Qed.

Lemma NoDup_btree_iter (X : gset A) : NoDup (btree_iter R X).
Proof. rewrite btree_iter_perm. apply NoDup_elements. Qed.

Lemma btree_iter_sorted `{!Transitive R} `{!Total R} (X : gset A) :
  StronglySorted R (btree_iter R X).
Proof. apply StronglySorted_merge_sort; apply _. Qed.

End btree.

Lemma StronglySorted_last {A} (R : relation A) `{!Reflexive R} (l : list A) x y :
  StronglySorted R l -> last l = Some y -> x ∈ l -> R x y.
Proof.
  induction 1 as [|a l Hs IH Hall]; intros Hl Hx; [done|].
  destruct l as [|b l]; simpl in *.
  - simplify_eq. by apply list_elem_of_singleton in Hx as ->.
  - apply elem_of_cons in Hx as [->|Hx]; [|by apply IH].
    apply (proj1 (Forall_forall _ _) Hall). by apply last_Some_elem_of.
Qed.

Lemma btree_first_key_spec {V} (m : gmap Z V) k :
  btree_first_key m = Some k ->
  is_Some (m !! k) /\ forall k', is_Some (m !! k') -> k <= k'.
Proof.
  unfold btree_first_key, btree_keys. intros Hk.
  assert (Hm : forall j, j ∈ merge_sort Z.le (elements (dom m)) <-> is_Some (m !! j)).
  { intros j. by rewrite merge_sort_Permutation, elem_of_elements, elem_of_dom. }
  pose proof (StronglySorted_merge_sort Z.le (elements (dom m))) as Hs.
  destruct (merge_sort _ _) as [|k0 l]; simplify_eq/=.
  split; [apply Hm; left|]. intros k' Hk'. apply Hm in Hk'.
  apply elem_of_cons in Hk' as [->|Hin]; [lia|].
  inversion Hs as [|? ? ? Hall]; subst. exact (proj1 (Forall_forall _ _) Hall _ Hin).
Qed.

Lemma btree_first_key_None {V} (m : gmap Z V) : btree_first_key m = None -> m = ∅.
Proof.
  unfold btree_first_key, btree_keys. intros Hk.
  destruct (merge_sort _ _) as [|k0 l] eqn:E; [|done].
  pose proof (merge_sort_Permutation Z.le (elements (dom m))) as P.
  rewrite E in P. apply Permutation_nil_l in P. symmetry in P.
  apply elements_empty_inv in P. apply dom_empty_inv_L. set_solver.
Qed.

Lemma sort_hashes_perm l : sort_hashes l ≡ₚ l.
Proof. apply merge_sort_Permutation. Qed.

Lemma sort_hashes_sorted l : StronglySorted Z.le (sort_hashes l).
Proof. apply StronglySorted_merge_sort; apply _. Qed.

Lemma sorted_lookup {A} (R : relation A) l i j x y : StronglySorted R l ->
  (i < j)%nat -> l !! i = Some x -> l !! j = Some y -> R x y.
Proof.
  intros Hs. revert i j. induction Hs as [|z l Hs IH Hall]; intros i j Hlt Hi Hj; [done|].
  destruct i as [|i], j as [|j]; simplify_eq/=; [lia| |lia|apply (IH i j); [lia|done..]].
  apply (proj1 (Forall_forall _ _) Hall). by eapply list_elem_of_lookup_2.
Qed.

Section stable_sort.
Context {A : Type} (R : relation A) `{!forall x y, Decision (R x y)}.

Lemma stable_insert_perm x l : stable_insert R x l ≡ₚ x :: l.
Proof.
  induction l as [|y l IH]; simpl; [done|]. case_decide; [done|]. rewrite IH. constructor.
Qed.

Lemma stable_sort_perm l : stable_sort R l ≡ₚ l.
Proof. induction l as [|x l IH]; simpl; [done|]. by rewrite stable_insert_perm, IH. Qed.

Lemma stable_insert_sorted `{!Transitive R} `{!Total R} x l :
  StronglySorted R l -> StronglySorted R (stable_insert R x l).
Proof.
  induction 1 as [|y l Hs IH Hall]; simpl; [by repeat constructor|].
  case_decide as E.
  - repeat constructor; [done|done|done|]. eapply Forall_impl; [exact Hall|]. intros z Hz.
    by transitivity y.
  - constructor; [done|]. rewrite stable_insert_perm. constructor; [|done].
    by destruct (total R x y).
Qed.

Lemma stable_sort_sorted `{!Transitive R} `{!Total R} l : StronglySorted R (stable_sort R l).
Proof. induction l; simpl; [constructor|]. by apply stable_insert_sorted. Qed.

(** A stable sort leaves a sorted list alone. *)
Lemma stable_sort_id l : StronglySorted R l -> stable_sort R l = l.
Proof.
  induction 1 as [|x l Hs IH Hall]; simpl; [done|]. rewrite IH.
  destruct Hall as [|y l Hxy _]; simpl; [done|]. by rewrite decide_True.
Qed.

End stable_sort.

(** *** Filtering *)

Lemma filter_all {A} (P : A -> Prop) `{!forall x, Decision (P x)} (l : list A) :
  Forall P l -> base.filter P l = l.
Proof.
  induction 1 as [|x l Hx _ IH]; [done|]. by rewrite filter_cons_True, IH.
Qed.

Lemma filter_none {A} (P : A -> Prop) `{!forall x, Decision (P x)} (l : list A) :
  Forall (fun x => ~ P x) l -> base.filter P l = [].
Proof.
  induction 1 as [|x l Hx _ IH]; [done|]. by rewrite filter_cons_False, IH.
Qed.

(** *** Loops *)

(** An invariant of the body of a [for] loop is an invariant of the loop. *)
Lemma foldl_inv {S X} (f : S -> X -> S) (I : S -> Prop) :
  (forall s x, I s -> I (f s x)) -> forall l s, I s -> I (foldl f s l).
Proof. intros Hf l. induction l; intros s Hs; simpl; auto. Qed.

(** *** Maps *)

Lemma size_delete_le {K A} `{Countable K} (m : gmap K A) k : (size (delete k m) <= size m)%nat.
Proof. apply map_subseteq_size, delete_subseteq. Qed.

(** Inserting entries one after the other, when no key comes twice. *)
Lemma foldl_insert_map {K A} `{Countable K} (l : list (K * A)) : forall m : gmap K A,
  NoDup l.*1 -> foldl (fun m e => <[e.1 := e.2]> m) m l = list_to_map l ∪ m.
Proof.
  induction l as [|[k v] l IH]; intros m Hnd; simpl; [by rewrite (left_id_L ∅ (∪))|].
  simpl in Hnd. apply NoDup_cons in Hnd as [Hn Hnd]. rewrite IH by done.
  rewrite <-insert_union_r by (by apply not_elem_of_list_to_map_1). apply insert_union_l.
Qed.
