(* ===== verification/SharedTypes.v ===== *)
(** * The [shared-types] crate: signed transactions and their hash

    [SignedTransaction] of [crates/shared-types/src/entities.rs], with the byte
    string its [hash] method feeds to SHA-256.  SHA-256 is the third-party
    [sha2] crate, so it is an argument of the definitions that use it. *)

From S2P Require Import Prelude.
Local Open Scope Z_scope.

Record SignedTransaction := {
  st_from : Address;
  st_to : option Address;
  st_value : U256;
  st_nonce : u64;
  st_gas_price : U256;
  st_gas_limit : u64;
  st_data : list u8;
  st_signature : list u8
}.

(** The bytes [hash] passes to the hasher, in the order of its [update] calls. *)
Definition hash_preimage (t : SignedTransaction) : list u8 :=
  address_bytes (st_from t)
  ++ (match st_to t with Some a => address_bytes a | None => [] end)
  ++ be_bytes 32 (st_value t)
  ++ le_bytes 8 (st_nonce t)
  ++ be_bytes 32 (st_gas_price t)
  ++ le_bytes 8 (st_gas_limit t)
  ++ st_data t.

Definition hash (sha256 : list u8 -> Hash) (t : SignedTransaction) : Hash :=
  sha256 (hash_preimage t).

Definition sender (t : SignedTransaction) : Address := st_from t.

(** [value + gas_price * gas_limit]; [None] is the panic of [U256] arithmetic. *)
Definition total_cost `{U256Ops} (t : SignedTransaction) : option U256 :=
  cost ← u256_mul (st_gas_price t) (st_gas_limit t);
  u256_add (st_value t) cost.

(** The fields are in the range of their Rust types. *)
Record tx_in_range (t : SignedTransaction) : Prop := {
  tir_from : in_width 160 (st_from t);
  tir_to : forall a, st_to t = Some a -> in_width 160 a;
  tir_value : in_width 256 (st_value t);
  tir_nonce : in_width 64 (st_nonce t);
  tir_gas_price : in_width 256 (st_gas_price t);
  tir_gas_limit : in_width 64 (st_gas_limit t);
  tir_data : Forall (fun b => in_width 8 b) (st_data t)
}.

(** ** Lemmas *)

(** Two equal concatenations whose first parts have the same length. *)
Lemma app_inj_length {A} (l1 l2 k1 k2 : list A) :
  length l1 = length k1 -> l1 ++ l2 = k1 ++ k2 -> l1 = k1 /\ l2 = k2.
Proof. intros Hl H. by apply app_inj_1 in H. Qed.

(** Among transactions that agree on whether they create a contract, the
    preimage determines every field but the signature. *)
Lemma hash_preimage_inj t1 t2 :
  tx_in_range t1 -> tx_in_range t2 ->
  (is_Some (st_to t1) <-> is_Some (st_to t2)) ->
  hash_preimage t1 = hash_preimage t2 ->
  st_from t1 = st_from t2 /\ st_to t1 = st_to t2 /\ st_value t1 = st_value t2
  /\ st_nonce t1 = st_nonce t2 /\ st_gas_price t1 = st_gas_price t2
  /\ st_gas_limit t1 = st_gas_limit t2 /\ st_data t1 = st_data t2.
Proof.
  intros [] [] Hto. unfold hash_preimage. intros Heq.
  apply app_inj_length in Heq as [Hf Heq]; [|by autorewrite with qc].
  apply app_inj_length in Heq as [Ht Heq];
    [|destruct (st_to t1), (st_to t2); autorewrite with qc; try done;
      [by destruct (proj1 Hto (ex_intro _ _ eq_refl)) |
       by destruct (proj2 Hto (ex_intro _ _ eq_refl))]].
  apply app_inj_length in Heq as [Hv Heq]; [|by autorewrite with qc].
  apply app_inj_length in Heq as [Hn Heq]; [|by autorewrite with qc].
  apply app_inj_length in Heq as [Hp Heq]; [|by autorewrite with qc].
  apply app_inj_length in Heq as [Hl Hd]; [|by autorewrite with qc].
  repeat split; try done.
  - by apply (be_bytes_inj 20).
  - destruct (st_to t1) as [a|] eqn:E1, (st_to t2) as [b|] eqn:E2; try done.
    f_equal. apply (be_bytes_inj 20); [by apply tir_to0 | by apply tir_to1 | done].
  - by apply hash_bytes_inj.
  - by apply (le_bytes_inj 8).
  - by apply hash_bytes_inj.
  - by apply (le_bytes_inj 8).
Qed.

(** ** Properties *)

(** A zero-value call of address 1 with an empty payload. *)
Definition call_of_one : SignedTransaction := {|
  st_from := 7; st_to := Some 1; st_value := 0; st_nonce := 0;
  st_gas_price := 0; st_gas_limit := 0; st_data := []; st_signature := [] |}.

(** The same call with a one-byte payload. *)
Definition call_of_one_with_payload : SignedTransaction := {|
  st_from := 7; st_to := Some 1; st_value := 0; st_nonce := 0;
  st_gas_price := 0; st_gas_limit := 0; st_data := [9]; st_signature := [] |}.

(** A contract creation that endows the contract with [2^96] units. *)
Definition creation_with_value : SignedTransaction := {|
  st_from := 7; st_to := None; st_value := 2 ^ 96; st_nonce := 0;
  st_gas_price := 0; st_gas_limit := 0; st_data := replicate 20 0; st_signature := [] |}.

Ltac solve_tx_range :=
  split; intros; simplify_eq/=; try (split; vm_compute; congruence);
  repeat constructor; vm_compute; congruence.

Lemma call_of_one_in_range : tx_in_range call_of_one.
Proof. solve_tx_range. Qed.

Lemma call_of_one_with_payload_in_range : tx_in_range call_of_one_with_payload.
Proof. solve_tx_range. Qed.

Lemma creation_with_value_in_range : tx_in_range creation_with_value.
Proof. solve_tx_range. Qed.

(** A transaction hash commits to the transaction.  If two
    well-formed transactions that are both calls or both creations have the
    same [hash], then they agree on sender, recipient, value, nonce, gas price,
    gas limit and payload, or the pair exhibits two different byte strings with
    the same SHA-256 digest. *)
Theorem tx_hash_commits (sha256 : list u8 -> Hash) t1 t2
  (R1 : tx_in_range t1) (R2 : tx_in_range t2)
  (Hto : is_Some (st_to t1) <-> is_Some (st_to t2))
  (Hh : hash sha256 t1 = hash sha256 t2) :
  (st_from t1 = st_from t2 /\ st_to t1 = st_to t2 /\ st_value t1 = st_value t2
   /\ st_nonce t1 = st_nonce t2 /\ st_gas_price t1 = st_gas_price t2
   /\ st_gas_limit t1 = st_gas_limit t2 /\ st_data t1 = st_data t2)
  \/ (hash_preimage t1 <> hash_preimage t2
      /\ sha256 (hash_preimage t1) = sha256 (hash_preimage t2)).
Proof.
  destruct (decide (hash_preimage t1 = hash_preimage t2)) as [E|E];
    [left; by apply hash_preimage_inj | by right].
Qed.

Lemma tx_hash_commits_witness :
  hash_preimage call_of_one <> hash_preimage call_of_one_with_payload
  /\ (fun _ => 0) (hash_preimage call_of_one)
     = (fun _ : list u8 => 0) (hash_preimage call_of_one_with_payload).
Proof.
  destruct (tx_hash_commits (fun _ => 0) call_of_one call_of_one_with_payload
    call_of_one_in_range call_of_one_with_payload_in_range) as [H|H];
  [split; eexists; reflexivity | reflexivity | | exact H].
  destruct H as (_ & _ & _ & _ & _ & _ & H). discriminate H.
Defined.

(** The hash does not commit to whether a recipient is present.
    For every hash function, the zero-value call of address 1 and the creation
    that carries [2^96] units have the same [hash], although both are
    well-formed and they differ in recipient, value and payload. *)
Theorem tx_hash_recipient_ambiguous (sha256 : list u8 -> Hash) :
  tx_in_range call_of_one /\ tx_in_range creation_with_value
  /\ st_to call_of_one <> st_to creation_with_value
  /\ st_value call_of_one <> st_value creation_with_value
  /\ hash sha256 call_of_one = hash sha256 creation_with_value.
Proof.
  split; [apply call_of_one_in_range|]. split; [apply creation_with_value_in_range|].
  do 2 (split; [done|]). by unfold hash; f_equal.
Qed.
