(* ===== verification/Blocks.v ===== *)
(** * The [shared-types] crate: blocks

    Block headers, validated blocks and the proofs attached to them
    ([crates/shared-types/src/entities.rs]): what consensus hands to block
    storage.  Public keys are 32 bytes and signatures 64 bytes, kept as byte
    lists. *)

From S2P Require Import Prelude.
Local Open Scope Z_scope.

Record BlockHeader := {
  bh_version : Z;
  bh_height : u64;
  bh_parent_hash : Hash;
  bh_merkle_root : Hash;
  bh_state_root : Hash;
  bh_timestamp : u64;
  bh_proposer : list u8;
  bh_difficulty : U256;
  bh_nonce : u64
}.

Record Transaction := {
  rt_from : list u8;
  rt_to : option (list u8);
  rt_value : u64;
  rt_nonce : u64;
  rt_data : list u8;
  rt_signature : list u8
}.

Record ValidatedTransaction := {
  vt_inner : Transaction;
  vt_tx_hash : Hash
}.

Record BlockAttestation := {
  ba_block_hash : Hash;
  ba_epoch : u64;
  ba_validator : list u8;
  ba_signature : list u8
}.

Record ConsensusProof := {
  cp_block_hash : Hash;
  cp_attestations : list BlockAttestation;
  cp_total_stake : u64
}.

Record ValidatedBlock := {
  vb_header : BlockHeader;
  vb_transactions : list ValidatedTransaction;
  vb_consensus_proof : ConsensusProof
}.

Definition vb_height (b : ValidatedBlock) : u64 := bh_height (vb_header b).
Definition vb_parent_hash (b : ValidatedBlock) : Hash := bh_parent_hash (vb_header b).

(** The header fields a block hash is computed from and the transaction hashes
    are in the range of their Rust types. *)
Record block_in_range (b : ValidatedBlock) : Prop := {
  bir_height : in_width 64 (vb_height b);
  bir_parent : in_width 256 (vb_parent_hash b);
  bir_merkle : in_width 256 (bh_merkle_root (vb_header b));
  bir_state : in_width 256 (bh_state_root (vb_header b));
  bir_timestamp : in_width 64 (bh_timestamp (vb_header b));
  bir_txs : Forall (fun t => in_width 256 (vt_tx_hash t)) (vb_transactions b)
}.

#[export] Instance BlockHeader_eq_dec : EqDecision BlockHeader.
Proof. solve_decision. Defined.
#[export] Instance Transaction_eq_dec : EqDecision Transaction.
Proof. solve_decision. Defined.
#[export] Instance ValidatedTransaction_eq_dec : EqDecision ValidatedTransaction.
Proof. solve_decision. Defined.
#[export] Instance BlockAttestation_eq_dec : EqDecision BlockAttestation.
Proof. solve_decision. Defined.
#[export] Instance ConsensusProof_eq_dec : EqDecision ConsensusProof.
Proof. solve_decision. Defined.
#[export] Instance ValidatedBlock_eq_dec : EqDecision ValidatedBlock.
Proof. solve_decision. Defined.
