(* ===== verification/Mempool.v ===== *)
(** * The mempool: transactions, priority order and the transaction pool

    Models [crates/qc-06-mempool/src/domain/]: [entities.rs] and
    [value_objects.rs] (transaction states, configuration, the priority order)
    and [pool.rs] (the three indices and the two-phase commit).  Fields carry a
    prefix for the struct they belong to ([mt_] MempoolTransaction, [mc_]
    MempoolConfig, [pt_] PricedTransaction, [pib_] PendingInclusionBatch, [pr_]
    ProposeResult, [ms_] MempoolStatus); operations keep the names of the
    source. *)

From S2P Require Import Prelude SharedTypes.
Local Open Scope Z_scope.
Local Open Scope qc_scope.

(** ** [entities.rs] *)

Inductive TransactionState :=
| Pending
| PendingInclusion (block_height : u64) (proposed_at : Timestamp).

Record MempoolTransaction := {
  mt_transaction : SignedTransaction;
  mt_hash : Hash;
  mt_sender : Address;
  mt_nonce : u64;
  mt_gas_price : U256;
  mt_gas_limit : u64;
  mt_state : TransactionState;
  mt_added_at : Timestamp;
  mt_target_block : option u64
}.

(** [MempoolTransaction::new]; SHA-256 is a parameter. *)
Definition mempool_transaction_new (sha256 : list u8 -> Hash)
  (transaction : SignedTransaction) (added_at : Timestamp) : MempoolTransaction := {|
  mt_transaction := transaction;
  mt_hash := hash sha256 transaction;
  mt_sender := sender transaction;
  mt_nonce := st_nonce transaction;
  mt_gas_price := st_gas_price transaction;
  mt_gas_limit := st_gas_limit transaction;
  mt_state := Pending;
  mt_added_at := added_at;
  mt_target_block := None
|}.

Definition gas_cost `{U256Ops} (tx : MempoolTransaction) : option U256 :=
  u256_mul (mt_gas_price tx) (mt_gas_limit tx).

Definition mempool_total_cost `{U256Ops} (tx : MempoolTransaction) : option U256 :=
  cost ← gas_cost tx; u256_add (st_value (mt_transaction tx)) cost.

Definition is_pending (tx : MempoolTransaction) : bool :=
  match mt_state tx with Pending => true | PendingInclusion _ _ => false end.

Definition is_pending_inclusion (tx : MempoolTransaction) : bool :=
  match mt_state tx with PendingInclusion _ _ => true | Pending => false end.

Definition set_state (tx : MempoolTransaction) (s : TransactionState)
  (target : option u64) : MempoolTransaction := {|
  mt_transaction := mt_transaction tx; mt_hash := mt_hash tx;
  mt_sender := mt_sender tx; mt_nonce := mt_nonce tx;
  mt_gas_price := mt_gas_price tx; mt_gas_limit := mt_gas_limit tx;
  mt_state := s; mt_added_at := mt_added_at tx; mt_target_block := target
|}.

(** [MempoolTransaction::propose]; the error is a message string. *)
Definition tx_propose (tx : MempoolTransaction) (block_height : u64) (now : Timestamp)
  : MempoolTransaction * result unit unit :=
  if is_pending_inclusion tx then (tx, Err tt)
  else (set_state tx (PendingInclusion block_height now) (Some block_height), Ok tt).

(** [MempoolTransaction::rollback]. *)
Definition tx_rollback (tx : MempoolTransaction)
  : MempoolTransaction * result unit unit :=
  if negb (is_pending_inclusion tx) then (tx, Err tt)
  else (set_state tx Pending None, Ok tt).

Definition is_timed_out (tx : MempoolTransaction) (now : Timestamp) (timeout_ms : u64)
  : bool :=
  match mt_state tx with
  | PendingInclusion _ proposed_at => timeout_ms <=? saturating_sub now proposed_at
  | Pending => false
  end.

Record MempoolConfig := {
  mc_max_transactions : usize;
  mc_max_per_account : usize;
  mc_min_gas_price : U256;
  mc_max_gas_per_tx : u64;
  mc_pending_inclusion_timeout_ms : u64;
  mc_nonce_gap_timeout_ms : u64;
  mc_enable_rbf : bool;
  mc_rbf_min_bump_percent : u64
}.

Definition mempool_config_default : MempoolConfig := {|
  mc_max_transactions := 5000;
  mc_max_per_account := 16;
  mc_min_gas_price := 1000000000;
  mc_max_gas_per_tx := 30000000;
  mc_pending_inclusion_timeout_ms := 30000;
  mc_nonce_gap_timeout_ms := 600000;
  mc_enable_rbf := true;
  mc_rbf_min_bump_percent := 10
|}.

(** ** [value_objects.rs] *)

Record PricedTransaction := {
  pt_gas_price : U256;
  pt_hash : Hash;
  pt_added_at : Timestamp
}.

(** [Ord for PricedTransaction]: price descending, then time, then hash. *)
Definition priced_cmp (self other : PricedTransaction) : comparison :=
  match pt_gas_price other ?= pt_gas_price self with
  | Eq =>
      match pt_added_at self ?= pt_added_at other with
      | Eq => pt_hash self ?= pt_hash other
      | c => c
      end
  | c => c
  end.

Definition priced_le (a b : PricedTransaction) : Prop := priced_cmp a b <> Gt.

Record PendingInclusionBatch := {
  pib_block_height : u64;
  pib_block_hash : option Hash;
  pib_proposed_at : Timestamp;
  pib_transaction_hashes : list Hash
}.

Definition pending_inclusion_batch_new (block_height : u64) (proposed_at : Timestamp)
  (transaction_hashes : list Hash) : PendingInclusionBatch := {|
  pib_block_height := block_height;
  pib_block_hash := None;
  pib_proposed_at := proposed_at;
  pib_transaction_hashes := transaction_hashes
|}.

Record MempoolStatus := {
  ms_pending_count : usize;
  ms_pending_inclusion_count : usize;
  ms_total_gas : u64;
  ms_memory_bytes : usize;
  ms_oldest_tx_age_ms : u64
}.

Record ProposeResult := {
  pr_proposed_count : usize;
  pr_already_pending : list Hash;
  pr_not_found : list Hash
}.

#[export] Instance priced_eq_dec : EqDecision PricedTransaction.
Proof. solve_decision. Defined.

#[export] Program Instance priced_countable : Countable PricedTransaction :=
  inj_countable' (fun p => (pt_gas_price p, pt_hash p, pt_added_at p))
                 (fun '(g, h, a) => Build_PricedTransaction g h a) _.
Next Obligation. by intros []. Qed.

#[export] Instance comparison_eq_dec : EqDecision comparison.
Proof. solve_decision. Defined.

#[export] Instance priced_le_dec a b : Decision (priced_le a b).
Proof. unfold priced_le. apply _. Defined.

(** [PricedTransaction::new(tx.gas_price, tx.hash, tx.added_at)]. *)
Definition priced (tx : MempoolTransaction) : PricedTransaction := {|
  pt_gas_price := mt_gas_price tx; pt_hash := mt_hash tx; pt_added_at := mt_added_at tx
|}.

(** ** [errors.rs], the errors the pool returns *)

Inductive MempoolError :=
| DuplicateTransaction (h : Hash)
| GasPriceTooLow (price minimum : U256)
| GasLimitTooHigh (limit maximum : u64)
| AccountLimitReached (address : Address) (limit : usize)
| PoolFull (capacity : usize)
| TransactionNotFound (h : Hash)
| InsufficientFeeBump (old_price new_price : U256) (min_bump_percent : u64)
| RbfDisabled
| TransactionPendingInclusion (h : Hash).

(** ** [pool.rs] *)

Module TransactionPool.

Record TransactionPool := {
  config : MempoolConfig;
  by_hash : gmap Hash MempoolTransaction;
  by_price : gset PricedTransaction;
  by_sender : gmap Address (gmap u64 Hash);
  pending_batches : list PendingInclusionBatch
}.

Definition new (config : MempoolConfig) : TransactionPool := {|
  config := config; by_hash := ∅; by_price := ∅; by_sender := ∅; pending_batches := []
|}.

Definition set_indices (p : TransactionPool) (bh : gmap Hash MempoolTransaction)
  (bp : gset PricedTransaction) (bs : gmap Address (gmap u64 Hash)) : TransactionPool := {|
  config := config p; by_hash := bh; by_price := bp; by_sender := bs;
  pending_batches := pending_batches p
|}.

Definition set_batches (p : TransactionPool) (b : list PendingInclusionBatch)
  : TransactionPool := {|
  config := config p; by_hash := by_hash p; by_price := by_price p;
  by_sender := by_sender p; pending_batches := b
|}.

Definition len (p : TransactionPool) : usize := Z.of_nat (size (by_hash p)).
Definition is_empty (p : TransactionPool) : bool := bool_decide (by_hash p = ∅).
Definition pending_count (p : TransactionPool) : usize := Z.of_nat (size (by_price p)).
Definition pending_inclusion_count (p : TransactionPool) : usize :=
  wrapping_add 64 (len p) (- pending_count p).
Definition get (p : TransactionPool) (hash : Hash) : option MempoolTransaction :=
  by_hash p !! hash.
Definition contains (p : TransactionPool) (hash : Hash) : bool :=
  bool_decide (is_Some (by_hash p !! hash)).
Definition get_state (p : TransactionPool) (hash : Hash) : option TransactionState :=
  mt_state <$> by_hash p !! hash.

(** [self.by_sender.get(sender).map(|m| m.len()).unwrap_or(0)]. *)
Definition sender_count (p : TransactionPool) (sender : Address) : usize :=
  match by_sender p !! sender with Some m => Z.of_nat (size m) | None => 0 end.

Definition sender_transactions (p : TransactionPool) (sender : Address) : list Hash :=
  match by_sender p !! sender with Some m => btree_values m | None => [] end.

(** [by_sender.get(sender).and_then(|m| m.get(nonce)).copied()]. *)
Definition existing_hash (p : TransactionPool) (sender : Address) (nonce : u64)
  : option Hash := by_sender p !! sender ≫= (fun m => m !! nonce).

Definition remove_internal (hash : Hash) (p : TransactionPool)
  : TransactionPool * result MempoolError MempoolTransaction :=
  match by_hash p !! hash with
  | None => (p, Err (TransactionNotFound hash))
  | Some tx =>
      let bs :=
        match by_sender p !! mt_sender tx with
        | Some sender_txs =>
            let sender_txs := delete (mt_nonce tx) sender_txs in
            if bool_decide (sender_txs = ∅) then delete (mt_sender tx) (by_sender p)
            else <[mt_sender tx := sender_txs]> (by_sender p)
        | None => by_sender p
        end in
      (set_indices p (delete hash (by_hash p)) (by_price p ∖ {[priced tx]}) bs, Ok tx)
  end.

Definition remove (hash : Hash) (p : TransactionPool) := remove_internal hash p.

Definition add_internal (tx : MempoolTransaction) (p : TransactionPool)
  : TransactionPool * result MempoolError unit :=
  let bp := if is_pending tx then {[priced tx]} ∪ by_price p else by_price p in
  let txs := default ∅ (by_sender p !! mt_sender tx) in
  let bs := <[mt_sender tx := <[mt_nonce tx := mt_hash tx]> txs]> (by_sender p) in
  (set_indices p (<[mt_hash tx := tx]> (by_hash p)) bp bs, Ok tt).

Section WithU256.
Context `{U : U256Ops}.

Definition can_replace (p : TransactionPool) (existing new : MempoolTransaction)
  : result MempoolError bool :=
  if is_pending_inclusion existing then Err (TransactionPendingInclusion (mt_hash existing))
  else if negb (mt_sender existing =? mt_sender new)
          || negb (mt_nonce existing =? mt_nonce new) then Ok false
  else
    let bump_multiplier := wrapping_add 64 100 (mc_rbf_min_bump_percent (config p)) in
    match u256_mul (mt_gas_price existing) bump_multiplier with
    | None => Panic
    | Some prod =>
        match u256_div prod 100 with
        | None => Panic
        | Some min_new_price => Ok (min_new_price <=? mt_gas_price new)
        end
    end.

Definition try_rbf_at_limit (tx : MempoolTransaction) (p : TransactionPool)
  : TransactionPool * result MempoolError unit :=
  let limit_error :=
    (p, Err (AccountLimitReached (mt_sender tx) (mc_max_per_account (config p)))) in
  if negb (mc_enable_rbf (config p)) then limit_error
  else
    match existing_hash p (mt_sender tx) (mt_nonce tx) with
    | Some hash =>
        match by_hash p !! hash with
        | None => (p, Err (TransactionNotFound hash))
        | Some existing =>
            let? (p, replaceable) := (p, can_replace p existing tx) in
            if (replaceable : bool) then
              let? (p, _removed) := remove_internal hash p in
              add_internal tx p
            else limit_error
        end
    | None => limit_error
    end.

Definition try_rbf_or_add (tx : MempoolTransaction) (p : TransactionPool)
  : TransactionPool * result MempoolError unit :=
  match existing_hash p (mt_sender tx) (mt_nonce tx) with
  | None => add_internal tx p
  | Some hash =>
      if negb (mc_enable_rbf (config p)) then (p, Err RbfDisabled)
      else
        match by_hash p !! hash with
        | None => (p, Err (TransactionNotFound hash))
        | Some existing =>
            let? (p, replaceable) := (p, can_replace p existing tx) in
            if negb replaceable then
              (p, Err (InsufficientFeeBump (mt_gas_price existing) (mt_gas_price tx)
                        (mc_rbf_min_bump_percent (config p))))
            else
              let? (p, _removed) := remove_internal hash p in
              add_internal tx p
        end
  end.

(** The lowest-priority pending transaction: [by_price.iter().next_back()]. *)
Definition lowest_priced (p : TransactionPool) : option PricedTransaction :=
  last (btree_iter priced_le (by_price p)).

Definition try_evict_for (new_tx : MempoolTransaction) (p : TransactionPool)
  : TransactionPool * result MempoolError bool :=
  match lowest_priced p with
  | None => (p, Ok false)
  | Some lowest =>
      match by_hash p !! pt_hash lowest with
      | None => (p, Ok false)
      | Some lowest_tx =>
          let has_higher_gas := mt_gas_price lowest_tx <? mt_gas_price new_tx in
          let has_same_gas_earlier_time :=
            (mt_gas_price new_tx =? mt_gas_price lowest_tx)
            && (mt_added_at new_tx <? mt_added_at lowest_tx) in
          if negb has_higher_gas && negb has_same_gas_earlier_time then (p, Ok false)
          else
            let? (p, _evicted) := remove_internal (pt_hash lowest) p in
            (p, Ok true)
      end
  end.

Definition add (tx : MempoolTransaction) (p : TransactionPool)
  : TransactionPool * result MempoolError unit :=
  if contains p (mt_hash tx) then (p, Err (DuplicateTransaction (mt_hash tx)))
  else if mt_gas_price tx <? mc_min_gas_price (config p) then
    (p, Err (GasPriceTooLow (mt_gas_price tx) (mc_min_gas_price (config p))))
  else if mc_max_gas_per_tx (config p) <? mt_gas_limit tx then
    (p, Err (GasLimitTooHigh (mt_gas_limit tx) (mc_max_gas_per_tx (config p))))
  else if mc_max_per_account (config p) <=? sender_count p (mt_sender tx) then
    try_rbf_at_limit tx p
  else if mc_max_transactions (config p) <=? len p then
    let? (p, evicted) := try_evict_for tx p in
    if negb evicted then (p, Err (PoolFull (mc_max_transactions (config p))))
    else try_rbf_or_add tx p
  else try_rbf_or_add tx p.

End WithU256.

(** The loop state of [get_for_block]. *)
Record BlockAcc := {
  ba_result : list MempoolTransaction;
  ba_total_gas : u64;
  ba_next_nonce : gmap Address u64
}.

(** [sender_next_nonce.get(sender)], or the sender's lowest nonce in the pool. *)
Definition expected_nonce (p : TransactionPool) (a : BlockAcc) (tx : MempoolTransaction)
  : u64 :=
  match ba_next_nonce a !! mt_sender tx with
  | Some n => n
  | None => default (mt_nonce tx) (by_sender p !! mt_sender tx ≫= btree_first_key)
  end.

(** One iteration of the loop body, after the [break] test. *)
Definition block_step (p : TransactionPool) (max_gas : u64) (a : BlockAcc)
  (pt : PricedTransaction) : BlockAcc :=
  match by_hash p !! pt_hash pt with
  | None => a
  | Some tx =>
      if max_gas <? saturating_add 64 (ba_total_gas a) (mt_gas_limit tx) then a
      else if negb (mt_nonce tx =? expected_nonce p a tx) then a
      else {|
        ba_result := ba_result a ++ [tx];
        ba_total_gas := saturating_add 64 (ba_total_gas a) (mt_gas_limit tx);
        ba_next_nonce := <[mt_sender tx := wrapping_add 64 (mt_nonce tx) 1]> (ba_next_nonce a)
      |}
  end.

Fixpoint block_loop (p : TransactionPool) (max_count : usize) (max_gas : u64)
  (a : BlockAcc) (l : list PricedTransaction) : BlockAcc :=
  match l with
  | [] => a
  | pt :: l =>
      if max_count <=? Z.of_nat (length (ba_result a)) then a
      else block_loop p max_count max_gas (block_step p max_gas a pt) l
  end.

Definition get_for_block (p : TransactionPool) (max_count : usize) (max_gas : u64)
  : list MempoolTransaction :=
  ba_result (block_loop p max_count max_gas
    {| ba_result := []; ba_total_gas := 0; ba_next_nonce := ∅ |}
    (btree_iter priced_le (by_price p))).

(** One iteration of [propose]: the pool, the counters and [proposed_hashes]. *)
Definition propose_step (block_height : u64) (now : Timestamp)
  (s : TransactionPool * ProposeResult * list Hash) (hash : Hash)
  : TransactionPool * ProposeResult * list Hash :=
  let '(p, r, proposed) := s in
  match by_hash p !! hash with
  | None =>
      (p, {| pr_proposed_count := pr_proposed_count r;
             pr_already_pending := pr_already_pending r;
             pr_not_found := pr_not_found r ++ [hash] |}, proposed)
  | Some tx =>
      if is_pending_inclusion tx then
        (p, {| pr_proposed_count := pr_proposed_count r;
               pr_already_pending := pr_already_pending r ++ [hash];
               pr_not_found := pr_not_found r |}, proposed)
      else
        (set_indices p (<[hash := fst (tx_propose tx block_height now)]> (by_hash p))
           (by_price p ∖ {[priced tx]}) (by_sender p),
         {| pr_proposed_count := wrapping_add 64 (pr_proposed_count r) 1;
            pr_already_pending := pr_already_pending r;
            pr_not_found := pr_not_found r |},
         proposed ++ [hash])
  end.

Definition propose (hashes : list Hash) (block_height : u64) (now : Timestamp)
  (p : TransactionPool) : TransactionPool * ProposeResult :=
  let '(p, r, proposed) :=
    foldl (propose_step block_height now)
      (p, {| pr_proposed_count := 0; pr_already_pending := []; pr_not_found := [] |}, [])
      hashes in
  match proposed with
  | [] => (p, r)
  | _ => (set_batches p (pending_batches p
            ++ [pending_inclusion_batch_new block_height now proposed]), r)
  end.

Definition confirm_step (s : TransactionPool * list Hash) (hash : Hash)
  : TransactionPool * list Hash :=
  let '(p, confirmed) := s in
  match remove_internal hash p with
  | (p', Ok tx) => (p', confirmed ++ [mt_hash tx])
  | (p', _) => (p', confirmed)
  end.

Definition confirm (hashes : list Hash) (p : TransactionPool)
  : TransactionPool * list Hash :=
  let '(p, confirmed) := foldl confirm_step (p, []) hashes in
  (set_batches p (base.filter (fun b =>
      ~ Forall (fun h => h ∈ confirmed) (pib_transaction_hashes b)) (pending_batches p)),
   confirmed).

Definition rollback_step (s : TransactionPool * list Hash) (hash : Hash)
  : TransactionPool * list Hash :=
  let '(p, rolled_back) := s in
  match by_hash p !! hash with
  | None => (p, rolled_back)
  | Some tx =>
      if negb (is_pending_inclusion tx) then (p, rolled_back)
      else
        (set_indices p (<[hash := fst (tx_rollback tx)]> (by_hash p))
           ({[priced tx]} ∪ by_price p) (by_sender p),
         rolled_back ++ [hash])
  end.

Definition rollback (hashes : list Hash) (p : TransactionPool)
  : TransactionPool * list Hash :=
  let '(p, rolled_back) := foldl rollback_step (p, []) hashes in
  (set_batches p (base.filter (fun b =>
      ~ Exists (fun h => h ∈ hashes) (pib_transaction_hashes b)) (pending_batches p)),
   rolled_back).

(** [by_hash.values()]: a [HashMap] iterates in an unspecified order; the model
    takes the enumeration of the finite map, and the theorems about the result
    hold up to permutation. *)
Definition values (p : TransactionPool) : list MempoolTransaction :=
  snd <$> map_to_list (by_hash p).

Definition cleanup_timeouts (now : Timestamp) (p : TransactionPool)
  : TransactionPool * list Hash :=
  let timeout_ms := mc_pending_inclusion_timeout_ms (config p) in
  let timed_out := mt_hash <$> base.filter (fun tx => is_timed_out tx now timeout_ms) (values p) in
  rollback timed_out p.

(** [size_of_tx] is the compile-time constant [size_of::<MempoolTransaction>()]. *)
Definition status (size_of_tx : usize) (p : TransactionPool) (now : Timestamp)
  : MempoolStatus := {|
  ms_pending_count := pending_count p;
  ms_pending_inclusion_count := pending_inclusion_count p;
  ms_total_gas := foldl (fun acc tx => wrapping_add 64 acc (mt_gas_limit tx)) 0 (values p);
  ms_memory_bytes := wrapping_mul 64 (len p) size_of_tx;
  ms_oldest_tx_age_ms :=
    foldl (fun acc tx => Z.max acc (saturating_sub now (mt_added_at tx))) 0 (values p)
|}.

End TransactionPool.
