(* ===== verification/MempoolInv.v ===== *)
(** * The invariant of the transaction pool

    [pool_index] says that the three indices of the pool describe the same set
    of transactions (INVARIANT-1 to INVARIANT-3 of [pool.rs]); [pool_bounded]
    says that the configured limits hold.  The lemmas show that every operation
    of [Mempool.TransactionPool] preserves both. *)

From S2P Require Import Prelude SharedTypes Mempool.
Import TransactionPool.
Local Open Scope Z_scope.

(** ** The priority order is a total order whose equality is equality *)

Lemma priced_cmp_eq a b : priced_cmp a b = Eq <-> a = b.
Proof.
  unfold priced_cmp. split.
  - destruct a as [g h t], b as [g' h' t']; simpl.
    case_match eqn:E1; try done. case_match eqn:E2; try done. intros E3.
    apply Z.compare_eq in E1, E2, E3. by subst.
  - intros ->. by rewrite !Z.compare_refl.
Qed.

Ltac solve_priced :=
  repeat match goal with
  | a : PricedTransaction |- _ => destruct a
  end; unfold priced_le, priced_cmp in *; simpl in *;
  repeat match goal with
  | |- context [?x ?= ?y] => destruct (Z.compare_spec x y)
  | H : context [?x ?= ?y] |- _ => destruct (Z.compare_spec x y)
  end; subst; try done; try lia.

Lemma priced_cmp_antisym a b : priced_cmp b a = CompOpp (priced_cmp a b).
Proof. solve_priced. Qed.

#[export] Instance priced_le_total : Total priced_le.
Proof.
  intros a b. unfold priced_le. rewrite (priced_cmp_antisym a b).
  destruct (priced_cmp a b); auto.
Qed.

#[export] Instance priced_le_refl : Reflexive priced_le.
Proof. intros a. unfold priced_le. by rewrite (proj2 (priced_cmp_eq a a)). Qed.

#[export] Instance priced_le_trans : Transitive priced_le.
Proof. intros a b c Hab Hbc. solve_priced. Qed.

Lemma priced_le_price a b : priced_le a b -> pt_gas_price b <= pt_gas_price a.
Proof. intros. solve_priced. Qed.

(** ** The invariant *)

(** The transaction [h] is stored and has sender [s] and nonce [n]. *)
Definition stored_as (p : TransactionPool) (s : Address) (n : u64) (h : Hash) : Prop :=
  exists tx, by_hash p !! h = Some tx /\ mt_sender tx = s /\ mt_nonce tx = n.

Record pool_index (p : TransactionPool) : Prop := {
  pi_key h tx : by_hash p !! h = Some tx -> mt_hash tx = h;
  pi_price pt : pt ∈ by_price p <->
    exists tx, by_hash p !! pt_hash pt = Some tx /\ is_pending tx = true /\ pt = priced tx;
  pi_sender s n h : existing_hash p s n = Some h <-> stored_as p s n h;
  pi_nonempty s m : by_sender p !! s = Some m -> m <> ∅
}.

Record pool_bounded (p : TransactionPool) : Prop := {
  pb_capacity : len p <= mc_max_transactions (config p);
  pb_account s : sender_count p s <= mc_max_per_account (config p)
}.

Record pool_inv (p : TransactionPool) : Prop := {
  pinv_index : pool_index p;
  pinv_bounded : pool_bounded p
}.

(** The limits of a configuration are machine integers, so not negative. *)
Definition config_ok (c : MempoolConfig) : Prop :=
  0 <= mc_max_transactions c /\ 0 <= mc_max_per_account c.

Lemma pending_not_inclusion tx : is_pending tx = negb (is_pending_inclusion tx).
Proof. unfold is_pending, is_pending_inclusion. by destruct (mt_state tx). Qed.

Lemma pool_index_new c : pool_index (new c).
Proof.
  split; simpl.
  - done.
  - intros pt. rewrite elem_of_empty. split; [done|]. by intros (tx & ? & _).
  - intros s n h. unfold existing_hash, stored_as. simpl. rewrite lookup_empty. simpl.
    split; [done|]. by intros (tx & ? & _).
  - done.
Qed.

Lemma pool_inv_new c : config_ok c -> pool_inv (new c).
Proof.
  intros [H1 H2]. split; [apply pool_index_new|].
  split; unfold len, sender_count; simpl; [|intros s; rewrite lookup_empty]; done.
Qed.

Lemma pool_index_unique p s n h1 h2 :
  pool_index p -> stored_as p s n h1 -> stored_as p s n h2 -> h1 = h2.
Proof.
  intros Hi H1 H2. apply (pi_sender p Hi) in H1, H2. congruence.
Qed.

(** ** Removing *)

Lemma remove_internal_not_found h p :
  by_hash p !! h = None -> remove_internal h p = (p, Err (TransactionNotFound h)).
Proof. intros H. unfold remove_internal. by rewrite H. Qed.

(** The pool that [remove_internal] leaves when [h] is stored. *)
Definition pool_without (h : Hash) (p : TransactionPool) : TransactionPool :=
  fst (remove_internal h p).

Lemma remove_internal_ok h p tx :
  by_hash p !! h = Some tx -> remove_internal h p = (pool_without h p, Ok tx).
Proof. intros H. unfold pool_without, remove_internal. by rewrite H. Qed.

Lemma pool_without_by_hash h p :
  by_hash (pool_without h p) = delete h (by_hash p).
Proof.
  unfold pool_without, remove_internal.
  destruct (by_hash p !! h) eqn:E; simpl; [done|]. by rewrite delete_id.
Qed.

Lemma pool_without_config h p : config (pool_without h p) = config p.
Proof. unfold pool_without, remove_internal. by case_match. Qed.

Lemma pool_without_batches h p : pending_batches (pool_without h p) = pending_batches p.
Proof. unfold pool_without, remove_internal. by case_match. Qed.

Lemma pool_without_by_price h p tx :
  by_hash p !! h = Some tx -> by_price (pool_without h p) = by_price p ∖ {[priced tx]}.
Proof. intros H. unfold pool_without, remove_internal. by rewrite H. Qed.

Lemma pool_without_existing h p tx s n :
  by_hash p !! h = Some tx ->
  existing_hash (pool_without h p) s n
  = if decide (mt_sender tx = s /\ mt_nonce tx = n) then None else existing_hash p s n.
Proof.
  intros H. unfold existing_hash, pool_without, remove_internal. rewrite H. simpl.
  destruct (by_sender p !! mt_sender tx) as [m|] eqn:E.
  - case_bool_decide as Hm.
    + rewrite lookup_delete. destruct (decide (mt_sender tx = s)) as [<-|].
      * rewrite E. simpl. case_decide as D; [done|].
        assert (Hn : mt_nonce tx <> n) by naive_solver.
        assert (Hl : delete (mt_nonce tx) m !! n = None) by (rewrite Hm; apply lookup_empty).
        rewrite lookup_delete_ne in Hl by done. by rewrite Hl.
      * rewrite decide_False by naive_solver. done.
    + rewrite lookup_insert. destruct (decide (mt_sender tx = s)) as [<-|].
      * rewrite E. simpl. rewrite lookup_delete.
        destruct (decide (mt_nonce tx = n)).
        -- by rewrite decide_True.
        -- by rewrite decide_False by naive_solver.
      * by rewrite decide_False by naive_solver.
  - case_decide as D; [|done]. destruct D as [<- <-]. by rewrite E.
Qed.

Lemma pool_without_nonempty h p s m :
  (forall s m, by_sender p !! s = Some m -> m <> ∅) ->
  by_sender (pool_without h p) !! s = Some m -> m <> ∅.
Proof.
  intros Hn. unfold pool_without, remove_internal.
  destruct (by_hash p !! h) as [tx|]; simpl; [|by apply Hn].
  destruct (by_sender p !! mt_sender tx) eqn:E; [|by apply Hn].
  case_bool_decide as Hm; intros Hl.
  - apply lookup_delete_Some in Hl as [_ Hl]. by eapply Hn.
  - apply lookup_insert_Some in Hl as [[<- <-]|[_ Hl]]; [done | by eapply Hn].
Qed.

Lemma pool_without_index h p : pool_index p -> pool_index (pool_without h p).
Proof.
  intros Hi. destruct (by_hash p !! h) as [tx|] eqn:E.
  2: { unfold pool_without. by rewrite remove_internal_not_found. }
  assert (Hh : mt_hash tx = h) by by eapply pi_key.
  split.
  - intros h' tx'. rewrite pool_without_by_hash. intros [_ H]%lookup_delete_Some.
    by eapply pi_key.
  - intros pt. rewrite (pool_without_by_price _ _ _ E), pool_without_by_hash.
    rewrite elem_of_difference, elem_of_singleton, (pi_price p Hi). split.
    + intros [(tx' & Hl & Hp & ->) Hne]. exists tx'. split_and!; try done.
      rewrite lookup_delete_ne; [done|]. intros ->. apply Hne. congruence.
    + intros (tx' & [Hne Hl]%lookup_delete_Some & Hp & Heq). split.
      * by exists tx'.
      * intros ->. apply Hne. by rewrite <- Hh.
  - intros s n h'. rewrite (pool_without_existing _ _ _ _ _ E).
    unfold stored_as. rewrite pool_without_by_hash. split.
    + case_decide as D; [done|]. intros Hl. apply (pi_sender p Hi) in Hl as (tx' & Hl & ? & ?).
      exists tx'. split_and!; try done. rewrite lookup_delete_ne; [done|].
      intros ->. apply D. by simplify_eq.
    + intros (tx' & [Hne Hl]%lookup_delete_Some & Hs & Hn). rewrite decide_False.
      * apply (pi_sender p Hi). by exists tx'.
      * intros [Hs' Hn']. apply Hne. eapply (pool_index_unique p s n); [done| |by exists tx'].
        by exists tx.
  - intros s m. apply pool_without_nonempty. apply (pi_nonempty p Hi).
Qed.

Lemma len_without h p tx :
  by_hash p !! h = Some tx -> len (pool_without h p) = len p - 1.
Proof.
  intros H. unfold len. rewrite pool_without_by_hash.
  assert (size (by_hash p) <> 0%nat).
  { intros Hz%map_size_empty_inv. by rewrite Hz in H. }
  rewrite map_size_delete_Some by eauto. lia.
Qed.

Lemma sender_count_without h p tx s :
  pool_index p -> by_hash p !! h = Some tx ->
  sender_count (pool_without h p) s
  = sender_count p s - (if decide (mt_sender tx = s) then 1 else 0).
Proof.
  intros Hi H.
  assert (He : existing_hash p (mt_sender tx) (mt_nonce tx) = Some h)
    by (apply (pi_sender p Hi); by exists tx).
  unfold existing_hash in He. unfold sender_count, pool_without, remove_internal.
  rewrite H. simpl. destruct (by_sender p !! mt_sender tx) as [m|] eqn:E; [|done].
  simpl in He. assert (size m <> 0%nat).
  { intros Hz%map_size_empty_inv. by rewrite Hz in He. }
  destruct (decide (mt_sender tx = s)) as [<-|Hs].
  - rewrite E. case_bool_decide as Hm.
    + rewrite lookup_delete_eq. apply (f_equal size) in Hm.
      rewrite map_size_delete_Some in Hm by eauto. rewrite map_size_empty in Hm. lia.
    + rewrite lookup_insert_eq, map_size_delete_Some by eauto. lia.
  - case_bool_decide; [rewrite lookup_delete_ne by done|rewrite lookup_insert_ne by done];
    case_match; lia.
Qed.

Lemma pool_without_bounded h p :
  pool_index p -> pool_bounded p -> pool_bounded (pool_without h p).
Proof.
  intros Hi [Hc Ha]. destruct (by_hash p !! h) as [tx|] eqn:E.
  2: { unfold pool_without. by rewrite remove_internal_not_found. }
  split; rewrite pool_without_config.
  - rewrite (len_without _ _ _ E). lia.
  - intros s. rewrite (sender_count_without _ _ _ _ Hi E). specialize (Ha s).
    case_decide; lia.
Qed.

Lemma pool_without_inv h p : pool_inv p -> pool_inv (pool_without h p).
Proof. intros []. split; auto using pool_without_index, pool_without_bounded. Qed.

(** ** Adding *)

Definition pool_with (tx : MempoolTransaction) (p : TransactionPool) : TransactionPool :=
  fst (add_internal tx p).

Lemma add_internal_ok tx p : add_internal tx p = (pool_with tx p, Ok tt).
Proof. done. Qed.

Lemma pool_with_by_hash tx p : by_hash (pool_with tx p) = <[mt_hash tx := tx]> (by_hash p).
Proof. done. Qed.

Lemma pool_with_config tx p : config (pool_with tx p) = config p.
Proof. done. Qed.

Lemma pool_with_existing tx p s n :
  existing_hash (pool_with tx p) s n
  = if decide (mt_sender tx = s /\ mt_nonce tx = n) then Some (mt_hash tx)
    else existing_hash p s n.
Proof.
  unfold existing_hash, pool_with. simpl. rewrite lookup_insert.
  destruct (decide (mt_sender tx = s)) as [<-|].
  - simpl. rewrite lookup_insert. destruct (decide (mt_nonce tx = n)).
    + by rewrite decide_True.
    + rewrite decide_False by naive_solver.
      destruct (by_sender p !! mt_sender tx); simpl; [done|]. by rewrite lookup_empty.
  - by rewrite decide_False by naive_solver.
Qed.

Lemma pool_with_index tx p :
  pool_index p -> by_hash p !! mt_hash tx = None ->
  existing_hash p (mt_sender tx) (mt_nonce tx) = None -> pool_index (pool_with tx p).
Proof.
  intros Hi Hh He. split.
  - intros h tx'. rewrite pool_with_by_hash.
    intros [[<- <-]|[_ H]]%lookup_insert_Some; [done | by eapply pi_key].
  - intros pt. rewrite pool_with_by_hash.
    assert (Hin : pt ∈ by_price (pool_with tx p) <->
      (is_pending tx = true /\ pt = priced tx) \/ pt ∈ by_price p).
    { unfold pool_with. simpl. destruct (is_pending tx); set_solver. }
    rewrite Hin, (pi_price p Hi). split.
    + intros [[Hp ->]|(tx' & Hl & ? & ?)].
      * exists tx. simpl. by rewrite lookup_insert_eq.
      * exists tx'. split_and!; try done. rewrite lookup_insert_ne; [done|]. congruence.
    + intros (tx' & [[<- <-]|[Hne Hl]]%lookup_insert_Some & Hp & ->); [by left|].
      right. by exists tx'.
  - intros s n h. rewrite pool_with_existing. unfold stored_as. rewrite pool_with_by_hash.
    split.
    + case_decide as D.
      * intros [= <-]. exists tx. by rewrite lookup_insert_eq.
      * intros Hl. apply (pi_sender p Hi) in Hl as (tx' & Hl & ? & ?).
        exists tx'. rewrite lookup_insert_ne; [done|]. congruence.
    + intros (tx' & [[<- <-]|[Hne Hl]]%lookup_insert_Some & Hs & Hn).
      * by rewrite decide_True.
      * rewrite decide_False; [apply (pi_sender p Hi); by exists tx'|].
        intros [Hs' Hn']. assert (existing_hash p s n = Some h) as Hx
          by (apply (pi_sender p Hi); by exists tx'). congruence.
  - intros s m. unfold pool_with. simpl.
    intros [[<- <-]|[_ H]]%lookup_insert_Some; [|by eapply pi_nonempty].
    apply insert_non_empty.
Qed.

Lemma len_with tx p :
  by_hash p !! mt_hash tx = None -> len (pool_with tx p) = len p + 1.
Proof.
  intros H. unfold len. rewrite pool_with_by_hash, map_size_insert_None by done. lia.
Qed.

Lemma sender_count_with tx p s :
  existing_hash p (mt_sender tx) (mt_nonce tx) = None ->
  sender_count (pool_with tx p) s
  = sender_count p s + (if decide (mt_sender tx = s) then 1 else 0).
Proof.
  unfold existing_hash, sender_count, pool_with. simpl. intros He.
  rewrite lookup_insert. case_decide as D; [subst|case_match; lia].
  destruct (by_sender p !! mt_sender tx) as [m|] eqn:E; simpl in *.
  - rewrite map_size_insert_None by done. lia.
  - by rewrite map_size_insert_None by done.
Qed.

(** Adding where neither the hash nor the nonce slot is taken. *)
Lemma pool_with_inv tx p :
  pool_inv p -> by_hash p !! mt_hash tx = None ->
  existing_hash p (mt_sender tx) (mt_nonce tx) = None ->
  len p < mc_max_transactions (config p) ->
  sender_count p (mt_sender tx) < mc_max_per_account (config p) ->
  pool_inv (pool_with tx p).
Proof.
  intros [Hi [Hc Ha]] Hh He Hl Hs. split; [by apply pool_with_index|].
  split; rewrite pool_with_config.
  - rewrite len_with by done. lia.
  - intros s. rewrite sender_count_with by done. specialize (Ha s). case_decide; subst; lia.
Qed.

(** Replacing the transaction [h] that occupies the nonce slot of [tx]. *)
Lemma pool_replace_inv h tx old p :
  pool_inv p -> by_hash p !! h = Some old -> by_hash p !! mt_hash tx = None ->
  mt_sender old = mt_sender tx -> mt_nonce old = mt_nonce tx ->
  pool_inv (pool_with tx (pool_without h p)).
Proof.
  intros Hinv Ho Hh Hs Hn. pose proof Hinv as [Hi [Hc Ha]].
  apply pool_with_inv; rewrite ?pool_without_config.
  - by apply pool_without_inv.
  - rewrite pool_without_by_hash. by apply lookup_delete_None; right.
  - rewrite (pool_without_existing _ _ _ _ _ Ho). by rewrite decide_True.
  - rewrite (len_without _ _ _ Ho). lia.
  - rewrite (sender_count_without _ _ _ _ Hi Ho), decide_True by done.
    specialize (Ha (mt_sender tx)). lia.
Qed.

#[export] Hint Resolve pool_without_index pool_without_inv pool_with_inv
  pool_replace_inv : qc.

(** ** The outcomes of [add]

    What [try_rbf_or_add] can do to the nonce slot of [tx], and how [add]
    combines it with the limits and the eviction. *)

Section outcomes.
Context `{U : U256Ops}.

Inductive slot_outcome (tx : MempoolTransaction) (p : TransactionPool)
  : TransactionPool * result MempoolError unit -> Prop :=
| so_rejected r : is_ok r = false -> slot_outcome tx p (p, r)
| so_inserted :
    existing_hash p (mt_sender tx) (mt_nonce tx) = None ->
    slot_outcome tx p (pool_with tx p, Ok tt)
| so_replaced h old :
    existing_hash p (mt_sender tx) (mt_nonce tx) = Some h ->
    by_hash p !! h = Some old -> can_replace p old tx = Ok true ->
    slot_outcome tx p (pool_with tx (pool_without h p), Ok tt).

(** [old] has a lower price than [tx], or the same price and a later arrival. *)
Definition outbids (tx old : MempoolTransaction) : Prop :=
  mt_gas_price old < mt_gas_price tx
  \/ (mt_gas_price tx = mt_gas_price old /\ mt_added_at tx < mt_added_at old).

Inductive add_outcome (tx : MempoolTransaction) (p : TransactionPool)
  : TransactionPool * result MempoolError unit -> Prop :=
| ao_rejected r : is_ok r = false -> add_outcome tx p (p, r)
| ao_at_limit h old :
    existing_hash p (mt_sender tx) (mt_nonce tx) = Some h ->
    by_hash p !! h = Some old -> can_replace p old tx = Ok true ->
    by_hash p !! mt_hash tx = None ->
    add_outcome tx p (pool_with tx (pool_without h p), Ok tt)
| ao_room out :
    by_hash p !! mt_hash tx = None ->
    len p < mc_max_transactions (config p) ->
    sender_count p (mt_sender tx) < mc_max_per_account (config p) ->
    slot_outcome tx p out -> add_outcome tx p out
| ao_evicted low old out :
    by_hash p !! mt_hash tx = None ->
    mc_max_transactions (config p) <= len p ->
    sender_count p (mt_sender tx) < mc_max_per_account (config p) ->
    lowest_priced p = Some low -> by_hash p !! pt_hash low = Some old -> outbids tx old ->
    slot_outcome tx (pool_without (pt_hash low) p) out -> add_outcome tx p out.

Lemma try_rbf_or_add_outcome tx p : slot_outcome tx p (try_rbf_or_add tx p).
Proof.
  unfold try_rbf_or_add.
  destruct (existing_hash _ _ _) as [h|] eqn:E; [|by apply so_inserted].
  destruct (mc_enable_rbf _); simpl; [|by apply so_rejected].
  destruct (by_hash p !! h) as [old|] eqn:Ho; [|by apply so_rejected].
  destruct (can_replace p old tx) as [[]| |] eqn:C; simpl; try by apply so_rejected.
  rewrite (remove_internal_ok _ _ _ Ho). simpl.
  by eapply so_replaced.
Qed.

Lemma try_rbf_at_limit_outcome tx p :
  by_hash p !! mt_hash tx = None -> add_outcome tx p (try_rbf_at_limit tx p).
Proof.
  intros Hh. unfold try_rbf_at_limit.
  destruct (mc_enable_rbf _); simpl; [|by apply ao_rejected].
  destruct (existing_hash _ _ _) as [h|] eqn:E; [|by apply ao_rejected].
  destruct (by_hash p !! h) as [old|] eqn:Ho; [|by apply ao_rejected].
  destruct (can_replace p old tx) as [[]| |] eqn:C; simpl; try by apply ao_rejected.
  rewrite (remove_internal_ok _ _ _ Ho). simpl. by eapply ao_at_limit.
Qed.

Lemma try_evict_for_outcome tx p :
  try_evict_for tx p = (p, Ok false) \/
  exists low old, lowest_priced p = Some low /\ by_hash p !! pt_hash low = Some old /\
    outbids tx old /\ try_evict_for tx p = (pool_without (pt_hash low) p, Ok true).
Proof.
  unfold try_evict_for, outbids.
  destruct (lowest_priced p) as [low|] eqn:L; [|by left].
  destruct (by_hash p !! pt_hash low) as [old|] eqn:Ho; [|by left].
  rewrite (remove_internal_ok _ _ _ Ho). simpl.
  case_match eqn:C; [by left|]. right. exists low, old. split_and!; try done.
  bools. destruct C as [C|C]; bools; [by left | right; lia].
Qed.

Lemma add_outcome_spec tx p : add_outcome tx p (add tx p).
Proof.
  unfold add, contains. case_bool_decide as Hc; [by apply ao_rejected|].
  assert (Hh : by_hash p !! mt_hash tx = None) by by apply eq_None_not_Some.
  case_match; [by apply ao_rejected|]. case_match; [by apply ao_rejected|].
  case_match eqn:Hs; [by apply try_rbf_at_limit_outcome|].
  case_match eqn:Hl; bools; [|by apply ao_room; [..|apply try_rbf_or_add_outcome]].
  destruct (try_evict_for_outcome tx p) as [->|(low & old & L & Ho & B & ->)]; simpl.
  - by apply ao_rejected.
  - eapply ao_evicted; eauto using try_rbf_or_add_outcome.
Qed.

Lemma can_replace_slot p old tx :
  can_replace p old tx = Ok true ->
  is_pending_inclusion old = false /\ mt_sender old = mt_sender tx
  /\ mt_nonce old = mt_nonce tx.
Proof.
  unfold can_replace. case_match eqn:E1; [done|]. case_match eqn:E2; [done|].
  bools. naive_solver.
Qed.

Lemma slot_outcome_inv tx p out :
  pool_inv p -> by_hash p !! mt_hash tx = None ->
  len p < mc_max_transactions (config p) ->
  sender_count p (mt_sender tx) < mc_max_per_account (config p) ->
  slot_outcome tx p out -> pool_inv out.1.
Proof.
  intros Hi Hh Hl Hs. destruct 1 as [r|He|h old He Ho Hc]; simpl; auto with qc.
  apply can_replace_slot in Hc as (_ & ? & ?). by eapply pool_replace_inv.
Qed.

Lemma add_inv tx p : pool_inv p -> pool_inv (add tx p).1.
Proof.
  intros Hi. pose proof Hi as [Hix [Hcap Hacc]].
  destruct (add_outcome_spec tx p)
    as [r|h old He Ho Hc Hh|out Hh Hl Hs Ho|low old out Hh Hl Hs L Ho B Hout]; simpl.
  - done.
  - apply can_replace_slot in Hc as (_ & ? & ?). by eapply pool_replace_inv.
  - by eapply slot_outcome_inv.
  - eapply slot_outcome_inv; [..|done]; rewrite ?pool_without_config.
    + by apply pool_without_inv.
    + rewrite pool_without_by_hash. by apply lookup_delete_None; right.
    + rewrite (len_without _ _ _ Ho). lia.
    + rewrite (sender_count_without _ _ _ _ Hix Ho). case_decide; lia.
Qed.

End outcomes.

(** ** The two-phase commit *)

(** Two versions of a transaction that differ only in their commit state. *)
Definition same_tx (a b : MempoolTransaction) : Prop :=
  mt_hash a = mt_hash b /\ mt_sender a = mt_sender b /\ mt_nonce a = mt_nonce b
  /\ mt_gas_price a = mt_gas_price b /\ mt_gas_limit a = mt_gas_limit b
  /\ mt_added_at a = mt_added_at b /\ mt_transaction a = mt_transaction b.

#[export] Instance same_tx_refl : Reflexive same_tx.
Proof. by intros ?. Qed.

#[export] Instance same_tx_sym : Symmetric same_tx.
Proof. intros a b. unfold same_tx. naive_solver. Qed.

#[export] Instance same_tx_trans : Transitive same_tx.
Proof. intros a b c. unfold same_tx. intros H1 H2. destruct_and!. split_and!; congruence. Qed.

Lemma set_state_same tx s t : same_tx tx (set_state tx s t).
Proof. done. Qed.

Lemma same_tx_priced a b : same_tx a b -> priced a = priced b.
Proof. unfold same_tx, priced. intros (-> & _ & _ & -> & _ & -> & _). done. Qed.

(** Changing the commit state of a stored transaction and its price entry. *)
Lemma change_state_inv h tx tx' bp p :
  pool_inv p -> by_hash p !! h = Some tx -> same_tx tx tx' ->
  (forall pt, pt ∈ bp <-> (pt = priced tx /\ is_pending tx' = true)
                       \/ (pt ∈ by_price p /\ pt <> priced tx)) ->
  pool_inv (set_indices p (<[h := tx']> (by_hash p)) bp (by_sender p)).
Proof.
  intros [Hi [Hc Ha]] Ho Hsame Hbp.
  pose proof (same_tx_priced _ _ Hsame) as Hpr.
  destruct Hsame as (Eh & Es & En & _).
  assert (Hk : mt_hash tx = h) by by eapply pi_key.
  split; [split|split]; simpl; try done.
  - intros h' t [[<- <-]|[_ H]]%lookup_insert_Some; [congruence | by eapply pi_key].
  - intros pt. rewrite Hbp, (pi_price p Hi). split.
    + intros [[-> Hp]|[(t & Hl & Hp & ->) Hne]].
      * exists tx'. simpl. rewrite Hk, lookup_insert_eq. by rewrite Hpr.
      * exists t. split_and!; try done. rewrite lookup_insert_ne; [done|].
        intros Heq. rewrite <- Heq in Hl. apply Hne. congruence.
    + intros (t & [[Hhp <-]|[Hne Hl]]%lookup_insert_Some & Hp & ->).
      * left. by rewrite Hpr.
      * right. split; [by exists t|]. intros Heq. apply Hne. rewrite Heq. simpl. congruence.
  - intros s n h'. etransitivity; [apply (pi_sender p Hi)|]. unfold stored_as. simpl.
    split.
    + intros (t & Hl & ? & ?). destruct (decide (h = h')) as [<-|].
      * simplify_eq. exists tx'. by rewrite lookup_insert_eq.
      * exists t. by rewrite lookup_insert_ne.
    + intros (t & [[<- <-]|[Hne Hl]]%lookup_insert_Some & ? & ?).
      * exists tx. by rewrite Es, En.
      * by exists t.
  - apply (pi_nonempty p Hi).
  - unfold len in *. simpl. by rewrite map_size_insert_Some by eauto.
Qed.

Lemma set_batches_inv p b : pool_inv p -> pool_inv (set_batches p b).
Proof. by intros [[] []]. Qed.

Lemma propose_step_inv bh now s h :
  pool_inv s.1.1 -> pool_inv (propose_step bh now s h).1.1.
Proof.
  destruct s as [[p r] l]. simpl. intros Hi.
  destruct (by_hash p !! h) as [tx|] eqn:E; [|done].
  destruct (is_pending_inclusion tx) eqn:P; [done|]. simpl.
  eapply change_state_inv; eauto; unfold tx_propose; rewrite P; simpl; [done|].
  intros pt. unfold is_pending. simpl. set_solver.
Qed.

Lemma rollback_step_inv s h : pool_inv s.1 -> pool_inv (rollback_step s h).1.
Proof.
  destruct s as [p l]. simpl. intros Hi.
  destruct (by_hash p !! h) as [tx|] eqn:E; [|done].
  destruct (is_pending_inclusion tx) eqn:P; [|done]. simpl.
  eapply change_state_inv; eauto; unfold tx_rollback; rewrite P; simpl; [done|].
  intros pt. unfold is_pending. simpl. rewrite elem_of_union, elem_of_singleton.
  destruct (decide (pt = priced tx)); naive_solver.
Qed.

Lemma confirm_step_inv s h : pool_inv s.1 -> pool_inv (confirm_step s h).1.
Proof.
  destruct s as [p l]. simpl. intros Hi.
  destruct (by_hash p !! h) as [tx|] eqn:E.
  - rewrite (remove_internal_ok _ _ _ E). simpl. by apply pool_without_inv.
  - by rewrite remove_internal_not_found.
Qed.

Lemma propose_inv hs bh now p : pool_inv p -> pool_inv (propose hs bh now p).1.
Proof.
  intros Hi. unfold propose.
  pose proof (foldl_inv (propose_step bh now) (fun s => pool_inv s.1.1)
    (propose_step_inv bh now) hs (p, {| pr_proposed_count := 0;
      pr_already_pending := []; pr_not_found := [] |}, []) Hi) as H.
  destruct (foldl _ _ _) as [[p' r] l]. simpl in H.
  destruct l; simpl; [done | by apply set_batches_inv].
Qed.

Lemma confirm_inv hs p : pool_inv p -> pool_inv (confirm hs p).1.
Proof.
  intros Hi. unfold confirm.
  pose proof (foldl_inv confirm_step (fun s => pool_inv s.1) confirm_step_inv hs (p, []) Hi) as H.
  destruct (foldl _ _ _). simpl. by apply set_batches_inv.
Qed.

Lemma rollback_inv hs p : pool_inv p -> pool_inv (rollback hs p).1.
Proof.
  intros Hi. unfold rollback.
  pose proof (foldl_inv rollback_step (fun s => pool_inv s.1) rollback_step_inv hs (p, []) Hi) as H.
  destruct (foldl _ _ _). simpl. by apply set_batches_inv.
Qed.

Lemma cleanup_timeouts_inv now p : pool_inv p -> pool_inv (cleanup_timeouts now p).1.
Proof. apply rollback_inv. Qed.

Lemma remove_inv h p : pool_inv p -> pool_inv (remove h p).1.
Proof. apply pool_without_inv. Qed.

#[export] Hint Resolve add_inv propose_inv confirm_inv rollback_inv
  cleanup_timeouts_inv remove_inv : qc.
