(* ===== verification/MempoolBlock.v ===== *)
(** * Block building: what [TransactionPool::get_for_block] returns

    The loop over the price index is analysed with an invariant on its
    accumulator: the chosen transactions are a subsequence of the price order,
    the running gas is exact until it saturates, and the nonces chosen for each
    sender are consecutive from the sender's lowest nonce in the pool. *)

From S2P Require Import Prelude SharedTypes Mempool MempoolInv.
Import TransactionPool.
Local Open Scope Z_scope.

(** The nonces of the transactions of sender [s] in [l], in order. *)
Definition nonces_of (s : Address) (l : list MempoolTransaction) : list u64 :=
  mt_nonce <$> base.filter (fun tx => mt_sender tx = s) l.

Definition sum_gas (l : list MempoolTransaction) : Z :=
  foldr (fun tx acc => mt_gas_limit tx + acc) 0 l.

(** Gas limits and nonces of the stored transactions are 64-bit values. *)
Definition pool_in_range (p : TransactionPool) : Prop :=
  forall h tx, by_hash p !! h = Some tx ->
    in_width 64 (mt_gas_limit tx) /\ in_width 64 (mt_nonce tx).

(** The sender's lowest nonce in the pool. *)
Definition first_nonce (p : TransactionPool) (s : Address) : option u64 :=
  by_sender p !! s ≫= btree_first_key.

Record block_acc_ok (p : TransactionPool) (max_gas : u64) (seen : list PricedTransaction)
  (a : BlockAcc) : Prop := {
  bo_sub : priced <$> ba_result a `sublist_of` seen;
  bo_in tx : tx ∈ ba_result a -> by_hash p !! mt_hash tx = Some tx /\ is_pending tx = true;
  bo_gas : ba_total_gas a = Z.min (sum_gas (ba_result a)) (2 ^ 64 - 1)
           /\ ba_total_gas a <= max_gas;
  bo_nonce s :
    match ba_next_nonce a !! s with
    | None => nonces_of s (ba_result a) = []
    | Some n => exists n0 k, first_nonce p s = Some n0 /\ 0 < k
        /\ nonces_of s (ba_result a) = seqZ n0 k /\ n = wrapping_add 64 n0 k
    end
}.

Lemma sum_gas_app l k : sum_gas (l ++ k) = sum_gas l + sum_gas k.
Proof. unfold sum_gas. induction l; simpl; lia. Qed.

Lemma nonces_of_app s l k : nonces_of s (l ++ k) = nonces_of s l ++ nonces_of s k.
Proof. unfold nonces_of. by rewrite filter_app, fmap_app. Qed.

Lemma nonces_of_singleton s tx :
  nonces_of s [tx] = if decide (mt_sender tx = s) then [mt_nonce tx] else [].
Proof. unfold nonces_of. rewrite filter_cons. by case_decide. Qed.

Lemma elem_of_nonces_of s l n :
  n ∈ nonces_of s l -> exists tx, tx ∈ l /\ mt_sender tx = s /\ mt_nonce tx = n.
Proof.
  unfold nonces_of. intros (tx & -> & [? ?]%list_elem_of_filter)%list_elem_of_fmap. eauto.
Qed.

Lemma first_nonce_least p s n0 h tx :
  pool_index p -> first_nonce p s = Some n0 -> by_hash p !! h = Some tx ->
  mt_sender tx = s -> n0 <= mt_nonce tx.
Proof.
  intros Hi Hf Ho Hs. unfold first_nonce in Hf.
  assert (He : existing_hash p s (mt_nonce tx) = Some h)
    by (apply (pi_sender p Hi); by exists tx).
  unfold existing_hash in He. destruct (by_sender p !! s) as [m|]; [|done]. simpl in *.
  apply btree_first_key_spec in Hf as [_ Hle]. apply Hle. eauto.
Qed.

Lemma first_nonce_stored p h tx :
  pool_index p -> by_hash p !! h = Some tx -> is_Some (first_nonce p (mt_sender tx)).
Proof.
  intros Hi Ho. unfold first_nonce.
  assert (He : existing_hash p (mt_sender tx) (mt_nonce tx) = Some h)
    by (apply (pi_sender p Hi); by exists tx).
  unfold existing_hash in He. destruct (by_sender p !! mt_sender tx) as [m|] eqn:E; [|done].
  simpl. destruct (btree_first_key m) eqn:F; [done|].
  apply btree_first_key_None in F. by eapply pi_nonempty in E.
Qed.

Lemma first_nonce_range p s n0 :
  pool_index p -> pool_in_range p -> first_nonce p s = Some n0 -> in_width 64 n0.
Proof.
  intros Hi Hr Hf. unfold first_nonce in Hf.
  destruct (by_sender p !! s) as [m|] eqn:E; [|done]. simpl in Hf.
  apply btree_first_key_spec in Hf as [[h Hh] _].
  assert (stored_as p s n0 h) as (t & Ht & _ & <-)
    by (apply (pi_sender p Hi); unfold existing_hash; by rewrite E).
  by destruct (Hr _ _ Ht).
Qed.

(** A stored transaction with the sender and nonce of a chosen one is chosen. *)
Lemma chosen_slot_unique p max_gas seen a tx t :
  pool_index p -> block_acc_ok p max_gas seen a -> by_hash p !! mt_hash tx = Some tx ->
  t ∈ ba_result a -> mt_sender t = mt_sender tx -> mt_nonce t = mt_nonce tx ->
  priced tx ∈ seen.
Proof.
  intros Hi Ha Ho Ht Hs Hn. pose proof (bo_in _ _ _ _ Ha _ Ht) as [Hto _].
  assert (mt_hash tx = mt_hash t) as Hhe
    by (eapply (pool_index_unique p); [done | by exists tx | by exists t]).
  rewrite Hhe in Ho. simplify_eq.
  eapply elem_of_sublist, (bo_sub _ _ _ _ Ha). by apply list_elem_of_fmap_2.
Qed.

(** The nonce test of the loop, read against the accumulator's invariant: an
    accepted nonce continues the sender's run and never wraps around. *)
Lemma accepted_nonce p max_gas seen a tx :
  pool_index p -> pool_in_range p -> block_acc_ok p max_gas seen a ->
  by_hash p !! mt_hash tx = Some tx -> priced tx ∉ seen ->
  mt_nonce tx = expected_nonce p a tx ->
  exists n0 k, first_nonce p (mt_sender tx) = Some n0 /\ 0 <= k
    /\ nonces_of (mt_sender tx) (ba_result a) = seqZ n0 k /\ mt_nonce tx = n0 + k.
Proof.
  intros Hi Hr Ha Ho Hfresh. unfold expected_nonce.
  pose proof (bo_nonce _ _ _ _ Ha (mt_sender tx)) as Hn.
  destruct (ba_next_nonce a !! mt_sender tx) as [n|].
  - destruct Hn as (n0 & k & Hf & Hk & Hseq & ->). intros Heq.
    exists n0, k. split_and!; try done; [lia|].
    pose proof (first_nonce_range _ _ _ Hi Hr Hf) as Hr0.
    pose proof (first_nonce_least _ _ _ _ _ Hi Hf Ho eq_refl) as Hmin.
    assert (Hlast : n0 + k - 1 ∈ nonces_of (mt_sender tx) (ba_result a))
      by (rewrite Hseq, elem_of_seqZ; lia).
    apply elem_of_nonces_of in Hlast as (t & Ht & Hts & Htn).
    destruct (Hr _ _ (proj1 (bo_in _ _ _ _ Ha _ Ht))) as [_ Hrt].
    unfold in_width, wrapping_add in *.
    destruct (decide (n0 + k < 2 ^ 64)); [rewrite Heq; apply Z.mod_small; lia|].
    exfalso. replace (n0 + k) with (2 ^ 64) in Heq by lia.
    rewrite Z.mod_same in Heq by done.
    assert (H0 : mt_nonce tx ∈ nonces_of (mt_sender tx) (ba_result a))
      by (rewrite Hseq, elem_of_seqZ; lia).
    apply elem_of_nonces_of in H0 as (t0 & Ht0 & Hs0 & Hn0).
    by eapply Hfresh, chosen_slot_unique.
  - intros Heq. destruct (first_nonce_stored _ _ _ Hi Ho) as [n0 Hf].
    unfold first_nonce in Hf. rewrite Hf in Heq. simpl in Heq.
    exists n0, 0. split_and!; [done | lia | by rewrite Hn | lia].
Qed.

Lemma block_acc_skip p max_gas seen a pt :
  block_acc_ok p max_gas seen a -> block_acc_ok p max_gas (seen ++ [pt]) a.
Proof. intros []. split; try done. by apply sublist_inserts_r. Qed.

Lemma sum_gas_nonneg p max_gas seen a :
  pool_in_range p -> block_acc_ok p max_gas seen a -> 0 <= sum_gas (ba_result a).
Proof.
  intros Hr Ha. assert (Hin : forall tx, tx ∈ ba_result a -> 0 <= mt_gas_limit tx).
  { intros tx Htx. destruct (Hr _ _ (proj1 (bo_in _ _ _ _ Ha _ Htx))) as [[] _]. lia. }
  clear Ha. unfold sum_gas. induction (ba_result a) as [|tx l IH]; simpl; [lia|].
  pose proof (Hin tx (list_elem_of_here _ _)).
  assert (0 <= foldr (fun tx acc => mt_gas_limit tx + acc) 0 l); [|lia].
  apply IH. intros t Ht. apply Hin. by right.
Qed.

(** One iteration of the loop preserves the invariant. *)
Lemma block_step_ok p max_gas seen a pt :
  pool_index p -> pool_in_range p -> pt ∈ by_price p -> pt ∉ seen ->
  block_acc_ok p max_gas seen a ->
  block_acc_ok p max_gas (seen ++ [pt]) (block_step p max_gas a pt).
Proof.
  intros Hi Hr Hpt Hfresh Ha. apply (pi_price p Hi) in Hpt as (tx & Ho & Hp & ->).
  unfold block_step. rewrite Ho.
  case_match eqn:Hg; [by apply block_acc_skip|].
  case_match eqn:Hx; [by apply block_acc_skip|]. bools. simpl in Ho.
  destruct (accepted_nonce _ _ _ _ _ Hi Hr Ha Ho Hfresh Hx) as (n0 & k & Hf & Hk & Hseq & Hn).
  pose proof (bo_gas _ _ _ _ Ha) as [Hg1 Hg2].
  pose proof (sum_gas_nonneg _ _ _ _ Hr Ha) as Hsum.
  destruct (Hr _ _ Ho) as [[Hl _] _].
  split; simpl.
  - rewrite fmap_app. apply sublist_app; [apply (bo_sub _ _ _ _ Ha) | done].
  - intros t [Ht| ->%list_elem_of_singleton]%elem_of_app; [by eapply bo_in | done].
  - split; [|done]. rewrite sum_gas_app, Hg1. unfold saturating_add, sum_gas at 3. simpl. lia.
  - intros s. rewrite nonces_of_app, nonces_of_singleton.
    destruct (decide (mt_sender tx = s)) as [<-|Hs].
    + rewrite lookup_insert_eq. exists n0, (k + 1). split_and!; try done; [lia| |].
      * rewrite Hseq, (seqZ_app n0 k 1), Hn by lia. done.
      * unfold wrapping_add. f_equal. lia.
    + rewrite lookup_insert_ne by done. rewrite app_nil_r. apply (bo_nonce _ _ _ _ Ha).
Qed.

Lemma block_loop_ok p max_count max_gas l : forall seen a,
  pool_index p -> pool_in_range p -> 0 <= max_count ->
  (forall pt, pt ∈ l -> pt ∈ by_price p) -> NoDup (seen ++ l) ->
  block_acc_ok p max_gas seen a -> Z.of_nat (length (ba_result a)) <= max_count ->
  block_acc_ok p max_gas (seen ++ l) (block_loop p max_count max_gas a l)
  /\ Z.of_nat (length (ba_result (block_loop p max_count max_gas a l))) <= max_count.
Proof.
  induction l as [|pt l IH]; intros seen a Hi Hr Hc Hin Hnd Ha Hlen; simpl.
  { by rewrite app_nil_r. }
  case_match eqn:Hfull; bools.
  { split; [|done]. destruct Ha. split; try done. by apply sublist_inserts_r. }
  rewrite cons_middle, app_assoc in Hnd |- *.
  apply IH; try done.
  - intros q Hq. apply Hin. by right.
  - apply block_step_ok; try done; [apply Hin; left|].
    rewrite <- app_assoc in Hnd. apply NoDup_app in Hnd as (_ & Hd & _).
    intros Hs. apply (Hd _ Hs). left.
  - unfold block_step. repeat case_match; try done; simpl; rewrite ?length_app; simpl; lia.
Qed.

Lemma block_acc_init p max_gas : 0 <= max_gas ->
  block_acc_ok p max_gas []
    {| ba_result := []; ba_total_gas := 0; ba_next_nonce := ∅ |}.
Proof.
  intros H. split; simpl; try done.
  - by intros tx ?%elem_of_nil.
Qed.

(** The accumulator at the end of the loop of [get_for_block]. *)
Lemma get_for_block_acc p max_count max_gas :
  pool_index p -> pool_in_range p -> 0 <= max_count -> 0 <= max_gas ->
  exists a, get_for_block p max_count max_gas = ba_result a
    /\ block_acc_ok p max_gas (btree_iter priced_le (by_price p)) a
    /\ Z.of_nat (length (ba_result a)) <= max_count.
Proof.
  intros Hi Hr Hc Hg. eexists. split; [reflexivity|].
  apply (block_loop_ok p max_count max_gas _ []); try done.
  - intros pt. apply elem_of_btree_iter.
  - apply NoDup_btree_iter.
  - by apply block_acc_init.
Qed.

Lemma sublist_StronglySorted {A} (R : relation A) (l k : list A) :
  l `sublist_of` k -> StronglySorted R k -> StronglySorted R l.
Proof.
  induction 1 as [|x l k Hs IH|x l k Hs IH]; intros Hk; [done| |];
    inversion Hk as [|? ? ? Hall]; subst; [|by apply IH].
  constructor; [by apply IH|]. rewrite Forall_forall in Hall |- *.
  intros y Hy. by eapply Hall, elem_of_sublist.
Qed.

Lemma StronglySorted_fmap_inv {A B} (f : A -> B) (R : relation B) (l : list A) :
  StronglySorted R (f <$> l) -> StronglySorted (fun x y => R (f x) (f y)) l.
Proof.
  induction l as [|x l IH]; simpl; intros H; [constructor|].
  inversion H as [|? ? ? Hall]; subst. constructor; [by apply IH|].
  by rewrite Forall_fmap in Hall.
Qed.

(** * The two-phase commit on the contents of the pool

    What [propose], [rollback] and [cleanup_timeouts] do to each stored
    transaction, and that the indices of a pool are determined by its
    [by_hash] map, so that equalities of contents lift to equalities of pools. *)


Import TransactionPool.
Local Open Scope Z_scope.

(** ** The indices are determined by the contents *)

Lemma existing_hash_determined p q s n :
  pool_index p -> pool_index q -> by_hash p = by_hash q ->
  existing_hash p s n = existing_hash q s n.
Proof.
  intros Hp Hq Heq. apply option_eq. intros h.
  rewrite (pi_sender p Hp), (pi_sender q Hq). unfold stored_as. by rewrite Heq.
Qed.

Lemma by_price_determined p q :
  pool_index p -> pool_index q -> by_hash p = by_hash q -> by_price p = by_price q.
Proof.
  intros Hp Hq Heq. apply set_eq. intros pt.
  rewrite (pi_price p Hp), (pi_price q Hq). by rewrite Heq.
Qed.

(** A sender that has a map in [by_sender] has a nonce in it. *)
Lemma by_sender_entry p s m :
  pool_index p -> by_sender p !! s = Some m ->
  exists n h, existing_hash p s n = Some h.
Proof.
  intros Hp Hm. destruct (map_choose m) as (n & h & Hn); [by eapply pi_nonempty|].
  exists n, h. unfold existing_hash. by rewrite Hm.
Qed.

Lemma by_sender_determined p q :
  pool_index p -> pool_index q -> by_hash p = by_hash q -> by_sender p = by_sender q.
Proof.
  intros Hp Hq Heq.
  assert (He : forall s n, existing_hash p s n = existing_hash q s n)
    by (intros; by apply existing_hash_determined).
  apply map_eq. intros s.
  destruct (by_sender p !! s) as [m|] eqn:E, (by_sender q !! s) as [k|] eqn:F; try done.
  - f_equal. apply map_eq. intros n. specialize (He s n).
    unfold existing_hash in He. by rewrite E, F in He.
  - destruct (by_sender_entry _ _ _ Hp E) as (n & h & H). rewrite He in H.
    unfold existing_hash in H. by rewrite F in H.
  - destruct (by_sender_entry _ _ _ Hq F) as (n & h & H). rewrite <- He in H.
    unfold existing_hash in H. by rewrite E in H.
Qed.

Lemma pool_determined p q :
  pool_inv p -> pool_inv q -> config p = config q -> by_hash p = by_hash q ->
  pending_batches p = pending_batches q -> p = q.
Proof.
  intros [Hp _] [Hq _] Hc Hh Hb.
  pose proof (by_price_determined _ _ Hp Hq Hh).
  pose proof (by_sender_determined _ _ Hp Hq Hh).
  destruct p, q; simpl in *; by subst.
Qed.

(** ** The loops, transaction by transaction *)

(** Applies [f] to the transactions stored under the hashes [hs]. *)
Definition update_on (f : MempoolTransaction -> MempoolTransaction) (hs : list Hash)
  (h : Hash) (tx : MempoolTransaction) : MempoolTransaction :=
  if decide (h ∈ hs) then f tx else tx.

Lemma tx_propose_idem tx bh now :
  (tx_propose (tx_propose tx bh now).1 bh now).1 = (tx_propose tx bh now).1.
Proof. unfold tx_propose. by destruct (is_pending_inclusion tx) eqn:E; simpl; rewrite ?E. Qed.

Lemma tx_rollback_idem tx : (tx_rollback (tx_rollback tx).1).1 = (tx_rollback tx).1.
Proof. unfold tx_rollback. by destruct (is_pending_inclusion tx) eqn:E; simpl; rewrite ?E. Qed.

Lemma rollback_step_lookup s x h :
  by_hash (rollback_step s x).1 !! h
  = update_on (fun tx => (tx_rollback tx).1) [x] h <$> by_hash s.1 !! h.
Proof.
  destruct s as [p l]. simpl. unfold update_on.
  destruct (by_hash p !! x) as [tx|] eqn:E.
  - destruct (is_pending_inclusion tx) eqn:P; simpl.
    + rewrite lookup_insert. destruct (decide (x = h)) as [<-|Hne].
      * rewrite E. simpl. by rewrite decide_True by set_solver.
      * case_decide; [set_solver | by rewrite option_fmap_id].
    + case_decide as D; [|by rewrite option_fmap_id].
      apply list_elem_of_singleton in D as ->. rewrite E. simpl.
      unfold tx_rollback. by rewrite P.
  - case_decide as D; [|by rewrite option_fmap_id].
    apply list_elem_of_singleton in D as ->. by rewrite E.
Qed.

Lemma propose_step_lookup bh now s x h :
  by_hash (propose_step bh now s x).1.1 !! h
  = update_on (fun tx => (tx_propose tx bh now).1) [x] h <$> by_hash s.1.1 !! h.
Proof.
  destruct s as [[p r] l]. simpl. unfold update_on.
  destruct (by_hash p !! x) as [tx|] eqn:E.
  - destruct (is_pending_inclusion tx) eqn:P; simpl.
    + case_decide as D; [|by rewrite option_fmap_id].
      apply list_elem_of_singleton in D as ->. rewrite E. simpl.
      unfold tx_propose. by rewrite P.
    + rewrite lookup_insert. destruct (decide (x = h)) as [<-|Hne].
      * rewrite E. simpl. by rewrite decide_True by set_solver.
      * case_decide; [set_solver | by rewrite option_fmap_id].
  - case_decide as D; [|by rewrite option_fmap_id].
    apply list_elem_of_singleton in D as ->. by rewrite E.
Qed.

(** A loop whose body updates one key with an idempotent [f] updates the keys
    of its list with [f]. *)
Lemma foldl_update {S} (view : S -> gmap Hash MempoolTransaction)
  (f : MempoolTransaction -> MempoolTransaction) (step : S -> Hash -> S) :
  (forall tx, f (f tx) = f tx) ->
  (forall s x h, view (step s x) !! h = update_on f [x] h <$> view s !! h) ->
  forall hs s h, view (foldl step s hs) !! h = update_on f hs h <$> view s !! h.
Proof.
  intros Hf Hstep hs. induction hs as [|x hs IH]; intros s h; simpl.
  { unfold update_on. case_decide; [set_solver | by rewrite option_fmap_id]. }
  rewrite IH, Hstep, <- option_fmap_compose. apply option_fmap_ext. intros tx.
  unfold update_on. simpl.
  destruct (decide (h ∈ hs)), (decide (h ∈ [x])), (decide (h ∈ x :: hs));
    rewrite ?Hf; try done; set_solver.
Qed.

Lemma rollback_lookup hs p h :
  by_hash (rollback hs p).1 !! h
  = update_on (fun tx => (tx_rollback tx).1) hs h <$> by_hash p !! h.
Proof.
  unfold rollback.
  pose proof (foldl_update (fun s => by_hash s.1) _ rollback_step tx_rollback_idem
    rollback_step_lookup hs (p, []) h) as H.
  by destruct (foldl _ _ _).
Qed.

Lemma propose_lookup hs bh now p h :
  by_hash (propose hs bh now p).1 !! h
  = update_on (fun tx => (tx_propose tx bh now).1) hs h <$> by_hash p !! h.
Proof.
  unfold propose. pose proof (foldl_update (fun s => by_hash s.1.1) _ (propose_step bh now)
    (fun tx => tx_propose_idem tx bh now) (propose_step_lookup bh now) hs
    (p, {| pr_proposed_count := 0; pr_already_pending := []; pr_not_found := [] |}, []) h) as H.
  destruct (foldl _ _ _) as [[p' r] []]; done.
Qed.

(** ** Batches and configuration *)

Lemma rollback_step_frame s x :
  config (rollback_step s x).1 = config s.1
  /\ pending_batches (rollback_step s x).1 = pending_batches s.1.
Proof. destruct s as [p l]. simpl. repeat case_match; done. Qed.

Lemma propose_step_frame bh now s x :
  config (propose_step bh now s x).1.1 = config s.1.1
  /\ pending_batches (propose_step bh now s x).1.1 = pending_batches s.1.1.
Proof. destruct s as [[p r] l]. simpl. repeat case_match; done. Qed.

Lemma rollback_frame hs p :
  config (rollback hs p).1 = config p
  /\ pending_batches (rollback hs p).1
     = base.filter (fun b => ~ Exists (fun h => h ∈ hs) (pib_transaction_hashes b))
         (pending_batches p).
Proof.
  unfold rollback.
  pose proof (foldl_inv rollback_step (fun s => config s.1 = config p
    /\ pending_batches s.1 = pending_batches p)) as H.
  specialize (H (fun s x '(conj A B) => conj (eq_trans (proj1 (rollback_step_frame s x)) A)
    (eq_trans (proj2 (rollback_step_frame s x)) B)) hs (p, []) (conj eq_refl eq_refl)).
  destruct (foldl _ _ _). simpl in *. by destruct H as [-> ->].
Qed.

(** The hashes [propose] collects are among the hashes it was given. *)
Lemma propose_step_collected bh now s x (hs : list Hash) :
  (forall h, h ∈ s.2 -> h ∈ hs) -> x ∈ hs ->
  forall h, h ∈ (propose_step bh now s x).2 -> h ∈ hs.
Proof.
  destruct s as [[p r] l]. simpl. intros Hs Hx h.
  repeat case_match; simpl; try apply Hs. rewrite elem_of_app. set_solver.
Qed.

Lemma foldl_collected bh now (hs0 hs : list Hash) : forall s,
  (forall h, h ∈ s.2 -> h ∈ hs0) -> (forall h, h ∈ hs -> h ∈ hs0) ->
  forall h, h ∈ (foldl (propose_step bh now) s hs).2 -> h ∈ hs0.
Proof.
  induction hs as [|x hs IH]; intros s Hs Hhs; simpl; [done|].
  apply IH; [|set_solver]. apply propose_step_collected; set_solver.
Qed.

Lemma propose_frame hs bh now p :
  config (propose hs bh now p).1 = config p
  /\ exists new_batches, pending_batches (propose hs bh now p).1
       = pending_batches p ++ new_batches
     /\ forall b, b ∈ new_batches -> pib_transaction_hashes b <> []
          /\ forall h, h ∈ pib_transaction_hashes b -> h ∈ hs.
Proof.
  unfold propose.
  set (s0 := (p, {| pr_proposed_count := 0; pr_already_pending := [];
                    pr_not_found := [] |}, [] : list Hash)).
  pose proof (foldl_inv (propose_step bh now) (fun s => config s.1.1 = config p
    /\ pending_batches s.1.1 = pending_batches p)
    (fun s x '(conj A B) => conj (eq_trans (proj1 (propose_step_frame bh now s x)) A)
      (eq_trans (proj2 (propose_step_frame bh now s x)) B)) hs s0 (conj eq_refl eq_refl)) as H.
  pose proof (foldl_collected bh now hs hs s0) as Hc.
  destruct (foldl _ _ _) as [[p' r] l]. simpl in *. destruct H as [<- <-].
  destruct l as [|h l]; simpl.
  - split; [done|]. exists []. by rewrite app_nil_r; split; [|set_solver].
  - split; [done|]. eexists. split; [done|]. intros b ->%list_elem_of_singleton. simpl.
    split; [done|]. apply Hc; set_solver.
Qed.

(** Rolling back the proposed hashes drops exactly the batches [propose] added,
    when no older batch mentions them. *)
Lemma rollback_new_batches (hs : list Hash) (old new_batches : list PendingInclusionBatch) :
  (forall b h, b ∈ old -> h ∈ pib_transaction_hashes b -> h ∉ hs) ->
  (forall b, b ∈ new_batches -> pib_transaction_hashes b <> []
     /\ forall h, h ∈ pib_transaction_hashes b -> h ∈ hs) ->
  base.filter (fun b => ~ Exists (fun h => h ∈ hs) (pib_transaction_hashes b))
    (old ++ new_batches) = old.
Proof.
  intros Hold Hnew. rewrite filter_app.
  rewrite (filter_all _ old), (filter_none _ new_batches), app_nil_r; [done| |].
  - apply Forall_forall. intros b [Hne Hin]%Hnew Hno. apply Hno, Exists_exists.
    destruct (pib_transaction_hashes b) as [|h l]; [done|].
    exists h. split; [left | apply Hin; left].
  - apply Forall_forall. intros b Hb (h & Hh & Hin)%Exists_exists. by eapply Hold.
Qed.

(** ** Timeouts *)

(** The hashes [cleanup_timeouts] rolls back. *)
Definition timed_out_hashes (now : Timestamp) (p : TransactionPool) : list Hash :=
  mt_hash <$> base.filter (fun tx => is_timed_out tx now
    (mc_pending_inclusion_timeout_ms (config p))) (values p).

Lemma elem_of_values p tx : tx ∈ values p <-> exists h, by_hash p !! h = Some tx.
Proof.
  unfold values. rewrite list_elem_of_fmap. split.
  - intros ([h t] & -> & Ht%elem_of_map_to_list). by exists h.
  - intros [h Hh]. exists (h, tx). by rewrite elem_of_map_to_list.
Qed.

Lemma elem_of_timed_out now p h tx :
  pool_index p -> by_hash p !! h = Some tx ->
  h ∈ timed_out_hashes now p <->
  is_timed_out tx now (mc_pending_inclusion_timeout_ms (config p)) = true.
Proof.
  intros Hi Ho. unfold timed_out_hashes. rewrite list_elem_of_fmap. split.
  - intros (t & -> & [Ht Hv]%list_elem_of_filter). apply elem_of_values in Hv as [h' Hh'].
    rewrite (pi_key p Hi _ _ Hh') in Ho. simplify_eq. by destruct (is_timed_out _ _ _).
  - intros Ht. exists tx. split; [by rewrite (pi_key p Hi _ _ Ho)|].
    apply list_elem_of_filter. split; [by rewrite Ht|]. apply elem_of_values. eauto.
Qed.

Lemma timed_out_pending_inclusion tx now t :
  is_timed_out tx now t = true -> is_pending_inclusion tx = true.
Proof. unfold is_timed_out, is_pending_inclusion. by destruct (mt_state tx). Qed.
