(* ===== verification/MempoolProps.v ===== *)
(** * Properties of the transaction pool

    The theorems about [Mempool.TransactionPool]: the invariant of every
    reachable pool, what [add] does when it succeeds and when it fails, the
    selection of transactions for a block, and the two-phase commit. *)

From S2P Require Import Prelude SharedTypes Mempool MempoolInv MempoolBlock.
Import TransactionPool.
Local Open Scope Z_scope.

(** ** Operations as steps *)

(** The public operations of the pool that change its state. *)
Inductive pool_op :=
| OpAdd (tx : MempoolTransaction)
| OpRemove (h : Hash)
| OpPropose (hs : list Hash) (block_height : u64) (now : Timestamp)
| OpConfirm (hs : list Hash)
| OpRollback (hs : list Hash)
| OpCleanup (now : Timestamp).

Definition run_op `{U256Ops} (op : pool_op) (p : TransactionPool) : TransactionPool :=
  match op with
  | OpAdd tx => (add tx p).1
  | OpRemove h => (remove h p).1
  | OpPropose hs bh now => (propose hs bh now p).1
  | OpConfirm hs => (confirm hs p).1
  | OpRollback hs => (rollback hs p).1
  | OpCleanup now => (cleanup_timeouts now p).1
  end.

Definition pool_step `{U256Ops} (p q : TransactionPool) : Prop :=
  exists op, q = run_op op p.

(** ** A small pool for the witnesses *)

Definition small_config : MempoolConfig := {|
  mc_max_transactions := 2; mc_max_per_account := 2; mc_min_gas_price := 1;
  mc_max_gas_per_tx := 100; mc_pending_inclusion_timeout_ms := 1000;
  mc_nonce_gap_timeout_ms := 0; mc_enable_rbf := true; mc_rbf_min_bump_percent := 10 |}.

(** A pending transaction with the given hash, sender, nonce and price. *)
Definition mk_tx (h : Hash) (s : Address) (n : u64) (price : U256) : MempoolTransaction := {|
  mt_transaction := call_of_one; mt_hash := h; mt_sender := s; mt_nonce := n;
  mt_gas_price := price; mt_gas_limit := 10; mt_state := Pending; mt_added_at := 0;
  mt_target_block := None |}.

Definition tx_a : MempoolTransaction := mk_tx 1 1 0 100.
Definition tx_b : MempoolTransaction := mk_tx 2 2 0 5.

(** Sender 1 offers 100 and sender 2 offers 5: the pool is full. *)
Definition full_pool : TransactionPool :=
  (@add exact_u256 tx_b (@add exact_u256 tx_a (new small_config)).1).1.

Lemma full_pool_inv : pool_inv full_pool.
Proof. apply add_inv, add_inv, pool_inv_new. by split. Qed.

Lemma full_pool_in_range : pool_in_range full_pool.
Proof.
  assert (H : map_Forall (fun _ tx => in_width 64 (mt_gas_limit tx)
    /\ in_width 64 (mt_nonce tx)) (by_hash full_pool))
    by (apply (bool_decide_unpack _); by vm_compute).
  exact H.
Qed.

(** ** Lemmas on the victims of [add] *)

Lemma lowest_priced_spec p low :
  lowest_priced p = Some low ->
  low ∈ by_price p /\ forall pt, pt ∈ by_price p -> priced_le pt low.
Proof.
  unfold lowest_priced. intros H. split.
  - apply (elem_of_btree_iter priced_le). by apply last_Some_elem_of.
  - intros pt Hpt. eapply StronglySorted_last; [apply _|apply btree_iter_sorted; apply _|done|].
    by apply elem_of_btree_iter.
Qed.

(** The lowest-priority transaction is stored and pending. *)
Lemma lowest_stored p low old :
  pool_index p -> lowest_priced p = Some low -> by_hash p !! pt_hash low = Some old ->
  is_pending old = true /\ low = priced old /\ mt_hash old = pt_hash low.
Proof.
  intros Hi [Hin _]%lowest_priced_spec Ho. apply (pi_price p Hi) in Hin as (tx & Ht & Hp & ->).
  by simplify_eq.
Qed.

Definition prices_in_range (p : TransactionPool) : Prop :=
  forall h tx, by_hash p !! h = Some tx -> in_width 256 (mt_gas_price tx).

(** The price a replacement has to offer. *)
Definition min_bumped_price (c : MempoolConfig) (old : U256) : U256 :=
  old * (100 + mc_rbf_min_bump_percent c) / 100.

Lemma can_replace_price {U : U256Ops} {UL : U256Laws U} p old tx :
  in_width 256 (mt_gas_price old) ->
  0 <= mc_rbf_min_bump_percent (config p) < 2 ^ 64 - 100 ->
  can_replace p old tx = Ok true ->
  min_bumped_price (config p) (mt_gas_price old) <= mt_gas_price tx.
Proof.
  intros Hw Hb. unfold can_replace. case_match; [done|]. case_match; [done|].
  assert (wrapping_add 64 100 (mc_rbf_min_bump_percent (config p))
          = 100 + mc_rbf_min_bump_percent (config p)) as ->
    by (unfold wrapping_add; apply Z.mod_small; lia).
  rewrite u256_mul_spec by (done || (unfold in_width; lia)).
  destruct (Z.ltb_spec (mt_gas_price old * (100 + mc_rbf_min_bump_percent (config p)))
    (2 ^ 256)); [|done].
  assert (0 <= mt_gas_price old * (100 + mc_rbf_min_bump_percent (config p)))
    by (apply Z.mul_nonneg_nonneg; unfold in_width in *; lia).
  rewrite u256_div_spec by (unfold in_width in *; lia). simpl. intros [= Hle]. by bools.
Qed.

Lemma add_ok_guards `{U256Ops} tx p p' :
  add tx p = (p', Ok tt) ->
  mc_min_gas_price (config p) <= mt_gas_price tx
  /\ mt_gas_limit tx <= mc_max_gas_per_tx (config p).
Proof.
  unfold add. case_match; [done|]. case_match eqn:E1; [done|]. case_match eqn:E2; [done|].
  intros _. by bools.
Qed.

Definition drop_tx (o : option MempoolTransaction) (m : gmap Hash MempoolTransaction)
  : gmap Hash MempoolTransaction :=
  match o with Some old => delete (mt_hash old) m | None => m end.

(** [old] is the stored pending transaction in the nonce slot of [tx], and [tx]
    offers at least the bumped price. *)
Definition replaced_by (p : TransactionPool) (tx old : MempoolTransaction) : Prop :=
  by_hash p !! mt_hash old = Some old /\ is_pending old = true
  /\ mt_sender old = mt_sender tx /\ mt_nonce old = mt_nonce tx
  /\ min_bumped_price (config p) (mt_gas_price old) <= mt_gas_price tx.

(** The pool is full and [old] is its last pending transaction in priority
    order, which [tx] outbids. *)
Definition evicted_by (p : TransactionPool) (tx old : MempoolTransaction) : Prop :=
  by_hash p !! mt_hash old = Some old /\ is_pending old = true
  /\ mc_max_transactions (config p) <= len p /\ outbids tx old
  /\ forall h other, by_hash p !! h = Some other -> is_pending other = true ->
       priced_le (priced other) (priced old).

Section victims.
Context {U : U256Ops} {UL : U256Laws U}.
Variable p : TransactionPool.
Hypothesis Hinv : pool_inv p.
Hypothesis Hprices : prices_in_range p.
Hypothesis Hbump : 0 <= mc_rbf_min_bump_percent (config p) < 2 ^ 64 - 100.

Lemma replaced_slot tx h old :
  by_hash p !! h = Some old -> can_replace p old tx = Ok true ->
  replaced_by p tx old /\ h = mt_hash old.
Proof.
  intros Ho Hc. pose proof (pi_key p (pinv_index p Hinv) _ _ Ho) as Hk.
  pose proof (can_replace_slot _ _ _ Hc) as (Hp & Hs & Hn).
  split; [|done]. split_and!; try done.
  - by rewrite Hk.
  - by rewrite pending_not_inclusion, Hp.
  - eapply can_replace_price; eauto.
Qed.

Lemma evicted_lowest tx low old :
  mc_max_transactions (config p) <= len p -> lowest_priced p = Some low ->
  by_hash p !! pt_hash low = Some old -> outbids tx old ->
  evicted_by p tx old /\ pt_hash low = mt_hash old.
Proof.
  intros Hf Hl Ho Hb. pose proof (pinv_index p Hinv) as Hi.
  pose proof (lowest_stored _ _ _ Hi Hl Ho) as (Hp & -> & Hk). split; [|done].
  split_and!; try done. intros h other Hoth Hpend.
  apply (proj2 (lowest_priced_spec _ _ Hl)), (pi_price p Hi).
  exists other. simpl. by rewrite (pi_key p Hi _ _ Hoth).
Qed.

End victims.

(** ** The theorems *)

(** C3 (invariant): in every pool reachable from an empty one by the public
    operations ([add], [remove], [propose], [confirm], [rollback],
    [cleanup_timeouts], successful or not), the three indices agree (each hash
    is stored once and under its own key; the price index holds exactly the
    pending transactions; the sender index holds exactly one entry per stored
    sender and nonce, with no empty maps) and the pool and account limits of
    the configuration hold. *)
Theorem pool_reachable_inv {U : U256Ops} (c : MempoolConfig) (p : TransactionPool)
  (Hc : config_ok c) (Hr : star pool_step (new c) p) : pool_inv p.
Proof.
  eapply star_invariant; [|by apply pool_inv_new|exact Hr].
  intros q q' Hq [op ->]. destruct op; simpl; auto with qc.
Qed.

Lemma pool_reachable_inv_witness : pool_inv full_pool.
Proof.
  apply (@pool_reachable_inv exact_u256 small_config full_pool); [split; vm_compute; congruence|].
  eapply star_step; [exists (OpAdd tx_a); reflexivity|].
  eapply star_step; [exists (OpAdd tx_b); reflexivity|]. apply star_refl.
Defined.

(** The price and sender indices carry no information of
    their own.  Two pools that satisfy the invariant and store the same
    transactions have the same price index and the same sender index, so the
    pool refines the abstract state "a finite map from hashes to
    transactions". *)
Theorem pool_indices_refine_contents (p q : TransactionPool)
  (Hp : pool_inv p) (Hq : pool_inv q) (Heq : by_hash p = by_hash q) :
  by_price p = by_price q /\ by_sender p = by_sender q.
Proof.
  destruct Hp as [Hp _], Hq as [Hq _].
  split; [by apply by_price_determined | by apply by_sender_determined].
Qed.

Lemma pool_indices_refine_contents_witness :
  by_price full_pool
  = by_price (@add exact_u256 tx_a (@add exact_u256 tx_b (new small_config)).1).1.
Proof.
  apply (pool_indices_refine_contents full_pool); [apply full_pool_inv| |by vm_compute].
  apply add_inv, add_inv, pool_inv_new. by split.
Defined.

(** What a successful [add] does.  The new contents are the old
    contents plus the transaction, minus at most one evicted and one replaced
    transaction.  A transaction is evicted only from a full pool, and it is the
    pending transaction of lowest priority, outbid by the new one; a
    transaction is replaced only if it is pending, has the same sender and
    nonce, and the new price is at least the old one plus the configured bump.
    The accepted transaction respects the minimum price and the gas ceiling. *)
Theorem add_ok_effect {U : U256Ops} {UL : U256Laws U} (p p' : TransactionPool)
  (tx : MempoolTransaction) (Hinv : pool_inv p) (Hprices : prices_in_range p)
  (Hbump : 0 <= mc_rbf_min_bump_percent (config p) < 2 ^ 64 - 100)
  (Hadd : add tx p = (p', Ok tt)) :
  mc_min_gas_price (config p) <= mt_gas_price tx
  /\ mt_gas_limit tx <= mc_max_gas_per_tx (config p)
  /\ exists evicted replaced : option MempoolTransaction,
       by_hash p' = <[mt_hash tx := tx]> (drop_tx replaced (drop_tx evicted (by_hash p)))
       /\ (forall old, evicted = Some old -> evicted_by p tx old)
       /\ (forall old, replaced = Some old -> replaced_by p tx old).
Proof.
  pose proof (add_ok_guards _ _ _ Hadd) as [G1 G2]. do 2 (split; [done|]).
  pose proof (add_outcome_spec tx p) as Hout. rewrite Hadd in Hout.
  inversion Hout as [r|h old He Ho Hc|out Hh Hl Hs Hslot|low old out Hh Hl Hs L Ho B Hslot];
    subst; try done.
  - destruct (replaced_slot p Hinv Hprices Hbump _ _ _ Ho Hc) as [R ->].
    exists None, (Some old). rewrite pool_with_by_hash, pool_without_by_hash. naive_solver.
  - inversion Hslot as [r| |h old He Ho Hc]; subst; try done.
    + exists None, None. naive_solver.
    + destruct (replaced_slot p Hinv Hprices Hbump _ _ _ Ho Hc) as [R ->].
      exists None, (Some old). rewrite pool_with_by_hash, pool_without_by_hash. naive_solver.
  - destruct (evicted_lowest p Hinv _ _ _ Hl L Ho B) as [E HE].
    inversion Hslot as [r| |h old' He Ho' Hc]; subst; try done.
    + exists (Some old), None. rewrite pool_with_by_hash, pool_without_by_hash.
      rewrite HE. naive_solver.
    + rewrite pool_without_by_hash in Ho'. apply lookup_delete_Some in Ho' as [_ Ho'].
      assert (Hc' : can_replace p old' tx = Ok true)
        by (unfold can_replace in *; by rewrite pool_without_config in Hc).
      destruct (replaced_slot p Hinv Hprices Hbump _ _ _ Ho' Hc') as [R ->].
      exists (Some old), (Some old'). rewrite pool_with_by_hash, !pool_without_by_hash.
      rewrite HE. naive_solver.
Qed.

Lemma full_pool_prices : prices_in_range full_pool.
Proof.
  assert (H : map_Forall (fun _ tx => in_width 256 (mt_gas_price tx)) (by_hash full_pool))
    by (apply (bool_decide_unpack _); by vm_compute).
  exact H.
Qed.

(** A bid of 110 by sender 1 replaces its transaction priced 100, and evicts
    sender 2's transaction first, because the pool is full. *)
Lemma add_ok_effect_witness :
  exists evicted replaced,
    by_hash (@add exact_u256 (mk_tx 3 1 0 110) full_pool).1
    = <[3 := mk_tx 3 1 0 110]> (drop_tx replaced (drop_tx evicted (by_hash full_pool)))
    /\ (forall old, evicted = Some old -> evicted_by full_pool (mk_tx 3 1 0 110) old)
    /\ (forall old, replaced = Some old -> replaced_by full_pool (mk_tx 3 1 0 110) old).
Proof.
  apply (@add_ok_effect exact_u256 exact_u256_laws full_pool
    (@add exact_u256 (mk_tx 3 1 0 110) full_pool).1 (mk_tx 3 1 0 110)).
  - apply full_pool_inv.
  - apply full_pool_prices.
  - vm_compute. split; congruence.
  - by vm_compute.
Defined.

(** A transaction that was proposed for a block is never lost to
    a competing submission.  Whatever [add] returns, a stored transaction in
    state [PendingInclusion] is still stored unchanged afterwards: it is
    neither evicted nor replaced. *)
Theorem add_keeps_proposed {U : U256Ops} (p : TransactionPool)
  (tx old : MempoolTransaction) (h : Hash)
  (Hinv : pool_inv p) (Hold : by_hash p !! h = Some old)
  (Hprop : is_pending_inclusion old = true) :
  by_hash (add tx p).1 !! h = Some old.
Proof.
  pose proof (pinv_index p Hinv) as Hi.
  assert (Hrep : forall q h' o, by_hash q !! h' = Some o -> by_hash q !! h = Some old ->
    can_replace q o tx = Ok true -> h' <> h).
  { intros q h' o Ho Hq (Hp & _)%can_replace_slot ->. congruence. }
  assert (Hslot : forall q out, by_hash q !! h = Some old -> by_hash q !! mt_hash tx = None ->
    slot_outcome tx q out -> by_hash out.1 !! h = Some old).
  { intros q out Hq Hn [r| |h' o He Ho Hc]; simpl; [done| |];
      rewrite ?pool_without_by_hash, lookup_insert_ne by congruence; [done|].
    rewrite lookup_delete_ne; [done|]. by eapply Hrep. }
  destruct (add_outcome_spec tx p)
    as [r|h' o He Ho Hc Hh|out Hh _ _ Hs|low o out Hh _ _ L Ho B Hs]; simpl; [done| | |].
  - rewrite lookup_insert_ne by congruence.
    rewrite pool_without_by_hash, lookup_delete_ne; [done|]. by eapply Hrep.
  - by eapply Hslot.
  - pose proof (lowest_stored _ _ _ Hi L Ho) as (Hp & _).
    rewrite pending_not_inclusion in Hp. apply negb_true_iff in Hp.
    assert (pt_hash low <> h) by congruence.
    eapply Hslot; [..|exact Hs]; rewrite pool_without_by_hash.
    + by rewrite lookup_delete_ne.
    + by apply lookup_delete_None; right.
Qed.

(** After proposing sender 1's transaction, its slot cannot be outbid. *)
Lemma add_keeps_proposed_witness :
  exists old, by_hash (@add exact_u256 (mk_tx 3 1 0 1000)
    (propose [1] 7 50 full_pool).1).1 !! 1 = Some old.
Proof.
  eexists. apply (@add_keeps_proposed exact_u256 _ _ (tx_propose tx_a 7 50).1).
  - apply propose_inv, full_pool_inv.
  - by vm_compute.
  - by vm_compute.
Defined.

(** A rejected submission can remove a third party's transaction.
    In a reachable pool that is full, a replacement bid that is below the
    required bump makes [add] evict the lowest-priority transaction of another
    sender before the bid is checked: the call returns [InsufficientFeeBump],
    the bid is not stored, and the other sender's transaction is gone. *)
Theorem add_error_still_evicts :
  let low_bid := mk_tx 3 1 0 105 in
  let out := @add exact_u256 low_bid full_pool in
  pool_inv full_pool
  /\ out.2 = Err (InsufficientFeeBump 100 105 10)
  /\ by_hash out.1 !! mt_hash low_bid = None
  /\ by_hash full_pool !! mt_hash tx_b = Some tx_b
  /\ by_hash out.1 !! mt_hash tx_b = None.
Proof. split; [apply full_pool_inv|]. by vm_compute. Qed.

(** The transactions [get_for_block] offers a block.  Each is
    stored and pending; there are at most [max_count]; they come in priority
    order without repetition; their gas limits add up to at most [max_gas]
    (unless [max_gas] is the largest 64-bit value, where the running total
    saturates); and for every sender the nonces offered are consecutive,
    starting at the sender's lowest nonce in the pool. *)
Theorem get_for_block_sound (p : TransactionPool) (max_count max_gas : Z)
  (Hinv : pool_inv p) (Hrange : pool_in_range p)
  (Hcount : 0 <= max_count) (Hgas : 0 <= max_gas < 2 ^ 64 - 1) :
  let r := get_for_block p max_count max_gas in
  (forall tx, tx ∈ r -> by_hash p !! mt_hash tx = Some tx /\ mt_state tx = Pending)
  /\ Z.of_nat (length r) <= max_count
  /\ NoDup r
  /\ StronglySorted (fun a b => priced_le (priced a) (priced b)) r
  /\ sum_gas r <= max_gas
  /\ forall s, nonces_of s r = [] \/
       exists n0 k, first_nonce p s = Some n0 /\ nonces_of s r = seqZ n0 k.
Proof.
  destruct (get_for_block_acc p max_count max_gas (pinv_index p Hinv) Hrange Hcount)
    as (a & -> & Ha & Hlen); [lia|].
  pose proof (bo_sub _ _ _ _ Ha) as Hsub. simpl. split_and!.
  - intros tx Htx. destruct (bo_in _ _ _ _ Ha _ Htx) as [Ho Hp]. split; [done|].
    unfold is_pending in Hp. by destruct (mt_state tx).
  - done.
  - eapply NoDup_fmap_1, sublist_NoDup, Hsub. apply NoDup_btree_iter.
  - apply StronglySorted_fmap_inv. eapply sublist_StronglySorted, btree_iter_sorted; [done|..];
      apply _.
  - destruct (bo_gas _ _ _ _ Ha). lia.
  - intros s. pose proof (bo_nonce _ _ _ _ Ha s) as Hn.
    destruct (ba_next_nonce a !! s); [|by left]. right. naive_solver.
Qed.

Lemma get_for_block_sound_witness :
  get_for_block full_pool 5 100 = [tx_a; tx_b]
  /\ sum_gas (get_for_block full_pool 5 100) <= 100.
Proof.
  split; [by vm_compute|].
  apply (get_for_block_sound full_pool 5 100); [apply full_pool_inv|
    apply full_pool_in_range | lia | lia].
Defined.

(** A proposal that is rolled back leaves no trace.  If the
    proposed hashes that are in the pool are pending, without a target block,
    and mentioned by no earlier batch, then [propose] followed by [rollback] of
    the same hashes restores the whole pool: contents, both indices,
    configuration and batches. *)
Theorem propose_rollback_roundtrip (p : TransactionPool) (hs : list Hash)
  (block_height : u64) (now : Timestamp) (Hinv : pool_inv p)
  (Hpend : forall h tx, h ∈ hs -> by_hash p !! h = Some tx ->
             mt_state tx = Pending /\ mt_target_block tx = None)
  (Hbatch : forall b h, b ∈ pending_batches p -> h ∈ pib_transaction_hashes b -> h ∉ hs) :
  (rollback hs (propose hs block_height now p).1).1 = p.
Proof.
  pose proof (propose_frame hs block_height now p) as (Hc & nb & Hb & Hnb).
  pose proof (rollback_frame hs (propose hs block_height now p).1) as (Hc' & Hb').
  apply pool_determined; [by apply rollback_inv, propose_inv | done | congruence | |].
  - apply map_eq. intros h. rewrite rollback_lookup, propose_lookup.
    destruct (by_hash p !! h) as [tx|] eqn:Ho; [|done]. simpl. f_equal.
    unfold update_on. case_decide as Hin; [|done].
    destruct (Hpend _ _ Hin Ho) as [Hs Ht].
    unfold tx_propose, tx_rollback, is_pending_inclusion. rewrite Hs. simpl.
    destruct tx; simpl in *; by subst.
  - rewrite Hb', Hb. by apply rollback_new_batches.
Qed.

Lemma propose_rollback_roundtrip_witness :
  (rollback [1; 9] (propose [1; 9] 7 50 full_pool).1).1 = full_pool.
Proof.
  apply (propose_rollback_roundtrip full_pool [1; 9] 7 50).
  - apply full_pool_inv.
  - intros h tx Hin Ho. apply elem_of_cons in Hin as [-> | ->%list_elem_of_singleton];
      vm_compute in Ho; [injection Ho as <-; by vm_compute | discriminate].
  - intros b h Hb. vm_compute in Hb. by apply elem_of_nil in Hb.
Defined.

(** No proposal outlives its timeout.  After
    [cleanup_timeouts now], every transaction whose proposal had timed out is
    pending again, without a target block and back in the price index; every
    other transaction is unchanged; and no stored transaction is timed out. *)
Theorem cleanup_timeouts_complete (p : TransactionPool) (now : Timestamp)
  (Hinv : pool_inv p) :
  let timed_out tx := is_timed_out tx now (mc_pending_inclusion_timeout_ms (config p)) in
  let p' := (cleanup_timeouts now p).1 in
  forall h tx, by_hash p !! h = Some tx ->
    exists tx', by_hash p' !! h = Some tx' /\ same_tx tx tx' /\ timed_out tx' = false
      /\ (timed_out tx = true -> mt_state tx' = Pending /\ mt_target_block tx' = None
                                 /\ priced tx ∈ by_price p')
      /\ (timed_out tx = false -> tx' = tx).
Proof.
  intros timed_out p' h tx Ho. pose proof (pinv_index p Hinv) as Hi.
  assert (Hl : by_hash p' !! h = update_on (fun t => (tx_rollback t).1)
    (timed_out_hashes now p) h <$> by_hash p !! h) by apply rollback_lookup.
  rewrite Ho in Hl. simpl in Hl. eexists. split; [exact Hl|].
  assert (Hi' : pool_index p') by (apply pinv_index; by apply cleanup_timeouts_inv).
  pose proof (elem_of_timed_out now p h tx Hi Ho) as Hto. fold (timed_out tx) in Hto.
  unfold update_on in *. case_decide as Hin.
  - apply Hto in Hin as Ht. pose proof (timed_out_pending_inclusion _ _ _ Ht) as Hpi.
    unfold tx_rollback in *. rewrite Hpi in *. simpl in *. split_and!; try done; [|congruence].
    intros _. split_and!; try done. apply (pi_price p' Hi'). simpl.
    rewrite (pi_key p Hi _ _ Ho). by eexists.
  - assert (Hf : timed_out tx = false) by (destruct (timed_out tx) eqn:E; [tauto|done]).
    split_and!; try done. congruence.
Qed.

(** Proposed at 50 with a timeout of 1000, and cleaned up at 1050. *)
Lemma cleanup_timeouts_complete_witness :
  exists tx', by_hash (cleanup_timeouts 1050 (propose [1] 7 50 full_pool).1).1 !! 1 = Some tx'
    /\ is_timed_out tx' 1050 1000 = false.
Proof.
  destruct (cleanup_timeouts_complete (propose [1] 7 50 full_pool).1 1050
    (propose_inv _ _ _ _ full_pool_inv) 1 (tx_propose tx_a 7 50).1) as (tx' & H1 & _ & H2 & _).
  - by vm_compute.
  - exists tx'. split; [exact H1 | exact H2].
Defined.
