(* ===== verification/Merkle.v ===== *)
(** * Transaction indexing: Merkle trees and inclusion proofs

    Models [crates/qc-03-transaction-indexing/src/domain/entities.rs]: the
    array-encoded Merkle tree ([MerkleTree::build], [build_parallel]), inclusion
    proofs ([generate_proof], [verify_proof_static]), multi-proofs and the
    canonical sort.  SHA3-256 is the third-party [sha3] crate and is the
    argument [sha3] of the section.  Indices into the node array are [nat]: the
    length of a vector of 32-byte hashes is below [2^58], so no index computed
    here overflows a [usize].  An out-of-range index panics: [None]. *)

From Equations Require Import Equations.
From S2P Require Import Prelude.
Local Open Scope Z_scope.
Local Open Scope qc_scope.

(** ** [value_objects.rs] and [errors.rs] *)

Definition LEAF_DOMAIN : u8 := 0.
Definition NODE_DOMAIN : u8 := 1.
Definition PARALLEL_THRESHOLD : nat := 1024.
Definition SENTINEL_HASH : Hash := 0.

Inductive IndexingError :=
| TransactionNotFound (tx_hash : Hash)
| TreeNotCached (block_hash : Hash)
| InvalidIndex (index max : nat)
| EmptyBlock (block_hash : Hash)
| SerializationError
| StorageError
| UnauthorizedSender (sender_id expected : u8)
| CommunicationError
| Timeout
| ProofTooDeep (depth max : nat).

(** ** Data *)

Record MerkleTree := {
  nodes : list Hash;
  transaction_count : nat;
  padded_leaf_count : nat;
  root : Hash
}.

Inductive SiblingPosition := Left | Right.

Record ProofNode := { pn_hash : Hash; pn_position : SiblingPosition }.

Record MerkleProof := {
  mp_leaf_hash : Hash;
  mp_tx_index : nat;
  mp_block_height : u64;
  mp_block_hash : Hash;
  mp_root : Hash;
  mp_path : list ProofNode
}.

Record MultiProof := {
  mu_leaf_indices : list nat;
  mu_leaf_hashes : list Hash;
  mu_siblings : list (nat * nat * Hash);
  mu_root : Hash;
  mu_block_height : u64;
  mu_block_hash : Hash
}.

(** ** Vectors *)

(** [usize::next_power_of_two]: the least power of two not below [n]. *)
Definition next_power_of_two (n : nat) : nat := (2 ^ Nat.log2_up n)%nat.

(** [v[i] = x], which panics when [i] is out of range. *)
Definition vec_set (v : list Hash) (i : nat) (x : Hash) : option (list Hash) :=
  if decide (i < length v)%nat then Some (<[i := x]> v) else None.

(** [Vec::resize]: truncates or pads with [x]. *)
Definition resize (n : nat) (x : Hash) (v : list Hash) : list Hash :=
  take n v ++ replicate (n - length v) x.

(** [for (i, h) in hs.enumerate() { v[start + i] = h }]. *)
Fixpoint place_from (start : nat) (hs : list Hash) (v : list Hash) : option (list Hash) :=
  match hs with
  | [] => Some v
  | h :: hs => v ← vec_set v start h; place_from (S start) hs v
  end.

Section Merkle.
Context (sha3 : list u8 -> Hash).

Definition hash_leaf (data : list u8) : Hash := sha3 (LEAF_DOMAIN :: data).

Definition hash_pair (left right : Hash) : Hash :=
  sha3 (NODE_DOMAIN :: hash_bytes left ++ hash_bytes right).

(** ** Building *)

(** [for i in (0..n).rev() { nodes[i] = hash_pair(nodes[2i+1], nodes[2i+2]) }]. *)
Fixpoint build_internal (n : nat) (nodes : list Hash) : option (list Hash) :=
  match n with
  | O => Some nodes
  | S i =>
      left ← nodes !! (2 * i + 1)%nat;
      right ← nodes !! (2 * i + 2)%nat;
      nodes ← vec_set nodes i (hash_pair left right);
      build_internal i nodes
  end.

Definition build (transaction_hashes : list Hash) : option MerkleTree :=
  let transaction_count := length transaction_hashes in
  if (transaction_count =? 0)%nat then
    Some {| nodes := [SENTINEL_HASH]; transaction_count := 0;
            padded_leaf_count := 0; root := SENTINEL_HASH |}
  else
    let padded_leaf_count :=
      if (transaction_count =? 1)%nat then 2%nat
      else next_power_of_two transaction_count in
    let leaves := resize padded_leaf_count SENTINEL_HASH transaction_hashes in
    let total_nodes := (2 * padded_leaf_count - 1)%nat in
    let nodes := replicate total_nodes SENTINEL_HASH in
    let leaf_start := (padded_leaf_count - 1)%nat in
    nodes ← place_from leaf_start leaves nodes;
    nodes ← build_internal leaf_start nodes;
    root ← nodes !! 0%nat;
    Some {| nodes := nodes; transaction_count := transaction_count;
            padded_leaf_count := padded_leaf_count; root := root |}.

(** The hashes of one level, each computed from the old [nodes]. *)
Definition level_pairs (level_start level_size : nat) (nodes : list Hash)
  : option (list Hash) :=
  mapM (fun i =>
    let left_child := (level_start + level_size + 2 * i)%nat in
    left ← nodes !! left_child;
    right ← nodes !! (left_child + 1)%nat;
    Some (hash_pair left right)) (seq 0 level_size).

(** The [while level_size > 0] loop.  [fuel] bounds the number of levels. *)
Fixpoint parallel_levels (fuel : nat) (level_start level_size : nat) (nodes : list Hash)
  : option (list Hash) :=
  match fuel with
  | O => None
  | S fuel =>
      if (level_size =? 0)%nat then Some nodes
      else
        pairs ← level_pairs level_start level_size nodes;
        nodes ← place_from level_start pairs nodes;
        if (level_size =? 1)%nat then Some nodes
        else
          let level_size := (level_size / 2)%nat in
          parallel_levels fuel (level_start - level_size)%nat level_size nodes
  end.

Definition build_parallel (transaction_hashes : list Hash) : option MerkleTree :=
  let transaction_count := length transaction_hashes in
  if (transaction_count <? PARALLEL_THRESHOLD)%nat then build transaction_hashes
  else if (transaction_count =? 0)%nat then build transaction_hashes
  else
    let padded_leaf_count := next_power_of_two transaction_count in
    let leaves := resize padded_leaf_count SENTINEL_HASH transaction_hashes in
    let total_nodes := (2 * padded_leaf_count - 1)%nat in
    let nodes := replicate total_nodes SENTINEL_HASH in
    let leaf_start := (padded_leaf_count - 1)%nat in
    nodes ← place_from leaf_start leaves nodes;
    let level_size := (padded_leaf_count / 2)%nat in
    nodes ← parallel_levels (S padded_leaf_count) (leaf_start - level_size) level_size nodes;
    root ← nodes !! 0%nat;
    Some {| nodes := nodes; transaction_count := transaction_count;
            padded_leaf_count := padded_leaf_count; root := root |}.

(** ** Proofs *)

(** The [while current_idx > 0] loop: the siblings on the way to the root. *)
Equations? proof_path (nodes : list Hash) (current_idx : nat)
  : result IndexingError (list ProofNode) by wf current_idx lt :=
  proof_path nodes 0 := Ok [];
  proof_path nodes (S k) :=
    let current_idx := S k in
    let sibling_idx :=
      if (current_idx mod 2 =? 0)%nat then (current_idx - 1)%nat
      else (current_idx + 1)%nat in
    let position := if (current_idx mod 2 =? 0)%nat then Left else Right in
    match nodes !! sibling_idx with
    | None => Err (InvalidIndex sibling_idx (length nodes))
    | Some sibling_hash =>
        rbind (proof_path nodes (k / 2)%nat)
          (fun path => Ok ({| pn_hash := sibling_hash; pn_position := position |} :: path))
    end.
Proof. apply Nat.lt_succ_r, Nat.Div0.div_le_upper_bound. lia. Defined.

Definition generate_proof (t : MerkleTree) (tx_index : nat) (block_height : u64)
  (block_hash : Hash) : result IndexingError MerkleProof :=
  if (transaction_count t <=? tx_index)%nat then
    Err (InvalidIndex tx_index (transaction_count t))
  else if (padded_leaf_count t =? 0)%nat then Err (EmptyBlock block_hash)
  else
    let leaf_start := (padded_leaf_count t - 1)%nat in
    let current_idx := (leaf_start + tx_index)%nat in
    match nodes t !! current_idx with
    | None => Err (InvalidIndex tx_index (transaction_count t))
    | Some leaf_hash =>
        let? path := proof_path (nodes t) current_idx in
        Ok {| mp_leaf_hash := leaf_hash; mp_tx_index := tx_index;
              mp_block_height := block_height; mp_block_hash := block_hash;
              mp_root := root t; mp_path := path |}
    end.

Definition verify_step (current_hash : Hash) (node : ProofNode) : Hash :=
  match pn_position node with
  | Left => hash_pair (pn_hash node) current_hash
  | Right => hash_pair current_hash (pn_hash node)
  end.

Definition verify_proof_static (leaf_hash : Hash) (path : list ProofNode)
  (expected_root : Hash) : bool :=
  foldl verify_step leaf_hash path =? expected_root.

Definition verify_proof (t : MerkleTree) (proof : MerkleProof) : bool :=
  verify_proof_static (mp_leaf_hash proof) (mp_path proof) (root t).

End Merkle.

(** [sort_canonically]: byte arrays compare as their big-endian numbers. *)
Definition sort_canonically (hashes : list Hash) : list Hash := sort_hashes hashes.

(** ** Multi-proofs *)

Definition multi_verify (m : MultiProof) : bool :=
  if bool_decide (mu_leaf_indices m = []) || bool_decide (mu_leaf_hashes m = []) then false
  else if negb (length (mu_leaf_indices m) =? length (mu_leaf_hashes m))%nat then false
  else negb (forallb (fun b => b =? 0) (hash_bytes (mu_root m))).

(** [Vec::dedup]: drops consecutive repetitions. *)
Fixpoint dedup (l : list nat) : list nat :=
  match l with
  | [] => []
  | x :: l =>
      match dedup l with
      | y :: k => if (x =? y)%nat then y :: k else x :: y :: k
      | [] => [x]
      end
  end.

(** The first index out of bounds, if any: the validation loop's early return. *)
Definition first_invalid (t : MerkleTree) (indices : list nat) : option nat :=
  head (base.filter (fun i => transaction_count t <= i)%nat indices).

Definition generate_multi_proof (t : MerkleTree) (indices : list nat)
  (block_height : u64) (block_hash : Hash) : result IndexingError MultiProof :=
  if bool_decide (indices = []) then Err (EmptyBlock block_hash)
  else
    match first_invalid t indices with
    | Some idx => Err (InvalidIndex idx (transaction_count t - 1))
    | None =>
        let sorted_indices := dedup (merge_sort le indices) in
        let leaf_start := (padded_leaf_count t - 1)%nat in
        match mapM (fun idx => nodes t !! (leaf_start + idx)%nat) sorted_indices with
        | None => Panic
        | Some leaf_hashes =>
            Ok {| mu_leaf_indices := sorted_indices; mu_leaf_hashes := leaf_hashes;
                  mu_siblings := zip_with (fun idx h => (0%nat, idx, h)) sorted_indices leaf_hashes;
                  mu_root := root t; mu_block_height := block_height;
                  mu_block_hash := block_hash |}
        end
    end.
