(* ===== verification/MerkleFacts.v ===== *)
(** * Facts about the array-encoded Merkle tree

    A node array is a [heap] when every inner node is the hash of its two
    children.  Both construction routines produce the heap over the padded
    leaves, and there is only one; proof paths are computed and checked against
    the heap. *)

From Equations Require Import Equations.
From S2P Require Import Prelude Merkle.
Local Open Scope nat_scope.

Section Heap.
Context (sha3 : list Z -> Z).
Notation hash_pair := (hash_pair sha3).

Definition heap_at (v : list Z) (i : nat) : Prop :=
  exists l r, v !! (2 * i + 1) = Some l /\ v !! (2 * i + 2) = Some r
    /\ v !! i = Some (hash_pair l r).

(** [v] is the node array over [leaves]: [L] leaves at the end, and above them
    the hashes of the children. *)
Record heap (leaves v : list Z) : Prop := {
  heap_length : length v = 2 * length leaves - 1;
  heap_leaf i : i < length leaves -> v !! (length leaves - 1 + i) = leaves !! i;
  heap_node i : i < length leaves - 1 -> heap_at v i
}.

(** The reference: the root over [2^d] leaves, by halving. *)
Fixpoint merkle_root_spec (d : nat) (leaves : list Z) : Z :=
  match d with
  | O => default SENTINEL_HASH (head leaves)
  | S d => hash_pair (merkle_root_spec d (take (2 ^ d) leaves))
                     (merkle_root_spec d (drop (2 ^ d) leaves))
  end.

(** ** Loops over the array *)

Lemma vec_set_Some v i x : i < length v -> vec_set v i x = Some (<[i := x]> v).
Proof. intros H. unfold vec_set. by rewrite decide_True. Qed.

Lemma place_from_spec hs : forall start v,
  start + length hs <= length v ->
  exists v', place_from start hs v = Some v' /\ length v' = length v
    /\ forall j, v' !! j = if decide (start <= j < start + length hs)
                           then hs !! (j - start) else v !! j.
Proof.
  induction hs as [|h hs IH]; intros start v Hlen; simpl in *.
  { exists v. split_and!; try done. intros j. by rewrite decide_False by lia. }
  rewrite vec_set_Some by lia. simpl.
  destruct (IH (S start) (<[start := h]> v)) as (v' & -> & Hl & Hv');
    [rewrite length_insert; lia|].
  exists v'. rewrite Hl, length_insert. split_and!; try done. intros j. rewrite Hv'.
  destruct (decide (S start <= j < S start + length hs)) as [Hin|Hout].
  - rewrite decide_True by lia. by replace (j - start) with (S (j - S start)) by lia.
  - destruct (decide (j = start)) as [->|Hne].
    + rewrite decide_True by lia. rewrite Nat.sub_diag.
      rewrite list_lookup_insert_eq by lia. done.
    + rewrite decide_False by lia. by rewrite list_lookup_insert_ne by lia.
Qed.

Lemma build_internal_spec n : forall v,
  2 * n < length v ->
  exists v', build_internal sha3 n v = Some v' /\ length v' = length v
    /\ (forall j, n <= j -> v' !! j = v !! j) /\ (forall i, i < n -> heap_at v' i).
Proof.
  induction n as [|n IH]; intros v Hlen.
  { exists v. split_and!; try done. intros; lia. }
  cbn [build_internal].
  destruct (lookup_lt_is_Some_2 v (2 * n + 1)) as [l El]; [lia|].
  destruct (lookup_lt_is_Some_2 v (2 * n + 2)) as [r Er]; [lia|].
  rewrite El, Er. cbn -[Nat.mul]. rewrite vec_set_Some by lia. cbn -[Nat.mul].
  destruct (IH (<[n := hash_pair l r]> v)) as (v' & -> & Hl & Hge & Hheap);
    [rewrite length_insert; lia|].
  exists v'. rewrite Hl, length_insert. split_and!; try done.
  - intros j Hj. rewrite Hge by lia. by rewrite list_lookup_insert_ne by lia.
  - intros i Hi. destruct (decide (i = n)) as [->|Hne]; [|apply Hheap; lia].
    exists l, r. rewrite !Hge by lia. rewrite !list_lookup_insert_ne by lia.
    by rewrite list_lookup_insert_eq by lia.
Qed.

Lemma level_pairs_spec start size v :
  start + size + 2 * size <= length v ->
  exists pairs, level_pairs sha3 start size v = Some pairs /\ length pairs = size
    /\ forall i, i < size -> exists l r, v !! (start + size + 2 * i) = Some l
         /\ v !! (start + size + 2 * i + 1) = Some r /\ pairs !! i = Some (hash_pair l r).
Proof.
  intros Hlen. unfold level_pairs.
  destruct (mapM _ _) as [pairs|] eqn:E.
  - apply mapM_Some in E. pose proof (Forall2_length _ _ _ E) as Hl.
    rewrite length_seq in Hl. exists pairs. split_and!; try done. intros i Hi.
    destruct (lookup_lt_is_Some_2 pairs i) as [h Hh]; [lia|].
    destruct (Forall2_lookup_r _ _ _ _ _ E Hh) as (k & Hk & Hf).
    apply lookup_seq in Hk as [-> _]. simpl in Hf.
    rewrite bind_Some in Hf. destruct Hf as (l & Hl1 & Hf).
    rewrite bind_Some in Hf. destruct Hf as (r & Hr1 & [= <-]). by exists l, r.
  - exfalso. apply mapM_None in E. apply Exists_exists in E as (i & Hi & Hf).
    apply elem_of_seq in Hi.
    destruct (lookup_lt_is_Some_2 v (start + size + 2 * i)) as [l El]; [lia|].
    destruct (lookup_lt_is_Some_2 v (start + size + 2 * i + 1)) as [r Er]; [lia|].
    cbn -[Nat.mul] in Hf. by rewrite El, Er in Hf.
Qed.

(** One iteration of the level loop extends the heap upwards by one level. *)
Lemma parallel_level_step sz v bound :
  0 < sz -> 2 * sz - 1 <= bound -> 2 * bound < length v ->
  (forall i, 2 * sz - 1 <= i < bound -> heap_at v i) ->
  exists pairs v1, level_pairs sha3 (sz - 1) sz v = Some pairs
    /\ place_from (sz - 1) pairs v = Some v1 /\ length v1 = length v
    /\ (forall j, 2 * sz - 1 <= j -> v1 !! j = v !! j)
    /\ (forall i, sz - 1 <= i < bound -> heap_at v1 i).
Proof.
  intros Hsz Hb Hlen Hheap.
  destruct (level_pairs_spec (sz - 1) sz v) as (pairs & Hlp & Hpl & Hp); [lia|].
  destruct (place_from_spec pairs (sz - 1) v) as (v1 & Hpf & Hl1 & Hv1); [lia|].
  assert (Hge : forall j, 2 * sz - 1 <= j -> v1 !! j = v !! j)
    by (intros j Hj; rewrite Hv1, decide_False by lia; done).
  exists pairs, v1. split_and!; try done. intros i Hi.
  destruct (decide (2 * sz - 1 <= i)) as [Hi'|Hi'].
  - destruct (Hheap i) as (l & r & ? & ? & ?); [lia|]. exists l, r. by rewrite !Hge by lia.
  - destruct (Hp (i - (sz - 1))) as (l & r & H1 & H2 & H3); [lia|]. exists l, r.
    rewrite !Hge by lia. rewrite Hv1, decide_True by lia.
    replace (2 * i + 1) with (sz - 1 + sz + 2 * (i - (sz - 1))) by lia.
    by replace (2 * i + 2) with (sz - 1 + sz + 2 * (i - (sz - 1)) + 1) by lia.
Qed.

(** The level loop completes the heap above the levels already done. *)
Lemma parallel_levels_spec d : forall fuel v bound,
  d < fuel -> 2 * 2 ^ d - 1 <= bound -> 2 * bound < length v ->
  (forall i, 2 * 2 ^ d - 1 <= i < bound -> heap_at v i) ->
  exists v', parallel_levels sha3 fuel (2 ^ d - 1) (2 ^ d) v = Some v'
    /\ length v' = length v /\ (forall j, bound <= j -> v' !! j = v !! j)
    /\ (forall i, i < bound -> heap_at v' i).
Proof.
  induction d as [|d IH]; intros [|fuel] v bound Hf Hb Hlen Hheap; try lia.
  - destruct (parallel_level_step 1 v bound) as (pairs & v1 & E1 & E2 & Hl & Hge & Hh);
      try done; try (simpl in *; lia).
    cbn -[level_pairs place_from]. simpl in E1, E2. rewrite E1. cbn -[place_from].
    rewrite E2. cbn. exists v1. split_and!; try done.
    + intros j Hj. apply Hge. simpl in Hb. lia.
    + intros i Hi. apply Hh. lia.
  - assert (Hpos : 0 < 2 ^ d) by (apply Nat.neq_0_lt_0, Nat.pow_nonzero; lia).
    rewrite Nat.pow_succ_r' in *. set (sz := 2 * 2 ^ d) in *.
    destruct (parallel_level_step sz v bound) as (pairs & v1 & E1 & E2 & Hl & Hge & Hh);
      try done; try lia.
    cbn [parallel_levels]. rewrite (proj2 (Nat.eqb_neq sz 0)) by lia.
    rewrite E1. cbn [mbind option_bind]. rewrite E2. cbn [mbind option_bind].
    rewrite (proj2 (Nat.eqb_neq sz 1)) by lia.
    replace (sz / 2) with (2 ^ d) by (unfold sz; rewrite Nat.mul_comm, Nat.div_mul; lia).
    replace (sz - 1 - 2 ^ d) with (2 ^ d - 1) by lia.
    destruct (IH fuel v1 bound) as (v' & -> & Hl' & Hge' & Hh'); try lia.
    { intros i Hi. apply Hh. lia. }
    exists v'. split_and!; try done; [lia|].
    intros j Hj. rewrite Hge' by lia. apply Hge. lia.
Qed.

(** ** The heap over given leaves exists once *)

Lemma heap_unique leaves v w : heap leaves v -> heap leaves w -> v = w.
Proof.
  intros [Hl1 Hf1 Hn1] [Hl2 Hf2 Hn2].
  assert (H : forall k i, 2 * length leaves - 1 - i <= k -> v !! i = w !! i).
  { induction k as [|k IH]; intros i Hi.
    { rewrite !lookup_ge_None_2 by lia. done. }
    destruct (decide (i < length leaves - 1)) as [Hin|Hin].
    - destruct (Hn1 i Hin) as (l & r & El & Er & ->).
      destruct (Hn2 i Hin) as (l' & r' & El' & Er' & ->).
      rewrite (IH (2 * i + 1)) in El by lia. rewrite (IH (2 * i + 2)) in Er by lia. congruence.
    - destruct (decide (i < 2 * length leaves - 1)).
      + replace i with (length leaves - 1 + (i - (length leaves - 1))) by lia.
        by rewrite Hf1, Hf2 by lia.
      + by rewrite !lookup_ge_None_2 by lia. }
  apply list_eq. intros i. by eapply H.
Qed.

(** The nodes [d - k] levels above the leaves are the reference roots of the
    blocks of [2^(d-k)] leaves below them. *)
Lemma heap_block_root m : forall d leaves v j,
  m <= d -> length leaves = 2 ^ d -> heap leaves v -> j < 2 ^ (d - m) ->
  v !! (2 ^ (d - m) - 1 + j)
  = Some (merkle_root_spec m (take (2 ^ m) (drop (j * 2 ^ m) leaves))).
Proof.
  induction m as [|m IH]; intros d leaves v j Hm Hlen Hheap Hj.
  - rewrite Nat.sub_0_r in *. rewrite <- Hlen in Hj |- *.
    rewrite (heap_leaf _ _ Hheap) by done.
    destruct (lookup_lt_is_Some_2 leaves j) as [x Hx]; [lia|].
    rewrite Nat.pow_0_r, Nat.mul_1_r, Hx. simpl.
    by rewrite (drop_S _ _ _ Hx).
  - assert (Hp1 : 2 ^ (d - m) = 2 * 2 ^ (d - S m))
      by (replace (d - m) with (S (d - S m)) by lia; by rewrite Nat.pow_succ_r').
    assert (Hpd : 2 ^ d = 2 ^ (d - m) * 2 ^ m)
      by (rewrite <- Nat.pow_add_r; f_equal; lia).
    assert (0 < 2 ^ (d - S m)) by (apply Nat.neq_0_lt_0, Nat.pow_nonzero; lia).
    assert (0 < 2 ^ m) by (apply Nat.neq_0_lt_0, Nat.pow_nonzero; lia).
    destruct (heap_node _ _ Hheap (2 ^ (d - S m) - 1 + j)) as (l & r & El & Er & ->).
    { rewrite Hlen, Hpd, Hp1. nia. }
    pose proof (IH d leaves v (2 * j) ltac:(lia) Hlen Hheap ltac:(lia)) as H1.
    pose proof (IH d leaves v (2 * j + 1) ltac:(lia) Hlen Hheap ltac:(lia)) as H2.
    replace (2 * (2 ^ (d - S m) - 1 + j) + 1) with (2 ^ (d - m) - 1 + 2 * j) in El by lia.
    replace (2 * (2 ^ (d - S m) - 1 + j) + 2) with (2 ^ (d - m) - 1 + (2 * j + 1)) in Er by lia.
    rewrite El in H1. rewrite Er in H2. injection H1 as ->. injection H2 as ->.
    cbn [merkle_root_spec].
    f_equal. f_equal; f_equal.
    + rewrite Nat.pow_succ_r'. rewrite take_take, Nat.min_l by lia. do 2 f_equal. lia.
    + rewrite Nat.pow_succ_r'. rewrite skipn_firstn_comm.
      rewrite drop_drop. f_equal; [lia|]. f_equal. lia.
Qed.

(** ** The construction routines build the heap *)

(** The array both routines start from: padding everywhere but the leaves. *)
Definition leaf_array (leaves : list Z) : list Z :=
  replicate (length leaves - 1) SENTINEL_HASH ++ leaves.

Lemma place_leaves leaves :
  leaves <> [] ->
  exists v, place_from (length leaves - 1) leaves
      (replicate (2 * length leaves - 1) SENTINEL_HASH) = Some v
    /\ length v = 2 * length leaves - 1
    /\ forall i, i < length leaves -> v !! (length leaves - 1 + i) = leaves !! i.
Proof.
  intros Hne. assert (0 < length leaves) by (destruct leaves; simpl; [done|lia]).
  destruct (place_from_spec leaves (length leaves - 1)
    (replicate (2 * length leaves - 1) SENTINEL_HASH)) as (v & Hv & Hl & Hlk);
    [rewrite length_replicate; lia|].
  rewrite length_replicate in Hl. exists v. split_and!; try done.
  intros i Hi. rewrite Hlk, decide_True by lia. f_equal. lia.
Qed.

Lemma serial_heap leaves :
  leaves <> [] ->
  exists v, (v ← place_from (length leaves - 1) leaves
               (replicate (2 * length leaves - 1) SENTINEL_HASH);
             build_internal sha3 (length leaves - 1) v) = Some v /\ heap leaves v.
Proof.
  intros Hne. assert (0 < length leaves) by (destruct leaves; simpl; [done|lia]).
  destruct (place_leaves leaves Hne) as (v & -> & Hl & Hlf). cbn [mbind option_bind].
  destruct (build_internal_spec (length leaves - 1) v) as (v' & -> & Hl' & Hge & Hh); [lia|].
  exists v'. split; [done|]. split; [lia| |done].
  intros i Hi. rewrite Hge by lia. by apply Hlf.
Qed.

Lemma parallel_heap leaves d :
  length leaves = 2 ^ S d ->
  exists v, (v ← place_from (length leaves - 1) leaves
               (replicate (2 * length leaves - 1) SENTINEL_HASH);
             parallel_levels sha3 (S (length leaves)) (length leaves - 1 - length leaves / 2)
               (length leaves / 2) v) = Some v /\ heap leaves v.
Proof.
  intros Hlen. assert (Hpos : 0 < 2 ^ d) by (apply Nat.neq_0_lt_0, Nat.pow_nonzero; lia).
  rewrite Nat.pow_succ_r' in Hlen.
  assert (leaves <> []) by (intros ->; simpl in Hlen; lia).
  destruct (place_leaves leaves) as (v & -> & Hl & Hlf); [done|]. cbn [mbind option_bind].
  replace (length leaves / 2) with (2 ^ d) by (rewrite Hlen, Nat.mul_comm, Nat.div_mul; lia).
  replace (length leaves - 1 - 2 ^ d) with (2 ^ d - 1) by lia.
  destruct (parallel_levels_spec d (S (length leaves)) v (length leaves - 1))
    as (v' & -> & Hl' & Hge & Hh); try lia.
  { pose proof (Nat.pow_gt_lin_r 2 d). lia. }
  exists v'. split; [done|]. split; [lia| |done].
  intros i Hi. rewrite Hge by lia. by apply Hlf.
Qed.

(** The number of leaves [build] pads to, and its logarithm. *)
Definition padded_depth (n : nat) : nat := if n =? 1 then 1 else Nat.log2_up n.

(** The padded leaves. *)
Definition padded (txs : list Z) : list Z :=
  txs ++ replicate (2 ^ padded_depth (length txs) - length txs) SENTINEL_HASH.

Lemma padded_depth_ge n : n <> 0 -> n <= 2 ^ padded_depth n.
Proof.
  intros Hn. unfold padded_depth. destruct (Nat.eqb_spec n 1) as [->|]; [simpl; lia|].
  apply Nat.log2_up_spec. lia.
Qed.

Lemma length_padded txs : txs <> [] -> length (padded txs) = 2 ^ padded_depth (length txs).
Proof.
  intros Hne. unfold padded. rewrite length_app, length_replicate.
  pose proof (padded_depth_ge (length txs)). destruct txs; [done|]. simpl in *. lia.
Qed.

Lemma resize_padded txs : txs <> [] ->
  resize (2 ^ padded_depth (length txs)) SENTINEL_HASH txs = padded txs.
Proof.
  intros Hne. unfold resize, padded. f_equal. apply take_ge.
  apply padded_depth_ge. by destruct txs.
Qed.

Lemma padded_leaf_count_pow n :
  (if n =? 1 then 2 else next_power_of_two n) = 2 ^ padded_depth n.
Proof. unfold padded_depth, next_power_of_two. by destruct (n =? 1). Qed.

(** [build] on a non-empty list: the heap over the padded leaves. *)
Lemma build_heap txs : txs <> [] ->
  exists t, build sha3 txs = Some t /\ heap (padded txs) (nodes t)
    /\ transaction_count t = length txs
    /\ padded_leaf_count t = 2 ^ padded_depth (length txs)
    /\ nodes t !! 0 = Some (root t).
Proof.
  intros Hne. unfold build. rewrite (proj2 (Nat.eqb_neq _ 0)) by (by destruct txs).
  rewrite padded_leaf_count_pow, resize_padded by done. rewrite <- length_padded by done.
  assert (Hp : padded txs <> []) by (unfold padded; by destruct txs).
  destruct (serial_heap (padded txs) Hp) as (v & Hv & Hh).
  destruct (place_from _ _ _) as [w|]; [|done]. cbn [mbind option_bind] in *. rewrite Hv.
  cbn [mbind option_bind].
  destruct (lookup_lt_is_Some_2 v 0) as [x Hx].
  { rewrite (heap_length _ _ Hh). destruct (padded txs); simpl; [done|lia]. }
  rewrite Hx. by eexists.
Qed.

Lemma build_parallel_heap txs : PARALLEL_THRESHOLD <= length txs ->
  exists t, build_parallel sha3 txs = Some t /\ heap (padded txs) (nodes t)
    /\ transaction_count t = length txs
    /\ padded_leaf_count t = 2 ^ padded_depth (length txs)
    /\ nodes t !! 0 = Some (root t).
Proof.
  intros Hn. assert (Hbig : 1024 <= length txs) by exact Hn.
  assert (Hne : txs <> []) by (intros ->; simpl in Hbig; lia).
  unfold build_parallel. rewrite (proj2 (Nat.ltb_ge _ _)) by done.
  rewrite (proj2 (Nat.eqb_neq _ 0)) by lia.
  assert (Hpd : next_power_of_two (length txs) = 2 ^ padded_depth (length txs)).
  { rewrite <- padded_leaf_count_pow. by rewrite (proj2 (Nat.eqb_neq _ 1)) by lia. }
  rewrite Hpd, resize_padded by done. rewrite <- length_padded by done.
  assert (exists d, length (padded txs) = 2 ^ S d) as [d Hd].
  { exists (pred (padded_depth (length txs))). rewrite length_padded by done. f_equal.
    assert (padded_depth (length txs) <> 0); [|lia]. intros Hz.
    pose proof (padded_depth_ge (length txs)). rewrite Hz in *. simpl in *. lia. }
  destruct (parallel_heap (padded txs) d Hd) as (v & Hv & Hh).
  destruct (place_from _ _ _) as [w|]; [|done]. cbn [mbind option_bind] in *. rewrite Hv.
  cbn [mbind option_bind].
  destruct (lookup_lt_is_Some_2 v 0) as [x Hx].
  { rewrite (heap_length _ _ Hh), Hd, Nat.pow_succ_r'.
    pose proof (Nat.pow_nonzero 2 d). lia. }
  rewrite Hx. by eexists.
Qed.

(** ** Proof paths *)

Lemma proof_path_succ v k :
  proof_path v (S k)
  = match v !! (if (S k mod 2 =? 0) then k else S k + 1) with
    | None => Err (InvalidIndex (if (S k mod 2 =? 0) then k else S k + 1) (length v))
    | Some h => rbind (proof_path v (k / 2)) (fun path =>
        Ok ({| pn_hash := h; pn_position := if (S k mod 2 =? 0) then Left else Right |} :: path))
    end.
Proof. rewrite proof_path_equation_2. cbv zeta. by rewrite Nat.sub_succ, Nat.sub_0_r. Qed.

Notation verify := (foldl (verify_step sha3)).

(** From any node of a heap the loop collects a path that hashes up to the
    root, and the path has one entry per level. *)
Lemma proof_path_verifies leaves v : forall idx h rt,
  heap leaves v -> v !! idx = Some h -> v !! 0 = Some rt ->
  exists path, proof_path v idx = Ok path /\ verify h path = rt
    /\ length path = Nat.log2 (idx + 1).
Proof.
  intros idx. induction (lt_wf idx) as [idx _ IH]. intros h rt Hheap Hh Hrt.
  destruct idx as [|k].
  { exists []. rewrite proof_path_equation_1. split_and!; try done. simpl. congruence. }
  pose proof (Nat.div_mod_eq k 2) as Hdm. pose proof (Nat.mod_upper_bound k 2) as Hmb.
  pose proof (lookup_lt_Some _ _ _ Hh) as Hlt. rewrite (heap_length _ _ Hheap) in Hlt.
  destruct (heap_node _ _ Hheap (k / 2)) as (l & r & El & Er & Ep); [lia|].
  destruct (IH (k / 2)) with (h := hash_pair l r) (rt := rt) as (path & Hp & Hv & Hlen);
    try done; [lia|].
  assert (Hlog : Nat.log2 (S k + 1) = S (Nat.log2 (k / 2 + 1))).
  { destruct (k mod 2) as [|[|]]; [| |lia].
    - replace (S k + 1) with (2 * (k / 2 + 1)) by lia. apply Nat.log2_double. lia.
    - replace (S k + 1) with (2 * (k / 2 + 1) + 1) by lia. apply Nat.log2_succ_double. lia. }
  rewrite Hlog, proof_path_succ. destruct (k mod 2) as [|[|]] eqn:Hm; [| |lia].
  - assert (S k mod 2 =? 0 = false) as ->.
    { apply Nat.eqb_neq. replace (S k) with (1 + k / 2 * 2) by lia.
      by rewrite Nat.Div0.mod_add. }
    replace (S k) with (2 * (k / 2) + 1) in Hh by lia.
    replace (S k + 1) with (2 * (k / 2) + 2) by lia.
    rewrite Er, Hp. eexists. split; [done|]. cbn [foldl length]. split; [|lia].
    unfold verify_step at 2. simpl. congruence.
  - assert (S k mod 2 =? 0 = true) as ->.
    { apply Nat.eqb_eq. replace (S k) with ((k / 2 + 1) * 2) by lia.
      by rewrite Nat.Div0.mod_mul. }
    replace (S k) with (2 * (k / 2) + 2) in Hh by lia.
    replace (2 * (k / 2) + 1) with k in El by lia.
    rewrite El, Hp. eexists. split; [done|]. cbn [foldl length]. split; [|lia].
    unfold verify_step at 2. simpl. congruence.
Qed.

End Heap.
