(* ===== verification/MerkleProps.v ===== *)
(** * Properties of transaction indexing

    Correctness of the two tree constructions, completeness and binding of the
    inclusion proofs, order-independence of the canonical root, and what the
    proof checks do not rule out. *)

From S2P Require Import Prelude Merkle MerkleFacts.
Local Open Scope Z_scope.

(** ** Binding *)

(** The byte strings hashed while a path is checked from [leaf]. *)
Definition step_preimage (current_hash : Hash) (node : ProofNode) : list u8 :=
  match pn_position node with
  | Left => NODE_DOMAIN :: hash_bytes (pn_hash node) ++ hash_bytes current_hash
  | Right => NODE_DOMAIN :: hash_bytes current_hash ++ hash_bytes (pn_hash node)
  end.

Fixpoint verify_preimages (sha3 : list u8 -> Hash) (leaf : Hash) (path : list ProofNode)
  : list (list u8) :=
  match path with
  | [] => []
  | n :: path => step_preimage leaf n :: verify_preimages sha3 (verify_step sha3 leaf n) path
  end.

(** Two checks hash different strings with the same digest at the same level. *)
Definition check_collision (sha3 : list u8 -> Hash) (a b : list (list u8)) : Prop :=
  exists k x y, a !! k = Some x /\ b !! k = Some y /\ x <> y /\ sha3 x = sha3 y.

Section Binding.
Context (sha3 : list u8 -> Hash) (Hsha : forall x, in_width 256 (sha3 x)).

Lemma verify_step_sha current n : verify_step sha3 current n = sha3 (step_preimage current n).
Proof. unfold verify_step, step_preimage, hash_pair. by destruct (pn_position n). Qed.

(** The string hashed at a level determines the running hash and the sibling. *)
Lemma step_preimage_inj c1 c2 n1 n2 :
  pn_position n1 = pn_position n2 ->
  in_width 256 c1 -> in_width 256 c2 ->
  in_width 256 (pn_hash n1) -> in_width 256 (pn_hash n2) ->
  step_preimage c1 n1 = step_preimage c2 n2 -> c1 = c2 /\ n1 = n2.
Proof.
  destruct n1 as [h1 p1], n2 as [h2 p2]. unfold step_preimage. simpl. intros <- H1 H2 H3 H4.
  destruct p1; intros [_ Heq]%cons_eq_inj;
    apply app_inj_1 in Heq as [Ha Hb]; [|by rewrite !length_be_bytes| |by rewrite !length_be_bytes];
    apply hash_bytes_inj in Ha, Hb; try done; by subst.
Qed.

Lemma path_binding p1 : forall p2 h1 h2,
  pn_position <$> p1 = pn_position <$> p2 ->
  in_width 256 h1 -> in_width 256 h2 ->
  Forall (fun n => in_width 256 (pn_hash n)) p1 ->
  Forall (fun n => in_width 256 (pn_hash n)) p2 ->
  foldl (verify_step sha3) h1 p1 = foldl (verify_step sha3) h2 p2 ->
  (h1 = h2 /\ p1 = p2)
  \/ check_collision sha3 (verify_preimages sha3 h1 p1) (verify_preimages sha3 h2 p2).
Proof.
  induction p1 as [|n1 p1 IH]; intros [|n2 p2] h1 h2 Hpos W1 W2 F1 F2 Hv; simplify_eq/=.
  { by left. }
  apply Forall_cons in F1 as [N1 F1], F2 as [N2 F2].
  destruct (IH p2 (verify_step sha3 h1 n1) (verify_step sha3 h2 n2)) as [[Hh ->]|C];
    try done; try (rewrite verify_step_sha; apply Hsha).
  - rewrite !verify_step_sha in Hh.
    destruct (decide (step_preimage h1 n1 = step_preimage h2 n2)) as [E|E].
    + left. apply step_preimage_inj in E as [-> ->]; done.
    + right. by exists 0%nat, (step_preimage h1 n1), (step_preimage h2 n2).
  - right. destruct C as (k & x & y & Hx & Hy & C). by exists (S k), x, y.
Qed.

(** Every node of a heap over 256-bit leaves is a 256-bit value. *)
Lemma heap_in_width leaves v i h :
  heap sha3 leaves v -> Forall (in_width 256) leaves -> v !! i = Some h -> in_width 256 h.
Proof.
  intros Hh Hl Hi. destruct (decide (i < length leaves - 1)%nat) as [Hin|Hin].
  - destruct (heap_node _ _ _ Hh i Hin) as (l & r & _ & _ & Hn). simplify_eq. apply Hsha.
  - pose proof (lookup_lt_Some _ _ _ Hi) as Hlt. rewrite (heap_length _ _ _ Hh) in Hlt.
    replace i with (length leaves - 1 + (i - (length leaves - 1)))%nat in Hi by lia.
    rewrite (heap_leaf _ _ _ Hh) in Hi by lia.
    by eapply Forall_lookup_1 in Hl.
Qed.

Lemma proof_path_in_width leaves v : heap sha3 leaves v -> Forall (in_width 256) leaves ->
  forall idx path, proof_path v idx = Ok path -> Forall (fun n => in_width 256 (pn_hash n)) path.
Proof.
  intros Hh Hl idx. induction (lt_wf idx) as [idx _ IH]. intros path.
  destruct idx as [|k]; [rewrite proof_path_equation_1; intros [= <-]; constructor|].
  rewrite proof_path_succ. destruct (v !! _) as [h|] eqn:Hsib; [|done].
  destruct (proof_path v (k / 2)%nat) as [p| |] eqn:Hp; [|done|done]. intros [= <-].
  constructor; [by eapply heap_in_width|]. eapply IH, Hp.
  pose proof (Nat.Div0.div_le_upper_bound k 2 k). lia.
Qed.

Lemma padded_in_width txs : Forall (in_width 256) txs -> Forall (in_width 256) (padded txs).
Proof.
  intros H. apply Forall_app. split; [done|]. apply Forall_replicate.
  split; vm_compute; congruence.
Qed.

End Binding.

Lemma build_count sha3 txs t : build sha3 txs = Some t -> transaction_count t = length txs.
Proof.
  intros Hb. destruct (decide (txs = [])) as [->|Hne].
  - unfold build in Hb. simpl in Hb. by injection Hb as <-.
  - destruct (build_heap sha3 txs Hne) as (t' & Hb' & _ & Hc & _). by simplify_eq.
Qed.

(** The leaves of a built tree: [generate_proof] on a valid index. *)
Lemma generate_proof_ok sha3 txs t i h bh block_hash :
  build sha3 txs = Some t -> txs !! i = Some h ->
  exists path, generate_proof t i bh block_hash
    = Ok {| mp_leaf_hash := h; mp_tx_index := i; mp_block_height := bh;
            mp_block_hash := block_hash; mp_root := root t; mp_path := path |}
    /\ proof_path (nodes t) (padded_leaf_count t - 1 + i) = Ok path
    /\ foldl (verify_step sha3) h path = root t
    /\ length path = padded_depth (length txs).
Proof.
  intros Hb Hi. assert (Hne : txs <> []) by by intros ->.
  pose proof (lookup_lt_Some _ _ _ Hi) as Hlt.
  destruct (build_heap sha3 txs Hne) as (t' & Hb' & Hh & Hc & Hp & Hr). simplify_eq.
  pose proof (length_padded txs Hne) as Hlp. pose proof (padded_depth_ge (length txs)) as Hge.
  assert (Hleaf : nodes t !! (padded_leaf_count t - 1 + i)%nat = Some h).
  { rewrite Hp, <- Hlp. rewrite (heap_leaf _ _ _ Hh) by lia.
    unfold padded. by rewrite lookup_app_l. }
  destruct (proof_path_verifies sha3 (padded txs) (nodes t) _ _ _ Hh Hleaf Hr)
    as (path & Hpath & Hv & Hlen).
  exists path. split_and!; try done.
  - unfold generate_proof. rewrite Hc, (proj2 (Nat.leb_gt _ _)) by lia.
    rewrite (proj2 (Nat.eqb_neq _ 0)) by lia. by rewrite Hleaf, Hpath.
  - rewrite Hlen, Hp. apply Nat.log2_unique; [lia|]. rewrite Nat.pow_succ_r'. lia.
Qed.

(** ** Small inputs for the witnesses *)

(** A 256-bit polynomial digest. *)
Definition toy_hash (l : list u8) : Hash :=
  foldl (fun acc b => (acc * 257 + b + 1) mod 2 ^ 256) 5 l.

Lemma toy_hash_in_width l : in_width 256 (toy_hash l).
Proof.
  unfold toy_hash. apply (foldl_inv _ (in_width 256)); [|split; vm_compute; congruence].
  intros s x _. unfold in_width. apply Z.mod_pos_bound. done.
Qed.

Definition three_txs : list Hash := [11; 22; 33].

Definition three_tree : MerkleTree :=
  default {| nodes := []; transaction_count := 0; padded_leaf_count := 0; root := 0 |}
    (build toy_hash three_txs).

Lemma three_txs_in_width : Forall (in_width 256) three_txs.
Proof. repeat constructor; vm_compute; congruence. Qed.

Lemma three_tree_built : build toy_hash three_txs = Some three_tree.
Proof. by vm_compute. Qed.

(** ** The theorems *)

(** C22 (refinement): [build] never panics, and its root is the reference root.
    For every non-empty list of transaction hashes it returns a tree with
    [2^d] padded leaves, [d >= 1] the least exponent with room for the
    transactions, whose root is the recursive pairwise hash of the padded
    leaves. *)
Theorem build_root_correct (sha3 : list u8 -> Hash) (txs : list Hash) (Hne : txs <> []) :
  exists t d, build sha3 txs = Some t
    /\ (1 <= d)%nat /\ (length txs <= 2 ^ d)%nat
    /\ ((2 <= length txs)%nat -> (2 ^ (d - 1) < length txs)%nat)
    /\ transaction_count t = length txs /\ padded_leaf_count t = (2 ^ d)%nat
    /\ length (nodes t) = (2 * 2 ^ d - 1)%nat
    /\ root t = merkle_root_spec sha3 d
                  (txs ++ replicate (2 ^ d - length txs) SENTINEL_HASH).
Proof.
  destruct (build_heap sha3 txs Hne) as (t & Hb & Hh & Hc & Hp & Hr).
  pose proof (length_padded txs Hne) as Hlp.
  assert (Hn : length txs <> 0%nat) by by destruct txs.
  exists t, (padded_depth (length txs)). split_and!; try done.
  - unfold padded_depth. destruct (Nat.eqb_spec (length txs) 1); [done|].
    apply Nat.log2_up_pos. lia.
  - by apply padded_depth_ge.
  - intros H2. unfold padded_depth. rewrite (proj2 (Nat.eqb_neq _ 1)) by lia.
    rewrite Nat.sub_1_r. apply Nat.log2_up_spec. lia.
  - by rewrite (heap_length _ _ _ Hh), Hlp.
  - pose proof (heap_block_root sha3 (padded_depth (length txs)) (padded_depth (length txs))
      (padded txs) (nodes t) 0 ltac:(lia) Hlp Hh) as Hroot.
    rewrite Nat.sub_diag in Hroot. specialize (Hroot ltac:(simpl; lia)). simpl in Hroot.
    rewrite Hr in Hroot. injection Hroot as ->. f_equal.
    rewrite drop_0, take_ge by lia. done.
Qed.

Lemma build_root_correct_witness :
  exists t d, build toy_hash three_txs = Some t /\ (1 <= d)%nat.
Proof.
  destruct (build_root_correct toy_hash three_txs) as (t & d & H & Hd & _); [discriminate|].
  exists t, d. split; [exact H | exact Hd].
Defined.

(** The parallel construction is an optimisation only:
    [build_parallel] returns exactly the tree [build] returns, nodes included,
    on every input (and neither panics on a non-empty one). *)
Theorem build_parallel_equiv (sha3 : list u8 -> Hash) (txs : list Hash) :
  build_parallel sha3 txs = build sha3 txs.
Proof.
  destruct (decide (length txs < PARALLEL_THRESHOLD)%nat) as [Hlt|Hge].
  { unfold build_parallel. by rewrite (proj2 (Nat.ltb_lt _ _)). }
  destruct (build_parallel_heap sha3 txs) as (t & -> & Hh & Hc & Hp & Hr); [lia|].
  assert (Hne : txs <> []) by (intros ->; apply Hge; simpl; unfold PARALLEL_THRESHOLD; lia).
  destruct (build_heap sha3 txs Hne) as (t' & -> & Hh' & Hc' & Hp' & Hr').
  pose proof (heap_unique _ _ _ _ Hh Hh') as Hn. f_equal.
  destruct t, t'; simpl in *. subst. f_equal. congruence.
Qed.

(** Every transaction of a block has a proof that verifies.
    For every index below the transaction count, [generate_proof] succeeds with
    the transaction's own hash as leaf, the tree's root, and a path of one node
    per tree level, and both verification routines accept it; for every other
    index it returns [InvalidIndex]. *)
Theorem generate_proof_complete (sha3 : list u8 -> Hash) (txs : list Hash) (t : MerkleTree)
  (i : nat) (block_height : u64) (block_hash : Hash) (Hb : build sha3 txs = Some t) :
  match txs !! i with
  | Some h => exists proof, generate_proof t i block_height block_hash = Ok proof
      /\ mp_leaf_hash proof = h /\ mp_root proof = root t
      /\ length (mp_path proof) = Nat.log2_up (padded_leaf_count t)
      /\ verify_proof sha3 t proof = true
      /\ verify_proof_static sha3 h (mp_path proof) (mp_root proof) = true
  | None => generate_proof t i block_height block_hash = Err (InvalidIndex i (length txs))
  end.
Proof.
  destruct (txs !! i) as [h|] eqn:Hi.
  - assert (Hne : txs <> []) by by intros ->.
    destruct (generate_proof_ok sha3 txs t i h block_height block_hash Hb Hi)
      as (path & Hg & _ & Hv & Hlen).
    destruct (build_heap sha3 txs Hne) as (t' & Hb' & _ & _ & Hp & _). simplify_eq.
    eexists. split; [exact Hg|]. simpl. split_and!; try done.
    + rewrite Hlen, Hp, Nat.log2_up_pow2; lia.
    + unfold verify_proof, verify_proof_static. simpl. rewrite Hv. apply Z.eqb_refl.
    + unfold verify_proof_static. rewrite Hv. apply Z.eqb_refl.
  - apply lookup_ge_None in Hi. unfold generate_proof.
    by rewrite (build_count _ _ _ Hb), (proj2 (Nat.leb_le _ _)).
Qed.

Lemma generate_proof_complete_witness :
  exists proof, generate_proof three_tree 2 9 8 = Ok proof
    /\ verify_proof toy_hash three_tree proof = true.
Proof.
  destruct (generate_proof_complete toy_hash three_txs three_tree 2 9 8 three_tree_built)
    as (proof & H1 & _ & _ & _ & H2 & _).
  exists proof. split; [exact H1 | exact H2].
Defined.

(** Inclusion proofs are binding.  Take a tree over 256-bit
    transaction hashes and an index [i].  Any leaf and path that verify against
    the root and descend the same way as the honest proof of index [i] carry the
    transaction at index [i] and the honest path, or checking the two paths
    hashes, at some level, two different byte strings with the same SHA3
    digest. *)
Theorem inclusion_proof_binding (sha3 : list u8 -> Hash) (txs : list Hash) (t : MerkleTree)
  (i : nat) (block_height : u64) (block_hash leaf : Hash) (path : list ProofNode)
  (honest : MerkleProof)
  (Hsha : forall x, in_width 256 (sha3 x)) (Htxs : Forall (in_width 256) txs)
  (Hb : build sha3 txs = Some t)
  (Hg : generate_proof t i block_height block_hash = Ok honest)
  (Hv : verify_proof_static sha3 leaf path (root t) = true)
  (Hpos : pn_position <$> path = pn_position <$> mp_path honest)
  (Hleaf : in_width 256 leaf) (Hpath : Forall (fun n => in_width 256 (pn_hash n)) path) :
  (txs !! i = Some leaf /\ path = mp_path honest)
  \/ check_collision sha3 (verify_preimages sha3 leaf path)
       (verify_preimages sha3 (mp_leaf_hash honest) (mp_path honest)).
Proof.
  assert (Hi : (i < length txs)%nat).
  { destruct (decide (i < length txs)%nat) as [?|Hge]; [done|].
    unfold generate_proof in Hg.
    by rewrite (build_count _ _ _ Hb), (proj2 (Nat.leb_le _ _)) in Hg by lia. }
  destruct (lookup_lt_is_Some_2 _ _ Hi) as [h Hh].
  destruct (generate_proof_ok sha3 txs t i h block_height block_hash Hb Hh)
    as (p & Hg' & Hpp & Hroot & _).
  rewrite Hg' in Hg. injection Hg as <-. simpl in *.
  unfold verify_proof_static in Hv. apply Z.eqb_eq in Hv.
  assert (Hne : txs <> []) by by intros ->.
  destruct (build_heap sha3 txs Hne) as (t' & Hb' & Hheap & _). simplify_eq.
  destruct (path_binding sha3 Hsha path p leaf h) as [[-> ->]|C]; try done.
  - by eapply Forall_lookup_1 in Htxs.
  - eapply proof_path_in_width; eauto using padded_in_width.
  - congruence.
  - by left.
  - by right.
Qed.

(** The honest proof of transaction 1 against itself. *)
Lemma inclusion_proof_binding_witness :
  exists honest, generate_proof three_tree 1 0 0 = Ok honest /\
  ((three_txs !! 1%nat = Some 22 /\ mp_path honest = mp_path honest)
   \/ check_collision toy_hash (verify_preimages toy_hash 22 (mp_path honest))
       (verify_preimages toy_hash (mp_leaf_hash honest) (mp_path honest))).
Proof.
  destruct (generate_proof_ok toy_hash three_txs three_tree 1 22 0 0 three_tree_built eq_refl)
    as (path & Hg & Hp & Hr & _).
  eexists. split; [exact Hg|].
  apply (inclusion_proof_binding toy_hash three_txs three_tree 1 0 0).
  - exact toy_hash_in_width.
  - exact three_txs_in_width.
  - exact three_tree_built.
  - exact Hg.
  - unfold verify_proof_static. apply Z.eqb_eq. exact Hr.
  - reflexivity.
  - split; vm_compute; congruence.
  - destruct (build_heap toy_hash three_txs) as (t & Hb & Hh & _); [discriminate|].
    rewrite three_tree_built in Hb. injection Hb as <-.
    eapply (proof_path_in_width toy_hash toy_hash_in_width); [exact Hh| |exact Hp].
    apply padded_in_width, three_txs_in_width.
Defined.

(** The proof check does not separate leaves from inner nodes.
    Leaves enter the tree unhashed ([hash_leaf] is never applied), so for every
    node of the tree, the root and the other inner nodes included, there is a
    path that [verify_proof_static] accepts with that node in place of a
    transaction. *)
Theorem inner_node_accepted_as_leaf (sha3 : list u8 -> Hash) (txs : list Hash)
  (t : MerkleTree) (idx : nat) (node : Hash)
  (Hne : txs <> []) (Hb : build sha3 txs = Some t) (Hn : nodes t !! idx = Some node) :
  exists path, verify_proof_static sha3 node path (root t) = true
    /\ length path = Nat.log2 (idx + 1).
Proof.
  destruct (build_heap sha3 txs Hne) as (t' & Hb' & Hh & _ & _ & Hr). simplify_eq.
  destruct (proof_path_verifies sha3 _ _ _ _ _ Hh Hn Hr) as (path & _ & Hv & Hl).
  exists path. split; [|done]. unfold verify_proof_static. rewrite Hv. apply Z.eqb_refl.
Qed.

(** The parent of the first two transactions verifies with a path of length 1. *)
Lemma inner_node_accepted_as_leaf_witness :
  exists path, verify_proof_static toy_hash (hash_pair toy_hash 11 22) path (root three_tree) = true
    /\ length path = 1%nat.
Proof.
  apply (inner_node_accepted_as_leaf toy_hash three_txs three_tree 1).
  - discriminate.
  - exact three_tree_built.
  - by vm_compute.
Defined.

(** A multi-proof proves nothing about its leaves.  If a
    multi-proof is accepted, then so is the same proof with its leaf hashes
    replaced by any others (as many of them): [verify] only compares lengths
    and tests the root against zero. *)
Theorem multi_proof_leaves_unchecked (m : MultiProof) (forged : list Hash)
  (siblings : list (nat * nat * Hash))
  (Hv : multi_verify m = true) (Hlen : length forged = length (mu_leaf_hashes m)) :
  multi_verify {| mu_leaf_indices := mu_leaf_indices m; mu_leaf_hashes := forged;
    mu_siblings := siblings; mu_root := mu_root m;
    mu_block_height := mu_block_height m; mu_block_hash := mu_block_hash m |} = true.
Proof.
  unfold multi_verify in *. simpl. rewrite Hlen.
  destruct (mu_leaf_hashes m) as [|x l], forged as [|y k]; done.
Qed.

(** A generated multi-proof for transactions 0 and 2, then forged. *)
Lemma multi_proof_leaves_unchecked_witness :
  exists m, generate_multi_proof three_tree [2; 0]%nat 9 8 = Ok m /\
  multi_verify {| mu_leaf_indices := mu_leaf_indices m; mu_leaf_hashes := [666; 667];
    mu_siblings := []; mu_root := mu_root m;
    mu_block_height := mu_block_height m; mu_block_hash := mu_block_hash m |} = true.
Proof.
  eexists. split; [vm_compute; reflexivity|].
  apply (multi_proof_leaves_unchecked
    {| mu_leaf_indices := [0; 2]%nat; mu_leaf_hashes := [11; 33];
       mu_siblings := [(0%nat, 0%nat, 11); (0%nat, 2%nat, 33)]; mu_root := root three_tree;
       mu_block_height := 9; mu_block_hash := 8 |} [666; 667] []); by vm_compute.
Defined.

(** The canonical root does not depend on arrival order.  Two
    lists with the same transactions, in any order, are sorted by
    [sort_canonically] to the same list, so they have the same tree. *)
Theorem canonical_root_order_independent (sha3 : list u8 -> Hash) (txs txs' : list Hash)
  (Hp : txs ≡ₚ txs') :
  sort_canonically txs ≡ₚ txs
  /\ build sha3 (sort_canonically txs) = build sha3 (sort_canonically txs').
Proof.
  split; [apply sort_hashes_perm|]. f_equal. unfold sort_canonically.
  apply (StronglySorted_unique Z.le); try apply sort_hashes_sorted.
  by rewrite !sort_hashes_perm.
Qed.

Lemma canonical_root_order_independent_witness :
  build toy_hash (sort_canonically [33; 11; 22]) = build toy_hash (sort_canonically three_txs).
Proof.
  apply (canonical_root_order_independent toy_hash [33; 11; 22] three_txs).
  apply (bool_decide_unpack _). by vm_compute.
Defined.
