(* ===== verification/Ordering.v ===== *)
(** * Transaction ordering: dependency graphs and Kahn's algorithm

    Models [crates/qc-12-transaction-ordering/src/]: the access patterns and
    the dependency graph ([domain/value_objects.rs], [domain/entities.rs]),
    conflict detection and graph construction ([algorithms/]), Kahn's
    topological sort into parallel groups ([algorithms/kahns.rs]), the domain
    invariants ([domain/invariants.rs]) and the ordering service
    ([application/service.rs]).

    Lengths and degrees are [nat]: they count elements of vectors, so they are
    far below the range of [usize].  A [HashMap] or [HashSet] iterates in an
    unspecified order; the model uses the enumeration of the finite map or set,
    and no theorem depends on it. *)

From S2P Require Import Prelude.
Local Open Scope nat_scope.

(** ** [value_objects.rs] *)

Inductive DependencyKind := ReadAfterWrite | WriteAfterWrite | NonceOrder.

Record StorageLocation := { sl_address : Address; sl_key : Z }.

#[export] Instance storage_location_eq_dec : EqDecision StorageLocation.
Proof. solve_decision. Defined.

#[export] Program Instance storage_location_countable : Countable StorageLocation :=
  inj_countable' (fun l => (sl_address l, sl_key l))
                 (fun '(a, k) => Build_StorageLocation a k) _.
Next Obligation. by intros []. Qed.

Record AccessPattern := {
  ap_reads : gset StorageLocation;
  ap_writes : gset StorageLocation;
  ap_balance_reads : gset Address;
  ap_balance_writes : gset Address
}.

Record Conflict := {
  cf_tx1 : Hash;
  cf_tx2 : Hash;
  cf_kind : DependencyKind;
  cf_location : option StorageLocation
}.

(** [for loc in a { if b.contains(loc) { return Some(loc) } }]. *)
Definition first_common (a b : gset StorageLocation) : option StorageLocation :=
  head (base.filter (fun loc => loc ∈ b) (elements a)).

(** [AccessPattern::conflicts_with]. *)
Definition conflicts_with (self other : AccessPattern) : option DependencyKind :=
  if first_common (ap_writes self) (ap_writes other) then Some WriteAfterWrite
  else if first_common (ap_reads self) (ap_writes other) then Some ReadAfterWrite
  else if first_common (ap_writes self) (ap_reads other) then Some ReadAfterWrite
  else None.

(** ** [entities.rs] *)

Record AnnotatedTransaction := {
  at_hash : Hash;
  at_sender : Address;
  at_nonce : u64;
  at_access_pattern : AccessPattern;
  at_estimated_gas : u64;
  at_timestamp : u64
}.

Record Dependency := {
  dep_from : Hash;
  dep_to : Hash;
  dep_kind : DependencyKind;
  dep_location : option StorageLocation
}.

Record DependencyGraph := {
  transactions : gmap Hash AnnotatedTransaction;
  edges : list Dependency;
  adjacency : gmap Hash (list Hash);
  in_degree : gmap Hash nat
}.

Definition graph_new : DependencyGraph :=
  {| transactions := ∅; edges := []; adjacency := ∅; in_degree := ∅ |}.

(** [map.entry(k).or_insert(v)]. *)
Definition or_insert {V} (k : Hash) (v : V) (m : gmap Hash V) : gmap Hash V :=
  match m !! k with Some _ => m | None => <[k := v]> m end.

Definition add_node (g : DependencyGraph) (tx : AnnotatedTransaction) : DependencyGraph := {|
  transactions := <[at_hash tx := tx]> (transactions g);
  edges := edges g;
  adjacency := or_insert (at_hash tx) [] (adjacency g);
  in_degree := or_insert (at_hash tx) 0 (in_degree g)
|}.

Definition add_edge (g : DependencyGraph) (dep : Dependency) : DependencyGraph := {|
  transactions := transactions g;
  edges := edges g ++ [dep];
  adjacency :=
    <[dep_from dep := default [] (adjacency g !! dep_from dep) ++ [dep_to dep]]> (adjacency g);
  in_degree := <[dep_to dep := default 0 (in_degree g !! dep_to dep) + 1]> (in_degree g)
|}.

Definition has_edge (g : DependencyGraph) (from to : Hash) : bool :=
  match adjacency g !! from with
  | Some neighbors => bool_decide (to ∈ neighbors)
  | None => false
  end.

(** The keys whose degree is zero, in map order. *)
Definition zero_degree_nodes (in_degree : gmap Hash nat) : list Hash :=
  fst <$> base.filter (fun kv => kv.2 = 0) (map_to_list in_degree).

Definition get_zero_degree_nodes (g : DependencyGraph) : list Hash :=
  zero_degree_nodes (in_degree g).

Definition node_count (g : DependencyGraph) : nat := size (transactions g).
Definition edge_count (g : DependencyGraph) : nat := length (edges g).

Record ParallelGroup := { pg_group_id : nat; pg_transactions : list Hash }.

Record ExecutionSchedule := {
  parallel_groups : list ParallelGroup;
  total_transactions : nat;
  max_parallelism : nat
}.

Definition schedule_new (groups : list ParallelGroup) : ExecutionSchedule := {|
  parallel_groups := groups;
  total_transactions := sum_list (length ∘ pg_transactions <$> groups);
  max_parallelism := max_list (length ∘ pg_transactions <$> groups)
|}.

Definition sequential (txs : list Hash) : ExecutionSchedule :=
  schedule_new (imap (fun i h => {| pg_group_id := i; pg_transactions := [h] |}) txs).

Definition flatten (s : ExecutionSchedule) : list Hash :=
  concat (pg_transactions <$> parallel_groups s).

Inductive OrderingError :=
| CycleDetected
| BatchTooLarge (size max : nat)
| TooManyEdges (count max : nat)
| AnalysisFailed (what : list Z)
| ConflictDetectionFailed (what : list Z)
| TooManyConflicts (percent : u8)
| UnauthorizedSender (sender_id : u8)
| StaleMessage
| ReplayDetected
| EmptyBatch
| Internal (what : list Z).

(** ** [conflict_detector.rs] *)

(** The pairs [(tx_i, tx_j)] with [i < j], in the order of the nested loops. *)
Fixpoint tx_pairs (l : list AnnotatedTransaction)
  : list (AnnotatedTransaction * AnnotatedTransaction) :=
  match l with
  | [] => []
  | x :: l => ((fun y => (x, y)) <$> l) ++ tx_pairs l
  end.

(** The kind and location both detection functions report: write/write, then
    written-then-read, then read-then-written. *)
Definition data_conflict (p1 p2 : AccessPattern) : option (DependencyKind * StorageLocation) :=
  match first_common (ap_writes p1) (ap_writes p2) with
  | Some loc => Some (WriteAfterWrite, loc)
  | None =>
      match first_common (ap_writes p1) (ap_reads p2) with
      | Some loc => Some (ReadAfterWrite, loc)
      | None =>
          match first_common (ap_reads p1) (ap_writes p2) with
          | Some loc => Some (ReadAfterWrite, loc)
          | None => None
          end
      end
  end.

Definition detect_data_conflict (tx1 tx2 : AnnotatedTransaction) : option Conflict :=
  '(kind, loc) ← data_conflict (at_access_pattern tx1) (at_access_pattern tx2);
  Some {| cf_tx1 := at_hash tx1; cf_tx2 := at_hash tx2; cf_kind := kind;
          cf_location := Some loc |}.

Definition detect_conflicts (txs : list AnnotatedTransaction) : list Conflict :=
  omap (fun '(tx1, tx2) =>
    if (at_sender tx1 =? at_sender tx2)%Z then
      Some {| cf_tx1 := at_hash tx1; cf_tx2 := at_hash tx2; cf_kind := NonceOrder;
              cf_location := None |}
    else detect_data_conflict tx1 tx2) (tx_pairs txs).

Definition conflict_percentage (conflicts : list Conflict) (tx_count : nat) : nat :=
  if tx_count <=? 1 then 0
  else
    let max_pairs := tx_count * (tx_count - 1) / 2 in
    if max_pairs =? 0 then 0
    else Nat.min (length conflicts * 100 / max_pairs) 100.

(** ** [dependency_builder.rs] *)

Definition detect_data_dependency (tx1 tx2 : AnnotatedTransaction) : option Dependency :=
  '(kind, loc) ← data_conflict (at_access_pattern tx1) (at_access_pattern tx2);
  Some {| dep_from := at_hash tx1; dep_to := at_hash tx2; dep_kind := kind;
          dep_location := Some loc |}.

(** [by_sender.entry(tx.sender).or_default().push(tx)] for every transaction. *)
Definition group_by_sender (txs : list AnnotatedTransaction)
  : gmap Address (list AnnotatedTransaction) :=
  foldl (fun m tx => <[at_sender tx := default [] (m !! at_sender tx) ++ [tx]]> m) ∅ txs.

Definition nonce_le (a b : AnnotatedTransaction) : Prop := (at_nonce a <= at_nonce b)%Z.

#[export] Instance nonce_le_dec a b : Decision (nonce_le a b).
Proof. unfold nonce_le. apply _. Defined.

(** The edges between neighbours ([windows(2)]) of a nonce-sorted list. *)
Definition nonce_edges (sorted : list AnnotatedTransaction) : list Dependency :=
  zip_with (fun tx1 tx2 =>
    {| dep_from := at_hash tx1; dep_to := at_hash tx2; dep_kind := NonceOrder;
       dep_location := None |}) sorted (tail sorted).

Definition data_edges (txs : list AnnotatedTransaction) : list Dependency :=
  omap (fun '(tx1, tx2) =>
    if (at_sender tx1 =? at_sender tx2)%Z then None else detect_data_dependency tx1 tx2)
    (tx_pairs txs).

Definition build_dependency_graph (txs : list AnnotatedTransaction) : DependencyGraph :=
  let graph := foldl add_node graph_new txs in
  let by_sender := group_by_sender txs in
  let graph := foldl (fun g l => foldl add_edge g (nonce_edges (stable_sort nonce_le l)))
                 graph (snd <$> map_to_list by_sender) in
  foldl add_edge graph (data_edges txs).

(** ** [kahns.rs] *)

(** The loop over the neighbours of one node: the degrees and the next queue. *)
Definition relax (s : gmap Hash nat * list Hash) (neighbor : Hash)
  : gmap Hash nat * list Hash :=
  let '(deg, next_queue) := s in
  match deg !! neighbor with
  | None => (deg, next_queue)
  | Some degree =>
      let degree := degree - 1 in
      (<[neighbor := degree]> deg,
       if degree =? 0 then next_queue ++ [neighbor] else next_queue)
  end.

Definition process_neighbors (graph : DependencyGraph) (s : gmap Hash nat * list Hash)
  (node : Hash) : gmap Hash nat * list Hash :=
  match adjacency graph !! node with
  | None => s
  | Some neighbors => foldl relax s neighbors
  end.

(** The [while !queue.is_empty()] loop; [None] is out of fuel. *)
Fixpoint kahn_loop (fuel : nat) (graph : DependencyGraph) (deg : gmap Hash nat)
  (queue : list Hash) (groups : list ParallelGroup) (scheduled_count : nat)
  : option (list ParallelGroup * nat) :=
  match queue with
  | [] => Some (groups, scheduled_count)
  | _ =>
      match fuel with
      | O => None
      | S fuel =>
          let current_group := queue in
          let groups :=
            groups ++ [{| pg_group_id := length groups; pg_transactions := current_group |}] in
          let '(deg, next_queue) :=
            foldl (process_neighbors graph) (deg, []) current_group in
          kahn_loop fuel graph deg (sort_hashes next_queue) groups
            (scheduled_count + length current_group)
      end
  end.

(** The number of iterations is at most the number of nodes. *)
Definition kahns_topological_sort (graph : DependencyGraph)
  : option (result OrderingError ExecutionSchedule) :=
  if bool_decide (transactions graph = ∅) then Some (Ok (schedule_new []))
  else
    let deg := in_degree graph in
    let queue := sort_hashes (zero_degree_nodes deg) in
    '(groups, scheduled_count) ← kahn_loop (size deg) graph deg queue [] 0;
    Some (if scheduled_count <? size (transactions graph) then Err CycleDetected
          else Ok (schedule_new groups)).

(** ** [invariants.rs] *)

(** The loop of [invariant_topological_order]; [executed] is the set so far. *)
Fixpoint topological_from (graph : DependencyGraph) (executed : gset Hash)
  (groups : list ParallelGroup) : bool :=
  match groups with
  | [] => true
  | group :: groups =>
      if existsb (fun tx_hash =>
           existsb (fun e => (dep_to e =? tx_hash)%Z && negb (bool_decide (dep_from e ∈ executed)))
             (edges graph)) (pg_transactions group)
      then false
      else topological_from graph (executed ∪ list_to_set (pg_transactions group)) groups
  end.

Definition invariant_topological_order (schedule : ExecutionSchedule)
  (graph : DependencyGraph) : bool :=
  topological_from graph ∅ (parallel_groups schedule).

(** The depth-first search; the state is [(visited, rec_stack)] and [None] is
    out of fuel. *)
Definition dfs_state : Type := gset Hash * gset Hash.

(** The loop over the neighbours, with the recursive call as a parameter. *)
Fixpoint dfs_neighbors (dfs : Hash -> dfs_state -> option (bool * dfs_state))
  (neighbors : list Hash) (s : dfs_state) : option (bool * dfs_state) :=
  match neighbors with
  | [] => Some (false, s)
  | neighbor :: neighbors =>
      '(found, s) ← dfs neighbor s;
      if (found : bool) then Some (true, s) else dfs_neighbors dfs neighbors s
  end.

Fixpoint has_cycle_dfs (fuel : nat) (graph : DependencyGraph) (node : Hash) (s : dfs_state)
  : option (bool * dfs_state) :=
  match fuel with
  | O => None
  | S fuel =>
      let '(visited, rec_stack) := s in
      if bool_decide (node ∈ rec_stack) then Some (true, s)
      else if bool_decide (node ∈ visited) then Some (false, s)
      else
        let s := ({[node]} ∪ visited, {[node]} ∪ rec_stack) in
        '(found, s) ← dfs_neighbors (has_cycle_dfs fuel graph)
                        (default [] (adjacency graph !! node)) s;
        if (found : bool) then Some (true, s)
        else let '(visited, rec_stack) := s in Some (false, (visited, rec_stack ∖ {[node]}))
  end.

(** The loop over the nodes; a path of distinct nodes is at most as long as
    there are nodes, and one more call finds the repetition. *)
Fixpoint no_cycles_from (graph : DependencyGraph) (nodes : list Hash) (s : dfs_state)
  : option bool :=
  match nodes with
  | [] => Some true
  | hash :: nodes =>
      '(found, s) ← has_cycle_dfs (S (size (transactions graph))) graph hash s;
      if (found : bool) then Some false else no_cycles_from graph nodes s
  end.

Definition invariant_no_cycles (graph : DependencyGraph) : option bool :=
  no_cycles_from graph (fst <$> map_to_list (transactions graph)) (∅, ∅).

(** The nested loops over [i < j]. *)
Fixpoint safe_pairs (graph : DependencyGraph) (l : list Hash) : bool :=
  match l with
  | [] => true
  | tx_i :: l =>
      forallb (fun tx_j => negb (has_edge graph tx_i tx_j || has_edge graph tx_j tx_i)) l
      && safe_pairs graph l
  end.

Definition invariant_parallel_safety (group : ParallelGroup) (graph : DependencyGraph) : bool :=
  safe_pairs graph (pg_transactions group).

Definition invariant_completeness (schedule : ExecutionSchedule) (graph : DependencyGraph)
  : bool :=
  bool_decide (list_to_set (C := gset Hash) (flatten schedule) = dom (transactions graph)).

(** ** [service.rs] *)

Record OrderingConfig := {
  oc_max_batch_size : nat;
  oc_max_edge_count : nat;
  oc_conflict_threshold_percent : nat;
  oc_enable_speculation : bool;
  oc_timestamp_window_secs : u64
}.

Definition default_config : OrderingConfig := {|
  oc_max_batch_size := 1000;
  oc_max_edge_count := 10000;
  oc_conflict_threshold_percent := 50;
  oc_enable_speculation := true;
  oc_timestamp_window_secs := 120
|}.

Definition validate_batch (c : OrderingConfig) (txs : list AnnotatedTransaction)
  : result OrderingError unit :=
  if bool_decide (length txs = 0) then Err EmptyBatch
  else if oc_max_batch_size c <? length txs then
    Err (BatchTooLarge (length txs) (oc_max_batch_size c))
  else Ok tt.

Definition should_fallback (c : OrderingConfig) (conflicts : list Conflict) (tx_count : nat)
  : bool := oc_conflict_threshold_percent c <? conflict_percentage conflicts tx_count.

Definition order_transactions (c : OrderingConfig) (txs : list AnnotatedTransaction)
  : option (result OrderingError ExecutionSchedule) :=
  match validate_batch c txs with
  | Err e => Some (Err e)
  | Panic => Some Panic
  | Ok _ =>
      let conflicts := detect_conflicts txs in
      if should_fallback c conflicts (length txs) then
        Some (Ok (sequential (at_hash <$> txs)))
      else
        let graph := build_dependency_graph txs in
        if oc_max_edge_count c <? edge_count graph then
          Some (Err (TooManyEdges (edge_count graph) (oc_max_edge_count c)))
        else kahns_topological_sort graph
  end.
