(* ===== verification/OrderingFacts.v ===== *)
(** * Facts about the dependency graph and Kahn's algorithm

    A graph built by [add_node] and [add_edge] keeps its adjacency lists and
    its in-degrees in step with its list of edges ([graph_wf]); the loop of
    Kahn's algorithm keeps the degree of every node equal to the number of its
    unscheduled predecessors ([kahn_inv]), which gives the specification of
    the whole sort ([kahns_spec]). *)

From S2P Require Import Prelude Ordering.
Local Open Scope nat_scope.

(** ** Counting *)

Definition count {A} (P : A -> Prop) `{!forall x, Decision (P x)} (l : list A) : nat :=
  length (base.filter P l).

Lemma count_split {A} (P Q R : A -> Prop) `{!forall x, Decision (P x)}
  `{!forall x, Decision (Q x)} `{!forall x, Decision (R x)} (l : list A) :
  (forall x, P x <-> Q x \/ R x) -> (forall x, Q x -> ~ R x) ->
  count P l = count Q l + count R l.
Proof.
  intros HP HQR. unfold count. induction l as [|x l IH]; [done|].
  rewrite !filter_cons. specialize (HP x). specialize (HQR x).
  repeat case_decide; simpl; try tauto; lia.
Qed.

Lemma count_zero {A} (P : A -> Prop) `{!forall x, Decision (P x)} (l : list A) :
  count P l = 0 <-> forall x, x ∈ l -> ~ P x.
Proof.
  unfold count. rewrite length_zero_iff_nil. split.
  - intros E x Hx HP. assert (Hin : x ∈ base.filter P l) by (by apply list_elem_of_filter).
    rewrite E in Hin. by apply elem_of_nil in Hin.
  - intros Hl. apply filter_none, Forall_forall. auto.
Qed.

Lemma count_ext {A} (P Q : A -> Prop) `{!forall x, Decision (P x)}
  `{!forall x, Decision (Q x)} (l : list A) :
  (forall x, P x <-> Q x) -> count P l = count Q l.
Proof.
  intros HPQ. unfold count. induction l as [|x l IH]; [done|].
  rewrite !filter_cons. specialize (HPQ x). repeat case_decide; simpl; tauto || lia.
Qed.

(** The number of occurrences of [h]. *)
Abbreviation occ h := (count (fun n : Hash => n = h)).

(** ** Well-formed graphs *)

(** The neighbours the adjacency map records. *)
Definition neighbors (g : DependencyGraph) (h : Hash) : list Hash :=
  default [] (adjacency g !! h).

Definition edge (g : DependencyGraph) (a b : Hash) : Prop :=
  exists e, e ∈ edges g /\ dep_from e = a /\ dep_to e = b.

Record graph_wf (g : DependencyGraph) : Prop := {
  gw_degree h : in_degree g !! h =
    if decide (h ∈ dom (transactions g))
    then Some (count (fun e => dep_to e = h) (edges g)) else None;
  gw_adjacency h : neighbors g h = dep_to <$> base.filter (fun e => dep_from e = h) (edges g);
  gw_closed e : e ∈ edges g ->
    dep_from e ∈ dom (transactions g) /\ dep_to e ∈ dom (transactions g)
}.

Lemma graph_new_wf : graph_wf graph_new.
Proof. split; intros; [|done|by apply elem_of_nil in H]. by rewrite decide_False by set_solver. Qed.

Lemma lookup_or_insert {V} k (v : V) m h :
  or_insert k v m !! h = if decide (h = k) then Some (default v (m !! k)) else m !! h.
Proof.
  unfold or_insert. case_decide as E; [subst h|].
  - destruct (m !! k) eqn:Ek; simpl; [done|]. apply lookup_insert_eq.
  - destruct (m !! k); [done|]. by apply lookup_insert_ne.
Qed.

Lemma add_node_wf g tx : graph_wf g -> graph_wf (add_node g tx).
Proof.
  intros [HD HA HC]. split; cbn [add_node transactions edges adjacency in_degree].
  - intros h. rewrite lookup_or_insert, dom_insert_L, !HD.
    destruct (decide (h = at_hash tx)) as [->|Hne].
    + rewrite (decide_True (P := _ ∈ {[at_hash tx]} ∪ _)) by set_solver.
      case_decide as E; [done|]. simpl. f_equal. symmetry. apply count_zero.
      intros e He Heq. apply E. rewrite <- Heq. by apply HC.
    + repeat case_decide; set_solver.
  - intros h. unfold neighbors. simpl. rewrite <- HA, lookup_or_insert. unfold neighbors.
    case_decide as E; [subst h|done]. by destruct (adjacency g !! at_hash tx).
  - intros e He. rewrite dom_insert_L. apply HC in He. set_solver.
Qed.

Lemma add_edge_wf g dep : graph_wf g ->
  dep_from dep ∈ dom (transactions g) -> dep_to dep ∈ dom (transactions g) ->
  graph_wf (add_edge g dep).
Proof.
  intros [HD HA HC] Hf Ht. split; cbn [add_edge transactions edges adjacency in_degree].
  - intros h. unfold count. rewrite filter_app, length_app, filter_cons, filter_nil.
    destruct (decide (h = dep_to dep)) as [->|Hne].
    + rewrite lookup_insert_eq, HD, !(decide_True (P := _ ∈ _)) by done. simpl.
      by rewrite decide_True.
    + rewrite lookup_insert_ne, HD by done. unfold count. simpl.
      rewrite (decide_False (P := dep_to dep = h)) by done. simpl. by rewrite Nat.add_0_r.
  - intros h. rewrite filter_app, fmap_app, <- HA, filter_cons, filter_nil. unfold neighbors. simpl.
    destruct (decide (h = dep_from dep)) as [->|Hne].
    + rewrite lookup_insert_eq. simpl. by rewrite decide_True.
    + rewrite lookup_insert_ne by done. rewrite decide_False by done. by rewrite app_nil_r.
  - intros e He. apply elem_of_app in He as [He|He]; [by apply HC|].
    by apply list_elem_of_singleton in He as ->.
Qed.

(** ** One round of the loop *)

Lemma process_neighbors_relax g s h : process_neighbors g s h = foldl relax s (neighbors g h).
Proof. unfold process_neighbors, neighbors. by destruct (adjacency g !! h). Qed.

Lemma round_relax g group s :
  foldl (process_neighbors g) s group = foldl relax s (concat (neighbors g <$> group)).
Proof.
  revert s. induction group as [|h group IH]; intros s; [done|]. simpl.
  by rewrite foldl_app, <- process_neighbors_relax, IH.
Qed.

Lemma occ_cons (h n : Hash) ns :
  occ h (n :: ns) = (if decide (n = h) then 1 else 0) + occ h ns.
Proof. unfold count. rewrite filter_cons. by repeat case_decide. Qed.

(** The nodes whose last pending edge is among those relaxed. *)
Definition freed (deg : gmap Hash nat) (ns : list Hash) (h : Hash) : Prop :=
  exists d, deg !! h = Some d /\ 0 < d /\ occ h ns = d.

Lemma freed_cons_ne deg n ns d h : n <> h ->
  freed deg (n :: ns) h <-> freed (<[n := d]> deg) ns h.
Proof. intros Hne. unfold freed. by rewrite occ_cons, decide_False, lookup_insert_ne. Qed.

Lemma freed_cons_eq deg n ns d : deg !! n = Some d -> occ n ns < d ->
  freed deg (n :: ns) n <-> d = 1 \/ freed (<[n := d - 1]> deg) ns n.
Proof.
  intros Hn Hlt. unfold freed. rewrite occ_cons, decide_True, lookup_insert_eq by done. split.
  - intros (x & Hx & ? & ?). rewrite Hn in Hx. injection Hx as <-.
    destruct (decide (d = 1)); [by left|right]. exists (d - 1). split_and!; [done|lia|lia].
  - intros [->|(x & [= <-] & ? & ?)]; eexists; (split_and!; [done|lia|lia]).
Qed.

Lemma relax_spec ns : forall deg q,
  (forall h d, deg !! h = Some d -> occ h ns <= d) ->
  exists deg' p, foldl relax (deg, q) ns = (deg', q ++ p) /\ NoDup p /\
    (forall h, deg' !! h = (fun d => d - occ h ns) <$> deg !! h) /\
    (forall h, h ∈ p <-> freed deg ns h).
Proof.
  induction ns as [|n ns IH]; intros deg q Hle.
  { exists deg, []. rewrite app_nil_r. split_and!; [done|constructor| |].
    - intros h. change (occ h []) with 0. destruct (deg !! h); simpl; [|done]. f_equal. lia.
    - intros h. split; [by intros ?%elem_of_nil|].
      intros (d & _ & Hd & E). change (occ h []) with 0 in E. lia. }
  simpl. destruct (deg !! n) as [d|] eqn:En.
  - pose proof (Hle n d En) as Hn. rewrite occ_cons, decide_True in Hn by done.
    destruct (IH (<[n := d - 1]> deg) (if d - 1 =? 0 then q ++ [n] else q))
      as (deg' & p & E & Hnd & Hdeg & Hp).
    { intros h x. destruct (decide (n = h)) as [<-|Hne].
      - rewrite lookup_insert_eq. intros [= <-]. lia.
      - rewrite lookup_insert_ne by done. intros Hx. specialize (Hle h x Hx).
        rewrite occ_cons in Hle. lia. }
    exists deg', (if d - 1 =? 0 then n :: p else p). rewrite E. split_and!.
    + destruct (d - 1 =? 0); [by rewrite <- app_assoc|done].
    + destruct (Nat.eqb_spec (d - 1) 0) as [Ed|]; [|done]. constructor; [|done].
      intros (x & Hx & H0 & _)%Hp. rewrite lookup_insert_eq in Hx. simplify_eq. lia.
    + intros h. rewrite Hdeg, occ_cons. destruct (decide (n = h)) as [<-|Hne].
      * rewrite lookup_insert_eq, En. simpl. f_equal. lia.
      * by rewrite lookup_insert_ne.
    + intros h. destruct (decide (n = h)) as [<-|Hne].
      * rewrite (freed_cons_eq _ _ _ d), <- Hp by (done || lia).
        destruct (Nat.eqb_spec (d - 1) 0); rewrite ?elem_of_cons; intuition lia.
      * rewrite (freed_cons_ne _ _ _ (d - 1)), <- Hp by done.
        destruct (d - 1 =? 0); rewrite ?elem_of_cons; naive_solver.
  - destruct (IH deg q) as (deg' & p & E & Hnd & Hdeg & Hp).
    { intros h x Hx. specialize (Hle h x Hx). rewrite occ_cons in Hle. lia. }
    exists deg', p. split_and!; [done|done| |].
    + intros h. rewrite Hdeg, occ_cons. case_decide; [subst h; by rewrite En|done].
    + intros h. rewrite Hp. unfold freed. rewrite occ_cons.
      case_decide; [subst h; rewrite En|done]. naive_solver.
Qed.

Lemma occ_targets h a es :
  occ h (dep_to <$> base.filter (fun e => dep_from e = a) es) =
  count (fun e => dep_to e = h /\ dep_from e = a) es.
Proof.
  unfold count. induction es as [|e es IH]; [done|]. rewrite !filter_cons.
  destruct (decide (dep_from e = a)) as [Ha|Ha].
  - rewrite fmap_cons, filter_cons. repeat case_decide; simpl; rewrite ?IH; tauto || done.
  - rewrite (decide_False (P := _ /\ _)) by tauto. done.
Qed.

(** ** The loop *)

Section kahn.
Context (g : DependencyGraph) (WF : graph_wf g).

(** The edges into [h] from nodes that are not scheduled yet. *)
Definition remaining (past : list Hash) (h : Hash) : nat :=
  count (fun e => dep_to e = h /\ dep_from e ∉ past) (edges g).

Record kahn_inv (past queue : list Hash) (deg : gmap Hash nat) : Prop := {
  ki_degree h : deg !! h =
    if decide (h ∈ dom (transactions g)) then Some (remaining past h) else None;
  ki_nodup : NoDup (past ++ queue);
  ki_nodes h : h ∈ past ++ queue <-> h ∈ dom (transactions g) /\ remaining past h = 0
}.

Lemma remaining_zero past h :
  remaining past h = 0 <-> forall a, edge g a h -> a ∈ past.
Proof.
  unfold remaining. rewrite count_zero. split.
  - intros H a (e & He & <- & Ht). destruct (decide (dep_from e ∈ past)); [done|].
    exfalso. by apply (H e He).
  - intros H e He [Ht Hn]. apply Hn, H. by exists e.
Qed.

Lemma occ_round queue h : NoDup queue ->
  occ h (concat (neighbors g <$> queue)) =
  count (fun e => dep_to e = h /\ dep_from e ∈ queue) (edges g).
Proof.
  induction 1 as [|a queue Ha Hnd IH].
  { symmetry. apply count_zero. intros e _ [_ He]. by apply elem_of_nil in He. }
  rewrite (count_split _ (fun e => dep_to e = h /\ dep_from e = a)
             (fun e => dep_to e = h /\ dep_from e ∈ queue)).
  2: intros e; rewrite elem_of_cons; tauto.
  2: intros e [_ ->] [_ ?]; done.
  rewrite <- IH. simpl. unfold count at 1. rewrite filter_app, length_app. f_equal.
  rewrite gw_adjacency by done. apply occ_targets.
Qed.

Lemma remaining_round past queue h : NoDup (past ++ queue) ->
  remaining past h = remaining (past ++ queue) h + occ h (concat (neighbors g <$> queue)).
Proof.
  intros (_ & Hdisj & Hq)%NoDup_app. rewrite occ_round by done. apply count_split.
  - intros e. rewrite elem_of_app. specialize (Hdisj (dep_from e)).
    destruct (decide (dep_from e ∈ queue)); tauto.
  - intros e. rewrite elem_of_app. tauto.
Qed.

(** One iteration of the loop moves the queue to the scheduled nodes. *)
Lemma kahn_step past queue deg : kahn_inv past queue deg ->
  exists deg' next, foldl (process_neighbors g) (deg, []) queue = (deg', next) /\
    kahn_inv (past ++ queue) (sort_hashes next) deg'.
Proof.
  intros [HD HN HQ]. rewrite round_relax.
  destruct (relax_spec (concat (neighbors g <$> queue)) deg []) as (deg' & p & E & Hp & HD' & HF).
  { intros h d. rewrite HD. case_decide; [|done]. intros [= <-].
    rewrite (remaining_round past queue h) by done. lia. }
  assert (HF' : forall h, h ∈ p <-> h ∈ dom (transactions g) /\ remaining past h <> 0 /\
                  remaining (past ++ queue) h = 0).
  { intros h. rewrite HF. unfold freed. rewrite HD.
    pose proof (remaining_round past queue h HN). case_decide; [|naive_solver].
    split; [intros (d & [= <-] & ? & ?); split_and!; [done|lia|lia]|].
    intros (_ & ? & ?). eexists. split_and!; [done|lia|lia]. }
  exists deg', p. split; [done|]. split.
  - intros h. rewrite HD', HD. case_decide; [|done]. simpl. f_equal.
    rewrite (remaining_round past queue h) by done. lia.
  - rewrite sort_hashes_perm. apply NoDup_app. split_and!; [done| |done].
    intros h Hh%HQ Hhp%HF'. tauto.
  - intros h. rewrite sort_hashes_perm, elem_of_app, HQ, HF'.
    pose proof (remaining_round past queue h HN).
    destruct (decide (remaining past h = 0)); intuition lia.
Qed.

(** Every node of every group has all its predecessors before its group. *)
Fixpoint layered (past : list Hash) (groups : list ParallelGroup) : Prop :=
  match groups with
  | [] => True
  | grp :: groups =>
      (forall a h, h ∈ pg_transactions grp -> edge g a h -> a ∈ past) /\
      layered (past ++ pg_transactions grp) groups
  end.

Abbreviation nodes groups := (concat (pg_transactions <$> groups)).

Lemma kahn_inv_bound past queue deg : kahn_inv past queue deg ->
  length (past ++ queue) <= size (transactions g).
Proof.
  intros [_ HN HQ]. rewrite <- size_dom.
  rewrite <- (size_list_to_set (C := gset Hash)) by done. apply subseteq_size.
  intros h. rewrite elem_of_list_to_set. intros [? _]%HQ. done.
Qed.

(** The loop terminates within the fuel and schedules a predecessor-closed set
    of nodes, layer by layer; what it leaves out has a predecessor it left out. *)
Lemma kahn_loop_spec fuel : forall past queue deg groups cnt,
  kahn_inv past queue deg -> size (transactions g) <= length past + fuel ->
  exists new, kahn_loop fuel g deg queue groups cnt =
      Some (groups ++ new, cnt + length (nodes new)) /\
    NoDup (past ++ nodes new) /\ layered past new /\
    (forall h, h ∈ past ++ nodes new <->
       h ∈ dom (transactions g) /\ remaining (past ++ nodes new) h = 0).
Proof.
  induction fuel as [|fuel IH]; intros past queue deg groups cnt HI Hfuel;
    pose proof (kahn_inv_bound _ _ _ HI) as Hb; rewrite length_app in Hb;
    (destruct queue as [|h queue];
     [ exists []; simpl; destruct HI as [_ HN HQ]; rewrite !app_nil_r in *;
       split_and!; [f_equal; f_equal; lia|done|done|done] | ]).
  - simpl in Hb. lia.
  - destruct (kahn_step _ _ _ HI) as (deg' & next & E & HI').
    cbn [kahn_loop]. rewrite E.
    edestruct IH as (new & E' & HN & HL & HQ); [exact HI'| |].
    { rewrite length_app. simpl in *. lia. }
    rewrite E'. eexists ({| pg_group_id := _; pg_transactions := h :: queue |} :: new).
    cbn [fmap list_fmap concat pg_transactions]. rewrite <- app_assoc in HN, HQ. split_and!.
    + f_equal. f_equal; [by rewrite <- app_assoc|]. rewrite length_app. lia.
    + done.
    + split; [|done]. intros a x Hx. apply remaining_zero. apply (ki_nodes _ _ _ HI x).
      apply elem_of_app. by right.
    + done.
Qed.

End kahn.

Abbreviation nodes groups := (concat (pg_transactions <$> groups)).

Lemma elem_of_zero_degree_nodes deg h : h ∈ zero_degree_nodes deg <-> deg !! h = Some 0.
Proof.
  unfold zero_degree_nodes. rewrite list_elem_of_fmap. split.
  - intros ([k d] & -> & (Hd & Hin)%list_elem_of_filter). simpl in *. subst d.
    by apply elem_of_map_to_list.
  - intros H. exists (h, 0). split; [done|]. apply list_elem_of_filter. split; [done|].
    by apply elem_of_map_to_list.
Qed.

Lemma NoDup_zero_degree_nodes deg : NoDup (zero_degree_nodes deg).
Proof.
  unfold zero_degree_nodes. eapply sublist_NoDup; [apply (NoDup_fst_map_to_list deg)|].
  apply fmap_sublist, sublist_filter.
Qed.

Lemma kahn_inv_init g : graph_wf g ->
  kahn_inv g [] (sort_hashes (zero_degree_nodes (in_degree g))) (in_degree g).
Proof.
  intros WF. assert (HR : forall h, count (fun e => dep_to e = h) (edges g) = remaining g [] h).
  { intros h. apply count_ext. intros e. split; [|tauto]. intros ?. split; [done|].
    apply not_elem_of_nil. }
  split.
  - intros h. by rewrite gw_degree, HR.
  - simpl. rewrite sort_hashes_perm. apply NoDup_zero_degree_nodes.
  - intros h. simpl. rewrite sort_hashes_perm, elem_of_zero_degree_nodes, gw_degree, HR by done.
    case_decide; naive_solver.
Qed.

Lemma in_degree_size g : graph_wf g -> size (in_degree g) = size (transactions g).
Proof.
  intros WF. rewrite <- !size_dom. f_equal. apply set_eq. intros h.
  rewrite elem_of_dom, gw_degree by done. case_decide; unfold is_Some; naive_solver.
Qed.

(** What the sort computes, with no fuel left in the statement. *)
Lemma kahns_spec g : graph_wf g -> exists groups,
  kahns_topological_sort g =
    Some (if length (nodes groups) <? size (transactions g) then Err CycleDetected
          else Ok (schedule_new groups)) /\
  NoDup (nodes groups) /\ layered g [] groups /\
  (forall h, h ∈ nodes groups <-> h ∈ dom (transactions g) /\ remaining g (nodes groups) h = 0).
Proof.
  intros WF. unfold kahns_topological_sort. case_bool_decide as E.
  - exists []. rewrite E. split_and!; [done|constructor|done|].
    intros h. rewrite dom_empty_L. set_solver.
  - rewrite in_degree_size by done.
    destruct (kahn_loop_spec g WF (size (transactions g)) _ _ _ [] 0 (kahn_inv_init g WF))
      as (groups & Eq & H); [done|].
    exists groups. rewrite Eq. done.
Qed.

Lemma nodes_size_le g groups : NoDup (nodes groups) ->
  (forall h, h ∈ nodes groups -> h ∈ dom (transactions g)) ->
  length (nodes groups) <= size (transactions g) /\
  (length (nodes groups) = size (transactions g) ->
   list_to_set (C := gset Hash) (nodes groups) = dom (transactions g)).
Proof.
  intros HN Hin. rewrite <- size_dom, <- (size_list_to_set (C := gset Hash)) by done.
  assert (Hsub : list_to_set (C := gset Hash) (nodes groups) ⊆ dom (transactions g)).
  { intros h. rewrite elem_of_list_to_set. auto. }
  split; [by apply subseteq_size|]. intros Heq. apply set_eq. intros h.
  split; [apply Hsub|]. intros Hh. destruct (decide (h ∈ list_to_set (C := gset Hash) (nodes groups)))
    as [|Hn]; [done|]. exfalso.
  assert (list_to_set (C := gset Hash) (nodes groups) ⊂ dom (transactions g)) as Hlt%subset_size.
  { split; [done|]. intros Hs. by apply Hn, Hs. }
  lia.
Qed.

(** ** The invariants of a layered schedule *)

Lemma layered_topological g groups : forall past,
  layered g past groups -> topological_from g (list_to_set past) groups = true.
Proof.
  induction groups as [|grp groups IH]; intros past HL; [done|]. destruct HL as [H1 H2].
  simpl. destruct (existsb _ (pg_transactions grp)) eqn:E.
  2: { rewrite <- list_to_set_app_L. by apply IH. }
  - exfalso. revert E. intros (h & Hh & (e & He & Hb)%existsb_exists)%existsb_exists. bools.
    match goal with H : ~ (_ ∈ _) |- _ => apply H end. apply elem_of_list_to_set.
    apply list_elem_of_In in Hh, He. subst. by apply (H1 _ (dep_to e)); [|exists e].
Qed.

Lemma has_edge_edge g a b : graph_wf g -> has_edge g a b = true <-> edge g a b.
Proof.
  intros WF. assert (has_edge g a b = bool_decide (b ∈ neighbors g a)) as ->.
  { unfold has_edge, neighbors. destruct (adjacency g !! a); [done|].
    symmetry. by apply bool_decide_eq_false, not_elem_of_nil. }
  rewrite bool_decide_eq_true, gw_adjacency, list_elem_of_fmap by done. unfold edge.
  setoid_rewrite list_elem_of_filter. naive_solver.
Qed.

Lemma safe_pairs_intro g l : graph_wf g ->
  (forall a b, a ∈ l -> b ∈ l -> ~ edge g a b) -> safe_pairs g l = true.
Proof.
  intros WF. induction l as [|x l IH]; intros H; [done|]. simpl. apply andb_true_iff. split.
  - apply forallb_forall. intros y Hy%list_elem_of_In. apply negb_true_iff, orb_false_iff.
    split; apply not_true_iff_false; rewrite has_edge_edge by done; apply H; set_solver.
  - apply IH. intros a b Ha Hb. apply H; set_solver.
Qed.

Lemma layered_safe g groups : graph_wf g -> forall past,
  layered g past groups -> NoDup (past ++ nodes groups) ->
  Forall (fun grp => invariant_parallel_safety grp g = true) groups.
Proof.
  intros WF. induction groups as [|grp groups IH]; intros past HL HN; [done|].
  destruct HL as [H1 H2]. simpl in HN. constructor.
  - apply safe_pairs_intro; [done|]. intros a b Ha Hb He.
    apply NoDup_app in HN as (_ & Hd & _). apply (Hd a); [by apply (H1 a b)|set_solver].
  - apply (IH (past ++ pg_transactions grp)); [done|]. by rewrite <- app_assoc.
Qed.

(** [h1] is in an earlier group than [h2]. *)
Definition runs_before (s : ExecutionSchedule) (h1 h2 : Hash) : Prop :=
  exists i j g1 g2, i < j /\ parallel_groups s !! i = Some g1 /\
    parallel_groups s !! j = Some g2 /\ h1 ∈ pg_transactions g1 /\ h2 ∈ pg_transactions g2.

Lemma layered_lookup g groups : forall past j grp a b,
  layered g past groups -> groups !! j = Some grp -> b ∈ pg_transactions grp -> edge g a b ->
  a ∈ past \/ exists i grp', i < j /\ groups !! i = Some grp' /\ a ∈ pg_transactions grp'.
Proof.
  induction groups as [|g0 groups IH]; intros past j grp a b HL Hj Hb He; [done|].
  destruct HL as [H1 H2]. destruct j as [|j]; simplify_eq/=; [left; by eapply H1|].
  destruct (IH _ _ _ _ _ H2 Hj Hb He) as [Ha|(i & grp' & ? & ? & ?)].
  - apply elem_of_app in Ha as [?|?]; [by left|]. right. exists 0, g0. split_and!; [lia|done..].
  - right. exists (S i), grp'. split_and!; [lia|done..].
Qed.

Lemma layered_path g groups a b j grp : layered g [] groups ->
  tc (edge g) a b -> groups !! j = Some grp -> b ∈ pg_transactions grp ->
  exists i grp', i < j /\ groups !! i = Some grp' /\ a ∈ pg_transactions grp'.
Proof.
  intros HL Hp. revert j grp. induction Hp as [a b He|a c b He Hp IH]; intros j grp Hj Hb.
  - by destruct (layered_lookup _ _ _ _ _ _ _ HL Hj Hb He) as [?%elem_of_nil|].
  - destruct (IH _ _ Hj Hb) as (k & grp' & ? & Hk & Hc).
    destruct (layered_lookup _ _ _ _ _ _ _ HL Hk Hc He)
      as [?%elem_of_nil|(i & grp'' & ? & ? & ?)]; [done|].
    exists i, grp''. split_and!; [lia|done..].
Qed.

Lemma elem_of_nodes groups h :
  h ∈ nodes groups <-> exists j grp, groups !! j = Some grp /\ h ∈ pg_transactions grp.
Proof.
  induction groups as [|g0 groups IH]; simpl.
  { split; [by intros ?%elem_of_nil|by intros (j & grp & ? & _)]. }
  rewrite elem_of_app, IH. split.
  - intros [?|(j & grp & ? & ?)]; [by exists 0, g0|by exists (S j), grp].
  - intros ([|j] & grp & ? & ?); simplify_eq/=; eauto.
Qed.

Lemma layered_runs_before g groups a b : layered g [] groups ->
  tc (edge g) a b -> b ∈ nodes groups -> runs_before (schedule_new groups) a b.
Proof.
  intros HL Hp (j & grp & Hj & Hb)%elem_of_nodes.
  destruct (layered_path _ _ _ _ _ _ HL Hp Hj Hb) as (i & grp' & ? & ? & ?).
  by exists i, j, grp', grp.
Qed.

(** ** Cycles *)

Definition cyclic (g : DependencyGraph) : Prop := exists h, tc (edge g) h h.

(** A layered schedule has no cycle among its nodes. *)
Lemma layered_acyclic g groups h : layered g [] groups -> h ∈ nodes groups ->
  ~ tc (edge g) h h.
Proof.
  intros HL (j & grp & Hj & Hh)%elem_of_nodes Hc. revert grp Hj Hh.
  induction (lt_wf j) as [j _ IH]. intros grp Hj Hh.
  destruct (layered_path _ _ _ _ _ _ HL Hc Hj Hh) as (i & grp' & Hlt & Hi & Hh').
  exact (IH i Hlt grp' Hi Hh').
Qed.

(** A nonempty finite set in which every element has a predecessor contains a
    cycle: removing [x] bypasses it from its predecessor. *)
Lemma predecessor_closed_cycle n : forall (R : relation Hash) (U : gset Hash),
  size U <= n -> U <> ∅ -> (forall x, x ∈ U -> exists y, y ∈ U /\ R y x) ->
  exists x, x ∈ U /\ tc R x x.
Proof.
  induction n as [|n IH]; intros R U Hs Hne Hp.
  { exfalso. apply Hne, leibniz_equiv, size_empty_iff. lia. }
  destruct (set_choose_L U Hne) as [x Hx]. destruct (Hp x Hx) as (y & Hy & Ryx).
  destruct (decide (y = x)) as [->|Hyx]; [exists x; split; [done|by apply tc_once]|].
  destruct (IH (fun a b => R a b \/ R a x /\ R x b) (U ∖ {[x]})) as (c & Hc & Htc).
  - pose proof (subset_size _ _ (subset_difference_elem_of x U Hx)). lia.
  - set_solver.
  - intros b Hb. destruct (Hp b ltac:(set_solver)) as (a & Ha & Rab).
    destruct (decide (a = x)) as [->|]; [exists y|exists a]; (split; [set_solver|tauto]).
  - exists c. split; [set_solver|]. revert Htc. generalize c at 1 3. generalize c.
    intros b a Htc. induction Htc as [a b Hab|a c' b Hac _ IHt].
    + destruct Hab as [?|[??]]; [by apply tc_once|by eapply tc_l, tc_once].
    + destruct Hac as [?|[??]]; [by eapply tc_l|by eapply tc_l, tc_l].
Qed.

(** Nodes left out by a predecessor-closed schedule lie on or behind a cycle. *)
Lemma leftover_cyclic g l : graph_wf g ->
  (forall h, h ∈ l <-> h ∈ dom (transactions g) /\ remaining g l h = 0) ->
  list_to_set (C := gset Hash) l <> dom (transactions g) -> cyclic g.
Proof.
  intros WF HQ Hne.
  destruct (predecessor_closed_cycle (size (dom (transactions g) ∖ list_to_set (C := gset Hash) l))
              (edge g) (dom (transactions g) ∖ list_to_set l)) as (x & _ & Hx); [done| | |by exists x].
  - intros Hemp. apply Hne. apply set_eq. intros h.
    rewrite elem_of_list_to_set. split; [by intros [? _]%HQ|]. intros Hd.
    destruct (decide (h ∈ l)) as [|Hn]; [done|]. exfalso.
    apply (not_elem_of_empty (C := gset Hash) h). rewrite <- Hemp.
    by apply elem_of_difference; rewrite elem_of_list_to_set.
  - intros h [Hd Hn]%elem_of_difference. rewrite elem_of_list_to_set in Hn.
    assert (~ (forall a, edge g a h -> a ∈ l)) as Hex.
    { rewrite <- remaining_zero. intros Hr. by apply Hn, HQ. }
    assert (exists e, e ∈ edges g /\ dep_to e = h /\ dep_from e ∉ l) as (e & He & Ht & Hf).
    { destruct (decide (Exists (fun e => dep_to e = h /\ dep_from e ∉ l) (edges g))) as [HE|HE].
      - by apply Exists_exists in HE.
      - exfalso. apply Hex. intros a (e & He & <- & Ht).
        destruct (decide (dep_from e ∈ l)); [done|]. exfalso. apply HE, Exists_exists. eauto. }
    exists (dep_from e). split; [|by exists e].
    apply elem_of_difference. rewrite elem_of_list_to_set. split; [by apply (gw_closed g WF)|done].
Qed.

(** * The depth-first cycle check

    [has_cycle_dfs] with a visited set and a recursion stack: within its fuel it
    always answers; [true] means a cycle through the stack ([dfs_true]), [false]
    means that every node it has finished lies on no infinite path
    ([dfs_false]). *)


Local Open Scope nat_scope.

Section dfs.
Context (g : DependencyGraph) (WF : graph_wf g).

(** [succ y x]: the graph has an edge from [x] to [y]; accessible nodes start
    no infinite path. *)
Definition succ (y x : Hash) : Prop := edge g x y.

(** The nodes the search may still enter. *)
Definition unvisited (s : dfs_state) : nat := size (dom (transactions g) ∖ s.1).

(** Finished nodes, visited and off the stack, start no infinite path. *)
Record dfs_inv (s : dfs_state) : Prop := {
  di_sub : s.2 ⊆ s.1;
  di_done x : x ∈ s.1 -> x ∉ s.2 -> Acc succ x
}.

Definition stack_leads (node : Hash) (s : dfs_state) : Prop :=
  forall x, x ∈ s.2 -> tc (edge g) x node.

(** What an answer guarantees. *)
Definition dfs_post (s : dfs_state) (r : bool * dfs_state) : Prop :=
  if r.1 then cyclic g else r.2.2 = s.2 /\ s.1 ⊆ r.2.1 /\ dfs_inv r.2.

Lemma neighbors_edge x y : y ∈ neighbors g x <-> edge g x y.
Proof.
  rewrite gw_adjacency, list_elem_of_fmap by done. unfold edge.
  setoid_rewrite list_elem_of_filter. naive_solver.
Qed.

Lemma unvisited_mono s s' : s.1 ⊆ s'.1 -> unvisited s' <= unvisited s.
Proof. intros H. unfold unvisited. apply subseteq_size. set_solver. Qed.

Lemma unvisited_enter node visited stack : node ∈ dom (transactions g) -> node ∉ visited ->
  unvisited ({[node]} ∪ visited, {[node]} ∪ stack) < unvisited (visited, stack).
Proof.
  intros Hd Hn. unfold unvisited. apply subset_size. simpl. split; [set_solver|].
  intros Hs. assert (Hin : node ∈ dom (transactions g) ∖ ({[node]} ∪ visited)) by set_solver.
  set_solver.
Qed.

(** The specification of a search from a node, below a bound on the nodes not
    visited yet. *)
Definition dfs_spec (bound : nat) (dfs : Hash -> dfs_state -> option (bool * dfs_state)) : Prop :=
  forall y s, y ∈ dom (transactions g) -> unvisited s < bound -> dfs_inv s -> stack_leads y s ->
    exists r, dfs y s = Some r /\ dfs_post s r /\ (r.1 = false -> y ∈ r.2.1 /\ y ∉ r.2.2).

Lemma dfs_neighbors_spec dfs bound l : dfs_spec bound dfs -> forall s,
  (forall y, y ∈ l -> y ∈ dom (transactions g) /\ stack_leads y s) ->
  unvisited s < bound -> dfs_inv s ->
  exists r, dfs_neighbors dfs l s = Some r /\ dfs_post s r /\
    (r.1 = false -> forall y, y ∈ l -> Acc succ y).
Proof.
  intros Hdfs. induction l as [|y l IH]; intros s Hl Hu HI; simpl.
  { exists (false, s). split_and!; [done..|]. by intros _ y ?%elem_of_nil. }
  destruct (Hl y ltac:(left)) as [Hy Hlead].
  destruct (Hdfs y s Hy Hu HI Hlead) as ([[] s1] & -> & Hpost & Hfin); simpl in *.
  { exists (true, s1). by split_and!. }
  destruct Hpost as (Est & Hsub & HI1). destruct (Hfin eq_refl) as [Hv Hns].
  destruct (IH s1) as (r & E & Hpost' & Hacc).
  - intros z Hz. unfold stack_leads in *. simpl in Est. rewrite Est. apply Hl. by right.
  - pose proof (unvisited_mono s s1 Hsub). lia.
  - done.
  - exists r. split; [done|]. split.
    + unfold dfs_post in *. simpl in *. destruct r.1; [done|].
      destruct Hpost' as (-> & ? & ?). split_and!; [done|set_solver|done].
    + intros Hr z [->|Hz]%elem_of_cons; [by apply (di_done s1 HI1)|by apply Hacc].
Qed.

Lemma has_cycle_dfs_spec fuel : dfs_spec fuel (has_cycle_dfs fuel g).
Proof.
  induction fuel as [|fuel IH]; intros node [visited stack] Hd Hu HI Hlead; [lia|].
  cbn [has_cycle_dfs]. case_bool_decide as Hst.
  { exists (true, (visited, stack)). split_and!; [done| |done]. exists node. by apply Hlead. }
  case_bool_decide as Hvis.
  { exists (false, (visited, stack)). by split_and!. }
  set (s1 := ({[node]} ∪ visited, {[node]} ∪ stack)).
  assert (HI1 : dfs_inv s1).
  { destruct HI as [Hsub Hdone]. split; simpl in *; [set_solver|]. intros x Hx Hn.
    apply Hdone; set_solver. }
  change (default [] (adjacency g !! node)) with (neighbors g node).
  destruct (dfs_neighbors_spec (has_cycle_dfs fuel g) fuel (neighbors g node) IH s1)
    as ([[] [v2 st2]] & -> & Hpost & Hacc); simpl.
  - intros y Hy%neighbors_edge. split.
    + destruct Hy as (e & He & _ & <-). by apply (gw_closed g WF).
    + intros x Hx. simpl in Hx.
      apply elem_of_union in Hx as [->%elem_of_singleton|Hx]; [by apply tc_once|].
      eapply tc_r; [by apply Hlead|done].
  - pose proof (unvisited_enter node visited stack Hd Hvis). unfold s1. lia.
  - done.
  - exists (true, (v2, st2)). by split_and!.
  - destruct Hpost as (Est & Hsub & [Hsub2 Hdone2]). simpl in *.
    assert (Hnode : Acc succ node).
    { constructor. intros y Hy. apply Hacc; [done|]. by apply neighbors_edge. }
    exists (false, (v2, st2 ∖ {[node]})). split_and!; [done| |]; simpl.
    + split_and!; simpl; [set_solver|set_solver|]. split; simpl; [set_solver|].
      intros x Hx Hn. destruct (decide (x = node)) as [->|Hne]; [done|].
      apply Hdone2; [done|set_solver].
    + intros _. set_solver.
Qed.

Lemma acc_not_cyclic x : Acc succ x -> ~ tc (edge g) x x.
Proof.
  induction 1 as [x _ IH]. intros Hc.
  assert (Hy : exists y, edge g x y /\ rtc (edge g) y x).
  { inversion Hc as [? ? He|? y ? He Hp]; subst; [by exists x|].
    exists y. split; [done|]. by apply tc_rtc. }
  destruct Hy as (y & He & Hp). apply (IH y He). by eapply tc_rtc_l; [|apply tc_once].
Qed.

Lemma no_cycles_from_spec l : forall s,
  (forall h, h ∈ l -> h ∈ dom (transactions g)) -> s.2 = ∅ -> dfs_inv s ->
  no_cycles_from g l s = Some false /\ cyclic g \/
  no_cycles_from g l s = Some true /\ forall h, h ∈ l -> Acc succ h.
Proof.
  induction l as [|h l IH]; intros s Hl Hst HI; cbn [no_cycles_from].
  { right. split; [done|]. by intros h ?%elem_of_nil. }
  destruct (has_cycle_dfs_spec (S (size (transactions g))) h s) as ([[] s'] & -> & Hpost & Hfin).
  - apply Hl. left.
  - unfold unvisited. rewrite <- size_dom. apply Nat.lt_succ_r, subseteq_size. set_solver.
  - done.
  - intros x. rewrite Hst. set_solver.
  - left. by split.
  - destruct Hpost as (Est & _ & HI'). simpl in *. destruct (Hfin eq_refl) as [Hv Hn].
    destruct (IH s') as [?|[? Hacc]]; [|by rewrite Est|done|by left|right].
    + intros x Hx. apply Hl. by right.
    + split; [done|]. intros x [->|Hx]%elem_of_cons; [by apply (di_done s' HI')|by apply Hacc].
Qed.

(** The check always answers, and answers right. *)
Lemma invariant_no_cycles_spec :
  invariant_no_cycles g = Some false /\ cyclic g \/
  invariant_no_cycles g = Some true /\ ~ cyclic g.
Proof.
  unfold invariant_no_cycles.
  assert (Hdom : forall h, h ∈ (map_to_list (transactions g)).*1 <-> h ∈ dom (transactions g)).
  { intros h. rewrite list_elem_of_fmap, elem_of_dom. split.
    - intros ([k t] & -> & Hin%elem_of_map_to_list). by exists t.
    - intros [t Ht]. exists (h, t). by rewrite elem_of_map_to_list. }
  destruct (no_cycles_from_spec (fst <$> map_to_list (transactions g)) (∅, ∅))
    as [?|[? Hacc]]; [by intros h Hh%Hdom|done|by split; set_solver|by left|right].
  split; [done|]. intros [h Hc].
  apply (acc_not_cyclic h); [|done]. apply Hacc, Hdom.
  inversion Hc as [? ? (e & He & <- & _)|? ? ? (e & He & <- & _)]; subst; by apply (gw_closed g WF).
Qed.

End dfs.
