(* ===== verification/OrderingBuild.v ===== *)
(** * The graph built from a batch

    What [build_dependency_graph] puts in the graph: one node per hash, a chain
    of edges per sender in nonce order, an edge per interfering pair in batch
    order ([build_edges]), hence a well-formed graph ([build_wf]); a batch
    whose senders' nonces are in order yields an acyclic one
    ([ordered_batch_acyclic]). *)

From S2P Require Import Prelude Ordering OrderingFacts.
Local Open Scope nat_scope.

(** ** Conflicts *)

(** Two access patterns interfere: a location is written by both, or written
    by one and read by the other. *)
Definition interferes (p1 p2 : AccessPattern) : Prop :=
  exists loc, loc ∈ ap_writes p1 /\ loc ∈ ap_writes p2 \/
              loc ∈ ap_writes p1 /\ loc ∈ ap_reads p2 \/
              loc ∈ ap_reads p1 /\ loc ∈ ap_writes p2.

Lemma first_common_Some a b loc : first_common a b = Some loc -> loc ∈ a /\ loc ∈ b.
Proof.
  unfold first_common. intros H. apply head_Some_elem_of in H.
  apply list_elem_of_filter in H as [? ?%elem_of_elements]. done.
Qed.

Lemma first_common_None a b loc : first_common a b = None -> loc ∈ a -> loc ∈ b -> False.
Proof.
  unfold first_common. intros H%head_None Ha Hb.
  assert (Hin : loc ∈ base.filter (fun loc => loc ∈ b) (elements a)).
  { apply list_elem_of_filter. by rewrite elem_of_elements. }
  rewrite H in Hin. by apply elem_of_nil in Hin.
Qed.

Ltac solve_interferes :=
  split;
  [ intros [x Hx]; repeat case_match; try done;
    match goal with E : first_common _ _ = Some ?loc |- _ =>
      exists loc; apply first_common_Some in E; tauto end
  | intros [loc H]; repeat case_match; try done;
    destruct H as [[? ?]|[[? ?]|[? ?]]]; exfalso; eauto using first_common_None ].

Lemma data_conflict_interferes p1 p2 :
  is_Some (data_conflict p1 p2) <-> interferes p1 p2.
Proof.
  unfold data_conflict, interferes. solve_interferes.
Qed.

Lemma conflicts_with_interferes p1 p2 :
  is_Some (conflicts_with p1 p2) <-> interferes p1 p2.
Proof.
  unfold conflicts_with, interferes. solve_interferes.
Qed.

(** ** Pairs *)

Lemma elem_of_tx_pairs l x y :
  (x, y) ∈ tx_pairs l <-> exists i j, i < j /\ l !! i = Some x /\ l !! j = Some y.
Proof.
  induction l as [|z l IH]; simpl.
  { split; [by intros ?%elem_of_nil|by intros (i & j & _ & ? & _)]. }
  rewrite elem_of_app, IH, list_elem_of_fmap. split.
  - intros [(y' & [= -> ->] & (j & Hj)%list_elem_of_lookup)|(i & j & ? & ? & ?)].
    + exists 0, (S j). split_and!; [lia|done|done].
    + exists (S i), (S j). split_and!; [lia|done|done].
  - intros ([|i] & [|j] & Hlt & Hi & Hj); simplify_eq/=; try lia.
    + left. exists y. split; [done|]. by eapply list_elem_of_lookup_2.
    + right. exists i, j. split_and!; [lia|done|done].
Qed.

Lemma tx_pairs_sublist l k x y : l `sublist_of` k -> (x, y) ∈ tx_pairs l -> (x, y) ∈ tx_pairs k.
Proof.
  induction 1 as [|z l k Hs IH|z l k Hs IH]; simpl; [done| |]; rewrite !elem_of_app.
  - intros [H|?]; [left|by right; apply IH].
    apply list_elem_of_fmap in H as (y' & [= -> ->] & Hy). apply list_elem_of_fmap.
    exists y'. split; [done|]. by eapply elem_of_sublist.
  - intros ?. right. by apply IH.
Qed.

Lemma elem_of_nonce_edges l e : e ∈ nonce_edges l <->
  exists k x y, l !! k = Some x /\ l !! S k = Some y /\
    e = {| dep_from := at_hash x; dep_to := at_hash y; dep_kind := NonceOrder;
           dep_location := None |}.
Proof.
  unfold nonce_edges. rewrite list_elem_of_lookup. split.
  - intros (k & (x & y & -> & Hx & Hy)%lookup_zip_with_Some).
    rewrite lookup_tail in Hy. eauto 10.
  - intros (k & x & y & Hx & Hy & ->). exists k. apply lookup_zip_with_Some.
    exists x, y. by rewrite lookup_tail.
Qed.

Lemma nonce_edges_pair l e : e ∈ nonce_edges l ->
  exists x y, (x, y) ∈ tx_pairs l /\ dep_from e = at_hash x /\ dep_to e = at_hash y.
Proof.
  intros (k & x & y & Hx & Hy & ->)%elem_of_nonce_edges. exists x, y.
  rewrite elem_of_tx_pairs. split; [|done]. exists k, (S k). split_and!; [lia|done..].
Qed.

Lemma nonce_edges_path (R : relation Hash) l i j x y :
  (forall e, e ∈ nonce_edges l -> R (dep_from e) (dep_to e)) ->
  i < j -> l !! i = Some x -> l !! j = Some y -> tc R (at_hash x) (at_hash y).
Proof.
  intros HR Hlt Hi. revert y. induction Hlt as [|j Hlt IH]; intros y Hy.
  - apply tc_once. by apply (HR {| dep_from := at_hash x; dep_to := at_hash y;
      dep_kind := NonceOrder; dep_location := None |}), elem_of_nonce_edges; eauto 10.
  - destruct (lookup_lt_is_Some_2 l j) as [z Hz].
    { apply lookup_lt_Some in Hy. lia. }
    eapply tc_r; [by apply IH|].
    by apply (HR {| dep_from := at_hash z; dep_to := at_hash y;
      dep_kind := NonceOrder; dep_location := None |}), elem_of_nonce_edges; eauto 10.
Qed.

Lemma elem_of_data_edges txs e : e ∈ data_edges txs <->
  exists x y, (x, y) ∈ tx_pairs txs /\ at_sender x <> at_sender y /\
    detect_data_dependency x y = Some e.
Proof.
  unfold data_edges. rewrite list_elem_of_omap. split.
  - intros ([x y] & Hin & He). simpl in He. case_match; [done|]. bools. eauto 10.
  - intros (x & y & Hin & Hne & He). exists (x, y). split; [done|].
    by rewrite (proj2 (Z.eqb_neq _ _)).
Qed.

Lemma detect_data_dependency_ends x y e : detect_data_dependency x y = Some e ->
  dep_from e = at_hash x /\ dep_to e = at_hash y.
Proof. unfold detect_data_dependency. intros ([k loc] & _ & [= <-])%bind_Some. done. Qed.

Lemma detect_data_dependency_complete x y :
  interferes (at_access_pattern x) (at_access_pattern y) ->
  exists e, detect_data_dependency x y = Some e.
Proof.
  intros [[k loc] E]%data_conflict_interferes. unfold detect_data_dependency.
  rewrite E. by eexists.
Qed.

(** ** Grouping by sender *)

Lemma group_by_sender_spec txs a :
  default [] (group_by_sender txs !! a) = base.filter (fun tx => at_sender tx = a) txs.
Proof.
  unfold group_by_sender. induction txs as [|tx txs IH] using rev_ind; [done|].
  rewrite foldl_app, filter_app, <- IH, filter_cons, filter_nil. simpl.
  case_decide as E; [subst a|].
  - by rewrite lookup_insert_eq.
  - by rewrite lookup_insert_ne, app_nil_r.
Qed.

Lemma elem_of_sender_lists txs l : l ∈ snd <$> map_to_list (group_by_sender txs) ->
  exists a, l = base.filter (fun tx => at_sender tx = a) txs.
Proof.
  intros ([a l'] & -> & Hin)%list_elem_of_fmap. exists a.
  apply elem_of_map_to_list in Hin. by rewrite <- group_by_sender_spec, Hin.
Qed.

Lemma sender_list_elem txs tx : tx ∈ txs ->
  base.filter (fun t => at_sender t = at_sender tx) txs ∈
    snd <$> map_to_list (group_by_sender txs).
Proof.
  intros Hin. pose proof (group_by_sender_spec txs (at_sender tx)) as E.
  assert (Hf : tx ∈ base.filter (fun t => at_sender t = at_sender tx) txs)
    by by apply list_elem_of_filter.
  destruct (group_by_sender txs !! at_sender tx) as [l|] eqn:El; simpl in E.
  - subst l. apply list_elem_of_fmap. eexists (_, _). split; [|by apply elem_of_map_to_list].
    done.
  - rewrite <- E in Hf. by apply elem_of_nil in Hf.
Qed.

(** ** The graph *)

Lemma add_edges_spec es : forall g,
  transactions (foldl add_edge g es) = transactions g /\
  edges (foldl add_edge g es) = edges g ++ es.
Proof.
  induction es as [|e es IH]; intros g; simpl; [by rewrite app_nil_r|].
  destruct (IH (add_edge g e)) as [-> ->]. simpl. by rewrite <- app_assoc.
Qed.

Lemma add_edges_wf es : forall g, graph_wf g ->
  (forall e, e ∈ es -> dep_from e ∈ dom (transactions g) /\ dep_to e ∈ dom (transactions g)) ->
  graph_wf (foldl add_edge g es).
Proof.
  induction es as [|e es IH]; intros g WF He; simpl; [done|].
  apply IH; [apply add_edge_wf; [done|by apply He; left..]|].
  intros e' He'. apply He. by right.
Qed.

Lemma add_nodes_spec txs : forall g,
  dom (transactions (foldl add_node g txs)) =
    dom (transactions g) ∪ list_to_set (at_hash <$> txs) /\
  edges (foldl add_node g txs) = edges g.
Proof.
  induction txs as [|tx txs IH]; intros g; simpl; [split; [set_solver|done]|].
  destruct (IH (add_node g tx)) as [-> ->]. simpl. rewrite dom_insert_L.
  split; [set_solver|done].
Qed.

(** All the nonce edges, sender by sender. *)
Definition all_nonce_edges (txs : list AnnotatedTransaction) : list Dependency :=
  concat ((fun l => nonce_edges (stable_sort nonce_le l)) <$>
          (snd <$> map_to_list (group_by_sender txs))).

Lemma foldl_concat {X Y S} (f : S -> Y -> S) (k : X -> list Y) (l : list X) : forall s,
  foldl (fun s x => foldl f s (k x)) s l = foldl f s (concat (k <$> l)).
Proof. induction l as [|x l IH]; intros s; simpl; [done|]. by rewrite foldl_app, IH. Qed.

Lemma build_unfold txs : build_dependency_graph txs =
  foldl add_edge (foldl add_node graph_new txs) (all_nonce_edges txs ++ data_edges txs).
Proof.
  unfold build_dependency_graph, all_nonce_edges. rewrite foldl_app. f_equal.
  apply (foldl_concat add_edge (fun l => nonce_edges (stable_sort nonce_le l))).
Qed.

Lemma build_edges txs :
  edges (build_dependency_graph txs) = all_nonce_edges txs ++ data_edges txs.
Proof.
  rewrite build_unfold, (proj2 (add_edges_spec _ _)), (proj2 (add_nodes_spec _ _)). done.
Qed.

Lemma build_nodes txs :
  dom (transactions (build_dependency_graph txs)) = list_to_set (at_hash <$> txs).
Proof.
  rewrite build_unfold, (proj1 (add_edges_spec _ _)), (proj1 (add_nodes_spec _ _)).
  simpl. set_solver.
Qed.

Lemma elem_of_all_nonce_edges txs e : e ∈ all_nonce_edges txs <->
  exists l, l ∈ snd <$> map_to_list (group_by_sender txs) /\
            e ∈ nonce_edges (stable_sort nonce_le l).
Proof.
  unfold all_nonce_edges. generalize (snd <$> map_to_list (group_by_sender txs)).
  intros ls. induction ls as [|l ls IH]; simpl.
  { split; [by intros ?%elem_of_nil|by intros (l & ?%elem_of_nil & _)]. }
  rewrite elem_of_app, IH. setoid_rewrite elem_of_cons. naive_solver.
Qed.

Lemma build_edge_ends txs e : e ∈ edges (build_dependency_graph txs) ->
  exists x y, x ∈ txs /\ y ∈ txs /\ dep_from e = at_hash x /\ dep_to e = at_hash y.
Proof.
  assert (Hp : forall l x y, (x, y) ∈ tx_pairs l -> x ∈ l /\ y ∈ l).
  { intros l x y (i & j & _ & ? & ?)%elem_of_tx_pairs.
    split; by eapply list_elem_of_lookup_2. }
  rewrite build_edges, elem_of_app, elem_of_all_nonce_edges, elem_of_data_edges.
  intros [(l & (a & ->)%elem_of_sender_lists & (x & y & Hxy & E)%nonce_edges_pair)
         |(x & y & Hxy & _ & E%detect_data_dependency_ends)];
    exists x, y; apply Hp in Hxy as [Hx Hy].
  - rewrite stable_sort_perm in Hx, Hy.
    apply list_elem_of_filter in Hx as [_ Hx], Hy as [_ Hy]. done.
  - done.
Qed.

Lemma build_wf txs : graph_wf (build_dependency_graph txs).
Proof.
  assert (Hn : graph_wf (foldl add_node graph_new txs)).
  { apply (foldl_inv add_node graph_wf); [intros; by apply add_node_wf|apply graph_new_wf]. }
  rewrite build_unfold. apply add_edges_wf; [done|]. intros e.
  rewrite <- build_edges, (proj1 (add_nodes_spec _ _)). intros (x & y & Hx & Hy & -> & ->)%build_edge_ends.
  split; apply elem_of_union_r, elem_of_list_to_set, list_elem_of_fmap; eauto.
Qed.

Lemma interfering_edge txs i j x y : i < j -> txs !! i = Some x -> txs !! j = Some y ->
  at_sender x <> at_sender y -> interferes (at_access_pattern x) (at_access_pattern y) ->
  edge (build_dependency_graph txs) (at_hash x) (at_hash y).
Proof.
  intros Hlt Hi Hj Hs [e He]%detect_data_dependency_complete.
  pose proof (detect_data_dependency_ends _ _ _ He) as [? ?].
  exists e. split; [|done]. rewrite build_edges, elem_of_app, elem_of_data_edges.
  right. exists x, y. rewrite elem_of_tx_pairs. eauto 10.
Qed.

#[export] Instance nonce_le_trans : Transitive nonce_le.
Proof. unfold nonce_le. intros ???. lia. Qed.
#[export] Instance nonce_le_total : Total nonce_le.
Proof. unfold nonce_le. intros ??. lia. Qed.

Lemma nonce_path txs x y : x ∈ txs -> y ∈ txs -> at_sender x = at_sender y ->
  (at_nonce x < at_nonce y)%Z ->
  tc (edge (build_dependency_graph txs)) (at_hash x) (at_hash y).
Proof.
  intros Hx Hy Hs Hlt.
  set (l := base.filter (fun t => at_sender t = at_sender x) txs).
  pose proof (sender_list_elem txs x Hx) as Hl. fold l in Hl.
  assert (Hin : forall t, t ∈ txs -> at_sender t = at_sender x -> t ∈ stable_sort nonce_le l).
  { intros t Ht Es. rewrite stable_sort_perm. by apply list_elem_of_filter. }
  destruct (list_elem_of_lookup_1 _ _ (Hin x Hx eq_refl)) as [i Hi].
  destruct (list_elem_of_lookup_1 _ _ (Hin y Hy (eq_sym Hs))) as [j Hj].
  assert (i < j).
  { destruct (decide (i < j)) as [|Hn]; [done|]. exfalso.
    destruct (decide (i = j)) as [->|]; [simplify_eq; lia|].
    assert (Hle : nonce_le y x); [|unfold nonce_le in Hle; lia].
    eapply sorted_lookup; [apply (stable_sort_sorted nonce_le)| |exact Hj|exact Hi]. lia. }
  eapply (nonce_edges_path _ (stable_sort nonce_le l)); [|done..].
  intros e He. exists e. split; [|done]. rewrite build_edges, elem_of_app, elem_of_all_nonce_edges.
  eauto.
Qed.

(** ** Batches in nonce order *)

(** Each sender's transactions appear in the batch in nonce order. *)
Definition nonce_ordered (txs : list AnnotatedTransaction) : Prop :=
  forall x y, (x, y) ∈ tx_pairs txs -> at_sender x = at_sender y -> nonce_le x y.

Lemma nonce_ordered_sorted txs a : nonce_ordered txs ->
  StronglySorted nonce_le (base.filter (fun t => at_sender t = a) txs).
Proof.
  intros HO. assert (Hp : forall x y,
    (x, y) ∈ tx_pairs (base.filter (fun t => at_sender t = a) txs) -> nonce_le x y).
  { intros x y Hxy. apply HO.
    - eapply tx_pairs_sublist; [apply (sublist_filter (fun t => at_sender t = a))|exact Hxy].
    - apply elem_of_tx_pairs in Hxy as (i & j & _ & Hi & Hj).
      apply list_elem_of_lookup_2, list_elem_of_filter in Hi as [-> _], Hj as [-> _]. done. }
  induction (base.filter _ txs) as [|x l IH]; constructor.
  - apply IH. intros y z Hyz. apply Hp. simpl. apply elem_of_app. by right.
  - apply Forall_forall. intros y Hy. apply Hp. simpl. apply elem_of_app. left.
    apply list_elem_of_fmap. eauto.
Qed.

Lemma ordered_edge_pair txs e : nonce_ordered txs -> e ∈ edges (build_dependency_graph txs) ->
  exists x y, (x, y) ∈ tx_pairs txs /\ dep_from e = at_hash x /\ dep_to e = at_hash y.
Proof.
  intros HO. rewrite build_edges, elem_of_app, elem_of_all_nonce_edges, elem_of_data_edges.
  intros [(l & (a & ->)%elem_of_sender_lists & He)
         |(x & y & Hxy & _ & E%detect_data_dependency_ends)]; [|eauto].
  rewrite stable_sort_id in He by by apply nonce_ordered_sorted.
  apply nonce_edges_pair in He as (x & y & Hxy & ? & ?). exists x, y. split; [|done].
  eapply tx_pairs_sublist; [apply (sublist_filter (fun t => at_sender t = a))|exact Hxy].
Qed.

Lemma ordered_batch_acyclic txs : NoDup (at_hash <$> txs) -> nonce_ordered txs ->
  ~ cyclic (build_dependency_graph txs).
Proof.
  intros HN HO [h Hc].
  assert (Hp : forall a b, tc (edge (build_dependency_graph txs)) a b -> exists i j, i < j /\
            (at_hash <$> txs) !! i = Some a /\ (at_hash <$> txs) !! j = Some b).
  { assert (He : forall a b, edge (build_dependency_graph txs) a b -> exists i j, i < j /\
            (at_hash <$> txs) !! i = Some a /\ (at_hash <$> txs) !! j = Some b).
    { intros a b (e & (x & y & (i & j & ? & Hi & Hj)%elem_of_tx_pairs & -> & ->)%(ordered_edge_pair _ _ HO) & <- & <-).
      exists i, j. by rewrite !list_lookup_fmap, Hi, Hj. }
    induction 1 as [a b Hab|a c b Hac _ (k & j & ? & Hk & Hj)]; [by apply He|].
    destruct (He a c Hac) as (i & k' & ? & Hi & Hk').
    pose proof (NoDup_lookup _ _ _ _ HN Hk Hk'). subst k'. exists i, j. split_and!; [lia|done..]. }
  destruct (Hp h h Hc) as (i & j & ? & Hi & Hj).
  pose proof (NoDup_lookup _ _ _ _ HN Hi Hj). lia.
Qed.
