(* ===== verification/OrderingProps.v ===== *)
(** * The ordering service: what its schedules guarantee

    The claims about [qc-12-transaction-ordering]: Kahn's algorithm satisfies
    the crate's own invariants and reports a cycle exactly when there is one;
    the service orders interfering transactions and a sender's nonces; a batch
    in nonce order is always schedulable. *)

From S2P Require Import Prelude Ordering OrderingFacts OrderingBuild.
Local Open Scope nat_scope.

(** The graphs a client can build: nodes, and edges between existing nodes. *)
Inductive graph_step : relation DependencyGraph :=
| step_node g tx : graph_step g (add_node g tx)
| step_edge g dep : dep_from dep ∈ dom (transactions g) -> dep_to dep ∈ dom (transactions g) ->
    graph_step g (add_edge g dep).

Definition graph_reachable (g : DependencyGraph) : Prop := star graph_step graph_new g.

Lemma graph_reachable_wf g : graph_reachable g -> graph_wf g.
Proof.
  intros Hg. eapply (star_invariant graph_step graph_wf); [|apply graph_new_wf|exact Hg].
  intros g1 g2 WF Hs. destruct Hs; [by apply add_node_wf|by apply add_edge_wf].
Qed.

(** A schedule with every guarantee the crate states of it. *)
Definition schedule_ok (g : DependencyGraph) (s : ExecutionSchedule) : Prop :=
  invariant_topological_order s g = true /\
  Forall (fun grp => invariant_parallel_safety grp g = true) (parallel_groups s) /\
  invariant_completeness s g = true /\
  NoDup (flatten s) /\ total_transactions s = node_count g.

Lemma total_transactions_flatten groups :
  total_transactions (schedule_new groups) = length (nodes groups).
Proof.
  induction groups as [|grp groups IH]; [done|]. rewrite fmap_cons. cbn [concat].
  by rewrite length_app, <- IH.
Qed.

Lemma kahns_ok_spec g s : graph_wf g -> kahns_topological_sort g = Some (Ok s) ->
  exists groups, s = schedule_new groups /\ NoDup (nodes groups) /\ layered g [] groups /\
    length (nodes groups) = size (transactions g) /\
    list_to_set (C := gset Hash) (nodes groups) = dom (transactions g).
Proof.
  intros WF Hk. destruct (kahns_spec g WF) as (groups & E & HN & HL & HQ).
  rewrite E in Hk. destruct (nodes_size_le g groups HN) as [Hle Hset].
  { by intros h [? _]%HQ. }
  destruct (Nat.ltb_spec (length (nodes groups)) (size (transactions g))); simplify_eq.
  exists groups. split_and!; [done|done|done|lia|apply Hset; lia].
Qed.

Lemma kahns_ok_schedule g s : graph_wf g -> kahns_topological_sort g = Some (Ok s) ->
  schedule_ok g s.
Proof.
  intros WF (groups & -> & HN & HL & Hlen & Hset)%kahns_ok_spec; [|done].
  unfold schedule_ok. split_and!.
  - by apply (layered_topological g groups []).
  - by apply (layered_safe g groups WF []).
  - by apply bool_decide_eq_true.
  - done.
  - by rewrite total_transactions_flatten.
Qed.

Lemma kahns_total g : graph_wf g ->
  cyclic g /\ kahns_topological_sort g = Some (Err CycleDetected) \/
  ~ cyclic g /\ exists s, kahns_topological_sort g = Some (Ok s).
Proof.
  intros WF. destruct (kahns_spec g WF) as (groups & E & HN & HL & HQ).
  destruct (nodes_size_le g groups HN) as [Hle Hset]; [by intros h [? _]%HQ|].
  rewrite E. destruct (Nat.ltb_spec (length (nodes groups)) (size (transactions g))) as [Hlt|Hge].
  - left. split; [|done]. apply (leftover_cyclic g (nodes groups) WF HQ). intros Heq.
    rewrite <- size_dom, <- Heq, size_list_to_set in Hlt by done. lia.
  - right. split; [|by eexists]. intros [h Hc]. specialize (Hset ltac:(lia)).
    apply (layered_acyclic g groups h HL); [|done].
    apply (elem_of_list_to_set (C := gset Hash)). rewrite Hset.
    clear -Hc WF. induction Hc as [a b (e & He & _ & <-)|]; [by apply (gw_closed g WF)|done].
Qed.

(** C7 (functional): for every graph built from [add_node] and [add_edge], a
    schedule returned by [kahns_topological_sort] passes the crate's own
    invariants: every dependency runs in an earlier group
    ([invariant_topological_order]), no group contains two dependent
    transactions ([invariant_parallel_safety]), and all the transactions are
    scheduled ([invariant_completeness]), each exactly once. *)
Theorem kahns_schedule_ok g s : graph_reachable g ->
  kahns_topological_sort g = Some (Ok s) -> schedule_ok g s.
Proof. intros Hg. by apply kahns_ok_schedule, graph_reachable_wf. Qed.

(** C8 (termination): [kahns_topological_sort] always terminates within as many
    rounds as there are nodes, and its answer is exact: it returns a schedule
    when the dependency graph has no cycle and [CycleDetected] when it has
    one. *)
Theorem kahns_detects_cycles g : graph_reachable g ->
  cyclic g /\ kahns_topological_sort g = Some (Err CycleDetected) \/
  ~ cyclic g /\ exists s, kahns_topological_sort g = Some (Ok s).
Proof.
  intros WF%graph_reachable_wf. by apply kahns_total.
Qed.

(** The crate's two cycle checks agree and are exact.  The
    depth-first search of [invariant_no_cycles] always terminates; it answers
    [true] exactly on the acyclic graphs, which are the ones
    [kahns_topological_sort] orders, and [false] on the others. *)
Theorem cycle_checks_agree g : graph_reachable g ->
  invariant_no_cycles g = Some true /\ ~ cyclic g /\
    (exists s, kahns_topological_sort g = Some (Ok s)) \/
  invariant_no_cycles g = Some false /\ cyclic g /\
    kahns_topological_sort g = Some (Err CycleDetected).
Proof.
  intros WF%graph_reachable_wf.
  destruct (kahns_total g WF) as [[? ?]|[? ?]], (invariant_no_cycles_spec g WF) as [[? ?]|[? ?]];
    tauto.
Qed.

(** Splits a successful run of the service into its branches. *)
Lemma order_transactions_cases c txs r : order_transactions c txs = Some r ->
  (exists e, r = Err e /\ validate_batch c txs = Err e) \/
  should_fallback c (detect_conflicts txs) (length txs) = true /\
    r = Ok (sequential (at_hash <$> txs)) \/
  should_fallback c (detect_conflicts txs) (length txs) = false /\
    (r = Err (TooManyEdges (edge_count (build_dependency_graph txs)) (oc_max_edge_count c)) \/
     kahns_topological_sort (build_dependency_graph txs) = Some r).
Proof.
  unfold order_transactions. intros H.
  destruct (validate_batch c txs) as [[]|e|] eqn:Ev; simplify_eq; [|by left; exists e|].
  - right. destruct (should_fallback _ _ _); simplify_eq; [by left|right].
    split; [done|]. case_match; simplify_eq; [by left|by right].
  - unfold validate_batch in Ev. split_matches.
Qed.

(** Unless the service falls back to sequential execution, its
    schedule runs two transactions in the order the batch demands: of two
    transactions of different senders whose storage accesses interfere, the
    first of the batch is in a strictly earlier group, and of two transactions
    of one sender the one with the lower nonce is. *)
Theorem order_transactions_orders_conflicts c txs s :
  order_transactions c txs = Some (Ok s) ->
  should_fallback c (detect_conflicts txs) (length txs) = false ->
  (forall i j x y, i < j -> txs !! i = Some x -> txs !! j = Some y ->
     at_sender x <> at_sender y ->
     interferes (at_access_pattern x) (at_access_pattern y) ->
     runs_before s (at_hash x) (at_hash y)) /\
  (forall x y, x ∈ txs -> y ∈ txs -> at_sender x = at_sender y ->
     (at_nonce x < at_nonce y)%Z -> runs_before s (at_hash x) (at_hash y)).
Proof.
  intros [(e & [=] & _)|[[? _]|[_ [[=]|Hk]]]]%order_transactions_cases Hf; [congruence|].
  destruct (kahns_ok_spec _ _ (build_wf txs) Hk) as (groups & -> & _ & HL & _ & Hset).
  assert (Hin : forall y, y ∈ txs -> at_hash y ∈ nodes groups).
  { intros y Hy. apply (elem_of_list_to_set (C := gset Hash)). rewrite Hset, build_nodes.
    apply elem_of_list_to_set, list_elem_of_fmap. eauto. }
  split.
  - intros i j x y Hlt Hi Hj Hs Hint. eapply layered_runs_before; [done| |].
    + by eapply tc_once, interfering_edge.
    + by eapply Hin, list_elem_of_lookup_2.
  - intros x y Hx Hy Hs Hlt. eapply layered_runs_before; [done| |by apply Hin].
    by apply nonce_path.
Qed.

Lemma sequential_flatten (hs : list Hash) : flatten (sequential hs) = hs.
Proof.
  unfold flatten, sequential. simpl. rewrite fmap_imap.
  assert (H : forall f : nat -> Hash -> list Hash, (forall i h, f i h = [h]) ->
            concat (imap f hs) = hs).
  { induction hs as [|h hs IH]; intros f Hf; [done|]. rewrite imap_cons. simpl.
    rewrite Hf, IH; [done|]. intros i x. apply Hf. }
  by apply H.
Qed.

(** C32 (liveness): a batch of distinct transactions in which every sender's
    nonces appear in order is never refused because of a cycle: the service
    returns (it does not run out of rounds), it does not panic, a refusal is
    only about the size of the batch or of the graph, and an accepted batch is
    scheduled exactly, each transaction once. *)
Theorem nonce_ordered_batch_scheduled c txs :
  NoDup (at_hash <$> txs) -> nonce_ordered txs ->
  match order_transactions c txs with
  | Some (Ok s) => flatten s ≡ₚ at_hash <$> txs
  | Some (Err EmptyBatch) => txs = []
  | Some (Err (BatchTooLarge n m)) => n = length txs /\ m = oc_max_batch_size c /\ m < n
  | Some (Err (TooManyEdges n m)) => m = oc_max_edge_count c /\ m < n
  | _ => False
  end.
Proof.
  intros HN HO. unfold order_transactions, validate_batch.
  case_bool_decide as E; [by destruct txs|].
  destruct (Nat.ltb_spec (oc_max_batch_size c) (length txs)); [done|].
  destruct (should_fallback _ _ _); [by rewrite sequential_flatten|].
  destruct (Nat.ltb_spec (oc_max_edge_count c) (edge_count (build_dependency_graph txs))); [done|].
  destruct (kahns_total _ (build_wf txs)) as [[Hc _]|[_ [s Hs]]].
  { exfalso. by apply (ordered_batch_acyclic txs). }
  rewrite Hs. destruct (kahns_ok_spec _ _ (build_wf txs) Hs) as (groups & -> & HNg & _ & _ & Hset).
  change (flatten (schedule_new groups)) with (nodes groups).
  apply NoDup_Permutation; [done|done|]. intros h.
  rewrite <- (elem_of_list_to_set (C := gset Hash) h (nodes groups)), Hset, build_nodes.
  apply elem_of_list_to_set.
Qed.

(** ** Concrete batches *)

Definition slot (k : Z) : StorageLocation := {| sl_address := 7; sl_key := k |}.

Definition pattern (reads writes : list StorageLocation) : AccessPattern := {|
  ap_reads := list_to_set reads; ap_writes := list_to_set writes;
  ap_balance_reads := ∅; ap_balance_writes := ∅
|}.

Definition annotated (h : Hash) (sender : Address) (nonce : u64) (p : AccessPattern)
  : AnnotatedTransaction := {|
  at_hash := h; at_sender := sender; at_nonce := nonce; at_access_pattern := p;
  at_estimated_gas := 21000; at_timestamp := 0
|}.

(** A writer, a reader of the same slot, the writer's next transaction, and an
    unrelated one. *)
Definition sample_batch : list AnnotatedTransaction :=
  [ annotated 10 1 0 (pattern [] [slot 1]); annotated 11 2 5 (pattern [slot 1] []);
    annotated 12 1 1 (pattern [] [slot 2]); annotated 13 3 0 (pattern [] [slot 3]) ].

Definition sample_dep (a b : Hash) : Dependency :=
  {| dep_from := a; dep_to := b; dep_kind := NonceOrder; dep_location := None |}.

Definition sample_graph : DependencyGraph :=
  add_edge (add_node (add_node graph_new (annotated 1 1 0 (pattern [] [])))
              (annotated 2 1 1 (pattern [] []))) (sample_dep 1 2).

Lemma sample_graph_reachable : graph_reachable sample_graph.
Proof.
  eapply star_step; [constructor|]. eapply star_step; [constructor|].
  eapply star_step; [|constructor]. constructor; apply (bool_decide_unpack _); vm_compute; exact I.
Defined.

Lemma kahns_schedule_ok_witness :
  exists s, kahns_topological_sort sample_graph = Some (Ok s) /\ schedule_ok sample_graph s.
Proof.
  eexists. split; [vm_compute; reflexivity|].
  apply kahns_schedule_ok; [apply sample_graph_reachable|vm_compute; reflexivity].
Defined.

(** Adding the reverse edge makes a cycle. *)
Lemma kahns_detects_cycles_witness :
  kahns_topological_sort (add_edge sample_graph (sample_dep 2 1)) = Some (Err CycleDetected) /\
  cyclic (add_edge sample_graph (sample_dep 2 1)).
Proof.
  assert (E : kahns_topological_sort (add_edge sample_graph (sample_dep 2 1)) =
              Some (Err CycleDetected)) by (vm_compute; reflexivity).
  split; [exact E|].
  destruct (kahns_detects_cycles (add_edge sample_graph (sample_dep 2 1))) as [[H _]|[_ [s Hs]]].
  - eapply star_trans; [apply sample_graph_reachable|]. eapply star_step; [|constructor].
    constructor; apply (bool_decide_unpack _); vm_compute; exact I.
  - exact H.
  - rewrite E in Hs. discriminate Hs.
Defined.

Lemma cycle_checks_agree_witness :
  invariant_no_cycles sample_graph = Some true /\ ~ cyclic sample_graph.
Proof.
  assert (E : invariant_no_cycles sample_graph = Some true) by (vm_compute; reflexivity).
  destruct (cycle_checks_agree sample_graph) as [(_ & H & _)|(H & _)].
  - apply sample_graph_reachable.
  - split; [exact E|exact H].
  - rewrite E in H. discriminate H.
Defined.

Lemma order_transactions_orders_conflicts_witness :
  exists s, order_transactions default_config sample_batch = Some (Ok s) /\
    runs_before s 10 12.
Proof.
  destruct (order_transactions default_config sample_batch) as [[s| |]|] eqn:E;
    [|vm_compute in E; discriminate E..].
  exists s. split; [reflexivity|].
  destruct (order_transactions_orders_conflicts default_config sample_batch s E) as [_ H].
  - vm_compute. reflexivity.
  - apply (H (annotated 10 1 0 (pattern [] [slot 1])) (annotated 12 1 1 (pattern [] [slot 2])));
      [left|right; right; left|reflexivity|reflexivity].
Defined.

Lemma nonce_ordered_batch_scheduled_witness :
  exists s, order_transactions default_config sample_batch = Some (Ok s) /\
    flatten s ≡ₚ [10; 11; 12; 13]%Z.
Proof.
  pose proof (nonce_ordered_batch_scheduled default_config sample_batch) as H.
  destruct (order_transactions default_config sample_batch) as [[s| |]|] eqn:E;
    [|vm_compute in E; discriminate E..].
  exists s. split; [reflexivity|]. apply H.
  - apply (bool_decide_unpack _). vm_compute. exact I.
  - intros x y Hxy. unfold nonce_le.
    repeat (apply elem_of_cons in Hxy as [[= -> ->]|Hxy]; [simpl; lia|]).
    by apply elem_of_nil in Hxy.
Defined.

(** ** Limits of the implementation *)

(** The sequential fallback keeps the order of the batch, not the
    order of the nonces: two transactions of one sender listed with the higher
    nonce first exceed the default conflict threshold (one conflict out of one
    pair) and are scheduled with the higher nonce first. *)
Theorem sequential_fallback_ignores_nonces :
  exists x y s, at_sender x = at_sender y /\ (at_nonce x < at_nonce y)%Z /\
    order_transactions default_config [y; x] = Some (Ok s) /\
    runs_before s (at_hash y) (at_hash x).
Proof.
  exists (annotated 1 1 0 (pattern [] [])), (annotated 2 1 1 (pattern [] [])).
  eexists. split_and!; [done|done|vm_compute; reflexivity|].
  exists 0, 1. do 2 eexists. split_and!; [lia|done|done|left|left].
Qed.

(** The conflict analysis looks at storage slots only.  Two
    transactions of different senders that both write the balance of the same
    address carry that in [balance_writes], but get no edge and share a
    parallel group. *)
Theorem balance_conflicts_ignored :
  exists x y s grp, at_sender x <> at_sender y /\
    ap_balance_writes (at_access_pattern x) = ap_balance_writes (at_access_pattern y) /\
    ap_balance_writes (at_access_pattern x) <> ∅ /\
    order_transactions default_config [x; y] = Some (Ok s) /\
    grp ∈ parallel_groups s /\ at_hash x ∈ pg_transactions grp /\ at_hash y ∈ pg_transactions grp.
Proof.
  set (p := {| ap_reads := ∅; ap_writes := ∅; ap_balance_reads := ∅;
               ap_balance_writes := {[9%Z]} |}).
  exists (annotated 1 1 0 p), (annotated 2 2 0 p). do 2 eexists.
  split_and!; [done|done|by intros E; vm_compute in E|vm_compute; reflexivity|left|left|right; left].
Qed.
