(* ===== verification/Finality.v ===== *)
(** * Finality: checkpoints, attestations and the Casper FFG service

    Models [crates/qc-09-finality/src/]: the domain entities
    ([domain/checkpoint.rs], [attestation.rs], [validator.rs],
    [circuit_breaker.rs], [proof.rs]), the service state ([state.rs]) and the
    service ([service.rs]).

    The ports are parameters: the signature verifier and the validator-set
    provider are functions, the answer of block storage is an argument of the
    call that asks for it.  [BitVec] belongs to the [bitvec] crate and is the
    interface [BitVecOps].  The state sits behind one [RwLock]; each section of
    the code between an acquisition of the lock and its release is a function
    of the state here, and the service calls are their composition. *)

From S2P Require Import Prelude.
Local Open Scope Z_scope.
Local Open Scope qc_scope.

(** ** The interface of the [bitvec] crate *)

Class BitVecOps : Type := {
  BitVec : Type;
  bv_zeros : nat -> BitVec;
  bv_len : BitVec -> nat;
  bv_get : BitVec -> nat -> option bool;
  bv_set : BitVec -> nat -> bool -> BitVec;
  bv_into_vec : BitVec -> list u8
}.

Class BitVecLaws (B : BitVecOps) : Prop := {
  bv_len_zeros n : bv_len (bv_zeros n) = n;
  bv_get_zeros n i : bv_get (bv_zeros n) i = if (i <? n)%nat then Some false else None;
  bv_len_set b i v : bv_len (bv_set b i v) = bv_len b;
  bv_get_set b i v j : (i < bv_len b)%nat ->
    bv_get (bv_set b i v) j = if (j =? i)%nat then Some v else bv_get b j
}.

(** A vector of booleans, most significant bit first; for the witnesses. *)
Fixpoint pack_bits (fuel : nat) (l : list bool) : list u8 :=
  match fuel, l with
  | S fuel, _ :: _ =>
      foldl (fun acc b => acc * 2 + Z.b2z b) 0 (resize 8 false l) :: pack_bits fuel (drop 8 l)
  | _, _ => []
  end.

Definition list_bitvec : BitVecOps := {|
  BitVec := list bool;
  bv_zeros n := replicate n false;
  bv_len := length;
  bv_get b i := b !! i;
  bv_set b i v := <[i := v]> b;
  bv_into_vec b := pack_bits (length b) b
|}.

Lemma list_bitvec_laws : BitVecLaws list_bitvec.
Proof.
  split; simpl.
  - intros n. apply length_replicate.
  - intros n i. destruct (Nat.ltb_spec i n); [by apply lookup_replicate_2|].
    apply lookup_ge_None. by rewrite length_replicate.
  - intros b i v. apply length_insert.
  - intros b i v j Hi. destruct (Nat.eqb_spec j i) as [->|Hne].
    + by apply list_lookup_insert_eq.
    + by rewrite list_lookup_insert_ne.
Qed.

(** ** [checkpoint.rs] *)

Abbreviation ValidatorId := Z (only parsing).
Abbreviation BlsSignature := (list Z) (only parsing).

Record CheckpointId := { id_epoch : u64; id_block_hash : Hash }.

#[export] Instance checkpoint_id_eq_dec : EqDecision CheckpointId.
Proof. solve_decision. Defined.

#[export] Program Instance checkpoint_id_countable : Countable CheckpointId :=
  inj_countable' (fun i => (id_epoch i, id_block_hash i))
                 (fun '(e, h) => Build_CheckpointId e h) _.
Next Obligation. by intros []. Qed.

Inductive CheckpointState := Pending | Justified | Finalized.

Record Checkpoint := {
  cp_epoch : u64;
  cp_block_hash : Hash;
  cp_block_height : u64;
  cp_state : CheckpointState;
  cp_attested_stake : u128;
  cp_total_stake : u128
}.

Definition checkpoint_new (epoch : u64) (block_hash : Hash) (block_height : u64) : Checkpoint := {|
  cp_epoch := epoch; cp_block_hash := block_hash; cp_block_height := block_height;
  cp_state := Pending; cp_attested_stake := 0; cp_total_stake := 0
|}.

Definition with_total_stake (c : Checkpoint) (total_stake : u128) : Checkpoint := {|
  cp_epoch := cp_epoch c; cp_block_hash := cp_block_hash c;
  cp_block_height := cp_block_height c; cp_state := cp_state c;
  cp_attested_stake := cp_attested_stake c; cp_total_stake := total_stake
|}.

Definition checkpoint_id (c : Checkpoint) : CheckpointId :=
  {| id_epoch := cp_epoch c; id_block_hash := cp_block_hash c |}.

(** [self.state >= CheckpointState::Justified] in the derived order. *)
Definition is_justified (c : Checkpoint) : bool :=
  match cp_state c with Pending => false | Justified | Finalized => true end.

Definition is_finalized (c : Checkpoint) : bool :=
  match cp_state c with Finalized => true | _ => false end.

(** The stake a checkpoint needs; the same expression is
    [ValidatorSet::required_stake]. *)
Definition required_stake (total_stake : u128) : u128 :=
  match checked_mul 128 total_stake 2 with
  | Some v => v / 3 + 1
  | None => saturating_add 128 (saturating_mul 128 (total_stake / 3) 2) 1
  end.

Definition check_justification_threshold (c : Checkpoint) : bool :=
  if cp_total_stake c =? 0 then false
  else required_stake (cp_total_stake c) <=? cp_attested_stake c.

Definition set_attested_stake (c : Checkpoint) (stake : u128) : Checkpoint := {|
  cp_epoch := cp_epoch c; cp_block_hash := cp_block_hash c;
  cp_block_height := cp_block_height c; cp_state := cp_state c;
  cp_attested_stake := stake; cp_total_stake := cp_total_stake c
|}.

Definition set_state (c : Checkpoint) (state : CheckpointState) : Checkpoint := {|
  cp_epoch := cp_epoch c; cp_block_hash := cp_block_hash c;
  cp_block_height := cp_block_height c; cp_state := state;
  cp_attested_stake := cp_attested_stake c; cp_total_stake := cp_total_stake c
|}.

Definition add_attestation_stake (c : Checkpoint) (stake : u128) : Checkpoint * bool :=
  let c := set_attested_stake c (saturating_add 128 (cp_attested_stake c) stake) in
  (c, check_justification_threshold c).

Definition try_justify (c : Checkpoint) : Checkpoint * bool :=
  match cp_state c with
  | Pending => if check_justification_threshold c then (set_state c Justified, true) else (c, false)
  | _ => (c, false)
  end.

Definition finalize (c : Checkpoint) : Checkpoint * bool :=
  match cp_state c with
  | Justified => (set_state c Finalized, true)
  | _ => (c, false)
  end.

(** ** [attestation.rs] *)

Record Attestation := {
  validator_id : ValidatorId;
  source_checkpoint : CheckpointId;
  target_checkpoint : CheckpointId;
  signature : BlsSignature;
  slot : u64
}.

Definition signing_message (a : Attestation) : list u8 :=
  le_bytes 8 (id_epoch (source_checkpoint a)) ++ hash_bytes (id_block_hash (source_checkpoint a)) ++
  le_bytes 8 (id_epoch (target_checkpoint a)) ++ hash_bytes (id_block_hash (target_checkpoint a)) ++
  le_bytes 8 (slot a).

Definition conflicts_with (self other : Attestation) : bool :=
  if negb (validator_id self =? validator_id other) then false
  else if (id_epoch (target_checkpoint self) =? id_epoch (target_checkpoint other)) &&
          negb (id_block_hash (target_checkpoint self) =? id_block_hash (target_checkpoint other))
  then true
  else
    let self_source := id_epoch (source_checkpoint self) in
    let self_target := id_epoch (target_checkpoint self) in
    let other_source := id_epoch (source_checkpoint other) in
    let other_target := id_epoch (target_checkpoint other) in
    if (self_source <? other_source) && (other_target <? self_target) then true
    else if (other_source <? self_source) && (self_target <? other_target) then true
    else false.

Section aggregated.
Context `{BitVecOps}.

Record AggregatedAttestations := {
  ag_source : CheckpointId;
  ag_target : CheckpointId;
  ag_attestations : list Attestation;
  ag_bitmap : BitVec;
  ag_signature : option BlsSignature;
  ag_total_stake : u128
}.

Definition aggregated_new (source target : CheckpointId) (validator_count : nat)
  : AggregatedAttestations := {|
  ag_source := source; ag_target := target; ag_attestations := [];
  ag_bitmap := bv_zeros validator_count; ag_signature := None; ag_total_stake := 0
|}.

Definition add_attestation (g : AggregatedAttestations) (attestation : Attestation)
  (validator_index : nat) (stake : u128) : AggregatedAttestations := {|
  ag_source := ag_source g; ag_target := ag_target g;
  ag_attestations := ag_attestations g ++ [attestation];
  ag_bitmap :=
    if (validator_index <? bv_len (ag_bitmap g))%nat
    then bv_set (ag_bitmap g) validator_index true else ag_bitmap g;
  ag_signature := ag_signature g;
  ag_total_stake := saturating_add 128 (ag_total_stake g) stake
|}.

Definition has_attested (g : AggregatedAttestations) (validator_index : nat) : bool :=
  match bv_get (ag_bitmap g) validator_index with Some b => b | None => false end.

End aggregated.

(** ** [validator.rs] *)

Record Validator := {
  v_id : ValidatorId;
  v_stake : u128;
  v_index : nat;
  v_active : bool;
  v_pubkey : list u8
}.

(** The default key: the identifier followed by 16 zero bytes. *)
Definition validator_new (id : ValidatorId) (stake : u128) (index : nat) : Validator := {|
  v_id := id; v_stake := stake; v_index := index; v_active := true;
  v_pubkey := hash_bytes id ++ replicate 16 0
|}.

Record ValidatorSet := {
  vs_validators : gmap ValidatorId Validator;
  vs_index_to_id : list ValidatorId;
  vs_total_stake : u128;
  vs_epoch : u64
}.

Definition validator_set_new (epoch : u64) : ValidatorSet :=
  {| vs_validators := ∅; vs_index_to_id := []; vs_total_stake := 0; vs_epoch := epoch |}.

Definition add_validator (s : ValidatorSet) (id : ValidatorId) (stake : u128) : ValidatorSet :=
  let index := length (vs_index_to_id s) in {|
  vs_validators := <[id := validator_new id stake index]> (vs_validators s);
  vs_index_to_id := vs_index_to_id s ++ [id];
  vs_total_stake := saturating_add 128 (vs_total_stake s) stake;
  vs_epoch := vs_epoch s
|}.

Definition vs_contains (s : ValidatorSet) (id : ValidatorId) : bool :=
  match vs_validators s !! id with Some _ => true | None => false end.
Definition get_index (s : ValidatorSet) (id : ValidatorId) : option nat :=
  v_index <$> vs_validators s !! id.
Definition get_stake (s : ValidatorSet) (id : ValidatorId) : option u128 :=
  v_stake <$> vs_validators s !! id.
Definition vs_len (s : ValidatorSet) : nat := size (vs_validators s).

(** ** [circuit_breaker.rs] *)

Inductive FinalityState :=
| Running
| Sync (attempt : u8)
| HaltedAwaitingIntervention.

Inductive FinalityEvent :=
| FinalityAchieved
| FinalityFailed
| SyncSuccess
| SyncFailed
| ManualIntervention.

Record CircuitBreaker := {
  cb_state : FinalityState;
  cb_max_sync_attempts : u8;
  cb_consecutive_failures : u64;
  cb_intervention_count : u64
}.

Definition with_max_attempts (max_sync_attempts : u8) : CircuitBreaker := {|
  cb_state := Running; cb_max_sync_attempts := max_sync_attempts;
  cb_consecutive_failures := 0; cb_intervention_count := 0
|}.

Definition circuit_breaker_new : CircuitBreaker := with_max_attempts 3.

Definition is_halted (c : CircuitBreaker) : bool :=
  match cb_state c with HaltedAwaitingIntervention => true | _ => false end.

Definition next_state (c : CircuitBreaker) (event : FinalityEvent) : FinalityState :=
  match cb_state c, event with
  | Running, FinalityAchieved => Running
  | Running, FinalityFailed => Sync 1
  | Sync _, SyncSuccess => Running
  | Sync attempt, SyncFailed =>
      if cb_max_sync_attempts c <=? attempt then HaltedAwaitingIntervention
      else Sync (wrapping_add 8 attempt 1)
  | HaltedAwaitingIntervention, ManualIntervention => Running
  | state, _ => state
  end.

Definition process_event (c : CircuitBreaker) (event : FinalityEvent) : CircuitBreaker := {|
  cb_state := next_state c event;
  cb_max_sync_attempts := cb_max_sync_attempts c;
  cb_consecutive_failures :=
    match event with
    | FinalityFailed | SyncFailed => wrapping_add 64 (cb_consecutive_failures c) 1
    | FinalityAchieved | SyncSuccess | ManualIntervention => 0
    end;
  cb_intervention_count :=
    match event with
    | ManualIntervention => wrapping_add 64 (cb_intervention_count c) 1
    | _ => cb_intervention_count c
    end
|}.

(** ** [error.rs], [types.rs], [events/outgoing.rs], [proof.rs] *)

Inductive FinalityError :=
| SystemHalted
| InvalidSignature (validator_id : ValidatorId)
| UnknownValidator (validator_id : ValidatorId)
| UnknownCheckpoint (epoch : u64)
| ConflictingAttestation
| CheckpointNotFound (epoch : u64)
| UnauthorizedSender (sender_id : u8)
| IpcSecurityViolation (reason : list Z)
| InsufficientAttestations (have need : u128)
| InvalidTransition (from to : list Z)
| StakeQueryFailed (reason : list Z)
| StorageError (reason : list Z)
| AlreadyFinalized (block_hash : Hash)
| EpochMismatch (expected actual : u64).

Record FinalityConfig := {
  epoch_length : u64;
  justification_threshold_percent : u8;
  max_sync_attempts : u8;
  sync_timeout_secs : u64;
  inactivity_leak_epochs : u64;
  inactivity_leak_rate_bps : Z;
  always_reverify_signatures : bool
}.

Definition default_config : FinalityConfig := {|
  epoch_length := 32; justification_threshold_percent := 66; max_sync_attempts := 10;
  sync_timeout_secs := 5; inactivity_leak_epochs := 4; inactivity_leak_rate_bps := 100;
  always_reverify_signatures := false
|}.

Inductive SlashableOffenseType := DoubleVote | SurroundVote.

Record SlashableOffense := {
  so_validator_id : ValidatorId;
  so_offense_type : SlashableOffenseType;
  so_attestation1 : Attestation;
  so_attestation2 : Attestation;
  so_detected_epoch : u64
}.

Record SlashableOffenseDetectedEvent := {
  se_validator_id : ValidatorId;
  se_offense_type : SlashableOffenseType;
  se_attestation1_source : CheckpointId;
  se_attestation1_target : CheckpointId;
  se_attestation2_source : CheckpointId;
  se_attestation2_target : CheckpointId;
  se_detected_epoch : u64;
  se_recommended_slash_percent : u8
}.

Record InactivityLeakTriggeredEvent := {
  le_epoch : u64;
  le_epochs_without_finality : u64;
  le_leak_rate_bps : Z
}.

Record ProofCheckpoint := {
  pc_epoch : u64;
  pc_block_hash : Hash;
  pc_block_height : u64
}.

Definition proof_checkpoint (c : Checkpoint) : ProofCheckpoint := {|
  pc_epoch := cp_epoch c; pc_block_hash := cp_block_hash c; pc_block_height := cp_block_height c
|}.

Record FinalityProof := {
  fp_source : ProofCheckpoint;
  fp_target : ProofCheckpoint;
  fp_signature : BlsSignature;
  fp_bitmap : list u8;
  fp_participating_stake : u128;
  fp_total_stake : u128
}.

(** [(self.total_stake * 2) / 3 + 1] at 128 bits. *)
Definition is_valid_threshold (p : FinalityProof) : bool :=
  if fp_total_stake p =? 0 then false
  else wrapping_add 128 (wrapping_mul 128 (fp_total_stake p) 2 / 3) 1
       <=? fp_participating_stake p.

Record MarkFinalizedRequest := {
  mf_correlation_id : u128;
  mf_block_hash : Hash;
  mf_block_height : u64;
  mf_finalized_epoch : u64;
  mf_finality_proof : FinalityProof
}.

(** ** [state.rs] *)

Section state.
Context `{BitVecOps}.

Record FinalityServiceState := {
  circuit_breaker : CircuitBreaker;
  checkpoints : gmap u64 Checkpoint;
  attestations : gmap CheckpointId AggregatedAttestations;
  finalized_blocks : gmap Hash u64;
  last_finalized : option Checkpoint;
  last_justified : option Checkpoint;
  current_epoch : u64;
  current_height : u64;
  epochs_without_finality : u64;
  attestation_history : gmap ValidatorId (list Attestation);
  slashable_offenses : list SlashableOffense;
  pending_slashing_events : list SlashableOffenseDetectedEvent;
  pending_inactivity_events : list InactivityLeakTriggeredEvent;
  max_checkpoints : nat
}.

Definition state_new : FinalityServiceState := {|
  circuit_breaker := circuit_breaker_new; checkpoints := ∅; attestations := ∅;
  finalized_blocks := ∅; last_finalized := None; last_justified := None; current_epoch := 0;
  current_height := 0; epochs_without_finality := 0; attestation_history := ∅;
  slashable_offenses := []; pending_slashing_events := []; pending_inactivity_events := [];
  max_checkpoints := 128
|}.

(** Updates of the fields the operations write together. *)
Definition with_breaker (s : FinalityServiceState) (b : CircuitBreaker) : FinalityServiceState := {|
  circuit_breaker := b; checkpoints := checkpoints s; attestations := attestations s;
  finalized_blocks := finalized_blocks s; last_finalized := last_finalized s;
  last_justified := last_justified s; current_epoch := current_epoch s;
  current_height := current_height s; epochs_without_finality := epochs_without_finality s;
  attestation_history := attestation_history s; slashable_offenses := slashable_offenses s;
  pending_slashing_events := pending_slashing_events s;
  pending_inactivity_events := pending_inactivity_events s; max_checkpoints := max_checkpoints s
|}.

Definition with_votes (s : FinalityServiceState) (cs : gmap u64 Checkpoint)
  (ats : gmap CheckpointId AggregatedAttestations) (lj : option Checkpoint)
  : FinalityServiceState := {|
  circuit_breaker := circuit_breaker s; checkpoints := cs; attestations := ats;
  finalized_blocks := finalized_blocks s; last_finalized := last_finalized s;
  last_justified := lj; current_epoch := current_epoch s;
  current_height := current_height s; epochs_without_finality := epochs_without_finality s;
  attestation_history := attestation_history s; slashable_offenses := slashable_offenses s;
  pending_slashing_events := pending_slashing_events s;
  pending_inactivity_events := pending_inactivity_events s; max_checkpoints := max_checkpoints s
|}.

Definition with_finalized (s : FinalityServiceState) (cs : gmap u64 Checkpoint)
  (fb : gmap Hash u64) (lf : option Checkpoint) : FinalityServiceState := {|
  circuit_breaker := circuit_breaker s; checkpoints := cs; attestations := attestations s;
  finalized_blocks := fb; last_finalized := lf;
  last_justified := last_justified s; current_epoch := current_epoch s;
  current_height := current_height s; epochs_without_finality := epochs_without_finality s;
  attestation_history := attestation_history s; slashable_offenses := slashable_offenses s;
  pending_slashing_events := pending_slashing_events s;
  pending_inactivity_events := pending_inactivity_events s; max_checkpoints := max_checkpoints s
|}.

Definition with_epochs (s : FinalityServiceState) (epoch ewf : u64)
  (leaks : list InactivityLeakTriggeredEvent) : FinalityServiceState := {|
  circuit_breaker := circuit_breaker s; checkpoints := checkpoints s;
  attestations := attestations s; finalized_blocks := finalized_blocks s;
  last_finalized := last_finalized s; last_justified := last_justified s;
  current_epoch := epoch; current_height := current_height s; epochs_without_finality := ewf;
  attestation_history := attestation_history s; slashable_offenses := slashable_offenses s;
  pending_slashing_events := pending_slashing_events s;
  pending_inactivity_events := leaks; max_checkpoints := max_checkpoints s
|}.

Definition with_slashing (s : FinalityServiceState) (hist : gmap ValidatorId (list Attestation))
  (offenses : list SlashableOffense) (events : list SlashableOffenseDetectedEvent)
  : FinalityServiceState := {|
  circuit_breaker := circuit_breaker s; checkpoints := checkpoints s;
  attestations := attestations s; finalized_blocks := finalized_blocks s;
  last_finalized := last_finalized s; last_justified := last_justified s;
  current_epoch := current_epoch s; current_height := current_height s;
  epochs_without_finality := epochs_without_finality s; attestation_history := hist;
  slashable_offenses := offenses; pending_slashing_events := events;
  pending_inactivity_events := pending_inactivity_events s; max_checkpoints := max_checkpoints s
|}.

Definition is_inactivity_leak_active (s : FinalityServiceState) (config : FinalityConfig) : bool :=
  inactivity_leak_epochs config <=? epochs_without_finality s.

Definition prune_old_checkpoints (s : FinalityServiceState) : FinalityServiceState :=
  if (size (checkpoints s) <=? max_checkpoints s)%nat then s
  else
    let last_finalized_epoch :=
      match last_finalized s with Some c => cp_epoch c | None => 0 end in
    let min_keep_epoch := saturating_sub last_finalized_epoch 2 in
    with_votes s
      (base.filter (fun kv : u64 * Checkpoint => min_keep_epoch <= kv.1) (checkpoints s))
      (base.filter (fun kv : CheckpointId * AggregatedAttestations =>
                      min_keep_epoch <= id_epoch kv.1) (attestations s))
      (last_justified s).

Definition MAX_HISTORY : nat := 64.

(** [while history.len() >= MAX_HISTORY { history.pop_front(); }] *)
Definition pop_to_limit (history : list Attestation) : list Attestation :=
  drop (length history - (MAX_HISTORY - 1)) history.

Definition record_attestation (s : FinalityServiceState) (attestation : Attestation)
  : FinalityServiceState :=
  let history := default [] (attestation_history s !! validator_id attestation) in
  with_slashing s
    (<[validator_id attestation := pop_to_limit history ++ [attestation]]> (attestation_history s))
    (slashable_offenses s) (pending_slashing_events s).

Definition get_or_create_checkpoint (s : FinalityServiceState) (target : Checkpoint)
  (total_stake : u128) : FinalityServiceState * Checkpoint :=
  match checkpoints s !! cp_epoch target with
  | Some c => (s, c)
  | None =>
      let c := with_total_stake (checkpoint_new (cp_epoch target) (cp_block_hash target) 0)
                 total_stake in
      (with_votes s (<[cp_epoch target := c]> (checkpoints s)) (attestations s)
         (last_justified s), c)
  end.

(** Returns (accepted, newly justified checkpoint). *)
Definition apply_attestation (s : FinalityServiceState) (attestation : Attestation)
  (validators : ValidatorSet) (stake : u128)
  : FinalityServiceState * (bool * option Checkpoint) :=
  let s := record_attestation s attestation in
  let target := target_checkpoint attestation in
  let temp_checkpoint := checkpoint_new (id_epoch target) (id_block_hash target) 0 in
  let '(s, _) := get_or_create_checkpoint s temp_checkpoint (vs_total_stake validators) in
  let agg := match attestations s !! target with
             | Some agg => agg
             | None => aggregated_new (source_checkpoint attestation) target (vs_len validators)
             end in
  let s := with_votes s (checkpoints s) (<[target := agg]> (attestations s)) (last_justified s) in
  match get_index validators (validator_id attestation) with
  | None => (s, (false, None))
  | Some idx =>
      if has_attested agg idx then (s, (false, None))
      else
        let agg := add_attestation agg attestation idx stake in
        let s := with_votes s (checkpoints s) (<[target := agg]> (attestations s))
                   (last_justified s) in
        match checkpoints s !! id_epoch target with
        | None => (s, (true, None))
        | Some cp =>
            let '(cp, _) := add_attestation_stake cp stake in
            let '(cp, justified) := try_justify cp in
            let cs := <[id_epoch target := cp]> (checkpoints s) in
            if justified then (with_votes s cs (attestations s) (Some cp), (true, Some cp))
            else (with_votes s cs (attestations s) (last_justified s), (true, None))
        end
  end.

Definition take_slashing_events (s : FinalityServiceState)
  : FinalityServiceState * list SlashableOffenseDetectedEvent :=
  (with_slashing s (attestation_history s) (slashable_offenses s) [], pending_slashing_events s).

Definition take_inactivity_events (s : FinalityServiceState)
  : FinalityServiceState * list InactivityLeakTriggeredEvent :=
  (with_epochs s (current_epoch s) (epochs_without_finality s) [], pending_inactivity_events s).

End state.

(** ** [service.rs] *)

(** The byte [byte] of one signature at position [i]: [aggregated[i] ^= byte]
    where [i] is inside the 96 bytes. *)
Definition xor_byte (aggregated : list u8) (ib : nat * u8) : list u8 :=
  let '(i, byte) := ib in
  match aggregated !! i with
  | Some b => <[i := Z.lxor b byte]> aggregated
  | None => aggregated
  end.

Definition aggregate_bls_signatures (attestations : list Attestation) : BlsSignature :=
  match attestations with
  | [] => []
  | _ =>
      foldl (fun aggregated a => foldl xor_byte aggregated (imap pair (signature a)))
        (replicate 96 0) attestations
  end.

Record AttestationResult := {
  ar_accepted : Z;
  ar_rejected : Z;
  ar_new_justified : option Checkpoint;
  ar_new_finalized : option Checkpoint;
  ar_slashing_events : list SlashableOffenseDetectedEvent;
  ar_inactivity_events : list InactivityLeakTriggeredEvent
}.

Definition attestation_result_empty : AttestationResult := {|
  ar_accepted := 0; ar_rejected := 0; ar_new_justified := None; ar_new_finalized := None;
  ar_slashing_events := []; ar_inactivity_events := []
|}.

Section service.
Context `{BitVecOps}.
Variable config : FinalityConfig.
(** The ports [AttestationVerifier] and [ValidatorSetProvider]. *)
Variable verify_attestation : Attestation -> bool.
Variable get_validator_set_at_epoch : u64 -> result FinalityError ValidatorSet.

Definition record_slashable_offense (s : FinalityServiceState) (attestation conflicting : Attestation)
  (epoch : u64) : FinalityServiceState :=
  let offense_type :=
    if id_epoch (target_checkpoint attestation) =? id_epoch (target_checkpoint conflicting)
    then DoubleVote else SurroundVote in
  with_slashing s (attestation_history s)
    (slashable_offenses s ++
       [{| so_validator_id := validator_id attestation; so_offense_type := offense_type;
           so_attestation1 := attestation; so_attestation2 := conflicting;
           so_detected_epoch := epoch |}])
    (pending_slashing_events s ++
       [{| se_validator_id := validator_id attestation; se_offense_type := offense_type;
           se_attestation1_source := source_checkpoint attestation;
           se_attestation1_target := target_checkpoint attestation;
           se_attestation2_source := source_checkpoint conflicting;
           se_attestation2_target := target_checkpoint conflicting;
           se_detected_epoch := epoch; se_recommended_slash_percent := 100 |}]).

Definition check_slashable_conditions (s : FinalityServiceState) (attestation : Attestation)
  (vid : ValidatorId) : FinalityServiceState * result FinalityError unit :=
  let conflict :=
    history ← attestation_history s !! vid;
    head (base.filter (fun prev => conflicts_with attestation prev = true) history) in
  match conflict with
  | Some conflicting =>
      (record_slashable_offense s attestation conflicting
         (id_epoch (target_checkpoint attestation)), Err ConflictingAttestation)
  | None => (s, Ok tt)
  end.

Definition process_single_attestation (s : FinalityServiceState) (attestation : Attestation)
  (validators : ValidatorSet) : FinalityServiceState * result FinalityError (option u128) :=
  let vid := validator_id attestation in
  if negb (vs_contains validators vid) then (s, Err (UnknownValidator vid))
  else if always_reverify_signatures config && negb (verify_attestation attestation) then
    (s, Err (InvalidSignature vid))
  else
    let? (s, _) := check_slashable_conditions s attestation vid in
    match get_stake validators vid with
    | None => (s, Err (UnknownValidator vid))
    | Some stake => (s, Ok (Some stake))
    end.

(** [Err tt] is the rejection [Err(())]. *)
Definition process_attestation_update (s : FinalityServiceState) (attestation : Attestation)
  (validators : ValidatorSet) : FinalityServiceState * result unit (option Checkpoint) :=
  match process_single_attestation s attestation validators with
  | (s, Ok (Some stake)) =>
      let '(s, (was_accepted, justified_checkpoint)) :=
        apply_attestation s attestation validators stake in
      if (was_accepted : bool) then (s, Ok justified_checkpoint) else (s, Err tt)
  | (s, _) => (s, Err tt)
  end.

(** The counters of the batch: accepted, rejected, last justified. *)
Definition batch_step (validators : ValidatorSet)
  (acc : FinalityServiceState * (Z * Z * option Checkpoint)) (attestation : Attestation)
  : FinalityServiceState * (Z * Z * option Checkpoint) :=
  let '(s, (accepted, rejected, new_justified)) := acc in
  match process_attestation_update s attestation validators with
  | (s, Ok (Some cp)) => (s, (accepted + 1, rejected, Some cp))
  | (s, Ok None) => (s, (accepted + 1, rejected, new_justified))
  | (s, _) => (s, (accepted, rejected + 1, new_justified))
  end.

Definition process_attestation_batch (s : FinalityServiceState) (atts : list Attestation)
  (validators : ValidatorSet) : FinalityServiceState * (Z * Z * option Checkpoint) :=
  foldl (batch_step validators) (s, (0, 0, None)) atts.

Definition check_finalization (s : FinalityServiceState)
  : FinalityServiceState * option Checkpoint :=
  match last_justified s with
  | None => (s, None)
  | Some lj =>
      match checked_sub (cp_epoch lj) 1 with
      | None => (s, None)
      | Some prev_epoch =>
          match checkpoints s !! prev_epoch with
          | None => (s, None)
          | Some prev_checkpoint =>
              if is_justified prev_checkpoint then
                let '(finalized, _) := finalize prev_checkpoint in
                (with_finalized s (<[prev_epoch := finalized]> (checkpoints s))
                   (<[cp_block_hash finalized := cp_block_height finalized]> (finalized_blocks s))
                   (Some finalized), Some finalized)
              else (s, None)
          end
      end
  end.

Definition check_and_process_finalization (s : FinalityServiceState) (epoch : u64)
  : FinalityServiceState * option Checkpoint :=
  match check_finalization s with
  | (s, Some finalized) =>
      let s := with_epochs s (current_epoch s) 0 (pending_inactivity_events s) in
      let s := with_breaker s (process_event (circuit_breaker s) FinalityAchieved) in
      (prune_old_checkpoints s, Some finalized)
  | (s, None) =>
      if current_epoch s =? epoch then (s, None)
      else
        let ewf := wrapping_add 64 (epochs_without_finality s) 1 in
        let s := with_epochs s epoch ewf (pending_inactivity_events s) in
        if is_inactivity_leak_active s config then
          (with_epochs s epoch ewf
             (pending_inactivity_events s ++
                [{| le_epoch := epoch; le_epochs_without_finality := ewf;
                    le_leak_rate_bps := inactivity_leak_rate_bps config |}]), None)
        else (s, None)
  end.

(** The request sent to block storage for a finalized checkpoint. *)
Definition finalization_request (s : FinalityServiceState) (correlation_id : u128)
  (checkpoint : Checkpoint) : MarkFinalizedRequest :=
  let source_epoch := saturating_sub (cp_epoch checkpoint) 1 in
  let source := default checkpoint (checkpoints s !! source_epoch) in
  let '(agg_sig, bitmap) :=
    match attestations s !! checkpoint_id checkpoint with
    | Some agg => (aggregate_bls_signatures (ag_attestations agg), ag_bitmap agg)
    | None => ([], bv_zeros 0)
    end in
  {| mf_correlation_id := correlation_id; mf_block_hash := cp_block_hash checkpoint;
     mf_block_height := cp_block_height checkpoint; mf_finalized_epoch := cp_epoch checkpoint;
     mf_finality_proof := {|
       fp_source := proof_checkpoint source; fp_target := proof_checkpoint checkpoint;
       fp_signature := agg_sig; fp_bitmap := bv_into_vec bitmap;
       fp_participating_stake := cp_attested_stake checkpoint;
       fp_total_stake := cp_total_stake checkpoint |} |}.

(** [mark_finalized] is the answer of block storage to this request: [None] is
    [Ok(())] and [Some e] is [Err(e)]. *)
Definition handle_finalization_notification
  (mark_finalized : MarkFinalizedRequest -> option FinalityError) (correlation_id : u128)
  (s : FinalityServiceState) (finalized : Checkpoint) : FinalityServiceState :=
  match mark_finalized (finalization_request s correlation_id finalized) with
  | None => s
  | Some _ => with_breaker s (process_event (circuit_breaker s) FinalityFailed)
  end.

Definition process_attestations
  (mark_finalized : MarkFinalizedRequest -> option FinalityError) (correlation_id : u128)
  (s : FinalityServiceState) (atts : list Attestation)
  : FinalityServiceState * result FinalityError AttestationResult :=
  if is_halted (circuit_breaker s) then (s, Err SystemHalted)
  else
    match atts with
    | [] => (s, Ok attestation_result_empty)
    | first :: _ =>
        let epoch := id_epoch (target_checkpoint first) in
        let? (s, validators) := (s, get_validator_set_at_epoch epoch) in
        let '(s, (accepted, rejected, new_justified)) :=
          process_attestation_batch s atts validators in
        let '(s, new_finalized) := check_and_process_finalization s epoch in
        let s := match new_finalized with
                 | Some finalized =>
                     handle_finalization_notification mark_finalized correlation_id s finalized
                 | None => s
                 end in
        let '(s, slashing_events) := take_slashing_events s in
        let '(s, inactivity_events) := take_inactivity_events s in
        (s, Ok {| ar_accepted := accepted; ar_rejected := rejected;
                  ar_new_justified := new_justified; ar_new_finalized := new_finalized;
                  ar_slashing_events := slashing_events;
                  ar_inactivity_events := inactivity_events |})
    end.

Definition reset_from_halted (s : FinalityServiceState)
  : FinalityServiceState * result FinalityError unit :=
  if negb (is_halted (circuit_breaker s)) then (s, Ok tt)
  else (with_breaker s (process_event (circuit_breaker s) ManualIntervention), Ok tt).

End service.
