(* ===== verification/FinalityFacts.v ===== *)
(** * Facts about the finality state

    The arithmetic of the two-thirds threshold, the votes recorded for an epoch
    ([votes_of]) and how the operations change them, and the validator sets the
    providers build ([vs_reachable]). *)

From S2P Require Import Prelude Finality.
Local Open Scope Z_scope.

(** ** Sums *)

Definition sumZ (l : list Z) : Z := foldr Z.add 0 l.

Lemma sumZ_app l k : sumZ (l ++ k) = sumZ l + sumZ k.
Proof. induction l as [|x l IH]; simpl; [done|]. rewrite IH. lia. Qed.

#[export] Instance sumZ_perm : Proper ((≡ₚ) ==> (=)) sumZ.
Proof. induction 1; simpl in *; lia. Qed.

Lemma sumZ_nonneg l : Forall (fun x => 0 <= x) l -> 0 <= sumZ l.
Proof. induction 1; simpl in *; lia. Qed.

(** A chain of saturating additions. *)
Definition saturated (x : Z) : u128 := Z.min (2 ^ 128 - 1) x.

Lemma saturated_add x y : 0 <= x -> 0 <= y ->
  saturating_add 128 (saturated x) y = saturated (x + y).
Proof. unfold saturating_add, saturated. lia. Qed.

(** ** The threshold *)

Lemma required_stake_exact t : 0 <= t < 2 ^ 127 -> required_stake t = 2 * t / 3 + 1.
Proof.
  intros Ht. unfold required_stake, checked_mul.
  rewrite (proj2 (Z.ltb_lt _ _)) by lia. by rewrite Z.mul_comm.
Qed.

Lemma required_stake_large t : 2 ^ 127 <= t < 2 ^ 128 -> required_stake t = 2 * (t / 3) + 1.
Proof.
  intros Ht. unfold required_stake, checked_mul.
  rewrite (proj2 (Z.ltb_ge _ _)) by lia. unfold saturating_add, saturating_mul.
  assert (t / 3 < 2 ^ 127) by (apply Z.div_lt_upper_bound; lia). lia.
Qed.

Lemma two_thirds t a : 2 * t / 3 + 1 <= a <-> 2 * t < 3 * a.
Proof.
  pose proof (Z.div_mod (2 * t) 3) as E. pose proof (Z.mod_pos_bound (2 * t) 3). lia.
Qed.

Lemma threshold_iff c : 0 <= cp_total_stake c < 2 ^ 127 ->
  check_justification_threshold c = true <->
  cp_total_stake c <> 0 /\ 2 * cp_total_stake c < 3 * cp_attested_stake c.
Proof.
  intros Ht. unfold check_justification_threshold.
  destruct (Z.eqb_spec (cp_total_stake c) 0); [by split; [|tauto]|].
  rewrite Z.leb_le, required_stake_exact, two_thirds by done. tauto.
Qed.

Lemma threshold_mono c a : check_justification_threshold c = true ->
  cp_attested_stake c <= a -> check_justification_threshold (set_attested_stake c a) = true.
Proof.
  unfold check_justification_threshold. simpl. case_match; [done|].
  rewrite !Z.leb_le. lia.
Qed.

(** ** Validator sets *)

(** The sets the providers build: distinct validators, added one by one. *)
Inductive add_step : relation ValidatorSet :=
| add_step_intro s id stake : vs_validators s !! id = None -> 0 <= stake ->
    add_step s (add_validator s id stake).

Definition vs_reachable (s : ValidatorSet) : Prop :=
  exists epoch, star add_step (validator_set_new epoch) s.

Record vs_wf (s : ValidatorSet) : Prop := {
  vw_len : length (vs_index_to_id s) = vs_len s;
  vw_index id v : vs_validators s !! id = Some v -> vs_index_to_id s !! v_index v = Some id;
  vw_stake id v : vs_validators s !! id = Some v -> 0 <= v_stake v;
  vw_total : vs_total_stake s =
    saturated (sumZ ((fun kv => v_stake kv.2) <$> map_to_list (vs_validators s)))
}.

Lemma vs_stakes_nonneg s : vs_wf s ->
  0 <= sumZ ((fun kv => v_stake kv.2) <$> map_to_list (vs_validators s)).
Proof.
  intros [_ _ HS _]. apply sumZ_nonneg, Forall_fmap, Forall_forall. intros [id v] Hin.
  apply elem_of_map_to_list in Hin. by apply (HS id).
Qed.

Lemma add_validator_wf s id stake : vs_wf s -> vs_validators s !! id = None -> 0 <= stake ->
  vs_wf (add_validator s id stake).
Proof.
  intros WF Hid Hs. pose proof (vs_stakes_nonneg s WF) as Hnn. destruct WF as [HL HI HS HT].
  split; cbn [add_validator vs_index_to_id vs_validators vs_total_stake].
  - rewrite length_app. unfold vs_len in *. cbn [vs_validators add_validator].
    rewrite map_size_insert_None, HL by done. apply Nat.add_1_r.
  - intros id' v. destruct (decide (id = id')) as [<-|Hne].
    + rewrite lookup_insert_eq. intros [= <-]. simpl.
      rewrite lookup_app_r, Nat.sub_diag; done.
    + rewrite lookup_insert_ne by done. intros Hv. apply HI in Hv.
      by apply lookup_app_l_Some.
  - intros id' v. destruct (decide (id = id')) as [<-|Hne].
    + rewrite lookup_insert_eq. by intros [= <-].
    + rewrite lookup_insert_ne by done. by apply HS.
  - rewrite (map_to_list_insert _ _ _ Hid). simpl. rewrite HT, saturated_add by done.
    f_equal. apply Z.add_comm.
Qed.

Lemma vs_reachable_wf s : vs_reachable s -> vs_wf s.
Proof.
  intros [epoch Hs]. eapply (star_invariant add_step vs_wf); [| |exact Hs].
  - intros s1 s2 WF Hst. destruct Hst. by apply add_validator_wf.
  - by split.
Qed.

Lemma get_index_bound s id i : vs_wf s -> get_index s id = Some i -> (i < vs_len s)%nat.
Proof.
  intros WF. unfold get_index. destruct (vs_validators s !! id) as [v|] eqn:Ev; [|done].
  intros [= <-]. rewrite <- (vw_len s WF). by eapply lookup_lt_Some, vw_index.
Qed.

Lemma get_index_inj s id1 id2 i : vs_wf s ->
  get_index s id1 = Some i -> get_index s id2 = Some i -> id1 = id2.
Proof.
  intros WF. unfold get_index.
  destruct (vs_validators s !! id1) as [v1|] eqn:E1, (vs_validators s !! id2) as [v2|] eqn:E2;
    try done. intros [= H1] [= H2]. pose proof (vw_index s WF _ _ E1). pose proof (vw_index s WF _ _ E2).
  congruence.
Qed.

Lemma get_stake_nonneg s id x : vs_wf s -> get_stake s id = Some x -> 0 <= x.
Proof.
  intros WF. unfold get_stake. destruct (vs_validators s !! id) as [v|] eqn:E; [|done].
  intros [= <-]. by eapply vw_stake.
Qed.

Lemma get_stake_index s id x : get_stake s id = Some x -> is_Some (get_index s id).
Proof. unfold get_stake, get_index. by destruct (vs_validators s !! id). Qed.

(** ** The votes recorded for an epoch *)

Section votes.
Context `{BitVecOps}.

Definition votes_of (m : gmap CheckpointId AggregatedAttestations) (e : u64) : list Attestation :=
  concat ((fun kv => ag_attestations kv.2) <$>
            base.filter (fun kv : CheckpointId * AggregatedAttestations => id_epoch kv.1 = e)
              (map_to_list m)).

Lemma votes_of_insert_new m id g e : m !! id = None ->
  votes_of (<[id := g]> m) e ≡ₚ
    (if decide (id_epoch id = e) then ag_attestations g else []) ++ votes_of m e.
Proof.
  intros Hid. unfold votes_of.
  assert (Hp : forall l1 l2 : list (CheckpointId * AggregatedAttestations), l1 ≡ₚ l2 ->
    concat ((fun kv => ag_attestations kv.2) <$>
       base.filter (fun kv : CheckpointId * AggregatedAttestations => id_epoch kv.1 = e) l1) ≡ₚ
    concat ((fun kv => ag_attestations kv.2) <$>
       base.filter (fun kv : CheckpointId * AggregatedAttestations => id_epoch kv.1 = e) l2)).
  { intros l1 l2 ->. done. }
  rewrite (Hp _ _ (map_to_list_insert m id g Hid)), filter_cons. simpl.
  destruct (decide (id_epoch id = e)); done.
Qed.

Lemma votes_of_update m id g0 g e l : m !! id = Some g0 ->
  ag_attestations g = ag_attestations g0 ++ l ->
  votes_of (<[id := g]> m) e ≡ₚ (if decide (id_epoch id = e) then l else []) ++ votes_of m e.
Proof.
  intros Hid Hg. rewrite <- (insert_delete_id m id g0 Hid) at 2.
  rewrite <- insert_delete_eq, !votes_of_insert_new by apply lookup_delete_eq.
  case_decide; [|done]. rewrite Hg, !app_assoc. f_equiv. apply Permutation_app_comm.
Qed.

Lemma votes_of_filter m k e : k <= e ->
  votes_of (base.filter (fun kv : CheckpointId * AggregatedAttestations => k <= id_epoch kv.1) m) e
  ≡ₚ votes_of m e.
Proof.
  intros Hk. induction m as [|id g m Hid IH] using map_ind; [done|].
  rewrite map_filter_insert. simpl. rewrite (votes_of_insert_new m) by done. case_decide as E.
  - rewrite votes_of_insert_new, IH; [done|]. by apply map_lookup_filter_None_2; left.
  - rewrite decide_False by lia. simpl. rewrite <- IH. f_equiv.
    rewrite delete_id; [done|]. done.
Qed.

Lemma elem_of_votes_of m e a : a ∈ votes_of m e <->
  exists id g, m !! id = Some g /\ id_epoch id = e /\ a ∈ ag_attestations g.
Proof.
  unfold votes_of. rewrite list_elem_of_In, in_concat. split.
  - intros (l & Hl & Ha). apply list_elem_of_In in Hl, Ha.
    apply list_elem_of_fmap in Hl as ([id g] & -> & Hin).
    apply list_elem_of_filter in Hin as [He Hin%elem_of_map_to_list]. eauto.
  - intros (id & g & Hm & He & Ha). exists (ag_attestations g).
    rewrite <- !list_elem_of_In. split; [|done]. apply list_elem_of_fmap. exists (id, g).
    split; [done|]. apply list_elem_of_filter. by rewrite elem_of_map_to_list.
Qed.

Lemma votes_of_epoch m e :
  votes_of (base.filter (fun kv : CheckpointId * AggregatedAttestations => id_epoch kv.1 = e) m) e
  ≡ₚ votes_of m e.
Proof.
  induction m as [|id g m Hid IH] using map_ind; [done|].
  rewrite map_filter_insert. simpl. rewrite (votes_of_insert_new m) by done. case_decide as E.
  - rewrite votes_of_insert_new, IH; [by rewrite decide_True|]. by apply map_lookup_filter_None_2; left.
  - simpl. rewrite <- IH. f_equiv. by rewrite delete_id.
Qed.

(** No vote is counted twice, when each target lists its own distinct voters. *)
Lemma NoDup_votes_of m e :
  (forall id g, m !! id = Some g -> NoDup (validator_id <$> ag_attestations g) /\
     forall a, a ∈ ag_attestations g -> target_checkpoint a = id) ->
  NoDup ((fun a => (target_checkpoint a, validator_id a)) <$> votes_of m e).
Proof.
  induction m as [|id g m Hid IH] using map_ind; intros Hm; [constructor|].
  rewrite votes_of_insert_new, fmap_app by done.
  assert (Hm' : forall id' g', m !! id' = Some g' -> <[id := g]> m !! id' = Some g').
  { intros id' g' Hl. rewrite lookup_insert_ne; [done|]. intros ->. congruence. }
  destruct (Hm id g (lookup_insert_eq _ _ _)) as [Hnd Ht]. apply NoDup_app. split_and!.
  - case_decide; [|constructor]. apply (NoDup_fmap_1 snd).
    by rewrite <- list_fmap_compose.
  - case_decide; [|by intros ? ?%elem_of_nil]. intros x.
    rewrite !list_elem_of_fmap. intros (a & -> & Ha) (b & [= Hab _] & Hb).
    apply elem_of_votes_of in Hb as (id' & g' & Hl & _ & Hb).
    destruct (Hm id' g' (Hm' _ _ Hl)) as [_ Ht']. rewrite (Ht a Ha), (Ht' b Hb) in Hab.
    congruence.
  - apply IH. intros id' g' Hl. by apply Hm, Hm'.
Qed.

End votes.

(** * The invariant of the finality service

    Every critical section of the service preserves [finality_inv]: the stake a
    checkpoint has gathered is the stake of the votes recorded for its epoch, a
    justified checkpoint has its two thirds, and a finalized checkpoint has a
    justified successor.  A batch of attestations is counted with the validator
    set of the epoch its first attestation votes for; the history says which set
    that was for every vote.  For the epochs whose votes were all counted with
    their own set, no vote is counted twice.  The sections are the steps of
    [atomic_step], so the invariant covers concurrent calls as well. *)


Local Open Scope Z_scope.

(** The votes the service was asked to count, each with the epoch whose
    validator set it was counted with. *)
Notation History := (list (Attestation * u64)).

Definition vote_epoch (a : Attestation) : u64 := id_epoch (target_checkpoint a).

(** All votes for the epoch were counted with the epoch's own validator set. *)
Definition own_set (h : History) (e : u64) : Prop :=
  forall a e', (a, e') ∈ h -> vote_epoch a = e -> e' = e.

Lemma own_set_mono h h' e : h ⊆ h' -> own_set h' e -> own_set h e.
Proof. intros Hh Ho a e' Ha. by apply Ho, Hh. Qed.

Section invariant.
Context {B : BitVecOps} {BL : BitVecLaws B}.
Variable config : FinalityConfig.
Variable vset : u64 -> result FinalityError ValidatorSet.
(** The provider answers with sets built from distinct validators. *)
Hypothesis vset_reachable : forall e vs, vset e = Ok vs -> vs_reachable vs.

Lemma vset_wf e vs : vset e = Ok vs -> vs_wf vs.
Proof. intros Hv. eapply vs_reachable_wf, vset_reachable, Hv. Qed.

(** The stake of each vote in a validator set. *)
Definition vote_stakes (vs : ValidatorSet) (votes : list Attestation) : list u128 :=
  (fun a => default 0 (get_stake vs (validator_id a))) <$> votes.

(** The stake of a vote in the set it was counted with. *)
Definition counted_stake (v : Attestation * u64) : u128 :=
  match vset v.2 with Ok vs => default 0 (get_stake vs (validator_id v.1)) | _ => 0 end.

Lemma counted_stake_nonneg v : 0 <= counted_stake v.
Proof.
  unfold counted_stake. destruct (vset v.2) as [vs|e|] eqn:Ev; [|done..].
  destruct (get_stake vs (validator_id v.1)) as [x|] eqn:E; simpl; [|lia].
  eapply get_stake_nonneg; [|done]. by eapply vset_wf.
Qed.

Lemma counted_stakes_nonneg l : 0 <= sumZ (counted_stake <$> l).
Proof. apply sumZ_nonneg, Forall_fmap, Forall_forall. intros v _. apply counted_stake_nonneg. Qed.

(** A vote of the history by a member of the set it was counted with. *)
Definition member_vote (h : History) (v : Attestation * u64) : Prop :=
  v ∈ h /\ exists vs, vset v.2 = Ok vs /\ vs_contains vs (validator_id v.1) = true.

Record agg_ok (id : CheckpointId) (g : AggregatedAttestations) (vs : ValidatorSet) : Prop := {
  ao_len : bv_len (ag_bitmap g) = vs_len vs;
  ao_votes a : a ∈ ag_attestations g ->
    exists i, get_index vs (validator_id a) = Some i /\ bv_get (ag_bitmap g) i = Some true;
  ao_nodup : NoDup (validator_id <$> ag_attestations g)
}.

(** The checkpoint of [e] was made with the total stake of one of the sets, and
    has the stake of the recorded votes, each with its stake in the set it was
    counted with. *)
Record cp_ok (h : History) (votes : list Attestation) (e : u64) (c : Checkpoint) : Prop := {
  co_epoch : cp_epoch c = e;
  co_total : exists a0 e0 vs0, (a0, e0) ∈ h /\ vote_epoch a0 = e /\ vset e0 = Ok vs0
    /\ cp_total_stake c = vs_total_stake vs0;
  co_attested : exists l, l.*1 ≡ₚ votes /\ Forall (member_vote h) l
    /\ cp_attested_stake c = saturated (sumZ (counted_stake <$> l));
  co_threshold : is_justified c = true -> check_justification_threshold c = true
}.

(** The part of the state the votes live in. *)
Record votes_inv (h : History) (cs : gmap u64 Checkpoint)
  (ats : gmap CheckpointId AggregatedAttestations) : Prop := {
  vi_agg id g : ats !! id = Some g ->
    is_Some (cs !! id_epoch id) /\ (forall a, a ∈ ag_attestations g -> target_checkpoint a = id)
    /\ (own_set h (id_epoch id) -> exists vs, vset (id_epoch id) = Ok vs /\ agg_ok id g vs);
  vi_cp e c : cs !! e = Some c -> cp_ok h (votes_of ats e) e c
}.

(** The checkpoint of [e] is justified (or more). *)
Definition justified_at (cs : gmap u64 Checkpoint) (e : u64) : Prop :=
  exists c, cs !! e = Some c /\ is_justified c = true.

Record core_inv (h : History) (cs : gmap u64 Checkpoint)
  (ats : gmap CheckpointId AggregatedAttestations) (lj lf : option Checkpoint) : Prop := {
  fi_votes : votes_inv h cs ats;
  fi_last_justified c : lj = Some c -> justified_at cs (cp_epoch c);
  fi_finalized e c : cs !! e = Some c -> is_finalized c = true -> justified_at cs (e + 1);
  fi_last_finalized f : lf = Some f -> exists c,
    cs !! cp_epoch f = Some c /\ is_finalized c = true /\ cp_block_hash c = cp_block_hash f
}.

Definition finality_inv (h : History) (s : FinalityServiceState) : Prop :=
  core_inv h (checkpoints s) (attestations s) (last_justified s) (last_finalized s).

Lemma state_new_inv : finality_inv [] state_new.
Proof. split; simpl; [split; simpl|..]; intros; by simplify_map_eq. Qed.

(** Another vote in the history changes nothing that is known of the others. *)
Lemma cp_ok_mono h h' votes e c : h ⊆ h' -> cp_ok h votes e c -> cp_ok h' votes e c.
Proof.
  intros Hh [H1 (a0 & e0 & vs0 & Hin & Hr) (l & Hl & Hm & Ha) H4]. split; [done| | |done].
  - exists a0, e0, vs0. split; [by apply Hh|done].
  - exists l. split_and!; [done| |done]. eapply Forall_impl; [exact Hm|].
    intros v [Hv ?]. split; [by apply Hh|done].
Qed.

Lemma core_inv_mono h h' cs ats lj lf : h ⊆ h' -> core_inv h cs ats lj lf -> core_inv h' cs ats lj lf.
Proof.
  intros Hh [[HA HC] HJ HF HL]. split; [split|done..].
  - intros id g Hg. destruct (HA id g Hg) as (? & ? & Ho). split_and!; [done..|].
    intros Hown. apply Ho. by eapply own_set_mono.
  - intros e c Hc. eapply cp_ok_mono; eauto.
Qed.

(** ** Creating entries *)

Lemma cp_ok_perm h votes votes' e c : votes ≡ₚ votes' -> cp_ok h votes e c -> cp_ok h votes' e c.
Proof.
  intros HP [H1 H2 (l & Hl & H3) H4]. split; [done|done| |done]. exists l. by rewrite <- HP.
Qed.

(** Replaces the checkpoint of [e] by one at least as justified. *)
Lemma justified_at_insert cs e c c' : cs !! e = Some c ->
  (is_justified c = true -> is_justified c' = true) ->
  forall x, justified_at cs x -> justified_at (<[e := c']> cs) x.
Proof.
  intros He Hj x (d & Hd & Hx). destruct (decide (e = x)) as [<-|Hne].
  - exists c'. rewrite lookup_insert_eq. simplify_eq. auto.
  - exists d. by rewrite lookup_insert_ne.
Qed.

Lemma justified_at_new cs e c' : cs !! e = None ->
  forall x, justified_at cs x -> justified_at (<[e := c']> cs) x.
Proof.
  intros He x (d & Hd & Hx). exists d. rewrite lookup_insert_ne; [done|]. intros ->. congruence.
Qed.

Lemma new_checkpoint_inv h cs ats a0 e0 hash vs : votes_inv h cs ats -> (a0, e0) ∈ h ->
  vset e0 = Ok vs -> cs !! vote_epoch a0 = None ->
  votes_inv h (<[vote_epoch a0 := with_total_stake (checkpoint_new (vote_epoch a0) hash 0)
                                    (vs_total_stake vs)]> cs) ats.
Proof.
  intros [HA HC] Hin Hvs He. set (e := vote_epoch a0) in *.
  assert (Hno : votes_of ats e = []).
  { destruct (votes_of ats e) as [|a l] eqn:E; [done|].
    assert (Ha : a ∈ votes_of ats e) by (rewrite E; left).
    apply elem_of_votes_of in Ha as (id & g & Hg & Hid & _).
    destruct (HA id g Hg) as [[c Hc] _]. congruence. }
  split.
  - intros id g Hg. destruct (HA id g Hg) as [Hs HX]. split; [|done].
    by apply lookup_insert_is_Some'; right.
  - intros e' c. destruct (decide (e = e')) as [<-|Hne].
    + rewrite lookup_insert_eq. intros [= <-]. rewrite Hno. split; [done| | |done].
      * by exists a0, e0, vs.
      * by exists [].
    + rewrite lookup_insert_ne by done. apply HC.
Qed.

Lemma new_aggregate_ok source id vs : agg_ok id (aggregated_new source id (vs_len vs)) vs.
Proof.
  split; simpl; [by apply bv_len_zeros|by intros a ?%elem_of_nil|constructor].
Qed.

Lemma new_aggregate_inv h cs ats source a0 e0 vs (id := target_checkpoint a0) : votes_inv h cs ats ->
  (a0, e0) ∈ h -> vset e0 = Ok vs -> is_Some (cs !! id_epoch id) -> ats !! id = None ->
  votes_inv h cs (<[id := aggregated_new source id (vs_len vs)]> ats).
Proof.
  intros [HA HC] Hin Hvs Hcs Hid. split.
  - intros id' g. destruct (decide (id = id')) as [<-|Hne].
    + rewrite lookup_insert_eq. intros [= <-]. split_and!; [done|by intros a ?%elem_of_nil|].
      intros Hown. rewrite <- (Hown a0 e0 Hin eq_refl). eauto using new_aggregate_ok.
    + rewrite lookup_insert_ne by done. apply HA.
  - intros e c Hc. eapply cp_ok_perm; [|by apply HC]. rewrite votes_of_insert_new by done. simpl.
    by case_decide.
Qed.

(** ** Counting a vote *)

Lemma add_attestation_ok id g vs a i stake : vs_wf vs -> agg_ok id g vs ->
  get_index vs (validator_id a) = Some i ->
  has_attested g i = false -> agg_ok id (add_attestation g a i stake) vs.
Proof.
  intros WF [HL HV HN] Hi Hno. pose proof (get_index_bound _ _ _ WF Hi) as Hb.
  assert (Hif : (i <? bv_len (ag_bitmap g))%nat = true) by (apply Nat.ltb_lt; lia).
  split; simpl; rewrite ?Hif.
  - by rewrite bv_len_set.
  - intros b [Hb'|Hb']%elem_of_app.
    + destruct (HV b Hb') as (j & Hj & Hg). exists j. split; [done|].
      rewrite bv_get_set by lia. by destruct (Nat.eqb_spec j i).
    + apply list_elem_of_singleton in Hb' as ->. exists i. split; [done|].
      rewrite bv_get_set by lia. by rewrite Nat.eqb_refl.
  - rewrite fmap_app. simpl. apply NoDup_app. split_and!; [done| |apply NoDup_singleton].
    intros x Hx ->%list_elem_of_singleton. apply list_elem_of_fmap in Hx as (b & Hbv & Hb').
    destruct (HV b Hb') as (j & Hj & Hg). rewrite <- Hbv, Hi in Hj. injection Hj as <-.
    unfold has_attested in Hno. by rewrite Hg in Hno.
Qed.

(** What [add_attestation_stake] and [try_justify] do to a checkpoint. *)
Definition counted (c : Checkpoint) (stake : u128) : Checkpoint :=
  (try_justify (add_attestation_stake c stake).1).1.

Lemma counted_ok h votes votes' e c vs a e0 stake : cp_ok h votes e c ->
  (a, e0) ∈ h -> vset e0 = Ok vs -> get_stake vs (validator_id a) = Some stake ->
  votes' ≡ₚ a :: votes -> cp_ok h votes' e (counted c stake).
Proof.
  intros [HE HT (l & Hl & Hm & HA) HJ] Hin Hvs Hst HP.
  pose proof (counted_stakes_nonneg l) as Hnn.
  pose proof (get_stake_nonneg _ _ _ (vset_wf _ _ Hvs) Hst) as Hs.
  apply (cp_ok_perm _ (a :: votes)); [done|].
  assert (Hatt : exists l', l'.*1 ≡ₚ a :: votes /\ Forall (member_vote h) l' /\
    saturating_add 128 (cp_attested_stake c) stake = saturated (sumZ (counted_stake <$> l'))).
  { exists ((a, e0) :: l). split_and!.
    - cbn. by rewrite Hl.
    - constructor; [|done]. split; [done|]. exists vs. split; [done|].
      unfold get_stake in Hst. unfold vs_contains. cbn. by destruct (vs_validators vs !! validator_id a).
    - assert (Hc : counted_stake (a, e0) = stake) by (unfold counted_stake; cbn; by rewrite Hvs, Hst).
      rewrite HA, saturated_add by done. rewrite fmap_cons, Hc. cbn. f_equal. unfold sumZ. lia. }
  assert (Hmono : is_justified c = true ->
    check_justification_threshold (set_attested_stake c (saturating_add 128 (cp_attested_stake c) stake)) = true).
  { intros Hj. apply threshold_mono; [by apply HJ|]. rewrite HA, saturated_add by done.
    unfold saturated. lia. }
  unfold counted, add_attestation_stake, try_justify. simpl.
  destruct (cp_state c) eqn:Est; simpl.
  - destruct (check_justification_threshold (set_attested_stake _ _)) eqn:Hth; split; try done.
    unfold is_justified. simpl. by rewrite Est.
  - by split.
  - by split.
Qed.

Lemma count_vote_inv h cs ats g c vs a e0 i stake (id := target_checkpoint a) :
  votes_inv h cs ats -> (a, e0) ∈ h -> vset e0 = Ok vs -> ats !! id = Some g ->
  cs !! id_epoch id = Some c ->
  get_index vs (validator_id a) = Some i -> get_stake vs (validator_id a) = Some stake ->
  has_attested g i = false ->
  votes_inv h (<[id_epoch id := counted c stake]> cs) (<[id := add_attestation g a i stake]> ats).
Proof.
  intros [HA HC] Hin Hvs Hg Hc Hi Hst Hno. pose proof (vset_wf _ _ Hvs) as WF.
  assert (HP : forall e, votes_of (<[id := add_attestation g a i stake]> ats) e ≡ₚ
            (if decide (id_epoch id = e) then [a] else []) ++ votes_of ats e).
  { intros e. by apply (votes_of_update ats id g). }
  split.
  - intros id' g'. destruct (decide (id = id')) as [<-|Hne].
    + rewrite lookup_insert_eq. intros [= <-]. destruct (HA id g Hg) as (_ & Ht & Hown).
      split_and!; [by rewrite lookup_insert_eq| |].
      * intros b [Hb| ->%list_elem_of_singleton]%elem_of_app; [by apply Ht|done].
      * intros Ho. destruct (Hown Ho) as (vs' & Hv' & Hok).
        assert (e0 = id_epoch id) as -> by by apply (Ho a e0).
        rewrite Hvs in Hv'. injection Hv' as <-. exists vs. split; [done|]. by apply add_attestation_ok.
    + rewrite lookup_insert_ne by done. intros Hg'. destruct (HA id' g' Hg') as [? ?].
      split; [by apply lookup_insert_is_Some'; right|done].
  - intros e c'. specialize (HP e). destruct (decide (id_epoch id = e)) as [<-|Hne].
    + rewrite lookup_insert_eq. intros [= <-]. eapply (counted_ok h _ _ _ c vs a e0); eauto.
    + rewrite lookup_insert_ne by done. intros Hc'.
      eapply cp_ok_perm; [symmetry; exact HP|]. by apply HC.
Qed.

(** ** [apply_attestation] *)

Lemma core_new_checkpoint h cs ats lj lf a0 e0 hash vs : core_inv h cs ats lj lf -> (a0, e0) ∈ h ->
  vset e0 = Ok vs -> cs !! vote_epoch a0 = None ->
  core_inv h (<[vote_epoch a0 := with_total_stake (checkpoint_new (vote_epoch a0) hash 0)
                                   (vs_total_stake vs)]> cs) ats lj lf.
Proof.
  intros [HV HJ HF HL] Hin Hvs He. split.
  - by eapply new_checkpoint_inv.
  - intros c Hc. apply justified_at_new; [done|]. by apply HJ.
  - intros e' c. destruct (decide (vote_epoch a0 = e')) as [<-|Hne].
    + rewrite lookup_insert_eq. by intros [= <-].
    + rewrite lookup_insert_ne by done. intros Hc Hf. apply justified_at_new; [done|]. eauto.
  - intros f Hf. destruct (HL f Hf) as (c & Hc & ?). exists c.
    rewrite lookup_insert_ne; [done|]. intros Heq. rewrite Heq in He. congruence.
Qed.

Lemma core_new_aggregate h cs ats lj lf source a0 e0 vs (id := target_checkpoint a0) :
  core_inv h cs ats lj lf -> (a0, e0) ∈ h -> vset e0 = Ok vs ->
  is_Some (cs !! id_epoch id) -> ats !! id = None ->
  core_inv h cs (<[id := aggregated_new source id (vs_len vs)]> ats) lj lf.
Proof. intros [HV HJ HF HL] ? ? ? ?. split; [by eapply new_aggregate_inv|done..]. Qed.

Lemma counted_spec c stake :
  cp_epoch (counted c stake) = cp_epoch c /\
  cp_block_hash (counted c stake) = cp_block_hash c /\
  is_finalized (counted c stake) = is_finalized c /\
  (is_justified c = true -> is_justified (counted c stake) = true) /\
  ((try_justify (add_attestation_stake c stake).1).2 = true ->
   is_justified (counted c stake) = true).
Proof.
  unfold counted, try_justify, is_finalized, is_justified, add_attestation_stake. simpl.
  destruct (cp_state c) eqn:E; simpl; try (case_match eqn:Et; simpl); rewrite ?E; done.
Qed.

(** The checkpoint the new [last_justified] may point to. *)
Lemma core_count h cs ats lj lf g c vs a e0 i stake (id := target_checkpoint a) :
  core_inv h cs ats lj lf -> (a, e0) ∈ h -> vset e0 = Ok vs ->
  ats !! id = Some g -> cs !! id_epoch id = Some c ->
  get_index vs (validator_id a) = Some i ->
  get_stake vs (validator_id a) = Some stake -> has_attested g i = false ->
  core_inv h (<[id_epoch id := counted c stake]> cs) (<[id := add_attestation g a i stake]> ats)
    (if (try_justify (add_attestation_stake c stake).1).2 then Some (counted c stake) else lj) lf.
Proof.
  intros [HV HJ HF HL] Hin Hvs Hg Hc Hi Hst Hno.
  destruct (counted_spec c stake) as (He & Hh & Hf & Hj & Hnew).
  pose proof (vi_cp _ _ _ HV _ _ Hc) as Hok.
  assert (Hmono : forall x, justified_at cs x ->
            justified_at (<[id_epoch id := counted c stake]> cs) x)
    by by apply (justified_at_insert cs _ c).
  split.
  - by eapply count_vote_inv.
  - intros c'. destruct (try_justify _).2; [|by intros Hc'; apply Hmono, HJ].
    intros [= <-]. rewrite He, (co_epoch _ _ _ _ Hok). eexists.
    rewrite lookup_insert_eq. split; [done|]. by apply Hnew.
  - intros e c'. destruct (decide (id_epoch id = e)) as [<-|Hne].
    + rewrite lookup_insert_eq. intros [= <-]. rewrite Hf. intros Hfin. apply Hmono. eauto.
    + rewrite lookup_insert_ne by done. intros Hc' Hfin. apply Hmono. eauto.
  - intros f Hlf. destruct (HL f Hlf) as (c' & Hc' & Hfin & Hhash).
    destruct (decide (id_epoch id = cp_epoch f)) as [Heq|Hne].
    + rewrite <- Heq in Hc' |- *. rewrite Hc in Hc'. injection Hc' as <-.
      exists (counted c stake). rewrite lookup_insert_eq, Hf, Hh. done.
    + exists c'. by rewrite lookup_insert_ne.
Qed.

Lemma get_or_create_checkpoint_inv h s a e0 vs : finality_inv h s -> (a, e0) ∈ h -> vset e0 = Ok vs ->
  let t := checkpoint_new (id_epoch (target_checkpoint a)) (id_block_hash (target_checkpoint a)) 0 in
  let s' := (get_or_create_checkpoint s t (vs_total_stake vs)).1 in
  finality_inv h s' /\ is_Some (checkpoints s' !! id_epoch (target_checkpoint a)) /\
  attestations s' = attestations s.
Proof.
  intros HI Hin Hvs. unfold get_or_create_checkpoint. simpl.
  destruct (checkpoints s !! _) as [c|] eqn:Ec; simpl; [by eauto|]. split_and!.
  - by eapply (core_new_checkpoint _ _ _ _ _ a e0).
  - by rewrite lookup_insert_eq.
  - done.
Qed.

(** Counting a vote with the set of whatever epoch. *)
Lemma apply_attestation_inv h s a e0 vs stake : finality_inv h s -> vset e0 = Ok vs ->
  get_stake vs (validator_id a) = Some stake ->
  finality_inv (h ++ [(a, e0)]) (apply_attestation s a vs stake).1.
Proof.
  intros HI Hvs Hst. set (h' := h ++ [(a, e0)]).
  assert (Hin : (a, e0) ∈ h') by (apply elem_of_app; right; by left).
  apply (core_inv_mono h h') in HI; [|by intros v Hv; apply elem_of_app; left].
  unfold apply_attestation.
  pose proof (get_or_create_checkpoint_inv h' (record_attestation s a) a e0 vs HI Hin Hvs) as HG.
  simpl in HG. destruct (get_or_create_checkpoint _ _ _) as [s1 c1].
  simpl in HG. destruct HG as (HI1 & [c Hc] & Ea). clear c1 Ea.
  set (id := target_checkpoint a) in *.
  set (g := match attestations s1 !! id with Some g => g | None => _ end).
  assert (HI2 : core_inv h' (checkpoints s1) (<[id := g]> (attestations s1)) (last_justified s1)
                  (last_finalized s1)).
  { subst g. destruct (attestations s1 !! id) as [g|] eqn:Eg; [by rewrite insert_id|].
    by eapply (core_new_aggregate _ _ _ _ _ _ a). }
  destruct (get_stake_index _ _ _ Hst) as [i Hi]. rewrite Hi.
  destruct (has_attested g i) eqn:Hno; [exact HI2|]. simpl. rewrite Hc.
  pose proof (core_count _ _ _ _ _ g c vs a e0 i stake HI2 Hin Hvs (lookup_insert_eq _ _ _) Hc
                Hi Hst Hno) as HC.
  unfold counted, add_attestation_stake in HC. simpl in HC.
  destruct (try_justify _) as [c' []]; exact HC.
Qed.

(** ** Finalization *)

Lemma finalize_spec c : is_justified c = true ->
  cp_epoch (finalize c).1 = cp_epoch c /\ cp_block_hash (finalize c).1 = cp_block_hash c /\
  is_finalized (finalize c).1 = true /\ is_justified (finalize c).1 = true /\
  cp_total_stake (finalize c).1 = cp_total_stake c /\
  cp_attested_stake (finalize c).1 = cp_attested_stake c.
Proof.
  unfold finalize, is_justified, is_finalized. destruct (cp_state c) eqn:E; simpl; rewrite ?E; done.
Qed.

Lemma core_finalize h cs ats lj lf c e : core_inv h cs ats (Some lj) lf -> cp_epoch lj = e + 1 ->
  cs !! e = Some c -> is_justified c = true ->
  core_inv h (<[e := (finalize c).1]> cs) ats (Some lj) (Some (finalize c).1).
Proof.
  intros [HV HJ HF HL] Hlj Hc Hjust.
  destruct (finalize_spec c Hjust) as (He & Hh & Hf & Hj & Htot & Hatt).
  assert (Hmono : forall x, justified_at cs x -> justified_at (<[e := (finalize c).1]> cs) x)
    by by apply (justified_at_insert cs _ c).
  destruct (vi_cp _ _ _ HV _ _ Hc) as [Ee Et Ea Eth].
  split.
  - destruct HV as [HA HC]. split.
    + intros id g Hg. destruct (HA id g Hg) as [? ?]. split; [|done].
      by apply lookup_insert_is_Some'; right.
    + intros e' c'. destruct (decide (e = e')) as [<-|Hne]; [|by rewrite lookup_insert_ne; eauto].
      rewrite lookup_insert_eq. intros [= <-]. split; [congruence|by rewrite Htot|by rewrite Hatt|].
      intros _. unfold check_justification_threshold.
      rewrite Htot, Hatt. by apply Eth.
  - intros c' [= <-]. by apply Hmono, HJ.
  - intros e' c'. destruct (decide (e = e')) as [<-|Hne].
    + intros _ _. apply Hmono. rewrite <- Hlj. by apply HJ.
    + rewrite lookup_insert_ne by done. intros ? ?. apply Hmono. eauto.
  - intros f [= <-]. rewrite He, Ee. eexists. by rewrite lookup_insert_eq.
Qed.

(** Pruning keeps every epoch from two before the last finalized one on. *)
Lemma core_prune h cs ats lj f k : core_inv h cs ats (Some lj) (Some f) ->
  k <= cp_epoch f -> k <= cp_epoch lj ->
  core_inv h (base.filter (fun kv : u64 * Checkpoint => k <= kv.1) cs)
    (base.filter (fun kv : CheckpointId * AggregatedAttestations => k <= id_epoch kv.1) ats)
    (Some lj) (Some f).
Proof.
  intros [HV HJ HF HL] Hkf Hklj.
  assert (Hkeep : forall x, k <= x -> justified_at cs x ->
    justified_at (base.filter (fun kv : u64 * Checkpoint => k <= kv.1) cs) x).
  { intros x Hx (c & Hc & ?). exists c. by rewrite map_lookup_filter_Some. }
  split.
  - destruct HV as [HA HC]. split.
    + intros id g [Hg Hk]%map_lookup_filter_Some. destruct (HA id g Hg) as [[c Hc] ?].
      split; [|done]. exists c. by apply map_lookup_filter_Some.
    + intros e c [Hc Hk]%map_lookup_filter_Some. eapply cp_ok_perm; [|by apply HC].
      symmetry. by apply votes_of_filter.
  - intros c [= <-]. apply Hkeep; [done|]. by apply HJ.
  - intros e c [Hc Hk]%map_lookup_filter_Some Hfin. simpl in Hk. apply Hkeep; [lia|]. eauto.
  - intros f' [= <-]. destruct (HL f eq_refl) as (c & Hc & ?). exists c.
    by rewrite map_lookup_filter_Some.
Qed.

Lemma check_finalization_spec s s' f : check_finalization s = (s', Some f) ->
  exists lj c, last_justified s = Some lj /\ cp_epoch lj - 1 >= 0 /\
    checkpoints s !! (cp_epoch lj - 1) = Some c /\ is_justified c = true /\ f = (finalize c).1 /\
    s' = with_finalized s (<[cp_epoch lj - 1 := f]> (checkpoints s))
           (<[cp_block_hash f := cp_block_height f]> (finalized_blocks s)) (Some f).
Proof.
  unfold check_finalization, checked_sub. intros Heq.
  destruct (last_justified s) as [lj|]; [|done].
  destruct (Z.leb_spec 1 (cp_epoch lj)); [|done].
  destruct (checkpoints s !! _) as [c|] eqn:Ec; [|done].
  destruct (is_justified c) eqn:Ej; [|done].
  destruct (finalize c) as [fc b] eqn:Ef. simplify_eq. exists lj, c.
  split_and!; try done; [lia|by rewrite Ef].
Qed.

Lemma check_and_process_finalization_inv h s e : finality_inv h s ->
  finality_inv h (check_and_process_finalization config s e).1.
Proof.
  intros HI. unfold check_and_process_finalization.
  destruct (check_finalization s) as [s' [f|]] eqn:E.
  - apply check_finalization_spec in E as (lj & c & Hlj & Hpos & Hc & Hj & Hf & ->).
    unfold finality_inv in HI. rewrite Hlj in HI.
    pose proof (core_finalize _ _ _ _ _ c (cp_epoch lj - 1) HI ltac:(lia) Hc Hj) as HI'.
    rewrite <- Hf in HI'.
    assert (Hef : cp_epoch f = cp_epoch lj - 1).
    { rewrite Hf, (proj1 (finalize_spec c Hj)).
      apply (vi_cp _ _ _ (fi_votes _ _ _ _ _ HI) _ _ Hc). }
    cbn [fst]. unfold prune_old_checkpoints. case_match; unfold finality_inv; simpl; rewrite Hlj.
    + exact HI'.
    + apply core_prune; [done| |]; unfold saturating_sub; lia.
  - unfold check_finalization in E. assert (s' = s) as -> by (split_matches; by simplify_eq).
    repeat case_match; exact HI.
Qed.

End invariant.
