(* ===== verification/FinalityProps.v ===== *)
(** * The finality service: what it guarantees

    The claims about [qc-09-finality]: what justification and finalization rest
    on, that concurrent calls cannot break it, when offenses are detected, when
    the circuit breaker halts, and the places where the implementation falls
    short of the protocol. *)

From S2P Require Import Prelude Finality FinalityFacts.
Local Open Scope Z_scope.

Section claims.
Context {B : BitVecOps} {BL : BitVecLaws B}.
Variable config : FinalityConfig.
Variable verify_attestation : Attestation -> bool.
Variable vset : u64 -> result FinalityError ValidatorSet.

(** ** Critical sections

    One step per section of the code that holds the write lock. Calls of
    different clients interleave at this granularity.  Beside the state runs the
    history of the votes to count: a vote is counted with the validator set of
    the epoch that leads its batch, whatever epoch it votes for itself. *)
Inductive atomic_step : relation (FinalityServiceState * History) :=
| at_check s h a vid : atomic_step (s, h) ((check_slashable_conditions s a vid).1, h)
| at_apply s h a e vs stake :
    vset e = Ok vs -> get_stake vs (validator_id a) = Some stake ->
    atomic_step (s, h) ((apply_attestation s a vs stake).1, h ++ [(a, e)])
| at_finalize s h epoch : atomic_step (s, h) ((check_and_process_finalization config s epoch).1, h)
| at_failed s h :
    atomic_step (s, h) (with_breaker s (process_event (circuit_breaker s) FinalityFailed), h)
| at_take s h : atomic_step (s, h) ((take_inactivity_events (take_slashing_events s).1).1, h)
| at_reset s h : atomic_step (s, h) ((reset_from_halted s).1, h).

Definition reachable (s : FinalityServiceState) (h : History) : Prop :=
  star atomic_step (state_new, []) (s, h).

Lemma check_slashable_core s a vid :
  let s' := (check_slashable_conditions s a vid).1 in
  checkpoints s' = checkpoints s /\ attestations s' = attestations s /\
  last_justified s' = last_justified s /\ last_finalized s' = last_finalized s /\
  circuit_breaker s' = circuit_breaker s.
Proof. unfold check_slashable_conditions. by case_match. Qed.

Section sound.
Hypothesis vset_reachable : forall e vs, vset e = Ok vs -> vs_reachable vs.

Lemma atomic_step_inv sh sh' : finality_inv vset sh.2 sh.1 -> atomic_step sh sh' ->
  finality_inv vset sh'.2 sh'.1.
Proof.
  intros HI Hs. destruct Hs; cbn [fst snd] in *.
  - destruct (check_slashable_core s a vid) as (E1 & E2 & E3 & E4 & _).
    unfold finality_inv. by rewrite E1, E2, E3, E4.
  - by apply apply_attestation_inv.
  - by apply check_and_process_finalization_inv.
  - exact HI.
  - exact HI.
  - unfold reset_from_halted. by case_match.
Qed.

Lemma reachable_inv s h : reachable s h -> finality_inv vset h s.
Proof.
  intros Hr. refine (star_invariant atomic_step (fun sh => finality_inv vset sh.2 sh.1) _ _ _ _ Hr).
  - intros s1 s2. apply atomic_step_inv.
  - apply state_new_inv.
Qed.

(** The votes of an epoch whose votes were all counted with its own set. *)
Lemma own_set_votes h cs ats e vs : votes_inv vset h cs ats -> own_set h e -> vset e = Ok vs ->
  let votes := votes_of ats e in
  NoDup ((fun a => (target_checkpoint a, validator_id a)) <$> votes) /\
  forall a, a ∈ votes -> vs_contains vs (validator_id a) = true.
Proof.
  intros HV Ho Hvs. cbn zeta.
  assert (Hagg : forall id g, ats !! id = Some g -> id_epoch id = e -> agg_ok id g vs).
  { intros id g Hg <-. destruct (vi_agg _ _ _ _ HV id g Hg) as (_ & _ & H).
    destruct (H Ho) as (vs' & Hv' & Hok). congruence. }
  split.
  - rewrite <- (votes_of_epoch ats e). apply NoDup_votes_of.
    intros id g [Hg He]%map_lookup_filter_Some. cbn in He. split; [apply (Hagg id g Hg He)|].
    apply (vi_agg _ _ _ _ HV id g Hg).
  - intros a (id & g & Hg & He & Ha)%elem_of_votes_of.
    destruct (ao_votes _ _ _ (Hagg id g Hg He) a Ha) as (i & Hi & _).
    unfold get_index in Hi. unfold vs_contains. by case_match.
Qed.

(** C1 (safety): in every state concurrent calls can reach, with a provider whose
    sets are built of distinct validators, a justified checkpoint (below [2^127] of total stake) rests on more than two thirds of a
    validator set's stake.  The recorded votes are for its epoch and come from
    members of the sets they were counted with, one set per batch; their stake
    there exceeds two thirds of the total of the set a vote for the epoch was
    counted with.  When all votes for the epoch were counted with the epoch's own
    set (no batch that was led by a vote for another epoch had one), that is the
    set of the epoch: the voters are its members, none is counted twice for the
    same target, and their stake exceeds two thirds of the sum of its validators'
    stakes. *)
Theorem justified_has_two_thirds s h e c : reachable s h ->
  checkpoints s !! e = Some c -> is_justified c = true -> cp_total_stake c < 2 ^ 127 ->
  let votes := votes_of (attestations s) e in
  (forall a, a ∈ votes -> vote_epoch a = e) /\
  (exists l a0 e0 vs0, l.*1 ≡ₚ votes /\ Forall (member_vote vset h) l /\
     (a0, e0) ∈ h /\ vote_epoch a0 = e /\ vset e0 = Ok vs0 /\
     2 * vs_total_stake vs0 < 3 * sumZ (counted_stake vset <$> l)) /\
  (own_set h e -> exists vs, vset e = Ok vs /\
     NoDup ((fun a => (target_checkpoint a, validator_id a)) <$> votes) /\
     (forall a, a ∈ votes -> vs_contains vs (validator_id a) = true) /\
     2 * vs_total_stake vs < 3 * sumZ (vote_stakes vs votes) /\
     vs_total_stake vs = sumZ ((fun kv => v_stake kv.2) <$> map_to_list (vs_validators vs))).
Proof.
  intros [HV _ _ _]%reachable_inv Hc Hj Ht. cbn zeta.
  destruct (vi_cp _ _ _ _ HV _ _ Hc) as [_ (a0 & e0 & vs0 & Hin & He0 & Hvs & Htot) (l & Hl & Hm & Ha) Hth].
  pose proof (vs_reachable_wf vs0 (vset_reachable _ _ Hvs)) as WF.
  pose proof (vs_stakes_nonneg vs0 WF) as Hnn. pose proof (vw_total vs0 WF) as Hsum.
  unfold saturated in Hsum.
  apply threshold_iff in Hth as [_ Hth]; [|rewrite Htot in *; lia|done].
  rewrite Htot, Ha in *. unfold saturated in Hth. split_and!.
  - intros a (id & g & Hg & <- & Hin')%elem_of_votes_of.
    destruct (vi_agg _ _ _ _ HV id g Hg) as (_ & Hta & _). unfold vote_epoch. by rewrite (Hta a Hin').
  - exists l, a0, e0, vs0. split_and!; try done. lia.
  - intros Ho. assert (e0 = e) as -> by by apply (Ho a0). exists vs0.
    destruct (own_set_votes _ _ _ e vs0 HV Ho Hvs) as [H1 H2]. split_and!; try done; [|lia].
    assert (Hst : sumZ (counted_stake vset <$> l) = sumZ (vote_stakes vs0 l.*1)).
    { f_equal. unfold vote_stakes. rewrite <- list_fmap_compose. apply list_fmap_ext.
      intros i [a e'] Hi. apply list_elem_of_lookup_2 in Hi as Hi'.
      rewrite Forall_forall in Hm. destruct (Hm _ Hi') as [Hh _].
      assert (Hea : vote_epoch a = e).
      { assert (Hv : a ∈ votes_of (attestations s) e) by (rewrite <- Hl; by apply (list_elem_of_fmap_2 fst) in Hi').
        apply elem_of_votes_of in Hv as (id & g & Hg & <- & Hin').
        destruct (vi_agg _ _ _ _ HV id g Hg) as (_ & Hta & _). unfold vote_epoch. by rewrite (Hta a Hin'). }
      unfold counted_stake. cbn. by rewrite (Ho a e' Hh Hea), Hvs. }
    assert (HP : sumZ (vote_stakes vs0 (votes_of (attestations s) e)) = sumZ (vote_stakes vs0 l.*1))
      by (unfold vote_stakes; by rewrite Hl).
    lia.
Qed.

(** C2 (invariant): a finalized checkpoint rests on two consecutive justified
    ones: in every reachable state, whatever batches were counted with whichever of
    the provider's sets (built of distinct validators), the last finalized checkpoint is still
    stored under its epoch as finalized, with the same block, the checkpoint of
    the next epoch is justified, and both meet the two-thirds threshold. *)
Theorem finalized_rests_on_two_justified s h f : reachable s h -> last_finalized s = Some f ->
  exists c c', checkpoints s !! cp_epoch f = Some c /\ is_finalized c = true /\
    cp_block_hash c = cp_block_hash f /\ check_justification_threshold c = true /\
    checkpoints s !! (cp_epoch f + 1) = Some c' /\ is_justified c' = true /\
    check_justification_threshold c' = true.
Proof.
  intros [HV _ HF HL]%reachable_inv Hf. destruct (HL f Hf) as (c & Hc & Hfin & Hh).
  destruct (HF _ _ Hc Hfin) as (c' & Hc' & Hj').
  pose proof (co_threshold _ _ _ _ _ (vi_cp _ _ _ _ HV _ _ Hc)) as Hth.
  pose proof (co_threshold _ _ _ _ _ (vi_cp _ _ _ _ HV _ _ Hc')) as Hth'.
  exists c, c'. split_and!; auto. apply Hth.
  unfold is_finalized in Hfin. unfold is_justified. by destruct (cp_state c).
Qed.

End sound.

(** ** Calls are sequences of critical sections *)

Lemma process_single_attestation_atomic s h a vs :
  let r := process_single_attestation config verify_attestation s a vs in
  star atomic_step (s, h) (r.1, h) /\
  forall stake, r.2 = Ok (Some stake) -> get_stake vs (validator_id a) = Some stake.
Proof.
  unfold process_single_attestation.
  case_match; [by split; [constructor|]|]. case_match; [by split; [constructor|]|].
  pose proof (at_check s h a (validator_id a)) as Hc.
  destruct (check_slashable_conditions s a (validator_id a)) as [s' [[]|e|]]; simpl in *.
  - destruct (get_stake vs (validator_id a)); simpl;
      (split; [by eapply star_step, star_refl|]); intros; by simplify_eq.
  - by split; [eapply star_step, star_refl|].
  - by split; [eapply star_step, star_refl|].
Qed.

(** The votes of a batch that is led by a vote for [e]. *)
Definition led_by (e : u64) (atts : list Attestation) (h : History) : Prop :=
  forall a e', (a, e') ∈ h -> a ∈ atts /\ e' = e.

Lemma process_attestation_update_atomic s h a e vs : vset e = Ok vs ->
  exists h', star atomic_step (s, h)
    ((process_attestation_update config verify_attestation s a vs).1, h ++ h') /\ led_by e [a] h'.
Proof.
  intros Hvs. unfold process_attestation_update.
  destruct (process_single_attestation_atomic s h a vs) as [Hst Hstake].
  destruct (process_single_attestation _ _ s a vs) as [s' r]. simpl in *.
  assert (Hno : led_by e [a] []) by by intros ? ? ?%elem_of_nil.
  destruct r as [[stake|]|e'|]; simpl; [|by exists []; rewrite app_nil_r..].
  exists [(a, e)].
  assert (Ha : atomic_step (s', h) ((apply_attestation s' a vs stake).1, h ++ [(a, e)])) by (eapply at_apply; eauto).
  assert (Hled : led_by e [a] [(a, e)]).
  { intros b e' [= -> ->]%list_elem_of_singleton. split; [by left|done]. }
  destruct (apply_attestation s' a vs stake) as [s'' [[] cp]]; simpl in *;
    (split; [|done]; eapply star_trans; [exact Hst|by eapply star_step, star_refl]).
Qed.

Lemma process_attestation_batch_atomic e vs atts : vset e = Ok vs -> forall s h acc,
  exists h', star atomic_step (s, h)
    ((foldl (batch_step config verify_attestation vs) (s, acc) atts).1, h ++ h') /\ led_by e atts h'.
Proof.
  intros Hvs. induction atts as [|a atts IH]; intros s h acc; simpl.
  { exists []. rewrite app_nil_r. split; [constructor|by intros ? ? ?%elem_of_nil]. }
  destruct acc as [[acc rej] nj].
  destruct (process_attestation_update_atomic s h a e vs Hvs) as (h1 & Hu & Hl1).
  destruct (process_attestation_update _ _ s a vs) as [s' r]. simpl in Hu.
  assert (Hrest : forall acc', exists h', star atomic_step (s, h)
    ((foldl (batch_step config verify_attestation vs) (s', acc') atts).1, h ++ h') /\ led_by e (a :: atts) h').
  { intros acc'. destruct (IH s' (h ++ h1) acc') as (h2 & Hst & Hl2). exists (h1 ++ h2).
    rewrite app_assoc. split; [by eapply star_trans|]. intros b e' [Hb|Hb]%elem_of_app.
    - destruct (Hl1 b e' Hb) as [->%list_elem_of_singleton ->]. split; [by left|done].
    - destruct (Hl2 b e' Hb) as [? ->]. split; [by right|done]. }
  destruct r as [[cp|]|e'|]; apply Hrest.
Qed.

(** A call of [process_attestations], whatever its batch and whatever block storage
    answers, is a sequence of critical sections, which count the votes of the
    batch with the set of the epoch the first one votes for; and so is
    [reset_from_halted]. *)
Theorem process_attestations_steps mark_finalized cid s h atts :
  (exists h', star atomic_step (s, h)
    ((process_attestations config verify_attestation vset mark_finalized cid s atts).1, h ++ h')
   /\ led_by (match atts with a0 :: _ => vote_epoch a0 | [] => 0 end) atts h')
  /\ star atomic_step (s, h) ((reset_from_halted s).1, h).
Proof.
  split; [|eapply star_step; [apply at_reset|constructor]].
  assert (Hnone : forall e, exists h', star atomic_step (s, h) (s, h ++ h') /\ led_by e atts h').
  { intros e. exists []. rewrite app_nil_r. split; [constructor|by intros ? ? ?%elem_of_nil]. }
  unfold process_attestations. case_match; [apply Hnone|].
  destruct atts as [|a0 atts]; [apply Hnone|]. simpl sbind. cbv beta iota zeta.
  fold (vote_epoch a0). destruct (vset (vote_epoch a0)) as [vs|e|] eqn:Hvs;
    cbn [sbind]; [|apply Hnone..].
  unfold process_attestation_batch.
  destruct (process_attestation_batch_atomic (vote_epoch a0) vs (a0 :: atts) Hvs s h (0, 0, None))
    as (h' & Hb & Hled).
  destruct (foldl _ _ _) as [s1 [[acc rej] nj]]. cbn [fst] in Hb. exists h'. split; [|done].
  assert (Hf := at_finalize s1 (h ++ h') (vote_epoch a0)).
  destruct (check_and_process_finalization _ _ _) as [s2 f]. cbn [fst] in Hf.
  eapply star_trans; [apply Hb|]. eapply star_step; [exact Hf|].
  destruct f as [f|]; [unfold handle_finalization_notification; case_match|].
  - eapply star_step; [apply at_failed|]. eapply star_step; [apply at_take|constructor].
  - eapply star_step; [apply at_take|constructor].
  - eapply star_step; [apply at_take|constructor].
Qed.

(** ** Offenses *)

(** Casper's two commandments, as the protocol states them. *)
Definition double_vote (a b : Attestation) : Prop :=
  id_epoch (target_checkpoint a) = id_epoch (target_checkpoint b) /\
  id_block_hash (target_checkpoint a) <> id_block_hash (target_checkpoint b).
Definition surrounds (a b : Attestation) : Prop :=
  id_epoch (source_checkpoint a) < id_epoch (source_checkpoint b) /\
  id_epoch (target_checkpoint b) < id_epoch (target_checkpoint a).
Definition slashable (a b : Attestation) : Prop :=
  validator_id a = validator_id b /\ (double_vote a b \/ surrounds a b \/ surrounds b a).

Lemma conflicts_with_slashable a b : conflicts_with a b = true <-> slashable a b.
Proof.
  unfold conflicts_with, slashable, double_vote, surrounds. split.
  - intros H. repeat case_match; bools; try done; lia.
  - intros [Hv H]. repeat case_match; bools; try done; lia.
Qed.

(** The slashing check is exact for what it remembers.  An
    attestation is refused with [ConflictingAttestation] if and only if the
    same validator's recorded history contains an attestation it violates
    Casper's commandments with; the offense recorded names such a pair and the
    commandment that was broken, and nothing else of the state changes. *)
Theorem slashing_check_exact s a :
  let history := default [] (attestation_history s !! validator_id a) in
  let '(s', r) := check_slashable_conditions s a (validator_id a) in
  (r = Err ConflictingAttestation <-> exists prev, prev ∈ history /\ slashable a prev) /\
  (r = Ok tt -> s' = s) /\
  (r <> Ok tt -> exists o prev,
     slashable_offenses s' = slashable_offenses s ++ [o] /\
     so_validator_id o = validator_id a /\ so_attestation1 o = a /\ so_attestation2 o = prev /\
     prev ∈ history /\
     match so_offense_type o with
     | DoubleVote => double_vote a prev
     | SurroundVote => surrounds a prev \/ surrounds prev a
     end /\
     checkpoints s' = checkpoints s /\ attestations s' = attestations s /\
     attestation_history s' = attestation_history s).
Proof.
  cbv zeta. unfold check_slashable_conditions.
  destruct (attestation_history s !! validator_id a) as [h|] eqn:Eh; simpl.
  2: { split_and!; [|done|done]. split; [done|]. by intros (p & ?%elem_of_nil & _). }
  destruct (base.filter _ h) as [|p l] eqn:Ef; simpl.
  - split_and!; [|done|done]. split; [done|]. intros (p & Hp & Hs%conflicts_with_slashable).
    assert (Hin : p ∈ base.filter (fun prev => conflicts_with a prev = true) h)
      by by apply list_elem_of_filter.
    rewrite Ef in Hin. by apply elem_of_nil in Hin.
  - assert (Hp : p ∈ base.filter (fun prev => conflicts_with a prev = true) h)
      by (rewrite Ef; left).
    apply list_elem_of_filter in Hp as [Hc%conflicts_with_slashable Hp]. split_and!; [split; [by eauto|done]|done|].
    intros _. do 2 eexists. split_and!; try done. simpl.
    destruct Hc as [_ Hc]. unfold double_vote, surrounds in *.
    destruct (Z.eqb_spec (id_epoch (target_checkpoint a)) (id_epoch (target_checkpoint p))); lia.
Qed.

(** ** The circuit breaker *)

(** As the service drives it, the circuit breaker never
    reaches [HaltedAwaitingIntervention]: no code path of the service emits
    [SyncFailed] or [SyncSuccess], so in every reachable state the breaker is
    [Running] or stuck in the first sync attempt. *)
Theorem service_never_halts s h : reachable s h ->
  cb_state (circuit_breaker s) = Running \/ cb_state (circuit_breaker s) = Sync 1.
Proof.
  intros Hr. refine (star_invariant atomic_step
    (fun sh => cb_state (circuit_breaker sh.1) = Running \/ cb_state (circuit_breaker sh.1) = Sync 1)
    _ (state_new, []) (s, h) _ Hr); [|by left].
  clear s h Hr. intros s s' HI Hs. destruct Hs; cbn [fst snd] in *.
  - destruct (check_slashable_core s a vid) as (_ & _ & _ & _ & ->). done.
  - unfold apply_attestation, get_or_create_checkpoint.
    repeat (case_match; simplify_eq/=; try done).
  - unfold check_and_process_finalization, prune_old_checkpoints, check_finalization.
    repeat (case_match; simplify_eq/=; try done); unfold next_state; destruct HI as [->| ->]; auto.
  - simpl. unfold next_state. destruct HI as [->| ->]; auto.
  - done.
  - unfold reset_from_halted, is_halted. destruct HI as [E|E]; rewrite E; simpl; auto.
Qed.

End claims.

Lemma halted_absorbing evs : forall c, is_halted c = true -> ManualIntervention ∉ evs ->
  is_halted (foldl process_event c evs) = true.
Proof.
  induction evs as [|ev evs IH]; intros c Hc Hn; [done|]. simpl.
  apply not_elem_of_cons in Hn as [Hne Hn]. apply IH; [|done].
  unfold is_halted in *. simpl. unfold next_state. destruct (cb_state c), ev; done.
Qed.

Lemma sync_failed_run m k : in_width 8 m ->
  let c := foldl process_event (process_event (with_max_attempts m) FinalityFailed)
             (replicate k SyncFailed) in
  cb_max_sync_attempts c = m /\
  cb_state c = if Z.of_nat k <? Z.max 1 m then Sync (Z.of_nat k + 1)
               else HaltedAwaitingIntervention.
Proof.
  intros Hm. cbv zeta. induction k as [|k IH].
  { simpl. rewrite (proj2 (Z.ltb_lt _ _)) by lia. done. }
  rewrite replicate_S_end, foldl_app. cbn [foldl]. destruct IH as [IHm IHs].
  set (c := foldl _ _ _) in *. simpl. split; [done|]. unfold next_state. rewrite IHs, IHm.
  unfold in_width, wrapping_add in *.
  destruct (Z.ltb_spec (Z.of_nat k) (Z.max 1 m)).
  - destruct (Z.leb_spec m (Z.of_nat k + 1)), (Z.ltb_spec (Z.of_nat (S k)) (Z.max 1 m));
      try lia; [done|]. f_equal. rewrite Z.mod_small; lia.
  - by rewrite (proj2 (Z.ltb_ge _ _)) by lia.
Qed.

(** The circuit breaker by itself: after a finality failure it
    tolerates exactly as many failed sync attempts as configured (at least one)
    before it halts, for every 8-bit limit, and once halted no sequence of
    events without a manual intervention makes it leave that state. *)
Theorem breaker_halts_after_limit m k : in_width 8 m ->
  (is_halted (foldl process_event (process_event (with_max_attempts m) FinalityFailed)
                (replicate k SyncFailed)) = true <-> Z.max 1 m <= Z.of_nat k) /\
  (forall c evs, is_halted c = true -> ManualIntervention ∉ evs ->
     is_halted (foldl process_event c evs) = true).
Proof.
  intros Hm. split; [|intros c evs; apply halted_absorbing].
  pose proof (sync_failed_run m k Hm) as [_ E]. unfold is_halted. rewrite E.
  destruct (Z.ltb_spec (Z.of_nat k) (Z.max 1 m)); split; done || lia.
Qed.

(** ** Concrete runs *)

#[local] Existing Instance list_bitvec.
#[local] Existing Instance list_bitvec_laws.

(** Three validators with 100 each: all three are needed. *)
Definition sample_set : ValidatorSet :=
  add_validator (add_validator (add_validator (validator_set_new 0) 1 100) 2 100) 3 100.

Definition sample_vset (e : u64) : result FinalityError ValidatorSet := Ok sample_set.

Definition vote (v : ValidatorId) (se : u64) (sh : Hash) (te : u64) (th : Hash) : Attestation := {|
  validator_id := v; source_checkpoint := {| id_epoch := se; id_block_hash := sh |};
  target_checkpoint := {| id_epoch := te; id_block_hash := th |}; signature := []; slot := 0
|}.

(** All three validators vote for one target. *)
Definition votes3 (se : u64) (sh : Hash) (te : u64) (th : Hash) : list Attestation :=
  [vote 1 se sh te th; vote 2 se sh te th; vote 3 se sh te th].

(** A sequence of calls that block storage always answers with success. *)
Definition run_calls (batches : list (list Attestation)) : FinalityServiceState :=
  foldl (fun s atts => (process_attestations default_config (fun _ => true) sample_vset
                          (fun _ => None) 0 s atts).1) state_new batches.

Lemma sample_vset_reachable e vs : sample_vset e = Ok vs -> vs_reachable vs.
Proof.
  intros [= <-]. exists 0.
  eapply star_step; [apply (add_step_intro _ 1 100); [reflexivity|lia]|].
  eapply star_step; [apply (add_step_intro _ 2 100); [reflexivity|lia]|].
  eapply star_step; [apply (add_step_intro _ 3 100); [reflexivity|lia]|constructor].
Defined.

(** Calls one after the other are runs of critical sections, which count every
    vote with the set of the epoch that leads its batch. *)
Lemma run_calls_reachable batches : exists h,
  reachable default_config sample_vset (run_calls batches) h /\
  forall a e, (a, e) ∈ h -> exists atts, atts ∈ batches /\ a ∈ atts /\ vote_epoch <$> atts !! 0%nat = Some e.
Proof.
  unfold run_calls. induction batches as [|atts batches IH] using rev_ind.
  { exists []. split; [constructor|by intros ? ? ?%elem_of_nil]. }
  destruct IH as (h & Hr & Hh). rewrite foldl_app. cbn [foldl].
  destruct (process_attestations_steps default_config (fun _ => true) sample_vset (fun _ => None) 0
    (foldl (fun s atts => (process_attestations default_config (fun _ => true) sample_vset
       (fun _ => None) 0 s atts).1) state_new batches) h atts) as [(h' & Hst & Hled) _].
  exists (h ++ h'). split; [by eapply star_trans|]. intros a e [Hin|Hin]%elem_of_app.
  - destruct (Hh a e Hin) as (b & Hb & ?). exists b. split; [by apply elem_of_app; left|done].
  - destruct (Hled a e Hin) as [Ha ->]. exists atts. split_and!; [by apply elem_of_app; right; left|done|].
    by destruct atts; [apply elem_of_nil in Ha|].
Qed.

Lemma votes3_own_set (l : list (u64 * Hash * u64 * Hash)) h e :
  (forall a e, (a, e) ∈ h -> exists atts : list Attestation, atts ∈ (fun '(se, sh, te, th) => votes3 se sh te th) <$> l /\
     a ∈ atts /\ vote_epoch <$> atts !! 0%nat = Some e) -> own_set h e.
Proof.
  intros Hh a e' Hin <-. destruct (Hh a e' Hin) as (atts & Hl & Ha & He).
  apply list_elem_of_fmap in Hl as ([[[se sh] te] th] & -> & _). injection He as <-.
  unfold votes3 in Ha. repeat setoid_rewrite elem_of_cons in Ha.
  by destruct Ha as [->|[->|[->|?%elem_of_nil]]].
Qed.

(** Epochs 1 and 2 are justified one after the other. *)
Definition sample_links : list (u64 * Hash * u64 * Hash) := [(0, 10, 1, 11); (1, 11, 2, 12)].
Definition sample_run : FinalityServiceState :=
  run_calls ((fun '(se, sh, te, th) => votes3 se sh te th) <$> sample_links).

Lemma justified_has_two_thirds_witness :
  exists c vs, checkpoints sample_run !! 2 = Some c /\ is_justified c = true /\
    sample_vset 2 = Ok vs /\
    2 * vs_total_stake vs < 3 * sumZ (vote_stakes vs (votes_of (attestations sample_run) 2)).
Proof.
  destruct (checkpoints sample_run !! 2) as [c|] eqn:Ec; [|vm_compute in Ec; discriminate Ec].
  assert (Hj : is_justified c = true) by (vm_compute in Ec; injection Ec as <-; reflexivity).
  assert (Ht : cp_total_stake c < 2 ^ 127) by (vm_compute in Ec; injection Ec as <-; reflexivity).
  destruct (run_calls_reachable ((fun '(se, sh, te, th) => votes3 se sh te th) <$> sample_links))
    as (h & Hr & Hh).
  destruct (justified_has_two_thirds default_config sample_vset sample_vset_reachable
    sample_run h 2 c Hr Ec Hj Ht) as (_ & _ & H).
  destruct (H (votes3_own_set _ _ 2 Hh)) as (vs & Hvs & _ & _ & Hst & _).
  exists c, vs. split; [reflexivity|]. split; [exact Hj|]. split; [exact Hvs|exact Hst].
Defined.

Lemma finalized_rests_on_two_justified_witness :
  exists f c', last_finalized sample_run = Some f /\ cp_block_hash f = 11 /\
    checkpoints sample_run !! 2 = Some c' /\ is_justified c' = true.
Proof.
  destruct (last_finalized sample_run) as [f|] eqn:Ef; [|vm_compute in Ef; discriminate Ef].
  destruct (run_calls_reachable ((fun '(se, sh, te, th) => votes3 se sh te th) <$> sample_links))
    as (h & Hr & _).
  destruct (finalized_rests_on_two_justified default_config sample_vset sample_vset_reachable
              sample_run h f Hr Ef) as (c & c' & _ & _ & _ & _ & Hc' & Hj & _).
  vm_compute in Ef. injection Ef as <-. eexists _, c'.
  split; [reflexivity|]. split; [reflexivity|]. split; [exact Hc'|exact Hj].
Defined.

Lemma service_never_halts_witness :
  cb_state (circuit_breaker sample_run) = Running \/
  cb_state (circuit_breaker sample_run) = Sync 1.
Proof.
  destruct (run_calls_reachable ((fun '(se, sh, te, th) => votes3 se sh te th) <$> sample_links))
    as (h & Hr & _).
  apply (service_never_halts default_config sample_vset sample_run h). exact Hr.
Defined.

Lemma breaker_halts_after_limit_witness :
  is_halted (foldl process_event (process_event (with_max_attempts 3) FinalityFailed)
               (replicate 3 SyncFailed)) = true.
Proof.
  refine (proj2 (proj1 (breaker_halts_after_limit 3 3 _)) _); [unfold in_width; lia|lia].
Defined.

(** ** Where the implementation falls short of the protocol *)

(** The validators of epoch 2 are others than those of the other epochs. *)
Definition changing_vset (e : u64) : result FinalityError ValidatorSet :=
  Ok (if e =? 2 then add_validator (validator_set_new 2) 4 300 else sample_set).

(** A batch that a vote for epoch 1 leads is counted with the validators of
    epoch 1: votes of its members for epoch 2 justify epoch 2, although none of
    them is a validator of epoch 2. *)
Theorem mixed_batch_justifies :
  let s := (process_attestations default_config (fun _ => true) changing_vset (fun _ => None) 0
              state_new (vote 1 0 10 1 11 :: votes3 1 11 2 12)).1 in
  (is_justified <$> checkpoints s !! 2) = Some true /\
  (forall a, a ∈ votes_of (attestations s) 2 -> vs_contains (add_validator (validator_set_new 2) 4 300) (validator_id a) = false)
  /\ slashable_offenses s = [].
Proof.
  cbn zeta. split_and!; [by vm_compute| |by vm_compute]. intros a Ha.
  vm_compute in Ha. repeat setoid_rewrite elem_of_cons in Ha.
  by destruct Ha as [->|[->|[->|?%elem_of_nil]]].
Qed.

(** The stake that voted for exactly the target [id]. *)
Definition stake_for (s : FinalityServiceState) (id : CheckpointId) : Z :=
  match attestations s !! id with
  | Some g => sumZ (vote_stakes sample_set (ag_attestations g))
  | None => 0
  end.

(** Checkpoints are keyed by epoch alone, so votes for different
    blocks of an epoch add up.  Three validators, each voting for a different
    block, none of them slashable, justify the block that was named first
    although only one third of the stake voted for it. *)
Theorem split_votes_justify :
  let s := run_calls [[vote 1 0 10 1 11; vote 2 0 10 1 12; vote 3 0 10 1 13]] in
  exists c, checkpoints s !! 1 = Some c /\ is_justified c = true /\ cp_block_hash c = 11 /\
    slashable_offenses s = [] /\
    stake_for s {| id_epoch := 1; id_block_hash := 11 |} = 100 /\ vs_total_stake sample_set = 300.
Proof. eexists. split; [vm_compute; reflexivity|]. split_and!; vm_compute; reflexivity. Qed.

(** Finality is not monotone.  Votes for older epochs are still
    counted, and finalizing an old epoch overwrites [last_finalized]: after
    epoch 5 is finalized, votes for epochs 2 and 3, slashable by neither
    commandment, move the last finalized checkpoint back to epoch 2. *)
Theorem last_finalized_can_regress :
  let s1 := run_calls [votes3 4 14 5 15; votes3 5 15 6 16] in
  let s2 := run_calls [votes3 4 14 5 15; votes3 5 15 6 16; votes3 1 11 2 12; votes3 2 12 3 13] in
  option_map cp_epoch (last_finalized s1) = Some 5 /\
  option_map cp_epoch (last_finalized s2) = Some 2 /\ slashable_offenses s2 = [].
Proof. split_and!; vm_compute; reflexivity. Qed.

(** The inactivity leak cannot start once something was finalized.
    In a state whose last justified checkpoint follows a finalized one,
    [check_and_process_finalization] reports that same checkpoint as finalized
    again, whatever epoch the node is at, resets [epochs_without_finality] to
    zero and queues no leak event, even when finality has stalled for good. *)
Theorem stalled_finality_resets_leak {B : BitVecOps} config s s' epoch lj c :
  last_justified s = Some lj -> 1 <= cp_epoch lj ->
  checkpoints s !! (cp_epoch lj - 1) = Some c -> is_finalized c = true ->
  s' = (check_and_process_finalization config s epoch).1 ->
  epochs_without_finality s' = 0 /\
  (check_and_process_finalization config s epoch).2 = Some c /\
  pending_inactivity_events s' = pending_inactivity_events s.
Proof.
  intros Hlj Hpos Hc Hf ->. unfold check_and_process_finalization, check_finalization, checked_sub.
  rewrite Hlj, (proj2 (Z.leb_le _ _)), Hc by done. unfold is_justified, finalize.
  unfold is_finalized in Hf. destruct (cp_state c); [done..|].
  unfold prune_old_checkpoints. simpl. by case_match.
Qed.

(** The epochs go on, the votes do not: the state of [sample_run] and an epoch
    a thousand later. *)
Lemma stalled_finality_resets_leak_witness :
  epochs_without_finality (check_and_process_finalization default_config sample_run 1002).1 = 0.
Proof.
  refine (proj1 (stalled_finality_resets_leak default_config sample_run
            (check_and_process_finalization default_config sample_run 1002).1 1002 _ _ _ _ _ _ eq_refl));
    [vm_compute; reflexivity|vm_compute; discriminate|vm_compute; reflexivity|vm_compute; reflexivity].
Defined.

(** Rejected duplicates still enter the history, which keeps 64 entries: after
    64 copies of a second vote the first one is forgotten, and a vote that
    conflicts with it is counted. *)
Theorem history_flush_hides_double_vote :
  let v := vote 1 0 10 1 11 in
  let s' := run_calls [[v]; replicate 64 (vote 1 1 11 2 12); [vote 1 0 10 1 99]] in
  double_vote v (vote 1 0 10 1 99) /\ slashable_offenses s' = [] /\
  stake_for s' {| id_epoch := 1; id_block_hash := 99 |} = 100 /\
  stake_for s' {| id_epoch := 1; id_block_hash := 11 |} = 100.
Proof. split_and!; [done|done|vm_compute; reflexivity..]. Qed.
