(* ===== verification/SlashingDb.v ===== *)
(** * The slashing database

    Models [crates/qc-09-finality/src/domain/slashing_db.rs]: the per-validator
    summary of past votes and the check of Casper's two commandments against
    it.  Every piece of evidence it produces is genuine; because it compares
    surround votes with the highest source and target only, it does not find
    every violation. *)

From S2P Require Import Prelude.
Local Open Scope Z_scope.

Abbreviation ValidatorId := Z (only parsing).

Inductive SlashingEvidence :=
| DoubleVote (validator : ValidatorId) (target_epoch : u64) (block_a block_b : Hash)
| SurroundVote (validator : ValidatorId)
    (inner_source inner_target outer_source outer_target : u64).

Definition evidence_validator (e : SlashingEvidence) : ValidatorId :=
  match e with DoubleVote v _ _ _ => v | SurroundVote v _ _ _ _ => v end.

Record VoteRecord := {
  highest_source : u64;
  highest_target : u64;
  target_votes : gmap u64 Hash
}.

Definition vote_record_default : VoteRecord :=
  {| highest_source := 0; highest_target := 0; target_votes := ∅ |}.

Record SlashingDb := {
  records : gmap ValidatorId VoteRecord;
  pending_evidence : list SlashingEvidence
}.

Definition slashing_db_new : SlashingDb := {| records := ∅; pending_evidence := [] |}.

Definition check_and_record (db : SlashingDb) (validator : ValidatorId)
  (source_epoch target_epoch : u64) (target_block : Hash)
  : SlashingDb * option SlashingEvidence :=
  let record := default vote_record_default (records db !! validator) in
  let put r := <[validator := r]> (records db) in
  let report evidence :=
    ({| records := put record; pending_evidence := pending_evidence db ++ [evidence] |},
     Some evidence) in
  match target_votes record !! target_epoch with
  | Some existing_block =>
      if negb (existing_block =? target_block) then
        report (DoubleVote validator target_epoch existing_block target_block)
      else ({| records := put record; pending_evidence := pending_evidence db |}, None)
  | None =>
      if (source_epoch <? highest_source record) && (highest_target record <? target_epoch) then
        report (SurroundVote validator (highest_source record) (highest_target record)
                  source_epoch target_epoch)
      else if (highest_source record <? source_epoch) && (target_epoch <? highest_target record) then
        report (SurroundVote validator source_epoch target_epoch
                  (highest_source record) (highest_target record))
      else
        ({| records := put {|
              highest_source :=
                if highest_source record <? source_epoch then source_epoch
                else highest_source record;
              highest_target :=
                if highest_target record <? target_epoch then target_epoch
                else highest_target record;
              target_votes := <[target_epoch := target_block]> (target_votes record) |};
            pending_evidence := pending_evidence db |}, None)
  end.

Definition drain_pending_evidence (db : SlashingDb) : SlashingDb * list SlashingEvidence :=
  ({| records := records db; pending_evidence := [] |}, pending_evidence db).

Definition prune_before (db : SlashingDb) (epoch : u64) : SlashingDb := {|
  records := (fun r => {|
    highest_source := highest_source r; highest_target := highest_target r;
    target_votes := base.filter (fun kv : u64 * Hash => epoch <= kv.1) (target_votes r) |})
    <$> records db;
  pending_evidence := pending_evidence db
|}.

(** ** Runs *)

(** A vote: validator, source epoch, target epoch, target block. *)
Record Vote := { vt_validator : ValidatorId; vt_source : u64; vt_target : u64; vt_block : Hash }.

(** The operations on the database, with the votes cast so far. *)
Inductive db_step : relation (list Vote * SlashingDb) :=
| step_vote votes db v :
    0 <= vt_source v -> 0 <= vt_target v ->
    db_step (votes, db)
      (votes ++ [v], (check_and_record db (vt_validator v) (vt_source v) (vt_target v) (vt_block v)).1)
| step_drain votes db : db_step (votes, db) (votes, (drain_pending_evidence db).1)
| step_prune votes db epoch : db_step (votes, db) (votes, prune_before db epoch).

(** Evidence that two of the votes broke a commandment. *)
Definition genuine (votes : list Vote) (e : SlashingEvidence) : Prop :=
  exists a b, a ∈ votes /\ b ∈ votes /\
    vt_validator a = evidence_validator e /\ vt_validator b = evidence_validator e /\
    match e with
    | DoubleVote _ t ha hb =>
        vt_target a = t /\ vt_target b = t /\ vt_block a = ha /\ vt_block b = hb /\ ha <> hb
    | SurroundVote _ s1 t1 s2 t2 =>
        vt_source a = s1 /\ vt_target a = t1 /\ vt_source b = s2 /\ vt_target b = t2 /\
        s2 < s1 /\ t1 < t2
    end.

(** The highest source and the highest target come from one and the same vote. *)
Record record_ok (votes : list Vote) (v : ValidatorId) (r : VoteRecord) : Prop := {
  ro_highest : highest_source r = 0 /\ highest_target r = 0 \/
    exists a, a ∈ votes /\ vt_validator a = v /\ vt_source a = highest_source r /\
      vt_target a = highest_target r;
  ro_targets t h : target_votes r !! t = Some h ->
    t <= highest_target r /\
    exists a, a ∈ votes /\ vt_validator a = v /\ vt_target a = t /\ vt_block a = h
}.

Definition db_inv (s : list Vote * SlashingDb) : Prop :=
  (forall v r, records s.2 !! v = Some r -> record_ok s.1 v r) /\
  Forall (genuine s.1) (pending_evidence s.2).

Lemma genuine_mono votes v e : genuine votes e -> genuine (votes ++ [v]) e.
Proof.
  intros (a & b & Ha & Hb & H). exists a, b. split_and!; try apply elem_of_app; tauto.
Qed.

Lemma record_ok_mono votes x v r : record_ok votes v r -> record_ok (votes ++ [x]) v r.
Proof.
  intros [H1 H2]. split.
  - destruct H1 as [?|(a & Ha & ?)]; [by left|right]. exists a. rewrite elem_of_app. tauto.
  - intros t h Ht. destruct (H2 t h Ht) as (? & a & Ha & ?). split; [done|]. exists a.
    rewrite elem_of_app. tauto.
Qed.

Lemma default_record_ok votes v db :
  (forall v r, records db !! v = Some r -> record_ok votes v r) ->
  record_ok votes v (default vote_record_default (records db !! v)).
Proof.
  intros H. destruct (records db !! v) as [r|] eqn:E; [by apply H|].
  split; [by left|done].
Qed.

(** The record after a vote that is accepted. *)
Lemma accepted_record_ok votes x r : record_ok votes (vt_validator x) r ->
  0 <= vt_source x -> 0 <= vt_target x -> target_votes r !! vt_target x = None ->
  ~ (vt_source x < highest_source r /\ highest_target r < vt_target x) ->
  ~ (highest_source r < vt_source x /\ vt_target x < highest_target r) ->
  record_ok (votes ++ [x]) (vt_validator x) {|
    highest_source := if highest_source r <? vt_source x then vt_source x else highest_source r;
    highest_target := if highest_target r <? vt_target x then vt_target x else highest_target r;
    target_votes := <[vt_target x := vt_block x]> (target_votes r) |}.
Proof.
  intros Hr Hs Ht Hn H1 H2. apply (record_ok_mono _ x) in Hr as [HH HT].
  assert (Hx : x ∈ votes ++ [x]) by (apply elem_of_app; right; by apply list_elem_of_singleton).
  split; simpl.
  - destruct (Z.ltb_spec (highest_source r) (vt_source x)),
      (Z.ltb_spec (highest_target r) (vt_target x)).
    + right. by exists x.
    + right. exists x. split_and!; try done. lia.
    + right. exists x. split_and!; try done. lia.
    + exact HH.
  - intros t h. destruct (decide (vt_target x = t)) as [<-|Hne].
    + rewrite lookup_insert_eq. intros [= <-]. split; [case_match; bools; lia|]. by exists x.
    + rewrite lookup_insert_ne by done. intros Hl. destruct (HT t h Hl) as [? ?].
      split; [case_match; bools; lia|done].
Qed.

Lemma vote_step_inv votes db x : db_inv (votes, db) -> 0 <= vt_source x -> 0 <= vt_target x ->
  db_inv (votes ++ [x],
    (check_and_record db (vt_validator x) (vt_source x) (vt_target x) (vt_block x)).1).
Proof.
  intros [HR HE] Hs Ht. simpl in *.
  pose proof (default_record_ok votes (vt_validator x) db HR) as Hr.
  assert (HE' : Forall (genuine (votes ++ [x])) (pending_evidence db)).
  { eapply Forall_impl; [exact HE|]. apply genuine_mono. }
  assert (Hx : x ∈ votes ++ [x]) by (apply elem_of_app; right; by apply list_elem_of_singleton).
  assert (Hput : forall r, record_ok (votes ++ [x]) (vt_validator x) r -> forall v r',
    <[vt_validator x := r]> (records db) !! v = Some r' -> record_ok (votes ++ [x]) v r').
  { intros r Hok v r'. destruct (decide (vt_validator x = v)) as [<-|Hne].
    - rewrite lookup_insert_eq. by intros [= <-].
    - rewrite lookup_insert_ne by done. intros Hl. by apply record_ok_mono, HR. }
  unfold check_and_record. set (r := default _ _) in *.
  pose proof (record_ok_mono _ x _ _ Hr) as Hr'.
  assert (Hreport : forall e, genuine (votes ++ [x]) e -> db_inv (votes ++ [x],
    {| records := <[vt_validator x := r]> (records db);
       pending_evidence := pending_evidence db ++ [e] |})).
  { intros e He. split; simpl; [by apply Hput|]. apply Forall_app. split; [done|].
    by apply Forall_singleton. }
  destruct (target_votes r !! vt_target x) as [h|] eqn:El.
  - destruct (Z.eqb_spec h (vt_block x)) as [->|Hne]; simpl; [by split; [apply Hput|]|].
    apply Hreport. destruct (ro_targets _ _ _ Hr' _ _ El) as (_ & a & Ha & ? & ? & ?).
    exists a, x. by split_and!.
  - pose proof (ro_highest _ _ _ Hr') as HH.
    case_match eqn:C1; [|case_match eqn:C2]; simpl; bools.
    + apply Hreport. destruct HH as [[? ?]|(a & Ha & ? & ? & ?)]; [lia|].
      exists a, x. by split_and!.
    + apply Hreport. destruct HH as [[? ?]|(a & Ha & ? & ? & ?)]; [lia|].
      exists x, a. by split_and!.
    + split; simpl; [|done]. apply Hput. apply accepted_record_ok; try done; lia.
Qed.

Lemma db_step_inv s s' : db_inv s -> db_step s s' -> db_inv s'.
Proof.
  intros HI Hs. destruct Hs as [votes db x Hs Ht|votes db|votes db epoch].
  - by apply vote_step_inv.
  - split; [apply HI|constructor].
  - destruct HI as [HR HE]. split; simpl in *; [|done]. intros v r.
    rewrite lookup_fmap. intros (r0 & Hr0 & ->)%fmap_Some.
    destruct (HR v r0 Hr0) as [H1 H2]. split; [done|]. simpl.
    intros t h [Hl _]%map_lookup_filter_Some. by apply H2.
Qed.

(** The slashing database never frames an honest validator.  After
    any sequence of votes, drains and prunings, every piece of evidence it
    holds names two votes that validator really cast and that break the
    commandment the evidence states. *)
Theorem slashing_evidence_genuine votes db e :
  star db_step ([], slashing_db_new) (votes, db) -> e ∈ pending_evidence db -> genuine votes e.
Proof.
  intros Hs He. assert (HI : db_inv (votes, db)).
  { refine (star_invariant db_step db_inv db_step_inv _ _ _ Hs). split; [|constructor].
    intros v r. simpl. by rewrite lookup_empty. }
  destruct HI as [_ HE]. exact (proj1 (Forall_forall _ _) HE e He).
Qed.

Definition mk_vote (v : ValidatorId) (s t : u64) (h : Hash) : Vote :=
  {| vt_validator := v; vt_source := s; vt_target := t; vt_block := h |}.

Lemma slashing_evidence_genuine_witness :
  genuine [mk_vote 1 2 3 30; mk_vote 1 1 4 40] (SurroundVote 1 2 3 1 4).
Proof.
  apply (slashing_evidence_genuine _
    (check_and_record (check_and_record slashing_db_new 1 2 3 30).1 1 1 4 40).1).
  - eapply star_step; [apply (step_vote _ _ (mk_vote 1 2 3 30)); simpl; lia|].
    eapply star_step; [apply (step_vote _ _ (mk_vote 1 1 4 40)); simpl; lia|]. constructor.
  - vm_compute. left.
Defined.

(** Surround votes are missed when the surrounded vote is not the highest: after
    the votes 1-2 and 5-6, the vote 0-3 surrounds 1-2 and is accepted. *)
Theorem surround_vote_missed :
  let db1 := (check_and_record slashing_db_new 1 1 2 12).1 in
  let db2 := (check_and_record db1 1 5 6 16).1 in
  (check_and_record db2 1 0 3 13).2 = None /\
  pending_evidence (check_and_record db2 1 0 3 13).1 = [] /\ 0 < 1 /\ 2 < 3.
Proof. split_and!; vm_compute; reflexivity. Qed.
