(* ===== verification/CrossChain.v ===== *)
(** * Cross-chain swaps: hash time-locked contracts

    Models [crates/qc-15-cross-chain/src/]: the state machines and entities
    ([domain/value_objects.rs], [domain/entities.rs]), the invariants
    ([domain/invariants.rs]), the swap and secret algorithms
    ([algorithms/atomic_swap.rs], [algorithms/secret.rs]), the contract adapter
    ([adapters/htlc_contract.rs]) and the finality checker
    ([adapters/finality_checker.rs]).  SHA-256 and the random generator are
    parameters. *)

From S2P Require Import Prelude.
From stdpp Require Import strings.
Local Open Scope Z_scope.

(** ** [value_objects.rs] *)

Inductive ChainId := QuantumChain | Ethereum | Bitcoin | Polygon | Arbitrum.

#[export] Instance chain_id_eq_dec : EqDecision ChainId.
Proof. solve_decision. Defined.

(** [chain as u8]. *)
Definition chain_as_u8 (c : ChainId) : u8 :=
  match c with QuantumChain => 0 | Ethereum => 1 | Bitcoin => 2 | Polygon => 3 | Arbitrum => 4 end.

Definition chain_of_u8 (n : u8) : option ChainId :=
  if n =? 0 then Some QuantumChain else if n =? 1 then Some Ethereum
  else if n =? 2 then Some Bitcoin else if n =? 3 then Some Polygon
  else if n =? 4 then Some Arbitrum else None.

#[export] Program Instance chain_id_countable : Countable ChainId :=
  inj_countable chain_as_u8 chain_of_u8 _.
Next Obligation. by intros []. Qed.

Definition required_confirmations (c : ChainId) : u64 :=
  match c with QuantumChain => 6 | Ethereum => 12 | Bitcoin => 6 | Polygon => 128 | Arbitrum => 1 end.

Definition block_time_secs (c : ChainId) : u64 :=
  match c with QuantumChain => 10 | Ethereum => 12 | Bitcoin => 600 | Polygon => 2 | Arbitrum => 1 end.

Inductive HTLCState := Pending | Locked | Claimed | Expired | Refunded.

Definition htlc_state_name (s : HTLCState) : string :=
  match s with
  | Pending => "Pending" | Locked => "Locked" | Claimed => "Claimed" | Expired => "Expired"
  | Refunded => "Refunded"
  end.

Definition htlc_can_transition_to (self next : HTLCState) (current_time timelock : u64) : bool :=
  match self, next with
  | Pending, Locked => true
  | Locked, Claimed => current_time <=? timelock
  | Locked, Expired => timelock <? current_time
  | Expired, Refunded => true
  | _, _ => false
  end.

Definition htlc_is_terminal (s : HTLCState) : bool :=
  match s with Claimed | Refunded => true | _ => false end.

Inductive SwapState := Initiated | SourceLocked | TargetLocked | Completed | SwapRefunded.

Definition swap_state_name (s : SwapState) : string :=
  match s with
  | Initiated => "Initiated" | SourceLocked => "SourceLocked" | TargetLocked => "TargetLocked"
  | Completed => "Completed" | SwapRefunded => "Refunded"
  end.

Definition swap_can_transition_to (self next : SwapState) : bool :=
  match self, next with
  | Initiated, SourceLocked => true
  | Initiated, SwapRefunded => true
  | SourceLocked, TargetLocked => true
  | SourceLocked, SwapRefunded => true
  | TargetLocked, Completed => true
  | TargetLocked, SwapRefunded => true
  | _, _ => false
  end.

Definition swap_is_terminal (s : SwapState) : bool :=
  match s with Completed | SwapRefunded => true | _ => false end.

Record ChainAddress := { ca_chain : ChainId; ca_address : Address }.

(** ** [errors.rs] *)

Abbreviation Secret := Z (only parsing).

Inductive CrossChainError :=
| UnsupportedChain (what : string)
| HTLCNotFound (id : Hash)
| InvalidSecret
| HTLCExpired
| HTLCNotExpired
| InvalidTimelockMargin (source_timelock target_timelock required_margin : u64)
| NotFinalized (got required : u64)
| UnauthorizedClaimer
| InvalidSwapTransition (from to : string)
| InvalidHTLCTransition (from to : string)
| InvalidProof
| SwapNotFound (id : Hash)
| NetworkError (what : string)
| AlreadyClaimed
| AlreadyRefunded.

(** ** [entities.rs] *)

Record HTLC := {
  h_id : Hash;
  h_hash_lock : Hash;
  h_time_lock : u64;
  h_amount : u64;
  h_sender : ChainAddress;
  h_recipient : ChainAddress;
  h_state : HTLCState;
  h_secret : option Secret;
  h_created_at : u64
}.

Record HTLCParams := {
  hp_id : Hash;
  hp_hash_lock : Hash;
  hp_time_lock : u64;
  hp_amount : u64;
  hp_sender : ChainAddress;
  hp_recipient : ChainAddress;
  hp_created_at : u64
}.

Definition htlc_new (p : HTLCParams) : HTLC := {|
  h_id := hp_id p; h_hash_lock := hp_hash_lock p; h_time_lock := hp_time_lock p;
  h_amount := hp_amount p; h_sender := hp_sender p; h_recipient := hp_recipient p;
  h_state := Pending; h_secret := None; h_created_at := hp_created_at p
|}.

Definition set_htlc (h : HTLC) (state : HTLCState) (secret : option Secret) : HTLC := {|
  h_id := h_id h; h_hash_lock := h_hash_lock h; h_time_lock := h_time_lock h;
  h_amount := h_amount h; h_sender := h_sender h; h_recipient := h_recipient h;
  h_state := state; h_secret := secret; h_created_at := h_created_at h
|}.

Definition is_expired (h : HTLC) (current_time : u64) : bool := h_time_lock h <? current_time.

Definition can_claim (h : HTLC) (current_time : u64) : bool :=
  match h_state h with Locked => negb (is_expired h current_time) | _ => false end.

Definition can_refund (h : HTLC) (current_time : u64) : bool :=
  match h_state h with Locked | Expired => is_expired h current_time | _ => false end.

Definition htlc_transition_to (h : HTLC) (new_state : HTLCState) (current_time : u64)
  : HTLC * result CrossChainError unit :=
  if negb (htlc_can_transition_to (h_state h) new_state current_time (h_time_lock h)) then
    (h, Err (InvalidHTLCTransition (htlc_state_name (h_state h)) (htlc_state_name new_state)))
  else (set_htlc h new_state (h_secret h), Ok tt).

Definition htlc_claim (h : HTLC) (secret : Secret) (current_time : u64)
  : HTLC * result CrossChainError unit :=
  if is_expired h current_time then (h, Err HTLCExpired)
  else (set_htlc h Claimed (Some secret), Ok tt).

Definition htlc_refund (h : HTLC) (current_time : u64) : HTLC * result CrossChainError unit :=
  if negb (is_expired h current_time) then (h, Err HTLCNotExpired)
  else (set_htlc h Refunded (h_secret h), Ok tt).

Record AtomicSwap := {
  sw_id : Hash;
  sw_source_chain : ChainId;
  sw_target_chain : ChainId;
  sw_initiator : Address;
  sw_counterparty : Address;
  sw_source_htlc_id : option Hash;
  sw_target_htlc_id : option Hash;
  sw_state : SwapState;
  sw_hash_lock : Hash;
  sw_source_amount : u64;
  sw_target_amount : u64;
  sw_created_at : u64
}.

Definition swap_new (id : Hash) (source_chain target_chain : ChainId)
  (initiator counterparty : Address) (hash_lock : Hash)
  (source_amount target_amount created_at : u64) : AtomicSwap := {|
  sw_id := id; sw_source_chain := source_chain; sw_target_chain := target_chain;
  sw_initiator := initiator; sw_counterparty := counterparty; sw_source_htlc_id := None;
  sw_target_htlc_id := None; sw_state := Initiated; sw_hash_lock := hash_lock;
  sw_source_amount := source_amount; sw_target_amount := target_amount;
  sw_created_at := created_at
|}.

Definition set_swap (w : AtomicSwap) (source target : option Hash) (state : SwapState)
  : AtomicSwap := {|
  sw_id := sw_id w; sw_source_chain := sw_source_chain w; sw_target_chain := sw_target_chain w;
  sw_initiator := sw_initiator w; sw_counterparty := sw_counterparty w;
  sw_source_htlc_id := source; sw_target_htlc_id := target; sw_state := state;
  sw_hash_lock := sw_hash_lock w; sw_source_amount := sw_source_amount w;
  sw_target_amount := sw_target_amount w; sw_created_at := sw_created_at w
|}.

Definition swap_transition_to (w : AtomicSwap) (new_state : SwapState)
  : AtomicSwap * result CrossChainError unit :=
  if negb (swap_can_transition_to (sw_state w) new_state) then
    (w, Err (InvalidSwapTransition (swap_state_name (sw_state w)) (swap_state_name new_state)))
  else (set_swap w (sw_source_htlc_id w) (sw_target_htlc_id w) new_state, Ok tt).

Definition set_source_htlc (w : AtomicSwap) (htlc_id : Hash)
  : AtomicSwap * result CrossChainError unit :=
  swap_transition_to (set_swap w (Some htlc_id) (sw_target_htlc_id w) (sw_state w)) SourceLocked.

Definition set_target_htlc (w : AtomicSwap) (htlc_id : Hash)
  : AtomicSwap * result CrossChainError unit :=
  swap_transition_to (set_swap w (sw_source_htlc_id w) (Some htlc_id) (sw_state w)) TargetLocked.

(** ** [invariants.rs] *)

Definition MIN_TIMELOCK_MARGIN_SECS : u64 := 6 * 3600.

Definition invariant_timelock_ordering (source_timelock target_timelock min_margin_secs : u64)
  : result CrossChainError unit :=
  if source_timelock <=? wrapping_add 64 target_timelock min_margin_secs then
    Err (InvalidTimelockMargin source_timelock target_timelock min_margin_secs)
  else Ok tt.

Definition invariant_hashlock_match (source_hashlock target_hashlock : Hash) : bool :=
  source_hashlock =? target_hashlock.

Definition invariant_authorized_claimer (h : HTLC) (claimer : Address) : bool :=
  ca_address (h_recipient h) =? claimer.

Definition invariant_sufficient_confirmations (confirmations required : u64)
  : result CrossChainError unit :=
  if confirmations <? required then Err (NotFinalized confirmations required) else Ok tt.

(** ** [secret.rs] *)

(** The accumulating loop over the 32 byte pairs. *)
Definition constant_time_eq (a b : list u8) : bool :=
  foldl (fun result ab => Z.lor result (Z.lxor ab.1 ab.2)) 0 (zip a b) =? 0.

Section secret.
Variable sha256 : list u8 -> Hash.

Definition create_hash_lock (secret : Secret) : Hash := sha256 (hash_bytes secret).

Definition verify_secret (secret : Secret) (hash_lock : Hash) : bool :=
  constant_time_eq (hash_bytes (create_hash_lock secret)) (hash_bytes hash_lock).

Definition invariant_secret_matches (secret : Secret) (hashlock : Hash) : bool :=
  create_hash_lock secret =? hashlock.

Definition verify_claim (secret : Secret) (hash_lock : Hash) (claimer authorized_recipient : Address)
  (current_time time_lock : u64) : result CrossChainError unit :=
  if time_lock <? current_time then Err HTLCExpired
  else if negb (verify_secret secret hash_lock) then Err InvalidSecret
  else if negb (claimer =? authorized_recipient) then Err UnauthorizedClaimer
  else Ok tt.

Definition verify_refund (current_time time_lock : u64) : result CrossChainError unit :=
  if current_time <=? time_lock then Err HTLCNotExpired else Ok tt.

(** ** [atomic_swap.rs] *)

Record AtomicSwapParams := {
  sp_source_chain : ChainId;
  sp_target_chain : ChainId;
  sp_initiator : Address;
  sp_counterparty : Address;
  sp_source_amount : u64;
  sp_target_amount : u64;
  sp_current_time : u64
}.

(** [secret] is what [generate_random_secret] drew; [swap_id[0] ^= 0xFF] flips
    the eight most significant bits of the hash lock. *)
Definition create_atomic_swap (secret : Secret) (p : AtomicSwapParams) : AtomicSwap * Secret :=
  let hash_lock := create_hash_lock secret in
  let swap_id := Z.lxor hash_lock (Z.shiftl 255 248) in
  (swap_new swap_id (sp_source_chain p) (sp_target_chain p) (sp_initiator p) (sp_counterparty p)
     hash_lock (sp_source_amount p) (sp_target_amount p) (sp_current_time p), secret).

Definition validate_swap_timelocks (source_timelock target_timelock : u64)
  : result CrossChainError unit :=
  invariant_timelock_ordering source_timelock target_timelock MIN_TIMELOCK_MARGIN_SECS.

Definition calculate_timelocks (source_chain target_chain : ChainId) (current_time : u64)
  : u64 * u64 :=
  let target_finality :=
    wrapping_mul 64 (required_confirmations target_chain) (block_time_secs target_chain) in
  let target_timeout :=
    wrapping_add 64 (wrapping_add 64 current_time target_finality) (6 * 3600) in
  let source_timeout := wrapping_add 64 target_timeout MIN_TIMELOCK_MARGIN_SECS in
  (source_timeout, target_timeout).

End secret.

(** ** [htlc_contract.rs] *)

Record HTLCDeployParams := {
  dp_chain : ChainId;
  dp_hash_lock : Hash;
  dp_time_lock : u64;
  dp_amount : u64;
  dp_sender : Address;
  dp_recipient : Address
}.

Inductive HTLCInternalState := ILocked | IClaimed | IRefunded.

Definition internal_state_name (s : HTLCInternalState) : string :=
  match s with ILocked => "Locked" | IClaimed => "Claimed" | IRefunded => "Refunded" end.

Record HTLCData := {
  hd_params : HTLCDeployParams;
  hd_state : HTLCInternalState;
  hd_claim_tx : option (list u8)
}.

Record InMemoryHTLCContract := {
  htlcs : gmap (ChainId * Hash) HTLCData;
  current_time : u64
}.

Definition contract_new : InMemoryHTLCContract :=
  {| htlcs := ∅; current_time := 1700000000 |}.

Definition set_time (c : InMemoryHTLCContract) (time : u64) : InMemoryHTLCContract :=
  {| htlcs := htlcs c; current_time := time |}.

Definition advance_time (c : InMemoryHTLCContract) (secs : u64) : InMemoryHTLCContract :=
  {| htlcs := htlcs c; current_time := wrapping_add 64 (current_time c) secs |}.

Section contract.
Variable sha256 : list u8 -> Hash.

Definition generate_htlc_id (p : HTLCDeployParams) : Hash :=
  sha256 (le_bytes 1 (chain_as_u8 (dp_chain p)) ++ hash_bytes (dp_hash_lock p) ++
          le_bytes 8 (dp_time_lock p) ++ le_bytes 8 (dp_amount p) ++
          address_bytes (dp_sender p) ++ address_bytes (dp_recipient p)).

Definition deploy (c : InMemoryHTLCContract) (p : HTLCDeployParams)
  : InMemoryHTLCContract * result CrossChainError Hash :=
  let htlc_id := generate_htlc_id p in
  let data := {| hd_params := p; hd_state := ILocked; hd_claim_tx := None |} in
  ({| htlcs := <[(dp_chain p, htlc_id) := data]> (htlcs c); current_time := current_time c |},
   Ok htlc_id).

(** The pseudo transaction id of a claim: eight bytes of time, 24 of the id. *)
Definition claim_tx_id (current : u64) (htlc_id : Hash) : list u8 :=
  le_bytes 8 current ++ take 24 (hash_bytes htlc_id).

Definition claim (c : InMemoryHTLCContract) (chain : ChainId) (htlc_id : Hash) (secret : Secret)
  : InMemoryHTLCContract * result CrossChainError unit :=
  match htlcs c !! (chain, htlc_id) with
  | None => (c, Err (HTLCNotFound htlc_id))
  | Some data =>
      match hd_state data with
      | ILocked =>
          if negb (sha256 (hash_bytes secret) =? dp_hash_lock (hd_params data)) then
            (c, Err InvalidSecret)
          else if dp_time_lock (hd_params data) <? current_time c then (c, Err HTLCExpired)
          else
            let data := {| hd_params := hd_params data; hd_state := IClaimed;
                           hd_claim_tx := Some (claim_tx_id (current_time c) htlc_id) |} in
            ({| htlcs := <[(chain, htlc_id) := data]> (htlcs c); current_time := current_time c |},
             Ok tt)
      | s => (c, Err (InvalidHTLCTransition (internal_state_name s) "Claimed"))
      end
  end.

Definition refund (c : InMemoryHTLCContract) (chain : ChainId) (htlc_id : Hash)
  : InMemoryHTLCContract * result CrossChainError unit :=
  match htlcs c !! (chain, htlc_id) with
  | None => (c, Err (HTLCNotFound htlc_id))
  | Some data =>
      match hd_state data with
      | ILocked =>
          if current_time c <=? dp_time_lock (hd_params data) then (c, Err HTLCNotExpired)
          else
            let data := {| hd_params := hd_params data; hd_state := IRefunded;
                           hd_claim_tx := hd_claim_tx data |} in
            ({| htlcs := <[(chain, htlc_id) := data]> (htlcs c); current_time := current_time c |},
             Ok tt)
      | s => (c, Err (InvalidHTLCTransition (internal_state_name s) "Refunded"))
      end
  end.

End contract.

(** ** [finality_checker.rs] *)

Record CrossChainProof := {
  pr_chain : ChainId;
  pr_block_hash : Hash;
  pr_block_height : u64;
  pr_tx_hash : Hash;
  pr_merkle_proof : list Hash;
  pr_confirmations : u64
}.

Definition ConfigurableFinalityChecker : Type := gmap ChainId u64.

Definition with_custom (f : ConfigurableFinalityChecker) (chain : ChainId) (confirmations : u64)
  : ConfigurableFinalityChecker := <[chain := confirmations]> f.

Definition checker_required_confirmations (f : ConfigurableFinalityChecker) (chain : ChainId) : u64 :=
  default (required_confirmations chain) (f !! chain).

Definition is_proof_final (f : ConfigurableFinalityChecker) (proof : CrossChainProof) : bool :=
  checker_required_confirmations f (pr_chain proof) <=? pr_confirmations proof.
