(* ===== verification/CrossChainProps.v ===== *)
(** * Cross-chain swaps: what the contracts guarantee

    The claims about [qc-15-cross-chain]: the life cycle of a contract under
    any sequence of calls, the exact conditions of a claim, the window the
    timelock margin gives the counterparty of a swap, and the places where the
    code contradicts its own rules. *)

From S2P Require Import Prelude CrossChain.
From stdpp Require Import strings.
Local Open Scope Z_scope.

Section contract.
Variable sha256 : list u8 -> Hash.

(** Any call of any party, and the passing of time. *)
Inductive contract_op :=
| OpDeploy (p : HTLCDeployParams)
| OpClaim (chain : ChainId) (id : Hash) (secret : Secret)
| OpRefund (chain : ChainId) (id : Hash)
| OpSetTime (time : u64)
| OpAdvance (secs : u64).

Definition exec (c : InMemoryHTLCContract) (op : contract_op) : InMemoryHTLCContract :=
  match op with
  | OpDeploy p => (deploy sha256 c p).1
  | OpClaim chain id secret => (claim sha256 c chain id secret).1
  | OpRefund chain id => (refund c chain id).1
  | OpSetTime time => set_time c time
  | OpAdvance secs => advance_time c secs
  end.

(** The operation does not deploy over the key [k] again. *)
Definition spares (k : ChainId * Hash) (op : contract_op) : Prop :=
  match op with
  | OpDeploy p => (dp_chain p, generate_htlc_id sha256 p) <> k
  | _ => True
  end.

Definition step_sparing (k : ChainId * Hash) (c c' : InMemoryHTLCContract) : Prop :=
  exists op, spares k op /\ c' = exec c op.

(** ** The effect of a step on one contract *)

(** What a step can do to the contract stored under [k]: nothing, claim it with
    a valid secret in time, or refund it after its time. *)
Inductive htlc_moves (time : u64) (k : ChainId * Hash) : relation HTLCData :=
| move_none d : htlc_moves time k d d
| move_claim d secret : hd_state d = ILocked ->
    sha256 (hash_bytes secret) = dp_hash_lock (hd_params d) ->
    time <= dp_time_lock (hd_params d) ->
    htlc_moves time k d {| hd_params := hd_params d; hd_state := IClaimed;
                           hd_claim_tx := Some (claim_tx_id time k.2) |}
| move_refund d : hd_state d = ILocked -> dp_time_lock (hd_params d) < time ->
    htlc_moves time k d {| hd_params := hd_params d; hd_state := IRefunded;
                           hd_claim_tx := hd_claim_tx d |}.

(** The calls write at most the key they name. *)
Lemma claim_lookup c chain id secret k d : htlcs c !! k = Some d ->
  exists d', htlcs (claim sha256 c chain id secret).1 !! k = Some d' /\
    htlc_moves (current_time c) k d d'.
Proof.
  intros Hk. unfold claim. destruct (decide ((chain, id) = k)) as [<-|Hne].
  - rewrite Hk. destruct (hd_state d) eqn:Es; simpl; [|by eauto using htlc_moves..].
    case_match eqn:E1; simpl; [by eauto using htlc_moves|].
    case_match eqn:E2; simpl; [by eauto using htlc_moves|]. bools.
    rewrite lookup_insert_eq. eexists. split; [done|]. by apply (move_claim _ (chain, id) d secret).
  - exists d. split; [|constructor].
    destruct (htlcs c !! (chain, id)) as [d'|]; [|done]. destruct (hd_state d'); [|done..].
    repeat case_match; simpl; try done. by rewrite lookup_insert_ne.
Qed.

Lemma refund_lookup c chain id k d : htlcs c !! k = Some d ->
  exists d', htlcs (refund c chain id).1 !! k = Some d' /\ htlc_moves (current_time c) k d d'.
Proof.
  intros Hk. unfold refund. destruct (decide ((chain, id) = k)) as [<-|Hne].
  - rewrite Hk. destruct (hd_state d) eqn:Es; simpl; [|by eauto using htlc_moves..].
    case_match eqn:E1; simpl; [by eauto using htlc_moves|]. bools.
    rewrite lookup_insert_eq. eexists. split; [done|]. by apply move_refund.
  - exists d. split; [|constructor].
    destruct (htlcs c !! (chain, id)) as [d'|]; [|done]. destruct (hd_state d'); [|done..].
    repeat case_match; simpl; try done. by rewrite lookup_insert_ne.
Qed.

Lemma step_lookup k c c' d : step_sparing k c c' -> htlcs c !! k = Some d ->
  exists d', htlcs c' !! k = Some d' /\ htlc_moves (current_time c) k d d'.
Proof.
  intros (op & Hk & ->) Hd. destruct op as [p|chain id secret|chain id|t|t].
  - exists d. split; [|constructor]. simpl. by rewrite lookup_insert_ne.
  - by apply claim_lookup.
  - by apply refund_lookup.
  - exists d. split; [done|constructor].
  - exists d. split; [done|constructor].
Qed.

Lemma htlc_moves_params time k d d' : htlc_moves time k d d' -> hd_params d' = hd_params d.
Proof. by destruct 1. Qed.

Lemma htlc_moves_terminal time k d d' : htlc_moves time k d d' -> hd_state d <> ILocked -> d' = d.
Proof. by destruct 1. Qed.

(** The life cycle of a deployed contract.  Whatever calls are
    made, by whomever and in whatever order, as long as the same contract is
    not deployed again: it stays in the store, its parameters never change, and
    once claimed or refunded it never changes at all.  So it pays out at most
    once: a claimed contract is never refunded and a refunded one is never
    claimed. *)
Theorem htlc_pays_at_most_once k c c' d : star (step_sparing k) c c' ->
  htlcs c !! k = Some d ->
  exists d', htlcs c' !! k = Some d' /\ hd_params d' = hd_params d /\
    (hd_state d <> ILocked -> d' = d).
Proof.
  intros Hs. revert d. induction Hs as [c|c c1 c' Hst Hs IH]; intros d Hd; [by eauto|].
  destruct (step_lookup k c c1 d Hst Hd) as (d1 & Hd1 & Hm).
  destruct (IH d1 Hd1) as (d' & Hd' & Hp & Ht). exists d'.
  pose proof (htlc_moves_params _ _ _ _ Hm) as Hp1.
  split_and!; [done|congruence|]. intros Hn.
  pose proof (htlc_moves_terminal _ _ _ _ Hm Hn) as ->. by apply Ht.
Qed.

(** A claim succeeds exactly when the contract exists, is
    locked, the secret hashes to its hash lock and its time has not passed;
    then it becomes claimed, at this time, and nothing else changes.  Every
    refused claim leaves the store as it was. *)
Theorem claim_exact c chain id secret :
  match claim sha256 c chain id secret with
  | (c', Ok _) => exists d, htlcs c !! (chain, id) = Some d /\ hd_state d = ILocked /\
      sha256 (hash_bytes secret) = dp_hash_lock (hd_params d) /\
      current_time c <= dp_time_lock (hd_params d) /\
      current_time c' = current_time c /\
      htlcs c' = <[(chain, id) := {| hd_params := hd_params d; hd_state := IClaimed;
                     hd_claim_tx := Some (claim_tx_id (current_time c) id) |}]> (htlcs c)
  | (c', Err e) => c' = c /\ e <> HTLCNotExpired /\
      (htlcs c !! (chain, id) = None \/ exists d, htlcs c !! (chain, id) = Some d /\
         (hd_state d <> ILocked \/ sha256 (hash_bytes secret) <> dp_hash_lock (hd_params d) \/
          dp_time_lock (hd_params d) < current_time c))
  | (_, Panic) => False
  end.
Proof.
  unfold claim. destruct (htlcs c !! (chain, id)) as [d|] eqn:Ed; [|by eauto].
  destruct (hd_state d) eqn:Es.
  - destruct (Z.eqb_spec (sha256 (hash_bytes secret)) (dp_hash_lock (hd_params d))); simpl;
      [|by eauto 10].
    destruct (Z.ltb_spec (dp_time_lock (hd_params d)) (current_time c)); [by eauto 10|].
    exists d. by split_and!.
  - split; [done|]. split; [done|]. right. exists d. split; [done|]. left. congruence.
  - split; [done|]. split; [done|]. right. exists d. split; [done|]. left. congruence.
Qed.

(** ** The swap *)

(** A run during which the clock never passes [deadline]. *)
Definition step_before (deadline : u64) (k : ChainId * Hash) (c c' : InMemoryHTLCContract) : Prop :=
  step_sparing k c c' /\ current_time c <= deadline.

(** Until its time lock a locked contract cannot be refunded. *)
Lemma locked_not_refunded deadline k c c' d : star (step_before deadline k) c c' ->
  htlcs c !! k = Some d -> hd_state d <> IRefunded -> deadline <= dp_time_lock (hd_params d) ->
  exists d', htlcs c' !! k = Some d' /\ hd_params d' = hd_params d /\ hd_state d' <> IRefunded.
Proof.
  intros Hs. revert d. induction Hs as [c|c c1 c' [Hst Ht] Hs IH]; intros d Hd Hn Hdl; [by eauto|].
  destruct (step_lookup k c c1 d Hst Hd) as (d1 & Hd1 & Hm).
  pose proof (htlc_moves_params _ _ _ _ Hm) as Hp1.
  assert (Hn1 : hd_state d1 <> IRefunded) by (destruct Hm; simpl; try done; lia).
  destruct (IH d1 Hd1 Hn1 ltac:(congruence)) as (d' & Hd' & Hp & Hn'). exists d'.
  split_and!; [done|congruence|done].
Qed.

Lemma claim_succeeds c k d secret : htlcs c !! k = Some d -> hd_state d = ILocked ->
  sha256 (hash_bytes secret) = dp_hash_lock (hd_params d) ->
  current_time c <= dp_time_lock (hd_params d) ->
  (claim sha256 c k.1 k.2 secret).2 = Ok tt.
Proof.
  intros Hd Hl Hh Ht. unfold claim. rewrite <- surjective_pairing, Hd, Hl, Hh, Z.eqb_refl. simpl.
  by rewrite (proj2 (Z.ltb_ge _ _)).
Qed.

(** C23 (safety): the atomic swap.  Two contracts carry the same hash lock and
    their time locks passed [validate_swap_timelocks].  Once the target was
    claimed, with whatever secret (so at or before the target's time lock), the
    other party can use that very secret: at any later moment up to the
    target's time lock plus the margin, whatever calls happened in between (short
    of redeploying the source contract), the source is not refunded, and if it
    is not claimed yet, claiming it with the revealed secret succeeds. *)
Theorem swap_margin_protects_counterparty c c1 c2 tgt src dt ds secret :
  htlcs c !! tgt = Some dt -> htlcs c !! src = Some ds ->
  tgt <> src -> hd_state ds = ILocked ->
  dp_hash_lock (hd_params ds) = dp_hash_lock (hd_params dt) ->
  in_width 64 (dp_time_lock (hd_params dt) + MIN_TIMELOCK_MARGIN_SECS) ->
  validate_swap_timelocks (dp_time_lock (hd_params ds)) (dp_time_lock (hd_params dt)) = Ok tt ->
  claim sha256 c tgt.1 tgt.2 secret = (c1, Ok tt) ->
  let deadline := dp_time_lock (hd_params dt) + MIN_TIMELOCK_MARGIN_SECS in
  star (step_before deadline src) c1 c2 -> current_time c2 <= deadline ->
  exists ds', htlcs c2 !! src = Some ds' /\ hd_params ds' = hd_params ds /\
    (hd_state ds' = IClaimed \/
     hd_state ds' = ILocked /\ (claim sha256 c2 src.1 src.2 secret).2 = Ok tt).
Proof.
  intros Hdt Hds Hne Hl Hhash Hw Hv Hcl deadline Hrun Hnow.
  unfold validate_swap_timelocks, invariant_timelock_ordering, wrapping_add, in_width in *.
  rewrite Z.mod_small in Hv by done. fold deadline in Hv, Hw.
  destruct (Z.leb_spec (dp_time_lock (hd_params ds)) deadline); [done|].
  assert (Hsecret : sha256 (hash_bytes secret) = dp_hash_lock (hd_params dt) /\
                    htlcs c1 !! src = Some ds).
  { unfold claim in Hcl. rewrite <- surjective_pairing, Hdt in Hcl. repeat case_match; simplify_eq.
    bools. split; [done|]. simpl. by rewrite lookup_insert_ne. }
  destruct Hsecret as [Hsec Hds1].
  destruct (locked_not_refunded deadline src c1 c2 ds Hrun Hds1) as (ds' & Hds' & Hp & Hn);
    [congruence|lia|].
  exists ds'. split_and!; [done|done|]. destruct (hd_state ds') eqn:Es; [right|by left|done].
  split; [done|]. apply (claim_succeeds c2 src ds'); try done; [congruence|rewrite Hp; lia].
Qed.

End contract.

(** ** Secrets *)

Lemma lor_loop_zero l : forall acc,
  foldl (fun result (ab : u8 * u8) => Z.lor result (Z.lxor ab.1 ab.2)) acc l = 0 <->
  acc = 0 /\ Forall (fun ab : u8 * u8 => ab.1 = ab.2) l.
Proof.
  induction l as [|[x y] l IH]; intros acc; simpl.
  { split; [by intros ->|by intros [-> _]]. }
  rewrite IH, Z.lor_eq_0_iff, Z.lxor_eq_0_iff, Forall_cons. simpl. tauto.
Qed.

Lemma zip_all_equal (a b : list u8) : length a = length b ->
  Forall (fun ab : u8 * u8 => ab.1 = ab.2) (zip a b) <-> a = b.
Proof.
  revert b. induction a as [|x a IH]; intros [|y b]; simpl; try done. intros [= Hl].
  rewrite Forall_cons, IH by done. simpl. split; [by intros [-> ->]|by intros [= -> ->]].
Qed.

Lemma constant_time_eq_spec x y : in_width 256 x -> in_width 256 y ->
  constant_time_eq (hash_bytes x) (hash_bytes y) = true <-> x = y.
Proof.
  intros Hx Hy. unfold constant_time_eq. rewrite Z.eqb_eq, lor_loop_zero.
  rewrite zip_all_equal by by rewrite !length_be_bytes. split.
  - intros [_ H]. by apply hash_bytes_inj.
  - by intros ->.
Qed.

(** [verify_claim] decides exactly what the protocol asks.
    The accumulating byte comparison is equality of hashes, so a claim passes
    if and only if it is in time, the secret hashes to the lock and the claimer
    is the recipient; each error is returned exactly when its condition fails
    and the ones before it hold. *)
Theorem verify_claim_exact (sha256 : list u8 -> Hash) secret hash_lock claimer recipient now tl :
  (forall bytes, in_width 256 (sha256 bytes)) -> in_width 256 hash_lock ->
  let matches := sha256 (hash_bytes secret) = hash_lock in
  match verify_claim sha256 secret hash_lock claimer recipient now tl with
  | Ok _ => now <= tl /\ matches /\ claimer = recipient
  | Err HTLCExpired => tl < now
  | Err InvalidSecret => now <= tl /\ ~ matches
  | Err UnauthorizedClaimer => now <= tl /\ matches /\ claimer <> recipient
  | _ => False
  end.
Proof.
  intros Hsha Hlock matches. unfold verify_claim, verify_secret, create_hash_lock.
  destruct (Z.ltb_spec tl now); [done|].
  pose proof (constant_time_eq_spec _ _ (Hsha (hash_bytes secret)) Hlock) as Hct.
  destruct (constant_time_eq _ _); simpl; [|by split; [|intros ?%Hct]].
  assert (matches) by by apply Hct.
  destruct (Z.eqb_spec claimer recipient); simpl; done.
Qed.

(** ** Time locks *)

(** The recommended time locks are always refused.
    [calculate_timelocks] sets the source time lock to the target's plus exactly
    the margin, and [validate_swap_timelocks] demands strictly more: for every
    pair of chains and every time the pair is rejected. *)
Theorem recommended_timelocks_rejected source target now :
  let '(source_timelock, target_timelock) := calculate_timelocks source target now in
  validate_swap_timelocks source_timelock target_timelock =
    Err (InvalidTimelockMargin source_timelock target_timelock MIN_TIMELOCK_MARGIN_SECS).
Proof.
  unfold calculate_timelocks, validate_swap_timelocks, invariant_timelock_ordering.
  by rewrite Z.leb_refl.
Qed.

(** ** Concrete swaps *)

(** A hash for the examples: the low bytes of the message. *)
Definition toy_hash (bytes : list u8) : Hash := foldl (fun acc b => (acc * 256 + b) mod 2 ^ 256) 0 bytes.

Definition source_params : HTLCDeployParams := {|
  dp_chain := QuantumChain; dp_hash_lock := 42; dp_time_lock := 1700100000; dp_amount := 5;
  dp_sender := 1; dp_recipient := 2
|}.

Definition target_params : HTLCDeployParams := {|
  dp_chain := Ethereum; dp_hash_lock := 42; dp_time_lock := 1700050000; dp_amount := 7;
  dp_sender := 2; dp_recipient := 1
|}.

Definition both_deployed : InMemoryHTLCContract :=
  (deploy toy_hash (deploy toy_hash contract_new source_params).1 target_params).1.

Definition source_key : ChainId * Hash := (QuantumChain, generate_htlc_id toy_hash source_params).
Definition target_key : ChainId * Hash := (Ethereum, generate_htlc_id toy_hash target_params).

Definition secret_revealed : InMemoryHTLCContract :=
  (claim toy_hash both_deployed target_key.1 target_key.2 42).1.

Lemma htlc_pays_at_most_once_witness :
  exists d, htlcs secret_revealed !! target_key = Some d /\ hd_state d = IClaimed /\
    htlcs (advance_time secret_revealed 1000000) !! target_key = Some d.
Proof.
  destruct (htlcs secret_revealed !! target_key) as [d|] eqn:Ed; [|vm_compute in Ed; discriminate Ed].
  assert (Hs : hd_state d = IClaimed) by (vm_compute in Ed; injection Ed as <-; reflexivity).
  exists d. split; [reflexivity|]. split; [exact Hs|].
  destruct (htlc_pays_at_most_once toy_hash target_key secret_revealed
              (advance_time secret_revealed 1000000) d) as (d' & Hd' & _ & Heq).
  - eapply star_step; [|constructor]. exists (OpAdvance 1000000). split; [exact I|reflexivity].
  - exact Ed.
  - rewrite Hd'. f_equal. apply Heq. rewrite Hs. discriminate.
Defined.

Lemma swap_margin_protects_counterparty_witness :
  exists ds', htlcs (advance_time secret_revealed 60000) !! source_key = Some ds' /\
    (hd_state ds' = IClaimed \/ hd_state ds' = ILocked /\
     (claim toy_hash (advance_time secret_revealed 60000) source_key.1 source_key.2 42).2 = Ok tt).
Proof.
  destruct (swap_margin_protects_counterparty toy_hash both_deployed secret_revealed
    (advance_time secret_revealed 60000) target_key source_key
    {| hd_params := target_params; hd_state := ILocked; hd_claim_tx := None |}
    {| hd_params := source_params; hd_state := ILocked; hd_claim_tx := None |} 42)
    as (ds' & Hds' & _ & H).
  - vm_compute. reflexivity.
  - vm_compute. reflexivity.
  - intros E. discriminate E.
  - reflexivity.
  - reflexivity.
  - unfold in_width. vm_compute. split; [discriminate|reflexivity].
  - vm_compute. reflexivity.
  - vm_compute. reflexivity.
  - eapply star_step; [|constructor]. split.
    + exists (OpAdvance 60000). split; [exact I|reflexivity].
    + vm_compute. discriminate.
  - vm_compute. discriminate.
  - exists ds'. split; [exact Hds'|exact H].
Defined.

Lemma toy_hash_width bytes : in_width 256 (toy_hash bytes).
Proof.
  unfold toy_hash. apply (foldl_inv _ (fun h => in_width 256 h)); [|by vm_compute].
  intros s x _. unfold in_width. apply Z.mod_pos_bound. lia.
Qed.

Lemma verify_claim_exact_witness :
  verify_claim toy_hash 42 42 2 2 10 20 = Ok tt /\ toy_hash (hash_bytes 42) = 42.
Proof.
  assert (E : verify_claim toy_hash 42 42 2 2 10 20 = Ok tt) by (vm_compute; reflexivity).
  split; [exact E|].
  pose proof (verify_claim_exact toy_hash 42 42 2 2 10 20 toy_hash_width) as H.
  rewrite E in H. apply H. unfold in_width. lia.
Defined.

(** ** Gaps *)

(** Deploying the same parameters again overwrites the stored contract: a
    claimed contract is locked again and pays out a second time. *)
Theorem redeploy_resets_claimed :
  let c := (deploy toy_hash secret_revealed target_params).1 in
  option_map hd_state (htlcs secret_revealed !! target_key) = Some IClaimed /\
  option_map hd_state (htlcs c !! target_key) = Some ILocked /\
  (claim toy_hash c target_key.1 target_key.2 42).2 = Ok tt.
Proof. split_and!; vm_compute; reflexivity. Qed.

(** The entity's own [claim] and [refund] look only at the clock: any secret
    claims a contract that was never locked, and a claimed one can be refunded
    after its time, although the state machine forbids both moves. *)
Theorem entity_guards_missing p secret now :
  hp_time_lock p < now ->
  (htlc_claim (htlc_new p) secret (hp_time_lock p)).2 = Ok tt /\
  (htlc_refund (htlc_claim (htlc_new p) secret (hp_time_lock p)).1 now).2 = Ok tt /\
  htlc_can_transition_to Pending Claimed (hp_time_lock p) (hp_time_lock p) = false /\
  htlc_can_transition_to Claimed Refunded now (hp_time_lock p) = false.
Proof.
  intros Hnow. unfold htlc_claim, htlc_refund, is_expired. simpl.
  rewrite Z.ltb_irrefl. simpl. by rewrite (proj2 (Z.ltb_lt _ _)) by done.
Qed.

(** A swap never leaves a final state and never moves backwards. *)
Definition swap_rank (s : SwapState) : Z :=
  match s with Initiated => 0 | SourceLocked => 1 | TargetLocked => 2 | Completed | SwapRefunded => 3 end.

Theorem swap_progress s s' : swap_can_transition_to s s' = true ->
  swap_is_terminal s = false /\ swap_rank s < swap_rank s'.
Proof. destruct s, s'; done. Qed.

(** [set_source_htlc] writes the contract id even when the transition is
    refused: a completed swap can have its source contract replaced. *)
Theorem set_source_htlc_not_atomic w id : sw_state w = Completed ->
  (set_source_htlc w id).2 <> Ok tt /\ sw_source_htlc_id (set_source_htlc w id).1 = Some id.
Proof. intros Hw. unfold set_source_htlc, swap_transition_to. simpl. by rewrite Hw. Qed.
