(* ===== verification/BlockStorage.v ===== *)
(** * Block storage: [qc-02-block-storage]

    The stateful assembler ([domain/assembler.rs]), the block index and metadata
    ([domain/entities.rs]), the key layout ([domain/value_objects.rs]), the
    storage ports with their in-memory and file-backed implementations
    ([ports/outbound.rs]) and the service ([service.rs]).

    The key-value store is the class [KeyValueStore], as the source has it: the
    service is written against the class and the two implementations are
    instances.  What the file system, the clock and the checksum answer are
    arguments; [bincode] is a third-party crate, so the serializers are the
    class [BlockSerializer] with the round-trip law [BlockSerializerLaws].
    Error messages are left out. *)

From S2P Require Import Prelude Blocks.
From stdpp Require Import strings.
Local Open Scope Z_scope.
Local Open Scope qc_scope.

(** ** Entities *)

Record StoredBlock := {
  sb_block : ValidatedBlock;
  sb_merkle_root : Hash;
  sb_state_root : Hash;
  sb_stored_at : Timestamp;
  sb_checksum : Z
}.

#[export] Instance StoredBlock_eq_dec : EqDecision StoredBlock.
Proof. solve_decision. Defined.

Definition sb_height (b : StoredBlock) : u64 := vb_height (sb_block b).
Definition sb_parent_hash (b : StoredBlock) : Hash := vb_parent_hash (sb_block b).

(** The bytes fed to SHA-256 by [StoredBlock::block_hash] and by the service's
    [compute_block_hash]. *)
Definition block_hash_preimage (b : ValidatedBlock) : list u8 :=
  hash_bytes (bh_parent_hash (vb_header b))
  ++ le_bytes 8 (bh_height (vb_header b))
  ++ hash_bytes (bh_merkle_root (vb_header b))
  ++ hash_bytes (bh_state_root (vb_header b))
  ++ le_bytes 8 (bh_timestamp (vb_header b)).

Definition block_hash (sha256 : list u8 -> Hash) (b : StoredBlock) : Hash :=
  sha256 (block_hash_preimage (sb_block b)).

(** [slice::binary_search_by_key] of the standard library: [size] halves until
    one candidate is left. *)
Fixpoint bsearch_loop {A} (key : A -> Z) (v : list A) (k : Z) (fuel base size : nat) : nat :=
  match fuel with
  | O => base
  | S fuel =>
      if (size <=? 1)%nat then base
      else
        let half := (size / 2)%nat in
        let mid := (base + half)%nat in
        let base' := match v !! mid with
                     | Some e => if k <? key e then base else mid
                     | None => base
                     end in
        bsearch_loop key v k fuel base' (size - half)
  end.

Definition binary_search_by_key {A} (key : A -> Z) (v : list A) (k : Z) : result nat nat :=
  let base := bsearch_loop key v k (length v) 0 (length v) in
  match v !! base with
  | None => Err O
  | Some e =>
      if key e =? k then Ok base
      else Err (if key e <? k then S base else base)
  end.

Record BlockIndexEntry := { bie_height : u64; bie_block_hash : Hash }.

#[export] Instance BlockIndexEntry_eq_dec : EqDecision BlockIndexEntry.
Proof. solve_decision. Defined.

Module BlockIndex.

Record BlockIndex := { entries : list BlockIndexEntry }.

Definition new : BlockIndex := {| entries := [] |}.

Definition insert (height : u64) (block_hash : Hash) (i : BlockIndex) : BlockIndex :=
  let entry := {| bie_height := height; bie_block_hash := block_hash |} in
  match binary_search_by_key bie_height (entries i) height with
  | Ok pos => {| entries := <[pos := entry]> (entries i) |}
  | Err pos => {| entries := take pos (entries i) ++ entry :: drop pos (entries i) |}
  | Panic => i
  end.

Definition get (height : u64) (i : BlockIndex) : option Hash :=
  match binary_search_by_key bie_height (entries i) height with
  | Ok pos => bie_block_hash <$> entries i !! pos
  | _ => None
  end.

Definition contains (height : u64) (i : BlockIndex) : bool :=
  is_ok (binary_search_by_key bie_height (entries i) height).

Definition latest_height (i : BlockIndex) : option u64 := bie_height <$> last (entries i).
Definition len (i : BlockIndex) : nat := length (entries i).
Definition is_empty (i : BlockIndex) : bool := (length (entries i) =? 0)%nat.

End BlockIndex.
Abbreviation BlockIndex := BlockIndex.BlockIndex.

Module StorageMetadata.

Record StorageMetadata := {
  genesis_hash : option Hash;
  latest_height : u64;
  finalized_height : u64;
  total_blocks : u64;
  storage_version : Z
}.

Definition default : StorageMetadata := {|
  genesis_hash := None; latest_height := 0; finalized_height := 0;
  total_blocks := 0; storage_version := 1 |}.

Definition with_genesis (genesis : Hash) : StorageMetadata := {|
  genesis_hash := Some genesis; latest_height := 0; finalized_height := 0;
  total_blocks := 1; storage_version := 1 |}.

Definition on_block_stored (height : u64) (block_hash : Hash) (m : StorageMetadata)
  : StorageMetadata := {|
  genesis_hash :=
    match genesis_hash m with
    | None => if height =? 0 then Some block_hash else None
    | Some g => Some g
    end;
  latest_height := if latest_height m <? height then height else latest_height m;
  finalized_height := finalized_height m;
  total_blocks := wrapping_add 64 (total_blocks m) 1;
  storage_version := storage_version m |}.

Definition on_finalized (height : u64) (m : StorageMetadata) : StorageMetadata * bool :=
  if height <=? finalized_height m then (m, false)
  else ({| genesis_hash := genesis_hash m; latest_height := latest_height m;
           finalized_height := height; total_blocks := total_blocks m;
           storage_version := storage_version m |}, true).

End StorageMetadata.
Abbreviation StorageMetadata := StorageMetadata.StorageMetadata.

(** ** The assembly buffer *)

Record AssemblyConfig := {
  assembly_timeout_secs : u64;
  max_pending_assemblies : nat
}.

Definition assembly_config_default : AssemblyConfig :=
  {| assembly_timeout_secs := 30; max_pending_assemblies := 1000 |}.

Record PendingBlockAssembly := {
  pa_block_hash : Hash;
  pa_block_height : u64;
  pa_started_at : Timestamp;
  pa_validated_block : option ValidatedBlock;
  pa_merkle_root : option Hash;
  pa_state_root : option Hash
}.

Definition pending_new (block_hash : Hash) (started_at : Timestamp) : PendingBlockAssembly := {|
  pa_block_hash := block_hash; pa_block_height := 0; pa_started_at := started_at;
  pa_validated_block := None; pa_merkle_root := None; pa_state_root := None |}.

Definition pa_is_complete (a : PendingBlockAssembly) : bool :=
  bool_decide (is_Some (pa_validated_block a))
  && bool_decide (is_Some (pa_merkle_root a))
  && bool_decide (is_Some (pa_state_root a)).

Definition is_expired (a : PendingBlockAssembly) (now : Timestamp) (timeout_secs : u64) : bool :=
  timeout_secs <? saturating_sub now (pa_started_at a).

Definition take_components (a : PendingBlockAssembly) : option (ValidatedBlock * Hash * Hash) :=
  match pa_validated_block a, pa_merkle_root a, pa_state_root a with
  | Some block, Some merkle, Some state => Some (block, merkle, state)
  | _, _, _ => None
  end.

Module BlockAssemblyBuffer.

Record BlockAssemblyBuffer := {
  pending : gmap Hash PendingBlockAssembly;
  config : AssemblyConfig
}.

Definition new (c : AssemblyConfig) : BlockAssemblyBuffer := {| pending := ∅; config := c |}.
Definition with_defaults : BlockAssemblyBuffer := new assembly_config_default.

Definition set_pending (b : BlockAssemblyBuffer) (p : gmap Hash PendingBlockAssembly)
  : BlockAssemblyBuffer := {| pending := p; config := config b |}.

(** [entry(block_hash).or_insert_with(..)]. *)
Definition entry (b : BlockAssemblyBuffer) (block_hash : Hash) (now : Timestamp)
  : PendingBlockAssembly := default (pending_new block_hash now) (pending b !! block_hash).

Definition add_block_validated (b : BlockAssemblyBuffer) (block_hash : Hash)
  (block : ValidatedBlock) (now : Timestamp) : BlockAssemblyBuffer :=
  let a := entry b block_hash now in
  set_pending b (<[block_hash := {|
    pa_block_hash := pa_block_hash a; pa_block_height := vb_height block;
    pa_started_at := pa_started_at a; pa_validated_block := Some block;
    pa_merkle_root := pa_merkle_root a; pa_state_root := pa_state_root a |}]> (pending b)).

Definition add_merkle_root (b : BlockAssemblyBuffer) (block_hash merkle_root : Hash)
  (now : Timestamp) : BlockAssemblyBuffer :=
  let a := entry b block_hash now in
  set_pending b (<[block_hash := {|
    pa_block_hash := pa_block_hash a; pa_block_height := pa_block_height a;
    pa_started_at := pa_started_at a; pa_validated_block := pa_validated_block a;
    pa_merkle_root := Some merkle_root; pa_state_root := pa_state_root a |}]> (pending b)).

Definition add_state_root (b : BlockAssemblyBuffer) (block_hash state_root : Hash)
  (now : Timestamp) : BlockAssemblyBuffer :=
  let a := entry b block_hash now in
  set_pending b (<[block_hash := {|
    pa_block_hash := pa_block_hash a; pa_block_height := pa_block_height a;
    pa_started_at := pa_started_at a; pa_validated_block := pa_validated_block a;
    pa_merkle_root := pa_merkle_root a; pa_state_root := Some state_root |}]> (pending b)).

Definition is_complete (b : BlockAssemblyBuffer) (block_hash : Hash) : bool :=
  match pending b !! block_hash with Some a => pa_is_complete a | None => false end.

Definition get (b : BlockAssemblyBuffer) (block_hash : Hash) : option PendingBlockAssembly :=
  pending b !! block_hash.

Definition take_complete (b : BlockAssemblyBuffer) (block_hash : Hash)
  : BlockAssemblyBuffer * option PendingBlockAssembly :=
  if is_complete b block_hash
  then (set_pending b (delete block_hash (pending b)), pending b !! block_hash)
  else (b, None).

(** The hashes of the expired assemblies, in iteration order. *)
Definition expired_hashes (b : BlockAssemblyBuffer) (now : Timestamp) : list Hash :=
  (base.filter (fun p => is_expired (snd p) now (assembly_timeout_secs (config b)) = true)
     (map_to_list (pending b))).*1.

Definition remove_all (b : BlockAssemblyBuffer) (hashes : list Hash) : BlockAssemblyBuffer :=
  foldl (fun b h => set_pending b (delete h (pending b))) b hashes.

Definition gc_expired (b : BlockAssemblyBuffer) (now : Timestamp)
  : BlockAssemblyBuffer * list Hash :=
  let expired := expired_hashes b now in
  (remove_all b expired, expired).

Definition gc_expired_with_data (b : BlockAssemblyBuffer) (now : Timestamp)
  : BlockAssemblyBuffer * list (Hash * PendingBlockAssembly) :=
  foldl (fun '(b, result) hash =>
           match pending b !! hash with
           | Some assembly =>
               (set_pending b (delete hash (pending b)), result ++ [(hash, assembly)])
           | None => (b, result)
           end) (b, []) (expired_hashes b now).

Definition started_le (x y : Hash * Timestamp) : Prop := snd x <= snd y.
#[export] Instance started_le_dec x y : Decision (started_le x y).
Proof. unfold started_le. apply _. Defined.

(** The purged hashes of [enforce_max_pending]: the oldest ones over the limit. *)
Definition overflow_hashes (b : BlockAssemblyBuffer) : list Hash :=
  let entries := stable_sort started_le
    ((fun p => (fst p, pa_started_at (snd p))) <$> map_to_list (pending b)) in
  (take (size (pending b) - max_pending_assemblies (config b)) entries).*1.

Definition enforce_max_pending (b : BlockAssemblyBuffer) : BlockAssemblyBuffer * list Hash :=
  if (size (pending b) <=? max_pending_assemblies (config b))%nat then (b, [])
  else (remove_all b (overflow_hashes b), overflow_hashes b).

Definition len (b : BlockAssemblyBuffer) : nat := size (pending b).
Definition is_empty (b : BlockAssemblyBuffer) : bool := (size (pending b) =? 0)%nat.

End BlockAssemblyBuffer.
Abbreviation BlockAssemblyBuffer := BlockAssemblyBuffer.BlockAssemblyBuffer.

(** ** Configuration and keys *)

Inductive CompactionStrategy := LeveledCompaction | SizeTieredCompaction.

Record StorageConfig := {
  min_disk_space_percent : u8;
  max_block_size : usize;
  compaction_strategy : CompactionStrategy;
  assembly_config : AssemblyConfig;
  persist_transaction_index : bool
}.

Definition storage_config_default : StorageConfig := {|
  min_disk_space_percent := 5; max_block_size := 10 * 1024 * 1024;
  compaction_strategy := LeveledCompaction; assembly_config := assembly_config_default;
  persist_transaction_index := false |}.

Inductive KeyPrefix := Block | BlockByHeight | Metadata | TransactionPrefix.

(** The ASCII codes of ["b:"], ["h:"], ["m:"] and ["t:"]. *)
Definition as_bytes (p : KeyPrefix) : list u8 :=
  match p with
  | Block => [98; 58]
  | BlockByHeight => [104; 58]
  | Metadata => [109; 58]
  | TransactionPrefix => [116; 58]
  end.

Definition key (p : KeyPrefix) (suffix : list u8) : list u8 := as_bytes p ++ suffix.
Definition block_key (hash : Hash) : list u8 := key Block (hash_bytes hash).
Definition height_key (height : u64) : list u8 := key BlockByHeight (be_bytes 8 height).
Definition transaction_key (tx_hash : Hash) : list u8 :=
  key TransactionPrefix (hash_bytes tx_hash).
(** ["metadata"]. *)
Definition metadata_key : list u8 :=
  key Metadata [109; 101; 116; 97; 100; 97; 116; 97].

Record TransactionLocation := {
  tl_block_hash : Hash;
  tl_block_height : u64;
  tl_transaction_index : nat;
  tl_merkle_root : Hash
}.

#[export] Instance TransactionLocation_eq_dec : EqDecision TransactionLocation.
Proof. solve_decision. Defined.

(** ** Errors *)

Inductive StorageError :=
| BlockNotFound (hash : Hash)
| HeightNotFound (height : u64)
| BlockExists (hash : Hash)
| ParentNotFound (parent_hash : Hash)
| DiskFull (available_percent required_percent : u8)
| DataCorruption (block_hash : Hash) (expected_checksum actual_checksum : Z)
| BlockTooLarge (size max_size : usize)
| InvalidFinalization (requested current : u64)
| GenesisImmutable
| TransactionNotFound (tx_hash : Hash)
| AssemblyTimeout (block_hash : Hash) (pending_duration_secs : u64)
| DatabaseError
| SerializationError
| UnauthorizedSender (sender_id expected_id : u8) (operation : string)
| NonCanonicalEncoding
| DatabaseLocked.

Inductive KVStoreError := KVIOError | CorruptionError | KVNotFound.
Inductive FSError := FSIOError | PermissionDenied.

(** [map_err(StorageError::from)] on a key-value store error and on a
    serialization error. *)
Definition from_kv {A} (r : result KVStoreError A) : result StorageError A :=
  match r with Ok a => Ok a | Err _ => Err DatabaseError | Panic => Panic end.
Definition from_ser {A} (r : result unit A) : result StorageError A :=
  match r with Ok a => Ok a | Err _ => Err SerializationError | Panic => Panic end.
