(* ===== verification/BlockKv.v ===== *)
(** * Block storage: the outbound ports

    [ports/outbound.rs] of [qc-02-block-storage]: the key-value store as the
    class [KeyValueStore], the laws the service relies on, the in-memory store
    that satisfies them, and the file-backed store with its binary format.  The
    operating system's answer to a write is the argument [disk_write]. *)

From S2P Require Import Prelude Blocks BlockStorage.
Local Open Scope Z_scope.

Inductive BatchOperation :=
| Put (key value : list u8)
| Delete (key : list u8).

Class KeyValueStore (KV : Type) : Type := {
  kv_get : KV -> list u8 -> result KVStoreError (option (list u8));
  kv_put : KV -> list u8 -> list u8 -> KV * result KVStoreError unit;
  kv_delete : KV -> list u8 -> KV * result KVStoreError unit;
  kv_atomic_batch_write : KV -> list BatchOperation -> KV * result KVStoreError unit;
  kv_exists : KV -> list u8 -> result KVStoreError bool;
  kv_prefix_scan : KV -> list u8 -> result KVStoreError (list (list u8 * list u8))
}.

(** The effect of one operation of a batch, and of a batch, on the contents. *)
Definition apply_batch_op (m : gmap (list u8) (list u8)) (op : BatchOperation)
  : gmap (list u8) (list u8) :=
  match op with
  | Put k v => <[k := v]> m
  | Delete k => delete k m
  end.
Definition apply_batch (m : gmap (list u8) (list u8)) (ops : list BatchOperation)
  : gmap (list u8) (list u8) := foldl apply_batch_op m ops.

(** What the trait's documentation promises of a store with contents [view]:
    reads see the contents, a scan returns the entries with the prefix in some
    order, and a write either happens as a whole or fails and changes nothing. *)
Class KeyValueStoreLaws {KV} (K : KeyValueStore KV) (view : KV -> gmap (list u8) (list u8))
  : Prop := {
  kv_get_spec s k : kv_get s k = Ok (view s !! k);
  kv_exists_spec s k : kv_exists s k = Ok (bool_decide (is_Some (view s !! k)));
  kv_scan_spec s p : exists l, kv_prefix_scan s p = Ok l
    /\ l ≡ₚ base.filter (fun e => p `prefix_of` e.1) (map_to_list (view s));
  kv_put_spec s k v :
    view (kv_put s k v).1
    = if is_ok (kv_put s k v).2 then <[k := v]> (view s) else view s;
  kv_batch_spec s ops :
    view (kv_atomic_batch_write s ops).1
    = if is_ok (kv_atomic_batch_write s ops).2 then apply_batch (view s) ops else view s;
  kv_batch_no_panic s ops : (kv_atomic_batch_write s ops).2 <> Panic
}.

(** ** The in-memory store *)

Record InMemoryKVStore := { data : gmap (list u8) (list u8) }.

#[export] Instance in_memory_kv : KeyValueStore InMemoryKVStore := {|
  kv_get s k := Ok (data s !! k);
  kv_put s k v := ({| data := <[k := v]> (data s) |}, Ok tt);
  kv_delete s k := ({| data := delete k (data s) |}, Ok tt);
  kv_atomic_batch_write s ops := ({| data := foldl apply_batch_op (data s) ops |}, Ok tt);
  kv_exists s k := Ok (bool_decide (is_Some (data s !! k)));
  kv_prefix_scan s p :=
    Ok (base.filter (fun e => p `prefix_of` e.1) (map_to_list (data s)))
|}.

(** The in-memory store keeps the promises of the trait. *)
#[export] Instance in_memory_kv_laws : KeyValueStoreLaws in_memory_kv data.
Proof. split; try done. intros s p. by eexists. Qed.

(** ** The file-backed store *)

Module FileBackedKVStore.
Section file.

(** Whether the operating system can create, write, sync and rename a file
    with these contents. *)
Context (disk_write : list u8 -> result KVStoreError unit).

(** The contents in memory, and the bytes of the file. *)
Record FileBackedKVStore := {
  fb_data : gmap (list u8) (list u8);
  fb_file : list u8
}.

(** [(len as u32).to_le_bytes()] followed by the bytes. *)
Definition write_field (bytes : list u8) : list u8 :=
  le_bytes 4 (Z.of_nat (length bytes) mod 2 ^ 32) ++ bytes.

(** The loop of [save_to_file] over the entries of the map. *)
Definition encode_entries (entries : list (list u8 * list u8)) : list u8 :=
  foldl (fun bytes e => bytes ++ write_field e.1 ++ write_field e.2) [] entries.

(** One length-prefixed field at the cursor: [None] is a [break]. *)
Definition read_field (bytes : list u8) : option (list u8 * list u8) :=
  if (length bytes <? 4)%nat then None
  else
    let len := from_le_bytes (take 4 bytes) in
    let rest := drop 4 bytes in
    if Z.of_nat (length rest) <? len then None
    else Some (take (Z.to_nat len) rest, drop (Z.to_nat len) rest).

(** The [while] loop of [load_from_file] on the bytes after the cursor. *)
Fixpoint decode_loop (fuel : nat) (m : gmap (list u8) (list u8)) (bytes : list u8)
  : gmap (list u8) (list u8) :=
  match fuel with
  | O => m
  | S fuel =>
      match read_field bytes with
      | None => m
      | Some (k, bytes) =>
          match read_field bytes with
          | None => m
          | Some (v, bytes) => decode_loop fuel (<[k := v]> m) bytes
          end
      end
  end.

Definition load_from_file (bytes : list u8) : gmap (list u8) (list u8) :=
  decode_loop (length bytes) ∅ bytes.

(** [new] on an existing file. *)
Definition new (file : list u8) : FileBackedKVStore :=
  {| fb_data := load_from_file file; fb_file := file |}.

(** [save_to_file]: written to a temporary file and renamed, so that the old
    file stays when anything fails. *)
Definition save_to_file (s : FileBackedKVStore) : FileBackedKVStore * result KVStoreError unit :=
  let bytes := encode_entries (map_to_list (fb_data s)) in
  match disk_write bytes with
  | Ok _ => ({| fb_data := fb_data s; fb_file := bytes |}, Ok tt)
  | r => (s, r)
  end.

Definition set_data (s : FileBackedKVStore) (m : gmap (list u8) (list u8)) : FileBackedKVStore :=
  {| fb_data := m; fb_file := fb_file s |}.

Definition put (s : FileBackedKVStore) (key value : list u8) :=
  save_to_file (set_data s (<[key := value]> (fb_data s))).

Definition delete (s : FileBackedKVStore) (key : list u8) :=
  save_to_file (set_data s (base.delete key (fb_data s))).

Definition atomic_batch_write (s : FileBackedKVStore) (operations : list BatchOperation) :=
  save_to_file (set_data s (foldl apply_batch_op (fb_data s) operations)).

#[export] Instance file_backed_kv : KeyValueStore FileBackedKVStore := {|
  kv_get s k := Ok (fb_data s !! k);
  kv_put := put;
  kv_delete := delete;
  kv_atomic_batch_write := atomic_batch_write;
  kv_exists s k := Ok (bool_decide (is_Some (fb_data s !! k)));
  kv_prefix_scan s p :=
    Ok (base.filter (fun e => p `prefix_of` e.1) (map_to_list (fb_data s)))
|}.

End file.
End FileBackedKVStore.
Abbreviation FileBackedKVStore := FileBackedKVStore.FileBackedKVStore.
