(* ===== verification/BlockService.v ===== *)
(** * Block storage: the service

    [BlockStorageService] of [qc-02-block-storage/src/service.rs] over any
    key-value store: the storage API (writes, reads, finalization) and the
    assembler API (the three events that carry the parts of a block). *)

From S2P Require Import Prelude Blocks BlockStorage BlockKv.
From stdpp Require Import strings.
Local Open Scope Z_scope.
Local Open Scope qc_scope.

(** [BlockSerializer], and [bincode] on a transaction location. *)
Class BlockSerializer : Type := {
  serialize : StoredBlock -> result unit (list u8);
  deserialize : list u8 -> result unit StoredBlock;
  estimate_size : StoredBlock -> usize;
  serialize_location : TransactionLocation -> option (list u8);
  deserialize_location : list u8 -> option TransactionLocation
}.

(** What was serialized is read back. *)
Class BlockSerializerLaws (B : BlockSerializer) : Prop := {
  deserialize_serialize b d : serialize b = Ok d -> deserialize d = Ok b;
  deserialize_serialize_location l d :
    serialize_location l = Some d -> deserialize_location d = Some l
}.

(** What the file system and the clock answer during one call. *)
Record Env := {
  available_disk_space_percent : result FSError u8;
  clock_now : Timestamp
}.

Definition TRANSACTION_INDEXING : u8 := 3.
Definition STATE_MANAGEMENT : u8 := 4.
Definition CONSENSUS : u8 := 8.

Section service.
Context {KV : Type} `{K : KeyValueStore KV} `{B : BlockSerializer}.
Context (sha256 : list u8 -> Hash) (crc32c : list u8 -> Z).

Record BlockStorageService := {
  kv_store : KV;
  svc_config : StorageConfig;
  assembly_buffer : BlockAssemblyBuffer;
  block_index : BlockIndex;
  metadata : StorageMetadata;
  tx_index : gmap Hash TransactionLocation
}.

Definition set_kv (s : BlockStorageService) (kv : KV) : BlockStorageService := {|
  kv_store := kv; svc_config := svc_config s; assembly_buffer := assembly_buffer s;
  block_index := block_index s; metadata := metadata s; tx_index := tx_index s |}.
Definition set_buffer (s : BlockStorageService) (b : BlockAssemblyBuffer)
  : BlockStorageService := {|
  kv_store := kv_store s; svc_config := svc_config s; assembly_buffer := b;
  block_index := block_index s; metadata := metadata s; tx_index := tx_index s |}.
Definition set_metadata (s : BlockStorageService) (m : StorageMetadata)
  : BlockStorageService := {|
  kv_store := kv_store s; svc_config := svc_config s; assembly_buffer := assembly_buffer s;
  block_index := block_index s; metadata := m; tx_index := tx_index s |}.

(** ** Start-up *)

(** The loop of [load_index_from_storage] over the scanned entries: the index,
    the count and the highest height.  The entries are a vector, so the count
    cannot overflow. *)
Definition load_index_step (acc : BlockIndex * Z * Z) (e : list u8 * list u8)
  : BlockIndex * Z * Z :=
  let '(index, loaded_count, max_height) := acc in
  if negb (length e.1 =? 10)%nat then acc
  else
    let height := from_be_bytes (take 8 (drop 2 e.1)) in
    if negb (length e.2 =? 32)%nat then acc
    else
      (BlockIndex.insert height (from_be_bytes e.2) index,
       loaded_count + 1, Z.max max_height height).

Definition load_index_from_storage (s : BlockStorageService)
  : BlockStorageService * result StorageError unit :=
  match kv_prefix_scan (kv_store s) (as_bytes BlockByHeight) with
  | Err _ => (s, Err DatabaseError)
  | Panic => (s, Panic)
  | Ok [] => (s, Ok tt)
  | Ok entries =>
      let '(index, loaded_count, max_height) :=
        foldl load_index_step (block_index s, 0, 0) entries in
      ({| kv_store := kv_store s; svc_config := svc_config s;
          assembly_buffer := assembly_buffer s; block_index := index;
          metadata :=
            if 0 <? loaded_count
            then StorageMetadata.on_block_stored max_height
                   (default 0 (BlockIndex.get max_height index)) (metadata s)
            else metadata s;
          tx_index := tx_index s |}, Ok tt)
  end.

(** The loop of [load_transaction_index_from_storage]; an entry that does not
    decode ends it with an error. *)
Fixpoint load_tx_loop (m : gmap Hash TransactionLocation) (l : list (list u8 * list u8))
  : gmap Hash TransactionLocation * result StorageError unit :=
  match l with
  | [] => (m, Ok tt)
  | e :: l =>
      if negb (length e.1 =? 34)%nat then load_tx_loop m l
      else
        match deserialize_location e.2 with
        | None => (m, Err SerializationError)
        | Some location =>
            load_tx_loop (<[from_be_bytes (take 32 (drop 2 e.1)) := location]> m) l
        end
  end.

Definition load_transaction_index_from_storage (s : BlockStorageService)
  : BlockStorageService * result StorageError unit :=
  if negb (persist_transaction_index (svc_config s)) then (s, Ok tt)
  else
    match kv_prefix_scan (kv_store s) (as_bytes TransactionPrefix) with
    | Err _ => (s, Err DatabaseError)
    | Panic => (s, Panic)
    | Ok entries =>
        let '(m, r) := load_tx_loop (tx_index s) entries in
        ({| kv_store := kv_store s; svc_config := svc_config s;
            assembly_buffer := assembly_buffer s; block_index := block_index s;
            metadata := metadata s; tx_index := m |}, r)
    end.

(** [new]: errors of the two loads are only logged. *)
Definition new (kv : KV) (config : StorageConfig) : BlockStorageService :=
  let service := {|
    kv_store := kv; svc_config := config;
    assembly_buffer := BlockAssemblyBuffer.new (assembly_config config);
    block_index := BlockIndex.new; metadata := StorageMetadata.default; tx_index := ∅ |} in
  (load_transaction_index_from_storage (load_index_from_storage service).1).1.

(** ** Checks *)

Definition check_disk_space (env : Env) (s : BlockStorageService) : result StorageError unit :=
  match available_disk_space_percent env with
  | Ok available =>
      if available <? min_disk_space_percent (svc_config s)
      then Err (DiskFull available (min_disk_space_percent (svc_config s)))
      else Ok tt
  | Err _ => Err DatabaseError
  | Panic => Panic
  end.

Definition block_exists (s : BlockStorageService) (hash : Hash) : bool :=
  match kv_exists (kv_store s) (block_key hash) with Ok b => b | _ => false end.

Definition check_parent_exists (s : BlockStorageService) (block : ValidatedBlock)
  : result StorageError unit :=
  if vb_height block =? 0 then Ok tt
  else if negb (block_exists s (vb_parent_hash block))
  then Err (ParentNotFound (vb_parent_hash block))
  else Ok tt.

Definition compute_block_checksum (block : ValidatedBlock) (merkle_root state_root : Hash) : Z :=
  crc32c (hash_bytes (vb_parent_hash block) ++ le_bytes 8 (vb_height block)
          ++ hash_bytes merkle_root ++ hash_bytes state_root).

Definition verify_block_checksum (b : StoredBlock) : result StorageError unit :=
  let expected := compute_block_checksum (sb_block b) (sb_merkle_root b) (sb_state_root b) in
  if negb (sb_checksum b =? expected)
  then Err (DataCorruption (block_hash sha256 b) expected (sb_checksum b))
  else Ok tt.

Definition compute_block_hash (block : ValidatedBlock) : Hash :=
  sha256 (block_hash_preimage block).

(** ** Writing *)

(** The loop of [index_transactions]: the store and the index. *)
Definition index_transactions_step (persist : bool) (block : ValidatedBlock) (hash : Hash)
  (acc : KV * gmap Hash TransactionLocation) (e : nat * ValidatedTransaction)
  : KV * gmap Hash TransactionLocation :=
  let location := {|
    tl_block_hash := hash; tl_block_height := vb_height block;
    tl_transaction_index := e.1; tl_merkle_root := bh_merkle_root (vb_header block) |} in
  let index := <[vt_tx_hash e.2 := location]> acc.2 in
  if negb persist then (acc.1, index)
  else
    match serialize_location location with
    | None => (acc.1, index)
    | Some value => ((kv_put acc.1 (transaction_key (vt_tx_hash e.2)) value).1, index)
    end.

Definition index_transactions (s : BlockStorageService) (block : ValidatedBlock) (hash : Hash)
  : BlockStorageService :=
  let '(kv, index) :=
    foldl (index_transactions_step (persist_transaction_index (svc_config s)) block hash)
      (kv_store s, tx_index s) (imap (fun i tx => (i, tx)) (vb_transactions block)) in
  {| kv_store := kv; svc_config := svc_config s; assembly_buffer := assembly_buffer s;
     block_index := block_index s; metadata := metadata s; tx_index := index |}.

(** The block as it is stored. *)
Definition stored_block (env : Env) (block : ValidatedBlock) (merkle_root state_root : Hash)
  : StoredBlock := {|
  sb_block := block; sb_merkle_root := merkle_root; sb_state_root := state_root;
  sb_stored_at := clock_now env;
  sb_checksum := compute_block_checksum block merkle_root state_root |}.

Definition write_block (env : Env) (s : BlockStorageService) (block : ValidatedBlock)
  (merkle_root state_root : Hash) : BlockStorageService * result StorageError Hash :=
  let height := vb_height block in
  let? (s, _) := (s, check_disk_space env s) in
  let? (s, _) := (s, check_parent_exists s block) in
  let hash := compute_block_hash block in
  if block_exists s hash then (s, Err (BlockExists hash))
  else
    let stored := stored_block env block merkle_root state_root in
    let size := estimate_size stored in
    if max_block_size (svc_config s) <? size
    then (s, Err (BlockTooLarge size (max_block_size (svc_config s))))
    else
      let? (s, bytes) := (s, from_ser (serialize stored)) in
      let '(kv, r) := kv_atomic_batch_write (kv_store s)
        [Put (block_key hash) bytes; Put (height_key height) (hash_bytes hash)] in
      let? (s, _) := (set_kv s kv, from_kv r) in
      let s := {|
        kv_store := kv_store s; svc_config := svc_config s;
        assembly_buffer := assembly_buffer s;
        block_index := BlockIndex.insert height hash (block_index s);
        metadata := StorageMetadata.on_block_stored height hash (metadata s);
        tx_index := tx_index s |} in
      (index_transactions s block hash, Ok hash).

(** ** Reading *)

Definition read_block (s : BlockStorageService) (hash : Hash) : result StorageError StoredBlock :=
  let? found := from_kv (kv_get (kv_store s) (block_key hash)) in
  match found with
  | None => Err (BlockNotFound hash)
  | Some bytes =>
      let? b := from_ser (deserialize bytes) in
      let? _ := verify_block_checksum b in
      Ok b
  end.

Definition read_block_by_height (s : BlockStorageService) (height : u64)
  : result StorageError StoredBlock :=
  match BlockIndex.get height (block_index s) with
  | None => Err (HeightNotFound height)
  | Some hash => read_block s hash
  end.

(** The [for] loop of [read_block_range] over the remaining heights. *)
Fixpoint read_range_loop (s : BlockStorageService) (heights : list Z) (blocks : list StoredBlock)
  : result StorageError (list StoredBlock) :=
  match heights with
  | [] => Ok blocks
  | height :: heights =>
      match read_block_by_height s height with
      | Ok b => read_range_loop s heights (blocks ++ [b])
      | Err (HeightNotFound _) => Ok blocks
      | Err e => Err e
      | Panic => Panic
      end
  end.

(** [start_height..(start_height + limit)]: empty when the sum wraps. *)
Definition read_block_range (s : BlockStorageService) (start_height limit : u64)
  : result StorageError (list StoredBlock) :=
  let limit := Z.min limit 100 in
  if negb (BlockIndex.contains start_height (block_index s))
  then Err (HeightNotFound start_height)
  else read_range_loop s
         (seqZ start_height (wrapping_add 64 start_height limit - start_height)) [].

Definition mark_finalized (s : BlockStorageService) (height : u64)
  : BlockStorageService * result StorageError unit :=
  if negb (BlockIndex.contains height (block_index s))
  then (s, Err (HeightNotFound height))
  else
    let '(m, advanced) := StorageMetadata.on_finalized height (metadata s) in
    let s := set_metadata s m in
    if negb advanced
    then (s, Err (InvalidFinalization height (StorageMetadata.finalized_height m)))
    else (s, Ok tt).

Definition get_latest_height (s : BlockStorageService) : u64 :=
  StorageMetadata.latest_height (metadata s).
Definition get_finalized_height (s : BlockStorageService) : u64 :=
  StorageMetadata.finalized_height (metadata s).
Definition block_exists_at_height (s : BlockStorageService) (height : u64) : bool :=
  BlockIndex.contains height (block_index s).

Definition get_transaction_location (s : BlockStorageService) (transaction_hash : Hash)
  : result StorageError TransactionLocation :=
  match tx_index s !! transaction_hash with
  | Some l => Ok l
  | None => Err (TransactionNotFound transaction_hash)
  end.

Definition get_transaction_hashes_for_block (s : BlockStorageService) (hash : Hash)
  : result StorageError (list Hash) :=
  let? b := read_block s hash in
  Ok (vt_tx_hash <$> vb_transactions (sb_block b)).

(** ** The assembler *)

Definition try_complete_assembly (env : Env) (s : BlockStorageService) (hash : Hash)
  : BlockStorageService * result StorageError (option Hash) :=
  let '(buffer, taken) := BlockAssemblyBuffer.take_complete (assembly_buffer s) hash in
  let s := set_buffer s buffer in
  match taken with
  | None => (s, Ok None)
  | Some assembly =>
      match take_components assembly with
      | None => (s, Ok None)
      | Some (block, merkle_root, state_root) =>
          let? (s, h) := write_block env s block merkle_root state_root in
          (s, Ok (Some h))
      end
  end.

Definition on_block_validated (env : Env) (s : BlockStorageService) (sender_id : u8)
  (block : ValidatedBlock) (now : Timestamp) : BlockStorageService * result StorageError unit :=
  if negb (sender_id =? CONSENSUS)
  then (s, Err (UnauthorizedSender sender_id CONSENSUS "BlockValidated"))
  else
    let hash := compute_block_hash block in
    let buffer := BlockAssemblyBuffer.add_block_validated (assembly_buffer s) hash block now in
    let buffer := (BlockAssemblyBuffer.enforce_max_pending buffer).1 in
    let? (s, _) := try_complete_assembly env (set_buffer s buffer) hash in
    (s, Ok tt).

Definition on_merkle_root_computed (env : Env) (s : BlockStorageService) (sender_id : u8)
  (hash merkle_root : Hash) (now : Timestamp) : BlockStorageService * result StorageError unit :=
  if negb (sender_id =? TRANSACTION_INDEXING)
  then (s, Err (UnauthorizedSender sender_id TRANSACTION_INDEXING "MerkleRootComputed"))
  else
    let buffer := BlockAssemblyBuffer.add_merkle_root (assembly_buffer s) hash merkle_root now in
    let? (s, _) := try_complete_assembly env (set_buffer s buffer) hash in
    (s, Ok tt).

Definition on_state_root_computed (env : Env) (s : BlockStorageService) (sender_id : u8)
  (hash state_root : Hash) (now : Timestamp) : BlockStorageService * result StorageError unit :=
  if negb (sender_id =? STATE_MANAGEMENT)
  then (s, Err (UnauthorizedSender sender_id STATE_MANAGEMENT "StateRootComputed"))
  else
    let buffer := BlockAssemblyBuffer.add_state_root (assembly_buffer s) hash state_root now in
    let? (s, _) := try_complete_assembly env (set_buffer s buffer) hash in
    (s, Ok tt).

Definition gc_expired_assemblies (s : BlockStorageService) (now : Timestamp)
  : BlockStorageService * list Hash :=
  let '(buffer, expired) := BlockAssemblyBuffer.gc_expired (assembly_buffer s) now in
  (set_buffer s buffer, expired).

Definition gc_expired_assemblies_with_data (s : BlockStorageService) (now : Timestamp)
  : BlockStorageService * list (Hash * PendingBlockAssembly) :=
  let '(buffer, expired) := BlockAssemblyBuffer.gc_expired_with_data (assembly_buffer s) now in
  (set_buffer s buffer, expired).

(** ** Calls

    The calls that can change the service, and a restart: a new service opened
    on the store of the old one. *)
Inductive StorageCall :=
| CallWrite (env : Env) (block : ValidatedBlock) (merkle_root state_root : Hash)
| CallFinalize (height : u64)
| CallValidated (env : Env) (sender_id : u8) (block : ValidatedBlock) (now : Timestamp)
| CallMerkle (env : Env) (sender_id : u8) (hash merkle_root : Hash) (now : Timestamp)
| CallState (env : Env) (sender_id : u8) (hash state_root : Hash) (now : Timestamp)
| CallGc (now : Timestamp)
| CallGcData (now : Timestamp)
| CallRestart (config : StorageConfig).

Definition run_call (s : BlockStorageService) (c : StorageCall) : BlockStorageService :=
  match c with
  | CallWrite env b m r => (write_block env s b m r).1
  | CallFinalize h => (mark_finalized s h).1
  | CallValidated env i b now => (on_block_validated env s i b now).1
  | CallMerkle env i h m now => (on_merkle_root_computed env s i h m now).1
  | CallState env i h r now => (on_state_root_computed env s i h r now).1
  | CallGc now => (gc_expired_assemblies s now).1
  | CallGcData now => (gc_expired_assemblies_with_data s now).1
  | CallRestart config => new (kv_store s) config
  end.

Definition run_calls (s : BlockStorageService) (l : list StorageCall) : BlockStorageService :=
  foldl run_call s l.

Definition is_restart (c : StorageCall) : bool :=
  match c with CallRestart _ => true | _ => false end.

(** The blocks a call carries have their fields in range. *)
Definition call_in_range (c : StorageCall) : Prop :=
  match c with
  | CallWrite _ b _ _ | CallValidated _ _ b _ => block_in_range b
  | _ => True
  end.

End service.
Arguments BlockStorageService KV : clear implicits.
