(* ===== verification/BlockFacts.v ===== *)
(** * Block storage: the block index and the assembly buffer

    Binary search on a sorted vector finds what a linear search finds, so the
    block index refines a finite map from heights to hashes; the assembly buffer
    keeps one entry per block hash and evicts the oldest ones. *)

From S2P Require Import Prelude Blocks BlockStorage.
Local Open Scope Z_scope.

(** ** Binary search *)

Section bsearch.
Context {A : Type} (key : A -> Z).

Definition sorted_by (v : list A) : Prop := StronglySorted (fun x y => key x < key y) v.

Lemma sorted_lookup_lt v i j x y :
  sorted_by v -> (i < j)%nat -> v !! i = Some x -> v !! j = Some y -> key x < key y.
Proof.
  intros Hs Hij Hx Hy. by eapply (sorted_lookup (fun x y => key x < key y) v i j).
Qed.

Lemma sorted_last v x y : sorted_by v -> last v = Some y -> x ∈ v -> key x <= key y.
Proof.
  intros Hs Hy [i Hi]%list_elem_of_lookup. rewrite last_lookup, <-Nat.sub_1_r in Hy.
  pose proof (lookup_lt_Some _ _ _ Hi).
  destruct (decide (i = length v - 1)%nat) as [->|Hne]; [simplify_eq; lia|].
  pose proof (sorted_lookup_lt v i (length v - 1) x y Hs ltac:(lia) Hi Hy). lia.
Qed.

(** With equal keys allowed. *)
Definition weakly_sorted_by (v : list A) : Prop :=
  forall i j x y, (i < j)%nat -> v !! i = Some x -> v !! j = Some y -> key x <= key y.

Lemma sorted_by_weakly v : sorted_by v -> weakly_sorted_by v.
Proof. intros Hs i j x y Hij Hx Hy. apply Z.lt_le_incl. by eapply (sorted_lookup_lt v i j). Qed.

Variable v : list A.
Hypothesis Hv : weakly_sorted_by v.
Variable k : Z.

(** What the loop keeps: nothing after the window is at most [k], and the entry
    at the base is at most [k] unless the base never moved. *)
Definition window (base size : nat) : Prop :=
  (base + size <= length v)%nat
  /\ (forall i e, (base + size <= i)%nat -> v !! i = Some e -> k < key e)
  /\ (base = O \/ exists e, v !! base = Some e /\ key e <= k).

Lemma window_step base size : (1 < size)%nat -> window base size ->
  let half := (size / 2)%nat in
  window (match v !! (base + half)%nat with
          | Some e => if k <? key e then base else (base + half)%nat
          | None => base end) (size - half).
Proof.
  intros Hsz (Hlen & Hhi & Hlo) half.
  assert (Hh : (0 < half < size)%nat).
  { split; [apply Nat.div_str_pos; lia | apply Nat.div_lt; lia]. }
  destruct (lookup_lt_is_Some_2 v (base + half)) as [e He]; [lia|]. rewrite He.
  destruct (k <? key e) eqn:Hk; bools.
  - split_and!; [lia| |done]. intros i e' Hi He'.
    destruct (decide (base + size <= i)%nat); [by apply (Hhi i)|].
    assert (2 * half <= size)%nat by (pose proof (Nat.div_mod size 2); unfold half; lia).
    destruct (decide (i = base + half)%nat) as [->|]; [congruence|].
    pose proof (Hv (base + half)%nat i e e' ltac:(lia) He He'). lia.
  - split_and!; [lia| |right; by exists e]. intros i e' Hi He'. apply (Hhi i); [lia|done].
Qed.

Lemma window_loop fuel : forall base size, (size <= fuel)%nat -> (0 < size)%nat ->
  window base size -> window (bsearch_loop key v k fuel base size) 1.
Proof.
  induction fuel as [|fuel IH]; intros base size Hf Hs Hw; [lia|]. cbn [bsearch_loop].
  destruct (size <=? 1)%nat eqn:E.
  - apply Nat.leb_le in E. by replace 1%nat with size by lia.
  - apply Nat.leb_gt in E. apply IH; [| |by apply window_step];
      assert (0 < size / 2 < size)%nat
        by (split; [apply Nat.div_str_pos; lia | apply Nat.div_lt; lia]); lia.
Qed.

(** The window the search ends with. *)
Lemma window_found : length v <> O ->
  window (bsearch_loop key v k (length v) 0 (length v)) 1.
Proof.
  intros Hl. apply window_loop; [lia|lia|]. split_and!; [lia| |by left].
  intros i e Hi He. apply lookup_lt_Some in He. lia.
Qed.

(** The search finds every key there is. *)
Lemma binary_search_finds e : e ∈ v -> key e = k -> is_ok (binary_search_by_key key v k) = true.
Proof.
  intros [j Hj]%list_elem_of_lookup He. unfold binary_search_by_key.
  apply lookup_lt_Some in Hj as Hlt. pose proof (window_found ltac:(lia)) as Hw.
  revert Hw. generalize (bsearch_loop key v k (length v) 0 (length v)). intros base Hw.
  destruct Hw as (Hlen & Hhi & Hlo).
  destruct (lookup_lt_is_Some_2 v base) as [x Hx]; [lia|]. rewrite Hx.
  assert (Hjb : (j <= base)%nat).
  { destruct (decide (j <= base)%nat); [done|]. pose proof (Hhi j e ltac:(lia) Hj). lia. }
  assert (Hk : key x = k).
  { destruct (decide (j = base)) as [->|]; [congruence|].
    pose proof (Hv j base e x ltac:(lia) Hj Hx).
    destruct Hlo as [->|(y & Hy & Hyk)]; [lia|]. simplify_eq. lia. }
  rewrite Hk, Z.eqb_refl. done.
Qed.

(** The search splits a vector without equal keys at the key. *)
Lemma binary_search_split : sorted_by v ->
  match binary_search_by_key key v k with
  | Ok p => exists l1 e l2, v = l1 ++ e :: l2 /\ length l1 = p /\ key e = k
  | Err p => exists l1 l2, v = l1 ++ l2 /\ length l1 = p
             /\ Forall (fun e => key e < k) l1 /\ Forall (fun e => k < key e) l2
  | Panic => False
  end.
Proof.
  intros Hs. unfold binary_search_by_key.
  destruct (decide (length v = O)) as [Hl|Hl].
  { apply nil_length_inv in Hl. rewrite Hl. by exists [], []. }
  pose proof (window_found Hl) as Hw.
  revert Hw. generalize (bsearch_loop key v k (length v) 0 (length v)). intros base Hw.
  destruct Hw as (Hlen & Hhi & Hlo).
  destruct (lookup_lt_is_Some_2 v base) as [e He]; [lia|]. rewrite He.
  pose proof (take_drop_middle v base e He) as Hsplit.
  assert (Hafter : Forall (fun e => k < key e) (drop (S base) v)).
  { apply Forall_lookup. intros i x. rewrite lookup_drop. apply Hhi. lia. }
  assert (Hbefore : Forall (fun x => key x < key e) (take base v)).
  { apply Forall_lookup. intros i x Hx. apply lookup_take_Some in Hx as [Hx Hi].
    by eapply (sorted_lookup_lt v i base). }
  destruct (key e =? k) eqn:E1; bools.
  { exists (take base v), e, (drop (S base) v). rewrite length_take. split_and!; [done|lia|done]. }
  destruct (key e <? k) eqn:E2; bools.
  - exists (take (S base) v), (drop (S base) v). rewrite take_drop, length_take.
    split_and!; [done|lia| |done]. rewrite (take_S_r v base e He), Forall_app.
    split; [|by repeat constructor]. eapply Forall_impl; [exact Hbefore|]. simpl. lia.
  - destruct Hlo as [->|(e' & He' & Hle)]; [|simplify_eq; lia].
    exists [], v. split_and!; [done|done|constructor|].
    rewrite <-Hsplit. simpl. constructor; [lia|done].
Qed.

End bsearch.

(** ** The block index as a map *)

Abbreviation index_sorted i := (sorted_by bie_height (BlockIndex.entries i)).

Definition entry_pair (e : BlockIndexEntry) : Z * Hash := (bie_height e, bie_block_hash e).

Definition index_map (i : BlockIndex) : gmap Z Hash :=
  list_to_map (entry_pair <$> BlockIndex.entries i).

Lemma list_to_map_none (l : list BlockIndexEntry) h :
  Forall (fun e => bie_height e ≠ h) l ->
  (list_to_map (entry_pair <$> l) : gmap Z Hash) !! h = None.
Proof.
  intros H. apply not_elem_of_list_to_map_1. rewrite list_elem_of_fmap.
  intros (p & -> & (e & -> & He)%list_elem_of_fmap).
  exact (proj1 (Forall_forall _ _) H e He eq_refl).
Qed.

Lemma list_to_map_middle (l1 l2 : list BlockIndexEntry) e :
  Forall (fun x => bie_height x ≠ bie_height e) l1 ->
  list_to_map (entry_pair <$> (l1 ++ e :: l2))
  = <[bie_height e := bie_block_hash e]> (list_to_map (entry_pair <$> (l1 ++ l2)) : gmap Z Hash).
Proof.
  induction 1 as [|x l1 Hx _ IH]; [done|].
  rewrite <-!app_comm_cons, !fmap_cons. unfold entry_pair at 1 3.
  rewrite !list_to_map_cons, IH. by apply insert_insert_ne.
Qed.

Lemma sorted_middle (l1 l2 : list BlockIndexEntry) e :
  sorted_by bie_height (l1 ++ e :: l2) <->
  Forall (fun x => bie_height x < bie_height e) l1
  /\ Forall (fun x => bie_height e < bie_height x) l2 /\ sorted_by bie_height (l1 ++ l2).
Proof.
  unfold sorted_by. rewrite !StronglySorted_app, StronglySorted_cons, !Forall_forall.
  setoid_rewrite elem_of_cons. split; [naive_solver|].
  intros (H1 & H2 & H3 & H4 & H5). split_and!; [|done..].
  intros x1 x2 Hx1 [->|Hx2]; auto.
Qed.

Lemma Forall_lt_ne {l : list BlockIndexEntry} {h} :
  Forall (fun e => bie_height e < h) l -> Forall (fun e => bie_height e ≠ h) l.
Proof. intros H. eapply Forall_impl; [exact H|]. simpl. lia. Qed.

Lemma Forall_gt_ne {l : list BlockIndexEntry} {h} :
  Forall (fun e => h < bie_height e) l -> Forall (fun e => bie_height e ≠ h) l.
Proof. intros H. eapply Forall_impl; [exact H|]. simpl. lia. Qed.

(** [get] on a sorted index is the lookup of the map. *)
Lemma index_get_map i h : index_sorted i -> BlockIndex.get h i = index_map i !! h.
Proof.
  intros Hs. pose proof (binary_search_split bie_height _ (sorted_by_weakly _ _ Hs) h Hs) as H.
  unfold BlockIndex.get, index_map. destruct (binary_search_by_key _ _ _) as [p|p|]; [| |done].
  - destruct H as (l1 & e & l2 & Heq & <- & <-). rewrite Heq in Hs |- *.
    apply sorted_middle in Hs as (H1 & H2 & _).
    rewrite list_to_map_middle, lookup_insert_eq, list_lookup_middle by auto using Forall_lt_ne.
    done.
  - destruct H as (l1 & l2 & Heq & <- & H1 & H2). rewrite Heq. symmetry.
    apply list_to_map_none, Forall_app. auto using Forall_lt_ne, Forall_gt_ne.
Qed.

Lemma index_contains_map i h : index_sorted i ->
  BlockIndex.contains h i = bool_decide (is_Some (index_map i !! h)).
Proof.
  intros Hs. rewrite <-(index_get_map i h Hs). unfold BlockIndex.contains, BlockIndex.get.
  pose proof (binary_search_split bie_height _ (sorted_by_weakly _ _ Hs) h Hs) as H.
  destruct (binary_search_by_key _ _ _) as [p|p|]; simpl; [| |done].
  - destruct H as (l1 & e & l2 & -> & <- & <-). by rewrite list_lookup_middle.
  - done.
Qed.

(** [insert] keeps the index sorted and updates the map. *)
Lemma index_insert_spec i h x : index_sorted i ->
  index_sorted (BlockIndex.insert h x i)
  /\ index_map (BlockIndex.insert h x i) = <[h := x]> (index_map i).
Proof.
  intros Hs. pose proof (binary_search_split bie_height _ (sorted_by_weakly _ _ Hs) h Hs) as H.
  unfold BlockIndex.insert, index_map.
  destruct (binary_search_by_key _ _ _) as [p|p|]; simpl; [| |done].
  - destruct H as (l1 & e & l2 & Heq & <- & <-). rewrite Heq in Hs |- *.
    rewrite insert_app_r_alt, Nat.sub_diag by lia. simpl. apply sorted_middle in Hs as (H1 & H2 & H3).
    split; [by apply sorted_middle|].
    rewrite !list_to_map_middle, insert_insert_eq by auto using Forall_lt_ne. done.
  - destruct H as (l1 & l2 & Heq & <- & H1 & H2). rewrite Heq in Hs |- *.
    rewrite take_app_length, drop_app_length.
    split; [by apply sorted_middle | by apply list_to_map_middle, Forall_lt_ne].
Qed.

(** A sorted index is determined by its map. *)
Lemma index_map_inj i j : index_sorted i -> index_sorted j -> index_map i = index_map j -> i = j.
Proof.
  assert (Hno : forall i, index_sorted i -> NoDup (entry_pair <$> BlockIndex.entries i).*1).
  { intros k Hk. rewrite <-list_fmap_compose. change (fst ∘ entry_pair) with bie_height.
    induction Hk as [|x l Hl IH Hx]; simpl; constructor; [|done].
    intros (y & Hy & Hin)%list_elem_of_fmap.
    pose proof (proj1 (Forall_forall _ _) Hx y Hin). simpl in *. lia. }
  intros Hi Hj Hm. assert (HP : entry_pair <$> BlockIndex.entries i ≡ₚ entry_pair <$> BlockIndex.entries j).
  { rewrite <-(map_to_list_to_map (M := gmap Z) _ (Hno i Hi)),
      <-(map_to_list_to_map (M := gmap Z) _ (Hno j Hj)).
    unfold index_map in Hm. by rewrite Hm. }
  assert (He : BlockIndex.entries i = BlockIndex.entries j).
  { eapply StronglySorted_unique_strong; [|exact Hi|exact Hj|].
    - simpl. intros x y _ _ H1 H2. lia.
    - apply (fmap_Permutation (fun p => {| bie_height := p.1; bie_block_hash := p.2 |})) in HP.
      rewrite <-!list_fmap_compose in HP.
      rewrite !(list_fmap_ext (_ ∘ entry_pair) id), !list_fmap_id in HP by (by intros ? []).
      done. }
  destruct i, j. simpl in *. by subst.
Qed.

(** ** The assembly buffer *)

Import BlockAssemblyBuffer.

#[export] Instance started_le_trans : Transitive started_le.
Proof. intros ???. unfold started_le. lia. Qed.
#[export] Instance started_le_total : Total started_le.
Proof. intros ??. unfold started_le. lia. Qed.

Lemma remove_all_config l : forall b, config (remove_all b l) = config b.
Proof. induction l as [|x l IH]; intros b; simpl; [done|]. by rewrite IH. Qed.

Lemma remove_all_lookup l : forall b h,
  pending (remove_all b l) !! h = if decide (h ∈ l) then None else pending b !! h.
Proof.
  induction l as [|x l IH]; intros b h; simpl; [done|]. rewrite IH. simpl.
  destruct (decide (h = x)) as [->|Hx].
  - rewrite lookup_delete_eq. rewrite (decide_True (P := x ∈ x :: l)) by left.
    by case_decide.
  - rewrite lookup_delete_ne by done. do 2 case_decide; set_solver.
Qed.

Lemma remove_all_size l : forall b, NoDup l -> (forall h, h ∈ l -> is_Some (pending b !! h)) ->
  size (pending (remove_all b l)) = (size (pending b) - length l)%nat.
Proof.
  induction l as [|x l IH]; intros b Hnd Hin; simpl; [lia|].
  apply NoDup_cons in Hnd as [Hx Hnd]. rewrite IH; [|done|].
  - simpl. destruct (Hin x) as [a Ha]; [left|].
    rewrite map_size_delete_Some by eauto. lia.
  - intros h Hh. simpl. rewrite lookup_delete_ne by set_solver. apply Hin. by right.
Qed.

(** The entries of the buffer in the order of their start. *)
Definition by_age (b : BlockAssemblyBuffer) : list (Hash * Timestamp) :=
  stable_sort started_le ((fun p => (p.1, pa_started_at p.2)) <$> map_to_list (pending b)).

Lemma by_age_perm b : (by_age b).*1 ≡ₚ (map_to_list (pending b)).*1.
Proof.
  unfold by_age. rewrite (stable_sort_perm started_le).
  by rewrite <-list_fmap_compose.
Qed.

Lemma by_age_elem b h t :
  (h, t) ∈ by_age b <-> exists a, pending b !! h = Some a /\ pa_started_at a = t.
Proof.
  unfold by_age. rewrite (stable_sort_perm started_le), list_elem_of_fmap. split.
  - intros ([h' a] & ? & Hin%elem_of_map_to_list). simplify_eq/=. eauto.
  - intros (a & Ha & <-). exists (h, a). by rewrite elem_of_map_to_list.
Qed.

Lemma overflow_hashes_age b :
  overflow_hashes b
  = (take (size (pending b) - max_pending_assemblies (config b)) (by_age b)).*1.
Proof. done. Qed.

Lemma overflow_hashes_NoDup b : NoDup (overflow_hashes b).
Proof.
  rewrite overflow_hashes_age, fmap_take.
  eapply sublist_NoDup; [|apply sublist_take]. rewrite by_age_perm. apply NoDup_fst_map_to_list.
Qed.

Lemma length_by_age b : length (by_age b) = size (pending b).
Proof.
  unfold by_age. rewrite (stable_sort_perm started_le), length_fmap.
  by rewrite length_map_to_list.
Qed.

Lemma overflow_hashes_in b h : h ∈ overflow_hashes b -> is_Some (pending b !! h).
Proof.
  rewrite overflow_hashes_age. intros ([h' t] & -> & Hin)%list_elem_of_fmap.
  assert (Hin' : (h', t) ∈ by_age b) by (eapply elem_of_sublist; [exact Hin|apply sublist_take]).
  apply by_age_elem in Hin' as (a & Ha & _). by exists a.
Qed.

(** What [enforce_max_pending] leaves: at most the limit, a part of what was
    there, and nothing that started before something it purged. *)
Lemma enforce_max_pending_spec b :
  let b' := (enforce_max_pending b).1 in
  size (pending b') = Nat.min (size (pending b)) (max_pending_assemblies (config b))
  /\ config b' = config b
  /\ (forall h, pending b' !! h
        = if decide (h ∈ (enforce_max_pending b).2) then None else pending b !! h)
  /\ (forall h h' a a', h ∈ (enforce_max_pending b).2 -> pending b !! h = Some a ->
        pending b' !! h' = Some a' -> pa_started_at a <= pa_started_at a').
Proof.
  unfold enforce_max_pending. case_match eqn:E; simpl.
  { apply Nat.leb_le in E. split_and!; [lia|done|done|]. intros ???? Hin. by apply not_elem_of_nil in Hin. }
  apply Nat.leb_gt in E. split_and!.
  - rewrite remove_all_size by (apply overflow_hashes_NoDup || apply overflow_hashes_in).
    rewrite overflow_hashes_age, length_fmap, length_take, length_by_age. lia.
  - apply remove_all_config.
  - intros h. apply remove_all_lookup.
  - intros h h' a a' Hh Ha Ha'. rewrite remove_all_lookup in Ha'. case_decide as Hn; [done|].
    set (n := (size (pending b) - max_pending_assemblies (config b))%nat) in *.
    assert (Hs : StronglySorted started_le (take n (by_age b) ++ drop n (by_age b))).
    { rewrite take_drop. apply stable_sort_sorted; apply _. }
    rewrite overflow_hashes_age in Hh, Hn. fold n in Hh, Hn.
    apply list_elem_of_fmap in Hh as ([h0 t] & -> & Ht).
    assert (Hin : (h0, t) ∈ by_age b) by (eapply elem_of_sublist; [exact Ht|apply sublist_take]).
    apply by_age_elem in Hin as (a0 & Ha0 & <-). simpl in Ha. simplify_eq.
    assert (Hd : (h', pa_started_at a') ∈ by_age b) by (apply by_age_elem; eauto).
    rewrite <-(take_drop n (by_age b)), elem_of_app in Hd. destruct Hd as [Hd|Hd].
    + destruct Hn. apply list_elem_of_fmap. by eexists (h', _).
    + exact (StronglySorted_app_1_elem_of _ _ _ _ _ Hs Ht Hd).
Qed.

(** Purging expired assemblies removes exactly them. *)
Lemma expired_hashes_elem b now h :
  h ∈ expired_hashes b now <-> exists a, pending b !! h = Some a
    /\ is_expired a now (assembly_timeout_secs (config b)) = true.
Proof.
  unfold expired_hashes. rewrite list_elem_of_fmap. split.
  - intros ([h' a] & -> & [He Hin]%list_elem_of_filter).
    apply elem_of_map_to_list in Hin. by exists a.
  - intros (a & Ha & He). exists (h, a). split; [done|].
    apply list_elem_of_filter. by rewrite elem_of_map_to_list.
Qed.

Lemma gc_with_data_loop l : forall b acc,
  (foldl (fun '(b, result) hash =>
           match pending b !! hash with
           | Some assembly =>
               (set_pending b (delete hash (pending b)), result ++ [(hash, assembly)])
           | None => (b, result)
           end) (b, acc) l).1 = remove_all b l.
Proof.
  induction l as [|x l IH]; intros b acc; simpl; [done|].
  destruct (pending b !! x) eqn:E; rewrite IH; [done|].
  f_equal. destruct b as [p c]. unfold set_pending. simpl in *. by rewrite delete_id.
Qed.

Lemma gc_expired_with_data_fst b now :
  (gc_expired_with_data b now).1 = (gc_expired b now).1.
Proof. apply gc_with_data_loop. Qed.
