(* ===== verification/BlockInv.v ===== *)
(** * Block storage: the invariant of the service

    What the service keeps under every sequence of calls, over any key-value
    store and serializer that keep their promises: the stored blocks are intact
    and have their parents, the height index, the height keys, the metadata and
    the transaction index agree with the stored blocks, and the assembly buffer
    holds incomplete assemblies under the hashes of their blocks. *)

From S2P Require Import Prelude Blocks BlockStorage BlockKv BlockService BlockFacts.
Local Open Scope Z_scope.

(** ** Keys *)

Lemma key_tag p k : as_bytes p `prefix_of` k -> head k = head (as_bytes p).
Proof. intros [l ->]. by destruct p. Qed.

Lemma key_has_prefix p s : as_bytes p `prefix_of` key p s.
Proof. by exists s. Qed.

Lemma key_ne p q s k : as_bytes p `prefix_of` k -> p <> q -> k <> key q s.
Proof.
  intros Hp%key_tag Hne ->. destruct p, q; try done; by inversion Hp.
Qed.

Lemma block_key_inj x y : in_width 256 x -> in_width 256 y -> block_key x = block_key y -> x = y.
Proof. intros Hx Hy H. apply app_inv_head in H. by apply hash_bytes_inj. Qed.

Lemma height_key_inj x y : in_width 64 x -> in_width 64 y -> height_key x = height_key y -> x = y.
Proof. intros Hx Hy H. apply app_inv_head in H. by apply (be_bytes_inj 8). Qed.

Lemma block_key_prefix x : as_bytes Block `prefix_of` block_key x.
Proof. apply key_has_prefix. Qed.

Lemma height_key_prefix x : as_bytes BlockByHeight `prefix_of` height_key x.
Proof. apply key_has_prefix. Qed.

#[export] Hint Resolve block_key_prefix height_key_prefix : qc.

(** Closes [height_key x <> k] and the like, where the prefix of [k] is known. *)
Ltac other_key :=
  apply not_eq_sym;
  first [eapply (key_ne Block BlockByHeight) | eapply (key_ne BlockByHeight Block)];
  [by eauto with qc | done].

Section inv.
Context {KV : Type} {K : KeyValueStore KV} {view : KV -> gmap (list u8) (list u8)}.
Context {KL : KeyValueStoreLaws K view} {B : BlockSerializer} {BL : BlockSerializerLaws B}.
Context (sha256 : list u8 -> Hash) (crc32c : list u8 -> Z).
Context (Hsha : forall l, in_width 256 (sha256 l)).

Abbreviation Svc := (BlockStorageService KV).
Abbreviation contents s := (view (kv_store s)).
Abbreviation hash_of b := (block_hash sha256 b).

(** The store holds block [b] under the key of [x]. *)
Definition stored (m : gmap (list u8) (list u8)) (x : Hash) (b : StoredBlock) : Prop :=
  exists d, m !! block_key x = Some d /\ deserialize d = Ok b.

Definition checksum_ok (b : StoredBlock) : Prop :=
  sb_checksum b
  = compute_block_checksum crc32c (sb_block b) (sb_merkle_root b) (sb_state_root b).

(** An intact entry: it decodes to a block whose hash is its key, with the right
    checksum, and whose parent is stored unless it is a genesis block. *)
Definition intact (m : gmap (list u8) (list u8)) (k d : list u8) : Prop :=
  exists b, deserialize d = Ok b /\ k = block_key (hash_of b) /\ checksum_ok b
    /\ block_in_range (sb_block b)
    /\ (sb_height b = 0 \/ is_Some (m !! block_key (sb_parent_hash b))).

(** The location names a stored block that has the transaction at the index. *)
Definition located (m : gmap (list u8) (list u8)) (t : Hash) (l : TransactionLocation) : Prop :=
  exists b, stored m (tl_block_hash l) b /\ tl_block_height l = sb_height b
    /\ vt_tx_hash <$> vb_transactions (sb_block b) !! tl_transaction_index l = Some t
    /\ tl_merkle_root l = bh_merkle_root (vb_header (sb_block b)).

(** A persisted entry of the transaction index. *)
Definition tx_key_ok (m : gmap (list u8) (list u8)) (k d : list u8) : Prop :=
  exists t l, in_width 256 t /\ k = transaction_key t /\ deserialize_location d = Some l
    /\ located m t l.

Record store_inv (s : Svc) : Prop := {
  si_blocks k d : as_bytes Block `prefix_of` k -> contents s !! k = Some d ->
    intact (contents s) k d;
  si_sorted : index_sorted (block_index s);
  si_index h x : index_map (block_index s) !! h = Some x ->
    in_width 64 h /\ exists b, stored (contents s) x b /\ sb_height b = h /\ x = hash_of b;
  si_heights h : in_width 64 h ->
    contents s !! height_key h = be_bytes 32 <$> index_map (block_index s) !! h;
  si_height_keys k d : as_bytes BlockByHeight `prefix_of` k -> contents s !! k = Some d ->
    exists h, in_width 64 h /\ k = height_key h;
  si_latest : 0 <= get_latest_height s
    /\ (get_latest_height s = 0 \/ is_Some (index_map (block_index s) !! get_latest_height s))
    /\ forall h, is_Some (index_map (block_index s) !! h) -> h <= get_latest_height s;
  si_final : 0 <= get_finalized_height s
    /\ (get_finalized_height s = 0
        \/ is_Some (index_map (block_index s) !! get_finalized_height s));
  si_genesis g : StorageMetadata.genesis_hash (metadata s) = Some g ->
    exists b, stored (contents s) g b /\ sb_height b = 0 /\ g = hash_of b;
  si_tx t l : tx_index s !! t = Some l -> located (contents s) t l;
  si_tx_keys k d : as_bytes TransactionPrefix `prefix_of` k -> contents s !! k = Some d ->
    tx_key_ok (contents s) k d
}.

(** An assembly waits under the hash of its block and lacks a part. *)
Definition pending_ok (h : Hash) (a : PendingBlockAssembly) : Prop :=
  pa_block_hash a = h /\ pa_is_complete a = false
  /\ forall b, pa_validated_block a = Some b -> compute_block_hash sha256 b = h /\ block_in_range b.

Definition buffer_inv (s : Svc) : Prop :=
  forall h a, BlockAssemblyBuffer.pending (assembly_buffer s) !! h = Some a -> pending_ok h a.

Definition inv (s : Svc) : Prop := store_inv s /\ buffer_inv s.

(** ** Reading *)

Lemma read_block_stored s x b :
  store_inv s -> stored (contents s) x b -> read_block sha256 crc32c s x = Ok b.
Proof.
  intros Hs (d & Hd & Hb). unfold read_block. rewrite kv_get_spec. simpl. rewrite Hd.
  rewrite Hb. simpl. destruct (si_blocks s Hs _ _ (key_has_prefix _ _) Hd)
    as (b' & Hb' & _ & Hc & _). rewrite Hb in Hb'. injection Hb' as <-.
  unfold verify_block_checksum. rewrite Hc, Z.eqb_refl. done.
Qed.

Lemma block_exists_view (s : Svc) x :
  block_exists s x = bool_decide (is_Some (contents s !! block_key x)).
Proof. unfold block_exists. by rewrite kv_exists_spec. Qed.

(** ** Writing *)

(** The store with the keys of the transaction index left aside. *)
Definition same_blocks (m m' : gmap (list u8) (list u8)) : Prop :=
  forall k, ~ as_bytes TransactionPrefix `prefix_of` k -> m' !! k = m !! k.

(** Where the transaction at index [i] of a block is. *)
Definition location_at (block : ValidatedBlock) (hash : Hash) (i : nat) : TransactionLocation := {|
  tl_block_hash := hash; tl_block_height := vb_height block; tl_transaction_index := i;
  tl_merkle_root := bh_merkle_root (vb_header block) |}.

(** The keys of the transaction index that were added for the entries [l]. *)
Definition tx_keys_from (block : ValidatedBlock) (hash : Hash) (l : list (nat * ValidatedTransaction))
  (m m' : gmap (list u8) (list u8)) : Prop :=
  forall k d, m' !! k = Some d -> m !! k = Some d
    \/ exists e, e ∈ l /\ k = transaction_key (vt_tx_hash e.2)
       /\ serialize_location (location_at block hash e.1) = Some d.

Lemma index_step_effect p block hash acc e :
  let acc' := index_transactions_step p block hash acc e in
  same_blocks (view acc.1) (view acc'.1)
  /\ (forall k d, view acc'.1 !! k = Some d -> view acc.1 !! k = Some d
        \/ k = transaction_key (vt_tx_hash e.2)
           /\ serialize_location (location_at block hash e.1) = Some d)
  /\ acc'.2 = <[vt_tx_hash e.2 := location_at block hash e.1]> acc.2.
Proof.
  unfold index_transactions_step. destruct p; simpl; [|by split_and!; [| |auto]; auto].
  fold (location_at block hash e.1).
  destruct (serialize_location _) as [v|]; simpl; [|by split_and!; [| |auto]; auto].
  rewrite kv_put_spec. destruct (is_ok _); [|by split_and!; [| |auto]; auto]. split_and!; [| |done].
  - intros k Hk. apply lookup_insert_ne. intros <-. apply Hk, key_has_prefix.
  - intros k d. destruct (decide (k = transaction_key (vt_tx_hash e.2))) as [->|Hk].
    + rewrite lookup_insert_eq. intros [= <-]. by right.
    + rewrite lookup_insert_ne by done. by left.
Qed.

Lemma index_loop_effect p block hash l : forall acc,
  let acc' := foldl (index_transactions_step p block hash) acc l in
  same_blocks (view acc.1) (view acc'.1)
  /\ tx_keys_from block hash l (view acc.1) (view acc'.1)
  /\ forall t loc, acc'.2 !! t = Some loc -> acc.2 !! t = Some loc
     \/ exists e, e ∈ l /\ vt_tx_hash e.2 = t /\ loc = location_at block hash e.1.
Proof.
  induction l as [|e l IH]; intros acc; simpl; [split_and!; auto; by intros ?; auto|].
  destruct (index_step_effect p block hash acc e) as (Hk & Ht & Hi).
  destruct (IH (index_transactions_step p block hash acc e)) as (Hk' & Ht' & Hi').
  split_and!.
  - intros k Hp. rewrite Hk' by done. by apply Hk.
  - intros k d [H|(e' & ? & ?)]%Ht'.
    + destruct (Ht k d H) as [?|?]; [by left|]. right. exists e. split; [by left|done].
    + right. exists e'. split; [by right|done].
  - intros t loc Hloc. destruct (Hi' t loc Hloc) as [H|(e' & ? & ? & ?)].
    + rewrite Hi in H. destruct (decide (vt_tx_hash e.2 = t)) as [<-|Hne].
      * rewrite lookup_insert_eq in H. right. exists e. split; [by left|]. naive_solver.
      * rewrite lookup_insert_ne in H by done. by left.
    + right. exists e'. split; [by right|done].
Qed.

Lemma elem_of_enumerate {A} (l : list A) e :
  e ∈ imap (fun i x => (i, x)) l -> l !! e.1 = Some e.2.
Proof.
  intros (j & Hj)%list_elem_of_lookup. rewrite list_lookup_imap in Hj.
  destruct (l !! j) eqn:E; by simplify_eq/=.
Qed.

(** What indexing the transactions of a block changes. *)
Lemma index_transactions_effect (s : Svc) block hash :
  let s' := index_transactions s block hash in
  same_blocks (contents s) (contents s')
  /\ svc_config s' = svc_config s /\ assembly_buffer s' = assembly_buffer s
  /\ block_index s' = block_index s /\ metadata s' = metadata s
  /\ tx_keys_from block hash (imap (fun i tx => (i, tx)) (vb_transactions block))
       (contents s) (contents s')
  /\ forall t loc, tx_index s' !! t = Some loc -> tx_index s !! t = Some loc
     \/ exists i, loc = location_at block hash i
        /\ vt_tx_hash <$> vb_transactions block !! i = Some t.
Proof.
  unfold index_transactions.
  pose proof (index_loop_effect (persist_transaction_index (svc_config s)) block hash
    (imap (fun i tx => (i, tx)) (vb_transactions block)) (kv_store s, tx_index s)) as (Hk & Ht & Hi).
  destruct (foldl _ _ _) as [kv ix]. simpl in *. split_and!; try done.
  intros t loc Hloc. destruct (Hi t loc Hloc) as [?|([i tx] & He & <- & ->)]; [by left|].
  right. exists i. split; [done|]. apply elem_of_enumerate in He. simpl in *. by rewrite He.
Qed.

(** A call that changed nothing but the representation of the store. *)
Definition unchanged (s s' : Svc) : Prop :=
  contents s' = contents s /\ s' = set_kv s (kv_store s').

Lemma unchanged_refl s : unchanged s s.
Proof. split; [done|]. by destruct s. Qed.

(** What a successful write requires and does. *)
Record written (env : Env) (s s' : Svc) (b : ValidatedBlock) (mr sr h : Hash) (d : list u8)
  : Prop := {
  wr_hash : h = compute_block_hash sha256 b;
  wr_disk : check_disk_space env s = Ok tt;
  wr_parent : vb_height b = 0 \/ is_Some (contents s !! block_key (vb_parent_hash b));
  wr_fresh : contents s !! block_key h = None;
  wr_size : estimate_size (stored_block crc32c env b mr sr) <= max_block_size (svc_config s);
  wr_data : serialize (stored_block crc32c env b mr sr) = Ok d;
  wr_contents : same_blocks (<[height_key (vb_height b) := hash_bytes h]>
    (<[block_key h := d]> (contents s))) (contents s');
  wr_config : svc_config s' = svc_config s;
  wr_buffer : assembly_buffer s' = assembly_buffer s;
  wr_index : block_index s' = BlockIndex.insert (vb_height b) h (block_index s);
  wr_meta : metadata s' = StorageMetadata.on_block_stored (vb_height b) h (metadata s);
  wr_tx_keys : tx_keys_from b h (imap (fun i tx => (i, tx)) (vb_transactions b))
    (<[height_key (vb_height b) := hash_bytes h]> (<[block_key h := d]> (contents s)))
    (contents s');
  wr_tx t loc : tx_index s' !! t = Some loc -> tx_index s !! t = Some loc
    \/ exists i, loc = location_at b h i
      /\ vt_tx_hash <$> vb_transactions b !! i = Some t
}.

Lemma check_parent_ok (s : Svc) b : check_parent_exists s b = Ok tt ->
  vb_height b = 0 \/ is_Some (contents s !! block_key (vb_parent_hash b)).
Proof.
  unfold check_parent_exists. rewrite block_exists_view.
  case_match; [bools; by left|]. case_bool_decide; simpl; [by right|done].
Qed.

Lemma write_block_effect env (s : Svc) b mr sr :
  match write_block sha256 crc32c env s b mr sr with
  | (s', Ok h) => exists d, written env s s' b mr sr h d
  | (s', _) => unchanged s s'
  end.
Proof.
  unfold write_block.
  destruct (check_disk_space env s) as [[]|e|] eqn:Hdisk; simpl; auto using unchanged_refl.
  destruct (check_parent_exists s b) as [[]|e|] eqn:Hpar; simpl; auto using unchanged_refl.
  set (h := compute_block_hash sha256 b). rewrite block_exists_view.
  case_bool_decide as Hex; [apply unchanged_refl|].
  destruct (max_block_size _ <? _) eqn:Hsz; [apply unchanged_refl|]. bools.
  destruct (serialize _) as [d|e|] eqn:Hser; simpl; [|apply unchanged_refl..].
  pose proof (kv_batch_spec (kv_store s) [Put (block_key h) d;
    Put (height_key (vb_height b)) (hash_bytes h)]) as Hb.
  destruct (kv_atomic_batch_write _ _) as [kv [[]|e|]]; simpl in Hb |- *; [|by split..].
  exists d. match goal with |- written _ _ (index_transactions ?x _ _) _ _ _ _ _ =>
    pose proof (index_transactions_effect x b h) as (H1 & H2 & H3 & H4 & H5 & H6 & H7) end.
  simpl in *. rewrite Hb in H1, H6. split; try done.
  - by apply check_parent_ok.
  - by apply eq_None_not_Some.
Qed.

(** ** Writing keeps the invariant *)

Section written.
Context {env : Env} {s s' : Svc} {b : ValidatedBlock} {mr sr h : Hash} {d : list u8}.
Context (Hw : written env s s' b mr sr h d) (Hb : block_in_range b).

Lemma written_block_lookup x : in_width 256 x ->
  contents s' !! block_key x = if decide (x = h) then Some d else contents s !! block_key x.
Proof.
  intros Hx. rewrite (wr_contents _ _ _ _ _ _ _ _ Hw).
  2:{ intros Hp. by apply (key_ne _ Block (hash_bytes x)) in Hp. }
  rewrite lookup_insert_ne by other_key.
  case_decide as E; [by rewrite E, lookup_insert_eq|].
  apply lookup_insert_ne. intros Hk%block_key_inj; [done| |done].
  rewrite (wr_hash _ _ _ _ _ _ _ _ Hw). apply Hsha.
Qed.

(** No block key loses its entry. *)
Lemma written_keeps k v : as_bytes Block `prefix_of` k ->
  contents s !! k = Some v -> contents s' !! k = Some v.
Proof.
  intros Hp Hk. rewrite (wr_contents _ _ _ _ _ _ _ _ Hw).
  2:{ intros H1%key_tag. apply key_tag in Hp. rewrite Hp in H1. done. }
  rewrite lookup_insert_ne by other_key.
  rewrite lookup_insert_ne; [done|]. intros <-.
  pose proof (wr_fresh _ _ _ _ _ _ _ _ Hw). congruence.
Qed.

Lemma written_keeps_stored x y : stored (contents s) x y -> stored (contents s') x y.
Proof. intros (v & Hv & ?). exists v. split; [apply written_keeps; auto with qc|done]. Qed.

Lemma written_stored : stored (contents s') h (stored_block crc32c env b mr sr).
Proof.
  exists d. rewrite written_block_lookup, decide_True; [|done|].
  - split; [done|]. apply deserialize_serialize, (wr_data _ _ _ _ _ _ _ _ Hw).
  - rewrite (wr_hash _ _ _ _ _ _ _ _ Hw). apply Hsha.
Qed.

Lemma written_height_lookup x : in_width 64 x ->
  contents s' !! height_key x
  = if decide (x = vb_height b) then Some (hash_bytes h) else contents s !! height_key x.
Proof.
  intros Hx. rewrite (wr_contents _ _ _ _ _ _ _ _ Hw).
  2:{ intros Hp. by apply (key_ne _ BlockByHeight (be_bytes 8 x)) in Hp. }
  case_decide as E; [by rewrite E, lookup_insert_eq|].
  rewrite lookup_insert_ne.
  - apply lookup_insert_ne. other_key.
  - intros Hk%height_key_inj; [done|apply bir_height, Hb|done].
Qed.

Lemma written_block_keys k v : as_bytes Block `prefix_of` k -> contents s' !! k = Some v ->
  (k = block_key h /\ v = d) \/ contents s !! k = Some v.
Proof.
  intros Hp. rewrite (wr_contents _ _ _ _ _ _ _ _ Hw).
  2:{ intros H1%key_tag. apply key_tag in Hp. rewrite Hp in H1. done. }
  rewrite lookup_insert_ne by other_key.
  destruct (decide (k = block_key h)) as [->|Hk].
  - rewrite lookup_insert_eq. intros [= <-]. by left.
  - rewrite lookup_insert_ne by done. by right.
Qed.

Lemma written_height_keys k v : as_bytes BlockByHeight `prefix_of` k ->
  contents s' !! k = Some v -> k = height_key (vb_height b) \/ is_Some (contents s !! k).
Proof.
  intros Hp. rewrite (wr_contents _ _ _ _ _ _ _ _ Hw).
  2:{ intros H1%key_tag. apply key_tag in Hp. rewrite Hp in H1. done. }
  destruct (decide (k = height_key (vb_height b))) as [->|Hk]; [by left|].
  rewrite lookup_insert_ne by done.
  rewrite lookup_insert_ne by other_key.
  intros ->. right. by eexists.
Qed.

Lemma written_intact k v : store_inv s -> as_bytes Block `prefix_of` k ->
  contents s' !! k = Some v -> intact (contents s') k v.
Proof.
  intros Hs Hp [[-> ->]|Hv]%written_block_keys; [| |done].
  - exists (stored_block crc32c env b mr sr). split_and!; [|by rewrite (wr_hash _ _ _ _ _ _ _ _ Hw)|done|done|].
    + apply deserialize_serialize, (wr_data _ _ _ _ _ _ _ _ Hw).
    + destruct (wr_parent _ _ _ _ _ _ _ _ Hw) as [H|[v Hv]]; [by left|].
      right. exists v. apply written_keeps; auto with qc.
  - destruct (si_blocks s Hs k v Hp Hv) as (y & ? & ? & ? & ? & [?|[w Hw']]); exists y;
      split_and!; try done; [by left|]. right. exists w. apply written_keeps; auto with qc.
Qed.

Lemma written_index : store_inv s -> index_sorted (block_index s')
  /\ index_map (block_index s') = <[vb_height b := h]> (index_map (block_index s)).
Proof.
  intros Hs. rewrite (wr_index _ _ _ _ _ _ _ _ Hw). apply index_insert_spec, Hs.
Qed.

Lemma written_located t l : store_inv s -> tx_index s' !! t = Some l -> located (contents s') t l.
Proof.
  intros Hs [H|(i & -> & Hi)]%(wr_tx _ _ _ _ _ _ _ _ Hw).
  - destruct (si_tx s Hs t l H) as (y & ? & ?). exists y. auto using written_keeps_stored.
  - eexists. split; [exact written_stored|done].
Qed.

Lemma written_latest : store_inv s -> 0 <= get_latest_height s'
    /\ (get_latest_height s' = 0 \/ is_Some (index_map (block_index s') !! get_latest_height s'))
    /\ forall x, is_Some (index_map (block_index s') !! x) -> x <= get_latest_height s'.
Proof.
  intros Hs. destruct (written_index Hs) as [_ ->]. destruct (si_latest s Hs) as (H0 & H1 & H2).
  pose proof (bir_height b Hb) as [Hh _].
  unfold get_latest_height in *. rewrite (wr_meta _ _ _ _ _ _ _ _ Hw). simpl.
  case_match eqn:E; bools; split_and!; try done; try lia.
  - right. rewrite lookup_insert_eq. by eexists.
  - intros x [y Hy]. destruct (decide (x = vb_height b)) as [->|Hx]; [lia|].
    rewrite lookup_insert_ne in Hy by done. specialize (H2 x (mk_is_Some _ _ Hy)). lia.
  - destruct H1 as [?|H1]; [by left|]. right. by apply lookup_insert_is_Some'; right.
  - intros x [y Hy]. destruct (decide (x = vb_height b)) as [->|Hx]; [lia|].
    rewrite lookup_insert_ne in Hy by done. apply H2. by eexists.
Qed.

Lemma written_genesis g : store_inv s ->
  StorageMetadata.genesis_hash (metadata s') = Some g ->
  exists y, stored (contents s') g y /\ sb_height y = 0 /\ g = hash_of y.
Proof.
  intros Hs. rewrite (wr_meta _ _ _ _ _ _ _ _ Hw). simpl.
  destruct (StorageMetadata.genesis_hash (metadata s)) as [g0|] eqn:Eg.
  - intros [= <-]. destruct (si_genesis s Hs g0 Eg) as (y & ? & ? & ?).
    exists y. auto using written_keeps_stored.
  - destruct (vb_height b =? 0) eqn:E; [|done]. intros [= <-]. bools.
    exists (stored_block crc32c env b mr sr). split_and!; [exact written_stored|done|].
    apply (wr_hash _ _ _ _ _ _ _ _ Hw).
Qed.

Lemma written_tx_keys k v : store_inv s -> as_bytes TransactionPrefix `prefix_of` k ->
  contents s' !! k = Some v -> tx_key_ok (contents s') k v.
Proof.
  intros Hs Hp [H|(e & He & -> & Hv)]%(wr_tx_keys _ _ _ _ _ _ _ _ Hw).
  - rewrite !lookup_insert_ne in H by (apply not_eq_sym; eapply key_ne; [exact Hp|done]).
    destruct (si_tx_keys s Hs k v Hp H) as (t & l & ? & ? & ? & y & ? & ?).
    exists t, l. split_and!; try done. exists y. auto using written_keeps_stored.
  - apply elem_of_enumerate in He. exists (vt_tx_hash e.2), (location_at b h e.1). split_and!.
    + exact (proj1 (Forall_lookup _ _) (bir_txs b Hb) _ _ He).
    + done.
    + by apply deserialize_serialize_location.
    + eexists. split; [exact written_stored|]. simpl. by rewrite He.
Qed.

Lemma written_inv : store_inv s -> store_inv s'.
Proof.
  intros Hs. destruct (written_index Hs) as [Hsort Hix]. split.
  - intros k v. by apply written_intact.
  - done.
  - intros x y. rewrite Hix. destruct (decide (x = vb_height b)) as [->|Hx].
    + rewrite lookup_insert_eq. intros [= <-]. split; [apply bir_height, Hb|].
      eexists. split_and!; [exact written_stored|done|apply (wr_hash _ _ _ _ _ _ _ _ Hw)].
    + rewrite lookup_insert_ne by done. intros Hy. destruct (si_index s Hs x y Hy) as (? & z & ? & ?).
      split; [done|]. exists z. auto using written_keeps_stored.
  - intros x Hx. rewrite written_height_lookup, Hix by done.
    case_decide as E; [by rewrite E, lookup_insert_eq|].
    rewrite lookup_insert_ne by done. by apply si_heights.
  - intros k v Hp Hk. destruct (written_height_keys k v Hp Hk) as [->|[w Hk']].
    + eexists. split; [apply bir_height, Hb|done].
    + by apply (si_height_keys s Hs k w).
  - by apply written_latest.
  - destruct (si_final s Hs) as [H0 H1]. unfold get_finalized_height in *.
    rewrite (wr_meta _ _ _ _ _ _ _ _ Hw), Hix. simpl. split; [done|].
    destruct H1 as [?|H1]; [by left|]. right. by apply lookup_insert_is_Some'; right.
  - intros g. by apply written_genesis.
  - intros t l. by apply written_located.
  - intros k v. by apply written_tx_keys.
Qed.

End written.
End inv.
