(* ===== verification/BlockCalls.v ===== *)
(** * Block storage: every call keeps the invariant

    The calls of the service keep the invariant of [BlockInv], keep every stored
    block, and never lower the finalized height; a service opened on an empty
    store starts in the invariant, and one opened on the store of a running
    service rebuilds its index. *)

From S2P Require Import Prelude Blocks BlockStorage BlockKv BlockService BlockFacts BlockInv.
Local Open Scope Z_scope.

Section calls.
Context {KV : Type} {K : KeyValueStore KV} {view : KV -> gmap (list u8) (list u8)}.
Context {KL : KeyValueStoreLaws K view} {B : BlockSerializer} {BL : BlockSerializerLaws B}.
Context (sha256 : list u8 -> Hash) (crc32c : list u8 -> Z).
Context (Hsha : forall l, in_width 256 (sha256 l)).

Abbreviation Svc := (BlockStorageService KV).
Abbreviation contents s := (view (kv_store s)).
Abbreviation store_inv := (store_inv (view := view) sha256 crc32c).
Abbreviation inv := (inv (view := view) sha256 crc32c).
Abbreviation pending s := (BlockAssemblyBuffer.pending (assembly_buffer s)).

Lemma store_inv_ext (s s' : Svc) :
  contents s' = contents s -> block_index s' = block_index s -> metadata s' = metadata s ->
  tx_index s' = tx_index s -> store_inv s -> store_inv s'.
Proof.
  intros E1 E2 E3 E4 []. split; unfold get_latest_height, get_finalized_height in *;
    rewrite ?E1, ?E2, ?E3, ?E4; try done.
Qed.

Lemma unchanged_inv s s' : unchanged (view := view) s s' -> inv s -> inv s'.
Proof.
  intros [Hc Hs] [H1 H2]. rewrite Hs. split; [|exact H2].
  by apply (store_inv_ext s); simpl.
Qed.

(** ** What a call may do to the store *)

(** The blocks stay, the finalized and the latest height do not go back, and the
    first genesis hash stays. *)
Record extends (s s' : Svc) : Prop := {
  ex_stored x b : stored (contents s) x b -> stored (contents s') x b;
  ex_final : get_finalized_height s <= get_finalized_height s';
  ex_latest : get_latest_height s <= get_latest_height s';
  ex_genesis g : StorageMetadata.genesis_hash (metadata s) = Some g ->
    StorageMetadata.genesis_hash (metadata s') = Some g;
  ex_config : svc_config s' = svc_config s
}.

Lemma extends_same (s s' : Svc) :
  contents s' = contents s -> metadata s' = metadata s -> svc_config s' = svc_config s ->
  extends s s'.
Proof.
  intros E1 E2 E3. split; unfold get_finalized_height, get_latest_height;
    rewrite ?E1, ?E2; auto; lia.
Qed.

Lemma extends_trans s1 s2 s3 : extends s1 s2 -> extends s2 s3 -> extends s1 s3.
Proof. intros [] []. split; eauto; [lia|lia|congruence]. Qed.

(** ** [write_block] *)

Lemma write_block_inv env s b mr sr : block_in_range b -> inv s ->
  inv (write_block sha256 crc32c env s b mr sr).1
  /\ extends s (write_block sha256 crc32c env s b mr sr).1.
Proof.
  intros Hb Hi.
  pose proof (write_block_effect sha256 crc32c env s b mr sr) as H.
  destruct (write_block _ _ _ _ _ _ _) as [s' [h|e|]]; simpl.
  2,3: split; [by eapply unchanged_inv|destruct H as [? ->]; by apply extends_same].
  destruct H as [d Hw]. destruct Hi as [H1 H2]. split.
  - split; [by eapply written_inv|]. intros h' a.
    rewrite (wr_buffer _ _ _ _ _ _ _ _ _ _ Hw). apply H2.
  - split.
    + intros x y. by eapply written_keeps_stored.
    + unfold get_finalized_height. rewrite (wr_meta _ _ _ _ _ _ _ _ _ _ Hw). simpl. lia.
    + unfold get_latest_height. rewrite (wr_meta _ _ _ _ _ _ _ _ _ _ Hw). simpl.
      case_match eqn:E; bools; lia.
    + intros g. rewrite (wr_meta _ _ _ _ _ _ _ _ _ _ Hw). simpl. by intros ->.
    + apply (wr_config _ _ _ _ _ _ _ _ _ _ Hw).
Qed.

(** ** The assembler *)

(** An assembly that may be complete. *)
Definition pending_wf (h : Hash) (a : PendingBlockAssembly) : Prop :=
  pa_block_hash a = h
  /\ forall b, pa_validated_block a = Some b -> compute_block_hash sha256 b = h /\ block_in_range b.

(** The buffer after a part was added for [h]. *)
Definition buffer_but (h : Hash) (b : BlockAssemblyBuffer) : Prop :=
  forall x a, BlockAssemblyBuffer.pending b !! x = Some a ->
    pending_wf x a /\ (x <> h -> pa_is_complete a = false).

Lemma set_buffer_store_inv s b : store_inv s -> store_inv (set_buffer s b).
Proof. by apply store_inv_ext. Qed.

Lemma try_complete_inv env s h b0 : store_inv s -> buffer_but h b0 ->
  let s' := (try_complete_assembly sha256 crc32c env (set_buffer s b0) h).1 in
  inv s' /\ extends s s'.
Proof.
  intros Hs Hb. unfold try_complete_assembly, BlockAssemblyBuffer.take_complete,
    BlockAssemblyBuffer.is_complete. simpl.
  assert (Hrest : forall b, (forall x a, BlockAssemblyBuffer.pending b !! x = Some a ->
      BlockAssemblyBuffer.pending b0 !! x = Some a /\ pa_is_complete a = false) ->
    inv (set_buffer s b) /\ extends s (set_buffer s b)).
  { intros b Hin. split; [|by apply extends_same]. split; [by apply set_buffer_store_inv|].
    intros x a Hx. destruct (Hin x a Hx) as [Hx0 Hc]. destruct (Hb x a Hx0) as [[??] _]. done. }
  destruct (BlockAssemblyBuffer.pending b0 !! h) as [a|] eqn:Ha; simpl.
  2:{ apply (Hrest b0). intros x a Hx. split; [done|]. apply (Hb x a Hx). congruence. }
  destruct (pa_is_complete a) eqn:Hc; simpl.
  2:{ apply (Hrest b0). intros x a' Hx. split; [done|].
      destruct (decide (x = h)) as [->|]; [congruence|]. by apply (Hb x a' Hx). }
  destruct (Hrest (BlockAssemblyBuffer.set_pending b0
    (delete h (BlockAssemblyBuffer.pending b0)))) as [Hi He].
  { simpl. intros x a' [Hne Hx]%lookup_delete_Some. split; [done|]. apply (Hb x a' Hx). congruence. }
  destruct (take_components a) as [[[blk mr] sr]|] eqn:Ht; [|done].
  assert (Hblk : block_in_range blk).
  { destruct (Hb h a Ha) as [[_ H] _]. apply (H blk).
    unfold take_components in Ht. split_matches. }
  destruct (write_block_inv env _ blk mr sr Hblk Hi) as [Hi' He'].
  destruct (write_block _ _ _ _ _ _ _) as [s' [x|e|]]; simpl in *;
    (split; [done|by eapply extends_trans]).
Qed.

(** The entry a part is added to. *)
Lemma entry_wf s h now : inv s ->
  pending_wf h (BlockAssemblyBuffer.entry (assembly_buffer s) h now).
Proof.
  intros [_ Hb]. unfold BlockAssemblyBuffer.entry.
  destruct (pending s !! h) as [a|] eqn:E; simpl; [|done].
  by destruct (Hb h a E) as (? & _ & ?).
Qed.

Lemma insert_buffer_but s h a : inv s -> pending_wf h a ->
  buffer_but h (BlockAssemblyBuffer.set_pending (assembly_buffer s) (<[h := a]> (pending s))).
Proof.
  intros [_ Hb] Ha x a' Hx. simpl in Hx. destruct (decide (x = h)) as [->|Hne].
  - rewrite lookup_insert_eq in Hx. simplify_eq. by split.
  - rewrite lookup_insert_ne in Hx by done. destruct (Hb x a' Hx) as (?&?&?). by split.
Qed.

Lemma enforce_buffer_but h b :
  buffer_but h b -> buffer_but h (BlockAssemblyBuffer.enforce_max_pending b).1.
Proof.
  intros Hb x a. destruct (enforce_max_pending_spec b) as (_ & _ & Hl & _).
  rewrite Hl. case_decide; [done|]. apply Hb.
Qed.

(** The last steps of the three handlers. *)
Lemma handler_inv env s h b0 : inv s -> buffer_but h b0 ->
  let m := try_complete_assembly sha256 crc32c env (set_buffer s b0) h in
  inv (sbind m (fun s _ => (s, Ok tt : result StorageError unit))).1
  /\ extends s (sbind m (fun s _ => (s, Ok tt : result StorageError unit))).1.
Proof.
  intros [Hs _] Hb. pose proof (try_complete_inv env s h b0 Hs Hb) as H.
  by destruct (try_complete_assembly _ _ _ _ _) as [s' [?|?|]].
Qed.

Lemma remove_all_buffer_inv s l : inv s ->
  inv (set_buffer s (BlockAssemblyBuffer.remove_all (assembly_buffer s) l)).
Proof.
  intros [Hs Hb]. split; [by apply set_buffer_store_inv|]. intros h a. simpl.
  rewrite remove_all_lookup. case_decide; [done|]. apply Hb.
Qed.

Lemma mark_finalized_inv s h : inv s -> inv (mark_finalized s h).1 /\ extends s (mark_finalized s h).1.
Proof.
  intros Hi. destruct (Hi) as [Hs Hb]. unfold mark_finalized. rewrite index_contains_map by apply Hs.
  case_bool_decide as Hc; simpl; [|by split; [|apply extends_same]].
  unfold StorageMetadata.on_finalized.
  destruct (h <=? StorageMetadata.finalized_height (metadata s)) eqn:E; bools; simpl.
  { split; [|by apply extends_same]. split; [|exact Hb]. by apply (store_inv_ext s). }
  split.
  - split; [|exact Hb]. destruct Hs. split; try done. unfold get_finalized_height in *. simpl.
    split; [lia|by right].
  - split; auto; unfold get_finalized_height, get_latest_height; simpl; lia.
Qed.

(** Every call but a restart keeps the invariant and extends the store. *)
Lemma run_call_extends s c : is_restart c = false -> call_in_range c -> inv s ->
  inv (run_call sha256 crc32c s c) /\ extends s (run_call sha256 crc32c s c).
Proof.
  intros Hr Hc Hi.
  destruct c as [env b mr sr|h|env i b now|env i h m now|env i h r now|now|now|cfg]; simpl; [..|done].
  - by apply write_block_inv.
  - by apply mark_finalized_inv.
  - unfold on_block_validated. case_match; [by split; [|apply extends_same]|].
    apply (handler_inv env s _ _ Hi), enforce_buffer_but, insert_buffer_but; [done|].
    destruct (entry_wf s (compute_block_hash sha256 b) now Hi) as [H1 H2].
    split; [done|]. simpl. by intros b' [= <-].
  - unfold on_merkle_root_computed. case_match; [by split; [|apply extends_same]|].
    apply (handler_inv env s _ _ Hi), insert_buffer_but; [done|]. by destruct (entry_wf s h now Hi).
  - unfold on_state_root_computed. case_match; [by split; [|apply extends_same]|].
    apply (handler_inv env s _ _ Hi), insert_buffer_but; [done|]. by destruct (entry_wf s h now Hi).
  - split; [by apply remove_all_buffer_inv|by apply extends_same].
  - unfold gc_expired_assemblies_with_data.
    pose proof (gc_expired_with_data_fst (assembly_buffer s) now) as Hf.
    destruct (BlockAssemblyBuffer.gc_expired_with_data _ _) as [b l]. simpl in *. subst b.
    split; [by apply remove_all_buffer_inv|by apply extends_same].
Qed.

(** ** Opening a store *)

Lemma scan_spec kv p : exists l, kv_prefix_scan kv p = Ok l
  /\ NoDup l.*1 /\ forall k d, (k, d) ∈ l <-> p `prefix_of` k /\ view kv !! k = Some d.
Proof.
  destruct (kv_scan_spec kv p) as (l & Hl & HP). exists l. split_and!; [done| |].
  - rewrite HP. eapply sublist_NoDup; [|apply fmap_sublist, sublist_filter].
    apply NoDup_fst_map_to_list.
  - intros k d. rewrite HP, list_elem_of_filter, elem_of_map_to_list. done.
Qed.

Lemma new_empty_inv kv config : view kv = ∅ -> inv (new kv config).
Proof.
  intros He. unfold new, load_index_from_storage.
  assert (Hnil : forall p, kv_prefix_scan kv p = Ok []).
  { intros p. destruct (scan_spec kv p) as ([|[k d] l] & Hl & _ & H); [done|].
    destruct (proj1 (H k d)) as [_ Hk]; [left|]. by rewrite He in Hk. }
  simpl. rewrite Hnil. simpl. unfold load_transaction_index_from_storage. simpl.
  rewrite Hnil. simpl.
  assert (Hi : forall s : Svc, contents s = ∅ -> block_index s = BlockIndex.new ->
    metadata s = StorageMetadata.default -> tx_index s = ∅ -> pending s = ∅ -> inv s).
  { intros s E1 E2 E3 E4 E5. split; [|intros h a; by rewrite E5, lookup_empty].
    split; unfold get_latest_height, get_finalized_height; rewrite ?E1, ?E2, ?E3, ?E4; try done.
    - constructor.
    - split_and!; [done|by left|]. by intros h [].
    - split; [done|by left]. }
  destruct (negb (persist_transaction_index config)); by apply Hi.
Qed.

(** The loop over the scanned height keys: every entry lands in the index, in
    whatever order the entries come. *)
Definition height_entry (e : list u8 * list u8) (h x : Z) : Prop :=
  in_width 64 h /\ in_width 256 x /\ e = (height_key h, hash_bytes x).

Lemma height_entry_fun e h x h' x' :
  height_entry e h x -> height_entry e h' x' -> h = h' /\ x = x'.
Proof.
  intros (Hh & Hx & ->) (Hh' & Hx' & E). apply pair_eq in E as [Ek Ev].
  split; [by apply height_key_inj|by apply hash_bytes_inj].
Qed.

Lemma load_step_entry acc e h x : height_entry e h x ->
  load_index_step acc e
  = (BlockIndex.insert h x acc.1.1, acc.1.2 + 1, Z.max acc.2 h).
Proof.
  intros (Hh & Hx & ->). destruct acc as [[ix c] mx]. unfold load_index_step, height_key, key.
  simpl. rewrite !length_be_bytes. simpl. rewrite drop_0, take_ge by (by rewrite length_be_bytes).
  rewrite !from_be_bytes_to; [done|exact Hx|exact Hh].
Qed.

Lemma load_loop l : forall acc,
  NoDup l.*1 -> Forall (fun e => exists h x, height_entry e h x) l -> index_sorted acc.1.1 ->
  let acc' := foldl load_index_step acc l in
  index_sorted acc'.1.1 /\ acc'.1.2 = acc.1.2 + Z.of_nat (length l)
  /\ (forall e h x, e ∈ l -> height_entry e h x ->
        index_map acc'.1.1 !! h = Some x /\ h <= acc'.2)
  /\ (forall h, (in_width 64 h -> height_key h ∉ l.*1) ->
        index_map acc'.1.1 !! h = index_map acc.1.1 !! h)
  /\ acc.2 <= acc'.2
  /\ (acc'.2 = acc.2 \/ is_Some (index_map acc'.1.1 !! acc'.2)).
Proof.
  induction l as [|e l IH]; intros acc Hnd Hall Hs; simpl.
  { split_and!; try done; [lia|by intros ??? ?%elem_of_nil|by left]. }
  apply Forall_cons in Hall as [(h & x & He) Hall]. simpl in Hnd. apply NoDup_cons in Hnd as [Hn Hnd].
  rewrite (load_step_entry acc e h x He).
  destruct (index_insert_spec acc.1.1 h x Hs) as [Hs' Hm].
  destruct (IH (BlockIndex.insert h x acc.1.1, acc.1.2 + 1, Z.max acc.2 h) Hnd Hall Hs')
    as (I1 & I2 & I3 & I4 & I5 & I6). simpl in *.
  assert (Hkeep : index_map (foldl load_index_step
    (BlockIndex.insert h x acc.1.1, acc.1.2 + 1, Z.max acc.2 h) l).1.1 !! h = Some x).
  { rewrite I4, Hm by (intros _; by destruct He as (_ & _ & ->)). apply lookup_insert_eq. }
  split_and!; try done; try lia.
  - intros e' h' x' [->|Hin]%elem_of_cons He'; [|by apply I3 with e'].
    destruct (height_entry_fun _ _ _ _ _ He He') as [<- <-]. split; [done|lia].
  - intros h' Hh'. rewrite I4, Hm.
    + apply lookup_insert_ne. intros <-. destruct He as (Hh & _ & ->).
      apply (Hh' Hh). by left.
    + intros Hw Hin. apply (Hh' Hw). by right.
  - destruct I6 as [E6|?]; [|by right]. destruct (decide (acc.2 < h)); [|left; lia].
    right. exists x. rewrite <-Hkeep. f_equal. lia.
Qed.

(** The scan of the height keys of a store in the invariant. *)
Lemma height_scan s : store_inv s -> exists l,
  kv_prefix_scan (kv_store s) (as_bytes BlockByHeight) = Ok l /\ NoDup l.*1
  /\ Forall (fun e => exists h x, height_entry e h x) l
  /\ forall h x, index_map (block_index s) !! h = Some x <->
       exists e, e ∈ l /\ height_entry e h x.
Proof.
  intros Hs. destruct (scan_spec (kv_store s) (as_bytes BlockByHeight)) as (l & Hl & Hnd & Hin).
  exists l. split_and!; [done|done| |].
  - apply Forall_forall. intros [k d] [Hp Hk]%Hin.
    destruct (si_height_keys _ _ s Hs k d Hp Hk) as (h & Hh & ->).
    rewrite (si_heights _ _ s Hs h Hh) in Hk.
    destruct (index_map (block_index s) !! h) as [x|] eqn:E; [|done].
    apply (inj Some) in Hk as <-.
    destruct (si_index _ _ s Hs h x E) as (_ & b & _ & _ & ->).
    exists h, (block_hash sha256 b). split_and!; [done|apply Hsha|done].
  - intros h x. split.
    + intros Hx. destruct (si_index _ _ s Hs h x Hx) as (Hh & b & _ & _ & Hb).
      exists (height_key h, hash_bytes x). split.
      * apply Hin. split; [auto with qc|]. by rewrite (si_heights _ _ s Hs h Hh), Hx.
      * split_and!; [done|rewrite Hb; apply Hsha|done].
    + intros ([k d] & He & Hh & Hx & Hkd). apply pair_eq in Hkd as [-> ->]. apply Hin in He as [_ He].
      rewrite (si_heights _ _ s Hs h Hh) in He.
      destruct (index_map (block_index s) !! h) as [y|] eqn:E; [|done].
      apply (inj Some) in He.
      destruct (si_index _ _ s Hs h y E) as (_ & b & _ & _ & Hb). f_equal.
      apply hash_bytes_inj; [rewrite Hb; apply Hsha|done|done].
Qed.

(** The metadata a restart starts from. *)
Definition restart_metadata (s : Svc) : StorageMetadata :=
  if BlockIndex.is_empty (block_index s) then StorageMetadata.default
  else StorageMetadata.on_block_stored (get_latest_height s)
    (default 0 (BlockIndex.get (get_latest_height s) (block_index s))) StorageMetadata.default.

Lemma index_empty_map (i : BlockIndex) : BlockIndex.is_empty i = true <-> index_map i = ∅.
Proof.
  destruct i as [[|e l]]; [done|]. split; [done|]. unfold index_map. simpl. intros H.
  by apply insert_non_empty in H.
Qed.

(** What a scan of the height keys of [s] returns. *)
Record height_scan_of (s : Svc) (l : list (list u8 * list u8)) : Prop := {
  hs_nodup : NoDup l.*1;
  hs_entries : Forall (fun e => exists h x, height_entry e h x) l;
  hs_index h x : index_map (block_index s) !! h = Some x <-> exists e, e ∈ l /\ height_entry e h x
}.

Section scan.
Context {s : Svc} {l : list (list u8 * list u8)}.
Context (Hs : store_inv s) (Hl : height_scan_of s l).

(** The loop over the scanned entries, from an empty index. *)
Abbreviation loaded := (foldl load_index_step (BlockIndex.new, 0, 0) l).

Lemma loaded_index : loaded.1.1 = block_index s.
Proof.
  destruct Hl as [Hnd Hall Hiff].
  destruct (load_loop l (BlockIndex.new, 0, 0) Hnd Hall) as (L1 & _ & L3 & L4 & _);
    [constructor|]. apply index_map_inj; [done|apply Hs|]. apply map_eq. intros h.
  destruct (index_map (block_index s) !! h) as [x|] eqn:E.
  - apply Hiff in E as (e & He & Hh). by apply (L3 e h x He Hh).
  - apply L4. intros Hw (e & Hk & Hin)%list_elem_of_fmap.
    destruct (proj1 (Forall_forall _ _) Hall _ Hin) as (h' & x & He).
    assert (Hk' : height_key h = height_key h') by (destruct He as (_ & _ & ->); done).
    apply height_key_inj in Hk' as <-; [|done|apply He].
    assert (index_map (block_index s) !! h = Some x) by (apply Hiff; eauto). congruence.
Qed.

Lemma loaded_latest : loaded.2 = get_latest_height s.
Proof.
  destruct Hl as [Hnd Hall Hiff].
  destruct (load_loop l (BlockIndex.new, 0, 0) Hnd Hall) as (_ & _ & L3 & _ & L5 & L6);
    [constructor|]. destruct (si_latest _ _ s Hs) as (Hl0 & Hl1 & Hl2).
  rewrite loaded_index in L6. simpl in L5, L6.
  assert (Hle : get_latest_height s <= loaded.2).
  { destruct Hl1 as [->|[x Hx]]; [done|]. apply Hiff in Hx as (e & He & Hh).
    by destruct (L3 e _ x He Hh). }
  destruct L6 as [E6|H6]; [lia|]. apply Hl2 in H6. lia.
Qed.

Lemma loaded_count : loaded.1.2 = Z.of_nat (length l).
Proof.
  destruct Hl as [Hnd Hall Hiff].
  by destruct (load_loop l (BlockIndex.new, 0, 0) Hnd Hall) as (_ & L2 & _); [constructor|].
Qed.

Lemma scan_empty : BlockIndex.is_empty (block_index s) = bool_decide (l = []).
Proof.
  destruct Hl as [Hnd Hall Hiff].
  apply Bool.eq_iff_eq_true. rewrite index_empty_map, bool_decide_eq_true. split.
  - intros E. destruct l as [|e l']; [done|]. apply Forall_cons in Hall as [(h & x & He) _].
    assert (index_map (block_index s) !! h = Some x) as Hx
      by (apply Hiff; exists e; split; [left|done]). by rewrite E in Hx.
  - intros E. apply map_empty. intros h. apply eq_None_not_Some. intros [x Hx].
    apply Hiff in Hx as (e & He & _). rewrite E in He. by apply elem_of_nil in He.
Qed.

End scan.

(** Opening the store of a service rebuilds its index and its latest height, and
    forgets the finalized height. *)
Lemma load_index_restart (s s0 : Svc) : store_inv s ->
  kv_store s0 = kv_store s -> block_index s0 = BlockIndex.new ->
  metadata s0 = StorageMetadata.default ->
  (load_index_from_storage s0).1
  = {| kv_store := kv_store s; svc_config := svc_config s0;
       assembly_buffer := assembly_buffer s0; block_index := block_index s;
       metadata := restart_metadata s; tx_index := tx_index s0 |}.
Proof.
  intros Hs Ek Ei Em. destruct (height_scan s Hs) as (l & Hscan & H1 & H2 & H3).
  pose proof (Build_height_scan_of s l H1 H2 H3) as Hl.
  pose proof (loaded_index Hs Hl) as Hix. pose proof (loaded_latest Hs Hl) as Hmx.
  pose proof (loaded_count Hl) as Hc.
  unfold load_index_from_storage, restart_metadata. rewrite Ek, Hscan, Ei, Em, (scan_empty Hl).
  destruct (foldl load_index_step (BlockIndex.new, 0, 0) l) as [[ix c] mx] eqn:Hfold.
  simpl in Hix, Hmx, Hc. subst ix mx c. destruct l as [|e l'].
  - simpl in Hfold |- *. destruct s0; simpl in *. congruence.
  - done.
Qed.

Lemma load_tx_loop_located m0 l : forall m,
  (forall t loc, m !! t = Some loc -> located m0 t loc) ->
  (forall k d, (k, d) ∈ l -> tx_key_ok m0 k d) ->
  forall t loc, (load_tx_loop m l).1 !! t = Some loc -> located m0 t loc.
Proof.
  induction l as [|[k d] l IH]; intros m Hm Hl t loc; simpl; [apply Hm|].
  destruct (Hl k d) as (t' & loc' & Ht & Hk & Hd & Hloc); [left|].
  assert (Hrest : forall k d, (k, d) ∈ l -> tx_key_ok m0 k d) by (intros; apply Hl; by right).
  rewrite Hk, Hd. unfold transaction_key, key. simpl.
  rewrite length_be_bytes. simpl. apply IH; [|done].
  rewrite drop_0, take_ge, from_be_bytes_to by (exact Ht || by rewrite length_be_bytes).
  intros t0 loc0. destruct (decide (t0 = t')) as [->|Hne].
  - rewrite lookup_insert_eq. by intros [= <-].
  - rewrite lookup_insert_ne by done. apply Hm.
Qed.

Lemma restart_metadata_spec s : store_inv s ->
  StorageMetadata.latest_height (restart_metadata s) = get_latest_height s
  /\ StorageMetadata.finalized_height (restart_metadata s) = 0
  /\ forall g, StorageMetadata.genesis_hash (restart_metadata s) = Some g ->
       index_map (block_index s) !! 0 = Some g.
Proof.
  intros Hs. destruct (si_latest _ _ s Hs) as (L0 & L1 & L2). unfold restart_metadata.
  destruct (BlockIndex.is_empty (block_index s)) eqn:E.
  { apply index_empty_map in E. split_and!; [|done|done].
    destruct L1 as [->|[x Hx]]; [done|]. by rewrite E in Hx. }
  simpl. split_and!; [|done|].
  - destruct (0 <? get_latest_height s) eqn:El; bools; [done|lia].
  - intros g. destruct (get_latest_height s =? 0) eqn:El; [|done]. bools. intros [= <-].
    rewrite El, index_get_map by apply Hs.
    destruct (map_choose (index_map (block_index s))) as (h & x & Hx).
    { intros Hemp. apply index_empty_map in Hemp. congruence. }
    destruct (si_index _ _ s Hs h x Hx) as [[Hh _] _]. specialize (L2 h (mk_is_Some _ _ Hx)).
    replace h with 0 in Hx by lia. by rewrite Hx.
Qed.

(** A restart keeps the invariant. *)
Lemma restart_store_inv s (s' : Svc) : store_inv s ->
  kv_store s' = kv_store s -> block_index s' = block_index s ->
  metadata s' = restart_metadata s ->
  (forall t loc, tx_index s' !! t = Some loc -> located (contents s) t loc) -> store_inv s'.
Proof.
  intros Hs E1 E2 E3 E5. destruct (restart_metadata_spec s Hs) as (R1 & R2 & R3).
  destruct (Hs) as [? ? Hidx ? ? Hlat ? ? ? ?].
  split; unfold get_latest_height, get_finalized_height; rewrite ?E1, ?E2, ?E3, ?R1, ?R2; try done.
  - split; [done|by left].
  - intros g Hg. destruct (Hidx 0 g (R3 g Hg)) as (_ & b & ? & ? & ?). by exists b.
Qed.

Lemma restart_inv s config : inv s ->
  let s' := new (kv_store s) config in
  inv s' /\ kv_store s' = kv_store s /\ svc_config s' = config
  /\ block_index s' = block_index s /\ metadata s' = restart_metadata s.
Proof.
  intros [Hs _]. unfold new. rewrite (load_index_restart s) by done. simpl.
  unfold load_transaction_index_from_storage. simpl.
  assert (Hgo : forall s' : Svc, kv_store s' = kv_store s -> block_index s' = block_index s ->
    metadata s' = restart_metadata s -> pending s' = ∅ ->
    (forall t loc, tx_index s' !! t = Some loc -> located (contents s) t loc) -> inv s').
  { intros s' E1 E2 E3 E4 E5. split; [by apply (restart_store_inv s)|].
    intros h a. by rewrite E4, lookup_empty. }
  destruct (negb (persist_transaction_index config)); [split; [by apply Hgo|done]|].
  destruct (scan_spec (kv_store s) (as_bytes TransactionPrefix)) as (l & Hl & _ & Hin).
  simpl in Hl. rewrite Hl. pose proof (load_tx_loop_located (contents s) l ∅) as Htx.
  destruct (load_tx_loop ∅ l) as [m r]. split; [|done].
  apply Hgo; try done. simpl in *. apply Htx; [done|].
  intros k d [Hp Hk]%Hin. by apply (si_tx_keys _ _ s Hs).
Qed.

(** ** Sequences of calls *)

Lemma run_call_inv s c : call_in_range c -> inv s ->
  inv (run_call sha256 crc32c s c)
  /\ (forall x b, stored (contents s) x b -> stored (contents (run_call sha256 crc32c s c)) x b).
Proof.
  intros Hc Hi. destruct (is_restart c) eqn:Hr.
  - destruct c; try done. destruct (restart_inv s config Hi) as (Hi' & Hk & _). simpl.
    split; [done|]. by rewrite Hk.
  - destruct (run_call_extends s c Hr Hc Hi) as [Hi' He]. split; [done|apply He].
Qed.

Lemma run_calls_inv l : forall s, Forall call_in_range l -> inv s ->
  inv (run_calls sha256 crc32c s l)
  /\ (forall x b, stored (contents s) x b -> stored (contents (run_calls sha256 crc32c s l)) x b).
Proof.
  induction l as [|c l IH]; intros s Hl Hi; simpl; [done|].
  apply Forall_cons in Hl as [Hc Hl]. destruct (run_call_inv s c Hc Hi) as [Hi' He].
  destruct (IH _ Hl Hi') as [Hi'' He']. split; [done|]. auto.
Qed.

Lemma run_calls_extends l : forall s, Forall call_in_range l ->
  Forall (fun c => is_restart c = false) l -> inv s ->
  extends s (run_calls sha256 crc32c s l).
Proof.
  induction l as [|c l IH]; intros s Hl Hr Hi; simpl; [by apply extends_same|].
  apply Forall_cons in Hl as [Hc Hl]. apply Forall_cons in Hr as [Hrc Hr].
  destruct (run_call_extends s c Hrc Hc Hi) as [Hi' He].
  eapply extends_trans; [exact He|]. by apply IH.
Qed.

End calls.
