(* ===== verification/BlockProps.v ===== *)
(** * Block storage: properties

    The claims about [qc-02-block-storage]: consistency of every reachable
    service, durability of written blocks across calls and restarts, the
    assembler's independence of the order of events, its bounds, and where the
    code falls short of its stated invariants. *)

From S2P Require Import Prelude Blocks BlockStorage BlockKv BlockService BlockFacts BlockInv BlockCalls.
From stdpp Require Import strings.
Local Open Scope Z_scope.

(** ** Concrete data for the witnesses *)

(** A toy hash with 32-byte results. *)
Definition poly_hash (l : list u8) : Hash := foldl (fun a b => (a * 31 + b) mod 2 ^ 256) 7 l.

Lemma poly_hash_in_width l : in_width 256 (poly_hash l).
Proof.
  unfold poly_hash. assert (H : in_width 256 7) by (unfold in_width; lia). revert H.
  generalize 7. induction l as [|x l IH]; intros a Ha; simpl; [done|].
  apply IH. apply Z.mod_pos_bound. lia.
Qed.

(** A serializer for the blocks of a table: the index of the block. *)
Definition table_serializer (table : list StoredBlock) : BlockSerializer := {|
  serialize b := match list_find (fun x => x = b) table with
                 | Some (i, _) => Ok [Z.of_nat i]
                 | None => Err tt
                 end;
  deserialize d := match d with
                   | [i] => match table !! Z.to_nat i with Some b => Ok b | None => Err tt end
                   | _ => Err tt
                   end;
  estimate_size b := 1000;
  serialize_location _ := None;
  deserialize_location _ := None
|}.

Lemma table_serializer_laws table : BlockSerializerLaws (table_serializer table).
Proof.
  split; [|done]. simpl. intros b d.
  destruct (list_find _ table) as [[i x]|] eqn:E; [|done]. intros [= <-].
  apply list_find_Some in E as (Hi & <- & _). by rewrite Nat2Z.id, Hi.
Qed.

Definition sample_header (height parent salt : Z) : BlockHeader := {|
  bh_version := 1; bh_height := height; bh_parent_hash := parent; bh_merkle_root := salt;
  bh_state_root := 0; bh_timestamp := 0; bh_proposer := []; bh_difficulty := 0; bh_nonce := 0 |}.

Definition sample_block (height parent salt : Z) : ValidatedBlock := {|
  vb_header := sample_header height parent salt; vb_transactions := [];
  vb_consensus_proof := {| cp_block_hash := 0; cp_attestations := []; cp_total_stake := 0 |} |}.

Definition block0 : ValidatedBlock := sample_block 0 0 1.
Definition hash0 : Hash := Eval vm_compute in compute_block_hash poly_hash block0.
(** Two children of [block0] at height 1, and one at height 7. *)
Definition block1 : ValidatedBlock := sample_block 1 hash0 1.
Definition fork1 : ValidatedBlock := sample_block 1 hash0 2.
Definition block7 : ValidatedBlock := sample_block 7 hash0 3.

Definition env0 : Env := {| available_disk_space_percent := Ok 50; clock_now := 100 |}.
Definition sum_crc (l : list u8) : Z := foldl Z.add 0 l mod 2 ^ 32.
Definition stored_as (b : ValidatedBlock) : StoredBlock := stored_block sum_crc env0 b 11 12.

#[local] Instance sample_serializer : BlockSerializer :=
  table_serializer [stored_as block0; stored_as block1; stored_as fork1; stored_as block7].
#[local] Instance sample_serializer_laws : BlockSerializerLaws sample_serializer :=
  table_serializer_laws _.

Definition empty_kv : InMemoryKVStore := {| data := ∅ |}.
Definition store (b : ValidatedBlock) : StorageCall := CallWrite env0 b 11 12.

Lemma sample_block_in_range h p x :
  in_width 64 h -> in_width 256 p -> in_width 256 x -> block_in_range (sample_block h p x).
Proof. intros. by split. Qed.

(** The two blocks of the witnesses, stored. *)
Definition two_blocks : list StorageCall := [store block0; store block1].

Lemma two_blocks_in_range : Forall call_in_range two_blocks.
Proof. repeat constructor; simpl; by apply (bool_decide_unpack _); vm_compute. Qed.

(** ** Consistency *)

Section claims.
Context {KV : Type} {K : KeyValueStore KV} {view : KV -> gmap (list u8) (list u8)}.
Context {KL : KeyValueStoreLaws K view} {B : BlockSerializer} {BL : BlockSerializerLaws B}.
Context (sha256 : list u8 -> Hash) (crc32c : list u8 -> Z).
Context (Hsha : forall l, in_width 256 (sha256 l)).

Lemma read_block_inv (s : BlockStorageService KV) x b :
  store_inv (view := view) sha256 crc32c s ->
  read_block sha256 crc32c s x = Ok b -> stored (view (kv_store s)) x b.
Proof.
  intros Hs. unfold read_block. rewrite kv_get_spec. simpl.
  destruct (view (kv_store s) !! block_key x) as [d|] eqn:Hd; [|done].
  destruct (deserialize d) as [b'|e|] eqn:Hb; simpl; try done.
  destruct (verify_block_checksum _ _ _); simpl; try done. intros [= <-]. by exists d.
Qed.

Lemma read_block_iff (s : BlockStorageService KV) x b :
  store_inv (view := view) sha256 crc32c s ->
  read_block sha256 crc32c s x = Ok b <-> stored (view (kv_store s)) x b.
Proof. intros Hs. split; [by apply read_block_inv|by apply read_block_stored]. Qed.

(** A service opened on an empty store, after the calls [l]. *)
Lemma reachable_store_inv kv0 config l : view kv0 = ∅ -> Forall call_in_range l ->
  inv (view := view) sha256 crc32c (run_calls sha256 crc32c (new kv0 config) l).
Proof. intros He Hl. by apply run_calls_inv, (new_empty_inv sha256 crc32c). Qed.

Lemma height_readable s h : store_inv (view := view) sha256 crc32c s ->
  block_exists_at_height s h = true <->
  exists b, read_block_by_height sha256 crc32c s h = Ok b /\ sb_height b = h.
Proof.
  intros Hs. unfold block_exists_at_height, read_block_by_height.
  rewrite index_contains_map, index_get_map by apply Hs. rewrite bool_decide_eq_true. split.
  - intros [x Hx]. rewrite Hx. destruct (si_index _ _ s Hs h x Hx) as (_ & b & Hst & <- & _).
    exists b. split; [|done]. by apply read_block_stored.
  - intros (b & Hb & _). destruct (index_map (block_index s) !! h); [by eexists|done].
Qed.

(** C4 (invariant): in every service reachable from an empty store by writes,
    finalizations, assembler events, garbage collection and restarts: a block
    that can be read has the hash it was asked for, and its parent can be read
    unless its height is 0; a height is in the index exactly when a block of
    that height can be read at it; the latest height bounds the index and is in
    it unless it is 0, and so is the finalized height; a transaction location
    leads to a readable block that has the transaction at the stated index; and
    every pending assembly still lacks a part. *)
Theorem storage_consistent kv0 config l (Hempty : view kv0 = ∅) (Hl : Forall call_in_range l) :
  let s := run_calls sha256 crc32c (new kv0 config) l in
  (forall x b, in_width 256 x -> read_block sha256 crc32c s x = Ok b ->
     block_hash sha256 b = x
     /\ (sb_height b = 0 \/ exists p, read_block sha256 crc32c s (sb_parent_hash b) = Ok p))
  /\ (forall h, block_exists_at_height s h = true <->
       exists b, read_block_by_height sha256 crc32c s h = Ok b /\ sb_height b = h)
  /\ (forall h, block_exists_at_height s h = true -> h <= get_latest_height s)
  /\ (get_latest_height s = 0 \/ block_exists_at_height s (get_latest_height s) = true)
  /\ (get_finalized_height s = 0 \/ block_exists_at_height s (get_finalized_height s) = true)
  /\ (forall t loc, get_transaction_location s t = Ok loc ->
       exists b, read_block sha256 crc32c s (tl_block_hash loc) = Ok b
         /\ sb_height b = tl_block_height loc
         /\ vt_tx_hash <$> vb_transactions (sb_block b) !! tl_transaction_index loc = Some t)
  /\ (forall h a, BlockAssemblyBuffer.get (assembly_buffer s) h = Some a -> pa_is_complete a = false).
Proof.
  intros s. destruct (reachable_store_inv kv0 config l Hempty Hl) as [Hs Hb]. fold s in Hs, Hb.
  assert (Hex : forall h, block_exists_at_height s h = true <-> is_Some (index_map (block_index s) !! h)).
  { intros h. unfold block_exists_at_height.
    rewrite index_contains_map by apply Hs. apply bool_decide_eq_true. }
  destruct (si_latest _ _ s Hs) as (_ & Hlat & Hmax). destruct (si_final _ _ s Hs) as [_ Hfin].
  split_and!.
  - intros x b Hx (d & Hd & Hdb)%read_block_iff; [|done].
    destruct (si_blocks _ _ s Hs _ d (block_key_prefix x) Hd) as (b' & Hb' & Hk & _ & _ & Hp).
    rewrite Hdb in Hb'. injection Hb' as <-. split.
    + symmetry. by apply block_key_inj; [|apply Hsha|].
    + destruct Hp as [?|[v Hv]]; [by left|right].
      destruct (si_blocks _ _ s Hs _ v (block_key_prefix _) Hv) as (p & Hp & _).
      exists p. apply read_block_iff; [done|]. by exists v.
  - intros h. by apply height_readable.
  - intros h Hh. by apply Hmax, Hex.
  - by rewrite Hex.
  - by rewrite Hex.
  - intros t loc. unfold get_transaction_location.
    destruct (tx_index s !! t) as [l'|] eqn:Ht; [|done]. intros [= <-].
    destruct (si_tx _ _ s Hs t l' Ht) as (b & Hst & Hh & Htx & _). exists b.
    split_and!; [by apply read_block_iff|done|done].
  - intros h a Ha. by apply (Hb h a Ha).
Qed.

(** ** Durability *)

(** C18 (roundtrip): a written block is read back, for good.  If a write on a
    reachable service returns [Ok h], then after any further calls, restarts
    included, reading [h] returns the block with the roots it was written with,
    the time of the write and the checksum. *)
Theorem write_read_roundtrip kv0 config l1 l2 env b mr sr s' h
  (Hempty : view kv0 = ∅) (H1 : Forall call_in_range l1) (H2 : Forall call_in_range l2)
  (Hb : block_in_range b)
  (Hw : write_block sha256 crc32c env (run_calls sha256 crc32c (new kv0 config) l1) b mr sr
        = (s', Ok h)) :
  read_block sha256 crc32c (run_calls sha256 crc32c s' l2) h
  = Ok (stored_block crc32c env b mr sr).
Proof.
  pose proof (reachable_store_inv kv0 config l1 Hempty H1) as Hi.
  pose proof (write_block_inv sha256 crc32c Hsha env _ b mr sr Hb Hi) as [Hi' _].
  pose proof (write_block_effect sha256 crc32c env (run_calls sha256 crc32c (new kv0 config) l1)
    b mr sr) as He.
  rewrite Hw in Hi', He. simpl in Hi'. destruct He as [d Hwr].
  destruct (run_calls_inv sha256 crc32c Hsha l2 s' H2 Hi') as [[Hs _] Hkeep].
  apply read_block_iff; [done|]. apply Hkeep.
  exact (written_stored sha256 crc32c Hsha Hwr).
Qed.

(** C19 (error): exactly when a write succeeds.  It returns [Ok] if and only if
    enough disk space is reported, the block has height 0 or its parent is
    stored, no block with its hash is stored, its estimated size is within the
    limit, it serializes and the batch is accepted; the hash returned is then
    that of the header.  In every other case the stored data and all other parts
    of the service are as before. *)
Theorem write_block_succeeds_iff env (s : BlockStorageService KV) b mr sr :
  let r := write_block sha256 crc32c env s b mr sr in
  let hash := compute_block_hash sha256 b in
  (is_ok r.2 = true <->
     (exists a, available_disk_space_percent env = Ok a
        /\ min_disk_space_percent (svc_config s) <= a)
     /\ (vb_height b = 0 \/ block_exists s (vb_parent_hash b) = true)
     /\ block_exists s hash = false
     /\ estimate_size (stored_block crc32c env b mr sr) <= max_block_size (svc_config s)
     /\ exists d, serialize (stored_block crc32c env b mr sr) = Ok d
        /\ is_ok (kv_atomic_batch_write (kv_store s)
             [Put (block_key hash) d; Put (height_key (vb_height b)) (hash_bytes hash)]).2 = true)
  /\ (forall h, r.2 = Ok h -> h = hash)
  /\ (is_ok r.2 = false -> view (kv_store r.1) = view (kv_store s)
        /\ r.1 = set_kv s (kv_store r.1)).
Proof.
  intros r hash. split_and!.
  - unfold r, write_block, check_disk_space, check_parent_exists. fold hash.
    destruct (available_disk_space_percent env) as [a|e|] eqn:Ea; simpl;
      [|split; [done|by intros ((? & ? & ?) & ?)]..].
    destruct (a <? _) eqn:Ed; bools; simpl.
    { split; [done|]. intros ((a' & [= <-] & ?) & _). lia. }
    destruct (vb_height b =? 0) eqn:Eh; bools; simpl.
    2: destruct (block_exists s (vb_parent_hash b)) eqn:Ep; simpl;
       [|split; [done|]; by intros (_ & [?|?] & _)].
    all: destruct (block_exists s hash) eqn:Ex; simpl; [by split; [|intros (_ & _ & ? & _)]|].
    all: destruct (max_block_size _ <? _) eqn:Es; bools; simpl;
      [split; [done|]; intros (_ & _ & _ & ? & _); lia|].
    all: destruct (serialize _) as [d|e|] eqn:Eser; simpl;
      [|split; [done|]; by intros (_ & _ & _ & _ & ? & ? & _)..].
    all: destruct (kv_atomic_batch_write _ _) as [kv [[]|e|]] eqn:Eb; simpl;
      [|split; [done|]; intros (_ & _ & _ & _ & d' & [= <-] & Hd'); rewrite Eb in Hd'; done..].
    all: split; [intros _|done]; split_and!; eauto; exists d; by rewrite Eb.
  - intros h Hh. pose proof (write_block_effect sha256 crc32c env s b mr sr) as H.
    unfold r in Hh. destruct (write_block _ _ _ _ _ _ _) as [s' r']. simpl in Hh. subst r'.
    destruct H as [d H]. apply (wr_hash _ _ _ _ _ _ _ _ _ _ H).
  - intros Hh. pose proof (write_block_effect sha256 crc32c env s b mr sr) as H.
    unfold r in Hh |- *. destruct (write_block _ _ _ _ _ _ _) as [s' [h|e|]]; done.
Qed.

(** A restart rebuilds the service.  Opening the store of a
    reachable service again gives the same block index, the same latest height
    and the same answers to every read; the finalized height is back at 0. *)
Theorem restart_rebuilds kv0 config l config' (Hempty : view kv0 = ∅)
  (Hl : Forall call_in_range l) :
  let s := run_calls sha256 crc32c (new kv0 config) l in
  let s' := new (kv_store s) config' in
  block_index s' = block_index s
  /\ get_latest_height s' = get_latest_height s
  /\ (forall x, read_block sha256 crc32c s' x = read_block sha256 crc32c s x)
  /\ (forall h, read_block_by_height sha256 crc32c s' h = read_block_by_height sha256 crc32c s h)
  /\ get_finalized_height s' = 0.
Proof.
  intros s s'. pose proof (reachable_store_inv kv0 config l Hempty Hl) as Hi. fold s in Hi.
  destruct (restart_inv sha256 crc32c Hsha s config' Hi) as (_ & Hk & _ & Hix & Hm).
  destruct (restart_metadata_spec sha256 crc32c s (proj1 Hi)) as (R1 & R2 & _).
  assert (Hread : forall x, read_block sha256 crc32c s' x = read_block sha256 crc32c s x)
    by (intros x; unfold read_block, s'; by rewrite Hk).
  unfold get_latest_height, get_finalized_height, s'. rewrite Hm.
  split_and!; [done|done|done| |done].
  intros h. unfold read_block_by_height. rewrite Hix. by destruct (BlockIndex.get _ _).
Qed.

(** Between restarts, finality only advances.  Over any calls other
    than a restart the finalized height and the latest height never decrease,
    and the recorded genesis hash, once there, never changes. *)
Theorem finality_monotone kv0 config l1 l2 (Hempty : view kv0 = ∅)
  (H1 : Forall call_in_range l1) (H2 : Forall call_in_range l2)
  (Hr : Forall (fun c => is_restart c = false) l2) :
  let s := run_calls sha256 crc32c (new kv0 config) l1 in
  let s' := run_calls sha256 crc32c s l2 in
  get_finalized_height s <= get_finalized_height s'
  /\ get_latest_height s <= get_latest_height s'
  /\ forall g, StorageMetadata.genesis_hash (metadata s) = Some g ->
       StorageMetadata.genesis_hash (metadata s') = Some g.
Proof.
  intros s s'. pose proof (reachable_store_inv kv0 config l1 Hempty H1) as Hi. fold s in Hi.
  destruct (run_calls_extends sha256 crc32c Hsha l2 s H2 Hr Hi) as [_ ? ? ? _]. done.
Qed.

(** ** The assembler *)

Lemma set_buffer_id (s : BlockStorageService KV) : set_buffer s (assembly_buffer s) = s.
Proof. by destruct s. Qed.

Lemma set_pending_id b : BlockAssemblyBuffer.set_pending b (BlockAssemblyBuffer.pending b) = b.
Proof. by destruct b. Qed.

(** The three events that carry a block. *)
Definition parts (env : Env) (b : ValidatedBlock) (mr sr : Hash) (t1 t2 t3 : Timestamp)
  : list StorageCall :=
  let h := compute_block_hash sha256 b in
  [CallValidated env CONSENSUS b t1; CallMerkle env TRANSACTION_INDEXING h mr t2;
   CallState env STATE_MANAGEMENT h sr t3].

Lemma perm_three {A} (a b c : A) l : l ≡ₚ [a; b; c] ->
  l = [a; b; c] \/ l = [a; c; b] \/ l = [b; a; c] \/ l = [b; c; a] \/ l = [c; a; b] \/ l = [c; b; a].
Proof.
  intros H. pose proof (Permutation_length H) as Hl.
  destruct l as [|x [|y [|z [|]]]]; try done.
  assert (Hx : x ∈ [a; b; c]) by (rewrite <-H; left).
  rewrite !elem_of_cons, elem_of_nil in Hx. destruct Hx as [->|[->|[->|[]]]].
  - apply Permutation_cons_inv, Permutation_length_2_inv in H as [[= -> ->]|[= -> ->]]; auto.
  - assert (H' : [b; y; z] ≡ₚ [b; a; c]) by (rewrite H; constructor).
    apply Permutation_cons_inv, Permutation_length_2_inv in H' as [[= -> ->]|[= -> ->]]; auto.
  - assert (H' : [c; y; z] ≡ₚ [c; a; b])
      by (rewrite H; etrans; [by apply Permutation_skip, perm_swap|constructor]).
    apply Permutation_cons_inv, Permutation_length_2_inv in H' as [[= -> ->]|[= -> ->]]; auto 10.
Qed.

Lemma enforce_within b :
  (size (BlockAssemblyBuffer.pending b) <= max_pending_assemblies (BlockAssemblyBuffer.config b))%nat ->
  (BlockAssemblyBuffer.enforce_max_pending b).1 = b.
Proof.
  intros H. unfold BlockAssemblyBuffer.enforce_max_pending.
  by rewrite (proj2 (Nat.leb_le _ _) H).
Qed.

(** What a part does to the assembly it belongs to. *)
Definition add_part (c : StorageCall) (a : PendingBlockAssembly) : PendingBlockAssembly :=
  match c with
  | CallValidated _ _ b _ => {|
      pa_block_hash := pa_block_hash a; pa_block_height := vb_height b;
      pa_started_at := pa_started_at a; pa_validated_block := Some b;
      pa_merkle_root := pa_merkle_root a; pa_state_root := pa_state_root a |}
  | CallMerkle _ _ _ m _ => {|
      pa_block_hash := pa_block_hash a; pa_block_height := pa_block_height a;
      pa_started_at := pa_started_at a; pa_validated_block := pa_validated_block a;
      pa_merkle_root := Some m; pa_state_root := pa_state_root a |}
  | CallState _ _ _ r _ => {|
      pa_block_hash := pa_block_hash a; pa_block_height := pa_block_height a;
      pa_started_at := pa_started_at a; pa_validated_block := pa_validated_block a;
      pa_merkle_root := pa_merkle_root a; pa_state_root := Some r |}
  | _ => a
  end.
Definition part_time (c : StorageCall) : Timestamp :=
  match c with
  | CallValidated _ _ _ t | CallMerkle _ _ _ _ t | CallState _ _ _ _ t => t
  | _ => 0
  end.

(** The end of a handler, once the part is in the buffer. *)
Lemma finish_part env (s : BlockStorageService KV) bf h a :
  let bf' := BlockAssemblyBuffer.set_pending bf (<[h := a]> (BlockAssemblyBuffer.pending bf)) in
  (sbind (try_complete_assembly sha256 crc32c env (set_buffer s bf') h)
     (fun s _ => (s, Ok tt : result StorageError unit))).1
  = match take_components a with
    | Some (b, m, r) => (write_block sha256 crc32c env (set_buffer s
        (BlockAssemblyBuffer.set_pending bf (delete h (BlockAssemblyBuffer.pending bf)))) b m r).1
    | None => set_buffer s bf'
    end.
Proof.
  simpl. unfold try_complete_assembly, BlockAssemblyBuffer.take_complete,
    BlockAssemblyBuffer.is_complete, pa_is_complete, take_components. simpl.
  rewrite lookup_insert_eq.
  destruct (pa_validated_block a) as [b|] eqn:E1; simpl; [|done].
  destruct (pa_merkle_root a) as [m|] eqn:E2; simpl; [|done].
  destruct (pa_state_root a) as [r|] eqn:E3; simpl; [|done].
  rewrite E1, E2, E3. simpl. rewrite delete_insert_eq.
  by destruct (write_block _ _ _ _ _ _ _) as [s' [?|?|]].
Qed.

Lemma run_part env (s : BlockStorageService KV) bf b mr sr t1 t2 t3 c :
  (size (<[compute_block_hash sha256 b := pending_new 0 0]> (BlockAssemblyBuffer.pending bf))
     <= max_pending_assemblies (BlockAssemblyBuffer.config bf))%nat ->
  c ∈ parts env b mr sr t1 t2 t3 ->
  let h := compute_block_hash sha256 b in
  let a := add_part c (BlockAssemblyBuffer.entry bf h (part_time c)) in
  run_call sha256 crc32c (set_buffer s bf) c
  = match take_components a with
    | Some (b, m, r) => (write_block sha256 crc32c env (set_buffer s
        (BlockAssemblyBuffer.set_pending bf (delete h (BlockAssemblyBuffer.pending bf)))) b m r).1
    | None => set_buffer s
        (BlockAssemblyBuffer.set_pending bf (<[h := a]> (BlockAssemblyBuffer.pending bf)))
    end.
Proof.
  intros Hsz. unfold parts. rewrite !elem_of_cons, elem_of_nil.
  intros [->|[->|[->|[]]]]; simpl.
  - unfold on_block_validated. simpl. rewrite enforce_within; [exact (finish_part env s bf _ _)|].
    simpl. rewrite map_size_insert in *. by destruct (_ !! _).
  - unfold on_merkle_root_computed. simpl. exact (finish_part env s bf _ _).
  - unfold on_state_root_computed. simpl. exact (finish_part env s bf _ _).
Qed.

Section parts.
Context (env : Env) (s : BlockStorageService KV) (b : ValidatedBlock) (mr sr : Hash).
Context (t1 t2 t3 : Timestamp).
Abbreviation h := (compute_block_hash sha256 b).
Abbreviation P := (BlockAssemblyBuffer.pending (assembly_buffer s)).
Context (Hnone : P !! h = None).
Context (Hroom : (size P < max_pending_assemblies (BlockAssemblyBuffer.config (assembly_buffer s)))%nat).

(** The service with one assembly for the block. *)
Definition with_assembly (a : PendingBlockAssembly) : BlockStorageService KV :=
  set_buffer s (BlockAssemblyBuffer.set_pending (assembly_buffer s) (<[h := a]> P)).

Lemma run_first_part c : c ∈ parts env b mr sr t1 t2 t3 ->
  take_components (add_part c (pending_new h (part_time c))) = None ->
  run_call sha256 crc32c s c = with_assembly (add_part c (pending_new h (part_time c))).
Proof.
  intros Hc Ht. rewrite <-(set_buffer_id s) at 1.
  rewrite (run_part env s (assembly_buffer s) b mr sr t1 t2 t3 c); [|..|done].
  - unfold BlockAssemblyBuffer.entry. rewrite Hnone. simpl. by rewrite Ht.
  - rewrite map_size_insert_None by done. lia.
Qed.

Lemma run_next_part a c : c ∈ parts env b mr sr t1 t2 t3 ->
  run_call sha256 crc32c (with_assembly a) c
  = match take_components (add_part c a) with
    | Some (b, m, r) => (write_block sha256 crc32c env s b m r).1
    | None => with_assembly (add_part c a)
    end.
Proof.
  intros Hc. unfold with_assembly.
  rewrite (run_part env s _ b mr sr t1 t2 t3 c); [|..|done].
  - unfold BlockAssemblyBuffer.entry. simpl. rewrite lookup_insert_eq. simpl.
    rewrite delete_insert_id, insert_insert_eq by done.
    destruct (take_components _) as [[[b' m] r]|]; [|done].
    unfold BlockAssemblyBuffer.set_pending. simpl.
    by replace (set_buffer s _) with s by (destruct s as [? ? [] ? ? ?]; done).
  - simpl. rewrite insert_insert_eq, map_size_insert_None by done. lia.
Qed.

Lemma run_three_parts c1 c2 c3 :
  Forall (fun c => c ∈ parts env b mr sr t1 t2 t3) [c1; c2; c3] ->
  let a1 := add_part c1 (pending_new h (part_time c1)) in
  let a2 := add_part c2 a1 in
  take_components a1 = None -> take_components a2 = None ->
  take_components (add_part c3 a2) = Some (b, mr, sr) ->
  run_calls sha256 crc32c s [c1; c2; c3] = (write_block sha256 crc32c env s b mr sr).1
  /\ forall n, (n < 3)%nat ->
       let s1 := run_calls sha256 crc32c s (take n [c1; c2; c3]) in
       s1 = set_buffer s (assembly_buffer s1).
Proof.
  intros Hall a1 a2 E1 E2 E3.
  rewrite !Forall_cons in Hall. destruct Hall as (H1 & H2 & H3 & _).
  assert (R1 : run_call sha256 crc32c s c1 = with_assembly a1) by by apply run_first_part.
  assert (R2 : run_call sha256 crc32c (with_assembly a1) c2 = with_assembly a2)
    by (rewrite run_next_part by done; by fold a2; rewrite E2).
  split.
  - cbn [run_calls foldl]. rewrite R1, R2, run_next_part by done. by rewrite E3.
  - intros n Hn. destruct n as [|[|[|]]]; [..|lia]; cbn [run_calls foldl take].
    + by rewrite set_buffer_id.
    + by rewrite R1.
    + by rewrite R1, R2.
Qed.

End parts.

(** C20 (equivalence): the order of the three events does not matter.  On a
    service with no assembly for the block and room for one, the validated
    block from consensus and the two roots, in any order and at any times, leave
    the service that a direct write of the block with these roots leaves; before
    the last of them nothing but the assembly buffer has changed. *)
Theorem assembly_order_independent env (s : BlockStorageService KV) b mr sr t1 t2 t3 l
  (Hnone : BlockAssemblyBuffer.get (assembly_buffer s) (compute_block_hash sha256 b) = None)
  (Hroom : (BlockAssemblyBuffer.len (assembly_buffer s)
            < max_pending_assemblies (BlockAssemblyBuffer.config (assembly_buffer s)))%nat)
  (Hl : l ≡ₚ parts env b mr sr t1 t2 t3) :
  run_calls sha256 crc32c s l = (write_block sha256 crc32c env s b mr sr).1
  /\ forall n, (n < 3)%nat ->
       let s1 := run_calls sha256 crc32c s (take n l) in
       s1 = set_buffer s (assembly_buffer s1).
Proof.
  assert (Hin : Forall (fun c => c ∈ parts env b mr sr t1 t2 t3) l)
    by (rewrite Hl; apply Forall_forall; done).
  apply perm_three in Hl as [->|[->|[->|[->|[->| ->]]]]];
    by apply (run_three_parts env s b mr sr t1 t2 t3).
Qed.

Lemma write_block_buffer env (s : BlockStorageService KV) b mr sr :
  assembly_buffer (write_block sha256 crc32c env s b mr sr).1 = assembly_buffer s.
Proof.
  unfold write_block. destruct (check_disk_space env s); simpl; try done.
  destruct (check_parent_exists s b); simpl; try done.
  destruct (block_exists s _); simpl; try done. destruct (_ <? _); simpl; try done.
  destruct (serialize _); simpl; try done.
  destruct (kv_atomic_batch_write _ _) as [kv [[]|e|]]; simpl; try done.
  unfold index_transactions. by destruct (foldl _ _ _).
Qed.

(** The buffer after the end of a handler: the assembly of the block may have
    been taken out. *)
Lemma try_complete_buffer env (s : BlockStorageService KV) bf h :
  let b' := assembly_buffer (sbind (try_complete_assembly sha256 crc32c env (set_buffer s bf) h)
     (fun s _ => (s, Ok tt : result StorageError unit))).1 in
  b' = bf \/ b' = BlockAssemblyBuffer.set_pending bf (delete h (BlockAssemblyBuffer.pending bf)).
Proof.
  unfold try_complete_assembly, BlockAssemblyBuffer.take_complete. simpl.
  destruct (BlockAssemblyBuffer.is_complete bf h); simpl; [|by left]. right.
  destruct (BlockAssemblyBuffer.pending bf !! h) as [a|]; [|done].
  destruct (take_components a) as [[[b m] r]|]; [|done].
  match goal with |- context [write_block _ _ _ ?x _ _ _] =>
    pose proof (write_block_buffer env x b m r) as H end.
  by destruct (write_block _ _ _ _ _ _ _) as [s' [?|?|]].
Qed.

(** A validated block never leaves the buffer over its limit.
    Whatever the state and the outcome of a write, after the event of consensus
    at most [max_pending_assemblies] assemblies are pending, and an assembly of
    another block that the call dropped had started no later than any assembly
    that stays. *)
Theorem validated_respects_limit env (s : BlockStorageService KV) b now :
  let s' := (on_block_validated sha256 crc32c env s CONSENSUS b now).1 in
  let h := compute_block_hash sha256 b in
  (BlockAssemblyBuffer.len (assembly_buffer s')
   <= max_pending_assemblies (BlockAssemblyBuffer.config (assembly_buffer s)))%nat
  /\ forall x a y a', x <> h ->
       BlockAssemblyBuffer.get (assembly_buffer s) x = Some a ->
       BlockAssemblyBuffer.get (assembly_buffer s') x = None ->
       BlockAssemblyBuffer.get (assembly_buffer s') y = Some a' ->
       pa_started_at a <= pa_started_at a'.
Proof.
  unfold on_block_validated, BlockAssemblyBuffer.len, BlockAssemblyBuffer.get. simpl.
  set (bf := BlockAssemblyBuffer.add_block_validated _ _ _ _).
  pose proof (enforce_max_pending_spec bf) as (Hsz & Hcfg & Hl & Hold).
  set (bf' := (BlockAssemblyBuffer.enforce_max_pending bf).1) in *.
  change (BlockAssemblyBuffer.config bf) with (BlockAssemblyBuffer.config (assembly_buffer s)) in Hsz.
  destruct (try_complete_buffer env s bf' (compute_block_hash sha256 b)) as [->| ->].
  - split; [lia|]. intros x a y a' Hx Ha Hgone Hy. rewrite Hl in Hgone.
    assert (Hbf : BlockAssemblyBuffer.pending bf !! x = Some a)
      by (simpl; by rewrite lookup_insert_ne).
    case_decide as Hin; [|congruence]. by apply (Hold x y a a').
  - simpl. split.
    { etrans; [apply size_delete_le|]. rewrite Hsz. lia. }
    intros x a y a' Hx Ha Hgone Hy. rewrite lookup_delete_ne, Hl in Hgone by done.
    assert (Hbf : BlockAssemblyBuffer.pending bf !! x = Some a)
      by (simpl; by rewrite lookup_insert_ne).
    case_decide as Hin; [|congruence]. apply (Hold x y a a'); [done|done|].
    by apply lookup_delete_Some in Hy as [_ ?].
Qed.

(** The events of transaction indexing for the hashes [0 .. n-1]. *)
Definition merkle_flood (env : Env) (n : nat) : list StorageCall :=
  (fun i => CallMerkle env TRANSACTION_INDEXING (Z.of_nat i) 0 0) <$> seq 0 n.

Lemma merkle_flood_step env (s : BlockStorageService KV) i :
  BlockAssemblyBuffer.pending (assembly_buffer s) !! i = None ->
  BlockAssemblyBuffer.pending (assembly_buffer (run_call sha256 crc32c s
    (CallMerkle env TRANSACTION_INDEXING i 0 0)))
  = <[i := add_part (CallMerkle env TRANSACTION_INDEXING i 0 0) (pending_new i 0)]>
      (BlockAssemblyBuffer.pending (assembly_buffer s)).
Proof.
  intros Hi. cbn [run_call]. unfold on_merkle_root_computed. simpl.
  unfold BlockAssemblyBuffer.add_merkle_root, BlockAssemblyBuffer.entry. rewrite Hi.
  match goal with |- context [<[i := ?a]> _] =>
    rewrite (finish_part env s (assembly_buffer s) i a) end. done.
Qed.

Lemma merkle_flood_size env (s : BlockStorageService KV) n :
  BlockAssemblyBuffer.pending (assembly_buffer s) = ∅ ->
  let p := BlockAssemblyBuffer.pending
    (assembly_buffer (run_calls sha256 crc32c s (merkle_flood env n))) in
  size p = n /\ forall i, Z.of_nat n <= i -> p !! i = None.
Proof.
  intros He. unfold merkle_flood, run_calls. induction n as [|n [IH1 IH2]].
  { simpl. by rewrite He. }
  rewrite seq_S, fmap_app, foldl_app. cbn [foldl fmap list_fmap Nat.add].
  rewrite merkle_flood_step by (by apply IH2). split.
  - rewrite map_size_insert_None by (by apply IH2). by rewrite IH1.
  - intros i Hi. rewrite lookup_insert_ne by lia. apply IH2. lia.
Qed.

Lemma new_buffer (kv : KV) config :
  assembly_buffer (new kv config) = BlockAssemblyBuffer.new (assembly_config config).
Proof.
  unfold new, load_transaction_index_from_storage, load_index_from_storage. simpl.
  destruct (kv_prefix_scan kv _) as [[|e l]|e|]; simpl.
  2: destruct (foldl load_index_step _ _) as [[? ?] ?]; simpl.
  all: destruct (negb _); simpl; [done|]; destruct (kv_prefix_scan kv _) as [l'|e'|]; simpl; try done.
  all: by destruct (load_tx_loop _ _).
Qed.

(** The events of the other subsystems are not bounded.  However
    small the configured limit, [n] Merkle-root events for different hashes
    leave [n] pending assemblies in a fresh service. *)
Theorem merkle_events_unbounded env (kv : KV) config n :
  BlockAssemblyBuffer.len (assembly_buffer
    (run_calls sha256 crc32c (new kv config) (merkle_flood env n))) = n.
Proof. apply merkle_flood_size. by rewrite new_buffer. Qed.

End claims.

(** C40 (type): the block index is a sorted vector that behaves as a finite map.
    After any insertions its entries are in strictly increasing height order,
    the binary searches of [get] and [contains] find what a lookup in the map of
    the last insertions finds, and [latest_height] is the greatest key. *)
Theorem block_index_is_map (l : list (Z * Hash)) :
  let i := foldl (fun i e => BlockIndex.insert e.1 e.2 i) BlockIndex.new l in
  let m := foldl (fun (m : gmap Z Hash) e => <[e.1 := e.2]> m) ∅ l in
  StronglySorted (fun x y => bie_height x < bie_height y) (BlockIndex.entries i)
  /\ (forall h, BlockIndex.get h i = m !! h)
  /\ (forall h, BlockIndex.contains h i = bool_decide (is_Some (m !! h)))
  /\ (forall h, BlockIndex.latest_height i = Some h ->
       is_Some (m !! h) /\ forall h', is_Some (m !! h') -> h' <= h).
Proof.
  intros i m.
  assert (H : index_sorted i /\ index_map i = m).
  { unfold i, m. clear i m. change (∅ : gmap Z Hash) with (index_map BlockIndex.new).
    assert (Hs : index_sorted BlockIndex.new) by constructor. revert Hs.
    generalize BlockIndex.new. induction l as [|e l IH]; intros i Hs; simpl; [done|].
    destruct (index_insert_spec i e.1 e.2 Hs) as [Hs' <-]. by apply IH. }
  destruct H as [Hs Hm]. rewrite <-Hm. split_and!; [done| | |].
  - intros h. by apply index_get_map.
  - intros h. by apply index_contains_map.
  - intros h (e & He & ->)%fmap_Some.
    assert (Hin : forall x, is_Some (index_map i !! x) <-> x ∈ bie_height <$> BlockIndex.entries i).
    { intros x. unfold index_map. rewrite <-elem_of_dom, dom_list_to_map_L, elem_of_list_to_set.
      by rewrite <-list_fmap_compose. }
    split; [apply Hin, list_elem_of_fmap; exists e; split; [done|by apply last_Some_elem_of]|].
    intros h' (e' & -> & He')%Hin%list_elem_of_fmap.
    by apply (sorted_last bie_height (BlockIndex.entries i)).
Qed.

(** ** Concrete runs *)

(** The stored chain is not protected by heights.  On a fresh
    service a second block at a finalized height is accepted and from then on
    returned for that height, although the finalized height stays; and a block
    of height 7 is accepted on top of the genesis block, with no block at the
    heights between. *)
Theorem heights_not_protected :
  let run := run_calls poly_hash sum_crc (new empty_kv storage_config_default) in
  let read s h := read_block_by_height poly_hash sum_crc s h in
  (read (run [store block0; store block1; CallFinalize 1]) 1 = Ok (stored_as block1)
   /\ get_finalized_height (run [store block0; store block1; CallFinalize 1; store fork1]) = 1
   /\ read (run [store block0; store block1; CallFinalize 1; store fork1]) 1 = Ok (stored_as fork1))
  /\ (read (run [store block0; store block7]) 7 = Ok (stored_as block7)
      /\ block_exists_at_height (run [store block0; store block7]) 6 = false).
Proof. vm_compute. split_and!; reflexivity. Qed.

(** *** Witnesses *)

Definition sample_calls (l : list StorageCall) : BlockStorageService InMemoryKVStore :=
  run_calls poly_hash sum_crc (new empty_kv storage_config_default) l.

Lemma storage_consistent_witness :
  block_exists_at_height (sample_calls two_blocks) 1 = true
  /\ exists b, read_block_by_height poly_hash sum_crc (sample_calls two_blocks) 1 = Ok b
       /\ sb_height b = 1.
Proof.
  destruct (storage_consistent (view := data) poly_hash sum_crc poly_hash_in_width empty_kv
    storage_config_default two_blocks eq_refl two_blocks_in_range) as (_ & H & _).
  specialize (H 1). fold (sample_calls two_blocks) in H.
  assert (E : block_exists_at_height (sample_calls two_blocks) 1 = true) by (vm_compute; reflexivity).
  split; [exact E|exact (proj1 H E)].
Defined.

Lemma write_read_roundtrip_witness :
  read_block poly_hash sum_crc
    (run_calls poly_hash sum_crc
       (write_block poly_hash sum_crc env0 (sample_calls []) block0 11 12).1
       [store block1; CallRestart storage_config_default]) hash0
  = Ok (stored_as block0).
Proof.
  refine (write_read_roundtrip (view := data) poly_hash sum_crc poly_hash_in_width empty_kv
    storage_config_default [] [store block1; CallRestart storage_config_default] env0 block0 11 12
    _ hash0 eq_refl _ _ _ _).
  - constructor.
  - repeat constructor; simpl; by apply (bool_decide_unpack _); vm_compute.
  - exact (Forall_inv two_blocks_in_range).
  - fold (sample_calls []). apply injective_projections; [reflexivity|vm_compute; reflexivity].
Defined.

Lemma write_block_succeeds_iff_witness :
  is_ok (write_block poly_hash sum_crc env0 (sample_calls []) block1 11 12).2 = false
  /\ data (kv_store (write_block poly_hash sum_crc env0 (sample_calls []) block1 11 12).1)
     = data (kv_store (sample_calls [])).
Proof.
  destruct (write_block_succeeds_iff (view := data) poly_hash sum_crc env0 (sample_calls [])
    block1 11 12) as (_ & _ & H).
  assert (E : is_ok (write_block poly_hash sum_crc env0 (sample_calls []) block1 11 12).2 = false)
    by (vm_compute; reflexivity).
  split; [exact E|exact (proj1 (H E))].
Defined.

Lemma restart_rebuilds_witness :
  get_latest_height (new (kv_store (sample_calls two_blocks)) storage_config_default) = 1.
Proof.
  destruct (restart_rebuilds (view := data) poly_hash sum_crc poly_hash_in_width empty_kv
    storage_config_default two_blocks storage_config_default eq_refl two_blocks_in_range)
    as (_ & H & _).
  fold (sample_calls two_blocks) in H. rewrite H. vm_compute. reflexivity.
Defined.

Lemma finality_monotone_witness :
  get_finalized_height (sample_calls two_blocks)
  <= get_finalized_height
       (run_calls poly_hash sum_crc (sample_calls two_blocks) [CallFinalize 1; CallFinalize 0]).
Proof.
  assert (H1 : Forall call_in_range [CallFinalize 1; CallFinalize 0])
    by repeat constructor.
  assert (H2 : Forall (fun c => is_restart c = false) [CallFinalize 1; CallFinalize 0])
    by repeat constructor.
  exact (proj1 (finality_monotone (view := data) poly_hash sum_crc poly_hash_in_width empty_kv
    storage_config_default two_blocks [CallFinalize 1; CallFinalize 0] eq_refl two_blocks_in_range
    H1 H2)).
Defined.

(** The parts of the genesis block in another order. *)
Definition shuffled_parts : list StorageCall :=
  let h := compute_block_hash poly_hash block0 in
  [CallState env0 STATE_MANAGEMENT h 12 3; CallValidated env0 CONSENSUS block0 1;
   CallMerkle env0 TRANSACTION_INDEXING h 11 2].

Lemma shuffled_parts_perm : shuffled_parts ≡ₚ parts poly_hash env0 block0 11 12 1 2 3.
Proof. unfold shuffled_parts, parts. etrans; [apply perm_swap|]. apply perm_skip, perm_swap. Qed.

Lemma assembly_order_independent_witness :
  run_calls poly_hash sum_crc (sample_calls []) shuffled_parts
  = (write_block poly_hash sum_crc env0 (sample_calls []) block0 11 12).1
  /\ read_block poly_hash sum_crc
       (run_calls poly_hash sum_crc (sample_calls []) shuffled_parts) hash0 = Ok (stored_as block0).
Proof.
  assert (H1 : BlockAssemblyBuffer.get (assembly_buffer (sample_calls []))
    (compute_block_hash poly_hash block0) = None) by (vm_compute; reflexivity).
  assert (H2 : (BlockAssemblyBuffer.len (assembly_buffer (sample_calls []))
    < max_pending_assemblies (BlockAssemblyBuffer.config (assembly_buffer (sample_calls []))))%nat)
    by (apply Nat.ltb_lt; vm_compute; reflexivity).
  destruct (assembly_order_independent poly_hash sum_crc env0 (sample_calls []) block0 11 12 1 2 3
    shuffled_parts H1 H2 shuffled_parts_perm) as [H _].
  split; [exact H|vm_compute; reflexivity].
Defined.
