(* ===== verification/BlockFile.v ===== *)
(** * Block storage: the file-backed store

    The binary format of [FileBackedKVStore] is read back, also from a file cut
    off at any byte; a batch whose save fails stays in memory. *)

From S2P Require Import Prelude Blocks BlockStorage BlockKv BlockService BlockFacts BlockInv BlockProps.
Import FileBackedKVStore.
Local Open Scope Z_scope.

Abbreviation short b := (Z.of_nat (length b) < 2 ^ 32).
Abbreviation short_entry e := (short e.1 /\ short e.2).

Definition write_entry (e : list u8 * list u8) : list u8 := write_field e.1 ++ write_field e.2.

Lemma encode_entries_app l1 l2 : encode_entries (l1 ++ l2) = encode_entries l1 ++ encode_entries l2.
Proof.
  unfold encode_entries. rewrite foldl_app. generalize (foldl (fun bytes e =>
    bytes ++ write_field e.1 ++ write_field e.2) [] l1).
  induction l2 as [|e l2 IH]; intros a; simpl; [by rewrite app_nil_r|].
  rewrite IH, (IH (_ ++ _)). by rewrite <-!app_assoc.
Qed.

Lemma encode_entries_cons e l : encode_entries (e :: l) = write_entry e ++ encode_entries l.
Proof. exact (encode_entries_app [e] l). Qed.

Lemma length_write_field b : length (write_field b) = (4 + length b)%nat.
Proof. unfold write_field. by rewrite length_app, length_le_bytes. Qed.

(** ** Fields *)

Lemma read_write_field b rest : short b -> read_field (write_field b ++ rest) = Some (b, rest).
Proof.
  intros Hb. unfold read_field, write_field. rewrite Z.mod_small by lia.
  rewrite <-app_assoc, length_app, length_le_bytes. simpl.
  rewrite take_app_length', drop_app_length' by (by rewrite length_le_bytes).
  rewrite from_le_bytes_to by (change (256 ^ Z.of_nat 4) with (2 ^ 32); lia).
  rewrite length_app, (proj2 (Z.ltb_ge _ _)), Nat2Z.id by lia.
  by rewrite take_app_length, drop_app_length.
Qed.

Lemma read_cut_field b n : short b -> (n < length (write_field b))%nat ->
  read_field (take n (write_field b)) = None.
Proof.
  rewrite length_write_field. intros Hb Hn. unfold read_field.
  rewrite length_take, length_write_field. case_match eqn:E; [done|].
  apply Nat.ltb_ge in E. unfold write_field. rewrite Z.mod_small by lia.
  rewrite take_app_ge by (rewrite length_le_bytes; lia). rewrite length_le_bytes.
  rewrite take_app_length', drop_app_length' by (by rewrite length_le_bytes).
  rewrite from_le_bytes_to by (change (256 ^ Z.of_nat 4) with (2 ^ 32); lia).
  rewrite (proj2 (Z.ltb_lt _ _)); [done|]. rewrite length_take. lia.
Qed.

(** ** Files *)

Definition insert_entries (m : gmap (list u8) (list u8)) (l : list (list u8 * list u8)) :=
  foldl (fun m e => <[e.1 := e.2]> m) m l.

Lemma decode_entries l : forall fuel m tail, Forall (fun e => short_entry e) l ->
  decode_loop (length l + fuel) m (encode_entries l ++ tail)
  = decode_loop fuel (insert_entries m l) tail.
Proof.
  induction l as [|e l IH]; intros fuel m tail Hl; [done|].
  apply Forall_cons in Hl as [[H1 H2] Hl]. rewrite encode_entries_cons.
  unfold write_entry. rewrite <-!app_assoc. cbn [length Nat.add decode_loop].
  rewrite !read_write_field by done. by apply IH.
Qed.

(** A proper prefix of an entry ends the loop. *)
Lemma decode_cut_entry e n fuel m : short_entry e -> (n < length (write_entry e))%nat ->
  decode_loop fuel m (take n (write_entry e)) = m.
Proof.
  intros [H1 H2] Hn. destruct fuel as [|fuel]; [done|]. simpl. unfold write_entry in *.
  destruct (decide (n < length (write_field e.1))%nat) as [Hlt|Hge].
  - rewrite take_app_le by lia. by rewrite read_cut_field.
  - rewrite take_app_ge by lia. rewrite read_write_field by done.
    rewrite length_app in Hn. rewrite read_cut_field by (done || lia). done.
Qed.

(** Where a cut falls: after some whole entries, within the next one. *)
Lemma cut_entries l : forall n, exists j tail,
  take n (encode_entries l) = encode_entries (take j l) ++ tail
  /\ (tail = [] \/ exists e k, e ∈ l /\ (k < length (write_entry e))%nat
        /\ tail = take k (write_entry e)).
Proof.
  induction l as [|e l IH]; intros n.
  { exists O, []. split; [by destruct n|by left]. }
  rewrite encode_entries_cons. destruct (decide (n < length (write_entry e))%nat) as [Hlt|Hge].
  - exists O, (take n (write_entry e)). split; [by rewrite take_app_le by lia|].
    right. exists e, n. split_and!; [left|done|done].
  - destruct (IH (n - length (write_entry e))%nat) as (j & tail & Ht & Htail).
    exists (S j), tail. split.
    + rewrite take_app_ge by lia. rewrite Ht. cbn [take]. by rewrite encode_entries_cons, app_assoc.
    + destruct Htail as [?|(e' & k & ? & ? & ?)]; [by left|]. right. exists e', k.
      split_and!; [by right|done|done].
Qed.

Lemma length_encode_entries l : (length l <= length (encode_entries l))%nat.
Proof.
  induction l as [|e l IH]; [simpl; lia|]. rewrite encode_entries_cons, length_app.
  unfold write_entry. rewrite length_app, length_write_field. simpl. lia.
Qed.

Lemma load_cut_entries l n : Forall (fun e => short_entry e) l ->
  exists j, load_from_file (take n (encode_entries l)) = insert_entries ∅ (take j l).
Proof.
  intros Hl. destruct (cut_entries l n) as (j & tail & Ht & Htail). exists j.
  unfold load_from_file. rewrite Ht, length_app.
  pose proof (length_encode_entries (take j l)) as Hlen.
  replace (length (encode_entries (take j l)) + length tail)%nat with
    (length (take j l) + (length (encode_entries (take j l)) - length (take j l) + length tail))%nat
    by lia.
  rewrite decode_entries by (by apply Forall_take).
  destruct Htail as [->|(e & k & He & Hk & ->)]; [by destruct (_ + _)%nat|].
  apply decode_cut_entry; [|done]. by apply (proj1 (Forall_forall _ _) Hl).
Qed.

Lemma load_entries l : Forall (fun e => short_entry e) l ->
  load_from_file (encode_entries l) = insert_entries ∅ l.
Proof.
  intros Hl. unfold load_from_file.
  pose proof (length_encode_entries l) as Hlen.
  rewrite <-(app_nil_r (encode_entries l)) at 2.
  replace (length (encode_entries l)) with
    (length l + (length (encode_entries l) - length l))%nat by lia.
  rewrite decode_entries by done. by destruct (_ - _)%nat.
Qed.

Lemma insert_entries_map l : NoDup l.*1 -> insert_entries ∅ l = list_to_map l.
Proof.
  intros Hnd. unfold insert_entries. rewrite foldl_insert_map by done. apply (right_id_L ∅ (∪)).
Qed.

(** ** Properties *)

(** The file format is read back, and a torn file is harmless.
    When every key and value is shorter than [2^32] bytes, a successful save
    leaves a file from which a new store loads the same contents; from the file
    cut off at any byte it loads some of the entries, each with its value, and
    nothing else. *)
Theorem file_store_roundtrip disk_write s s'
  (Hshort : map_Forall (fun k v => short k /\ short v) (fb_data s))
  (Hsave : save_to_file disk_write s = (s', Ok tt)) :
  fb_data (new (fb_file s')) = fb_data s
  /\ forall n, fb_data (new (take n (fb_file s'))) ⊆ fb_data s.
Proof.
  unfold save_to_file in Hsave. destruct (disk_write _) as [[]|e|]; try done. injection Hsave as <-.
  simpl. assert (Hl : Forall (fun e => short_entry e) (map_to_list (fb_data s))).
  { apply Forall_forall. intros [k v] Hin%elem_of_map_to_list. by apply (Hshort k v). }
  pose proof (NoDup_fst_map_to_list (fb_data s)) as Hnd. split.
  - rewrite load_entries, insert_entries_map by done. apply list_to_map_to_list.
  - intros n. destruct (load_cut_entries _ n Hl) as [j ->].
    rewrite insert_entries_map by (rewrite fmap_take; eapply sublist_NoDup;
      [exact Hnd|apply sublist_take]).
    apply map_subseteq_spec. intros k v Hk%elem_of_list_to_map_2.
    apply elem_of_map_to_list. eapply elem_of_sublist; [exact Hk|apply sublist_take].
Qed.

Definition one_entry_store : FileBackedKVStore := {| fb_data := {[ [1] := [2; 3] ]}; fb_file := [] |}.

Lemma file_store_roundtrip_witness :
  fb_data (new (fb_file (save_to_file (fun _ => Ok tt) one_entry_store).1)) = fb_data one_entry_store.
Proof.
  apply (file_store_roundtrip (fun _ => Ok tt) one_entry_store
    (save_to_file (fun _ => Ok tt) one_entry_store).1).
  - intros k v. simpl. intros [<- <-]%lookup_singleton_Some. split; reflexivity.
  - reflexivity.
Defined.

(** A disk that is full. *)
Definition full_disk (bytes : list u8) : result KVStoreError unit := Err KVIOError.

#[local] Instance full_disk_kv : KeyValueStore FileBackedKVStore := file_backed_kv full_disk.
#[local] Instance genesis_serializer : BlockSerializer := table_serializer [stored_as block0].

(** A failed batch of the file-backed store is not undone.  When
    the disk is full, writing the genesis block reports a database error, but
    the block is in the store: a second attempt is refused because the block
    exists, while its height is not in the index; and after a restart from the
    file the block is gone. *)
Theorem file_batch_not_atomic :
  let s0 := BlockService.new (new []) storage_config_default in
  let '(s1, r1) := write_block poly_hash sum_crc env0 s0 block0 11 12 in
  let '(s2, r2) := write_block poly_hash sum_crc env0 s1 block0 11 12 in
  r1 = Err DatabaseError /\ block_exists s1 hash0 = true
  /\ r2 = Err (BlockExists hash0) /\ block_exists_at_height s2 0 = false
  /\ block_exists (BlockService.new (new (fb_file (kv_store s2))) storage_config_default) hash0
     = false.
Proof. vm_compute. repeat split. Qed.
