(* ===== verification/Mmr.v ===== *)
(** * Block storage: the Merkle mountain range

    [MmrStore] of [qc-02-block-storage/src/domain/mmr.rs]: an accumulator of
    block hashes that keeps the peaks of perfect trees.  SHA-256 is the argument
    [sha256].  The reference definition splits the leaves at the largest power of
    two, again and again. *)

From S2P Require Import Prelude.
From stdpp Require Import strings.
Local Open Scope Z_scope.

Record Peak := { pk_hash : Hash; pk_height : Z }.

Record MmrStore := {
  mmr_peaks : list Peak;
  leaf_count : u64;
  nodes : gmap Z Hash
}.

Record MmrProof := {
  mp_leaf_index : u64;
  mp_leaf_count : u64;
  mp_siblings : list Hash;
  mp_peaks : list Hash
}.

Inductive MmrError := LeafNotFound (index : u64) | InvalidProof.

Section mmr.
Context (sha256 : list u8 -> Hash).

Definition new : MmrStore := {| mmr_peaks := []; leaf_count := 0; nodes := ∅ |}.

Definition hash_pair (left right : Hash) : Hash := sha256 (hash_bytes left ++ hash_bytes right).

Definition peaks (m : MmrStore) : list Hash := pk_hash <$> mmr_peaks m.

(** Peaks are bagged from right to left. *)
Definition bag_peaks (l : list Hash) : option Hash :=
  match reverse l with
  | [] => None
  | last :: rest => Some (foldl (fun root peak => hash_pair peak root) last rest)
  end.

Definition root (m : MmrStore) : Hash := default 0 (bag_peaks (peaks m)).

Definition leaf_index_to_pos (leaf_index : u64) : u64 := wrapping_mul 64 leaf_index 2.

(** The [while] loop of [merge_peaks]; every round removes a peak. *)
Fixpoint merge_loop (fuel : nat) (l : list Peak) : list Peak :=
  match fuel with
  | O => l
  | S fuel =>
      match reverse l with
      | right_peak :: left_peak :: rest =>
          if negb (pk_height right_peak =? pk_height left_peak) then l
          else merge_loop fuel (reverse rest ++
                 [{| pk_hash := hash_pair (pk_hash left_peak) (pk_hash right_peak);
                     pk_height := wrapping_add 32 (pk_height left_peak) 1 |}])
      | _ => l
      end
  end.

Definition merge_peaks (l : list Peak) : list Peak := merge_loop (length l) l.

Definition append (m : MmrStore) (leaf : Hash) : MmrStore * u64 :=
  let leaf_index := leaf_count m in
  ({| mmr_peaks := merge_peaks (mmr_peaks m ++ [{| pk_hash := leaf; pk_height := 0 |}]);
      leaf_count := wrapping_add 64 (leaf_count m) 1;
      nodes := <[leaf_index_to_pos leaf_index := leaf]> (nodes m) |}, leaf_index).

Definition get_proof (m : MmrStore) (leaf_index : u64) : result MmrError MmrProof :=
  if leaf_count m <=? leaf_index then Err (LeafNotFound leaf_index)
  else Ok {| mp_leaf_index := leaf_index; mp_leaf_count := leaf_count m;
             mp_siblings := match nodes m !! leaf_index_to_pos leaf_index with
                            | Some hash => [hash]
                            | None => []
                            end;
             mp_peaks := peaks m |}.

Definition verify_proof (root leaf : Hash) (proof : MmrProof) : bool :=
  match mp_siblings proof with
  | [] => false
  | sibling :: _ =>
      if negb (sibling =? leaf) then false
      else
        match bag_peaks (mp_peaks proof) with
        | None => root =? 0
        | Some computed_root => computed_root =? root
        end
  end.

(** ** Reference *)

(** The root of a perfect tree of height [h] over [2^h] leaves. *)
Fixpoint perfect (h : nat) (leaves : list Hash) : Hash :=
  match h with
  | O => hd 0 leaves
  | S h => hash_pair (perfect h (take (2 ^ h) leaves)) (perfect h (drop (2 ^ h) leaves))
  end.

Fixpoint mountains_loop (fuel : nat) (leaves : list Hash) : list Peak :=
  match fuel, leaves with
  | S fuel, _ :: _ =>
      let h := Nat.log2 (length leaves) in
      {| pk_hash := perfect h (take (2 ^ h) leaves); pk_height := Z.of_nat h |}
      :: mountains_loop fuel (drop (2 ^ h) leaves)
  | _, _ => []
  end.

(** The peaks over the leaves: the largest perfect tree first. *)
Definition mountains (leaves : list Hash) : list Peak := mountains_loop (length leaves) leaves.

(** ** Lemmas *)

(** A peak is the root of a perfect tree over its leaves. *)
Definition peak_of (p : Peak) (seg : list Hash) : Prop :=
  0 <= pk_height p /\ length seg = (2 ^ Z.to_nat (pk_height p))%nat
  /\ pk_hash p = perfect (Z.to_nat (pk_height p)) seg.

Abbreviation higher := (fun p q => pk_height q < pk_height p).

(** The peaks cover the leaves with trees of decreasing height. *)
Definition covers (l : list Peak) (leaves : list Hash) : Prop :=
  StronglySorted higher l /\ exists segs, Forall2 peak_of l segs /\ concat segs = leaves.

Lemma peak_of_pair left right s1 s2 :
  peak_of left s1 -> peak_of right s2 -> pk_height left = pk_height right ->
  pk_height left + 1 < 2 ^ 32 ->
  peak_of {| pk_hash := hash_pair (pk_hash left) (pk_hash right);
             pk_height := wrapping_add 32 (pk_height left) 1 |} (s1 ++ s2).
Proof.
  intros (H1 & L1 & E1) (H2 & L2 & E2) Heq Hlt. unfold peak_of. simpl.
  unfold wrapping_add. rewrite Z.mod_small by lia.
  replace (Z.to_nat (pk_height left + 1)) with (S (Z.to_nat (pk_height left))) by lia.
  rewrite <-Heq in L2, E2. split_and!; [lia| |].
  - rewrite length_app, L1, L2. simpl. lia.
  - cbn [perfect]. rewrite <-L1, take_app_length, drop_app_length. by rewrite E1, E2.
Qed.

(** Trees of decreasing heights below [h] have fewer than [2^h] leaves. *)
Lemma covers_length l leaves h : covers l leaves ->
  Forall (fun p => pk_height p < Z.of_nat h) l -> (length leaves < 2 ^ h)%nat.
Proof.
  intros [Hs (segs & Hf & <-)] Hall. revert h Hs Hall.
  induction Hf as [|p seg l segs (H0 & Hl & _) Hf IH]; intros h Hs Hall; simpl.
  { assert (2 ^ h <> 0)%nat by (apply Nat.pow_nonzero; lia). lia. }
  apply StronglySorted_cons in Hs as [Hp Hs]. apply Forall_cons in Hall as [Hh _].
  assert (Hlt : (length (concat segs) < 2 ^ Z.to_nat (pk_height p))%nat).
  { apply IH; [done|]. eapply Forall_impl; [exact Hp|]. simpl. lia. }
  rewrite length_app, Hl.
  assert (2 ^ S (Z.to_nat (pk_height p)) <= 2 ^ h)%nat by (apply Nat.pow_le_mono_r; lia).
  simpl in *. lia.
Qed.

Lemma peak_height_small p seg : peak_of p seg -> Z.of_nat (length seg) < 2 ^ 64 ->
  pk_height p < 64.
Proof.
  intros (H0 & Hl & _) Hn. rewrite Hl, Nat2Z.inj_pow, Z2Nat.id in Hn by done.
  apply (Z.pow_lt_mono_r_iff 2); [lia|lia|done].
Qed.

(** The loop restores the decreasing heights after a push. *)
Lemma merge_loop_covers fuel : forall l p leaves seg,
  (length l < fuel)%nat -> covers l leaves -> peak_of p seg ->
  Forall (fun q => pk_height p <= pk_height q) l ->
  Z.of_nat (length (leaves ++ seg)) < 2 ^ 64 ->
  covers (merge_loop fuel (l ++ [p])) (leaves ++ seg).
Proof.
  induction fuel as [|fuel IH]; intros l p leaves seg Hf Hc Hp Hle Hn; [lia|].
  cbn [merge_loop]. rewrite reverse_app. simpl.
  destruct Hc as [Hs (segs & H2 & <-)].
  destruct l as [|lp l _] using rev_ind; simpl.
  { apply Forall2_nil_inv_l in H2 as ->. split; [by repeat constructor|].
    exists [seg]. split; [by apply Forall2_cons|]. simpl. by rewrite app_nil_r. }
  rewrite reverse_app. simpl. apply Forall2_app_inv_l in H2 as (sl & sr & Hl & Hr & ->).
  apply Forall2_cons_inv_l in Hr as (s1 & ? & Hleft & Hnil & ->).
  apply Forall2_nil_inv_l in Hnil as ->.
  rewrite concat_app in *. simpl in *. rewrite app_nil_r in *.
  apply Forall_app in Hle as [Hle Hlast]. apply Forall_cons in Hlast as [Hlast _].
  pose proof (proj1 (StronglySorted_app _ _ _) Hs) as (Hrel & Hsl & _).
  assert (Hhi : Forall (fun q => pk_height lp < pk_height q) l).
  { apply Forall_forall. intros q Hq. apply (Hrel q lp Hq). left. }
  rewrite !length_app in *. simpl in Hf.
  destruct (pk_height p =? pk_height lp) eqn:E; bools; simpl.
  - assert (pk_height lp < 64) by (apply (peak_height_small _ s1); [done|lia]).
    destruct (Hleft) as (Hl0 & _). rewrite reverse_involutive, <-app_assoc. apply IH.
    + lia.
    + split; [done|]. by exists sl.
    + by apply peak_of_pair; [..|lia].
    + eapply Forall_impl; [exact Hhi|]. simpl. intros q Hq. unfold wrapping_add.
      rewrite Z.mod_small by lia. lia.
    + rewrite !length_app. lia.
  - split.
    + apply StronglySorted_app. split_and!; [|done|by repeat constructor].
      intros q q' Hq ->%list_elem_of_singleton. apply elem_of_app in Hq as [Hq| ->%list_elem_of_singleton].
      * pose proof (proj1 (Forall_forall _ _) Hhi q Hq). simpl in *. lia.
      * lia.
    + exists (sl ++ [s1; seg]). split.
      * rewrite <-app_assoc. apply Forall2_app; [done|]. simpl. by rewrite !Forall2_cons.
      * rewrite concat_app. simpl. by rewrite app_nil_r, app_assoc.
Qed.

Lemma covers_app_last l leaves x : covers l leaves ->
  Z.of_nat (length leaves) + 1 < 2 ^ 64 ->
  covers (merge_peaks (l ++ [{| pk_hash := x; pk_height := 0 |}])) (leaves ++ [x]).
Proof.
  intros Hc Hn. unfold merge_peaks. apply merge_loop_covers; [|done|done|..].
  - rewrite length_app. simpl. lia.
  - destruct Hc as [_ (segs & Hf & _)]. apply Forall2_length in Hf as Hl.
    apply Forall_lookup. intros i q Hq. simpl.
    destruct (Forall2_lookup_l _ _ _ _ _ Hf Hq) as (? & _ & H0 & _). done.
  - rewrite length_app. simpl. lia.
Qed.

(** Peaks that cover the leaves are the reference peaks. *)
Lemma covers_mountains l leaves : covers l leaves -> l = mountains leaves.
Proof.
  intros [Hs (segs & Hf & <-)]. unfold mountains.
  assert (Hgo : forall fuel, (length (concat segs) <= fuel)%nat -> l = mountains_loop fuel (concat segs));
    [|by apply Hgo].
  induction Hf as [|p seg l segs Hp Hf IH]; intros fuel Hfuel; simpl in *.
  { by destruct fuel. }
  pose proof Hp as (H0 & Hl & Hh). apply StronglySorted_cons in Hs as [Hall Hs].
  assert (Hrest : (length (concat segs) < 2 ^ Z.to_nat (pk_height p))%nat).
  { apply (covers_length l); [split; [done|by exists segs]|].
    eapply Forall_impl; [exact Hall|]. simpl. lia. }
  assert (Hlog : Nat.log2 (length (seg ++ concat segs)) = Z.to_nat (pk_height p)).
  { apply Nat.log2_unique; [lia|]. rewrite length_app. simpl. lia. }
  rewrite length_app in Hfuel. destruct fuel as [|fuel]; [lia|].
  destruct (seg ++ concat segs) as [|y ys] eqn:E.
  { apply app_nil in E as [-> _]. simpl in Hl. lia. }
  cbn [mountains_loop]. rewrite Hlog, <-E, <-Hl, take_app_length, drop_app_length. f_equal.
  - destruct p as [ph hh]. simpl in *. rewrite Hh. f_equal. lia.
  - apply IH; [done|]. lia.
Qed.

(** The accumulator after appending [leaves]. *)
Definition append_all (leaves : list Hash) : MmrStore :=
  foldl (fun m x => (append m x).1) new leaves.

Lemma append_all_snoc leaves x : append_all (leaves ++ [x]) = (append (append_all leaves) x).1.
Proof. unfold append_all. by rewrite foldl_app. Qed.

Lemma append_all_covers leaves : Z.of_nat (length leaves) < 2 ^ 64 ->
  covers (mmr_peaks (append_all leaves)) leaves
  /\ leaf_count (append_all leaves) = Z.of_nat (length leaves).
Proof.
  induction leaves as [|x leaves IH] using rev_ind; intros Hn.
  { split; [|done]. split; [constructor|]. by exists []. }
  rewrite length_app in Hn. simpl in Hn. destruct IH as [IH1 IH2]; [lia|].
  rewrite append_all_snoc. simpl. split; [apply covers_app_last; [done|lia]|].
  rewrite IH2, length_app. unfold wrapping_add. rewrite Z.mod_small; simpl; lia.
Qed.

Lemma append_all_nodes leaves i x : Z.of_nat (length leaves) <= 2 ^ 63 ->
  leaves !! i = Some x ->
  nodes (append_all leaves) !! leaf_index_to_pos (Z.of_nat i) = Some x.
Proof.
  induction leaves as [|y leaves IH] using rev_ind; intros Hn Hi; [done|].
  rewrite length_app in Hn. simpl in Hn. rewrite append_all_snoc. simpl.
  destruct (append_all_covers leaves) as [_ ->]; [lia|].
  apply lookup_snoc_Some in Hi as [[Hlt Hi]|[-> ->]]; [|apply lookup_insert_eq].
  rewrite lookup_insert_ne; [apply IH; [lia|done]|].
  unfold leaf_index_to_pos, wrapping_mul. rewrite !Z.mod_small by lia. lia.
Qed.

Lemma covers_few_peaks l leaves : covers l leaves -> Z.of_nat (length leaves) < 2 ^ 64 ->
  (length l <= 64)%nat.
Proof.
  intros [Hs (segs & Hf & <-)] Hn.
  assert (Hb : Forall (fun p => 0 <= pk_height p < 64) l).
  { apply Forall_lookup. intros i p Hp.
    destruct (Forall2_lookup_l _ _ _ _ _ Hf Hp) as (seg & Hseg & Hpk).
    split; [apply Hpk|]. apply (peak_height_small p seg); [done|].
    apply list_elem_of_lookup_2, list_elem_of_split in Hseg as (s1 & s2 & ->).
    rewrite concat_app in Hn. simpl in Hn. rewrite !length_app in Hn. lia. }
  clear Hf Hn. assert (Hgo : forall h, Forall (fun p => 0 <= pk_height p < Z.of_nat h) l ->
    (length l <= h)%nat); [|by apply (Hgo 64%nat)].
  clear Hb. induction Hs as [|p l Hs IH Hp]; intros h Hb; simpl; [lia|].
  apply Forall_cons in Hb as [Hph Hb].
  assert (length l <= Z.to_nat (pk_height p))%nat; [|lia]. apply IH.
  apply Forall_forall. intros q Hq. pose proof (proj1 (Forall_forall _ _) Hp q Hq).
  pose proof (proj1 (Forall_forall _ _) Hb q Hq). simpl in *. lia.
Qed.

(** The accumulator computes the mountain range of its leaves.
    After appending fewer than [2^64] leaves, the peaks are the roots of the
    perfect trees over the leaves split at the largest power of two again and
    again, there are at most 64 of them, the leaf count is the number of leaves
    and the root is the bag of these peaks. *)
Theorem mmr_computes_mountains leaves (Hn : Z.of_nat (length leaves) < 2 ^ 64) :
  mmr_peaks (append_all leaves) = mountains leaves
  /\ (length (mmr_peaks (append_all leaves)) <= 64)%nat
  /\ leaf_count (append_all leaves) = Z.of_nat (length leaves)
  /\ root (append_all leaves) = default 0 (bag_peaks (pk_hash <$> mountains leaves)).
Proof.
  destruct (append_all_covers leaves Hn) as [Hc Hl].
  pose proof (covers_mountains _ _ Hc) as Hm. split_and!; [done| |done|].
  - by eapply covers_few_peaks.
  - unfold root, peaks. by rewrite Hm.
Qed.

(** Inclusion proofs are given for exactly the appended leaves
    and verify.  With at most [2^63] leaves, [get_proof] returns a proof for
    every index below the count, which verifies for the leaf at that index
    against the current root, and an error for every other index. *)
Theorem mmr_proof_complete leaves i (Hn : Z.of_nat (length leaves) <= 2 ^ 63) (Hi : 0 <= i) :
  match get_proof (append_all leaves) i, leaves !! Z.to_nat i with
  | Ok proof, Some leaf => verify_proof (root (append_all leaves)) leaf proof = true
  | Err e, None => e = LeafNotFound i
  | _, _ => False
  end.
Proof.
  destruct (append_all_covers leaves) as [_ Hl]; [lia|]. unfold get_proof. rewrite Hl.
  destruct (_ <=? i) eqn:E; bools.
  { by rewrite (lookup_ge_None_2 leaves) by lia. }
  destruct (lookup_lt_is_Some_2 leaves (Z.to_nat i)) as [x Hx]; [lia|]. rewrite Hx.
  pose proof (append_all_nodes leaves _ x Hn Hx) as Hnode. rewrite Z2Nat.id in Hnode by done.
  rewrite Hnode. unfold verify_proof, root. simpl. rewrite Z.eqb_refl. simpl.
  destruct (bag_peaks (peaks (append_all leaves))); simpl; [apply Z.eqb_refl|done].
Qed.

(** A proof does not bind its leaf.  Against the root of any
    accumulator, the honest peaks with any hash at all as the only sibling are
    accepted as a proof that this hash is a leaf. *)
Theorem mmr_proof_accepts_any_leaf m x index count :
  verify_proof (root m) x
    {| mp_leaf_index := index; mp_leaf_count := count; mp_siblings := [x]; mp_peaks := peaks m |}
  = true.
Proof.
  unfold verify_proof, root. simpl. rewrite Z.eqb_refl. simpl.
  destruct (bag_peaks (peaks m)); simpl; [apply Z.eqb_refl|done].
Qed.
End mmr.

(** Five leaves: a tree of four and a single one. *)
Lemma mmr_computes_mountains_witness :
  let sum l := foldl Z.add 0 l mod 2 ^ 256 in
  pk_height <$> mmr_peaks (append_all sum [1; 2; 3; 4; 5]) = [2; 0].
Proof.
  intros sum. destruct (mmr_computes_mountains sum [1; 2; 3; 4; 5]) as [-> _]; [reflexivity|].
  vm_compute. reflexivity.
Defined.

Lemma mmr_proof_complete_witness :
  let sum l := foldl Z.add 0 l mod 2 ^ 256 in
  match get_proof (append_all sum [1; 2; 3]) 2 with
  | Ok proof => verify_proof sum (root sum (append_all sum [1; 2; 3])) 3 proof = true
  | _ => False
  end.
Proof.
  intros sum. pose proof (mmr_proof_complete sum [1; 2; 3] 2) as H.
  simpl length in H. specialize (H ltac:(vm_compute; congruence) ltac:(lia)).
  change ([1; 2; 3] !! Z.to_nat 2) with (Some 3) in H.
  destruct (get_proof (append_all sum [1; 2; 3]) 2); [exact H|destruct H|destruct H].
Defined.
