(* ===== verification/StateTrie.v ===== *)
(** * State management: [qc-04-state-management]

    The account trie ([domain/trie.rs]) with its nibble paths
    ([domain/nibbles.rs]), nodes ([domain/node.rs]), RLP encoding ([domain/rlp.rs],
    [domain/entities.rs]) and the proof verifiers ([domain/trie.rs],
    [domain/verify.rs], [domain/proofs.rs]).

    Keccak-256 is the third-party [sha3] crate and is the argument [keccak256] of
    the definitions that use it.  A nibble path and a byte string are lists of
    numbers; indexing out of bounds is a panic ([None], [Panic]). *)

From S2P Require Import Prelude.
From stdpp Require Import strings.
Local Open Scope Z_scope.
Local Open Scope qc_scope.

(** ** Nibbles *)

Abbreviation Nibbles := (list Z) (only parsing).

Definition from_bytes (bytes : list u8) : Nibbles :=
  concat ((fun b => [Z.shiftr b 4; Z.land b 15]) <$> bytes).

(** [self.0[start..]]. *)
Definition slice (k : Nibbles) (start : nat) : option Nibbles :=
  if (start <=? length k)%nat then Some (drop start k) else None.

(** [self.0[start..end]]. *)
Definition slice_range (k : Nibbles) (start stop : nat) : option Nibbles :=
  if ((start <=? stop)%nat && (stop <=? length k)%nat)%bool
  then Some (take (stop - start) (drop start k)) else None.

Fixpoint common_prefix_len (a b : Nibbles) : nat :=
  match a, b with
  | x :: a, y :: b => if x =? y then S (common_prefix_len a b) else O
  | _, _ => O
  end.

(** [chunks(2)] with a missing second nibble read as 0. *)
Fixpoint pack (l : Nibbles) : list u8 :=
  match l with
  | a :: b :: l => Z.lor (Z.shiftl a 4) b :: pack l
  | [a] => [Z.lor (Z.shiftl a 4) 0]
  | [] => []
  end.

Definition encode_hex_prefix (k : Nibbles) (is_leaf : bool) : list u8 :=
  let odd := Nat.odd (length k) in
  let prefix := (if is_leaf then 2 else 0) + (if odd then 1 else 0) in
  match odd, k with
  | true, first :: rest => Z.lor (Z.shiftl prefix 4) first :: pack rest
  | _, _ => Z.shiftl prefix 4 :: pack k
  end.

Definition decode_hex_prefix (encoded : list u8) : Nibbles * bool :=
  match encoded with
  | [] => ([], false)
  | first :: rest =>
      let prefix := Z.shiftr first 4 in
      ((if prefix mod 2 =? 1 then [Z.land first 15] else []) ++ from_bytes rest, 2 <=? prefix)
  end.

(** ** RLP *)

(** [bytes.iter().position(|b| b != 0)]. *)
Fixpoint leading_zeros (l : list u8) : nat :=
  match l with
  | x :: l => if x =? 0 then S (leading_zeros l) else O
  | [] => O
  end.

(** The big-endian bytes of [x] without leading zeros. *)
Definition minimal_bytes (n : nat) (x : Z) : list u8 :=
  let bytes := be_bytes n x in drop (leading_zeros bytes) bytes.

Definition encode_length (len : nat) : list u8 :=
  let bytes := be_bytes 8 (Z.of_nat len) in
  drop (if (leading_zeros bytes =? 8)%nat then 7 else leading_zeros bytes) bytes.

Definition rlp_encode_bytes (bytes : list u8) : list u8 :=
  match bytes with
  | [x] => if x <? 128 then [x] else [129; x]
  | _ =>
      if (length bytes <? 56)%nat then (128 + Z.of_nat (length bytes)) :: bytes
      else
        let len_bytes := encode_length (length bytes) in
        (183 + Z.of_nat (length len_bytes)) :: len_bytes ++ bytes
  end.

(** The header of a list with [total_len] bytes of items. *)
Definition rlp_list_header (total_len : nat) : list u8 :=
  if (total_len <? 56)%nat then [192 + Z.of_nat total_len]
  else
    let len_bytes := encode_length total_len in
    (247 + Z.of_nat (length len_bytes)) :: len_bytes.

Definition rlp_encode_two_items (a b : list u8) : list u8 :=
  let encoded_a := rlp_encode_bytes a in
  let encoded_b := rlp_encode_bytes b in
  rlp_list_header (length encoded_a + length encoded_b) ++ encoded_a ++ encoded_b.

Definition rlp_encode_list_items (items : list (list u8)) : list u8 :=
  let encoded_items := rlp_encode_bytes <$> items in
  let total_len := sum_list (length <$> encoded_items) in
  rlp_list_header total_len ++ concat encoded_items.

(** ** Accounts *)

Definition EMPTY_CODE_HASH : Hash := 0.
Definition EMPTY_TRIE_ROOT : Hash :=
  0x56e81f171bcc55a6ff8345e692c0f86e5b48e01b996cadc001622fb5e363b421.

Record AccountState := {
  balance : u128;
  nonce : u64;
  code_hash : Hash;
  storage_root : Hash
}.

#[export] Instance AccountState_eq_dec : EqDecision AccountState.
Proof. solve_decision. Defined.

Definition account_default : AccountState := {|
  balance := 0; nonce := 0; code_hash := EMPTY_CODE_HASH; storage_root := EMPTY_TRIE_ROOT |}.

(** [rlp_encode_u64] and [rlp_encode_u128]: [n] is the width in bytes. *)
Definition rlp_encode_uint (n : nat) (value : Z) : list u8 :=
  if value =? 0 then [128]
  else if value <? 128 then [value]
  else (128 + Z.of_nat (length (minimal_bytes n value))) :: minimal_bytes n value.

(** [rlp_encode_list]: its length bytes drop all leading zeros. *)
Definition rlp_encode_list (items : list u8) : list u8 :=
  (if (length items <? 56)%nat then [192 + Z.of_nat (length items)]
   else
     let len_bytes := minimal_bytes 8 (Z.of_nat (length items)) in
     (247 + Z.of_nat (length len_bytes)) :: len_bytes) ++ items.

Definition account_rlp_encode (s : AccountState) : list u8 :=
  rlp_encode_list
    (rlp_encode_uint 8 (nonce s) ++ rlp_encode_uint 16 (balance s)
     ++ rlp_encode_bytes (hash_bytes (storage_root s))
     ++ rlp_encode_bytes (hash_bytes (code_hash s))).

(** ** Nodes *)

Inductive TrieNode :=
| EmptyNode
| Leaf (path : Nibbles) (value : list u8)
| Extension (path : Nibbles) (child : Hash)
| Branch (children : list (option Hash)) (value : option (list u8)).

#[export] Instance TrieNode_eq_dec : EqDecision TrieNode.
Proof. solve_decision. Defined.

Definition node_rlp_encode (n : TrieNode) : list u8 :=
  match n with
  | EmptyNode => [128]
  | Leaf path value => rlp_encode_two_items (encode_hex_prefix path true) value
  | Extension path child => rlp_encode_two_items (encode_hex_prefix path false) (hash_bytes child)
  | Branch children value =>
      rlp_encode_list_items
        (((fun c => match c with Some hash => hash_bytes hash | None => [128] end) <$> children)
         ++ [match value with Some v => v | None => [128] end])
  end.

(** [process_for_proof]: the next hash and depth, [None] to stop. *)
Definition process_for_proof (n : TrieNode) (key : Nibbles) (depth : nat) : option (Hash * nat) :=
  match n with
  | EmptyNode | Leaf _ _ => None
  | Extension path child =>
      if decide (path `prefix_of` drop depth key) then Some (child, (depth + length path)%nat)
      else None
  | Branch children _ =>
      match key !! depth with
      | None => None
      | Some nibble =>
          match children !! Z.to_nat nibble with
          | Some (Some child) => Some (child, S depth)
          | _ => None
          end
      end
  end.

(** ** The trie *)

Record StateConfig := {
  max_depth : nat;
  cache_size_mb : nat;
  enable_snapshots : bool;
  snapshot_interval : u64;
  pruning_depth : u64;
  max_storage_slots_per_contract : nat
}.

Definition state_config_default : StateConfig := {|
  max_depth := 64; cache_size_mb := 512; enable_snapshots := true; snapshot_interval := 128;
  pruning_depth := 1000; max_storage_slots_per_contract := 10000 |}.

Inductive StateError :=
| AccountNotFound (address : Address)
| InsufficientBalance (required available : u128)
| InvalidNonce (expected actual : u64)
| NonceGap (expected actual : u64)
| StorageLimitExceeded (address : Address)
| BlockNotFound (height : u64)
| UnauthorizedSender (sender_id : u8)
| StateDatabaseError
| ProofVerificationFailed
| StateRootMismatch (expected actual : Hash)
| SnapshotNotFound (height : u64)
| TrieDepthExceeded (max attempted : nat)
| SerializationError
| LockPoisoned
| ProofGenerationFailed (address : Address)
| RollbackDepthExceeded (max_depth requested : u64).

Record PatriciaMerkleTrie := {
  nodes : gmap Hash TrieNode;
  root : Hash;
  accounts : gmap Address AccountState;
  storage : gmap (Address * Hash) Hash;
  storage_counts : gmap Address nat;
  config : StateConfig
}.

Record StateProof := {
  sp_address : Address;
  sp_account_state : option AccountState;
  sp_proof_nodes : list (list u8);
  sp_state_root : Hash
}.

Record StorageProof := {
  stp_address : Address;
  stp_storage_key : Hash;
  stp_storage_value : option Hash;
  stp_account_proof : list (list u8);
  stp_storage_proof : list (list u8);
  stp_state_root : Hash
}.

(** [a.0.cmp(&b.0)] on nibble vectors. *)
Fixpoint lex_leb (a b : Nibbles) : bool :=
  match a, b with
  | [], _ => true
  | _ :: _, [] => false
  | x :: a, y :: b => if x <? y then true else if y <? x then false else lex_leb a b
  end.

Definition item_le (a b : Nibbles * list u8) : Prop := lex_leb a.1 b.1 = true.
#[export] Instance item_le_dec a b : Decision (item_le a b).
Proof. unfold item_le. apply _. Defined.

Definition slot_le (x y : (Address * Hash) * Hash) : Prop := x.1.2 <= y.1.2.
#[export] Instance slot_le_dec x y : Decision (slot_le x y).
Proof. unfold slot_le. apply _. Defined.

Section trie.
Context (keccak256 : list u8 -> Hash).

Definition node_hash (n : TrieNode) : Hash :=
  match n with
  | EmptyNode => EMPTY_TRIE_ROOT
  | _ => keccak256 (node_rlp_encode n)
  end.

Definition with_config (c : StateConfig) : PatriciaMerkleTrie := {|
  nodes := {[ EMPTY_TRIE_ROOT := EmptyNode ]}; root := EMPTY_TRIE_ROOT;
  accounts := ∅; storage := ∅; storage_counts := ∅; config := c |}.
Definition new : PatriciaMerkleTrie := with_config state_config_default.

(** *** Building *)

(** The length of the prefix that all keys share from [depth] on. *)
Definition common_len (items : list (Nibbles * list u8)) (depth : nat) : option nat :=
  match items with
  | [] => Some O
  | (first_key, _) :: rest =>
      first ← slice first_key depth;
      lens ← mapM (fun e => k ← slice e.1 depth; Some (common_prefix_len k first)) rest;
      match lens with
      | [] => Some O
      | n :: ns => Some (foldl Nat.min n ns)
      end
  end.

Definition nibble_group (items : list (Nibbles * list u8)) (depth : nat) (nibble : Z)
  : list (Nibbles * list u8) := base.filter (fun e => e.1 !! depth = Some nibble) items.

Definition terminal_value (items : list (Nibbles * list u8)) (depth : nat) : option (list u8) :=
  snd <$> (snd <$> list_find (fun e => length e.1 = depth) items).

(** The recursion of [build_node] over any store of nodes [S] with an [insert]
    operation; the code's store is the map [nodes].  [None] is a slice out of
    bounds or no fuel left. *)
Section build.
Context {S : Type} (insert : S -> TrieNode -> S).

(** The loop over the sixteen nibbles: [build] builds the subtree of a group. *)
Fixpoint build_groups (build : S -> list (Nibbles * list u8) -> option (S * Hash))
  (items : list (Nibbles * list u8)) (depth : nat) (m : S) (nibbles : list Z)
  : option (S * list (option Hash)) :=
  match nibbles with
  | [] => Some (m, [])
  | nibble :: nibbles =>
      match nibble_group items depth nibble with
      | [] =>
          '(m, children) ← build_groups build items depth m nibbles;
          Some (m, None :: children)
      | group =>
          '(m, hash) ← build m group;
          '(m, children) ← build_groups build items depth m nibbles;
          Some (m, Some hash :: children)
      end
  end.

Fixpoint build_node_in (fuel : nat) (m : S) (items : list (Nibbles * list u8)) (depth : nat)
  : option (S * Hash) :=
  match fuel with
  | O => None
  | Datatypes.S fuel =>
      match items with
      | [] => Some (m, EMPTY_TRIE_ROOT)
      | [(key, value)] =>
          remaining ← slice key depth;
          let node := Leaf remaining value in
          Some (insert m node, node_hash node)
      | (first_key, _) :: _ =>
          common ← common_len items depth;
          if (0 <? common)%nat then
            prefix ← slice_range first_key depth (depth + common);
            '(m, child) ← build_node_in fuel m items (depth + common);
            let node := Extension prefix child in
            Some (insert m node, node_hash node)
          else
            '(m, children) ←
              build_groups (fun m group => build_node_in fuel m group (Datatypes.S depth))
                items depth m (seqZ 0 16);
            let node := Branch children (terminal_value items depth) in
            Some (insert m node, node_hash node)
      end
  end.

End build.

Definition insert_node (m : gmap Hash TrieNode) (n : TrieNode) : gmap Hash TrieNode :=
  <[node_hash n := n]> m.

Definition build_node : nat -> gmap Hash TrieNode -> list (Nibbles * list u8) -> nat ->
  option (gmap Hash TrieNode * Hash) := build_node_in insert_node.

(** The items of [rebuild_trie] before sorting, for the accounts in an order. *)
Definition trie_items (l : list (Address * AccountState)) : list (Nibbles * list u8) :=
  (fun e => (from_bytes (hash_bytes (keccak256 (address_bytes e.1))), account_rlp_encode e.2)) <$> l.

(** A key has 64 nibbles, and each level of the trie uses one. *)
Definition trie_fuel : nat := 66.

Definition rebuild_trie (t : PatriciaMerkleTrie) : result StateError PatriciaMerkleTrie :=
  let empty := {[ EMPTY_TRIE_ROOT := EmptyNode ]} in
  let set m r := {| nodes := m; root := r; accounts := accounts t; storage := storage t;
                    storage_counts := storage_counts t; config := config t |} in
  if (size (accounts t) =? 0)%nat then Ok (set empty EMPTY_TRIE_ROOT)
  else
    let items := stable_sort item_le (trie_items (map_to_list (accounts t))) in
    match build_node trie_fuel empty items 0 with
    | Some (m, r) => Ok (set m r)
    | None => Panic
    end.

(** A method that changes [accounts] or [storage] and rebuilds. *)
Definition set_accounts (t : PatriciaMerkleTrie) (a : gmap Address AccountState)
  : PatriciaMerkleTrie := {|
  nodes := nodes t; root := root t; accounts := a; storage := storage t;
  storage_counts := storage_counts t; config := config t |}.
Definition set_storage_maps (t : PatriciaMerkleTrie) (s : gmap (Address * Hash) Hash)
  (c : gmap Address nat) : PatriciaMerkleTrie := {|
  nodes := nodes t; root := root t; accounts := accounts t; storage := s;
  storage_counts := c; config := config t |}.

Definition rebuilt (t : PatriciaMerkleTrie) : PatriciaMerkleTrie * result StateError unit :=
  match rebuild_trie t with
  | Ok t' => (t', Ok tt)
  | Err e => (t, Err e)
  | Panic => (t, Panic)
  end.

(** *** Accounts *)

Definition insert_account (t : PatriciaMerkleTrie) (address : Address) (state : AccountState) :=
  rebuilt (set_accounts t (<[address := state]> (accounts t))).

Definition get_account (t : PatriciaMerkleTrie) (address : Address) : option AccountState :=
  accounts t !! address.

(** [entry(address).or_default()]. *)
Definition account_entry (t : PatriciaMerkleTrie) (address : Address) : AccountState :=
  default account_default (accounts t !! address).

Definition set_balance (t : PatriciaMerkleTrie) (address : Address) (b : u128) :=
  let s := account_entry t address in
  rebuilt (set_accounts t (<[address := {|
    balance := b; nonce := nonce s; code_hash := code_hash s;
    storage_root := storage_root s |}]> (accounts t))).

Definition get_balance (t : PatriciaMerkleTrie) (address : Address) : u128 :=
  match accounts t !! address with Some s => balance s | None => 0 end.
Definition get_nonce (t : PatriciaMerkleTrie) (address : Address) : u64 :=
  match accounts t !! address with Some s => nonce s | None => 0 end.

Definition increment_nonce (t : PatriciaMerkleTrie) (address : Address)
  : PatriciaMerkleTrie * result StateError unit :=
  let s := account_entry t address in
  if nonce s =? 2 ^ 64 - 1
  then (set_accounts t (<[address := s]> (accounts t)), Err (InvalidNonce (nonce s) (2 ^ 64 - 1)))
  else
    rebuilt (set_accounts t (<[address := {|
      balance := balance s; nonce := nonce s + 1; code_hash := code_hash s;
      storage_root := storage_root s |}]> (accounts t))).

(** [delta] is an [i128]; [(-delta) as u128] wraps. *)
Definition apply_balance_change (t : PatriciaMerkleTrie) (address : Address) (delta : Z)
  : PatriciaMerkleTrie * result StateError unit :=
  let current := get_balance t address in
  if 0 <=? delta then set_balance t address (saturating_add 128 current delta)
  else
    let required := (- delta) mod 2 ^ 128 in
    if current <? required then (t, Err (InsufficientBalance required current))
    else set_balance t address (current - required).

Definition apply_nonce_increment (t : PatriciaMerkleTrie) (address : Address) (expected_nonce : u64)
  : PatriciaMerkleTrie * result StateError unit :=
  let current := get_nonce t address in
  if negb (current =? expected_nonce) then
    if wrapping_add 64 current 1 <? expected_nonce
    then (t, Err (NonceGap (wrapping_add 64 current 1) expected_nonce))
    else (t, Err (InvalidNonce current expected_nonce))
  else increment_nonce t address.

(** *** Storage *)

(** The slots of a contract, in key order. *)
Definition contract_slots (s : gmap (Address * Hash) Hash) (contract : Address)
  : list ((Address * Hash) * Hash) :=
  stable_sort slot_le
    (base.filter (fun e => e.1.1 = contract) (map_to_list s)).

Definition compute_storage_root (s : gmap (Address * Hash) Hash) (contract : Address) : Hash :=
  match contract_slots s contract with
  | [] => EMPTY_TRIE_ROOT
  | slots => keccak256 (concat ((fun e => hash_bytes e.1.2 ++ hash_bytes e.2) <$> slots))
  end.

(** The account of the contract, when there is one, gets the new storage root. *)
Definition refresh_storage_root (t : PatriciaMerkleTrie) (contract : Address)
  : PatriciaMerkleTrie :=
  match accounts t !! contract with
  | Some a => set_accounts t (<[contract := {|
      balance := balance a; nonce := nonce a; code_hash := code_hash a;
      storage_root := compute_storage_root (storage t) contract |}]> (accounts t))
  | None => t
  end.

Definition set_storage (t : PatriciaMerkleTrie) (contract : Address) (key value : Hash)
  : PatriciaMerkleTrie * result StateError unit :=
  let count := default O (storage_counts t !! contract) in
  let t := set_storage_maps t (storage t) (<[contract := count]> (storage_counts t)) in
  let fresh := bool_decide (storage t !! (contract, key) = None) in
  if (fresh && (max_storage_slots_per_contract (config t) <=? count)%nat)%bool
  then (t, Err (StorageLimitExceeded contract))
  else
    let counts := if fresh then <[contract := S count]> (storage_counts t)
                  else storage_counts t in
    rebuilt (refresh_storage_root
      (set_storage_maps t (<[(contract, key) := value]> (storage t)) counts) contract).

Definition get_storage (t : PatriciaMerkleTrie) (contract : Address) (key : Hash) : option Hash :=
  storage t !! (contract, key).

Definition delete_storage (t : PatriciaMerkleTrie) (contract : Address) (key : Hash)
  : PatriciaMerkleTrie * result StateError unit :=
  match storage t !! (contract, key) with
  | None => (t, Ok tt)
  | Some _ =>
      let counts := match storage_counts t !! contract with
                    | Some count => <[contract := (count - 1)%nat]> (storage_counts t)
                    | None => storage_counts t
                    end in
      rebuilt (refresh_storage_root
        (set_storage_maps t (delete (contract, key) (storage t)) counts) contract)
  end.

(** *** Proofs *)

Definition account_key (address : Address) : Nibbles :=
  from_bytes (hash_bytes (keccak256 (address_bytes address))).

(** The [while] loop of [generate_proof]: the nodes on the path; [Err] is a
    missing node, [Panic] no fuel left. *)
Fixpoint proof_loop (fuel : nat) (m : gmap Hash TrieNode) (key : Nibbles) (hash : Hash)
  (depth : nat) : result unit (list TrieNode) :=
  match fuel with
  | O => Panic
  | S fuel =>
      if hash =? EMPTY_TRIE_ROOT then Ok []
      else
        match m !! hash with
        | None => Err tt
        | Some node =>
            match process_for_proof node key depth with
            | None => Ok [node]
            | Some (next_hash, depth) =>
                let? rest := proof_loop fuel m key next_hash depth in
                Ok (node :: rest)
            end
        end
  end.

Definition generate_proof (t : PatriciaMerkleTrie) (address : Address)
  : result StateError StateProof :=
  match proof_loop trie_fuel (nodes t) (account_key address) (root t) 0 with
  | Ok path => Ok {| sp_address := address; sp_account_state := accounts t !! address;
                     sp_proof_nodes := node_rlp_encode <$> path; sp_state_root := root t |}
  | Err _ => Err (ProofGenerationFailed address)
  | Panic => Panic
  end.

Definition generate_storage_proof (t : PatriciaMerkleTrie) (address : Address) (storage_key : Hash)
  : result StateError StorageProof :=
  let storage_value := storage t !! (address, storage_key) in
  let? account_proof := generate_proof t address in
  Ok {| stp_address := address; stp_storage_key := storage_key;
        stp_storage_value := storage_value;
        stp_account_proof := sp_proof_nodes account_proof;
        stp_storage_proof := match storage_value with
                             | Some value => [hash_bytes storage_key; hash_bytes value]
                             | None => []
                             end;
        stp_state_root := root t |}.

(** [verify_proof] of [trie.rs]. *)
Definition verify_proof (proof : StateProof) (address : Address) (expected_root : Hash) : bool :=
  if negb (sp_state_root proof =? expected_root) then false
  else if negb (sp_address proof =? address) then false
  else
    match sp_proof_nodes proof with
    | [] => bool_decide (sp_account_state proof = None)
    | [_] => true
    | first_node :: _ => negb (keccak256 first_node =? 0)
    end.

(** [verify_state_proof] and [verify_storage_proof] of [proofs.rs]. *)
Definition verify_state_proof (proof : StateProof) : bool :=
  match sp_proof_nodes proof with
  | [] => bool_decide (sp_account_state proof = None)
  | _ => true
  end.
Definition verify_storage_proof (proof : StorageProof) : bool :=
  match stp_account_proof proof with
  | [] => bool_decide (stp_storage_value proof = None)
  | _ => true
  end.

(** *** Persistence *)

Definition account_bytes (e : Address * AccountState) : list u8 :=
  address_bytes e.1 ++ le_bytes 16 (balance e.2) ++ le_bytes 8 (nonce e.2)
  ++ hash_bytes (code_hash e.2) ++ hash_bytes (storage_root e.2).
Definition slot_bytes (e : (Address * Hash) * Hash) : list u8 :=
  address_bytes e.1.1 ++ hash_bytes e.1.2 ++ hash_bytes e.2.

Definition serialize (t : PatriciaMerkleTrie) : list u8 :=
  [2] ++ hash_bytes (root t)
  ++ le_bytes 4 (Z.of_nat (size (accounts t)) mod 2 ^ 32)
  ++ concat (account_bytes <$> map_to_list (accounts t))
  ++ le_bytes 4 (Z.of_nat (size (storage t)) mod 2 ^ 32)
  ++ concat (slot_bytes <$> map_to_list (storage t)).

(** The next [n] bytes at the cursor; [None] is the panic of an index out of
    bounds. *)
Definition read_bytes (n : nat) (l : list u8) : option (list u8 * list u8) :=
  if (n <=? length l)%nat then Some (take n l, drop n l) else None.

(** The loops of [deserialize_accounts] and [deserialize_storage]. *)
Fixpoint accounts_loop (n : nat) (m : gmap Address AccountState) (l : list u8)
  : option (gmap Address AccountState * list u8) :=
  match n with
  | O => Some (m, l)
  | S n =>
      '(address, l) ← read_bytes 20 l;
      '(b, l) ← read_bytes 16 l;
      '(k, l) ← read_bytes 8 l;
      '(c, l) ← read_bytes 32 l;
      '(r, l) ← read_bytes 32 l;
      accounts_loop n (<[from_be_bytes address := {|
        balance := from_le_bytes b; nonce := from_le_bytes k;
        code_hash := from_be_bytes c; storage_root := from_be_bytes r |}]> m) l
  end.

Fixpoint storage_loop (n : nat) (m : gmap (Address * Hash) Hash) (c : gmap Address nat)
  (l : list u8) : option (gmap (Address * Hash) Hash * gmap Address nat) :=
  match n with
  | O => Some (m, c)
  | S n =>
      '(address, l) ← read_bytes 20 l;
      '(key, l) ← read_bytes 32 l;
      '(value, l) ← read_bytes 32 l;
      let a := from_be_bytes address in
      storage_loop n (<[(a, from_be_bytes key) := from_be_bytes value]> m)
        (<[a := S (default O (c !! a))]> c) l
  end.

Definition deserialize_accounts (l : list u8) : option (gmap Address AccountState * list u8) :=
  '(count, l) ← read_bytes 4 l;
  accounts_loop (Z.to_nat (from_le_bytes count)) ∅ l.

Definition deserialize_storage (l : list u8)
  : option (gmap (Address * Hash) Hash * gmap Address nat) :=
  '(count, l) ← read_bytes 4 l;
  storage_loop (Z.to_nat (from_le_bytes count)) ∅ ∅ l.

Definition deserialize (bytes : list u8) : result StateError PatriciaMerkleTrie :=
  match bytes with
  | [] => Ok new
  | version :: l =>
      if (negb (version =? 1) && negb (version =? 2))%bool then Err StateDatabaseError
      else
        match ('(a, l) ← deserialize_accounts (drop 32 l);
               '(s, c) ← deserialize_storage l;
               Some (a, s, c)) with
        | None => Panic
        | Some (a, s, c) =>
            rebuild_trie {|
              nodes := {[ EMPTY_TRIE_ROOT := EmptyNode ]}; root := EMPTY_TRIE_ROOT;
              accounts := a; storage := s; storage_counts := c;
              config := state_config_default |}
        end
  end.


(** ** The iterative verifier of [verify.rs] *)

Definition MAX_PROOF_DEPTH : nat := 64.
Definition LEAF_DOMAIN : u8 := 0.
Definition EXTENSION_DOMAIN : u8 := 1.
Definition BRANCH_DOMAIN : u8 := 2.

Inductive VerifyError :=
| ProofTooDeep (depth max : nat)
| EmptyProof
| PathMismatch
| InvalidNode
| HashMismatch
| UnexpectedNodeType.

Inductive ProofNode :=
| PLeaf (path value : list u8)
| PExtension (path : list u8) (child_hash : Hash)
| PBranch (children : list (option Hash)) (value : option (list u8)).

Definition decode_proof_node (bytes : list u8) : result VerifyError ProofNode :=
  match bytes with
  | [] => Err InvalidNode
  | tag :: rest =>
      if tag =? 0 then
        match rest with
        | len :: rest' =>
            if ((length bytes <? 3)%nat || (length bytes <? 2 + Z.to_nat len)%nat)%bool
            then Err InvalidNode
            else Ok (PLeaf (take (Z.to_nat len) rest') (drop (Z.to_nat len) rest'))
        | [] => Err InvalidNode
        end
      else if tag =? 1 then
        match rest with
        | len :: rest' =>
            if ((length bytes <? 35)%nat || (length bytes <? 2 + Z.to_nat len + 32)%nat)%bool
            then Err InvalidNode
            else Ok (PExtension (take (Z.to_nat len) rest')
                       (from_be_bytes (take 32 (drop (Z.to_nat len) rest'))))
        | [] => Err InvalidNode
        end
      else if tag =? 2 then Ok (PBranch (replicate 16 None) None)
      else Err UnexpectedNodeType
  end.

Definition hash_with_domain (domain : u8) (bytes : list u8) : Hash := keccak256 (domain :: bytes).

Definition serialize_account (a : AccountState) : list u8 :=
  le_bytes 16 (balance a) ++ le_bytes 8 (nonce a) ++ hash_bytes (code_hash a)
  ++ hash_bytes (storage_root a).

(** The [for] loop of [verify_proof_iterative]; [first] is [i = 0]. *)
Fixpoint verify_loop (key : list u8) (expected : option AccountState) (first : bool)
  (hash : Hash) (idx : nat) (l : list (list u8)) : result VerifyError bool :=
  match l with
  | [] => Err InvalidNode
  | node_bytes :: l =>
      let? node := decode_proof_node node_bytes in
      match node with
      | PLeaf path value =>
          if negb (bool_decide (path = drop idx key)) then Err PathMismatch
          else if (negb first && negb (hash_with_domain LEAF_DOMAIN node_bytes =? hash))%bool
          then Err HashMismatch
          else match expected with
               | Some a => Ok (bool_decide (value = serialize_account a))
               | None => Ok true
               end
      | PExtension path child_hash =>
          if (length key <? idx + length path)%nat then Err PathMismatch
          else if negb (bool_decide (path = take (length path) (drop idx key))) then Err PathMismatch
          else if (negb first && negb (hash_with_domain EXTENSION_DOMAIN node_bytes =? hash))%bool
          then Err HashMismatch
          else verify_loop key expected false child_hash (idx + length path) l
      | PBranch children _ =>
          match key !! idx with
          | None => Err PathMismatch
          | Some next_nibble =>
              if (negb first && negb (hash_with_domain BRANCH_DOMAIN node_bytes =? hash))%bool
              then Err HashMismatch
              else
                match children !! Z.to_nat next_nibble with
                | Some (Some child) => verify_loop key expected false child (S idx) l
                | _ => Err PathMismatch
                end
          end
      end
  end.

Definition verify_proof_iterative (proof : StateProof) (expected : option AccountState)
  : result VerifyError bool :=
  if (MAX_PROOF_DEPTH <? length (sp_proof_nodes proof))%nat
  then Err (ProofTooDeep (length (sp_proof_nodes proof)) MAX_PROOF_DEPTH)
  else
    match sp_proof_nodes proof with
    | [] => Err EmptyProof
    | l => verify_loop (from_bytes (address_bytes (sp_address proof))) expected true
             (sp_state_root proof) 0 l
    end.

End trie.
