(* ===== verification/StateFacts.v ===== *)
(** * State management: paths and tries

    Nibble paths are the bytes in halves, the hex-prefix encoding can be decoded,
    and the trie built from a set of keys of one length answers every path with
    what the keys say. *)

From S2P Require Import Prelude StateTrie.
Local Open Scope Z_scope.

(** ** Nibbles *)

Abbreviation nibble x := (0 <= x < 16).

Lemma pack_byte a b : nibble a -> nibble b ->
  Z.shiftr (Z.lor (Z.shiftl a 4) b) 4 = a /\ Z.land (Z.lor (Z.shiftl a 4) b) 15 = b.
Proof.
  intros Ha Hb. change 15 with (Z.ones 4). rewrite Z.shiftr_lor, Z.land_lor_distr_l, !Z.land_ones by lia.
  rewrite Z.shiftr_shiftl_l, Z.shiftl_mul_pow2, (Z.shiftr_div_pow2 b), (Z.div_small b) by lia.
  rewrite Z.shiftl_mul_pow2, Z.mod_mul, (Z.mod_small b) by lia.
  rewrite Z.lor_0_r, Z.lor_0_l. change (2 ^ (4 - 4)) with 1. lia.
Qed.

Lemma from_bytes_cons x l : from_bytes (x :: l) = Z.shiftr x 4 :: Z.land x 15 :: from_bytes l.
Proof. done. Qed.

Lemma length_from_bytes l : length (from_bytes l) = (2 * length l)%nat.
Proof. induction l as [|x l IH]; [done|]. rewrite from_bytes_cons. simpl. lia. Qed.

Lemma from_bytes_nibbles l : Forall (in_width 8) l -> Forall (fun x => nibble x) (from_bytes l).
Proof.
  induction 1 as [|x l [H0 H1] _ IH]; [constructor|]. rewrite from_bytes_cons.
  change 15 with (Z.ones 4). rewrite Z.land_ones, Z.shiftr_div_pow2 by lia.
  change (2 ^ 8) with 256 in H1. change (2 ^ 4) with 16.
  repeat constructor; [apply Z.div_pos; lia|apply Z.div_lt_upper_bound; lia|..|done];
    apply Z.mod_pos_bound; lia.
Qed.

Lemma from_bytes_inj l1 : forall l2, Forall (in_width 8) l1 -> Forall (in_width 8) l2 ->
  from_bytes l1 = from_bytes l2 -> l1 = l2.
Proof.
  induction l1 as [|x l1 IH]; intros [|y l2] H1 H2; try done.
  rewrite !from_bytes_cons. intros [= Hs Hl Heq].
  apply Forall_cons in H1 as [Hx H1]. apply Forall_cons in H2 as [Hy H2].
  f_equal; [|by apply IH]. change 15 with (Z.ones 4) in Hl.
  rewrite !Z.land_ones in Hl by lia. rewrite !Z.shiftr_div_pow2 in Hs by lia.
  rewrite (Z.div_mod x (2 ^ 4)), (Z.div_mod y (2 ^ 4)) by lia. by rewrite Hs, Hl.
Qed.

Lemma unpack_pack l : Forall (fun x => nibble x) l -> Nat.even (length l) = true ->
  from_bytes (pack l) = l.
Proof.
  remember (length l) as n eqn:Hn. revert l Hn.
  induction n as [n IH] using lt_wf_ind. intros [|a [|b l]] -> Hl He; [done|done|].
  apply Forall_cons in Hl as [Ha Hl]. apply Forall_cons in Hl as [Hb Hl].
  simpl. rewrite from_bytes_cons. destruct (pack_byte a b Ha Hb) as [-> ->].
  do 2 f_equal. apply (IH (length l)); simpl; [lia|done|done|done].
Qed.

(** The first byte of the encoding: flag [p] and a nibble. *)
Lemma decode_hex_prefix_cons p x rest : 0 <= p < 4 -> nibble x ->
  decode_hex_prefix (Z.lor (Z.shiftl p 4) x :: rest)
  = ((if p mod 2 =? 1 then [x] else []) ++ from_bytes rest, 2 <=? p).
Proof.
  intros Hp Hx. unfold decode_hex_prefix. by destruct (pack_byte p x ltac:(lia) Hx) as [-> ->].
Qed.

Lemma decode_encode_hex_prefix k is_leaf : Forall (fun x => nibble x) k ->
  decode_hex_prefix (encode_hex_prefix k is_leaf) = (k, is_leaf).
Proof.
  intros Hk. unfold encode_hex_prefix. destruct (Nat.odd (length k)) eqn:Ho.
  - destruct k as [|x k]; [done|]. change (length (x :: k)) with (S (length k)) in Ho.
    apply Forall_cons in Hk as [Hx Hk].
    rewrite decode_hex_prefix_cons by (destruct is_leaf; lia).
    rewrite unpack_pack; [|done|by rewrite Nat.odd_succ in Ho].
    by destruct is_leaf.
  - assert (He : Nat.even (length k) = true) by (unfold Nat.odd in Ho; by destruct (Nat.even _)).
    rewrite <-(Z.lor_0_r (Z.shiftl _ 4)), decode_hex_prefix_cons by (destruct is_leaf; lia).
    rewrite unpack_pack by done. by destruct is_leaf.
Qed.

(** ** Prefixes *)

Lemma common_prefix_len_spec a : forall b n, (n <= common_prefix_len a b)%nat <->
  (n <= length a)%nat /\ (n <= length b)%nat /\ take n a = take n b.
Proof.
  induction a as [|x a IH]; intros [|y b] n; simpl; try (destruct n; simpl; intuition (done || lia)).
  destruct n as [|n]; [simpl; intuition lia|]. destruct (x =? y) eqn:E; bools.
  - subst. rewrite <-(Nat.succ_le_mono n), IH. simpl. intuition (lia || congruence).
  - simpl. split; [lia|]. intros (_ & _ & [=]). done.
Qed.

Lemma foldl_min_le l : forall n k, (k <= foldl Nat.min n l)%nat <->
  (k <= n)%nat /\ Forall (fun x => (k <= x)%nat) l.
Proof.
  induction l as [|x l IH]; intros n k; simpl; [by rewrite Forall_nil; intuition|].
  rewrite IH, Forall_cons. intuition lia.
Qed.

(** ** The reference verifier

    What the nodes of a proof establish about a key, by following the hashes from
    the root: [Some (Some v)] that its value is [v], [Some None] that it is
    absent, [None] nothing. *)
Fixpoint check_path (keccak256 : list u8 -> Hash) (hash : Hash) (key : Nibbles) (depth : nat)
  (path : list TrieNode) : option (option (list u8)) :=
  match path with
  | [] => if hash =? EMPTY_TRIE_ROOT then Some None else None
  | node :: rest =>
      if negb (node_hash keccak256 node =? hash) then None
      else
        match node with
        | EmptyNode => None
        | Leaf p v =>
            match rest with
            | [] => Some (if decide (p = drop depth key) then Some v else None)
            | _ => None
            end
        | Extension p child =>
            if decide (p `prefix_of` drop depth key)
            then check_path keccak256 child key (depth + length p) rest
            else match rest with [] => Some None | _ => None end
        | Branch children v =>
            match key !! depth with
            | None => match rest with [] => Some v | _ => None end
            | Some x =>
                match children !! Z.to_nat x with
                | Some (Some child) => check_path keccak256 child key (S depth) rest
                | _ => match rest with [] => Some None | _ => None end
                end
            end
        end
  end.

(** ** The trie of a set of keys *)

Definition item_map (items : list (Nibbles * list u8)) : gmap (list Z) (list u8) :=
  list_to_map items.

Section build.
Context (keccak256 : list u8 -> Hash) (N : nat).

Record items_ok (items : list (Nibbles * list u8)) (depth : nat) : Prop := {
  io_length : Forall (fun e => length e.1 = N) items;
  io_nodup : NoDup items.*1;
  io_share e1 e2 : e1 ∈ items -> e2 ∈ items -> take depth e1.1 = take depth e2.1;
  io_depth : (depth <= N)%nat
}.

Lemma item_map_Some items k v : NoDup items.*1 -> item_map items !! k = Some v <-> (k, v) ∈ items.
Proof. intros Hnd. unfold item_map. symmetry. by apply elem_of_list_to_map. Qed.

(** At least two keys: they end after [depth]. *)
Lemma items_depth_lt e1 e2 items depth : items_ok (e1 :: e2 :: items) depth -> (depth < N)%nat.
Proof.
  intros [Hl Hnd Hs Hd]. destruct (decide (depth = N)) as [->|]; [|lia]. exfalso.
  apply Forall_cons in Hl as [H1 Hl]. apply Forall_cons in Hl as [H2 _].
  assert (E : e1.1 = e2.1).
  { rewrite <-(take_ge e1.1 N), <-(take_ge e2.1 N) by lia. apply Hs; set_solver. }
  simpl in Hnd. apply NoDup_cons in Hnd as [Hn _]. apply Hn. rewrite E. left.
Qed.

Lemma slice_ok k n : (n <= length k)%nat -> slice k n = Some (drop n k).
Proof. intros H. unfold slice. by rewrite (proj2 (Nat.leb_le _ _) H). Qed.

Lemma slice_range_ok k i j : (i <= j)%nat -> (j <= length k)%nat ->
  slice_range k i j = Some (take (j - i) (drop i k)).
Proof.
  intros H1 H2. unfold slice_range.
  by rewrite (proj2 (Nat.leb_le _ _) H1), (proj2 (Nat.leb_le _ _) H2).
Qed.

Lemma mapM_slices items depth first : Forall (fun e => (depth <= length e.1)%nat) items ->
  mapM (fun e : Nibbles * list u8 => k ← slice e.1 depth; Some (common_prefix_len k first)) items
  = Some ((fun e => common_prefix_len (drop depth e.1) first) <$> items).
Proof.
  induction 1 as [|e items He _ IH]; [done|]. simpl. rewrite slice_ok by done. simpl.
  by rewrite IH.
Qed.

Lemma take_add_eq (a b : list Z) n m : take n a = take n b -> take m (drop n a) = take m (drop n b) ->
  take (n + m) a = take (n + m) b.
Proof. intros H1 H2. rewrite <-!take_take_drop. by rewrite H1, H2. Qed.

(** Two or more keys: the common length is in bounds and shared. *)
Lemma common_len_ok e1 e2 items depth :
  let all := e1 :: e2 :: items in
  items_ok all depth ->
  exists c, common_len all depth = Some c /\ (depth + c <= N)%nat
    /\ (forall x y, x ∈ all -> y ∈ all -> take (depth + c) x.1 = take (depth + c) y.1).
Proof.
  intros all Hok. destruct (Hok) as [Hl Hnd Hs Hd]. unfold common_len.
  destruct e1 as [k1 v1]. simpl. apply Forall_cons in Hl as [H1 Hl]. simpl in H1.
  rewrite (slice_ok k1) by lia. simpl.
  assert (Hl' : Forall (fun e => (depth <= length e.1)%nat) (e2 :: items))
    by (eapply Forall_impl; [exact Hl|]; simpl; lia).
  pose proof (mapM_slices (e2 :: items) depth (drop depth k1) Hl') as Hm. simpl in Hm.
  rewrite Hm. simpl. eexists. split; [done|].
  set (c := foldl Nat.min _ _).
  assert (Hc : Forall (fun e => (c <= common_prefix_len (drop depth e.1) (drop depth k1))%nat)
    (e2 :: items)).
  { pose proof (proj1 (foldl_min_le _ _ c) (Nat.le_refl c)) as [Ha Hb].
    constructor; [exact Ha|]. by rewrite Forall_fmap in Hb. }
  assert (Hshare : forall x, x ∈ all -> take (depth + c) x.1 = take (depth + c) k1).
  { intros x [->|Hx]%elem_of_cons; [done|]. apply take_add_eq.
    - apply (Hs x (k1, v1)); [by right|left].
    - by apply common_prefix_len_spec, (proj1 (Forall_forall _ _) Hc). }
  split; [|intros x y Hx Hy; by rewrite (Hshare x Hx), (Hshare y Hy)].
  apply Forall_cons in Hc as [Hc _]. apply common_prefix_len_spec in Hc as (_ & Hc & _).
  rewrite length_drop in Hc. lia.
Qed.

Lemma group_ok items depth x : items_ok items depth -> (depth < N)%nat ->
  items_ok (nibble_group items depth x) (S depth).
Proof.
  intros [Hl Hnd Hs Hd] Hlt. unfold nibble_group. split.
  - apply Forall_forall. intros e [_ He]%list_elem_of_filter. by apply (proj1 (Forall_forall _ _) Hl).
  - eapply sublist_NoDup; [exact Hnd|]. apply fmap_sublist, sublist_filter.
  - intros e1 e2 [H1 Hin1]%list_elem_of_filter [H2 Hin2]%list_elem_of_filter.
    rewrite (take_S_r e1.1 depth x H1), (take_S_r e2.1 depth x H2). by rewrite (Hs e1 e2).
  - lia.
Qed.

(** The answers of a subtree: every key with the prefix of the items is answered
    with its value. *)
Definition good (F : gmap Hash TrieNode) (items : list (Nibbles * list u8)) (depth : nat)
  (h : Hash) : Prop :=
  forall key fuel, length key = N -> Forall (fun x => nibble x) key ->
    (forall e, e ∈ items -> take depth e.1 = take depth key) -> (N - depth + 2 <= fuel)%nat ->
    exists path, proof_loop fuel F key h depth = Ok path
      /\ check_path keccak256 h key depth path = Some (item_map items !! key).

(** The nodes [L] are found under their hashes. *)
Definition kept (F : gmap Hash TrieNode) (L : list TrieNode) : Prop :=
  forall n, n ∈ L -> F !! node_hash keccak256 n = Some n /\ node_hash keccak256 n <> EMPTY_TRIE_ROOT.

Lemma kept_app F L1 L2 : kept F (L1 ++ L2) -> kept F L1 /\ kept F L2.
Proof. intros H. split; intros n Hn; apply H; apply elem_of_app; auto. Qed.

(** One step of the walk through a kept node. *)
Lemma proof_loop_step F n fuel key depth : kept F [n] ->
  proof_loop (S fuel) F key (node_hash keccak256 n) depth
  = match process_for_proof n key depth with
    | None => Ok [n]
    | Some (h, d) => rbind (proof_loop fuel F key h d) (fun rest => Ok (n :: rest))
    end.
Proof.
  intros Hk. destruct (Hk n) as [Hn Hne]; [left|]. cbn [proof_loop].
  rewrite (proj2 (Z.eqb_neq _ _) Hne), Hn. by destruct (process_for_proof n key depth) as [[h d]|].
Qed.

Lemma check_path_node n rest key depth :
  check_path keccak256 (node_hash keccak256 n) key depth (n :: rest)
  = match n with
    | EmptyNode => None
    | Leaf p v => match rest with
                  | [] => Some (if decide (p = drop depth key) then Some v else None)
                  | _ => None end
    | Extension p child =>
        if decide (p `prefix_of` drop depth key)
        then check_path keccak256 child key (depth + length p) rest
        else match rest with [] => Some None | _ => None end
    | Branch children v =>
        match key !! depth with
        | None => match rest with [] => Some v | _ => None end
        | Some x =>
            match children !! Z.to_nat x with
            | Some (Some child) => check_path keccak256 child key (S depth) rest
            | _ => match rest with [] => Some None | _ => None end
            end
        end
    end.
Proof. simpl. by rewrite Z.eqb_refl. Qed.

Lemma good_empty F depth : good F [] depth EMPTY_TRIE_ROOT.
Proof. intros key [|fuel] _ _ _ Hf; [lia|]. by exists []. Qed.

Lemma good_leaf F key value depth : length key = N ->
  kept F [Leaf (drop depth key) value] ->
  good F [(key, value)] depth (node_hash keccak256 (Leaf (drop depth key) value)).
Proof.
  intros Hlen Hk k fuel Hl Hn Hp Hf. destruct fuel as [|fuel]; [lia|].
  eexists. rewrite proof_loop_step by done. split; [done|].
  rewrite check_path_node. f_equal. unfold item_map. simpl.
  specialize (Hp (key, value) ltac:(left)). simpl in Hp.
  case_decide as E.
  - rewrite <-(take_drop depth key), Hp, E, take_drop. symmetry. apply lookup_insert_eq.
  - rewrite lookup_insert_ne; [done|]. intros ->. done.
Qed.

Lemma prefix_take (a b : list Z) n : (n <= length a)%nat ->
  take n a `prefix_of` b <-> take n b = take n a.
Proof.
  intros Hn. split.
  - intros [l ->]. rewrite take_app_le by (rewrite length_take; lia). by rewrite take_take, Nat.min_id.
  - intros <-. apply prefix_take.
Qed.

Lemma take_add_inv (a b : list Z) n m : take (n + m) a = take (n + m) b ->
  take m (drop n a) = take m (drop n b).
Proof. intros H. by rewrite !take_drop_commute, H. Qed.

Lemma good_extension F items depth c k1 v1 child :
  items_ok items (depth + c) -> (0 < c)%nat -> (k1, v1) ∈ items ->
  good F items (depth + c) child ->
  kept F [Extension (take c (drop depth k1)) child] ->
  good F items depth (node_hash keccak256 (Extension (take c (drop depth k1)) child)).
Proof.
  intros Hok Hc Hin Hg Hk key fuel Hl Hn Hp Hf. destruct fuel as [|fuel]; [lia|].
  pose proof (io_depth _ _ Hok) as Hd. rewrite proof_loop_step by done.
  assert (Hk1 : length k1 = N) by exact (proj1 (Forall_forall _ _) (io_length _ _ Hok) _ Hin).
  assert (Hlen : length (take c (drop depth k1)) = c) by (rewrite length_take, length_drop; lia).
  assert (Hiff : take c (drop depth k1) `prefix_of` drop depth key <->
    take c (drop depth key) = take c (drop depth k1)).
  { apply prefix_take. rewrite length_drop. lia. }
  unfold process_for_proof. rewrite Hlen.
  destruct (decide (take c (drop depth k1) `prefix_of` drop depth key)) as [Hpre|Hpre].
  - assert (Hshare : forall e, e ∈ items -> take (depth + c) e.1 = take (depth + c) key).
    { intros e He. rewrite (io_share _ _ Hok e (k1, v1) He Hin). simpl.
      apply take_add_eq; [by apply (Hp (k1, v1))|]. symmetry. by apply Hiff. }
    destruct (Hg key fuel Hl Hn Hshare) as (path & Hpath & Hcheck); [lia|].
    exists (Extension (take c (drop depth k1)) child :: path).
    rewrite Hpath, check_path_node, decide_True, Hlen by done. done.
  - eexists. split; [done|]. rewrite check_path_node, decide_False by done. f_equal. symmetry.
    apply eq_None_not_Some. intros [v Hv]. apply item_map_Some in Hv; [|apply Hok].
    apply Hpre, Hiff, take_add_inv, (io_share _ _ Hok (key, v) (k1, v1)); done.
Qed.

(** The children of a branch: one per nibble. *)
Definition good_children (F : gmap Hash TrieNode) (items : list (Nibbles * list u8)) (depth : nat)
  (nibbles : list Z) (children : list (option Hash)) : Prop :=
  Forall2 (fun x c => match c with
                      | None => nibble_group items depth x = []
                      | Some h => good F (nibble_group items depth x) (S depth) h
                      end) nibbles children.

Lemma good_branch F items depth children value :
  items_ok items depth -> (depth < N)%nat ->
  good_children F items depth (seqZ 0 16) children ->
  kept F [Branch children value] ->
  good F items depth (node_hash keccak256 (Branch children value)).
Proof.
  intros Hok Hd Hc Hk key fuel Hl Hn Hp Hf. destruct fuel as [|fuel]; [lia|].
  rewrite proof_loop_step by done.
  destruct (lookup_lt_is_Some_2 key depth) as [x Hx]; [lia|].
  pose proof (proj1 (Forall_lookup _ _) Hn depth x Hx) as Hxn. simpl in Hxn.
  assert (Hseq : seqZ 0 16 !! Z.to_nat x = Some x).
  { rewrite lookup_seqZ_lt by lia. f_equal. lia. }
  destruct (Forall2_lookup_l _ _ _ _ _ Hc Hseq) as (c & Hci & Hcx).
  assert (Hgroup : forall v, (key, v) ∈ items <-> (key, v) ∈ nibble_group items depth x).
  { intros v. unfold nibble_group. rewrite list_elem_of_filter. simpl. intuition. }
  assert (Hmap : item_map items !! key = item_map (nibble_group items depth x) !! key).
  { apply option_eq. intros v. rewrite !item_map_Some; [apply Hgroup|..|apply Hok].
    apply (group_ok items depth x Hok Hd). }
  unfold process_for_proof. rewrite Hx, Hci.
  destruct c as [h|].
  - destruct (Hcx key fuel Hl Hn) as (path & Hpath & Hcheck); [|lia|].
    { intros e [He Hin]%list_elem_of_filter.
      rewrite (take_S_r e.1 depth x He), (take_S_r key depth x Hx). by rewrite (Hp e Hin). }
    exists (Branch children value :: path).
    rewrite Hpath, check_path_node, Hx, Hci, Hmap. done.
  - eexists. split; [done|]. rewrite check_path_node, Hx, Hci, Hmap, Hcx. done.
Qed.

(** What [build_node_in] does with [fuel]: it inserts nodes [L] that do not
    depend on the store, and with all of them kept its answers are right. *)
Definition builds (fuel : nat) (items : list (Nibbles * list u8)) (depth : nat) : Prop :=
  exists L h,
    (forall S (insert : S -> TrieNode -> S) m,
       build_node_in keccak256 insert fuel m items depth = Some (foldl insert m L, h))
    /\ forall F, kept F L -> good F items depth h.

Lemma groups_build fuel items depth nibbles :
  (forall x, x ∈ nibbles -> builds fuel (nibble_group items depth x) (S depth)) ->
  exists L children,
    (forall S (insert : S -> TrieNode -> S) m,
       build_groups (fun m g => build_node_in keccak256 insert fuel m g (Datatypes.S depth))
         items depth m nibbles = Some (foldl insert m L, children))
    /\ forall F, kept F L -> good_children F items depth nibbles children.
Proof.
  induction nibbles as [|x nibbles IH]; intros Hb.
  { exists [], []. split; [done|]. constructor. }
  destruct IH as (L2 & children & Hbuild & Hgood); [intros y Hy; apply Hb; by right|].
  destruct (Hb x) as (L1 & h & Hx & Hgx); [left|].
  destruct (nibble_group items depth x) as [|e g] eqn:Eg.
  - exists L2, (None :: children). split.
    + intros S ins m. cbn [build_groups]. rewrite Eg, Hbuild. done.
    + intros F HF. constructor; [done|by apply Hgood].
  - exists (L1 ++ L2), (Some h :: children). split.
    + intros S ins m. cbn [build_groups]. rewrite Eg. simpl. rewrite Hx. simpl.
      rewrite Hbuild. simpl. by rewrite foldl_app.
    + intros F [H1 H2]%kept_app. constructor; [rewrite Eg; by apply Hgx|by apply Hgood].
Qed.

Lemma build_node_builds fuel : forall items depth, items_ok items depth ->
  (N - depth + 2 <= fuel)%nat -> builds fuel items depth.
Proof.
  induction fuel as [|fuel IH]; intros items depth Hok Hf; [lia|].
  destruct items as [|[k1 v1] [|e2 items]].
  - exists [], EMPTY_TRIE_ROOT. split; [done|]. intros F _. apply good_empty.
  - pose proof (Forall_inv (io_length _ _ Hok)) as Hl. simpl in Hl.
    exists [Leaf (drop depth k1) v1], (node_hash keccak256 (Leaf (drop depth k1) v1)). split.
    + intros S ins m. cbn [build_node_in]. rewrite slice_ok by (pose proof (io_depth _ _ Hok); lia). done.
    + intros F HF. by apply good_leaf.
  - pose proof (items_depth_lt _ _ _ _ Hok) as Hlt.
    destruct (common_len_ok _ _ _ _ Hok) as (c & Hc & Hcd & Hshare).
    set (all := (k1, v1) :: e2 :: items) in *.
    assert (Hl : length k1 = N) by exact (Forall_inv (io_length _ _ Hok)).
    destruct (decide (0 < c)%nat) as [Hpos|Hzero].
    + assert (Hok' : items_ok all (depth + c)) by (destruct Hok; by split).
      destruct (IH all (depth + c)%nat Hok') as (L & h & Hb & Hg); [lia|].
      exists (L ++ [Extension (take c (drop depth k1)) h]),
        (node_hash keccak256 (Extension (take c (drop depth k1)) h)). split.
      * intros S ins m. subst all. cbn [build_node_in]. rewrite Hc. cbn [mbind option_bind].
        rewrite (proj2 (Nat.ltb_lt _ _) Hpos), slice_range_ok by lia. cbn [mbind option_bind].
        rewrite Hb. cbn [mbind option_bind]. rewrite foldl_app. by replace (depth + c - depth)%nat with c by lia.
      * intros F [H1 H2]%kept_app. eapply good_extension; [done|done|left|by apply Hg|done].
    + replace c with O in * by lia.
      destruct (groups_build fuel all depth (seqZ 0 16)) as (L & children & Hb & Hg).
      { intros x _. apply IH; [by apply group_ok|lia]. }
      exists (L ++ [Branch children (terminal_value all depth)]),
        (node_hash keccak256 (Branch children (terminal_value all depth))). split.
      * intros S ins m. subst all. cbn [build_node_in]. rewrite Hc. cbn [mbind option_bind Nat.ltb Nat.leb].
        rewrite Hb. cbn [mbind option_bind]. rewrite foldl_app. done.
      * intros F [H1 H2]%kept_app. apply good_branch; [done|done|by apply Hg|done].
Qed.
End build.

(** * State management: what the operations keep

    Every reachable trie is the one rebuilt from its accounts, and the slot
    counters are the numbers of stored slots, within the limit. *)


Local Open Scope Z_scope.

#[global] Arguments build_node : simpl never.
#[global] Arguments build_node_in : simpl never.
#[global] Arguments rebuild_trie : simpl never.
#[global] Arguments proof_loop : simpl never.

Lemma proof_loop_empty m key : proof_loop trie_fuel m key EMPTY_TRIE_ROOT 0 = Ok [].
Proof. done. Qed.

Lemma trie_fuel_enough : (64 - 0 + 2 <= trie_fuel)%nat.
Proof. unfold trie_fuel. lia. Qed.

#[local] Opaque build_node_in proof_loop trie_fuel.

(** ** The order of the items *)

#[export] Instance item_le_trans : Transitive item_le.
Proof.
  intros [a ?] [b ?] [c ?]. unfold item_le. simpl.
  revert b c. induction a as [|x a IH]; intros [|y b] [|z c]; simpl; try done.
  destruct (x <? y) eqn:E1, (y <? x) eqn:E2, (y <? z) eqn:E3, (z <? y) eqn:E4,
    (x <? z) eqn:E5, (z <? x) eqn:E6; bools; try done; try lia. apply IH.
Qed.

#[export] Instance item_le_total : Total item_le.
Proof.
  intros [a ?] [b ?]. unfold item_le. simpl.
  revert b. induction a as [|x a IH]; intros [|y b]; simpl; [by left|by left|by right|].
  destruct (x <? y) eqn:E1, (y <? x) eqn:E2; bools; try lia; auto.
Qed.

Lemma lex_leb_antisym a : forall b, lex_leb a b = true -> lex_leb b a = true -> a = b.
Proof.
  induction a as [|x a IH]; intros [|y b]; simpl; try done.
  destruct (x <? y) eqn:E1, (y <? x) eqn:E2; bools; try done; try lia.
  intros H1 H2. f_equal; [lia|by apply IH].
Qed.

(** Items with different keys have one sorted order. *)
Lemma sort_items_unique l1 l2 : NoDup l1.*1 -> l1 ≡ₚ l2 ->
  stable_sort item_le l1 = stable_sort item_le l2.
Proof.
  intros Hnd Hp. eapply StronglySorted_unique_strong;
    [|apply stable_sort_sorted; apply _|apply stable_sort_sorted; apply _|].
  - intros x y Hx Hy H1 H2. rewrite (stable_sort_perm item_le) in Hx.
    rewrite (stable_sort_perm item_le), <-Hp in Hy.
    pose proof (lex_leb_antisym _ _ H1 H2) as E.
    destruct x as [kx vx], y as [ky vy]. simpl in E. subst ky. f_equal.
    apply (item_map_Some l1 kx vx Hnd) in Hx. apply (item_map_Some l1 kx vy Hnd) in Hy. congruence.
  - by rewrite !(stable_sort_perm item_le).
Qed.

Section inv.
Context (keccak256 : list u8 -> Hash).
(** Keccak-256 gives 32 bytes and does not collide on two addresses. *)
Context (Hwidth : forall l, in_width 256 (keccak256 l)).
Context (Haddr : forall a b, in_width 160 a -> in_width 160 b ->
  keccak256 (address_bytes a) = keccak256 (address_bytes b) -> a = b).

Lemma account_key_inj a b : in_width 160 a -> in_width 160 b ->
  account_key keccak256 a = account_key keccak256 b -> a = b.
Proof.
  intros Ha Hb H. apply Haddr; [done|done|].
  apply hash_bytes_inj; [apply Hwidth..|].
  apply from_bytes_inj; [apply be_bytes_bytes..|done].
Qed.

Lemma account_key_nibbles a : length (account_key keccak256 a) = 64%nat
  /\ Forall (fun x => nibble x) (account_key keccak256 a).
Proof.
  unfold account_key. split; [by rewrite length_from_bytes, length_be_bytes|].
  apply from_bytes_nibbles, be_bytes_bytes.
Qed.

Abbreviation addresses_in_range m := (forall a, is_Some (m !! a) -> in_width 160 a).

(** The items of a list of accounts with different addresses. *)
Lemma trie_items_keys l : NoDup l.*1 -> (forall a, a ∈ l.*1 -> in_width 160 a) ->
  NoDup (trie_items keccak256 l).*1.
Proof.
  intros Hnd Hr. unfold trie_items. rewrite <-list_fmap_compose.
  change (fst ∘ _) with (account_key keccak256 ∘ @fst Address AccountState).
  rewrite list_fmap_compose. apply NoDup_fmap_2_strong; [|done].
  intros a b Ha Hb. apply account_key_inj; auto.
Qed.

Definition sorted_items (m : gmap Address AccountState) : list (Nibbles * list u8) :=
  stable_sort item_le (trie_items keccak256 (map_to_list m)).

Lemma map_addresses (m : gmap Address AccountState) : addresses_in_range m ->
  NoDup (map_to_list m).*1 /\ forall a, a ∈ (map_to_list m).*1 -> in_width 160 a.
Proof.
  intros Hr. split; [apply NoDup_fst_map_to_list|].
  intros a ([b s] & -> & Hin%elem_of_map_to_list)%list_elem_of_fmap. apply Hr. by eexists.
Qed.

Lemma sorted_items_ok m : addresses_in_range m -> items_ok 64 (sorted_items m) 0.
Proof.
  intros Hr. destruct (map_addresses m Hr) as [Hnd Hin]. unfold sorted_items. split.
  - rewrite (stable_sort_perm item_le). unfold trie_items. rewrite Forall_fmap.
    apply Forall_true. intros e. simpl. apply account_key_nibbles.
  - rewrite (stable_sort_perm item_le). by apply trie_items_keys.
  - by intros e1 e2 _ _.
  - lia.
Qed.

(** The value of an address's key among the items. *)
Lemma sorted_items_value m a : addresses_in_range m -> in_width 160 a ->
  item_map (sorted_items m) !! account_key keccak256 a = account_rlp_encode <$> m !! a.
Proof.
  intros Hr Ha. pose proof (io_nodup _ _ _ (sorted_items_ok m Hr)) as Hnd.
  apply option_eq. intros v. rewrite item_map_Some by done. unfold sorted_items, trie_items.
  rewrite (stable_sort_perm item_le), list_elem_of_fmap, fmap_Some. split.
  - intros ([b s] & [Hk Hv]%pair_eq & Hin%elem_of_map_to_list). exists s. simpl in Hk, Hv.
    apply account_key_inj in Hk as ->; [done|done|]. apply Hr. by eexists.
  - intros (s & Hs & ->). exists (a, s). by rewrite elem_of_map_to_list.
Qed.

(** ** Rebuilding *)

(** The nodes a rebuild creates, in order. *)
Definition created (m : gmap Address AccountState) : list TrieNode :=
  match build_node_in keccak256 (fun l n => l ++ [n]) trie_fuel [] (sorted_items m) 0 with
  | Some (l, _) => l
  | None => []
  end.

Lemma foldl_snoc {A} (L : list A) : forall l, foldl (fun l n => l ++ [n]) l L = l ++ L.
Proof.
  induction L as [|x L IH]; intros l; simpl; [by rewrite app_nil_r|].
  by rewrite IH, <-app_assoc.
Qed.

Lemma build_sorted_items m : addresses_in_range m -> exists h,
  build_node keccak256 trie_fuel {[ EMPTY_TRIE_ROOT := EmptyNode ]} (sorted_items m) 0
  = Some (foldl (insert_node keccak256) {[ EMPTY_TRIE_ROOT := EmptyNode ]} (created m), h)
  /\ forall F, kept keccak256 F (created m) -> good keccak256 64 F (sorted_items m) 0 h.
Proof.
  intros Hr. destruct (build_node_builds keccak256 64 trie_fuel (sorted_items m) 0)
    as (L & h & Hb & Hg); [by apply sorted_items_ok|apply trie_fuel_enough|].
  exists h. unfold created. rewrite Hb, foldl_snoc, app_nil_l. split; [exact (Hb _ _ _)|exact Hg].
Qed.

(** The trie is the one its accounts give. *)
Definition built (t : PatriciaMerkleTrie) : Prop := rebuild_trie keccak256 t = Ok t.

Lemma rebuild_ok t : addresses_in_range (accounts t) -> exists t',
  rebuild_trie keccak256 t = Ok t' /\ built t' /\ accounts t' = accounts t
  /\ storage t' = storage t /\ storage_counts t' = storage_counts t /\ config t' = config t.
Proof.
  intros Hr. unfold built, rebuild_trie. destruct (size (accounts t) =? 0)%nat eqn:E.
  - eexists. split; [done|]. simpl. by rewrite E.
  - destruct (build_sorted_items (accounts t) Hr) as (h & Hb & _). fold (sorted_items (accounts t)).
    rewrite Hb. eexists. split; [done|]. simpl. rewrite E. fold (sorted_items (accounts t)).
    by rewrite Hb.
Qed.

(** Only the accounts matter. *)
Lemma built_ext t t' : built t -> accounts t' = accounts t -> nodes t' = nodes t ->
  root t' = root t -> built t'.
Proof.
  unfold built, rebuild_trie. intros Hb Ea En Er. rewrite Ea.
  destruct (size (accounts t) =? 0)%nat; [|destruct (build_node _ _ _ _ _) as [[m r]|]; [|done]];
    injection Hb as Hb; apply (f_equal nodes) in Hb as Hn; apply (f_equal root) in Hb as Hr;
    simpl in Hn, Hr; destruct t'; simpl in *; congruence.
Qed.

(** ** The operations *)

Inductive TrieOp :=
| OpInsertAccount (address : Address) (state : AccountState)
| OpSetBalance (address : Address) (b : u128)
| OpIncrementNonce (address : Address)
| OpBalanceChange (address : Address) (delta : Z)
| OpNonceIncrement (address : Address) (expected : u64)
| OpSetStorage (contract : Address) (key value : Hash)
| OpDeleteStorage (contract : Address) (key : Hash).

Definition op_address (op : TrieOp) : Address :=
  match op with
  | OpInsertAccount a _ | OpSetBalance a _ | OpIncrementNonce a | OpBalanceChange a _
  | OpNonceIncrement a _ | OpSetStorage a _ _ | OpDeleteStorage a _ => a
  end.

Definition run_op (t : PatriciaMerkleTrie) (op : TrieOp)
  : PatriciaMerkleTrie * result StateError unit :=
  match op with
  | OpInsertAccount a s => insert_account keccak256 t a s
  | OpSetBalance a b => set_balance keccak256 t a b
  | OpIncrementNonce a => increment_nonce keccak256 t a
  | OpBalanceChange a d => apply_balance_change keccak256 t a d
  | OpNonceIncrement a n => apply_nonce_increment keccak256 t a n
  | OpSetStorage a k v => set_storage keccak256 t a k v
  | OpDeleteStorage a k => delete_storage keccak256 t a k
  end.

(** The slots of a contract. *)
Definition slots (s : gmap (Address * Hash) Hash) (contract : Address)
  : gmap (Address * Hash) Hash := base.filter (fun e => e.1.1 = contract) s.

Definition slot_count (t : PatriciaMerkleTrie) (c : Address) : nat :=
  default O (storage_counts t !! c).

Record trie_inv (t : PatriciaMerkleTrie) : Prop := {
  ti_built : built t;
  ti_range : addresses_in_range (accounts t);
  ti_counts c : slot_count t c = size (slots (storage t) c);
  ti_limit c : (slot_count t c <= max_storage_slots_per_contract (config t))%nat
}.

Lemma new_inv c : trie_inv (with_config c).
Proof.
  split.
  - done.
  - by intros a [s Hs].
  - intros c'. unfold slots. simpl. rewrite map_filter_empty. done.
  - intros c'. apply Nat.le_0_l.
Qed.

(** A change of the maps followed by a rebuild. *)
Lemma rebuilt_inv t : addresses_in_range (accounts t) ->
  (forall c, slot_count t c = size (slots (storage t) c)) ->
  (forall c, (slot_count t c <= max_storage_slots_per_contract (config t))%nat) ->
  trie_inv (rebuilt keccak256 t).1 /\ (rebuilt keccak256 t).2 = Ok tt
  /\ accounts (rebuilt keccak256 t).1 = accounts t /\ storage (rebuilt keccak256 t).1 = storage t
  /\ config (rebuilt keccak256 t).1 = config t.
Proof.
  intros Hr Hc Hl. unfold rebuilt.
  destruct (rebuild_ok t Hr) as (t' & Ht & Hb & E1 & E2 & E3 & E4). rewrite Ht. simpl.
  split_and!; try done. split; [done|by rewrite E1|..]; unfold slot_count in *; rewrite E3, ?E2, ?E4; done.
Qed.

(** A rebuild keeps the accounts, also when it fails. *)
Lemma rebuilt_accounts t :
  accounts (rebuilt keccak256 t).1 = accounts t /\ storage (rebuilt keccak256 t).1 = storage t.
Proof.
  unfold rebuilt, rebuild_trie. destruct (_ =? _)%nat; [done|].
  by destruct (build_node _ _ _ _ _) as [[]|].
Qed.

Lemma insert_in_range (m : gmap Address AccountState) a s :
  in_width 160 a -> addresses_in_range m -> addresses_in_range (<[a := s]> m).
Proof.
  intros Ha Hm b Hb. destruct (decide (b = a)) as [->|Hne]; [done|].
  rewrite lookup_insert_ne in Hb by done. by apply Hm.
Qed.

Lemma set_account_inv t a s : trie_inv t -> in_width 160 a ->
  let r := rebuilt keccak256 (set_accounts t (<[a := s]> (accounts t))) in
  trie_inv r.1 /\ r.2 = Ok tt /\ accounts r.1 = <[a := s]> (accounts t)
  /\ storage r.1 = storage t /\ config r.1 = config t.
Proof.
  intros [Hb Hr Hc Hl] Ha.
  exact (rebuilt_inv (set_accounts t (<[a := s]> (accounts t)))
    (insert_in_range _ a s Ha Hr) Hc Hl).
Qed.

(** ** Storage *)

Lemma slots_insert s c k v c' :
  size (slots (<[(c, k) := v]> s) c')
  = if decide (c' = c /\ s !! (c, k) = None) then S (size (slots s c')) else size (slots s c').
Proof.
  unfold slots. destruct (decide (c' = c)) as [->|Hne].
  - rewrite map_filter_insert_True by done.
    destruct (s !! (c, k)) as [w|] eqn:E.
    + rewrite decide_False by naive_solver.
      apply map_size_insert_Some. exists w. by apply map_lookup_filter_Some.
    + rewrite decide_True by done. apply map_size_insert_None.
      apply map_lookup_filter_None. by left.
  - rewrite decide_False by naive_solver. rewrite map_filter_insert_not; [done|].
    simpl. intros _ E. by symmetry in E.
Qed.

Lemma slots_delete s c k w c' : s !! (c, k) = Some w ->
  size (slots (delete (c, k) s) c')
  = if decide (c' = c) then (size (slots s c') - 1)%nat else size (slots s c').
Proof.
  intros Hk. unfold slots. rewrite map_filter_delete. case_decide as E.
  - subst. rewrite map_size_delete_Some; [lia|]. exists w. by apply map_lookup_filter_Some.
  - rewrite delete_id; [done|]. apply map_lookup_filter_None. right. simpl. congruence.
Qed.

Lemma refresh_in_range t c : addresses_in_range (accounts t) ->
  addresses_in_range (accounts (refresh_storage_root keccak256 t c)).
Proof.
  intros Hr. unfold refresh_storage_root. destruct (accounts t !! c) as [a|] eqn:E; [|done].
  apply insert_in_range; [|done]. apply Hr. by eexists.
Qed.

Lemma refresh_rest t c :
  storage (refresh_storage_root keccak256 t c) = storage t
  /\ storage_counts (refresh_storage_root keccak256 t c) = storage_counts t
  /\ config (refresh_storage_root keccak256 t c) = config t.
Proof. unfold refresh_storage_root. by destruct (accounts t !! c). Qed.

(** A change of the storage maps followed by a refresh and a rebuild. *)
Lemma storage_change_inv t s n c : trie_inv t ->
  (forall c, default O (n !! c) = size (slots s c)) ->
  (forall c, (default O (n !! c) <= max_storage_slots_per_contract (config t))%nat) ->
  let r := rebuilt keccak256 (refresh_storage_root keccak256 (set_storage_maps t s n) c) in
  trie_inv r.1 /\ r.2 = Ok tt /\ storage r.1 = s.
Proof.
  intros [Hb Hr _ _] Hc Hl.
  destruct (refresh_rest (set_storage_maps t s n) c) as (E1 & E2 & E3).
  destruct (rebuilt_inv (refresh_storage_root keccak256 (set_storage_maps t s n) c))
    as (H1 & H2 & _ & H4 & _).
  - by apply refresh_in_range.
  - intros c'. unfold slot_count. rewrite E2, E1. apply Hc.
  - intros c'. unfold slot_count. rewrite E2, E3. apply Hl.
  - split_and!; [done|done|]. by rewrite H4, E1.
Qed.

Lemma set_storage_inv t c k v : trie_inv t ->
  trie_inv (set_storage keccak256 t c k v).1
  /\ (set_storage keccak256 t c k v).2
     = (if (bool_decide (storage t !! (c, k) = None)
            && (max_storage_slots_per_contract (config t) <=? slot_count t c)%nat)%bool
        then Err (StorageLimitExceeded c) else Ok tt)
  /\ storage (set_storage keccak256 t c k v).1
     = (if is_ok (set_storage keccak256 t c k v).2
        then <[(c, k) := v]> (storage t) else storage t).
Proof.
  intros Hi. destruct (Hi) as [Hb Hr Hc Hl]. unfold set_storage. cbn [storage config set_storage_maps].
  fold (slot_count t c).
  assert (Hcount : forall n c', default O (<[c := n]> (storage_counts t) !! c')
    = if decide (c' = c) then n else slot_count t c').
  { intros n c'. case_decide as E; [subst; by rewrite lookup_insert_eq|].
    by rewrite lookup_insert_ne by done. }
  case_bool_decide as Hf; cbn [andb].
  - destruct (max_storage_slots_per_contract (config t) <=? slot_count t c)%nat eqn:El.
    + split_and!; [|done|done].
      split; [by apply (built_ext t)|exact Hr|..]; intros c'; unfold slot_count; simpl;
        rewrite Hcount; case_decide; subst; (apply Hc || apply Hl).
    + apply Nat.leb_gt in El. cbn [storage_counts set_storage_maps].
      rewrite insert_insert_eq.
      destruct (storage_change_inv t (<[(c, k) := v]> (storage t))
        (<[c := S (slot_count t c)]> (storage_counts t)) c Hi) as (H1 & H2 & H3).
      * intros c'. rewrite Hcount, slots_insert, <-!Hc.
        destruct (decide (c' = c)) as [->|]; [by rewrite decide_True|].
        by rewrite decide_False by naive_solver.
      * intros c'. rewrite Hcount. case_decide; [lia|apply Hl].
      * unfold set_storage_maps in *. cbn in *. rewrite H2. split_and!; [done|done|done].
  - cbn [storage_counts set_storage_maps].
    destruct (storage_change_inv t (<[(c, k) := v]> (storage t))
      (<[c := slot_count t c]> (storage_counts t)) c Hi) as (H1 & H2 & H3).
    + intros c'. rewrite Hcount, slots_insert, <-!Hc. rewrite (decide_False (P := _ /\ _)) by naive_solver.
      case_decide; by subst.
    + intros c'. rewrite Hcount. case_decide; subst; apply Hl.
    + unfold set_storage_maps in *. cbn in *. rewrite H2. split_and!; [done|done|done].
Qed.

Lemma delete_storage_inv t c k : trie_inv t ->
  trie_inv (delete_storage keccak256 t c k).1 /\ (delete_storage keccak256 t c k).2 = Ok tt
  /\ storage (delete_storage keccak256 t c k).1 = delete (c, k) (storage t).
Proof.
  intros Hi. destruct (Hi) as [Hb Hr Hc Hl]. unfold delete_storage.
  destruct (storage t !! (c, k)) as [w|] eqn:Hk; [|by rewrite delete_id].
  apply storage_change_inv; [done|..]; intros c'.
  - rewrite (slots_delete _ _ _ w) by done. rewrite <-Hc. unfold slot_count.
    destruct (storage_counts t !! c) as [n|] eqn:En.
    + case_decide as E; [subst; by rewrite lookup_insert_eq, En|by rewrite lookup_insert_ne].
    + case_decide as E; [subst; by rewrite En|done].
  - specialize (Hl c'). unfold slot_count in *. destruct (storage_counts t !! c) as [n|] eqn:En; [|done].
    destruct (decide (c' = c)) as [->|Hne].
    + rewrite lookup_insert_eq. rewrite En in Hl. simpl in *. lia.
    + by rewrite lookup_insert_ne.
Qed.

(** Every operation keeps the invariant and never panics. *)
Lemma trie_op_inv t op : trie_inv t -> in_width 160 (op_address op) ->
  trie_inv (run_op t op).1 /\ (run_op t op).2 <> Panic.
Proof.
  intros Hi Ha.
  assert (Hset : forall a s, in_width 160 a ->
    let r := rebuilt keccak256 (set_accounts t (<[a := s]> (accounts t))) in
    trie_inv r.1 /\ r.2 <> Panic).
  { intros a s Hw. cbv zeta. destruct (set_account_inv t a s Hi Hw) as (H1 & H2 & _). by rewrite H2. }
  assert (Hinc : forall a, in_width 160 a ->
    trie_inv (increment_nonce keccak256 t a).1 /\ (increment_nonce keccak256 t a).2 <> Panic).
  { intros a Hw. unfold increment_nonce. destruct (_ =? _) eqn:E; [|by apply Hset]. bools.
    split; [|done]. destruct (accounts t !! a) as [s|] eqn:Es; unfold account_entry in *;
      rewrite Es in *; simpl in *; [|lia].
    rewrite insert_id by done. by destruct t. }
  destruct op as [a s|a b|a|a d|a n|c k v|c k]; simpl in Ha |- *.
  - by apply Hset.
  - by apply Hset.
  - by apply Hinc.
  - unfold apply_balance_change. destruct (0 <=? d); [by apply Hset|].
    destruct (_ <? _); [done|by apply Hset].
  - unfold apply_nonce_increment. destruct (negb _); [|by apply Hinc]. by destruct (_ <? _).
  - destruct (set_storage_inv t c k v Hi) as (H1 & H2 & _). rewrite H2. split; [done|]. by destruct (_ && _)%bool.
  - destruct (delete_storage_inv t c k Hi) as (H1 & H2 & _). by rewrite H2.
Qed.

Definition run_ops (t : PatriciaMerkleTrie) (l : list TrieOp) : PatriciaMerkleTrie :=
  foldl (fun t op => (run_op t op).1) t l.

Lemma trie_ops_inv l : forall t, trie_inv t -> Forall (fun op => in_width 160 (op_address op)) l ->
  trie_inv (run_ops t l).
Proof.
  induction l as [|op l IH]; intros t Hi Hl; simpl; [done|].
  apply Forall_cons in Hl as [Ha Hl]. apply IH; [by apply trie_op_inv|done].
Qed.

(** ** Proofs *)

Lemma insert_nodes_lookup L : forall m,
  (forall n1 n2, n1 ∈ L -> n2 ∈ L -> node_hash keccak256 n1 = node_hash keccak256 n2 -> n1 = n2) ->
  forall n, n ∈ L -> foldl (insert_node keccak256) m L !! node_hash keccak256 n = Some n.
Proof.
  induction L as [|x L IH] using rev_ind; intros m Hinj n Hn; [by apply elem_of_nil in Hn|].
  rewrite foldl_app. simpl. unfold insert_node at 1.
  destruct (decide (node_hash keccak256 x = node_hash keccak256 n)) as [E|E].
  - rewrite E, lookup_insert_eq. f_equal. apply Hinj; [set_solver|done|done].
  - rewrite lookup_insert_ne by done. apply IH; [set_solver|].
    apply elem_of_app in Hn as [?|Hn]; [done|]. apply list_elem_of_singleton in Hn. congruence.
Qed.

(** The walk of [generate_proof] through a built trie whose nodes do not
    collide. *)
Lemma built_walk t a :
  built t -> addresses_in_range (accounts t) -> in_width 160 a ->
  (forall n1 n2, n1 ∈ created (accounts t) -> n2 ∈ created (accounts t) ->
     node_hash keccak256 n1 = node_hash keccak256 n2 -> n1 = n2) ->
  (forall n, n ∈ created (accounts t) -> node_hash keccak256 n <> EMPTY_TRIE_ROOT) ->
  exists path, proof_loop trie_fuel (nodes t) (account_key keccak256 a) (root t) 0 = Ok path
    /\ check_path keccak256 (root t) (account_key keccak256 a) 0 path
       = Some (account_rlp_encode <$> accounts t !! a).
Proof.
  intros Hb Hr Ha Hinj Hne. destruct (account_key_nibbles a) as [Hl Hn].
  unfold built, rebuild_trie in Hb. destruct (size (accounts t) =? 0)%nat eqn:E.
  - apply Nat.eqb_eq, map_size_empty_iff in E. injection Hb as Hb.
    apply (f_equal root) in Hb as Hroot. simpl in Hroot. rewrite <-Hroot, E, lookup_empty.
    exists []. split; [apply proof_loop_empty|done].
  - destruct (build_sorted_items (accounts t) Hr) as (h & Hbuild & Hgood).
    fold (sorted_items (accounts t)) in Hb. rewrite Hbuild in Hb. injection Hb as Hb.
    apply (f_equal root) in Hb as Hroot. apply (f_equal nodes) in Hb as Hnodes.
    simpl in Hroot, Hnodes. rewrite <-Hroot, <-(sorted_items_value _ a Hr Ha).
    apply Hgood; [|done|done|done|apply trie_fuel_enough].
    rewrite <-Hnodes. intros n Hn'. split; [by apply insert_nodes_lookup|by apply Hne].
Qed.
End inv.
