(* ===== verification/StateProps.v ===== *)
(** * State management: properties

    The claims about [qc-04-state-management]: reachable tries, generated proofs,
    determinism of the root, balances and nonces, persistence, and what the
    verifiers accept. *)

From S2P Require Import Prelude StateTrie StateFacts.
Local Open Scope Z_scope.
Local Open Scope qc_scope.

(** ** Persistence *)

Record account_in_range (s : AccountState) : Prop := {
  air_balance : in_width 128 (balance s);
  air_nonce : in_width 64 (nonce s);
  air_code : in_width 256 (code_hash s);
  air_root : in_width 256 (storage_root s)
}.

Definition slot_in_range (e : (Address * Hash) * Hash) : Prop :=
  in_width 160 e.1.1 /\ in_width 256 e.1.2 /\ in_width 256 e.2.

Lemma read_bytes_app n b rest : length b = n -> read_bytes n (b ++ rest) = Some (b, rest).
Proof.
  intros <-. unfold read_bytes. rewrite length_app.
  rewrite (proj2 (Nat.leb_le _ _)) by lia. by rewrite take_app_length, drop_app_length.
Qed.

Lemma accounts_loop_ok l : forall m rest,
  Forall (fun e => in_width 160 e.1 /\ account_in_range e.2) l ->
  accounts_loop (length l) m (concat (account_bytes <$> l) ++ rest)
  = Some (foldl (fun m e => <[e.1 := e.2]> m) m l, rest).
Proof.
  induction l as [|[a s] l IH]; intros m rest Hl; [done|].
  apply Forall_cons in Hl as [[Ha []] Hl]. cbn [fmap list_fmap concat length accounts_loop].
  unfold account_bytes at 1. cbn [fst snd]. rewrite <-!app_assoc.
  rewrite (read_bytes_app 20) by apply length_be_bytes. cbn [mbind option_bind].
  rewrite (read_bytes_app 16) by apply length_le_bytes. cbn [mbind option_bind].
  rewrite (read_bytes_app 8) by apply length_le_bytes. cbn [mbind option_bind].
  do 2 (rewrite (read_bytes_app 32) by apply length_be_bytes; cbn [mbind option_bind]).
  rewrite IH by done. rewrite !from_be_bytes_to, !from_le_bytes_to by done. by destruct s.
Qed.

(** The counters of [deserialize_storage]. *)
Definition count_slots (c : gmap Address nat) (l : list ((Address * Hash) * Hash)) : gmap Address nat :=
  foldl (fun c e => <[e.1.1 := S (default O (c !! e.1.1))]> c) c l.

Lemma storage_loop_ok l : forall m c rest, Forall slot_in_range l ->
  storage_loop (length l) m c (concat (slot_bytes <$> l) ++ rest)
  = Some (foldl (fun m e => <[e.1 := e.2]> m) m l, count_slots c l).
Proof.
  induction l as [|[[a k] v] l IH]; intros m c rest Hl; [done|].
  apply Forall_cons in Hl as [(Ha & Hk & Hv) Hl]. cbn [fmap list_fmap concat length storage_loop].
  unfold slot_bytes at 1. cbn [fst snd] in *. rewrite <-!app_assoc.
  rewrite (read_bytes_app 20) by apply length_be_bytes. cbn [mbind option_bind].
  do 2 (rewrite (read_bytes_app 32) by apply length_be_bytes; cbn [mbind option_bind]).
  rewrite IH by done. by rewrite !from_be_bytes_to by done.
Qed.

Lemma count_slots_spec l a : forall c,
  default O (count_slots c l !! a)
  = (default O (c !! a) + length (base.filter (fun e => e.1.1 = a) l))%nat.
Proof.
  induction l as [|e l IH]; intros c; [simpl; lia|]. unfold count_slots in *. cbn [foldl]. rewrite IH.
  destruct (decide (e.1.1 = a)) as [<-|Hne].
  - rewrite lookup_insert_eq, filter_cons_True by done. simpl. lia.
  - rewrite lookup_insert_ne, filter_cons_False by done. done.
Qed.

Lemma slots_length s a : size (slots s a) = length (base.filter (fun e => e.1.1 = a) (map_to_list s)).
Proof.
  unfold slots. rewrite map_filter_alt. rewrite <-length_map_to_list.
  apply Permutation_length, map_to_list_to_map.
  eapply sublist_NoDup; [|apply fmap_sublist, sublist_filter]. apply NoDup_fst_map_to_list.
Qed.

Lemma read_count n rest : Z.of_nat n < 2 ^ 32 ->
  read_bytes 4 (le_bytes 4 (Z.of_nat n mod 2 ^ 32) ++ rest)
  = Some (le_bytes 4 (Z.of_nat n), rest)
  /\ Z.to_nat (from_le_bytes (le_bytes 4 (Z.of_nat n))) = n.
Proof.
  intros Hn. rewrite Z.mod_small by lia. split; [apply read_bytes_app, length_le_bytes|].
  rewrite from_le_bytes_to by (change (256 ^ Z.of_nat 4) with (2 ^ 32); lia). apply Nat2Z.id.
Qed.

Section claims.
Context (keccak256 : list u8 -> Hash).
Context (Hwidth : forall l, in_width 256 (keccak256 l)).
Context (Haddr : forall a b, in_width 160 a -> in_width 160 b ->
  keccak256 (address_bytes a) = keccak256 (address_bytes b) -> a = b).

(** The trie fits the format. *)
Record serializable (t : PatriciaMerkleTrie) : Prop := {
  sz_accounts a s : accounts t !! a = Some s -> account_in_range s;
  sz_slots k v : storage t !! k = Some v -> slot_in_range (k, v);
  sz_account_count : Z.of_nat (size (accounts t)) < 2 ^ 32;
  sz_slot_count : Z.of_nat (size (storage t)) < 2 ^ 32
}.

(** A trie reachable from an empty one. *)
Definition reachable (t : PatriciaMerkleTrie) : Prop :=
  exists c l, Forall (fun op => in_width 160 (op_address op)) l
    /\ t = run_ops keccak256 (with_config c) l.

Lemma reachable_trie_inv t : reachable t -> trie_inv keccak256 t.
Proof. intros (c & l & Hl & ->). apply trie_ops_inv; [done|done|apply new_inv|done]. Qed.

(** A built trie's nodes and root are a function of its accounts. *)
Lemma built_det t t' : built keccak256 t -> built keccak256 t' -> accounts t' = accounts t ->
  nodes t' = nodes t /\ root t' = root t.
Proof.
  unfold built, rebuild_trie. intros Hb Hb' Ea. rewrite Ea in Hb'.
  destruct (size (accounts t) =? 0)%nat; [|destruct (build_node _ _ _ _ _) as [[m r]|]; [|done]];
    injection Hb as Hb; injection Hb' as Hb';
    apply (f_equal nodes) in Hb as Hn; apply (f_equal root) in Hb as Hr;
    apply (f_equal nodes) in Hb' as Hn'; apply (f_equal root) in Hb' as Hr';
    simpl in Hn, Hr, Hn', Hr'; split; congruence.
Qed.

(** The trie [deserialize] rebuilds from the bytes of [serialize]. *)
Definition restored (t : PatriciaMerkleTrie) : PatriciaMerkleTrie := {|
  nodes := {[ EMPTY_TRIE_ROOT := EmptyNode ]}; root := EMPTY_TRIE_ROOT;
  accounts := accounts t; storage := storage t;
  storage_counts := count_slots ∅ (map_to_list (storage t)); config := state_config_default |}.

Lemma deserialize_serialize t :
  (forall a, is_Some (accounts t !! a) -> in_width 160 a) -> serializable t ->
  deserialize keccak256 (serialize t) = rebuild_trie keccak256 (restored t).
Proof.
  intros Hrange [Ha Hv Hn1 Hn2].
  assert (Hla : Forall (fun e => in_width 160 e.1 /\ account_in_range e.2) (map_to_list (accounts t))).
  { apply Forall_forall. intros [a s] Hin%elem_of_map_to_list. simpl.
    split; [apply Hrange; by eexists|by apply (Ha a)]. }
  assert (Hls : Forall slot_in_range (map_to_list (storage t))).
  { apply Forall_forall. intros [k v] Hin%elem_of_map_to_list. by apply Hv. }
  unfold deserialize, serialize. cbn [app Z.eqb negb andb].
  rewrite drop_app_length' by (by rewrite length_be_bytes).
  destruct (read_count (size (accounts t)) (concat (account_bytes <$> map_to_list (accounts t))
    ++ le_bytes 4 (Z.of_nat (size (storage t)) mod 2 ^ 32)
    ++ concat (slot_bytes <$> map_to_list (storage t))) Hn1) as [R1 R2].
  unfold deserialize_accounts. rewrite R1. cbn [mbind option_bind].
  rewrite R2, <-length_map_to_list, accounts_loop_ok by done. cbn [mbind option_bind].
  destruct (read_count (size (storage t)) (concat (slot_bytes <$> map_to_list (storage t))) Hn2)
    as [R3 R4].
  unfold deserialize_storage. rewrite R3. cbn [mbind option_bind].
  rewrite R4, <-(length_map_to_list (storage t)), <-(app_nil_r (concat (slot_bytes <$> _))).
  rewrite storage_loop_ok by done. cbn [mbind option_bind].
  rewrite !foldl_insert_map, !list_to_map_to_list, !(right_id_L ∅ (∪)) by apply NoDup_fst_map_to_list.
  done.
Qed.

(** A serialized trie is restored.  For every reachable trie
    whose fields are in the range of their types and whose maps have fewer than
    [2^32] entries, [deserialize] of [serialize] returns a trie with the same
    accounts, storage, nodes and root, and slot counters that agree. *)
Theorem serialize_roundtrip t (Hr : reachable t) (Hs : serializable t) :
  exists t', deserialize keccak256 (serialize t) = Ok t'
    /\ accounts t' = accounts t /\ storage t' = storage t /\ nodes t' = nodes t
    /\ root t' = root t /\ forall c, slot_count t' c = slot_count t c.
Proof.
  destruct (reachable_trie_inv t Hr) as [Hb Hrange Hc _].
  rewrite deserialize_serialize by done.
  destruct (rebuild_ok keccak256 Hwidth Haddr (restored t) Hrange)
    as (t' & Ht' & Hb' & E1 & E2 & E3 & _).
  destruct (built_det t t' Hb Hb' E1) as [Hn Hroot]. exists t'. split_and!; try done.
  intros c. rewrite Hc. unfold slot_count. rewrite E3. cbn [restored storage_counts].
  by rewrite count_slots_spec, lookup_empty, slots_length.
Qed.

(** C9 (invariant): every reachable trie is consistent.  After any sequence of
    account and storage operations on an empty trie the nodes and the root are
    those a rebuild from the accounts gives, the slot counter of every contract
    is the number of its stored slots and at most the configured limit, and one
    more operation never panics and, when it sets a slot, refuses exactly a new
    slot at the limit. *)
Theorem trie_consistent c l op
  (Hl : Forall (fun op => in_width 160 (op_address op)) (op :: l)) :
  let t := run_ops keccak256 (with_config c) l in
  rebuild_trie keccak256 t = Ok t
  /\ (forall a, slot_count t a = size (slots (storage t) a)
       /\ (slot_count t a <= max_storage_slots_per_contract (config t))%nat)
  /\ (run_op keccak256 t op).2 <> Panic
  /\ (forall a k v, op = OpSetStorage a k v ->
       ((run_op keccak256 t op).2 = Err (StorageLimitExceeded a)
        <-> storage t !! (a, k) = None
            /\ (max_storage_slots_per_contract (config t) <= slot_count t a)%nat)).
Proof.
  apply Forall_cons in Hl as [Hop Hl]. intros t.
  assert (Hi : trie_inv keccak256 t) by (apply trie_ops_inv; [done|done|apply new_inv|done]).
  split_and!; [apply Hi|intros a; split; apply Hi|by apply trie_op_inv|].
  intros a k v ->. cbn [run_op]. destruct (set_storage_inv keccak256 Hwidth Haddr t a k v Hi) as (_ & -> & _).
  case_bool_decide as Hf; simpl; [|naive_solver].
  destruct (max_storage_slots_per_contract (config t) <=? slot_count t a)%nat eqn:E.
  - apply Nat.leb_le in E. split; [by split|done].
  - apply Nat.leb_gt in E. split; [done|intros [_ ?]; lia].
Qed.

(** Generated proofs establish the account.  In a reachable
    trie whose nodes do not collide, [generate_proof] succeeds for every address
    and returns the encodings of a path of nodes which the reference verifier,
    following the hashes from the root, accepts as showing exactly the account's
    encoding, or its absence. *)
Theorem generate_proof_correct t a (Hr : reachable t) (Ha : in_width 160 a)
  (Hinj : forall n1 n2, n1 ∈ created keccak256 (accounts t) -> n2 ∈ created keccak256 (accounts t) ->
     node_hash keccak256 n1 = node_hash keccak256 n2 -> n1 = n2)
  (Hne : forall n, n ∈ created keccak256 (accounts t) -> node_hash keccak256 n <> EMPTY_TRIE_ROOT) :
  exists p path, generate_proof keccak256 t a = Ok p
    /\ sp_address p = a /\ sp_account_state p = get_account t a /\ sp_state_root p = root t
    /\ sp_proof_nodes p = node_rlp_encode <$> path
    /\ check_path keccak256 (root t) (account_key keccak256 a) 0 path
       = Some (account_rlp_encode <$> get_account t a).
Proof.
  destruct (reachable_trie_inv t Hr) as [Hb Hrange _ _].
  destruct (built_walk keccak256 Hwidth Haddr t a Hb Hrange Ha Hinj Hne) as (path & Hw & Hc).
  unfold generate_proof. rewrite Hw. eexists _, path. split_and!; done.
Qed.

(** The root is a function of the accounts.  In a reachable
    trie the root is that of [build_node] on the items of the accounts listed in
    any order, as a hash map may list them. *)
Theorem root_order_independent t l (Hr : reachable t) (Hp : l ≡ₚ map_to_list (accounts t))
  (Hne : accounts t <> ∅) :
  build_node keccak256 trie_fuel {[ EMPTY_TRIE_ROOT := EmptyNode ]}
    (stable_sort item_le (trie_items keccak256 l)) 0 = Some (nodes t, root t).
Proof.
  destruct (reachable_trie_inv t Hr) as [Hb Hrange _ _].
  destruct (map_addresses _ Hrange) as [Hnd Hin].
  rewrite (sort_items_unique _ (trie_items keccak256 (map_to_list (accounts t)))).
  - unfold built, rebuild_trie in Hb. rewrite (proj2 (Nat.eqb_neq _ _)) in Hb
      by (by intros ?%map_size_empty_iff).
    destruct (build_node _ _ _ _ _) as [[m r]|]; [|done]. injection Hb as Hb.
    apply (f_equal nodes) in Hb as Hn. apply (f_equal root) in Hb as Hroot.
    simpl in Hn, Hroot. by rewrite Hn, Hroot.
  - apply trie_items_keys; [done..| |]; [by rewrite Hp|]. intros b. rewrite Hp. apply Hin.
  - unfold trie_items. by rewrite Hp.
Qed.

(** What is read after an account is set. *)
Lemma set_account_reads t a s : trie_inv keccak256 t -> in_width 160 a ->
  let r := rebuilt keccak256 (set_accounts t (<[a := s]> (accounts t))) in
  r.2 = Ok tt /\ get_balance r.1 a = balance s /\ get_nonce r.1 a = nonce s
  /\ forall b, b <> a -> get_account r.1 b = get_account t b.
Proof.
  intros Hi Ha. cbv zeta.
  destruct (set_account_inv keccak256 Hwidth Haddr t a s Hi Ha) as (_ & H2 & H3 & _).
  unfold get_balance, get_nonce, get_account. rewrite H3, lookup_insert_eq.
  split_and!; try done. intros b Hne. by rewrite lookup_insert_ne.
Qed.

(** Balances and nonces change exactly.  In a reachable trie,
    for in-range values, a balance change of [delta] succeeds and sets the
    balance to the sum, saturating at [2^128 - 1], unless a debit exceeds the
    balance, which is refused with both amounts; a nonce increment succeeds and
    adds one exactly when the expected nonce is the current one and below
    [2^64 - 1].  A refused change leaves every account as it was. *)
Theorem account_changes_exact t a delta expected (Hr : reachable t) (Ha : in_width 160 a)
  (Hd : - 2 ^ 127 <= delta < 2 ^ 127) (Hb : in_width 128 (get_balance t a))
  (He : in_width 64 expected) :
  (let r := apply_balance_change keccak256 t a delta in
   if 0 <=? get_balance t a + delta
   then r.2 = Ok tt /\ get_balance r.1 a = Z.min (get_balance t a + delta) (2 ^ 128 - 1)
        /\ get_nonce r.1 a = get_nonce t a
        /\ (forall b, b <> a -> get_account r.1 b = get_account t b)
   else r = (t, Err (InsufficientBalance (- delta) (get_balance t a))))
  /\ (let r := apply_nonce_increment keccak256 t a expected in
      if ((get_nonce t a =? expected) && (expected <? 2 ^ 64 - 1))%bool
      then r.2 = Ok tt /\ get_nonce r.1 a = expected + 1 /\ get_balance r.1 a = get_balance t a
           /\ (forall b, b <> a -> get_account r.1 b = get_account t b)
      else is_ok r.2 = false /\ accounts r.1 = accounts t).
Proof.
  pose proof (reachable_trie_inv t Hr) as Hi.
  pose proof (fun s => set_account_reads t a s Hi Ha) as Hset. cbv zeta in Hset.
  assert (Hn : nonce (account_entry t a) = get_nonce t a
    /\ balance (account_entry t a) = get_balance t a).
  { unfold account_entry, get_nonce, get_balance. by destruct (accounts t !! a). }
  destruct Hn as [Hn Hbal]. unfold in_width in *. split; cbv zeta.
  - unfold apply_balance_change, set_balance, saturating_add. destruct (0 <=? delta) eqn:E; bools.
    + rewrite (proj2 (Z.leb_le _ _)) by lia. edestruct Hset as (H1 & H2 & H3 & H4).
      rewrite H2, H3. cbn [balance nonce]. split_and!; [done|lia|done|done].
    + rewrite Z.mod_small by lia. destruct (get_balance t a <? - delta) eqn:E2; bools.
      * by rewrite (proj2 (Z.leb_gt _ _)) by lia.
      * rewrite (proj2 (Z.leb_le _ _)) by lia. edestruct Hset as (H1 & H2 & H3 & H4).
        rewrite H2, H3. cbn [balance nonce]. split_and!; [done|lia|done|done].
  - unfold apply_nonce_increment, increment_nonce. rewrite Hn.
    destruct (get_nonce t a =? expected) eqn:E; bools; cbn [negb andb]; [|by destruct (_ <? _)].
    rewrite E. destruct (expected =? 2 ^ 64 - 1) eqn:E2; bools.
    + rewrite (proj2 (Z.ltb_ge _ _)) by lia. split; [done|]. simpl.
      unfold account_entry, get_nonce in *. destruct (accounts t !! a) as [s|] eqn:Es; simpl in *; [|lia].
      by apply insert_id.
    + rewrite (proj2 (Z.ltb_lt _ _)) by lia. edestruct Hset as (H1 & H2 & H3 & H4).
      rewrite H2, H3. cbn [balance nonce]. split_and!; [done|lia|lia|done].
Qed.

(** Storage is committed only with an account.  In a reachable trie
    a stored slot of a contract that has an account puts the storage root of the
    contract's slots in the account; for a contract without an account the slot
    is stored and readable while nodes and root stay the same, so the root does
    not commit to it. *)
Theorem storage_committed_iff_account t c k v (Hr : reachable t)
  (Hok : is_ok (set_storage keccak256 t c k v).2 = true) :
  let t' := (set_storage keccak256 t c k v).1 in
  get_storage t' c k = Some v
  /\ match get_account t c with
     | Some s => storage_root <$> get_account t' c
                 = Some (compute_storage_root keccak256 (storage t') c)
     | None => nodes t' = nodes t /\ root t' = root t
     end.
Proof.
  pose proof (reachable_trie_inv t Hr) as Hi. intros t'.
  destruct (set_storage_inv keccak256 Hwidth Haddr t c k v Hi) as (Hi' & _ & Hs).
  rewrite Hok in Hs. fold t' in Hi', Hs.
  assert (Ha : accounts t' = match accounts t !! c with
    | Some s => <[c := {| balance := balance s; nonce := nonce s; code_hash := code_hash s;
        storage_root := compute_storage_root keccak256 (storage t') c |}]> (accounts t)
    | None => accounts t end).
  { rewrite Hs. subst t'. revert Hok. unfold set_storage. destruct (_ && _)%bool; [done|]. intros _.
    rewrite (proj1 (rebuilt_accounts _ _)). unfold refresh_storage_root. cbn.
    by destruct (accounts t !! c). }
  split; [unfold get_storage; by rewrite Hs, lookup_insert_eq|].
  unfold get_account. destruct (accounts t !! c) as [s|].
  - by rewrite Ha, lookup_insert_eq.
  - apply built_det; [apply Hi|apply Hi'|done].
Qed.
End claims.

(** ** What the verifiers accept *)

(** The node [verify_proof_iterative] reads as a leaf with the whole path. *)
Definition leaf_bytes (a : Address) (s : AccountState) : list u8 :=
  0 :: 40 :: from_bytes (address_bytes a) ++ serialize_account s.

Lemma decode_leaf_bytes a s :
  decode_proof_node (leaf_bytes a s) = Ok (PLeaf (from_bytes (address_bytes a)) (serialize_account s)).
Proof.
  assert (Hl : length (from_bytes (address_bytes a)) = 40%nat)
    by (by rewrite length_from_bytes, length_be_bytes).
  unfold decode_proof_node, leaf_bytes. cbn [Z.eqb].
  change (Z.to_nat 40) with 40%nat. cbn [length]. rewrite length_app, Hl.
  do 2 rewrite (proj2 (Nat.ltb_ge _ _)) by lia. cbn [orb].
  by rewrite take_app_length', drop_app_length'.
Qed.

(** The verifiers accept forged accounts.  Whatever Keccak-256 is,
    for every root, address and account state a one-node proof made without the
    trie is accepted: by [verify_proof] and [verify_state_proof] with any bytes
    as the node, and by [verify_proof_iterative], which never compares the first
    node with the root, with a leaf built from the address and the state. *)
Theorem forged_proofs_accepted keccak256 (r : Hash) (a : Address) (s : AccountState) (node : list u8) :
  let forged n := {| sp_address := a; sp_account_state := Some s; sp_proof_nodes := [n];
                     sp_state_root := r |} in
  verify_proof keccak256 (forged node) a r = true
  /\ verify_state_proof (forged node) = true
  /\ verify_proof_iterative keccak256 (forged (leaf_bytes a s)) (Some s) = Ok true.
Proof.
  cbv zeta. split_and!; [|done|].
  - unfold verify_proof. simpl. by rewrite !Z.eqb_refl.
  - unfold verify_proof_iterative. cbn [sp_proof_nodes length MAX_PROOF_DEPTH].
    change (MAX_PROOF_DEPTH <? 1)%nat with false. cbn [verify_loop sp_address].
    rewrite decode_leaf_bytes. cbn [rbind]. rewrite drop_0, bool_decide_true by done. cbn [negb andb].
    by rewrite bool_decide_true by done.
Qed.

(** Data that ends before the account count is an index out of bounds. *)
Lemma deserialize_short_panics keccak256 v rest : v = 1 \/ v = 2 -> (length rest < 36)%nat ->
  deserialize keccak256 (v :: rest) = Panic.
Proof.
  intros Hv Hl. unfold deserialize.
  replace (negb (v =? 1) && negb (v =? 2))%bool with false by (by destruct Hv as [->| ->]).
  unfold deserialize_accounts, read_bytes. rewrite length_drop, (proj2 (Nat.leb_gt _ _)) by lia. done.
Qed.

(** ** Witnesses

    A polynomial hash stands for Keccak-256: the bytes as a number modulo
    [2^256 - 189], the identity on addresses. *)

Definition toy_keccak (l : list u8) : Hash := from_be_bytes l mod (2 ^ 256 - 189).

Lemma toy_width l : in_width 256 (toy_keccak l).
Proof.
  unfold toy_keccak, in_width. pose proof (Z.mod_pos_bound (from_be_bytes l) (2 ^ 256 - 189)).
  lia.
Qed.

Lemma toy_addresses a b : in_width 160 a -> in_width 160 b ->
  toy_keccak (address_bytes a) = toy_keccak (address_bytes b) -> a = b.
Proof.
  unfold in_width, toy_keccak. intros Ha Hb.
  rewrite !from_be_bytes_to by (change (256 ^ Z.of_nat 20) with (2 ^ 160); lia).
  rewrite !Z.mod_small by lia. done.
Qed.

(** A contract and a second account, with a slot and a debit. *)
Definition sample_ops : list TrieOp :=
  [OpSetBalance 17 100; OpBalanceChange 17 (-30); OpNonceIncrement 17 0; OpSetBalance 4660 5;
   OpSetStorage 17 7 9; OpSetStorage 17 8 10; OpDeleteStorage 17 8].

Definition sample_trie : PatriciaMerkleTrie := run_ops toy_keccak (with_config state_config_default) sample_ops.

Lemma sample_ops_ok : Forall (fun op => in_width 160 (op_address op)) (OpSetStorage 17 8 1 :: sample_ops).
Proof. repeat constructor; done. Qed.

Lemma sample_reachable : reachable toy_keccak sample_trie.
Proof.
  exists state_config_default, sample_ops. split; [|done].
  exact (proj2 (proj1 (Forall_cons _ _ _) sample_ops_ok)).
Qed.

Lemma serialize_roundtrip_witness :
  get_balance sample_trie 17 = 70
  /\ (exists t', deserialize toy_keccak (serialize sample_trie) = Ok t' /\ root t' = root sample_trie).
Proof.
  split; [vm_compute; reflexivity|].
  destruct (serialize_roundtrip toy_keccak toy_width toy_addresses sample_trie sample_reachable)
    as (t' & H & _ & _ & _ & Hr & _).
  - split.
    + intros a s H. assert (Hall : Forall (fun e => account_in_range e.2) (map_to_list (accounts sample_trie))).
      { replace (map_to_list (accounts sample_trie))
          with [(17, {| balance := 70; nonce := 1; code_hash := 0; storage_root := 1332 |});
                (4660, {| balance := 5; nonce := 0; code_hash := 0; storage_root := EMPTY_TRIE_ROOT |})]
          by (vm_compute; reflexivity).
        repeat constructor; done. }
      rewrite Forall_forall in Hall. apply (Hall (a, s)). by apply elem_of_map_to_list.
    + intros k v H. assert (Hall : Forall slot_in_range (map_to_list (storage sample_trie))).
      { replace (map_to_list (storage sample_trie)) with [((17, 7), 9)] by (vm_compute; reflexivity).
        repeat constructor; done. }
      rewrite Forall_forall in Hall. apply (Hall (k, v)). by apply elem_of_map_to_list.
    + vm_compute. reflexivity.
    + vm_compute. reflexivity.
  - exists t'. split; [exact H|exact Hr].
Defined.

Lemma trie_consistent_witness :
  rebuild_trie toy_keccak sample_trie = Ok sample_trie /\ slot_count sample_trie 17 = 1%nat.
Proof.
  split; [|vm_compute; reflexivity].
  exact (proj1 (trie_consistent toy_keccak toy_width toy_addresses state_config_default sample_ops
    (OpSetStorage 17 8 1) sample_ops_ok)).
Defined.

Lemma generate_proof_correct_witness :
  length (created toy_keccak (accounts sample_trie)) = 4%nat
  /\ exists p path, generate_proof toy_keccak sample_trie 17 = Ok p
    /\ sp_proof_nodes p = node_rlp_encode <$> path
    /\ check_path toy_keccak (root sample_trie) (account_key toy_keccak 17) 0 path
       = Some (account_rlp_encode <$> get_account sample_trie 17).
Proof.
  split; [vm_compute; reflexivity|].
  destruct (generate_proof_correct toy_keccak toy_width toy_addresses sample_trie 17 sample_reachable)
    as (p & path & H1 & _ & _ & _ & H5 & H6).
  - done.
  - intros n1 n2 H1 H2.
    assert (Hall : Forall (fun n1 => Forall (fun n2 =>
      node_hash toy_keccak n1 = node_hash toy_keccak n2 -> n1 = n2)
      (created toy_keccak (accounts sample_trie))) (created toy_keccak (accounts sample_trie))).
    { apply (bool_decide_unpack _). vm_compute. exact I. }
    rewrite Forall_forall in Hall. specialize (Hall n1 H1). rewrite Forall_forall in Hall.
    exact (Hall n2 H2).
  - apply Forall_forall. apply (bool_decide_unpack _). vm_compute. exact I.
  - exists p, path. split; [exact H1|]. split; [exact H5|exact H6].
Defined.

Lemma root_order_independent_witness :
  build_node toy_keccak trie_fuel {[ EMPTY_TRIE_ROOT := EmptyNode ]}
    (stable_sort item_le (trie_items toy_keccak (reverse (map_to_list (accounts sample_trie))))) 0
  = Some (nodes sample_trie, root sample_trie).
Proof.
  refine (root_order_independent toy_keccak toy_width toy_addresses sample_trie _ sample_reachable _ _).
  - apply reverse_Permutation.
  - intros H. apply (f_equal size) in H. vm_compute in H. discriminate H.
Defined.

Lemma account_changes_exact_witness :
  (apply_balance_change toy_keccak sample_trie 17 (-71)).2 = Err (InsufficientBalance 71 70)
  /\ get_nonce (apply_nonce_increment toy_keccak sample_trie 17 1).1 17 = 2.
Proof.
  destruct (account_changes_exact toy_keccak toy_width toy_addresses sample_trie 17 (-71) 1
    sample_reachable) as [H1 H2]; [vm_compute; split; discriminate || reflexivity..|].
  split.
  - replace (get_balance sample_trie 17) with 70 in H1 by (vm_compute; reflexivity).
    cbv zeta in H1. change (0 <=? 70 + -71) with false in H1. by rewrite H1.
  - replace (get_nonce sample_trie 17) with 1 in H2 by (vm_compute; reflexivity).
    exact (proj1 (proj2 H2)).
Defined.

Lemma storage_committed_iff_account_witness :
  root (set_storage toy_keccak sample_trie 99 1 2).1 = root sample_trie
  /\ get_storage (set_storage toy_keccak sample_trie 99 1 2).1 99 1 = Some 2.
Proof.
  destruct (storage_committed_iff_account toy_keccak toy_width toy_addresses sample_trie 99 1 2
    sample_reachable) as [H1 H2]; [vm_compute; reflexivity|].
  split; [|exact H1].
  replace (get_account sample_trie 99) with (@None AccountState) in H2 by (vm_compute; reflexivity).
  exact (proj2 H2).
Defined.
