(* ===== verification/Consensus.v ===== *)
(** * Consensus: [qc-08-consensus]

    Block headers and proofs ([domain/block.rs], [domain/proof.rs]), validator
    sets ([domain/validator.rs]), the chain of known headers ([domain/chain.rs]),
    the stateless checks ([validation.rs]) and the service ([service/mod.rs],
    [state.rs]).

    Keccak-256, the signature verifier and the validator-set provider are not
    part of the crate: they are the argument [keccak256] and the fields of [Env],
    which also holds what the clock, the mempool and the event bus answer during
    a call.  The chain sits behind a lock which a validation takes once per
    check, so [verify_block_logic] is given the chain each check sees. *)

From S2P Require Import Prelude.
From stdpp Require Import strings.
Local Open Scope Z_scope.
Local Open Scope qc_scope.

Abbreviation ValidatorId := Z (only parsing).
Abbreviation BlsPublicKey := (list u8) (only parsing).

(** ** Blocks and proofs *)

Record BlockHeader := {
  version : Z;
  block_height : u64;
  parent_hash : Hash;
  timestamp : u64;
  proposer : ValidatorId;
  transactions_root : option Hash;
  state_root : option Hash;
  receipts_root : Hash;
  gas_limit : u64;
  gas_used : u64;
  extra_data : list u8
}.

#[export] Instance BlockHeader_eq_dec : EqDecision BlockHeader.
Proof. solve_decision. Defined.

Record SignedTransaction := {
  tx_hash : Hash;
  tx_from : Address;
  tx_to : option Address;
  tx_value : u128;
  tx_gas_limit : u64;
  tx_gas_price : u64;
  tx_nonce : u64;
  tx_data : list u8;
  tx_signature : list u8
}.

Definition gas_cost (tx : SignedTransaction) : u64 := tx_gas_limit tx.

Record Attestation := {
  at_validator : ValidatorId;
  at_block_hash : Hash;
  at_signature : list u8;
  at_slot : u64
}.

(** [PrepareMessage] and [CommitMessage] have the same fields. *)
Record PbftMessage := {
  pm_view : u64;
  pm_sequence : u64;
  pm_block_hash : Hash;
  pm_validator : ValidatorId;
  pm_signature : list u8
}.

Record PoSProof := {
  attestations : list Attestation;
  pos_epoch : u64;
  pos_slot : u64
}.

Record PBFTProof := {
  prepares : list PbftMessage;
  commits : list PbftMessage;
  pbft_view : u64;
  pbft_epoch : u64
}.

Inductive ValidationProof :=
| PoS (p : PoSProof)
| PBFT (p : PBFTProof).

Definition proof_epoch (p : ValidationProof) : u64 :=
  match p with PoS p => pos_epoch p | PBFT p => pbft_epoch p end.

Record Block := {
  header : BlockHeader;
  transactions : list SignedTransaction;
  proof : ValidationProof
}.

Record ValidatedBlock := {
  v_header : BlockHeader;
  v_transactions : list SignedTransaction;
  v_validation_proof : ValidationProof
}.

Definition is_genesis (h : BlockHeader) : bool :=
  (block_height h =? 0) && (parent_hash h =? 0).

(** The bytes hashed by [BlockHeader::hash]. *)
Definition header_preimage (h : BlockHeader) : list u8 :=
  le_bytes 4 (version h) ++ le_bytes 8 (block_height h) ++ hash_bytes (parent_hash h)
  ++ le_bytes 8 (timestamp h) ++ hash_bytes (proposer h) ++ le_bytes 8 (gas_limit h)
  ++ le_bytes 8 (gas_used h).

Definition attestation_signing_message (block_hash : Hash) (slot epoch : u64) : list u8 :=
  hash_bytes block_hash ++ le_bytes 8 slot ++ le_bytes 8 epoch.
(** [b"PREPARE"] and [b"COMMIT"]. *)
Definition prepare_signing_message (view sequence : u64) (block_hash : Hash) : list u8 :=
  [80; 82; 69; 80; 65; 82; 69] ++ le_bytes 8 view ++ le_bytes 8 sequence ++ hash_bytes block_hash.
Definition commit_signing_message (view sequence : u64) (block_hash : Hash) : list u8 :=
  [67; 79; 77; 77; 73; 84] ++ le_bytes 8 view ++ le_bytes 8 sequence ++ hash_bytes block_hash.

(** ** Validator sets *)

Record ValidatorInfo := {
  vi_id : ValidatorId;
  vi_stake : u128;
  vi_pubkey : BlsPublicKey;
  vi_active : bool
}.

Record ValidatorSet := {
  vs_epoch : u64;
  validators : list ValidatorInfo;
  total_stake : u128;
  lookup_index : gmap ValidatorId nat
}.

(** The map from identifiers to positions; a later entry replaces an earlier. *)
Definition build_lookup (l : list ValidatorInfo) : gmap ValidatorId nat :=
  foldl (fun m e => <[vi_id e.2 := e.1]> m) ∅ (imap pair l).

Module ValidatorSet.

Definition new (epoch : u64) (l : list ValidatorInfo) : ValidatorSet := {|
  vs_epoch := epoch; validators := l;
  total_stake := foldl (fun s v => wrapping_add 128 s (vi_stake v)) 0 l;
  lookup_index := build_lookup l |}.

Definition len (vs : ValidatorSet) : nat := length (validators vs).
Definition contains (vs : ValidatorSet) (id : ValidatorId) : bool :=
  bool_decide (is_Some (lookup_index vs !! id)).

(** [None] in the inner option would be the panic of [self.validators[idx]]; the
    index and the vector are made together. *)
Definition get (vs : ValidatorSet) (id : ValidatorId) : option ValidatorInfo :=
  idx ← lookup_index vs !! id; validators vs !! idx.
Definition get_pubkey (vs : ValidatorSet) (id : ValidatorId) : option BlsPublicKey :=
  vi_pubkey <$> get vs id.
Definition get_stake (vs : ValidatorSet) (id : ValidatorId) : option u128 :=
  vi_stake <$> get vs id.

Definition required_attestations (vs : ValidatorSet) (percent : u8) : nat :=
  Nat.max (length (validators vs) * Z.to_nat percent / 100) 1.
Definition required_pbft_votes (byzantine_threshold : nat) : nat :=
  (2 * byzantine_threshold + 1)%nat.

Definition rebuild_lookup (vs : ValidatorSet) : ValidatorSet := {|
  vs_epoch := vs_epoch vs; validators := validators vs; total_stake := total_stake vs;
  lookup_index := build_lookup (validators vs) |}.

End ValidatorSet.

(** ** Configuration and errors *)

Inductive ConsensusAlgorithm := ProofOfStake | AlgorithmPBFT.

Record ConsensusConfig := {
  algorithm : ConsensusAlgorithm;
  block_time_ms : u64;
  max_txs_per_block : nat;
  max_block_gas : u64;
  min_attestation_percent : u8;
  byzantine_threshold : nat;
  max_timestamp_drift_secs : u64
}.

Definition consensus_config_default : ConsensusConfig := {|
  algorithm := ProofOfStake; block_time_ms := 12000; max_txs_per_block := 10000;
  max_block_gas := 30000000; min_attestation_percent := 67; byzantine_threshold := 1;
  max_timestamp_drift_secs := 15 |}.

Inductive ConsensusError :=
| UnknownParent (h : Hash)
| InsufficientAttestations (got required : u8)
| InvalidHeight (expected actual : u64)
| InvalidTimestamp (block parent : u64)
| GasLimitExceeded (used limit : u64)
| TooManyTransactions (count limit : nat)
| ViewMismatch (expected actual : u64)
| UnknownValidator (v : ValidatorId)
| SignatureVerificationFailed (v : ValidatorId)
| DuplicateVote (v : ValidatorId)
| FutureTimestamp (t current : u64)
| EventBusError (msg : string)
| MempoolError (msg : string)
| StateError (msg : string)
| AlreadyValidated (h : Hash)
| GenesisWithParent
| InvalidProposer (v : ValidatorId)
| ProposerDidNotAttest (v : ValidatorId)
| InvalidSignatureFormat (v : ValidatorId)
| ExtraDataTooLarge (size limit : nat).

(** ** The chain *)

Record ChainHead := {
  ch_block_hash : Hash;
  ch_block_height : u64;
  ch_timestamp : u64
}.

Record ChainState := {
  known_blocks : gmap Hash BlockHeader;
  head : ChainHead;
  height_index : gmap u64 Hash;
  max_blocks : nat
}.

Definition DEFAULT_MAX_BLOCKS : nat := Z.to_nat 8192.

Section consensus.
Context (keccak256 : list u8 -> Hash).

Definition header_hash (h : BlockHeader) : Hash := keccak256 (header_preimage h).
Definition block_hash (b : Block) : Hash := header_hash (header b).


Definition with_max_blocks (max : nat) : ChainState := {|
  known_blocks := ∅;
  head := {| ch_block_hash := 0; ch_block_height := 0; ch_timestamp := 0 |};
  height_index := ∅; max_blocks := max |}.
Definition chain_new : ChainState := with_max_blocks DEFAULT_MAX_BLOCKS.

(** The loop of [prune_if_needed] over the heights to remove. *)
Definition remove_height (c : gmap Hash BlockHeader * gmap u64 Hash) (height : u64)
  : gmap Hash BlockHeader * gmap u64 Hash :=
  match c.2 !! height with
  | Some hash => (delete hash c.1, delete height c.2)
  | None => c
  end.

Definition prune_if_needed (c : ChainState) : ChainState :=
  if (size (known_blocks c) <=? max_blocks c)%nat then c
  else
    let min_height_to_keep :=
      saturating_sub (ch_block_height (head c)) (Z.of_nat (max_blocks c)) in
    let heights_to_remove :=
      base.filter (fun h => h < min_height_to_keep) (elements (dom (height_index c))) in
    let '(known, index) := foldl remove_height (known_blocks c, height_index c) heights_to_remove in
    {| known_blocks := known; head := head c; height_index := index; max_blocks := max_blocks c |}.

Definition add_block (c : ChainState) (h : BlockHeader) : ChainState :=
  let hash := header_hash h in
  let head' :=
    if (ch_block_height (head c) <? block_height h) || (ch_block_height (head c) =? 0)
    then {| ch_block_hash := hash; ch_block_height := block_height h;
            ch_timestamp := timestamp h |}
    else head c in
  prune_if_needed {|
    known_blocks := <[hash := h]> (known_blocks c); head := head';
    height_index := <[block_height h := hash]> (height_index c); max_blocks := max_blocks c |}.

Definition chain_with_genesis (genesis : BlockHeader) : ChainState := add_block chain_new genesis.

Definition has_block (c : ChainState) (hash : Hash) : bool :=
  bool_decide (is_Some (known_blocks c !! hash)).
Definition get_block (c : ChainState) (hash : Hash) : option BlockHeader := known_blocks c !! hash.
Definition get_hash_at_height (c : ChainState) (height : u64) : option Hash :=
  height_index c !! height.
Definition height (c : ChainState) : u64 := ch_block_height (head c).
Definition block_count (c : ChainState) : nat := size (known_blocks c).

(** ** The stateless checks *)

Definition MAX_EXTRA_DATA_SIZE : nat := 32.

(** [iter().map(gas_cost).sum()] on [u64] wraps in release builds. *)
Definition total_gas (txs : list SignedTransaction) : u64 :=
  foldl (fun s tx => wrapping_add 64 s (gas_cost tx)) 0 txs.

Definition validate_structure (b : Block) (cfg : ConsensusConfig) : result ConsensusError unit :=
  let n := length (transactions b) in
  let h := header b in
  if (max_txs_per_block cfg <? n)%nat then Err (TooManyTransactions n (max_txs_per_block cfg))
  else if max_block_gas cfg <? total_gas (transactions b)
  then Err (GasLimitExceeded (total_gas (transactions b)) (max_block_gas cfg))
  else if gas_limit h <? gas_used h then Err (GasLimitExceeded (gas_used h) (gas_limit h))
  else if (MAX_EXTRA_DATA_SIZE <? length (extra_data h))%nat
  then Err (ExtraDataTooLarge (length (extra_data h)) MAX_EXTRA_DATA_SIZE)
  else Ok tt.

Definition validate_parent (h : BlockHeader) (c : ChainState) : result ConsensusError unit :=
  if is_genesis h then
    if (0 <? block_count c)%nat then Err GenesisWithParent else Ok tt
  else if negb (has_block c (parent_hash h)) then Err (UnknownParent (parent_hash h))
  else Ok tt.

Definition validate_height (h : BlockHeader) (c : ChainState) : result ConsensusError unit :=
  if is_genesis h then
    if negb (block_height h =? 0) then Err (InvalidHeight 0 (block_height h)) else Ok tt
  else
    match get_block c (parent_hash h) with
    | Some parent =>
        let expected := wrapping_add 64 (block_height parent) 1 in
        if negb (block_height h =? expected) then Err (InvalidHeight expected (block_height h))
        else Ok tt
    | None => Ok tt
    end.

Definition validate_timestamp (h : BlockHeader) (c : ChainState) (now : u64)
  (cfg : ConsensusConfig) : result ConsensusError unit :=
  if wrapping_add 64 now (max_timestamp_drift_secs cfg) <? timestamp h
  then Err (FutureTimestamp (timestamp h) now)
  else if is_genesis h then Ok tt
  else
    match get_block c (parent_hash h) with
    | Some parent =>
        if timestamp h <=? timestamp parent
        then Err (InvalidTimestamp (timestamp h) (timestamp parent)) else Ok tt
    | None => Ok tt
    end.

(** ** The service *)

Record Env := {
  now : u64;
  get_epoch_state_root : u64 -> result string Hash;
  get_validator_set_at_epoch : u64 -> Hash -> result string ValidatorSet;
  current_epoch : u64;
  verify_ecdsa : list u8 -> list u8 -> list u8 -> bool;
  verify_aggregate_bls : list u8 -> list u8 -> list BlsPublicKey -> bool;
  get_transactions_for_block : nat -> u64 -> result string (list SignedTransaction);
  publish_block_validated : ValidatedBlock -> ValidationProof -> u64 -> result string unit
}.

Record ConsensusState := {
  chain : ChainState;
  current_view : u64
}.

Definition state_new : ConsensusState := {| chain := chain_new; current_view := 0 |}.
Definition state_with_genesis (genesis : BlockHeader) : ConsensusState :=
  {| chain := chain_with_genesis genesis; current_view := 0 |}.
Definition set_view (s : ConsensusState) (view : u64) : ConsensusState :=
  {| chain := chain s; current_view := view |}.

(** [map_err]. *)
Definition map_err {E A} (f : string -> E) (r : result string A) : result E A :=
  match r with Ok a => Ok a | Err m => Err (f m) | Panic => Panic end.

(** [is_genesis] and the [Env] below: the provider is asked for the state root
    of the epoch and then for its set. *)
Definition validator_set (env : Env) (epoch : u64) : result ConsensusError ValidatorSet :=
  let? r := map_err StateError (get_epoch_state_root env epoch) in
  map_err StateError (get_validator_set_at_epoch env epoch r).

Definition validate_proposer (env : Env) (h : BlockHeader) (p : ValidationProof)
  : result ConsensusError unit :=
  if is_genesis h then Ok tt
  else
    let? vs := validator_set env (proof_epoch p) in
    if negb (ValidatorSet.contains vs (proposer h)) then Err (InvalidProposer (proposer h))
    else
      match p with
      | PoS pos =>
          if negb (existsb (fun a => at_validator a =? proposer h) (attestations pos))
          then Err (ProposerDidNotAttest (proposer h)) else Ok tt
      | PBFT _ => Ok tt
      end.

Definition is_bls (a : Attestation) : bool := (length (at_signature a) =? 96)%nat.

(** [0x02] and the first 32 bytes of the BLS key. *)
Definition ecdsa_pubkey (pubkey : BlsPublicKey) : list u8 := 2 :: take 32 pubkey.

Definition verify_attestation_signature (env : Env) (a : Attestation) (msg : list u8)
  (pubkey : BlsPublicKey) : result ConsensusError bool :=
  if is_bls a then Ok (verify_aggregate_bls env msg (at_signature a) [pubkey])
  else if (length (at_signature a) =? 65)%nat
  then Ok (verify_ecdsa env msg (at_signature a) (ecdsa_pubkey pubkey))
  else Err (InvalidSignatureFormat (at_validator a)).

(** The loop of [verify_attestations]. *)
Fixpoint verify_attestations (env : Env) (vs : ValidatorSet) (msg : list u8)
  (l : list Attestation) : result ConsensusError unit :=
  match l with
  | [] => Ok tt
  | a :: l =>
      match ValidatorSet.get_pubkey vs (at_validator a) with
      | None => Err (UnknownValidator (at_validator a))
      | Some pubkey =>
          let? valid := verify_attestation_signature env a msg pubkey in
          if negb valid then Err (SignatureVerificationFailed (at_validator a))
          else verify_attestations env vs msg l
      end
  end.

(** The first validator that attests a second time. *)
Fixpoint duplicate_vote (seen : gset ValidatorId) (l : list Attestation) : option ValidatorId :=
  match l with
  | [] => None
  | a :: l =>
      if decide (at_validator a ∈ seen) then Some (at_validator a)
      else duplicate_vote ({[at_validator a]} ∪ seen) l
  end.

Definition validate_pos_proof (env : Env) (cfg : ConsensusConfig) (p : PoSProof) (hash : Hash)
  : result ConsensusError unit :=
  let? vs := validator_set env (pos_epoch p) in
  match duplicate_vote ∅ (attestations p) with
  | Some v => Err (DuplicateVote v)
  | None =>
      let? _ := verify_attestations env vs
        (attestation_signing_message hash (pos_slot p) (pos_epoch p)) (attestations p) in
      let participation := length (attestations p) in
      if (participation <? ValidatorSet.required_attestations vs (min_attestation_percent cfg))%nat
      then
        if (ValidatorSet.len vs =? 0)%nat then Panic
        else Err (InsufficientAttestations
          (Z.of_nat (participation * 100 / ValidatorSet.len vs) mod 2 ^ 8)
          (min_attestation_percent cfg))
      else Ok tt
  end.

(** The loop of [verify_pbft_signatures]; [msg] is the message extractor. *)
Fixpoint verify_pbft_signatures (env : Env) (vs : ValidatorSet) (msg : PbftMessage -> list u8)
  (l : list PbftMessage) : result ConsensusError unit :=
  match l with
  | [] => Ok tt
  | m :: l =>
      if negb (ValidatorSet.contains vs (pm_validator m)) then Err (UnknownValidator (pm_validator m))
      else
        match ValidatorSet.get_pubkey vs (pm_validator m) with
        | None => Err (UnknownValidator (pm_validator m))
        | Some pubkey =>
            if negb (verify_ecdsa env (msg m) (pm_signature m) (ecdsa_pubkey pubkey))
            then Err (SignatureVerificationFailed (pm_validator m))
            else verify_pbft_signatures env vs msg l
        end
  end.

Definition prepare_message (m : PbftMessage) : list u8 :=
  prepare_signing_message (pm_view m) (pm_sequence m) (pm_block_hash m).
Definition commit_message (m : PbftMessage) : list u8 :=
  commit_signing_message (pm_view m) (pm_sequence m) (pm_block_hash m).

Definition validate_pbft_proof (env : Env) (cfg : ConsensusConfig) (view : u64) (p : PBFTProof)
  (hash : Hash) : result ConsensusError unit :=
  if negb (pbft_view p =? view) then Err (ViewMismatch view (pbft_view p))
  else
    let? vs := validator_set env (pbft_epoch p) in
    let required := ValidatorSet.required_pbft_votes (byzantine_threshold cfg) in
    if (length (prepares p) <? required)%nat
    then Err (InsufficientAttestations (Z.of_nat (length (prepares p)) mod 2 ^ 8)
                (Z.of_nat required mod 2 ^ 8))
    else if (length (commits p) <? required)%nat
    then Err (InsufficientAttestations (Z.of_nat (length (commits p)) mod 2 ^ 8)
                (Z.of_nat required mod 2 ^ 8))
    else
      let? _ := verify_pbft_signatures env vs prepare_message (prepares p) in
      verify_pbft_signatures env vs commit_message (commits p).

Definition validate_consensus_proof (env : Env) (cfg : ConsensusConfig) (view : u64)
  (p : ValidationProof) (hash : Hash) : result ConsensusError unit :=
  match p with
  | PoS p => validate_pos_proof env cfg p hash
  | PBFT p => validate_pbft_proof env cfg view p hash
  end.

(** [c1], [c2] and [c3] are the chain when the parent, the height and the
    timestamp are checked. *)
Definition verify_block_logic (env : Env) (cfg : ConsensusConfig) (c1 c2 c3 : ChainState)
  (view : u64) (b : Block) (hash : Hash) : result ConsensusError unit :=
  let? _ := validate_structure b cfg in
  let? _ := validate_parent (header b) c1 in
  let? _ := validate_height (header b) c2 in
  let? _ := validate_timestamp (header b) c3 (now env) cfg in
  let? _ := validate_proposer env (header b) (proof b) in
  validate_consensus_proof env cfg view (proof b) hash.

(** [validate_block], alone on the state.  The block is in the chain before the
    event is published. *)
Definition validate_block (env : Env) (cfg : ConsensusConfig) (s : ConsensusState) (b : Block)
  : ConsensusState * result ConsensusError ValidatedBlock :=
  let hash := block_hash b in
  if has_block (chain s) hash then (s, Err (AlreadyValidated hash))
  else
    match verify_block_logic env cfg (chain s) (chain s) (chain s) (current_view s) b hash with
    | Err e => (s, Err e)
    | Panic => (s, Panic)
    | Ok _ =>
        let s' := {| chain := add_block (chain s) (header b); current_view := current_view s |} in
        let validated := {| v_header := header b; v_transactions := transactions b;
                            v_validation_proof := proof b |} in
        match publish_block_validated env validated (proof b) (now env) with
        | Ok _ => (s', Ok validated)
        | Err m => (s', Err (EventBusError m))
        | Panic => (s', Panic)
        end
    end.

Definition build_block (env : Env) (cfg : ConsensusConfig) (s : ConsensusState)
  : result ConsensusError Block :=
  let? txs := map_err MempoolError
    (get_transactions_for_block env (max_txs_per_block cfg) (max_block_gas cfg)) in
  let hd := head (chain s) in
  Ok {| header := {|
          version := 1; block_height := wrapping_add 64 (ch_block_height hd) 1;
          parent_hash := ch_block_hash hd; timestamp := now env; proposer := 0;
          transactions_root := None; state_root := None; receipts_root := 0;
          gas_limit := max_block_gas cfg; gas_used := total_gas txs; extra_data := [] |};
        transactions := txs;
        proof := match algorithm cfg with
                 | ProofOfStake => PoS {| attestations := []; pos_epoch := current_epoch env;
                                          pos_slot := 0 |}
                 | AlgorithmPBFT => PBFT {| prepares := []; commits := [];
                                            pbft_view := current_view s;
                                            pbft_epoch := current_epoch env |}
                 end |}.

(** ** Concurrent calls

    [validate_block] runs on a shared reference and takes the lock of the chain
    anew for every check, so between its checks other calls can add their
    blocks.  A history is the list of the states after every write; a validation
    says in which state of the history each of its checks read: whether the block
    is known, its parent, its height, its time, and the view. *)
Record Reads := { r_known : nat; r_parent : nat; r_height : nat; r_time : nat; r_view : nat }.

Inductive WriteSection :=
| AddSection (env : Env) (b : Block) (r : Reads)
| ViewSection (view : u64).

(** A validation whose checks pass writes to the chain as it is then. *)
Definition run_section (cfg : ConsensusConfig) (hist : list ConsensusState) (w : WriteSection)
  : list ConsensusState :=
  match last hist with
  | None => hist
  | Some s =>
      match w with
      | ViewSection view => hist ++ [set_view s view]
      | AddSection env b r =>
          match hist !! r_known r, hist !! r_parent r, hist !! r_height r, hist !! r_time r,
                hist !! r_view r with
          | Some s0, Some s1, Some s2, Some s3, Some s4 =>
              if negb ((r_known r <=? r_parent r) && (r_parent r <=? r_height r)
                       && (r_height r <=? r_time r) && (r_time r <=? r_view r))%nat then hist
              else if has_block (chain s0) (block_hash b) then hist
              else
                match verify_block_logic env cfg (chain s1) (chain s2) (chain s3) (current_view s4)
                        b (block_hash b) with
                | Ok _ => hist ++ [{| chain := add_block (chain s) (header b);
                                      current_view := current_view s |}]
                | _ => hist
                end
          | _, _, _, _, _ => hist
          end
      end
  end.
Definition run_sections (cfg : ConsensusConfig) (hist : list ConsensusState) (l : list WriteSection)
  : list ConsensusState := foldl (run_section cfg) hist l.

End consensus.
