(* ===== verification/ConsensusFacts.v ===== *)
(** * Consensus: what the checks establish

    Validator sets find the validators they were made from, the loops over
    attestations and messages check every element, the conditions of
    [validate_block] as a specification, and what holds of every state that
    interleaved validations reach. *)

From stdpp Require Import strings.
From S2P Require Import Prelude Consensus.
Local Open Scope Z_scope.
Local Open Scope qc_scope.

(** ** Validator sets *)

Lemma build_lookup_Some l id i : build_lookup l !! id = Some i ->
  exists v, l !! i = Some v /\ vi_id v = id.
Proof.
  unfold build_lookup. revert i. induction l as [|v l IH] using rev_ind; intros i; [done|].
  rewrite imap_app, foldl_app. simpl. destruct (decide (vi_id v = id)) as [E|E].
  - rewrite E, lookup_insert_eq. intros [= <-]. exists v.
    rewrite Nat.add_0_r, lookup_app_r, Nat.sub_diag by lia. done.
  - rewrite lookup_insert_ne by done. intros Hi. destruct (IH i Hi) as (w & Hw & Hid).
    exists w. split; [|done]. by apply lookup_app_l_Some.
Qed.

Lemma build_lookup_is_Some l id : is_Some (build_lookup l !! id) <-> id ∈ vi_id <$> l.
Proof.
  split.
  - intros [i Hi]. destruct (build_lookup_Some _ _ _ Hi) as (v & Hv & <-).
    apply list_elem_of_fmap_2, list_elem_of_lookup. eauto.
  - unfold build_lookup. induction l as [|v l IH] using rev_ind; [by intros ?%elem_of_nil|].
    rewrite fmap_app, imap_app, foldl_app. simpl. intros [Hin|Hin]%elem_of_app.
    + destruct (decide (vi_id v = id)) as [<-|]; [by rewrite lookup_insert_eq|].
      rewrite lookup_insert_ne by done. by apply IH.
    + apply list_elem_of_singleton in Hin as ->. by rewrite lookup_insert_eq.
Qed.

(** A set as [new] makes it. *)
Definition set_ok (vs : ValidatorSet) : Prop := lookup_index vs = build_lookup (validators vs).

Lemma set_contains vs id : set_ok vs ->
  ValidatorSet.contains vs id = true <-> id ∈ vi_id <$> validators vs.
Proof.
  intros Hok. unfold ValidatorSet.contains. rewrite bool_decide_eq_true, Hok.
  apply build_lookup_is_Some.
Qed.

(** No lookup is out of the range of the vector. *)
Lemma set_get vs id : set_ok vs ->
  match lookup_index vs !! id with
  | Some i => exists v, validators vs !! i = Some v /\ vi_id v = id
      /\ ValidatorSet.get vs id = Some v
  | None => ValidatorSet.get vs id = None /\ id ∉ vi_id <$> validators vs
  end.
Proof.
  intros Hok. unfold ValidatorSet.get. destruct (lookup_index vs !! id) as [i|] eqn:E.
  - rewrite Hok in E. destruct (build_lookup_Some _ _ _ E) as (v & Hv & Hid).
    exists v. by rewrite Hv.
  - split; [done|]. rewrite Hok in E. intros Hin%build_lookup_is_Some. by rewrite E in Hin; destruct Hin.
Qed.

Lemma get_pubkey_member vs id pk : set_ok vs -> ValidatorSet.get_pubkey vs id = Some pk ->
  id ∈ vi_id <$> validators vs.
Proof.
  intros Hok. unfold ValidatorSet.get_pubkey. pose proof (set_get vs id Hok) as H.
  destruct (lookup_index vs !! id) as [i|].
  - destruct H as (v & Hv & <- & _). intros _. apply list_elem_of_fmap_2, list_elem_of_lookup. eauto.
  - destruct H as [-> _]. done.
Qed.

(** ** Loops *)

Lemma duplicate_vote_None l : forall seen, duplicate_vote seen l = None <->
  NoDup (at_validator <$> l) /\ forall v, v ∈ at_validator <$> l -> v ∉ seen.
Proof.
  induction l as [|a l IH]; intros seen; simpl.
  { split; [|done]. split; [constructor|by intros v ?%elem_of_nil]. }
  case_decide as Hs.
  - split; [done|]. intros [_ H]. by destruct (H (at_validator a) ltac:(left)).
  - rewrite IH, NoDup_cons. split.
    + intros [Hnd Hd]. split_and!; [set_solver|done|]. intros v [->|Hv]%elem_of_cons; [done|].
      specialize (Hd v Hv). set_solver.
    + intros [[Hn Hnd] Hd]. split; [done|]. intros v Hv.
      assert (v ∉ seen) by (apply Hd; by right). set_solver.
Qed.

Section facts.
Context (keccak256 : list u8 -> Hash).

(** The attestation's validator is in the set and signed the message. *)
Definition attested (env : Env) (vs : ValidatorSet) (msg : list u8) (a : Attestation) : Prop :=
  exists pk, ValidatorSet.get_pubkey vs (at_validator a) = Some pk
    /\ verify_attestation_signature env a msg pk = Ok true.

Lemma verify_attestations_ok env vs msg l :
  verify_attestations env vs msg l = Ok tt <-> Forall (attested env vs msg) l.
Proof.
  induction l as [|a l IH]; simpl; [by split|]. rewrite Forall_cons, <-IH. unfold attested.
  destruct (ValidatorSet.get_pubkey vs (at_validator a)) as [pk|]; [|by split; [|intros [(? & ? & _) _]]].
  destruct (verify_attestation_signature env a msg pk) as [[]|e|] eqn:E; simpl;
    (split; [intros H|intros [(? & [= <-] & ?) ?]; congruence]); [eauto|done..].
Qed.

(** The message's validator is in the set and signed it. *)
Definition pbft_signed (env : Env) (vs : ValidatorSet) (msg : PbftMessage -> list u8)
  (m : PbftMessage) : Prop :=
  ValidatorSet.contains vs (pm_validator m) = true
  /\ exists pk, ValidatorSet.get_pubkey vs (pm_validator m) = Some pk
    /\ verify_ecdsa env (msg m) (pm_signature m) (ecdsa_pubkey pk) = true.

Lemma verify_pbft_signatures_ok env vs msg l :
  verify_pbft_signatures env vs msg l = Ok tt <-> Forall (pbft_signed env vs msg) l.
Proof.
  induction l as [|m l IH]; simpl; [by split|]. rewrite Forall_cons, <-IH. unfold pbft_signed.
  destruct (ValidatorSet.contains vs (pm_validator m)); simpl; [|by split; [|intros [[? _] _]]].
  destruct (ValidatorSet.get_pubkey vs (pm_validator m)) as [pk|];
    [|by split; [|intros [(_ & ? & ? & _) _]]].
  destruct (verify_ecdsa env (msg m) (pm_signature m) (ecdsa_pubkey pk)) eqn:E; simpl;
    (split; [intros H|intros [(_ & ? & [= <-] & ?) ?]; congruence]); [eauto|done].
Qed.

(** ** The specification of acceptance *)

Definition pos_valid (env : Env) (cfg : ConsensusConfig) (p : PoSProof) (hash : Hash) : Prop :=
  exists vs, validator_set env (pos_epoch p) = Ok vs
    /\ NoDup (at_validator <$> attestations p)
    /\ Forall (attested env vs (attestation_signing_message hash (pos_slot p) (pos_epoch p)))
         (attestations p)
    /\ (ValidatorSet.required_attestations vs (min_attestation_percent cfg)
        <= length (attestations p))%nat.

Definition pbft_valid (env : Env) (cfg : ConsensusConfig) (view : u64) (p : PBFTProof) : Prop :=
  pbft_view p = view
  /\ exists vs, validator_set env (pbft_epoch p) = Ok vs
    /\ (2 * byzantine_threshold cfg + 1 <= length (prepares p))%nat
    /\ (2 * byzantine_threshold cfg + 1 <= length (commits p))%nat
    /\ Forall (pbft_signed env vs prepare_message) (prepares p)
    /\ Forall (pbft_signed env vs commit_message) (commits p).

(** The proposer is in the validator set and, under proof of stake, attested. *)
Definition proposer_valid (env : Env) (h : BlockHeader) (p : ValidationProof) : Prop :=
  is_genesis h = true
  \/ exists vs, validator_set env (proof_epoch p) = Ok vs
      /\ ValidatorSet.contains vs (proposer h) = true
      /\ match p with PoS p => proposer h ∈ at_validator <$> attestations p | PBFT _ => True end.

(** The block extends a known block, or is the genesis of an empty chain. *)
Definition extends (c : ChainState) (h : BlockHeader) : Prop :=
  if is_genesis h then known_blocks c = ∅
  else exists p, known_blocks c !! parent_hash h = Some p
    /\ block_height h = wrapping_add 64 (block_height p) 1 /\ timestamp p < timestamp h.

Record acceptable (env : Env) (cfg : ConsensusConfig) (s : ConsensusState) (b : Block) : Prop := {
  ac_new : known_blocks (chain s) !! block_hash keccak256 b = None;
  ac_txs : (length (transactions b) <= max_txs_per_block cfg)%nat;
  ac_gas : total_gas (transactions b) <= max_block_gas cfg;
  ac_used : gas_used (header b) <= gas_limit (header b);
  ac_extra : (length (extra_data (header b)) <= MAX_EXTRA_DATA_SIZE)%nat;
  ac_time : timestamp (header b) <= wrapping_add 64 (now env) (max_timestamp_drift_secs cfg);
  ac_extends : extends (chain s) (header b);
  ac_proposer : proposer_valid env (header b) (proof b);
  ac_proof : match proof b with
             | PoS p => pos_valid env cfg p (block_hash keccak256 b)
             | PBFT p => pbft_valid env cfg (current_view s) p
             end
}.

Lemma rbind_ok {E A B} (m : result E A) (k : A -> result E B) b :
  rbind m k = Ok b <-> exists a, m = Ok a /\ k a = Ok b.
Proof. destruct m; simpl; naive_solver. Qed.

Lemma rbind_unit_ok {E B} (m : result E unit) (k : result E B) b :
  rbind m (fun _ => k) = Ok b <-> m = Ok tt /\ k = Ok b.
Proof. destruct m as [[]| |]; simpl; naive_solver. Qed.

Lemma validate_pos_proof_ok env cfg p hash :
  validate_pos_proof env cfg p hash = Ok tt <-> pos_valid env cfg p hash.
Proof.
  unfold validate_pos_proof, pos_valid. rewrite rbind_ok.
  apply exist_proper. intros vs. apply and_iff_compat_l.
  destruct (duplicate_vote ∅ (attestations p)) as [v|] eqn:Ed.
  - split; [done|]. intros [Hnd _].
    rewrite (proj2 (duplicate_vote_None _ ∅)) in Ed; [done|]. split; [done|]. set_solver.
  - apply duplicate_vote_None in Ed as [Hnd _]. rewrite rbind_unit_ok. split.
    + intros [Hv Hn]. apply verify_attestations_ok in Hv.
      destruct (_ <? _)%nat eqn:E; [by destruct (_ =? _)%nat|]. apply Nat.ltb_ge in E. done.
    + intros (_ & Hv & Hn). split; [by apply verify_attestations_ok|].
      by rewrite (proj2 (Nat.ltb_ge _ _)) by done.
Qed.

Lemma validate_pbft_proof_ok env cfg view p hash :
  validate_pbft_proof env cfg view p hash = Ok tt <-> pbft_valid env cfg view p.
Proof.
  unfold validate_pbft_proof, pbft_valid, ValidatorSet.required_pbft_votes.
  destruct (pbft_view p =? view) eqn:Ev; bools; simpl; [|naive_solver].
  rewrite rbind_ok. split; intros H.
  - split; [done|]. destruct H as (vs & Hvs & H). exists vs. revert H.
    destruct (length (prepares p) <? _)%nat eqn:E1; [done|].
    destruct (length (commits p) <? _)%nat eqn:E2; [done|].
    rewrite rbind_unit_ok. intros [H1%verify_pbft_signatures_ok H2%verify_pbft_signatures_ok].
    apply Nat.ltb_ge in E1, E2. split_and!; try done; lia.
  - destruct H as (_ & vs & Hvs & H1 & H2 & H3 & H4). exists vs. split; [done|].
    do 2 (rewrite (proj2 (Nat.ltb_ge _ _)) by lia).
    by rewrite rbind_unit_ok, !verify_pbft_signatures_ok.
Qed.

Lemma validate_proposer_ok env h p :
  validate_proposer env h p = Ok tt <-> proposer_valid env h p.
Proof.
  unfold validate_proposer, proposer_valid. destruct (is_genesis h); [naive_solver|].
  rewrite rbind_ok. transitivity (exists vs, validator_set env (proof_epoch p) = Ok vs
      /\ ValidatorSet.contains vs (proposer h) = true
      /\ match p with PoS p => proposer h ∈ at_validator <$> attestations p | PBFT _ => True end);
    [|naive_solver].
  apply exist_proper. intros vs. apply and_iff_compat_l.
  destruct (ValidatorSet.contains vs (proposer h)); simpl; [|naive_solver].
  destruct p as [p|p]; [|naive_solver].
  destruct (existsb _ _) eqn:E; simpl.
  - apply existsb_exists in E as (a & Ha & E). bools. split; [|done]. intros _. split; [done|].
    rewrite <-E. apply list_elem_of_fmap_2. by apply list_elem_of_In.
  - split; [done|]. intros [_ (a & Ha & Hin)%list_elem_of_fmap].
    assert (existsb (fun a => at_validator a =? proposer h) (attestations p) = true) as ?; [|congruence].
    apply existsb_exists. exists a. split; [by apply list_elem_of_In|]. by apply Z.eqb_eq.
Qed.

Lemma validate_structure_ok b cfg : validate_structure b cfg = Ok tt <->
  (length (transactions b) <= max_txs_per_block cfg)%nat
  /\ total_gas (transactions b) <= max_block_gas cfg
  /\ gas_used (header b) <= gas_limit (header b)
  /\ (length (extra_data (header b)) <= MAX_EXTRA_DATA_SIZE)%nat.
Proof.
  unfold validate_structure.
  destruct (max_txs_per_block cfg <? _)%nat eqn:E1; [apply Nat.ltb_lt in E1; split; [done|lia]|].
  destruct (max_block_gas cfg <? _) eqn:E2; [bools; split; [done|lia]|].
  destruct (gas_limit _ <? _) eqn:E3; [bools; split; [done|lia]|].
  destruct (MAX_EXTRA_DATA_SIZE <? _)%nat eqn:E4; [apply Nat.ltb_lt in E4; split; [done|lia]|].
  apply Nat.ltb_ge in E1, E4. bools. by split.
Qed.

(** The three checks of the header against one chain. *)
Lemma header_checks_ok h c t cfg :
  (validate_parent h c = Ok tt /\ validate_height h c = Ok tt /\ validate_timestamp h c t cfg = Ok tt)
  <-> extends c h /\ timestamp h <= wrapping_add 64 t (max_timestamp_drift_secs cfg).
Proof.
  unfold validate_parent, validate_height, validate_timestamp, extends, get_block, has_block, block_count.
  destruct (wrapping_add 64 t _ <? timestamp h) eqn:Et; bools.
  { split; [by intros (_ & _ & ?)|]. intros [_ ?]. lia. }
  destruct (is_genesis h) eqn:Eg.
  - unfold is_genesis in Eg. bools. destruct (0 <? size (known_blocks c))%nat eqn:E0.
    + split; [by intros [? _]|]. intros [Hk _]. rewrite Hk, map_size_empty in E0. done.
    + apply Nat.ltb_ge in E0. rewrite (proj2 (Z.eqb_eq (block_height h) 0)) by done. split; [|done].
      intros _. split; [|done]. apply map_size_empty_iff. lia.
  - destruct (known_blocks c !! parent_hash h) as [p|] eqn:Ep; simpl; [|naive_solver].
    destruct (block_height h =? wrapping_add 64 (block_height p) 1) eqn:Eh; bools; simpl; [|naive_solver].
    destruct (timestamp h <=? timestamp p) eqn:Es; bools.
    + split; [by intros (_ & _ & ?)|]. intros [(p' & Hp' & _ & ?) _]. apply (inj Some) in Hp' as ->. lia.
    + naive_solver.
Qed.

Lemma verify_block_logic_ok env cfg s b :
  known_blocks (chain s) !! block_hash keccak256 b = None ->
  verify_block_logic env cfg (chain s) (chain s) (chain s) (current_view s) b (block_hash keccak256 b)
    = Ok tt <-> acceptable env cfg s b.
Proof.
  intros Hnew. unfold verify_block_logic. rewrite !rbind_unit_ok. split.
  - intros (Hs%validate_structure_ok & Hp & Hh & Ht & Hpr%validate_proposer_ok & Hc).
    destruct (proj1 (header_checks_ok _ _ _ _) (conj Hp (conj Hh Ht))) as [He Htime].
    destruct Hs as (H1 & H2 & H3 & H4). split; try done.
    unfold validate_consensus_proof in Hc. destruct (proof b);
      [by apply validate_pos_proof_ok|by apply validate_pbft_proof_ok in Hc].
  - intros [_ H1 H2 H3 H4 H5 H6 H7 H8].
    destruct (proj2 (header_checks_ok (header b) (chain s) (now env) cfg) (conj H6 H5)) as (Hp & Hh & Ht).
    split_and!; [by apply validate_structure_ok|done|done|done|by apply validate_proposer_ok|].
    unfold validate_consensus_proof. destruct (proof b);
      [by apply validate_pos_proof_ok|by apply validate_pbft_proof_ok].
Qed.

Lemma has_block_false c h : has_block c h = false <-> known_blocks c !! h = None.
Proof. unfold has_block. by rewrite bool_decide_eq_false, <-eq_None_not_Some. Qed.

(** What a call does: nothing, or the header is added. *)
Lemma validate_block_cases env cfg s b :
  (acceptable env cfg s b /\ (validate_block keccak256 env cfg s b).1
     = {| chain := add_block keccak256 (chain s) (header b); current_view := current_view s |})
  \/ (~ acceptable env cfg s b /\ (validate_block keccak256 env cfg s b).1 = s
      /\ is_ok (validate_block keccak256 env cfg s b).2 = false).
Proof.
  unfold validate_block. destruct (has_block (chain s) (block_hash keccak256 b)) eqn:Eh.
  - right. split_and!; [|done|done]. intros [Hn _ _ _ _ _ _ _ _].
    apply has_block_false in Hn. congruence.
  - apply has_block_false in Eh. pose proof (verify_block_logic_ok env cfg s b Eh) as H.
    destruct (verify_block_logic _ _ _ _ _ _ _ _) as [[]|e|].
    + left. split; [by apply H|]. by destruct (publish_block_validated _ _ _ _).
    + right. split_and!; [|done|done]. intros ?%H. done.
    + right. split_and!; [|done|done]. intros ?%H. done.
Qed.
End facts.

(** * Consensus: the chain of known headers

    What [add_block] and its pruning keep, and the invariant of every chain the
    service reaches from a genesis header. *)


Local Open Scope Z_scope.

(** Every entry of the height index is a known header of that height. *)
Definition index_ok (known : gmap Hash BlockHeader) (index : gmap u64 Hash) : Prop :=
  forall n k, index !! n = Some k -> exists h, known !! k = Some h /\ block_height h = n.

Lemma remove_height_ok known index n : index_ok known index ->
  let r := remove_height (known, index) n in
  index_ok r.1 r.2 /\ r.1 ⊆ known /\ r.2 ⊆ index
  /\ forall k h, known !! k = Some h -> block_height h <> n -> r.1 !! k = Some h.
Proof.
  intros Hi. unfold remove_height. simpl. destruct (index !! n) as [k0|] eqn:E; simpl; [|done].
  destruct (Hi n k0 E) as (h0 & H0 & Hh0).
  split_and!; [|apply delete_subseteq|apply delete_subseteq|].
  - intros m k Hk. apply lookup_delete_Some in Hk as [Hm Hk]. destruct (Hi m k Hk) as (h & Hkn & Hh).
    exists h. split; [|done]. rewrite lookup_delete_ne; [done|]. intros ->. congruence.
  - intros k h Hk Hne. rewrite lookup_delete_ne; [done|]. intros ->. congruence.
Qed.

Lemma remove_heights_ok hs : forall known index, index_ok known index ->
  let r := foldl remove_height (known, index) hs in
  index_ok r.1 r.2 /\ r.1 ⊆ known /\ r.2 ⊆ index
  /\ forall k h, known !! k = Some h -> block_height h ∉ hs -> r.1 !! k = Some h.
Proof.
  induction hs as [|n hs IH]; intros known index Hi; cbv zeta; simpl; [done|].
  destruct (remove_height_ok known index n Hi) as (H1 & H2 & H3 & H4).
  destruct (remove_height (known, index) n) as [known' index']. simpl in *.
  destruct (IH known' index' H1) as (J1 & J2 & J3 & J4).
  split_and!; [done|by transitivity known'|by transitivity index'|].
  intros k h Hk Hn. apply J4; [apply H4; [done|]|]; set_solver.
Qed.

Lemma prune_ok c : index_ok (known_blocks c) (height_index c) ->
  index_ok (known_blocks (prune_if_needed c)) (height_index (prune_if_needed c))
  /\ known_blocks (prune_if_needed c) ⊆ known_blocks c
  /\ height_index (prune_if_needed c) ⊆ height_index c
  /\ head (prune_if_needed c) = head c /\ max_blocks (prune_if_needed c) = max_blocks c
  /\ forall k h, known_blocks c !! k = Some h ->
       ch_block_height (head c) - Z.of_nat (max_blocks c) <= block_height h ->
       0 <= block_height h ->
       known_blocks (prune_if_needed c) !! k = Some h.
Proof.
  intros Hi. unfold prune_if_needed. destruct (_ <=? _)%nat; [done|].
  match goal with |- context [foldl remove_height _ ?l] => set (hs := l) end.
  destruct (remove_heights_ok hs _ _ Hi) as (H1 & H2 & H3 & H4).
  destruct (foldl remove_height _ hs) as [known index]. simpl in *.
  split_and!; try done. intros k h Hk Hh Hpos. apply H4; [done|].
  intros [Hlt _]%list_elem_of_filter. unfold saturating_sub in Hlt. lia.
Qed.

Section inv.
Context (keccak256 : list u8 -> Hash).

(** [h] is reached from [g] by [n] links: each names its parent's hash, is one
    higher and strictly later. *)
Inductive descends (g : BlockHeader) : BlockHeader -> nat -> Prop :=
| desc_root : descends g g 0
| desc_child p h n : descends g p n -> parent_hash h = header_hash keccak256 p ->
    block_height h = wrapping_add 64 (block_height p) 1 -> timestamp p < timestamp h ->
    descends g h (S n).

(** [h] is reached from [g] by parent hashes. *)
Inductive follows (g : BlockHeader) : BlockHeader -> Prop :=
| follows_root : follows g g
| follows_child p h : follows g p -> parent_hash h = header_hash keccak256 p -> follows g h.

Record chain_inv (P : BlockHeader -> Prop) (c : ChainState) : Prop := {
  ci_known k h : known_blocks c !! k = Some h -> header_hash keccak256 h = k /\ P h;
  ci_head : exists h, known_blocks c !! ch_block_hash (head c) = Some h
    /\ block_height h = ch_block_height (head c) /\ timestamp h = ch_timestamp (head c);
  ci_max k h : known_blocks c !! k = Some h -> block_height h <= ch_block_height (head c);
  ci_index : index_ok (known_blocks c) (height_index c)
}.

(** A known header with the hash of [h] has its height and its time. *)
Definition no_twin (c : ChainState) (h : BlockHeader) : Prop :=
  forall h', known_blocks c !! header_hash keccak256 h = Some h' ->
    block_height h' = block_height h /\ timestamp h' = timestamp h.

Lemma new_no_twin c h : known_blocks c !! header_hash keccak256 h = None -> no_twin c h.
Proof. intros Hn h' Hh. congruence. Qed.

(** The new head: the added header when it is higher, or the old one is at 0. *)
Definition next_head (c : ChainState) (h : BlockHeader) : ChainHead :=
  if (ch_block_height (head c) <? block_height h) || (ch_block_height (head c) =? 0)
  then {| ch_block_hash := header_hash keccak256 h; ch_block_height := block_height h;
          ch_timestamp := timestamp h |}
  else head c.

(** Adding a new header, before pruning. *)
Lemma insert_index_ok c h : index_ok (known_blocks c) (height_index c) -> no_twin c h ->
  index_ok (<[header_hash keccak256 h := h]> (known_blocks c))
    (<[block_height h := header_hash keccak256 h]> (height_index c)).
Proof.
  intros Hi Hn n k. destruct (decide (n = block_height h)) as [->|Hne].
  - rewrite lookup_insert_eq. intros [= <-]. exists h. by rewrite lookup_insert_eq.
  - rewrite lookup_insert_ne by done. intros Hk. destruct (Hi n k Hk) as (h' & Hh' & Hb).
    exists h'. rewrite lookup_insert_ne; [done|]. intros <-. destruct (Hn h' Hh'). congruence.
Qed.

Lemma add_block_keeps c h : index_ok (known_blocks c) (height_index c) -> no_twin c h ->
  let c' := add_block keccak256 c h in
  index_ok (known_blocks c') (height_index c')
  /\ known_blocks c' ⊆ <[header_hash keccak256 h := h]> (known_blocks c)
  /\ head c' = next_head c h /\ max_blocks c' = max_blocks c
  /\ forall k h', <[header_hash keccak256 h := h]> (known_blocks c) !! k = Some h' ->
       ch_block_height (next_head c h) - Z.of_nat (max_blocks c) <= block_height h' ->
       0 <= block_height h' -> known_blocks c' !! k = Some h'.
Proof.
  intros Hi Hn. cbv zeta. unfold add_block. fold (next_head c h).
  match goal with |- context [prune_if_needed ?x] => set (c1 := x) end.
  destruct (prune_ok c1) as (H1 & H2 & _ & H4 & H5 & H6); [by apply insert_index_ok|]. by split_and!.
Qed.

(** Adding a header keeps the invariant; the first header establishes it. *)
Lemma add_block_inv (P : BlockHeader -> Prop) c h : (forall h, P h -> in_width 64 (block_height h)) ->
  chain_inv P c -> P h -> no_twin c h -> chain_inv P (add_block keccak256 c h).
Proof.
  intros HP [Hk (hh & Hhd & Hb & Ht) Hm Hi] Hh Hn. pose proof (HP h Hh) as Hw.
  destruct (add_block_keeps c h Hi Hn) as (H1 & H2 & H3 & _ & H5).
  assert (Hnext : next_head c h = {| ch_block_hash := header_hash keccak256 h;
      ch_block_height := block_height h; ch_timestamp := timestamp h |}
      /\ (forall k x, known_blocks c !! k = Some x -> block_height x <= block_height h)
    \/ next_head c h = head c /\ block_height h <= ch_block_height (head c)).
  { unfold next_head. destruct (ch_block_height (head c) <? block_height h) eqn:E1; bools; simpl.
    - left. split; [done|]. intros k x Hx. specialize (Hm k x Hx). lia.
    - destruct (ch_block_height (head c) =? 0) eqn:E2; bools; [|by right]. left. split; [done|].
      intros k x Hx. specialize (Hm k x Hx). unfold in_width in Hw. lia. }
  split; [| | |done].
  - intros k x Hx. pose proof (lookup_weaken _ _ _ _ Hx H2) as Hx'.
    apply lookup_insert_Some in Hx' as [[<- <-]|[_ Hx']]; [done|by apply Hk].
  - rewrite H3. destruct Hnext as [[E _]|[E Hle]]; rewrite E in H5 |- *; simpl in *.
    + exists h. split; [|done]. apply H5; [by rewrite lookup_insert_eq|lia|unfold in_width in Hw; lia].
    + destruct (decide (header_hash keccak256 h = ch_block_hash (head c))) as [Heq|Hne].
      * rewrite <- Heq in Hhd. destruct (Hn hh Hhd) as [E1 E2]. exists h. split; [|lia].
        apply H5; [by rewrite <- Heq, lookup_insert_eq|lia|unfold in_width in Hw; lia].
      * exists hh. split; [|done]. apply H5; [by rewrite lookup_insert_ne|lia|].
        destruct (Hk _ _ Hhd) as [_ Hph]. apply HP in Hph. unfold in_width in Hph. lia.
  - rewrite H3. intros k x Hx. pose proof (lookup_weaken _ _ _ _ Hx H2) as Hx'.
    apply lookup_insert_Some in Hx' as [[_ <-]|[_ Hx']].
    + destruct Hnext as [[-> _]|[-> Hle]]; simpl; lia.
    + destruct Hnext as [[-> Hall]|[-> Hle]]; simpl; [by apply (Hall k)|by apply (Hm k)].
Qed.

Lemma chain_with_genesis_inv (P : BlockHeader -> Prop) g : in_width 64 (block_height g) -> P g ->
  chain_inv P (chain_with_genesis keccak256 g).
Proof.
  intros Hw HP. unfold chain_with_genesis.
  destruct (add_block_keeps chain_new g) as (H1 & H2 & H3 & _ & H5); [done|done|].
  assert (Hnext : next_head chain_new g = {| ch_block_hash := header_hash keccak256 g;
      ch_block_height := block_height g; ch_timestamp := timestamp g |}).
  { unfold next_head. simpl. by rewrite orb_true_r. }
  assert (Hall : forall k h, known_blocks (add_block keccak256 chain_new g) !! k = Some h ->
    k = header_hash keccak256 g /\ h = g).
  { intros k h Hh. pose proof (lookup_weaken _ _ _ _ Hh H2) as Hh'.
    by apply lookup_insert_Some in Hh' as [[<- <-]|[_ ?]]. }
  rewrite Hnext in *. split; [| | |done].
  - by intros k h [-> ->]%Hall.
  - rewrite H3. exists g. split; [|done]. apply H5; [by rewrite lookup_insert_eq| |]; simpl;
      unfold in_width in Hw; lia.
  - intros k h [_ ->]%Hall. by rewrite H3.
Qed.

(** ** Interleaved calls *)

(** The headers of the calls, and the ranges of their numbers. *)
Definition section_headers (w : WriteSection) : list BlockHeader :=
  match w with AddSection _ b _ => [header b] | ViewSection _ => [] end.
Definition headers_of (l : list WriteSection) : list BlockHeader := l ≫= section_headers.
Definition header_in_range (h : BlockHeader) : Prop :=
  in_width 64 (block_height h) /\ in_width 64 (timestamp h).

(** Among the given headers, Keccak tells the encodings apart. *)
Definition collision_free (hs : list BlockHeader) : Prop :=
  forall x y, x ∈ hs -> y ∈ hs -> header_hash keccak256 x = header_hash keccak256 y ->
    header_preimage x = header_preimage y.

Lemma preimage_fields x y : header_in_range x -> header_in_range y ->
  header_preimage x = header_preimage y ->
  block_height x = block_height y /\ timestamp x = timestamp y.
Proof.
  intros [Hx Tx] [Hy Ty] H. unfold header_preimage in H.
  apply app_inj_1 in H as [_ H]; [|by rewrite !length_le_bytes].
  apply app_inj_1 in H as [H1 H]; [|by rewrite !length_le_bytes].
  apply app_inj_1 in H as [_ H]; [|by rewrite !length_be_bytes].
  apply app_inj_1 in H as [H2 _]; [|by rewrite !length_le_bytes].
  split; by apply (le_bytes_inj 8).
Qed.

(** The parent that a validation found is still known when the height and the
    time are compared with it, that is, it is not pruned in between. *)
Definition section_keeps (hist : list ConsensusState) (w : WriteSection) : Prop :=
  match w with
  | ViewSection _ => True
  | AddSection _ b r => forall s1 s2 s3, hist !! r_parent r = Some s1 -> hist !! r_height r = Some s2 ->
      hist !! r_time r = Some s3 -> is_Some (known_blocks (chain s1) !! parent_hash (header b)) ->
      is_Some (known_blocks (chain s2) !! parent_hash (header b))
      /\ is_Some (known_blocks (chain s3) !! parent_hash (header b))
  end.
Fixpoint parents_kept (cfg : ConsensusConfig) (hist : list ConsensusState) (l : list WriteSection) : Prop :=
  match l with
  | [] => True
  | w :: l => section_keeps hist w /\ parents_kept cfg (run_section keccak256 cfg hist w) l
  end.

(** What a section does: nothing, a new view, or a block that its checks let in. *)
Lemma run_section_cases cfg hist w (hist' := run_section keccak256 cfg hist w) :
  hist' = hist
  \/ (exists s view, last hist = Some s /\ hist' = hist ++ [set_view s view])
  \/ exists env b r s s1 s2 s3, w = AddSection env b r /\ last hist = Some s
      /\ hist !! r_parent r = Some s1 /\ hist !! r_height r = Some s2 /\ hist !! r_time r = Some s3
      /\ validate_parent (header b) (chain s1) = Ok tt
      /\ validate_height (header b) (chain s2) = Ok tt
      /\ validate_timestamp (header b) (chain s3) (now env) cfg = Ok tt
      /\ hist' = hist ++ [{| chain := add_block keccak256 (chain s) (header b);
                             current_view := current_view s |}].
Proof.
  unfold hist', run_section. destruct (last hist) as [s|]; [|by left].
  destruct w as [env b r|view]; [|by right; left; eauto].
  destruct (hist !! r_known r) as [s0|]; [|by left]. destruct (hist !! r_parent r) as [s1|] eqn:E1; [|by left].
  destruct (hist !! r_height r) as [s2|] eqn:E2; [|by left].
  destruct (hist !! r_time r) as [s3|] eqn:E3; [|by left].
  destruct (hist !! r_view r) as [s4|]; [|by left]. destruct (negb _); [by left|].
  destruct (has_block _ _); [by left|].
  destruct (verify_block_logic _ _ _ _ _ _ _ _) as [[]|e|] eqn:Ev; [|by left..].
  right; right. unfold verify_block_logic in Ev. rewrite !rbind_unit_ok in Ev.
  destruct Ev as (_ & Hp & Hh & Ht & _). by exists env, b, r, s, s1, s2, s3.
Qed.

(** Checks that read one state keep the parent. *)
Lemma section_keeps_same hist env b r : r_parent r = r_height r -> r_height r = r_time r ->
  section_keeps hist (AddSection env b r).
Proof. intros E1 E2. cbn. rewrite E1, E2. intros s1 s2 s3 H1 H2 H3 Hp. by simplify_eq. Qed.

(** A call that no other interrupts reads the newest state everywhere. *)
Definition newest (hist : list ConsensusState) : Reads :=
  let n := pred (length hist) in
  {| r_known := n; r_parent := n; r_height := n; r_time := n; r_view := n |}.

Lemma validate_block_section env cfg hist s b : last hist = Some s ->
  let w := AddSection env b (newest hist) in
  last (run_section keccak256 cfg hist w) = Some (validate_block keccak256 env cfg s b).1
  /\ section_keeps hist w.
Proof.
  intros Hs. split; [|by apply section_keeps_same]. unfold run_section. rewrite Hs. cbn.
  rewrite last_lookup in Hs. rewrite Hs, Nat.leb_refl. cbn. unfold validate_block.
  rewrite <- last_lookup in Hs. destruct (has_block _ _); [done|].
  destruct (verify_block_logic _ _ _ _ _ _ _ _) as [[]|e|]; [|done..]. rewrite last_snoc.
  by destruct (publish_block_validated _ _ _ _).
Qed.

Section runs.
Context (g : BlockHeader) (hs : list BlockHeader).
Hypothesis Hrange : forall h, h ∈ hs -> header_in_range h.
Hypothesis Hfree : collision_free hs.

(** What is known of every header: the run made it, and it follows the genesis. *)
Definition known_ok (h : BlockHeader) : Prop := h ∈ hs /\ follows g h.

Lemma known_ok_width h : known_ok h -> in_width 64 (block_height h).
Proof. intros [Hh _]. by apply Hrange. Qed.

Lemma known_no_twin c h : chain_inv known_ok c -> h ∈ hs -> no_twin c h.
Proof.
  intros Hc Hh h' Hk. destruct (ci_known _ _ Hc _ _ Hk) as [He [Hh' _]].
  apply preimage_fields; [by apply Hrange..|]. by apply Hfree.
Qed.

(** A block whose parent check passed follows a known header. *)
Lemma parent_found c h : chain_inv known_ok c -> validate_parent h c = Ok tt ->
  is_genesis h = false /\ exists p, known_blocks c !! parent_hash h = Some p
    /\ header_hash keccak256 p = parent_hash h /\ known_ok p.
Proof.
  intros Hc. unfold validate_parent, block_count, has_block. destruct (is_genesis h).
  - destruct (0 <? size (known_blocks c))%nat eqn:E; [done|]. apply Nat.ltb_ge in E.
    destruct (ci_head _ _ Hc) as (x & Hx & _). assert (known_blocks c = ∅) as H0 by (apply map_size_empty_iff; lia).
    by rewrite H0 in Hx.
  - case_bool_decide as E; [|done]. destruct E as [p Hp]. intros _. split; [done|]. exists p.
    destruct (ci_known _ _ Hc _ _ Hp). done.
Qed.

Lemma section_known cfg hist w : hist <> [] ->
  Forall (fun s => chain_inv known_ok (chain s)) hist ->
  Forall (fun h => h ∈ hs) (section_headers w) ->
  Forall (fun s => chain_inv known_ok (chain s)) (run_section keccak256 cfg hist w).
Proof.
  intros Hne Hall Hw. destruct (run_section_cases cfg hist w)
    as [->|[(s & v & Hs & ->)|(env & b & r & s & s1 & s2 & s3 & -> & Hs & H1 & _ & _ & Hp & _ & _ & ->)]];
    [done| |]; apply Forall_app; (split; [done|]); constructor; [|done| |done];
    rewrite last_lookup in Hs; pose proof (Forall_lookup_1 _ _ _ _ Hall Hs) as Hc; [done|]. cbn.
  apply Forall_cons in Hw as [Hh _]. pose proof (Forall_lookup_1 _ _ _ _ Hall H1) as Hc1.
  destruct (parent_found _ _ Hc1 Hp) as (_ & p & _ & Hpp & [_ Hf]).
  apply add_block_inv; [by apply known_ok_width|done| |by apply known_no_twin].
  split; [done|]. by eapply follows_child.
Qed.

(** With the parents kept, the links are one higher and later. *)
Lemma section_descends cfg hist w :
  Forall (fun s => chain_inv known_ok (chain s)) hist ->
  Forall (fun s => forall k h, known_blocks (chain s) !! k = Some h -> exists n, descends g h n) hist ->
  Forall (fun h => h ∈ hs) (section_headers w) -> section_keeps hist w ->
  Forall (fun s => forall k h, known_blocks (chain s) !! k = Some h -> exists n, descends g h n)
    (run_section keccak256 cfg hist w).
Proof.
  intros Hall Hd Hw Hkeep. destruct (run_section_cases cfg hist w)
    as [->|[(s & v & Hs & ->)|(env & b & r & s & s1 & s2 & s3 & -> & Hs & H1 & H2 & H3 & Hp & Hh & Ht & ->)]];
    [done| |]; apply Forall_app; (split; [done|]); constructor; [|done| |done];
    rewrite last_lookup in Hs; pose proof (Forall_lookup_1 _ _ _ _ Hd Hs) as Hds; [done|]. cbn.
  apply Forall_cons in Hw as [Hin _]. pose proof (Forall_lookup_1 _ _ _ _ Hall Hs) as Hc.
  destruct (add_block_keeps (chain s) (header b) (ci_index _ _ Hc) (known_no_twin _ _ Hc Hin)) as (_ & Hsub & _).
  intros k h Hk. pose proof (lookup_weaken _ _ _ _ Hk Hsub) as Hk'.
  apply lookup_insert_Some in Hk' as [[_ <-]|[_ Hk']]; [|by eapply Hds].
  destruct (parent_found _ _ (Forall_lookup_1 _ _ _ _ Hall H1) Hp) as (Hg & p1 & Hp1 & _).
  destruct (Hkeep s1 s2 s3 H1 H2 H3 ltac:(by eexists)) as [[p2 Hp2] [p3 Hp3]].
  destruct (ci_known _ _ (Forall_lookup_1 _ _ _ _ Hall H2) _ _ Hp2) as [E2 [I2 _]].
  destruct (ci_known _ _ (Forall_lookup_1 _ _ _ _ Hall H3) _ _ Hp3) as [E3 [I3 _]].
  destruct (preimage_fields p2 p3) as [_ Et]; [by apply Hrange..|apply Hfree; [done..|congruence]|].
  destruct (Forall_lookup_1 _ _ _ _ Hd H2 _ _ Hp2) as [n Hn]. exists (S n).
  unfold validate_height, validate_timestamp, get_block in *. rewrite Hg, Hp2 in Hh. rewrite Hg, Hp3 in Ht.
  apply (desc_child g p2); [done|done| |].
  - destruct (block_height (header b) =? _) eqn:E; [|done]. by bools.
  - destruct (_ <? _); [done|]. destruct (_ <=? _) eqn:E; [done|]. bools. lia.
Qed.

Lemma run_section_nonempty cfg hist w : hist <> [] -> run_section keccak256 cfg hist w <> [].
Proof.
  intros Hne. destruct (run_section_cases cfg hist w)
    as [->|[(? & ? & ? & ->)|(? & ? & ? & ? & ? & ? & ? & _ & _ & _ & _ & _ & _ & _ & _ & ->)]];
    [done|by destruct hist..].
Qed.

Lemma sections_known cfg l : forall hist, hist <> [] ->
  Forall (fun s => chain_inv known_ok (chain s)) hist -> Forall (fun h => h ∈ hs) (headers_of l) ->
  Forall (fun s => chain_inv known_ok (chain s)) (run_sections keccak256 cfg hist l)
  /\ (Forall (fun s => forall k h, known_blocks (chain s) !! k = Some h -> exists n, descends g h n) hist ->
      parents_kept cfg hist l ->
      Forall (fun s => forall k h, known_blocks (chain s) !! k = Some h -> exists n, descends g h n)
        (run_sections keccak256 cfg hist l)).
Proof.
  induction l as [|w l IH]; intros hist Hne Hall Hl; [done|].
  cbn in Hl. apply Forall_app in Hl as [Hw Hl].
  destruct (IH _ (run_section_nonempty cfg hist w Hne) (section_known cfg hist w Hne Hall Hw) Hl) as [I1 I2].
  split; [done|]. intros Hd [Hk Hkept]. apply I2; [|done]. by apply section_descends.
Qed.

End runs.
End inv.
