(* ===== verification/ConsensusProps.v ===== *)
(** * Consensus: properties

    The claims about [qc-08-consensus]: which blocks are accepted, what the
    chain of accepted headers looks like, what a quorum guarantees and what the
    proofs do not bind. *)

From stdpp Require Import strings.
From S2P Require Import Prelude Consensus ConsensusFacts.
Local Open Scope Z_scope.
Local Open Scope qc_scope.

(** The sum of the stakes a fold adds up without wrapping. *)
Definition sum_gas (txs : list SignedTransaction) : Z := foldr (fun tx s => gas_cost tx + s) 0 txs.

Lemma total_gas_mod txs : total_gas txs = sum_gas txs mod 2 ^ 64.
Proof.
  unfold total_gas. transitivity ((0 + sum_gas txs) mod 2 ^ 64); [|done].
  change 0 with (0 mod 2 ^ 64) at 1. generalize 0. induction txs as [|tx txs IH]; intros z; simpl.
  - by rewrite Z.add_0_r.
  - unfold wrapping_add at 2. rewrite Zplus_mod_idemp_l, IH. f_equal. lia.
Qed.

Lemma descends_height keccak256 g h n : in_width 64 (block_height g) -> descends keccak256 g h n ->
  block_height h = (block_height g + Z.of_nat n) mod 2 ^ 64
  /\ timestamp g + Z.of_nat n <= timestamp h.
Proof.
  intros Hg. induction 1 as [|p h n _ [IH1 IH2] _ Hh Ht].
  - rewrite Z.add_0_r, Z.mod_small by done. lia.
  - rewrite Hh, IH1. unfold wrapping_add. rewrite Zplus_mod_idemp_l.
    split; [f_equal; lia|lia].
Qed.

(** Two duplicate-free lists inside a third share an element when they are
    together longer. *)
Lemma quorum_overlap (l1 l2 l : list Z) : NoDup l1 -> NoDup l2 -> l1 ⊆ l -> l2 ⊆ l ->
  (length l < length l1 + length l2)%nat -> exists x, x ∈ l1 /\ x ∈ l2.
Proof.
  intros Hn1 Hn2 Hs1 Hs2 Hlen. destruct (decide (Exists (fun x => x ∈ l2) l1)) as [He|He].
  - apply Exists_exists in He. done.
  - exfalso. apply not_Exists_Forall in He; [|apply _]. rewrite Forall_forall in He.
    assert (Hnd : NoDup (l1 ++ l2)) by (apply NoDup_app; done).
    assert (Hsub : l1 ++ l2 ⊆ l) by set_solver.
    pose proof (submseteq_length _ _ (NoDup_submseteq _ _ Hnd Hsub)) as Hle.
    rewrite length_app in Hle. lia.
Qed.

Section claims.
Context (keccak256 : list u8 -> Hash).

(** C10 (functional): which blocks [validate_block] accepts.  The call returns a
    validated block exactly when the block is acceptable - unknown, within the
    structural limits, extending a known block by one height at a later time
    (or the genesis of an empty chain), with a proposer in the validator set who
    attested, and with a valid proof - and the event is published.  The header
    is added exactly when the block is acceptable; otherwise the state is
    unchanged. *)
Theorem validate_block_accepts_iff env cfg s b :
  let r := validate_block keccak256 env cfg s b in
  (forall vb, r.2 = Ok vb <->
     acceptable keccak256 env cfg s b
     /\ publish_block_validated env vb (proof b) (now env) = Ok tt
     /\ vb = {| v_header := header b; v_transactions := transactions b;
                v_validation_proof := proof b |})
  /\ (acceptable keccak256 env cfg s b -> chain r.1 = add_block keccak256 (chain s) (header b))
  /\ (~ acceptable keccak256 env cfg s b -> r.1 = s).
Proof.
  cbv zeta. destruct (validate_block_cases keccak256 env cfg s b) as [[Ha Hs]|(Hn & Hs & Ho)].
  - split_and!; [|by rewrite Hs|done]. intros vb.
    pose proof (ac_new _ _ _ _ _ Ha) as Hnew.
    unfold validate_block. rewrite (proj2 (has_block_false _ _) Hnew).
    rewrite (proj2 (verify_block_logic_ok keccak256 env cfg s b Hnew) Ha).
    match goal with |- context [publish_block_validated env ?v _ _] => set (v0 := v) end.
    destruct (publish_block_validated env v0 (proof b) (now env)) as [[]|m|] eqn:E; simpl; split.
    + intros [= <-]. done.
    + by intros (_ & _ & ->).
    + done.
    + intros (_ & Hp & ->). congruence.
    + done.
    + intros (_ & Hp & ->). congruence.
  - split_and!; [|done|done]. intros vb. split; [intros E; by rewrite E in Ho|]. by intros [? _].
Qed.

(** C11 (invariant): the chain of accepted headers.  However the checks and
    additions of concurrent calls on a service started from a genesis header
    interleave, as long as Keccak tells the submitted headers apart: every known
    header is stored under its hash and leads back to the genesis header by
    parent hashes, the head is a known header and no known header is higher.  If
    moreover no call's parent was pruned between its check of the parent and its
    checks of height and time (calls that run one after the other never see
    that), every link is one higher and strictly later, so that the height of a
    header is the genesis height plus the number of links. *)
Theorem chain_reachable_inv cfg g l s (hs := g :: headers_of l)
  (Hr : Forall header_in_range hs) (Hf : collision_free keccak256 hs)
  (Hs : s ∈ run_sections keccak256 cfg [state_with_genesis keccak256 g] l) :
  let c := chain s in
  (forall k h, known_blocks c !! k = Some h ->
     header_hash keccak256 h = k /\ block_height h <= height c /\ h ∈ hs /\ follows keccak256 g h)
  /\ (exists h, get_block c (ch_block_hash (head c)) = Some h
       /\ block_height h = height c /\ timestamp h = ch_timestamp (head c))
  /\ (parents_kept keccak256 cfg [state_with_genesis keccak256 g] l ->
      forall k h, known_blocks c !! k = Some h ->
      exists n, descends keccak256 g h n
        /\ block_height h = (block_height g + Z.of_nat n) mod 2 ^ 64
        /\ timestamp g + Z.of_nat n <= timestamp h).
Proof.
  cbv zeta. rewrite Forall_forall in Hr. assert (Hg : g ∈ hs) by by left.
  destruct (sections_known keccak256 g hs Hr Hf cfg l [state_with_genesis keccak256 g]) as [H1 H2]; [done| | |].
  - constructor; [|done]. apply chain_with_genesis_inv; [by apply Hr|]. split; [done|constructor].
  - apply Forall_forall. intros h Hh. by right.
  - rewrite Forall_forall in H1. destruct (H1 s Hs) as [Hk Hh Hm _]. split_and!; [|exact Hh|].
    + intros k h Hkh. destruct (Hk k h Hkh) as (? & ? & ?). split_and!; try done. by apply (Hm k).
    + intros Hkept k h Hkh.
      assert (H0 : Forall (fun s => forall k h, known_blocks (chain s) !! k = Some h ->
        exists n, descends keccak256 g h n) [state_with_genesis keccak256 g]).
      { constructor; [|done]. intros k0 h0 Hk0.
        destruct (chain_with_genesis_inv keccak256 (fun h => h = g) g (proj1 (Hr g Hg)) eq_refl) as [Hg0 _ _ _].
        destruct (Hg0 k0 h0 Hk0) as [_ ->]. exists 0%nat. constructor. }
      specialize (H2 H0 Hkept). rewrite Forall_forall in H2. destruct (H2 s Hs k h Hkh) as [n Hd].
      exists n. split; [done|]. apply (descends_height keccak256); [by apply Hr|done].
Qed.

(** C13 (safety): two accepted proofs share a signer.  If two blocks have valid
    proof-of-stake proofs of one epoch under the default threshold, and the
    validator set of that epoch was made from distinct validators, neither two
    nor four of them, then some validator of the set signed both blocks'
    messages. *)
Theorem conflicting_blocks_share_signer env cfg vs p1 p2 h1 h2
  (Hcfg : min_attestation_percent cfg = 67)
  (Hvs : validator_set env (pos_epoch p1) = Ok vs) (Hep : pos_epoch p2 = pos_epoch p1)
  (Hok : set_ok vs) (Hsize : ValidatorSet.len vs <> 2%nat /\ ValidatorSet.len vs <> 4%nat)
  (H1 : validate_pos_proof env cfg p1 h1 = Ok tt) (H2 : validate_pos_proof env cfg p2 h2 = Ok tt) :
  exists v a1 a2, v ∈ vi_id <$> validators vs
    /\ a1 ∈ attestations p1 /\ at_validator a1 = v
    /\ attested env vs (attestation_signing_message h1 (pos_slot p1) (pos_epoch p1)) a1
    /\ a2 ∈ attestations p2 /\ at_validator a2 = v
    /\ attested env vs (attestation_signing_message h2 (pos_slot p2) (pos_epoch p1)) a2.
Proof.
  apply validate_pos_proof_ok in H1 as (vs1 & E1 & Hnd1 & Hf1 & Hr1).
  apply validate_pos_proof_ok in H2 as (vs2 & E2 & Hnd2 & Hf2 & Hr2).
  rewrite Hep in E2, Hf2. assert (vs1 = vs) as -> by congruence. assert (vs2 = vs) as -> by congruence.
  rewrite Hcfg in Hr1, Hr2. rewrite Forall_forall in Hf1, Hf2.
  assert (Hsub : forall p m, (forall a, a ∈ attestations p -> attested env vs m a) ->
    (at_validator <$> attestations p) ⊆ vi_id <$> validators vs).
  { intros p m Hf x (a & -> & Ha)%list_elem_of_fmap. destruct (Hf a Ha) as (pk & Hpk & _).
    by apply (get_pubkey_member vs _ pk). }
  destruct (quorum_overlap (at_validator <$> attestations p1) (at_validator <$> attestations p2)
    (vi_id <$> validators vs)) as (v & Hv1 & Hv2); [done|done|by eapply Hsub|by eapply Hsub| |].
  - rewrite !length_fmap. unfold ValidatorSet.required_attestations, ValidatorSet.len in *.
    change (Z.to_nat 67) with 67%nat in *.
    pose proof (Nat.div_mod_eq (length (validators vs) * 67) 100) as Hd.
    pose proof (Nat.mod_upper_bound (length (validators vs) * 67) 100). lia.
  - apply list_elem_of_fmap in Hv1 as (a1 & -> & Ha1). apply list_elem_of_fmap in Hv2 as (a2 & Hva & Ha2).
    exists (at_validator a1), a1, a2. split_and!; try done.
    + destruct (Hf1 a1 Ha1) as (pk & Hpk & _). by apply (get_pubkey_member vs _ pk).
    + by apply Hf1.
    + by apply Hf2.
Qed.

(** When quorums intersect.  With the default threshold of 67
    percent, rounded down, two quorums of a set of [n] validators must overlap
    exactly when [n] is neither two nor four: there half of the set is a
    quorum.  For every set of less than 300 validators whose number is a positive
    multiple of three it falls short of the [2 n / 3 + 1] of the specification. *)
Theorem quorums_intersect_iff vs (n := ValidatorSet.len vs)
  (q := ValidatorSet.required_attestations vs (min_attestation_percent consensus_config_default)) :
  ((n < 2 * q)%nat <-> n <> 2%nat /\ n <> 4%nat)
  /\ (n = 4%nat -> q = 2%nat)
  /\ (forall k, n = (3 * k)%nat -> (0 < k < 100)%nat -> (q < 2 * n / 3 + 1)%nat).
Proof.
  unfold q, n, ValidatorSet.required_attestations, ValidatorSet.len. simpl min_attestation_percent.
  change (Z.to_nat 67) with 67%nat. set (m := length (validators vs)).
  pose proof (Nat.div_mod_eq (m * 67) 100) as Hd.
  pose proof (Nat.mod_upper_bound (m * 67) 100 ltac:(lia)) as Hb.
  pose proof (Nat.div_mod_eq (2 * m) 3) as Hd3.
  pose proof (Nat.mod_upper_bound (2 * m) 3 ltac:(lia)) as Hb3.
  split_and!; lia.
Qed.

(** Proofs do not bind the transactions.  A block that is accepted
    stays acceptable, with the same hash, proof and attestations, when its
    transactions are replaced by any others within the limits and its
    transaction, state and receipt roots by any others: the header hash covers
    none of them. *)
Theorem transactions_not_committed env cfg s b txs tr sr rr
  (Ha : acceptable keccak256 env cfg s b) (Hn : (length txs <= max_txs_per_block cfg)%nat)
  (Hgas : total_gas txs <= max_block_gas cfg) :
  let h := header b in
  let b' := {| header := {|
      version := version h; block_height := block_height h; parent_hash := parent_hash h;
      timestamp := timestamp h; proposer := proposer h; transactions_root := tr; state_root := sr;
      receipts_root := rr; gas_limit := gas_limit h; gas_used := gas_used h;
      extra_data := extra_data h |}; transactions := txs; proof := proof b |} in
  block_hash keccak256 b' = block_hash keccak256 b /\ acceptable keccak256 env cfg s b'.
Proof.
  intros h b'. assert (Hh : block_hash keccak256 b' = block_hash keccak256 b) by done.
  split; [done|]. destruct Ha. split; rewrite ?Hh; done.
Qed.

(** Votes of the PBFT proof are neither counted per validator nor
    tied to the block.  One validator's signed prepare and commit messages, for
    whatever view, sequence and block they name, repeated as often as votes are
    required, make a proof that is accepted for every block hash. *)
Theorem pbft_votes_not_bound env cfg view epoch vs prep com hash
  (Hvs : validator_set env epoch = Ok vs)
  (Hp : pbft_signed env vs prepare_message prep) (Hc : pbft_signed env vs commit_message com) :
  let n := ValidatorSet.required_pbft_votes (byzantine_threshold cfg) in
  validate_pbft_proof env cfg view
    {| prepares := replicate n prep; commits := replicate n com; pbft_view := view;
       pbft_epoch := epoch |} hash = Ok tt.
Proof.
  cbv zeta. apply validate_pbft_proof_ok. split; [done|]. exists vs. simpl.
  rewrite !length_replicate. unfold ValidatorSet.required_pbft_votes.
  split_and!; [done|done|done|by apply Forall_replicate|by apply Forall_replicate].
Qed.

(** A failed publication loses the event.  When the event bus
    refuses the event of an acceptable block, the call fails but the header is
    in the chain, so every later call with the block is refused as already
    validated and its event is never published. *)
Theorem failed_publish_not_retried env env' cfg s b m
  (Hw : in_width 64 (block_height (header b)))
  (Hi : index_ok (known_blocks (chain s)) (height_index (chain s)))
  (Hhead : ch_block_height (head (chain s)) - Z.of_nat (max_blocks (chain s))
    <= block_height (header b))
  (Ha : acceptable keccak256 env cfg s b)
  (Hpub : forall vb, publish_block_validated env vb (proof b) (now env) = Err m) :
  let r := validate_block keccak256 env cfg s b in
  r.2 = Err (EventBusError m)
  /\ (validate_block keccak256 env' cfg r.1 b).2 = Err (AlreadyValidated (block_hash keccak256 b)).
Proof.
  cbv zeta. pose proof (ac_new _ _ _ _ _ Ha) as Hnew.
  destruct (add_block_keeps keccak256 (chain s) (header b) Hi (new_no_twin _ _ _ Hnew)) as (_ & _ & _ & _ & Hkeep).
  unfold validate_block at 1 3. rewrite (proj2 (has_block_false _ _) Hnew).
  rewrite (proj2 (verify_block_logic_ok keccak256 env cfg s b Hnew) Ha), Hpub. simpl.
  split; [done|]. unfold validate_block. simpl. unfold has_block.
  rewrite bool_decide_true; [done|]. exists (header b). unfold in_width in Hw.
  apply Hkeep; [by rewrite lookup_insert_eq| |lia]. unfold next_head.
  destruct (_ || _); simpl; lia.
Qed.
End claims.

(** ** Witnesses and examples *)

Definition toy_keccak (l : list u8) : Hash := from_be_bytes l.

Definition sample_header (height : u64) (parent : Hash) (time : u64) (by_ : ValidatorId) : BlockHeader := {|
  version := 1; block_height := height; parent_hash := parent; timestamp := time; proposer := by_;
  transactions_root := None; state_root := None; receipts_root := 0; gas_limit := 100;
  gas_used := 0; extra_data := [] |}.

Definition sample_validators (n : nat) : ValidatorSet :=
  ValidatorSet.new 0 ((fun i => {| vi_id := i; vi_stake := 10; vi_pubkey := replicate 48 i;
                                   vi_active := true |}) <$> seqZ 1 (Z.of_nat n)).

(** A signature verifies when its first byte is the key's. *)
Definition sample_env (n : nat) (bus : result string unit) : Env := {|
  now := 100;
  get_epoch_state_root _ := Ok 0;
  get_validator_set_at_epoch _ _ := Ok (sample_validators n);
  current_epoch := 0;
  verify_ecdsa _ sig pk := bool_decide (sig !! 0%nat = pk !! 1%nat);
  verify_aggregate_bls _ _ _ := false;
  get_transactions_for_block _ _ := Ok [];
  publish_block_validated _ _ _ := bus
|}.

Definition sample_attestation (v : ValidatorId) : Attestation := {|
  at_validator := v; at_block_hash := 0; at_signature := replicate 65 v; at_slot := 0 |}.

Definition pos_by (l : list ValidatorId) : PoSProof := {|
  attestations := sample_attestation <$> l; pos_epoch := 0; pos_slot := 0 |}.

Definition genesis0 : BlockHeader := sample_header 0 0 10 0.
Definition block1 : Block := {|
  header := sample_header 1 (header_hash toy_keccak genesis0) 20 1; transactions := [];
  proof := PoS (pos_by [1; 2]) |}.
Definition block2 : Block := {|
  header := sample_header 2 (block_hash toy_keccak block1) 30 2; transactions := [];
  proof := PoS (pos_by [2; 3]) |}.
Definition genesis_state : ConsensusState := state_with_genesis toy_keccak genesis0.

Lemma block1_acceptable bus :
  acceptable toy_keccak (sample_env 3 bus) consensus_config_default genesis_state block1.
Proof. apply verify_block_logic_ok; vm_compute; reflexivity. Qed.

(** Two calls validate the first block at once, another one the second block
    while the view changes. *)
Definition sample_sections : list WriteSection :=
  let reads k c v := {| r_known := k; r_parent := c; r_height := c; r_time := c; r_view := v |} in
  [AddSection (sample_env 3 (Ok tt)) block1 (reads 0 0 0)%nat;
   AddSection (sample_env 3 (Ok tt)) block1 (reads 0 0 1)%nat; ViewSection 1;
   AddSection (sample_env 3 (Ok tt)) block2 (reads 0 1 3)%nat].

Definition sample_history : list ConsensusState :=
  run_sections toy_keccak consensus_config_default [genesis_state] sample_sections.

Lemma sample_collision_free : collision_free toy_keccak (genesis0 :: headers_of sample_sections).
Proof.
  assert (H : Forall (fun x => Forall (fun y => header_hash toy_keccak x = header_hash toy_keccak y ->
      header_preimage x = header_preimage y) (genesis0 :: headers_of sample_sections))
    (genesis0 :: headers_of sample_sections)) by (apply (bool_decide_unpack _); vm_compute; exact I).
  intros x y Hx Hy. rewrite Forall_forall in H. specialize (H x Hx). rewrite Forall_forall in H. by apply H.
Qed.

Lemma sample_parents_kept :
  parents_kept toy_keccak consensus_config_default [genesis_state] sample_sections.
Proof.
  split; [by apply section_keeps_same|]. split; [by apply section_keeps_same|]. split; [done|].
  split; [by apply section_keeps_same|done].
Qed.

Lemma sample_accepts : exists s, s ∈ sample_history
  /\ known_blocks (chain s) !! block_hash toy_keccak block2 = Some (header block2).
Proof.
  assert (H : sample_history !! 4%nat ≫= (fun s => known_blocks (chain s) !! block_hash toy_keccak block2)
    = Some (header block2)) by (vm_compute; reflexivity).
  destruct (sample_history !! 4%nat) as [s|] eqn:Es; [|discriminate H]. exists s.
  split; [by eapply list_elem_of_lookup_2|exact H].
Qed.

Lemma chain_reachable_inv_witness :
  exists s n, s ∈ sample_history
    /\ known_blocks (chain s) !! block_hash toy_keccak block2 = Some (header block2)
    /\ descends toy_keccak genesis0 (header block2) n.
Proof.
  destruct sample_accepts as (s & Hs & Hk).
  destruct (chain_reachable_inv toy_keccak consensus_config_default genesis0 sample_sections s) as (_ & _ & H).
  - repeat constructor; done.
  - apply sample_collision_free.
  - exact Hs.
  - destruct (H sample_parents_kept _ _ Hk) as (n & Hd & _).
    exists s, n. split; [exact Hs|]. split; [exact Hk|exact Hd].
Defined.

Lemma conflicting_blocks_share_signer_witness :
  exists v, v ∈ vi_id <$> validators (sample_validators 3) /\ v = 2.
Proof.
  destruct (conflicting_blocks_share_signer (sample_env 3 (Ok tt)) consensus_config_default
    (sample_validators 3) (pos_by [1; 2]) (pos_by [2; 3]) 7 8)
    as (v & a1 & a2 & Hv & H1 & <- & _ & H2 & E & _).
  - reflexivity.
  - reflexivity.
  - reflexivity.
  - reflexivity.
  - split; discriminate.
  - vm_compute; reflexivity.
  - vm_compute; reflexivity.
  - exists (at_validator a1). split; [exact Hv|]. simpl in H1, H2.
    repeat (apply elem_of_cons in H1 as [->|H1]; [|]); try (by apply elem_of_nil in H1);
      repeat (apply elem_of_cons in H2 as [->|H2]; [|]); try (by apply elem_of_nil in H2);
      simpl in *; congruence.
Defined.

Lemma transactions_not_committed_witness :
  acceptable toy_keccak (sample_env 3 (Ok tt)) consensus_config_default genesis_state
    {| header := {|
         version := 1; block_height := 1; parent_hash := header_hash toy_keccak genesis0;
         timestamp := 20; proposer := 1; transactions_root := Some 5; state_root := Some 6;
         receipts_root := 7; gas_limit := 100; gas_used := 0; extra_data := [] |};
       transactions := [{| tx_hash := 9; tx_from := 1; tx_to := None; tx_value := 1000;
         tx_gas_limit := 50; tx_gas_price := 1; tx_nonce := 0; tx_data := []; tx_signature := [] |}];
       proof := proof block1 |}.
Proof.
  refine (proj2 (transactions_not_committed toy_keccak (sample_env 3 (Ok tt)) consensus_config_default
    genesis_state block1 _ (Some 5) (Some 6) 7 (block1_acceptable _) _ _)).
  - vm_compute. lia.
  - vm_compute. discriminate.
Defined.

Definition sample_vote (v : ValidatorId) (hash : Hash) : PbftMessage := {|
  pm_view := 5; pm_sequence := 6; pm_block_hash := hash; pm_validator := v;
  pm_signature := replicate 65 v |}.

Lemma pbft_votes_not_bound_witness :
  validate_pbft_proof (sample_env 4 (Ok tt)) consensus_config_default 0
    {| prepares := replicate 3 (sample_vote 1 77); commits := replicate 3 (sample_vote 1 77);
       pbft_view := 0; pbft_epoch := 0 |} 88 = Ok tt.
Proof.
  refine (pbft_votes_not_bound (sample_env 4 (Ok tt)) consensus_config_default 0 0
    (sample_validators 4) (sample_vote 1 77) (sample_vote 1 77) 88 _ _ _).
  - reflexivity.
  - split; [vm_compute; reflexivity|]. exists (replicate 48 1). split; vm_compute; reflexivity.
  - split; [vm_compute; reflexivity|]. exists (replicate 48 1). split; vm_compute; reflexivity.
Defined.

Lemma failed_publish_not_retried_witness :
  let r := validate_block toy_keccak (sample_env 3 (Err "bus")) consensus_config_default genesis_state block1 in
  (validate_block toy_keccak (sample_env 3 (Ok tt)) consensus_config_default r.1 block1).2
  = Err (AlreadyValidated (block_hash toy_keccak block1)).
Proof.
  refine (proj2 (failed_publish_not_retried toy_keccak (sample_env 3 (Err "bus")) (sample_env 3 (Ok tt))
    consensus_config_default genesis_state block1 "bus" _ _ _ (block1_acceptable _) _)).
  - done.
  - by apply (chain_with_genesis_inv toy_keccak (fun _ => True) genesis0).
  - vm_compute. discriminate.
  - reflexivity.
Defined.

(** Half of four validators is a quorum: two blocks of one height are accepted
    on disjoint sets of honest votes. *)
Example disjoint_quorums :
  let env := sample_env 4 (Ok tt) in
  let b v w := {| header := sample_header 1 (header_hash toy_keccak genesis0) 20 v;
                  transactions := []; proof := PoS (pos_by [v; w]) |} in
  let s1 := (validate_block toy_keccak env consensus_config_default genesis_state (b 1 2)).1 in
  is_ok (validate_block toy_keccak env consensus_config_default genesis_state (b 1 2)).2 = true
  /\ is_ok (validate_block toy_keccak env consensus_config_default s1 (b 3 4)).2 = true.
Proof. vm_compute. split; reflexivity. Qed.

(** Two gas limits that add up to [2^64] pass the gas check. *)
Example gas_sum_wraps :
  let tx := {| tx_hash := 0; tx_from := 0; tx_to := None; tx_value := 0; tx_gas_limit := 2 ^ 63;
               tx_gas_price := 0; tx_nonce := 0; tx_data := []; tx_signature := [] |} in
  validate_structure {| header := sample_header 1 0 0 0; transactions := [tx; tx];
                        proof := PoS (pos_by []) |} consensus_config_default = Ok tt.
Proof. reflexivity. Qed.

(** Headers that share their height with another are never pruned: only the last
    of a height is in the index that pruning walks. *)
Example forks_outlive_pruning :
  let c0 := add_block toy_keccak (with_max_blocks 2) genesis0 in
  let fork := foldl (add_block toy_keccak) c0
    ((fun i => sample_header 1 (header_hash toy_keccak genesis0) 20 i) <$> seqZ 1 10) in
  let c := foldl (add_block toy_keccak) fork
    ((fun i => sample_header i 0 (10 * i) 0) <$> seqZ 2 20) in
  height c = 21 /\ block_count c = 12%nat /\ max_blocks c = 2%nat.
Proof. vm_compute. split_and!; reflexivity. Qed.

(** A parent pruned between the check of the parent and the check of the height
    leaves the height unchecked. *)
Example pruned_parent_skips_height :
  let b := {| header := sample_header 77 (header_hash toy_keccak genesis0) 20 1; transactions := [];
              proof := PoS (pos_by [1; 2]) |} in
  verify_block_logic (sample_env 3 (Ok tt)) consensus_config_default (chain genesis_state)
    chain_new chain_new 0 b (block_hash toy_keccak b) = Ok tt.
Proof. vm_compute. reflexivity. Qed.

(** An empty validator set and no attestation: the percentage is a division by
    zero, which a genesis block reaches. *)
Example empty_set_panics :
  let b := {| header := genesis0; transactions := []; proof := PoS (pos_by []) |} in
  (validate_block toy_keccak (sample_env 0 (Ok tt)) consensus_config_default state_new b).2 = Panic.
Proof. vm_compute. reflexivity. Qed.
