(* ===== verification/ForkChoice.v ===== *)
(** * Consensus: fork choice ([qc-08-consensus/src/domain/fork_choice.rs])

    The LMD-GHOST store: the block tree, the latest vote of each validator, the
    cached weights and the head.  The loops follow hashes, which the code does
    not bound; they get fuel, and [None] of [head_loop] is a loop that is still
    running.  [weight_loop] stops at a block it has seen, so one more than the
    number of blocks is enough fuel for it. *)

From S2P Require Import Prelude Consensus.
Local Open Scope Z_scope.

Record LMDGhostStore := {
  blocks : gmap Hash BlockHeader;
  children : gmap Hash (list Hash);
  latest_votes : gmap ValidatorId Hash;
  weight_cache : gmap Hash u128;
  cache_valid : bool;
  justified_checkpoint : option Hash
}.

Module Ghost.

Definition new : LMDGhostStore := {|
  blocks := ∅; children := ∅; latest_votes := ∅; weight_cache := ∅; cache_valid := false;
  justified_checkpoint := None |}.

Definition invalidate_cache (s : LMDGhostStore) : LMDGhostStore := {|
  blocks := blocks s; children := children s; latest_votes := latest_votes s;
  weight_cache := weight_cache s; cache_valid := false;
  justified_checkpoint := justified_checkpoint s |}.

Definition on_attestation (s : LMDGhostStore) (validator : ValidatorId) (target : Hash)
  : LMDGhostStore := invalidate_cache {|
  blocks := blocks s; children := children s; latest_votes := <[validator := target]> (latest_votes s);
  weight_cache := weight_cache s; cache_valid := cache_valid s;
  justified_checkpoint := justified_checkpoint s |}.

Definition set_justified (s : LMDGhostStore) (checkpoint : Hash) : LMDGhostStore := invalidate_cache {|
  blocks := blocks s; children := children s; latest_votes := latest_votes s;
  weight_cache := weight_cache s; cache_valid := cache_valid s;
  justified_checkpoint := Some checkpoint |}.

Definition has_block (s : LMDGhostStore) (hash : Hash) : bool :=
  bool_decide (is_Some (blocks s !! hash)).
Definition get_block (s : LMDGhostStore) (hash : Hash) : option BlockHeader := blocks s !! hash.
Definition total_votes (s : LMDGhostStore) : nat := size (latest_votes s).
Definition get_weight (cache : gmap Hash u128) (b : Hash) : u128 := default 0 (cache !! b).

(** The [while] loop of [add_weight_to_ancestors]. *)
Fixpoint weight_loop (fuel : nat) (m : gmap Hash BlockHeader) (stake : u128) (visited : gset Hash)
  (cache : gmap Hash u128) (current : Hash) : gmap Hash u128 :=
  match fuel with
  | O => cache
  | S fuel =>
      if decide (current ∈ visited) then cache
      else
        match m !! current with
        | None => cache
        | Some h =>
            let cache := <[current := wrapping_add 128 (get_weight cache current) stake]> cache in
            if current =? parent_hash h then cache
            else weight_loop fuel m stake ({[current]} ∪ visited) cache (parent_hash h)
        end
  end.

Definition add_weight_to_ancestors (m : gmap Hash BlockHeader) (cache : gmap Hash u128)
  (target : Hash) (stake : u128) : gmap Hash u128 :=
  weight_loop (S (size m)) m stake ∅ cache target.

(** The stake of a voter, 0 for one outside the set. *)
Definition vote_stake (vs : ValidatorSet) (v : ValidatorId) : u128 :=
  default 0 (ValidatorSet.get_stake vs v).

Definition rebuilt_cache (vs : ValidatorSet) (m : gmap Hash BlockHeader)
  (votes : list (ValidatorId * Hash)) : gmap Hash u128 :=
  foldl (fun cache e => add_weight_to_ancestors m cache e.2 (vote_stake vs e.1)) ∅ votes.

Definition rebuild_weight_cache (vs : ValidatorSet) (s : LMDGhostStore) : LMDGhostStore := {|
  blocks := blocks s; children := children s; latest_votes := latest_votes s;
  weight_cache := rebuilt_cache vs (blocks s) (map_to_list (latest_votes s)); cache_valid := true;
  justified_checkpoint := justified_checkpoint s |}.

(** [max_by_key]: the last of the elements with the greatest key. *)
Fixpoint max_by_key {A} (key : A -> Z) (best : A) (l : list A) : A :=
  match l with
  | [] => best
  | x :: l => max_by_key key (if key best <=? key x then x else best) l
  end.

(** The loop of [get_head]. *)
Fixpoint head_loop (fuel : nat) (s : LMDGhostStore) (current : Hash) : option Hash :=
  match fuel with
  | O => None
  | S fuel =>
      match children s !! current with
      | Some (c :: l) => head_loop fuel s (max_by_key (get_weight (weight_cache s)) c l)
      | _ => Some current
      end
  end.

(** [Some r] when the call returns [r]. *)
Definition get_head (fuel : nat) (s : LMDGhostStore) (vs : ValidatorSet)
  : LMDGhostStore * option (option Hash) :=
  match justified_checkpoint s with
  | None => (s, Some None)
  | Some justified =>
      if negb (has_block s justified) then (s, Some None)
      else
        let s := if cache_valid s then s else rebuild_weight_cache vs s in
        (s, Some <$> head_loop fuel s justified)
  end.

Section add.
Context (keccak256 : list u8 -> Hash).

Definition add_block (s : LMDGhostStore) (h : BlockHeader) : LMDGhostStore :=
  let hash := header_hash keccak256 h in
  let parent := parent_hash h in
  invalidate_cache {|
    blocks := <[hash := h]> (blocks s);
    children := <[parent := default [] (children s !! parent) ++ [hash]]> (children s);
    latest_votes := latest_votes s; weight_cache := weight_cache s; cache_valid := cache_valid s;
    justified_checkpoint := justified_checkpoint s |}.

Inductive GhostOp :=
| OpAddBlock (h : BlockHeader)
| OpVote (validator : ValidatorId) (target : Hash)
| OpJustify (checkpoint : Hash)
| OpGetHead (vs : ValidatorSet).

Definition run_op (s : LMDGhostStore) (op : GhostOp) : LMDGhostStore :=
  match op with
  | OpAddBlock h => add_block s h
  | OpVote v t => on_attestation s v t
  | OpJustify c => set_justified s c
  | OpGetHead vs => (get_head (S (size (blocks s))) s vs).1
  end.
Definition run_ops (s : LMDGhostStore) (l : list GhostOp) : LMDGhostStore := foldl run_op s l.

(** The headers a sequence of operations adds. *)
Definition added (l : list GhostOp) : list BlockHeader :=
  omap (fun op => match op with OpAddBlock h => Some h | _ => None end) l.
End add.
End Ghost.
