(* ===== verification/ForkChoiceProps.v ===== *)
(** * Consensus: properties of the fork choice

    The cached weights are the stakes of the validators who vote for a block or
    one of its descendants, and the head is reached by taking a heaviest child
    at every fork. *)

From S2P Require Import Prelude Consensus ForkChoice.
Local Open Scope Z_scope.

(** [b] is [t] or an ancestor of [t] among the blocks [m]. *)
Inductive ancestor (m : gmap Hash BlockHeader) (b : Hash) : Hash -> Prop :=
| anc_self h : m !! b = Some h -> ancestor m b b
| anc_parent t h : m !! t = Some h -> ancestor m b (parent_hash h) -> ancestor m b t.

(** No block is its own ancestor: some rank decreases from a block to its
    parent. *)
Definition ranked (rank : Hash -> nat) (m : gmap Hash BlockHeader) : Prop :=
  forall t h, m !! t = Some h -> (rank (parent_hash h) < rank t)%nat.

Definition sum_stakes (vs : ValidatorSet) (l : list (ValidatorId * Hash)) : Z :=
  foldr (fun e s => Ghost.vote_stake vs e.1 + s) 0 l.

(** The walk to the head: a heaviest child at every fork, down to a leaf. *)
Inductive ghost_path (children : gmap Hash (list Hash)) (weight : Hash -> Z) : Hash -> Hash -> Prop :=
| ghost_leaf b : default [] (children !! b) = [] -> ghost_path children weight b b
| ghost_step b c hd : c ∈ default [] (children !! b) ->
    (forall c', c' ∈ default [] (children !! b) -> weight c' <= weight c) ->
    ghost_path children weight c hd -> ghost_path children weight b hd.

(** ** Weights *)

Section weights.
Context (rank : Hash -> nat) (m : gmap Hash BlockHeader) (Hrank : ranked rank m).

Lemma ancestor_unknown b t : m !! t = None -> ~ ancestor m b t.
Proof. intros Ht H. destruct H as [h Hh|t h Hh _]; congruence. Qed.

Lemma ancestor_step b t h : m !! t = Some h ->
  ancestor m b t <-> b = t \/ ancestor m b (parent_hash h).
Proof.
  intros Ht. split.
  - inversion 1 as [h' Hh|t' h' Hh Ha]; subst; [by left|right].
    by replace h with h' by congruence.
  - intros [->|Ha]; [by econstructor|by eapply anc_parent].
Qed.

Lemma ancestor_rank b t : ancestor m b t -> (rank b <= rank t)%nat.
Proof. induction 1 as [h Hh|t h Hh _ IH]; [lia|]. specialize (Hrank _ _ Hh). lia. Qed.

Lemma ancestor_or_not b t : ancestor m b t \/ ~ ancestor m b t.
Proof.
  remember (rank t) as n eqn:Hn. revert t Hn.
  induction n as [n IH] using lt_wf_ind. intros t ->.
  destruct (m !! t) as [h|] eqn:E; [|right; by apply ancestor_unknown].
  rewrite (ancestor_step b t h E). destruct (decide (b = t)) as [->|Hne]; [by left; left|].
  destruct (IH _ (Hrank _ _ E) _ eq_refl) as [Ha|Ha]; [by left; right|right; naive_solver].
Qed.

Lemma get_weight_insert cache c w b :
  Ghost.get_weight (<[c := w]> cache) b = if decide (b = c) then w else Ghost.get_weight cache b.
Proof.
  unfold Ghost.get_weight. case_decide as E; [subst; by rewrite lookup_insert_eq|].
  by rewrite lookup_insert_ne.
Qed.

Lemma weight_loop_spec stake b fuel : forall visited cache t,
  (size (dom m ∖ visited) < fuel)%nat -> (forall x, x ∈ visited -> (rank t < rank x)%nat) ->
  (ancestor m b t -> Ghost.get_weight (Ghost.weight_loop fuel m stake visited cache t) b
     = wrapping_add 128 (Ghost.get_weight cache b) stake)
  /\ (~ ancestor m b t -> Ghost.get_weight (Ghost.weight_loop fuel m stake visited cache t) b
     = Ghost.get_weight cache b).
Proof.
  induction fuel as [|fuel IH]; intros visited cache t Hf Hv; [lia|]. simpl.
  rewrite decide_False by (intros Hin; specialize (Hv t Hin); lia).
  destruct (m !! t) as [h|] eqn:E; [|split; [by intros ?%ancestor_unknown|done]].
  pose proof (Hrank _ _ E) as Hr.
  rewrite (proj2 (Z.eqb_neq t (parent_hash h))) by (intros Et; rewrite <-Et in Hr; lia).
  rewrite !(ancestor_step b t h E).
  set (cache' := <[t := wrapping_add 128 (Ghost.get_weight cache t) stake]> cache).
  destruct (IH ({[t]} ∪ visited) cache' (parent_hash h)) as [IH1 IH2].
  - assert (dom m ∖ ({[t]} ∪ visited) ⊂ dom m ∖ visited) as Hs.
    { split; [set_solver|]. intros Hsub. specialize (Hsub t). rewrite !elem_of_difference in Hsub.
      destruct Hsub as [_ Hn]; [|set_solver]. split; [apply elem_of_dom; eauto|].
      intros Hin. specialize (Hv t Hin). lia. }
    apply subset_size in Hs. lia.
  - intros x [->%elem_of_singleton|Hx]%elem_of_union; [done|]. specialize (Hv x Hx). lia.
  - unfold cache' in IH1, IH2. rewrite get_weight_insert in IH1, IH2.
    split.
    + intros Hor. destruct (decide (b = t)) as [->|Hne]; [|apply IH1; naive_solver].
      apply IH2. intros Ha%ancestor_rank. lia.
    + intros Hn. destruct (decide (b = t)) as [->|Hne]; [naive_solver|]. apply IH2. naive_solver.
Qed.

(** The votes that support [b], and the weight they give it. *)
Lemma rebuilt_cache_spec vs b votes : exists l, l `sublist_of` votes
  /\ (forall e, e ∈ l <-> e ∈ votes /\ ancestor m b e.2)
  /\ Ghost.get_weight (Ghost.rebuilt_cache vs m votes) b = sum_stakes vs l mod 2 ^ 128.
Proof.
  unfold Ghost.rebuilt_cache. induction votes as [|e votes (l & Hsub & Hl & Hw)] using rev_ind.
  { exists []. split_and!; [done|by intros e; rewrite elem_of_nil; naive_solver|done]. }
  rewrite foldl_app. simpl. unfold Ghost.add_weight_to_ancestors.
  set (cache := foldl _ ∅ votes) in *.
  destruct (weight_loop_spec (Ghost.vote_stake vs e.1) b (S (size m)) ∅ cache e.2) as [H1 H2].
  { rewrite difference_empty_L, size_dom. lia. }
  { set_solver. }
  destruct (ancestor_or_not b e.2) as [Ha|Ha].
  - exists (l ++ [e]). rewrite (H1 Ha), Hw. split_and!.
    + by apply sublist_app.
    + intros x. rewrite !elem_of_app, Hl, list_elem_of_singleton. naive_solver.
    + unfold wrapping_add. rewrite Zplus_mod_idemp_l. f_equal. unfold sum_stakes.
      clear. induction l as [|x l IH]; simpl in *; lia.
  - exists l. rewrite (H2 Ha), Hw. split_and!; [by apply sublist_inserts_r| |done].
    intros x. rewrite Hl, elem_of_app, list_elem_of_singleton. naive_solver.
Qed.

(** ** The head *)

Lemma max_by_key_spec {A} (key : A -> Z) l : forall best,
  Ghost.max_by_key key best l ∈ best :: l
  /\ forall x, x ∈ best :: l -> key x <= key (Ghost.max_by_key key best l).
Proof.
  induction l as [|y l IH]; intros best; simpl.
  { split; [left|]. intros x ->%list_elem_of_singleton. lia. }
  destruct (key best <=? key y) eqn:E; bools.
  - destruct (IH y) as [H1 H2]. split; [by right|]. intros x [->|Hx]%elem_of_cons; [|by apply H2].
    specialize (H2 y ltac:(left)). lia.
  - destruct (IH best) as [H1 H2]. split; [set_solver|].
    intros x [->|[->|Hx]%elem_of_cons]%elem_of_cons; [apply H2; left| |apply H2; by right].
    specialize (H2 best ltac:(left)). lia.
Qed.

Lemma head_loop_spec s fuel : forall b,
  (forall p c, c ∈ default [] (children s !! p) ->
     exists h, m !! c = Some h /\ parent_hash h = p) ->
  (size (filter (fun x => rank b < rank x)%nat (dom m)) < fuel)%nat ->
  exists hd, Ghost.head_loop fuel s b = Some hd
    /\ ghost_path (children s) (Ghost.get_weight (weight_cache s)) b hd.
Proof.
  induction fuel as [|fuel IH]; intros b Hc Hf; [lia|]. simpl.
  destruct (children s !! b) as [[|c0 l]|] eqn:E;
    [exists b; split; [done|]; apply ghost_leaf; by rewrite E| |
     exists b; split; [done|]; apply ghost_leaf; by rewrite E].
  destruct (max_by_key_spec (Ghost.get_weight (weight_cache s)) l c0) as [Hin Hmax].
  set (c := Ghost.max_by_key _ c0 l) in *.
  destruct (Hc b c) as (h & Hh & Hp); [by rewrite E|]. pose proof (Hrank _ _ Hh) as Hr. rewrite Hp in Hr.
  destruct (IH c) as (hd & Hhd & Hpath); [done| |].
  - assert (filter (fun x => rank c < rank x)%nat (dom m)
      ⊂ filter (fun x => rank b < rank x)%nat (dom m)) as Hs.
    { split; [intros x; rewrite !elem_of_filter; intros [? ?]; split; [lia|done]|].
      intros Hsub. specialize (Hsub c). rewrite !elem_of_filter in Hsub.
      destruct Hsub as [? _]; [|lia]. split; [done|]. apply elem_of_dom. eauto. }
    apply subset_size in Hs. lia.
  - exists hd. split; [done|]. apply (ghost_step _ _ b c); by rewrite ?E.
Qed.
End weights.

(** ** Reachable stores *)

Section claims.
Context (keccak256 : list u8 -> Hash).

(** Headers with the same hash have the same parent. *)
Definition collision_free (l : list BlockHeader) : Prop := forall h1 h2, h1 ∈ l -> h2 ∈ l ->
  header_hash keccak256 h1 = header_hash keccak256 h2 -> parent_hash h1 = parent_hash h2.

(** The set the cached weights were computed with: the one given to the first
    call of [get_head] that got to the weights since the last change of the store. *)
Definition next_set (s : LMDGhostStore) (o : option ValidatorSet) (op : Ghost.GhostOp)
  : option ValidatorSet :=
  match op with
  | Ghost.OpGetHead vs =>
      match justified_checkpoint s with
      | Some j => if Ghost.has_block s j && negb (cache_valid s) then Some vs else o
      | None => o
      end
  | _ => None
  end.
Fixpoint cached_set (s : LMDGhostStore) (o : option ValidatorSet) (l : list Ghost.GhostOp)
  : option ValidatorSet :=
  match l with
  | [] => o
  | op :: l => cached_set (Ghost.run_op keccak256 s op) (next_set s o op) l
  end.

Record ghost_inv (o : option ValidatorSet) (hs : list BlockHeader) (s : LMDGhostStore) : Prop := {
  gi_blocks k h : blocks s !! k = Some h -> h ∈ hs /\ header_hash keccak256 h = k;
  gi_children p c : c ∈ default [] (children s !! p) <->
    exists h, blocks s !! c = Some h /\ parent_hash h = p;
  gi_cache : match o with
    | Some vs => cache_valid s = true
        /\ weight_cache s = Ghost.rebuilt_cache vs (blocks s) (map_to_list (latest_votes s))
    | None => cache_valid s = false
    end
}.

Lemma add_block_ghost o hs s h : collision_free hs -> h ∈ hs -> ghost_inv o hs s ->
  ghost_inv None hs (Ghost.add_block keccak256 s h).
Proof.
  intros Hcf Hh [Hb Hc _]. split; [| |done]; simpl.
  - intros k x [[<- <-]|[_ Hx]]%lookup_insert_Some; [done|by apply Hb].
  - intros p c. transitivity (c ∈ default [] (children s !! p)
      \/ (c = header_hash keccak256 h /\ p = parent_hash h)).
    { destruct (decide (p = parent_hash h)) as [->|Hne].
      - rewrite lookup_insert_eq. simpl. rewrite elem_of_app, list_elem_of_singleton. naive_solver.
      - rewrite lookup_insert_ne by done. naive_solver. }
    rewrite Hc. split.
    + intros [(x & Hx & <-)|[-> ->]]; [|exists h; by rewrite lookup_insert_eq].
      destruct (decide (header_hash keccak256 h = c)) as [E|E].
      * exists h. rewrite E, lookup_insert_eq. split; [done|].
        destruct (Hb c x Hx) as [Hin <-]. by apply Hcf.
      * exists x. by rewrite lookup_insert_ne.
    + intros (x & [[<- <-]|[_ Hx]]%lookup_insert_Some & <-); [by right|left; eauto].
Qed.

Lemma run_op_ghost o hs s op : collision_free hs ->
  (forall h, op = Ghost.OpAddBlock h -> h ∈ hs) -> ghost_inv o hs s ->
  ghost_inv (next_set s o op) hs (Ghost.run_op keccak256 s op).
Proof.
  intros Hcf Hh Hi. destruct op as [h|v t|c|vs']; simpl.
  - by eapply add_block_ghost; [|apply Hh|].
  - destruct Hi. by split.
  - destruct Hi. by split.
  - unfold Ghost.get_head. destruct (justified_checkpoint s) as [j|]; [|done].
    destruct (Ghost.has_block s j); [|done]. cbn. destruct (cache_valid s) eqn:Ec; [done|].
    destruct Hi. by split.
Qed.

Lemma run_ops_ghost hs l : forall o s, collision_free hs ->
  (forall h, h ∈ Ghost.added l -> h ∈ hs) -> ghost_inv o hs s ->
  ghost_inv (cached_set s o l) hs (Ghost.run_ops keccak256 s l).
Proof.
  induction l as [|op l IH]; intros o s Hcf Hh Hi; [done|]. simpl.
  apply IH; [done| |apply run_op_ghost; [done| |done]].
  - intros h Hin. apply Hh. unfold Ghost.added in *. simpl. destruct op; [by right|done..].
  - intros h ->. apply Hh. simpl. left.
Qed.

Lemma new_ghost hs : ghost_inv None hs Ghost.new.
Proof.
  split; [done| |done]. intros p c. simpl. rewrite lookup_empty. simpl.
  rewrite elem_of_nil. split; [done|by intros (? & ? & _)].
Qed.

(** C12 (refinement): the head is the GHOST head.  In a store reached by any
    operations, whose headers do not collide and do not form a cycle, [get_head]
    from a justified checkpoint in the store returns within as many steps as there
    are blocks, at a leaf reached by taking a heaviest child at every fork, where
    the weight of a block is the sum, modulo [2^128], of the stakes of the
    validators whose latest vote is for the block or a descendant of it.  The
    stakes are those of the validator set given to the first [get_head] since the
    last block, vote or checkpoint, which is the set of the call itself when the
    store has changed since the last one. *)
Theorem ghost_head_correct vs l rank j
  (Hcf : collision_free (Ghost.added l))
  (Hrank : forall h, h ∈ Ghost.added l -> (rank (parent_hash h) < rank (header_hash keccak256 h))%nat)
  (Hj : justified_checkpoint (Ghost.run_ops keccak256 Ghost.new l) = Some j)
  (Hin : Ghost.has_block (Ghost.run_ops keccak256 Ghost.new l) j = true) :
  let s := Ghost.run_ops keccak256 Ghost.new l in
  let weighing := default vs (cached_set Ghost.new None l) in
  let s' := (Ghost.get_head (S (size (blocks s))) s vs).1 in
  let weight := Ghost.get_weight (weight_cache s') in
  (exists hd, (Ghost.get_head (S (size (blocks s))) s vs).2 = Some (Some hd)
     /\ ghost_path (children s) weight j hd)
  /\ forall b, exists support, NoDup support
       /\ (forall v t, (v, t) ∈ support <-> latest_votes s !! v = Some t /\ ancestor (blocks s) b t)
       /\ weight b = sum_stakes weighing support mod 2 ^ 128.
Proof.
  pose proof (run_ops_ghost (Ghost.added l) l None Ghost.new Hcf (fun h Hh => Hh) (new_ghost _))
    as [Hb Hc Hcache].
  cbv zeta. set (vs0 := default vs (cached_set Ghost.new None l)). set (s := Ghost.run_ops keccak256 Ghost.new l) in *.
  assert (Hr : ranked rank (blocks s)).
  { intros t h Hth. destruct (Hb t h Hth) as [Hh <-]. by apply Hrank. }
  unfold Ghost.get_head. rewrite Hj, Hin. cbn [negb fst snd].
  set (s' := if cache_valid s then s else Ghost.rebuild_weight_cache vs s).
  assert (Hs' : weight_cache s' = Ghost.rebuilt_cache vs0 (blocks s) (map_to_list (latest_votes s))
    /\ children s' = children s).
  { unfold s', vs0. destruct (cached_set _ _ _); [destruct Hcache as [-> ?]|rewrite Hcache]; done. }
  destruct Hs' as [Hw Hch]. rewrite Hw. split.
  - destruct (head_loop_spec rank (blocks s) Hr s' (S (size (blocks s))) j) as (hd & Hhd & Hp).
    + intros p c. rewrite Hch. apply Hc.
    + rewrite <-(size_dom (D := gset Hash)). apply Nat.lt_succ_r, subseteq_size. set_solver.
    + exists hd. rewrite Hhd. split; [done|]. rewrite <-Hw, <-Hch. exact Hp.
  - intros b. destruct (rebuilt_cache_spec rank (blocks s) Hr vs0 b (map_to_list (latest_votes s)))
      as (sup & Hsub & Hsup & Hweight).
    exists sup. split_and!; [|intros v t; by rewrite Hsup, elem_of_map_to_list|done].
    eapply sublist_NoDup; [|exact Hsub]. apply NoDup_map_to_list.
Qed.
End claims.

(** ** Witness and examples *)

Definition toy_keccak (l : list u8) : Hash := from_be_bytes l.

Definition sample_header (parent : Hash) (time : u64) : BlockHeader := {|
  version := 1; block_height := 0; parent_hash := parent; timestamp := time; proposer := 0;
  transactions_root := None; state_root := None; receipts_root := 0; gas_limit := 0;
  gas_used := 0; extra_data := [] |}.

(** A root with two children, [left] and [right]. *)
Definition root_block : BlockHeader := sample_header 0 1.
Definition root_hash : Hash := header_hash toy_keccak root_block.
Definition left_block : BlockHeader := sample_header root_hash 2.
Definition right_block : BlockHeader := sample_header root_hash 3.
Definition left_hash : Hash := header_hash toy_keccak left_block.
Definition right_hash : Hash := header_hash toy_keccak right_block.

Definition sample_set (s1 s2 : u128) : ValidatorSet :=
  ValidatorSet.new 0 [{| vi_id := 1; vi_stake := s1; vi_pubkey := []; vi_active := true |};
                      {| vi_id := 2; vi_stake := s2; vi_pubkey := []; vi_active := true |}].

Definition sample_ops : list Ghost.GhostOp :=
  [Ghost.OpAddBlock root_block; Ghost.OpAddBlock left_block; Ghost.OpAddBlock right_block;
   Ghost.OpJustify root_hash; Ghost.OpVote 1 left_hash; Ghost.OpVote 2 right_hash;
   Ghost.OpGetHead (sample_set 10 5)].

Definition sample_rank (k : Hash) : nat :=
  if k =? root_hash then 1 else if (k =? left_hash) || (k =? right_hash) then 2 else 0.

(** The head is asked for with other stakes after the weights were computed. *)
Lemma ghost_head_correct_witness :
  (Ghost.get_head 4 (Ghost.run_ops toy_keccak Ghost.new sample_ops) (sample_set 5 10)).2
    = Some (Some left_hash)
  /\ exists support, NoDup support
       /\ Ghost.get_weight (weight_cache (Ghost.get_head 4
            (Ghost.run_ops toy_keccak Ghost.new sample_ops) (sample_set 5 10)).1) root_hash
          = sum_stakes (sample_set 10 5) support mod 2 ^ 128.
Proof.
  split; [vm_compute; reflexivity|].
  destruct (ghost_head_correct toy_keccak (sample_set 5 10) sample_ops sample_rank root_hash) as [_ H].
  - intros h1 h2 H1 H2. assert (Hall : Forall (fun h1 => Forall (fun h2 =>
      header_hash toy_keccak h1 = header_hash toy_keccak h2 -> parent_hash h1 = parent_hash h2)
      (Ghost.added sample_ops)) (Ghost.added sample_ops)).
    { apply (bool_decide_unpack _). vm_compute. exact I. }
    rewrite Forall_forall in Hall. specialize (Hall h1 H1). rewrite Forall_forall in Hall. exact (Hall h2 H2).
  - apply Forall_forall. apply (bool_decide_unpack _). vm_compute. exact I.
  - vm_compute. reflexivity.
  - vm_compute. reflexivity.
  - destruct (H root_hash) as (sup & Hnd & _ & Hw). exists sup. split; [exact Hnd|].
    replace 4%nat with (S (size (blocks (Ghost.run_ops toy_keccak Ghost.new sample_ops))))
      by (vm_compute; reflexivity). exact Hw.
Defined.

(** A cached head survives a change of the validator set: with the stakes
    swapped the heaviest child is the other one, which the store returns only
    after a new vote or block. *)
Example stale_weights :
  let s := Ghost.run_ops toy_keccak Ghost.new sample_ops in
  (Ghost.get_head 4 s (sample_set 5 10)).2 = Some (Some left_hash)
  /\ (Ghost.get_head 4 (Ghost.invalidate_cache s) (sample_set 5 10)).2 = Some (Some right_hash).
Proof. vm_compute. split; reflexivity. Qed.

(** Equal weights: the head is the child that arrived last, so two nodes with
    the same blocks and votes can disagree. *)
Example tie_by_arrival :
  let ops b1 b2 := [Ghost.OpAddBlock root_block; Ghost.OpAddBlock b1; Ghost.OpAddBlock b2;
                    Ghost.OpJustify root_hash] in
  let head ops := (Ghost.get_head 4 (Ghost.run_ops toy_keccak Ghost.new ops) (sample_set 1 1)).2 in
  head (ops left_block right_block) = Some (Some right_hash)
  /\ head (ops right_block left_block) = Some (Some left_hash).
Proof. vm_compute. split; reflexivity. Qed.
