(* ===== verification/ConsensusSide.v ===== *)
(** * Consensus: the side modules of [qc-08-consensus/src/domain]

    Double-vote detection ([slashing.rs]), weak-subjectivity checkpoints
    ([checkpoints.rs]), the rules of the block validator ([block_validation.rs]),
    builder auctions ([pbs.rs]) and the delay function ([vdf.rs]), each with what
    it guarantees. *)

From S2P Require Import Prelude.
Local Open Scope Z_scope.
Local Open Scope qc_scope.

Abbreviation ValidatorId := Z (only parsing).

(** ** Double votes *)

Module Slashing.

Inductive SlashingEvidence :=
| DoubleVote (validator : ValidatorId) (epoch : u64) (vote_a vote_b : Hash)
    (signature_a signature_b : option (list u8))
| SurroundVote (validator : ValidatorId) (inner_source inner_target outer_source outer_target : u64).

Definition evidence_validator (e : SlashingEvidence) : ValidatorId :=
  match e with DoubleVote v _ _ _ _ _ | SurroundVote v _ _ _ _ => v end.
Definition evidence_epoch (e : SlashingEvidence) : u64 :=
  match e with DoubleVote _ e _ _ _ _ => e | SurroundVote _ _ t _ _ => t end.

Record SlashingDB := {
  votes : gmap (ValidatorId * u64) Hash;
  pending_slashings : list SlashingEvidence;
  total_slashings : u64
}.

Definition new : SlashingDB := {| votes := ∅; pending_slashings := []; total_slashings := 0 |}.

Definition check_and_record (db : SlashingDB) (validator : ValidatorId) (epoch : u64)
  (block_hash : Hash) (signature : option (list u8)) : SlashingDB * option SlashingEvidence :=
  match votes db !! (validator, epoch) with
  | Some prev_hash =>
      if negb (prev_hash =? block_hash) then
        let evidence := DoubleVote validator epoch prev_hash block_hash None signature in
        ({| votes := votes db; pending_slashings := pending_slashings db ++ [evidence];
            total_slashings := wrapping_add 64 (total_slashings db) 1 |}, Some evidence)
      else (db, None)
  | None =>
      ({| votes := <[(validator, epoch) := block_hash]> (votes db);
          pending_slashings := pending_slashings db; total_slashings := total_slashings db |}, None)
  end.

Definition check_surround_vote (db : SlashingDB) (validator : ValidatorId) (source target : u64)
  (history : list (u64 * u64)) : option SlashingEvidence := None.

Definition drain_pending (db : SlashingDB) : SlashingDB * list SlashingEvidence :=
  ({| votes := votes db; pending_slashings := []; total_slashings := total_slashings db |},
   pending_slashings db).

Definition has_vote (db : SlashingDB) (validator : ValidatorId) (epoch : u64) : bool :=
  bool_decide (is_Some (votes db !! (validator, epoch))).
Definition get_vote (db : SlashingDB) (validator : ValidatorId) (epoch : u64) : option Hash :=
  votes db !! (validator, epoch).

Definition prune_before (db : SlashingDB) (epoch : u64) : SlashingDB := {|
  votes := base.filter (fun e => epoch <= e.1.2) (votes db);
  pending_slashings := pending_slashings db; total_slashings := total_slashings db |}.

Inductive SlashingOp :=
| OpVote (v : ValidatorId) (epoch : u64) (hash : Hash) (sig : option (list u8))
| OpDrain
| OpPrune (epoch : u64).

Definition run_op (db : SlashingDB) (op : SlashingOp) : SlashingDB :=
  match op with
  | OpVote v e h sig => (check_and_record db v e h sig).1
  | OpDrain => (drain_pending db).1
  | OpPrune e => prune_before db e
  end.
Definition run_ops (db : SlashingDB) (l : list SlashingOp) : SlashingDB := foldl run_op db l.

(** The operations contain a vote of [v] for [h] in epoch [e]. *)
Definition voted (l : list SlashingOp) (v : ValidatorId) (e : u64) (h : Hash) : Prop :=
  exists sig, OpVote v e h sig ∈ l.

Definition evidence_of (l : list SlashingOp) (ev : SlashingEvidence) : Prop :=
  match ev with
  | DoubleVote v e a b _ _ => a <> b /\ voted l v e a /\ voted l v e b
  | SurroundVote _ _ _ _ _ => False
  end.

Lemma voted_snoc l op v e h : voted l v e h -> voted (l ++ [op]) v e h.
Proof. intros [sig Hs]. exists sig. set_solver. Qed.

Lemma evidence_snoc l op ev : evidence_of l ev -> evidence_of (l ++ [op]) ev.
Proof.
  destruct ev; simpl; [|done]. intros (? & ? & ?). split_and!; [done|by apply voted_snoc..].
Qed.

Record db_inv (l : list SlashingOp) (db : SlashingDB) : Prop := {
  di_votes v e h : votes db !! (v, e) = Some h -> voted l v e h;
  di_pending : Forall (evidence_of l) (pending_slashings db);
  di_kept v e h : voted l v e h -> (forall p, OpPrune p ∈ l -> p <= e) ->
    is_Some (votes db !! (v, e))
}.

Lemma slashing_ops_inv l : db_inv l (run_ops new l).
Proof.
  induction l as [|op l [Hv Hp Hk]] using rev_ind.
  { split; [done|constructor|]. by intros v e h [sig ?%elem_of_nil]. }
  unfold run_ops in *. rewrite foldl_app. simpl. set (db := foldl run_op new l) in *.
  assert (Hp' : Forall (evidence_of (l ++ [op])) (pending_slashings db)).
  { eapply Forall_impl; [exact Hp|]. intros ev. apply evidence_snoc. }
  assert (Hk' : forall v e h, voted (l ++ [op]) v e h -> (forall p, OpPrune p ∈ l ++ [op] -> p <= e) ->
    is_Some (votes db !! (v, e)) \/ exists sig, op = OpVote v e h sig).
  { intros v e h [sig Hin] Hpr. apply elem_of_app in Hin as [Hin|Hin].
    - left. apply (Hk v e h); [by exists sig|]. intros p Hin'. apply Hpr. set_solver.
    - apply list_elem_of_singleton in Hin. right. by exists sig. }
  destruct op as [v e h sig| |p]; simpl.
  - assert (Hnew : voted (l ++ [OpVote v e h sig]) v e h) by (exists sig; set_solver).
    unfold check_and_record. destruct (votes db !! (v, e)) as [h0|] eqn:E.
    + assert (Hold : forall v' e' h', votes db !! (v', e') = Some h' ->
        voted (l ++ [OpVote v e h sig]) v' e' h') by (intros; apply voted_snoc; eauto).
      destruct (h0 =? h) eqn:Eh; bools; simpl.
      * split; simpl; [done|done|]. intros v' e' h' H1 H2.
        destruct (Hk' v' e' h' H1 H2) as [?|[s [= -> -> _ _]]]; [done|by rewrite E].
      * split; simpl; [done| |].
        -- apply Forall_app. split; [done|]. repeat constructor; [done|by apply Hold|done].
        -- intros v' e' h' H1 H2. destruct (Hk' v' e' h' H1 H2) as [?|[s [= -> -> _ _]]]; [done|by rewrite E].
    + simpl. split; simpl; [|done|].
      * intros v' e' h' [[[= <- <-] <-]|[_ Hx]]%lookup_insert_Some; [done|]. apply voted_snoc. eauto.
      * intros v' e' h' H1 H2. destruct (decide ((v', e') = (v, e))) as [->|Hne]; [by rewrite lookup_insert_eq|].
        rewrite lookup_insert_ne by done. destruct (Hk' v' e' h' H1 H2) as [?|[s [= -> -> _ _]]]; done.
  - split; simpl; [|constructor|].
    + intros v e h Hx. apply voted_snoc. eauto.
    + intros v e h H1 H2. destruct (Hk' v e h H1 H2) as [?|[s ?]]; done.
  - split; simpl; [|done|].
    + intros v e h [Hx _]%map_lookup_filter_Some. apply voted_snoc. eauto.
    + intros v e h H1 H2. destruct (Hk' v e h H1 H2) as [[x Hx]|[s ?]]; [|done].
      exists x. apply map_lookup_filter_Some. split; [done|]. simpl. apply H2. set_solver.
Qed.

(** Double votes.  After any operations every pending piece of
    evidence names two different blocks its validator voted for in one epoch;
    and a validator that has voted in an epoch whose votes were not pruned can
    have only one of two different further votes accepted without evidence. *)
Theorem double_votes_detected l v e h1 h2 s1 s2 (Hne : h1 <> h2)
  (Hv : exists h, voted l v e h) (Hp : forall p, OpPrune p ∈ l -> p <= e) :
  Forall (evidence_of l) (pending_slashings (run_ops new l))
  /\ ((check_and_record (run_ops new l) v e h1 s1).2 = None ->
      exists prev, (check_and_record (run_ops new l) v e h2 s2).2
        = Some (DoubleVote v e prev h2 None s2) /\ prev <> h2 /\ voted l v e prev).
Proof.
  destruct (slashing_ops_inv l) as [Hvotes Hpend Hkept]. split; [done|].
  destruct Hv as [h Hh]. destruct (Hkept v e h Hh Hp) as [prev Hprev].
  unfold check_and_record. rewrite Hprev. destruct (prev =? h1) eqn:E1; bools; simpl; [|done].
  intros _. rewrite (proj2 (Z.eqb_neq prev h2)) by congruence. simpl.
  exists prev. split_and!; [done|congruence|eauto].
Qed.

Lemma double_votes_detected_witness :
  (check_and_record (run_ops new [OpVote 1 5 100 None]) 1 5 200 None).2
  = Some (DoubleVote 1 5 100 200 None None).
Proof.
  destruct (double_votes_detected [OpVote 1 5 100 None] 1 5 100 200 None None) as [_ H].
  - discriminate.
  - exists 100, None. left.
  - intros p Hp. apply list_elem_of_singleton in Hp. discriminate Hp.
  - destruct (H eq_refl) as (prev & E & _ & s & Hs). apply list_elem_of_singleton in Hs.
    injection Hs as ->. exact E.
Defined.

End Slashing.

(** ** Checkpoints *)

Module Checkpoints.

Record WeakSubjectivityCheckpoint := {
  cp_block_hash : Hash;
  cp_block_height : u64;
  cp_epoch : u64;
  cp_state_root : Hash
}.

Definition genesis (genesis_hash : Hash) : WeakSubjectivityCheckpoint := {|
  cp_block_hash := genesis_hash; cp_block_height := 0; cp_epoch := 0; cp_state_root := 0 |}.

Record WeakSubjectivityConfig := {
  checkpoint : option WeakSubjectivityCheckpoint;
  max_age_epochs : u64;
  enforce : bool
}.

Definition config_default : WeakSubjectivityConfig := {|
  checkpoint := None; max_age_epochs := 1024; enforce := true |}.

Inductive WeakSubjectivityError :=
| CheckpointNotFound (expected_hash : Hash) (expected_height : u64)
| CheckpointStale (age_epochs max_epochs : u64).

Definition validate_chain (c : WeakSubjectivityConfig) (chain_contains : Hash -> bool)
  : result WeakSubjectivityError unit :=
  if negb (enforce c) then Ok tt
  else
    match checkpoint c with
    | None => Ok tt
    | Some cp =>
        if chain_contains (cp_block_hash cp) then Ok tt
        else Err (CheckpointNotFound (cp_block_hash cp) (cp_block_height cp))
    end.

Definition is_checkpoint_stale (c : WeakSubjectivityConfig) (current_epoch : u64) : bool :=
  match checkpoint c with
  | None => false
  | Some cp => max_age_epochs c <? saturating_sub current_epoch (cp_epoch cp)
  end.

Definition checkpoint_hash (c : WeakSubjectivityConfig) : option Hash :=
  cp_block_hash <$> checkpoint c.

Definition set_checkpoint (c : WeakSubjectivityConfig) (cp : WeakSubjectivityCheckpoint)
  : WeakSubjectivityConfig :=
  {| checkpoint := Some cp; max_age_epochs := max_age_epochs c; enforce := enforce c |}.

(** An enforced checkpoint rejects exactly the chains without its block, however
    old it is: staleness is not consulted. *)
Lemma validate_chain_exact c cp chain_contains : enforce c = true ->
  validate_chain (set_checkpoint c cp) chain_contains = Ok tt
  <-> chain_contains (cp_block_hash cp) = true.
Proof.
  intros He. unfold validate_chain. simpl. rewrite He. simpl. by destruct (chain_contains _).
Qed.

End Checkpoints.

(** ** The rules of [block_validation.rs] *)

Module Rules.

Record BlockValidationParams := {
  p_block_hash : Hash;
  p_block_height : u64;
  p_difficulty : U256;
  p_nonce : u64;
  p_timestamp : u64;
  p_parent_hash : Hash
}.

Record BlockValidationConfig := {
  max_cached_blocks : nat;
  max_future_drift_secs : u64;
  strict_height_validation : bool
}.

Definition config_default : BlockValidationConfig := {|
  max_cached_blocks := 1000; max_future_drift_secs := 15; strict_height_validation := false |}.

Inductive BlockValidationError :=
| DuplicateBlock (block_hash : Hash)
| NonSequentialHeight (expected got : u64)
| ZeroDifficulty
| FutureTimestamp (block_timestamp current_time max_drift : u64).

Inductive ValidationWarning :=
| SlightlyFutureTimestamp (block_timestamp current_time : u64)
| NonSequentialHeightAllowed (expected got : u64).

Record ValidationResult := {
  r_block_hash : Hash;
  r_block_height : u64;
  r_warnings : list ValidationWarning
}.

Definition check_duplicate (block_hash : Hash) (validated : gset Hash)
  : result BlockValidationError unit :=
  if decide (block_hash ∈ validated) then Err (DuplicateBlock block_hash) else Ok tt.

Definition validate_height (c : BlockValidationConfig) (block_height current_height : u64)
  : result BlockValidationError (option ValidationWarning) :=
  let expected := wrapping_add 64 current_height 1 in
  if block_height <=? 1 then Ok None
  else if negb (block_height =? expected) then
    if strict_height_validation c then Err (NonSequentialHeight expected block_height)
    else Ok (Some (NonSequentialHeightAllowed expected block_height))
  else Ok None.

Definition validate_difficulty (difficulty : U256) : result BlockValidationError unit :=
  if difficulty =? 0 then Err ZeroDifficulty else Ok tt.

Definition validate_timestamp (c : BlockValidationConfig) (block_timestamp current_time : u64)
  : result BlockValidationError (option ValidationWarning) :=
  let max_allowed := wrapping_add 64 current_time (max_future_drift_secs c) in
  if max_allowed <? block_timestamp
  then Err (FutureTimestamp block_timestamp current_time (max_future_drift_secs c))
  else if current_time <? block_timestamp
  then Ok (Some (SlightlyFutureTimestamp block_timestamp current_time))
  else Ok None.

Definition should_evict_cache (c : BlockValidationConfig) (cache_size : nat) : bool :=
  (max_cached_blocks c <? cache_size)%nat.

Definition validate_block (c : BlockValidationConfig) (p : BlockValidationParams)
  (current_height current_time : u64) (validated : gset Hash)
  : result BlockValidationError ValidationResult :=
  let? _ := check_duplicate (p_block_hash p) validated in
  let? w1 := validate_height c (p_block_height p) current_height in
  let? _ := validate_difficulty (p_difficulty p) in
  let? w2 := validate_timestamp c (p_timestamp p) current_time in
  Ok {| r_block_hash := p_block_hash p; r_block_height := p_block_height p;
        r_warnings := option_list w1 ++ option_list w2 |}.

(** A block passes exactly when it is new, has a difficulty, is not too far in
    the future and, in strict mode, is next in height or at most 1: a second
    block at height 0 or 1 is never out of sequence. *)
Lemma validate_block_exact c p height time validated :
  is_ok (validate_block c p height time validated) = true <->
  p_block_hash p ∉ validated /\ p_difficulty p <> 0
  /\ p_timestamp p <= wrapping_add 64 time (max_future_drift_secs c)
  /\ (strict_height_validation c = true ->
      p_block_height p <= 1 \/ p_block_height p = wrapping_add 64 height 1).
Proof.
  unfold validate_block, check_duplicate, validate_height, validate_difficulty, validate_timestamp.
  case_decide; simpl; [naive_solver|].
  destruct (p_block_height p <=? 1) eqn:E1; simpl.
  all: try destruct (p_block_height p =? wrapping_add 64 height 1) eqn:E2; simpl.
  all: try destruct (strict_height_validation c) eqn:E3; simpl.
  all: try destruct (p_difficulty p =? 0) eqn:E4; simpl.
  all: try destruct (_ <? p_timestamp p) eqn:E5; simpl.
  all: try destruct (time <? p_timestamp p) eqn:E6; simpl.
  all: bools; intuition (done || lia).
Qed.

End Rules.

(** ** Builder auctions *)

Module Pbs.

Record PayloadHeader := {
  builder_id : Hash;
  payload_hash : Hash;
  bid_value : U256;
  ph_gas_limit : u64;
  ph_gas_used : u64;
  block_number : u64;
  ph_parent_hash : Hash;
  ph_timestamp : u64
}.

Record Withdrawal := {
  w_index : u64;
  w_validator_index : u64;
  w_address : Address;
  w_amount : u64
}.

Record ExecutionPayload := {
  ep_header : PayloadHeader;
  ep_transactions : list (list u8);
  ep_withdrawals : list Withdrawal
}.

Record PayloadCommitment := {
  pc_slot : u64;
  pc_proposer : ValidatorId;
  pc_header : PayloadHeader;
  pc_signature : list u8;
  pc_committed_at : u64
}.

Record SlotAuction := {
  slot : u64;
  bids : list PayloadHeader;
  winning_bid : option PayloadHeader;
  commitment : option PayloadCommitment;
  revealed_payload : option ExecutionPayload;
  deadline : u64
}.

Inductive PbsError :=
| WrongSlot | AlreadyCommitted | NoCommitment | PayloadMismatch | InvalidPayloadHash
| AuctionNotFound | BuilderSlashed.

Definition auction_new (n d : u64) : SlotAuction := {|
  slot := n; bids := []; winning_bid := None; commitment := None; revealed_payload := None;
  deadline := d |}.

Definition submit_bid (a : SlotAuction) (h : PayloadHeader) : SlotAuction * result PbsError unit :=
  if negb (block_number h =? slot a) then (a, Err WrongSlot)
  else ({| slot := slot a; bids := bids a ++ [h]; winning_bid := winning_bid a;
           commitment := commitment a; revealed_payload := revealed_payload a;
           deadline := deadline a |}, Ok tt).

(** [max_by_key]: the last of the highest bids. *)
Definition highest_bid (a : SlotAuction) : option PayloadHeader :=
  foldl (fun best h => match best with
                       | Some b => Some (if bid_value b <=? bid_value h then h else b)
                       | None => Some h
                       end) None (bids a).

Definition commit (a : SlotAuction) (proposer : ValidatorId) (h : PayloadHeader)
  (signature : list u8) (timestamp : u64) : SlotAuction * result PbsError unit :=
  match commitment a with
  | Some _ => (a, Err AlreadyCommitted)
  | None =>
      ({| slot := slot a; bids := bids a; winning_bid := Some h;
          commitment := Some {| pc_slot := slot a; pc_proposer := proposer; pc_header := h;
                                pc_signature := signature; pc_committed_at := timestamp |};
          revealed_payload := revealed_payload a; deadline := deadline a |}, Ok tt)
  end.

Definition is_complete (a : SlotAuction) : bool := bool_decide (is_Some (revealed_payload a)).
Definition is_builder_slashable (a : SlotAuction) (current_time : u64) : bool :=
  bool_decide (is_Some (commitment a)) && bool_decide (revealed_payload a = None)
  && (deadline a <? current_time).

Section pbs.
Context (keccak256 : list u8 -> Hash).

Definition compute_payload_hash (p : ExecutionPayload) : Hash :=
  keccak256 (concat (ep_transactions p) ++ le_bytes 8 (ph_gas_limit (ep_header p))
             ++ le_bytes 8 (ph_gas_used (ep_header p))).

Definition reveal (a : SlotAuction) (p : ExecutionPayload) : SlotAuction * result PbsError unit :=
  match commitment a with
  | None => (a, Err NoCommitment)
  | Some c =>
      if negb (payload_hash (ep_header p) =? payload_hash (pc_header c)) then (a, Err PayloadMismatch)
      else if negb (compute_payload_hash p =? payload_hash (ep_header p))
      then (a, Err InvalidPayloadHash)
      else ({| slot := slot a; bids := bids a; winning_bid := winning_bid a;
               commitment := commitment a; revealed_payload := Some p; deadline := deadline a |}, Ok tt)
  end.

Record PbsService := {
  auctions : gmap u64 SlotAuction;
  auction_duration_ms : u64
}.

Definition service_new (duration : u64) : PbsService :=
  {| auctions := ∅; auction_duration_ms := duration |}.
Definition start_auction (s : PbsService) (n start_time : u64) : PbsService := {|
  auctions := <[n := auction_new n (wrapping_add 64 start_time (auction_duration_ms s))]> (auctions s);
  auction_duration_ms := auction_duration_ms s |}.
Definition get_auction (s : PbsService) (n : u64) : option SlotAuction := auctions s !! n.
Definition cleanup_before (s : PbsService) (n : u64) : PbsService := {|
  auctions := base.filter (fun e => n <= e.1) (auctions s);
  auction_duration_ms := auction_duration_ms s |}.

Inductive AuctionOp :=
| OpBid (h : PayloadHeader)
| OpCommit (proposer : ValidatorId) (h : PayloadHeader) (signature : list u8) (timestamp : u64)
| OpReveal (p : ExecutionPayload).

Definition run_op (a : SlotAuction) (op : AuctionOp) : SlotAuction :=
  match op with
  | OpBid h => (submit_bid a h).1
  | OpCommit v h sig t => (commit a v h sig t).1
  | OpReveal p => (reveal a p).1
  end.

Record auction_inv (a : SlotAuction) : Prop := {
  ai_bids : Forall (fun h => block_number h = slot a) (bids a);
  ai_winner : winning_bid a = pc_header <$> commitment a;
  ai_revealed p : revealed_payload a = Some p -> exists c, commitment a = Some c
    /\ payload_hash (pc_header c) = compute_payload_hash p
}.

Lemma auction_op_inv a op : auction_inv a -> auction_inv (run_op a op).
Proof.
  intros [Hb Hw Hr]. destruct op as [h|v h sig t|p]; simpl.
  - unfold submit_bid. destruct (block_number h =? slot a) eqn:E; bools; simpl; [|done].
    split; simpl; [|done|done]. apply Forall_app. by repeat constructor.
  - unfold commit. destruct (commitment a) as [c|] eqn:E; simpl; [split; rewrite ?E; done|].
    split; simpl; [done|done|]. intros p Hp. destruct (Hr p Hp) as (c & Hc & _). congruence.
  - unfold reveal. destruct (commitment a) as [c|] eqn:E; simpl; [|split; rewrite ?E; done].
    destruct (payload_hash (ep_header p) =? _) eqn:E1; bools; simpl; [|split; rewrite ?E; done].
    destruct (compute_payload_hash p =? _) eqn:E2; bools; simpl; [|split; rewrite ?E; done].
    split; simpl; [done|done|]. intros q [= <-]. exists c. split; [done|congruence].
Qed.

(** The builder auction.  After any operations on a new auction
    every bid is for its slot, the winning bid is the committed one, and a
    revealed payload hashes to what the proposer committed to; a commitment,
    once made, never changes. *)
Theorem auction_binding n d l more (a := foldl run_op (auction_new n d) l) :
  Forall (fun h => block_number h = slot a) (bids a)
  /\ winning_bid a = pc_header <$> commitment a
  /\ (forall p, revealed_payload a = Some p -> exists c, commitment a = Some c
        /\ payload_hash (pc_header c) = compute_payload_hash p)
  /\ (forall c, commitment a = Some c -> commitment (foldl run_op a more) = Some c).
Proof.
  assert (Hi : auction_inv a).
  { apply (foldl_inv run_op auction_inv); [by apply auction_op_inv|]. split; simpl; [constructor|done|done]. }
  destruct Hi as [H1 H2 H3]. split_and!; [done|done|done|]. intros c Hc.
  apply (foldl_inv run_op (fun a => commitment a = Some c)); [|done].
  intros b op Hb. destruct op as [h|v h sig t|p]; simpl.
  - unfold submit_bid. by destruct (negb _).
  - unfold commit. by rewrite Hb.
  - unfold reveal. rewrite Hb. repeat (destruct (negb _); [done|]). done.
Qed.

(** The commitment need not be the highest bid, or any submitted bid. *)
Example commit_ignores_bids :
  let h v := {| builder_id := 0; payload_hash := v; bid_value := v; ph_gas_limit := 0;
                ph_gas_used := 0; block_number := 1; ph_parent_hash := 0; ph_timestamp := 0 |} in
  let a := (submit_bid (auction_new 1 9) (h 10)).1 in
  (commit a 7 (h 3) [] 0).2 = Ok tt /\ highest_bid a = Some (h 10).
Proof. split; reflexivity. Qed.

End pbs.
End Pbs.

(** ** The delay function *)

Module Vdf.

Record VdfParams := { iterations : u64; modulus_bits : Z }.
Definition params_default : VdfParams := {| iterations := 1000000; modulus_bits := 2048 |}.

Record VdfProof := { pi : Hash; challenge : Hash }.
Record VdfOutput := { result_ : Hash; proof : VdfProof; out_iterations : u64 }.

(** Byte [i] of a hash. *)
Definition byte_of (h : Hash) (i : nat) : u8 := default 0 (hash_bytes h !! i).

Section vdf.
Context (keccak256 : list u8 -> Hash).

Definition hash_combine (a b : Hash) : Hash := keccak256 (hash_bytes a ++ hash_bytes b).
Definition hash_square (h : Hash) : Hash := keccak256 (hash_bytes h ++ hash_bytes h).
Definition compute_challenge (seed r : Hash) : Hash := hash_combine seed r.
Definition xor_hashes (a b : Hash) : Hash := Z.lxor a b.

Definition iterations_for_test (p : VdfParams) : u64 := Z.min (iterations p) 1000.

Definition generate_proof (seed r : Hash) : VdfProof :=
  {| pi := hash_combine seed r; challenge := compute_challenge seed r |}.

Definition compute (p : VdfParams) (seed : Hash) : VdfOutput :=
  let state := Nat.iter (Z.to_nat (iterations_for_test p)) hash_square seed in
  {| result_ := state; proof := generate_proof seed state; out_iterations := iterations p |}.

Definition verify (seed : Hash) (o : VdfOutput) : bool :=
  if negb (challenge (proof o) =? compute_challenge seed (result_ o)) then false
  else
    let verification_hash := hash_combine (pi (proof o)) (challenge (proof o)) in
    let recomputed := hash_combine verification_hash seed in
    byte_of recomputed 0 =? Z.lxor (byte_of seed 0) (byte_of (result_ o) 0).

Definition generate_randomness (p : VdfParams) (prev_randomness block_hash : Hash) : VdfOutput :=
  compute p (xor_hashes prev_randomness block_hash).

Definition select_leader (o : VdfOutput) (validator_count : nat) : nat :=
  if (validator_count =? 0)%nat then O
  else Z.to_nat (from_le_bytes (take 8 (hash_bytes (result_ o))) mod Z.of_nat validator_count).

(** The leader is one of the validators. *)
Lemma select_leader_bound o n : (0 < n)%nat -> (select_leader o n < n)%nat.
Proof.
  intros Hn. unfold select_leader. destruct (n =? 0)%nat eqn:E; [by apply Nat.eqb_eq in E; lia|].
  pose proof (Z.mod_pos_bound (from_le_bytes (take 8 (hash_bytes (result_ o)))) (Z.of_nat n)). lia.
Qed.

(** Whether an honest output verifies depends on one byte of an unrelated hash:
    verification recomputes nothing of the delay. *)
Lemma verify_compute p seed :
  let o := compute p seed in
  verify seed o = (byte_of (hash_combine (hash_combine (hash_combine seed (result_ o))
                              (hash_combine seed (result_ o))) seed) 0
                   =? Z.lxor (byte_of seed 0) (byte_of (result_ o) 0)).
Proof. cbv zeta. unfold verify. simpl. unfold compute_challenge. by rewrite Z.eqb_refl. Qed.

End vdf.

(** An honest output is rejected, for a hash whose bytes are all 1. *)
Example honest_output_rejected :
  let ones := from_be_bytes (replicate 32 1) in
  let k := fun _ : list u8 => ones in
  verify k ones (compute k {| iterations := 1; modulus_bits := 0 |} ones) = false.
Proof. vm_compute. reflexivity. Qed.

End Vdf.
