(* ===== verification/Sharding.v ===== *)
(** * Sharding: [qc-14-sharding]

    Shard assignment ([algorithms/shard_assignment.rs]), the two-phase commit
    coordinator ([algorithms/two_phase_commit.rs]) and cross-shard transactions
    ([domain/entities.rs], [domain/value_objects.rs]), the global state root
    ([algorithms/global_state.rs]), the invariants ([domain/invariants.rs]) and
    the two adapters with state ([adapters/shard_consensus.rs],
    [adapters/partitioned_state.rs]).

    Keccak-256 is the argument [keccak256].  The coordinator reads a clock: its
    methods get the seconds [elapsed] since it was made.  Texts of error messages
    are left out. *)

From S2P Require Import Prelude.
Local Open Scope Z_scope.
Local Open Scope qc_scope.

Abbreviation ShardId := Z (only parsing).

(** ** Data *)

Inductive CrossShardState := Pending | Locked | Committed | Aborted.

#[export] Instance CrossShardState_eq_dec : EqDecision CrossShardState.
Proof. solve_decision. Defined.

Definition can_transition_to (s next : CrossShardState) : bool :=
  match s, next with
  | Pending, Locked | Pending, Aborted | Locked, Committed | Locked, Aborted => true
  | _, _ => false
  end.
Definition is_terminal (s : CrossShardState) : bool :=
  match s with Committed | Aborted => true | _ => false end.

Inductive AbortReason :=
| ReasonLockFailed (shard_id : ShardId)
| ReasonTimeout
| InsufficientSignaturesReason
| CoordinatorAbort
| NetworkPartition.

Inductive ShardError :=
| UnknownShard (s : ShardId)
| LockFailed
| Timeout (secs : u64)
| InvalidProof
| InsufficientSignatures (got required : nat)
| AlreadyProcessed (h : Hash)
| StateInconsistency
| InvalidTransition (from : CrossShardState)
| NetworkError
| ConfigError
| EpochMismatch (expected got : u64).

Record LockData := {
  ld_tx_hash : Hash;
  ld_shard_id : ShardId;
  ld_account : Address;
  ld_amount : u64;
  ld_expires_at : u64
}.

Record Signature := {
  sg_validator_id : Hash;
  sg_bytes : list u8
}.

Record LockProof := {
  lock_data : LockData;
  merkle_proof : list Hash;
  signatures : list Signature
}.

Record CrossShardTransaction := {
  cs_tx_hash : Hash;
  cs_source_shard : ShardId;
  cs_target_shards : list ShardId;
  cs_sender : Address;
  cs_recipients : list Address;
  cs_amount : u64;
  cs_state : CrossShardState;
  cs_lock_proofs : list LockProof;
  cs_abort_reason : option AbortReason;
  cs_created_at : u64
}.

(** ** Cross-shard transactions *)

Module CrossShardTx.

Definition new (tx_hash : Hash) (source : ShardId) (targets : list ShardId) (sender : Address)
  (recipients : list Address) (amount created_at : u64) : CrossShardTransaction := {|
  cs_tx_hash := tx_hash; cs_source_shard := source; cs_target_shards := targets;
  cs_sender := sender; cs_recipients := recipients; cs_amount := amount; cs_state := Pending;
  cs_lock_proofs := []; cs_abort_reason := None; cs_created_at := created_at |}.

Definition set_fields (t : CrossShardTransaction) (s : CrossShardState) (l : list LockProof)
  (r : option AbortReason) : CrossShardTransaction := {|
  cs_tx_hash := cs_tx_hash t; cs_source_shard := cs_source_shard t;
  cs_target_shards := cs_target_shards t; cs_sender := cs_sender t;
  cs_recipients := cs_recipients t; cs_amount := cs_amount t; cs_state := s;
  cs_lock_proofs := l; cs_abort_reason := r; cs_created_at := cs_created_at t |}.

Definition transition_to (t : CrossShardTransaction) (next : CrossShardState)
  : CrossShardTransaction * result ShardError unit :=
  if negb (can_transition_to (cs_state t) next) then (t, Err (InvalidTransition (cs_state t)))
  else (set_fields t next (cs_lock_proofs t) (cs_abort_reason t), Ok tt).

Definition abort (t : CrossShardTransaction) (reason : AbortReason)
  : CrossShardTransaction * result ShardError unit :=
  transition_to (set_fields t (cs_state t) (cs_lock_proofs t) (Some reason)) Aborted.

Definition add_lock_proof (t : CrossShardTransaction) (p : LockProof) : CrossShardTransaction :=
  set_fields t (cs_state t) (cs_lock_proofs t ++ [p]) (cs_abort_reason t).

Definition all_locks_acquired (t : CrossShardTransaction) : bool :=
  (length (cs_lock_proofs t) =? length (cs_target_shards t) + 1)%nat.

Inductive TxOp :=
| OpTransition (next : CrossShardState)
| OpAbort (reason : AbortReason)
| OpAddProof (p : LockProof).

Definition run_op (t : CrossShardTransaction) (op : TxOp) : CrossShardTransaction :=
  match op with
  | OpTransition next => (transition_to t next).1
  | OpAbort r => (abort t r).1
  | OpAddProof p => add_lock_proof t p
  end.

End CrossShardTx.

(** ** The coordinator *)

Record TwoPhaseCoordinator := {
  tx_hash : Hash;
  source_shard : ShardId;
  target_shards : list ShardId;
  state : CrossShardState;
  lock_proofs : list LockProof;
  timeout_secs : u64
}.

Module Coordinator.

Definition new (h : Hash) (source : ShardId) (targets : list ShardId) (timeout : u64)
  : TwoPhaseCoordinator := {|
  tx_hash := h; source_shard := source; target_shards := targets; state := Pending;
  lock_proofs := []; timeout_secs := timeout |}.

Definition set_state (c : TwoPhaseCoordinator) (s : CrossShardState) : TwoPhaseCoordinator := {|
  tx_hash := tx_hash c; source_shard := source_shard c; target_shards := target_shards c;
  state := s; lock_proofs := lock_proofs c; timeout_secs := timeout_secs c |}.

Definition is_timeout (c : TwoPhaseCoordinator) (elapsed : u64) : bool := timeout_secs c <? elapsed.

Definition add_lock_proof (c : TwoPhaseCoordinator) (elapsed : u64) (p : LockProof)
  : TwoPhaseCoordinator * result ShardError unit :=
  if is_timeout c elapsed then (c, Err (Timeout (timeout_secs c)))
  else if negb (bool_decide (state c = Pending)) then (c, Err (InvalidTransition (state c)))
  else ({| tx_hash := tx_hash c; source_shard := source_shard c; target_shards := target_shards c;
           state := state c; lock_proofs := lock_proofs c ++ [p];
           timeout_secs := timeout_secs c |}, Ok tt).

Definition all_locks_acquired (c : TwoPhaseCoordinator) : bool :=
  (length (target_shards c) <? length (lock_proofs c))%nat.

Definition try_lock (c : TwoPhaseCoordinator) (elapsed : u64)
  : TwoPhaseCoordinator * result ShardError unit :=
  if is_timeout c elapsed then (set_state c Aborted, Err (Timeout (timeout_secs c)))
  else if negb (all_locks_acquired c) then (c, Err LockFailed)
  else (set_state c Locked, Ok tt).

Definition commit (c : TwoPhaseCoordinator) : TwoPhaseCoordinator * result ShardError unit :=
  if negb (bool_decide (state c = Locked)) then (c, Err (InvalidTransition (state c)))
  else (set_state c Committed, Ok tt).

Definition abort (c : TwoPhaseCoordinator) (reason : AbortReason)
  : TwoPhaseCoordinator * result ShardError AbortReason :=
  if is_terminal (state c) then (c, Err (InvalidTransition (state c)))
  else (set_state c Aborted, Ok reason).

Inductive CoordinatorOp :=
| OpProof (elapsed : u64) (p : LockProof)
| OpTryLock (elapsed : u64)
| OpCommit
| OpAbort (reason : AbortReason).

Definition run_op (c : TwoPhaseCoordinator) (op : CoordinatorOp) : TwoPhaseCoordinator :=
  match op with
  | OpProof e p => (add_lock_proof c e p).1
  | OpTryLock e => (try_lock c e).1
  | OpCommit => (commit c).1
  | OpAbort r => (abort c r).1
  end.
Definition run_ops (c : TwoPhaseCoordinator) (l : list CoordinatorOp) : TwoPhaseCoordinator :=
  foldl run_op c l.

(** [filter_map(ok)], and [find_map(err)]. *)
Definition successes (l : list (result ShardError LockProof)) : list LockProof :=
  omap (fun r => match r with Ok p => Some p | _ => None end) l.
Definition first_error (l : list (result ShardError LockProof)) : option ShardError :=
  list.head (omap (fun r => match r with Err e => Some e | _ => None end) l).

Definition decide_outcome (lock_responses : list (result ShardError LockProof))
  (required_locks : nat) : result AbortReason (list LockProof) :=
  if (required_locks <=? length (successes lock_responses))%nat then Ok (successes lock_responses)
  else
    match first_error lock_responses with
    | Some (Timeout _) => Err ReasonTimeout
    | Some LockFailed => Err (ReasonLockFailed 0)
    | _ => Err CoordinatorAbort
    end.

End Coordinator.

(** ** Assignment *)

Section assignment.
Context (keccak256 : list u8 -> Hash).

(** [u16::from_be_bytes([hash[0], hash[1]])] is the hash without its last 30
    bytes. *)
Definition assign_shard (address : Address) (shard_count : Z) : ShardId :=
  if shard_count =? 0 then 0
  else (keccak256 (address_bytes address) / 2 ^ 240) mod shard_count.

(** The hash of an address and a shard. *)
Definition shard_weight (address : Address) (shard : ShardId) : Hash :=
  keccak256 (address_bytes address ++ be_bytes 2 shard).

(** The loop of [rendezvous_assign]. *)
Fixpoint rendezvous_loop (address : Address) (best_hash : Hash) (best_shard : ShardId)
  (shards : list ShardId) : ShardId :=
  match shards with
  | [] => best_shard
  | shard :: shards =>
      let combined := shard_weight address shard in
      if best_hash <? combined then rendezvous_loop address combined shard shards
      else rendezvous_loop address best_hash best_shard shards
  end.

Definition rendezvous_assign (address : Address) (shards : list ShardId) : ShardId :=
  match shards with
  | [] => 0
  | [s] => s
  | s :: _ => rendezvous_loop address 0 s shards
  end.

Definition is_cross_shard (sender : Address) (recipients : list Address) (shard_count : Z) : bool :=
  existsb (fun r => negb (assign_shard r shard_count =? assign_shard sender shard_count)) recipients.

Definition push_new (shards : list ShardId) (shard : ShardId) : list ShardId :=
  if decide (shard ∈ shards) then shards else shards ++ [shard].

Definition get_involved_shards (sender : Address) (recipients : list Address) (shard_count : Z)
  : list ShardId :=
  foldl (fun shards r => push_new shards (assign_shard r shard_count))
    [assign_shard sender shard_count] recipients.

(** ** The global state root *)

Record ShardStateRoot := {
  sr_shard_id : ShardId;
  sr_state_root : Hash;
  sr_block_height : u64;
  sr_epoch : u64
}.

Record GlobalStateRoot := {
  gs_root : Hash;
  gs_shard_roots : list ShardStateRoot;
  gs_block_height : u64;
  gs_epoch : u64
}.

Definition hash_concat (left right : Hash) : Hash := keccak256 (hash_bytes left ++ hash_bytes right).

(** One level: pairs, an odd last hash with itself. *)
Fixpoint next_level (l : list Hash) : list Hash :=
  match l with
  | a :: b :: l => hash_concat a b :: next_level l
  | [a] => [hash_concat a a]
  | [] => []
  end.

(** The [while] loop; [None] is out of fuel or [level[0]] out of range. *)
Fixpoint merkle_loop (fuel : nat) (level : list Hash) : option Hash :=
  match level with
  | [] => None
  | [h] => Some h
  | _ => match fuel with O => None | S fuel => merkle_loop fuel (next_level level) end
  end.

(** Every level is shorter than the one before, so the length is enough fuel. *)
Definition compute_merkle_root (hashes : list Hash) : option Hash :=
  match hashes with
  | [] => Some 0
  | _ => merkle_loop (length hashes) hashes
  end.

Definition shard_le (a b : ShardStateRoot) : Prop := sr_shard_id a <= sr_shard_id b.
#[export] Instance shard_le_dec a b : Decision (shard_le a b).
Proof. unfold shard_le. apply _. Defined.

Definition compute_global_state_root (shard_roots : list ShardStateRoot) (block_height epoch : u64)
  : option GlobalStateRoot :=
  match shard_roots with
  | [] => Some {| gs_root := 0; gs_shard_roots := []; gs_block_height := block_height; gs_epoch := epoch |}
  | _ =>
      let sorted := stable_sort shard_le shard_roots in
      root ← compute_merkle_root (sr_state_root <$> sorted);
      Some {| gs_root := root; gs_shard_roots := sorted; gs_block_height := block_height;
              gs_epoch := epoch |}
  end.

Definition inclusion_step (current sibling : Hash) : Hash :=
  if current <? sibling then hash_concat current sibling else hash_concat sibling current.
Definition verify_shard_inclusion (shard_root : Hash) (proof : list Hash) (global_root : Hash) : bool :=
  foldl inclusion_step shard_root proof =? global_root.

(** ** Partitioned state *)

Record InMemoryPartitionedState := {
  balances : gmap ShardId (gmap Address u64);
  state_roots : gmap ShardId Hash
}.

Definition with_shards (shard_count : nat) : InMemoryPartitionedState := {|
  balances := list_to_map ((fun s => (s, ∅)) <$> seqZ 0 (Z.of_nat shard_count));
  state_roots := list_to_map ((fun s => (s, 0)) <$> seqZ 0 (Z.of_nat shard_count)) |}.

Definition set_balance (s : InMemoryPartitionedState) (shard : ShardId) (address : Address)
  (balance : u64) : InMemoryPartitionedState := {|
  balances := <[shard := <[address := balance]> (default ∅ (balances s !! shard))]> (balances s);
  state_roots := state_roots s |}.

Definition address_le (a b : Address * u64) : Prop := a.1 <= b.1.
#[export] Instance address_le_dec a b : Decision (address_le a b).
Proof. unfold address_le. apply _. Defined.

Definition shard_root_of (shard : ShardId) (m : gmap Address u64) : Hash :=
  keccak256 (le_bytes 2 shard ++
    concat ((fun e => address_bytes e.1 ++ le_bytes 8 e.2) <$> stable_sort address_le (map_to_list m))).

Definition update_state_root (s : InMemoryPartitionedState) (shard : ShardId)
  : InMemoryPartitionedState :=
  match balances s !! shard with
  | Some m => {| balances := balances s;
                 state_roots := <[shard := shard_root_of shard m]> (state_roots s) |}
  | None => s
  end.

Definition get_balance (s : InMemoryPartitionedState) (shard : ShardId) (address : Address)
  : result ShardError u64 :=
  match balances s !! shard with
  | None => Err (UnknownShard shard)
  | Some m => Ok (default 0 (m !! address))
  end.

(** [delta] is an [i64]. *)
Definition apply_change (s : InMemoryPartitionedState) (shard : ShardId) (address : Address)
  (delta : Z) : InMemoryPartitionedState * result ShardError unit :=
  match balances s !! shard with
  | None => (s, Err (UnknownShard shard))
  | Some m =>
      let current := default 0 (m !! address) in
      let set b := (update_state_root {|
        balances := <[shard := <[address := b]> m]> (balances s);
        state_roots := state_roots s |} shard, Ok tt) in
      if 0 <=? delta then set (saturating_add 64 current delta)
      else if current <? - delta then (s, Err StateInconsistency)
      else set (current - - delta)
  end.

Definition get_state_root (s : InMemoryPartitionedState) (shard : ShardId) : result ShardError Hash :=
  match state_roots s !! shard with
  | None => Err (UnknownShard shard)
  | Some r => Ok r
  end.

End assignment.

(** ** Locks *)

Record EventBusShardConsensus := {
  shard_states : gmap ShardId ShardStateRoot;
  locks : gmap Hash LockData;
  pending_txs : gmap ShardId (list Hash)
}.

Module ShardConsensus.

Definition with_shards (shard_count : nat) : EventBusShardConsensus := {|
  shard_states := list_to_map ((fun s => (s, {| sr_shard_id := s; sr_state_root := 0;
    sr_block_height := 0; sr_epoch := 0 |})) <$> seqZ 0 (Z.of_nat shard_count));
  locks := ∅;
  pending_txs := list_to_map ((fun s => (s, [])) <$> seqZ 0 (Z.of_nat shard_count)) |}.

Definition get_shard_state (c : EventBusShardConsensus) (shard : ShardId)
  : result ShardError ShardStateRoot :=
  match shard_states c !! shard with
  | None => Err (UnknownShard shard)
  | Some s => Ok s
  end.

Definition submit_transaction (c : EventBusShardConsensus) (shard : ShardId) (tx : Hash)
  : EventBusShardConsensus * result ShardError unit :=
  match shard_states c !! shard with
  | None => (c, Err (UnknownShard shard))
  | Some _ =>
      ({| shard_states := shard_states c; locks := locks c;
          pending_txs := <[shard := default [] (pending_txs c !! shard) ++ [tx]]> (pending_txs c) |},
       Ok tt)
  end.

(** The proof with the fixed Merkle path and signatures. *)
Definition mock_proof (d : LockData) : LockProof := {|
  lock_data := d; merkle_proof := replicate 3 0;
  signatures := [{| sg_validator_id := from_be_bytes (replicate 32 1); sg_bytes := replicate 64 0 |};
                 {| sg_validator_id := from_be_bytes (replicate 32 2); sg_bytes := replicate 64 0 |}] |}.

Definition acquire_lock (c : EventBusShardConsensus) (d : LockData)
  : EventBusShardConsensus * result ShardError LockProof :=
  match locks c !! ld_tx_hash d with
  | Some _ => (c, Err LockFailed)
  | None => ({| shard_states := shard_states c; locks := <[ld_tx_hash d := d]> (locks c);
                pending_txs := pending_txs c |}, Ok (mock_proof d))
  end.

Definition release_lock (c : EventBusShardConsensus) (tx : Hash) (shard : ShardId)
  : EventBusShardConsensus * result ShardError unit :=
  match locks c !! tx with
  | Some _ => ({| shard_states := shard_states c; locks := delete tx (locks c);
                  pending_txs := pending_txs c |}, Ok tt)
  | None => (c, Err LockFailed)
  end.

End ShardConsensus.

(** ** Invariants *)

Definition MIN_SHARD_COUNT : Z := 1.
Definition MAX_SHARD_COUNT : Z := 1024.
Definition MIN_VALIDATORS_PER_SHARD : nat := 128.

Definition invariant_cross_shard_atomic (committed aborted total : list ShardId)
  : result ShardError unit :=
  if existsb (fun s => bool_decide (s ∈ aborted)) committed then Err StateInconsistency
  else
    let all_committed := (length committed =? length total)%nat in
    let all_aborted := (length aborted =? length total)%nat in
    let in_progress := (length committed =? 0)%nat && (length aborted =? 0)%nat in
    if negb all_committed && negb all_aborted && negb in_progress then Err StateInconsistency
    else Ok tt.

Definition invariant_global_consistency (shard_roots : list (ShardId * Hash))
  (expected_shards : list ShardId) : result ShardError unit :=
  if negb (forallb (fun s => bool_decide (s ∈ shard_roots.*1)) expected_shards)
  then Err StateInconsistency
  else if negb (bool_decide (NoDup shard_roots.*1)) then Err StateInconsistency
  else Ok tt.

Definition invariant_min_validators (validator_count min_required : nat) : result ShardError unit :=
  if (validator_count <? min_required)%nat
  then Err (InsufficientSignatures validator_count min_required) else Ok tt.
