(* ===== verification/ShardingProps.v ===== *)
(** * Sharding: properties

    The claims about [qc-14-sharding]: the two-phase commit coordinator and the
    locks it needs, assignment of addresses to shards, and the global state
    root. *)

From S2P Require Import Prelude Sharding.
Local Open Scope Z_scope.
Local Open Scope qc_scope.

(** ** Two-phase commit *)

(** The proofs a coordinator holds are the ones given to it, in order. *)
Definition given (l : list Coordinator.CoordinatorOp) : list LockProof :=
  omap (fun op => match op with Coordinator.OpProof _ p => Some p | _ => None end) l.

Record coord_inv (h : Hash) (source : ShardId) (targets : list ShardId)
  (l : list Coordinator.CoordinatorOp) (c : TwoPhaseCoordinator) : Prop := {
  co_shards : source_shard c = source /\ target_shards c = targets;
  co_proofs : lock_proofs c `sublist_of` given l;
  co_locked : state c = Locked \/ state c = Committed -> (length targets < length (lock_proofs c))%nat
}.

Lemma coord_ops_inv h source targets timeout l :
  coord_inv h source targets l (Coordinator.run_ops (Coordinator.new h source targets timeout) l).
Proof.
  induction l as [|op l [Hs Hp Hl]] using rev_ind.
  { split; [done|done|]. by intros []. }
  unfold Coordinator.run_ops in *. rewrite foldl_app. simpl.
  set (c := foldl Coordinator.run_op (Coordinator.new h source targets timeout) l) in *.
  assert (Hg : given (l ++ [op]) = given l ++ given [op]) by apply omap_app.
  assert (Hp' : lock_proofs c `sublist_of` given (l ++ [op])) by (rewrite Hg; by apply sublist_inserts_r).
  destruct op as [e p|e| |r]; simpl.
  - unfold Coordinator.add_lock_proof. destruct (Coordinator.is_timeout c e); [by split|].
    case_bool_decide as Ep; simpl; [|by split]. split; simpl; [done| |].
    + rewrite Hg. by apply sublist_app.
    + rewrite Ep. by intros [].
  - unfold Coordinator.try_lock. destruct (Coordinator.is_timeout c e); simpl; [split; simpl; [done|done|by intros []]|].
    destruct (Coordinator.all_locks_acquired c) eqn:E; simpl; [|by split].
    split; simpl; [done|done|]. intros _. apply Nat.ltb_lt in E. destruct Hs as [_ Ht]. by rewrite <-Ht.
  - unfold Coordinator.commit. case_bool_decide as Ep; simpl; [|by split].
    split; simpl; [done|done|]. intros _. apply Hl. by left.
  - unfold Coordinator.abort. destruct (is_terminal (state c)); simpl; [by split|].
    split; simpl; [done|done|by intros []].
Qed.

(** A commit has the locks of every shard.  After any calls of the
    coordinator, if the proofs it was given come from distinct shards of the
    transaction and it has committed, then it holds a proof from the source
    shard and from every target shard. *)
Theorem commit_has_all_locks h source targets timeout l
  (c := Coordinator.run_ops (Coordinator.new h source targets timeout) l)
  (Hnd : NoDup ((ld_shard_id ∘ lock_data) <$> given l))
  (Hin : forall p, p ∈ given l -> ld_shard_id (lock_data p) ∈ source :: targets)
  (Hc : state c = Committed) :
  forall s, s ∈ source :: targets -> exists p, p ∈ lock_proofs c /\ ld_shard_id (lock_data p) = s.
Proof.
  destruct (coord_ops_inv h source targets timeout l) as [_ Hp Hl]. fold c in Hp, Hl.
  specialize (Hl (or_intror Hc)). set (held := (ld_shard_id ∘ lock_data) <$> lock_proofs c).
  assert (Hndh : NoDup held) by (eapply sublist_NoDup; [exact Hnd|by apply fmap_sublist]).
  assert (Hsub : held ⊆ source :: targets).
  { intros s (p & -> & Hps)%list_elem_of_fmap. apply Hin. by eapply elem_of_submseteq;
      [|apply sublist_submseteq]. }
  assert (Hlen : (length (source :: targets) <= length held)%nat).
  { unfold held. rewrite length_fmap. simpl. lia. }
  assert (Hperm : held ≡ₚ source :: targets).
  { apply submseteq_length_Permutation; [by apply NoDup_submseteq|done]. }
  intros s. rewrite <-Hperm. intros (p & -> & Hps)%list_elem_of_fmap. by exists p.
Qed.

(** An aborted transaction can still commit.  A coordinator that
    holds enough proofs and has not timed out can be aborted and then locked and
    committed: [try_lock] does not look at the state, which
    [CrossShardState::can_transition_to] makes final. *)
Theorem aborted_can_commit c elapsed reason
  (Hp : is_terminal (state c) = false) (Ht : Coordinator.is_timeout c elapsed = false)
  (Hl : Coordinator.all_locks_acquired c = true) :
  let a := (Coordinator.abort c reason).1 in
  let k := (Coordinator.try_lock a elapsed).1 in
  state a = Aborted /\ (Coordinator.commit k).2 = Ok tt /\ state (Coordinator.commit k).1 = Committed
  /\ can_transition_to Aborted Locked = false.
Proof.
  cbv zeta. unfold Coordinator.abort. rewrite Hp. cbn [fst].
  unfold Coordinator.try_lock, Coordinator.is_timeout, Coordinator.all_locks_acquired in *. simpl in *.
  rewrite Ht, Hl. simpl. by split_and!.
Qed.

(** Terminal states of a cross-shard transaction are final.  Once a
    [CrossShardTransaction] is committed or aborted, no operation changes its
    state. *)
Theorem cross_shard_tx_terminal t l (Ht : is_terminal (cs_state t) = true) :
  cs_state (foldl CrossShardTx.run_op t l) = cs_state t.
Proof.
  revert t Ht. induction l as [|op l IH]; intros t Ht; [done|]. simpl.
  assert (E : cs_state (CrossShardTx.run_op t op) = cs_state t).
  { destruct op as [next|r|p]; simpl; [| |done].
    - unfold CrossShardTx.transition_to. destruct (cs_state t) eqn:Es, next; done.
    - unfold CrossShardTx.abort, CrossShardTx.transition_to. simpl. by destruct (cs_state t) eqn:Es. }
  rewrite IH; by rewrite E.
Qed.

(** The responses when the locks of one transaction are asked for in turn. *)
Definition acquire_all (c : EventBusShardConsensus) (l : list LockData)
  : EventBusShardConsensus * list (result ShardError LockProof) :=
  foldl (fun acc d => let '(c, rs) := acc in
           let '(c, r) := ShardConsensus.acquire_lock c d in (c, rs ++ [r])) (c, []) l.

Lemma acquire_after c l tx rs : is_Some (locks c !! tx) -> Forall (fun d => ld_tx_hash d = tx) l ->
  foldl (fun acc d => let '(c, rs) := acc in
           let '(c, r) := ShardConsensus.acquire_lock c d in (c, rs ++ [r])) (c, rs) l
  = (c, rs ++ replicate (length l) (Err LockFailed)).
Proof.
  intros [d0 Hd0]. revert rs. induction l as [|d l IH]; intros rs Hl; simpl; [by rewrite app_nil_r|].
  apply Forall_cons in Hl as [Hd Hl]. unfold ShardConsensus.acquire_lock at 2. rewrite Hd, Hd0.
  rewrite IH by done. by rewrite <-app_assoc.
Qed.

(** The lock adapter never locks two shards.  Locks are kept per
    transaction and not per shard, so asking for the locks of one transaction on
    two or more shards succeeds for at most the first, and the outcome of the
    two-phase commit is always an abort. *)
Theorem cross_shard_lock_always_aborts c tx l (Hl : Forall (fun d => ld_tx_hash d = tx) l)
  (Hn : (2 <= length l)%nat) :
  (length (Coordinator.successes (acquire_all c l).2) <= 1)%nat
  /\ Coordinator.decide_outcome (acquire_all c l).2 (length l) = Err (ReasonLockFailed 0).
Proof.
  assert (Hr : exists k (p : list LockProof), (length p <= 1)%nat /\ (length p + k = length l)%nat
    /\ (acquire_all c l).2 = (Ok <$> p) ++ replicate k (Err LockFailed)).
  { unfold acquire_all. destruct (locks c !! tx) as [d0|] eqn:E.
    - rewrite (acquire_after c l tx) by eauto. exists (length l), []. simpl. split_and!; [lia|lia|done].
    - destruct l as [|d l]; [simpl in Hn; lia|]. apply Forall_cons in Hl as [Hd Hl]. simpl.
      unfold ShardConsensus.acquire_lock at 2. rewrite Hd, E. rewrite (acquire_after _ l tx).
      + exists (length l), [ShardConsensus.mock_proof d]. simpl. split_and!; [lia|lia|done].
      + simpl. rewrite lookup_insert_eq. by eexists.
      + done. }
  destruct Hr as (k & p & Hp & Hk & ->).
  assert (Hs : Coordinator.successes ((Ok <$> p) ++ replicate k (Err LockFailed)) = p).
  { unfold Coordinator.successes. rewrite omap_app.
    replace (omap _ (replicate k (Err LockFailed))) with (@nil LockProof) by (clear; by induction k).
    rewrite app_nil_r. clear. induction p as [|x p IH]; [done|]. cbn. by f_equal. }
  rewrite Hs. split; [done|]. unfold Coordinator.decide_outcome. rewrite Hs.
  rewrite (proj2 (Nat.leb_gt _ _)) by lia.
  assert (He : Coordinator.first_error ((Ok <$> p) ++ replicate k (Err LockFailed)) = Some LockFailed).
  { unfold Coordinator.first_error. rewrite omap_app.
    replace (omap _ (Ok <$> p)) with (@nil ShardError) by (clear; by induction p).
    destruct k; [lia|done]. }
  by rewrite He.
Qed.

(** ** Assignment *)

Section assignment.
Context (keccak256 : list u8 -> Hash).

(** The loop returns the best of what it has seen. *)
Lemma rendezvous_loop_spec a l : forall h s,
  let r := rendezvous_loop keccak256 a h s l in
  (r = s /\ Forall (fun x => shard_weight keccak256 a x <= h) l)
  \/ (r ∈ l /\ h < shard_weight keccak256 a r
      /\ Forall (fun x => shard_weight keccak256 a x <= shard_weight keccak256 a r) l).
Proof.
  induction l as [|x l IH]; intros h s; cbv zeta; simpl; [by left|].
  destruct (h <? shard_weight keccak256 a x) eqn:E; bools.
  - right. destruct (IH (shard_weight keccak256 a x) x) as [[-> Hall]|(Hin & Hlt & Hall)].
    + split_and!; [left|done|]. by constructor.
    + split_and!; [by right|lia|]. constructor; [lia|done].
  - destruct (IH h s) as [[-> Hall]|(Hin & Hlt & Hall)].
    + left. split; [done|]. by constructor.
    + right. split_and!; [by right|done|]. constructor; [lia|done].
Qed.

(** The winner: a shard of the list that no other outweighs. *)
Lemma rendezvous_spec a l : l <> [] -> (forall x, x ∈ l -> 0 < shard_weight keccak256 a x) ->
  rendezvous_assign keccak256 a l ∈ l
  /\ forall x, x ∈ l -> shard_weight keccak256 a x
       <= shard_weight keccak256 a (rendezvous_assign keccak256 a l).
Proof.
  intros Hne Hpos. destruct l as [|s [|s' l]]; [done| |].
  - simpl. split; [left|]. intros x ->%list_elem_of_singleton. done.
  - change (rendezvous_assign keccak256 a (s :: s' :: l))
      with (rendezvous_loop keccak256 a 0 s (s :: s' :: l)).
    destruct (rendezvous_loop_spec a (s :: s' :: l) 0 s) as [[-> Hall]|(Hin & _ & Hall)].
    + exfalso. apply Forall_cons in Hall as [Hs _]. specialize (Hpos s ltac:(left)). lia.
    + split; [done|]. by apply Forall_forall.
Qed.

(** Rendezvous assignment.  When the weights of an address on
    the shards are positive and distinct, the assigned shard is the one with the
    greatest weight, in whatever order the shards are listed; and adding a shard
    either keeps the assignment or moves the address to the new shard. *)
Theorem rendezvous_minimal_moves a l l' s (Hne : l <> []) (Hp : l' ≡ₚ s :: l)
  (Hpos : forall x, x ∈ s :: l -> 0 < shard_weight keccak256 a x)
  (Hinj : forall x y, x ∈ s :: l -> y ∈ s :: l ->
     shard_weight keccak256 a x = shard_weight keccak256 a y -> x = y) :
  (rendezvous_assign keccak256 a l' = rendezvous_assign keccak256 a l
   \/ rendezvous_assign keccak256 a l' = s)
  /\ rendezvous_assign keccak256 a l' ∈ l'
  /\ forall x, x ∈ l' -> shard_weight keccak256 a x
       <= shard_weight keccak256 a (rendezvous_assign keccak256 a l').
Proof.
  destruct (rendezvous_spec a l) as [H1 H2]; [done|intros x Hx; apply Hpos; by right|].
  destruct (rendezvous_spec a l') as [H3 H4].
  { intros ->. by apply Permutation_nil_cons in Hp. }
  { intros x. rewrite Hp. apply Hpos. }
  split; [|done]. assert (Hmem : forall x, x ∈ l' -> x = s \/ x ∈ l).
  { intros x. rewrite Hp. apply elem_of_cons. }
  destruct (Hmem _ H3) as [H5|H5]; [by right|left].
  apply Hinj; [by right|by right|].
  apply Z.le_antisymm; [by apply H2|]. apply H4. rewrite Hp. by right.
Qed.

Lemma push_new_spec l s : NoDup l ->
  NoDup (push_new l s) /\ forall x, x ∈ push_new l s <-> x ∈ l \/ x = s.
Proof.
  intros Hl. unfold push_new. case_decide as Hin.
  - split; [done|]. intros x. split; [by left|]. by intros [?| ->].
  - split.
    + apply NoDup_app. split_and!; [done| |apply NoDup_singleton]. set_solver.
    + intros x. rewrite elem_of_app, list_elem_of_singleton. done.
Qed.

(** The shards of a transaction.  [get_involved_shards] lists,
    without repetition exactly the shards of the
    sender and the recipients, each below the number of shards, and a
    transaction is cross-shard exactly when there is more than one. *)
Theorem involved_shards_exact sender recipients count (Hc : 0 < count) :
  let l := get_involved_shards keccak256 sender recipients count in
  NoDup l
  /\ (forall s, s ∈ l <-> exists a, a ∈ sender :: recipients /\ assign_shard keccak256 a count = s)
  /\ (forall s, s ∈ l -> 0 <= s < count)
  /\ (is_cross_shard keccak256 sender recipients count = true <-> (1 < length l)%nat).
Proof.
  intros l. set (home := assign_shard keccak256 sender count).
  assert (Hfold : forall rs init, NoDup init ->
    let r := foldl (fun shards r => push_new shards (assign_shard keccak256 r count)) init rs in
    NoDup r /\ forall s, s ∈ r <-> s ∈ init \/ exists a, a ∈ rs /\ assign_shard keccak256 a count = s).
  { induction rs as [|r rs IH]; intros init Hi; cbv zeta; simpl.
    - split; [done|]. intros s. split; [by left|]. intros [?|(a & ?%elem_of_nil & _)]; done.
    - destruct (push_new_spec init (assign_shard keccak256 r count) Hi) as [H1 H2].
      destruct (IH _ H1) as [H3 H4]. split; [done|]. intros s. rewrite H4, H2. set_solver. }
  assert (H : NoDup l /\ forall s, s ∈ l <-> s ∈ [home]
    \/ exists a, a ∈ recipients /\ assign_shard keccak256 a count = s)
    by exact (Hfold recipients [home] (NoDup_singleton _)).
  destruct H as [Hnd Hel].
  assert (Hall : forall s, s ∈ l <-> exists a, a ∈ sender :: recipients
    /\ assign_shard keccak256 a count = s).
  { intros s. rewrite Hel, list_elem_of_singleton. set_solver. }
  split_and!; [done|done| |].
  - intros s (a & _ & <-)%Hall. unfold assign_shard. rewrite (proj2 (Z.eqb_neq count 0)) by lia.
    apply Z.mod_pos_bound. done.
  - unfold is_cross_shard. rewrite existsb_exists. fold home. split.
    + intros (r & Hr%list_elem_of_In & Hne). bools.
      assert (Hsub : [home; assign_shard keccak256 r count] ⊆+ l).
      { apply NoDup_submseteq; [repeat constructor; set_solver|].
        intros s. rewrite Hall. intros [->|[->|?%elem_of_nil]%elem_of_cons]%elem_of_cons; [| |done].
        - exists sender. split; [left|done].
        - exists r. split; [by right|done]. }
      apply submseteq_length in Hsub. simpl in Hsub. lia.
    + intros Hlen. destruct (decide (Forall (fun s => s = home) l)) as [Hf|Hf].
      * exfalso. assert (l ⊆+ [home]) as Hs%submseteq_length; [|simpl in Hs; lia].
        apply NoDup_submseteq; [done|]. rewrite Forall_forall in Hf. intros s Hs. rewrite (Hf s Hs). left.
      * apply not_Forall_Exists in Hf; [|apply _]. apply Exists_exists in Hf as (s & Hs & Hne).
        apply Hall in Hs as (a & Ha & <-). apply elem_of_cons in Ha as [->|Ha]; [by destruct Hne|].
        exists a. split; [by apply list_elem_of_In|]. by apply negb_true_iff, Z.eqb_neq.
Qed.

(** ** The global state root *)

Lemma length_next_level l : (2 * length (next_level keccak256 l) <= length l + 1)%nat.
Proof.
  remember (length l) as n eqn:Hn. revert l Hn. induction n as [n IH] using lt_wf_ind.
  intros [|a [|b l]] ->; simpl; [lia|lia|]. specialize (IH (length l)). simpl in IH.
  specialize (IH ltac:(lia) l eq_refl). lia.
Qed.

Lemma next_level_nil l : next_level keccak256 l = [] -> l = [].
Proof. by destruct l as [|a [|b l]]. Qed.

(** The loop returns. *)
Lemma merkle_loop_total fuel : forall l, l <> [] -> (length l <= S fuel)%nat ->
  is_Some (merkle_loop keccak256 fuel l).
Proof.
  induction fuel as [|fuel IH]; intros l Hne Hl.
  - destruct l as [|a [|b l]]; simpl in *; [done|by eexists|lia].
  - destruct l as [|a [|b l]]; [done|by eexists|]. cbn [merkle_loop]. apply IH.
    + by intros ?%next_level_nil.
    + pose proof (length_next_level (a :: b :: l)). simpl in *. lia.
Qed.

#[export] Instance shard_le_trans : Transitive shard_le.
Proof. unfold shard_le. intros x y z. lia. Qed.
#[export] Instance shard_le_total : Total shard_le.
Proof. unfold shard_le. intros x y. lia. Qed.

(** The global root does not depend on the order of the
    shards.  For state roots of distinct shards [compute_global_state_root]
    returns, and returns the same root and the same sorted list for every order
    of its input. *)
Theorem global_root_order_independent l1 l2 h e (Hp : l1 ≡ₚ l2) (Hnd : NoDup (sr_shard_id <$> l1)) :
  compute_global_state_root keccak256 l1 h e = compute_global_state_root keccak256 l2 h e
  /\ is_Some (compute_global_state_root keccak256 l1 h e).
Proof.
  assert (Hs : stable_sort shard_le l1 = stable_sort shard_le l2).
  { eapply StronglySorted_unique_strong;
      [|apply stable_sort_sorted; apply _|apply stable_sort_sorted; apply _|].
    - intros x y Hx Hy H1 H2. rewrite (stable_sort_perm shard_le) in Hx.
      rewrite (stable_sort_perm shard_le), <-Hp in Hy. unfold shard_le in *.
      apply list_elem_of_lookup in Hx as [i Hi], Hy as [j Hj].
      assert (i = j) as ->; [|congruence].
      eapply NoDup_lookup; [exact Hnd| |]; rewrite list_lookup_fmap; [by rewrite Hi|rewrite Hj].
      simpl. f_equal. lia.
    - by rewrite !(stable_sort_perm shard_le). }
  assert (Htot : is_Some (compute_global_state_root keccak256 l1 h e)).
  { unfold compute_global_state_root. destruct l1 as [|r l1]; [by eexists|].
    set (sorted := stable_sort shard_le (r :: l1)).
    assert (Hlen : length (sr_state_root <$> sorted) = S (length l1)).
    { rewrite length_fmap. unfold sorted. by rewrite (stable_sort_perm shard_le). }
    unfold compute_merkle_root. destruct (sr_state_root <$> sorted) as [|x xs] eqn:E; [done|].
    destruct (merkle_loop_total (length (x :: xs)) (x :: xs)) as [root Hroot]; [done|lia|].
    rewrite Hroot. simpl. by eexists. }
  split; [|done]. unfold compute_global_state_root. rewrite <-Hs.
  destruct l1 as [|x l1], l2 as [|y l2]; [done| | |done].
  - by apply Permutation_nil_cons in Hp.
  - symmetry in Hp. by apply Permutation_nil_cons in Hp.
Qed.

(** The global root is ambiguous and inclusion proofs disagree with
    it.  Three shard roots and the same with the last one repeated have one
    Merkle root; and the proof of the left of two shard roots, when it is the
    greater, is accepted only if Keccak-256 collides on the two orders. *)
Theorem global_root_weak a b c (Hab : b < a) :
  compute_merkle_root keccak256 [a; b; c] = compute_merkle_root keccak256 [a; b; c; c]
  /\ compute_merkle_root keccak256 [a; b] = Some (hash_concat keccak256 a b)
  /\ (verify_shard_inclusion keccak256 a [b] (hash_concat keccak256 a b) = true
      <-> hash_concat keccak256 b a = hash_concat keccak256 a b).
Proof.
  split_and!; [done|done|]. unfold verify_shard_inclusion. simpl. unfold inclusion_step.
  rewrite (proj2 (Z.ltb_ge a b)) by lia. apply Z.eqb_eq.
Qed.

(** ** Partitioned balances *)

(** Balance changes of a shard.  In a known shard with an
    in-range balance a change succeeds exactly when the balance stays
    non-negative, saturates at [2^64 - 1], changes no other balance and leaves
    the recorded state root at the hash of the shard's balances; a refused
    change changes nothing. *)
Theorem apply_change_exact s shard a delta m (Hm : balances s !! shard = Some m)
  (Hd : - 2 ^ 63 <= delta < 2 ^ 63) (Hb : in_width 64 (default 0 (m !! a))) :
  let r := apply_change keccak256 s shard a delta in
  if 0 <=? default 0 (m !! a) + delta
  then r.2 = Ok tt
       /\ get_balance r.1 shard a = Ok (Z.min (default 0 (m !! a) + delta) (2 ^ 64 - 1))
       /\ (forall shard' a', (shard', a') <> (shard, a) -> get_balance r.1 shard' a' = get_balance s shard' a')
       /\ (exists m', balances r.1 !! shard = Some m'
            /\ get_state_root r.1 shard = Ok (shard_root_of keccak256 shard m'))
  else r = (s, Err StateInconsistency).
Proof.
  cbv zeta. unfold in_width in Hb.
  assert (Hset : forall b, let s' := update_state_root keccak256 {|
      balances := <[shard := <[a := b]> m]> (balances s); state_roots := state_roots s |} shard in
    get_balance s' shard a = Ok b
    /\ (forall shard' a', (shard', a') <> (shard, a) -> get_balance s' shard' a' = get_balance s shard' a')
    /\ exists m', balances s' !! shard = Some m'
         /\ get_state_root s' shard = Ok (shard_root_of keccak256 shard m')).
  { intros b. unfold update_state_root. simpl. rewrite lookup_insert_eq.
    unfold get_balance, get_state_root. simpl. rewrite !lookup_insert_eq. split_and!; [done| |by eexists].
    intros shard' a' Hne. destruct (decide (shard' = shard)) as [->|].
    - rewrite lookup_insert_eq, Hm, lookup_insert_ne by congruence. done.
    - by rewrite lookup_insert_ne. }
  unfold apply_change, saturating_add. rewrite Hm. destruct (0 <=? delta) eqn:E1; bools.
  - rewrite (proj2 (Z.leb_le _ _)) by lia. destruct (Hset (Z.min (default 0 (m !! a) + delta) (2 ^ 64 - 1)))
      as (H1 & H2 & H3). by split_and!.
  - destruct (default 0 (m !! a) <? - delta) eqn:E2; bools.
    + by rewrite (proj2 (Z.leb_gt _ _)) by lia.
    + rewrite (proj2 (Z.leb_le _ _)) by lia.
      destruct (Hset (default 0 (m !! a) - - delta)) as (H1 & H2 & H3).
      split_and!; [done| |done|done]. simpl. rewrite H1. f_equal. lia.
Qed.
End assignment.

(** ** Witnesses *)

Definition toy_keccak (l : list u8) : Hash := (from_be_bytes l + 1) mod 2 ^ 256.

Definition lock_on (shard : ShardId) : LockData := {|
  ld_tx_hash := 7; ld_shard_id := shard; ld_account := 1; ld_amount := 10; ld_expires_at := 99 |}.

Definition sample_ops : list Coordinator.CoordinatorOp :=
  [Coordinator.OpProof 1 (ShardConsensus.mock_proof (lock_on 2));
   Coordinator.OpProof 2 (ShardConsensus.mock_proof (lock_on 0));
   Coordinator.OpTryLock 3; Coordinator.OpCommit].

Lemma commit_has_all_locks_witness :
  exists p, p ∈ lock_proofs (Coordinator.run_ops (Coordinator.new 7 0 [2] 30) sample_ops)
    /\ ld_shard_id (lock_data p) = 0.
Proof.
  refine (commit_has_all_locks 7 0 [2] 30 sample_ops _ _ _ 0 _).
  - apply (bool_decide_unpack _). vm_compute. exact I.
  - apply Forall_forall. apply (bool_decide_unpack _). vm_compute. exact I.
  - reflexivity.
  - left.
Defined.

Lemma aborted_can_commit_witness :
  let c := Coordinator.run_ops (Coordinator.new 7 0 [2] 30) (take 2 sample_ops) in
  state (Coordinator.commit (Coordinator.try_lock (Coordinator.abort c CoordinatorAbort).1 5).1).1
  = Committed.
Proof.
  cbv zeta. destruct (aborted_can_commit
    (Coordinator.run_ops (Coordinator.new 7 0 [2] 30) (take 2 sample_ops)) 5 CoordinatorAbort)
    as (_ & _ & H & _); [reflexivity..|]. exact H.
Defined.

Lemma cross_shard_tx_terminal_witness :
  let t := foldl CrossShardTx.run_op (CrossShardTx.new 7 0 [2] 1 [2] 10 0)
    [CrossShardTx.OpTransition Locked; CrossShardTx.OpTransition Committed] in
  cs_state (foldl CrossShardTx.run_op t [CrossShardTx.OpAbort ReasonTimeout]) = Committed.
Proof.
  cbv zeta. refine (cross_shard_tx_terminal (foldl CrossShardTx.run_op
    (CrossShardTx.new 7 0 [2] 1 [2] 10 0)
    [CrossShardTx.OpTransition Locked; CrossShardTx.OpTransition Committed]) _ _). reflexivity.
Defined.

Lemma cross_shard_lock_always_aborts_witness :
  Coordinator.decide_outcome (acquire_all (ShardConsensus.with_shards 4) [lock_on 0; lock_on 2]).2 2
  = Err (ReasonLockFailed 0).
Proof.
  refine (proj2 (cross_shard_lock_always_aborts (ShardConsensus.with_shards 4) 7
    [lock_on 0; lock_on 2] _ _)).
  - repeat constructor.
  - simpl. lia.
Defined.

Lemma rendezvous_minimal_moves_witness :
  rendezvous_assign toy_keccak 5 [3; 1; 2] = rendezvous_assign toy_keccak 5 [1; 2]
  \/ rendezvous_assign toy_keccak 5 [3; 1; 2] = 3.
Proof.
  refine (proj1 (rendezvous_minimal_moves toy_keccak 5 [1; 2] [3; 1; 2] 3 _ _ _ _)).
  - discriminate.
  - reflexivity.
  - apply Forall_forall. apply (bool_decide_unpack _). vm_compute. exact I.
  - intros x y Hx Hy. assert (Hall : Forall (fun x => Forall (fun y =>
      shard_weight toy_keccak 5 x = shard_weight toy_keccak 5 y -> x = y) [3; 1; 2]) [3; 1; 2])
      by (apply (bool_decide_unpack _); vm_compute; exact I).
    rewrite Forall_forall in Hall. specialize (Hall x Hx). rewrite Forall_forall in Hall. exact (Hall y Hy).
Defined.

(** Addresses whose hash starts with the address itself. *)
Definition high_keccak (l : list u8) : Hash := (from_be_bytes l * 2 ^ 240) mod 2 ^ 256.

Lemma involved_shards_exact_witness :
  get_involved_shards high_keccak 1 [2; 1; 5] 4 = [1; 2]
  /\ (is_cross_shard high_keccak 1 [2; 1; 5] 4 = true
      <-> Nat.lt 1 (length (get_involved_shards high_keccak 1 [2; 1; 5] 4))).
Proof.
  split; [vm_compute; reflexivity|].
  refine (proj2 (proj2 (proj2 (involved_shards_exact high_keccak 1 [2; 1; 5] 4 _)))). lia.
Defined.

Definition root_of (s : ShardId) : ShardStateRoot := {|
  sr_shard_id := s; sr_state_root := 10 * s; sr_block_height := 1; sr_epoch := 0 |}.

Lemma global_root_order_independent_witness :
  compute_global_state_root toy_keccak [root_of 2; root_of 0; root_of 1] 1 0
  = compute_global_state_root toy_keccak [root_of 0; root_of 1; root_of 2] 1 0.
Proof.
  refine (proj1 (global_root_order_independent toy_keccak [root_of 2; root_of 0; root_of 1]
    [root_of 0; root_of 1; root_of 2] 1 0 _ _)).
  - exact (Permutation_cons_append [root_of 0; root_of 1] (root_of 2)).
  - apply (bool_decide_unpack _). vm_compute. exact I.
Defined.

Lemma global_root_weak_witness :
  verify_shard_inclusion toy_keccak 9 [4] (hash_concat toy_keccak 9 4) = false.
Proof.
  destruct (global_root_weak toy_keccak 9 4 1) as (_ & _ & H); [lia|].
  destruct (verify_shard_inclusion toy_keccak 9 [4] (hash_concat toy_keccak 9 4)) eqn:E; [|reflexivity].
  pose proof (proj1 H eq_refl) as Hc. vm_compute in Hc. discriminate Hc.
Defined.

Lemma apply_change_exact_witness :
  let s := set_balance (with_shards 2) 1 5 100 in
  get_balance (apply_change toy_keccak s 1 5 (-30)).1 1 5 = Ok 70.
Proof.
  cbv zeta. refine (proj1 (proj2 (apply_change_exact toy_keccak
    (set_balance (with_shards 2) 1 5 100) 1 5 (-30) {[ 5 := 100 ]} _ _ _))).
  - vm_compute. reflexivity.
  - lia.
  - done.
Defined.
