(* ===== verification/EvmBase.v ===== *)
(** * Smart contracts: the parts of the virtual machine

    [qc-11-smart-contracts]: the interface of the 256-bit words, the opcodes
    ([evm/opcodes.rs]), gas ([evm/gas.rs], [GasCounter] of
    [domain/value_objects.rs]), the stack ([evm/stack.rs]), the memory
    ([evm/memory.rs]), transient storage ([evm/transient.rs]), the entities
    ([domain/entities.rs]), the ports and their in-memory adapters
    ([ports/outbound.rs], [adapters/]). *)

From S2P Require Import Prelude.

Local Open Scope Z_scope.
Local Open Scope qc_scope.

(** ** Words

    The further operations of [primitive_types::U256] the interpreter uses.
    [overflowing_*] stands for the first component of the pair, the result
    modulo [2^256]; [None] is a panic.  What a shift by more than a machine
    word does is not documented and left open. *)
Class WordOps : Type := {
  w_overflowing_add : U256 -> U256 -> U256;
  w_overflowing_sub : U256 -> U256 -> U256;
  w_overflowing_mul : U256 -> U256 -> U256;
  w_overflowing_pow : U256 -> U256 -> U256;
  w_add : U256 -> U256 -> option U256;
  w_sub : U256 -> U256 -> option U256;
  w_mul : U256 -> U256 -> option U256;
  w_div : U256 -> U256 -> option U256;
  w_rem : U256 -> U256 -> option U256;
  w_and : U256 -> U256 -> U256;
  w_or : U256 -> U256 -> U256;
  w_xor : U256 -> U256 -> U256;
  w_not : U256 -> U256;
  w_shl : U256 -> U256 -> option U256;
  w_shr : U256 -> U256 -> option U256;
  w_bit : U256 -> usize -> bool;
  w_byte : U256 -> usize -> u8;
  w_leading_zeros : U256 -> Z;
  w_as_usize : U256 -> option usize
}.

Class WordLaws (W : WordOps) : Prop := {
  w_overflowing_add_spec a b : in_width 256 a -> in_width 256 b ->
    w_overflowing_add a b = (a + b) mod 2 ^ 256;
  w_overflowing_sub_spec a b : in_width 256 a -> in_width 256 b ->
    w_overflowing_sub a b = (a - b) mod 2 ^ 256;
  w_overflowing_mul_spec a b : in_width 256 a -> in_width 256 b ->
    w_overflowing_mul a b = (a * b) mod 2 ^ 256;
  w_overflowing_pow_spec a b : in_width 256 a -> in_width 256 b ->
    w_overflowing_pow a b = a ^ b mod 2 ^ 256;
  w_add_spec a b : in_width 256 a -> in_width 256 b ->
    w_add a b = if a + b <? 2 ^ 256 then Some (a + b) else None;
  w_sub_spec a b : in_width 256 a -> in_width 256 b ->
    w_sub a b = if b <=? a then Some (a - b) else None;
  w_mul_spec a b : in_width 256 a -> in_width 256 b ->
    w_mul a b = if a * b <? 2 ^ 256 then Some (a * b) else None;
  w_div_spec a b : in_width 256 a -> in_width 256 b ->
    w_div a b = if b =? 0 then None else Some (a / b);
  w_rem_spec a b : in_width 256 a -> in_width 256 b ->
    w_rem a b = if b =? 0 then None else Some (a mod b);
  w_and_spec a b : in_width 256 a -> in_width 256 b -> w_and a b = Z.land a b;
  w_or_spec a b : in_width 256 a -> in_width 256 b -> w_or a b = Z.lor a b;
  w_xor_spec a b : in_width 256 a -> in_width 256 b -> w_xor a b = Z.lxor a b;
  w_not_spec a : in_width 256 a -> w_not a = 2 ^ 256 - 1 - a;
  w_shl_spec a s : in_width 256 a -> in_width 64 s ->
    w_shl a s = Some (Z.shiftl a s mod 2 ^ 256);
  w_shr_spec a s : in_width 256 a -> in_width 64 s -> w_shr a s = Some (Z.shiftr a s);
  w_shl_width a s r : in_width 256 a -> in_width 256 s ->
    w_shl a s = Some r -> in_width 256 r;
  w_shr_width a s r : in_width 256 a -> in_width 256 s ->
    w_shr a s = Some r -> in_width 256 r;
  w_bit_spec a i : in_width 256 a -> 0 <= i < 256 -> w_bit a i = Z.testbit a i;
  w_byte_spec a i : in_width 256 a -> 0 <= i < 32 ->
    w_byte a i = Z.shiftr a (8 * i) mod 256;
  w_leading_zeros_spec a : in_width 256 a -> a <> 0 ->
    w_leading_zeros a = 255 - Z.log2 a;
  w_as_usize_spec a : in_width 256 a ->
    w_as_usize a = if a <? 2 ^ 64 then Some a else None
}.

(** A concrete implementation: the exact results.  Powers are computed by
    squaring modulo [2^256]. *)
Fixpoint pow_mod (a : Z) (e : positive) : Z :=
  match e with
  | xH => a mod 2 ^ 256
  | xO e => let h := pow_mod a e in (h * h) mod 2 ^ 256
  | xI e => let h := pow_mod a e in (a * ((h * h) mod 2 ^ 256)) mod 2 ^ 256
  end.

Definition exact_words : WordOps := {|
  w_overflowing_add a b := (a + b) mod 2 ^ 256;
  w_overflowing_sub a b := (a - b) mod 2 ^ 256;
  w_overflowing_mul a b := (a * b) mod 2 ^ 256;
  w_overflowing_pow a b := match b with Zpos e => pow_mod a e | _ => 1 end;
  w_add a b := if a + b <? 2 ^ 256 then Some (a + b) else None;
  w_sub a b := if b <=? a then Some (a - b) else None;
  w_mul a b := if a * b <? 2 ^ 256 then Some (a * b) else None;
  w_div a b := if b =? 0 then None else Some (a / b);
  w_rem a b := if b =? 0 then None else Some (a mod b);
  w_and := Z.land;
  w_or := Z.lor;
  w_xor := Z.lxor;
  w_not a := 2 ^ 256 - 1 - a;
  w_shl a s := if s <? 2 ^ 64 then Some (Z.shiftl a s mod 2 ^ 256) else None;
  w_shr a s := if s <? 2 ^ 64 then Some (Z.shiftr a s) else None;
  w_bit := Z.testbit;
  w_byte a i := Z.shiftr a (8 * i) mod 256;
  w_leading_zeros a := if a =? 0 then 256 else 255 - Z.log2 a;
  w_as_usize a := if a <? 2 ^ 64 then Some a else None
|}.

Lemma pow_mod_spec a e : pow_mod a e = a ^ Zpos e mod 2 ^ 256.
Proof.
  induction e as [e IH|e IH|]; simpl pow_mod; [..|by rewrite Z.pow_1_r].
  - rewrite IH, <-Zmult_mod, Zmult_mod_idemp_r. f_equal.
    rewrite <-Z.pow_twice_r. replace (Zpos e~1) with (1 + 2 * Zpos e) by lia.
    by rewrite Z.pow_add_r, Z.pow_1_r by lia.
  - rewrite IH, <-Zmult_mod. f_equal. by rewrite <-Z.pow_twice_r.
Qed.

Lemma shiftr_width w a s : 0 <= s -> in_width w a -> in_width w (Z.shiftr a s).
Proof.
  unfold in_width. intros Hs [H0 H1]. rewrite Z.shiftr_div_pow2 by done.
  pose proof (Z.pow_pos_nonneg 2 s ltac:(lia) Hs).
  split; [apply Z.div_pos; lia|]. apply Z.div_lt_upper_bound; nia.
Qed.

Lemma exact_words_laws : WordLaws exact_words.
Proof.
  split; cbn [exact_words w_overflowing_add w_overflowing_sub w_overflowing_mul
    w_overflowing_pow w_add w_sub w_mul w_div w_rem w_and w_or w_xor w_not w_shl w_shr w_bit
    w_byte w_leading_zeros w_as_usize]; try done.
  - intros a [|e|e] _ [? _]; [done|apply pow_mod_spec|lia].
  - intros a s _ [? ?]. by destruct (Z.ltb_spec s (2 ^ 64)); [|lia].
  - intros a s _ [? ?]. by destruct (Z.ltb_spec s (2 ^ 64)); [|lia].
  - intros a s r _ _ ?. case_match; simplify_eq. apply Z.mod_pos_bound. lia.
  - intros a s r Ha [? _] ?. case_match; simplify_eq. by apply shiftr_width.
  - intros a Ha Hne. by destruct (Z.eqb_spec a 0).
Qed.

(** [a - b] of [u64] and [usize]. *)
Definition wrapping_sub (w a b : Z) : Z := (a - b) mod 2 ^ w.

(** ** Opcodes *)

Module Opcode.

(** The enumeration, with its discriminants in [to_byte] ([opcode as u8]). *)
Inductive t : Set :=
  | Stop | Add | Mul | Sub | Div | SDiv | Mod | SMod | AddMod | MulMod | Exp
  | SignExtend | Lt | Gt | SLt | SGt | Eq | IsZero | And | Or | Xor | Not | Byte | Shl
  | Shr | Sar | Keccak256 | Address | Balance | Origin | Caller | CallValue
  | CallDataLoad | CallDataSize | CallDataCopy | CodeSize | CodeCopy | GasPrice
  | ExtCodeSize | ExtCodeCopy | ReturnDataSize | ReturnDataCopy | ExtCodeHash
  | BlockHash | Coinbase | Timestamp | Number | PrevRandao | GasLimit | ChainId
  | SelfBalance | BaseFee | Pop | MLoad | MStore | MStore8 | SLoad | SStore | Jump
  | JumpI | Pc | MSize | Gas | JumpDest | TLoad | TStore | MCopy | Push0 | Push1
  | Push2 | Push3 | Push4 | Push5 | Push6 | Push7 | Push8 | Push9 | Push10 | Push11
  | Push12 | Push13 | Push14 | Push15 | Push16 | Push17 | Push18 | Push19 | Push20
  | Push21 | Push22 | Push23 | Push24 | Push25 | Push26 | Push27 | Push28 | Push29
  | Push30 | Push31 | Push32 | Dup1 | Dup2 | Dup3 | Dup4 | Dup5 | Dup6 | Dup7 | Dup8
  | Dup9 | Dup10 | Dup11 | Dup12 | Dup13 | Dup14 | Dup15 | Dup16 | Swap1 | Swap2
  | Swap3 | Swap4 | Swap5 | Swap6 | Swap7 | Swap8 | Swap9 | Swap10 | Swap11 | Swap12
  | Swap13 | Swap14 | Swap15 | Swap16 | Log0 | Log1 | Log2 | Log3 | Log4 | Create
  | Call | CallCode | Return | DelegateCall | Create2 | StaticCall | Revert | Invalid
  | SelfDestruct.

Definition to_byte (op : t) : u8 :=
  match op with
  | Stop => 0x00 | Add => 0x01 | Mul => 0x02 | Sub => 0x03 | Div => 0x04 | SDiv => 0x05
  | Mod => 0x06 | SMod => 0x07 | AddMod => 0x08 | MulMod => 0x09 | Exp => 0x0a
  | SignExtend => 0x0b | Lt => 0x10 | Gt => 0x11 | SLt => 0x12 | SGt => 0x13
  | Eq => 0x14 | IsZero => 0x15 | And => 0x16 | Or => 0x17 | Xor => 0x18 | Not => 0x19
  | Byte => 0x1a | Shl => 0x1b | Shr => 0x1c | Sar => 0x1d | Keccak256 => 0x20
  | Address => 0x30 | Balance => 0x31 | Origin => 0x32 | Caller => 0x33
  | CallValue => 0x34 | CallDataLoad => 0x35 | CallDataSize => 0x36
  | CallDataCopy => 0x37 | CodeSize => 0x38 | CodeCopy => 0x39 | GasPrice => 0x3a
  | ExtCodeSize => 0x3b | ExtCodeCopy => 0x3c | ReturnDataSize => 0x3d
  | ReturnDataCopy => 0x3e | ExtCodeHash => 0x3f | BlockHash => 0x40 | Coinbase => 0x41
  | Timestamp => 0x42 | Number => 0x43 | PrevRandao => 0x44 | GasLimit => 0x45
  | ChainId => 0x46 | SelfBalance => 0x47 | BaseFee => 0x48 | Pop => 0x50
  | MLoad => 0x51 | MStore => 0x52 | MStore8 => 0x53 | SLoad => 0x54 | SStore => 0x55
  | Jump => 0x56 | JumpI => 0x57 | Pc => 0x58 | MSize => 0x59 | Gas => 0x5a
  | JumpDest => 0x5b | TLoad => 0x5c | TStore => 0x5d | MCopy => 0x5e | Push0 => 0x5f
  | Push1 => 0x60 | Push2 => 0x61 | Push3 => 0x62 | Push4 => 0x63 | Push5 => 0x64
  | Push6 => 0x65 | Push7 => 0x66 | Push8 => 0x67 | Push9 => 0x68 | Push10 => 0x69
  | Push11 => 0x6a | Push12 => 0x6b | Push13 => 0x6c | Push14 => 0x6d | Push15 => 0x6e
  | Push16 => 0x6f | Push17 => 0x70 | Push18 => 0x71 | Push19 => 0x72 | Push20 => 0x73
  | Push21 => 0x74 | Push22 => 0x75 | Push23 => 0x76 | Push24 => 0x77 | Push25 => 0x78
  | Push26 => 0x79 | Push27 => 0x7a | Push28 => 0x7b | Push29 => 0x7c | Push30 => 0x7d
  | Push31 => 0x7e | Push32 => 0x7f | Dup1 => 0x80 | Dup2 => 0x81 | Dup3 => 0x82
  | Dup4 => 0x83 | Dup5 => 0x84 | Dup6 => 0x85 | Dup7 => 0x86 | Dup8 => 0x87
  | Dup9 => 0x88 | Dup10 => 0x89 | Dup11 => 0x8a | Dup12 => 0x8b | Dup13 => 0x8c
  | Dup14 => 0x8d | Dup15 => 0x8e | Dup16 => 0x8f | Swap1 => 0x90 | Swap2 => 0x91
  | Swap3 => 0x92 | Swap4 => 0x93 | Swap5 => 0x94 | Swap6 => 0x95 | Swap7 => 0x96
  | Swap8 => 0x97 | Swap9 => 0x98 | Swap10 => 0x99 | Swap11 => 0x9a | Swap12 => 0x9b
  | Swap13 => 0x9c | Swap14 => 0x9d | Swap15 => 0x9e | Swap16 => 0x9f | Log0 => 0xa0
  | Log1 => 0xa1 | Log2 => 0xa2 | Log3 => 0xa3 | Log4 => 0xa4 | Create => 0xf0
  | Call => 0xf1 | CallCode => 0xf2 | Return => 0xf3 | DelegateCall => 0xf4
  | Create2 => 0xf5 | StaticCall => 0xfa | Revert => 0xfd | Invalid => 0xfe
  | SelfDestruct => 0xff
  end.

Definition from_byte (byte : u8) : option t :=
  match byte with
  | 0x00 => Some Stop | 0x01 => Some Add | 0x02 => Some Mul | 0x03 => Some Sub
  | 0x04 => Some Div | 0x05 => Some SDiv | 0x06 => Some Mod | 0x07 => Some SMod
  | 0x08 => Some AddMod | 0x09 => Some MulMod | 0x0a => Some Exp
  | 0x0b => Some SignExtend | 0x10 => Some Lt | 0x11 => Some Gt | 0x12 => Some SLt
  | 0x13 => Some SGt | 0x14 => Some Eq | 0x15 => Some IsZero | 0x16 => Some And
  | 0x17 => Some Or | 0x18 => Some Xor | 0x19 => Some Not | 0x1a => Some Byte
  | 0x1b => Some Shl | 0x1c => Some Shr | 0x1d => Some Sar | 0x20 => Some Keccak256
  | 0x30 => Some Address | 0x31 => Some Balance | 0x32 => Some Origin
  | 0x33 => Some Caller | 0x34 => Some CallValue | 0x35 => Some CallDataLoad
  | 0x36 => Some CallDataSize | 0x37 => Some CallDataCopy | 0x38 => Some CodeSize
  | 0x39 => Some CodeCopy | 0x3a => Some GasPrice | 0x3b => Some ExtCodeSize
  | 0x3c => Some ExtCodeCopy | 0x3d => Some ReturnDataSize
  | 0x3e => Some ReturnDataCopy | 0x3f => Some ExtCodeHash | 0x40 => Some BlockHash
  | 0x41 => Some Coinbase | 0x42 => Some Timestamp | 0x43 => Some Number
  | 0x44 => Some PrevRandao | 0x45 => Some GasLimit | 0x46 => Some ChainId
  | 0x47 => Some SelfBalance | 0x48 => Some BaseFee | 0x50 => Some Pop
  | 0x51 => Some MLoad | 0x52 => Some MStore | 0x53 => Some MStore8
  | 0x54 => Some SLoad | 0x55 => Some SStore | 0x56 => Some Jump | 0x57 => Some JumpI
  | 0x58 => Some Pc | 0x59 => Some MSize | 0x5a => Some Gas | 0x5b => Some JumpDest
  | 0x5c => Some TLoad | 0x5d => Some TStore | 0x5e => Some MCopy | 0x5f => Some Push0
  | 0x60 => Some Push1 | 0x61 => Some Push2 | 0x62 => Some Push3 | 0x63 => Some Push4
  | 0x64 => Some Push5 | 0x65 => Some Push6 | 0x66 => Some Push7 | 0x67 => Some Push8
  | 0x68 => Some Push9 | 0x69 => Some Push10 | 0x6a => Some Push11
  | 0x6b => Some Push12 | 0x6c => Some Push13 | 0x6d => Some Push14
  | 0x6e => Some Push15 | 0x6f => Some Push16 | 0x70 => Some Push17
  | 0x71 => Some Push18 | 0x72 => Some Push19 | 0x73 => Some Push20
  | 0x74 => Some Push21 | 0x75 => Some Push22 | 0x76 => Some Push23
  | 0x77 => Some Push24 | 0x78 => Some Push25 | 0x79 => Some Push26
  | 0x7a => Some Push27 | 0x7b => Some Push28 | 0x7c => Some Push29
  | 0x7d => Some Push30 | 0x7e => Some Push31 | 0x7f => Some Push32 | 0x80 => Some Dup1
  | 0x81 => Some Dup2 | 0x82 => Some Dup3 | 0x83 => Some Dup4 | 0x84 => Some Dup5
  | 0x85 => Some Dup6 | 0x86 => Some Dup7 | 0x87 => Some Dup8 | 0x88 => Some Dup9
  | 0x89 => Some Dup10 | 0x8a => Some Dup11 | 0x8b => Some Dup12 | 0x8c => Some Dup13
  | 0x8d => Some Dup14 | 0x8e => Some Dup15 | 0x8f => Some Dup16 | 0x90 => Some Swap1
  | 0x91 => Some Swap2 | 0x92 => Some Swap3 | 0x93 => Some Swap4 | 0x94 => Some Swap5
  | 0x95 => Some Swap6 | 0x96 => Some Swap7 | 0x97 => Some Swap8 | 0x98 => Some Swap9
  | 0x99 => Some Swap10 | 0x9a => Some Swap11 | 0x9b => Some Swap12
  | 0x9c => Some Swap13 | 0x9d => Some Swap14 | 0x9e => Some Swap15
  | 0x9f => Some Swap16 | 0xa0 => Some Log0 | 0xa1 => Some Log1 | 0xa2 => Some Log2
  | 0xa3 => Some Log3 | 0xa4 => Some Log4 | 0xf0 => Some Create | 0xf1 => Some Call
  | 0xf2 => Some CallCode | 0xf3 => Some Return | 0xf4 => Some DelegateCall
  | 0xf5 => Some Create2 | 0xfa => Some StaticCall | 0xfd => Some Revert
  | 0xfe => Some Invalid | 0xff => Some SelfDestruct
  | _ => None
  end.

(** [opcode == other] of the derived [PartialEq]. *)
Definition eqb (a b : t) : bool := to_byte a =? to_byte b.

Definition push_size (op : t) : option usize :=
  let byte := to_byte op in
  if (0x60 <=? byte) && (byte <=? 0x7f) then Some (byte - 0x5f)
  else if eqb op Push0 then Some 0
  else None.

Definition is_terminating (op : t) : bool :=
  match op with Stop | Return | Revert | Invalid | SelfDestruct => true | _ => false end.

Definition is_push (op : t) : bool :=
  let byte := to_byte op in
  (byte =? 0x5f) || ((0x60 <=? byte) && (byte <=? 0x7f)).

Definition is_state_modifying (op : t) : bool :=
  match op with
  | SStore | TStore | Log0 | Log1 | Log2 | Log3 | Log4 | Create | Create2 | Call
  | CallCode | DelegateCall | SelfDestruct => true
  | _ => false
  end.

(** Decoding inverts the discriminant, in both directions. *)
Lemma from_to_byte op : from_byte (to_byte op) = Some op.
Proof. by destruct op. Qed.

Lemma to_from_byte byte op : from_byte byte = Some op -> to_byte op = byte.
Proof.
  unfold from_byte. intros Hop. repeat case_match; simplify_eq; done.
Qed.

#[global] Instance to_byte_inj : Inj (=) (=) to_byte.
Proof. intros a b Hab. apply (f_equal from_byte) in Hab. rewrite !from_to_byte in Hab. congruence. Qed.

#[global] Instance eq_dec : EqDecision t := inj_eq_dec to_byte.

End Opcode.

(** ** Gas *)
Module Gas.

(** The costs of [mod costs]. *)
Definition ZERO : u64 := 0.
Definition BASE : u64 := 2.
Definition VERY_LOW : u64 := 3.
Definition LOW : u64 := 5.
Definition MID : u64 := 8.
Definition HIGH : u64 := 10.
Definition JUMPDEST : u64 := 1.
Definition TX_BASE : u64 := 21000.
Definition TX_CREATE : u64 := 53000.
Definition TX_DATA_NON_ZERO : u64 := 16.
Definition TX_DATA_ZERO : u64 := 4.
Definition COPY : u64 := 3.
Definition COLD_SLOAD : u64 := 2100.
Definition WARM_SLOAD : u64 := 100.
Definition COLD_ACCOUNT_ACCESS : u64 := 2600.
Definition WARM_ACCOUNT_ACCESS : u64 := 100.
Definition SSTORE_RESET : u64 := 2900.
Definition SSTORE_SET : u64 := 20000.
Definition SSTORE_CLEAR_REFUND : u64 := 4800.
Definition CALL : u64 := 0.
Definition CALL_VALUE : u64 := 9000.
Definition CALL_NEW_ACCOUNT : u64 := 25000.
Definition CALL_STIPEND : u64 := 2300.
Definition CREATE : u64 := 32000.
Definition KECCAK256_WORD : u64 := 6.
Definition LOG : u64 := 375.
Definition LOG_TOPIC : u64 := 375.
Definition LOG_DATA : u64 := 8.
Definition KECCAK256 : u64 := 30.
Definition EXP : u64 := 10.
Definition EXP_BYTE : u64 := 50.
Definition SELFDESTRUCT : u64 := 5000.
Definition SELFDESTRUCT_NEW_ACCOUNT : u64 := 25000.
Definition BALANCE_COLD : u64 := 2600.
Definition BALANCE_WARM : u64 := 100.
Definition EXTCODECOPY : u64 := 0.
Definition EXTCODESIZE : u64 := 0.
Definition EXTCODEHASH : u64 := 0.
Definition BLOCKHASH : u64 := 20.

(** [usize::div_ceil] and [u64::div_ceil]. *)
Definition div_ceil (a b : Z) : Z := if a mod b =? 0 then a / b else a / b + 1.

Definition exp_gas_cost `{WordOps} (exponent : U256) : u64 :=
  if exponent =? 0 then EXP
  else
    let byte_size := div_ceil (256 - w_leading_zeros exponent) 8 in
    EXP + EXP_BYTE * byte_size.

Definition keccak256_gas_cost (data_size : usize) : u64 :=
  let word_size := div_ceil data_size 32 in
  wrapping_add 64 KECCAK256 (wrapping_mul 64 KECCAK256_WORD word_size).

Definition log_gas_cost (data_size topic_count : usize) : u64 :=
  wrapping_add 64 (wrapping_add 64 LOG (wrapping_mul 64 LOG_TOPIC topic_count))
    (wrapping_mul 64 LOG_DATA data_size).

Definition copy_gas_cost (size : usize) : u64 :=
  wrapping_mul 64 COPY (div_ceil size 32).

Definition create_gas_cost (init_code_size : usize) : u64 :=
  wrapping_add 64 CREATE (wrapping_mul 64 KECCAK256_WORD (div_ceil init_code_size 32)).

Record CallGasParams := { cg_is_cold : bool; cg_has_value : bool; cg_is_empty : bool }.

Definition call_gas_cost (params : CallGasParams) : u64 :=
  let gas := if cg_is_cold params then COLD_ACCOUNT_ACCESS else WARM_ACCOUNT_ACCESS in
  if cg_has_value params then
    let gas := gas + CALL_VALUE in
    if cg_is_empty params then gas + CALL_NEW_ACCOUNT else gas
  else gas.

Definition calculate_call_gas (available_gas requested_gas : u64) (has_value : bool)
  : u64 :=
  let max_gas := available_gas - available_gas / 64 in
  let gas := Z.min requested_gas max_gas in
  if has_value then saturating_add 64 gas CALL_STIPEND else gas.

Definition calculate_refund (gas_used refund : u64) : u64 :=
  Z.min refund (gas_used / 2).

(** [OPCODE_GAS]: the assignments to the table, in the order of the source. *)
Definition gas_rows_before_push : list (Z * u64) :=
  [ (0x00, 0); (0x01, VERY_LOW); (0x02, LOW); (0x03, VERY_LOW); (0x04, LOW);
    (0x05, LOW); (0x06, LOW); (0x07, LOW); (0x08, MID); (0x09, MID); (0x0a, EXP);
    (0x0b, LOW); (0x10, VERY_LOW); (0x11, VERY_LOW); (0x12, VERY_LOW); (0x13, VERY_LOW);
    (0x14, VERY_LOW); (0x15, VERY_LOW); (0x16, VERY_LOW); (0x17, VERY_LOW);
    (0x18, VERY_LOW); (0x19, VERY_LOW); (0x1a, VERY_LOW); (0x1b, VERY_LOW);
    (0x1c, VERY_LOW); (0x1d, VERY_LOW); (0x20, KECCAK256); (0x30, BASE); (0x31, 0);
    (0x32, BASE); (0x33, BASE); (0x34, BASE); (0x35, VERY_LOW); (0x36, BASE);
    (0x37, VERY_LOW); (0x38, BASE); (0x39, VERY_LOW); (0x3a, BASE); (0x3b, 0);
    (0x3c, 0); (0x3d, BASE); (0x3e, VERY_LOW); (0x3f, 0); (0x40, BLOCKHASH);
    (0x41, BASE); (0x42, BASE); (0x43, BASE); (0x44, BASE); (0x45, BASE); (0x46, BASE);
    (0x47, LOW); (0x48, BASE); (0x50, BASE); (0x51, VERY_LOW); (0x52, VERY_LOW);
    (0x53, VERY_LOW); (0x54, 0); (0x55, 0); (0x56, MID); (0x57, HIGH); (0x58, BASE);
    (0x59, BASE); (0x5a, BASE); (0x5b, JUMPDEST); (0x5c, WARM_SLOAD);
    (0x5d, WARM_SLOAD); (0x5e, VERY_LOW); (0x5f, BASE)].

Definition gas_rows_after_swap : list (Z * u64) :=
  [ (0xa0, LOG); (0xa1, LOG); (0xa2, LOG); (0xa3, LOG); (0xa4, LOG); (0xf0, CREATE);
    (0xf1, 0); (0xf2, 0); (0xf3, 0); (0xf4, 0); (0xf5, CREATE); (0xfa, 0); (0xfd, 0);
    (0xfe, 0); (0xff, SELFDESTRUCT)].

Definition OPCODE_GAS : list u64 :=
  foldl (fun table row => <[Z.to_nat row.1 := row.2]> table) (replicate 256 0)
    (gas_rows_before_push
       ++ ((fun i => (i, VERY_LOW)) <$> seqZ 0x60 32)
       ++ ((fun i => (i, VERY_LOW)) <$> seqZ 0x80 16)
       ++ ((fun i => (i, VERY_LOW)) <$> seqZ 0x90 16)
       ++ gas_rows_after_swap).

(** [OPCODE_GAS[opcode as u8 as usize]]. *)
Definition base_cost (op : Opcode.t) : u64 :=
  default 0 (OPCODE_GAS !! Z.to_nat (Opcode.to_byte op)).

End Gas.

(** ** Errors

    The errors of [errors.rs].  The texts of [Revert], [Internal] and [Other]
    are left out. *)
Inductive StateError :=
| StateNotFound (address : Address)
| Corrupted
| StateTimeout
| AccessDenied
| Unavailable
| InvalidStateRoot
| OtherStateError.

Inductive VmError :=
| OutOfGas
| StackOverflow
| StackUnderflow
| InvalidOpcode (byte : u8)
| InvalidJump (dest : usize)
| CallDepthExceeded (depth max : Z)
| CodeSizeExceeded (size max : usize)
| InitCodeSizeExceeded (size max : usize)
| WriteInStaticContext
| InsufficientBalance (required available : U256)
| VmStateError (e : StateError)
| Revert
| MemoryOutOfBounds (offset size : usize)
| MemoryLimitExceeded (requested max : usize)
| ReturnDataOutOfBounds (offset size available : usize)
| ContractAlreadyExists (address : Address)
| InvalidContractCreation
| InvalidCodePrefix
| VmTimeout (elapsed_ms max_ms : u64)
| Internal.

Definition is_recoverable (e : VmError) : bool :=
  match e with Revert => true | _ => false end.

Definition consumes_all_gas (e : VmError) : bool :=
  match e with Revert => false | _ => true end.

(** ** The stack: a vector whose last element is the top *)
Module Stack.

Definition MAX_STACK_SIZE : nat := 1024.

Record t := { data : list U256 }.

Definition new : t := {| data := [] |}.

Definition len (s : t) : nat := length (data s).

Definition is_empty (s : t) : bool := bool_decide (data s = []).

Definition push (value : U256) (s : t) : t * result VmError unit :=
  if (MAX_STACK_SIZE <=? len s)%nat then (s, Err StackOverflow)
  else ({| data := data s ++ [value] |}, Ok tt).

Definition pop (s : t) : t * result VmError U256 :=
  match last (data s) with
  | None => (s, Err StackUnderflow)
  | Some v => ({| data := take (len s - 1) (data s) |}, Ok v)
  end.

Definition peek (s : t) : result VmError U256 :=
  match last (data s) with None => Err StackUnderflow | Some v => Ok v end.

(** [data[i]]: a panic out of range. *)
Definition index (s : t) (i : nat) : result VmError U256 :=
  match data s !! i with None => Panic | Some v => Ok v end.

Definition peek_at (depth : nat) (s : t) : result VmError U256 :=
  if (len s <=? depth)%nat then Err StackUnderflow else index s (len s - 1 - depth).

Definition swap (n : nat) (s : t) : t * result VmError unit :=
  if (n =? 0)%nat || (len s <=? n)%nat then (s, Err StackUnderflow)
  else
    let i := (len s - 1)%nat in
    let j := (len s - 1 - n)%nat in
    match data s !! i, data s !! j with
    | Some x, Some y => ({| data := <[j := x]> (<[i := y]> (data s)) |}, Ok tt)
    | _, _ => (s, Panic)
    end.

Definition dup (n : nat) (s : t) : t * result VmError unit :=
  if (len s <=? n)%nat then (s, Err StackUnderflow)
  else if (MAX_STACK_SIZE <=? len s)%nat then (s, Err StackOverflow)
  else
    match data s !! (len s - 1 - n)%nat with
    | Some value => ({| data := data s ++ [value] |}, Ok tt)
    | None => (s, Panic)
    end.

Definition clear (s : t) : t := {| data := [] |}.

End Stack.

(** ** Memory *)
Module Memory.

Definition MAX_MEMORY_SIZE : usize := 16 * 1024 * 1024.
Definition WORD_SIZE : usize := 32.

Record t := { data : list u8 }.

Definition new : t := {| data := [] |}.

Definition len (m : t) : usize := Z.of_nat (length (data m)).

Definition is_empty (m : t) : bool := bool_decide (data m = []).

Definition word_size (m : t) : usize := Gas.div_ceil (len m) WORD_SIZE.

Definition expand (size : usize) (m : t) : t * result VmError usize :=
  if size <=? len m then (m, Ok 0)
  else if MAX_MEMORY_SIZE <? size then (m, Err (MemoryLimitExceeded size MAX_MEMORY_SIZE))
  else
    let new_word_size := Gas.div_ceil size WORD_SIZE in
    let new_byte_size := new_word_size * WORD_SIZE in
    let old_word_size := word_size m in
    ({| data := data m ++ replicate (Z.to_nat (new_byte_size - len m)) 0 |},
     Ok (saturating_sub new_word_size old_word_size)).

Definition read_byte (offset : usize) (m : t) : result VmError u8 :=
  if len m <=? offset then Err (MemoryOutOfBounds offset 1)
  else match data m !! Z.to_nat offset with Some b => Ok b | None => Panic end.

(** The loop of [read_word] and [read_bytes]: the byte at [offset + i],
    saturating, or zero past the end. *)
Definition byte_at (m : t) (offset i : usize) : u8 :=
  let pos := saturating_add 64 offset i in
  if pos <? len m then default 0 (data m !! Z.to_nat pos) else 0.

Definition read_word (offset : usize) (m : t) : list u8 :=
  byte_at m offset <$> seqZ 0 32.

(** [vec![0; size]] panics when [size] exceeds [isize::MAX]. *)
Definition read_bytes (offset size : usize) (m : t) : option (list u8) :=
  if 2 ^ 63 <=? size then None else Some (byte_at m offset <$> seqZ 0 size).

(** [data[offset..offset + len].copy_from_slice(bytes)] for [bytes] of the
    length of the range: a panic when the range is not within [data]. *)
Definition copy_slice (offset finish : usize) (bytes : list u8) (m : t) : option t :=
  if (offset <=? finish) && (finish <=? len m) then
    Some {| data := take (Z.to_nat offset) (data m) ++ bytes
                    ++ drop (Z.to_nat finish) (data m) |}
  else None.

Definition write_byte (offset : usize) (value : u8) (m : t) : t * result VmError usize :=
  let? (m, words_added) := expand (wrapping_add 64 offset 1) m in
  if offset <? len m then
    ({| data := <[Z.to_nat offset := value]> (data m) |}, Ok words_added)
  else (m, Panic).

Definition write_word (offset : usize) (value : list u8) (m : t)
  : t * result VmError usize :=
  let? (m, words_added) := expand (wrapping_add 64 offset 32) m in
  match copy_slice offset (wrapping_add 64 offset 32) value m with
  | Some m' => (m', Ok words_added)
  | None => (m, Panic)
  end.

Definition write_bytes (offset : usize) (bytes : list u8) (m : t)
  : t * result VmError usize :=
  if bool_decide (bytes = []) then (m, Ok 0)
  else
    let finish := wrapping_add 64 offset (Z.of_nat (length bytes)) in
    let? (m, words_added) := expand finish m in
    match copy_slice offset finish bytes m with
    | Some m' => (m', Ok words_added)
    | None => (m, Panic)
    end.

(** [self.data[dest + i] = self.data[src + i]]. *)
Definition move_byte (dest src i : nat) (d : list u8) : option (list u8) :=
  match d !! (src + i)%nat with
  | None => None
  | Some b => if (dest + i <? length d)%nat then Some (<[(dest + i)%nat := b]> d) else None
  end.

(** [for i in (0..size).rev()]. *)
Fixpoint copy_backwards (dest src size : nat) (d : list u8) : option (list u8) :=
  match size with
  | O => Some d
  | S i => d' ← move_byte dest src i d; copy_backwards dest src i d'
  end.

(** [copy_within(src..src + size, dest)]: copies through the possible overlap,
    and panics when a range is not within the slice. *)
Definition copy_within (src size dest : nat) (d : list u8) : option (list u8) :=
  if ((src + size <=? length d) && (dest + size <=? length d))%nat then
    Some (take dest d ++ take size (drop src d) ++ drop (dest + size) d)
  else None.

Definition copy (dest src size : usize) (m : t) : t * result VmError usize :=
  if size =? 0 then (m, Ok 0)
  else
    let max_offset := wrapping_add 64 (Z.max dest src) size in
    let? (m, words_added) := expand max_offset m in
    let d :=
      if (src <? dest) && (dest <? wrapping_add 64 src size) then
        copy_backwards (Z.to_nat dest) (Z.to_nat src) (Z.to_nat size) (data m)
      else copy_within (Z.to_nat src) (Z.to_nat size) (Z.to_nat dest) (data m) in
    match d with
    | Some d => ({| data := d |}, Ok words_added)
    | None => (m, Panic)
    end.

Definition clear (m : t) : t := {| data := [] |}.

Definition memory_gas_cost (word_size : usize) : u64 :=
  wrapping_add 64 (wrapping_mul 64 word_size word_size / 512)
    (wrapping_mul 64 3 word_size).

Definition memory_expansion_cost (old_word_size new_word_size : usize) : u64 :=
  if new_word_size <=? old_word_size then 0
  else wrapping_sub 64 (memory_gas_cost new_word_size) (memory_gas_cost old_word_size).

End Memory.

(** ** Entities of the domain *)

Abbreviation StorageKey := Z (only parsing).
Abbreviation StorageValue := Z (only parsing).

(** [StorageKey::from_u256], [StorageValue::from_u256] and [to_u256]: keys and
    values are arrays of 32 bytes, standing for the numbers they spell. *)
Definition storage_from_u256 (value : U256) : Z := from_be_bytes (be_bytes 32 value).
Definition storage_to_u256 (value : StorageValue) : U256 := from_be_bytes (be_bytes 32 value).

Definition is_precompile (address : Address) : bool :=
  if negb (bool_decide (take 19 (address_bytes address) = replicate 19 0)) then false
  else match address_bytes address !! 19%nat with
       | Some b => (1 <=? b) && (b <=? 9)
       | None => false
       end.

Record BlockContext := {
  bc_number : u64;
  bc_timestamp : u64;
  bc_coinbase : Address;
  bc_difficulty : U256;
  bc_gas_limit : u64;
  bc_base_fee : U256;
  bc_chain_id : u64
}.

Definition BlockContext_default : BlockContext := {|
  bc_number := 0; bc_timestamp := 0; bc_coinbase := 0; bc_difficulty := 0;
  bc_gas_limit := 30000000; bc_base_fee := 0; bc_chain_id := 1
|}.

Record ExecutionContext := {
  ctx_origin : Address;
  ctx_caller : Address;
  ctx_address : Address;
  ctx_value : U256;
  ctx_data : list u8;
  ctx_gas_limit : u64;
  ctx_gas_price : U256;
  ctx_block : BlockContext;
  ctx_depth : Z;
  ctx_is_static : bool
}.

Definition new_transaction (origin to : Address) (value : U256) (data : list u8)
  (gas_limit : u64) (gas_price : U256) (block : BlockContext) : ExecutionContext := {|
  ctx_origin := origin; ctx_caller := origin; ctx_address := to; ctx_value := value;
  ctx_data := data; ctx_gas_limit := gas_limit; ctx_gas_price := gas_price;
  ctx_block := block; ctx_depth := 0; ctx_is_static := false
|}.

Definition child_call (self : ExecutionContext) (caller address : Address) (value : U256)
  (data : list u8) (gas : u64) : ExecutionContext := {|
  ctx_origin := ctx_origin self; ctx_caller := caller; ctx_address := address;
  ctx_value := value; ctx_data := data; ctx_gas_limit := gas;
  ctx_gas_price := ctx_gas_price self; ctx_block := ctx_block self;
  ctx_depth := saturating_add 16 (ctx_depth self) 1; ctx_is_static := ctx_is_static self
|}.

Definition child_delegatecall (self : ExecutionContext) (_code_address : Address)
  (data : list u8) (gas : u64) : ExecutionContext := {|
  ctx_origin := ctx_origin self; ctx_caller := ctx_caller self;
  ctx_address := ctx_address self; ctx_value := ctx_value self; ctx_data := data;
  ctx_gas_limit := gas; ctx_gas_price := ctx_gas_price self; ctx_block := ctx_block self;
  ctx_depth := saturating_add 16 (ctx_depth self) 1; ctx_is_static := ctx_is_static self
|}.

Definition child_staticcall (self : ExecutionContext) (address : Address)
  (data : list u8) (gas : u64) : ExecutionContext := {|
  ctx_origin := ctx_origin self; ctx_caller := ctx_address self; ctx_address := address;
  ctx_value := 0; ctx_data := data; ctx_gas_limit := gas;
  ctx_gas_price := ctx_gas_price self; ctx_block := ctx_block self;
  ctx_depth := saturating_add 16 (ctx_depth self) 1; ctx_is_static := true
|}.

Inductive StateChange :=
| BalanceTransfer (from to : Address) (amount : U256)
| StorageWrite (address : Address) (key : StorageKey) (value : StorageValue)
| StorageDelete (address : Address) (key : StorageKey)
| ContractCreate (address : Address) (code : list u8)
| ContractDestroy (address beneficiary : Address)
| NonceIncrement (address : Address).

Record Log := {
  log_address : Address;
  log_topics : list Hash;
  log_data : list u8
}.

(** [revert_reason] keeps only whether there is one. *)
Record ExecutionResult := {
  er_success : bool;
  er_output : list u8;
  er_gas_used : u64;
  er_gas_refund : u64;
  er_state_changes : list StateChange;
  er_logs : list Log;
  er_revert_reason : option unit
}.

Record AccountState := {
  acc_balance : U256;
  acc_nonce : u64;
  acc_code_hash : Hash;
  acc_storage_root : Hash
}.

Definition EMPTY_CODE_HASH : Hash :=
  0xc5d2460186f7233c927e7db2dcc703c0e500b653ca82273b7bfad8045d85a470.

Definition new_eoa (balance : U256) (nonce : u64) : AccountState := {|
  acc_balance := balance; acc_nonce := nonce; acc_code_hash := EMPTY_CODE_HASH;
  acc_storage_root := 0
|}.

Definition is_eoa (a : AccountState) : bool := acc_code_hash a =? EMPTY_CODE_HASH.
Definition is_contract (a : AccountState) : bool := negb (is_eoa a).
Definition account_is_empty (a : AccountState) : bool :=
  (acc_balance a =? 0) && (acc_nonce a =? 0)
  && ((acc_code_hash a =? EMPTY_CODE_HASH) || (acc_code_hash a =? 0)).

(** The limits of [VmConfig]; the fork is not read by the modelled code. *)
Record VmConfig := {
  vm_max_call_depth : Z;
  vm_max_code_size : usize;
  vm_max_init_code_size : usize;
  vm_max_stack_size : usize;
  vm_max_memory_size : usize
}.

Definition VmConfig_default : VmConfig := {|
  vm_max_call_depth := 1024; vm_max_code_size := 24576; vm_max_init_code_size := 49152;
  vm_max_stack_size := 1024; vm_max_memory_size := 16 * 1024 * 1024
|}.

Definition BLOCK_GAS_LIMIT : u64 := 30000000.
Definition max_gas_limit (config : VmConfig) : u64 := BLOCK_GAS_LIMIT.

(** [GasCounter]. *)
Record GasCounter := { gc_limit : u64; gc_used : u64; gc_refund : u64 }.

Definition GasCounter_new (limit : u64) : GasCounter :=
  {| gc_limit := limit; gc_used := 0; gc_refund := 0 |}.

Definition gc_remaining (g : GasCounter) : u64 := saturating_sub (gc_limit g) (gc_used g).

Definition gc_consume (amount : u64) (g : GasCounter) : GasCounter * bool :=
  if gc_limit g <? saturating_add 64 (gc_used g) amount then (g, false)
  else ({| gc_limit := gc_limit g; gc_used := saturating_add 64 (gc_used g) amount;
           gc_refund := gc_refund g |}, true).

Definition add_refund (amount : u64) (g : GasCounter) : GasCounter :=
  {| gc_limit := gc_limit g; gc_used := gc_used g;
     gc_refund := saturating_add 64 (gc_refund g) amount |}.

Definition sub_refund (amount : u64) (g : GasCounter) : GasCounter :=
  {| gc_limit := gc_limit g; gc_used := gc_used g;
     gc_refund := saturating_sub (gc_refund g) amount |}.

Definition effective_gas_used (g : GasCounter) : u64 :=
  let max_refund := gc_used g / 2 in
  let actual_refund := Z.min (gc_refund g) max_refund in
  saturating_sub (gc_used g) actual_refund.

(** ** The ports

    The state behind [StateAccess] is a value of type [W]; reading does not
    change it.  [AccessList] is a value of type [A]. *)
Class StateAccess (W : Type) : Type := {
  get_account : Address -> W -> result StateError (option AccountState);
  get_storage : Address -> StorageKey -> W -> result StateError StorageValue;
  set_storage : Address -> StorageKey -> StorageValue -> W -> W * result StateError unit;
  get_code : Address -> W -> result StateError (list u8);
  account_exists : Address -> W -> result StateError bool
}.

Definition get_balance `{StateAccess W} (address : Address) (w : W)
  : result StateError U256 :=
  let? a := get_account address w in
  Ok (match a with Some account => acc_balance account | None => 0 end).

Definition get_nonce `{StateAccess W} (address : Address) (w : W) : result StateError u64 :=
  let? a := get_account address w in
  Ok (match a with Some account => acc_nonce account | None => 0 end).

Definition get_code_hash `{StateAccess W} (address : Address) (w : W)
  : result StateError Hash :=
  let? a := get_account address w in
  Ok (match a with Some account => acc_code_hash account | None => EMPTY_CODE_HASH end).

Definition get_code_size `{StateAccess W} (address : Address) (w : W)
  : result StateError usize :=
  let? code := get_code address w in Ok (Z.of_nat (length code)).

Inductive AccessStatus := Cold | Warm.

Class AccessList (A : Type) : Type := {
  touch_account : Address -> A -> A * AccessStatus;
  touch_storage : Address -> StorageKey -> A -> A * AccessStatus;
  is_account_warm : Address -> A -> bool;
  is_storage_warm : Address -> StorageKey -> A -> bool
}.

Definition warm_account `{AccessList A} (address : Address) (a : A) : A :=
  (touch_account address a).1.

Definition warm_storage `{AccessList A} (address : Address) (key : StorageKey) (a : A) : A :=
  (touch_storage address key a).1.

(** ** The in-memory adapters *)

Record InMemoryAccessList := {
  warm_accounts : gset Address;
  warm_slots : gmap Address (gset StorageKey)
}.

Definition access_list_new : InMemoryAccessList := {| warm_accounts := ∅; warm_slots := ∅ |}.

Definition mem_touch_account (address : Address) (a : InMemoryAccessList)
  : InMemoryAccessList * AccessStatus :=
  if bool_decide (address ∈ warm_accounts a) then (a, Warm)
  else ({| warm_accounts := {[address]} ∪ warm_accounts a; warm_slots := warm_slots a |},
        Cold).

Definition mem_touch_storage (address : Address) (key : StorageKey)
  (a : InMemoryAccessList) : InMemoryAccessList * AccessStatus :=
  let accounts := {[address]} ∪ warm_accounts a in
  let slots := default ∅ (warm_slots a !! address) in
  if bool_decide (key ∈ slots) then
    ({| warm_accounts := accounts; warm_slots := <[address := slots]> (warm_slots a) |}, Warm)
  else
    ({| warm_accounts := accounts;
        warm_slots := <[address := {[key]} ∪ slots]> (warm_slots a) |}, Cold).

#[export] Instance in_memory_access_list : AccessList InMemoryAccessList := {
  touch_account := mem_touch_account;
  touch_storage := mem_touch_storage;
  is_account_warm address a := bool_decide (address ∈ warm_accounts a);
  is_storage_warm address key a :=
    bool_decide (key ∈ default ∅ (warm_slots a !! address))
}.

Definition with_prewarmed (accounts : list Address) (storage : list (Address * StorageKey))
  : InMemoryAccessList :=
  let l := {| warm_accounts := list_to_set accounts; warm_slots := ∅ |} in
  foldl (fun l e => {| warm_accounts := warm_accounts l;
                       warm_slots := <[e.1 := {[e.2]} ∪ default ∅ (warm_slots l !! e.1)]>
                                       (warm_slots l) |}) l storage.

Definition prewarm_standard (origin recipient : Address) (a : InMemoryAccessList)
  : InMemoryAccessList := {|
  warm_accounts := {[recipient]} ∪ ({[origin]} ∪ (list_to_set (seqZ 1 9) ∪ warm_accounts a));
  warm_slots := warm_slots a
|}.

Definition access_list_clear (a : InMemoryAccessList) : InMemoryAccessList :=
  access_list_new.

Record InMemoryState := {
  ms_accounts : gmap Address AccountState;
  ms_code : gmap Address (list u8);
  ms_storage : gmap (Address * StorageKey) StorageValue
}.

Definition memory_state_new : InMemoryState :=
  {| ms_accounts := ∅; ms_code := ∅; ms_storage := ∅ |}.

Definition mem_set_storage (address : Address) (key : StorageKey) (value : StorageValue)
  (w : InMemoryState) : InMemoryState := {|
  ms_accounts := ms_accounts w; ms_code := ms_code w;
  ms_storage := <[(address, key) := value]> (ms_storage w)
|}.

Definition mem_get_storage (address : Address) (key : StorageKey) (w : InMemoryState)
  : StorageValue := default 0 (ms_storage w !! (address, key)).

#[export] Instance in_memory_state : StateAccess InMemoryState := {
  get_account address w := Ok (ms_accounts w !! address);
  get_storage address key w := Ok (mem_get_storage address key w);
  set_storage address key value w := (mem_set_storage address key value w, Ok tt);
  get_code address w := Ok (default [] (ms_code w !! address));
  account_exists address w := Ok (bool_decide (is_Some (ms_accounts w !! address)))
}.

Definition set_account (address : Address) (state : AccountState) (w : InMemoryState)
  : InMemoryState := {|
  ms_accounts := <[address := state]> (ms_accounts w); ms_code := ms_code w;
  ms_storage := ms_storage w
|}.

Definition mem_set_balance (address : Address) (balance : U256) (w : InMemoryState)
  : InMemoryState :=
  let account := default (new_eoa 0 0) (ms_accounts w !! address) in
  set_account address {| acc_balance := balance; acc_nonce := acc_nonce account;
    acc_code_hash := acc_code_hash account; acc_storage_root := acc_storage_root account |} w.

Definition set_code (keccak : list u8 -> Hash) (address : Address) (code : list u8)
  (w : InMemoryState) : InMemoryState :=
  let code_hash := if bool_decide (code = []) then EMPTY_CODE_HASH else keccak code in
  let account := default (new_eoa 0 0) (ms_accounts w !! address) in
  {| ms_accounts :=
       <[address := {| acc_balance := acc_balance account; acc_nonce := acc_nonce account;
           acc_code_hash := code_hash; acc_storage_root := acc_storage_root account |}]>
         (ms_accounts w);
     ms_code := <[address := code]> (ms_code w); ms_storage := ms_storage w |}.

(** ** Transient storage *)
Module Transient.

Definition t := gmap Address (gmap StorageKey StorageValue).

Definition new : t := ∅.

Definition tload (address : Address) (key : StorageKey) (s : t) : StorageValue :=
  default 0 (storage ← s !! address; storage !! key).

Definition tstore (address : Address) (key : StorageKey) (value : StorageValue) (s : t) : t :=
  <[address := <[key := value]> (default ∅ (s !! address))]> s.

Definition clear (s : t) : t := ∅.

Definition contract_count (s : t) : nat := size s.

Definition slot_count (s : t) : nat := map_fold (fun _ m n => (size m + n)%nat) 0%nat s.

End Transient.
