(* ===== verification/Evm.v ===== *)
(** * Smart contracts: the interpreter and the service

    [qc-11-smart-contracts]: [Interpreter] of [evm/interpreter.rs], the
    run-time invariants of [domain/invariants.rs] and [SmartContractService] of
    [service.rs].

    The interpreter is a state monad over its fields, the state port and the
    access list included, whose computations succeed, fail or panic and keep
    the state they reached in every case.  The code of a contract and its call
    data are vectors, so their lengths are below [2^63] and the program counter
    does not overflow; offsets and sizes taken from the stack wrap as [usize].
    Keccak-256 is a parameter. *)

From S2P Require Import Prelude EvmBase.

Local Open Scope Z_scope.
Local Open Scope qc_scope.

Section interpreter.
Context {W A : Type}.

Record Interpreter := mk_interpreter {
  context : ExecutionContext;
  code : list u8;
  stack : Stack.t;
  memory : Memory.t;
  pc : usize;
  gas_remaining : u64;
  stopped : bool;
  reverted : bool;
  return_data : list u8;
  logs : list Log;
  state_changes : list StateChange;
  state : W;
  access_list : A;
  jump_dests : gset usize;
  gas_refund : u64
}.

(** Assignments to the fields. *)
Definition with_stack (v : Stack.t) (s : Interpreter) : Interpreter :=
  mk_interpreter (context s) (code s) v (memory s) (pc s) (gas_remaining s)
    (stopped s) (reverted s) (return_data s) (logs s) (state_changes s) (state s) (access_list s)
    (jump_dests s) (gas_refund s).
Definition with_memory (v : Memory.t) (s : Interpreter) : Interpreter :=
  mk_interpreter (context s) (code s) (stack s) v (pc s) (gas_remaining s) (stopped s)
    (reverted s) (return_data s) (logs s) (state_changes s) (state s) (access_list s)
    (jump_dests s) (gas_refund s).
Definition with_pc (v : usize) (s : Interpreter) : Interpreter :=
  mk_interpreter (context s) (code s) (stack s) (memory s) v (gas_remaining s)
    (stopped s) (reverted s) (return_data s) (logs s) (state_changes s) (state s)
    (access_list s) (jump_dests s) (gas_refund s).
Definition with_gas_remaining (v : u64) (s : Interpreter) : Interpreter :=
  mk_interpreter (context s) (code s) (stack s) (memory s) (pc s) v (stopped s)
    (reverted s) (return_data s) (logs s) (state_changes s) (state s) (access_list s)
    (jump_dests s) (gas_refund s).
Definition with_stopped (v : bool) (s : Interpreter) : Interpreter :=
  mk_interpreter (context s) (code s) (stack s) (memory s) (pc s) (gas_remaining s) v
    (reverted s) (return_data s) (logs s) (state_changes s) (state s) (access_list s)
    (jump_dests s) (gas_refund s).
Definition with_reverted (v : bool) (s : Interpreter) : Interpreter :=
  mk_interpreter (context s) (code s) (stack s) (memory s) (pc s) (gas_remaining s)
    (stopped s) v (return_data s) (logs s) (state_changes s) (state s) (access_list s)
    (jump_dests s) (gas_refund s).
Definition with_return_data (v : list u8) (s : Interpreter) : Interpreter :=
  mk_interpreter (context s) (code s) (stack s) (memory s) (pc s) (gas_remaining s)
    (stopped s) (reverted s) v (logs s) (state_changes s) (state s) (access_list s)
    (jump_dests s) (gas_refund s).
Definition with_logs (v : list Log) (s : Interpreter) : Interpreter :=
  mk_interpreter (context s) (code s) (stack s) (memory s) (pc s) (gas_remaining s)
    (stopped s) (reverted s) (return_data s) v (state_changes s) (state s)
    (access_list s) (jump_dests s) (gas_refund s).
Definition with_state_changes (v : list StateChange) (s : Interpreter) : Interpreter :=
  mk_interpreter (context s) (code s) (stack s) (memory s) (pc s) (gas_remaining s)
    (stopped s) (reverted s) (return_data s) (logs s) v (state s) (access_list s)
    (jump_dests s) (gas_refund s).
Definition with_state (v : W) (s : Interpreter) : Interpreter :=
  mk_interpreter (context s) (code s) (stack s) (memory s) (pc s) (gas_remaining s)
    (stopped s) (reverted s) (return_data s) (logs s) (state_changes s) v
    (access_list s) (jump_dests s) (gas_refund s).
Definition with_access_list (v : A) (s : Interpreter) : Interpreter :=
  mk_interpreter (context s) (code s) (stack s) (memory s) (pc s) (gas_remaining s)
    (stopped s) (reverted s) (return_data s) (logs s) (state_changes s) (state s) v
    (jump_dests s) (gas_refund s).

(** ** The monad *)
Definition M (B : Type) : Type := Interpreter -> Interpreter * result VmError B.

Definition ret {B} (b : B) : M B := fun s => (s, Ok b).
Definition fail {B} (e : VmError) : M B := fun s => (s, Err e).
Definition panic {B} : M B := fun s => (s, Panic).
Definition bind {B C} (m : M B) (k : B -> M C) : M C :=
  fun s => let? (s, b) := m s in k b s.
Definition get {B} (f : Interpreter -> B) : M B := fun s => (s, Ok (f s)).
Definition modify (f : Interpreter -> Interpreter) : M unit := fun s => (f s, Ok tt).

(** An operation of a library that may panic. *)
Definition or_panic {B} (o : option B) : M B :=
  match o with Some b => ret b | None => panic end.

End interpreter.

Arguments Interpreter : clear implicits.
Arguments M : clear implicits.

Notation "'let!' x := m 'in' k" := (bind m (fun x => k))
  (at level 10, x name, m at level 100, k at level 200) : qc_scope.
Notation "'let!' '_' := m 'in' k" := (bind m (fun _ => k))
  (at level 10, m at level 100, k at level 200) : qc_scope.

(** ** Arithmetic helpers *)
Section words.
Context `{WordOps}.

(** [sdiv] and [smod]: placeholders that divide the unsigned numbers. *)
Definition sdiv (a b : U256) : option U256 := if b =? 0 then Some 0 else w_div a b.
Definition smod (a b : U256) : option U256 := if b =? 0 then Some 0 else w_rem a b.

Definition addmod (a b c : U256) : option U256 :=
  if c =? 0 then Some 0 else sum ← w_add a b; w_rem sum c.

Definition mulmod (a b c : U256) : option U256 :=
  if c =? 0 then Some 0 else prod ← w_mul a b; w_rem prod c.

Definition sign_extend (k x : U256) : option U256 :=
  k ← w_as_usize k;
  let bit := wrapping_add 64 (wrapping_mul 64 k 8) 7 in
  if 256 <=? bit then Some x
  else
    one ← w_shl 1 (bit + 1);
    mask ← w_sub one 1;
    if w_bit x bit then Some (w_or x (w_not mask)) else Some (w_and x mask).

Definition slt (a b : U256) : bool :=
  let a_neg := w_bit a 255 in
  let b_neg := w_bit b 255 in
  if a_neg && negb b_neg then true
  else if negb a_neg && b_neg then false
  else a <? b.

Definition sgt (a b : U256) : bool := slt b a.

Definition sar (value shift : U256) : option U256 :=
  let shift_usize := shift mod 2 ^ 64 in
  if 256 <=? shift then
    if w_bit value 255 then Some (w_not 0) else Some 0
  else
    result ← w_shr value shift_usize;
    if w_bit value 255 then
      mask ← w_shl (w_not 0) (256 - shift_usize);
      Some (w_or result mask)
    else Some result.

End words.

Definition address_from_u256 (value : U256) : Address :=
  from_be_bytes (drop 12 (be_bytes 32 value)).

(** [analyze_jump_dests]: the loop advances by at least one. *)
Definition decode (byte : u8) : Opcode.t := default Opcode.Invalid (Opcode.from_byte byte).

Definition code_at (code : list u8) (i : usize) : option u8 := code !! Z.to_nat i.

Fixpoint analyze_loop (code : list u8) (fuel : nat) (i : usize) (dests : gset usize)
  : gset usize :=
  match fuel with
  | O => dests
  | S fuel =>
      match code_at code i with
      | None => dests
      | Some byte =>
          let op := decode byte in
          let dests := if Opcode.eqb op Opcode.JumpDest then {[i]} ∪ dests else dests in
          let i := match Opcode.push_size op with Some size => i + size | None => i end in
          analyze_loop code fuel (i + 1) dests
      end
  end.

Definition analyze_jump_dests (code : list u8) : gset usize :=
  analyze_loop code (length code) 0 ∅.

(** ** Opcode execution *)
Section exec.
Context {W A : Type} `{WordOps} `{StateAccess W} `{AccessList A}.
Context (keccak : list u8 -> Hash).

Local Abbreviation M := (M W A).

Definition interpreter_new (ctx : ExecutionContext) (bytecode : list u8) (w : W) (a : A)
  : Interpreter W A := {|
  context := ctx; code := bytecode; stack := Stack.new; memory := Memory.new; pc := 0;
  gas_remaining := ctx_gas_limit ctx; stopped := false; reverted := false;
  return_data := []; logs := []; state_changes := []; state := w; access_list := a;
  jump_dests := analyze_jump_dests bytecode; gas_refund := 0
|}.

Definition push (v : U256) : M unit := fun s =>
  let (st, r) := Stack.push v (stack s) in (with_stack st s, r).
Definition pop : M U256 := fun s =>
  let (st, r) := Stack.pop (stack s) in (with_stack st s, r).
Definition dup (n : nat) : M unit := fun s =>
  let (st, r) := Stack.dup n (stack s) in (with_stack st s, r).
Definition swap (n : nat) : M unit := fun s =>
  let (st, r) := Stack.swap n (stack s) in (with_stack st s, r).

(** A call on the memory, whose number of new words the interpreter drops. *)
Definition on_memory (f : Memory.t -> Memory.t * result VmError usize) : M unit := fun s =>
  match f (memory s) with
  | (m, Ok _) => (with_memory m s, Ok tt)
  | (m, Err e) => (with_memory m s, Err e)
  | (m, Panic) => (with_memory m s, Panic)
  end.
Definition expand (size : usize) : M unit := on_memory (Memory.expand size).

Definition consume_gas (amount : u64) (s : Interpreter W A) : Interpreter W A * bool :=
  if amount <=? gas_remaining s then
    (with_gas_remaining (gas_remaining s - amount) s, true)
  else (s, false).

(** [if !self.consume_gas(amount) { return Err(VmError::OutOfGas); }] *)
Definition charge (amount : u64) : M unit := fun s =>
  let (s, ok) := consume_gas amount s in (s, if ok then Ok tt else Err OutOfGas).

(** [self.stack.pop()?.as_usize()] *)
Definition pop_usize : M usize := let! v := pop in or_panic (w_as_usize v).

(** A read of the state port. *)
Definition read_state {B} (f : W -> result StateError B) : M B := fun s =>
  match f (state s) with
  | Ok b => (s, Ok b)
  | Err e => (s, Err (VmStateError e))
  | Panic => (s, Panic)
  end.

Definition bool_word (b : bool) : U256 := if b then 1 else 0.

Definition exec_arithmetic (op : Opcode.t) : M unit :=
  match op with
  | Opcode.Add => let! a := pop in let! b := pop in push (w_overflowing_add a b)
  | Opcode.Mul => let! a := pop in let! b := pop in push (w_overflowing_mul a b)
  | Opcode.Sub => let! a := pop in let! b := pop in push (w_overflowing_sub a b)
  | Opcode.Div =>
      let! a := pop in let! b := pop in
      let! v := or_panic (if b =? 0 then Some 0 else w_div a b) in push v
  | Opcode.SDiv =>
      let! a := pop in let! b := pop in let! v := or_panic (sdiv a b) in push v
  | Opcode.Mod =>
      let! a := pop in let! b := pop in
      let! v := or_panic (if b =? 0 then Some 0 else w_rem a b) in push v
  | Opcode.SMod =>
      let! a := pop in let! b := pop in let! v := or_panic (smod a b) in push v
  | Opcode.AddMod =>
      let! a := pop in let! b := pop in let! c := pop in
      let! v := or_panic (addmod a b c) in push v
  | Opcode.MulMod =>
      let! a := pop in let! b := pop in let! c := pop in
      let! v := or_panic (mulmod a b c) in push v
  | Opcode.Exp =>
      let! base := pop in let! exponent := pop in
      let dynamic_gas := Gas.exp_gas_cost exponent in
      let! _ := charge (wrapping_sub 64 dynamic_gas Gas.EXP) in
      push (w_overflowing_pow base exponent)
  | Opcode.SignExtend =>
      let! k := pop in let! x := pop in
      let! v := or_panic (sign_extend k x) in push v
  | _ => panic
  end.

Definition exec_comparison (op : Opcode.t) : M unit :=
  let! res :=
    match op with
    | Opcode.Lt => let! a := pop in let! b := pop in ret (bool_word (a <? b))
    | Opcode.Gt => let! a := pop in let! b := pop in ret (bool_word (b <? a))
    | Opcode.SLt => let! a := pop in let! b := pop in ret (bool_word (slt a b))
    | Opcode.SGt => let! a := pop in let! b := pop in ret (bool_word (sgt a b))
    | Opcode.Eq => let! a := pop in let! b := pop in ret (bool_word (a =? b))
    | Opcode.IsZero => let! a := pop in ret (bool_word (a =? 0))
    | _ => panic
    end in
  push res.

Definition exec_bitwise (op : Opcode.t) : M unit :=
  match op with
  | Opcode.And => let! a := pop in let! b := pop in push (w_and a b)
  | Opcode.Or => let! a := pop in let! b := pop in push (w_or a b)
  | Opcode.Xor => let! a := pop in let! b := pop in push (w_xor a b)
  | Opcode.Not => let! a := pop in push (w_not a)
  | Opcode.Byte =>
      let! i := pop in let! x := pop in
      if 31 <? i then push 0
      else let! i := or_panic (w_as_usize i) in push (w_byte x (31 - i))
  | Opcode.Shl =>
      let! shift := pop in let! val := pop in
      let! v := or_panic (w_shl val shift) in push v
  | Opcode.Shr =>
      let! shift := pop in let! val := pop in
      let! v := or_panic (w_shr val shift) in push v
  | Opcode.Sar =>
      let! shift := pop in let! val := pop in
      let! v := or_panic (sar val shift) in push v
  | _ => panic
  end.

Definition exec_keccak256 : M unit :=
  let! offset := pop in
  let! size := pop in
  let! offset := or_panic (w_as_usize offset) in
  let! size := or_panic (w_as_usize size) in
  let dynamic_gas := Gas.keccak256_gas_cost size in
  let! words := get (fun s => Memory.word_size (memory s)) in
  let mem_cost := Memory.memory_expansion_cost words
    (Gas.div_ceil (wrapping_add 64 offset size) 32) in
  let! _ := charge (wrapping_add 64 dynamic_gas mem_cost) in
  let! _ := expand (wrapping_add 64 offset size) in
  let! mem := get memory in
  let! data := or_panic (Memory.read_bytes offset size mem) in
  push (from_be_bytes (hash_bytes (keccak data))).

(** [for i in 0..size]: copies [source[from + i]], or zero past its end, to the
    memory at [dest + i]. *)
Fixpoint copy_loop (source : list u8) (dest from i : usize) (count : nat) : M unit :=
  match count with
  | O => ret tt
  | S count =>
      let byte := default 0 (code_at source (wrapping_add 64 from i)) in
      let! _ := on_memory (Memory.write_byte (wrapping_add 64 dest i) byte) in
      copy_loop source dest from (i + 1) count
  end.

Definition exec_copy (source : Interpreter W A -> list u8) : M unit :=
  let! dest_offset := pop_usize in
  let! offset := pop_usize in
  let! size := pop_usize in
  let! _ := expand (wrapping_add 64 dest_offset size) in
  let! source := get source in
  copy_loop source dest_offset offset 0 (Z.to_nat size).

Definition call_data_word (data : list u8) (offset : U256) : option U256 :=
  if Z.of_nat (length data) <? offset then Some 0
  else
    start ← w_as_usize offset;
    let len := Z.min (Z.of_nat (length data) - start) 32 in
    Some (from_be_bytes (take (Z.to_nat len) (drop (Z.to_nat start) data)
                         ++ replicate (Z.to_nat (32 - len)) 0)).

Definition exec_environmental (op : Opcode.t) : M unit :=
  match op with
  | Opcode.Address =>
      let! c := get context in push (from_be_bytes (address_bytes (ctx_address c)))
  | Opcode.Balance =>
      let! addr_u256 := pop in
      let addr := address_from_u256 addr_u256 in
      let! status := fun s =>
        let (a, st) := touch_account addr (access_list s) in
        (with_access_list a s, Ok st) in
      let cost := match status with Cold => Gas.BALANCE_COLD | Warm => Gas.BALANCE_WARM end in
      let! _ := charge cost in
      let! balance := read_state (get_balance addr) in
      push balance
  | Opcode.Origin =>
      let! c := get context in push (from_be_bytes (address_bytes (ctx_origin c)))
  | Opcode.Caller =>
      let! c := get context in push (from_be_bytes (address_bytes (ctx_caller c)))
  | Opcode.CallValue => let! c := get context in push (ctx_value c)
  | Opcode.CallDataLoad =>
      let! offset := pop in
      let! c := get context in
      let! val := or_panic (call_data_word (ctx_data c) offset) in
      push val
  | Opcode.CallDataSize =>
      let! c := get context in push (Z.of_nat (length (ctx_data c)))
  | Opcode.CallDataCopy => exec_copy (fun s => ctx_data (context s))
  | Opcode.CodeSize => let! c := get code in push (Z.of_nat (length c))
  | Opcode.CodeCopy => exec_copy code
  | Opcode.GasPrice => let! c := get context in push (ctx_gas_price c)
  | _ => fail Internal
  end.

Definition exec_block_info (op : Opcode.t) : M unit :=
  let! c := get context in
  let block := ctx_block c in
  match op with
  | Opcode.Coinbase => push (from_be_bytes (address_bytes (bc_coinbase block)))
  | Opcode.Timestamp => push (bc_timestamp block)
  | Opcode.Number => push (bc_number block)
  | Opcode.GasLimit => push (bc_gas_limit block)
  | Opcode.ChainId => push (bc_chain_id block)
  | Opcode.BaseFee => push (bc_base_fee block)
  | Opcode.BlockHash => let! _number := pop in push 0
  | _ => fail Internal
  end.

Definition exec_memory_ops (op : Opcode.t) : M unit :=
  match op with
  | Opcode.MLoad =>
      let! offset := pop_usize in
      let! _ := expand (wrapping_add 64 offset 32) in
      let! mem := get memory in
      push (from_be_bytes (Memory.read_word offset mem))
  | Opcode.MStore =>
      let! offset := pop_usize in
      let! val := pop in
      let! _ := expand (wrapping_add 64 offset 32) in
      on_memory (Memory.write_word offset (be_bytes 32 val))
  | Opcode.MStore8 =>
      let! offset := pop_usize in
      let! val := pop in
      let! _ := expand (wrapping_add 64 offset 1) in
      on_memory (Memory.write_byte offset (Z.land (val mod 2 ^ 32) 0xff))
  | Opcode.MSize => let! mem := get memory in push (Memory.len mem)
  | _ => fail Internal
  end.

Definition touch_slot (key : StorageKey) : M AccessStatus := fun s =>
  let (a, st) := touch_storage (ctx_address (context s)) key (access_list s) in
  (with_access_list a s, Ok st).

Definition write_slot (key : StorageKey) (value : StorageValue) : M unit := fun s =>
  match set_storage (ctx_address (context s)) key value (state s) with
  | (w, Ok _) => (with_state w s, Ok tt)
  | (w, Err e) => (with_state w s, Err (VmStateError e))
  | (w, Panic) => (with_state w s, Panic)
  end.

Definition slot_cost (status : AccessStatus) : u64 :=
  match status with Cold => Gas.COLD_SLOAD | Warm => Gas.WARM_SLOAD end.

Definition exec_storage_ops (op : Opcode.t) : M unit :=
  match op with
  | Opcode.SLoad =>
      let! key := pop in
      let storage_key := storage_from_u256 key in
      let! status := touch_slot storage_key in
      let! _ := charge (slot_cost status) in
      let! c := get context in
      let! val := read_state (get_storage (ctx_address c) storage_key) in
      push (storage_to_u256 val)
  | Opcode.SStore =>
      let! c := get context in
      if ctx_is_static c then fail WriteInStaticContext
      else
        let! key := pop in
        let! val := pop in
        let storage_key := storage_from_u256 key in
        let! status := touch_slot storage_key in
        let access_cost := slot_cost status in
        let! _ := charge (access_cost + Gas.SSTORE_SET) in
        let! _ := write_slot storage_key (storage_from_u256 val) in
        let storage_val := storage_from_u256 val in
        let change :=
          if storage_val =? 0 then StorageDelete (ctx_address c) (storage_from_u256 key)
          else StorageWrite (ctx_address c) (storage_from_u256 key) storage_val in
        modify (fun s => with_state_changes (state_changes s ++ [change]) s)
  | _ => fail Internal
  end.

Definition jump (dest : usize) : M unit := fun s =>
  if bool_decide (dest ∈ jump_dests s) then (with_pc dest s, Ok tt)
  else (s, Err (InvalidJump dest)).

Definition exec_flow_control (op : Opcode.t) : M unit :=
  match op with
  | Opcode.Jump => let! dest := pop_usize in jump dest
  | Opcode.JumpI =>
      let! dest := pop_usize in
      let! cond := pop in
      if negb (cond =? 0) then jump dest else ret tt
  | Opcode.Pc => let! pc := get pc in push (pc - 1)
  | Opcode.JumpDest => ret tt
  | _ => panic
  end.

(** The 32 bytes that [exec_push] fills: [size] bytes of the code from [pc] on,
    right-aligned, zeros where the code has ended. *)
Definition push_data (code : list u8) (pc size : usize) : list u8 :=
  let finish := Z.min (pc + size) (Z.of_nat (length code)) in
  let data_len := finish - pc in
  replicate (Z.to_nat (32 - size)) 0
    ++ take (Z.to_nat data_len) (drop (Z.to_nat pc) code)
    ++ replicate (Z.to_nat (size - data_len)) 0.

Definition exec_push (op : Opcode.t) : M unit :=
  let size := default 0 (Opcode.push_size op) in
  let! bytes := get (fun s => push_data (code s) (pc s) size) in
  let! _ := push (from_be_bytes bytes) in
  modify (fun s => with_pc (pc s + size) s).

Definition exec_dup (op : Opcode.t) : M unit :=
  dup (Z.to_nat (Opcode.to_byte op - Opcode.to_byte Opcode.Dup1)).

Definition exec_swap (op : Opcode.t) : M unit :=
  swap (Z.to_nat (Opcode.to_byte op - Opcode.to_byte Opcode.Swap1 + 1)).

(** The arms of [exec_stack_ops] and of [execute_opcode] list the members of the
    families; they are the ranges of their discriminants. *)
Definition in_range (op lo hi : Opcode.t) : bool :=
  (Opcode.to_byte lo <=? Opcode.to_byte op) && (Opcode.to_byte op <=? Opcode.to_byte hi).

Definition exec_stack_ops (op : Opcode.t) : M unit :=
  match op with
  | Opcode.Pop => let! _ := pop in ret tt
  | Opcode.Gas => let! gas := get gas_remaining in push gas
  | _ =>
      if in_range op Opcode.Push0 Opcode.Push32 then exec_push op
      else if in_range op Opcode.Dup1 Opcode.Dup16 then exec_dup op
      else if in_range op Opcode.Swap1 Opcode.Swap16 then exec_swap op
      else panic
  end.

Fixpoint pop_topics (count : nat) : M (list Hash) :=
  match count with
  | O => ret []
  | S count =>
      let! val := pop in
      let! topics := pop_topics count in
      ret (from_be_bytes (be_bytes 32 val) :: topics)
  end.

Definition exec_log (op : Opcode.t) : M unit :=
  let! c := get context in
  if ctx_is_static c then fail WriteInStaticContext
  else
    let topic_count := Opcode.to_byte op - Opcode.to_byte Opcode.Log0 in
    let! offset := pop_usize in
    let! size := pop_usize in
    let cost := Gas.log_gas_cost size topic_count in
    let! _ := charge (wrapping_sub 64 cost Gas.LOG) in
    let! _ := expand (wrapping_add 64 offset size) in
    let! topics := pop_topics (Z.to_nat topic_count) in
    let! mem := get memory in
    let! data := or_panic (Memory.read_bytes offset size mem) in
    modify (fun s => with_logs (logs s ++ [
      {| log_address := ctx_address c; log_topics := topics; log_data := data |}]) s).

(** The common part of [RETURN] and [REVERT]. *)
Definition set_return : M unit :=
  let! offset := pop_usize in
  let! size := pop_usize in
  let! _ := expand (wrapping_add 64 offset size) in
  let! mem := get memory in
  let! data := or_panic (Memory.read_bytes offset size mem) in
  let! _ := modify (with_return_data data) in
  modify (with_stopped true).

Definition exec_system (op : Opcode.t) : M unit :=
  match op with
  | Opcode.Return => set_return
  | Opcode.Revert =>
      let! _ := set_return in
      let! _ := modify (with_reverted true) in
      fail Revert
  | Opcode.Stop => modify (with_stopped true)
  | Opcode.Invalid => fail (InvalidOpcode 0xfe)
  | _ => fail Internal
  end.

(** The arms of [execute_opcode]. *)
Inductive family :=
| Arithmetic | Comparison | Bitwise | Keccak | Environmental | BlockInfo | MemoryOps
| StorageOps | FlowControl | StackOps | Logging | System.

Definition family_of (op : Opcode.t) : family :=
  match op with
  | Opcode.Add | Opcode.Mul | Opcode.Sub | Opcode.Div | Opcode.SDiv | Opcode.Mod
  | Opcode.SMod | Opcode.AddMod | Opcode.MulMod | Opcode.Exp | Opcode.SignExtend =>
      Arithmetic
  | Opcode.Lt | Opcode.Gt | Opcode.SLt | Opcode.SGt | Opcode.Eq | Opcode.IsZero =>
      Comparison
  | Opcode.And | Opcode.Or | Opcode.Xor | Opcode.Not | Opcode.Byte | Opcode.Shl
  | Opcode.Shr | Opcode.Sar => Bitwise
  | Opcode.Keccak256 => Keccak
  | Opcode.Address | Opcode.Balance | Opcode.Origin | Opcode.Caller | Opcode.CallValue
  | Opcode.CallDataLoad | Opcode.CallDataSize | Opcode.CallDataCopy | Opcode.CodeSize
  | Opcode.CodeCopy | Opcode.GasPrice | Opcode.ExtCodeSize | Opcode.ExtCodeCopy
  | Opcode.ReturnDataSize | Opcode.ReturnDataCopy | Opcode.ExtCodeHash => Environmental
  | Opcode.BlockHash | Opcode.Coinbase | Opcode.Timestamp | Opcode.Number
  | Opcode.PrevRandao | Opcode.GasLimit | Opcode.ChainId | Opcode.SelfBalance
  | Opcode.BaseFee => BlockInfo
  | Opcode.MLoad | Opcode.MStore | Opcode.MStore8 | Opcode.MSize | Opcode.MCopy => MemoryOps
  | Opcode.SLoad | Opcode.SStore | Opcode.TLoad | Opcode.TStore => StorageOps
  | Opcode.Jump | Opcode.JumpI | Opcode.Pc | Opcode.JumpDest => FlowControl
  | Opcode.Log0 | Opcode.Log1 | Opcode.Log2 | Opcode.Log3 | Opcode.Log4 => Logging
  | Opcode.Create | Opcode.Call | Opcode.CallCode | Opcode.Return | Opcode.DelegateCall
  | Opcode.Create2 | Opcode.StaticCall | Opcode.Revert | Opcode.Invalid
  | Opcode.SelfDestruct | Opcode.Stop => System
  | _ => StackOps
  end.

Definition dispatch (op : Opcode.t) : M unit :=
  match family_of op with
  | Arithmetic => exec_arithmetic op
  | Comparison => exec_comparison op
  | Bitwise => exec_bitwise op
  | Keccak => exec_keccak256
  | Environmental => exec_environmental op
  | BlockInfo => exec_block_info op
  | MemoryOps => exec_memory_ops op
  | StorageOps => exec_storage_ops op
  | FlowControl => exec_flow_control op
  | StackOps => exec_stack_ops op
  | Logging => exec_log op
  | System => exec_system op
  end.

Definition execute_opcode (op : Opcode.t) : M unit :=
  let! _ := modify (fun s => with_pc (pc s + 1) s) in
  dispatch op.

(** One round of the loop of [execute]: fetch, charge, execute. *)
Definition execute_step : M unit :=
  let! byte := fun s => match code_at (code s) (pc s) with
                        | Some byte => (s, Ok byte)
                        | None => (s, Panic)
                        end in
  let opcode := decode byte in
  let! _ := charge (Gas.base_cost opcode) in
  execute_opcode opcode.

(** The loop.  [None] means that the fuel ran out. *)
Fixpoint execute_loop (fuel : nat) (s : Interpreter W A)
  : option (Interpreter W A * result VmError unit) :=
  if stopped s then Some (s, Ok tt)
  else if Z.of_nat (length (code s)) <=? pc s then Some (with_stopped true s, Ok tt)
  else
    match fuel with
    | O => None
    | S fuel =>
        match execute_step s with
        | (s, Ok _) => execute_loop fuel s
        | (s, r) => Some (s, r)
        end
    end.

Definition execution_result (s : Interpreter W A) : ExecutionResult :=
  let gas_used := wrapping_sub 64 (ctx_gas_limit (context s)) (gas_remaining s) in
  let effective_refund := Gas.calculate_refund gas_used (gas_refund s) in
  let final_gas_used := saturating_sub gas_used effective_refund in
  {| er_success := negb (reverted s);
     er_gas_used := final_gas_used;
     er_output := return_data s;
     er_logs := logs s;
     er_state_changes := if reverted s then [] else state_changes s;
     er_gas_refund := effective_refund;
     er_revert_reason := None |}.

Definition execute (fuel : nat) (s : Interpreter W A)
  : option (Interpreter W A * result VmError ExecutionResult) :=
  match execute_loop fuel s with
  | None => None
  | Some (s, Ok _) => Some (s, Ok (execution_result s))
  | Some (s, Err e) => Some (s, Err e)
  | Some (s, Panic) => Some (s, Panic)
  end.

End exec.
