(* ===== verification/EvmService.v ===== *)
(** * Smart contracts: the run-time checks, the service and the precompiles

    [qc-11-smart-contracts]: the checks of [domain/invariants.rs], the address
    derivation of [domain/services.rs], [SmartContractService] of [service.rs],
    [SmartContractEventHandler] of [adapters/event_handler.rs] and the
    precompiled contracts of [evm/precompiles/].

    The clock and the timer are arguments: [elapsed_us] is what the clock
    measured, and [cut], when present, is the state an execution left that the
    timer interrupted.  The locks of the service are held for the whole of an
    execution or touch independent fields, so a call is one function. *)

From S2P Require Import Prelude EvmBase Evm.

Local Open Scope Z_scope.
Local Open Scope qc_scope.

(** ** [domain/invariants.rs] *)
Module Invariants.

Definition check_gas_limit_invariant (result : ExecutionResult) (ctx : ExecutionContext)
  : bool := er_gas_used result <=? ctx_gas_limit ctx.

Definition check_determinism_invariant (result : ExecutionResult) : bool :=
  if er_success result then bool_decide (er_revert_reason result = None)
  else (length (er_state_changes result) =? 0)%nat && (length (er_logs result) =? 0)%nat.

Definition check_revert_rollback_invariant (result : ExecutionResult) : bool :=
  if er_success result then true
  else (length (er_state_changes result) =? 0)%nat && (length (er_logs result) =? 0)%nat.

Definition modifies (change : StateChange) : bool :=
  match change with
  | BalanceTransfer _ _ _ | StorageWrite _ _ _ | StorageDelete _ _ | ContractCreate _ _
  | ContractDestroy _ _ | NonceIncrement _ => true
  end.

Definition check_static_purity_invariant (ctx : ExecutionContext)
  (result : ExecutionResult) : bool :=
  if ctx_is_static ctx then forallb (fun c => negb (modifies c)) (er_state_changes result)
  else true.

Definition check_call_depth_invariant (ctx : ExecutionContext) (config : VmConfig) : bool :=
  ctx_depth ctx <=? vm_max_call_depth config.

Inductive InvariantViolation :=
| GasLimitExceeded (used limit : u64)
| NonDeterministic
| StateNotRolledBack (changes logs : nat)
| StaticCallViolation
| DepthExceeded (depth max : Z).

Inductive InvariantCheckResult := Valid | Invalid (violations : list InvariantViolation).

Definition check_all_invariants (ctx : ExecutionContext) (result : ExecutionResult)
  (config : VmConfig) : InvariantCheckResult :=
  let violations :=
    (if check_gas_limit_invariant result ctx then []
     else [GasLimitExceeded (er_gas_used result) (ctx_gas_limit ctx)])
    ++ (if check_determinism_invariant result then [] else [NonDeterministic])
    ++ (if check_revert_rollback_invariant result then []
        else [StateNotRolledBack (length (er_state_changes result))
                (length (er_logs result))])
    ++ (if check_static_purity_invariant ctx result then [] else [StaticCallViolation])
    ++ (if check_call_depth_invariant ctx config then []
        else [DepthExceeded (ctx_depth ctx) (vm_max_call_depth config)]) in
  match violations with [] => Valid | _ => Invalid violations end.

End Invariants.

(** ** Addresses of new contracts *)
Section addresses.
Context (keccak : list u8 -> Hash).

(** [encode_nonce] and [encode_length]: big-endian without leading zeros. *)
Definition encode_nonce (nonce : u64) : list u8 :=
  let bytes := be_bytes 8 nonce in
  let start := match list_find (fun b => b <> 0) bytes with
               | Some (i, _) => i
               | None => 7%nat
               end in
  drop start bytes.

(** The last 20 bytes of a hash. *)
Definition hash_to_address (hash : Hash) : Address :=
  from_be_bytes (drop 12 (hash_bytes hash)).

Definition rlp_content (sender : Address) (nonce : u64) : list u8 :=
  0x94 :: address_bytes sender ++
    (if nonce =? 0 then [0x80]
     else if nonce <? 128 then [nonce]
     else let nonce_bytes := encode_nonce nonce in
          (0x80 + Z.of_nat (length nonce_bytes)) :: nonce_bytes).

Definition rlp_data (sender : Address) (nonce : u64) : list u8 :=
  let content := rlp_content sender nonce in
  (if (length content <? 56)%nat then [0xc0 + Z.of_nat (length content)]
   else
     let len_bytes := encode_nonce (Z.of_nat (length content)) in
     (0xf7 + Z.of_nat (length len_bytes)) :: len_bytes) ++ content.

Definition compute_contract_address (sender : Address) (nonce : u64) : Address :=
  hash_to_address (keccak (rlp_data sender nonce)).

Definition compute_contract_address_create2 (sender : Address) (salt : Hash)
  (init_code : list u8) : Address :=
  hash_to_address
    (keccak (0xff :: address_bytes sender ++ hash_bytes salt
               ++ hash_bytes (keccak init_code))).

Definition estimate_base_gas (data : list u8) (is_contract_creation : bool) : u64 :=
  let base := if is_contract_creation then 53000 else 21000 in
  let data_gas := foldl (fun acc byte => wrapping_add 64 acc (if byte =? 0 then 4 else 16))
                    0 data in
  wrapping_add 64 base data_gas.

End addresses.

(** ** The service *)

(** [ExecuteTransactionRequestPayload]. *)
Record TransactionPayload := {
  tp_from : Address;
  tp_to : option Address;
  tp_value : U256;
  tp_nonce : u64;
  tp_gas_price : U256;
  tp_gas_limit : u64;
  tp_data : list u8;
  tp_tx_hash : Hash;
  tp_block_context : BlockContext
}.

(** [SignedTransaction] of the inbound port. *)
Record SignedTransaction := {
  tx_from : Address;
  tx_to : option Address;
  tx_value : U256;
  tx_nonce : u64;
  tx_gas_price : U256;
  tx_gas_limit : u64;
  tx_data : list u8;
  tx_hash : Hash
}.

(** [ExecuteTransactionResponsePayload]; of the reason only its presence. *)
Record TransactionResponse := {
  rp_success : bool;
  rp_gas_used : u64;
  rp_output : list u8;
  rp_logs : list Log;
  rp_state_changes : list StateChange;
  rp_contract_address : option Address;
  rp_revert_reason : option unit
}.

Inductive HtlcOperation := Claim (secret : Hash) | Refund.

Record HtlcPayload := {
  hp_htlc_contract : Address;
  hp_operation : HtlcOperation;
  hp_block_context : BlockContext
}.

Record HtlcResponse := {
  hr_success : bool;
  hr_gas_used : u64;
  hr_revert_reason : option unit
}.

Inductive IpcError := UnauthorizedSender (sender_id : u8) (allowed : list u8).

Definition CONSENSUS : u8 := 8.
Definition TRANSACTION_ORDERING : u8 := 12.
Definition CROSS_CHAIN : u8 := 15.

Definition is_authorized_execution_sender (sender_id : u8) : bool :=
  (sender_id =? CONSENSUS) || (sender_id =? TRANSACTION_ORDERING).
Definition is_authorized_htlc_sender (sender_id : u8) : bool := sender_id =? CROSS_CHAIN.

Record ServiceStats := {
  st_transactions_executed : u64;
  st_successful_executions : u64;
  st_failed_executions : u64;
  st_total_gas_used : u64;
  st_avg_execution_time_us : u64;
  st_rejected_requests : u64
}.

Definition stats_default : ServiceStats := Build_ServiceStats 0 0 0 0 0 0.

Record ServiceConfig := {
  sc_vm_config : VmConfig;
  sc_execution_timeout_ms : u64
}.

Definition ServiceConfig_default : ServiceConfig :=
  {| sc_vm_config := VmConfig_default; sc_execution_timeout_ms := 5000 |}.

Section service.
Context {W A : Type} `{WordOps} `{StateAccess W} `{AccessList A}.
Context (keccak : list u8 -> Hash).

Record Service := {
  sv_config : ServiceConfig;
  sv_state : W;
  sv_access_list : A;
  sv_transient : Transient.t;
  sv_stats : ServiceStats
}.

Definition service_new (w : W) (a : A) (config : ServiceConfig) : Service := {|
  sv_config := config; sv_state := w; sv_access_list := a; sv_transient := Transient.new;
  sv_stats := stats_default
|}.

Definition with_ports (w : W) (a : A) (sv : Service) : Service := {|
  sv_config := sv_config sv; sv_state := w; sv_access_list := a;
  sv_transient := sv_transient sv; sv_stats := sv_stats sv
|}.

Definition with_stats (st : ServiceStats) (sv : Service) : Service := {|
  sv_config := sv_config sv; sv_state := sv_state sv; sv_access_list := sv_access_list sv;
  sv_transient := sv_transient sv; sv_stats := st
|}.

Definition with_transient (t : Transient.t) (sv : Service) : Service := {|
  sv_config := sv_config sv; sv_state := sv_state sv; sv_access_list := sv_access_list sv;
  sv_transient := t; sv_stats := sv_stats sv
|}.

(** [interpreter.execute()]: one round per unit of gas is enough. *)
Definition run_interpreter (s : Interpreter W A)
  : Interpreter W A * result VmError ExecutionResult :=
  match execute keccak (S (Z.to_nat (gas_remaining s))) s with
  | Some r => r
  | None => (s, Panic)
  end.

Definition execute_code (context : ExecutionContext) (code : list u8) (sv : Service)
  : Service * result VmError ExecutionResult :=
  let a := warm_account (ctx_origin context) (sv_access_list sv) in
  let a := warm_account (ctx_address context) a in
  let a := if negb (ctx_caller context =? ctx_origin context)
           then warm_account (ctx_caller context) a else a in
  let (s, r) := run_interpreter (interpreter_new context code (sv_state sv) a) in
  (with_ports (state s) (access_list s) sv, r).

Definition transaction_context (tx : SignedTransaction) (block : BlockContext)
  : ExecutionContext := {|
  ctx_origin := tx_from tx; ctx_caller := tx_from tx;
  ctx_address := match tx_to tx with
                 | Some to => to
                 | None => compute_contract_address keccak (tx_from tx) (tx_nonce tx)
                 end;
  ctx_value := tx_value tx; ctx_data := tx_data tx; ctx_gas_limit := tx_gas_limit tx;
  ctx_gas_price := tx_gas_price tx; ctx_block := block; ctx_depth := 0;
  ctx_is_static := false
|}.

Definition execute_transaction_internal (tx : SignedTransaction) (block : BlockContext)
  (cut : option (W * A)) (sv : Service) : Service * result VmError ExecutionResult :=
  let code :=
    match tx_to tx with
    | None => Ok (tx_data tx)
    | Some to_addr =>
        match get_code to_addr (sv_state sv) with
        | Ok code => Ok code
        | Err e => Err (VmStateError e)
        | Panic => Panic
        end
    end in
  match code with
  | Err e => (sv, Err e)
  | Panic => (sv, Panic)
  | Ok code =>
      match cut with
      | Some (w, a) =>
          (with_ports w a sv,
           Err (VmTimeout (sc_execution_timeout_ms (sv_config sv))
                  (sc_execution_timeout_ms (sv_config sv))))
      | None => execute_code (transaction_context tx block) code sv
      end
  end.

Definition update_stats (result : result VmError ExecutionResult) (elapsed_us : u64)
  (st : ServiceStats) : option ServiceStats :=
  let total := wrapping_add 64 (st_transactions_executed st) 1 in
  let '(succ, fail, gas) :=
    match result with
    | Ok res =>
        if er_success res then
          (wrapping_add 64 (st_successful_executions st) 1, st_failed_executions st,
           wrapping_add 64 (st_total_gas_used st) (er_gas_used res))
        else (st_successful_executions st, wrapping_add 64 (st_failed_executions st) 1,
              st_total_gas_used st)
    | _ => (st_successful_executions st, wrapping_add 64 (st_failed_executions st) 1,
            st_total_gas_used st)
    end in
  if total =? 0 then None
  else Some {|
    st_transactions_executed := total; st_successful_executions := succ;
    st_failed_executions := fail; st_total_gas_used := gas;
    st_avg_execution_time_us :=
      wrapping_add 64 (wrapping_mul 64 (st_avg_execution_time_us st) (total - 1)) elapsed_us
        / total;
    st_rejected_requests := st_rejected_requests st |}.

Definition reject (sv : Service) : Service :=
  let st := sv_stats sv in
  with_stats {|
    st_transactions_executed := st_transactions_executed st;
    st_successful_executions := st_successful_executions st;
    st_failed_executions := st_failed_executions st;
    st_total_gas_used := st_total_gas_used st;
    st_avg_execution_time_us := st_avg_execution_time_us st;
    st_rejected_requests := wrapping_add 64 (st_rejected_requests st) 1 |} sv.

Definition signed_transaction (payload : TransactionPayload) : SignedTransaction := {|
  tx_from := tp_from payload; tx_to := tp_to payload; tx_value := tp_value payload;
  tx_nonce := tp_nonce payload; tx_gas_price := tp_gas_price payload;
  tx_gas_limit := tp_gas_limit payload; tx_data := tp_data payload;
  tx_hash := tp_tx_hash payload
|}.

Definition handle_execute_transaction (sender_id : u8) (payload : TransactionPayload)
  (elapsed_us : u64) (cut : option (W * A)) (sv : Service)
  : Service * result IpcError TransactionResponse :=
  if negb (is_authorized_execution_sender sender_id) then
    (reject sv, Err (UnauthorizedSender sender_id [CONSENSUS; TRANSACTION_ORDERING]))
  else
    let (sv, result) := execute_transaction_internal (signed_transaction payload)
                          (tp_block_context payload) cut sv in
    match result with
    | Panic => (sv, Panic)
    | _ =>
        match update_stats result elapsed_us (sv_stats sv) with
        | None => (sv, Panic)
        | Some st =>
            let sv := with_transient Transient.new (with_stats st sv) in
            match result with
            | Ok res =>
                let contract_address :=
                  match tp_to payload with
                  | None => Some (compute_contract_address keccak (tp_from payload)
                                    (tp_nonce payload))
                  | Some _ => None
                  end in
                (sv, Ok {| rp_success := er_success res; rp_gas_used := er_gas_used res;
                           rp_output := er_output res; rp_logs := er_logs res;
                           rp_state_changes := er_state_changes res;
                           rp_contract_address := contract_address;
                           rp_revert_reason := er_revert_reason res |})
            | _ =>
                (sv, Ok {| rp_success := false; rp_gas_used := tp_gas_limit payload;
                           rp_output := []; rp_logs := []; rp_state_changes := [];
                           rp_contract_address := None; rp_revert_reason := Some tt |})
            end
        end
    end.

Definition handle_execute_htlc (sender_id : u8) (payload : HtlcPayload) (sv : Service)
  : Service * result IpcError HtlcResponse :=
  if negb (is_authorized_htlc_sender sender_id) then
    (reject sv, Err (UnauthorizedSender sender_id [CROSS_CHAIN]))
  else (sv, Ok {| hr_success := true; hr_gas_used := 21000; hr_revert_reason := None |}).

Definition with_gas_limit (gas : u64) (ctx : ExecutionContext) : ExecutionContext := {|
  ctx_origin := ctx_origin ctx; ctx_caller := ctx_caller ctx;
  ctx_address := ctx_address ctx; ctx_value := ctx_value ctx; ctx_data := ctx_data ctx;
  ctx_gas_limit := gas; ctx_gas_price := ctx_gas_price ctx; ctx_block := ctx_block ctx;
  ctx_depth := ctx_depth ctx; ctx_is_static := ctx_is_static ctx
|}.

Definition as_static (ctx : ExecutionContext) : ExecutionContext := {|
  ctx_origin := ctx_origin ctx; ctx_caller := ctx_caller ctx;
  ctx_address := ctx_address ctx; ctx_value := ctx_value ctx; ctx_data := ctx_data ctx;
  ctx_gas_limit := ctx_gas_limit ctx; ctx_gas_price := ctx_gas_price ctx;
  ctx_block := ctx_block ctx; ctx_depth := ctx_depth ctx; ctx_is_static := true
|}.

Definition estimate_gas (context : ExecutionContext) (code : list u8) (sv : Service)
  : Service * result VmError u64 :=
  let ctx := with_gas_limit (max_gas_limit (sc_vm_config (sv_config sv))) context in
  let? (sv, result) := execute_code ctx code sv in
  (sv, Ok (wrapping_add 64 (er_gas_used result) (er_gas_used result / 10))).

Definition call (context : ExecutionContext) (code : list u8) (sv : Service)
  : Service * result VmError (list u8) :=
  let ctx := as_static context in
  let? (sv, result) := execute_code ctx code sv in
  (sv, if er_success result then Ok (er_output result) else Err Revert).

(** [SmartContractEventHandler]: the handler over the same API. *)
Definition handler_execute_transaction (sender_id : u8) (payload : TransactionPayload)
  (cut : option (W * A)) (sv : Service) : Service * result IpcError TransactionResponse :=
  if negb (is_authorized_execution_sender sender_id) then
    (sv, Err (UnauthorizedSender sender_id [CONSENSUS; TRANSACTION_ORDERING]))
  else
    let (sv, result) := execute_transaction_internal (signed_transaction payload)
                          (tp_block_context payload) cut sv in
    match result with
    | Panic => (sv, Panic)
    | Ok res =>
        (sv, Ok {| rp_success := er_success res; rp_gas_used := er_gas_used res;
                   rp_output := er_output res; rp_logs := er_logs res;
                   rp_state_changes := er_state_changes res; rp_contract_address := None;
                   rp_revert_reason := er_revert_reason res |})
    | Err _ =>
        (sv, Ok {| rp_success := false; rp_gas_used := 0; rp_output := []; rp_logs := [];
                   rp_state_changes := []; rp_contract_address := None;
                   rp_revert_reason := Some tt |})
    end.

Definition handler_execute_htlc (sender_id : u8) (payload : HtlcPayload)
  : result IpcError HtlcResponse :=
  if negb (is_authorized_htlc_sender sender_id) then
    Err (UnauthorizedSender sender_id [CROSS_CHAIN])
  else
    match hp_operation payload with
    | Claim _ => Ok {| hr_success := false; hr_gas_used := 0; hr_revert_reason := Some tt |}
    | Refund => Ok {| hr_success := false; hr_gas_used := 0; hr_revert_reason := Some tt |}
    end.

End service.

Arguments Service : clear implicits.

(** ** Precompiled contracts *)
Module Precompiles.

(** [PrecompileError]; the texts are left out. *)
Inductive PrecompileError :=
| InvalidInputLength (expected actual : usize)
| InvalidInput
| PrecompileOutOfGas
| CryptoError
| NotImplemented (address : Address).

Definition to_vm_error (e : PrecompileError) : VmError :=
  match e with PrecompileOutOfGas => OutOfGas | _ => Revert end.

Record PrecompileOutput := { po_gas_used : u64; po_output : list u8 }.

Definition identity (input : list u8) (gas_limit : u64)
  : result PrecompileError PrecompileOutput :=
  let word_size := Gas.div_ceil (Z.of_nat (length input)) 32 in
  let gas_cost := wrapping_add 64 15 (wrapping_mul 64 3 word_size) in
  if gas_limit <? gas_cost then Err PrecompileOutOfGas
  else Ok {| po_gas_used := gas_cost; po_output := input |}.

Definition sha256 (digest : list u8 -> Hash) (input : list u8) (gas_limit : u64)
  : result PrecompileError PrecompileOutput :=
  let word_size := Gas.div_ceil (Z.of_nat (length input)) 32 in
  let gas_cost := wrapping_add 64 60 (wrapping_mul 64 12 word_size) in
  if gas_limit <? gas_cost then Err PrecompileOutOfGas
  else Ok {| po_gas_used := gas_cost; po_output := hash_bytes (digest input) |}.

(** [padded[from..from + n]] of the input padded to 128 bytes. *)
Definition padded (input : list u8) : list u8 :=
  take 128 input ++ replicate (128 - length input) 0.

Definition ecrecover (input : list u8) (gas_limit : u64)
  : result PrecompileError PrecompileOutput :=
  if gas_limit <? 3000 then Err PrecompileOutOfGas
  else
    let v_value := default 0 (padded input !! 63%nat) in
    let empty := Ok {| po_gas_used := 3000; po_output := [] |} in
    if negb (v_value =? 27) && negb (v_value =? 28) then empty
    else
      let r_zero := forallb (fun b => b =? 0) (take 32 (drop 64 (padded input))) in
      let s_zero := forallb (fun b => b =? 0) (take 32 (drop 96 (padded input))) in
      if r_zero || s_zero then empty else empty.

(** [parse_big_uint], and [parse_u256] as its case of 32 bytes: what the input
    has of the range, right-aligned. *)
Definition parse_big_uint (input : list u8) (offset len : nat) : list u8 :=
  let finish := Nat.min (offset + len) (length input) in
  let start := Nat.min offset (length input) in
  let available := (finish - start)%nat in
  replicate (len - available) 0 ++ take available (drop start input).

Definition parse_u256 (input : list u8) (offset : nat) : U256 :=
  from_be_bytes (parse_big_uint input offset 32).

Section modexp.
Context `{WordOps}.

Definition calculate_iteration_count (input : list u8) (exp_start exp_len : nat) : u64 :=
  if (exp_len <=? 32)%nat then
    let exp := parse_u256 input exp_start in
    if exp =? 0 then 0 else 256 - w_leading_zeros exp
  else
    let first_32 := parse_u256 input exp_start in
    let extra_bits := Z.of_nat ((exp_len - 32) * 8) in
    if first_32 =? 0 then extra_bits else 256 - w_leading_zeros first_32 + extra_bits.

(** [mulmod] through [U512], where the product is exact. *)
Definition mulmod (a b m : U256) : U256 := if m =? 0 then 0 else (a * b) mod m.

(** The loop of [mod_exp]; every round halves the exponent. *)
Fixpoint mod_exp_loop (fuel : nat) (result base exp mod_val : U256) : U256 :=
  match fuel with
  | O => result
  | S fuel =>
      if exp =? 0 then result
      else
        let result := if Z.testbit exp 0 then mulmod result base mod_val else result in
        mod_exp_loop fuel result (mulmod base base mod_val) (exp / 2) mod_val
  end.

Definition mod_exp (base exp modulus : list u8) (result_len : nat) : list u8 :=
  if ((length base <=? 32) && (length exp <=? 32) && (length modulus <=? 32))%nat then
    let base_val := from_be_bytes base in
    let exp_val := from_be_bytes exp in
    let mod_val := from_be_bytes modulus in
    if mod_val =? 0 then replicate result_len 0
    else
      let result := mod_exp_loop 256 1 (base_val mod mod_val) exp_val mod_val in
      let copy_len := Nat.min result_len 32 in
      replicate (result_len - 32) 0 ++ drop (32 - copy_len) (be_bytes 32 result)
  else replicate result_len 0.

Definition modexp (input : list u8) (gas_limit : u64)
  : result PrecompileError PrecompileOutput :=
  match w_as_usize (parse_u256 input 0), w_as_usize (parse_u256 input 32),
        w_as_usize (parse_u256 input 64) with
  | Some base_len, Some exp_len, Some mod_len =>
      if (1024 <? base_len) || (1024 <? exp_len) || (1024 <? mod_len) then Err InvalidInput
      else
        let base_len := Z.to_nat base_len in
        let exp_len := Z.to_nat exp_len in
        let mod_len := Z.to_nat mod_len in
        let words := Gas.div_ceil (Z.of_nat (Nat.max base_len mod_len)) 8 in
        let multiplication_complexity := words * words in
        let iteration_count := calculate_iteration_count input (96 + base_len) exp_len in
        let gas_cost :=
          Z.max (multiplication_complexity * Z.max iteration_count 1 / 3) 200 in
        if gas_limit <? gas_cost then Err PrecompileOutOfGas
        else
          let base := parse_big_uint input 96 base_len in
          let exp := parse_big_uint input (96 + base_len) exp_len in
          let modulus := parse_big_uint input (96 + base_len + exp_len) mod_len in
          if (mod_len =? 0)%nat then Ok {| po_gas_used := gas_cost; po_output := [] |}
          else
            let result :=
              if forallb (fun b => b =? 0) modulus then replicate mod_len 0
              else mod_exp base exp modulus mod_len in
            Ok {| po_gas_used := gas_cost; po_output := result |}
  | _, _, _ => Panic
  end.

Definition execute_precompile (digest : list u8 -> Hash) (address : Address)
  (input : list u8) (gas_limit : u64) : option (result PrecompileError PrecompileOutput) :=
  if negb (is_precompile address) then None
  else
    match default 0 (address_bytes address !! 19%nat) with
    | 1 => Some (ecrecover input gas_limit)
    | 2 => Some (sha256 digest input gas_limit)
    | 3 => Some (Err (NotImplemented address))
    | 4 => Some (identity input gas_limit)
    | 5 => Some (modexp input gas_limit)
    | 6 | 7 | 8 | 9 => Some (Err (NotImplemented address))
    | _ => None
    end.

End modexp.

End Precompiles.
