(* ===== verification/EvmFacts.v ===== *)
(** * Smart contracts: words, stack and memory

    Widths of the results of the word operations, the stack as a last-in
    first-out list, and what reading and writing memory does. *)

From S2P Require Import Prelude EvmBase Evm.

Local Open Scope Z_scope.
Local Open Scope qc_scope.

(** ** Widths *)

Lemma in_width_le v w x : 0 <= v <= w -> in_width v x -> in_width w x.
Proof.
  unfold in_width. intros Hvw [? Hx]. pose proof (Z.pow_le_mono_r 2 v w). lia.
Qed.

Lemma wrapping_sub_width w a b : 0 <= w -> in_width w (wrapping_sub w a b).
Proof. apply mod_width. Qed.

Lemma not_width w a : in_width w a -> in_width w (2 ^ w - 1 - a).
Proof. unfold in_width. lia. Qed.

Lemma from_be_bytes_width l n : Forall (in_width 8) l -> (length l <= n)%nat ->
  in_width (8 * Z.of_nat n) (from_be_bytes l).
Proof.
  intros Hl Hn. pose proof (from_be_bytes_bound l Hl) as [? Hb]. split; [done|].
  rewrite Z.pow_mul_r by lia. change (2 ^ 8) with 256.
  eapply Z.lt_le_trans; [exact Hb|]. apply Z.pow_le_mono_r; lia.
Qed.

Lemma word_of_bytes l : Forall (in_width 8) l -> (length l <= 32)%nat ->
  in_width 256 (from_be_bytes l).
Proof. intros Hl Hn. by apply (from_be_bytes_width l 32). Qed.

Lemma storage_from_u256_id v : in_width 256 v -> storage_from_u256 v = v.
Proof. intros Hv. by apply from_be_bytes_to. Qed.

Lemma le_bytes_S n x : le_bytes (S n) x = x mod 256 :: le_bytes n (x / 256).
Proof. by with_strategy transparent [le_bytes] unfold le_bytes at 1. Qed.

Lemma from_le_bytes_take k : forall n x, (k <= n)%nat -> 0 <= x ->
  from_le_bytes (take k (le_bytes n x)) = x mod 256 ^ Z.of_nat k.
Proof.
  induction k as [|k IH]; intros n x Hk Hx; [by rewrite Z.mod_1_r|].
  destruct n as [|n]; [lia|]. rewrite le_bytes_S. simpl take. simpl from_le_bytes.
  rewrite IH by (try apply Z.div_pos; lia).
  rewrite Nat2Z.inj_succ, Z.pow_succ_r by lia.
  rewrite Z.rem_mul_r; lia.
Qed.

Lemma address_from_u256_spec v : in_width 256 v -> address_from_u256 v = v mod 2 ^ 160.
Proof.
  intros [Hv _]. unfold address_from_u256, from_be_bytes.
  with_strategy transparent [be_bytes] unfold be_bytes.
  rewrite drop_reverse, reverse_involutive, length_le_bytes.
  change (32 - 12)%nat with 20%nat. rewrite from_le_bytes_take by lia. done.
Qed.

(** ** Signed words *)

(** The two's complement reading of an [n]-bit word. *)
Definition signed (n x : Z) : Z := if Z.testbit x (n - 1) then x - 2 ^ n else x.

Lemma signed_bits n x i : 0 < n -> in_width n x -> 0 <= i ->
  Z.testbit (signed n x) i = if i <? n then Z.testbit x i else Z.testbit x (n - 1).
Proof.
  intros Hn Hx Hi. unfold signed. destruct (Z.testbit x (n - 1)) eqn:Es.
  - replace (x - 2 ^ n) with (Z.lor x (Z.lnot (Z.ones n))).
    + rewrite Z.lor_spec, Z.lnot_spec by done. destruct (Z.ltb_spec i n).
      * rewrite Z.ones_spec_low by lia. by rewrite orb_false_r.
      * rewrite Z.ones_spec_high by lia. apply orb_true_r.
    + assert (Hd : Z.land x (Z.lnot (Z.ones n)) = 0).
      { apply Z.bits_inj'. intros j Hj. rewrite Z.land_spec, Z.lnot_spec, Z.bits_0 by done.
        destruct (Z.lt_ge_cases j n); [rewrite Z.ones_spec_low by lia; apply andb_false_r|].
        by rewrite (width_bits n x) by (done || lia). }
      rewrite <-Z.lxor_lor, <-Z.add_nocarry_lxor by done.
      unfold Z.lnot. rewrite Z.ones_equiv. lia.
  - destruct (Z.ltb_spec i n); [done|]. apply (width_bits n); [lia|done|lia].
Qed.

Lemma signed_range n x : 0 < n -> in_width n x ->
  - 2 ^ (n - 1) <= signed n x < 2 ^ (n - 1).
Proof.
  intros Hn [H0 H1]. unfold signed.
  assert (Hp : 2 ^ n = 2 * 2 ^ (n - 1)).
  { rewrite <-Z.pow_succ_r by lia. f_equal. lia. }
  destruct (Z.testbit x (n - 1)) eqn:Es.
  - apply Z.testbit_true in Es; [|lia].
    destruct (Z.lt_ge_cases x (2 ^ (n - 1))) as [Hlt|]; [|lia].
    rewrite Z.div_small in Es; [done|lia].
  - split; [lia|]. destruct (Z.lt_ge_cases x (2 ^ (n - 1))) as [|Hge]; [done|].
    apply Z.testbit_false in Es; [|lia].
    replace (x / 2 ^ (n - 1)) with 1 in Es; [done|].
    apply (Z.div_unique _ _ 1 (x - 2 ^ (n - 1))); lia.
Qed.

(** [signed] is the residue around zero. *)
Lemma signed_mod n x : 0 < n -> in_width n x -> signed n x mod 2 ^ n = x.
Proof.
  intros Hn Hx. unfold signed. case_match.
  - replace (x - 2 ^ n) with (x + (-1) * 2 ^ n) by lia.
    rewrite Z.mod_add by lia. by apply Z.mod_small.
  - by apply Z.mod_small.
Qed.

Section signed_ops.
Context {WO : WordOps} {HW : WordLaws WO}.

Lemma in_width_0 : in_width 256 0. Proof. done. Qed.
Lemma in_width_1 : in_width 256 1. Proof. done. Qed.
Hint Resolve in_width_0 in_width_1 : core.

Lemma slt_spec a b : in_width 256 a -> in_width 256 b ->
  slt a b = (signed 256 a <? signed 256 b).
Proof.
  intros Ha Hb. unfold slt. rewrite !w_bit_spec by (done || lia). unfold signed.
  change (256 - 1) with 255. destruct Ha, Hb.
  destruct (Z.testbit a 255), (Z.testbit b 255); simpl.
  - destruct (Z.ltb_spec a b), (Z.ltb_spec (a - 2 ^ 256) (b - 2 ^ 256)); lia.
  - symmetry. apply Z.ltb_lt. lia.
  - symmetry. apply Z.ltb_ge. lia.
  - done.
Qed.

Lemma w_not_bits x i : in_width 256 x -> 0 <= i ->
  Z.testbit (w_not x) i = (i <? 256) && negb (Z.testbit x i).
Proof.
  intros Hx Hi. rewrite w_not_spec by done.
  replace (2 ^ 256 - 1 - x) with (Z.lnot x mod 2 ^ 256).
  - destruct (Z.ltb_spec i 256).
    + by rewrite Z.mod_pow2_bits_low, Z.lnot_spec by lia.
    + by rewrite Z.mod_pow2_bits_high by lia.
  - unfold Z.lnot, in_width in *. symmetry.
    apply (Z.mod_unique _ _ (-1)); lia.
Qed.

Lemma shiftr_signed_bits x s i : in_width 256 x -> 0 <= s -> 0 <= i < 256 ->
  Z.testbit (Z.shiftr (signed 256 x) s mod 2 ^ 256) i
    = if i + s <? 256 then Z.testbit x (i + s) else Z.testbit x 255.
Proof.
  intros Hx Hs Hi. rewrite Z.mod_pow2_bits_low, Z.shiftr_spec by lia.
  by rewrite signed_bits by (done || lia).
Qed.

Lemma word_ext a b : in_width 256 a -> in_width 256 b ->
  (forall i, 0 <= i < 256 -> Z.testbit a i = Z.testbit b i) -> a = b.
Proof.
  intros Ha Hb Hext. apply Z.bits_inj'. intros i Hi. destruct (Z.lt_ge_cases i 256).
  - by apply Hext.
  - by rewrite !(width_bits 256) by (done || lia).
Qed.

Lemma w_not_width x : in_width 256 x -> in_width 256 (w_not x).
Proof. intros. rewrite w_not_spec by done. by apply not_width. Qed.

(** [SAR] is the division by a power of two of the signed number, rounding
    down. *)
Lemma sar_spec v s : in_width 256 v -> in_width 256 s ->
  sar v s = Some (Z.shiftr (signed 256 v) s mod 2 ^ 256).
Proof.
  intros Hv [Hs0 Hs]. unfold sar. rewrite w_bit_spec by (done || lia).
  destruct (Z.leb_spec 256 s).
  - transitivity (Some (if Z.testbit v 255 then w_not 0 else 0)); [by case_match|].
    f_equal. apply word_ext; [case_match; auto using w_not_width|by apply mod_width|].
    intros i Hi. rewrite shiftr_signed_bits by done.
    destruct (Z.ltb_spec (i + s) 256); [lia|]. case_match; [|apply Z.bits_0].
    rewrite w_not_bits, Z.bits_0 by (done || lia). by destruct (Z.ltb_spec i 256); [|lia].
  - rewrite (Z.mod_small s) by lia.
    rewrite w_shr_spec by (done || unfold in_width; lia).
    cbn [mbind option_bind]. destruct (Z.testbit v 255) eqn:Es.
    + rewrite w_shl_spec by (auto using w_not_width || unfold in_width; lia).
      cbn [mbind option_bind]. f_equal.
      rewrite w_or_spec by (by apply shiftr_width || by apply mod_width).
      apply word_ext;
        [by apply lor_width; [done|apply shiftr_width|apply mod_width]|by apply mod_width|].
      intros i Hi. rewrite shiftr_signed_bits, Z.lor_spec, Z.shiftr_spec by (done || lia).
      rewrite Z.mod_pow2_bits_low, Z.shiftl_spec by lia.
      destruct (Z.ltb_spec (i + s) 256).
      * rewrite (Z.testbit_neg_r _ (i - (256 - s))) by lia. apply orb_false_r.
      * rewrite w_not_bits, Z.bits_0, Es by (done || lia).
        destruct (Z.ltb_spec (i - (256 - s)) 256); [apply orb_true_r|lia].
    + f_equal. apply word_ext; [by apply shiftr_width|by apply mod_width|].
      intros i Hi. rewrite shiftr_signed_bits, Z.shiftr_spec by (done || lia).
      destruct (Z.ltb_spec (i + s) 256); [done|]. rewrite Es.
      by apply (width_bits 256); [|done|].
Qed.

(** [SIGNEXTEND] for a byte index below 31: the low [8 * (k + 1)] bits read as a
    signed number. *)
Lemma sign_extend_spec k x : 0 <= k < 31 -> in_width 256 x ->
  sign_extend k x
    = Some (signed (8 * (k + 1)) (x mod 2 ^ (8 * (k + 1))) mod 2 ^ 256).
Proof.
  intros Hk Hx. unfold sign_extend.
  rewrite w_as_usize_spec by (unfold in_width; lia).
  destruct (Z.ltb_spec k (2 ^ 64)); [|lia]. cbn [mbind option_bind].
  unfold wrapping_add, wrapping_mul. rewrite !(Z.mod_small (k * 8)) by lia.
  rewrite Z.mod_small by lia. destruct (Z.leb_spec 256 (k * 8 + 7)); [lia|].
  rewrite w_shl_spec by (done || unfold in_width; lia). cbn [mbind option_bind].
  remember (8 * (k + 1)) as n eqn:En. replace (k * 8 + 7 + 1) with n by lia.
  replace (k * 8 + 7) with (n - 1) by lia.
  assert (Hn : 0 < n <= 248) by lia. clear En.
  assert (Hone : Z.shiftl 1 n mod 2 ^ 256 = 2 ^ n).
  { rewrite Z.shiftl_1_l. apply Z.mod_small. split; [lia|]. apply Z.pow_lt_mono_r; lia. }
  rewrite Hone. assert (Hw : in_width 256 (2 ^ n)).
  { split; [lia|]. apply Z.pow_lt_mono_r; lia. }
  pose proof (Z.pow_pos_nonneg 2 n ltac:(lia) ltac:(lia)) as Hp.
  rewrite w_sub_spec by done. destruct (Z.leb_spec 1 (2 ^ n)); [|lia].
  cbn [mbind option_bind]. replace (2 ^ n - 1) with (Z.ones n) by (rewrite Z.ones_equiv; lia).
  assert (Ho : in_width 256 (Z.ones n)) by (rewrite Z.ones_equiv; unfold in_width in *; lia).
  rewrite w_bit_spec by (done || lia).
  rewrite w_or_spec, w_and_spec by (try apply w_not_width; done).
  transitivity (Some (if Z.testbit x (n - 1) then Z.lor x (w_not (Z.ones n))
                      else Z.land x (Z.ones n))); [by case_match|]. f_equal.
  apply word_ext; [case_match; [apply lor_width|apply land_width]; auto using w_not_width; done
                  |by apply mod_width|].
  intros i Hi. rewrite Z.mod_pow2_bits_low, signed_bits by (apply mod_width || lia; lia).
  destruct (Z.ltb_spec i n); rewrite Z.mod_pow2_bits_low by lia.
  - case_match.
    + rewrite Z.lor_spec, w_not_bits, Z.ones_spec_low by (done || lia).
      rewrite andb_false_r. apply orb_false_r.
    + rewrite Z.land_spec, Z.ones_spec_low by lia. apply andb_true_r.
  - destruct (Z.testbit x (n - 1)).
    + rewrite Z.lor_spec, w_not_bits, Z.ones_spec_high by (done || lia).
      destruct (Z.ltb_spec i 256); [apply orb_true_r|lia].
    + rewrite Z.land_spec, Z.ones_spec_high by lia. apply andb_false_r.
Qed.

(** The byte index 31, where nothing has to be extended, and every index above a
    machine word panic. *)
Lemma sign_extend_31 x : in_width 256 x -> sign_extend 31 x = None.
Proof.
  intros Hx. unfold sign_extend. rewrite w_as_usize_spec by done.
  change (31 <? 2 ^ 64) with true. cbn [mbind option_bind].
  change (wrapping_add 64 (wrapping_mul 64 31 8) 7) with 255. change (256 <=? 255) with false.
  rewrite w_shl_spec by done. change (Z.shiftl 1 (255 + 1) mod 2 ^ 256) with 0.
  cbn [mbind option_bind]. by rewrite w_sub_spec by done.
Qed.

End signed_ops.

(** ** The stack *)

Definition stack_ok (s : Stack.t) : Prop :=
  (Stack.len s <= Stack.MAX_STACK_SIZE)%nat /\ Forall (in_width 256) (Stack.data s).

Lemma push_ok v s : in_width 256 v -> stack_ok s -> stack_ok (Stack.push v s).1.
Proof.
  intros Hv [Hl Hw]. unfold Stack.push. case_match eqn:E; [done|].
  apply Nat.leb_gt in E. split.
  - unfold Stack.len in *. cbn [Stack.data fst]. rewrite length_app. simpl. lia.
  - apply Forall_app_2; [done|]. by constructor.
Qed.

(** [pop] takes the last element off. *)
Lemma pop_snoc l v : Stack.pop {| Stack.data := l ++ [v] |} = ({| Stack.data := l |}, Ok v).
Proof.
  unfold Stack.pop, Stack.len. cbn [Stack.data]. rewrite last_snoc, length_app, Nat.add_sub.
  by rewrite take_app_length.
Qed.

Lemma pop_nil : Stack.pop Stack.new = (Stack.new, Err StackUnderflow).
Proof. done. Qed.

Lemma pop_ok s : stack_ok s -> stack_ok (Stack.pop s).1 /\
  forall v, (Stack.pop s).2 = Ok v -> in_width 256 v.
Proof.
  intros [Hl Hw]. destruct s as [d]. induction d as [|v d _] using rev_ind; [done|].
  rewrite pop_snoc. cbn [fst snd]. unfold stack_ok, Stack.len in *. cbn [Stack.data] in *.
  rewrite length_app in Hl. apply Forall_app in Hw as [Hd Hv]. inversion Hv; subst.
  split; [split; [simpl in Hl; lia|done]|]. by intros ? [= <-].
Qed.

Lemma dup_ok n s : stack_ok s -> stack_ok (Stack.dup n s).1.
Proof.
  intros [Hl Hw]. unfold Stack.dup. case_match; [done|]. case_match eqn:E; [done|].
  apply Nat.leb_gt in E. case_match eqn:Hv; [|done]. split.
  - unfold Stack.len in *. cbn [Stack.data fst]. rewrite length_app. simpl. lia.
  - apply Forall_app_2; [done|]. constructor; [|done]. by eapply Forall_lookup_1.
Qed.

Lemma swap_ok n s : stack_ok s -> stack_ok (Stack.swap n s).1.
Proof.
  intros [Hl Hw]. unfold Stack.swap. case_match; [done|].
  case_match eqn:Hx; [|done]. case_match eqn:Hy; [|done]. split.
  - unfold Stack.len in *. cbn [Stack.data fst]. by rewrite !length_insert.
  - apply Forall_insert; [apply Forall_insert; [done|]|]; by eapply Forall_lookup_1.
Qed.

(** ** The memory *)

Definition memory_ok (m : Memory.t) : Prop :=
  Memory.len m <= Memory.MAX_MEMORY_SIZE /\ (32 | Memory.len m)
  /\ Forall (in_width 8) (Memory.data m).

Lemma div_ceil_spec a b : 0 <= a -> 0 < b ->
  a <= Gas.div_ceil a b * b < a + b.
Proof.
  intros Ha Hb. unfold Gas.div_ceil. pose proof (Z.div_mod a b ltac:(lia)).
  pose proof (Z.mod_pos_bound a b Hb). case_match; bools; nia.
Qed.

(** What [expand] leaves: the old bytes, followed by zeros up to a whole number of
    words that holds [size] bytes. *)
Lemma expand_data size m m' r : 0 <= size -> memory_ok m ->
  Memory.expand size m = (m', Ok r) ->
  memory_ok m' /\ size <= Memory.len m' /\
  exists n, Memory.data m' = Memory.data m ++ replicate n 0.
Proof.
  intros Hs (Hl & Hd & Hb). unfold Memory.expand. case_match eqn:E; bools.
  { intros [= <- <-]. split; [done|]. split; [done|]. exists 0%nat. by rewrite app_nil_r. }
  case_match eqn:E2; bools; [done|]. intros [= <- <-].
  pose proof (div_ceil_spec size 32 Hs ltac:(lia)) as [Hlo Hhi].
  assert (Hn : 0 <= Memory.len m) by (unfold Memory.len; lia).
  assert (Hlen : Memory.len {| Memory.data := Memory.data m
     ++ replicate (Z.to_nat (Gas.div_ceil size Memory.WORD_SIZE * Memory.WORD_SIZE
                             - Memory.len m)) 0 |}
     = Gas.div_ceil size 32 * 32).
  { unfold Memory.len at 1. cbn [Memory.data]. rewrite length_app, length_replicate.
    rewrite Nat2Z.inj_add, Z2Nat.id by (unfold Memory.WORD_SIZE; lia).
    fold (Memory.len m). unfold Memory.WORD_SIZE. lia. }
  split; [|split; [lia|by eexists]]. split; [|split].
  - rewrite Hlen. unfold Memory.MAX_MEMORY_SIZE in *.
    assert (Gas.div_ceil size 32 * 32 < 16 * 1024 * 1024 + 32) by lia. lia.
  - rewrite Hlen. by exists (Gas.div_ceil size 32).
  - apply Forall_app_2; [done|]. by apply Forall_replicate.
Qed.

Lemma expand_ok size m : 0 <= size -> memory_ok m -> memory_ok (Memory.expand size m).1.
Proof.
  intros Hs Hm. destruct (Memory.expand size m) as [m' [r|e|]] eqn:E.
  - by eapply expand_data.
  - unfold Memory.expand in E. by repeat case_match; simplify_eq.
  - unfold Memory.expand in E. by repeat case_match; simplify_eq.
Qed.

(** The memory as an unbounded array of bytes that are zero at first. *)
Definition cell (m : Memory.t) (j : nat) : u8 := default 0 (Memory.data m !! j).

Lemma expand_cell size m j : cell (Memory.expand size m).1 j = cell m j.
Proof.
  unfold Memory.expand. case_match; [done|]. case_match; [done|].
  unfold cell. cbn [fst Memory.data]. destruct (decide (j < length (Memory.data m))%nat).
  - by rewrite lookup_app_l.
  - rewrite lookup_app_r, (lookup_ge_None_2 (Memory.data m)) by lia.
    by destruct (replicate _ 0 !! _) eqn:E; [apply lookup_replicate_1 in E as [-> _]|].
Qed.

Lemma byte_at_cell m offset i : 0 <= offset -> 0 <= i -> offset + i < 2 ^ 64 ->
  Memory.byte_at m offset i = cell m (Z.to_nat (offset + i)).
Proof.
  intros Ho Hi Hlt. unfold Memory.byte_at, saturating_add, cell.
  rewrite Z.min_l by lia. destruct (Z.ltb_spec (offset + i) (Memory.len m)); [done|].
  unfold Memory.len in *. by rewrite lookup_ge_None_2 by lia.
Qed.

Lemma byte_at_width m offset i : memory_ok m -> in_width 8 (Memory.byte_at m offset i).
Proof.
  intros (_ & _ & Hb). unfold Memory.byte_at. case_match; [|done].
  destruct (Memory.data m !! _) eqn:E; [|done]. by eapply Forall_lookup_1.
Qed.

Lemma read_word_ok offset m : memory_ok m ->
  Forall (in_width 8) (Memory.read_word offset m) /\ length (Memory.read_word offset m) = 32%nat.
Proof.
  intros Hm. split; [|done]. apply Forall_fmap, Forall_forall. intros i _.
  by apply byte_at_width.
Qed.

Lemma read_bytes_ok offset size m d : memory_ok m ->
  Memory.read_bytes offset size m = Some d ->
  Forall (in_width 8) d /\ length d = Z.to_nat size.
Proof.
  intros Hm. unfold Memory.read_bytes. case_match; [done|]. intros [= <-]. split.
  - apply Forall_fmap, Forall_forall. intros i _. by apply byte_at_width.
  - by rewrite length_fmap, length_seqZ.
Qed.

(** Reading returns the cells. *)
Lemma read_bytes_cells offset size m : 0 <= offset -> 0 <= size < 2 ^ 63 ->
  offset + size <= 2 ^ 64 ->
  Memory.read_bytes offset size m
    = Some ((fun i => cell m (Z.to_nat (offset + i))) <$> seqZ 0 size).
Proof.
  intros Ho Hs Hlt. unfold Memory.read_bytes. destruct (Z.leb_spec (2 ^ 63) size); [lia|].
  f_equal. apply list_fmap_ext. intros i x Hx. apply lookup_seqZ in Hx as [-> ?].
  apply byte_at_cell; lia.
Qed.

Lemma copy_slice_ok offset finish bytes m m' : 0 <= offset ->
  Z.of_nat (length bytes) = finish - offset -> Forall (in_width 8) bytes ->
  memory_ok m -> Memory.copy_slice offset finish bytes m = Some m' ->
  memory_ok m' /\ Memory.len m' = Memory.len m.
Proof.
  intros Ho Hl Hb (Hm1 & Hm2 & Hm3). unfold Memory.copy_slice. case_match eqn:E; [|done].
  intros [= <-]. bools.
  assert (Hlen : Memory.len {| Memory.data := take (Z.to_nat offset) (Memory.data m) ++ bytes
      ++ drop (Z.to_nat finish) (Memory.data m) |} = Memory.len m).
  { unfold Memory.len in *. cbn [Memory.data].
    rewrite !length_app, length_take, length_drop. lia. }
  split; [|done]. split; [by rewrite Hlen|]. split; [by rewrite Hlen|].
  cbn [Memory.data]. apply Forall_app_2; [by apply Forall_take|].
  apply Forall_app_2; [done|]. by apply Forall_drop.
Qed.

Lemma copy_slice_cell offset finish bytes m m' j : 0 <= offset ->
  Z.of_nat (length bytes) = finish - offset ->
  Memory.copy_slice offset finish bytes m = Some m' ->
  cell m' j = if bool_decide (offset <= Z.of_nat j < finish)
              then default 0 (bytes !! (j - Z.to_nat offset)%nat) else cell m j.
Proof.
  intros Ho Hl. unfold Memory.copy_slice. case_match eqn:E; [|done]. intros [= <-]. bools.
  unfold Memory.len, cell in *. cbn [Memory.data].
  assert (Hto : length (take (Z.to_nat offset) (Memory.data m)) = Z.to_nat offset)
    by (rewrite length_take; lia).
  case_bool_decide.
  - rewrite lookup_app_r, Hto, lookup_app_l by lia. done.
  - destruct (decide (Z.of_nat j < offset)).
    + rewrite lookup_app_l, lookup_take_lt by lia. done.
    + rewrite lookup_app_r, Hto, lookup_app_r, lookup_drop by lia. do 2 f_equal. lia.
Qed.

Lemma write_byte_ok offset v m : 0 <= offset -> in_width 8 v -> memory_ok m ->
  memory_ok (Memory.write_byte offset v m).1.
Proof.
  intros Ho Hv Hm. unfold Memory.write_byte.
  pose proof (expand_ok (wrapping_add 64 offset 1) m) as He.
  destruct (Memory.expand _ m) as [m1 [r|e|]]; cbn [sbind fst] in *;
    (destruct He as (H1 & H2 & H3); [apply wrapping_add_width; lia|done|]); [|done|done].
  case_match; [|done]. cbn [fst]. unfold memory_ok, Memory.len in *. cbn [Memory.data].
  rewrite length_insert. split; [done|]. split; [done|]. by apply Forall_insert.
Qed.

Lemma write_word_ok offset v m : 0 <= offset -> length v = 32%nat ->
  Forall (in_width 8) v -> memory_ok m -> memory_ok (Memory.write_word offset v m).1.
Proof.
  intros Ho Hl Hv Hm. unfold Memory.write_word.
  pose proof (expand_ok (wrapping_add 64 offset 32) m) as He.
  destruct (Memory.expand _ m) as [m1 [r|e|]]; cbn [sbind fst] in *;
    (destruct He as (H1 & H2 & H3); [apply wrapping_add_width; lia|done|]); [|done|done].
  destruct (Memory.copy_slice _ _ _ _) as [m2|] eqn:E; [|done]. cbn [fst].
  assert (offset <= wrapping_add 64 offset 32) as Hle.
  { unfold Memory.copy_slice in E. case_match eqn:Eb; [|done]. by bools. }
  eapply copy_slice_ok; [exact Ho| |exact Hv|by repeat split|exact E]. rewrite Hl.
  unfold wrapping_add in *. destruct (Z.lt_ge_cases (offset + 32) (2 ^ 64)).
  - rewrite Z.mod_small; lia.
  - exfalso. assert (Hm64 : (offset + 32) mod 2 ^ 64 < offset); [|lia].
    pose proof (Z.div_mod (offset + 32) (2 ^ 64)).
    assert (1 <= (offset + 32) / 2 ^ 64) by (apply Z.div_le_lower_bound; lia). lia.
Qed.

(** Writing changes the cells of its range and no other. *)
Lemma write_bytes_cell offset bytes m m' r j : 0 <= offset ->
  offset + Z.of_nat (length bytes) < 2 ^ 64 ->
  Memory.write_bytes offset bytes m = (m', Ok r) ->
  cell m' j = if bool_decide (offset <= Z.of_nat j < offset + Z.of_nat (length bytes))
              then default 0 (bytes !! (j - Z.to_nat offset)%nat) else cell m j.
Proof.
  intros Ho Hlt. unfold Memory.write_bytes. rewrite wrapping_add_small by lia.
  case_bool_decide as Hnil.
  { intros [= <- <-]. subst. cbn [length]. by rewrite bool_decide_false by lia. }
  destruct (Memory.expand _ m) as [m1 [w|e|]] eqn:E; cbn [sbind]; [|done|done].
  destruct (Memory.copy_slice _ _ _ _) as [m2|] eqn:E2; [|done]. intros [= <- <-].
  rewrite (copy_slice_cell offset (offset + Z.of_nat (length bytes)) bytes m1 m2 j Ho
    ltac:(lia) E2). case_match; [done|].
  pose proof (expand_cell (offset + Z.of_nat (length bytes)) m j) as Hc. by rewrite E in Hc.
Qed.

(** ** Copying within memory *)

Lemma copy_backwards_spec dest src n : forall d, (src <= dest)%nat ->
  (dest + n <= length d)%nat ->
  exists d', Memory.copy_backwards dest src n d = Some d' /\ length d' = length d /\
    forall j, d' !! j = if bool_decide (dest <= j < dest + n)%nat
                        then d !! (src + (j - dest))%nat else d !! j.
Proof.
  induction n as [|n IH]; intros d Hsd Hl; simpl.
  { exists d. split_and!; [done|done|]. intros j. by rewrite bool_decide_false by lia. }
  destruct (lookup_lt_is_Some_2 d (src + n)%nat) as [b Hb]; [lia|].
  unfold Memory.move_byte. rewrite Hb. destruct (Nat.ltb_spec (dest + n) (length d)); [|lia].
  cbn [mbind option_bind].
  destruct (IH (<[(dest + n)%nat := b]> d)) as (d' & -> & Hlen & Hd);
    [done|rewrite length_insert; lia|].
  exists d'. split_and!; [done|by rewrite Hlen, length_insert|]. intros j. rewrite Hd.
  repeat case_bool_decide; try lia.
  - by rewrite list_lookup_insert_ne by lia.
  - replace j with (dest + n)%nat by lia. rewrite list_lookup_insert_eq by lia.
    rewrite <-Hb. f_equal. lia.
  - by rewrite list_lookup_insert_ne by lia.
Qed.

Lemma copy_within_spec src size dest d : (src + size <= length d)%nat ->
  (dest + size <= length d)%nat ->
  exists d', Memory.copy_within src size dest d = Some d' /\ length d' = length d /\
    forall j, d' !! j = if bool_decide (dest <= j < dest + size)%nat
                        then d !! (src + (j - dest))%nat else d !! j.
Proof.
  intros Hs Hd. unfold Memory.copy_within.
  destruct (Nat.leb_spec (src + size) (length d)), (Nat.leb_spec (dest + size) (length d));
    try lia. cbn [andb].
  assert (H1 : length (take dest d) = dest) by (rewrite length_take; lia).
  assert (H2 : length (take size (drop src d)) = size)
    by (rewrite length_take, length_drop; lia).
  eexists. split_and!; [done|rewrite !length_app, H1, H2, length_drop; lia|]. intros j.
  case_bool_decide.
  - rewrite lookup_app_r, H1, lookup_app_l, lookup_take_lt, lookup_drop by lia. done.
  - destruct (decide (j < dest)%nat).
    + rewrite lookup_app_l, lookup_take_lt by lia. done.
    + rewrite lookup_app_r, H1, lookup_app_r, H2, lookup_drop by lia. f_equal. lia.
Qed.

(** * Smart contracts: a logic for the interpreter

    [spec m P] says of a computation [m] of the interpreter, started in a
    well-formed state, that it ends in a well-formed state however it ends, that
    the end [evolves] from the start, and that on success the recorded changes
    explain the state of the port ([explains]), the program counter is where it
    was or at a jump destination, and the result satisfies [P].  The primitive
    operations satisfy their [spec]; the database [evm] composes them. *)



Local Open Scope Z_scope.
Local Open Scope qc_scope.

Create HintDb evm discriminated.

(** What the state port promises to the interpreter: balances are words. *)
Class StateTyped (W : Type) `{StateAccess W} : Type := {
  state_ok : W -> Prop;
  get_account_ok address w acc :
    state_ok w -> get_account address w = Ok (Some acc) -> in_width 256 (acc_balance acc);
  set_storage_ok address key value w :
    state_ok w -> state_ok (set_storage address key value w).1
}.

Definition block_ok (b : BlockContext) : Prop :=
  in_width 64 (bc_number b) /\ in_width 64 (bc_timestamp b)
  /\ in_width 64 (bc_gas_limit b) /\ in_width 256 (bc_base_fee b)
  /\ in_width 64 (bc_chain_id b).

Definition bytes_ok (l : list u8) : Prop :=
  Forall (in_width 8) l /\ Z.of_nat (length l) < 2 ^ 63.

Definition context_ok (c : ExecutionContext) : Prop :=
  in_width 256 (ctx_value c) /\ bytes_ok (ctx_data c) /\ in_width 64 (ctx_gas_limit c)
  /\ in_width 256 (ctx_gas_price c) /\ block_ok (ctx_block c).

(** [InMemoryState] keeps the promise for accounts whose balances are words. *)
Definition balances_ok (w : InMemoryState) : Prop :=
  map_Forall (fun _ acc => in_width 256 (acc_balance acc)) (ms_accounts w).

#[export] Instance in_memory_state_typed : StateTyped InMemoryState.
Proof.
  refine {| state_ok := balances_ok |}.
  - intros address w acc Hw Ha. injection Ha as Ha. exact (Hw _ _ Ha).
  - done.
Defined.

Section logic.
Context {W A : Type} {SA : StateAccess W} {ST : StateTyped W}.
Local Abbreviation I := (Interpreter W A).
Local Abbreviation M := (M W A).

Record wf (s : I) : Prop := {
  wf_context : context_ok (context s);
  wf_code : bytes_ok (code s);
  wf_stack : stack_ok (stack s);
  wf_memory : memory_ok (memory s);
  wf_pc : 0 <= pc s;
  wf_gas : 0 <= gas_remaining s <= ctx_gas_limit (context s);
  wf_return : Forall (in_width 8) (return_data s);
  wf_state : state_ok (state s)
}.

Record evolves (s s' : I) : Prop := {
  ev_context : context s' = context s;
  ev_code : code s' = code s;
  ev_jump_dests : jump_dests s' = jump_dests s;
  ev_gas_refund : gas_refund s' = gas_refund s;
  ev_gas : gas_remaining s' <= gas_remaining s;
  ev_static : ctx_is_static (context s) = true ->
    state s' = state s /\ logs s' = logs s /\ state_changes s' = state_changes s
}.

(** The effect of a recorded change on the port. *)
Definition apply_change (w : W) (c : StateChange) : W :=
  match c with
  | StorageWrite address key value => (set_storage address key value w).1
  | StorageDelete address key => (set_storage address key 0 w).1
  | _ => w
  end.

Definition explains (s s' : I) : Prop :=
  reverted s' = reverted s /\
  exists l, state_changes s' = state_changes s ++ l
            /\ state s' = foldl apply_change (state s) l.

Definition at_dest (s s' : I) : Prop := pc s' = pc s \/ pc s' ∈ jump_dests s'.

#[export] Instance evolves_preorder : PreOrder evolves.
Proof.
  split; [by split|]. intros s1 s2 s3 [] []. split; try congruence; [lia|].
  intros Hs. destruct ev_static1 as (-> & -> & ->); [congruence|]. by apply ev_static0.
Qed.

#[export] Instance explains_preorder : PreOrder explains.
Proof.
  split.
  - intros s. split; [done|]. exists []. by rewrite app_nil_r.
  - intros s1 s2 s3 [R1 (l1 & C1 & S1)] [R2 (l2 & C2 & S2)]. split; [congruence|].
    exists (l1 ++ l2). rewrite C2, C1, S2, S1, foldl_app, app_assoc. done.
Qed.

(** The specification for the executions in the context [c]. *)
Definition spec_at {B} (c : ExecutionContext) (m : M B) (P : B -> Prop) : Prop := forall s,
  wf s -> context s = c ->
  wf (m s).1 /\ evolves s (m s).1 /\
  forall b, (m s).2 = Ok b -> P b /\ explains s (m s).1 /\ at_dest s (m s).1.

Definition spec {B} (m : M B) (P : B -> Prop) : Prop := forall c, spec_at c m P.

Lemma spec_at_bind {B C} c (m : M B) (k : B -> M C) (P : B -> Prop) (Q : C -> Prop) :
  spec_at c m P -> (forall b, P b -> spec_at c (k b) Q) -> spec_at c (bind m k) Q.
Proof.
  intros Hm Hk s Hs Hc. destruct (Hm s Hs Hc) as (Hw & He & Hok). unfold bind.
  destruct (m s) as [s1 [b|e|]]; cbn [sbind fst snd] in *; [|done|done].
  destruct (Hok b eq_refl) as (Hb & Hx & Hd).
  destruct (Hk b Hb s1 Hw) as (Hw2 & He2 & Hok2); [by rewrite (ev_context _ _ He)|].
  split; [done|]. split; [by transitivity s1|]. intros d Hd2.
  destruct (Hok2 d Hd2) as (HQ & Hx2 & Hd3). split; [done|]. split; [by transitivity s1|].
  destruct Hd3 as [Heq|]; [|by right]. destruct Hd as [Heq1|Hin]; [left; congruence|].
  right. rewrite Heq. by rewrite (ev_jump_dests _ _ He2).
Qed.

Lemma spec_bind {B C} (m : M B) (k : B -> M C) (P : B -> Prop) (Q : C -> Prop) :
  spec m P -> (forall b, P b -> spec (k b) Q) -> spec (bind m k) Q.
Proof. intros Hm Hk c. eapply spec_at_bind; [apply Hm|]. intros b Hb. by apply Hk. Qed.

(** Reading the context first: the rest may rely on it. *)
Lemma spec_context {C} (k : ExecutionContext -> M C) (Q : C -> Prop) :
  (forall c, context_ok c -> spec_at c (k c) Q) -> spec (bind (get context) k) Q.
Proof.
  intros Hk c s Hs Hc. unfold bind, get. cbn [sbind]. rewrite Hc.
  apply Hk; [|done|done]. rewrite <-Hc. apply Hs.
Qed.

(** What most operations do not touch. *)
Definition quiet (s s' : I) : Prop :=
  (context s', code s', jump_dests s', gas_refund s', reverted s', pc s', logs s')
    = (context s, code s, jump_dests s, gas_refund s, reverted s, pc s, logs s)
  /\ state_changes s' = state_changes s /\ state s' = state s
  /\ gas_remaining s' <= gas_remaining s.

Lemma spec_quiet {B} (m : M B) (P : B -> Prop) :
  (forall s, wf s -> wf (m s).1 /\ quiet s (m s).1 /\ forall b, (m s).2 = Ok b -> P b) ->
  spec m P.
Proof.
  intros H c s Hs _. destruct (H s Hs) as (Hw & (Hq & Hc & Hst & Hg) & HP). simplify_eq.
  split; [done|]. split; [by split|]. intros b Hb. split; [by apply HP|].
  split; [|by left]. split; [done|]. exists []. by rewrite app_nil_r.
Qed.

(** A computation that leaves the state alone. *)
Lemma spec_pure {B} (m : M B) (P : B -> Prop) :
  (forall s, (m s).1 = s) -> (forall s b, wf s -> (m s).2 = Ok b -> P b) -> spec m P.
Proof.
  intros H1 H2. apply spec_quiet. intros s Hs. rewrite H1.
  split; [done|]. split; [by repeat split|]. intros b Hb. by eapply H2.
Qed.

Lemma spec_ret {B} (b : B) (P : B -> Prop) : P b -> spec (ret b) P.
Proof. intros HP. apply spec_pure; [done|]. by intros s b' _ [= <-]. Qed.

Lemma spec_fail {B} e (P : B -> Prop) : spec (fail e) P.
Proof. by apply spec_pure. Qed.

Lemma spec_panic {B} (P : B -> Prop) : spec panic P.
Proof. by apply spec_pure. Qed.

Lemma spec_get {B} (f : I -> B) (P : B -> Prop) : (forall s, wf s -> P (f s)) -> spec (get f) P.
Proof. intros HP. apply spec_pure; [done|]. intros s b Hs [= <-]. by apply HP. Qed.

Lemma spec_or_panic {B} (o : option B) (P : B -> Prop) :
  (forall b, o = Some b -> P b) -> spec (or_panic o) P.
Proof.
  intros HP. destruct o; [by apply spec_ret, HP|apply spec_panic].
Qed.

Lemma spec_weaken {B} (m : M B) (P Q : B -> Prop) :
  spec m P -> (forall b, P b -> Q b) -> spec m Q.
Proof.
  intros Hm HPQ c s Hs Hc. destruct (Hm c s Hs Hc) as (? & ? & Hok). split; [done|].
  split; [done|]. intros b Hb. destruct (Hok b Hb) as (? & ?). split; [by apply HPQ|done].
Qed.

End logic.

(** ** Widths of the word operations *)
Section widths.
Context {WO : WordOps} {HW : WordLaws WO}.
Local Abbreviation word := (in_width 256).

Lemma overflowing_width a b : word a -> word b ->
  word (w_overflowing_add a b) /\ word (w_overflowing_sub a b)
  /\ word (w_overflowing_mul a b) /\ word (w_overflowing_pow a b).
Proof.
  intros Ha Hb. rewrite w_overflowing_add_spec, w_overflowing_sub_spec,
    w_overflowing_mul_spec, w_overflowing_pow_spec by done. by repeat split; apply mod_width.
Qed.

Lemma bitwise_width a b : word a -> word b ->
  word (w_and a b) /\ word (w_or a b) /\ word (w_xor a b) /\ word (w_not a).
Proof.
  intros Ha Hb. rewrite w_and_spec, w_or_spec, w_xor_spec by done.
  split; [by apply land_width|]. split; [by apply lor_width|].
  split; [by apply lxor_width|by apply w_not_width].
Qed.

Lemma div_width a b v : word a -> word b -> w_div a b = Some v -> word v.
Proof.
  intros [Ha1 Ha2] Hb. rewrite w_div_spec by done. case_match; [done|]. intros [= <-].
  destruct Hb. bools. split; [apply Z.div_pos; lia|].
  eapply Z.le_lt_trans; [|exact Ha2]. apply Z.div_le_upper_bound; nia.
Qed.

Lemma rem_width a b v : word a -> word b -> w_rem a b = Some v -> word v.
Proof.
  intros Ha [Hb1 Hb2]. rewrite w_rem_spec by done. case_match; [done|]. intros [= <-].
  bools. pose proof (Z.mod_pos_bound a b). unfold in_width. lia.
Qed.

Lemma checked_width a b v : word a -> word b ->
  (w_add a b = Some v \/ w_mul a b = Some v \/ w_sub a b = Some v) -> word v.
Proof.
  intros [? ?] [? ?]. rewrite w_add_spec, w_mul_spec, w_sub_spec by done.
  intros [Hv|[Hv|Hv]]; case_match; simplify_eq; bools; unfold in_width; nia.
Qed.

Lemma sdiv_width a b v : word a -> word b -> sdiv a b = Some v -> word v.
Proof. unfold sdiv. intros. case_match; simplify_eq; [done|]. by apply (div_width a b). Qed.

Lemma smod_width a b v : word a -> word b -> smod a b = Some v -> word v.
Proof. unfold smod. intros. case_match; simplify_eq; [done|]. by apply (rem_width a b). Qed.

Lemma addmod_width a b c v : word a -> word b -> word c -> addmod a b c = Some v -> word v.
Proof.
  unfold addmod. intros Ha Hb Hc Hv. case_match; simplify_eq; [done|].
  apply bind_Some in Hv as (x & Hx & Hv). eapply rem_width; [|exact Hc|exact Hv].
  apply (checked_width a b); auto.
Qed.

Lemma mulmod_width a b c v : word a -> word b -> word c -> mulmod a b c = Some v -> word v.
Proof.
  unfold mulmod. intros Ha Hb Hc Hv. case_match; simplify_eq; [done|].
  apply bind_Some in Hv as (x & Hx & Hv). eapply rem_width; [|exact Hc|exact Hv].
  apply (checked_width a b); auto.
Qed.


Lemma as_usize_width v n : word v -> w_as_usize v = Some n -> in_width 64 n /\ n = v.
Proof.
  intros Hv. rewrite w_as_usize_spec by done. destruct Hv. case_match; [|done].
  intros [= <-]. bools. done.
Qed.

Lemma sign_extend_width k x v : word k -> word x -> sign_extend k x = Some v -> word v.
Proof.
  unfold sign_extend. intros Hk Hx Hv. apply bind_Some in Hv as (n & Hn & Hv).
  pose proof (wrapping_add_width 64 (wrapping_mul 64 n 8) 7 ltac:(lia)) as [Hb0 _].
  case_match eqn:E; [by simplify_eq|]. bools.
  apply bind_Some in Hv as (one & Hone & Hv). apply bind_Some in Hv as (mask & Hmask & Hv).
  assert (word one).
  { eapply w_shl_width; [..|exact Hone]; unfold in_width; lia. }
  assert (word mask) by (apply (checked_width one 1); auto; done).
  assert (word (w_not mask)) by (by apply w_not_width).
  destruct (bitwise_width x mask) as (? & _); [done..|].
  destruct (bitwise_width x (w_not mask)) as (_ & ? & _); [done..|].
  by case_match; simplify_eq.
Qed.

Lemma sar_width v s r : word v -> word s -> sar v s = Some r -> word r.
Proof. intros Hv Hs. rewrite sar_spec by done. intros [= <-]. by apply mod_width. Qed.

Lemma byte_width x i : word x -> 0 <= i < 32 -> word (w_byte x i).
Proof.
  intros Hx Hi. rewrite w_byte_spec by done.
  apply (in_width_le 8 256); [lia|]. by apply mod_width.
Qed.

Lemma bool_word_width b : word (bool_word b).
Proof. by destruct b. Qed.

Lemma call_data_word_width data offset v : bytes_ok data -> word offset ->
  call_data_word data offset = Some v -> word v.
Proof.
  intros [Hd Hl] Ho. unfold call_data_word. case_match eqn:E; [by intros [= <-]|].
  intros Hv. apply bind_Some in Hv as (n & Hn & [= <-]). bools.
  destruct (as_usize_width _ _ Ho Hn) as [Hn64 ->]. destruct Ho. apply word_of_bytes.
  - apply Forall_app_2; [by apply Forall_take, Forall_drop|by apply Forall_replicate].
  - rewrite length_app, length_take, length_drop, length_replicate. lia.
Qed.

Lemma exp_cost_bound e : word e -> Gas.EXP <= Gas.exp_gas_cost e <= 1610.
Proof.
  intros He. unfold Gas.exp_gas_cost, Gas.EXP, Gas.EXP_BYTE. case_match; [lia|]. bools.
  rewrite w_leading_zeros_spec by done.
  destruct He as [? Hlt]. assert (0 <= Z.log2 e < 256).
  { split; [apply Z.log2_nonneg|]. apply Z.log2_lt_pow2; lia. }
  pose proof (div_ceil_spec (256 - (255 - Z.log2 e)) 8). lia.
Qed.

End widths.

(** ** The primitive operations *)
Section primitives.
Context {W A : Type} {SA : StateAccess W} {ST : StateTyped W} {AL : AccessList A}.
Context {WO : WordOps} {HW : WordLaws WO} (keccak : list u8 -> Hash).
Local Abbreviation I := (Interpreter W A).
Local Abbreviation M := (M W A).
Local Abbreviation word := (in_width 256).
Local Abbreviation any := (fun _ => True).

Lemma spec_stack {B} (f : Stack.t -> Stack.t * result VmError B) (P : B -> Prop) :
  (forall st, stack_ok st -> stack_ok (f st).1 /\ forall b, (f st).2 = Ok b -> P b) ->
  spec (fun s : I => let (st, r) := f (stack s) in (with_stack st s, r)) P.
Proof.
  intros Hf. apply spec_quiet. intros s Hs. destruct (Hf (stack s)) as [H1 H2]; [apply Hs|].
  destruct (f (stack s)) as [st r]. cbn [fst snd] in *. split; [by destruct Hs; split|].
  split; [by repeat split|]. exact H2.
Qed.

Lemma spec_push v : word v -> spec (push v : M unit) any.
Proof. intros Hv. apply spec_stack. intros st Hst. split; [by apply push_ok|done]. Qed.

Lemma spec_pop : spec (pop : M _) word.
Proof. apply spec_stack. apply pop_ok. Qed.

Lemma spec_dup n : spec (dup n : M unit) any.
Proof. apply spec_stack. intros st Hst. split; [by apply dup_ok|done]. Qed.

Lemma spec_swap n : spec (swap n : M unit) any.
Proof. apply spec_stack. intros st Hst. split; [by apply swap_ok|done]. Qed.

Lemma spec_on_memory f : (forall m, memory_ok m -> memory_ok (f m).1) ->
  spec (on_memory f : M unit) any.
Proof.
  intros Hf. apply spec_quiet. intros s Hs.
  pose proof (Hf (memory s) (wf_memory _ Hs)) as H1. unfold on_memory.
  destruct (f (memory s)) as [m [b|e|]]; cbn [fst snd] in *;
    (split; [by destruct Hs; split|]); (split; [by repeat split|done]).
Qed.

Lemma spec_expand size : 0 <= size -> spec (expand size : M unit) any.
Proof. intros Hs. apply spec_on_memory. intros m. by apply expand_ok. Qed.

Lemma charge_spec amount (s : I) :
  charge amount s = if amount <=? gas_remaining s
                    then (with_gas_remaining (gas_remaining s - amount) s, Ok tt)
                    else (s, Err OutOfGas).
Proof. unfold charge, consume_gas. by destruct (amount <=? gas_remaining s). Qed.

Lemma spec_charge amount : 0 <= amount -> spec (charge amount : M unit) any.
Proof.
  intros Ha. apply spec_quiet. intros s Hs. rewrite charge_spec.
  case_match eqn:E; bools; [|by repeat split; try apply Hs]. cbn [fst snd].
  split; [destruct Hs; split; try done; simpl; lia|]. split; [|done].
  repeat split. simpl. lia.
Qed.

Lemma spec_pop_usize : spec (pop_usize : M usize) (in_width 64).
Proof.
  eapply spec_bind; [apply spec_pop|]. intros v Hv. apply spec_or_panic. intros n Hn.
  by apply (as_usize_width v n).
Qed.

Lemma spec_usize v : word v -> spec (or_panic (w_as_usize v) : M usize) (in_width 64).
Proof. intros Hv. apply spec_or_panic. intros n Hn. by apply (as_usize_width v n). Qed.

Lemma spec_read_state {B} (f : W -> result StateError B) (P : B -> Prop) :
  (forall w b, state_ok w -> f w = Ok b -> P b) -> spec (read_state f : M B) P.
Proof.
  intros HP. apply spec_pure; unfold read_state.
  - intros s. by destruct (f (state s)).
  - intros s b Hs. destruct (f (state s)) eqn:E; [|done|done]. intros [= <-].
    eapply HP; [apply Hs|exact E].
Qed.

Lemma spec_access {B} (f : I -> A * B) :
  spec (fun s : I => let (a, st) := f s in (with_access_list a s, Ok st)) any.
Proof.
  apply spec_quiet. intros s Hs. destruct (f s) as [a st]. cbn [fst snd].
  split; [by destruct Hs; split|]. by repeat split.
Qed.

Lemma spec_get_memory : spec (get memory : M Memory.t) memory_ok.
Proof. apply spec_get. apply wf_memory. Qed.

Lemma spec_get_context : spec (get context : M ExecutionContext) context_ok.
Proof. apply spec_get. apply wf_context. Qed.

Lemma spec_get_code : spec (get code : M (list u8)) bytes_ok.
Proof. apply spec_get. apply wf_code. Qed.

Lemma spec_read_bytes offset size m : memory_ok m ->
  spec (or_panic (Memory.read_bytes offset size m) : M (list u8)) (Forall (in_width 8)).
Proof. intros Hm. apply spec_or_panic. intros d Hd. by eapply read_bytes_ok. Qed.

Lemma spec_jump dest : in_width 64 dest -> spec (jump dest : M unit) any.
Proof.
  intros [Hd _] c s Hs _. unfold jump. case_bool_decide as Hin; [|done]. cbn [fst snd].
  split; [by destruct Hs; split|]. split; [by split|]. intros _ _. split; [done|].
  split; [|by right]. split; [done|]. exists []. by rewrite app_nil_r.
Qed.

Lemma spec_set_stopped : spec (modify (with_stopped true) : M unit) any.
Proof. apply spec_quiet. intros s Hs. split; [by destruct Hs; split|]. by repeat split. Qed.

Lemma spec_set_return d : Forall (in_width 8) d ->
  spec (modify (with_return_data d) : M unit) any.
Proof.
  intros Hd. apply spec_quiet. intros s Hs. split; [by destruct Hs; split|].
  by repeat split.
Qed.

Lemma spec_copy_loop source dest from : bytes_ok source -> forall count i,
  spec (copy_loop source dest from i count : M unit) any.
Proof.
  intros [Hb _] count. induction count as [|count IH]; intros i; [by apply spec_ret|].
  eapply spec_bind; [|intros _ _; apply IH]. apply spec_on_memory. intros m Hm.
  apply write_byte_ok; [by apply wrapping_add_width| |done].
  unfold code_at. destruct (source !! _) eqn:E; [|done]. by eapply Forall_lookup_1.
Qed.

Lemma spec_pop_topics count : spec (pop_topics count : M (list Hash)) any.
Proof.
  induction count as [|count IH]; [by apply spec_ret|].
  eapply spec_bind; [apply spec_pop|]. intros v Hv. eapply spec_bind; [apply IH|].
  intros topics _. by apply spec_ret.
Qed.

End primitives.

#[export] Hint Resolve spec_push spec_pop spec_dup spec_swap spec_expand spec_charge
  spec_pop_usize spec_usize spec_access spec_get_memory spec_get_context spec_get_code
  spec_read_bytes spec_set_return spec_jump spec_set_stopped
  spec_copy_loop spec_pop_topics spec_fail spec_panic : evm.
