(* ===== verification/EvmExec.v ===== *)
(** * Smart contracts: every opcode, the step and the loop

    Each arm of [execute_opcode] satisfies its [spec]; a step keeps the
    interpreter well formed, moves the program counter to the next instruction or
    to a jump destination, and burns gas unless it ends the execution. *)

From S2P Require Import Prelude EvmBase Evm EvmFacts.

Local Open Scope Z_scope.
Local Open Scope qc_scope.

(** One [let!] whose first half the database knows. *)
Ltac evm_bind :=
  eapply spec_bind; [solve [eauto with evm]|cbv beta; intros ? ?].

Tactic Notation "evm_bind" "as" simple_intropattern(x) simple_intropattern(H) :=
  eapply spec_bind; [solve [eauto with evm]|cbv beta; intros x H].

Section exec.
Context {W A : Type} {SA : StateAccess W} {ST : StateTyped W} {AL : AccessList A}.
Context {WO : WordOps} {HW : WordLaws WO} (keccak : list u8 -> Hash).
Local Abbreviation I := (Interpreter W A).
Local Abbreviation M := (M W A).
Local Abbreviation word := (in_width 256).
Local Abbreviation any := (fun _ => True).

Lemma spec_push_option (o : option U256) :
  (forall v, o = Some v -> word v) -> spec (let! v := or_panic o in push v : M unit) any.
Proof.
  intros Ho. eapply spec_bind; [by apply spec_or_panic|]. intros v Hv. by apply spec_push.
Qed.

Lemma spec_exec_arithmetic op : spec (exec_arithmetic op : M unit) any.
Proof.
  destruct op; try apply spec_panic; cbn [exec_arithmetic]; do 2 evm_bind;
    try (apply spec_push; by apply overflowing_width);
    try (apply spec_push_option; intros v Hv).
  - case_match; simplify_eq; [done|]. by eapply div_width; [..|exact Hv].
  - by eapply sdiv_width; [..|exact Hv].
  - case_match; simplify_eq; [done|]. by eapply rem_width; [..|exact Hv].
  - by eapply smod_width; [..|exact Hv].
  - evm_bind. apply spec_push_option. intros v Hv. by eapply addmod_width; [..|exact Hv].
  - evm_bind. apply spec_push_option. intros v Hv. by eapply mulmod_width; [..|exact Hv].
  - eapply spec_bind; [apply spec_charge, wrapping_sub_width; lia|]. intros _ _.
    apply spec_push. by apply overflowing_width.
  - by eapply sign_extend_width; [..|exact Hv].
Qed.

Lemma spec_exec_comparison op : spec (exec_comparison op : M unit) any.
Proof.
  unfold exec_comparison. eapply spec_bind with (P := word); [|by auto using spec_push].
  destruct op; try apply spec_panic; repeat evm_bind;
    by apply spec_ret, bool_word_width.
Qed.

Lemma spec_exec_bitwise op : spec (exec_bitwise op : M unit) any.
Proof.
  destruct op; try apply spec_panic; cbn [exec_bitwise]; evm_bind as i Hi;
    try (apply spec_push; by apply w_not_width); evm_bind as x Hx;
    try (apply spec_push; by apply bitwise_width);
    try (apply spec_push_option; intros v Hv).
  - case_match eqn:E; [by apply spec_push|]. bools.
    eapply spec_bind; [apply spec_or_panic; intros n Hn; exact (as_usize_width _ _ Hi Hn)|].
    intros n [[Hn _] ->]. apply spec_push, byte_width; [done|lia].
  - by eapply w_shl_width; [..|exact Hv].
  - by eapply w_shr_width; [..|exact Hv].
  - by eapply sar_width; [..|exact Hv].
Qed.

Lemma spec_exec_keccak256 : spec (exec_keccak256 keccak : M unit) any.
Proof.
  unfold exec_keccak256. do 4 evm_bind.
  eapply spec_bind; [by apply spec_get with (P := fun _ => True)|]. intros words _.
  eapply spec_bind; [apply spec_charge, wrapping_add_width; lia|]. intros _ _.
  eapply spec_bind; [apply spec_expand, wrapping_add_width; lia|]. intros _ _.
  do 2 evm_bind. apply spec_push, word_of_bytes; [apply be_bytes_bytes|].
  by rewrite length_be_bytes.
Qed.

Lemma spec_exec_copy (source : I -> list u8) : (forall s, wf s -> bytes_ok (source s)) ->
  spec (exec_copy source : M unit) any.
Proof.
  intros Hb. unfold exec_copy. do 3 evm_bind.
  eapply spec_bind; [apply spec_expand, wrapping_add_width; lia|]. intros _ _.
  eapply spec_bind; [by apply spec_get with (P := bytes_ok)|]. intros b' Hb'.
  by apply spec_copy_loop.
Qed.

Lemma get_balance_width address (w : W) b : state_ok w -> get_balance address w = Ok b ->
  word b.
Proof.
  intros Hw. unfold get_balance. destruct (get_account address w) as [[acc|]|e|] eqn:E;
    [|by intros [= <-]|done|done]. intros [= <-]. by eapply get_account_ok.
Qed.

Lemma address_word_width a : word (from_be_bytes (address_bytes a)).
Proof.
  apply word_of_bytes; [apply be_bytes_bytes|]. rewrite length_be_bytes. lia.
Qed.

Lemma length_width {B} (l : list B) : Z.of_nat (length l) < 2 ^ 63 ->
  word (Z.of_nat (length l)).
Proof. unfold in_width. lia. Qed.

Lemma spec_exec_environmental op : spec (exec_environmental op : M unit) any.
Proof.
  destruct op; try apply spec_fail; cbn [exec_environmental].
  all: try (evm_bind; apply spec_push, address_word_width).
  - do 2 evm_bind. eapply spec_bind; [apply spec_charge; by case_match|]. intros _ _.
    eapply spec_bind; [apply spec_read_state; intros ? ?; apply get_balance_width|].
    intros v Hv. by apply spec_push.
  - evm_bind as c Hc. apply spec_push. apply Hc.
  - evm_bind. evm_bind as c Hc. apply spec_push_option. intros v Hv.
    eapply call_data_word_width; [|done|exact Hv]. apply Hc.
  - evm_bind as c Hc. apply spec_push, length_width. apply Hc.
  - apply spec_exec_copy. intros s Hs. apply Hs.
  - evm_bind as c Hc. apply spec_push, length_width. apply Hc.
  - apply spec_exec_copy. intros s Hs. apply Hs.
  - evm_bind as c Hc. apply spec_push. apply Hc.
Qed.

Lemma word_of_u64 x : in_width 64 x -> word x.
Proof. apply in_width_le. lia. Qed.

Lemma spec_exec_block_info op : spec (exec_block_info op : M unit) any.
Proof.
  unfold exec_block_info. evm_bind as c Hc.
  destruct Hc as (_ & _ & _ & _ & H1 & H2 & H3 & H4 & H5).
  destruct op; try apply spec_fail; try (apply spec_push; by apply word_of_u64).
  - evm_bind. by apply spec_push.
  - apply spec_push, address_word_width.
  - by apply spec_push.
Qed.

Lemma land_byte x : 0 <= x -> in_width 8 (Z.land x 0xff).
Proof.
  intros Hx. change 0xff with (Z.ones 8). rewrite Z.land_ones by lia. by apply mod_width.
Qed.

Lemma spec_exec_memory_ops op : spec (exec_memory_ops op : M unit) any.
Proof.
  destruct op; try apply spec_fail; cbn [exec_memory_ops].
  - evm_bind as o Ho. eapply spec_bind; [apply spec_expand, wrapping_add_width; lia|].
    intros _ _. evm_bind as m Hm. destruct (read_word_ok o m) as [Hb Hl]; [done|].
    apply spec_push, word_of_bytes; [done|]. by rewrite Hl.
  - evm_bind as o Ho. evm_bind.
    eapply spec_bind; [apply spec_expand, wrapping_add_width; lia|].
    intros _ _. apply spec_on_memory. intros m. apply write_word_ok;
      [apply Ho|apply length_be_bytes|apply be_bytes_bytes].
  - evm_bind as o Ho. evm_bind.
    eapply spec_bind; [apply spec_expand, wrapping_add_width; lia|].
    intros _ _. apply spec_on_memory. intros m. apply write_byte_ok; [apply Ho|].
    apply land_byte. by apply mod_width.
  - evm_bind as m Hm. apply spec_push. destruct Hm as (Hl & _).
    unfold in_width, Memory.len, Memory.MAX_MEMORY_SIZE in *. lia.
Qed.

(** The write of [SSTORE] and its record. *)
Definition record_write (c : ExecutionContext) (key : StorageKey) (v : StorageValue) : M unit :=
  let! _ := write_slot key v in
  let change := if v =? 0 then StorageDelete (ctx_address c) key
                else StorageWrite (ctx_address c) key v in
  modify (fun s => with_state_changes (state_changes s ++ [change]) s).

Lemma spec_record_write c key v : ctx_is_static c = false ->
  spec_at c (record_write c key v) any.
Proof.
  intros Hst s Hs Hc. unfold record_write, bind, write_slot, modify. rewrite Hc.
  pose proof (set_storage_ok (ctx_address c) key v (state s) (wf_state _ Hs)) as Hok.
  assert (Happ : forall w r, set_storage (ctx_address c) key v (state s) = (w, r) ->
    apply_change (state s) (if v =? 0 then StorageDelete (ctx_address c) key
                            else StorageWrite (ctx_address c) key v) = w).
  { intros w r E. case_match; bools; simplify_eq; cbn [apply_change]; by rewrite E. }
  destruct (set_storage _ _ _ _) as [w [r|e|]] eqn:E; cbn [sbind fst snd] in *.
  - split; [by destruct Hs; split|]. split; [split; try done; by rewrite Hc, Hst|].
    intros _ _. split; [done|]. split; [|by left]. split; [done|].
    eexists. split; [done|]. cbn [foldl]. by rewrite (Happ w (Ok r)).
  - split; [by destruct Hs; split|]. split; [split; try done; by rewrite Hc, Hst|done].
  - split; [by destruct Hs; split|]. split; [split; try done; by rewrite Hc, Hst|done].
Qed.

Lemma slot_cost_bound st : 100 <= slot_cost st <= 2100.
Proof. destruct st; done. Qed.

Lemma spec_touch_slot key : spec (touch_slot key : M AccessStatus) any.
Proof. apply spec_access. Qed.
Hint Resolve spec_touch_slot : evm.

Lemma spec_exec_storage_ops op : spec (exec_storage_ops op : M unit) any.
Proof.
  destruct op; try apply spec_fail; cbn [exec_storage_ops].
  - evm_bind. evm_bind as st Hst.
    eapply spec_bind; [apply spec_charge; pose proof (slot_cost_bound st); lia|].
    intros _ _. evm_bind. eapply spec_bind; [by apply spec_read_state with (P := any)|]. intros v _.
    apply spec_push, word_of_bytes; [apply be_bytes_bytes|]. by rewrite length_be_bytes.
  - apply spec_context. intros c Hc. destruct (ctx_is_static c) eqn:Hst; [apply spec_fail|].
    eapply spec_at_bind; [apply spec_pop|]. intros key Hkey.
    eapply spec_at_bind; [apply spec_pop|]. intros v Hv. cbv beta.
    eapply spec_at_bind; [apply spec_touch_slot|]. intros st _.
    eapply spec_at_bind; [apply spec_charge; pose proof (slot_cost_bound st);
                          unfold Gas.SSTORE_SET; lia|]. intros _ _.
    by apply spec_record_write.
Qed.

Lemma spec_exec_flow_control op : op <> Opcode.Pc ->
  spec (exec_flow_control op : M unit) any.
Proof.
  destruct op; intros Hop; try apply spec_panic; cbn [exec_flow_control]; [..|done|].
  - evm_bind as d Hd. by apply spec_jump.
  - evm_bind as d Hd. evm_bind. case_match; [by apply spec_jump|by apply spec_ret].
  - by apply spec_ret.
Qed.

Lemma spec_add_log c log : ctx_is_static c = false ->
  spec_at c (modify (fun s => with_logs (logs s ++ [log]) s) : M unit) any.
Proof.
  intros Hst s Hs Hc. cbn [modify fst snd]. split; [by destruct Hs; split|].
  split; [split; try done; by rewrite Hc, Hst|]. intros _ _. split; [done|].
  split; [|by left]. split; [done|]. exists []. by rewrite app_nil_r.
Qed.

Lemma spec_exec_log op : spec (exec_log op : M unit) any.
Proof.
  unfold exec_log. apply spec_context. intros c Hc.
  destruct (ctx_is_static c) eqn:Hst; [apply spec_fail|].
  eapply spec_at_bind; [apply spec_pop_usize|]. intros o Ho.
  eapply spec_at_bind; [apply spec_pop_usize|]. intros n Hn. cbv beta.
  eapply spec_at_bind; [apply spec_charge, wrapping_sub_width; lia|]. intros _ _.
  eapply spec_at_bind; [apply spec_expand, wrapping_add_width; lia|]. intros _ _.
  eapply spec_at_bind; [apply spec_pop_topics|]. intros ts _.
  eapply spec_at_bind; [apply spec_get_memory|]. intros m Hm.
  eapply spec_at_bind; [by apply spec_read_bytes|]. intros d Hd. by apply spec_add_log.
Qed.

Lemma spec_set_return_op : spec (set_return : M unit) any.
Proof.
  unfold set_return. do 2 evm_bind.
  eapply spec_bind; [apply spec_expand, wrapping_add_width; lia|]. intros _ _.
  do 3 evm_bind. apply spec_set_stopped.
Qed.
Hint Resolve spec_set_return_op : evm.

(** [REVERT] marks the interpreter and fails. *)
Lemma spec_revert : spec (let! _ := modify (with_reverted true) in fail Revert : M unit) any.
Proof. intros c s Hs _. split; [by destruct Hs; split|]. by split. Qed.

Lemma spec_exec_system op : spec (exec_system op : M unit) any.
Proof.
  destruct op; try apply spec_fail; cbn [exec_system].
  - apply spec_set_stopped.
  - apply spec_set_return_op.
  - evm_bind. apply spec_revert.
Qed.

Lemma spec_exec_dup op : spec (exec_dup op : M unit) any.
Proof. apply spec_dup. Qed.

Lemma spec_exec_swap op : spec (exec_swap op : M unit) any.
Proof. apply spec_swap. Qed.

Lemma spec_exec_stack_ops op : in_range op Opcode.Push0 Opcode.Push32 = false ->
  spec (exec_stack_ops op : M unit) any.
Proof.
  intros Hp. assert (Hgen : spec (if in_range op Opcode.Push0 Opcode.Push32 then exec_push op
      else if in_range op Opcode.Dup1 Opcode.Dup16 then exec_dup op
      else if in_range op Opcode.Swap1 Opcode.Swap16 then exec_swap op
      else panic : M unit) any).
  { rewrite Hp. case_match; [apply spec_exec_dup|]. case_match; [apply spec_exec_swap|].
    apply spec_panic. }
  destruct op; try exact Hgen; cbn [exec_stack_ops].
  - evm_bind. by apply spec_ret.
  - eapply spec_bind; [apply spec_get with (P := word)|by auto using spec_push].
    intros s Hs. destruct (wf_gas _ Hs), (wf_context _ Hs) as (_ & _ & Hg & _).
    unfold in_width in *. lia.
Qed.

(** ** One step *)

(** What a step promises: [size] bytes of push data follow the opcode. *)
Definition step_spec (size : Z) (s : I) (r : I * result VmError unit) : Prop :=
  wf r.1 /\ evolves s r.1 /\
  (r.2 = Ok tt -> explains s r.1 /\
     (pc r.1 = pc s + 1 + size \/ pc r.1 ∈ jump_dests r.1)).

Definition incr_pc (s : I) : I := with_pc (pc s + 1) s.

Lemma step_of_spec (m : M unit) s : spec m any -> wf s ->
  step_spec 0 s (m (incr_pc s)).
Proof.
  intros Hm Hs. assert (Hw : wf (incr_pc s)).
  { destruct Hs; split; try done. simpl. lia. }
  destruct (Hm (context s) (incr_pc s) Hw eq_refl) as (H1 & H2 & H3).
  split; [done|]. split; [by destruct H2; split|]. intros Hok.
  destruct (H3 tt Hok) as (_ & Hx & Hd). split; [done|].
  destruct Hd as [->|]; [left; simpl; lia|by right].
Qed.

Lemma push_data_ok code pc size : bytes_ok code -> 0 <= size <= 32 ->
  0 <= pc <= Z.of_nat (length code) -> word (from_be_bytes (push_data code pc size)).
Proof.
  intros [Hb _] Hs Hp. apply word_of_bytes; unfold push_data.
  - repeat apply Forall_app_2; try by apply Forall_replicate.
    by apply Forall_take, Forall_drop.
  - rewrite !length_app, !length_replicate, length_take, length_drop. lia.
Qed.

Lemma push_size_bound op : 0 <= default 0 (Opcode.push_size op) <= 32.
Proof. destruct op; done. Qed.

Lemma step_push op s : wf s -> pc s < Z.of_nat (length (code s)) ->
  step_spec (default 0 (Opcode.push_size op)) s (exec_push op (incr_pc s)).
Proof.
  intros Hs Hpc. pose proof (push_size_bound op) as Hsz. unfold exec_push.
  set (n := default 0 _) in *.
  destruct (step_of_spec (push (from_be_bytes (push_data (code s) (pc s + 1) n))) s)
    as (H1 & H2 & H3); [|done|].
  { apply spec_push, push_data_ok; [apply Hs|done|]. pose proof (wf_pc _ Hs). lia. }
  assert (Hpcs : forall v, pc (push v (incr_pc s)).1 = pc s + 1).
  { intros v. unfold push. by destruct (Stack.push v (stack (incr_pc s))). }
  specialize (Hpcs (from_be_bytes (push_data (code s) (pc s + 1) n))).
  unfold bind, get, modify. cbn [sbind]. change (code (incr_pc s)) with (code s).
  change (pc (incr_pc s)) with (pc s + 1).
  destruct (push _ (incr_pc s)) as [s1 [[]|e|]]; cbn [sbind fst snd] in *.
  - split; [destruct H1; split; try done; simpl; lia|]. split; [by destruct H2; split|].
    intros _. destruct H3 as [Hx _]; [done|]. split; [done|]. left. simpl. lia.
  - by split; [|split].
  - by split; [|split].
Qed.

Lemma step_pc s : wf s -> pc s < Z.of_nat (length (code s)) ->
  step_spec 0 s (exec_flow_control Opcode.Pc (incr_pc s)).
Proof.
  intros Hs Hpc. cbn [exec_flow_control]. unfold bind, get. cbn [sbind].
  change (pc (incr_pc s)) with (pc s + 1). apply step_of_spec; [|done]. apply spec_push.
  pose proof (wf_pc _ Hs). destruct (wf_code _ Hs). unfold in_width. lia.
Qed.

Lemma push_family op : in_range op Opcode.Push0 Opcode.Push32 = true ->
  family_of op = StackOps /\ exec_stack_ops op = (exec_push op : M unit).
Proof. destruct op; try done; by intros [=]. Qed.

Lemma no_push_data op : in_range op Opcode.Push0 Opcode.Push32 = false ->
  Opcode.push_size op = None.
Proof. destruct op; try done; by intros [=]. Qed.

(** [execute_opcode] keeps its promise for every opcode. *)
Lemma execute_opcode_spec op s : wf s -> pc s < Z.of_nat (length (code s)) ->
  step_spec (default 0 (Opcode.push_size op)) s (execute_opcode keccak op s).
Proof.
  intros Hs Hpc. change (execute_opcode keccak op s) with (dispatch keccak op (incr_pc s)).
  unfold dispatch.
  destruct (in_range op Opcode.Push0 Opcode.Push32) eqn:Hr.
  { destruct (push_family op Hr) as [-> ->]. by apply step_push. }
  rewrite (no_push_data op Hr). cbn [default].
  destruct (decide (op = Opcode.Pc)) as [->|Hop]; [by apply step_pc|].
  destruct (family_of op); (apply step_of_spec; [|done]).
  - apply spec_exec_arithmetic.
  - apply spec_exec_comparison.
  - apply spec_exec_bitwise.
  - apply spec_exec_keccak256.
  - apply spec_exec_environmental.
  - apply spec_exec_block_info.
  - apply spec_exec_memory_ops.
  - apply spec_exec_storage_ops.
  - by apply spec_exec_flow_control.
  - by apply spec_exec_stack_ops.
  - apply spec_exec_log.
  - apply spec_exec_system.
Qed.

(** ** Gas *)

(** [m] burns gas whenever it succeeds. *)
Definition burns {B} (c : ExecutionContext) (m : M B) : Prop := forall s, wf s ->
  context s = c -> forall b, (m s).2 = Ok b -> gas_remaining (m s).1 < gas_remaining s.

Lemma burns_bind_l {B C} c (m : M B) (k : B -> M C) P Q :
  burns c m -> spec_at c m P -> (forall b, P b -> spec_at c (k b) Q) -> burns c (bind m k).
Proof.
  intros Hb Hm Hk s Hs Hc d. specialize (Hb s Hs Hc). destruct (Hm s Hs Hc) as (Hw & He & Hok).
  unfold bind. destruct (m s) as [s1 [b|e|]]; cbn [sbind fst snd] in *; [|done|done].
  intros _. destruct (Hok b eq_refl) as (HP & _).
  destruct (Hk b HP s1 Hw) as (_ & He2 & _); [by rewrite (ev_context _ _ He)|].
  specialize (Hb b eq_refl). pose proof (ev_gas _ _ He2). lia.
Qed.

Lemma burns_bind_r {B C} c (m : M B) (k : B -> M C) P :
  spec_at c m P -> (forall b, P b -> burns c (k b)) -> burns c (bind m k).
Proof.
  intros Hm Hk s Hs Hc d. destruct (Hm s Hs Hc) as (Hw & He & Hok).
  unfold bind. destruct (m s) as [s1 [b|e|]]; cbn [sbind fst snd] in *; [|done|done].
  destruct (Hok b eq_refl) as (HP & _). intros Hd.
  pose proof (Hk b HP s1 Hw ltac:(by rewrite (ev_context _ _ He)) d Hd).
  pose proof (ev_gas _ _ He). lia.
Qed.

Lemma burns_charge c amount : 0 < amount -> burns c (charge amount : M unit).
Proof.
  intros Ha s Hs _ b. rewrite charge_spec. case_match; [|done]. intros _. simpl. lia.
Qed.

Lemma burns_balance c : burns c (exec_environmental Opcode.Balance : M unit).
Proof.
  cbn [exec_environmental]. eapply burns_bind_r; [apply spec_pop|]. intros a Ha.
  eapply burns_bind_r; [apply spec_access|]. intros st _. cbv beta.
  eapply burns_bind_l; [apply burns_charge; by case_match|apply spec_charge; by case_match|].
  intros _ _. eapply spec_at_bind; [apply spec_read_state; intros ? ?; apply get_balance_width|].
  intros v Hv. by apply spec_push.
Qed.

(** [SSTORE] outside static contexts. *)
Definition store_slot (c : ExecutionContext) : M unit :=
  let! key := pop in let! val := pop in
  let! status := touch_slot (storage_from_u256 key) in
  let! _ := charge (slot_cost status + Gas.SSTORE_SET) in
  record_write c (storage_from_u256 key) (storage_from_u256 val).

Lemma sstore_eq (s : I) : exec_storage_ops Opcode.SStore s
  = if ctx_is_static (context s) then (s, Err WriteInStaticContext)
    else store_slot (context s) s.
Proof. cbn [exec_storage_ops]. unfold bind at 1, get at 1. cbn [sbind]. by case_match. Qed.

Lemma burns_storage c op : burns c (exec_storage_ops op : M unit).
Proof.
  destruct op; try done; cbn [exec_storage_ops].
  - eapply burns_bind_r; [apply spec_pop|]. intros key Hkey.
    eapply burns_bind_r; [apply spec_touch_slot|]. intros st _. cbv beta.
    pose proof (slot_cost_bound st).
    eapply burns_bind_l; [apply burns_charge; lia|apply spec_charge; lia|]. intros _ _.
    eapply spec_at_bind; [apply spec_get_context|]. intros c' _.
    eapply spec_at_bind; [by apply spec_read_state with (P := any)|]. intros v _.
    apply spec_push, word_of_bytes; [apply be_bytes_bytes|]. by rewrite length_be_bytes.
  - intros s Hs Hc. change (forall b, (exec_storage_ops Opcode.SStore s).2 = Ok b ->
      gas_remaining (exec_storage_ops Opcode.SStore s).1 < gas_remaining s).
    rewrite sstore_eq, Hc. destruct (ctx_is_static c) eqn:Hst; [done|]. revert s Hs Hc.
    change (burns c (store_slot c)).
    eapply burns_bind_r; [apply spec_pop|]. intros key Hkey.
    eapply burns_bind_r; [apply spec_pop|]. intros v Hv.
    eapply burns_bind_r; [apply spec_touch_slot|]. intros st _. cbv beta.
    pose proof (slot_cost_bound st). unfold Gas.SSTORE_SET.
    eapply burns_bind_l; [apply burns_charge; lia|apply spec_charge; lia|]. intros _ _.
    by apply spec_record_write.
Qed.

(** [RETURN] ends the execution: its last action is to stop. *)
Lemma bind_ok {B C} (m : M B) (k : B -> M C) s c :
  (bind m k s).2 = Ok c -> exists s1 b, m s = (s1, Ok b) /\ bind m k s = k b s1.
Proof.
  unfold bind. destruct (m s) as [s1 [b|e|]]; cbn [sbind snd]; [|done|done]. eauto.
Qed.

Lemma return_stops (s : I) b : (set_return s).2 = Ok b -> stopped (set_return s).1 = true.
Proof.
  unfold set_return. intros Hok.
  repeat match type of Hok with
  | (bind _ _ _).2 = Ok _ =>
      let E := fresh "E" in
      destruct (bind_ok _ _ _ _ Hok) as (? & ? & _ & E); rewrite E in *; clear E
  end.
  done.
Qed.

Definition zero_cost (op : Opcode.t) : bool :=
  match op with
  | Opcode.Stop | Opcode.Balance | Opcode.ExtCodeSize | Opcode.ExtCodeCopy
  | Opcode.ExtCodeHash | Opcode.SLoad | Opcode.SStore | Opcode.Call | Opcode.CallCode
  | Opcode.Return | Opcode.DelegateCall | Opcode.StaticCall | Opcode.Revert
  | Opcode.Invalid => true
  | _ => false
  end.

Lemma base_cost_pos op : if zero_cost op then Gas.base_cost op = 0
                         else 1 <= Gas.base_cost op <= 32000.
Proof. destruct op; vm_compute; done. Qed.

(** An opcode without a base cost burns gas by itself, stops or fails. *)
Lemma zero_cost_burns op (s : I) : zero_cost op = true -> wf s ->
  (execute_opcode keccak op s).2 = Ok tt ->
  stopped (execute_opcode keccak op s).1 = true
  \/ gas_remaining (execute_opcode keccak op s).1 < gas_remaining s.
Proof.
  intros Hz Hs. assert (Hw : wf (incr_pc s)) by (destruct Hs; split; try done; simpl; lia).
  change (execute_opcode keccak op s) with (dispatch keccak op (incr_pc s)).
  change (gas_remaining s) with (gas_remaining (incr_pc s)). unfold dispatch.
  destruct op; try done; cbn [family_of]; intros Hok.
  - by left.
  - right. by eapply burns_balance.
  - right. by eapply burns_storage.
  - right. by eapply burns_storage.
  - left. by eapply return_stops.
  - exfalso. cbn [exec_system] in Hok.
    destruct (bind_ok _ _ _ _ Hok) as (s1 & b & _ & E). by rewrite E in Hok.
Qed.

(** ** The step and the loop *)

Lemma execute_step_eq (s : I) byte : code_at (code s) (pc s) = Some byte ->
  execute_step keccak s =
    if Gas.base_cost (decode byte) <=? gas_remaining s then
      execute_opcode keccak (decode byte)
        (with_gas_remaining (gas_remaining s - Gas.base_cost (decode byte)) s)
    else (s, Err OutOfGas).
Proof.
  intros Hb. unfold execute_step. unfold bind at 1. rewrite Hb. cbn [sbind].
  unfold bind. rewrite charge_spec. by case_match.
Qed.

Lemma fetch (s : I) : wf s -> pc s < Z.of_nat (length (code s)) ->
  exists byte, code_at (code s) (pc s) = Some byte.
Proof.
  intros Hs Hpc. apply lookup_lt_is_Some_2. pose proof (wf_pc _ Hs). lia.
Qed.

(** A step keeps the interpreter well formed; when it succeeds, the next
    instruction is the one after the push data or a jump destination, and gas was
    burnt unless the execution ended. *)
Lemma execute_step_spec (s : I) byte : wf s -> pc s < Z.of_nat (length (code s)) ->
  code_at (code s) (pc s) = Some byte ->
  step_spec (default 0 (Opcode.push_size (decode byte))) s (execute_step keccak s) /\
  ((execute_step keccak s).2 = Ok tt -> stopped (execute_step keccak s).1 = true
     \/ gas_remaining (execute_step keccak s).1 < gas_remaining s).
Proof.
  intros Hs Hpc Hb. rewrite (execute_step_eq s byte Hb). set (op := decode byte).
  pose proof (base_cost_pos op) as Hc.
  destruct (Z.leb_spec (Gas.base_cost op) (gas_remaining s));
    [|by split; [split; [|split]|]].
  set (s1 := with_gas_remaining _ s).
  assert (Hle : 0 <= Gas.base_cost op) by (destruct (zero_cost op); lia).
  assert (Hw : wf s1) by (destruct Hs; split; try done; simpl; lia).
  destruct (execute_opcode_spec op s1 Hw Hpc) as (H1 & H2 & H3). split.
  - split; [done|]. split; [|by apply H3]. transitivity s1; [|done].
    split; try done. simpl. lia.
  - intros Hok. destruct (zero_cost op) eqn:Hz.
    + pose proof (zero_cost_burns op s1 Hz Hw Hok) as Hburn. simpl in Hburn. rewrite Hc in *.
      destruct Hburn; [by left|right; lia].
    + right. pose proof (ev_gas _ _ H2) as Hg. simpl in Hg. lia.
Qed.

End exec.
