(* ===== verification/EvmProps.v ===== *)
(** * Smart contracts: the claims

    The interpreter and the service of [qc-11-smart-contracts]: termination, the
    invariant of the reachable states, static purity, what the recorded changes
    mean, jump destinations, memory, signed words, and what a failed execution
    leaves behind. *)

From S2P Require Import Prelude EvmBase Evm EvmService EvmFacts EvmExec.

Local Open Scope Z_scope.
Local Open Scope qc_scope.

(** ** Instruction boundaries *)

Definition next_instr (i : Z) (byte : u8) : Z :=
  i + 1 + default 0 (Opcode.push_size (decode byte)).

(** [j] is where an instruction starts when one starts at [i]. *)
Inductive instr_from (code : list u8) (i : Z) : Z -> Prop :=
| instr_here : instr_from code i i
| instr_next j byte : instr_from code i j -> code_at code j = Some byte ->
    instr_from code i (next_instr j byte).

Lemma instr_from_step code i byte j : code_at code i = Some byte ->
  instr_from code i j <-> j = i \/ instr_from code (next_instr i byte) j.
Proof.
  intros Hb. split.
  - induction 1 as [|j b Hj IH Hb']; [by left|]. right. destruct IH as [->|IH].
    + rewrite Hb' in Hb. simplify_eq. constructor.
    + by econstructor.
  - intros [->|Hj]; [constructor|]. induction Hj; [by econstructor; [constructor|]|].
    by econstructor.
Qed.

Lemma instr_from_end code i j : code_at code i = None -> instr_from code i j -> j = i.
Proof. intros Hi. induction 1 as [|j b _ -> Hb]; [done|]. congruence. Qed.

Lemma push_size_nonneg op : 0 <= default 0 (Opcode.push_size op).
Proof. by destruct op. Qed.

Lemma decode_jumpdest byte : Opcode.eqb (decode byte) Opcode.JumpDest = true <-> byte = 0x5b.
Proof.
  unfold Opcode.eqb, decode. destruct (Opcode.from_byte byte) as [op|] eqn:E; cbn [default].
  - rewrite <-(Opcode.to_from_byte _ _ E). apply Z.eqb_eq.
  - split; [done|]. intros ->. done.
Qed.

Lemma analyze_loop_spec code : forall fuel i dests j, 0 <= i ->
  (length code <= Z.to_nat i + fuel)%nat ->
  j ∈ analyze_loop code fuel i dests <->
  j ∈ dests \/ (instr_from code i j /\ code_at code j = Some 0x5b).
Proof.
  induction fuel as [|fuel IH]; intros i dests j Hi Hf; cbn [analyze_loop].
  - assert (Hn : code_at code i = None) by (apply lookup_ge_None_2; lia).
    split; [by left|]. intros [?|[Hj Hb]]; [done|].
    apply (instr_from_end _ _ _ Hn) in Hj as ->. congruence.
  - destruct (code_at code i) as [byte|] eqn:Hb.
    + assert (Hnext : (match Opcode.push_size (decode byte) with
                       | Some size => i + size | None => i end) + 1 = next_instr i byte).
      { unfold next_instr. destruct (Opcode.push_size (decode byte)); simpl; lia. }
      rewrite Hnext. pose proof (push_size_nonneg (decode byte)) as Hp.
      rewrite IH by (unfold next_instr; lia). rewrite (instr_from_step code i byte j Hb).
      destruct (Opcode.eqb _ _) eqn:Hd.
      * apply decode_jumpdest in Hd as ->. rewrite elem_of_union, elem_of_singleton.
        split; [intros [[->|?]|[? ?]]|intros [?|[[->|?] ?]]]; eauto.
      * split; [intros [?|[? ?]]|intros [?|[[->|?] Hj]]]; eauto. exfalso.
        rewrite Hb in Hj. simplify_eq.
    + split; [by left|]. intros [?|[Hj Hj']]; [done|].
      apply (instr_from_end _ _ _ Hb) in Hj as ->. congruence.
Qed.

Lemma analyze_jump_dests_spec code j :
  j ∈ analyze_jump_dests code <-> instr_from code 0 j /\ code_at code j = Some 0x5b.
Proof.
  unfold analyze_jump_dests. rewrite analyze_loop_spec by lia. set_solver.
Qed.

Section props.
Context {W A : Type} {SA : StateAccess W} {ST : StateTyped W} {AL : AccessList A}.
Context {WO : WordOps} {HW : WordLaws WO} (keccak : list u8 -> Hash).
Local Abbreviation I := (Interpreter W A).

(** ** The loop *)

Lemma wf_stopped (s : I) : wf s -> wf (with_stopped true s).
Proof. by destruct 1; split. Qed.

Lemma loop_terminates fuel : forall s : I, wf s ->
  gas_remaining s < Z.of_nat fuel -> exists r, execute_loop keccak fuel s = Some r.
Proof.
  induction fuel as [|fuel IH]; intros s Hs Hf.
  { pose proof (wf_gas _ Hs). lia. }
  cbn [execute_loop]. destruct (stopped s); [eauto|].
  destruct (Z.leb_spec (Z.of_nat (length (code s))) (pc s)) as [|Hpc]; [eauto|].
  destruct (fetch s Hs Hpc) as [byte Hb].
  destruct (execute_step_spec keccak s byte Hs Hpc Hb) as [(Hw & _) Hburn].
  destruct (execute_step keccak s) as [s1 [[]|e|]]; cbn [fst snd] in *; [|eauto|eauto].
  destruct Hburn as [Hst|Hlt]; [done| |apply IH; [done|lia]].
  exists (s1, Ok tt). destruct fuel; cbn [execute_loop]; by rewrite Hst.
Qed.

Lemma loop_spec fuel : forall (s s' : I) r, wf s -> execute_loop keccak fuel s = Some (s', r) ->
  wf s' /\ evolves s s' /\ (r = Ok tt -> explains s s').
Proof.
  induction fuel as [|fuel IH]; intros s s' r Hs; cbn [execute_loop].
  { repeat case_match; intros; simplify_eq; (split; [by apply wf_stopped || done|]);
      (split; [by split|]); intros _; (split; [done|]); exists []; by rewrite app_nil_r. }
  destruct (stopped s); [by intros [= <- <-]|].
  destruct (Z.leb_spec (Z.of_nat (length (code s))) (pc s)) as [|Hpc].
  { intros [= <- <-]. split; [by apply wf_stopped|]. split; [by split|]. intros _.
    split; [done|]. exists []. by rewrite app_nil_r. }
  destruct (fetch s Hs Hpc) as [byte Hb].
  destruct (execute_step_spec keccak s byte Hs Hpc Hb) as [(Hw & He & Hok) _].
  destruct (execute_step keccak s) as [s1 [[]|e|]]; cbn [fst snd] in *;
    [|by intros [= <- <-]|by intros [= <- <-]].
  intros Hloop. destruct (IH s1 s' r Hw Hloop) as (Hw' & He' & Hok').
  split; [done|]. split; [by transitivity s1|]. intros Hr.
  transitivity s1; [by apply Hok|by apply Hok'].
Qed.

Lemma execute_inv fuel (s s' : I) r : execute keccak fuel s = Some (s', r) ->
  exists r', execute_loop keccak fuel s = Some (s', r') /\
    r = match r' with Ok _ => Ok (execution_result s') | Err e => Err e | Panic => Panic end.
Proof.
  unfold execute. destruct (execute_loop keccak fuel s) as [[s1 [[]|e|]]|]; [..|done];
    intros [= <- <-]; eauto.
Qed.

Lemma interpreter_new_wf ctx bytecode (w : W) (a : A) :
  context_ok ctx -> bytes_ok bytecode -> state_ok w ->
  wf (interpreter_new ctx bytecode w a).
Proof.
  intros Hc Hb Hw. split; try done; simpl.
  - split; [|constructor]. unfold Stack.len. simpl. unfold Stack.MAX_STACK_SIZE. lia.
  - split; [done|]. split; [by exists 0|constructor].
  - destruct Hc as (_ & _ & [? ?] & _). lia.
Qed.

(** C14 (termination): executing any bytecode in any context ends after at most one
    round per unit of gas and one more: the loop never needs more fuel.  If it ends
    in a result, the gas used is at most the gas limit and no refund is given. *)
Theorem execution_terminates ctx bytecode (w : W) (a : A) :
  context_ok ctx -> bytes_ok bytecode -> state_ok w ->
  exists s r,
    execute keccak (S (Z.to_nat (ctx_gas_limit ctx))) (interpreter_new ctx bytecode w a)
      = Some (s, r) /\
    forall res, r = Ok res -> Invariants.check_gas_limit_invariant res ctx = true
                            /\ 0 <= er_gas_used res /\ er_gas_refund res = 0.
Proof.
  intros Hc Hb Hw. pose proof (interpreter_new_wf ctx bytecode w a Hc Hb Hw) as Hwf.
  destruct (loop_terminates (S (Z.to_nat (ctx_gas_limit ctx))) _ Hwf) as [[s r] Hl].
  { simpl. pose proof (wf_gas _ Hwf). simpl in *. lia. }
  destruct (loop_spec _ _ _ _ Hwf Hl) as (Hs & He & _).
  unfold execute. rewrite Hl.
  destruct r as [[]|e|]; (eexists _, _; split; [done|]); [|done|done].
  intros res [= <-]. unfold Invariants.check_gas_limit_invariant, execution_result.
  cbn [er_gas_used er_gas_refund]. rewrite (ev_gas_refund _ _ He), (ev_context _ _ He).
  cbn [interpreter_new gas_refund context].
  destruct (wf_gas _ Hs) as [Hg0 Hg]. rewrite (ev_context _ _ He) in Hg.
  cbn [interpreter_new context] in Hg. destruct Hc as (_ & _ & [_ Hl64] & _).
  unfold wrapping_sub. rewrite Z.mod_small by lia.
  unfold Gas.calculate_refund, saturating_sub.
  assert (0 <= (ctx_gas_limit ctx - gas_remaining s) / 2) by (apply Z.div_pos; lia).
  rewrite Z.min_l by done. split; [apply Z.leb_le; lia|lia].
Qed.

(** One round of the loop that leads to another. *)
Definition step_to (s s' : I) : Prop :=
  stopped s = false /\ pc s < Z.of_nat (length (code s))
  /\ execute_step keccak s = (s', Ok tt).

(** The invariant of the loop. *)
Definition loop_inv (bytecode : list u8) (s : I) : Prop :=
  wf s /\ code s = bytecode /\ jump_dests s = analyze_jump_dests bytecode
  /\ instr_from bytecode 0 (pc s).

Lemma step_keeps_inv bytecode s s' : loop_inv bytecode s -> step_to s s' ->
  loop_inv bytecode s'.
Proof.
  intros (Hs & Hc & Hj & Hi) (_ & Hpc & Hstep). destruct (fetch s Hs Hpc) as [byte Hb].
  destruct (execute_step_spec keccak s byte Hs Hpc Hb) as [(Hw & He & Hok) _].
  rewrite Hstep in *. cbn [fst snd] in *. destruct (Hok eq_refl) as [_ Hpc'].
  pose proof (ev_jump_dests _ _ He) as Hj'. pose proof (ev_code _ _ He) as Hc'.
  split; [done|]. split; [congruence|]. split; [congruence|]. rewrite Hc in Hb.
  destruct Hpc' as [->|Hin]; [by apply instr_next|].
  rewrite Hj', Hj in Hin. by apply analyze_jump_dests_spec in Hin as [? _].
Qed.

(** C15 (invariant): in every state the interpreter reaches between two
    instructions, the stack holds at most 1024 words and the memory at most 16 MiB in
    whole 32-byte words, every byte and word is in range, the remaining gas is
    between zero and the limit, and the program counter is at the start of an
    instruction: push data is never executed, whatever the code jumps to. *)
Theorem interpreter_invariant ctx bytecode (w : W) (a : A) s :
  context_ok ctx -> bytes_ok bytecode -> state_ok w ->
  star step_to (interpreter_new ctx bytecode w a) s ->
  (Stack.len (stack s) <= Stack.MAX_STACK_SIZE)%nat
  /\ Forall (in_width 256) (Stack.data (stack s))
  /\ Memory.len (memory s) <= Memory.MAX_MEMORY_SIZE /\ (32 | Memory.len (memory s))
  /\ Forall (in_width 8) (Memory.data (memory s))
  /\ 0 <= gas_remaining s <= ctx_gas_limit ctx
  /\ instr_from bytecode 0 (pc s)
  /\ (forall dest, dest ∈ jump_dests s <->
        instr_from bytecode 0 dest /\ code_at bytecode dest = Some 0x5b).
Proof.
  intros Hc Hb Hw Hstar.
  assert (Hinv : loop_inv bytecode s /\ context s = ctx).
  { revert Hstar. apply (star_invariant step_to
      (fun s => loop_inv bytecode s /\ context s = ctx)).
    - intros s1 s2 [H1 Hctx] Hst. split; [by eapply step_keeps_inv|].
      destruct H1 as (Hs & _). destruct Hst as (_ & Hpc & Hstep).
      destruct (fetch s1 Hs Hpc) as [byte Hby].
      destruct (execute_step_spec keccak s1 byte Hs Hpc Hby) as [(_ & He & _) _].
      rewrite Hstep in He. cbn [fst] in He. by rewrite (ev_context _ _ He).
    - split; [|done]. split; [by apply interpreter_new_wf|]. repeat split. constructor. }
  destruct Hinv as ((Hs & _ & Hj & Hi) & <-).
  destruct (wf_stack _ Hs), (wf_memory _ Hs) as (? & ? & ?).
  split_and!; try done; try apply (wf_gas _ Hs). intros dest. rewrite Hj.
  apply analyze_jump_dests_spec.
Qed.

(** C16 (safety): in a static context an execution changes nothing: however it ends,
    the state behind the port is the one it started from, no log is emitted and no
    change is recorded. *)
Theorem static_execution_pure ctx bytecode (w : W) (a : A) fuel s r :
  context_ok ctx -> bytes_ok bytecode -> state_ok w -> ctx_is_static ctx = true ->
  execute keccak fuel (interpreter_new ctx bytecode w a) = Some (s, r) ->
  state s = w /\ logs s = [] /\ state_changes s = [] /\
  forall res, r = Ok res -> Invariants.check_static_purity_invariant ctx res = true
                          /\ er_logs res = [].
Proof.
  intros Hc Hb Hw Hst Hex. pose proof (interpreter_new_wf ctx bytecode w a Hc Hb Hw) as Hwf.
  destruct (execute_inv _ _ _ _ Hex) as (r' & Hl & Hr).
  destruct (loop_spec _ _ _ _ Hwf Hl) as (_ & He & _).
  destruct (ev_static _ _ He) as (H1 & H2 & H3); [done|]. cbn in H1, H2, H3.
  split_and!; [done..|]. intros res ->. destruct r' as [[]|e|]; simplify_eq.
  unfold Invariants.check_static_purity_invariant. rewrite Hst. simpl.
  rewrite H2, H3. by destruct (reverted s).
Qed.

(** When an execution succeeds, the recorded state changes are
    exactly what happened to the state: applying them in order to the state it
    started from gives the state it ended in, and the result says it succeeded. *)
Theorem changes_explain_state ctx bytecode (w : W) (a : A) fuel s res :
  context_ok ctx -> bytes_ok bytecode -> state_ok w ->
  execute keccak fuel (interpreter_new ctx bytecode w a) = Some (s, Ok res) ->
  state s = foldl apply_change w (er_state_changes res) /\ er_success res = true.
Proof.
  intros Hc Hb Hw Hex. pose proof (interpreter_new_wf ctx bytecode w a Hc Hb Hw) as Hwf.
  destruct (execute_inv _ _ _ _ Hex) as (r' & Hl & Hr).
  destruct r' as [[]|e|]; simplify_eq.
  destruct (loop_spec _ _ _ _ Hwf Hl) as (_ & _ & Hx).
  destruct (Hx eq_refl) as [Hrev (l & Hlc & Hls)]. cbn in Hrev, Hlc, Hls.
  unfold execution_result. cbn [er_state_changes er_success]. by rewrite Hrev, Hlc.
Qed.

End props.

(** ** Memory *)

Lemma expand_succeeds size m : size <= Memory.MAX_MEMORY_SIZE ->
  exists m' r, Memory.expand size m = (m', Ok r).
Proof.
  intros Hs. unfold Memory.expand. case_match; [eauto|]. case_match; bools; [lia|eauto].
Qed.

(** Copying within memory, through overlapping ranges too, puts
    the old bytes of the source range at the destination and leaves every other
    byte as it was, and succeeds whenever both ranges are within 16 MiB. *)
Theorem memory_copy_moves dest src size m :
  memory_ok m -> 0 <= dest -> 0 <= src -> 0 < size ->
  Z.max dest src + size <= Memory.MAX_MEMORY_SIZE ->
  exists m' r, Memory.copy dest src size m = (m', Ok r) /\
    forall j, cell m' j = if bool_decide (dest <= Z.of_nat j < dest + size)
                          then cell m (Z.to_nat src + (j - Z.to_nat dest))%nat
                          else cell m j.
Proof.
  intros Hm Hd Hs Hsize Hmax. unfold Memory.copy. destruct (Z.eqb_spec size 0); [lia|].
  unfold Memory.MAX_MEMORY_SIZE in Hmax. rewrite !wrapping_add_small by lia.
  destruct (expand_succeeds (Z.max dest src + size) m) as (m1 & r & E); [done|]. rewrite E.
  destruct (expand_data (Z.max dest src + size) m m1 r ltac:(lia) Hm E) as (_ & Hlen & _).
  assert (Hc : forall j, cell m1 j = cell m j).
  { intros j. pose proof (expand_cell (Z.max dest src + size) m j) as H. by rewrite E in H. }
  cbn [sbind]. unfold Memory.len in Hlen.
  assert (Hd' : exists d, (if (src <? dest) && (dest <? src + size)
      then Memory.copy_backwards (Z.to_nat dest) (Z.to_nat src) (Z.to_nat size) (Memory.data m1)
      else Memory.copy_within (Z.to_nat src) (Z.to_nat size) (Z.to_nat dest) (Memory.data m1))
      = Some d /\ forall j, d !! j =
        if bool_decide (Z.to_nat dest <= j < Z.to_nat dest + Z.to_nat size)%nat
        then Memory.data m1 !! (Z.to_nat src + (j - Z.to_nat dest))%nat
        else Memory.data m1 !! j).
  { case_match eqn:Eo; bools.
    - destruct (copy_backwards_spec (Z.to_nat dest) (Z.to_nat src) (Z.to_nat size)
        (Memory.data m1)) as (d & -> & _ & ?); [lia..|eauto].
    - destruct (copy_within_spec (Z.to_nat src) (Z.to_nat size) (Z.to_nat dest)
        (Memory.data m1)) as (d & -> & _ & ?); [lia..|eauto]. }
  destruct Hd' as (d & -> & Hj). eexists _, _. split; [done|]. intros j.
  rewrite <-!Hc. unfold cell. cbn [Memory.data]. rewrite Hj.
  repeat case_bool_decide; done || lia.
Qed.

Lemma memory_copy_moves_witness : exists m' r,
  Memory.copy 2 0 4 {| Memory.data := [1; 2; 3; 4; 5] ++ replicate 27 0 |} = (m', Ok r)
  /\ cell m' 4%nat = 3.
Proof.
  destruct (memory_copy_moves 2 0 4 {| Memory.data := [1; 2; 3; 4; 5] ++ replicate 27 0 |})
    as (m' & r & E & Hc); try done.
  - split; [done|]. split; [by exists 1|]. apply (bool_decide_unpack _). vm_compute. exact I.
  - exists m', r. split; [exact E|]. by rewrite Hc.
Defined.

(** The signed instructions that are implemented are exact: [SLT]
    and [SGT] compare, [SAR] shifts arithmetically by any amount, and [SIGNEXTEND]
    extends from every byte below the last, all on the two's complement reading. *)
Theorem signed_instructions_exact {WO : WordOps} {HW : WordLaws WO} a b k :
  in_width 256 a -> in_width 256 b -> 0 <= k < 31 ->
  slt a b = (signed 256 a <? signed 256 b)
  /\ sgt a b = (signed 256 b <? signed 256 a)
  /\ sar a b = Some (Z.shiftr (signed 256 a) b mod 2 ^ 256)
  /\ sign_extend k a = Some (signed (8 * (k + 1)) (a mod 2 ^ (8 * (k + 1))) mod 2 ^ 256).
Proof.
  intros Ha Hb Hk. unfold sgt. rewrite !slt_spec, sar_spec, sign_extend_spec by done. done.
Qed.


Lemma signed_instructions_exact_witness :
  @sar exact_words (2 ^ 256 - 8) 2 = Some (2 ^ 256 - 2)
  /\ @sign_extend exact_words 0 0xff = Some (2 ^ 256 - 1).
Proof.
  destruct (@signed_instructions_exact exact_words exact_words_laws (2 ^ 256 - 8) 2 0)
    as (_ & _ & Hs & _); [unfold in_width; lia..|].
  destruct (@signed_instructions_exact exact_words exact_words_laws 0xff 2 0)
    as (_ & _ & _ & He); [unfold in_width; lia..|].
  split; [rewrite Hs; vm_compute; reflexivity|rewrite He; vm_compute; reflexivity].
Defined.

(** ** Examples for the claims, and what failing executions do *)

(** Hashing plays no part in the examples. *)
Definition no_hash (_ : list u8) : Hash := 0.

Definition example_context (static : bool) : ExecutionContext := {|
  ctx_origin := 7; ctx_caller := 7; ctx_address := 9; ctx_value := 0; ctx_data := [];
  ctx_gas_limit := 100000; ctx_gas_price := 1; ctx_block := BlockContext_default;
  ctx_depth := 0; ctx_is_static := static
|}.

(** [storage[1] = 5; return]. *)
Definition store_code : list u8 := [0x60; 5; 0x60; 1; 0x55; 0x00].

(** [storage[1] = 5; revert("")]. *)
Definition store_revert_code : list u8 := [0x60; 5; 0x60; 1; 0x55; 0x5f; 0x5f; 0xfd].

Lemma example_context_ok static : context_ok (example_context static).
Proof. by repeat split. Qed.

Lemma example_code_ok : bytes_ok store_code /\ bytes_ok store_revert_code.
Proof.
  split; (split; [|done]); apply (bool_decide_unpack _); vm_compute; exact I.
Qed.

Lemma empty_state_ok : state_ok memory_state_new.
Proof. by intros ? ? ?. Qed.

Local Abbreviation run_example static bytecode :=
  (@execute _ _ exact_words _ _ no_hash 20
    (interpreter_new (example_context static) bytecode memory_state_new access_list_new)).

Lemma execution_terminates_witness : exists s r,
  @execute _ _ exact_words _ _ no_hash (S (Z.to_nat 100000))
    (interpreter_new (example_context false) store_code memory_state_new access_list_new)
    = Some (s, r).
Proof.
  destruct (execution_terminates (HW := exact_words_laws) no_hash (example_context false)
    store_code memory_state_new access_list_new (example_context_ok false)
    (proj1 example_code_ok) empty_state_ok) as (s & r & E & _).
  exists s, r. exact E.
Defined.

Lemma interpreter_invariant_witness :
  instr_from store_code 0 0.
Proof.
  destruct (interpreter_invariant (HW := exact_words_laws) no_hash (example_context false)
    store_code memory_state_new access_list_new
    (interpreter_new (example_context false) store_code memory_state_new access_list_new)
    (example_context_ok false) (proj1 example_code_ok) empty_state_ok
    (star_refl _ _)) as (_ & _ & _ & _ & _ & _ & Hi & _).
  exact Hi.
Defined.

Lemma store_runs_static : exists s, run_example true store_code = Some (s, Err WriteInStaticContext).
Proof. eexists. vm_compute. reflexivity. Qed.

Lemma store_runs : exists s res, run_example false store_code = Some (s, Ok res).
Proof. eexists _, _. vm_compute. reflexivity. Qed.

Lemma static_execution_pure_witness : exists s r,
  run_example true store_code = Some (s, r) /\ state s = memory_state_new.
Proof.
  destruct store_runs_static as [s E]. exists s, (Err WriteInStaticContext).
  split; [exact E|].
  exact (proj1 (static_execution_pure (HW := exact_words_laws) no_hash (example_context true)
    store_code memory_state_new access_list_new 20 s _ (example_context_ok true)
    (proj1 example_code_ok) empty_state_ok eq_refl E)).
Defined.

Lemma changes_explain_state_witness : exists s res,
  run_example false store_code = Some (s, Ok res)
  /\ state s = foldl apply_change memory_state_new (er_state_changes res).
Proof.
  destruct store_runs as (s & res & E). exists s, res. split; [exact E|].
  exact (proj1 (changes_explain_state (HW := exact_words_laws) no_hash (example_context false)
    store_code memory_state_new access_list_new 20 s res (example_context_ok false)
    (proj1 example_code_ok) empty_state_ok E)).
Defined.

(** The request to call the contract at address 9. *)
Definition example_payload : TransactionPayload := {|
  tp_from := 7; tp_to := Some 9; tp_value := 0; tp_nonce := 0; tp_gas_price := 1;
  tp_gas_limit := 100000; tp_data := []; tp_tx_hash := 0;
  tp_block_context := BlockContext_default
|}.

Definition example_service (bytecode : list u8) : Service InMemoryState InMemoryAccessList :=
  service_new (set_code no_hash 9 bytecode memory_state_new) access_list_new
    ServiceConfig_default.

Definition handle_example (sv : Service InMemoryState InMemoryAccessList) :=
  @handle_execute_transaction _ _ exact_words _ _ no_hash CONSENSUS example_payload 0 None sv.

(** A reverted transaction is not rolled back.  The contract writes to
    its storage and reverts; the response says failure, takes the whole gas limit and
    reports no state change, but the written value is in the state and the next
    transaction reads it, against INVARIANT-3 of the crate. *)
Theorem reverted_write_persists :
  let (sv, r) := handle_example (example_service store_revert_code) in
  match r with
  | Ok response => rp_success response = false /\ rp_gas_used response = 100000
                   /\ rp_state_changes response = []
                   /\ get_storage 9 1 (sv_state sv) = Ok 5
  | _ => False
  end.
Proof. by vm_compute. Qed.

(** The same transaction costs 2000 gas less the second time: the service never
    clears the access list, so slots stay warm across transactions. *)
Theorem warm_across_transactions :
  let (sv, r1) := handle_example (example_service store_code) in
  let (_, r2) := handle_example sv in
  match r1, r2 with
  | Ok a, Ok b => rp_success a = true /\ rp_success b = true
                  /\ rp_gas_used a = rp_gas_used b + 2000
  | _, _ => False
  end.
Proof. by vm_compute. Qed.

(** [SDIV] and [SMOD] divide the unsigned words: [-4 / 2] is not [-2]. *)
Theorem sdiv_is_unsigned :
  @sdiv exact_words (2 ^ 256 - 4) 2 = Some (2 ^ 255 - 2) /\ signed 256 (2 ^ 255 - 2) <> -2.
Proof. split; [by vm_compute|]. vm_compute. discriminate. Qed.

(** [ADDMOD], [MULMOD] and [SIGNEXTEND] panic where the result is defined: when the
    sum or product exceeds a word, and for the last byte. *)
Theorem word_instructions_panic {WO : WordOps} {HW : WordLaws WO} :
  addmod (2 ^ 256 - 1) 1 7 = None /\ mulmod (2 ^ 255) 2 7 = None /\
  forall x, in_width 256 x -> sign_extend 31 x = None.
Proof.
  unfold addmod, mulmod. rewrite w_add_spec, w_mul_spec by (unfold in_width; lia).
  split_and!; [by vm_compute|by vm_compute|apply sign_extend_31].
Qed.

(** Growing the memory is free except for [KECCAK256]: a program that makes the
    memory 64 KiB large, which the cost function of [memory.rs] prices at 14336 gas,
    pays for its three opcodes only. *)
Theorem memory_growth_is_free :
  match run_example false [0x60; 1; 0x61; 0xff; 0xe0; 0x52] with
  | Some (s, Ok res) => Memory.len (memory s) = 65536 /\ er_gas_used res = 9
  | _ => False
  end /\ Memory.memory_expansion_cost 0 2048 = 14336.
Proof. by vm_compute. Qed.

(** ** Modular exponentiation *)

Lemma mod_exp_loop_spec fuel : forall result base exp m, 1 < m -> 0 <= exp < 2 ^ Z.of_nat fuel ->
  Precompiles.mod_exp_loop fuel result base exp m
    = if exp =? 0 then result else (result * base ^ exp) mod m.
Proof.
  induction fuel as [|fuel IH]; intros result base exp m Hm He; cbn [Precompiles.mod_exp_loop].
  { destruct (Z.eqb_spec exp 0); [done|]. change (2 ^ Z.of_nat 0) with 1 in He. lia. }
  destruct (Z.eqb_spec exp 0) as [|Hne]; [done|].
  rewrite Nat2Z.inj_succ, Z.pow_succ_r in He by lia.
  rewrite IH; [|done|split; [apply Z.div_pos; lia|apply Z.div_lt_upper_bound; lia]].
  unfold Precompiles.mulmod. destruct (Z.eqb_spec m 0); [lia|].
  rewrite Z.bit0_odd. pose proof (Zdiv2_odd_eqn exp) as Heq.
  rewrite Z.div2_div in Heq. set (h := exp / 2) in *.
  assert (Hh : 0 <= h) by (apply Z.div_pos; lia).
  assert (Hpow : base ^ exp = (base * base) ^ h * (if Z.odd exp then base else 1)).
  { rewrite Heq at 1. rewrite Z.pow_add_r by (destruct (Z.odd exp); lia).
    rewrite Z.pow_mul_r, Z.pow_2_r by lia.
    destruct (Z.odd exp); by rewrite ?Z.pow_1_r, ?Z.pow_0_r. }
  rewrite Hpow. destruct (Z.eqb_spec h 0) as [Hh0|].
  - rewrite Hh0 in *. destruct (Z.odd exp); [|lia]. rewrite Z.pow_0_r. f_equal. lia.
  - assert (Hmod : forall r, (r * ((base * base) mod m) ^ h) mod m
                             = (r * (base * base) ^ h) mod m).
    { intros r. rewrite <-Z.mul_mod_idemp_r, Z.mod_pow_l, Z.mul_mod_idemp_r by lia. done. }
    rewrite Hmod. destruct (Z.odd exp).
    + rewrite Z.mul_mod_idemp_l by lia. f_equal. lia.
    + f_equal. lia.
Qed.

(** The precompile for modular exponentiation computes the power for operands of at
    most 32 bytes, a positive exponent and a modulus above one, in as many bytes as
    the modulus was given with.  For longer operands it returns zeros. *)
Theorem mod_exp_correct base exp modulus :
  Forall (in_width 8) base -> Forall (in_width 8) exp -> Forall (in_width 8) modulus ->
  (length base <= 32)%nat -> (length exp <= 32)%nat -> (length modulus <= 32)%nat ->
  0 < from_be_bytes exp -> 1 < from_be_bytes modulus ->
  from_be_bytes (Precompiles.mod_exp base exp modulus 32)
    = from_be_bytes base ^ from_be_bytes exp mod from_be_bytes modulus.
Proof.
  intros Hb He Hm Lb Le Lm Hexp Hmod. unfold Precompiles.mod_exp.
  destruct (Nat.leb_spec (length base) 32), (Nat.leb_spec (length exp) 32),
    (Nat.leb_spec (length modulus) 32); try lia. cbn [andb].
  destruct (Z.eqb_spec (from_be_bytes modulus) 0); [lia|].
  pose proof (word_of_bytes exp He Le) as We. pose proof (word_of_bytes modulus Hm Lm) as Wm.
  rewrite mod_exp_loop_spec by (try done; apply We).
  destruct (Z.eqb_spec (from_be_bytes exp) 0); [lia|]. simpl replicate. simpl app.
  change (32 - Nat.min 32 32)%nat with 0%nat. rewrite drop_0.
  rewrite Z.mul_1_l, Z.mod_pow_l. apply from_be_bytes_to.
  change (256 ^ Z.of_nat 32) with (2 ^ 256). destruct Wm.
  pose proof (Z.mod_pos_bound (from_be_bytes base ^ from_be_bytes exp)
    (from_be_bytes modulus)). lia.
Qed.
