(* ===== verification/Messages.v ===== *)
(** * Messages between subsystems

    The envelope ([shared-types/src/envelope.rs]), its verification
    ([shared-types/src/security.rs]), and the event bus' replay cache and filters
    ([shared-bus/src/nonce_cache.rs], [shared-bus/src/events.rs]).

    The clocks are arguments: [now] is the wall clock in seconds and [instant] the
    monotonic clock, in seconds too.  A UUID is its 128-bit number.  HMAC-SHA256 and
    the payloads are parameters; topics of replies are left out. *)

From stdpp Require Import strings.
From S2P Require Import Prelude.

Local Open Scope Z_scope.
Local Open Scope qc_scope.

Abbreviation Uuid := Z (only parsing).

(** ** The envelope *)

Record AuthenticatedMessage := {
  am_version : Z;
  am_sender_id : u8;
  am_recipient_id : u8;
  am_correlation_id : Uuid;
  am_reply_to : option u8;  (** [reply_to.subsystem_id] *)
  am_timestamp : u64;
  am_nonce : Uuid;
  am_signature : list u8
}.

Definition CURRENT_VERSION : Z := 1.

Inductive VerificationResult :=
| Valid
| UnsupportedVersion (received supported : Z)
| TimestampOutOfRange (timestamp now : u64)
| ReplayDetected (nonce : Uuid)
| InvalidSignature
| ReplyToMismatch (reply_to_subsystem sender_id : u8).

Definition is_valid (r : VerificationResult) : bool :=
  match r with Valid => true | _ => false end.

(** ** [security.rs] *)

Definition MAX_FUTURE_SKEW : u64 := 10.
Definition MAX_AGE : u64 := 60.
Definition NONCE_CACHE_TTL : Z := 120.
Definition MAX_NONCE_CACHE_SIZE : nat := Z.to_nat 100000.

(** [NonceCache]: when each nonce expires. *)
Abbreviation NonceCache := (gmap Uuid Z).

Definition check_and_insert (instant : Z) (nonce : Uuid) (cache : NonceCache)
  : NonceCache * bool :=
  let expiry := instant + NONCE_CACHE_TTL in
  let cache := if (MAX_NONCE_CACHE_SIZE <=? size cache)%nat
               then filter (fun e => instant < e.2) cache else cache in
  match cache !! nonce with
  | Some exp => if instant <? exp then (cache, false) else (<[nonce := expiry]> cache, true)
  | None => (<[nonce := expiry]> cache, true)
  end.

(** The error, if there is one. *)
Definition validate_timestamp (now timestamp : u64) : option VerificationResult :=
  if wrapping_add 64 timestamp MAX_AGE <? now then Some (TimestampOutOfRange timestamp now)
  else if wrapping_add 64 now MAX_FUTURE_SKEW <? timestamp then
    Some (TimestampOutOfRange timestamp now)
  else None.

Section verifier.
(** HMAC-SHA256 of a message under a key. *)
Context (hmac : list u8 -> list u8 -> Hash).

Definition validate_hmac_signature (message_bytes signature shared_secret : list u8) : bool :=
  bool_decide (take 32 signature = hash_bytes (hmac shared_secret message_bytes)).

Definition sign_message (message_bytes shared_secret : list u8) : list u8 :=
  hash_bytes (hmac shared_secret message_bytes) ++ replicate 32 0.

(** [DerivedKeyProvider]. *)
Definition derive_key (master_secret : list u8) (subsystem_id : u8) : list u8 :=
  hash_bytes (hmac master_secret [subsystem_id]).

Definition get_shared_secret (master_secret : list u8) (sender_id : u8) : option (list u8) :=
  Some (derive_key master_secret sender_id).

Context (key_provider : u8 -> option (list u8)).

Definition verify (now : u64) (instant : Z) (message : AuthenticatedMessage)
  (message_bytes : list u8) (cache : NonceCache) : NonceCache * VerificationResult :=
  if negb (am_version message =? CURRENT_VERSION) then
    (cache, UnsupportedVersion (am_version message) CURRENT_VERSION)
  else
    match validate_timestamp now (am_timestamp message) with
    | Some e => (cache, e)
    | None =>
        let (cache, fresh) := check_and_insert instant (am_nonce message) cache in
        if negb fresh then (cache, ReplayDetected (am_nonce message))
        else
          match key_provider (am_sender_id message) with
          | None => (cache, InvalidSignature)
          | Some shared_secret =>
              if negb (validate_hmac_signature message_bytes (am_signature message)
                         shared_secret) then (cache, InvalidSignature)
              else
                match am_reply_to message with
                | Some subsystem_id =>
                    if negb (subsystem_id =? am_sender_id message) then
                      (cache, ReplyToMismatch subsystem_id (am_sender_id message))
                    else (cache, Valid)
                | None => (cache, Valid)
                end
          end
    end.

End verifier.

(** [AuthorizationMatrix]: the rules inserted by [new], all of them positive. *)
Definition auth_rules : list (u8 * u8 * string) :=
  [(8, 2, "BlockValidated"); (3, 2, "MerkleRootComputed"); (4, 2, "StateRootComputed");
   (9, 2, "MarkFinalized"); (8, 3, "BlockValidated"); (2, 3, "BlockStored");
   (8, 4, "BlockValidated"); (11, 4, "ContractExecuted"); (1, 6, "PeerTransaction");
   (2, 6, "BlockStorageConfirmation"); (10, 6, "SignatureVerified");
   (6, 8, "TransactionBatch"); (9, 8, "FinalityVote"); (8, 9, "BlockProposed");
   (2, 9, "BlockStored"); (6, 10, "VerifyTransaction"); (1, 10, "VerifyPeerSignature");
   (8, 1, "RequestPeers"); (5, 1, "PropagationStatus")]%string.

Definition is_authorized (sender_id recipient_id : u8) (message_type : string) : bool :=
  bool_decide ((sender_id, recipient_id, message_type) ∈ auth_rules).

(** ** The bus' replay cache *)
Module Bus.

Inductive NonceError :=
| NonceReused (nonce : Uuid)
| MessageTooOld (timestamp threshold : u64)
| MessageFromFuture (timestamp threshold : u64).

Record TimeBoundedNonceCache := {
  cache : gmap Uuid u64;
  validity_window_secs : u64;
  last_gc : u64;
  gc_interval_secs : u64
}.

Definition with_config (now validity_window gc_interval : u64) : TimeBoundedNonceCache := {|
  cache := ∅; validity_window_secs := validity_window; last_gc := now;
  gc_interval_secs := gc_interval
|}.

Definition new (now : u64) : TimeBoundedNonceCache := with_config now 120 10.

Definition garbage_collect (now : u64) (c : TimeBoundedNonceCache) : TimeBoundedNonceCache :=
  let expiry_threshold := saturating_sub now (validity_window_secs c) in
  {| cache := filter (fun e => expiry_threshold < e.2) (cache c);
     validity_window_secs := validity_window_secs c; last_gc := last_gc c;
     gc_interval_secs := gc_interval_secs c |}.

Definition validate_and_add (now : u64) (nonce : Uuid) (timestamp : u64)
  (c : TimeBoundedNonceCache) : TimeBoundedNonceCache * result NonceError unit :=
  let min_valid_timestamp := saturating_sub now 60 in
  let max_valid_timestamp := saturating_add 64 now 10 in
  if timestamp <? min_valid_timestamp then (c, Err (MessageTooOld timestamp min_valid_timestamp))
  else if max_valid_timestamp <? timestamp then
    (c, Err (MessageFromFuture timestamp max_valid_timestamp))
  else
    let c :=
      if gc_interval_secs c <? saturating_sub now (last_gc c) then
        let c := garbage_collect now c in
        {| cache := cache c; validity_window_secs := validity_window_secs c;
           last_gc := now; gc_interval_secs := gc_interval_secs c |}
      else c in
    if bool_decide (is_Some (cache c !! nonce)) then (c, Err (NonceReused nonce))
    else ({| cache := <[nonce := timestamp]> (cache c);
             validity_window_secs := validity_window_secs c; last_gc := last_gc c;
             gc_interval_secs := gc_interval_secs c |}, Ok tt).

Definition contains (nonce : Uuid) (c : TimeBoundedNonceCache) : bool :=
  bool_decide (is_Some (cache c !! nonce)).

(** ** Events; of an event, what its topic and its source depend on *)
Inductive BlockchainEvent :=
| PeerDiscovered
| PeerDisconnected
| VerifyNodeIdentity
| NodeIdentityVerified
| BlockProduced
| BlockValidated
| BlockRejected
| MerkleRootComputed
| StateRootComputed
| BlockStored
| GenesisInitialized
| TransactionVerified
| TransactionInvalid
| BlockFinalized
| CriticalError (subsystem_id : u8)
| ApiQuery
| ApiQueryResponse (source : u8).

Inductive EventTopic :=
| PeerDiscovery | BlockStorage | TransactionIndexing | StateManagement | BlockPropagation
| Mempool | BlockProduction | Consensus | Finality | SignatureVerification | ApiGateway
| DeadLetterQueue | All.

#[global] Instance topic_eq_dec : EqDecision EventTopic.
Proof. solve_decision. Defined.

Definition topic (e : BlockchainEvent) : EventTopic :=
  match e with
  | PeerDiscovered | PeerDisconnected | VerifyNodeIdentity | NodeIdentityVerified =>
      PeerDiscovery
  | BlockProduced => BlockProduction
  | BlockValidated | BlockRejected => Consensus
  | MerkleRootComputed => TransactionIndexing
  | StateRootComputed => StateManagement
  | BlockStored | GenesisInitialized => BlockStorage
  | TransactionVerified | TransactionInvalid => SignatureVerification
  | BlockFinalized => Finality
  | CriticalError _ => DeadLetterQueue
  | ApiQuery | ApiQueryResponse _ => ApiGateway
  end.

Definition source_subsystem (e : BlockchainEvent) : u8 :=
  match e with
  | PeerDiscovered | PeerDisconnected | VerifyNodeIdentity => 1
  | NodeIdentityVerified => 10
  | BlockStored | GenesisInitialized => 2
  | MerkleRootComputed => 3
  | StateRootComputed => 4
  | BlockProduced => 17
  | BlockValidated | BlockRejected => 8
  | BlockFinalized => 9
  | TransactionVerified | TransactionInvalid => 10
  | CriticalError subsystem_id => subsystem_id
  | ApiQuery => 16
  | ApiQueryResponse source => source
  end.

Record EventFilter := { ef_topics : list EventTopic; ef_source_subsystems : list u8 }.

Definition all : EventFilter := {| ef_topics := []; ef_source_subsystems := [] |}.
Definition topics (l : list EventTopic) : EventFilter :=
  {| ef_topics := l; ef_source_subsystems := [] |}.
Definition from_subsystems (l : list u8) : EventFilter :=
  {| ef_topics := []; ef_source_subsystems := l |}.

Definition matches (f : EventFilter) (e : BlockchainEvent) : bool :=
  let topic_match := bool_decide (ef_topics f = []) || bool_decide (All ∈ ef_topics f)
                     || bool_decide (topic e ∈ ef_topics f) in
  let source_match := bool_decide (ef_source_subsystems f = [])
                      || bool_decide (source_subsystem e ∈ ef_source_subsystems f) in
  topic_match && source_match.

End Bus.

(** * Theorems *)

(** ** The bus *)

Lemma gc_keeps now c n ts : 0 < ts -> now - Bus.validity_window_secs c < ts ->
  Bus.cache c !! n = Some ts -> Bus.cache (Bus.garbage_collect now c) !! n = Some ts.
Proof.
  intros H0 Hlt Hn. cbn [Bus.garbage_collect Bus.cache]. apply map_lookup_filter_Some.
  split; [done|]. unfold saturating_sub. simpl. lia.
Qed.

(** While a timestamp is not older than the validity window, its nonce stays. *)
Lemma add_keeps now nonce timestamp c n ts :
  0 < ts -> now - Bus.validity_window_secs c < ts -> Bus.cache c !! n = Some ts ->
  let c' := (Bus.validate_and_add now nonce timestamp c).1 in
  Bus.cache c' !! n = Some ts /\ Bus.validity_window_secs c' = Bus.validity_window_secs c.
Proof.
  intros H0 Hlt Hn. unfold Bus.validate_and_add. do 2 (case_match; [done|]).
  set (c1 := if _ : bool then _ else c).
  assert (Hc : Bus.cache c1 !! n = Some ts
    /\ Bus.validity_window_secs c1 = Bus.validity_window_secs c).
  { subst c1. case_match; [|done]. split; [by apply gc_keeps|done]. }
  clearbody c1. destruct Hc as [Hc1 Hc2]. case_bool_decide as Hin; [done|]. cbn [fst Bus.cache].
  rewrite lookup_insert_ne; [done|]. intros ->. apply Hin. eauto.
Qed.

(** A call of the cache: the time it is made, the nonce and the timestamp. *)
Definition bus_call (c : Bus.TimeBoundedNonceCache) (x : Z * Uuid * Z) :=
  (Bus.validate_and_add x.1.1 x.1.2 x.2 c).1.

Lemma calls_keep calls : forall c n ts, 0 < ts ->
  Forall (fun x => x.1.1 - Bus.validity_window_secs c < ts) calls ->
  Bus.cache c !! n = Some ts ->
  let c' := foldl bus_call c calls in
  Bus.cache c' !! n = Some ts /\ Bus.validity_window_secs c' = Bus.validity_window_secs c.
Proof.
  induction calls as [|[[now nonce] t] calls IH]; intros c n ts H0 Hall Hn; [done|].
  inversion_clear Hall as [|? ? Hx Hall']. simpl in Hx.
  destruct (add_keeps now nonce t c n ts H0 Hx Hn) as [H1 H2].
  destruct (IH (bus_call c (now, nonce, t)) n ts) as [H3 H4]; [done| |done|].
  - unfold bus_call. cbn [fst snd]. by rewrite H2.
  - split; [done|]. simpl in *. by rewrite H4.
Qed.

(** The event bus never accepts a message twice.  After the cache
    accepted a nonce with a timestamp, whatever calls follow on a clock that does not
    run backwards, the same nonce and timestamp are refused: as a replay while the
    nonce is remembered, as too old afterwards. *)
Theorem bus_refuses_replay c n ts t1 c1 calls t2 :
  60 < Bus.validity_window_secs c -> 0 < ts ->
  Bus.validate_and_add t1 n ts c = (c1, Ok tt) ->
  t1 <= t2 -> Forall (fun x => x.1.1 <= t2) calls ->
  (Bus.validate_and_add t2 n ts (foldl bus_call c1 calls)).2 <> Ok tt.
Proof.
  intros Hv H0 H1 Ht Hall Hok.
  assert (Hold : t2 - 60 <= ts).
  { unfold Bus.validate_and_add in Hok. case_match eqn:E; [done|]. bools.
    unfold saturating_sub in E. lia. }
  assert (Hc1 : Bus.cache c1 !! n = Some ts
    /\ Bus.validity_window_secs c1 = Bus.validity_window_secs c).
  { unfold Bus.validate_and_add in H1. do 2 (case_match; [done|]).
    case_bool_decide; [done|]. injection H1 as <-. cbn [Bus.cache Bus.validity_window_secs].
    split; [by rewrite lookup_insert_eq|]. by case_match. }
  destruct Hc1 as [Hc1 Hv1].
  destruct (calls_keep calls c1 n ts H0) as [H2 H3]; [|done|].
  { eapply Forall_impl; [exact Hall|]. intros x Hx. simpl in *. lia. }
  unfold Bus.validate_and_add in Hok. do 2 (case_match; [done|]).
  set (c2 := foldl bus_call c1 calls) in *. set (c3 := if _ : bool then _ else c2) in Hok.
  assert (Hc3 : Bus.cache c3 !! n = Some ts).
  { subst c3. destruct (Bus.gc_interval_secs c2 <? _); [|done].
    apply gc_keeps; [done|lia|done]. }
  rewrite bool_decide_true in Hok; [done|]. rewrite Hc3. eauto.
Qed.

Lemma bus_refuses_replay_witness :
  (Bus.validate_and_add 1050 7 1000
    (foldl bus_call (Bus.validate_and_add 1000 7 1000 (Bus.new 900)).1
       [(1020, 8, 1020); (1045, 9, 1040)])).2 <> Ok tt.
Proof.
  apply (bus_refuses_replay (Bus.new 900) 7 1000 1000 _ _ 1050); try done.
  by repeat constructor.
Defined.

(** ** The verifier *)

Lemma insert_keeps instant nonce (cache : NonceCache) n exp :
  instant < exp -> cache !! n = Some exp ->
  (check_and_insert instant nonce cache).1 !! n = Some exp.
Proof.
  intros Hlt Hn. unfold check_and_insert. set (c := if _ : bool then _ else cache).
  assert (Hc : c !! n = Some exp).
  { subst c. case_match; [|done]. by apply map_lookup_filter_Some. }
  clearbody c. destruct (decide (n = nonce)) as [->|Hne].
  - rewrite Hc. destruct (Z.ltb_spec instant exp); [done|lia].
  - repeat case_match; cbn [fst]; by rewrite ?lookup_insert_ne.
Qed.

Lemma fresh_inserts instant nonce (cache c : NonceCache) :
  check_and_insert instant nonce cache = (c, true) ->
  c !! nonce = Some (instant + NONCE_CACHE_TTL).
Proof.
  unfold check_and_insert. repeat case_match; intros; simplify_eq; by rewrite lookup_insert_eq.
Qed.

Lemma remembered_is_replay instant nonce (cache : NonceCache) exp :
  cache !! nonce = Some exp -> instant < exp ->
  (check_and_insert instant nonce cache).2 = false.
Proof.
  intros Hn Hlt. unfold check_and_insert. set (c := if _ : bool then _ else cache).
  assert (Hc : c !! nonce = Some exp).
  { subst c. case_match; [|done]. by apply map_lookup_filter_Some. }
  rewrite Hc. destruct (Z.ltb_spec instant exp); [done|lia].
Qed.

Lemma validate_timestamp_window now timestamp : in_width 63 now -> in_width 64 timestamp ->
  validate_timestamp now timestamp = None -> now - 60 <= timestamp <= now + 10.
Proof.
  intros [Hn1 Hn2] [Ht1 Ht2]. unfold validate_timestamp, MAX_AGE, MAX_FUTURE_SKEW.
  rewrite (wrapping_add_small 64 now 10) by lia. case_match eqn:E1; [done|].
  case_match eqn:E2; [done|]. intros _. bools.
  rewrite wrapping_add_small in E1 by lia. lia.
Qed.

Section verifier_props.
Context (hmac : list u8 -> list u8 -> Hash) (key_provider : u8 -> option (list u8)).
Local Abbreviation verify := (verify hmac key_provider).

(** Past the version and the time window, [verify] goes through the nonce cache. *)
Lemma verify_cases now instant m bytes cache :
  verify now instant m bytes cache = (cache, (verify now instant m bytes cache).2)
    /\ is_valid (verify now instant m bytes cache).2 = false
  \/ am_version m = CURRENT_VERSION /\ validate_timestamp now (am_timestamp m) = None
    /\ (verify now instant m bytes cache).1 = (check_and_insert instant (am_nonce m) cache).1
    /\ (is_valid (verify now instant m bytes cache).2 = true ->
         (check_and_insert instant (am_nonce m) cache).2 = true)
    /\ ((check_and_insert instant (am_nonce m) cache).2 = false ->
         (verify now instant m bytes cache).2 = ReplayDetected (am_nonce m)).
Proof.
  unfold Messages.verify. case_match eqn:Ev; [by left|].
  destruct (validate_timestamp now (am_timestamp m)) eqn:Et.
  { left. split; [done|]. unfold validate_timestamp in Et. by repeat case_match; simplify_eq. }
  right. bools. destruct (check_and_insert _ _ _) as [c [|]]; cbn [fst snd negb];
    (split_and!; [done|done|..]); repeat case_match; done.
Qed.

(** A verification: both clocks, the message and its bytes. *)
Definition verify_call (cache : NonceCache) (x : Z * Z * AuthenticatedMessage * list u8) :=
  (verify x.1.1.1 x.1.1.2 x.1.2 x.2 cache).1.

Lemma verify_keeps now instant m bytes (cache : NonceCache) n exp :
  instant < exp -> cache !! n = Some exp ->
  (verify now instant m bytes cache).1 !! n = Some exp.
Proof.
  intros Hlt Hn. destruct (verify_cases now instant m bytes cache) as [[-> _]|(_ & _ & -> & _)];
    [done|]. by apply insert_keeps.
Qed.

Lemma verifications_keep calls : forall (cache : NonceCache) n exp,
  Forall (fun x => x.1.1.2 < exp) calls -> cache !! n = Some exp ->
  foldl verify_call cache calls !! n = Some exp.
Proof.
  induction calls as [|x calls IH]; intros cache n exp Hall Hn; [done|].
  inversion_clear Hall. apply IH; [done|]. by apply verify_keeps.
Qed.

(** The shared verifier never accepts a message twice.  Whatever other
    messages are verified in between, a second verification of an accepted message is
    not valid, provided the wall clock and the monotonic clock drift apart by less than
    50 seconds in between. *)
Theorem verifier_refuses_replay now1 i1 m bytes (cache c1 : NonceCache) calls now2 i2 :
  in_width 63 now1 -> in_width 63 now2 -> in_width 64 (am_timestamp m) ->
  verify now1 i1 m bytes cache = (c1, Valid) ->
  Forall (fun x => x.1.1.2 <= i2) calls ->
  i2 - i1 < now2 - now1 + 50 ->
  is_valid (verify now2 i2 m bytes (foldl verify_call c1 calls)).2 = false.
Proof.
  intros Hn1 Hn2 Hts Hv Hall Hdrift.
  destruct (verify_cases now1 i1 m bytes cache) as [[_ Hbad]|(_ & Ht1 & Hc & Hf & _)];
    [by rewrite Hv in Hbad|].
  rewrite Hv in Hc, Hf. cbn [fst snd] in *. specialize (Hf eq_refl).
  destruct (check_and_insert i1 (am_nonce m) cache) as [c fresh] eqn:Hins.
  cbn [fst snd] in *. subst c fresh. apply fresh_inserts in Hins.
  destruct (verify_cases now2 i2 m bytes (foldl verify_call c1 calls))
    as [[_ Hbad]|(_ & Ht2 & _ & _ & Hr)]; [done|].
  apply validate_timestamp_window in Ht1; [|done..].
  apply validate_timestamp_window in Ht2; [|done..].
  assert (Hlt : i2 < i1 + NONCE_CACHE_TTL) by (unfold NONCE_CACHE_TTL; lia).
  rewrite Hr; [done|]. eapply remembered_is_replay; [|exact Hlt].
  apply verifications_keep; [|done]. eapply Forall_impl; [exact Hall|]. simpl. lia.
Qed.

(** A forged message takes the nonce of a genuine one.  The nonce is
    remembered before the signature is checked, so after a message with the same nonce
    and any signature, sent within the time window, the genuine message is refused as a
    replay for two minutes. *)
Theorem forged_message_burns_nonce now1 i1 forged bytes1 (cache : NonceCache) now2 i2 m bytes2 :
  am_version forged = CURRENT_VERSION -> am_version m = CURRENT_VERSION ->
  validate_timestamp now1 (am_timestamp forged) = None ->
  validate_timestamp now2 (am_timestamp m) = None ->
  am_nonce forged = am_nonce m -> cache !! am_nonce m = None ->
  i2 < i1 + NONCE_CACHE_TTL ->
  (verify now2 i2 m bytes2 (verify now1 i1 forged bytes1 cache).1).2
    = ReplayDetected (am_nonce m).
Proof.
  intros Hv1 Hv2 Ht1 Ht2 Hn Hfresh Hlt.
  assert (Hc : (verify now1 i1 forged bytes1 cache).1 !! am_nonce m
               = Some (i1 + NONCE_CACHE_TTL)).
  { unfold Messages.verify. rewrite Hv1, Ht1, Hn. cbn.
    destruct (check_and_insert i1 (am_nonce m) cache) as [c [|]] eqn:Hins.
    - apply fresh_inserts in Hins. repeat case_match; done.
    - exfalso. unfold check_and_insert in Hins. revert Hins.
      set (c' := if _ : bool then _ else cache).
      assert (Hc' : c' !! am_nonce m = None).
      { subst c'. case_match; [|done]. apply map_lookup_filter_None. by left. }
      by rewrite Hc'. }
  pose proof (remembered_is_replay i2 (am_nonce m) _ _ Hc Hlt) as Hr.
  unfold Messages.verify at 1. rewrite Hv2, Ht2. cbn.
  destruct (check_and_insert i2 _ _) as [c b]. simpl in Hr. by subst b.
Qed.

(** What [sign_message] produces is accepted. *)
Theorem signature_roundtrip bytes secret :
  validate_hmac_signature hmac bytes (sign_message hmac bytes secret) secret = true.
Proof.
  unfold validate_hmac_signature, sign_message. apply bool_decide_eq_true.
  rewrite take_app_le by (by rewrite length_be_bytes). apply firstn_all2.
  by rewrite length_be_bytes.
Qed.

(** The fifth of the documented checks, the authorization of the sender, is not made:
    the recipient of a message plays no part in its verification. *)
Theorem recipient_not_checked now instant m bytes cache recipient :
  verify now instant {| am_version := am_version m; am_sender_id := am_sender_id m;
      am_recipient_id := recipient; am_correlation_id := am_correlation_id m;
      am_reply_to := am_reply_to m; am_timestamp := am_timestamp m;
      am_nonce := am_nonce m; am_signature := am_signature m |} bytes cache
    = verify now instant m bytes cache.
Proof. done. Qed.

End verifier_props.

(** A message of subsystem 6, signed under a hash that is constantly zero. *)
Definition example_message (signature : list u8) : AuthenticatedMessage := {|
  am_version := 1; am_sender_id := 6; am_recipient_id := 8; am_correlation_id := 3;
  am_reply_to := Some 6; am_timestamp := 1000; am_nonce := 42; am_signature := signature
|}.

Definition zero_hmac (_ _ : list u8) : Hash := 0.
Definition empty_keys (_ : u8) : option (list u8) := Some [].

Lemma verifier_refuses_replay_witness :
  is_valid (verify zero_hmac empty_keys 1030 35 (example_message (replicate 64 0)) []
    (foldl (verify_call zero_hmac empty_keys)
       (verify zero_hmac empty_keys 1005 10 (example_message (replicate 64 0)) [] ∅).1 [])).2
    = false.
Proof.
  apply (verifier_refuses_replay zero_hmac empty_keys 1005 10 _ [] ∅ _ [] 1030 35);
    [unfold in_width; simpl; lia..| |constructor|lia].
  vm_compute. reflexivity.
Defined.

Lemma forged_message_burns_nonce_witness :
  (verify zero_hmac empty_keys 1001 20 (example_message (replicate 64 0)) []
     (verify zero_hmac empty_keys 1000 19 (example_message (replicate 64 1)) [] ∅).1).2
    = ReplayDetected 42.
Proof.
  apply (forged_message_burns_nonce zero_hmac empty_keys 1000 19
    (example_message (replicate 64 1)) [] ∅ 1001 20 (example_message (replicate 64 0)) []);
    done.
Defined.
