(* ===== verification/Production.v ===== *)
(** * Block production

    [qc-17-block-production]: transaction selection, nonce checks and proposer
    selection ([domain/services.rs]) and the checks of [domain/invariants.rs],
    [security.rs] and [utils/validation.rs].  Difficulty, the circuit breaker and
    mining are in [Difficulty], [Breaker] and [Mining].

    Hashes are parameters, clocks are arguments, and addresses in errors stand for
    their hexadecimal text.  The two iterations over a [HashMap] that a result
    depends on are parameters: the order of the senders when the first nonce error
    is reported, and which of several equally priced transactions the
    [BinaryHeap] returns first. *)

From S2P Require Import Prelude.

Local Open Scope Z_scope.
Local Open Scope qc_scope.

(** ** Errors and entities; texts are left out *)
Inductive BlockProductionError :=
| GasLimitExceeded (used limit : u64)
| NonceMismatch (address : Address) (expected actual : u64)
| InvalidSignature
| InternalError
| InvalidConfig
| UnauthorizedSender (sender_id : u8)
| RateLimitExceeded (subsystem_id : u8)
| GasPriceTooLow (gas_price min_gas_price : U256)
| GasLimitTooHigh (gas_limit max_gas_limit : u64)
| ZeroGasLimit
| BlockGasLimitExceeded (provided max : u64)
| GasUsedExceedsLimit (gas_used gas_limit : u64)
| InvalidTimestamp (provided diff_seconds : u64)
| InconsistentState
| InvalidStateRoot
| InvalidNonceOrdering (address : Address) (expected actual : u64).

Record TransactionCandidate := {
  tc_transaction : list u8;
  tc_from : Address;
  tc_nonce : u64;
  tc_gas_price : U256;
  tc_gas_limit : u64;
  tc_signature_valid : bool
}.

Record BlockHeader := {
  bh_parent_hash : Hash;
  bh_block_number : u64;
  bh_timestamp : u64;
  bh_beneficiary : Address;
  bh_gas_used : u64;
  bh_gas_limit : u64;
  bh_difficulty : U256;
  bh_state_root : option Hash
}.

Record BlockTemplate := {
  bt_header : BlockHeader;
  bt_transactions : list (list u8);
  bt_total_gas_used : u64;
  bt_total_fees : U256
}.

Record StateChange := {
  sc_address : Address;
  sc_storage_key : option Hash;
  sc_new_value : list u8
}.

Record SimulationResult := {
  sim_success : bool;
  sim_gas_used : u64;
  sim_state_changes : list StateChange
}.

Record AccountState := {
  as_nonce : u64;
  as_balance : U256;
  as_code_hash : option Hash
}.

Record StatePrefetchCache := {
  pc_parent_state_root : Hash;
  pc_accounts : gmap Address AccountState;
  pc_storage : gmap (Address * Hash) (list u8)
}.

Definition cache_new (parent_state_root : Hash) : StatePrefetchCache :=
  {| pc_parent_state_root := parent_state_root; pc_accounts := ∅; pc_storage := ∅ |}.

(** [simulate_transaction]: the mock that accepts payloads of even length. *)
Definition simulate_transaction (tx : list u8) : SimulationResult :=
  let success := (length tx mod 2 =? 0)%nat || bool_decide (tx = []) in
  {| sim_success := success; sim_gas_used := if success then 21000 else 0;
     sim_state_changes := [] |}.

Definition apply_state_change (cache : StatePrefetchCache) (change : StateChange)
  : StatePrefetchCache :=
  let account := default {| as_nonce := 0; as_balance := 0; as_code_hash := None |}
                   (pc_accounts cache !! sc_address change) in
  match sc_storage_key change with
  | None =>
      {| pc_parent_state_root := pc_parent_state_root cache;
         pc_accounts := <[sc_address change :=
           {| as_nonce := wrapping_add 64 (as_nonce account) 1;
              as_balance := as_balance account; as_code_hash := as_code_hash account |}]>
           (pc_accounts cache);
         pc_storage := pc_storage cache |}
  | Some key =>
      {| pc_parent_state_root := pc_parent_state_root cache;
         pc_accounts := <[sc_address change := account]> (pc_accounts cache);
         pc_storage := <[(sc_address change, key) := sc_new_value change]>
                         (pc_storage cache) |}
  end.

Definition apply_state_changes (changes : list StateChange) (cache : StatePrefetchCache)
  : StatePrefetchCache := foldl apply_state_change cache changes.

Definition get_nonce (address : Address) (cache : StatePrefetchCache) : u64 :=
  match pc_accounts cache !! address with Some acc => as_nonce acc | None => 0 end.

Definition get_balance (address : Address) (cache : StatePrefetchCache) : U256 :=
  match pc_accounts cache !! address with Some acc => as_balance acc | None => 0 end.

(** ** Transaction selection *)
Module Selector.

Record t := { gas_limit : u64; min_gas_price : U256; fair_ordering : bool }.

Definition nonce_le (a b : TransactionCandidate) : Prop := tc_nonce a <= tc_nonce b.

#[global] Instance nonce_le_dec a b : Decision (nonce_le a b).
Proof. unfold nonce_le. apply _. Defined.

(** Steps 1 and 2: the candidates at or above the price floor by sender, each
    sender's in the order of the nonces. *)
Definition group (self : t) (candidates : list TransactionCandidate)
  : gmap Address (list TransactionCandidate) :=
  foldl (fun m tx =>
      if tc_gas_price tx <? min_gas_price self then m
      else <[tc_from tx := default [] (m !! tc_from tx) ++ [tx]]> m)
    ∅ candidates.

Definition sender_txs (self : t) (candidates : list TransactionCandidate)
  : gmap Address (list TransactionCandidate) :=
  stable_sort nonce_le <$> group self candidates.

Record TxRef := { ref_from : Address; ref_idx : nat; ref_price : U256 }.

(** [BinaryHeap::pop]: takes out an element of the highest price. *)
Class Heap : Type := { heap_pop : list TxRef -> option (TxRef * list TxRef) }.

Class HeapLaws (H : Heap) : Prop := {
  heap_pop_nil : heap_pop [] = None;
  heap_pop_cons x l : is_Some (heap_pop (x :: l));
  heap_pop_perm l x l' : heap_pop l = Some (x, l') -> l ≡ₚ x :: l';
  heap_pop_max l x l' y : heap_pop l = Some (x, l') -> y ∈ l -> ref_price y <= ref_price x
}.

Section select.
Context `{Heap}.

(** Step 3: the first transaction of every sender. *)
Definition initial_refs (m : gmap Address (list TransactionCandidate)) : list TxRef :=
  omap (fun e : Address * list TransactionCandidate =>
    match e.2 with
    | [] => None
    | tx :: _ => Some {| ref_from := e.1; ref_idx := 0; ref_price := tc_gas_price tx |}
    end) (map_to_list m).

Record Selection := {
  pq : list TxRef;
  selected : list TransactionCandidate;
  total_gas : u64;
  cache : StatePrefetchCache
}.

(** The transaction of the same sender that follows an accepted one. *)
Definition next_ref (txs : list TransactionCandidate) (r : TxRef) (tx : TransactionCandidate)
  : list TxRef :=
  match txs !! S (ref_idx r) with
  | Some next_tx =>
      if tc_nonce next_tx =? wrapping_add 64 (tc_nonce tx) 1 then
        [{| ref_from := ref_from r; ref_idx := S (ref_idx r);
            ref_price := tc_gas_price next_tx |}]
      else []
  | None => []
  end.

(** Step 4: one round of [while let Some(tx_ref) = pq.pop()]; the indexing panics
    when a reference points nowhere. *)
Definition select_round (self : t) (m : gmap Address (list TransactionCandidate))
  (r : TxRef) (rest : list TxRef) (s : Selection) : option Selection :=
  txs ← m !! ref_from r;
  tx ← txs !! ref_idx r;
  if gas_limit self <? wrapping_add 64 (total_gas s) (tc_gas_limit tx) then
    Some {| pq := rest; selected := selected s; total_gas := total_gas s; cache := cache s |}
  else
    let sim_result := simulate_transaction (tc_transaction tx) in
    if sim_success sim_result
       && (wrapping_add 64 (total_gas s) (sim_gas_used sim_result) <=? gas_limit self) then
      Some {| pq := next_ref txs r tx ++ rest; selected := selected s ++ [tx];
              total_gas := wrapping_add 64 (total_gas s) (sim_gas_used sim_result);
              cache := apply_state_changes (sim_state_changes sim_result) (cache s) |}
    else
      Some {| pq := rest; selected := selected s; total_gas := total_gas s; cache := cache s |}.

Fixpoint select_loop (self : t) (m : gmap Address (list TransactionCandidate)) (fuel : nat)
  (s : Selection) : option Selection :=
  match heap_pop (pq s) with
  | None => Some s
  | Some (r, rest) =>
      match fuel with
      | O => None
      | S fuel => s ← select_round self m r rest s; select_loop self m fuel s
      end
  end.

(** The candidates chosen, whose bytes are returned; every round uses up a
    candidate. *)
Definition select_transactions (self : t) (candidates : list TransactionCandidate)
  (c : StatePrefetchCache) : option Selection :=
  match candidates with
  | [] => Some {| pq := []; selected := []; total_gas := 0; cache := c |}
  | _ =>
      let m := sender_txs self candidates in
      select_loop self m (length candidates)
        {| pq := initial_refs m; selected := []; total_gas := 0; cache := c |}
  end.

End select.
End Selector.

(** ** The checks *)

(** Groups the nonces by sender. *)
Definition sender_nonces (transactions : list TransactionCandidate) : gmap Address (list u64) :=
  foldl (fun m tx => <[tc_from tx := default [] (m !! tc_from tx) ++ [tc_nonce tx]]> m)
    ∅ transactions.

(** The first error of [check] over adjacent nonces. *)
Fixpoint adjacent (bad : u64 -> u64 -> bool) (address : Address) (nonces : list u64)
  : result BlockProductionError unit :=
  match nonces with
  | a :: ((b :: _) as rest) =>
      if bad a b then Err (NonceMismatch address (wrapping_add 64 a 1) b)
      else adjacent bad address rest
  | _ => Ok tt
  end.

(** Runs [adjacent] for the senders in the order [order] yields them. *)
Definition check_senders (bad : u64 -> u64 -> bool)
  (order : gmap Address (list u64) -> list (Address * list u64))
  (transactions : list TransactionCandidate) : result BlockProductionError unit :=
  foldr (fun (e : Address * list u64) r => let? _ := adjacent bad e.1 (merge_sort Z.le e.2) in r)
    (Ok tt) (order (sender_nonces transactions)).

(** [invariants::check_nonce_ordering] and [batch::check_nonce_chains]. *)
Definition check_nonce_ordering :=
  check_senders (fun a b => negb (b =? wrapping_add 64 a 1)).

(** [NonceValidator::validate]: only equal neighbours are an error. *)
Definition nonce_validator := check_senders (fun a b => b =? a).

Definition check_gas_limit (block : BlockTemplate) : result BlockProductionError unit :=
  if bh_gas_limit (bt_header block) <? bt_total_gas_used block then
    Err (GasLimitExceeded (bt_total_gas_used block) (bh_gas_limit (bt_header block)))
  else Ok tt.

Definition check_state_validity (simulations : list SimulationResult)
  : result BlockProductionError unit :=
  if forallb sim_success simulations then Ok tt else Err InternalError.

(** [check_no_duplicates], by hash, and [batch::check_duplicates], by content. *)
Fixpoint no_duplicates {K} `{Countable K} (seen : gset K) (keys : list K)
  : result BlockProductionError unit :=
  match keys with
  | [] => Ok tt
  | k :: keys => if bool_decide (k ∈ seen) then Err InternalError
                 else no_duplicates ({[k]} ∪ seen) keys
  end.

Definition check_no_duplicates (sha256 : list u8 -> Hash) (transactions : list (list u8))
  : result BlockProductionError unit := no_duplicates ∅ (sha256 <$> transactions).

Definition check_timestamp_validity (block_timestamp parent_timestamp current_time max_skew : u64)
  : result BlockProductionError unit :=
  if block_timestamp <? parent_timestamp then Err InvalidConfig
  else if wrapping_add 64 current_time max_skew <? block_timestamp then Err InvalidConfig
  else Ok tt.

Fixpoint check_fee_ordering (transactions : list TransactionCandidate) : bool :=
  match transactions with
  | a :: ((b :: _) as rest) =>
      if tc_gas_price a <? tc_gas_price b then false else check_fee_ordering rest
  | _ => true
  end.

Module Security.

Record t := { max_block_gas_limit : u64; min_gas_price : U256 }.

Definition allowed_senders : list u8 := [6; 4; 9; 8].

Definition validate_sender (subsystem_id : u8) : result BlockProductionError unit :=
  if bool_decide (subsystem_id ∈ allowed_senders) then Ok tt
  else Err (UnauthorizedSender subsystem_id).

Definition validate_transaction (self : t) (tx : TransactionCandidate)
  : result BlockProductionError unit :=
  if negb (tc_signature_valid tx) then Err InvalidSignature
  else if tc_gas_price tx <? min_gas_price self then
    Err (GasPriceTooLow (tc_gas_price tx) (min_gas_price self))
  else if max_block_gas_limit self <? tc_gas_limit tx then
    Err (GasLimitTooHigh (tc_gas_limit tx) (max_block_gas_limit self))
  else if tc_gas_limit tx =? 0 then Err ZeroGasLimit
  else Ok tt.

Definition validate_block_template (self : t) (now : u64) (template : BlockTemplate)
  : result BlockProductionError unit :=
  let header := bt_header template in
  if max_block_gas_limit self <? bh_gas_limit header then
    Err (BlockGasLimitExceeded (bh_gas_limit header) (max_block_gas_limit self))
  else if bh_gas_limit header <? bh_gas_used header then
    Err (GasUsedExceedsLimit (bh_gas_used header) (bh_gas_limit header))
  else
    let time_diff := Z.abs (bh_timestamp header - now) in
    if 15 <? time_diff then Err (InvalidTimestamp (bh_timestamp header) time_diff)
    else if bool_decide (bt_transactions template = []) && (0 <? bh_gas_used header) then
      Err InconsistentState
    else match bh_state_root header with
         | Some state_root => if state_root =? 0 then Err InvalidStateRoot else Ok tt
         | None => Ok tt
         end.

Fixpoint nonce_ordering (nonce_map : gmap Address u64)
  (transactions : list TransactionCandidate) : result BlockProductionError unit :=
  match transactions with
  | [] => Ok tt
  | tx :: rest =>
      let expected_nonce := default (tc_nonce tx) (nonce_map !! tc_from tx) in
      if negb (tc_nonce tx =? expected_nonce) then
        Err (InvalidNonceOrdering (tc_from tx) expected_nonce (tc_nonce tx))
      else nonce_ordering (<[tc_from tx := wrapping_add 64 (tc_nonce tx) 1]> nonce_map) rest
  end.

Definition validate_nonce_ordering (transactions : list TransactionCandidate) :=
  nonce_ordering ∅ transactions.

(** The rate limiter: a counter per subsystem and second. *)
Record RequestBucket := { rb_count : Z; rb_window_start : u64 }.

Definition WINDOW : u64 := 1.
Definition MAX_REQUESTS : Z := 100.

Definition allow (now : u64) (subsystem_id : u8) (requests : gmap u8 RequestBucket)
  : gmap u8 RequestBucket * bool :=
  let bucket := default {| rb_count := 0; rb_window_start := now |}
                  (requests !! subsystem_id) in
  let bucket := if wrapping_add 64 (rb_window_start bucket) WINDOW <=? now
                then {| rb_count := 0; rb_window_start := now |} else bucket in
  if MAX_REQUESTS <=? rb_count bucket then (<[subsystem_id := bucket]> requests, false)
  else (<[subsystem_id := {| rb_count := rb_count bucket + 1;
                             rb_window_start := rb_window_start bucket |}]> requests, true).

Definition check_rate_limit (now : u64) (subsystem_id : u8) (requests : gmap u8 RequestBucket)
  : gmap u8 RequestBucket * result BlockProductionError unit :=
  let (requests, ok) := allow now subsystem_id requests in
  (requests, if ok then Ok tt else Err (RateLimitExceeded subsystem_id)).

End Security.
