(* ===== verification/Difficulty.v ===== *)
(** * Block production: difficulty and mining

    [qc-17-block-production]: [DifficultyAdjuster] of [domain/difficulty.rs],
    [DifficultyWindowCalculator] of [domain/difficulty_window.rs], and the check and
    the nonce ranges of [PoWMiner] of [domain/services.rs] with [utils/hashing.rs], with
    what is proved of them; the threads of the miner are in [Mining].

    The saturating operations and the remainder of [U256] extend the interface of the
    prelude; a panic is [None].  The estimate of the hash rate, a float, is left
    out. *)

From stdpp Require Import strings.
From S2P Require Import Prelude Production.

Local Open Scope Z_scope.
Local Open Scope qc_scope.

(** Further operations of [U256]. *)
Class U256SatOps : Type := {
  u256_saturating_add : U256 -> U256 -> U256;
  u256_saturating_mul : U256 -> U256 -> U256;
  u256_rem : U256 -> U256 -> option U256
}.

Class U256SatLaws (U : U256SatOps) : Prop := {
  u256_saturating_add_spec a b : in_width 256 a -> in_width 256 b ->
    u256_saturating_add a b = saturating_add 256 a b;
  u256_saturating_mul_spec a b : in_width 256 a -> in_width 256 b ->
    u256_saturating_mul a b = saturating_mul 256 a b;
  u256_rem_spec a b : in_width 256 a -> in_width 256 b ->
    u256_rem a b = if b =? 0 then None else Some (a mod b)
}.

Definition exact_sat : U256SatOps := {|
  u256_saturating_add := saturating_add 256;
  u256_saturating_mul := saturating_mul 256;
  u256_rem a b := if b =? 0 then None else Some (a mod b)
|}.

Lemma exact_sat_laws : U256SatLaws exact_sat.
Proof. by split. Qed.

(** ** Difficulty adjustment *)

Record DifficultyConfig := {
  dc_target_block_time : u64;
  dc_adjustment_period : u64;
  dc_use_dgw : bool;
  dc_dgw_window : nat;
  dc_initial_difficulty : U256;
  dc_min_difficulty : U256;
  dc_max_difficulty : U256;
  dc_max_adjustment_factor : u64
}.

Definition DifficultyConfig_default : DifficultyConfig := {|
  dc_target_block_time := 10; dc_adjustment_period := 100; dc_use_dgw := true;
  dc_dgw_window := 24; dc_initial_difficulty := 2 ^ 220; dc_min_difficulty := 2 ^ 180;
  dc_max_difficulty := 2 ^ 235; dc_max_adjustment_factor := 4
|}.

Record BlockInfo := { bi_height : u64; bi_timestamp : u64; bi_difficulty : U256 }.

(** [u64::clamp] panics when the bounds are crossed. *)
Definition clamp (x lo hi : u64) : option u64 :=
  if hi <? lo then None else Some (Z.max lo (Z.min x hi)).

(** Division of [u64]. *)
Definition udiv (a b : u64) : option u64 := if b =? 0 then None else Some (a / b).

Section adjuster.
Context `{U256Ops} `{U256SatOps} (config : DifficultyConfig).

Definition clamp_difficulty (difficulty : U256) : U256 :=
  if difficulty <? dc_min_difficulty config then dc_min_difficulty config
  else if dc_max_difficulty config <? difficulty then dc_max_difficulty config
  else difficulty.

(** The adjusted time: within the adjustment factor of the expected time. *)
Definition clamped_time (actual_time expected_time : u64) : option u64 :=
  min_time ← udiv expected_time (dc_max_adjustment_factor config);
  let max_time := wrapping_mul 64 expected_time (dc_max_adjustment_factor config) in
  clamp actual_time (Z.max min_time 1) max_time.

(** [avg * t / expected] in two parts. *)
Definition scale (avg t expected : U256) : option U256 :=
  quotient ← u256_div avg expected;
  remainder ← u256_rem avg expected;
  part ← u256_div (u256_saturating_mul remainder t) expected;
  Some (u256_saturating_add (u256_saturating_mul quotient t) part).

Definition sum_difficulty (blocks : list BlockInfo) : U256 :=
  foldl (fun sum block => u256_saturating_add sum (bi_difficulty block)) 0 blocks.

Definition calculate_dgw_difficulty (recent_blocks : list BlockInfo) : option U256 :=
  let window_size := Nat.min (dc_dgw_window config) (length recent_blocks) in
  newest ← recent_blocks !! 0%nat;
  if (window_size <? 2)%nat then Some (bi_difficulty newest)
  else
    let blocks := take window_size recent_blocks in
    oldest ← blocks !! (window_size - 1)%nat;
    let actual_time := if bi_timestamp oldest <? bi_timestamp newest
                       then bi_timestamp newest - bi_timestamp oldest else 1 in
    let expected_time := wrapping_mul 64 (Z.of_nat (window_size - 1))
                           (dc_target_block_time config) in
    clamped_actual_time ← clamped_time actual_time expected_time;
    avg_difficulty ← u256_div (sum_difficulty blocks) (Z.of_nat window_size);
    new_difficulty ← (if 0 <? expected_time
                      then scale avg_difficulty clamped_actual_time expected_time
                      else Some avg_difficulty);
    Some (clamp_difficulty new_difficulty).

Definition calculate_epoch_difficulty (recent_blocks : list BlockInfo) : option U256 :=
  newest ← recent_blocks !! 0%nat;
  let current_difficulty := bi_difficulty newest in
  if dc_adjustment_period config =? 0 then None
  else if negb (bi_height newest mod dc_adjustment_period config =? 0) then
    Some current_difficulty
  else if Z.of_nat (length recent_blocks) <? dc_adjustment_period config then
    Some current_difficulty
  else
    oldest ← recent_blocks !! Z.to_nat (dc_adjustment_period config - 1);
    let actual_time := if bi_timestamp oldest <? bi_timestamp newest
                       then bi_timestamp newest - bi_timestamp oldest
                       else dc_target_block_time config in
    let expected_time := wrapping_mul 64 (dc_adjustment_period config)
                           (dc_target_block_time config) in
    clamped_actual_time ← clamped_time actual_time expected_time;
    new_difficulty ← u256_div (u256_saturating_mul current_difficulty clamped_actual_time)
                       expected_time;
    Some (clamp_difficulty new_difficulty).

Definition calculate_next_difficulty (recent_blocks : list BlockInfo) : option U256 :=
  match recent_blocks with
  | [] => Some (dc_initial_difficulty config)
  | [_] => Some (dc_initial_difficulty config)
  | _ => if dc_use_dgw config then calculate_dgw_difficulty recent_blocks
         else calculate_epoch_difficulty recent_blocks
  end.

End adjuster.

(** ** The difficulty window *)
Module Window.

Record Config := { max_window_size : nat; target_block_time_ms : u64 }.

Definition config_default : Config :=
  {| max_window_size := 24; target_block_time_ms := 150000 |}.

Definition calculate_window_size (c : Config) (chain_height : u64) : nat :=
  Nat.min (max_window_size c) (Z.to_nat chain_height).

Definition calculate_start_height (c : Config) (chain_height : u64) : u64 :=
  saturating_sub chain_height (Z.of_nat (calculate_window_size c chain_height)).

Definition resolve_difficulty (block_difficulty fallback : U256) : U256 :=
  if block_difficulty =? 0 then fallback else block_difficulty.

(** The weighted sum and the sum of the weights, from weight [w] on. *)
Fixpoint weighted `{U256Ops} (blocks : list U256) (sum total : U256) : option (U256 * U256) :=
  match blocks with
  | [] => Some (sum, total)
  | d :: rest =>
      let weight := Z.of_nat (length blocks) in
      p ← u256_mul d weight;
      sum ← u256_add sum p;
      total ← u256_add total weight;
      weighted rest sum total
  end.

(** [calculate_next_difficulty] on the difficulties of the blocks, newest first. *)
Definition calculate_next_difficulty `{U256Ops} (blocks : list U256) : option U256 :=
  match blocks with
  | [] => Some 1
  | [d] => Some d
  | d :: _ =>
      r ← weighted blocks 0 0;
      if r.2 =? 0 then Some d else u256_div r.1 r.2
  end.

End Window.

(** ** Mining *)
Section mining.
Context (sha256 : list u8 -> Hash).

Definition sha256d (data : list u8) : Hash := sha256 (hash_bytes (sha256 data)).

Definition serialize_block_header (parent_hash : Hash) (block_number timestamp : u64)
  (beneficiary : Address) (gas_used : u64) (nonce_opt : option u64) : list u8 :=
  hash_bytes parent_hash ++ le_bytes 8 block_number ++ le_bytes 8 timestamp
    ++ address_bytes beneficiary ++ le_bytes 8 gas_used
    ++ match nonce_opt with Some nonce => le_bytes 8 nonce | None => [] end.

Definition meets_difficulty (hash : Hash) (target : U256) : bool := hash <=? target.

Definition check_pow (template : BlockTemplate) (nonce : u64) (difficulty_target : U256) : bool :=
  let h := bt_header template in
  meets_difficulty (sha256d (serialize_block_header (bh_parent_hash h) (bh_block_number h)
    (bh_timestamp h) (bh_beneficiary h) (bh_gas_used h) (Some nonce))) difficulty_target.

Definition MAX_THREADS : u8 := 255.
Definition U64_MAX : u64 := 2 ^ 64 - 1.

(** The nonces [start..end] of a thread; dividing by no threads panics. *)
Definition nonce_range (num_threads thread_id : u8) : option (u64 * u64) :=
  per_thread ← udiv U64_MAX num_threads;
  Some (thread_id * per_thread,
        if thread_id =? MAX_THREADS - 1 then U64_MAX else (thread_id + 1) * per_thread).

(** What [mine_block] promises, whatever the threads' interleaving: a nonce that
    some thread found in its range, or nothing if no thread found any. *)
Definition mine_block_returns (num_threads : u8) (template : BlockTemplate)
  (difficulty_target : U256) (r : option u64) : Prop :=
  match r with
  | Some nonce => exists thread_id lo hi,
      0 <= thread_id < num_threads /\ nonce_range num_threads thread_id = Some (lo, hi)
      /\ lo <= nonce < hi /\ check_pow template nonce difficulty_target = true
  | None => forall thread_id lo hi nonce,
      0 <= thread_id < num_threads -> nonce_range num_threads thread_id = Some (lo, hi) ->
      lo <= nonce < hi -> check_pow template nonce difficulty_target = false
  end.

(** [PoSProposer::check_proposer_duty] up to the proof it attaches: the index of the
    selected validator if it is our own. *)
Definition proposer_index (validator_key : list u8) (slot epoch : u64)
  (validator_set : list (list u8)) : option u64 :=
  if bool_decide (validator_set = []) then None
  else
    let vrf_input := le_bytes 8 slot ++ le_bytes 8 epoch
                     ++ hash_bytes (sha256 (concat validator_set)) in
    let vrf_output := sha256 (validator_key ++ vrf_input) in
    let selection_value := from_le_bytes (take 8 (hash_bytes vrf_output)) in
    let selected_index := (selection_value mod Z.of_nat (length validator_set)) mod 2 ^ 32 in
    let our_key_hash := sha256 validator_key in
    match list_find (fun validator => our_key_hash = sha256 validator) validator_set with
    | Some (idx, _) => if Z.of_nat idx =? selected_index then Some selected_index else None
    | None => None
    end.

End mining.

(** * Theorems *)

Section difficulty_props.
Context {U : U256Ops} {UL : U256Laws U} {S : U256SatOps} {SL : U256SatLaws S}.

(** Scaling in two parts is exact while the product fits into a word. *)
Lemma scale_exact avg t e : in_width 256 avg -> in_width 64 t -> 0 < e < 2 ^ 64 ->
  avg * t / e < 2 ^ 256 -> scale avg t e = Some (avg * t / e).
Proof.
  intros [Ha1 Ha2] [Ht1 Ht2] He Hfit. unfold scale.
  assert (Wt : in_width 256 t) by (unfold in_width; lia).
  assert (We : in_width 256 e) by (unfold in_width; lia).
  assert (Hq : 0 <= avg / e <= avg).
  { split; [apply Z.div_pos; lia|]. apply Z.div_le_upper_bound; nia. }
  pose proof (Z.mod_pos_bound avg e ltac:(lia)) as Hr.
  rewrite u256_div_spec, u256_rem_spec by (done || split; lia).
  destruct (Z.eqb_spec e 0); [lia|]. cbn [mbind option_bind].
  rewrite !u256_saturating_mul_spec by (done || unfold in_width; lia).
  unfold saturating_mul. assert (Hrt : avg mod e * t < 2 ^ 128) by nia.
  rewrite (Z.min_l (avg mod e * t)) by lia.
  rewrite u256_div_spec by (done || unfold in_width; nia).
  destruct (Z.eqb_spec e 0); [lia|]. cbn [mbind option_bind].
  assert (Hsum : avg * t / e = avg / e * t + avg mod e * t / e).
  { rewrite (Z.div_mod avg e) at 1 by lia.
    replace ((e * (avg / e) + avg mod e) * t) with (avg mod e * t + avg / e * t * e) by ring.
    rewrite Z.div_add by lia. lia. }
  assert (Hp : 0 <= avg mod e * t / e) by (apply Z.div_pos; nia).
  assert (Hqt : 0 <= avg / e * t) by nia.
  rewrite (Z.min_l (avg / e * t)) by lia.
  rewrite u256_saturating_add_spec by (unfold in_width; lia).
  unfold saturating_add. rewrite Z.min_l by lia. by rewrite Hsum.
Qed.

Context (config : DifficultyConfig).

(** A configuration whose bounds are ordered and leave room for the arithmetic; the
    default one is. *)
Record config_ok : Prop := {
  ok_window : (2 <= dc_dgw_window config)%nat;
  ok_time : 0 < dc_target_block_time config;
  ok_factor : 1 <= dc_max_adjustment_factor config;
  ok_min : 0 <= dc_min_difficulty config;
  ok_max : dc_min_difficulty config <= dc_max_difficulty config;
  ok_room64 : Z.of_nat (dc_dgw_window config) * dc_target_block_time config
              * dc_max_adjustment_factor config < 2 ^ 64;
  ok_room256 : Z.of_nat (dc_dgw_window config) * dc_max_difficulty config
               * dc_max_adjustment_factor config < 2 ^ 256
}.

Definition block_ok (b : BlockInfo) : Prop :=
  in_width 64 (bi_timestamp b) /\ 0 <= bi_difficulty b <= dc_max_difficulty config.

Lemma clamp_difficulty_spec d : dc_min_difficulty config <= dc_max_difficulty config ->
  clamp_difficulty config d = Z.max (dc_min_difficulty config) (Z.min d (dc_max_difficulty config)).
Proof. intros Hmm. unfold clamp_difficulty. repeat case_match; bools; lia. Qed.

Lemma clamp_difficulty_bounds d : dc_min_difficulty config <= dc_max_difficulty config ->
  dc_min_difficulty config <= clamp_difficulty config d <= dc_max_difficulty config.
Proof. intros Hmm. rewrite clamp_difficulty_spec by done. lia. Qed.

(** The exact sum of the targets. *)
Definition total_difficulty (blocks : list BlockInfo) : Z :=
  foldr (fun b acc => bi_difficulty b + acc) 0 blocks.

Lemma total_difficulty_bound blocks : Forall block_ok blocks ->
  0 <= total_difficulty blocks <= Z.of_nat (length blocks) * dc_max_difficulty config.
Proof.
  induction 1 as [|b l [_ Hb] _ IH]; simpl total_difficulty; simpl length; [lia|]. nia.
Qed.

Lemma sum_difficulty_exact blocks : forall acc, Forall block_ok blocks -> 0 <= acc ->
  acc + total_difficulty blocks < 2 ^ 256 ->
  foldl (fun sum block => u256_saturating_add sum (bi_difficulty block)) acc blocks
    = acc + total_difficulty blocks.
Proof.
  induction blocks as [|b l IH]; intros acc Hall Hacc Hlt; simpl in *; [lia|].
  inversion_clear Hall as [|? ? [_ Hb] Hl].
  pose proof (total_difficulty_bound l Hl) as [Ht _].
  rewrite u256_saturating_add_spec by (unfold in_width; lia).
  unfold saturating_add. rewrite Z.min_l by lia. rewrite IH by (done || lia). lia.
Qed.

Lemma clamped_time_spec actual e : config_ok -> 0 < e ->
  e * dc_max_adjustment_factor config < 2 ^ 64 ->
  let lo := Z.max (e / dc_max_adjustment_factor config) 1 in
  let hi := e * dc_max_adjustment_factor config in
  clamped_time config actual e = Some (Z.max lo (Z.min actual hi)) /\ lo <= hi.
Proof.
  cbn zeta. intros Hc He Hlt. pose proof (ok_factor Hc) as Hf. unfold clamped_time, udiv.
  destruct (Z.eqb_spec (dc_max_adjustment_factor config) 0); [lia|].
  cbn [mbind option_bind]. unfold wrapping_mul. rewrite Z.mod_small by nia.
  assert (Hlo : e / dc_max_adjustment_factor config <= e * dc_max_adjustment_factor config).
  { apply Z.div_le_upper_bound; nia. }
  unfold clamp. destruct (Z.ltb_spec (e * dc_max_adjustment_factor config)
    (Z.max (e / dc_max_adjustment_factor config) 1)); [nia|]. by split.
Qed.

(** The room a configuration leaves for a window of [n] blocks. *)
Lemma window_time_room n : config_ok -> (2 <= n <= dc_dgw_window config)%nat ->
  0 < Z.of_nat (n - 1) * dc_target_block_time config /\
  Z.of_nat (n - 1) * dc_target_block_time config * dc_max_adjustment_factor config < 2 ^ 64.
Proof.
  intros Hc Hn. pose proof (ok_time Hc) as Ht. pose proof (ok_factor Hc) as Hf. split.
  - apply Z.mul_pos_pos; lia.
  - eapply Z.le_lt_trans; [|exact (ok_room64 Hc)].
    apply Z.mul_le_mono_nonneg_r; [lia|]. apply Z.mul_le_mono_nonneg_r; lia.
Qed.

Lemma window_sum_room n blocks : config_ok -> Forall block_ok blocks ->
  length blocks = n -> (2 <= n <= dc_dgw_window config)%nat ->
  let s := total_difficulty blocks in
  0 <= s /\ 0 <= s / Z.of_nat n <= s /\ s * dc_max_adjustment_factor config < 2 ^ 256.
Proof.
  intros Hc Hall <- Hn s. pose proof (total_difficulty_bound blocks Hall) as [H0 H1].
  pose proof (ok_factor Hc) as Hf. pose proof (ok_min Hc). pose proof (ok_max Hc).
  split; [done|]. split.
  - split; [apply Z.div_pos; lia|]. apply Z.div_le_upper_bound; [lia|].
    rewrite <-(Z.mul_1_l s) at 1. apply Z.mul_le_mono_nonneg_r; unfold s; lia.
  - eapply Z.le_lt_trans; [|exact (ok_room256 Hc)].
    apply Z.mul_le_mono_nonneg_r; [lia|]. unfold s. etransitivity; [exact H1|].
    apply Z.mul_le_mono_nonneg_r; lia.
Qed.

(** The time the newest [n] of the blocks, newest first, took: a second at least. *)
Definition time_taken (n : nat) (blocks : list BlockInfo) (time : Z) : Prop :=
  exists newest oldest, blocks !! 0%nat = Some newest /\ blocks !! (n - 1)%nat = Some oldest
    /\ time = Z.max 1 (bi_timestamp newest - bi_timestamp oldest).

(** The computation with its intermediate values named. *)
Lemma dgw_computes blocks n e avg f : config_ok -> Forall block_ok blocks ->
  n = Nat.min (dc_dgw_window config) (length blocks) -> (2 <= n)%nat ->
  e = Z.of_nat (n - 1) * dc_target_block_time config ->
  avg = total_difficulty (take n blocks) / Z.of_nat n ->
  f = dc_max_adjustment_factor config ->
  exists time t, time_taken n blocks time
    /\ t = Z.max (Z.max (e / f) 1) (Z.min time (e * f))
    /\ calculate_dgw_difficulty config blocks = Some (clamp_difficulty config (avg * t / e))
    /\ Z.max (e / f) 1 <= t <= e * f /\ avg * t / e <= avg * f.
Proof.
  intros Hc Hall En Hn Ee Ea Ef.
  assert (Hnw : (2 <= n <= dc_dgw_window config)%nat) by lia.
  assert (Hlt : length (take n blocks) = n) by (rewrite length_take; lia).
  assert (Htk : Forall block_ok (take n blocks)) by (by apply (list.Forall_take block_ok)).
  destruct (window_time_room n Hc Hnw) as [He Hef]. rewrite <-Ee in He, Hef. rewrite <-Ef in Hef.
  destruct (window_sum_room n _ Hc Htk Hlt Hnw) as (Hs & Havg & Hsf).
  rewrite <-Ea in Havg. rewrite <-Ef in Hsf.
  pose proof (ok_factor Hc) as Hf. rewrite <-Ef in Hf.
  assert (Haf : avg * f < 2 ^ 256).
  { eapply Z.le_lt_trans; [apply Z.mul_le_mono_nonneg_r|exact Hsf]; lia. }
  assert (Hs256 : total_difficulty (take n blocks) < 2 ^ 256).
  { eapply Z.le_lt_trans; [|exact Hsf]. rewrite <-Z.mul_1_r at 1.
    apply Z.mul_le_mono_nonneg_l; lia. }
  assert (He64 : e < 2 ^ 64).
  { eapply Z.le_lt_trans; [|exact Hef]. rewrite <-(Z.mul_1_r e) at 1.
    apply Z.mul_le_mono_nonneg_l; lia. }
  assert (Hne : Z.of_nat (n - 1) <= e).
  { rewrite Ee, <-(Z.mul_1_r (Z.of_nat (n - 1))) at 1. pose proof (ok_time Hc).
    apply Z.mul_le_mono_nonneg_l; lia. }
  destruct (lookup_lt_is_Some_2 blocks 0%nat) as [newest Hnew]; [lia|].
  destruct (lookup_lt_is_Some_2 (take n blocks) (n - 1)%nat) as [oldest Hold]; [lia|].
  unfold calculate_dgw_difficulty. rewrite <-En, Hnew. cbn [mbind option_bind].
  destruct (Nat.ltb_spec n 2); [lia|]. rewrite Hold. cbn [mbind option_bind].
  unfold wrapping_mul. rewrite <-Ee, (Z.mod_small e) by lia.
  set (time := if bi_timestamp oldest <? bi_timestamp newest then _ else _).
  assert (Htime : time_taken n blocks time).
  { exists newest, oldest. rewrite lookup_take_lt in Hold by lia. split_and!; [done..|].
    unfold time. destruct (Z.ltb_spec (bi_timestamp oldest) (bi_timestamp newest)); lia. }
  destruct (clamped_time_spec time e Hc He) as [Ht Hb]; [rewrite <-Ef; exact Hef|].
  rewrite <-Ef in Ht, Hb. remember (Z.max _ (Z.min time _)) as t eqn:Et.
  assert (Hbt : Z.max (e / f) 1 <= t <= e * f) by lia. clear Hb.
  rewrite Ht. cbn [mbind option_bind]. unfold sum_difficulty.
  rewrite sum_difficulty_exact by (done || lia).
  rewrite Z.add_0_l, u256_div_spec by (unfold in_width; lia).
  destruct (Z.eqb_spec (Z.of_nat n) 0); [lia|]. cbn [mbind option_bind]. rewrite <-Ea.
  destruct (Z.ltb_spec 0 e); [|lia].
  assert (Hscale : avg * t / e <= avg * f).
  { apply Z.div_le_upper_bound; [lia|]. rewrite (Z.mul_comm e), <-Z.mul_assoc.
    apply Z.mul_le_mono_nonneg_l; [lia|]. rewrite Z.mul_comm. lia. }
  rewrite scale_exact by (unfold in_width; lia). cbn [mbind option_bind]. by exists time, t.
Qed.

(** C39 (bounds): the difficulty adjustment is exact and bounded.  For a configuration
    with room for its arithmetic and at least two blocks of targets within its largest,
    the next target is the average target of the window times the time its blocks took,
    divided by the time expected, clamped to the configured targets.  The time taken is
    the difference of the timestamps of the newest and the oldest block of the window,
    one second at least; it counts as no less than [1/factor] and no more than [factor]
    times the expected time, so before the last clamp the target grows by at most that
    factor.  Nothing overflows, saturates or panics. *)
Theorem dgw_exact_and_bounded blocks : config_ok -> Forall block_ok blocks ->
  (2 <= length blocks)%nat ->
  let n := Nat.min (dc_dgw_window config) (length blocks) in
  let e := Z.of_nat (n - 1) * dc_target_block_time config in
  let avg := total_difficulty (take n blocks) / Z.of_nat n in
  let f := dc_max_adjustment_factor config in
  exists time t, time_taken n blocks time
    /\ t = Z.max (Z.max (e / f) 1) (Z.min time (e * f))
    /\ calculate_dgw_difficulty config blocks
       = Some (Z.max (dc_min_difficulty config) (Z.min (avg * t / e) (dc_max_difficulty config)))
    /\ Z.max (e / f) 1 <= t <= e * f
    /\ avg * t / e <= avg * f.
Proof.
  intros Hc Hall Hlen n e avg f. pose proof (ok_window Hc).
  destruct (dgw_computes blocks n e avg f) as (time & t & Htime & Et & Hr & Ht & Hs);
    [exact Hc|exact Hall|reflexivity|unfold n; lia|reflexivity..|].
  rewrite clamp_difficulty_spec in Hr by apply Hc. by exists time, t.
Qed.

End difficulty_props.

(** Three blocks of the default chain, ten and thirty seconds apart. *)
Local Abbreviation three_blocks := [
  {| bi_height := 3; bi_timestamp := 140; bi_difficulty := 2 ^ 220 |};
  {| bi_height := 2; bi_timestamp := 110; bi_difficulty := 2 ^ 220 |};
  {| bi_height := 1; bi_timestamp := 100; bi_difficulty := 2 ^ 220 |}].

Lemma dgw_exact_and_bounded_witness :
  @calculate_dgw_difficulty exact_u256 exact_sat DifficultyConfig_default three_blocks
    = Some (2 ^ 220 * 40 / 20).
Proof.
  destruct (@dgw_exact_and_bounded exact_u256 exact_u256_laws exact_sat exact_sat_laws
    DifficultyConfig_default three_blocks) as (time & t & (newest & oldest & Hn & Ho & Et) & -> & -> & _).
  - split; simpl; lia.
  - repeat constructor; simpl; unfold in_width; lia.
  - simpl. lia.
  - injection Hn as <-. injection Ho as <-. subst time. by vm_compute.
Defined.
