(* ===== verification/Breaker.v ===== *)
(** * Block production: the circuit breaker

    [CircuitBreaker] of [qc-17-block-production/src/domain/circuit_breaker.rs]: the
    circuits of the subsystems, a state machine each, with what is proved of it.  The
    lock around the map makes every operation one step; the instant an operation reads
    is its argument. *)

From stdpp Require Import strings.
From S2P Require Import Prelude.

Local Open Scope Z_scope.
Local Open Scope qc_scope.

(** Durations and instants in the units of one clock. *)
Record Config := {
  failure_threshold : Z;
  success_threshold : Z;
  open_timeout : Z;
  enabled : bool
}.

Definition config_default : Config :=
  {| failure_threshold := 5; success_threshold := 3; open_timeout := 30; enabled := true |}.

Inductive CircuitState := Closed | Open | HalfOpen.

Record Circuit := {
  state : CircuitState;
  failure_count : Z;
  success_count : Z;
  last_failure_time : option Z;
  total_failures : u64;
  total_successes : u64
}.

Definition circuit_new : Circuit := {|
  state := Closed; failure_count := 0; success_count := 0; last_failure_time := None;
  total_failures := 0; total_successes := 0
|}.

Abbreviation Circuits := (gmap string Circuit).

Definition entry (subsystem : string) (circuits : Circuits) : Circuit :=
  default circuit_new (circuits !! subsystem).

Definition try_transition_to_half_open (config : Config) (now : Z) (c : Circuit)
  : Circuit * bool :=
  match last_failure_time c with
  | None => (c, false)
  | Some last_failure =>
      if now - last_failure <? open_timeout config then (c, false)
      else ({| state := HalfOpen; failure_count := failure_count c; success_count := 0;
               last_failure_time := last_failure_time c;
               total_failures := total_failures c; total_successes := total_successes c |},
            true)
  end.

Definition should_allow (config : Config) (now : Z) (subsystem : string) (circuits : Circuits)
  : Circuits * bool :=
  if negb (enabled config) then (circuits, true)
  else
    let c := entry subsystem circuits in
    match state c with
    | Closed | HalfOpen => (<[subsystem := c]> circuits, true)
    | Open =>
        let (c, allowed) := try_transition_to_half_open config now c in
        (<[subsystem := c]> circuits, allowed)
    end.

Definition record_success (config : Config) (subsystem : string) (circuits : Circuits)
  : Circuits :=
  if negb (enabled config) then circuits
  else
    let c := entry subsystem circuits in
    let total := wrapping_add 64 (total_successes c) 1 in
    let c' :=
      match state c with
      | Closed =>
          {| state := Closed; failure_count := 0; success_count := success_count c;
             last_failure_time := last_failure_time c;
             total_failures := total_failures c; total_successes := total |}
      | HalfOpen =>
          let successes := wrapping_add 32 (success_count c) 1 in
          if success_threshold config <=? successes then
            {| state := Closed; failure_count := 0; success_count := 0;
               last_failure_time := last_failure_time c;
               total_failures := total_failures c; total_successes := total |}
          else
            {| state := HalfOpen; failure_count := failure_count c;
               success_count := successes; last_failure_time := last_failure_time c;
               total_failures := total_failures c; total_successes := total |}
      | Open =>
          {| state := Open; failure_count := failure_count c;
             success_count := success_count c; last_failure_time := last_failure_time c;
             total_failures := total_failures c; total_successes := total |}
      end in
    <[subsystem := c']> circuits.

Definition record_failure (config : Config) (now : Z) (subsystem : string)
  (circuits : Circuits) : Circuits :=
  if negb (enabled config) then circuits
  else
    let c := entry subsystem circuits in
    let failures := wrapping_add 32 (failure_count c) 1 in
    let '(st, successes) :=
      match state c with
      | Closed => (if failure_threshold config <=? failures then Open else Closed,
                   success_count c)
      | HalfOpen => (Open, 0)
      | Open => (Open, success_count c)
      end in
    <[subsystem := {| state := st; failure_count := failures; success_count := successes;
        last_failure_time := Some now;
        total_failures := wrapping_add 64 (total_failures c) 1;
        total_successes := total_successes c |}]> circuits.

Definition get_state (subsystem : string) (circuits : Circuits) : CircuitState :=
  match circuits !! subsystem with Some c => state c | None => Closed end.

Definition reset (subsystem : string) (circuits : Circuits) : Circuits :=
  match circuits !! subsystem with
  | Some c => <[subsystem := {| state := Closed; failure_count := 0; success_count := 0;
                  last_failure_time := last_failure_time c;
                  total_failures := total_failures c;
                  total_successes := total_successes c |}]> circuits
  | None => circuits
  end.

(** * Theorems *)

(** What a caller can do with the breaker. *)
Inductive reachable (config : Config) : Circuits -> Prop :=
  | reach_new : reachable config ∅
  | reach_allow now s cs : reachable config cs ->
      reachable config (should_allow config now s cs).1
  | reach_success s cs : reachable config cs -> reachable config (record_success config s cs)
  | reach_failure now s cs : reachable config cs ->
      reachable config (record_failure config now s cs)
  | reach_reset s cs : reachable config cs -> reachable config (reset s cs).

Section breaker_props.
Context (config : Config).
Context (Hthreshold : 0 < failure_threshold config < 2 ^ 32).
Context (Hsuccess : 0 < success_threshold config < 2 ^ 32).

(** A closed circuit has failed fewer times in a row than the threshold; an open one
    knows when it last failed; a half-open one has not yet succeeded often enough. *)
Definition circuit_inv (c : Circuit) : Prop :=
  match state c with
  | Closed => 0 <= failure_count c < failure_threshold config
  | Open => is_Some (last_failure_time c)
  | HalfOpen => is_Some (last_failure_time c)
                /\ 0 <= success_count c < success_threshold config
  end.

Definition inv (cs : Circuits) : Prop := map_Forall (fun _ => circuit_inv) cs.

Lemma circuit_new_inv : circuit_inv circuit_new.
Proof. unfold circuit_inv, circuit_new. simpl. lia. Qed.

Lemma entry_inv s cs : inv cs -> circuit_inv (entry s cs).
Proof.
  intros Hi. unfold entry. destruct (cs !! s) as [c|] eqn:E; [exact (Hi s c E)|].
  exact circuit_new_inv.
Qed.

Lemma entry_insert s c cs : entry s (<[s := c]> cs) = c.
Proof. unfold entry. by rewrite lookup_insert_eq. Qed.

Lemma half_open_inv now c c' b : circuit_inv c -> state c = Open ->
  try_transition_to_half_open config now c = (c', b) -> circuit_inv c'.
Proof.
  intros Hc Hs. unfold try_transition_to_half_open, circuit_inv in *. rewrite Hs in Hc.
  destruct Hc as [t Ht]. rewrite Ht. destruct (_ <? _); intros [= <- <-]; simpl.
  - rewrite Hs, Ht. by eexists.
  - split; [by eexists|lia].
Qed.

Lemma should_allow_inv now s cs : inv cs -> inv (should_allow config now s cs).1.
Proof.
  intros Hi. pose proof (entry_inv s cs Hi) as He. unfold should_allow.
  destruct (enabled config); simpl; [|done].
  destruct (state (entry s cs)) eqn:Es; try by apply map_Forall_insert_2.
  destruct (try_transition_to_half_open _ _ _) as [c' b] eqn:E. simpl.
  apply map_Forall_insert_2; [by eapply half_open_inv|done].
Qed.

Lemma record_success_inv s cs : inv cs -> inv (record_success config s cs).
Proof.
  intros Hi. pose proof (entry_inv s cs Hi) as He. unfold record_success.
  destruct (enabled config); simpl; [|done].
  apply map_Forall_insert_2; [|done]. unfold circuit_inv in *.
  destruct (state (entry s cs)); simpl; try done; [lia|]. destruct He as [Hl Hs].
  rewrite wrapping_add_small by lia.
  destruct (Z.leb_spec (success_threshold config) (success_count (entry s cs) + 1));
    simpl; [lia|]. split; [done|lia].
Qed.

(** One failure: an open or half-open circuit is open afterwards, a closed one opens
    at the threshold and otherwise counts. *)
Lemma record_failure_effect now s cs : inv cs -> enabled config = true ->
  let c := entry s (record_failure config now s cs) in
  last_failure_time c = Some now /\
  (state c = Open \/
   state c = Closed /\ state (entry s cs) = Closed
     /\ failure_count c = failure_count (entry s cs) + 1
     /\ failure_count c < failure_threshold config).
Proof.
  intros Hi Hen. pose proof (entry_inv s cs Hi) as He. unfold record_failure. rewrite Hen.
  simpl. unfold circuit_inv in He.
  destruct (state (entry s cs)) eqn:Es; rewrite entry_insert; simpl; try by auto.
  rewrite wrapping_add_small by lia.
  destruct (Z.leb_spec (failure_threshold config) (failure_count (entry s cs) + 1)); auto 10.
Qed.

Lemma record_failure_inv now s cs : inv cs -> inv (record_failure config now s cs).
Proof.
  intros Hi. pose proof (entry_inv s cs Hi) as He. unfold record_failure.
  destruct (enabled config); simpl; [|done]. unfold circuit_inv in He.
  destruct (state (entry s cs)) eqn:Es; (apply map_Forall_insert_2; [|done]);
    unfold circuit_inv; simpl; try by eexists.
  rewrite wrapping_add_small by lia.
  destruct (Z.leb_spec (failure_threshold config) (failure_count (entry s cs) + 1));
    [by eexists|lia].
Qed.

Lemma reset_inv s cs : inv cs -> inv (reset s cs).
Proof.
  intros Hi. unfold reset. destruct (cs !! s); [|done].
  apply map_Forall_insert_2; [|done]. unfold circuit_inv. simpl. lia.
Qed.

Lemma breaker_reachable_inv cs : reachable config cs -> inv cs.
Proof.
  induction 1; [apply map_Forall_empty|..]; auto using should_allow_inv,
    record_success_inv, record_failure_inv, reset_inv.
Qed.

(** Failures in a row, at the given instants. *)
Definition failures (s : string) (times : list Z) (cs : Circuits) : Circuits :=
  foldl (fun cs now => record_failure config now s cs) cs times.

Lemma failures_other s s' times : forall cs, s' <> s ->
  failures s times cs !! s' = cs !! s'.
Proof.
  induction times as [|t times IH]; intros cs Hne; [done|]. simpl. rewrite IH by done.
  unfold record_failure. destruct (enabled config); simpl; [|done].
  destruct (state (entry s cs)); by rewrite lookup_insert_ne.
Qed.

Lemma failures_inv s times : forall cs, inv cs -> inv (failures s times cs).
Proof. induction times; intros cs Hi; simpl; auto using record_failure_inv. Qed.

(** After any failures the circuit is open, or it was closed throughout and has counted
    every one of them. *)
Lemma failures_count s times t : forall cs, inv cs -> enabled config = true ->
  let c := entry s (failures s (times ++ [t]) cs) in
  last_failure_time c = Some t /\
  (state c = Open \/
   state c = Closed /\ state (entry s cs) = Closed
     /\ failure_count c = failure_count (entry s cs) + Z.of_nat (length times) + 1
     /\ failure_count c < failure_threshold config).
Proof.
  intros cs Hi Hen. revert t. induction times as [|t' times IH] using rev_ind; intros t.
  - unfold failures. simpl.
    destruct (record_failure_effect t s cs Hi Hen) as [? [?|?]]; [by auto|].
    split; [done|]. right. intuition lia.
  - unfold failures in *. rewrite foldl_app. cbn [foldl].
    set (cs1 := foldl _ cs (times ++ [t'])) in *.
    assert (Hi1 : inv cs1) by apply (failures_inv s (times ++ [t']) cs Hi).
    destruct (record_failure_effect t s cs1 Hi1 Hen) as [Hl [Ho|(Hc & Hc1 & Hn & Hlt)]];
      [by auto|]. split; [done|]. right.
    pose proof (IH t') as Hj. cbv zeta in Hj. fold cs1 in Hj.
    destruct Hj as [_ [Ho|(_ & Hc0 & Hn0 & _)]]; [congruence|].
    rewrite length_app. cbn [length]. repeat split; try done; lia.
Qed.

End breaker_props.

(** The circuit breaker protects.  In every reachable state of an
    enabled breaker, as many failures of a subsystem in a row as the threshold leave
    its circuit open; from then on every request is refused, with no effect, until the
    timeout has passed since the last failure, and the first request after that is
    allowed and half-opens the circuit.  The circuits of other subsystems are not
    touched. *)
Theorem breaker_trips config cs s times t :
  0 < failure_threshold config < 2 ^ 32 -> 0 < success_threshold config < 2 ^ 32 ->
  enabled config = true -> reachable config cs ->
  failure_threshold config <= Z.of_nat (length times) + 1 ->
  let cs' := failures config s (times ++ [t]) cs in
  get_state s cs' = Open
  /\ (forall now, now - t < open_timeout config ->
        should_allow config now s cs' = (cs', false))
  /\ (forall now, open_timeout config <= now - t ->
        (should_allow config now s cs').2 = true
        /\ get_state s (should_allow config now s cs').1 = HalfOpen)
  /\ (forall s', s' <> s -> cs' !! s' = cs !! s').
Proof.
  intros Hf Hs Hen Hr Hlen cs'. pose proof (breaker_reachable_inv config Hf Hs cs Hr) as Hi.
  pose proof (entry_inv config Hf s cs Hi) as He.
  destruct (failures_count config Hf Hs s times t cs Hi Hen) as [Hl Hst].
  fold cs' in Hl, Hst.
  assert (Ho : state (entry s cs') = Open).
  { destruct Hst as [?|(_ & Hc & Hn & Hlt)]; [done|]. unfold circuit_inv in He.
    rewrite Hc in He. lia. }
  assert (Hlk : exists c, cs' !! s = Some c /\ state c = Open /\ last_failure_time c = Some t).
  { unfold entry in Hl, Ho. destruct (cs' !! s) as [c|]; [by exists c|done]. }
  destruct Hlk as (c & Hlk & Hco & Hcl). split_and!.
  - unfold get_state. by rewrite Hlk.
  - intros now Hnow. unfold should_allow, entry, try_transition_to_half_open.
    rewrite Hen, Hlk. simpl. rewrite Hco, Hcl.
    destruct (Z.ltb_spec (now - t) (open_timeout config)); [|lia].
    by rewrite insert_id.
  - intros now Hnow. unfold should_allow, entry, try_transition_to_half_open.
    rewrite Hen, Hlk. simpl. rewrite Hco, Hcl.
    destruct (Z.ltb_spec (now - t) (open_timeout config)); [lia|]. simpl.
    unfold get_state. by rewrite lookup_insert_eq.
  - intros s' Hne. by apply failures_other.
Qed.

(** Five failures open the circuit of the mempool with the default configuration. *)
Lemma breaker_trips_witness :
  get_state "mempool" (failures config_default "mempool" [0; 1; 2; 3; 4] ∅) = Open.
Proof.
  apply (breaker_trips config_default ∅ "mempool" [0; 1; 2; 3] 4); try (simpl; lia); constructor.
Defined.
