(* ===== verification/Bloom.v ===== *)
(** * Bloom filters

    [qc-07-bloom-filters]: the hash positions ([domain/hash_functions.rs]), the filter
    ([domain/bloom_filter.rs]), the counting filter with its run-length encoding
    ([domain/counting_bloom.rs]), block filters ([domain/block_filter.rs]), the
    throttling of clients ([domain/gap_limit.rs]), the configuration check
    ([domain/config.rs]) and the service ([service/bloom_filter_service.rs]).

    MurmurHash3, SHA-256 and [bincode] are parameters.  The sizes a filter gets from a false
    positive rate are computed in floating point; the rate and the noise level are
    of an abstract type with the questions the code asks about them.  [None] is a
    panic: a division by zero or an index out of range. *)

From stdpp Require Import strings pretty.
From S2P Require Import Prelude SharedTypes.

Local Open Scope Z_scope.
Local Open Scope qc_scope.

(** ** Hash positions *)

Section positions.
Context (murmur3 : list u8 -> Z -> Z).

(** The lower half of the 128-bit hash, seeded with the sum of seed and tweak. *)
Definition murmur_hash (element : list u8) (seed tweak : Z) : u64 :=
  murmur3 element (wrapping_add 32 seed tweak) mod 2 ^ 64.

(** [h1 + i * h2] for [i] below [k], modulo [m]. *)
Definition position (h1 h2 : u64) (m : usize) (i : nat) : usize :=
  wrapping_add 64 h1 (wrapping_mul 64 (Z.of_nat i) h2) mod m.

Definition compute_hash_positions (element : list u8) (k : nat) (m : usize) (tweak : Z)
  : option (list usize) :=
  let h1 := murmur_hash element 0 tweak in
  let h2 := murmur_hash element 1 tweak in
  if (m =? 0) && negb (k =? 0)%nat then None
  else Some (position h1 h2 m <$> seq 0 k).

(** ** The filter *)

Record BloomFilter := mk_filter {
  bits : list bool;
  k : nat;
  m : usize;
  n : usize;
  tweak : Z
}.

Definition new_with_tweak (m : usize) (k : nat) (tweak : Z) : BloomFilter :=
  mk_filter (replicate (Z.to_nat m) false) k m 0 tweak.

Definition new (m : usize) (k : nat) : BloomFilter := new_with_tweak m k 0.

(** [bits.set(pos, true)]. *)
Definition set_bit (l : list bool) (pos : usize) : option (list bool) :=
  _ ← l !! Z.to_nat pos; Some (<[Z.to_nat pos := true]> l).

Definition set_bits (l : list bool) (positions : list usize) : option (list bool) :=
  foldl (fun acc pos => l ← acc; set_bit l pos) (Some l) positions.

Definition insert (element : list u8) (f : BloomFilter) : option BloomFilter :=
  positions ← compute_hash_positions element (k f) (m f) (tweak f);
  l ← set_bits (bits f) positions;
  Some (mk_filter l (k f) (m f) (wrapping_add 64 (n f) 1) (tweak f)).

(** [positions.iter().all(|pos| bits[pos])] stops at the first clear bit. *)
Fixpoint all_set (l : list bool) (positions : list usize) : option bool :=
  match positions with
  | [] => Some true
  | pos :: rest => b ← l !! Z.to_nat pos; if (b : bool) then all_set l rest else Some false
  end.

Definition contains (element : list u8) (f : BloomFilter) : option bool :=
  positions ← compute_hash_positions element (k f) (m f) (tweak f);
  all_set (bits f) positions.

(** The accumulator of [contains_constant_time]: every bit is read. *)
Definition and_bits (l : list bool) (positions : list usize) : option Z :=
  foldl (fun acc pos => result ← acc; b ← l !! Z.to_nat pos;
                        Some (Z.land result (if (b : bool) then 1 else 0)))
    (Some 1) positions.

Definition contains_constant_time (element : list u8) (f : BloomFilter) : option bool :=
  positions ← compute_hash_positions element (k f) (m f) (tweak f);
  result ← and_bits (bits f) positions;
  Some (result =? 1).

(** [merge] asserts equal sizes and hash counts, not equal tweaks. *)
Definition merge (other f : BloomFilter) : option BloomFilter :=
  if negb (m f =? m other) then None
  else if negb (k f =? k other)%nat then None
  else Some (mk_filter (zip_with orb (bits f) (bits other)) (k f) (m f)
               (wrapping_add 64 (n f) (n other)) (tweak f)).

Definition bits_set (f : BloomFilter) : nat := length (filter Is_true (bits f)).

Definition set_tweak (tweak : Z) (f : BloomFilter) : BloomFilter :=
  mk_filter (bits f) (k f) (m f) (n f) tweak.

Definition clear (f : BloomFilter) : BloomFilter :=
  mk_filter (replicate (length (bits f)) false) (k f) (m f) 0 (tweak f).

End positions.

(** *** The encoding of a filter

    The bits of a [BitVec<u8, Lsb0>] are stored in bytes, the first bit of a byte as
    its least significant one; [bitvec_serde] writes the bytes and the number of bits. *)

Definition byte_of_bits (l : list bool) : u8 := foldr (fun b byte => 2 * byte + Z.b2z b) 0 l.

Fixpoint as_raw_slice (l : list bool) : list u8 :=
  match l with
  | [] => []
  | b0 :: b1 :: b2 :: b3 :: b4 :: b5 :: b6 :: b7 :: rest =>
      byte_of_bits [b0; b1; b2; b3; b4; b5; b6; b7] :: as_raw_slice rest
  | last => [byte_of_bits last]
  end.

Definition bits_of_byte (byte : u8) : list bool := Z.testbit byte <$> [0; 1; 2; 3; 4; 5; 6; 7].

Definition from_vec (bytes : list u8) : list bool := concat (bits_of_byte <$> bytes).

(** The fields that are written: the bytes and the number of bits, [k], [m], [n] and
    the tweak. *)
Definition FilterRepr : Type := list u8 * usize * nat * usize * usize * Z.

(** The [bincode] crate. *)
Class Bincode : Type := {
  bincode_serialize : FilterRepr -> option (list u8);
  bincode_deserialize : list u8 -> option FilterRepr
}.

(** What was written is read back; no bytes are no filter. *)
Class BincodeLaws (B : Bincode) : Prop := {
  bincode_roundtrip r b : bincode_serialize r = Some b -> bincode_deserialize b = Some r;
  bincode_empty : bincode_deserialize [] = None
}.

Definition to_bytes `{Bincode} (f : BloomFilter) : list u8 :=
  default [] (bincode_serialize
    (as_raw_slice (bits f), Z.of_nat (length (bits f)), k f, m f, n f, tweak f)).

Definition from_bytes `{Bincode} (bytes : list u8) : option BloomFilter :=
  match bincode_deserialize bytes with
  | Some (raw, len, k, m, n, tweak) => Some (mk_filter (take (Z.to_nat len) (from_vec raw)) k m n tweak)
  | None => None
  end.

(** ** The counting filter *)
Module Counting.

Definition MAX_COUNTER : u8 := 15.

Record t := mk { counters : list u8; k : nat; m : usize; n : usize; tweak : Z }.

Definition bytes_for (m : usize) : nat := Z.to_nat ((m + 1) / 2).

Definition new_with_tweak (m : usize) (k : nat) (tweak : Z) : t :=
  mk (replicate (bytes_for m) 0) k m 0 tweak.

Definition new (m : usize) (k : nat) : t := new_with_tweak m k 0.

(** The even positions are the upper halves of the bytes. *)
Definition get_counter (l : list u8) (pos : usize) : option u8 :=
  byte ← l !! Z.to_nat (pos / 2);
  Some (if pos mod 2 =? 0 then Z.shiftr byte 4 else Z.land byte 0x0F).

Definition set_counter (l : list u8) (pos : usize) (value : u8) : option (list u8) :=
  byte ← l !! Z.to_nat (pos / 2);
  Some (<[Z.to_nat (pos / 2) :=
          if pos mod 2 =? 0 then Z.lor (Z.land byte 0x0F) (Z.shiftl value 4)
          else Z.lor (Z.land byte 0xF0) value]> l).

Definition increment (l : list u8) (pos : usize) : option (list u8) :=
  current ← get_counter l pos;
  if current <? MAX_COUNTER then set_counter l pos (current + 1) else Some l.

Definition decrement (l : list u8) (pos : usize) : option (list u8) :=
  current ← get_counter l pos;
  if 0 <? current then set_counter l pos (current - 1) else Some l.

Definition each (f : list u8 -> usize -> option (list u8)) (l : list u8)
  (positions : list usize) : option (list u8) :=
  foldl (fun acc pos => l ← acc; f l pos) (Some l) positions.

Section hashing.
Context (murmur3 : list u8 -> Z -> Z).

Definition add (element : list u8) (f : t) : option t :=
  positions ← compute_hash_positions murmur3 element (k f) (m f) (tweak f);
  l ← each increment (counters f) positions;
  Some (mk l (k f) (m f) (wrapping_add 64 (n f) 1) (tweak f)).

Definition remove (element : list u8) (f : t) : option t :=
  positions ← compute_hash_positions murmur3 element (k f) (m f) (tweak f);
  l ← each decrement (counters f) positions;
  Some (mk l (k f) (m f) (saturating_sub (n f) 1) (tweak f)).

Fixpoint all_positive (l : list u8) (positions : list usize) : option bool :=
  match positions with
  | [] => Some true
  | pos :: rest =>
      c ← get_counter l pos;
      if 0 <? c then all_positive l rest else Some false
  end.

Definition contains (element : list u8) (f : t) : option bool :=
  positions ← compute_hash_positions murmur3 element (k f) (m f) (tweak f);
  all_positive (counters f) positions.

End hashing.

Definition clear (f : t) : t := mk (replicate (length (counters f)) 0) (k f) (m f) 0 (tweak f).

(** The length of the run at the head of a list, at most [max]. *)
Fixpoint run_length (value : u8) (max : nat) (l : list u8) : nat :=
  match max, l with
  | S max, x :: l => if x =? value then S (run_length value max l) else O
  | _, _ => O
  end.

(** The outer loop of [to_rle]; every round consumes a run. *)
Fixpoint rle_loop (fuel : nat) (l : list u8) : list u8 :=
  match fuel, l with
  | S fuel, value :: rest =>
      let run := S (run_length value 254 rest) in
      Z.of_nat run :: value :: rle_loop fuel (drop run l)
  | _, _ => []
  end.

Definition to_rle (f : t) : list u8 := rle_loop (length (counters f)) (counters f).

Fixpoint rle_decode (data : list u8) : list u8 :=
  match data with
  | run_length :: value :: rest => replicate (Z.to_nat run_length) value ++ rle_decode rest
  | _ => []
  end.

Definition from_rle (data : list u8) (m : usize) (k : nat) (tweak : Z) : option t :=
  let counters := rle_decode data in
  if (length counters =? bytes_for m)%nat then Some (mk counters k m 0 tweak) else None.

End Counting.

(** ** Throttling of clients *)
Module GapLimit.

Definition CONSECUTIVE_BLOCKS_THRESHOLD : nat := 5.
Definition MAX_MATCHES_PER_BLOCK : usize := 1000.

(** [threshold] is ten times the expected rate, at least one, rounded down. *)
Record ClientMatchHistory := {
  threshold : usize;
  recent_matches : list usize;
  consecutive_violations : nat;
  total_matches : u64;
  is_throttled : bool
}.

Definition history_new (threshold : usize) : ClientMatchHistory :=
  Build_ClientMatchHistory threshold [] 0 0 false.

Definition record_block (matches : usize) (h : ClientMatchHistory)
  : ClientMatchHistory * bool :=
  let recent := recent_matches h ++ [matches] in
  let recent := if (CONSECUTIVE_BLOCKS_THRESHOLD <? length recent)%nat then tail recent
                else recent in
  let exceeds := (threshold h <? matches) || (MAX_MATCHES_PER_BLOCK <? matches) in
  let violations := if exceeds then S (consecutive_violations h) else O in
  let throttled := is_throttled h
                   || (CONSECUTIVE_BLOCKS_THRESHOLD <=? violations)%nat in
  ({| threshold := threshold h; recent_matches := recent;
      consecutive_violations := violations;
      total_matches := wrapping_add 64 (total_matches h) matches;
      is_throttled := throttled |}, throttled).

Definition reset (h : ClientMatchHistory) : ClientMatchHistory :=
  Build_ClientMatchHistory (threshold h) [] 0 (total_matches h) false.

Inductive ThrottleReason := ClientNotFound | MatchRateExceeded.

Abbreviation Enforcer := (gmap string ClientMatchHistory).

Definition register_client (client_id : string) (threshold : usize) (e : Enforcer) : Enforcer :=
  <[client_id := history_new threshold]> e.

Definition record_matches (client_id : string) (matches : usize) (e : Enforcer)
  : Enforcer * result ThrottleReason unit :=
  match e !! client_id with
  | None => (e, Err ClientNotFound)
  | Some history =>
      let (history, throttled) := record_block matches history in
      (<[client_id := history]> e, if throttled then Err MatchRateExceeded else Ok tt)
  end.

Definition unregister_client (client_id : string) (e : Enforcer) : Enforcer :=
  delete client_id e.

End GapLimit.

(** ** Configuration and service *)

(** What the code asks of its floating-point values: whether a rate is below [0.01],
    above [0.1], whether a noise percentage is outside [0..100] or not positive, the
    number of noise elements for a number of elements, and the optimal size in bits
    and number of hash functions for a number of elements. *)
Class Floats (F : Type) : Type := {
  rate_too_low : F -> bool;
  rate_too_high : F -> bool;
  noise_out_of_range : F -> bool;
  noise_off : F -> bool;
  noise_ceil : F -> usize -> nat;
  calculate_optimal_parameters : nat -> F -> usize * nat
}.

(** An admissible rate asks for at least one bit per filter. *)
Class FloatLaws (F : Type) `{Floats F} : Prop := {
  optimal_size_pos elements rate : rate_too_high rate = false ->
    0 < (calculate_optimal_parameters (S elements) rate).1
}.

Inductive FilterError :=
| FilterTooLarge (size max : usize)
| TooManyElements (count max : usize)
| InvalidFPR
| InvalidParameters
| TooManyAddresses (count max : usize)
| DataError.

Record BloomConfig {F : Type} := {
  target_fpr : F;
  max_size_bits : usize;
  max_elements : usize;
  rotation_interval : u64;
  privacy_noise_percent : F
}.
Arguments BloomConfig : clear implicits.

Record BlockFilter := {
  bf_block_hash : Hash;
  bf_block_height : u64;
  bf_filter : BloomFilter;
  bf_transaction_count : Z
}.

Inductive MatchedField :=
| Sender
| Recipient
| ContractCreation
| LogAddress (index : nat).

Record LogEntry := { le_address : Address; le_topics : list Hash; le_data : list u8 }.

Record TransactionReceipt := { tr_tx_hash : Hash; tr_logs : list LogEntry }.

Section service.
Context {F : Type} `{Floats F}.
Context (murmur3 : list u8 -> Z -> Z) (sha256 : list u8 -> Hash).

Definition validate (c : BloomConfig F) : result FilterError unit :=
  if rate_too_low (target_fpr c) then Err InvalidFPR
  else if rate_too_high (target_fpr c) then Err InvalidFPR
  else if 1000 <? max_elements c then Err (TooManyElements (max_elements c) 1000)
  else if max_size_bits c =? 0 then Err InvalidParameters
  else if noise_out_of_range (privacy_noise_percent c) then Err InvalidParameters
  else Ok tt.

Definition new_with_fpr (expected_elements : nat) (rate : F) : BloomFilter :=
  let params := calculate_optimal_parameters expected_elements rate in
  new params.1 params.2.

Definition insert_all (elements : list (list u8)) (f : BloomFilter) : option BloomFilter :=
  foldl (fun acc e => f ← acc; insert murmur3 e f) (Some f) elements.

(** The text [noise_<tweak>_<i>]. *)
Definition noise_element (tweak : Z) (i : nat) : list u8 :=
  (fun c => Z.of_N (Ascii.N_of_ascii c))
    <$> String.list_ascii_of_string ("noise_" +:+ pretty tweak +:+ "_" +:+ pretty i).

Definition noise_count (config : BloomConfig F) (n : usize) : nat :=
  let c := noise_ceil (privacy_noise_percent config) n in
  if (c =? 0)%nat && (0 <? n) then 1%nat else c.

Definition add_privacy_noise (f : BloomFilter) (config : BloomConfig F) : option BloomFilter :=
  if noise_off (privacy_noise_percent config) then Some f
  else insert_all (noise_element (tweak f) <$> seq 0 (noise_count config (n f))) f.

Definition or_panic {A} (o : option A) : result FilterError A :=
  match o with Some a => Ok a | None => Panic end.

Definition create_filter (addresses : list Address) (config : BloomConfig F)
  : result FilterError BloomFilter :=
  let? _ := validate config in
  if max_elements config <? Z.of_nat (length addresses) then
    Err (TooManyAddresses (Z.of_nat (length addresses)) (max_elements config))
  else
    let filter := new_with_fpr (Nat.max (length addresses) 1) (target_fpr config) in
    let? filter := or_panic (insert_all (address_bytes <$> addresses) filter) in
    let? filter := or_panic (add_privacy_noise filter config) in
    if max_size_bits config <? m filter then
      Err (FilterTooLarge (m filter) (max_size_bits config))
    else Ok filter.

Definition compute_contract_address (sender : Address) (nonce : u64) : Address :=
  from_be_bytes (drop 12 (hash_bytes (sha256 (address_bytes sender ++ be_bytes 8 nonce)))).

(** The first log whose address the filter contains. *)
Fixpoint match_logs (filter : BloomFilter) (i : nat) (logs : list LogEntry)
  : option (option MatchedField) :=
  match logs with
  | [] => Some None
  | log :: rest =>
      b ← contains murmur3 (address_bytes (le_address log)) filter;
      if (b : bool) then Some (Some (LogAddress i)) else match_logs filter (S i) rest
  end.

(** [None] inside stands for no match; the flag [matches] says the same. *)
Definition matches (filter : BloomFilter) (tx : SignedTransaction)
  (receipt : option TransactionReceipt) : option (option MatchedField) :=
  b ← contains murmur3 (address_bytes (st_from tx)) filter;
  if (b : bool) then Some (Some Sender)
  else
    let logs := match receipt with
                | None => Some None
                | Some receipt => match_logs filter 0 (tr_logs receipt)
                end in
    match st_to tx with
    | Some to =>
        b ← contains murmur3 (address_bytes to) filter;
        if (b : bool) then Some (Some Recipient) else logs
    | None =>
        b ← contains murmur3
              (address_bytes (compute_contract_address (st_from tx) (st_nonce tx))) filter;
        if (b : bool) then Some (Some ContractCreation) else logs
    end.

(** The transactions of a block, as the provider returns them, that match. *)
Fixpoint filter_matching (filter : BloomFilter) (txs : list SignedTransaction)
  : option (list SignedTransaction) :=
  match txs with
  | [] => Some []
  | tx :: rest =>
      r ← matches filter tx None;
      rest ← filter_matching filter rest;
      Some (match r with Some _ => tx :: rest | None => rest end)
  end.

Definition get_filtered_transactions
  (get_transactions : u64 -> result FilterError (list SignedTransaction))
  (block_height : u64) (filter : BloomFilter) : result FilterError (list SignedTransaction) :=
  let? transactions := get_transactions block_height in
  or_panic (filter_matching filter transactions).

Definition create_block_filter (default_config : BloomConfig F) (block_hash : Hash)
  (block_height : u64) (addresses : list Address) : result FilterError BlockFilter :=
  let? filter := or_panic (insert_all (address_bytes <$> addresses)
                   (new_with_fpr (Nat.max (length addresses) 1) (target_fpr default_config))) in
  Ok {| bf_block_hash := block_hash; bf_block_height := block_height;
        bf_filter := filter; bf_transaction_count := 0 |}.

Definition might_contain_address (b : BlockFilter) (address : Address) : option bool :=
  contains murmur3 (address_bytes address) (bf_filter b).

End service.
