(* ===== verification/BloomProps.v ===== *)
(** * Bloom filters: what is proved of them

    No false negatives: of the filter under insertion, merging, changes of the tweak
    and its encoding, of the counting filter as long as no counter saturates, and of
    the service from the creation of a filter to the transactions it returns.  The
    run-length encoding is lossless. *)

From S2P Require Import Prelude SharedTypes Bloom.

Local Open Scope Z_scope.
Local Open Scope qc_scope.

Section filter_props.
Context (murmur3 : list u8 -> Z -> Z).

Local Abbreviation positions_of := (compute_hash_positions murmur3).

(** ** Positions *)

Definition below (m : Z) (pos : usize) : Prop := 0 <= pos < m.

Lemma positions_ok e k m tw : 0 < m ->
  exists ps, positions_of e k m tw = Some ps /\ Forall (below m) ps.
Proof.
  intros Hm. unfold compute_hash_positions.
  destruct (Z.eqb_spec m 0); [lia|]. simpl. eexists. split; [done|].
  apply Forall_fmap, Forall_true. intros i. unfold below, position. simpl.
  by apply Z.mod_pos_bound.
Qed.

(** ** Bits *)

Definition set_at (l : list bool) (pos : usize) : Prop := l !! Z.to_nat pos = Some true.

Lemma set_bits_ok ps : forall l, Forall (below (Z.of_nat (length l))) ps ->
  exists l', set_bits l ps = Some l' /\ length l' = length l
    /\ (forall i, l !! i = Some true -> l' !! i = Some true)
    /\ Forall (set_at l') ps.
Proof.
  unfold set_bits. induction ps as [|p ps IH]; intros l Hps; simpl; [by eauto|].
  inversion_clear Hps as [|? ? Hp Hps'].
  destruct (lookup_lt_is_Some_2 l (Z.to_nat p)) as [b Hb]; [unfold below in Hp; lia|].
  unfold set_bit at 2. rewrite Hb. cbn [mbind option_bind].
  destruct (IH (<[Z.to_nat p := true]> l)) as (l' & -> & Hl & Hmono & Hall).
  { by rewrite length_insert. }
  exists l'. rewrite length_insert in Hl. split_and!; try done.
  - intros i Hi. apply Hmono. destruct (decide (i = Z.to_nat p)) as [->|Hne].
    + apply list_lookup_insert_eq. by eapply lookup_lt_Some.
    + by rewrite list_lookup_insert_ne.
  - constructor; [|done]. apply Hmono, list_lookup_insert_eq. by eapply lookup_lt_Some.
Qed.

Lemma all_set_true l ps : Forall (set_at l) ps -> all_set l ps = Some true.
Proof. induction 1 as [|p ps Hp _ IH]; simpl; [done|]. by rewrite Hp. Qed.

Lemma all_set_ok l ps : Forall (below (Z.of_nat (length l))) ps ->
  exists b, all_set l ps = Some b.
Proof.
  induction 1 as [|p ps Hp _ [b IH]]; simpl; [by eauto|].
  destruct (lookup_lt_is_Some_2 l (Z.to_nat p)) as [x ->]; [unfold below in Hp; lia|].
  cbn [mbind option_bind]. destruct x; eauto.
Qed.

(** The accumulator ends with the conjunction of the bits. *)
Lemma and_bits_all_set l ps : Forall (below (Z.of_nat (length l))) ps ->
  exists b, all_set l ps = Some b /\ and_bits l ps = Some (if b then 1 else 0).
Proof.
  intros Hps. unfold and_bits.
  enough (Hgen : forall r, r = 0 \/ r = 1 -> exists b, all_set l ps = Some b /\
    foldl (fun acc pos => result ← acc; b ← l !! Z.to_nat pos;
             Some (Z.land result (if (b : bool) then 1 else 0))) (Some r) ps
      = Some (if b then r else 0)).
  { apply Hgen. by right. }
  induction Hps as [|p ps Hp _ IH]; intros r Hr; [by exists true|]. simpl.
  destruct (lookup_lt_is_Some_2 l (Z.to_nat p)) as [x ->]; [unfold below in Hp; lia|].
  cbn [mbind option_bind]. destruct x.
  - replace (Z.land r 1) with r by (destruct Hr as [-> | ->]; reflexivity). by apply IH.
  - rewrite Z.land_0_r. destruct (IH 0) as (b & Hb & ->); [by left|]. exists false.
    split; [done|]. by destruct b.
Qed.

(** ** The filter *)

(** As many bits as the size says. *)
Definition sized (f : BloomFilter) : Prop := Z.of_nat (length (bits f)) = m f.

Definition filter_ok (f : BloomFilter) : Prop := 0 < m f /\ sized f.

(** An element has all the bits set that it has under a tweak. *)
Definition holds_at (f : BloomFilter) (tw : Z) (e : list u8) : Prop :=
  exists ps, positions_of e (k f) (m f) tw = Some ps /\ Forall (set_at (bits f)) ps.

Definition holds (f : BloomFilter) (e : list u8) : Prop := holds_at f (tweak f) e.

Lemma insert_ok e f : filter_ok f -> exists f', insert murmur3 e f = Some f'
  /\ filter_ok f' /\ m f' = m f /\ holds f' e /\ forall e', holds f e' -> holds f' e'.
Proof.
  intros [Hm Hl]. unfold insert.
  destruct (positions_ok e (k f) (m f) (tweak f) Hm) as (ps & Hps & Hin). rewrite Hps.
  cbn [mbind option_bind]. rewrite <-Hl in Hin.
  destruct (set_bits_ok ps (bits f) Hin) as (l' & -> & Hlen & Hmono & Hall).
  eexists. split; [done|]. split; [|split; [done|split]].
  - split; [done|]. unfold sized. cbn. by rewrite Hlen.
  - exists ps. by split.
  - intros e' (ps' & Hps' & Hset). exists ps'. split; [done|].
    eapply Forall_impl; [exact Hset|]. intros p. apply Hmono.
Qed.

Lemma merge_lookup f g f' : sized f -> sized g -> merge g f = Some f' ->
  sized f' /\ k f' = k f /\ k g = k f /\ m f' = m f /\ m g = m f /\ tweak f' = tweak f
  /\ (forall i, bits f !! i = Some true \/ bits g !! i = Some true ->
        bits f' !! i = Some true).
Proof.
  unfold sized. intros Hl Hl'. unfold merge. destruct (Z.eqb_spec (m f) (m g)) as [Em|]; [|done].
  destruct (Nat.eqb_spec (k f) (k g)) as [Ek|]; [|done]. simpl. intros [= <-].
  split_and!; try done.
  - cbn. rewrite length_zip_with. lia.
  - intros i Hi. cbn. rewrite lookup_zip_with.
    assert (Hlen : length (bits f) = length (bits g)) by lia.
    destruct Hi as [Hi|Hi]; apply lookup_lt_Some in Hi as Hlt.
    + destruct (lookup_lt_is_Some_2 (bits g) i) as [b Hb]; [lia|].
      rewrite Hi, Hb. done.
    + destruct (lookup_lt_is_Some_2 (bits f) i) as [b Hb]; [lia|].
      rewrite Hi, Hb. simpl. by rewrite orb_true_r.
Qed.

Lemma holds_contains f e : holds f e -> contains murmur3 e f = Some true.
Proof.
  intros (ps & Hps & Hset). unfold contains. rewrite Hps. by apply all_set_true.
Qed.

Lemma contains_total f e : filter_ok f -> exists b, contains murmur3 e f = Some b.
Proof.
  intros [Hm Hl]. unfold contains.
  destruct (positions_ok e (k f) (m f) (tweak f) Hm) as (ps & -> & Hin).
  cbn [mbind option_bind]. rewrite <-Hl in Hin. by apply all_set_ok.
Qed.

End filter_props.

(** *** The filters of a program *)

Section built_props.
Context {B : Bincode} {BL : BincodeLaws B} (murmur3 : list u8 -> Z -> Z).

(** The filters that can be built, with the elements put into them and the tweak each
    was put in with.  Nothing is known of a filter decoded from foreign bytes but that
    it has as many bits as its size. *)
Inductive built : BloomFilter -> list (Z * list u8) -> Prop :=
  | built_new size hashes tw : 0 <= size -> built (new_with_tweak size hashes tw) []
  | built_insert f es e f' : built f es -> insert murmur3 e f = Some f' ->
      built f' ((tweak f, e) :: es)
  | built_merge f es g es' f' : built f es -> built g es' -> merge g f = Some f' ->
      built f' (es ++ es')
  | built_set_tweak f es tw : built f es -> built (set_tweak tw f) es
  | built_clear f es : built f es -> built (clear f) []
  | built_reload f es f' : built f es -> from_bytes (to_bytes f) = Some f' -> built f' es
  | built_decode b f : from_bytes b = Some f -> sized f -> built f [].

Lemma positions_below e f ps : sized f ->
  compute_hash_positions murmur3 e (k f) (m f) (tweak f) = Some ps ->
  Forall (below (Z.of_nat (length (bits f)))) ps.
Proof.
  unfold sized. intros Hl Hps. rewrite Hl. destruct (decide (m f = 0)) as [E|].
  - unfold compute_hash_positions in Hps. rewrite E in Hps. cbn in Hps.
    destruct (k f); [|done]. by injection Hps as <-.
  - destruct (positions_ok murmur3 e (k f) (m f) (tweak f)) as (ps' & E & Hin); [lia|]. by simplify_eq.
Qed.

Lemma insert_holds e f f' : sized f -> insert murmur3 e f = Some f' ->
  sized f' /\ holds_at murmur3 f' (tweak f) e
  /\ forall tw e', holds_at murmur3 f tw e' -> holds_at murmur3 f' tw e'.
Proof.
  unfold sized. intros Hl Hi. unfold insert in Hi. apply bind_Some in Hi as (ps & Hps & Hi).
  apply bind_Some in Hi as (l & Hs & [= <-]). cbn [bits m].
  destruct (set_bits_ok ps (bits f) (positions_below e f ps Hl Hps)) as (l' & E & Hlen & Hmono & Hall). simplify_eq.
  split_and!; [by rewrite Hlen|by exists ps|]. intros tw e' (ps' & Hps' & Hset). exists ps'.
  split; [done|]. eapply Forall_impl; [exact Hset|]. intros p. apply Hmono.
Qed.

Lemma testbit_byte l i : Z.testbit (byte_of_bits l) (Z.of_nat i) = default false (l !! i).
Proof.
  revert i. induction l as [|b l IH]; intros i; [by rewrite Z.testbit_0_l|]. cbn [byte_of_bits foldr].
  destruct i as [|i]; [apply Z.testbit_0_r|]. rewrite Nat2Z.inj_succ, Z.testbit_succ_r by lia. apply IH.
Qed.

Lemma bits_of_byte_of_bits l : bits_of_byte (byte_of_bits l) = (fun i => default false (l !! i)) <$> seq 0 8.
Proof. rewrite <-(list_fmap_ext _ _ _ (fun _ i _ => testbit_byte l i)). done. Qed.

(** The bytes hold the bits. *)
Lemma raw_roundtrip l : take (length l) (from_vec (as_raw_slice l)) = l.
Proof.
  remember (length l) as len eqn:El. revert l El.
  induction (lt_wf len) as [len _ IH]. intros l ->.
  destruct l as [|b0 [|b1 [|b2 [|b3 [|b4 [|b5 [|b6 [|b7 l]]]]]]]]; try done;
    unfold from_vec; cbn [as_raw_slice fmap list_fmap concat]; rewrite bits_of_byte_of_bits; try done.
  cbn. do 8 f_equal. apply (IH (length l)); [cbn; lia|done].
Qed.

Lemma reload_same f f' : from_bytes (to_bytes f) = Some f' -> f' = f.
Proof.
  unfold from_bytes, to_bytes. destruct (bincode_serialize _) as [b|] eqn:E; cbn.
  - rewrite (bincode_roundtrip _ _ E), Nat2Z.id, raw_roundtrip. intros [= <-]. by destruct f.
  - by rewrite bincode_empty.
Qed.

Lemma built_inv f es : built f es -> sized f /\ Forall (fun te => holds_at murmur3 f te.1 te.2) es.
Proof.
  induction 1 as [size hashes tw Hs|f es e f' _ [Hf Hall] Hi|f es g es' f' _ [Hf Hall] _ [Hg Hall'] Hm
                 |f es tw _ [Hf Hall]|f es _ [Hf Hall]|f es f' _ IH Hr|b f _ Hf].
  - split; [|done]. unfold sized. cbn. rewrite length_replicate. lia.
  - destruct (insert_holds e f f' Hf Hi) as (Hf' & He & Hmono). split; [done|].
    constructor; [done|]. eapply Forall_impl; [exact Hall|]. intros te. apply Hmono.
  - destruct (merge_lookup f g f' Hf Hg Hm) as (Hf' & Ek & Ek' & Em & Em' & _ & Hor).
    split; [done|]. apply Forall_app. split.
    + eapply Forall_impl; [exact Hall|]. intros te (ps & Hps & Hset). exists ps.
      rewrite Ek, Em. split; [done|]. eapply Forall_impl; [exact Hset|].
      intros p Hp. apply Hor. by left.
    + eapply Forall_impl; [exact Hall'|]. intros te (ps & Hps & Hset). exists ps.
      rewrite Ek, Em, <-Ek', <-Em'. split; [done|].
      eapply Forall_impl; [exact Hset|]. intros p Hp. apply Hor. by right.
  - by split.
  - split; [|done]. unfold sized in *. cbn. by rewrite length_replicate.
  - by rewrite (reload_same f f' Hr).
  - by split.
Qed.

(** A filter of size zero has no positions to give. *)
Lemma positions_total e f : is_Some (compute_hash_positions murmur3 e (k f) (m f) (tweak f))
  <-> m f <> 0 \/ k f = O.
Proof.
  unfold compute_hash_positions. destruct (Z.eqb_spec (m f) 0), (Nat.eqb_spec (k f) 0); cbn;
    (split; [intros [? ?]|]); naive_solver.
Qed.

End built_props.

(** C37 (safety): no false negatives.  Through insertions, merges, changes of the tweak,
    clearing, and encoding and decoding, a filter contains every element that was
    inserted, since the last clearing, into it or into a filter merged into it under
    the tweak it has now; an element inserted under another tweak may be lost.  Asking
    and inserting return, unless the filter has size zero and some hash functions, when
    both panic; and the branch-free test gives the answer of the plain one. *)
Theorem bloom_no_false_negatives {B : Bincode} {BL : BincodeLaws B} murmur3 f es e : built murmur3 f es ->
  ((tweak f, e) ∈ es -> contains murmur3 e f = Some true)
  /\ (is_Some (contains murmur3 e f) <-> m f <> 0 \/ k f = O)
  /\ (is_Some (insert murmur3 e f) <-> m f <> 0 \/ k f = O)
  /\ contains_constant_time murmur3 e f = contains murmur3 e f.
Proof.
  intros Hb. destruct (built_inv murmur3 f es Hb) as [Hf Hall].
  split; [intros He; rewrite Forall_forall in Hall; by apply holds_contains, (Hall _ He)|].
  rewrite <-(positions_total murmur3 e f). unfold contains, insert, contains_constant_time.
  destruct (compute_hash_positions murmur3 e (k f) (m f) (tweak f)) as [ps|] eqn:Hps;
    cbn [mbind option_bind]; [|done].
  pose proof (positions_below murmur3 e f ps Hf Hps) as Hin.
  destruct (and_bits_all_set (bits f) ps Hin) as (b' & -> & ->).
  destruct (set_bits_ok ps (bits f) Hin) as (l' & -> & _). cbn [mbind option_bind].
  split_and!; [by split; eauto..|by destruct b'].
Qed.

(** A hash that adds up the bytes. *)
Definition sum_hash (l : list u8) (seed : Z) : Z := foldr Z.add (seed * 7) l.

(** An encoding that writes the numbers one after the other. *)
Definition plain_bincode : Bincode := {|
  bincode_serialize '(raw, len, k, m, n, tw) := Some (len :: Z.of_nat k :: m :: n :: tw :: raw);
  bincode_deserialize l := match l with
    | len :: k :: m :: n :: tw :: raw => Some (raw, len, Z.to_nat k, m, n, tw)
    | _ => None
    end
|}.

Lemma plain_bincode_laws : BincodeLaws plain_bincode.
Proof. split; [|done]. intros [[[[[raw len] k] m] n] tw] b [= <-]. cbn. by rewrite Nat2Z.id. Qed.

(** An element is inserted, the tweak is changed and changed back, and the filter is
    written and read. *)
Lemma bloom_no_false_negatives_witness : exists f,
  insert sum_hash [1; 2] (new 100 3) = Some f /\
  let f := set_tweak 0 (set_tweak 9 f) in
  @from_bytes plain_bincode (@to_bytes plain_bincode f) = Some f /\ contains sum_hash [1; 2] f = Some true.
Proof.
  destruct (insert sum_hash [1; 2] (new 100 3)) as [f|] eqn:E; [|vm_compute in E; discriminate].
  exists f. split; [reflexivity|]. cbn zeta. split; [vm_compute in E; by injection E as <-|].
  apply (@bloom_no_false_negatives plain_bincode plain_bincode_laws sum_hash (set_tweak 0 (set_tweak 9 f))
    [(0, [1; 2])] [1; 2]); [|by left].
  do 2 apply built_set_tweak. apply (built_insert sum_hash (new 100 3)); [|exact E]. apply built_new. lia.
Defined.

(** A decoded filter is not checked: one that says it has more bits than it brings
    panics when it is asked. *)
Example decoded_filter_panics : exists f,
  @from_bytes plain_bincode [8; 3; 1000; 0; 0; 255] = Some f /\ contains sum_hash [1; 2] f = None.
Proof. eexists. split; [reflexivity|]. by vm_compute. Qed.

(** Changing the tweak of a filter loses its contents: nothing is rehashed. *)
Theorem rotation_forgets : exists f,
  insert sum_hash [1; 2] (new 100 3) = Some f
  /\ contains sum_hash [1; 2] (set_tweak 1 f) = Some false.
Proof.
  destruct (insert sum_hash [1; 2] (new 100 3)) as [f|] eqn:E; [|vm_compute in E; discriminate].
  exists f. split; [done|]. vm_compute in E. injection E as <-. by vm_compute.
Qed.

(** ** The service *)

Section service_props.
Context {F : Type} `{FL : FloatLaws F}.
Context (murmur3 : list u8 -> Z -> Z) (sha256 : list u8 -> Hash).

Lemma insert_all_ok es : forall f, filter_ok f ->
  exists f', insert_all murmur3 es f = Some f' /\ filter_ok f' /\ m f' = m f
    /\ Forall (holds murmur3 f') es /\ (forall e, holds murmur3 f e -> holds murmur3 f' e).
Proof.
  unfold insert_all. induction es as [|e es IH]; intros f Hf; simpl; [by eauto 6|].
  destruct (insert_ok murmur3 e f Hf) as (f1 & -> & Hf1 & Hm1 & He & Hmono1).
  destruct (IH f1 Hf1) as (f' & -> & Hf' & Hm' & Hall & Hmono').
  exists f'. split_and!; [done|done|congruence|by constructor; auto|by auto].
Qed.

Lemma new_with_fpr_ok elements (c : BloomConfig F) :
  rate_too_high (target_fpr c) = false ->
  filter_ok (new_with_fpr (Nat.max elements 1) (target_fpr c)).
Proof.
  intros Hr. assert (Hp : 0 < m (new_with_fpr (Nat.max elements 1) (target_fpr c))).
  { destruct elements as [|j]; simpl Nat.max.
    - by apply optimal_size_pos.
    - replace (S (Nat.max j 0)) with (S j) by lia. by apply optimal_size_pos. }
  split; [done|]. unfold sized. cbn in *. rewrite length_replicate. lia.
Qed.

Lemma add_privacy_noise_ok f (c : BloomConfig F) : filter_ok f ->
  exists f', add_privacy_noise murmur3 f c = Some f' /\ filter_ok f' /\ m f' = m f
    /\ (forall e, holds murmur3 f e -> holds murmur3 f' e).
Proof.
  intros Hf. unfold add_privacy_noise. destruct (noise_off _); [by eauto|].
  destruct (insert_all_ok (noise_element (tweak f) <$> seq 0 (noise_count c (n f))) f Hf)
    as (f' & -> & Hf' & Hm & _ & Hmono). by eauto.
Qed.

(** A filter of the service holds the addresses it was made for. *)
Lemma create_filter_built addresses (c : BloomConfig F) :
  create_filter murmur3 addresses c <> Panic /\
  forall f, create_filter murmur3 addresses c = Ok f ->
    filter_ok f /\ (forall a, a ∈ addresses -> holds murmur3 f (address_bytes a))
      /\ m f <= max_size_bits c /\ Z.of_nat (length addresses) <= max_elements c.
Proof.
  unfold create_filter. destruct (validate c) as [[]|e|] eqn:Ev; simpl;
    [|by split|by unfold validate in Ev; repeat case_match].
  assert (Hr : rate_too_high (target_fpr c) = false).
  { unfold validate in Ev. do 2 (case_match; [done|]). done. }
  destruct (Z.ltb_spec (max_elements c) (Z.of_nat (length addresses))); [by split|].
  destruct (insert_all_ok (address_bytes <$> addresses) _ (new_with_fpr_ok (length addresses) c Hr))
    as (f1 & -> & Hf1 & _ & Hall & _). simpl.
  destruct (add_privacy_noise_ok f1 c Hf1) as (f2 & -> & Hf2 & _ & Hmono). simpl.
  destruct (Z.ltb_spec (max_size_bits c) (m f2)); [by split|]. split; [done|].
  intros f [= <-]. split; [exact Hf2|]. split; [|lia].
  intros a Ha. apply Hmono. rewrite Forall_fmap, Forall_forall in Hall. by apply Hall.
Qed.

(** A transaction that concerns an address: as sender, recipient or created contract. *)
Definition concerns (a : Address) (tx : SignedTransaction) : Prop :=
  st_from tx = a \/ st_to tx = Some a
  \/ st_to tx = None /\ compute_contract_address sha256 (st_from tx) (st_nonce tx) = a.

Lemma match_logs_ok f logs : filter_ok f ->
  forall i, is_Some (match_logs murmur3 f i logs).
Proof.
  intros Hf. induction logs as [|l logs IH]; intros i; simpl; [by eauto|].
  destruct (contains_total murmur3 f (address_bytes (le_address l)) Hf) as [b ->].
  cbn [mbind option_bind]. destruct b; [by eauto|apply IH].
Qed.

Lemma matches_ok f tx receipt : filter_ok f ->
  exists r, matches murmur3 sha256 f tx receipt = Some r
    /\ (forall a, holds murmur3 f (address_bytes a) -> concerns a tx -> is_Some r).
Proof.
  intros Hf. unfold matches.
  destruct (contains_total murmur3 f (address_bytes (st_from tx)) Hf) as [b Hb]. rewrite Hb.
  cbn [mbind option_bind]. destruct b; [by eauto|].
  assert (Hl : is_Some (match receipt with None => Some None
    | Some receipt => match_logs murmur3 f 0 (tr_logs receipt) end)).
  { destruct receipt; [by apply match_logs_ok|by eauto]. }
  assert (Hno : forall a, holds murmur3 f (address_bytes a) -> st_from tx <> a).
  { intros a Ha <-. rewrite (holds_contains murmur3 f _ Ha) in Hb. done. }
  destruct (st_to tx) as [to|] eqn:Et.
  - destruct (contains_total murmur3 f (address_bytes to) Hf) as [b Hb']. rewrite Hb'.
    cbn [mbind option_bind]. destruct b; [by eauto|]. destruct Hl as [r ->].
    exists r. split; [done|]. intros a Ha [Hc|[Hc|[Hc _]]]; [by destruct (Hno a)| |congruence].
    assert (to = a) as -> by congruence.
    rewrite (holds_contains murmur3 f _ Ha) in Hb'. done.
  - destruct (contains_total murmur3 f
      (address_bytes (compute_contract_address sha256 (st_from tx) (st_nonce tx))) Hf)
      as [b Hb']. rewrite Hb'.
    cbn [mbind option_bind]. destruct b; [by eauto|]. destruct Hl as [r ->].
    exists r. split; [done|]. intros a Ha [Hc|[Hc|[_ Hc]]]; [by destruct (Hno a)|congruence|].
    rewrite Hc, (holds_contains murmur3 f _ Ha) in Hb'. done.
Qed.

Lemma filter_matching_ok f txs : filter_ok f ->
  exists res, filter_matching murmur3 sha256 f txs = Some res /\ res `sublist_of` txs
    /\ (forall a tx, holds murmur3 f (address_bytes a) -> concerns a tx -> tx ∈ txs -> tx ∈ res).
Proof.
  intros Hf. induction txs as [|tx txs (res & IH & Hsub & Hin)]; simpl.
  { eexists. split; [done|]. split; [done|]. intros a tx _ _ Htx. by apply not_elem_of_nil in Htx. }
  destruct (matches_ok f tx None Hf) as (r & -> & Hr). rewrite IH. cbn [mbind option_bind].
  eexists. split; [done|]. split; [destruct r; by constructor|].
  intros a tx' Ha Hc [->|Htx]%elem_of_cons.
  - destruct (Hr a Ha Hc) as [x ->]. by left.
  - destruct r; [right|]; by apply (Hin a).
Qed.

End service_props.

(** A light client misses nothing.  Creating a filter never panics.
    When it succeeds, the transactions the service returns for a block are among the
    block's transactions, in their order, and include every transaction sent by, sent
    to or creating one of the addresses the filter was created for, whatever noise was
    added. *)
Theorem filtered_transactions_complete {F : Type} `{FL : FloatLaws F} murmur3 sha256
  addresses (c : BloomConfig F) :
  create_filter murmur3 addresses c <> Panic /\
  forall f provider height txs,
    create_filter murmur3 addresses c = Ok f -> provider height = Ok txs ->
    exists res,
      get_filtered_transactions murmur3 sha256 provider height f = Ok res
      /\ res `sublist_of` txs
      /\ (forall a tx, a ∈ addresses -> tx ∈ txs -> concerns sha256 a tx -> tx ∈ res).
Proof.
  destruct (create_filter_built murmur3 addresses c) as [Hnp Hok]. split; [done|].
  intros f provider height txs Hc Hp. destruct (Hok f Hc) as (Hf & Hin & _).
  destruct (filter_matching_ok murmur3 sha256 f txs Hf) as (res & Hr & Hsub & Hres).
  exists res. unfold get_filtered_transactions. rewrite Hp. simpl. rewrite Hr. simpl.
  split; [done|]. split; [done|]. intros a tx Ha Htx Hcon. apply (Hres a); try done. by apply Hin.
Qed.

(** Rates in percent, and a size of ten bits per element. *)
Definition percent : Floats Z := {|
  rate_too_low r := r <? 1; rate_too_high r := 10 <? r;
  noise_out_of_range p := (p <? 0) || (100 <? p); noise_off p := p <=? 0;
  noise_ceil p n := Z.to_nat ((p * n + 99) / 100);
  calculate_optimal_parameters elements _ := (10 * Z.of_nat elements, 3%nat)
|}.

Lemma percent_laws : @FloatLaws Z percent.
Proof. split. intros. cbn. lia. Qed.

Lemma filtered_transactions_complete_witness :
  let c := {| target_fpr := 5; max_size_bits := 1000; max_elements := 10;
              rotation_interval := 1; privacy_noise_percent := 10 |} in
  let tx := {| st_from := 7; st_to := None; st_value := 0; st_nonce := 0; st_gas_price := 0;
               st_gas_limit := 0; st_data := []; st_signature := [] |} in
  exists f res, @create_filter Z percent sum_hash [7] c = Ok f
    /\ get_filtered_transactions sum_hash (fun _ => 0) (fun _ => Ok [tx]) 1 f = Ok res
    /\ tx ∈ res.
Proof.
  intros c tx.
  destruct (@create_filter Z percent sum_hash [7] c) as [f|e|] eqn:E;
    [|vm_compute in E; discriminate..].
  destruct (@filtered_transactions_complete Z percent percent_laws sum_hash (fun _ => 0) [7] c)
    as [_ Hok]. destruct (Hok f (fun _ => Ok [tx]) 1 [tx] E eq_refl) as (res & Hr & _ & Hin).
  exists f, res. split; [reflexivity|]. split; [exact Hr|].
  apply (Hin 7 tx); [by left|by left|left; reflexivity].
Defined.

(** ** The counting filter *)

Section counting_props.
Import Counting.

(** Packing two counters into a byte, checked on all of them. *)
Definition nibbles_ok (byte v : Z) : bool :=
  let hi := Z.lor (Z.land byte 0x0F) (Z.shiftl v 4) in
  let lo := Z.lor (Z.land byte 0xF0) v in
  (Z.shiftr hi 4 =? v) && (Z.land hi 0x0F =? Z.land byte 0x0F)
  && (Z.land lo 0x0F =? v) && (Z.shiftr lo 4 =? Z.shiftr byte 4)
  && (0 <=? hi) && (hi <? 256) && (0 <=? lo) && (lo <? 256)
  && (Z.shiftr byte 4 <? 16) && (0 <=? Z.shiftr byte 4)
  && (Z.land byte 0x0F <? 16) && (0 <=? Z.land byte 0x0F).

Lemma nibbles_checked :
  forallb (fun b => forallb (fun v => nibbles_ok (Z.of_nat b) (Z.of_nat v)) (seq 0 16))
    (seq 0 256) = true.
Proof. by vm_compute. Qed.

Lemma nibbles byte v : in_width 8 byte -> 0 <= v < 16 -> nibbles_ok byte v = true.
Proof.
  intros Hb Hv. pose proof nibbles_checked as Hall. rewrite forallb_forall in Hall.
  specialize (Hall (Z.to_nat byte)). rewrite in_seq, forallb_forall in Hall.
  specialize (Hall ltac:(unfold in_width in Hb; lia) (Z.to_nat v)). rewrite in_seq in Hall.
  rewrite !Z2Nat.id in Hall by (unfold in_width in Hb; lia). apply Hall. lia.
Qed.

(** The bytes of a filter of [size] counters. *)
Definition counters_ok (size : Z) (l : list u8) : Prop :=
  length l = bytes_for size /\ Forall (in_width 8) l.

Lemma counter_byte size l pos : counters_ok size l -> below size pos ->
  exists byte, l !! Z.to_nat (pos / 2) = Some byte /\ in_width 8 byte.
Proof.
  intros [Hl Hall] Hp. destruct (lookup_lt_is_Some_2 l (Z.to_nat (pos / 2))) as [byte Hb].
  - rewrite Hl. unfold bytes_for, below in *. apply Z2Nat.inj_lt.
    + apply Z.div_pos; lia.
    + apply Z.div_pos; lia.
    + apply Z.div_lt_upper_bound; [lia|]. pose proof (Z.div_mod (size + 1) 2).
      pose proof (Z.mod_pos_bound (size + 1) 2). lia.
  - exists byte. split; [done|]. rewrite Forall_forall in Hall.
    by eapply Hall, list_elem_of_lookup_2.
Qed.

Lemma get_counter_ok size l pos : counters_ok size l -> below size pos ->
  exists c, get_counter l pos = Some c /\ 0 <= c <= MAX_COUNTER.
Proof.
  intros Hl Hp. destruct (counter_byte size l pos Hl Hp) as (byte & Hb & Hw).
  pose proof (nibbles byte 0 Hw ltac:(lia)) as Hn. unfold nibbles_ok in Hn. bools.
  unfold get_counter. rewrite Hb. cbn [mbind option_bind]. eexists. split; [done|].
  unfold MAX_COUNTER. destruct (_ =? 0); lia.
Qed.

(** Writing a counter changes that counter alone. *)
Lemma set_counter_ok size l pos v : counters_ok size l -> below size pos -> 0 <= v < 16 ->
  exists l', set_counter l pos v = Some l' /\ counters_ok size l'
    /\ forall pos', below size pos' ->
         get_counter l' pos' = if pos' =? pos then Some v else get_counter l pos'.
Proof.
  intros Hl Hp Hv. destruct (counter_byte size l pos Hl Hp) as (byte & Hb & Hw).
  pose proof (nibbles byte v Hw Hv) as Hn. unfold nibbles_ok in Hn. bools.
  unfold set_counter. rewrite Hb. cbn [mbind option_bind]. eexists. split; [done|].
  apply lookup_lt_Some in Hb as Hlt. split.
  - destruct Hl as [Hlen Hall]. split; [by rewrite length_insert|].
    apply Forall_insert; [done|]. unfold in_width. change (2 ^ 8) with 256.
    destruct (_ =? 0); lia.
  - intros pos' Hp'. unfold get_counter.
    assert (Hdm : pos = 2 * (pos / 2) + pos mod 2) by (apply Z.div_mod; lia).
    assert (Hdm' : pos' = 2 * (pos' / 2) + pos' mod 2) by (apply Z.div_mod; lia).
    pose proof (Z.mod_pos_bound pos 2). pose proof (Z.mod_pos_bound pos' 2).
    assert (Hpos : 0 <= pos / 2 /\ 0 <= pos' / 2).
    { unfold below in *. split; apply Z.div_pos; lia. }
    destruct (Z.eqb_spec pos' pos) as [->|Hne].
    + rewrite list_lookup_insert_eq by done. cbn [mbind option_bind].
      destruct (Z.eqb_spec (pos mod 2) 0); f_equal; lia.
    + destruct (decide (pos' / 2 = pos / 2)) as [E|E].
      * rewrite E, list_lookup_insert_eq, Hb by done. cbn [mbind option_bind]. f_equal.
        destruct (Z.eqb_spec (pos mod 2) 0), (Z.eqb_spec (pos' mod 2) 0); lia.
      * rewrite list_lookup_insert_ne by lia. done.
Qed.

(** How often a position occurs. *)
Definition times (p : usize) (ps : list usize) : Z := Z.of_nat (length (filter (eq p) ps)).

Lemma times_cons p q ps : times p (q :: ps) = (if p =? q then 1 else 0) + times p ps.
Proof.
  unfold times. rewrite filter_cons. destruct (Z.eqb_spec p q); case_decide; try done.
  simpl length. lia.
Qed.

Lemma times_nonneg p ps : 0 <= times p ps.
Proof. unfold times. lia. Qed.

(** The counters of a list of bytes as a function. *)
Definition counts (size : Z) (l : list u8) (c : Z -> Z) : Prop :=
  counters_ok size l /\ forall p, below size p -> get_counter l p = Some (c p).

(** [f] moves one counter by [d]. *)
Definition moves (size d : Z) (f : list u8 -> usize -> option (list u8)) : Prop :=
  forall l c q, counts size l c -> below size q -> 0 <= c q + d <= MAX_COUNTER ->
    exists l', f l q = Some l' /\ counts size l' (fun p => c p + if p =? q then d else 0).

Lemma counts_range size l c q : counts size l c -> below size q -> 0 <= c q <= MAX_COUNTER.
Proof.
  intros [Hl Hc] Hq. destruct (get_counter_ok size l q Hl Hq) as (x & Hx & Hr).
  rewrite Hc in Hx by done. by injection Hx as <-.
Qed.

Lemma set_counter_counts size l c q v : counts size l c -> below size q ->
  0 <= v <= MAX_COUNTER -> exists l', set_counter l q v = Some l'
    /\ counts size l' (fun p => c p + if p =? q then v - c q else 0).
Proof.
  intros [Hl Hc] Hq Hv. unfold MAX_COUNTER in Hv.
  destruct (set_counter_ok size l q v Hl Hq) as (l1 & -> & Hl1 & Hg); [lia|].
  exists l1. split; [done|]. split; [done|]. intros p Hp. rewrite Hg by done.
  destruct (Z.eqb_spec p q) as [->|]; [f_equal; lia|]. rewrite Hc by done. f_equal. lia.
Qed.

Lemma increment_moves size : moves size 1 increment.
Proof.
  intros l c q Hc Hq Hr. unfold increment. rewrite (proj2 Hc q Hq). cbn [mbind option_bind].
  destruct (Z.ltb_spec (c q) MAX_COUNTER); [|lia].
  destruct (set_counter_counts size l c q (c q + 1) Hc Hq Hr) as (l' & -> & Hl').
  exists l'. split; [done|]. by replace (c q + 1 - c q) with 1 in Hl' by lia.
Qed.

Lemma decrement_moves size : moves size (-1) decrement.
Proof.
  intros l c q Hc Hq Hr. unfold decrement. rewrite (proj2 Hc q Hq). cbn [mbind option_bind].
  destruct (Z.ltb_spec 0 (c q)); [|lia].
  destruct (set_counter_counts size l c q (c q - 1) Hc Hq Hr) as (l' & -> & Hl').
  exists l'. split; [done|]. by replace (c q - 1 - c q) with (-1) in Hl' by lia.
Qed.

Lemma counts_ext size l c c' : counts size l c -> (forall p, below size p -> c p = c' p) ->
  counts size l c'.
Proof. intros [Hl Hc] He. split; [done|]. intros p Hp. rewrite Hc, He by done. done. Qed.

(** Moving the counters of some positions, as long as none leaves its range. *)
Lemma each_moves size d f ps : d = 1 \/ d = -1 -> moves size d f ->
  forall l c, counts size l c -> Forall (below size) ps ->
  (forall p, below size p -> 0 <= c p + d * times p ps <= MAX_COUNTER) ->
  exists l', each f l ps = Some l' /\ counts size l' (fun p => c p + d * times p ps).
Proof.
  intros Hd Hf. unfold each. induction ps as [|q ps IH]; intros l c Hc Hps Hr; simpl.
  { exists l. split; [done|]. eapply counts_ext; [exact Hc|]. intros p _.
    unfold times. simpl. lia. }
  inversion_clear Hps as [|? ? Hq Hps'].
  pose proof (counts_range size l c q Hc Hq) as Hrq. pose proof (Hr q Hq) as Hq'.
  rewrite times_cons, Z.eqb_refl in Hq'. pose proof (times_nonneg q ps).
  destruct (Hf l c q Hc Hq) as (l1 & -> & Hc1); [nia|].
  destruct (IH l1 _ Hc1 Hps') as (l' & -> & Hc').
  - intros p Hp. pose proof (Hr p Hp) as Hp'. rewrite times_cons in Hp'.
    destruct (p =? q); lia.
  - exists l'. split; [done|]. eapply counts_ext; [exact Hc'|]. intros p _.
    cbn beta. rewrite times_cons. destruct (p =? q); lia.
Qed.

Lemma all_positive_true size l c ps : counts size l c -> Forall (below size) ps ->
  (forall p, p ∈ ps -> 0 < c p) -> all_positive l ps = Some true.
Proof.
  intros [Hl Hc]. induction 1 as [|p ps Hp _ IH]; intros Hpos; simpl; [done|].
  rewrite Hc by done. cbn [mbind option_bind].
  destruct (Z.ltb_spec 0 (c p)) as [_|Hle].
  - apply IH. intros q Hq. apply Hpos. by right.
  - specialize (Hpos p ltac:(by left)). lia.
Qed.

Context (murmur3 : list u8 -> Z -> Z).

(** The positions of an element in a filter with these parameters. *)
Definition element_positions (k : nat) (m tw : Z) (e : list u8) : list usize :=
  default [] (compute_hash_positions murmur3 e k m tw).

(** What the counter of a position should be when [es] are in the filter. *)
Definition load (k : nat) (m tw : Z) (es : list (list u8)) (p : usize) : Z :=
  foldr (fun e acc => times p (element_positions k m tw e) + acc) 0 es.

Lemma load_app k m tw es es' p : load k m tw (es ++ es') p = load k m tw es p + load k m tw es' p.
Proof. unfold load. induction es as [|e es IH]; simpl; [done|]. lia. Qed.

Lemma load_nonneg k m tw es p : 0 <= load k m tw es p.
Proof.
  unfold load. induction es as [|e es IH]; simpl; [done|].
  pose proof (times_nonneg p (element_positions k m tw e)). lia.
Qed.

(** The counting filters that can be built without saturating a counter, with the
    elements in them; only elements that are in the filter are removed. *)
Inductive tracked : Counting.t -> list (list u8) -> Prop :=
  | tracked_new size hashes tw : 0 < size -> tracked (Counting.new_with_tweak size hashes tw) []
  | tracked_add f es e f' : tracked f es ->
      (forall p, load (Counting.k f) (Counting.m f) (Counting.tweak f) (e :: es) p <= MAX_COUNTER) ->
      Counting.add murmur3 e f = Some f' -> tracked f' (e :: es)
  | tracked_remove f es1 e es2 f' : tracked f (es1 ++ e :: es2) ->
      Counting.remove murmur3 e f = Some f' -> tracked f' (es1 ++ es2)
  | tracked_clear f es : tracked f es -> tracked (Counting.clear f) [].

Definition exact (f : Counting.t) (es : list (list u8)) : Prop :=
  0 < Counting.m f /\ counts (Counting.m f) (Counting.counters f)
    (load (Counting.k f) (Counting.m f) (Counting.tweak f) es).

Lemma zero_counts size : 0 < size -> counts size (replicate (bytes_for size) 0) (fun _ => 0).
Proof.
  intros Hs. split.
  - split; [by rewrite length_replicate|]. apply Forall_replicate. unfold in_width. lia.
  - intros p Hp. unfold get_counter.
    assert (Hlt : (Z.to_nat (p / 2) < bytes_for size)%nat).
    { unfold bytes_for, below in *. apply Z2Nat.inj_lt; [apply Z.div_pos; lia..|].
      apply Z.div_lt_upper_bound; [lia|]. pose proof (Z.div_mod (size + 1) 2).
      pose proof (Z.mod_pos_bound (size + 1) 2). lia. }
    rewrite (proj2 (lookup_replicate _ _ _ _)) by done. cbn [mbind option_bind].
    by destruct (_ =? 0).
Qed.

Lemma element_positions_ok k m tw e : 0 < m ->
  compute_hash_positions murmur3 e k m tw = Some (element_positions k m tw e)
  /\ Forall (below m) (element_positions k m tw e).
Proof.
  intros Hm. destruct (positions_ok murmur3 e k m tw Hm) as (ps & Hps & Hin).
  unfold element_positions. by rewrite Hps.
Qed.

Lemma tracked_exact f es : tracked f es -> exact f es.
Proof.
  induction 1 as [size hashes tw Hs|f es e f' _ [Hm Hc] Hmax Ha
                 |f es1 e es2 f' _ [Hm Hc] Hr|f es _ [Hm Hc]].
  - split; [done|]. by apply zero_counts.
  - unfold add in Ha.
    destruct (element_positions_ok (k f) (m f) (tweak f) e Hm) as [Hps Hin]. rewrite Hps in Ha.
    cbn [mbind option_bind] in Ha.
    destruct (each_moves (m f) 1 increment _ (or_introl eq_refl) (increment_moves _)
      (counters f) _ Hc Hin) as (l' & Hl' & Hc').
    { intros p Hp. pose proof (Hmax p). pose proof (load_nonneg (k f) (m f) (tweak f) es p).
      pose proof (times_nonneg p (element_positions (k f) (m f) (tweak f) e)). simpl in *. lia. }
    rewrite Hl' in Ha. injection Ha as <-. split; [done|]. cbn.
    eapply counts_ext; [exact Hc'|]. intros p _. cbn. unfold load. simpl. lia.
  - unfold remove in Hr.
    destruct (element_positions_ok (k f) (m f) (tweak f) e Hm) as [Hps Hin]. rewrite Hps in Hr.
    cbn [mbind option_bind] in Hr.
    destruct (each_moves (m f) (-1) decrement _ (or_intror eq_refl) (decrement_moves _)
      (counters f) _ Hc Hin) as (l' & Hl' & Hc').
    { intros p Hp. pose proof (counts_range _ _ _ p Hc Hp) as Hrp.
      rewrite load_app in *. simpl in *.
      pose proof (load_nonneg (k f) (m f) (tweak f) es1 p).
      pose proof (load_nonneg (k f) (m f) (tweak f) es2 p).
      pose proof (times_nonneg p (element_positions (k f) (m f) (tweak f) e)).
      unfold load in *. lia. }
    rewrite Hl' in Hr. injection Hr as <-. split; [done|]. cbn.
    eapply counts_ext; [exact Hc'|]. intros p _. cbn beta. rewrite !load_app.
    unfold load. simpl. lia.
  - split; [done|]. cbn. destruct Hc as [[Hlen _] _]. rewrite Hlen. by apply zero_counts.
Qed.

Lemma load_member k m tw es e p : e ∈ es -> p ∈ element_positions k m tw e ->
  0 < load k m tw es p.
Proof.
  intros (es1 & es2 & ->)%list_elem_of_split Hp. rewrite load_app.
  pose proof (load_nonneg k m tw es1 p). pose proof (load_nonneg k m tw es2 p).
  assert (0 < times p (element_positions k m tw e)).
  { unfold times. destruct (filter (eq p) (element_positions k m tw e)) as [|x l] eqn:E; [|simpl; lia].
    assert (Hin : p ∈ filter (eq p) (element_positions k m tw e)) by (by apply list_elem_of_filter).
    rewrite E in Hin. by apply not_elem_of_nil in Hin. }
  unfold load in *. simpl. lia.
Qed.

End counting_props.

(** The counting filter counts.  As long as no counter would pass its
    maximum and only elements in the filter are removed, every counter is the number of
    times the elements in the filter hash to it, so that everything in the filter is
    contained. *)
Theorem counting_filter_exact murmur3 f es : tracked murmur3 f es ->
  (forall p, 0 <= p < Counting.m f -> Counting.get_counter (Counting.counters f) p =
     Some (load murmur3 (Counting.k f) (Counting.m f) (Counting.tweak f) es p))
  /\ (forall e, e ∈ es -> Counting.contains murmur3 e f = Some true).
Proof.
  intros Ht. destruct (tracked_exact murmur3 f es Ht) as [Hm Hc]. split; [apply Hc|].
  intros e He. unfold Counting.contains.
  destruct (element_positions_ok murmur3 (Counting.k f) (Counting.m f) (Counting.tweak f) e Hm)
    as [-> Hin]. cbn [mbind option_bind].
  eapply all_positive_true; [exact Hc|done|]. intros p Hp. by apply (load_member murmur3 _ _ _ _ e).
Qed.

Lemma counting_filter_exact_witness : exists f,
  Counting.add sum_hash [1; 2] (Counting.new 100 3) = Some f
  /\ Counting.contains sum_hash [1; 2] f = Some true.
Proof.
  destruct (Counting.add sum_hash [1; 2] (Counting.new 100 3)) as [f|] eqn:E;
    [|vm_compute in E; discriminate].
  exists f. split; [reflexivity|].
  apply (counting_filter_exact sum_hash f [[1; 2]]); [|by left].
  apply (tracked_add sum_hash (Counting.new 100 3)); [|intros p|exact E].
  - apply tracked_new. lia.
  - unfold load. simpl foldr. unfold times, element_positions.
    etransitivity; [|instantiate (1 := 3); by unfold Counting.MAX_COUNTER].
    rewrite Z.add_0_r.
    match goal with |- Z.of_nat (length (filter _ ?l)) <= _ =>
      pose proof (length_filter (eq p) l) as Hl; change (length l) with 3%nat in Hl end. lia.
Defined.

(** A saturated counter forgets: sixteen elements at one position and fifteen removals
    leave a filter that denies the sixteenth. *)
Theorem saturated_counter_forgets :
  let one := fun l => match l with Some f => Counting.add (fun _ _ => 0) [1] f | None => None end in
  let less := fun l => match l with Some f => Counting.remove (fun _ _ => 0) [2] f | None => None end in
  let f := Nat.iter 15 less (Nat.iter 15 one (Counting.add (fun _ _ => 0) [7] (Counting.new 1 1))) in
  (f ≫= Counting.contains (fun _ _ => 0) [7]) = Some false.
Proof. by vm_compute. Qed.

(** ** Run-length encoding *)

Lemma run_length_spec value max : forall l,
  let r := Counting.run_length value max l in
  (r <= max)%nat /\ take r l = replicate r value.
Proof.
  induction max as [|max IH]; intros [|x l]; simpl; try (split; [lia|done]).
  destruct (Z.eqb_spec x value) as [->|]; simpl; [|split; [lia|done]].
  destruct (IH l) as [H1 H2]. split; [lia|]. by rewrite H2.
Qed.

Lemma rle_loop_decode fuel : forall l, (length l <= fuel)%nat ->
  Counting.rle_decode (Counting.rle_loop fuel l) = l.
Proof.
  induction fuel as [|fuel IH]; intros [|value rest] Hf; try done; [simpl in Hf; lia|].
  cbn [Counting.rle_loop Counting.rle_decode].
  destruct (run_length_spec value 254 rest) as [Hr Ht].
  set (r := Counting.run_length value 254 rest) in *. rewrite Nat2Z.id.
  cbn [replicate drop app]. rewrite IH by (rewrite length_drop; simpl in Hf; lia).
  f_equal. rewrite <-Ht. apply take_drop.
Qed.

Lemma rle_loop_bytes fuel : forall l, Forall (in_width 8) l ->
  Forall (in_width 8) (Counting.rle_loop fuel l).
Proof.
  induction fuel as [|fuel IH]; intros [|value rest] Hl; try constructor.
  - destruct (run_length_spec value 254 rest) as [Hr _]. unfold in_width.
    change (2 ^ 8) with 256. lia.
  - inversion_clear Hl. constructor; [done|]. apply IH. apply Forall_drop. by constructor.
Qed.

(** The run-length encoding of a counting filter is a string of bytes
    that decodes to the same counters, runs of more than 255 equal bytes included. *)
Theorem rle_roundtrip (f : Counting.t) :
  counters_ok (Counting.m f) (Counting.counters f) ->
  Forall (in_width 8) (Counting.to_rle f) /\
  Counting.from_rle (Counting.to_rle f) (Counting.m f) (Counting.k f) (Counting.tweak f)
  = Some (Counting.mk (Counting.counters f) (Counting.k f) (Counting.m f) 0 (Counting.tweak f)).
Proof.
  intros [Hl Hb]. split; [by apply rle_loop_bytes|].
  unfold Counting.from_rle, Counting.to_rle. rewrite rle_loop_decode by done.
  by rewrite Hl, Nat.eqb_refl.
Qed.

Lemma rle_roundtrip_witness :
  Counting.from_rle (Counting.to_rle (Counting.new 1000 3)) 1000 3 0
  = Some (Counting.new 1000 3).
Proof.
  apply (rle_roundtrip (Counting.new 1000 3)). split; [reflexivity|].
  apply Forall_replicate. unfold in_width. lia.
Defined.

(** ** Throttling *)

Section gap_props.
Import GapLimit.

Definition exceeds (h : ClientMatchHistory) (matches : usize) : bool :=
  (threshold h <? matches) || (MAX_MATCHES_PER_BLOCK <? matches).

(** The violations at the end of a sequence of blocks. *)
Definition trailing (h : ClientMatchHistory) (blocks : list usize) : nat :=
  foldl (fun n matches => if exceeds h matches then S n else O) (consecutive_violations h) blocks.

Definition record_blocks (h : ClientMatchHistory) (blocks : list usize) : ClientMatchHistory :=
  foldl (fun h matches => (record_block matches h).1) h blocks.

Lemma record_blocks_trailing blocks : forall h,
  threshold (record_blocks h blocks) = threshold h
  /\ consecutive_violations (record_blocks h blocks) = trailing h blocks.
Proof.
  unfold record_blocks, trailing. induction blocks as [|b blocks IH]; intros h; [done|].
  cbn [foldl]. destruct (IH (record_block b h).1) as [-> ->]. split; reflexivity.
Qed.

(** A client of a fresh history is throttled exactly when at some block the violations
    in a row had reached five. *)
Theorem throttled_iff threshold0 blocks :
  is_throttled (record_blocks (history_new threshold0) blocks) = true <->
  exists n, (CONSECUTIVE_BLOCKS_THRESHOLD <= trailing (history_new threshold0) (take n blocks))%nat.
Proof.
  set (h := history_new threshold0). induction blocks as [|b blocks IH] using rev_ind.
  { split; [done|]. intros [n Hn]. rewrite take_nil in Hn. unfold trailing in Hn. simpl in Hn.
    unfold CONSECUTIVE_BLOCKS_THRESHOLD in Hn. lia. }
  assert (Hstep : record_blocks h (blocks ++ [b]) = (record_block b (record_blocks h blocks)).1).
  { unfold record_blocks. by rewrite foldl_app. }
  destruct (record_blocks_trailing (blocks ++ [b]) h) as [_ Hcv].
  rewrite Hstep in *. unfold record_block in *. cbn [fst is_throttled consecutive_violations] in *.
  rewrite orb_true_iff, IH, Nat.leb_le, Hcv. split.
  - intros [[n Hn]|Hn].
    + destruct (decide (n <= length blocks)%nat) as [Hle|Hgt].
      * exists n. by rewrite take_app_le.
      * exists (length blocks). rewrite take_ge in Hn by lia.
        rewrite take_app_le, firstn_all by lia. done.
    + exists (length (blocks ++ [b])). by rewrite firstn_all.
  - intros [n Hn]. destruct (decide (n <= length blocks)%nat) as [Hle|Hgt].
    + left. exists n. by rewrite take_app_le in Hn.
    + right. by rewrite take_ge in Hn by (rewrite length_app; simpl; lia).
Qed.

End gap_props.
