(* ===== verification/Gcs.v ===== *)
(** * Golomb-coded block filters

    [qc-07-bloom-filters/src/domain/gcs_filter.rs]: the filter of a block, the mixing
    that maps scripts to numbers, and the Golomb-Rice code, with what is proved of
    them.  Bits are taken from the front of a list instead of by position.  [None] is
    a panic: the remainder by zero, when the range wraps to zero. *)

From S2P Require Import Prelude BlockStorage BlockFacts.

Local Open Scope Z_scope.

Definition GOLOMB_P : nat := 19.
Definition GOLOMB_M : u64 := 2 ^ 19.

Record GcsFilter := {
  block_hash : Hash;
  block_height : u64;
  n : usize;
  data : list u8;
  key : list u8
}.

Definition derive_key (block_hash : Hash) : list u8 := take 16 (hash_bytes block_hash).

Definition rotate_left (x : u64) (by_ : Z) : u64 :=
  Z.lor (Z.shiftl x by_ mod 2 ^ 64) (Z.shiftr x (64 - by_)).

(** [data.chunks(8)]. *)
Fixpoint chunks {A} (fuel : nat) (l : list A) : list (list A) :=
  match fuel, l with
  | S fuel, _ :: _ => take 8 l :: chunks fuel (drop 8 l)
  | _, _ => []
  end.

Definition chunks8 {A} (l : list A) : list (list A) := chunks (length l) l.

(** One round of the mixing; a short chunk is padded with zeros, which do not change
    the number. *)
Definition mix (state : u64) (chunk : list u8) : u64 :=
  rotate_left (wrapping_mul 64 (Z.lxor state (from_le_bytes chunk)) 0x517cc1b727220a95) 13.

Definition hash_to_range (bytes key : list u8) (max : u64) : option u64 :=
  let state := Z.lxor (from_le_bytes (take 8 key)) (from_le_bytes (drop 8 key)) in
  if max =? 0 then None else Some (foldl mix state (chunks8 bytes) mod max).

(** ** The code *)

(** The lower [p] bits of a number, the highest first. *)
Fixpoint low_bits (p : nat) (r : u64) : list bool :=
  match p with
  | O => []
  | S p => (Z.land (Z.shiftr r (Z.of_nat p)) 1 =? 1) :: low_bits p r
  end.

(** The quotient in unary, then the remainder in binary. *)
Definition encode_delta (delta : u64) : list bool :=
  replicate (Z.to_nat (Z.shiftr delta 19)) true ++ [false]
    ++ low_bits GOLOMB_P (Z.land delta (GOLOMB_M - 1)).

(** Bit [i] of a chunk is bit [7 - i] of its byte. *)
Fixpoint pack_from (i : Z) (chunk : list bool) : u8 :=
  match chunk with
  | [] => 0
  | bit :: rest => Z.lor (if bit then Z.shiftl 1 (7 - i) else 0) (pack_from (i + 1) rest)
  end.

Definition golomb_encode (deltas : list u64) : list u8 :=
  pack_from 0 <$> chunks8 (concat (encode_delta <$> deltas)).

Definition unpack (byte : u8) : list bool :=
  (fun i => Z.land (Z.shiftr byte i) 1 =? 1) <$> [7; 6; 5; 4; 3; 2; 1; 0].

(** [while bits[pos] { q += 1 }], and the bits from the zero on. *)
Fixpoint decode_unary (q : u64) (bits : list bool) : u64 * list bool :=
  match bits with
  | true :: rest => decode_unary (q + 1) rest
  | _ => (q, bits)
  end.

Definition decode_binary (bits : list bool) : u64 :=
  foldl (fun r (bit : bool) => Z.lor (Z.shiftl r 1) (if bit then 1 else 0)) 0 bits.

Fixpoint decode_deltas (n : nat) (bits : list bool) : list u64 :=
  match n, bits with
  | S n, _ :: _ =>
      let (q, rest) := decode_unary 0 bits in
      let rest := drop 1 rest in
      Z.lor (Z.shiftl q 19 mod 2 ^ 64) (decode_binary (take GOLOMB_P rest))
        :: decode_deltas n (drop GOLOMB_P rest)
  | _, _ => []
  end.

Definition golomb_decode (data : list u8) (n : nat) : list u64 :=
  decode_deltas n (concat (unpack <$> data)).

(** ** The filter *)

(** The differences between consecutive values. *)
Fixpoint deltas_from (prev : u64) (values : list u64) : list u64 :=
  match values with
  | [] => []
  | v :: rest => saturating_sub v prev :: deltas_from v rest
  end.

Fixpoint sums_from (sum : u64) (deltas : list u64) : list u64 :=
  match deltas with
  | [] => []
  | d :: rest => saturating_add 64 sum d :: sums_from (saturating_add 64 sum d) rest
  end.

Definition range (n : usize) : u64 := wrapping_mul 64 n GOLOMB_M.

Fixpoint hash_all (key : list u8) (max : u64) (scripts : list (list u8)) : option (list u64) :=
  match scripts with
  | [] => Some []
  | s :: rest => h ← hash_to_range s key max; hs ← hash_all key max rest; Some (h :: hs)
  end.

Definition gcs_new (block_hash : Hash) (block_height : u64) (scripts : list (list u8))
  : option GcsFilter :=
  let key := derive_key block_hash in
  let n := Z.of_nat (length scripts) in
  match scripts with
  | [] => Some (Build_GcsFilter block_hash block_height 0 [] key)
  | _ =>
      values ← hash_all key (range n) scripts;
      let deltas := deltas_from 0 (merge_sort Z.le values) in
      Some (Build_GcsFilter block_hash block_height n (golomb_encode deltas) key)
  end.

(** [values.binary_search(&h).is_ok()]. *)
Definition found (values : list u64) (h : u64) : bool :=
  is_ok (binary_search_by_key id values h).

(** The first query that is found ends the loop. *)
Fixpoint any_found (key : list u8) (max : u64) (values : list u64) (scripts : list (list u8))
  : option bool :=
  match scripts with
  | [] => Some false
  | s :: rest =>
      h ← hash_to_range s key max;
      if found values h then Some true else any_found key max values rest
  end.

Definition match_any (f : GcsFilter) (scripts : list (list u8)) : option bool :=
  if (n f =? 0) || bool_decide (scripts = []) then Some false
  else
    let abs_values := sums_from 0 (golomb_decode (data f) (Z.to_nat (n f))) in
    any_found (key f) (range (n f)) abs_values scripts.

(** * Theorems *)

(** ** Bits and bytes *)

Lemma lor_bit x (b : bool) : 0 <= x -> Z.lor (Z.shiftl x 1) (if b then 1 else 0)
  = 2 * x + if b then 1 else 0.
Proof.
  intros Hx. rewrite Z.shiftl_mul_pow2 by lia. change (2 ^ 1) with 2. rewrite (Z.mul_comm x 2).
  destruct b; [|by rewrite Z.lor_0_r, Z.add_0_r].
  destruct x as [|p|p]; [done| |lia]. done.
Qed.

Lemma bit_value r p : 0 <= r ->
  (if Z.land (Z.shiftr r (Z.of_nat p)) 1 =? 1 then 1 else 0) = (r / 2 ^ Z.of_nat p) mod 2.
Proof.
  intros Hr. rewrite Z.shiftr_div_pow2 by lia. change 1 with (Z.ones 1) at 1.
  rewrite Z.land_ones by lia. change (2 ^ 1) with 2.
  pose proof (Z.mod_pos_bound (r / 2 ^ Z.of_nat p) 2). destruct (Z.eqb_spec ((r / 2 ^ Z.of_nat p) mod 2) 1); lia.
Qed.

(** Reading the bits back gives the number modulo the power. *)
Lemma decode_low_bits p r : 0 <= r -> forall acc, 0 <= acc ->
  foldl (fun r (bit : bool) => Z.lor (Z.shiftl r 1) (if bit then 1 else 0)) acc (low_bits p r)
    = acc * 2 ^ Z.of_nat p + r mod 2 ^ Z.of_nat p.
Proof.
  intros Hr. induction p as [|p IH]; intros acc Hacc; cbn [low_bits foldl].
  { change (2 ^ Z.of_nat 0) with 1. rewrite Z.mod_1_r. lia. }
  rewrite lor_bit by done.
  rewrite IH by (destruct (Z.land (Z.shiftr r (Z.of_nat p)) 1 =? 1); lia).
  rewrite bit_value by done.
  rewrite Nat2Z.inj_succ, Z.pow_succ_r by lia.
  rewrite (Z.mul_comm 2 (2 ^ Z.of_nat p)), Z.rem_mul_r by lia. lia.
Qed.

Lemma length_low_bits p r : length (low_bits p r) = p.
Proof. induction p; simpl; auto. Qed.

Lemma decode_unary_ones q rest : forall k, decode_unary k (replicate q true ++ false :: rest)
  = (k + Z.of_nat q, false :: rest).
Proof.
  induction q as [|q IH]; intros k; cbn [replicate app decode_unary].
  - by rewrite Z.add_0_r.
  - rewrite IH. f_equal. lia.
Qed.

(** All chunks of at most [len] bits. *)
Fixpoint all_chunks (len : nat) : list (list bool) :=
  match len with
  | O => [[]]
  | S len => [] :: ((cons true <$> all_chunks len) ++ (cons false <$> all_chunks len))
  end.

Lemma all_chunks_complete len : forall chunk, (length chunk <= len)%nat ->
  chunk ∈ all_chunks len.
Proof.
  induction len as [|len IH]; intros [|b chunk] Hl; simpl in *; try lia; [by left..|].
  right. apply elem_of_app. destruct b; [left|right];
    apply list_elem_of_fmap_2, IH; lia.
Qed.

Definition packs (chunk : list bool) : bool :=
  bool_decide (unpack (pack_from 0 chunk) = chunk ++ replicate (8 - length chunk) false).

Lemma packs_checked : forallb packs (all_chunks 8) = true.
Proof. by vm_compute. Qed.

Lemma unpack_packed chunk : (length chunk <= 8)%nat ->
  unpack (pack_from 0 chunk) = chunk ++ replicate (8 - length chunk) false.
Proof.
  intros Hl. pose proof packs_checked as Hall. rewrite forallb_forall in Hall.
  apply (bool_decide_unpack _). apply Is_true_true, Hall, list_elem_of_In.
  by apply all_chunks_complete.
Qed.

(** Packing pads with fewer than eight zeros. *)
Lemma unpack_pack_all fuel : forall bits, (length bits <= fuel)%nat ->
  exists pad, concat (unpack <$> (pack_from 0 <$> chunks fuel bits)) = bits ++ replicate pad false.
Proof.
  induction fuel as [|fuel IH]; intros bits Hf.
  { destruct bits; [|simpl in Hf; lia]. by exists O. }
  destruct bits as [|b bits]; [by exists O|]. cbn [chunks].
  remember (b :: bits) as l eqn:El. rewrite !fmap_cons. cbn [concat].
  rewrite unpack_packed by (rewrite length_take; lia).
  destruct (decide (length l <= 8)%nat) as [Hle|Hgt].
  - rewrite (drop_ge l), take_ge by lia.
    exists (8 - length l)%nat. destruct fuel; cbn [chunks]; by rewrite !fmap_nil, app_nil_r.
  - rewrite length_take, Nat.min_l, Nat.sub_diag by lia. rewrite app_nil_r.
    destruct (IH (drop 8 l)) as (pad & Hp); [rewrite length_drop; subst l; simpl in *; lia|].
    exists pad. rewrite Hp, app_assoc, take_drop. done.
Qed.

Lemma decode_deltas_S n q rest : forall l, l = replicate q true ++ false :: rest ->
  decode_deltas (S n) l
    = Z.lor (Z.shiftl (Z.of_nat q) 19 mod 2 ^ 64) (decode_binary (take GOLOMB_P rest))
        :: decode_deltas n (drop GOLOMB_P rest).
Proof.
  intros [|x l] Hl; [by apply app_cons_not_nil in Hl|]. cbn [decode_deltas].
  by rewrite Hl, decode_unary_ones.
Qed.

Lemma decode_encode_delta delta rest n : in_width 64 delta ->
  decode_deltas (S n) (encode_delta delta ++ rest) = delta :: decode_deltas n rest.
Proof.
  intros Hd. unfold encode_delta. rewrite <-!app_assoc.
  remember (Z.to_nat (Z.shiftr delta 19)) as q eqn:Eq.
  remember (Z.land delta (GOLOMB_M - 1)) as r eqn:Er.
  rewrite (decode_deltas_S n q (low_bits GOLOMB_P r ++ rest)) by done.
  rewrite take_app_length', drop_app_length' by (by rewrite length_low_bits). f_equal.
  unfold in_width in Hd. assert (Hr : r = delta mod 2 ^ 19).
  { rewrite Er. change (GOLOMB_M - 1) with (Z.ones 19). by rewrite Z.land_ones. }
  assert (Hq : Z.of_nat q = delta / 2 ^ 19).
  { rewrite Eq, Z.shiftr_div_pow2 by lia. rewrite Z2Nat.id; [done|]. apply Z.div_pos; lia. }
  pose proof (Z.mod_pos_bound delta (2 ^ 19)). pose proof (Z.div_mod delta (2 ^ 19)).
  unfold decode_binary. rewrite decode_low_bits by lia. change (Z.of_nat GOLOMB_P) with 19.
  rewrite Z.mul_0_l, Z.add_0_l, Hq, Z.shiftl_mul_pow2 by lia.
  rewrite Z.mod_small by lia. rewrite (Z.mod_small r) by lia.
  assert (Hland : Z.land (delta / 2 ^ 19 * 2 ^ 19) r = 0).
  { rewrite <-Z.shiftl_mul_pow2 by lia. apply Z.bits_inj'. intros i Hi.
    rewrite Z.land_spec, Z.bits_0. destruct (Z.ltb_spec i 19).
    - by rewrite Z.shiftl_spec_low.
    - rewrite Hr, Z.mod_pow2_bits_high by lia. apply andb_false_r. }
  rewrite <-Z.lxor_lor, <-Z.add_nocarry_lxor by done. lia.
Qed.

Lemma decode_encode_all deltas pad : Forall (in_width 64) deltas ->
  decode_deltas (length deltas) (concat (encode_delta <$> deltas) ++ replicate pad false)
    = deltas.
Proof.
  induction 1 as [|d deltas Hd _ IH]; [by destruct pad|].
  rewrite fmap_cons. cbn [concat length]. rewrite <-app_assoc, decode_encode_delta by done.
  by rewrite IH.
Qed.

(** Round trip: decoding the Golomb-Rice code of any 64-bit numbers gives them back,
    whatever the padding of the last byte. *)
Lemma golomb_roundtrip deltas : Forall (in_width 64) deltas ->
  golomb_decode (golomb_encode deltas) (length deltas) = deltas.
Proof.
  intros Hd. unfold golomb_decode, golomb_encode, chunks8.
  destruct (unpack_pack_all _ (concat (encode_delta <$> deltas)) (Nat.le_refl _)) as (pad & ->).
  by apply decode_encode_all.
Qed.

(** ** The filter *)

Lemma sums_deltas values : forall prev, StronglySorted Z.le values ->
  Forall (fun v => prev <= v < 2 ^ 64) values -> 0 <= prev ->
  sums_from prev (deltas_from prev values) = values
  /\ Forall (in_width 64) (deltas_from prev values).
Proof.
  induction values as [|v values IH]; intros prev Hs Hall Hp; [done|].
  inversion_clear Hs as [|? ? Hs' Hle]. inversion_clear Hall as [|? ? Hv Hall'].
  cbn [deltas_from sums_from].
  assert (Hd : saturating_sub v prev = v - prev) by (unfold saturating_sub; lia).
  assert (Ha : saturating_add 64 prev (v - prev) = v) by (unfold saturating_add; lia).
  destruct (IH v Hs') as [H1 H2]; [|lia|].
  { rewrite Forall_forall in Hle, Hall' |- *. intros x Hx. specialize (Hle x Hx).
    specialize (Hall' x Hx). lia. }
  rewrite Hd, Ha, H1. split; [done|]. constructor; [unfold in_width; lia|done].
Qed.

Lemma length_deltas values : forall prev, length (deltas_from prev values) = length values.
Proof. induction values; intros; simpl; auto. Qed.

Lemma hash_all_ok key max scripts : 0 < max -> max <= 2 ^ 64 ->
  exists values, hash_all key max scripts = Some values
    /\ length values = length scripts
    /\ Forall (in_width 64) values
    /\ (forall s, s ∈ scripts -> exists h, hash_to_range s key max = Some h /\ h ∈ values).
Proof.
  intros Hm Hm'. induction scripts as [|s scripts (values & IH & Hl & Hw & Hin)].
  { exists []. split_and!; try done. intros s Hs. by apply not_elem_of_nil in Hs. }
  cbn [hash_all]. rewrite IH.
  destruct (hash_to_range s key max) as [h|] eqn:Eh.
  2: { unfold hash_to_range in Eh. destruct (Z.eqb_spec max 0); [lia|done]. }
  cbn [mbind option_bind]. exists (h :: values). split_and!; [done|simpl; lia| |].
  - constructor; [|done]. unfold hash_to_range in Eh. destruct (Z.eqb_spec max 0); [lia|].
    injection Eh as <-. unfold in_width.
    pose proof (Z.mod_pos_bound (foldl mix (Z.lxor (from_le_bytes (take 8 key))
      (from_le_bytes (drop 8 key))) (chunks8 s)) max Hm). lia.
  - intros s' [->|Hs]%elem_of_cons; [exists h; split; [done|by left]|].
    destruct (Hin s' Hs) as (h' & Hh & Hin'). exists h'. split; [done|by right].
Qed.

(** A sorted list has every member found. *)
Lemma found_member values h : StronglySorted Z.le values -> h ∈ values -> found values h = true.
Proof.
  intros Hs Hin. unfold found. apply (binary_search_finds id values) with (e := h); try done.
  intros i j x y Hij Hx Hy. by eapply (sorted_lookup Z.le values i j).
Qed.

Lemma any_found_true key max values scripts s h : 0 < max -> s ∈ scripts ->
  hash_to_range s key max = Some h -> found values h = true ->
  any_found key max values scripts = Some true.
Proof.
  intros Hm Hs Hh Hf. induction scripts as [|s' scripts IH];
    [by apply not_elem_of_nil in Hs|]. cbn [any_found].
  destruct (hash_to_range s' key max) as [h'|] eqn:Eh.
  2: { unfold hash_to_range in Eh. destruct (Z.eqb_spec max 0); [lia|done]. }
  cbn [mbind option_bind]. destruct (found values h') eqn:Ef; [done|].
  apply elem_of_cons in Hs as [->|Hs]; [congruence|by apply IH].
Qed.

(** Block filters have no false negatives.  The Golomb-coded filter of a
    block with fewer than [2^44] scripts is built without a panic, and a client that
    asks for any list of scripts one of which is in the block gets a match. *)
Theorem gcs_no_false_negatives hash height scripts :
  Z.of_nat (length scripts) < 2 ^ 44 ->
  exists f, gcs_new hash height scripts = Some f
    /\ forall queries s, s ∈ scripts -> s ∈ queries -> match_any f queries = Some true.
Proof.
  intros Hlen. unfold gcs_new. destruct scripts as [|s0 l] eqn:Es.
  { eexists. split; [done|]. intros queries s Hs. by apply not_elem_of_nil in Hs. }
  rewrite <-Es in *. assert (Hn : 0 < Z.of_nat (length scripts)) by (subst; simpl; lia).
  clear s0 l Es.
  assert (Hr : range (Z.of_nat (length scripts)) = Z.of_nat (length scripts) * 2 ^ 19).
  { unfold range, wrapping_mul, GOLOMB_M. apply Z.mod_small. lia. }
  destruct (hash_all_ok (derive_key hash) (range (Z.of_nat (length scripts))) scripts)
    as (values & -> & Hl & Hw & Hin); [lia..|]. cbn [mbind option_bind].
  eexists. split; [done|]. intros queries s Hs Hq. unfold match_any. cbn [n data key].
  destruct (Z.eqb_spec (Z.of_nat (length scripts)) 0); [lia|]. cbn [orb].
  rewrite bool_decide_false by (intros ->; by apply not_elem_of_nil in Hq).
  pose proof (StronglySorted_merge_sort Z.le values) as Hsorted.
  pose proof (merge_sort_Permutation Z.le values) as Hperm.
  destruct (sums_deltas (merge_sort Z.le values) 0 Hsorted) as [Hsum Hdw]; [|lia|].
  { rewrite Hperm. eapply Forall_impl; [exact Hw|]. unfold in_width. lia. }
  assert (Hln : length scripts = length (deltas_from 0 (merge_sort Z.le values))).
  { rewrite length_deltas, <-Hl. symmetry. by apply Permutation_length. }
  rewrite Nat2Z.id. rewrite Hln at 2. rewrite golomb_roundtrip, Hsum by done.
  destruct (Hin s Hs) as (h & Hh & Hin').
  eapply any_found_true; [|exact Hq|exact Hh|]; [lia|].
  apply found_member; [done|]. by rewrite Hperm.
Qed.

Lemma gcs_no_false_negatives_witness : exists f,
  gcs_new 5 1 [[1; 2; 3]; [4; 5]] = Some f /\ match_any f [[9]; [4; 5]] = Some true.
Proof.
  destruct (gcs_no_false_negatives 5 1 [[1; 2; 3]; [4; 5]]) as (f & Hf & Hm); [simpl; lia|].
  exists f. split; [exact Hf|]. apply (Hm _ [4; 5]); [right; by left|right; by left].
Defined.
