(* ===== verification/Cuckoo.v ===== *)
(** * Cuckoo filters

    [qc-07-bloom-filters/src/domain/cuckoo.rs]: buckets of four fingerprints, insertion
    with relocation, lookup and deletion, with what is proved of them.

    [DefaultHasher] on items and on fingerprints is a pair of parameters, the random
    slot of every relocation is a function of its number.  The capacity is below [2^62],
    so that the number of buckets is a power of two of [usize]. *)

From S2P Require Import Prelude.

Local Open Scope Z_scope.

Abbreviation Fingerprint := Z (only parsing).

Definition ENTRIES_PER_BUCKET : nat := 4.
Definition DEFAULT_BUCKET_COUNT : usize := 1024.
Definition MAX_KICKS : nat := 500.

(** ** Buckets *)
Module Bucket.

Abbreviation t := (list Z) (only parsing).

Definition default_ : t := replicate ENTRIES_PER_BUCKET 0.

(** The first empty entry takes the fingerprint; [None] when there is none. *)
Fixpoint insert (fp : Fingerprint) (b : t) : option t :=
  match b with
  | [] => None
  | e :: rest => if e =? 0 then Some (fp :: rest)
                 else rest' ← insert fp rest; Some (e :: rest')
  end.

Definition contains (fp : Fingerprint) (b : t) : bool := bool_decide (fp ∈ b).

(** The first entry with the fingerprint is emptied. *)
Fixpoint delete (fp : Fingerprint) (b : t) : option t :=
  match b with
  | [] => None
  | e :: rest => if e =? fp then Some (0 :: rest)
                 else rest' ← delete fp rest; Some (e :: rest')
  end.

(** The fingerprint takes slot [idx]; the one that was there is returned. *)
Definition swap (idx : nat) (fp : Fingerprint) (b : t) : option (t * Fingerprint) :=
  old ← b !! idx; Some (<[idx := fp]> b, old).

End Bucket.

(** ** The filter *)

Record CuckooFilter := mk_cuckoo {
  buckets : list Bucket.t;
  bucket_count : usize;
  count : usize
}.

Definition next_power_of_two (n : usize) : usize := 2 ^ Z.log2_up n.

Definition cuckoo_new (capacity : usize) : CuckooFilter :=
  let bucket_count := (capacity + 3) / 4 in
  let bucket_count := Z.max (next_power_of_two bucket_count) 4 in
  mk_cuckoo (replicate (Z.to_nat bucket_count) Bucket.default_) bucket_count 0.

Definition with_default_capacity : CuckooFilter :=
  cuckoo_new (DEFAULT_BUCKET_COUNT * Z.of_nat ENTRIES_PER_BUCKET).

Definition put (f : CuckooFilter) (i : usize) (b : Bucket.t) : CuckooFilter :=
  mk_cuckoo (<[Z.to_nat i := b]> (buckets f)) (bucket_count f) (count f).

Definition counted (f : CuckooFilter) : CuckooFilter :=
  mk_cuckoo (buckets f) (bucket_count f) (wrapping_add 64 (count f) 1).

Definition uncounted (f : CuckooFilter) : CuckooFilter :=
  mk_cuckoo (buckets f) (bucket_count f) (saturating_sub (count f) 1).

Section cuckoo.
Context {T : Type} (hash_item : T -> u64) (hash_fp : Fingerprint -> u64).

Definition alt_index (n : usize) (idx : usize) (fp : Fingerprint) : usize :=
  Z.lxor idx (hash_fp fp) mod n.

Definition indices (n : usize) (item : T) : Fingerprint * usize * usize :=
  let hash := hash_item item in
  let fp := Z.shiftr hash 48 mod 2 ^ 16 in
  let i1 := hash mod n in
  (fp, i1, alt_index n i1 fp).

(** A zero fingerprint marks an empty entry, so it becomes one. *)
Definition non_zero (fp : Fingerprint) : Fingerprint := if fp =? 0 then 1 else fp.

(** The rounds of [relocate]; [None] is an index out of range. *)
Fixpoint relocate (kicks : nat) (slot : nat -> nat) (fp : Fingerprint) (idx : usize)
  (f : CuckooFilter) : option (CuckooFilter * bool) :=
  match kicks with
  | O => Some (f, false)
  | S kicks =>
      b ← buckets f !! Z.to_nat idx;
      r ← Bucket.swap (slot kicks) fp b;
      let f := put f idx r.1 in
      let fp := r.2 in
      let idx := alt_index (bucket_count f) idx fp in
      b ← buckets f !! Z.to_nat idx;
      match Bucket.insert fp b with
      | Some b => Some (counted (put f idx b), true)
      | None => relocate kicks slot fp idx f
      end
  end.

Definition insert (slot : nat -> nat) (item : T) (f : CuckooFilter)
  : option (CuckooFilter * bool) :=
  let '(fp, i1, i2) := indices (bucket_count f) item in
  let fp := non_zero fp in
  b1 ← buckets f !! Z.to_nat i1;
  match Bucket.insert fp b1 with
  | Some b => Some (counted (put f i1 b), true)
  | None =>
      b2 ← buckets f !! Z.to_nat i2;
      match Bucket.insert fp b2 with
      | Some b => Some (counted (put f i2 b), true)
      | None => relocate MAX_KICKS slot fp i1 f
      end
  end.

Definition contains (item : T) (f : CuckooFilter) : option bool :=
  let '(fp, i1, i2) := indices (bucket_count f) item in
  let fp := non_zero fp in
  b1 ← buckets f !! Z.to_nat i1;
  if Bucket.contains fp b1 then Some true
  else b2 ← buckets f !! Z.to_nat i2; Some (Bucket.contains fp b2).

Definition delete (item : T) (f : CuckooFilter) : option (CuckooFilter * bool) :=
  let '(fp, i1, i2) := indices (bucket_count f) item in
  let fp := non_zero fp in
  b1 ← buckets f !! Z.to_nat i1;
  match Bucket.delete fp b1 with
  | Some b => Some (uncounted (put f i1 b), true)
  | None =>
      b2 ← buckets f !! Z.to_nat i2;
      match Bucket.delete fp b2 with
      | Some b => Some (uncounted (put f i2 b), true)
      | None => Some (f, false)
      end
  end.

End cuckoo.

(** * Theorems *)

(** ** The entries of a bucket *)

(** The fingerprints in a bucket. *)
Definition entries (b : Bucket.t) : list Fingerprint := filter (fun fp => fp <> 0) b.

Lemma bucket_insert_entries fp b b' : fp <> 0 -> Bucket.insert fp b = Some b' ->
  entries b' ≡ₚ fp :: entries b /\ length b' = length b.
Proof.
  intros Hfp. unfold entries. revert b'. induction b as [|e b IH]; intros b' Hi; [done|].
  cbn in Hi. destruct (Z.eqb_spec e 0) as [->|He].
  - injection Hi as <-. rewrite !filter_cons, decide_True, (decide_False (P := 0 <> 0)) by lia.
    done.
  - destruct (Bucket.insert fp b) as [r|]; [|done]. injection Hi as <-.
    destruct (IH r eq_refl) as [Hp Hl]. rewrite !filter_cons, !decide_True by done.
    rewrite Hp. split; [constructor|]. simpl. by rewrite Hl.
Qed.

Lemma bucket_insert_full fp b : Bucket.insert fp b = None -> Forall (fun e => e <> 0) b.
Proof.
  induction b as [|e b IH]; intros Hi; [constructor|]. cbn in Hi.
  destruct (Z.eqb_spec e 0); [done|]. destruct (Bucket.insert fp b); [done|].
  constructor; auto.
Qed.

Lemma bucket_delete_entries fp b b' : fp <> 0 -> Bucket.delete fp b = Some b' ->
  entries b ≡ₚ fp :: entries b' /\ length b' = length b.
Proof.
  intros Hfp. unfold entries. revert b'. induction b as [|e b IH]; intros b' Hi; [done|].
  cbn in Hi. destruct (Z.eqb_spec e fp) as [->|He].
  - injection Hi as <-. rewrite !filter_cons, decide_True, (decide_False (P := 0 <> 0)) by lia.
    done.
  - destruct (Bucket.delete fp b) as [r|]; [|done]. injection Hi as <-.
    destruct (IH r eq_refl) as [Hp Hl]. rewrite !filter_cons.
    split; [|simpl; by rewrite Hl]. case_decide; [|done]. rewrite Hp. constructor.
Qed.

Lemma bucket_delete_absent fp b : Bucket.delete fp b = None -> fp ∉ b.
Proof.
  induction b as [|e b IH]; intros Hi; [by apply not_elem_of_nil|]. cbn in Hi.
  destruct (Z.eqb_spec e fp); [done|]. destruct (Bucket.delete fp b); [done|].
  apply not_elem_of_cons. auto.
Qed.

Lemma bucket_swap_entries idx fp b b' old : fp <> 0 -> Forall (fun e => e <> 0) b ->
  Bucket.swap idx fp b = Some (b', old) ->
  old <> 0 /\ old :: entries b' ≡ₚ fp :: entries b /\ length b' = length b
  /\ Forall (fun e => e <> 0) b'.
Proof.
  intros Hfp Hall. unfold Bucket.swap. destruct (b !! idx) as [o|] eqn:E; [|done].
  intros [= <- <-]. assert (Hall' : Forall (fun e => e <> 0) (<[idx:=fp]> b))
    by (by apply Forall_insert).
  assert (Hid : forall l : Bucket.t, Forall (fun e => e <> 0) l -> entries l = l).
  { intros l Hl. unfold entries. induction Hl; [done|].
    rewrite filter_cons, decide_True by done. by f_equal. }
  rewrite !Hid by done. split_and!.
  - rewrite Forall_lookup in Hall. by eapply Hall.
  - pose proof (lookup_lt_Some _ _ _ E). rewrite insert_take_drop by done.
    rewrite <-(take_drop_middle b idx o E) at 3. rewrite <-!Permutation_middle. constructor.
  - by rewrite length_insert.
  - done.
Qed.

(** ** The contents of a filter *)

Section contents.
Context {T : Type} (hash_item : T -> u64) (hash_fp : Fingerprint -> u64).

Local Abbreviation alt := (alt_index hash_fp).

(** The number of buckets is a power of two, the other index of a fingerprint is then
    an involution. *)
Lemma alt_range w i fp : 0 <= w -> 0 <= alt (2 ^ w) i fp < 2 ^ w.
Proof. intros Hw. apply Z.mod_pos_bound. lia. Qed.

Lemma alt_involutive w i fp : 0 <= w -> 0 <= i < 2 ^ w ->
  alt (2 ^ w) (alt (2 ^ w) i fp) fp = i.
Proof.
  intros Hw Hi. unfold alt_index. apply Z.bits_inj'. intros j Hj.
  rewrite <-!Z.land_ones, !Z.land_spec, !Z.lxor_spec, Z.land_spec, Z.lxor_spec,
    Z.testbit_ones_nonneg by lia.
  destruct (Z.ltb_spec j w) as [Hjw|Hjw].
  - rewrite !andb_true_r. by destruct (Z.testbit i j), (Z.testbit (hash_fp fp) j).
  - rewrite andb_false_r. symmetry. destruct (decide (i = 0)) as [->|]; [apply Z.bits_0|].
    apply Z.bits_above_log2; [lia|]. apply Z.lt_le_trans with w; [|done].
    apply Z.log2_lt_pow2; lia.
Qed.

(** The two buckets of a fingerprint, by the smaller index. *)
Definition home (n i : usize) (fp : Fingerprint) : usize := Z.min i (alt n i fp).

Lemma home_alt w i fp : 0 <= w -> 0 <= i < 2 ^ w ->
  home (2 ^ w) (alt (2 ^ w) i fp) fp = home (2 ^ w) i fp.
Proof. intros Hw Hi. unfold home. rewrite alt_involutive by done. apply Z.min_comm. Qed.

Lemma home_inj w i j fp : 0 <= w -> 0 <= i < 2 ^ w -> 0 <= j < 2 ^ w ->
  home (2 ^ w) i fp = home (2 ^ w) j fp -> j = i \/ j = alt (2 ^ w) i fp.
Proof.
  intros Hw Hi Hj. pose proof (alt_involutive w i fp Hw Hi) as Ei.
  pose proof (alt_involutive w j fp Hw Hj) as Ej. unfold home. intros E.
  destruct (decide (j = i)) as [|Hne]; [by left|]. right.
  destruct (Z.min_spec i (alt (2 ^ w) i fp)) as [[_ E1]|[_ E1]],
    (Z.min_spec j (alt (2 ^ w) j fp)) as [[_ E2]|[_ E2]]; rewrite E1, E2 in E; congruence.
Qed.

(** The fingerprints of bucket [i] with their homes, and those of all buckets. *)
Definition cell (n : usize) (i : nat) (b : Bucket.t) : list (Fingerprint * usize) :=
  (fun fp => (fp, home n (Z.of_nat i) fp)) <$> entries b.

Definition contents_from (n : usize) (i : nat) (bs : list Bucket.t) : list (Fingerprint * usize) :=
  concat (imap (fun j b => cell n (i + j) b) bs).

Definition contents (f : CuckooFilter) : list (Fingerprint * usize) :=
  contents_from (bucket_count f) 0 (buckets f).

Lemma contents_from_app n i bs bs' : contents_from n i (bs ++ bs')
  = contents_from n i bs ++ contents_from n (i + length bs) bs'.
Proof.
  unfold contents_from. rewrite imap_app, concat_app. do 2 f_equal. apply imap_ext.
  intros j b _. by rewrite Nat.add_assoc.
Qed.

Lemma contents_from_cons n i b bs :
  contents_from n i (b :: bs) = cell n i b ++ contents_from n (S i) bs.
Proof.
  unfold contents_from. simpl. rewrite Nat.add_0_r. do 2 f_equal. apply imap_ext.
  intros j b' _. simpl. by rewrite Nat.add_succ_r.
Qed.

Lemma contents_empty n len : forall i, contents_from n i (replicate len Bucket.default_) = [].
Proof.
  induction len as [|len IH]; intros i; [done|]. cbn [replicate].
  by rewrite contents_from_cons, IH.
Qed.

(** Replacing a bucket replaces its cell. *)
Lemma contents_put f i b : buckets f !! i = Some b ->
  exists rest, contents f ≡ₚ cell (bucket_count f) i b ++ rest
    /\ forall b', contents (mk_cuckoo (<[i := b']> (buckets f)) (bucket_count f) (count f))
                  ≡ₚ cell (bucket_count f) i b' ++ rest.
Proof.
  intros Hb. pose proof (lookup_lt_Some _ _ _ Hb) as Hlt.
  assert (Hall : forall b', contents_from (bucket_count f) 0 (take i (buckets f) ++ b' :: drop (S i) (buckets f))
    ≡ₚ cell (bucket_count f) i b' ++ (contents_from (bucket_count f) 0 (take i (buckets f))
         ++ contents_from (bucket_count f) (S i) (drop (S i) (buckets f)))).
  { intros b'. rewrite contents_from_app, contents_from_cons. cbn [Nat.add].
    rewrite length_take, Nat.min_l by lia. rewrite !app_assoc.
    by rewrite (Permutation_app_comm (contents_from _ _ _) (cell _ _ _)). }
  eexists. split.
  - unfold contents. rewrite <-(take_drop_middle _ _ _ Hb) at 1. apply Hall.
  - intros b'. unfold contents. cbn. rewrite insert_take_drop by done. apply Hall.
Qed.

(** A filter with [2^w] buckets of four entries. *)
Definition cuckoo_ok (w : Z) (f : CuckooFilter) : Prop :=
  0 <= w /\ bucket_count f = 2 ^ w /\ length (buckets f) = Z.to_nat (2 ^ w)
  /\ Forall (fun b => length b = ENTRIES_PER_BUCKET) (buckets f).

Lemma bucket_at w f i : cuckoo_ok w f -> 0 <= i < 2 ^ w ->
  exists b, buckets f !! Z.to_nat i = Some b /\ length b = ENTRIES_PER_BUCKET.
Proof.
  intros (Hw & _ & Hl & Hall) Hi.
  destruct (lookup_lt_is_Some_2 (buckets f) (Z.to_nat i)) as [b Hb]; [lia|].
  exists b. split; [done|]. rewrite Forall_lookup in Hall. by eapply Hall.
Qed.

Lemma put_ok w f i b : cuckoo_ok w f -> length b = ENTRIES_PER_BUCKET ->
  cuckoo_ok w (put f i b).
Proof.
  intros (Hw & Hn & Hl & Hall) Hb. unfold put. split_and!; cbn; try done.
  - by rewrite length_insert.
  - by apply Forall_insert.
Qed.

(** A fingerprint that finds a free entry in one of its buckets. *)
Lemma insert_at w f i fp b b' : cuckoo_ok w f -> 0 <= i < 2 ^ w -> fp <> 0 ->
  buckets f !! Z.to_nat i = Some b -> Bucket.insert fp b = Some b' ->
  cuckoo_ok w (put f i b') /\ contents (put f i b') ≡ₚ (fp, home (2 ^ w) i fp) :: contents f.
Proof.
  intros Hf Hi Hfp Hb Hin. destruct (bucket_insert_entries fp b b' Hfp Hin) as [Hp Hl].
  destruct (bucket_at w f i Hf Hi) as (b0 & Hb0 & Hlb). simplify_eq.
  split; [apply put_ok; [done|congruence]|].
  destruct (contents_put f (Z.to_nat i) b Hb) as (rest & Hc & Hput).
  unfold put. rewrite Hput, Hc. unfold cell. rewrite Hp, fmap_cons.
  destruct Hf as (_ & -> & _). by rewrite Z2Nat.id by lia.
Qed.

Lemma delete_at w f i fp b b' : cuckoo_ok w f -> 0 <= i < 2 ^ w -> fp <> 0 ->
  buckets f !! Z.to_nat i = Some b -> Bucket.delete fp b = Some b' ->
  cuckoo_ok w (put f i b') /\ contents f ≡ₚ (fp, home (2 ^ w) i fp) :: contents (put f i b').
Proof.
  intros Hf Hi Hfp Hb Hd. destruct (bucket_delete_entries fp b b' Hfp Hd) as [Hp Hl].
  destruct (bucket_at w f i Hf Hi) as (b0 & Hb0 & Hlb). simplify_eq.
  split; [apply put_ok; [done|congruence]|].
  destruct (contents_put f (Z.to_nat i) b Hb) as (rest & Hc & Hput).
  unfold put. rewrite Hput, Hc. unfold cell. rewrite Hp, fmap_cons.
  destruct Hf as (_ & -> & _). by rewrite Z2Nat.id by lia.
Qed.

(** Swapping a fingerprint into a full bucket. *)
Lemma swap_at w f i fp b b' old idx : cuckoo_ok w f -> 0 <= i < 2 ^ w -> fp <> 0 ->
  buckets f !! Z.to_nat i = Some b -> Forall (fun e => e <> 0) b ->
  Bucket.swap idx fp b = Some (b', old) ->
  old <> 0 /\ cuckoo_ok w (put f i b') /\
  (old, home (2 ^ w) i old) :: contents (put f i b') ≡ₚ (fp, home (2 ^ w) i fp) :: contents f.
Proof.
  intros Hf Hi Hfp Hb Hfull Hs.
  destruct (bucket_swap_entries idx fp b b' old Hfp Hfull Hs) as (Hold & Hp & Hl & _).
  destruct (bucket_at w f i Hf Hi) as (b0 & Hb0 & Hlb). simplify_eq.
  split; [done|]. split; [apply put_ok; [done|congruence]|].
  destruct (contents_put f (Z.to_nat i) b Hb) as (rest & Hc & Hput).
  unfold put. rewrite Hput, Hc. unfold cell.
  destruct Hf as (_ & -> & _). rewrite Z2Nat.id by lia.
  apply (fmap_Permutation (fun fp => (fp, home (2 ^ w) i fp))) in Hp.
  rewrite !fmap_cons in Hp. change (?x :: ?l ++ rest) with ((x :: l) ++ rest).
  by rewrite Hp.
Qed.

(** Relocation moves fingerprints between their two buckets: it adds the new one when it
    succeeds and loses one when it gives up. *)
Definition inserted (f : CuckooFilter) (x : Fingerprint * usize) (f' : CuckooFilter)
  (ok : bool) : Prop :=
  if ok then contents f' ≡ₚ x :: contents f /\ count f' = wrapping_add 64 (count f) 1
  else (exists lost, lost :: contents f' ≡ₚ x :: contents f) /\ count f' = count f.

Lemma relocate_ok w slot kicks : (forall j, slot j < ENTRIES_PER_BUCKET)%nat ->
  forall f idx fp b, cuckoo_ok w f -> 0 <= idx < 2 ^ w -> fp <> 0 ->
  buckets f !! Z.to_nat idx = Some b -> Forall (fun e => e <> 0) b ->
  exists f' ok, relocate hash_fp kicks slot fp idx f = Some (f', ok) /\ cuckoo_ok w f'
    /\ inserted f (fp, home (2 ^ w) idx fp) f' ok.
Proof.
  intros Hslot. induction kicks as [|kicks IH]; intros f idx fp b Hf Hi Hfp Hb Hfull.
  { exists f, false. split; [done|]. split; [done|]. split; [|done]. by eexists. }
  cbn [relocate]. rewrite Hb. cbn [mbind option_bind].
  destruct (bucket_at w f idx Hf Hi) as (b0 & Hb0 & Hlb). simplify_eq.
  destruct (lookup_lt_is_Some_2 b (slot kicks)) as [old Ho]; [rewrite Hlb; apply Hslot|].
  assert (Hs : Bucket.swap (slot kicks) fp b = Some (<[slot kicks := fp]> b, old)).
  { unfold Bucket.swap. by rewrite Ho. }
  rewrite Hs. cbn [mbind option_bind fst snd].
  destruct (swap_at w f idx fp b _ old _ Hf Hi Hfp Hb Hfull Hs) as (Hold & Hf1 & Hc1).
  set (f1 := put f idx (<[slot kicks:=fp]> b)) in *.
  pose proof (proj1 Hf) as Hw. assert (Hn1 : bucket_count f1 = 2 ^ w) by apply Hf1.
  rewrite Hn1. set (idx' := alt (2 ^ w) idx old).
  assert (Hi' : 0 <= idx' < 2 ^ w) by (by apply alt_range).
  assert (Hh : home (2 ^ w) idx' old = home (2 ^ w) idx old) by (by apply home_alt).
  destruct (bucket_at w f1 idx' Hf1 Hi') as (b1 & Hb1 & _). rewrite Hb1.
  cbn [mbind option_bind]. destruct (Bucket.insert old b1) as [b2|] eqn:Ein.
  - destruct (insert_at w f1 idx' old b1 b2 Hf1 Hi' Hold Hb1 Ein) as [Hf2 Hc2].
    eexists _, true. split; [done|]. split; [exact Hf2|]. split; [|done].
    change (contents (counted (put f1 idx' b2))) with (contents (put f1 idx' b2)).
    by rewrite Hc2, Hh.
  - destruct (IH f1 idx' old b1 Hf1 Hi' Hold Hb1 (bucket_insert_full old b1 Ein))
      as (f' & ok & Hr & Hf' & Hok).
    exists f', ok. split; [done|]. split; [done|]. rewrite Hh in Hok. unfold inserted in *.
    destruct ok; destruct Hok as [Hcs Hcn]; (split; [|done]).
    + by rewrite Hcs.
    + destruct Hcs as [lost Hlost]. exists lost. by rewrite Hlost.
Qed.

Definition fingerprint (item : T) : Fingerprint := Z.shiftr (hash_item item) 48 mod 2 ^ 16.

(** What an item with a fingerprint other than zero adds to the contents. *)
Definition tag (n : usize) (item : T) : Fingerprint * usize :=
  (fingerprint item, home n (hash_item item mod n) (fingerprint item)).

Lemma first_index w item : 0 <= w -> 0 <= hash_item item mod 2 ^ w < 2 ^ w.
Proof. intros Hw. apply Z.mod_pos_bound. lia. Qed.

Lemma cuckoo_insert_ok w slot item f : (forall j, slot j < ENTRIES_PER_BUCKET)%nat ->
  cuckoo_ok w f -> fingerprint item <> 0 ->
  exists f' ok, insert hash_item hash_fp slot item f = Some (f', ok) /\ cuckoo_ok w f'
    /\ inserted f (tag (2 ^ w) item) f' ok.
Proof.
  intros Hslot Hf Hfp. pose proof (proj1 Hf) as Hw. assert (Hn : bucket_count f = 2 ^ w) by apply Hf.
  unfold insert, indices. rewrite Hn. fold (fingerprint item). unfold non_zero.
  destruct (Z.eqb_spec (fingerprint item) 0); [done|].
  pose proof (first_index w item Hw) as Hi1. set (i1 := hash_item item mod 2 ^ w) in *.
  destruct (bucket_at w f i1 Hf Hi1) as (b1 & Hb1 & _). rewrite Hb1. cbn [mbind option_bind].
  unfold tag. fold i1.
  destruct (Bucket.insert (fingerprint item) b1) as [b|] eqn:E1.
  { destruct (insert_at w f i1 _ b1 b Hf Hi1 Hfp Hb1 E1) as [Hf' Hc].
    eexists _, true. split; [done|]. split; [exact Hf'|]. by split. }
  set (i2 := alt (2 ^ w) i1 (fingerprint item)).
  assert (Hi2 : 0 <= i2 < 2 ^ w) by (by apply alt_range).
  destruct (bucket_at w f i2 Hf Hi2) as (b2 & Hb2 & _). rewrite Hb2. cbn [mbind option_bind].
  destruct (Bucket.insert (fingerprint item) b2) as [b|] eqn:E2.
  { destruct (insert_at w f i2 _ b2 b Hf Hi2 Hfp Hb2 E2) as [Hf' Hc].
    eexists _, true. split; [done|]. split; [exact Hf'|]. split; [|done].
    unfold i2 in Hc. rewrite home_alt in Hc by done. exact Hc. }
  by apply (relocate_ok w slot MAX_KICKS Hslot f i1 (fingerprint item) b1 Hf Hi1 Hfp Hb1),
    bucket_insert_full with (fingerprint item).
Qed.

(** A fingerprint in the contents is in one of its two buckets. *)
Lemma contents_member w f fp h : cuckoo_ok w f -> (fp, h) ∈ contents f ->
  exists j b, buckets f !! Z.to_nat j = Some b /\ 0 <= j < 2 ^ w /\ fp ∈ b /\ fp <> 0
    /\ h = home (2 ^ w) j fp.
Proof.
  intros (Hw & Hn & Hl & _) Hin. unfold contents, contents_from in Hin.
  apply list_elem_of_In, in_concat in Hin as (c & Hin' & Hc).
  apply list_elem_of_In in Hin', Hc.
  apply list_elem_of_lookup in Hin' as [j Hj]. rewrite list_lookup_imap in Hj.
  destruct (buckets f !! j) as [b|] eqn:Hb; [|done]. injection Hj as <-.
  unfold cell in Hc. apply list_elem_of_fmap in Hc as (x & Heq & Hx). simplify_eq.
  apply list_elem_of_filter in Hx as [Hx0 Hx]. apply lookup_lt_Some in Hb as Hlt.
  exists (Z.of_nat j), b. rewrite Nat2Z.id. split_and!; try done; [lia|lia|]. by rewrite Hn.
Qed.

Lemma tag_found w f item : cuckoo_ok w f -> tag (2 ^ w) item ∈ contents f ->
  fingerprint item <> 0 /\
  let i1 := hash_item item mod 2 ^ w in
  exists b1 b2, buckets f !! Z.to_nat i1 = Some b1
    /\ buckets f !! Z.to_nat (alt (2 ^ w) i1 (fingerprint item)) = Some b2
    /\ (fingerprint item ∈ b1 \/ fingerprint item ∈ b2).
Proof.
  intros Hf Ht. pose proof (proj1 Hf) as Hw.
  destruct (contents_member w f _ _ Hf Ht) as (j & b & Hb & Hj & Hin & H0 & Hh).
  split; [done|]. intros i1. pose proof (first_index w item Hw) as Hi1. fold i1 in Hi1, Hh.
  destruct (bucket_at w f i1 Hf Hi1) as (b1 & Hb1 & _).
  destruct (bucket_at w f (alt (2 ^ w) i1 (fingerprint item)) Hf) as (b2 & Hb2 & _);
    [by apply alt_range|].
  exists b1, b2. split; [done|]. split; [done|].
  destruct (home_inj w i1 j (fingerprint item) Hw Hi1 Hj Hh) as [-> | ->]; simplify_eq; auto.
Qed.

Lemma contains_ok w f item : cuckoo_ok w f -> tag (2 ^ w) item ∈ contents f ->
  contains hash_item hash_fp item f = Some true.
Proof.
  intros Hf Ht. destruct (tag_found w f item Hf Ht) as (H0 & b1 & b2 & Hb1 & Hb2 & Hin).
  assert (Hn : bucket_count f = 2 ^ w) by apply Hf.
  unfold contains, indices. rewrite Hn. fold (fingerprint item). unfold non_zero.
  destruct (Z.eqb_spec (fingerprint item) 0); [done|]. rewrite Hb1, Hb2.
  cbn [mbind option_bind]. unfold Bucket.contains.
  destruct Hin as [Hin|Hin]; [by rewrite bool_decide_true|].
  case_bool_decide; [done|]. by rewrite bool_decide_true.
Qed.

(** Deleting an item that is in the filter takes one copy of it out. *)
Lemma delete_ok w f item : cuckoo_ok w f -> tag (2 ^ w) item ∈ contents f ->
  exists f', delete hash_item hash_fp item f = Some (f', true) /\ cuckoo_ok w f'
    /\ contents f ≡ₚ tag (2 ^ w) item :: contents f'
    /\ count f' = saturating_sub (count f) 1.
Proof.
  intros Hf Ht. destruct (tag_found w f item Hf Ht) as (H0 & b1 & b2 & Hb1 & Hb2 & Hin).
  pose proof (proj1 Hf) as Hw. assert (Hn : bucket_count f = 2 ^ w) by apply Hf.
  pose proof (first_index w item Hw) as Hi1.
  unfold delete, indices. rewrite Hn. fold (fingerprint item). unfold non_zero.
  destruct (Z.eqb_spec (fingerprint item) 0); [done|]. rewrite Hb1, Hb2.
  cbn [mbind option_bind]. unfold tag.
  destruct (Bucket.delete (fingerprint item) b1) as [b|] eqn:E1.
  { destruct (delete_at w f _ _ b1 b Hf Hi1 H0 Hb1 E1) as [Hf' Hc].
    eexists. split; [done|]. split; [exact Hf'|]. by split. }
  apply bucket_delete_absent in E1 as Hno. destruct Hin as [Hin|Hin]; [done|].
  destruct (Bucket.delete (fingerprint item) b2) as [b|] eqn:E2;
    [|by apply bucket_delete_absent in E2].
  pose proof (alt_range w (hash_item item mod 2 ^ w) (fingerprint item) Hw) as Hi2.
  destruct (delete_at w f _ _ b2 b Hf Hi2 H0 Hb2 E2) as [Hf' Hc].
  eexists. split; [done|]. split; [exact Hf'|]. split; [|done].
  rewrite home_alt in Hc by done. exact Hc.
Qed.

(** The filters reached by insertions that succeed and deletions of items that are in
    the filter, with those items; no item has a zero fingerprint. *)
Inductive holding : CuckooFilter -> list T -> Prop :=
  | holding_new capacity : 0 <= capacity -> holding (cuckoo_new capacity) []
  | holding_insert f items slot item f' : holding f items ->
      (forall j, slot j < ENTRIES_PER_BUCKET)%nat -> fingerprint item <> 0 ->
      insert hash_item hash_fp slot item f = Some (f', true) -> holding f' (item :: items)
  | holding_delete f items1 item items2 f' b : holding f (items1 ++ item :: items2) ->
      delete hash_item hash_fp item f = Some (f', b) -> holding f' (items1 ++ items2).

Lemma cuckoo_new_ok capacity : 0 <= capacity ->
  exists w, cuckoo_ok w (cuckoo_new capacity) /\ contents (cuckoo_new capacity) = [].
Proof.
  intros Hc. unfold cuckoo_new, next_power_of_two.
  set (w0 := Z.log2_up ((capacity + 3) / 4)). pose proof (Z.log2_up_nonneg ((capacity + 3) / 4)).
  assert (Hp : exists w, 0 <= w /\ Z.max (2 ^ w0) 4 = 2 ^ w).
  { destruct (Z.max_spec (2 ^ w0) 4) as [[_ ->]|[_ ->]]; [exists 2|exists w0]; by split. }
  destruct Hp as (w & Hw & ->). exists w. split.
  - split_and!; cbn; try done; [by rewrite length_replicate|].
    by apply Forall_replicate.
  - apply contents_empty.
Qed.

Lemma holding_contents f items : holding f items ->
  exists w, cuckoo_ok w f /\ contents f ≡ₚ tag (2 ^ w) <$> items.
Proof.
  induction 1 as [capacity Hc|f items slot item f' _ (w & Hf & Hp) Hslot Hfp Hi
                 |f items1 item items2 f' b _ (w & Hf & Hp) Hd].
  - destruct (cuckoo_new_ok capacity Hc) as (w & Hw & Hn). exists w. by rewrite Hn.
  - destruct (cuckoo_insert_ok w slot item f Hslot Hf Hfp) as (f'' & ok & Hi' & Hf' & Hok).
    simplify_eq. exists w. split; [done|]. destruct Hok as [Hc _]. by rewrite Hc, Hp.
  - assert (Hin : tag (2 ^ w) item ∈ contents f).
    { rewrite Hp, fmap_app, fmap_cons. apply elem_of_app. right. by left. }
    destruct (delete_ok w f item Hf Hin) as (f'' & Hd' & Hf' & Hc & _). simplify_eq.
    exists w. split; [done|]. rewrite fmap_app, fmap_cons, <-Permutation_middle in Hp.
    rewrite Hp in Hc. apply Permutation_cons_inv in Hc. by rewrite fmap_app.
Qed.

End contents.

(** The cuckoo filter has no false negatives.  After any insertions that
    succeeded, relocations included and whatever slots they picked, and any deletions of
    items in the filter, every item in the filter is contained and can be deleted, as
    long as none has the fingerprint zero.  Deletion and lookup never panic on it. *)
Theorem cuckoo_no_false_negatives {T} hash_item hash_fp f (items : list T) item :
  holding hash_item hash_fp f items -> item ∈ items ->
  contains hash_item hash_fp item f = Some true
  /\ exists f', delete hash_item hash_fp item f = Some (f', true).
Proof.
  intros Hh Hin. destruct (holding_contents hash_item hash_fp f items Hh) as (w & Hf & Hp).
  assert (Ht : tag hash_item hash_fp (2 ^ w) item ∈ contents hash_fp f).
  { rewrite Hp. by apply list_elem_of_fmap_2. }
  split; [by eapply contains_ok|].
  destruct (delete_ok hash_item hash_fp w f item Hf Ht) as (f' & Hd & _). by exists f'.
Qed.

(** Two items of one fingerprint in a filter of four buckets. *)
Local Abbreviation item_hash := (fun x : Z => 2 ^ 48 + x).

Lemma cuckoo_no_false_negatives_witness : exists f,
  insert item_hash (fun fp => fp) (fun _ => O) 5 (cuckoo_new 10) = Some (f, true)
  /\ contains item_hash (fun fp => fp) 5 f = Some true.
Proof.
  destruct (insert item_hash (fun fp => fp) (fun _ => O) 5 (cuckoo_new 10)) as [[f ok]|] eqn:E;
    [|vm_compute in E; discriminate].
  destruct ok; [|vm_compute in E; discriminate].
  exists f. split; [reflexivity|].
  apply (cuckoo_no_false_negatives item_hash (fun fp => fp) f [5] 5); [|by left].
  apply (holding_insert item_hash (fun fp => fp) (cuckoo_new 10) [] (fun _ => O) 5 f).
  - apply holding_new. lia.
  - intros j. unfold ENTRIES_PER_BUCKET. lia.
  - vm_compute. discriminate.
  - exact E.
Defined.

(** An item with the fingerprint zero is stored as one with the fingerprint one: after a
    relocation it is in a bucket where it is not looked for. *)
Theorem zero_fingerprint_lost :
  let hi := fun x : Z => x * 2 ^ 49 in
  let hf := fun fp : Z => if fp =? 0 then 2 else if fp =? 1 then 1 else 3 in
  let ins := fun f x => f ≫= fun p => insert hi hf (fun _ => O) x (fst p) in
  let f := foldl ins (Some (cuckoo_new 10, true)) [0; 1; 1; 1; 1; 1; 1; 1; 1] in
  snd <$> f = Some true /\ (f ≫= fun p => contains hi hf 0 (fst p)) = Some false.
Proof. by vm_compute. Qed.

(** A failed insertion throws out a fingerprint that was in the filter. *)
Theorem failed_insert_loses :
  let hi := fun x : Z => x * 2 ^ 48 in
  let slot := fun j => if (j =? 499)%nat then O else 1%nat in
  let ins := fun f x => f ≫= fun p => insert hi (fun _ => 0) slot x (fst p) in
  let f := foldl ins (Some (cuckoo_new 10, true)) [1; 2; 3; 4; 5] in
  snd <$> f = Some false /\ (f ≫= fun p => contains hi (fun _ => 0) 2 (fst p)) = Some false.
Proof. by vm_compute. Qed.
