(* ===== verification/Peers.v ===== *)
(** * Peers: the routing table of peer discovery ([qc-01-peer-discovery])

    The value types of [domain/types/], the distance and subnet functions of
    [domain/services/], and [RoutingTable] with its buckets, staging area and
    bans of [domain/routing_table/], one function per method.  A [NodeId] is the
    number its 32 bytes spell; [now] is the reading of the time source that
    [PeerDiscoveryService] passes down.  A bucket that is indexed outside the
    table gives [InvalidNodeId], as in the code; [PeersProps] shows that no
    index is outside. *)

From S2P Require Import Prelude.

Local Open Scope Z_scope.

(** ** Types *)

Abbreviation NodeId := Z (only parsing).

Inductive IpAddr := V4 (bytes : list u8) | V6 (bytes : list u8).

Record SocketAddr := { ip : IpAddr; port : Z }.

Record PeerInfo := {
  node_id : NodeId;
  socket_addr : SocketAddr;
  last_seen : Timestamp;
  reputation_score : u8;
}.

#[export] Instance IpAddr_eq_dec : EqDecision IpAddr.
Proof. solve_decision. Defined.
#[export] Instance SocketAddr_eq_dec : EqDecision SocketAddr.
Proof. solve_decision. Defined.
#[export] Instance PeerInfo_eq_dec : EqDecision PeerInfo.
Proof. solve_decision. Defined.

Definition peer_new (id : NodeId) (addr : SocketAddr) (seen : Timestamp) : PeerInfo := {|
  node_id := id; socket_addr := addr; last_seen := seen; reputation_score := 50 |}.

Definition set_last_seen (p : PeerInfo) (now : Timestamp) : PeerInfo := {|
  node_id := node_id p; socket_addr := socket_addr p; last_seen := now;
  reputation_score := reputation_score p |}.

Definition MAX_REASONABLE : u64 := 253402300799.
Definition timestamp_new (secs : u64) : Timestamp := Z.min secs MAX_REASONABLE.
Definition try_new (secs : u64) : option Timestamp :=
  if secs <=? MAX_REASONABLE then Some secs else None.
Definition add_secs (t : Timestamp) (secs : u64) : Timestamp :=
  Z.min (saturating_add 64 t secs) MAX_REASONABLE.
Definition sub_secs (t : Timestamp) (secs : u64) : Timestamp := saturating_sub t secs.

Record KademliaConfig := {
  k : nat;
  alpha : nat;
  max_peers_per_subnet : nat;
  max_pending_peers : nat;
  eviction_challenge_timeout_secs : u64;
  verification_timeout_secs : u64;
}.

Definition kademlia_default : KademliaConfig := {|
  k := 20; alpha := 3; max_peers_per_subnet := 2; max_pending_peers := 1024;
  eviction_challenge_timeout_secs := 5; verification_timeout_secs := 10 |}.

Definition for_testing : KademliaConfig := {|
  k := 3; alpha := 2; max_peers_per_subnet := 2; max_pending_peers := 10;
  eviction_challenge_timeout_secs := 1; verification_timeout_secs := 2 |}.

Record SubnetMask := { prefix_length : u8 }.
Definition ipv4_default : SubnetMask := {| prefix_length := 24 |}.
Definition ipv6_default : SubnetMask := {| prefix_length := 48 |}.
Definition subnet_mask_default : SubnetMask := ipv4_default.

Inductive PeerDiscoveryError :=
  | PeerNotFound | PeerBanned | BucketFull | InvalidNodeId | SubnetLimitReached
  | SelfConnection | StagingAreaFull | ChallengeInProgress | RoutingTableFull.

Inductive BanReason := MalformedMessage | ExcessiveRequests | ManualBan.

(** ** Distance, subnets, sorting *)

(** The comparison of two identifiers folds the differences of all bytes. *)
Definition node_id_eq (a b : NodeId) : bool :=
  foldl (fun acc '(x, y) => Z.lor acc (Z.lxor x y)) 0 (zip (hash_bytes a) (hash_bytes b)) =? 0.

(** [u8::leading_zeros]. *)
Definition leading_zeros (x : u8) : Z := if x =? 0 then 8 else 7 - Z.log2 x.

Fixpoint first_difference (i : Z) (l : list (u8 * u8)) : option Z :=
  match l with
  | [] => None
  | (x, y) :: l =>
      let xor := Z.lxor x y in
      if xor =? 0 then first_difference (i + 1) l else Some (i * 8 + leading_zeros xor)
  end.

(** The bucket is computed in [u8]. *)
Definition xor_distance (a b : NodeId) : u8 :=
  match first_difference 0 (zip (hash_bytes a) (hash_bytes b)) with
  | Some bucket => bucket mod 2 ^ 8
  | None => 255
  end.

Definition calculate_bucket_index (local remote : NodeId) : nat := Z.to_nat (xor_distance local remote).

(** The fused variant computes in [usize]. *)
Definition bucket_for_peer (local remote : NodeId) : nat :=
  match first_difference 0 (zip (hash_bytes local) (hash_bytes remote)) with
  | Some bucket => Z.to_nat bucket
  | None => 255%nat
  end.

Definition prefix_matches (a b : list u8) (prefix_bits : u8) (max_bytes : nat) : bool :=
  let prefix_bytes := Z.to_nat (prefix_bits / 8) in
  let remaining_bits := prefix_bits mod 8 in
  if negb (bool_decide (take (min prefix_bytes max_bytes) a = take (min prefix_bytes max_bytes) b))
  then false
  else if (0 <? remaining_bits) && (prefix_bytes <? max_bytes)%nat then
    let mask_byte := Z.land (Z.shiftl 0xFF (8 - remaining_bits)) 0xFF in
    Z.land (a !!! prefix_bytes) mask_byte =? Z.land (b !!! prefix_bytes) mask_byte
  else true.

Definition is_same_subnet (a b : IpAddr) (mask : SubnetMask) : bool :=
  match a, b with
  | V4 x, V4 y => prefix_matches x y (prefix_length mask) 4
  | V6 x, V6 y => prefix_matches x y (prefix_length mask) 16
  | _, _ => false
  end.

(** [dist_b.cmp(&dist_a)]: the higher bucket index first. *)
Definition closer (target : NodeId) (p q : PeerInfo) : Prop :=
  xor_distance (node_id q) target <= xor_distance (node_id p) target.

#[export] Instance closer_dec target p q : Decision (closer target p q).
Proof. unfold closer. apply _. Defined.

Definition sort_peers_by_distance (peers : list PeerInfo) (target : NodeId) : list PeerInfo :=
  stable_sort (closer target) peers.

Definition find_k_closest (peers : list PeerInfo) (target : NodeId) (k : nat) : list PeerInfo :=
  take k (sort_peers_by_distance peers target).

(** ** Security records *)

Record PendingInsertion := {
  candidate : PeerInfo;
  challenged_peer : NodeId;
  challenge_sent_at : Timestamp;
  challenge_deadline : Timestamp;
}.

Record PendingPeer := {
  peer_info : PeerInfo;
  received_at : Timestamp;
  verification_deadline : Timestamp;
}.

Record BannedEntry := {
  be_node_id : NodeId;
  banned_until : Timestamp;
  reason : BanReason;
}.

Record BanDetails := { duration_secs : u64; bd_reason : BanReason }.

Record RoutingTableStats := {
  total_peers : nat;
  buckets_used : nat;
  banned_count : nat;
  oldest_peer_age_seconds : u64;
  pending_verification_count : nat;
  stats_max_pending_peers : nat;
}.

Definition NUM_BUCKETS : nat := 256.
Definition MAX_TOTAL_PEERS : nat := 256 * 20.

(** ** Buckets *)

Module KBucket.

Record KBucket := {
  peers : list PeerInfo;
  last_updated : Timestamp;
  pending_insertion : option PendingInsertion;
}.

Definition new : KBucket := {| peers := []; last_updated := 0; pending_insertion := None |}.

Definition len (b : KBucket) : nat := length (peers b).
Definition is_empty (b : KBucket) : bool := (length (peers b) =? 0)%nat.
Definition is_full (b : KBucket) (k : nat) : bool := (k <=? length (peers b))%nat.
Definition oldest_peer (b : KBucket) : option PeerInfo := head (peers b).
Definition has_pending_challenge (b : KBucket) : bool := bool_decide (is_Some (pending_insertion b)).

Definition set_pending (b : KBucket) (p : option PendingInsertion) : KBucket := {|
  peers := peers b; last_updated := last_updated b; pending_insertion := p |}.

Definition add_peer (b : KBucket) (peer : PeerInfo) (now : Timestamp) : KBucket := {|
  peers := peers b ++ [peer]; last_updated := now; pending_insertion := pending_insertion b |}.

(** [iter().position(|p| &p.node_id == node_id)]: the first peer with the
    identifier and where it is. *)
Definition position (b : KBucket) (id : NodeId) : option (nat * PeerInfo) :=
  list_find (fun p => node_id p = id) (peers b).

Definition remove_peer (b : KBucket) (id : NodeId) : KBucket * option PeerInfo :=
  match position b id with
  | Some (pos, p) =>
      ({| peers := delete pos (peers b); last_updated := last_updated b;
          pending_insertion := pending_insertion b |}, Some p)
  | None => (b, None)
  end.

Definition move_to_front (b : KBucket) (id : NodeId) (now : Timestamp) : KBucket * bool :=
  match position b id with
  | Some (pos, p) =>
      ({| peers := delete pos (peers b) ++ [set_last_seen p now]; last_updated := now;
          pending_insertion := pending_insertion b |}, true)
  | None => (b, false)
  end.

Definition touch_peer (b : KBucket) (id : NodeId) (now : Timestamp) : KBucket * bool :=
  match position b id with
  | Some (pos, p) =>
      ({| peers := <[pos := set_last_seen p now]> (peers b); last_updated := now;
          pending_insertion := pending_insertion b |}, true)
  | None => (b, false)
  end.

Definition contains (b : KBucket) (id : NodeId) : bool :=
  existsb (fun p => node_id p =? id) (peers b).

End KBucket.

Abbreviation KBucket := KBucket.KBucket.

(** ** Bans *)

Module BannedPeers.

Record BannedPeers := { entries : gmap NodeId BannedEntry }.

Definition new : BannedPeers := {| entries := ∅ |}.

Definition ban (b : BannedPeers) (id : NodeId) (until : Timestamp) (r : BanReason) : BannedPeers := {|
  entries := <[id := {| be_node_id := id; banned_until := until; reason := r |}]> (entries b) |}.

Definition is_banned (b : BannedPeers) (id : NodeId) (now : Timestamp) : bool :=
  match entries b !! id with
  | Some e => now <? banned_until e
  | None => false
  end.

Definition gc_expired (b : BannedPeers) (now : Timestamp) : BannedPeers * nat :=
  let kept := filter (fun ie => now < banned_until ie.2) (entries b) in
  ({| entries := kept |}, size (entries b) - size kept)%nat.

Definition count (b : BannedPeers) (now : Timestamp) : nat :=
  size (filter (fun ie => now < banned_until ie.2) (entries b)).

End BannedPeers.

Abbreviation BannedPeers := BannedPeers.BannedPeers.

(** ** The routing table *)

Module RoutingTable.

Record RoutingTable := {
  local_node_id : NodeId;
  buckets : list KBucket;
  banned_peers : BannedPeers;
  pending_verification : gmap NodeId PendingPeer;
  config : KademliaConfig;
  subnet_mask : SubnetMask;
}.

Definition new (local : NodeId) (c : KademliaConfig) : RoutingTable := {|
  local_node_id := local;
  buckets := replicate NUM_BUCKETS KBucket.new;
  banned_peers := BannedPeers.new;
  pending_verification := ∅;
  config := c;
  subnet_mask := subnet_mask_default |}.

Definition set_buckets (t : RoutingTable) (bs : list KBucket) : RoutingTable := {|
  local_node_id := local_node_id t; buckets := bs; banned_peers := banned_peers t;
  pending_verification := pending_verification t; config := config t;
  subnet_mask := subnet_mask t |}.

Definition set_bucket (t : RoutingTable) (i : nat) (b : KBucket) : RoutingTable :=
  set_buckets t (<[i := b]> (buckets t)).

Definition set_staged (t : RoutingTable) (m : gmap NodeId PendingPeer) : RoutingTable := {|
  local_node_id := local_node_id t; buckets := buckets t; banned_peers := banned_peers t;
  pending_verification := m; config := config t; subnet_mask := subnet_mask t |}.

Definition set_banned (t : RoutingTable) (b : BannedPeers) : RoutingTable := {|
  local_node_id := local_node_id t; buckets := buckets t; banned_peers := b;
  pending_verification := pending_verification t; config := config t;
  subnet_mask := subnet_mask t |}.

(** The peers of all buckets, in bucket order. *)
Definition all_peers (t : RoutingTable) : list PeerInfo := concat (KBucket.peers <$> buckets t).

Definition total_peer_count (t : RoutingTable) : nat := sum_list (KBucket.len <$> buckets t).

Definition stats (t : RoutingTable) (now : Timestamp) : RoutingTableStats := {|
  total_peers := total_peer_count t;
  buckets_used := length (filter (fun b => KBucket.is_empty b = false) (buckets t));
  banned_count := BannedPeers.count (banned_peers t) now;
  oldest_peer_age_seconds :=
    foldr Z.max 0 ((fun p => saturating_sub now (last_seen p)) <$> all_peers t);
  pending_verification_count := size (pending_verification t);
  stats_max_pending_peers := max_pending_peers (config t) |}.

Definition stage_peer (t : RoutingTable) (peer : PeerInfo) (now : Timestamp)
  : RoutingTable * result PeerDiscoveryError bool :=
  if (max_pending_peers (config t) <=? size (pending_verification t))%nat
  then (t, Err StagingAreaFull)
  else if node_id peer =? local_node_id t then (t, Err SelfConnection)
  else if BannedPeers.is_banned (banned_peers t) (node_id peer) now then (t, Err PeerBanned)
  else if bool_decide (is_Some (pending_verification t !! node_id peer)) then (t, Ok false)
  else
    let bucket_idx := calculate_bucket_index (local_node_id t) (node_id peer) in
    if match buckets t !! bucket_idx with
       | Some bucket => KBucket.contains bucket (node_id peer)
       | None => false
       end
    then (t, Ok false)
    else
      let pending := {| peer_info := peer; received_at := now;
        verification_deadline := add_secs now (verification_timeout_secs (config t)) |} in
      (set_staged t (<[node_id peer := pending]> (pending_verification t)), Ok true).

Definition peers_in_subnet (t : RoutingTable) (bucket : KBucket) (addr : IpAddr) : nat :=
  length (filter (fun p => is_same_subnet (ip (socket_addr p)) addr (subnet_mask t) = true)
    (KBucket.peers bucket)).

Definition on_verification_result (t : RoutingTable) (id : NodeId) (identity_valid : bool)
    (now : Timestamp) : RoutingTable * result PeerDiscoveryError (option NodeId) :=
  let pending := pending_verification t !! id in
  let t := set_staged t (delete id (pending_verification t)) in
  if negb identity_valid then (t, Ok None)
  else match pending with
  | None => (t, Err PeerNotFound)
  | Some pending =>
      let peer := peer_info pending in
      let bucket_idx := calculate_bucket_index (local_node_id t) (node_id peer) in
      match buckets t !! bucket_idx with
      | None => (t, Err InvalidNodeId)
      | Some bucket =>
          if (max_peers_per_subnet (config t) <=?
              peers_in_subnet t bucket (ip (socket_addr peer)))%nat
          then (t, Err SubnetLimitReached)
          else if negb (KBucket.is_full bucket (k (config t)))
          then (set_bucket t bucket_idx (KBucket.add_peer bucket peer now), Ok None)
          else if KBucket.has_pending_challenge bucket then (t, Err ChallengeInProgress)
          else match KBucket.oldest_peer bucket with
          | None => (t, Err BucketFull)
          | Some oldest =>
              let pi := {| candidate := peer; challenged_peer := node_id oldest;
                challenge_sent_at := now;
                challenge_deadline :=
                  add_secs now (eviction_challenge_timeout_secs (config t)) |} in
              (set_bucket t bucket_idx (KBucket.set_pending bucket (Some pi)),
               Ok (Some (node_id oldest)))
          end
      end
  end.

(** The challenged peer is gone: the candidate takes its place at the end. *)
Definition replace_challenged (b : KBucket) (challenged : NodeId) (cand : PeerInfo)
    (now : Timestamp) : KBucket :=
  KBucket.add_peer (KBucket.remove_peer b challenged).1 cand now.

Definition on_challenge_response (t : RoutingTable) (challenged : NodeId) (is_alive : bool)
    (now : Timestamp) : RoutingTable * result PeerDiscoveryError unit :=
  let bucket_idx := calculate_bucket_index (local_node_id t) challenged in
  match buckets t !! bucket_idx with
  | None => (t, Err InvalidNodeId)
  | Some bucket =>
      match KBucket.pending_insertion bucket with
      | None => (t, Err PeerNotFound)
      | Some pending =>
          if negb (challenged_peer pending =? challenged) then (t, Err PeerNotFound)
          else
            let bucket := KBucket.set_pending bucket None in
            let bucket :=
              if is_alive then (KBucket.move_to_front bucket challenged now).1
              else replace_challenged bucket challenged (candidate pending) now in
            (set_bucket t bucket_idx bucket, Ok tt)
      end
  end.

(** The first loop takes the expired challenges out of their buckets, the second
    completes them. *)
Fixpoint take_expired (now : Timestamp) (idx : nat) (bs : list KBucket)
  : list KBucket * list (nat * PeerInfo * NodeId) :=
  match bs with
  | [] => ([], [])
  | b :: bs =>
      let '(bs', expired) := take_expired now (S idx) bs in
      match KBucket.pending_insertion b with
      | Some pending =>
          if now <? challenge_deadline pending then (b :: bs', expired)
          else (KBucket.set_pending b None :: bs',
                (idx, candidate pending, challenged_peer pending) :: expired)
      | None => (b :: bs', expired)
      end
  end.

Definition complete_expired (now : Timestamp) (bs : list KBucket)
    (expired : list (nat * PeerInfo * NodeId)) : list KBucket :=
  foldl (fun bs '(idx, cand, challenged) =>
           alter (fun b => replace_challenged b challenged cand now) idx bs) bs expired.

Definition check_expired_challenges (t : RoutingTable) (now : Timestamp)
  : RoutingTable * list (nat * PeerInfo * NodeId) :=
  let '(bs, expired) := take_expired now 0 (buckets t) in
  (set_buckets t (complete_expired now bs expired), expired).

Definition gc_expired (t : RoutingTable) (now : Timestamp) : RoutingTable * nat :=
  let kept := filter (fun ip => now < verification_deadline ip.2) (pending_verification t) in
  let '(banned, n) := BannedPeers.gc_expired (banned_peers t) now in
  (set_banned (set_staged t kept) banned, size (pending_verification t) - size kept + n)%nat.

Definition ban_peer (t : RoutingTable) (id : NodeId) (details : BanDetails) (now : Timestamp)
  : RoutingTable :=
  let bucket_idx := calculate_bucket_index (local_node_id t) id in
  let t := set_buckets t (alter (fun b => (KBucket.remove_peer b id).1) bucket_idx (buckets t)) in
  let t := set_staged t (delete id (pending_verification t)) in
  set_banned t (BannedPeers.ban (banned_peers t) id (add_secs now (duration_secs details))
    (bd_reason details)).

Definition is_banned (t : RoutingTable) (id : NodeId) (now : Timestamp) : bool :=
  BannedPeers.is_banned (banned_peers t) id now.

Definition touch_peer (t : RoutingTable) (id : NodeId) (now : Timestamp)
  : RoutingTable * result PeerDiscoveryError unit :=
  let bucket_idx := calculate_bucket_index (local_node_id t) id in
  match buckets t !! bucket_idx with
  | None => (t, Err InvalidNodeId)
  | Some bucket =>
      let '(bucket, found) := KBucket.touch_peer bucket id now in
      (set_bucket t bucket_idx bucket, if found then Ok tt else Err PeerNotFound)
  end.

Definition remove_peer (t : RoutingTable) (id : NodeId)
  : RoutingTable * result PeerDiscoveryError unit :=
  let bucket_idx := calculate_bucket_index (local_node_id t) id in
  match buckets t !! bucket_idx with
  | None => (t, Err InvalidNodeId)
  | Some bucket =>
      let '(bucket, removed) := KBucket.remove_peer bucket id in
      (set_bucket t bucket_idx bucket,
       match removed with Some _ => Ok tt | None => Err PeerNotFound end)
  end.

Definition find_closest_peers (t : RoutingTable) (target : NodeId) (count : nat)
  : list PeerInfo :=
  take count (stable_sort (closer target) (all_peers t)).

Definition get_random_peers (t : RoutingTable) (count : nat) : list PeerInfo :=
  take count (all_peers t).

End RoutingTable.

Abbreviation RoutingTable := RoutingTable.RoutingTable.

(** ** The service

    Every call reads the clock once and passes the reading to the table
    ([service/api.rs], [events.rs], [maintenance.rs]). *)

Inductive Call :=
  | AddPeer (peer : PeerInfo)
  | BanPeer (id : NodeId) (details : BanDetails)
  | TouchPeer (id : NodeId)
  | RemovePeer (id : NodeId)
  | Verification (id : NodeId) (identity_valid : bool)
  | ChallengeResponse (challenged : NodeId) (is_alive : bool)
  | Gc
  | CheckExpired.

Definition serve (t : RoutingTable) (now : Timestamp) (c : Call) : RoutingTable :=
  match c with
  | AddPeer peer => (RoutingTable.stage_peer t peer now).1
  | BanPeer id details => RoutingTable.ban_peer t id details now
  | TouchPeer id => (RoutingTable.touch_peer t id now).1
  | RemovePeer id => (RoutingTable.remove_peer t id).1
  | Verification id valid => (RoutingTable.on_verification_result t id valid now).1
  | ChallengeResponse id alive => (RoutingTable.on_challenge_response t id alive now).1
  | Gc => (RoutingTable.gc_expired t now).1
  | CheckExpired => (RoutingTable.check_expired_challenges t now).1
  end.
