(* ===== verification/PeersProps.v ===== *)
(** * PeersProps: what the routing table guarantees

    The bucket of a peer is the bit length of its XOR distance; the buckets, the
    staging area and the pending challenges keep their invariant under every
    sequence of service calls; a peer leaves its bucket only when it is removed,
    banned or fails a challenge; a peer enters only when it was verified; and
    where the limits of the specification are exceeded. *)

From S2P Require Import Prelude Peers.
Import RoutingTable.

Local Open Scope Z_scope.

(** ** The distance is a logarithm *)

Lemma pow256 n : 256 ^ Z.of_nat n = 2 ^ (8 * Z.of_nat n).
Proof. change 256 with (2 ^ 8) at 1. rewrite <- Z.pow_mul_r by lia. done. Qed.

(** The byte of an exclusive or is the exclusive or of the bytes. *)
Lemma byte_lxor n a b :
  Z.lxor ((a / 256 ^ Z.of_nat n) mod 256) ((b / 256 ^ Z.of_nat n) mod 256) =
  (Z.lxor a b / 256 ^ Z.of_nat n) mod 256.
Proof.
  rewrite pow256, <- !Z.shiftr_div_pow2 by lia. change 256 with (2 ^ 8).
  rewrite Z.shiftr_lxor. apply Z.bits_inj'. intros i Hi.
  rewrite Z.lxor_spec. destruct (Z.lt_ge_cases i 8).
  - by rewrite !Z.mod_pow2_bits_low, Z.lxor_spec by lia.
  - by rewrite !Z.mod_pow2_bits_high by lia.
Qed.

Lemma mod_split n x : x mod 256 ^ Z.of_nat (S n) =
  256 ^ Z.of_nat n * ((x / 256 ^ Z.of_nat n) mod 256) + x mod 256 ^ Z.of_nat n.
Proof. rewrite Nat2Z.inj_succ, Z.pow_succ_r, Z.mul_comm, Z.rem_mul_r by lia. lia. Qed.

Lemma log2_digit m y r : 0 <= m -> 0 < y -> 0 <= r < 2 ^ m ->
  Z.log2 (2 ^ m * y + r) = m + Z.log2 y.
Proof.
  intros Hm Hy Hr. pose proof (Z.log2_spec y Hy) as [H1 H2]. pose proof (Z.log2_nonneg y).
  apply Z.log2_unique; [lia|]. rewrite Z.pow_succ_r in H2 by lia.
  rewrite Z.pow_succ_r, Z.pow_add_r by lia. nia.
Qed.

Lemma first_difference_spec n a b : forall i,
  first_difference i (zip (be_bytes n a) (be_bytes n b)) =
  let x := Z.lxor a b mod 256 ^ Z.of_nat n in
  if x =? 0 then None else Some (i * 8 + 8 * Z.of_nat n - 1 - Z.log2 x).
Proof.
  induction n as [|n IH]; intros i.
  { cbn. by rewrite Z.mod_1_r. }
  rewrite !be_bytes_cons. cbn [zip zip_with first_difference]. rewrite byte_lxor, IH, mod_split.
  clear IH. pose proof (Z.pow_pos_nonneg 256 (Z.of_nat n) ltac:(lia) ltac:(lia)) as Hp.
  pose proof (Z.mod_pos_bound (Z.lxor a b) (256 ^ Z.of_nat n) Hp) as Hr.
  pose proof (Z.mod_pos_bound (Z.lxor a b / 256 ^ Z.of_nat n) 256 ltac:(lia)) as Hy.
  generalize dependent (Z.lxor a b mod 256 ^ Z.of_nat n). intros r Hr.
  generalize dependent ((Z.lxor a b / 256 ^ Z.of_nat n) mod 256). intros y Hy. cbn zeta.
  destruct (Z.eqb_spec y 0) as [->|Hy0].
  - rewrite Z.mul_0_r, Z.add_0_l. destruct (r =? 0); [done|]. apply (f_equal Some). lia.
  - destruct (Z.eqb_spec (256 ^ Z.of_nat n * y + r) 0); [nia|].
    rewrite pow256 in *. rewrite log2_digit by lia.
    unfold leading_zeros. destruct (Z.eqb_spec y 0); [lia|]. apply (f_equal Some). lia.
Qed.

Lemma xor_distance_log a b : in_width 256 a -> in_width 256 b ->
  xor_distance a b = 255 - Z.log2 (Z.lxor a b).
Proof.
  intros Ha Hb. pose proof (lxor_width 256 a b ltac:(lia) Ha Hb) as [H0 H1].
  unfold xor_distance. rewrite first_difference_spec. cbn zeta.
  rewrite pow256. change (8 * Z.of_nat 32) with 256.
  rewrite (Z.mod_small (Z.lxor a b)) by done.
  destruct (Z.eqb_spec (Z.lxor a b) 0) as [->|Hx]; [done|].
  pose proof (Z.log2_nonneg (Z.lxor a b)).
  assert (Z.log2 (Z.lxor a b) < 256) by (apply Z.log2_lt_pow2; lia).
  rewrite Z.mod_small by lia. lia.
Qed.

Lemma bucket_for_peer_eq a b : bucket_for_peer a b = calculate_bucket_index a b.
Proof.
  unfold bucket_for_peer, calculate_bucket_index, xor_distance. rewrite first_difference_spec.
  cbn zeta. rewrite pow256. change (8 * Z.of_nat 32) with 256.
  pose proof (Z.mod_pos_bound (Z.lxor a b) (2 ^ 256) ltac:(lia)) as Hr.
  generalize dependent (Z.lxor a b mod 2 ^ 256). intros r Hr.
  destruct (Z.eqb_spec r 0); [done|].
  pose proof (Z.log2_nonneg r). assert (Z.log2 r < 256) by (apply Z.log2_lt_pow2; lia).
  rewrite Z.mod_small by lia. done.
Qed.

Lemma bucket_index_lt a b : (calculate_bucket_index a b < NUM_BUCKETS)%nat.
Proof.
  unfold calculate_bucket_index, xor_distance, NUM_BUCKETS. case_match; [|lia].
  pose proof (Z.mod_pos_bound z (2 ^ 8) ltac:(lia)). lia.
Qed.

(** ** Subnets are the classes of an equivalence *)

Definition subnet_key (mask : SubnetMask) (a : IpAddr) : bool * list Z * option Z :=
  let bits := prefix_length mask in
  let key v6 max_bytes (l : list Z) :=
    (v6, take (min (Z.to_nat (bits / 8)) max_bytes) l,
     if (0 <? bits mod 8) && (Z.to_nat (bits / 8) <? max_bytes)%nat
     then Some (Z.land (l !!! Z.to_nat (bits / 8)) (Z.land (Z.shiftl 0xFF (8 - bits mod 8)) 0xFF))
     else None) in
  match a with V4 x => key false 4%nat x | V6 x => key true 16%nat x end.

Lemma is_same_subnet_key mask a b :
  is_same_subnet a b mask = bool_decide (subnet_key mask a = subnet_key mask b).
Proof.
  unfold is_same_subnet, subnet_key, prefix_matches.
  destruct a as [x|x], b as [y|y]; cbn zeta;
    try (symmetry; apply bool_decide_eq_false; congruence);
    (case_bool_decide as Ht; cbn [negb];
     [|symmetry; apply bool_decide_eq_false; congruence]);
    rewrite Ht; destruct (_ && _); [|by rewrite bool_decide_eq_true_2| |by rewrite bool_decide_eq_true_2];
    match goal with |- (?u =? ?v) = _ => destruct (Z.eqb_spec u v) as [->|] end;
    symmetry; [by apply bool_decide_eq_true|apply bool_decide_eq_false; congruence
              |by apply bool_decide_eq_true|apply bool_decide_eq_false; congruence].
Qed.

(** ** The skeleton of a bucket: identifiers and addresses *)

Definition skel (p : PeerInfo) : NodeId * IpAddr := (node_id p, ip (socket_addr p)).
Definition skeleton (b : KBucket) : list (NodeId * IpAddr) := skel <$> KBucket.peers b.

Definition in_subnet (mask : SubnetMask) (addr : IpAddr) (s : list (NodeId * IpAddr)) : nat :=
  length (filter (fun e => subnet_key mask e.2 = subnet_key mask addr) s).

Lemma peers_in_subnet_skel t b addr :
  peers_in_subnet t b addr = in_subnet (subnet_mask t) addr (skeleton b).
Proof.
  unfold peers_in_subnet, in_subnet, skeleton. induction (KBucket.peers b) as [|p l IH]; [done|].
  cbn [fmap list_fmap]. rewrite !filter_cons, is_same_subnet_key.
  repeat case_decide; cbn [length]; by rewrite IH.
Qed.

Lemma in_subnet_app mask addr s1 s2 :
  in_subnet mask addr (s1 ++ s2) = (in_subnet mask addr s1 + in_subnet mask addr s2)%nat.
Proof. unfold in_subnet. by rewrite filter_app, length_app. Qed.

Lemma in_subnet_one mask addr e :
  in_subnet mask addr [e] = if decide (subnet_key mask e.2 = subnet_key mask addr) then 1%nat else 0%nat.
Proof. unfold in_subnet. rewrite filter_cons, filter_nil. by case_decide. Qed.

Lemma in_subnet_ext mask a a' s : subnet_key mask a = subnet_key mask a' ->
  in_subnet mask a s = in_subnet mask a' s.
Proof. unfold in_subnet. by intros ->. Qed.

#[export] Instance in_subnet_perm mask addr : Proper ((≡ₚ) ==> eq) (in_subnet mask addr).
Proof. intros s1 s2 Hs. unfold in_subnet. by rewrite Hs. Qed.

Lemma position_some b id i p : KBucket.position b id = Some (i, p) -> exists l1 l2,
  KBucket.peers b = l1 ++ p :: l2 /\ node_id p = id /\
  delete i (KBucket.peers b) = l1 ++ l2 /\
  (forall q, <[i := q]> (KBucket.peers b) = l1 ++ q :: l2).
Proof.
  intros (Hi & Hp & _)%list_find_Some.
  apply list_elem_of_split_length in Hi as (l1 & l2 & Hl & ->).
  exists l1, l2. rewrite Hl. repeat split; [done|apply delete_middle|].
  intros q. by rewrite insert_app_r_alt, Nat.sub_diag by lia.
Qed.

Lemma skeleton_ids b : (skeleton b).*1 = node_id <$> KBucket.peers b.
Proof. unfold skeleton. by rewrite <- list_fmap_compose. Qed.

Lemma position_none b id : KBucket.position b id = None -> id ∉ (skeleton b).*1.
Proof.
  intros Hn%list_find_None. rewrite skeleton_ids. intros (p & -> & Hp)%list_elem_of_fmap.
  rewrite Forall_forall in Hn. by apply (Hn p).
Qed.

Lemma contains_spec b id : KBucket.contains b id = true <-> id ∈ (skeleton b).*1.
Proof.
  unfold KBucket.contains. rewrite existsb_exists, skeleton_ids, list_elem_of_fmap.
  split; intros (p & H1 & H2).
  - apply Z.eqb_eq in H2. exists p. by rewrite list_elem_of_In.
  - exists p. rewrite <- list_elem_of_In. split; [done|]. by apply Z.eqb_eq.
Qed.

Lemma remove_skeleton b id : let b' := (KBucket.remove_peer b id).1 in
  KBucket.pending_insertion b' = KBucket.pending_insertion b /\
  ((skeleton b' = skeleton b /\ id ∉ (skeleton b).*1) \/
   exists s1 s2 a, skeleton b = s1 ++ (id, a) :: s2 /\ skeleton b' = s1 ++ s2).
Proof.
  unfold KBucket.remove_peer. destruct (KBucket.position b id) as [[i p]|] eqn:Hp; cbn.
  - split; [done|]. right. apply position_some in Hp as (l1 & l2 & Hl & <- & Hd & _).
    exists (skel <$> l1), (skel <$> l2), (ip (socket_addr p)).
    unfold skeleton. cbn. rewrite Hd, Hl, !fmap_app. done.
  - split; [done|]. left. split; [done|]. by apply position_none.
Qed.

Lemma touch_skeleton b id now : let b' := (KBucket.touch_peer b id now).1 in
  KBucket.pending_insertion b' = KBucket.pending_insertion b /\ skeleton b' = skeleton b.
Proof.
  unfold KBucket.touch_peer. destruct (KBucket.position b id) as [[i p]|] eqn:Hp; [|done].
  split; [done|]. apply position_some in Hp as (l1 & l2 & Hl & _ & _ & Hi).
  unfold skeleton. cbn. rewrite Hi, Hl, !fmap_app. done.
Qed.

Lemma front_skeleton b id now : let b' := (KBucket.move_to_front b id now).1 in
  KBucket.pending_insertion b' = KBucket.pending_insertion b /\ skeleton b' ≡ₚ skeleton b.
Proof.
  unfold KBucket.move_to_front. destruct (KBucket.position b id) as [[i p]|] eqn:Hp; [|done].
  split; [done|]. apply position_some in Hp as (l1 & l2 & Hl & _ & Hd & _).
  unfold skeleton. cbn. rewrite Hd, Hl, !fmap_app. cbn. rewrite <- app_assoc.
  apply Permutation_app_head. change (skel (set_last_seen p now)) with (skel p).
  symmetry. apply Permutation_cons_append.
Qed.

Lemma add_skeleton b p now : skeleton (KBucket.add_peer b p now) = skeleton b ++ [skel p].
Proof. unfold skeleton. cbn. by rewrite fmap_app. Qed.

(** ** The invariant of a bucket *)

Section Inv.
Context (local : NodeId) (c : KademliaConfig) (mask : SubnetMask).

Definition at_home (i : nat) (id : NodeId) : Prop :=
  calculate_bucket_index local id = i /\ id <> local.

Record pending_ok (i : nat) (s : list (NodeId * IpAddr)) (pi : PendingInsertion) : Prop := {
  po_candidate : at_home i (node_id (candidate pi));
  po_room : challenged_peer pi ∉ s.*1 -> (length s <= k c)%nat;
  po_subnet : (in_subnet mask (ip (socket_addr (candidate pi))) s <= max_peers_per_subnet c)%nat;
}.

Record skeleton_ok (i : nat) (s : list (NodeId * IpAddr)) : Prop := {
  so_home : forall id, id ∈ s.*1 -> at_home i id;
  so_len : (length s <= k c + 1)%nat;
  so_subnet : forall addr, (in_subnet mask addr s <= max_peers_per_subnet c + 1)%nat;
}.

Definition bucket_ok (i : nat) (b : KBucket) : Prop :=
  skeleton_ok i (skeleton b) /\
  forall pi, KBucket.pending_insertion b = Some pi -> pending_ok i (skeleton b) pi.

#[local] Instance skeleton_ok_perm i : Proper ((≡ₚ) ==> iff) (skeleton_ok i).
Proof.
  intros s1 s2 Hs. split; intros [H1 H2 H3]; split.
  - intros id. rewrite <- Hs. apply H1.
  - by rewrite <- Hs.
  - intros addr. rewrite <- Hs. apply H3.
  - intros id. rewrite Hs. apply H1.
  - by rewrite Hs.
  - intros addr. rewrite Hs. apply H3.
Qed.

Lemma new_bucket_ok i : bucket_ok i KBucket.new.
Proof. split; [|done]. split; cbn; [set_solver|lia|]. intros. unfold in_subnet. cbn. lia. Qed.

Lemma skeleton_drop i s1 s2 e : skeleton_ok i (s1 ++ e :: s2) ->
  skeleton_ok i (s1 ++ s2) /\ (length (s1 ++ s2) <= k c)%nat /\
  forall addr, (in_subnet mask addr (s1 ++ s2) <= in_subnet mask addr (s1 ++ e :: s2))%nat.
Proof.
  assert (forall addr, (in_subnet mask addr (s1 ++ s2) <= in_subnet mask addr (s1 ++ e :: s2))%nat)
    as Hs.
  { intros addr. rewrite (cons_middle e), !in_subnet_app. lia. }
  intros [H1 H2 H3]. rewrite length_app in H2. cbn in H2. split; [split|split; [|done]].
  - intros id Hid. apply H1. rewrite fmap_app in *. set_solver.
  - rewrite length_app. lia.
  - intros addr. specialize (Hs addr). specialize (H3 addr). lia.
  - rewrite length_app. lia.
Qed.

Lemma remove_ok i b id : bucket_ok i b -> bucket_ok i (KBucket.remove_peer b id).1.
Proof.
  intros [Hs Hp]. destruct (remove_skeleton b id) as [E [[E' _]|(s1 & s2 & a & E1 & E2)]];
    unfold bucket_ok; rewrite E; [by rewrite E'|].
  rewrite E1 in Hs. destruct (skeleton_drop i s1 s2 _ Hs) as (H1 & H2 & H3).
  rewrite E2. split; [done|]. intros pi Hpi. destruct (Hp pi Hpi) as [P1 P2 P3]. split; [done|done|].
  rewrite E1 in P3. etrans; [apply H3|done].
Qed.

Lemma touch_ok i b id now : bucket_ok i b -> bucket_ok i (KBucket.touch_peer b id now).1.
Proof. destruct (touch_skeleton b id now) as [E E']. unfold bucket_ok. by rewrite E, E'. Qed.

Lemma unpend_ok i b : bucket_ok i b -> bucket_ok i (KBucket.set_pending b None).
Proof. intros [Hs _]. split; [exact Hs|done]. Qed.

(** A new peer at the end: the bucket had room for it, in number and in its
    subnet. *)
Lemma skeleton_add i s p : skeleton_ok i s -> at_home i (node_id p) -> (length s <= k c)%nat ->
  (in_subnet mask (ip (socket_addr p)) s <= max_peers_per_subnet c)%nat ->
  skeleton_ok i (s ++ [skel p]).
Proof.
  intros [H1 H2 H3] Hh Hl Hn. split.
  - intros id. rewrite fmap_app, elem_of_app. intros [Hid| ->%list_elem_of_singleton]; auto.
  - rewrite length_app. cbn. lia.
  - intros addr. rewrite in_subnet_app, in_subnet_one. case_decide as Hk.
    + cbn in Hk. rewrite <- (in_subnet_ext _ _ _ _ Hk). lia.
    + rewrite Nat.add_0_r. apply H3.
Qed.

Lemma verified_ok i b p now : bucket_ok i b -> at_home i (node_id p) ->
  (length (KBucket.peers b) < k c)%nat ->
  (in_subnet mask (ip (socket_addr p)) (skeleton b) < max_peers_per_subnet c)%nat ->
  bucket_ok i (KBucket.add_peer b p now).
Proof.
  intros [Hs Hp] Hh Hl Hn.
  assert (length (skeleton b) = length (KBucket.peers b)) as E
    by (unfold skeleton; apply length_fmap).
  unfold bucket_ok. rewrite add_skeleton. split; [apply skeleton_add; auto; lia|].
  cbn. intros pi Hpi. destruct (Hp pi Hpi) as [P1 P2 P3]. split; [done| |].
  - intros _. rewrite length_app. cbn. lia.
  - rewrite in_subnet_app, in_subnet_one. case_decide as Hk; [|lia].
    cbn in Hk. rewrite <- (in_subnet_ext _ _ _ _ Hk) in *. lia.
Qed.

Lemma replaced_ok i b pi now : bucket_ok i b -> pending_ok i (skeleton b) pi ->
  KBucket.pending_insertion b = None ->
  bucket_ok i (replace_challenged b (challenged_peer pi) (candidate pi) now).
Proof.
  intros Hb [P1 P2 P3] Hn. pose proof (remove_ok i b (challenged_peer pi) Hb) as [Hs' _].
  destruct (remove_skeleton b (challenged_peer pi)) as [E [[E' Hnot]|(s1 & s2 & a & E1 & E2)]];
    unfold bucket_ok, replace_challenged; rewrite add_skeleton; cbn; rewrite E, Hn;
    (split; [|done]); (apply skeleton_add; [done|done| |]).
  - rewrite E'. auto.
  - by rewrite E'.
  - destruct Hb as [Hb _]. rewrite E1 in Hb. rewrite E2.
    apply (skeleton_drop i s1 s2 _ Hb).
  - destruct Hb as [Hb _]. rewrite E1 in Hb, P3. rewrite E2.
    etrans; [apply (skeleton_drop i s1 s2 _ Hb)|done].
Qed.

Lemma front_ok i b id now : bucket_ok i b -> KBucket.pending_insertion b = None ->
  bucket_ok i (KBucket.move_to_front b id now).1.
Proof.
  intros [Hs _] Hn. destruct (front_skeleton b id now) as [E E'].
  unfold bucket_ok. rewrite E, Hn. split; [by rewrite E'|done].
Qed.

Lemma challenge_ok i b p pi : bucket_ok i b -> at_home i (node_id p) -> candidate pi = p ->
  (in_subnet mask (ip (socket_addr p)) (skeleton b) < max_peers_per_subnet c)%nat ->
  (exists q, KBucket.oldest_peer b = Some q /\ challenged_peer pi = node_id q) ->
  bucket_ok i (KBucket.set_pending b (Some pi)).
Proof.
  intros [Hs _] Hh Hc Hn (q & Hq & Hch). split; [exact Hs|]. intros ? [= <-]. split.
  - by rewrite Hc.
  - intros []. change (challenged_peer pi ∈ (skeleton b).*1). rewrite skeleton_ids, Hch.
    unfold KBucket.oldest_peer in Hq. destruct (KBucket.peers b); [done|]. cbn in Hq.
    simplify_eq. cbn. left.
  - rewrite Hc. change (skeleton (KBucket.set_pending b (Some pi))) with (skeleton b). lia.
Qed.

(** ** The invariant of the table *)

Record table_ok (t : RoutingTable) : Prop := {
  to_local : local_node_id t = local;
  to_config : config t = c;
  to_mask : subnet_mask t = mask;
  to_length : length (buckets t) = NUM_BUCKETS;
  to_buckets : forall i b, buckets t !! i = Some b -> bucket_ok i b;
  to_staged : forall id pp, pending_verification t !! id = Some pp ->
    node_id (peer_info pp) = id /\ id <> local;
  to_room : (size (pending_verification t) <= max_pending_peers c)%nat;
}.

Lemma bucket_exists t id : length (buckets t) = NUM_BUCKETS ->
  is_Some (buckets t !! calculate_bucket_index (local_node_id t) id).
Proof. intros Hl. apply lookup_lt_is_Some. rewrite Hl. apply bucket_index_lt. Qed.

Lemma set_bucket_ok t i b : table_ok t -> bucket_ok i b -> table_ok (set_bucket t i b).
Proof.
  intros [H1 H2 H3 H4 H5 H6 H7] Hb. split; cbn; [done..| | |done|done].
  - by rewrite length_insert.
  - intros j b'. rewrite list_lookup_insert_Some. intros [(<- & <- & _)|[_ Hj]]; auto.
Qed.

Lemma set_staged_ok t m : table_ok t ->
  (forall id pp, m !! id = Some pp -> node_id (peer_info pp) = id /\ id <> local) ->
  (size m <= max_pending_peers c)%nat -> table_ok (set_staged t m).
Proof. intros [] Hm Hs. by split. Qed.

Lemma unstage_ok t id : table_ok t -> table_ok (set_staged t (delete id (pending_verification t))).
Proof.
  intros Ht. pose proof Ht as []. apply set_staged_ok; [done| |].
  - intros j pp [_ Hj]%lookup_delete_Some. auto.
  - etrans; [|done]. apply map_subseteq_size, delete_subseteq.
Qed.

Lemma stage_ok t p now : table_ok t -> table_ok (stage_peer t p now).1.
Proof.
  intros Ht. pose proof Ht as [E1 E2 E3 E4 E5 E6 E7]. unfold stage_peer. rewrite E1, E2.
  destruct (Nat.leb_spec (max_pending_peers c) (size (pending_verification t))); [done|].
  destruct (Z.eqb_spec (node_id p) local); [done|].
  repeat (case_match; [done|]). cbn zeta. cbn [fst].
  apply set_staged_ok; [done| |].
  - intros id pp. rewrite lookup_insert_Some. intros [[<- <-]|[_ Hp]]; [|by auto]. cbn. split; congruence.
  - rewrite map_size_insert. destruct (pending_verification t !! node_id p); unfold Datatypes.id; lia.
Qed.

Lemma verification_ok t id valid now : table_ok t -> table_ok (on_verification_result t id valid now).1.
Proof.
  intros Ht. pose proof (unstage_ok t id Ht) as Ht'. pose proof Ht as [E1 E2 E3 E4 E5 E6 E7].
  unfold on_verification_result. cbn zeta. destruct valid; cbn [negb]; [|done].
  destruct (pending_verification t !! id) as [pp|] eqn:Hpp; [|done].
  apply E6 in Hpp as [<- Hne].
  set (t' := set_staged _ _) in *. set (p := peer_info pp) in *.
  destruct (bucket_exists t' (node_id p) E4) as [b Hb]. rewrite Hb.
  set (i := calculate_bucket_index (local_node_id t') (node_id p)) in *.
  pose proof (to_buckets _ Ht' i b Hb) as Hok.
  assert (at_home i (node_id p)) as Hh by (split; [unfold i; by rewrite <- E1|done]).
  rewrite peers_in_subnet_skel. change (subnet_mask t') with (subnet_mask t). rewrite E3.
  change (config t') with (config t). rewrite E2.
  destruct (Nat.leb_spec (max_peers_per_subnet c) (in_subnet mask (ip (socket_addr p)) (skeleton b)));
    [done|].
  unfold KBucket.is_full. destruct (Nat.leb_spec (k c) (length (KBucket.peers b))); cbn [negb].
  - destruct (KBucket.has_pending_challenge b); [done|].
    destruct (KBucket.oldest_peer b) as [q|] eqn:Hq; [|done]. cbn [fst].
    apply set_bucket_ok; [done|]. apply challenge_ok with p; eauto.
  - apply set_bucket_ok; [done|]. by apply verified_ok.
Qed.

Lemma response_ok t id alive now : table_ok t -> table_ok (on_challenge_response t id alive now).1.
Proof.
  intros Ht. unfold on_challenge_response. cbn zeta.
  destruct (buckets t !! _) as [b|] eqn:Hb; [|done].
  destruct (KBucket.pending_insertion b) as [pi|] eqn:Hpi; [|done].
  destruct (Z.eqb_spec (challenged_peer pi) id) as [<-|]; [|done]. cbn [negb fst].
  pose proof (to_buckets _ Ht _ _ Hb) as Hok. apply set_bucket_ok; [done|].
  destruct alive; [apply front_ok; [by apply unpend_ok|done]|].
  apply replaced_ok; [by apply unpend_ok| |done]. by apply Hok.
Qed.

(** Completing the expired challenges of all buckets at once. *)
Definition resolve (now : Timestamp) (b : KBucket) : KBucket :=
  match KBucket.pending_insertion b with
  | Some pi => if now <? challenge_deadline pi then b
      else replace_challenged (KBucket.set_pending b None) (challenged_peer pi) (candidate pi) now
  | None => b
  end.

Lemma resolve_all now bs : forall pre,
  complete_expired now (pre ++ (take_expired now (length pre) bs).1)
    (take_expired now (length pre) bs).2 = pre ++ (resolve now <$> bs).
Proof.
  induction bs as [|b bs IH]; intros pre; [done|]. cbn [take_expired fmap list_fmap].
  assert (S (length pre) = length (pre ++ [resolve now b])) as El by (rewrite length_app; cbn; lia).
  specialize (IH (pre ++ [resolve now b])). rewrite <- El in IH.
  destruct (take_expired now (S (length pre)) bs) as [bs' ex]. cbn [fst snd] in IH.
  rewrite <- !app_assoc in IH. cbn [app] in IH. unfold resolve in IH at 1 2. unfold resolve at 1.
  destruct (KBucket.pending_insertion b) as [pi|]; [|done].
  destruct (now <? challenge_deadline pi); [done|]. cbn [fst snd]. rewrite <- IH.
  unfold complete_expired. cbn [foldl]. f_equal.
  rewrite alter_app_r_alt, Nat.sub_diag by lia. done.
Qed.

Lemma check_expired_resolve t now :
  (check_expired_challenges t now).1 = set_buckets t (resolve now <$> buckets t).
Proof.
  unfold check_expired_challenges. pose proof (resolve_all now (buckets t) []) as H.
  cbn [length app] in H. destruct (take_expired now 0 (buckets t)). cbn [fst snd] in *. by rewrite H.
Qed.

Lemma resolve_ok i now b : bucket_ok i b -> bucket_ok i (resolve now b).
Proof.
  intros Hb. unfold resolve. destruct (KBucket.pending_insertion b) as [pi|] eqn:Hpi; [|done].
  destruct (now <? _); [done|]. apply replaced_ok; [by apply unpend_ok| |done]. by apply Hb.
Qed.

Lemma serve_ok t now call : table_ok t -> table_ok (serve t now call).
Proof.
  intros Ht. destruct call; cbn [serve].
  - by apply stage_ok.
  - unfold ban_peer. cbn zeta. destruct Ht as [H1 H2 H3 H4 H5 H6 H7].
    split; cbn; [done..| | | |].
    + by rewrite length_alter.
    + intros i b. destruct (decide (calculate_bucket_index (local_node_id t) id = i)) as [<-|].
      * rewrite list_lookup_alter_eq, fmap_Some. intros (b' & Hb' & ->). apply remove_ok. auto.
      * rewrite list_lookup_alter_ne by done. auto.
    + intros j pp [_ Hj]%lookup_delete_Some. auto.
    + etrans; [|done]. apply map_subseteq_size, delete_subseteq.
  - unfold touch_peer. cbn zeta. destruct (buckets t !! _) as [b|] eqn:Hb; [|done].
    pose proof (touch_ok _ b id now (to_buckets _ Ht _ _ Hb)) as Hok.
    destruct (KBucket.touch_peer b id now). by apply set_bucket_ok.
  - unfold remove_peer. cbn zeta. destruct (buckets t !! _) as [b|] eqn:Hb; [|done].
    pose proof (remove_ok _ b id (to_buckets _ Ht _ _ Hb)) as Hok.
    destruct (KBucket.remove_peer b id). by apply set_bucket_ok.
  - by apply verification_ok.
  - by apply response_ok.
  - unfold gc_expired. cbn. destruct Ht as [H1 H2 H3 H4 H5 H6 H7]. split; cbn; [done..| |].
    + intros j pp [Hj _]%map_lookup_filter_Some. auto.
    + etrans; [|done]. apply map_subseteq_size, map_filter_subseteq.
  - rewrite check_expired_resolve. destruct Ht as [H1 H2 H3 H4 H5 H6 H7]. split; cbn; [done..| | |done|done].
    + by rewrite length_fmap.
    + intros i b. rewrite list_lookup_fmap, fmap_Some. intros (b' & Hb' & ->). apply resolve_ok. auto.
Qed.

End Inv.

(** ** How one call changes a bucket *)

Abbreviation ids b := ((skeleton b).*1).

(** The call removes the peer, or the peer failed its challenge. *)
Definition leaves (b : KBucket) (now : Timestamp) (call : Call) (id : NodeId) : Prop :=
  call = RemovePeer id \/ (exists d, call = BanPeer id d) \/
  exists pi, KBucket.pending_insertion b = Some pi /\ challenged_peer pi = id /\
    (call = ChallengeResponse id false \/ (call = CheckExpired /\ challenge_deadline pi <= now)).

(** The call reports that a staged peer was verified. *)
Definition cleared (t : RoutingTable) (call : Call) (id : NodeId) : Prop :=
  call = Verification id true /\ is_Some (pending_verification t !! id).

Record bucket_change (t : RoutingTable) (now : Timestamp) (call : Call) (b b' : KBucket) : Prop := {
  bc_kept : forall id, id ∈ ids b -> id ∈ ids b' \/ leaves b now call id;
  bc_new : forall id, id ∈ ids b' -> id ∈ ids b \/ cleared t call id \/
    exists pi, KBucket.pending_insertion b = Some pi /\ node_id (candidate pi) = id;
  bc_pending : forall pi, KBucket.pending_insertion b' = Some pi ->
    KBucket.pending_insertion b = Some pi \/ cleared t call (node_id (candidate pi));
}.

Lemma change_refl t now call b b' : ids b' = ids b ->
  (KBucket.pending_insertion b' = KBucket.pending_insertion b \/
   KBucket.pending_insertion b' = None) -> bucket_change t now call b b'.
Proof. intros E [E'|E']; split; rewrite ?E, ?E'; eauto; done. Qed.

Lemma remove_change b id : let b' := (KBucket.remove_peer b id).1 in
  (forall j, j ∈ ids b -> j ∈ ids b' \/ j = id) /\ (forall j, j ∈ ids b' -> j ∈ ids b).
Proof.
  cbn zeta. destruct (remove_skeleton b id) as [_ [[-> _]|(s1 & s2 & a & E1 & E2)]]; [by eauto|].
  rewrite E1, E2, !fmap_app. cbn. set_solver.
Qed.

Lemma add_change b p now j :
  j ∈ ids (KBucket.add_peer b p now) <-> j ∈ ids b \/ j = node_id p.
Proof. rewrite add_skeleton, fmap_app, elem_of_app. cbn. by rewrite list_elem_of_singleton. Qed.

Lemma replace_change t now call b pi : KBucket.pending_insertion b = Some pi ->
  leaves b now call (challenged_peer pi) ->
  bucket_change t now call b
    (replace_challenged (KBucket.set_pending b None) (challenged_peer pi) (candidate pi) now).
Proof.
  intros Hpi Hl. unfold replace_challenged.
  pose proof (remove_change (KBucket.set_pending b None) (challenged_peer pi)) as [H1 H2].
  change (ids (KBucket.set_pending b None)) with (ids b) in H1, H2. split.
  - intros id Hid. rewrite add_change. destruct (H1 id Hid) as [| ->]; auto.
  - intros id. rewrite add_change. intros [Hid| ->]; [by auto|]. right. right. eauto.
  - cbn. destruct (remove_skeleton (KBucket.set_pending b None) (challenged_peer pi)) as [-> _].
    done.
Qed.

Lemma remove_bucket_change t now call b id : leaves b now call id ->
  bucket_change t now call b (KBucket.remove_peer b id).1.
Proof.
  intros Hl. pose proof (remove_change b id) as [H1 H2]. split.
  - intros j Hj. destruct (H1 j Hj) as [| ->]; auto.
  - auto.
  - intros pi. destruct (remove_skeleton b id) as [-> _]. auto.
Qed.

(** Every bucket of the table is changed by a call, or left alone. *)
Definition changes (t : RoutingTable) (now : Timestamp) (call : Call) (t' : RoutingTable) : Prop :=
  Forall2 (bucket_change t now call) (buckets t) (buckets t').

Lemma changes_same t now call bs : bs = buckets t ->
  Forall2 (bucket_change t now call) (buckets t) bs.
Proof. intros ->. apply Forall_Forall2_diag, Forall_true. intros. apply change_refl; auto. Qed.

Lemma changes_insert t now call i b b' : buckets t !! i = Some b ->
  bucket_change t now call b b' ->
  Forall2 (bucket_change t now call) (buckets t) (<[i := b']> (buckets t)).
Proof.
  intros Hb Hc. rewrite <- (list_insert_id (buckets t) i b) at 1 by done.
  apply Forall2_insert; [by apply changes_same|done].
Qed.

Lemma verification_changes t now id valid :
  (forall pp, pending_verification t !! id = Some pp -> node_id (peer_info pp) = id) ->
  changes t now (Verification id valid) (on_verification_result t id valid now).1.
Proof.
  intros Hst. unfold changes, on_verification_result. cbn zeta.
  destruct valid; cbn [negb]; [|by apply changes_same].
  destruct (pending_verification t !! id) as [pp|] eqn:Hpp; [|by apply changes_same].
  specialize (Hst pp eq_refl).
  assert (cleared t (Verification id true) (node_id (peer_info pp))) as Ha
    by (rewrite Hst; unfold cleared; rewrite Hpp; eauto).
  cbn [set_staged buckets local_node_id config].
  destruct (buckets t !! _) as [b|] eqn:Hb; [|by apply changes_same].
  destruct (_ <=? _)%nat; [by apply changes_same|].
  destruct (KBucket.is_full b (k (config t))); cbn [negb].
  - destruct (KBucket.has_pending_challenge b); [by apply changes_same|].
    destruct (KBucket.oldest_peer b) as [q|]; [|by apply changes_same].
    apply (changes_insert _ _ _ _ _ _ Hb). split; [auto|auto|]. cbn. intros ? [= <-]. auto.
  - apply (changes_insert _ _ _ _ _ _ Hb). split; [|intros j|auto].
    + intros j Hj. left. apply add_change. auto.
    + rewrite add_change. intros [| ->]; auto.
Qed.

Lemma response_changes t now id alive :
  changes t now (ChallengeResponse id alive) (on_challenge_response t id alive now).1.
Proof.
  unfold changes, on_challenge_response. cbn zeta.
  destruct (buckets t !! _) as [b|] eqn:Hb; [|by apply changes_same].
  destruct (KBucket.pending_insertion b) as [pi|] eqn:Hpi; [|by apply changes_same].
  destruct (Z.eqb_spec (challenged_peer pi) id) as [<-|]; [|by apply changes_same].
  cbn [negb fst]. apply (changes_insert _ _ _ _ _ _ Hb). destruct alive.
  - destruct (front_skeleton (KBucket.set_pending b None) (challenged_peer pi) now) as [E E'].
    split; intros j; rewrite ?E, ?E'; by auto.
  - apply replace_change; [done|]. right. right. eauto.
Qed.

Lemma resolve_change t now b : bucket_change t now CheckExpired b (resolve now b).
Proof.
  unfold resolve. destruct (KBucket.pending_insertion b) as [pi|] eqn:Hpi;
    [|apply change_refl; auto].
  destruct (Z.ltb_spec now (challenge_deadline pi)); [apply change_refl; auto|].
  apply replace_change; [done|]. right. right. eauto 6.
Qed.

Lemma serve_changes t now call :
  (forall id pp, pending_verification t !! id = Some pp -> node_id (peer_info pp) = id) ->
  changes t now call (serve t now call).
Proof.
  intros Hst. destruct call; cbn [serve].
  - unfold changes, stage_peer. repeat (case_match; try by apply changes_same).
  - unfold changes, ban_peer. cbn zeta. cbn [set_banned set_staged set_buckets buckets].
    apply Forall2_alter_r; [by apply changes_same|]. intros b b' Hb Hb' _. simplify_eq.
    apply remove_bucket_change. right. left. eauto.
  - unfold changes, touch_peer. cbn zeta.
    destruct (buckets t !! _) as [b|] eqn:Hb; [|by apply changes_same].
    destruct (touch_skeleton b id now) as [E E']. destruct (KBucket.touch_peer b id now).
    apply (changes_insert _ _ _ _ _ _ Hb). apply change_refl; [|by left]. cbn in *. by rewrite E'.
  - unfold changes, remove_peer. cbn zeta.
    destruct (buckets t !! _) as [b|] eqn:Hb; [|by apply changes_same].
    pose proof (remove_bucket_change t now (RemovePeer id) b id (or_introl eq_refl)) as Hc.
    destruct (KBucket.remove_peer b id). apply (changes_insert _ _ _ _ _ _ Hb). exact Hc.
  - apply verification_changes. eauto.
  - apply response_changes.
  - by apply changes_same.
  - rewrite check_expired_resolve. unfold changes. cbn. apply Forall2_fmap_r.
    apply Forall_Forall2_diag, Forall_true. intros b. apply resolve_change.
Qed.

(** ** Runs of the service *)

Definition run (local : NodeId) (c : KademliaConfig) (calls : list (Timestamp * Call)) : RoutingTable :=
  foldl (fun t '(now, call) => serve t now call) (new local c) calls.

Lemma new_ok local c : table_ok local c subnet_mask_default (new local c).
Proof.
  split; unfold new; cbn [local_node_id config subnet_mask buckets pending_verification]; [done..| | |].
  - intros i b [-> _]%lookup_replicate. apply new_bucket_ok.
  - done.
  - rewrite map_size_empty. lia.
Qed.

Lemma run_ok local c calls : table_ok local c subnet_mask_default (run local c calls).
Proof.
  unfold run. apply foldl_inv; [|apply new_ok]. intros t [now call] Ht. by apply serve_ok.
Qed.

Lemma elem_of_all_peers t id : id ∈ node_id <$> all_peers t <->
  exists i b, buckets t !! i = Some b /\ id ∈ ids b.
Proof.
  unfold all_peers. rewrite list_elem_of_fmap. split.
  - intros (p & -> & Hp). apply list_elem_of_In, in_concat in Hp as (l & Hl & Hp).
    apply list_elem_of_In in Hl, Hp.
    apply list_elem_of_fmap in Hl as (b & -> & Hb). apply list_elem_of_lookup in Hb as [i Hi].
    exists i, b. split; [done|]. rewrite skeleton_ids. by apply list_elem_of_fmap_2.
  - intros (i & b & Hb & Hid). rewrite skeleton_ids in Hid.
    apply list_elem_of_fmap in Hid as (p & -> & Hp). exists p. split; [done|].
    apply list_elem_of_In, in_concat. exists (KBucket.peers b).
    rewrite <- !list_elem_of_In. split; [|done].
    apply list_elem_of_fmap_2. by eapply list_elem_of_lookup_2.
Qed.

Lemma total_bound t n : (forall b, b ∈ buckets t -> (KBucket.len b <= n)%nat) ->
  (total_peer_count t <= length (buckets t) * n)%nat.
Proof.
  unfold total_peer_count. induction (buckets t) as [|b bs IH]; intros H; cbn; [lia|].
  pose proof (H b ltac:(left)). specialize (IH ltac:(intros; apply H; by right)). lia.
Qed.

(** C29 (invariant): after any sequence of service calls the table has its 256
    buckets; every peer is in the bucket of its distance and is not the node
    itself; a bucket holds at most [k + 1] peers, at most one more than allowed
    of a subnet; the staging area is within its limit; and the table holds at
    most [256 * (k + 1)] peers.  The extra peer is real: [bucket_overfull]. *)
Theorem routing_table_inv local c calls :
  let t := run local c calls in
  length (buckets t) = NUM_BUCKETS /\
  (forall i b p, buckets t !! i = Some b -> p ∈ KBucket.peers b ->
     calculate_bucket_index local (node_id p) = i /\ node_id p <> local) /\
  (forall b, b ∈ buckets t -> (KBucket.len b <= k c + 1)%nat) /\
  (forall b addr, b ∈ buckets t -> (peers_in_subnet t b addr <= max_peers_per_subnet c + 1)%nat) /\
  (size (pending_verification t) <= max_pending_peers c)%nat /\
  (total_peer_count t <= NUM_BUCKETS * (k c + 1))%nat.
Proof.
  cbn zeta. pose proof (run_ok local c calls) as [H1 H2 H3 H4 H5 H6 H7].
  set (t := run local c calls) in *.
  assert (forall b, b ∈ buckets t -> (KBucket.len b <= k c + 1)%nat) as Hlen.
  { intros b [i Hi]%list_elem_of_lookup. destruct (H5 i b Hi) as [[_ Hl _] _].
    unfold skeleton in Hl. by rewrite length_fmap in Hl. }
  split; [exact H4|]. split; [|split; [exact Hlen|split; [|split; [exact H7|]]]].
  - intros i b p Hi Hp. destruct (H5 i b Hi) as [[Hh _ _] _]. apply Hh.
    rewrite skeleton_ids. by apply list_elem_of_fmap_2.
  - intros b addr [i Hi]%list_elem_of_lookup. rewrite peers_in_subnet_skel, H3.
    by apply (H5 i b).
  - rewrite <- H4. by apply total_bound.
Qed.

(** In every reachable table a peer leaves its bucket only when the
    call removes or bans it, or when a challenge of it was pending and failed:
    newcomers, however many are staged and verified, evict nobody. *)
Theorem eviction_only_on_failure local c calls now call id :
  let t := run local c calls in
  id ∈ node_id <$> all_peers t -> id ∉ node_id <$> all_peers (serve t now call) ->
  exists b, b ∈ buckets t /\ leaves b now call id.
Proof.
  cbn zeta. pose proof (run_ok local c calls) as Ht.
  set (t := run local c calls) in *. rewrite !elem_of_all_peers.
  intros (i & b & Hb & Hid) Hno. exists b. split; [by eapply list_elem_of_lookup_2|].
  assert (changes t now call (serve t now call)) as Hc
    by (apply serve_changes; intros; by eapply to_staged).
  destruct (Forall2_lookup_l _ _ _ _ _ Hc Hb) as (b' & Hb' & [Hk _ _]).
  destruct (Hk id Hid); [|done]. contradict Hno. eauto.
Qed.

(** The identifiers the history of calls has offered and verified. *)
Definition offered (calls : list (Timestamp * Call)) (id : NodeId) : Prop :=
  exists now p, (now, AddPeer p) ∈ calls /\ node_id p = id.
Definition verified (calls : list (Timestamp * Call)) (id : NodeId) : Prop :=
  exists now, (now, Verification id true) ∈ calls.

Record provenance (calls : list (Timestamp * Call)) (t : RoutingTable) : Prop := {
  pv_staged : forall id, is_Some (pending_verification t !! id) -> offered calls id;
  pv_peers : forall b id, b ∈ buckets t -> id ∈ ids b -> offered calls id /\ verified calls id;
  pv_pending : forall b pi, b ∈ buckets t -> KBucket.pending_insertion b = Some pi ->
    offered calls (node_id (candidate pi)) /\ verified calls (node_id (candidate pi));
}.

Lemma staged_new t now call id : is_Some (pending_verification (serve t now call) !! id) ->
  is_Some (pending_verification t !! id) \/ exists p, call = AddPeer p /\ node_id p = id.
Proof.
  destruct call; cbn [serve].
  - unfold stage_peer. repeat (case_match; [by left|]). cbn. rewrite lookup_insert_is_Some.
    intros [<-|[_ ?]]; eauto.
  - cbn. rewrite lookup_delete_is_Some. intros [_ ?]. by left.
  - unfold touch_peer. repeat case_match; by left.
  - unfold remove_peer. repeat case_match; by left.
  - assert (pending_verification (on_verification_result t id0 identity_valid now).1 =
            delete id0 (pending_verification t)) as ->
      by (unfold on_verification_result; repeat case_match; done).
    rewrite lookup_delete_is_Some. intros [_ ?]. by left.
  - unfold on_challenge_response. repeat case_match; by left.
  - cbn. intros [pp [Hpp _]%map_lookup_filter_Some]. left. eauto.
  - rewrite check_expired_resolve. by left.
Qed.

Lemma provenance_step calls t now call : provenance calls t ->
  (forall id pp, pending_verification t !! id = Some pp -> node_id (peer_info pp) = id) ->
  provenance (calls ++ [(now, call)]) (serve t now call).
Proof.
  intros [P1 P2 P3] Hst.
  assert (forall id, offered calls id -> offered (calls ++ [(now, call)]) id) as Ho
    by (intros id (n & p & Hp & Hid); exists n, p; rewrite elem_of_app; auto).
  assert (forall id, verified calls id -> verified (calls ++ [(now, call)]) id) as Hv
    by (intros id (n & Hp); exists n; rewrite elem_of_app; auto).
  assert (forall id, cleared t call id ->
    offered (calls ++ [(now, call)]) id /\ verified (calls ++ [(now, call)]) id) as Ha.
  { intros id [-> Hs]. split; [auto|]. exists now. rewrite elem_of_app. right. left. }
  pose proof (serve_changes t now call Hst) as Hc. split.
  - intros id [Hs|(p & -> & <-)]%staged_new; [auto|].
    exists now, p. rewrite elem_of_app. split; [|done]. right. left.
  - intros b' id [i Hb']%list_elem_of_lookup Hid.
    destruct (Forall2_lookup_r _ _ _ _ _ Hc Hb') as (b & Hb & [_ Hn _]).
    apply list_elem_of_lookup_2 in Hb.
    destruct (Hn id Hid) as [Hold|[Hadm|(pi & Hpi & <-)]]; [|by auto|].
    + destruct (P2 b id Hb Hold). auto.
    + destruct (P3 b pi Hb Hpi). auto.
  - intros b' pi [i Hb']%list_elem_of_lookup Hpi.
    destruct (Forall2_lookup_r _ _ _ _ _ Hc Hb') as (b & Hb & [_ _ Hp]).
    apply list_elem_of_lookup_2 in Hb. destruct (Hp pi Hpi) as [Hold|]; [|by auto].
    destruct (P3 b pi Hb Hold). auto.
Qed.

Lemma run_provenance local c calls : provenance calls (run local c calls).
Proof.
  induction calls as [|[now call] calls IH] using rev_ind.
  - unfold run, new. cbn [foldl]. split; cbn [buckets pending_verification].
    + intros id [? Hs]. by rewrite lookup_empty in Hs.
    + intros b id [-> _]%elem_of_replicate. unfold skeleton, KBucket.new. cbn. by intros ?%elem_of_nil.
    + intros b pi [-> _]%elem_of_replicate. done.
  - unfold run. rewrite foldl_app. cbn [foldl]. fold (run local c calls).
    apply provenance_step; [done|]. intros id pp Hp.
    by eapply (to_staged _ _ _ _ (run_ok local c calls)).
Qed.

(** Whatever peers are in the table after a sequence of service
    calls, each was offered by an [add_peer] and reported as verified by the
    signature subsystem within that sequence. *)
Theorem only_verified_peers local c calls p :
  p ∈ all_peers (run local c calls) ->
  (exists now q, (now, AddPeer q) ∈ calls /\ node_id q = node_id p) /\
  (exists now, (now, Verification (node_id p) true) ∈ calls).
Proof.
  intros Hp. assert (node_id p ∈ node_id <$> all_peers (run local c calls)) as Hid
    by (by apply list_elem_of_fmap_2).
  apply elem_of_all_peers in Hid as (i & b & Hb & Hid).
  eapply (pv_peers _ _ (run_provenance local c calls)); [by eapply list_elem_of_lookup_2|done].
Qed.

(** ** Witnesses and where the limits are exceeded

    The node has identifier 0 and the testing configuration (buckets of three,
    two peers of a subnet); the peers are in bucket 0. *)

Definition peer_at (v subnet : Z) : PeerInfo :=
  peer_new (v * 2 ^ 248) {| ip := V4 [192; 168; subnet; v]; port := 8080 |} 1000.

Definition join (now : Timestamp) (p : PeerInfo) : list (Timestamp * Call) :=
  [(now, AddPeer p); (now, Verification (node_id p) true)].

(** Three peers fill the bucket, a fourth waits for the oldest to be challenged. *)
Definition full_bucket : list (Timestamp * Call) :=
  join 1000 (peer_at 128 1) ++ join 1000 (peer_at 129 2) ++ join 1000 (peer_at 130 3).
Definition challenged_bucket : list (Timestamp * Call) := full_bucket ++ join 1000 (peer_at 131 4).

Abbreviation table calls := (run 0 for_testing calls).

Lemma eviction_only_on_failure_witness :
  exists b, b ∈ buckets (table challenged_bucket) /\ leaves b 1001 CheckExpired (128 * 2 ^ 248).
Proof.
  apply (eviction_only_on_failure 0 for_testing challenged_bucket 1001 CheckExpired (128 * 2 ^ 248)).
  - apply list_elem_of_In. vm_compute. auto.
  - rewrite list_elem_of_In. vm_compute. intuition lia.
Defined.

Lemma only_verified_peers_witness :
  (exists now q, (now, AddPeer q) ∈ full_bucket /\ node_id q = 129 * 2 ^ 248) /\
  (exists now, (now, Verification (129 * 2 ^ 248) true) ∈ full_bucket).
Proof.
  apply (only_verified_peers 0 for_testing full_bucket (peer_at 129 2)).
  apply list_elem_of_In. vm_compute. auto.
Defined.

(** The bucket exceeds [k] when the challenged peer leaves by itself while the
    candidate waits and another peer takes its place. *)
Theorem bucket_overfull :
  let t := table (challenged_bucket ++ [(1000, RemovePeer (128 * 2 ^ 248))] ++
    join 1000 (peer_at 132 5) ++ [(1001, CheckExpired)]) in
  KBucket.len <$> buckets t !! 0%nat = Some 4%nat /\ k for_testing = 3%nat.
Proof. by vm_compute. Qed.

(** Three peers of one subnet where two are allowed. *)
Theorem subnet_overfull :
  let t := table (challenged_bucket ++
    [(1000, RemovePeer (128 * 2 ^ 248)); (1000, RemovePeer (129 * 2 ^ 248))] ++
    join 1000 (peer_at 132 4) ++ join 1000 (peer_at 133 4) ++ [(1001, CheckExpired)]) in
  (fun b => peers_in_subnet t b (V4 [192; 168; 4; 1])) <$> buckets t !! 0%nat = Some 3%nat /\
  max_peers_per_subnet for_testing = 2%nat.
Proof. by vm_compute. Qed.

(** A waiting candidate can be staged again and then enters twice. *)
Theorem candidate_enters_twice :
  let t := table (challenged_bucket ++ [(1000, RemovePeer (129 * 2 ^ 248))] ++
    join 1000 (peer_at 131 4) ++ [(1000, ChallengeResponse (128 * 2 ^ 248) false)]) in
  node_id <$> all_peers t = [130 * 2 ^ 248; 131 * 2 ^ 248; 131 * 2 ^ 248].
Proof. by vm_compute. Qed.

(** A ban does not reach the candidate that waits in a bucket. *)
Theorem banned_candidate_enters :
  let t := table (challenged_bucket ++
    [(1000, BanPeer (131 * 2 ^ 248) {| duration_secs := 3600; bd_reason := ManualBan |});
     (1001, CheckExpired)]) in
  131 * 2 ^ 248 ∈ node_id <$> all_peers t /\ is_banned t (131 * 2 ^ 248) 1001 = true.
Proof. split; [apply list_elem_of_In; vm_compute; auto|by vm_compute]. Qed.

(** ** The closest peers *)

Lemma closer_log target p q : in_width 256 target -> in_width 256 (node_id p) ->
  in_width 256 (node_id q) -> closer target p q <->
  Z.log2 (Z.lxor (node_id p) target) <= Z.log2 (Z.lxor (node_id q) target).
Proof. intros Ht Hp Hq. unfold closer. rewrite !xor_distance_log by done. lia. Qed.

#[local] Instance closer_trans target : Transitive (closer target).
Proof. intros p q r. unfold closer. lia. Qed.
#[local] Instance closer_total target : Total (closer target).
Proof. intros p q. unfold closer. lia. Qed.

Lemma all_peers_count t : length (all_peers t) = total_peer_count t.
Proof.
  unfold all_peers, total_peer_count, KBucket.len. induction (buckets t) as [|b bs IH]; [done|].
  cbn. by rewrite length_app, IH.
Qed.

(** [find_closest_peers] returns as many peers as asked for, or
    all; whatever it leaves out has an exclusive-or distance to the target of at
    least the bit length of everything it returns, and what it returns is
    sorted by that bit length.  Within one bit length the order is that of the
    table: [nearest_peer_missed]. *)
Theorem closest_peers_by_bit_length t target count :
  in_width 256 target -> (forall p, p ∈ all_peers t -> in_width 256 (node_id p)) ->
  let bits p := Z.log2 (Z.lxor (node_id p) target) in
  let found := find_closest_peers t target count in
  length found = min count (total_peer_count t) /\
  exists rest, found ++ rest ≡ₚ all_peers t /\
    (forall p q, p ∈ found -> q ∈ rest -> bits p <= bits q) /\
    (forall i j p q, (i < j)%nat -> found !! i = Some p -> found !! j = Some q -> bits p <= bits q).
Proof.
  intros Ht Hall bits found. unfold found, find_closest_peers.
  set (sorted := stable_sort (closer target) (all_peers t)).
  assert (sorted ≡ₚ all_peers t) as Hperm by apply stable_sort_perm.
  assert (StronglySorted (closer target) sorted) as Hs by (apply stable_sort_sorted; apply _).
  assert (forall p q, p ∈ sorted -> q ∈ sorted -> closer target p q -> bits p <= bits q) as Hb.
  { intros p q Hp Hq Hc. rewrite Hperm in Hp, Hq. unfold bits. apply closer_log in Hc; auto. }
  split; [by rewrite length_take, <- all_peers_count, <- Hperm|].
  exists (drop count sorted). rewrite take_drop. split; [done|].
  rewrite <- (take_drop count sorted) in Hs. split.
  - intros p q Hp Hq. apply Hb.
    + rewrite <- (take_drop count sorted). apply elem_of_app. by left.
    + rewrite <- (take_drop count sorted). apply elem_of_app. by right.
    + by eapply StronglySorted_app_1_elem_of.
  - intros i j p q Hij Hi Hj. rewrite take_drop in Hs. rewrite lookup_take_Some in Hi, Hj.
    destruct Hi as [Hi _], Hj as [Hj _].
    apply Hb; [by eapply list_elem_of_lookup_2..|]. by apply (sorted_lookup _ sorted i j).
Qed.

(** Two peers of bucket 0 at distances 3 and 2 from the target. *)
Definition near (d : Z) : PeerInfo :=
  peer_new (2 ^ 255 + d) {| ip := V4 [10; 0; d; 1]; port := 8080 |} 1000.
Definition near_peers : list (Timestamp * Call) := join 1000 (near 3) ++ join 1000 (near 2).

Lemma closest_peers_by_bit_length_witness :
  let bits p := Z.log2 (Z.lxor (node_id p) (2 ^ 255)) in
  let found := find_closest_peers (table near_peers) (2 ^ 255) 1 in
  length found = min 1 (total_peer_count (table near_peers)) /\
  exists rest, found ++ rest ≡ₚ all_peers (table near_peers) /\
    (forall p q, p ∈ found -> q ∈ rest -> bits p <= bits q) /\
    (forall i j p q, (i < j)%nat -> found !! i = Some p -> found !! j = Some q -> bits p <= bits q).
Proof.
  apply (closest_peers_by_bit_length (table near_peers) (2 ^ 255) 1).
  - unfold in_width. lia.
  - intros p Hp%list_elem_of_In. vm_compute in Hp.
    destruct Hp as [<-|[<-|[]]]; unfold in_width; vm_compute; split; congruence.
Defined.

(** The closest peer by exclusive or, at distance 2, is not the one returned. *)
Theorem nearest_peer_missed :
  node_id <$> find_closest_peers (table near_peers) (2 ^ 255) 1 = [2 ^ 255 + 3] /\
  node_id <$> all_peers (table near_peers) = [2 ^ 255 + 3; 2 ^ 255 + 2].
Proof. by vm_compute. Qed.

(** ** Identifiers and addresses *)

(** The constant-time comparison is equality. *)
Lemma node_id_eq_spec a b : in_width 256 a -> in_width 256 b -> node_id_eq a b = true <-> a = b.
Proof.
  intros Ha Hb.
  assert (forall l acc, 0 <= acc -> Forall (fun xy => 0 <= xy.1 /\ 0 <= xy.2) l ->
    foldl (fun acc '(x, y) => Z.lor acc (Z.lxor x y)) acc l = 0 <->
    acc = 0 /\ Forall (fun xy => xy.1 = xy.2) l) as Hfold.
  { induction l as [|[x y] l IH]; intros acc Hacc Hl; cbn; [by rewrite Forall_nil; intuition|].
    apply Forall_cons in Hl as [[Hx Hy] Hl]. cbn in Hx, Hy.
    assert (0 <= Z.lxor x y) by (apply Z.lxor_nonneg; lia).
    rewrite IH, Forall_cons, Z.lor_eq_0_iff, Z.lxor_eq_0_iff; [tauto| |done].
    by apply Z.lor_nonneg. }
  unfold node_id_eq. rewrite Z.eqb_eq, Hfold; [|done|].
  - split; [|intros ->; split; [done|]].
    + intros [_ Hl]. apply hash_bytes_inj; [done..|]. apply list_eq_same_length with 32%nat;
        [by rewrite length_be_bytes..|]. intros i x y _ Hx Hy.
      rewrite Forall_lookup in Hl. apply (Hl i (x, y)). by apply lookup_zip_Some.
    + apply Forall_lookup. intros i [x y] [Hx Hy]%lookup_zip_Some. cbn in *. congruence.
  - apply Forall_lookup. intros i [x y] [Hx Hy]%lookup_zip_Some.
    pose proof (be_bytes_bytes 32 a) as Fa. pose proof (be_bytes_bytes 32 b) as Fb.
    rewrite Forall_lookup in Fa, Fb. specialize (Fa _ _ Hx). specialize (Fb _ _ Hy).
    unfold in_width in *. cbn. lia.
Qed.

(** The table compares IPv6 addresses by the default mask of IPv4: 24 bits, not
    the 48 of [ipv6_default]. *)
Lemma ipv6_mask_is_24 local c calls : subnet_mask (run local c calls) = ipv4_default.
Proof. apply (to_mask _ _ _ _ (run_ok local c calls)). Qed.

(** Timestamps stay below the year 10000. *)
Lemma add_secs_bounded t secs : 0 <= t <= MAX_REASONABLE -> 0 <= secs ->
  t <= add_secs t secs <= MAX_REASONABLE.
Proof. unfold add_secs, saturating_add, MAX_REASONABLE. lia. Qed.
