(* ===== verification/LightClient.v ===== *)
(** * LightClient: simplified payment verification ([qc-13-light-client-sync])

    The header chain ([domain/entities.rs], [value_objects.rs]), the rules of
    [domain/invariants.rs], the agreement of several nodes
    ([algorithms/multi_node.rs]), header batches ([header_sync.rs]), Merkle
    proofs ([merkle_verifier.rs]) and the service ([application/service.rs]).
    SHA-256 is a parameter; the full nodes are the port [FullNodeConnection],
    whose answers may change from one query to the next: a query carries its
    number.  Times and texts of errors are left out. *)

From S2P Require Import Prelude.

Local Open Scope Z_scope.
Local Open Scope qc_scope.

(** ** Values and entities *)

Inductive LightClientError :=
  | InsufficientNodes (got required : nat)
  | ConsensusFailed
  | InvalidProof
  | TransactionNotFound (h : Hash)
  | CheckpointMismatch (height : u64)
  | ForkDetected
  | NetworkError
  | InvalidHeaderChain
  | HeaderNotFound (h : Hash)
  | SyncFailed
  | InvalidHeader
  | InsufficientConfirmations (got required : u64).

Inductive CheckpointSource := Hardcoded | MultiNodeConsensus (node_count : nat) | External.

Record Checkpoint := { cp_height : u64; cp_hash : Hash; cp_source : CheckpointSource }.

Definition hardcoded (height : u64) (hash : Hash) : Checkpoint :=
  {| cp_height := height; cp_hash := hash; cp_source := Hardcoded |}.
Definition from_consensus (height : u64) (hash : Hash) (node_count : nat) : Checkpoint :=
  {| cp_height := height; cp_hash := hash; cp_source := MultiNodeConsensus node_count |}.
Definition validate_age (cp : Checkpoint) (current_height max_age_blocks : u64) : bool :=
  if current_height <? cp_height cp then false
  else current_height - cp_height cp <=? max_age_blocks.

Record ChainTip := { ct_hash : Hash; ct_height : u64; ct_confirmations : u64 }.
Definition tip_new (hash : Hash) (height : u64) : ChainTip :=
  {| ct_hash := hash; ct_height := height; ct_confirmations := 0 |}.

Record SyncResult := { sr_success : bool; sr_headers_synced : u64; sr_tip : ChainTip }.
Definition sync_success (n : u64) (tip : ChainTip) : SyncResult :=
  {| sr_success := true; sr_headers_synced := n; sr_tip := tip |}.
Definition sync_failed (tip : ChainTip) : SyncResult :=
  {| sr_success := false; sr_headers_synced := 0; sr_tip := tip |}.

Inductive Position := Left | Right.
Record ProofNode := { pn_hash : Hash; pn_position : Position }.

Record MerkleProof := {
  mp_tx_hash : Hash;
  mp_path : list ProofNode;
  mp_merkle_root : Hash;
  mp_block_hash : Hash;
  mp_block_height : u64;
}.

Record BlockHeader := {
  hash : Hash;
  parent_hash : Hash;
  height : u64;
  timestamp : u64;
  merkle_root : Hash;
  difficulty : u64;
  nonce : u64;
}.

#[export] Instance Position_eq_dec : EqDecision Position.
Proof. solve_decision. Defined.
#[export] Instance ProofNode_eq_dec : EqDecision ProofNode.
Proof. solve_decision. Defined.
#[export] Instance MerkleProof_eq_dec : EqDecision MerkleProof.
Proof. solve_decision. Defined.
#[export] Instance LightHeader_eq_dec : EqDecision BlockHeader.
Proof. solve_decision. Defined.

Definition header_new (h p : Hash) (ht ts : u64) (root : Hash) : BlockHeader := {|
  hash := h; parent_hash := p; height := ht; timestamp := ts; merkle_root := root;
  difficulty := 0; nonce := 0 |}.
Definition header_genesis (h : Hash) (ts : u64) (root : Hash) : BlockHeader :=
  header_new h 0 0 ts root.

(** ** The header chain *)

Module HeaderChain.

Record HeaderChain := {
  headers : gmap Hash BlockHeader;
  by_height : gmap u64 Hash;
  tip : Hash;
  chain_height : u64;
  checkpoints : list Checkpoint;
}.

Definition new (genesis : BlockHeader) : HeaderChain := {|
  headers := {[hash genesis := genesis]};
  by_height := {[0 := hash genesis]};
  tip := hash genesis;
  chain_height := 0;
  checkpoints := [] |}.

Definition append (header : BlockHeader) (c : HeaderChain)
  : result LightClientError HeaderChain :=
  if negb (parent_hash header =? tip c) then Err InvalidHeaderChain
  else if negb (height header =? wrapping_add 64 (chain_height c) 1) then Err InvalidHeaderChain
  else if match headers c !! tip c with
          | Some tip_header => timestamp header <=? timestamp tip_header
          | None => false
          end
  then Err InvalidHeaderChain
  else Ok {|
    headers := <[hash header := header]> (headers c);
    by_height := <[height header := hash header]> (by_height c);
    tip := hash header;
    chain_height := height header;
    checkpoints := checkpoints c |}.

Definition get_header (h : Hash) (c : HeaderChain) : option BlockHeader := headers c !! h.
Definition get_header_by_height (ht : u64) (c : HeaderChain) : option BlockHeader :=
  h ← by_height c !! ht; headers c !! h.
Definition get_tip (c : HeaderChain) : ChainTip := tip_new (tip c) (chain_height c).
Definition len (c : HeaderChain) : nat := size (headers c).
Definition is_empty (c : HeaderChain) : bool := (size (headers c) =? 0)%nat.

Definition add_checkpoint (cp : Checkpoint) (c : HeaderChain) : HeaderChain := {|
  headers := headers c; by_height := by_height c; tip := tip c; chain_height := chain_height c;
  checkpoints := checkpoints c ++ [cp] |}.

Fixpoint verify_all (c : HeaderChain) (cps : list Checkpoint) : result LightClientError unit :=
  match cps with
  | [] => Ok tt
  | cp :: cps =>
      match by_height c !! cp_height cp with
      | None => verify_all c cps
      | Some h => if negb (h =? cp_hash cp) then Err (CheckpointMismatch (cp_height cp))
                  else verify_all c cps
      end
  end.

Definition verify_checkpoints (c : HeaderChain) : result LightClientError unit :=
  verify_all c (checkpoints c).

End HeaderChain.

Abbreviation HeaderChain := HeaderChain.HeaderChain.

Record ProvenTransaction := {
  pt_tx_hash : Hash;
  pt_block_hash : Hash;
  pt_block_height : u64;
  pt_confirmations : u64;
  pt_proof : MerkleProof;
  pt_verified : bool;
}.

Definition proven_new (tx block : Hash) (ht : u64) (proof : MerkleProof) : ProvenTransaction := {|
  pt_tx_hash := tx; pt_block_hash := block; pt_block_height := ht; pt_confirmations := 0;
  pt_proof := proof; pt_verified := false |}.
Definition mark_verified (n : u64) (p : ProvenTransaction) : ProvenTransaction := {|
  pt_tx_hash := pt_tx_hash p; pt_block_hash := pt_block_hash p;
  pt_block_height := pt_block_height p; pt_confirmations := n; pt_proof := pt_proof p;
  pt_verified := true |}.

(** ** Agreement of several nodes

    [2.0 / 3.0] is the double [6004799503160661 * 2^-53]; a product of doubles
    is rounded to 53 significant bits, ties to even.  A non-negative double with
    a unit of [2^-53] is the number of its units. *)

Definition MIN_FULL_NODES : nat := 3.
Definition DEFAULT_CONFIRMATIONS : u64 := 6.
Definition CONSENSUS_THRESHOLD : Z := 6004799503160661.

Definition round_even (e m : Z) : Z :=
  let q := m / 2 ^ e in
  let r := m mod 2 ^ e in
  let up := (2 ^ e <? 2 * r) || ((2 * r =? 2 ^ e) && Z.odd q) in
  (if up then q + 1 else q) * 2 ^ e.

Definition round_f64 (m : Z) : Z :=
  if m <? 2 ^ 53 then m else round_even (Z.log2 m - 52) m.

(** [(n as f64 * CONSENSUS_THRESHOLD).ceil() as usize]. *)
Definition required_for_consensus (total : nat) : nat :=
  let product := round_f64 (round_f64 (Z.of_nat total) * CONSENSUS_THRESHOLD) in
  Z.to_nat ((product + 2 ^ 53 - 1) / 2 ^ 53).

Section Agreement.
Context {T : Type} `{!EqDecision T}.

(** [counts.iter_mut().find(..)], else [push]. *)
Fixpoint count_response (counts : list (T * nat)) (response : T) : list (T * nat) :=
  match counts with
  | [] => [(response, 1%nat)]
  | (r, c) :: counts =>
      if decide (r = response) then (r, S c) :: counts
      else (r, c) :: count_response counts response
  end.

(** [Iterator::max_by_key]: the last of the largest. *)
Definition max_by_count (counts : list (T * nat)) : option (T * nat) :=
  foldl (fun best rc =>
    match best with
    | Some b => if (snd b <=? snd rc)%nat then Some rc else Some b
    | None => Some rc
    end) None counts.

Definition check_consensus (responses : list T) (min_nodes : nat) : result LightClientError T :=
  if (length responses <? min_nodes)%nat
  then Err (InsufficientNodes (length responses) min_nodes)
  else if (length responses =? 0)%nat then Err ConsensusFailed
  else match max_by_count (foldl count_response [] responses) with
  | None => Panic
  | Some (best, count) =>
      if (count <? required_for_consensus (length responses))%nat then Err ConsensusFailed
      else Ok best
  end.

Definition check_strict_consensus (responses : list T) (min_nodes : nat)
  : result LightClientError T :=
  if (length responses <? min_nodes)%nat
  then Err (InsufficientNodes (length responses) min_nodes)
  else match responses with
  | [] => Err ConsensusFailed
  | first :: _ => if forallb (fun r => bool_decide (r = first)) responses then Ok first
                  else Err ForkDetected
  end.

Definition invariant_consensus (responses : list T) : result LightClientError unit :=
  match responses with
  | [] => Err ConsensusFailed
  | first :: _ =>
      if (length (filter (fun r => r = first) responses) <?
          required_for_consensus (length responses))%nat
      then Err ConsensusFailed else Ok tt
  end.

End Agreement.

Definition invariant_multi_node (node_count min_required : nat) : result LightClientError unit :=
  if (node_count <? min_required)%nat then Err (InsufficientNodes node_count min_required)
  else Ok tt.

Definition invariant_proof_verified (tx_hash : Hash) (path : list ProofNode) (root : Hash) : bool :=
  match path with [] => tx_hash =? root | _ => true end.

Fixpoint invariant_checkpoint_chain (chain_hashes checkpoints : list (u64 * Hash))
  : result LightClientError unit :=
  match checkpoints with
  | [] => Ok tt
  | (ht, h) :: cps =>
      match List.find (fun e => fst e =? ht) chain_hashes with
      | Some (_, h') => if negb (h' =? h) then Err (CheckpointMismatch ht)
                        else invariant_checkpoint_chain chain_hashes cps
      | None => invariant_checkpoint_chain chain_hashes cps
      end
  end.

Definition invariant_header_chain_continuous (parent expected_parent : Hash)
    (ht expected_height : u64) : result LightClientError unit :=
  if negb (parent =? expected_parent) then Err InvalidHeaderChain
  else if negb (ht =? expected_height) then Err InvalidHeaderChain
  else Ok tt.

(** ** Batches of headers *)

Fixpoint validate_header_batch (hs : list BlockHeader) : result LightClientError unit :=
  match hs with
  | prev :: ((curr :: _) as rest) =>
      if negb (parent_hash curr =? hash prev) then Err InvalidHeaderChain
      else if negb (height curr =? wrapping_add 64 (height prev) 1) then Err InvalidHeaderChain
      else if timestamp curr <=? timestamp prev then Err InvalidHeaderChain
      else validate_header_batch rest
  | _ => Ok tt
  end.

(** The loop keeps what it appended before an error. *)
Fixpoint append_all (c : HeaderChain) (hs : list BlockHeader) (count : u64)
  : HeaderChain * result LightClientError u64 :=
  match hs with
  | [] => (c, Ok count)
  | hd :: hs =>
      match HeaderChain.append hd c with
      | Ok c => append_all c hs (count + 1)
      | Err e => (c, Err e)
      | Panic => (c, Panic)
      end
  end.

Definition append_headers_batch (c : HeaderChain) (hs : list BlockHeader)
  : HeaderChain * result LightClientError u64 :=
  match validate_header_batch hs with
  | Ok _ => append_all c hs 0
  | Err e => (c, Err e)
  | Panic => (c, Panic)
  end.

Definition find_common_ancestor (c : HeaderChain) (remote : list BlockHeader) : option u64 :=
  height <$> List.find (fun hd => bool_decide (is_Some (HeaderChain.get_header (hash hd) c)))
    (reverse remote).

(** ** Merkle proofs *)

Definition MAX_PROOF_DEPTH : nat := 32.

Section Merkle.
Context (sha256 : list u8 -> Hash).

Definition hash_concat (left right : Hash) : Hash := sha256 (hash_bytes left ++ hash_bytes right).

Definition fold_node (current : Hash) (node : ProofNode) : Hash :=
  match pn_position node with
  | Left => hash_concat (pn_hash node) current
  | Right => hash_concat current (pn_hash node)
  end.

Definition verify_merkle_proof (tx_hash : Hash) (path : list ProofNode) (expected_root : Hash)
  : bool :=
  if (MAX_PROOF_DEPTH <? length path)%nat then false
  else match path with
  | [] => tx_hash =? expected_root
  | _ => foldl fold_node tx_hash path =? expected_root
  end.

(** One pass over [level.chunks(2)]: the last is paired with itself. *)
Fixpoint next_level (level : list Hash) : list Hash :=
  match level with
  | [] => []
  | [l] => [hash_concat l l]
  | l :: r :: level => hash_concat l r :: next_level level
  end.

Fixpoint root_loop (fuel : nat) (level : list Hash) : list Hash :=
  match fuel with
  | O => level
  | S fuel => if (length level <=? 1)%nat then level else root_loop fuel (next_level level)
  end.

Definition compute_merkle_root (tx_hashes : list Hash) : option Hash :=
  match tx_hashes with
  | [] => Some 0
  | [h] => Some h
  | _ => root_loop (length tx_hashes) tx_hashes !! 0%nat
  end.

Definition proof_step (level : list Hash) (index : nat) : option (list ProofNode) :=
  let sibling_index := if Nat.even index then (index + 1)%nat else (index - 1)%nat in
  if (sibling_index <? length level)%nat then
    s ← level !! sibling_index;
    Some [{| pn_hash := s; pn_position := if Nat.even index then Right else Left |}]
  else if (index + 1 =? length level)%nat then
    h ← level !! index; Some [{| pn_hash := h; pn_position := Right |}]
  else Some [].

Fixpoint proof_loop (fuel : nat) (level : list Hash) (index : nat) : option (list ProofNode) :=
  match fuel with
  | O => Some []
  | S fuel =>
      if (length level <=? 1)%nat then Some []
      else
        nodes ← proof_step level index;
        rest ← proof_loop fuel (next_level level) (Nat.div2 index);
        Some (nodes ++ rest)
  end.

Definition build_merkle_proof (tx_hashes : list Hash) (tx_index : nat)
  : result LightClientError (list ProofNode) :=
  if (length tx_hashes <=? tx_index)%nat then Err (TransactionNotFound 0)
  else if (length tx_hashes =? 1)%nat then Ok []
  else match proof_loop (length tx_hashes) tx_hashes tx_index with
  | Some path => Ok path
  | None => Panic
  end.

End Merkle.

(** ** The service *)

Record LightClientConfig := {
  min_full_nodes : nat;
  required_confirmations : u64;
  header_batch_size : nat;
  proof_cache_size : nat;
}.

Definition config_default : LightClientConfig := {|
  min_full_nodes := MIN_FULL_NODES; required_confirmations := DEFAULT_CONFIRMATIONS;
  header_batch_size := 2000; proof_cache_size := 1000 |}.
Definition config_for_testing : LightClientConfig := {|
  min_full_nodes := 1; required_confirmations := 1; header_batch_size := 100;
  proof_cache_size := 100 |}.

(** The port to a full node; the first [nat] is the number of the query. *)
Class FullNodeConnection (N : Type) : Type := {
  get_headers : N -> nat -> u64 -> nat -> result LightClientError (list BlockHeader);
  get_merkle_proof : N -> nat -> Hash -> Hash -> result LightClientError MerkleProof;
  get_chain_tip : N -> nat -> result LightClientError (Hash * u64);
}.

Section Service.
Context (sha256 : list u8 -> Hash) {N : Type} `{!FullNodeConnection N}.

Record LightClientService := {
  config : LightClientConfig;
  header_chain : HeaderChain;
  nodes : list N;
  proof_cache : gmap Hash MerkleProof;
  synced : bool;
  network_height : u64;
}.

Definition service_new (c : LightClientConfig) (genesis : BlockHeader) : LightClientService := {|
  config := c; header_chain := HeaderChain.new genesis; nodes := []; proof_cache := ∅;
  synced := false; network_height := 0 |}.

Definition with_nodes (ns : list N) (s : LightClientService) : LightClientService := {|
  config := config s; header_chain := header_chain s; nodes := ns;
  proof_cache := proof_cache s; synced := synced s; network_height := network_height s |}.
Definition add_node (n : N) (s : LightClientService) : LightClientService :=
  with_nodes (nodes s ++ [n]) s.
Definition set_nodes (ns : list N) (s : LightClientService) : LightClientService := with_nodes ns s.

Definition with_chain (c : HeaderChain) (s : LightClientService) : LightClientService := {|
  config := config s; header_chain := c; nodes := nodes s; proof_cache := proof_cache s;
  synced := synced s; network_height := network_height s |}.
Definition with_synced (s : LightClientService) : LightClientService := {|
  config := config s; header_chain := header_chain s; nodes := nodes s;
  proof_cache := proof_cache s; synced := true; network_height := network_height s |}.
Definition with_network_height (h : u64) (s : LightClientService) : LightClientService := {|
  config := config s; header_chain := header_chain s; nodes := nodes s;
  proof_cache := proof_cache s; synced := synced s; network_height := h |}.

Definition check_node_count (s : LightClientService) : result LightClientError unit :=
  if (length (nodes s) <? min_full_nodes (config s))%nat
  then Err (InsufficientNodes (length (nodes s)) (min_full_nodes (config s))) else Ok tt.

(** The answers of the nodes that answered. *)
Definition answers {A} (ask : N -> result LightClientError A) (ns : list N) : list A :=
  omap (fun n => match ask n with Ok a => Some a | _ => None end) ns.

Definition fetch_headers_with_consensus (q : nat) (from_height : u64) (count : nat)
    (s : LightClientService) : result LightClientError (list BlockHeader) :=
  let? _ := check_node_count s in
  check_consensus (answers (fun n => get_headers n q from_height count) (nodes s))
    (min_full_nodes (config s)).

Definition fetch_proof_with_consensus (q : nat) (tx_hash block_hash : Hash)
    (s : LightClientService) : result LightClientError MerkleProof :=
  let? _ := check_node_count s in
  check_consensus (answers (fun n => get_merkle_proof n q tx_hash block_hash) (nodes s))
    (min_full_nodes (config s)).

Definition fetch_network_height (q : nat) (s : LightClientService)
  : LightClientService * result LightClientError u64 :=
  match check_node_count s with
  | Ok _ =>
      match check_consensus
              (answers (fun n => let? t := get_chain_tip n q in Ok (snd t)) (nodes s))
              (min_full_nodes (config s)) with
      | Ok h => (with_network_height h s, Ok h)
      | Err e => (s, Err e)
      | Panic => (s, Panic)
      end
  | Err e => (s, Err e)
  | Panic => (s, Panic)
  end.

Definition chain_tip (s : LightClientService) : ChainTip := HeaderChain.get_tip (header_chain s).

(** What a run of the batch loop ends with: all headers, an early [return], or
    the fuel. *)
Inductive LoopEnd := Done (count : u64) | Return (r : result LightClientError SyncResult) | Running.

(** [for header in headers { append(header)?; .. }]. *)
Fixpoint append_batch (hs : list BlockHeader) (s : LightClientService) (count current : u64)
  : LightClientService * result LightClientError (u64 * u64) :=
  match hs with
  | [] => (s, Ok (count, current))
  | hd :: hs =>
      match HeaderChain.append hd (header_chain s) with
      | Ok c => append_batch hs (with_chain c s) (wrapping_add 64 count 1) (wrapping_add 64 current 1)
      | Err e => (s, Err e)
      | Panic => (s, Panic)
      end
  end.

Fixpoint sync_loop (fuel : nat) (q : nat) (s : LightClientService) (count current network : u64)
  : LightClientService * LoopEnd :=
  match fuel with
  | O => (s, Running)
  | S fuel =>
      if network <? current then (s, Done count)
      else
        let batch_size := min (header_batch_size (config s)) (Z.to_nat (network - current + 1)) in
        match fetch_headers_with_consensus q current batch_size s with
        | Ok hs =>
            match append_batch hs s count current with
            | (s, Ok (count, current)) => sync_loop fuel (S q) s count current network
            | (s, Err e) => (s, Return (Err e))
            | (s, Panic) => (s, Return Panic)
            end
        | Err _ => (s, Return (Ok (sync_failed (chain_tip s))))
        | Panic => (s, Return Panic)
        end
  end.

(** [None]: the loop has not ended after [fuel] rounds. *)
Definition sync_headers (fuel : nat) (s : LightClientService)
  : LightClientService * option (result LightClientError SyncResult) :=
  match fetch_network_height 0 s with
  | (s, Ok network) =>
      let local_height := HeaderChain.chain_height (header_chain s) in
      if network <=? local_height
      then (with_synced s, Some (Ok (sync_success 0 (chain_tip s))))
      else
        match sync_loop fuel 1 s 0 (wrapping_add 64 local_height 1) network with
        | (s, Running) => (s, None)
        | (s, Return r) => (s, Some r)
        | (s, Done count) =>
            match HeaderChain.verify_checkpoints (header_chain s) with
            | Ok _ => (with_synced s, Some (Ok (sync_success count (chain_tip s))))
            | Err e => (s, Some (Err e))
            | Panic => (s, Some Panic)
            end
        end
  | (s, Err e) => (s, Some (Err e))
  | (s, Panic) => (s, Some Panic)
  end.

Definition get_proven_transaction (tx_hash : Hash) (s : LightClientService)
  : result LightClientError ProvenTransaction :=
  match proof_cache s !! tx_hash with
  | Some cached =>
      let confirmations :=
        saturating_sub (HeaderChain.chain_height (header_chain s)) (mp_block_height cached) in
      Ok (mark_verified confirmations
            (proven_new tx_hash (mp_block_hash cached) (mp_block_height cached) cached))
  | None => Err (TransactionNotFound tx_hash)
  end.

Definition verify_transaction (q : nat) (tx_hash block_hash : Hash) (s : LightClientService)
  : result LightClientError bool :=
  match HeaderChain.get_header block_hash (header_chain s) with
  | None => Err (HeaderNotFound block_hash)
  | Some header =>
      let? proof := fetch_proof_with_consensus q tx_hash block_hash s in
      if negb (verify_merkle_proof sha256 tx_hash (mp_path proof) (merkle_root header))
      then Err InvalidProof
      else
        let confirmations :=
          saturating_sub (HeaderChain.chain_height (header_chain s)) (height header) in
        if confirmations <? required_confirmations (config s)
        then Err (InsufficientConfirmations confirmations (required_confirmations (config s)))
        else Ok true
  end.

End Service.

Arguments LightClientService : clear implicits.
