(* ===== verification/LightClientProps.v ===== *)
(** * LightClientProps: what the light client guarantees

    The floating-point threshold is exactly two thirds; the agreement of nodes
    is exactly a two-thirds majority; Merkle proofs built for a list of
    transactions verify against its root; the header chain stays linked; what
    a synchronisation adds was agreed upon; what a verified transaction means;
    and the loops and checks that fall short. *)

From S2P Require Import Prelude LightClient.

Local Open Scope Z_scope.

(** ** The threshold *)

Lemma round_f64_bounds m K : 0 <= m < 2 ^ 104 -> m <= K * 2 ^ 53 ->
  exists h, 0 <= h /\ h * 2 ^ 53 <= m /\ m - h <= round_f64 m <= K * 2 ^ 53.
Proof.
  intros Hm HK. unfold round_f64. destruct (Z.ltb_spec m (2 ^ 53)) as [|Hbig].
  { exists 0. lia. }
  pose proof (Z.log2_spec m ltac:(lia)) as [Hl _].
  assert (53 <= Z.log2 m) by (apply Z.log2_le_pow2; lia).
  assert (Z.log2 m < 104) by (apply Z.log2_lt_pow2; lia).
  remember (Z.log2 m - 52) as e eqn:He. unfold round_even.
  assert (2 ^ e = 2 * 2 ^ (e - 1)) as E1
    by (rewrite <- Z.pow_succ_r by lia; f_equal; lia).
  assert (2 ^ Z.log2 m = 2 ^ (e - 1) * 2 ^ 53) as E2
    by (rewrite <- Z.pow_add_r by lia; f_equal; lia).
  assert (2 ^ 53 = 2 ^ (53 - e) * 2 ^ e) as E3
    by (rewrite <- Z.pow_add_r by lia; f_equal; lia).
  pose proof (Z.pow_pos_nonneg 2 (e - 1) ltac:(lia) ltac:(lia)).
  pose proof (Z.pow_pos_nonneg 2 (53 - e) ltac:(lia) ltac:(lia)).
  pose proof (Z.div_mod m (2 ^ e) ltac:(lia)) as Hdiv.
  pose proof (Z.mod_pos_bound m (2 ^ e) ltac:(lia)) as Hr.
  remember (m / 2 ^ e) as q. remember (m mod 2 ^ e) as r. clear Heqq Heqr.
  exists (2 ^ (e - 1)). split; [lia|]. split; [lia|].
  assert (forall b : bool, b = true -> 0 < r -> (q + 1) * 2 ^ e <= K * 2 ^ 53) as Hup.
  { intros _ _ Hr0. rewrite E3, Z.mul_assoc in HK |- *.
    apply Z.mul_le_mono_nonneg_r; [lia|]. nia. }
  destruct (Z.ltb_spec (2 ^ e) (2 * r)); cbn [orb]; [specialize (Hup true eq_refl); nia|].
  destruct (Z.eqb_spec (2 * r) (2 ^ e)); cbn [andb]; [|nia].
  destruct (Z.odd q); [specialize (Hup true eq_refl); nia|nia].
Qed.

(** [ceil(n * 0.666..)] in double precision is the exact ceiling of [2n/3]. *)
Lemma required_exact n : Z.of_nat n < 2 ^ 51 ->
  Z.of_nat (required_for_consensus n) = (2 * Z.of_nat n + 2) / 3.
Proof.
  intros Hn. unfold required_for_consensus.
  replace (round_f64 (Z.of_nat n)) with (Z.of_nat n)
    by (unfold round_f64; destruct (Z.ltb_spec (Z.of_nat n) (2 ^ 53)); lia).
  unfold CONSENSUS_THRESHOLD. set (m := Z.of_nat n * 6004799503160661).
  set (K := (2 * Z.of_nat n + 2) / 3).
  assert (3 * K <= 2 * Z.of_nat n + 2 < 3 * K + 3) as HK
    by (unfold K; pose proof (Z.div_mod (2 * Z.of_nat n + 2) 3); pose proof (Z.mod_pos_bound (2 * Z.of_nat n + 2) 3); lia).
  destruct (round_f64_bounds m K) as (h & H0 & H1 & H2 & H3); [unfold m; lia|unfold m; lia|].
  set (p := round_f64 m) in *. rewrite Z2Nat.id.
  - destruct (Z.eq_dec (Z.of_nat n) 0) as [E|]; [|].
    + assert (K = 0) by lia. unfold m in *. symmetry. apply Z.div_unique with (p + 2 ^ 53 - 1); lia.
    + symmetry. apply Z.div_unique with (p + 2 ^ 53 - 1 - 2 ^ 53 * K); [unfold m in *; lia|lia].
  - apply Z.div_pos; [unfold m in *; lia|lia].
Qed.

(** ** Agreement *)

Section Agreement.
Context {T : Type} `{!EqDecision T}.

(** How many of the responses are [v]. *)
Definition agreeing (v : T) (responses : list T) : nat := length (filter (fun r => r = v) responses).

Lemma agreeing_snoc v rs x :
  agreeing v (rs ++ [x]) = (agreeing v rs + if decide (x = v) then 1 else 0)%nat.
Proof. unfold agreeing. rewrite filter_app, length_app, filter_cons, filter_nil. by case_decide. Qed.

Lemma agreeing_pos v rs : v ∈ rs <-> (0 < agreeing v rs)%nat.
Proof.
  unfold agreeing. split.
  - intros Hv. assert (v ∈ filter (fun r => r = v) rs) as Hf by (by apply list_elem_of_filter).
    destruct (filter _ rs); [by apply elem_of_nil in Hf|]. cbn. lia.
  - destruct (filter (fun r => r = v) rs) as [|y l] eqn:E; cbn; [lia|]. intros _.
    assert (y ∈ filter (fun r => r = v) rs) as Hy by (rewrite E; left).
    apply list_elem_of_filter in Hy as [<- ?]. done.
Qed.

Lemma agreeing_disjoint v w rs : v <> w -> (agreeing v rs + agreeing w rs <= length rs)%nat.
Proof.
  intros Hne. unfold agreeing. induction rs as [|x rs IH]; [done|].
  rewrite !filter_cons. repeat case_decide; simplify_eq; cbn; lia.
Qed.

Record counts_ok (rs : list T) (counts : list (T * nat)) : Prop := {
  co_nodup : NoDup counts.*1;
  co_sound : forall v c, (v, c) ∈ counts -> c = agreeing v rs;
  co_complete : forall v, v ∈ rs -> v ∈ counts.*1;
}.

Lemma count_response_keys (counts : list (T * nat)) x :
  (count_response counts x).*1 = if decide (x ∈ counts.*1) then counts.*1 else counts.*1 ++ [x].
Proof.
  induction counts as [|[r c] counts IH]; cbn; [by case_decide as H; [by apply elem_of_nil in H|]|].
  destruct (decide (r = x)) as [->|Hne]; cbn.
  - rewrite decide_True by left. done.
  - rewrite IH. repeat case_decide; try done.
    + contradict H0. by right.
    + by apply elem_of_cons in H0 as [->|].
Qed.

Lemma count_response_elem (counts : list (T * nat)) x v c : NoDup counts.*1 -> (v, c) ∈ count_response counts x ->
  (v <> x /\ (v, c) ∈ counts) \/
  (v = x /\ ((exists c', c = S c' /\ (x, c') ∈ counts) \/ (c = 1%nat /\ x ∉ counts.*1))).
Proof.
  induction counts as [|[r n] counts IH]; cbn.
  { intros _ [= -> ->]%list_elem_of_singleton. right. split; [done|]. right. split; [done|apply not_elem_of_nil]. }
  intros [Hn Hnd]%NoDup_cons. destruct (decide (r = x)) as [->|Hne].
  - intros [[= -> ->]|Hin]%elem_of_cons.
    + right. split; [done|]. left. exists n. split; [done|left].
    + left. split; [|by right]. intros ->. apply Hn. by apply (list_elem_of_fmap_2 fst _ (x, c)).
  - intros [[= -> ->]|Hin]%elem_of_cons; [left; split; [done|left]|].
    destruct (IH Hnd Hin) as [[? ?]|[-> [(c' & -> & ?)|[-> ?]]]].
    + left. split; [done|by right].
    + right. split; [done|]. left. exists c'. split; [done|by right].
    + right. split; [done|]. right. split; [done|]. rewrite not_elem_of_cons. done.
Qed.

Lemma counts_spec (rs : list T) : counts_ok rs (foldl count_response [] rs).
Proof.
  induction rs as [|x rs [Hn Hs Hc]] using rev_ind.
  { split; cbn; [constructor|by intros ?? ?%elem_of_nil|by intros ? ?%elem_of_nil]. }
  rewrite foldl_snoc. set (counts := foldl count_response [] rs) in *. split.
  - rewrite count_response_keys. case_decide as Hx; [done|]. apply NoDup_app. split; [done|].
    split; [|apply NoDup_singleton]. intros v Hv ->%list_elem_of_singleton. done.
  - intros v c Hin. rewrite agreeing_snoc.
    apply count_response_elem in Hin as [[Hne Hin]|[-> [(c' & -> & Hin)|[-> Hx]]]]; [..|done].
    + rewrite decide_False by congruence. rewrite (Hs v c Hin). lia.
    + rewrite decide_True by done. rewrite (Hs x c' Hin). lia.
    + rewrite decide_True by done. assert (x ∉ rs) as Hx' by naive_solver.
      rewrite agreeing_pos in Hx'. lia.
  - intros v. rewrite count_response_keys, elem_of_app, list_elem_of_singleton.
    intros [Hv| ->]; case_decide; rewrite ?elem_of_app, ?list_elem_of_singleton; auto.
Qed.

Lemma max_by_count_spec (counts : list (T * nat)) : counts <> [] ->
  exists v c, max_by_count counts = Some (v, c) /\ (v, c) ∈ counts /\
    forall w d, (w, d) ∈ counts -> (d <= c)%nat.
Proof.
  unfold max_by_count. induction counts as [|[x n] counts IH] using rev_ind; [done|]. intros _.
  rewrite foldl_snoc. destruct (decide (counts = [])) as [->|Hne].
  { exists x, n. cbn. split; [done|]. split; [left|]. intros w d [= -> ->]%list_elem_of_singleton. done. }
  destruct (IH Hne) as (v & c & -> & Hin & Hmax). cbn.
  destruct (Nat.leb_spec c n).
  - exists x, n. split; [done|]. split; [apply elem_of_app; right; left|].
    intros w d [Hd%Hmax|[= -> ->]%list_elem_of_singleton]%elem_of_app; lia.
  - exists v, c. split; [done|]. split; [apply elem_of_app; by left|].
    intros w d [Hd%Hmax|[= -> ->]%list_elem_of_singleton]%elem_of_app; lia.
Qed.

Lemma check_consensus_iff (rs : list T) min_nodes v : Z.of_nat (length rs) < 2 ^ 51 ->
  check_consensus rs min_nodes = Ok v <->
  (min_nodes <= length rs)%nat /\ rs <> [] /\ (2 * length rs <= 3 * agreeing v rs)%nat.
Proof.
  intros Hlen. pose proof (required_exact (length rs) Hlen) as Hreq. unfold check_consensus.
  destruct (Nat.ltb_spec (length rs) min_nodes); [split; [done|lia]|].
  destruct (Nat.eqb_spec (length rs) 0) as [->%length_zero_iff_nil|Hne]; [split; [done|tauto]|].
  pose proof (counts_spec rs) as [Hn Hs Hc].
  assert (rs <> []) as Hrs by (by intros ->).
  assert (foldl count_response [] rs <> []) as Hcn.
  { destruct rs as [|x l]; [done|]. intros E. specialize (Hc x ltac:(left)). rewrite E in Hc.
    by apply elem_of_nil in Hc. }
  destruct (max_by_count_spec _ Hcn) as (best & c & -> & Hin & Hmax).
  pose proof (Hs best c Hin) as ->.
  pose proof (Z.div_mod (2 * Z.of_nat (length rs) + 2) 3 ltac:(lia)).
  pose proof (Z.mod_pos_bound (2 * Z.of_nat (length rs) + 2) 3 ltac:(lia)).
  destruct (Nat.ltb_spec (agreeing best rs) (required_for_consensus (length rs))) as [Hlt|Hge].
  - split; [done|]. intros (_ & _ & Hv).
    assert (v ∈ rs) as Hvr by (apply agreeing_pos; lia).
    apply Hc, list_elem_of_fmap in Hvr as ([w d] & -> & Hwd). cbn in Hv.
    pose proof (Hmax w d Hwd). rewrite (Hs w d Hwd) in *. lia.
  - split.
    + intros [= ->]. split; [done|]. split; [done|]. lia.
    + intros (_ & _ & Hv). destruct (decide (best = v)) as [->|Hd]; [done|].
      pose proof (agreeing_disjoint best v rs Hd). lia.
Qed.

End Agreement.

(** ** Merkle proofs *)

Section Merkle.
Context (sha256 : list u8 -> Hash).

Lemma pairs_ind {A} (P : list A -> Prop) :
  P [] -> (forall x, P [x]) -> (forall x y l, P l -> P (x :: y :: l)) -> forall l, P l.
Proof.
  intros H0 H1 H2 l. assert (P l /\ forall x, P (x :: l)) as [? _]; [|done].
  induction l as [|y l [IH1 IH2]]; split; auto.
Qed.

Lemma length_light_level l : length (next_level sha256 l) = Nat.div2 (length l + 1).
Proof. induction l as [| |x y l IH] using pairs_ind; [done..|]. cbn. by rewrite IH. Qed.

Lemma next_level_lookup l : forall j x, l !! (2 * j)%nat = Some x ->
  next_level sha256 l !! j = Some (hash_concat sha256 x (default x (l !! (2 * j + 1)%nat))).
Proof.
  induction l as [|y|y z l IH] using pairs_ind; intros j x Hx; [done|..].
  - destruct j as [|j]; [by simplify_eq/=|]. replace (2 * S j)%nat with (S (S (2 * j))) in Hx by lia. done.
  - destruct j as [|j]; [by simplify_eq/=|].
    replace (2 * S j)%nat with (S (S (2 * j))) in Hx by lia.
    replace (2 * S j + 1)%nat with (S (S (2 * j + 1))) by lia. apply (IH j x Hx).
Qed.

Lemma proof_step_spec level i x : (2 <= length level)%nat -> level !! i = Some x ->
  exists node, proof_step level i = Some [node] /\
    next_level sha256 level !! Nat.div2 i = Some (fold_node sha256 x node).
Proof.
  intros Hlen Hx. pose proof (lookup_lt_Some _ _ _ Hx) as Hi. unfold proof_step.
  destruct (Nat.even i) eqn:He.
  - apply Nat.even_spec in He as [j ->]. rewrite Nat.div2_double.
    rewrite (next_level_lookup level j x Hx). destruct (Nat.ltb_spec (2 * j + 1) (length level)) as [Hs|Hs].
    + destruct (lookup_lt_is_Some_2 level (2 * j + 1) Hs) as [s ->]. eexists. split; done.
    + destruct (Nat.eqb_spec (2 * j + 1) (length level)); [|lia]. rewrite Hx.
      rewrite (lookup_ge_None_2 level (2 * j + 1)) by lia. eexists. split; done.
  - assert (Nat.odd i = true) as Ho by (unfold Nat.odd; by rewrite He).
    apply Nat.odd_spec in Ho as [j ->].
    replace (Nat.div2 (2 * j + 1)) with j by (rewrite Nat.add_1_r, Nat.div2_succ_double; done).
    replace (2 * j + 1 - 1)%nat with (2 * j)%nat by lia.
    destruct (Nat.ltb_spec (2 * j) (length level)); [|lia].
    destruct (lookup_lt_is_Some_2 level (2 * j)) as [s Hs]; [lia|].
    rewrite (next_level_lookup level j s Hs), Hs, Hx. eexists. split; done.
Qed.

Lemma proof_loop_spec fuel : forall level i x d, (length level <= fuel)%nat ->
  level !! i = Some x -> (length level <= 2 ^ d)%nat ->
  exists path, proof_loop sha256 fuel level i = Some path /\ (length path <= d)%nat /\
    root_loop sha256 fuel level !! 0%nat = Some (foldl (fold_node sha256) x path).
Proof.
  induction fuel as [|fuel IH]; intros level i x d Hf Hx Hd;
    pose proof (lookup_lt_Some _ _ _ Hx) as Hi; [lia|]. cbn [proof_loop root_loop].
  destruct (Nat.leb_spec (length level) 1).
  { exists []. split; [done|]. split; [cbn; lia|]. replace i with 0%nat in Hx by lia. done. }
  destruct (proof_step_spec level i x) as (node & -> & Hn); [lia|done|].
  destruct d as [|d]; [cbn in Hd; lia|].
  pose proof (Nat.div2_odd (length level + 1)) as Hodd.
  assert ((Nat.b2n (Nat.odd (length level + 1)) <= 1)%nat) by (destruct (Nat.odd _); cbn; lia).
  destruct (IH (next_level sha256 level) (Nat.div2 i) (fold_node sha256 x node) d)
    as (path & Hp & Hl & Hr).
  - rewrite length_light_level. lia.
  - done.
  - rewrite length_light_level. rewrite Nat.pow_succ_r' in Hd. lia.
  - cbn [mbind option_bind]. rewrite Hp. exists (node :: path). cbn. split; [done|]. split; [lia|done].
Qed.

(** For any list of at most [2^32] transactions the proof built
    for an index verifies the transaction at that index against the root
    computed from the list. *)
Theorem merkle_proof_roundtrip txs i tx :
  Z.of_nat (length txs) <= 2 ^ 32 -> txs !! i = Some tx ->
  exists path root, build_merkle_proof sha256 txs i = Ok path /\
    compute_merkle_root sha256 txs = Some root /\
    verify_merkle_proof sha256 tx path root = true.
Proof.
  intros Hlen Htx. pose proof (lookup_lt_Some _ _ _ Htx) as Hi.
  destruct (proof_loop_spec (length txs) txs i tx 32) as (path & Hp & Hl & Hr);
    [done|done|apply Nat2Z.inj_le; by rewrite Nat2Z.inj_pow|].
  unfold build_merkle_proof. destruct (Nat.leb_spec (length txs) i); [lia|].
  destruct txs as [|h [|h' txs]]; [done| |].
  - destruct i; [|done]. injection Htx as ->. exists [], tx. split; [done|]. split; [done|].
    unfold verify_merkle_proof. cbn. apply Z.eqb_refl.
  - rewrite Hp. exists path, (foldl (fold_node sha256) tx path). split; [done|]. split; [exact Hr|].
    unfold verify_merkle_proof, MAX_PROOF_DEPTH. destruct (Nat.ltb_spec 32 (length path)); [lia|].
    destruct path; apply Z.eqb_refl.
Qed.

(** Two transactions that end a list are the same as one: a list of three and
    the list with its last repeated have one root. *)
Lemma repeated_last_same_root a b c :
  compute_merkle_root sha256 [a; b; c] = compute_merkle_root sha256 [a; b; c; c].
Proof. done. Qed.

End Merkle.

Lemma merkle_proof_roundtrip_witness : exists path root,
  build_merkle_proof (foldl Z.add 7) [5; 6; 9] 2 = Ok path /\
  compute_merkle_root (foldl Z.add 7) [5; 6; 9] = Some root /\
  verify_merkle_proof (foldl Z.add 7) 9 path root = true.
Proof.
  apply (merkle_proof_roundtrip (foldl Z.add 7) [5; 6; 9] 2 9); [cbn; lia|reflexivity].
Defined.

(** ** The header chain *)

Import HeaderChain.

Record chain_ok (genesis : BlockHeader) (c : HeaderChain) : Prop := {
  ck_height : 0 <= chain_height c;
  ck_tip : by_height c !! chain_height c = Some (tip c);
  ck_genesis : by_height c !! 0 = Some (hash genesis) /\ headers c !! hash genesis = Some genesis;
  ck_domain : forall h, is_Some (by_height c !! h) <-> 0 <= h <= chain_height c;
  ck_entry : forall h x, by_height c !! h = Some x ->
    exists hd, headers c !! x = Some hd /\ hash hd = x /\ height hd = h;
  ck_links : forall h x hd, 0 < h -> by_height c !! h = Some x -> headers c !! x = Some hd ->
    by_height c !! (h - 1) = Some (parent_hash hd) /\
    exists prev, headers c !! parent_hash hd = Some prev /\ timestamp prev < timestamp hd;
}.

Lemma append_inv hd c c' : append hd c = Ok c' ->
  parent_hash hd = tip c /\ height hd = wrapping_add 64 (chain_height c) 1 /\
  (forall t, headers c !! tip c = Some t -> timestamp t < timestamp hd) /\
  headers c' = <[hash hd := hd]> (headers c) /\
  by_height c' = <[height hd := hash hd]> (by_height c) /\
  tip c' = hash hd /\ chain_height c' = height hd /\ checkpoints c' = checkpoints c.
Proof.
  unfold append. destruct (Z.eqb_spec (parent_hash hd) (tip c)); cbn [negb]; [|done].
  destruct (Z.eqb_spec (height hd) (wrapping_add 64 (chain_height c) 1)); cbn [negb]; [|done].
  destruct (headers c !! tip c) as [t|] eqn:Ht.
  - destruct (Z.leb_spec (timestamp hd) (timestamp t)); [done|]. intros [= <-]. cbn.
    repeat split; try done. intros ? [= <-]. lia.
  - intros [= <-]. cbn. repeat split; done.
Qed.

Lemma append_ok genesis hd c c' : chain_ok genesis c -> append hd c = Ok c' ->
  headers c !! hash hd = None -> chain_height c < 2 ^ 64 - 1 -> chain_ok genesis c'.
Proof.
  intros [H1 H2 [G1 G2] H3 H4 H5] Ha Hfresh Hw.
  apply append_inv in Ha as (P & Hh & Ht & E1 & E2 & E3 & E4 & _).
  rewrite wrapping_add_small in Hh by lia.
  assert (forall h x, by_height c !! h = Some x -> x <> hash hd) as Hne.
  { intros h x Hx ->. destruct (H4 h _ Hx) as (? & Hhd & _). congruence. }
  assert (forall h x, by_height c !! h = Some x -> 0 <= h <= chain_height c) as Hr
    by (intros h x Hx; apply H3; eauto).
  split; rewrite ?E1, ?E2, ?E3, ?E4.
  - lia.
  - by rewrite lookup_insert_eq.
  - rewrite !lookup_insert_ne by (first [lia|symmetry; by eauto]). done.
  - intros h. rewrite lookup_insert_is_Some, H3. lia.
  - intros h x. rewrite lookup_insert_Some. intros [[<- <-]|[_ Hx]].
    + exists hd. by rewrite lookup_insert_eq.
    + rewrite lookup_insert_ne by (symmetry; eauto). auto.
  - intros h x hd' Hpos. rewrite lookup_insert_Some. intros [[<- <-]|[_ Hx]] Hhd.
    + rewrite lookup_insert_eq in Hhd. injection Hhd as <-. rewrite Hh, Z.add_simpl_r, P.
      rewrite !lookup_insert_ne by (first [lia|symmetry; by eauto]). split; [done|].
      destruct (H4 _ _ H2) as (t & Htip & _). exists t. auto.
    + rewrite lookup_insert_ne in Hhd by (symmetry; eauto).
      destruct (H5 h x hd' Hpos Hx Hhd) as (L1 & prev & L2 & L3).
      rewrite !lookup_insert_ne by (first [apply Hr in Hx; lia|symmetry; by eauto]). eauto.
Qed.

(** The chains that appending headers with new hashes gives. *)
Inductive grown (genesis : BlockHeader) : HeaderChain -> Prop :=
  | grown_new : grown genesis (new genesis)
  | grown_append c c' hd : grown genesis c -> headers c !! hash hd = None ->
      chain_height c < 2 ^ 64 - 1 -> append hd c = Ok c' -> grown genesis c'
  | grown_checkpoint c cp : grown genesis c -> grown genesis (add_checkpoint cp c).

Lemma grown_ok genesis c : height genesis = 0 -> grown genesis c -> chain_ok genesis c.
Proof.
  intros Hg. induction 1 as [|c c' hd Hc IH Hf Hw Ha|c cp Hc IH].
  - split; cbn.
    + lia.
    + apply lookup_singleton_eq.
    + split; apply lookup_singleton_eq.
    + intros h. destruct (decide (h = 0)) as [->|].
      * rewrite lookup_singleton_eq. split; [lia|eauto].
      * rewrite lookup_singleton_ne by done. split; [by intros []|lia].
    + intros h x [<- <-]%lookup_singleton_Some. exists genesis. by rewrite lookup_singleton_eq.
    + intros h x hd Hpos [<- <-]%lookup_singleton_Some. lia.
  - by eapply append_ok.
  - by destruct IH.
Qed.

(** In a chain grown from the genesis header by appending
    headers with new hashes, every height up to the tip has exactly the header
    stored under its hash, each header above the genesis names the hash of the
    header below as its parent, and timestamps strictly increase. *)
Theorem header_chain_linked genesis c h :
  height genesis = 0 -> grown genesis c -> 0 <= h <= chain_height c ->
  exists hd, get_header_by_height h c = Some hd /\ get_header (hash hd) c = Some hd /\
    height hd = h /\ (h = 0 -> hd = genesis) /\
    (0 < h -> exists prev, get_header_by_height (h - 1) c = Some prev /\
       parent_hash hd = hash prev /\ timestamp prev < timestamp hd).
Proof.
  intros Hg Hc Hh. destruct (grown_ok genesis c Hg Hc) as [H1 H2 [G1 G2] H3 H4 H5].
  destruct (proj2 (H3 h) Hh) as [x Hx]. destruct (H4 h x Hx) as (hd & Hhd & <- & <-).
  exists hd. unfold get_header_by_height, get_header. rewrite Hx. cbn. split; [done|].
  split; [done|]. split; [done|]. split.
  - intros E. rewrite E, G1 in Hx. injection Hx as Hx. rewrite <- Hx in Hhd. congruence.
  - intros Hpos. destruct (H5 _ _ _ Hpos Hx Hhd) as (L1 & prev & L2 & L3). rewrite L1. cbn.
    exists prev. split; [done|]. split; [|done].
    destruct (H4 _ _ L1) as (prev' & L4 & L5 & _). congruence.
Qed.

Definition header_at (h : Z) : BlockHeader := header_new (100 + h) (99 + h) h (1000 + h) 0.
Definition genesis0 : BlockHeader := header_genesis 100 1000 0.

Definition chain_of (n : nat) : HeaderChain :=
  (append_all (new genesis0) (header_at <$> seqZ 1 (Z.of_nat n)) 0).1.
Abbreviation chain_of_two := (chain_of 2).

Lemma chain_of_two_grown : grown genesis0 chain_of_two.
Proof.
  apply (grown_append _ (chain_of 1) _ (header_at 2)); [|by vm_compute..].
  apply (grown_append _ (new genesis0) _ (header_at 1)); [apply grown_new|by vm_compute..].
Qed.

Lemma header_chain_linked_witness :
  exists hd, get_header_by_height 2 chain_of_two = Some hd /\
    get_header (hash hd) chain_of_two = Some hd /\ height hd = 2 /\ (2 = 0 -> hd = genesis0) /\
    (0 < 2 -> exists prev, get_header_by_height (2 - 1) chain_of_two = Some prev /\
       parent_hash hd = hash prev /\ timestamp prev < timestamp hd).
Proof.
  apply (header_chain_linked genesis0 chain_of_two 2);
    [reflexivity|apply chain_of_two_grown|vm_compute; split; discriminate].
Defined.

(** The hash of a header is taken from the header: one that repeats the hash of
    the genesis replaces it. *)
Lemma reused_hash_rewrites_genesis :
  exists c, append (header_new 100 100 1 1001 7) (new genesis0) = Ok c /\
    height <$> get_header_by_height 0 c = Some 1.
Proof. eexists. split; by vm_compute. Qed.

(** ** Synchronisation *)

Section Service.
Context {N : Type} `{!FullNodeConnection N}.
Abbreviation Service := (LightClientService N).

(** At least two thirds of the nodes that answered, and enough of them, gave the
    answer [a]. *)
Definition agreed {A} `{!EqDecision A} (s : Service) (ask : N -> result LightClientError A) (a : A) : Prop :=
  let rs := answers ask (nodes s) in
  (min_full_nodes (config s) <= length rs)%nat /\ (2 * length rs <= 3 * agreeing a rs)%nat /\
  (0 < agreeing a rs)%nat.

Lemma length_answers {A} (ask : N -> result LightClientError A) ns :
  (length (answers ask ns) <= length ns)%nat.
Proof. unfold answers. induction ns as [|n ns IH]; cbn; [done|]. case_match; cbn; lia. Qed.

Lemma consensus_agreed {A} `{!EqDecision A} (s : Service) (ask : N -> result LightClientError A) a :
  Z.of_nat (length (nodes s)) < 2 ^ 51 ->
  check_consensus (answers ask (nodes s)) (min_full_nodes (config s)) = Ok a -> agreed s ask a.
Proof.
  intros Hn Hc. pose proof (length_answers ask (nodes s)).
  apply check_consensus_iff in Hc as (H1 & H2 & H3); [|lia]. split; [done|]. split; [done|].
  destruct (answers ask (nodes s)); [done|]. cbn [length] in *. lia.
Qed.

Lemma fetch_headers_agreed q from n (s : Service) hs : Z.of_nat (length (nodes s)) < 2 ^ 51 ->
  fetch_headers_with_consensus q from n s = Ok hs ->
  agreed s (fun m => get_headers m q from n) hs.
Proof.
  intros Hn. unfold fetch_headers_with_consensus. destruct (check_node_count s); [|done..].
  cbn [rbind]. by apply consensus_agreed.
Qed.

(** A header that some batch the nodes agreed upon contains. *)
Definition agreed_header (s : Service) (hd : BlockHeader) : Prop :=
  exists q from n hs, hd ∈ hs /\ agreed s (fun m => get_headers m q from n) hs.

(** What the loop does not change, and where new headers come from. *)
Record extends (P : BlockHeader -> Prop) (s s' : Service) : Prop := {
  ex_config : config s' = config s;
  ex_nodes : nodes s' = nodes s;
  ex_cache : proof_cache s' = proof_cache s;
  ex_headers : forall x hd, headers (header_chain s') !! x = Some hd ->
    headers (header_chain s) !! x = Some hd \/ P hd;
}.

Lemma extends_refl P s s' : config s' = config s -> nodes s' = nodes s ->
  proof_cache s' = proof_cache s -> header_chain s' = header_chain s -> extends P s s'.
Proof. intros ? ? ? E. split; [done..|]. rewrite E. auto. Qed.

Lemma sync_extends_trans P s1 s2 s3 : extends P s1 s2 -> extends P s2 s3 -> extends P s1 s3.
Proof.
  intros [A1 A2 A3 A4] [B1 B2 B3 B4]. split; [congruence..|].
  intros x hd [Hx|]%B4; [|by right]. by apply A4.
Qed.

Lemma append_batch_extends P hs : forall s n cur, (forall hd, hd ∈ hs -> P hd) ->
  extends P s (append_batch hs s n cur).1.
Proof.
  induction hs as [|hd hs IH]; intros s n cur HP; [by apply extends_refl|]. cbn [append_batch].
  destruct (append hd (header_chain s)) as [c| |] eqn:Ha; [|by apply extends_refl..].
  eapply sync_extends_trans; [|apply IH; intros; apply HP; by right].
  apply append_inv in Ha as (_ & _ & _ & E & _). split; [done..|]. cbn. rewrite E.
  intros x hd' [[<- <-]|[_ ?]]%lookup_insert_Some; [right; apply HP; left|by left].
Qed.

Lemma sync_loop_extends s0 fuel : forall q s n cur net,
  Z.of_nat (length (nodes s)) < 2 ^ 51 -> config s = config s0 -> nodes s = nodes s0 ->
  extends (agreed_header s0) s (sync_loop fuel q s n cur net).1.
Proof.
  induction fuel as [|fuel IH]; intros q s n cur net Hn Ec En; [by apply extends_refl|].
  cbn [sync_loop]. destruct (net <? cur); [by apply extends_refl|]. cbn zeta.
  destruct (fetch_headers_with_consensus _ _ _ s) as [hs| |] eqn:Hf; [|by apply extends_refl..].
  assert (extends (agreed_header s0) s (append_batch hs s n cur).1) as Hb.
  { apply append_batch_extends. intros hd Hhd. apply fetch_headers_agreed in Hf; [|done].
    unfold agreed in Hf. rewrite Ec, En in Hf. unfold agreed_header. eauto 6. }
  destruct (append_batch hs s n cur) as [s' [[n' cur']| |]]; cbn [fst] in *; [|done..].
  eapply sync_extends_trans; [exact Hb|]. destruct Hb as [A1 A2 A3 A4].
  apply IH; [by rewrite A2|congruence..].
Qed.

Lemma fetch_height_same q (s : Service) : let s' := (fetch_network_height q s).1 in
  config s' = config s /\ nodes s' = nodes s /\ proof_cache s' = proof_cache s /\
  header_chain s' = header_chain s.
Proof. unfold fetch_network_height. repeat case_match; done. Qed.

Lemma sync_extends fuel (s : Service) : Z.of_nat (length (nodes s)) < 2 ^ 51 ->
  extends (agreed_header s) s (sync_headers fuel s).1.
Proof.
  intros Hn. unfold sync_headers. pose proof (fetch_height_same 0 s) as (A1 & A2 & A3 & A4).
  destruct (fetch_network_height 0 s) as [s1 [net| |]]; cbn [fst] in *; [|by apply extends_refl..].
  cbn zeta. destruct (net <=? _); [by apply extends_refl|].
  pose proof (sync_loop_extends s fuel 1 s1 0 (wrapping_add 64 (chain_height (header_chain s1)) 1) net
    ltac:(by rewrite A2) A1 A2) as Hl.
  assert (extends (agreed_header s) s s1) as H1 by (by apply extends_refl).
  destruct (sync_loop _ _ _ _ _ _) as [s2 [n|r|]]; cbn [fst] in *;
    [|by eapply sync_extends_trans..].
  destruct (verify_checkpoints (header_chain s2)); cbn [fst];
    (eapply sync_extends_trans; [exact H1|]); [|exact Hl..].
  eapply sync_extends_trans; [exact Hl|]. by apply extends_refl.
Qed.

(** Every header the chain holds after a synchronisation, however
    it ended, was there before or is in a batch that at least two thirds of the
    answering nodes, and at least the configured number of nodes, agreed upon. *)
Theorem synced_headers_agreed fuel (s : Service) x hd :
  Z.of_nat (length (nodes s)) < 2 ^ 51 ->
  get_header x (header_chain (sync_headers fuel s).1) = Some hd ->
  get_header x (header_chain s) = Some hd \/
  exists q from n hs, hd ∈ hs /\
    let rs := answers (fun m => get_headers m q from n) (nodes s) in
    (min_full_nodes (config s) <= length rs)%nat /\ (2 * length rs <= 3 * agreeing hs rs)%nat /\
    (0 < agreeing hs rs)%nat.
Proof. intros Hn. apply (ex_headers _ _ _ (sync_extends fuel s Hn)). Qed.

(** A batch the nodes agree upon has a header, and no more than asked for. *)
Definition productive (s : Service) : Prop := forall q from n hs, (1 <= n)%nat ->
  fetch_headers_with_consensus q from n s = Ok hs -> (1 <= length hs <= n)%nat.

Lemma productive_same (s s' : Service) : config s' = config s -> nodes s' = nodes s -> productive s -> productive s'.
Proof.
  intros Ec En Hp q from n hs. unfold fetch_headers_with_consensus, check_node_count.
  rewrite Ec, En. apply Hp.
Qed.

Lemma append_batch_current hs : forall (s : Service) n cur s' n' cur', 0 <= cur ->
  cur + Z.of_nat (length hs) < 2 ^ 64 ->
  append_batch hs s n cur = (s', Ok (n', cur')) -> cur' = cur + Z.of_nat (length hs).
Proof.
  induction hs as [|hd hs IH]; intros s n cur s' n' cur' Hc Hw; cbn [append_batch length] in *.
  { intros [= _ _ <-]. lia. }
  destruct (append hd (header_chain s)); [|done..]. rewrite Nat2Z.inj_succ in *.
  rewrite (wrapping_add_small 64 cur 1) by lia. intros H. apply IH in H; lia.
Qed.

Lemma sync_loop_ends fuel : forall q (s : Service) n cur net, productive s ->
  (1 <= header_batch_size (config s))%nat -> 0 <= cur <= net + 1 -> net < 2 ^ 64 - 1 -> (Z.to_nat (net + 1 - cur) < fuel)%nat ->
  (sync_loop fuel q s n cur net).2 <> Running.
Proof.
  induction fuel as [|fuel IH]; intros q s n cur net Hp Hbs Hc Hw Hf; [lia|]. cbn [sync_loop].
  destruct (Z.ltb_spec net cur); [done|]. cbn zeta.
  destruct (fetch_headers_with_consensus _ _ _ s) as [hs| |] eqn:Hfetch; [|done..].
  apply Hp in Hfetch; [|lia]. pose proof (append_batch_extends (fun _ => True) hs s n cur ltac:(done)) as [A1 A2 _ _].
  destruct (append_batch hs s n cur) as [s' [[n' cur']| |]] eqn:Hb; [|done..]. cbn [fst] in *.
  apply append_batch_current in Hb; [|lia..]. subst cur'.
  apply IH; [by eapply productive_same|by rewrite A1|lia..].
Qed.

(** When every batch the nodes agree upon has a header and no
    more than asked for, and the agreed height is below the last 64-bit number,
    a synchronisation ends: its loop runs at most once per missing header. *)
Theorem sync_terminates (s : Service) :
  (forall q from n hs, (1 <= n)%nat ->
     fetch_headers_with_consensus q from n s = Ok hs -> (1 <= length hs <= n)%nat) ->
  (1 <= header_batch_size (config s))%nat ->
  (forall net, (fetch_network_height 0 s).2 = Ok net -> 0 <= net < 2 ^ 64 - 1) ->
  0 <= chain_height (header_chain s) ->
  exists fuel r, (sync_headers fuel s).2 = Some r.
Proof.
  intros Hp Hbs Hnet Hh. unfold sync_headers. pose proof (fetch_height_same 0 s) as (A1 & A2 & _ & A4).
  destruct (fetch_network_height 0 s) as [s1 [net| |]]; cbn [fst snd] in *; [|exists O; eauto..].
  specialize (Hnet net eq_refl). rewrite A4. cbn zeta.
  destruct (Z.leb_spec net (chain_height (header_chain s))); [exists O; eauto|].
  rewrite wrapping_add_small by lia. exists (S (Z.to_nat net)).
  pose proof (sync_loop_ends (S (Z.to_nat net)) 1 s1 0 (chain_height (header_chain s) + 1) net
    ltac:(by eapply productive_same) ltac:(by rewrite A1) ltac:(lia) ltac:(lia) ltac:(lia)) as Hl.
  destruct (sync_loop _ _ _ _ _ _) as [s2 [n|r|]]; cbn [fst snd] in *; [|eauto|done].
  destruct (verify_checkpoints (header_chain s2)); cbn; eauto.
Qed.

(** The service after a sequence of calls that change it. *)
Inductive served (c : LightClientConfig) (genesis : BlockHeader) : Service -> Prop :=
  | served_new : served c genesis (service_new c genesis)
  | served_add s n : served c genesis s -> served c genesis (add_node n s)
  | served_set s ns : served c genesis s -> served c genesis (set_nodes ns s)
  | served_sync s fuel : served c genesis s -> Z.of_nat (length (nodes s)) < 2 ^ 51 ->
      served c genesis (sync_headers fuel s).1.

(** Nothing fills the cache of proofs: no transaction is ever reported proven. *)
Theorem no_transaction_is_proven c genesis s tx : served c genesis s ->
  get_proven_transaction tx s = Err (TransactionNotFound tx).
Proof.
  intros Hs. assert (proof_cache s = ∅) as E.
  { induction Hs as [|s n _ IH|s ns _ IH|s fuel _ IH Hn]; [done..|].
    by rewrite (ex_cache _ _ _ (sync_extends fuel s Hn)). }
  unfold get_proven_transaction. by rewrite E, lookup_empty.
Qed.

(** When [verify_transaction] answers yes, the block is in the
    chain with at least the required confirmations on top, two thirds of the
    answering nodes gave one proof, its path has at most 32 nodes, and the path
    hashes the transaction up to the Merkle root of the block's header. *)
Theorem verify_transaction_sound (sha256 : list u8 -> Hash) q tx block (s : Service) :
  Z.of_nat (length (nodes s)) < 2 ^ 51 ->
  verify_transaction sha256 q tx block s = Ok true ->
  exists hd proof, get_header block (header_chain s) = Some hd /\
    required_confirmations (config s) <= saturating_sub (chain_height (header_chain s)) (height hd) /\
    agreed s (fun m => get_merkle_proof m q tx block) proof /\
    (length (mp_path proof) <= 32)%nat /\
    foldl (fold_node sha256) tx (mp_path proof) = merkle_root hd.
Proof.
  intros Hn. unfold verify_transaction. destruct (get_header block (header_chain s)) as [hd|]; [|done].
  destruct (fetch_proof_with_consensus q tx block s) as [proof| |] eqn:Hf; [|done..]. cbn [rbind].
  destruct (verify_merkle_proof _ _ _ _) eqn:Hv; cbn [negb]; [|done]. cbn zeta.
  destruct (Z.ltb_spec (saturating_sub (chain_height (header_chain s)) (height hd))
    (required_confirmations (config s))); [done|]. intros _.
  exists hd, proof. split; [done|]. split; [done|]. split.
  - unfold fetch_proof_with_consensus in Hf. destruct (check_node_count s); [|done..].
    by apply consensus_agreed.
  - unfold verify_merkle_proof, MAX_PROOF_DEPTH in Hv.
    destruct (Nat.ltb_spec 32 (length (mp_path proof))); [done|]. split; [done|].
    destruct (mp_path proof); by apply Z.eqb_eq.
Qed.

End Service.

(** ** Concrete nodes *)

Record TestNode := { tn_tip : Z; tn_serve : Z -> nat -> list BlockHeader }.

#[local] Instance TestNode_connection : FullNodeConnection TestNode := {|
  get_headers n _ from count := Ok (tn_serve n from count);
  get_merkle_proof n _ tx block := Ok {| mp_tx_hash := tx; mp_path := []; mp_merkle_root := 0;
    mp_block_hash := block; mp_block_height := 0 |};
  get_chain_tip n _ := Ok (0, tn_tip n) |}.

Definition honest_node : TestNode :=
  {| tn_tip := 2; tn_serve from n := header_at <$> seqZ from (Z.of_nat n) |}.
Definition empty_node : TestNode := {| tn_tip := 2; tn_serve _ _ := [] |}.

Definition client (n : TestNode) : LightClientService TestNode :=
  set_nodes [n; n; n] (service_new config_for_testing genesis0).

Lemma honest_batches q from n hs :
  fetch_headers_with_consensus q from n (client honest_node) = Ok hs -> length hs = n.
Proof.
  intros Hf. apply fetch_headers_agreed in Hf as (_ & _ & Hpos%agreeing_pos); [|by vm_compute].
  cbn in Hpos. assert (hs = header_at <$> seqZ from (Z.of_nat n)) as ->.
  { repeat (apply elem_of_cons in Hpos as [->|Hpos]; [done|]). by apply elem_of_nil in Hpos. }
  rewrite length_fmap, length_seqZ. lia.
Qed.

Lemma sync_terminates_witness : exists fuel r, (sync_headers fuel (client honest_node)).2 = Some r.
Proof.
  apply (sync_terminates (client honest_node)).
  - intros q from n hs Hn Hf. rewrite (honest_batches q from n hs Hf). lia.
  - vm_compute. lia.
  - intros net. assert ((fetch_network_height 0 (client honest_node)).2 = Ok 2) as -> by reflexivity.
    intros [= <-]. lia.
  - cbn. lia.
Defined.

Lemma synced_headers_agreed_witness :
  get_header 102 (header_chain (client honest_node)) = Some (header_at 2) \/
  exists q from n hs, header_at 2 ∈ hs /\
    let rs := answers (fun m => get_headers m q from n) (nodes (client honest_node)) in
    (min_full_nodes (config (client honest_node)) <= length rs)%nat /\
    (2 * length rs <= 3 * agreeing hs rs)%nat /\ (0 < agreeing hs rs)%nat.
Proof.
  apply (synced_headers_agreed 3 (client honest_node) 102 (header_at 2)); by vm_compute.
Defined.

Definition synced_client : LightClientService TestNode := (sync_headers 3 (client honest_node)).1.

(** A transaction whose hash is the Merkle root of its block. *)
Lemma verify_transaction_sound_witness :
  exists hd proof, get_header 101 (header_chain synced_client) = Some hd /\
    required_confirmations (config synced_client) <=
      saturating_sub (chain_height (header_chain synced_client)) (height hd) /\
    agreed synced_client (fun m => get_merkle_proof m 0 0 101) proof /\
    (length (mp_path proof) <= 32)%nat /\
    foldl (fold_node (fun _ => 0)) 0 (mp_path proof) = merkle_root hd.
Proof. apply (verify_transaction_sound (fun _ => 0) 0 0 101 synced_client); by vm_compute. Defined.

(** Nodes that agree on an empty batch keep the loop running for ever. *)
Theorem empty_batches_hang fuel : (sync_headers fuel (client empty_node)).2 = None.
Proof.
  assert (forall fuel q, sync_loop fuel q (with_network_height 2 (client empty_node)) 0 1 2 =
    (with_network_height 2 (client empty_node), Running)) as Hl.
  { clear fuel. induction fuel as [|fuel IH]; intros q; [done|]. cbn [sync_loop].
    change (2 <? 1) with false. cbn zeta iota.
    change (fetch_headers_with_consensus q 1 _ _) with (@Ok LightClientError (list BlockHeader) []).
    cbn [append_batch]. apply IH. }
  unfold sync_headers. change (fetch_network_height 0 (client empty_node))
    with (with_network_height 2 (client empty_node), @Ok LightClientError Z 2).
  cbn zeta iota. change (2 <=? chain_height _) with false. cbn iota.
  change (wrapping_add 64 (chain_height _) 1) with 1. by rewrite Hl.
Qed.

(** A mismatch with a checkpoint is reported once: the wrong headers stay, and
    the next synchronisation finds nothing missing and succeeds. *)
Theorem checkpoint_mismatch_forgotten :
  let s := with_chain (add_checkpoint (hardcoded 1 666) (new genesis0)) (client honest_node) in
  let s1 := (sync_headers 3 s).1 in
  (sync_headers 3 s).2 = Some (Err (CheckpointMismatch 1)) /\
  (sync_headers 3 s1).2 = Some (Ok (sync_success 0 (chain_tip s1))) /\
  synced (sync_headers 3 s1).1 = true /\
  verify_checkpoints (header_chain (sync_headers 3 s1).1) = Err (CheckpointMismatch 1).
Proof. by vm_compute. Qed.

(** The answer of [check_consensus] is the response that at
    least two thirds of the nodes gave, exactly when enough nodes answered and
    there is one; the threshold computed in floating point is exact. *)
Theorem consensus_is_two_thirds {T} `{!EqDecision T} (responses : list T) min_nodes v :
  Z.of_nat (length responses) < 2 ^ 51 ->
  check_consensus responses min_nodes = Ok v <->
  (min_nodes <= length responses)%nat /\ responses <> [] /\
  (2 * length responses <= 3 * length (filter (fun r => r = v) responses))%nat.
Proof. apply check_consensus_iff. Qed.

Definition three_answers : list Z := [7; 8; 7].

Lemma consensus_is_two_thirds_witness :
  check_consensus three_answers 3 = Ok 7 <->
  (3 <= length three_answers)%nat /\ three_answers <> [] /\
  (2 * length three_answers <= 3 * length (filter (fun r => r = 7%Z) three_answers))%nat.
Proof. apply (consensus_is_two_thirds three_answers 3 7). cbn. lia. Defined.
