(* ===== verification/Propagation.v ===== *)
(** * Propagation: gossip of blocks ([qc-05-block-propagation])

    Compact blocks and short identifiers ([domain/entities.rs], [services.rs]),
    the seen-block cache and the per-peer state ([value_objects.rs]), the rules
    of [invariants.rs], the filter of unsolicited blocks ([security.rs]) and the
    service ([service.rs]) with its wire formats.  Instants are milliseconds.
    SipHash, the mempool, the signature verifier, the consensus gateway and the
    network are parameters; what is submitted to consensus is part of the
    result of a handler.  A reputation is an element of an ordered type: the
    service only compares reputations. *)

From S2P Require Import Prelude.

Local Open Scope Z_scope.
Local Open Scope qc_scope.

Abbreviation PeerId := Z (only parsing).
Abbreviation Instant := Z (only parsing).
Abbreviation ShortTxId := (list u8) (only parsing).

(** ** Compact blocks *)

Record PrefilledTx := { pf_index : Z; pf_tx_hash : Hash; pf_tx_data : list u8 }.

Record CompactBlock := {
  header_hash : Hash;
  block_height : u64;
  parent_hash : Hash;
  timestamp : u64;
  short_txids : list ShortTxId;
  prefilled_txs : list PrefilledTx;
  nonce : u64;
}.

Definition compact_new (h : Hash) (ht : u64) (p : Hash) (ts n : u64) : CompactBlock := {|
  header_hash := h; block_height := ht; parent_hash := p; timestamp := ts;
  short_txids := []; prefilled_txs := []; nonce := n |}.
Definition with_short_txids (ids : list ShortTxId) (c : CompactBlock) : CompactBlock := {|
  header_hash := header_hash c; block_height := block_height c; parent_hash := parent_hash c;
  timestamp := timestamp c; short_txids := ids; prefilled_txs := prefilled_txs c;
  nonce := nonce c |}.
Definition with_prefilled_txs (ps : list PrefilledTx) (c : CompactBlock) : CompactBlock := {|
  header_hash := header_hash c; block_height := block_height c; parent_hash := parent_hash c;
  timestamp := timestamp c; short_txids := short_txids c; prefilled_txs := ps;
  nonce := nonce c |}.

(** [i as u16] for an index. *)
Definition as_u16 (i : nat) : Z := Z.of_nat i mod 2 ^ 16.

(** The indices of what was not found, from the index [i] on. *)
Fixpoint missing_from (skip : Z -> bool) (i : nat) (found : list (option Hash)) : list Z :=
  match found with
  | [] => []
  | None :: found =>
      if skip (as_u16 i) then missing_from skip (S i) found
      else as_u16 i :: missing_from skip (S i) found
  | Some _ :: found => missing_from skip (S i) found
  end.

Definition missing_indices (found : list (option Hash)) : list Z :=
  missing_from (fun _ => false) 0 found.

Record CompactBlockParams := {
  cbp_header_hash : Hash;
  cbp_block_height : u64;
  cbp_parent_hash : Hash;
  cbp_timestamp : u64;
  cbp_tx_hashes : list Hash;
  cbp_nonce : u64;
  cbp_prefill_indices : list nat;
}.

Inductive ReconstructionResult :=
  | Success (block_hash : Hash) (tx_hashes : list Hash)
  | MissingTransactions (indices : list Z).

Definition prefilled_at (c : CompactBlock) (i : Z) : option PrefilledTx :=
  List.find (fun p => pf_index p =? i) (prefilled_txs c).

Section ShortIds.
(** [SipHasher13::new_with_keys(nonce, 0)] over the bytes of a hash. *)
Context (sip13 : u64 -> list u8 -> u64).

Definition calculate_short_id (tx_hash : Hash) (nonce : u64) : ShortTxId :=
  take 6 (le_bytes 8 (sip13 nonce (hash_bytes tx_hash))).

Definition create_compact_block (p : CompactBlockParams) : CompactBlock :=
  let ids := (fun h => calculate_short_id h (cbp_nonce p)) <$> cbp_tx_hashes p in
  let prefilled := omap (fun i =>
    h ← cbp_tx_hashes p !! i;
    Some {| pf_index := as_u16 i; pf_tx_hash := h; pf_tx_data := [] |}) (cbp_prefill_indices p) in
  with_prefilled_txs prefilled (with_short_txids ids
    (compact_new (cbp_header_hash p) (cbp_block_height p) (cbp_parent_hash p)
       (cbp_timestamp p) (cbp_nonce p))).
End ShortIds.

(** Reconstruction with what the mempool has under the short identifiers. *)
Definition reconstruct_block (c : CompactBlock)
    (mempool_lookup : list ShortTxId -> u64 -> list (option Hash)) : ReconstructionResult :=
  let found := mempool_lookup (short_txids c) (nonce c) in
  let missing :=
    missing_from (fun i => existsb (fun p => pf_index p =? i) (prefilled_txs c)) 0 found in
  match missing with
  | [] => Success (header_hash c)
      (imap (fun i o =>
         match prefilled_at c (as_u16 i) with
         | Some p => pf_tx_hash p
         | None => default 0 o
         end) found)
  | _ => MissingTransactions missing
  end.

(** ** Configuration and peers *)

Inductive PropagationState :=
  | Announced | CompactReceived | Reconstructing | Complete | Validated | Invalid.

#[export] Instance PropagationState_eq_dec : EqDecision PropagationState.
Proof. solve_decision. Defined.

Record PropagationConfig := {
  fanout : nat;
  max_announcements_per_second : Z;
  max_block_size_bytes : Z;
  seen_cache_size : nat;
  reconstruction_timeout_ms : u64;
  request_timeout_ms : u64;
  enable_compact_blocks : bool;
}.

Definition propagation_default : PropagationConfig := {|
  fanout := 8; max_announcements_per_second := 1; max_block_size_bytes := 10 * 1024 * 1024;
  seen_cache_size := 10000; reconstruction_timeout_ms := 5000; request_timeout_ms := 10000;
  enable_compact_blocks := true |}.

(** Scores that can be compared, and the score of a new peer. *)
Class Reputation (F : Type) : Type := {
  rep_initial : F;
  rep_le : relation F;
  rep_le_dec : RelDecision rep_le;
}.
#[export] Existing Instance rep_le_dec.

Class ReputationLaws (F : Type) `{Reputation F} : Prop := {
  rep_le_trans : Transitive rep_le;
  rep_le_total : Total rep_le;
}.
#[export] Existing Instances rep_le_trans rep_le_total.

Record PeerPropagationState {F : Type} := {
  peer_id : PeerId;
  last_announcement : Instant;
  announcement_count : Z;
  window_start : Instant;
  latency_ms : u64;
  reputation : F;
  rate_violations : Z;
  blocks_received : u64;
  invalid_blocks : u64;
}.
Arguments PeerPropagationState : clear implicits.

Section Peers.
Context {F : Type} `{!Reputation F}.
Abbreviation Peer := (PeerPropagationState F).

Definition peer_state_new (id : PeerId) (now : Instant) : Peer := {|
  peer_id := id; last_announcement := now; announcement_count := 0; window_start := now;
  latency_ms := 100; reputation := rep_initial; rate_violations := 0; blocks_received := 0;
  invalid_blocks := 0 |}.

Definition set_window (p : Peer) (start : Instant) (count : Z) (last : Instant) : Peer := {|
  peer_id := peer_id p; last_announcement := last; announcement_count := count;
  window_start := start; latency_ms := latency_ms p; reputation := reputation p;
  rate_violations := rate_violations p; blocks_received := blocks_received p;
  invalid_blocks := invalid_blocks p |}.

(** The window starts anew when a whole second has passed. *)
Definition record_announcement (now : Instant) (p : Peer) : Peer :=
  if 1 <=? (now - window_start p) / 1000
  then set_window p now (wrapping_add 32 0 1) now
  else set_window p (window_start p) (wrapping_add 32 (announcement_count p) 1) now.

Definition reset_rate_limit (now : Instant) (p : Peer) : Peer :=
  set_window p now 0 (last_announcement p).

Definition check_rate_limit (p : Peer) (c : PropagationConfig) : bool :=
  announcement_count p <? max_announcements_per_second c.

(** [b.reputation.total_cmp(&a.reputation)]: the best first. *)
Definition better (p q : Peer) : Prop := rep_le (reputation q) (reputation p).

#[export] Instance better_dec p q : Decision (better p q).
Proof. unfold better. apply _. Defined.

Definition select_peers_for_propagation (peers : list Peer) (fan : nat) : list Peer :=
  take fan (stable_sort better peers).

Definition validate_block_size (size : Z) (c : PropagationConfig) : bool :=
  size <=? max_block_size_bytes c.

End Peers.

(** ** The seen-block cache *)

Module SeenBlockCache.

Record SeenBlockInfo := {
  first_seen : Instant;
  first_peer : option PeerId;
  propagation_state : PropagationState;
}.

Record SeenBlockCache := {
  cache : gmap Hash SeenBlockInfo;
  max_size : nat;
  insertion_order : list Hash;
}.

Definition new (n : nat) : SeenBlockCache :=
  {| cache := ∅; max_size := n; insertion_order := [] |}.

Definition has_seen (h : Hash) (s : SeenBlockCache) : bool := bool_decide (is_Some (cache s !! h)).

Definition mark_seen (h : Hash) (peer : option PeerId) (now : Instant) (s : SeenBlockCache)
  : SeenBlockCache :=
  let '(c, order) :=
    if (max_size s <=? size (cache s))%nat && negb (has_seen h s) then
      match insertion_order s with
      | oldest :: order => (delete oldest (cache s), order)
      | [] => (cache s, [])
      end
    else (cache s, insertion_order s) in
  match c !! h with
  | Some _ => {| cache := c; max_size := max_size s; insertion_order := order |}
  | None => {|
      cache := <[h := {| first_seen := now; first_peer := peer;
                         propagation_state := Announced |}]> c;
      max_size := max_size s;
      insertion_order := order ++ [h] |}
  end.

Definition update_state (h : Hash) (st : PropagationState) (s : SeenBlockCache) : SeenBlockCache := {|
  cache := alter (fun i => {| first_seen := first_seen i; first_peer := first_peer i;
                              propagation_state := st |}) h (cache s);
  max_size := max_size s;
  insertion_order := insertion_order s |}.

Definition get_state (h : Hash) (s : SeenBlockCache) : option PropagationState :=
  propagation_state <$> cache s !! h.

Definition can_process (h : Hash) (s : SeenBlockCache) : bool :=
  match get_state h s with
  | Some (Complete | Validated | Invalid) => false
  | _ => true
  end.

Definition len (s : SeenBlockCache) : nat := size (cache s).

End SeenBlockCache.

Abbreviation SeenBlockCache := SeenBlockCache.SeenBlockCache.

(** ** Rules *)

Inductive InvariantViolation := VDuplicateBlock | VRateLimitExceeded | VBlockTooLarge.

Definition invariant_no_duplicate_processing (s : SeenBlockCache) (h : Hash) : bool :=
  match SeenBlockCache.get_state h s with
  | Some (Complete | Validated) => false
  | _ => true
  end.

Definition check_all_invariants {F} (s : SeenBlockCache) (h : Hash) (block_size : Z)
    (p : PeerPropagationState F) (c : PropagationConfig) : result InvariantViolation unit :=
  if negb (invariant_no_duplicate_processing s h) then Err VDuplicateBlock
  else if negb (check_rate_limit p c) then Err VRateLimitExceeded
  else if negb (validate_block_size block_size c) then Err VBlockTooLarge
  else Ok tt.

(** ** Requests and unsolicited blocks *)

Module UnsolicitedBlockFilter.

Record PendingRequest := { pr_block_hash : Hash; requested_at : Instant; pr_nonce : u64 }.

Record t := { pending : gmap u64 PendingRequest; timeout : Z; next_nonce : u64 }.

Inductive BlockFilterResult := Allowed (nonce : u64) | PossibleAnnouncement | Spam.

Definition new (timeout : Z) : t := {| pending := ∅; timeout := timeout; next_nonce := 0 |}.

Definition register_request (h : Hash) (now : Instant) (f : t) : t * u64 :=
  let nonce := next_nonce f in
  ({| pending := <[nonce := {| pr_block_hash := h; requested_at := now; pr_nonce := nonce |}]>
        (pending f);
      timeout := timeout f; next_nonce := wrapping_add 64 nonce 1 |}, nonce).

Definition clean_expired (now : Instant) (f : t) : t := {|
  pending := filter (fun nr => now - requested_at nr.2 < timeout f) (pending f);
  timeout := timeout f; next_nonce := next_nonce f |}.

(** The map is searched in the order of its iteration. *)
Definition check_block (h : Hash) (seen_before : bool) (now : Instant) (f : t)
  : t * BlockFilterResult :=
  let f := clean_expired now f in
  (f, match List.find (fun nr => pr_block_hash nr.2 =? h) (map_to_list (pending f)) with
      | Some nr => Allowed nr.1
      | None => if seen_before then Spam else PossibleAnnouncement
      end).

Definition complete_request (nonce : u64) (f : t) : t := {|
  pending := delete nonce (pending f); timeout := timeout f; next_nonce := next_nonce f |}.

End UnsolicitedBlockFilter.

(** ** Wire formats *)

Inductive PropagationError :=
  | DuplicateBlock (h : Hash)
  | BlockTooLarge (size max : Z)
  | RateLimited (peer : PeerId)
  | UnknownPeer (peer : PeerId)
  | ReconstructionFailed
  | Timeout (h : Hash)
  | UnauthorizedSender
  | InvalidSignature
  | NetworkError
  | IpcSecurityError
  | InternalError
  | MalformedCompactBlock (expected actual : nat)
  | BlockDataTooShort (expected actual : nat).

(** [data[a..b]], for [b] within the data. *)
Definition slice (a b : nat) (data : list u8) : list u8 := take (b - a) (drop a data).

Definition serialize_compact_block (c : CompactBlock) : list u8 :=
  hash_bytes (header_hash c) ++ le_bytes 8 (nonce c) ++
  le_bytes 2 (as_u16 (length (short_txids c))) ++
  concat (short_txids c) ++ replicate 33 0 ++ replicate 64 0.

Definition extract_block_hash (data : list u8) : result PropagationError Hash :=
  if (length data <? 32)%nat then Err (BlockDataTooShort 32 (length data))
  else Ok (from_be_bytes (slice 0 32 data)).

Definition extract_block_signature (data : list u8)
  : result PropagationError (list u8 * list u8) :=
  if (length data <? 145)%nat then Err (BlockDataTooShort 145 (length data))
  else Ok (slice 48 81 data, slice 81 145 data).

(** At most [count] identifiers of six bytes, and what is left. *)
Fixpoint parse_ids (count : nat) (data : list u8) : list ShortTxId * list u8 :=
  match count with
  | O => ([], data)
  | S count =>
      if (length data <? 6)%nat then ([], data)
      else let '(ids, rest) := parse_ids count (drop 6 data) in (take 6 data :: ids, rest)
  end.

(** The next [n] bytes, or zeros; the offset moves on either way. *)
Definition field (n : nat) (data : list u8) : list u8 :=
  if (n <=? length data)%nat then take n data else replicate n 0.

Definition parse_compact_block (data : list u8)
  : result PropagationError (list ShortTxId * u64 * list u8 * list u8) :=
  if (length data <? 48)%nat then Err (MalformedCompactBlock 48 (length data))
  else
    let nonce := from_le_bytes (slice 32 40 data) in
    let count := Z.to_nat (from_le_bytes (slice 40 42 data)) in
    let '(short_ids, rest) := parse_ids count (drop 42 data) in
    let proposer_pubkey := field 33 rest in
    let signature := field 64 (drop 33 rest) in
    Ok (short_ids, nonce, proposer_pubkey, signature).

(** ** The service *)

Record PeerInfo {F : Type} := {
  pi_peer_id : PeerId;
  pi_reputation : F;
  pi_latency_ms : u64;
  is_connected : bool;
}.
Arguments PeerInfo : clear implicits.

Inductive NetworkMessage :=
  | Announce (h : Hash) (height : u64) (parent : Hash)
  | CompactBlockMsg (data : list u8)
  | GetBlock (h : Hash) (request_id : u64)
  | BlockMsg (request_id : u64) (data : option (list u8))
  | GetBlockTxn (h : Hash) (indices : list Z)
  | BlockTxn (h : Hash) (txs : list (list u8)).

Record PropagationStats := { ps_block_hash : Hash; peers_reached : nat }.

Record Service {F : Type} := {
  config : PropagationConfig;
  seen_cache : SeenBlockCache;
  peer_states : list (PeerPropagationState F);
  blocks_propagated : u64;
}.
Arguments Service : clear implicits.

(** A block handed to consensus: hash, data, source. *)
Abbreviation Submission := (Hash * list u8 * PeerId)%type.

Section Service.
Context {F : Type} `{!Reputation F}.
Context (sip13 : u64 -> list u8 -> u64)
  (get_transactions_by_short_ids : list ShortTxId -> u64 -> list (option Hash))
  (verify_block_signature : Hash -> list u8 -> list u8 -> result PropagationError bool)
  (submit_block_for_validation : Hash -> list u8 -> PeerId -> result PropagationError unit).
Abbreviation S := (Service F).
Abbreviation Peer := (PeerPropagationState F).

Definition service_new (c : PropagationConfig) : S := {|
  config := c; seen_cache := SeenBlockCache.new (seen_cache_size c); peer_states := [];
  blocks_propagated := 0 |}.

Definition set_cache (s : S) (c : SeenBlockCache) : S := {|
  config := config s; seen_cache := c; peer_states := peer_states s;
  blocks_propagated := blocks_propagated s |}.
Definition set_peers (s : S) (ps : list Peer) : S := {|
  config := config s; seen_cache := seen_cache s; peer_states := ps;
  blocks_propagated := blocks_propagated s |}.
Definition count_propagated (s : S) : S := {|
  config := config s; seen_cache := seen_cache s; peer_states := peer_states s;
  blocks_propagated := wrapping_add 64 (blocks_propagated s) 1 |}.

Definition set_reported (p : Peer) (i : PeerInfo F) : Peer := {|
  peer_id := peer_id p; last_announcement := last_announcement p;
  announcement_count := announcement_count p; window_start := window_start p;
  latency_ms := pi_latency_ms i; reputation := pi_reputation i;
  rate_violations := rate_violations p; blocks_received := blocks_received p;
  invalid_blocks := invalid_blocks p |}.

Definition refresh_peers (connected : list (PeerInfo F)) (now : Instant) (s : S) : S :=
  set_peers s (foldl (fun states i =>
    if existsb (fun p => peer_id p =? pi_peer_id i) states then states
    else states ++ [set_reported (peer_state_new (pi_peer_id i) now) i]) (peer_states s) connected).

Definition find_peer_state (id : PeerId) (s : S) : option Peer :=
  List.find (fun p => peer_id p =? id) (peer_states s).

(** The first state of the peer is changed. *)
Fixpoint update_first (id : PeerId) (f : Peer -> Peer) (states : list Peer) : list Peer :=
  match states with
  | [] => []
  | p :: states => if peer_id p =? id then f p :: states else p :: update_first id f states
  end.
Definition update_peer_state (id : PeerId) (f : Peer -> Peer) (s : S) : S :=
  set_peers s (update_first id f (peer_states s)).

Definition mark_seen (h : Hash) (p : option PeerId) (now : Instant) (s : S) : S :=
  set_cache s (SeenBlockCache.mark_seen h p now (seen_cache s)).
Definition update_state (h : Hash) (st : PropagationState) (s : S) : S :=
  set_cache s (SeenBlockCache.update_state h st (seen_cache s)).

Definition validate_sender (id : PeerId) (s : S) : result PropagationError Peer :=
  match find_peer_state id s with
  | None => Err (UnknownPeer id)
  | Some p => if negb (check_rate_limit p (config s)) then Err (RateLimited id) else Ok p
  end.

Definition validate_block_preliminaries (data : list u8) (p : Peer) (s : S)
  : result PropagationError Hash :=
  let size := Z.of_nat (length data) in
  let max := max_block_size_bytes (config s) in
  if max <? size then Err (BlockTooLarge size max)
  else
    let? h := extract_block_hash data in
    match check_all_invariants (seen_cache s) h size p (config s) with
    | Ok _ => Ok h
    | Err VDuplicateBlock => Err (DuplicateBlock h)
    | Err VRateLimitExceeded => Err (RateLimited (peer_id p))
    | Err VBlockTooLarge => Err (BlockTooLarge size max)
    | Panic => Panic
    end.

Definition record_from (id : PeerId) (now : Instant) (s : S) : S :=
  update_peer_state id (record_announcement now) s.

Definition validate_and_register_compact_block (id : PeerId) (data : list u8) (now : Instant)
    (s : S) : S * result PropagationError Hash :=
  match validate_sender id s with
  | Ok p =>
      match validate_block_preliminaries data p s with
      | Ok h =>
          let s := record_from id now s in
          let s := mark_seen h (Some id) now s in
          (update_state h CompactReceived s, Ok h)
      | Err e => (s, Err e)
      | Panic => (s, Panic)
      end
  | Err e => (s, Err e)
  | Panic => (s, Panic)
  end.

(** The service's own [reconstruct_block] returns the compact data. *)
Definition reconstruct_and_verify (h : Hash) (data : list u8) (s : S)
  : S * result PropagationError (option (list u8)) :=
  match parse_compact_block data with
  | Ok (short_ids, nonce, proposer_pubkey, signature) =>
      let tx_hashes := get_transactions_by_short_ids short_ids nonce in
      match missing_indices tx_hashes with
      | _ :: _ => (update_state h Reconstructing s, Ok None)
      | [] =>
          match verify_block_signature h proposer_pubkey signature with
          | Ok true => (s, Ok (Some data))
          | Ok false => (update_state h Invalid s, Ok None)
          | Err e => (s, Err e)
          | Panic => (s, Panic)
          end
      end
  | Err e => (s, Err e)
  | Panic => (s, Panic)
  end.

Definition handle_announcement (id : PeerId) (h : Hash) (now : Instant) (s : S)
  : S * list Submission * result PropagationError unit :=
  match validate_sender id s with
  | Ok _ =>
      if SeenBlockCache.has_seen h (seen_cache s) then (s, [], Err (DuplicateBlock h))
      else
        let s := record_from id now s in
        let s := mark_seen h (Some id) now s in
        (update_state h Announced s, [], Ok tt)
  | Err e => (s, [], Err e)
  | Panic => (s, [], Panic)
  end.

Definition complete_and_submit (h : Hash) (data : list u8) (id : PeerId) (s : S)
  : S * list Submission * result PropagationError unit :=
  (update_state h Complete s, [(h, data, id)], submit_block_for_validation h data id).

Definition handle_compact_block (id : PeerId) (data : list u8) (now : Instant) (s : S)
  : S * list Submission * result PropagationError unit :=
  match validate_and_register_compact_block id data now s with
  | (s, Ok h) =>
      match reconstruct_and_verify h data s with
      | (s, Ok (Some reconstructed)) => complete_and_submit h reconstructed id s
      | (s, Ok None) => (s, [], Ok tt)
      | (s, Err e) => (s, [], Err e)
      | (s, Panic) => (s, [], Panic)
      end
  | (s, Err e) => (s, [], Err e)
  | (s, Panic) => (s, [], Panic)
  end.

(** The checks of [handle_full_block], which only read the state. *)
Definition check_full_block (id : PeerId) (data : list u8) (s : S) : result PropagationError Hash :=
  let? p := validate_sender id s in validate_block_preliminaries data p s.

(** What it does once they have passed. *)
Definition accept_full_block (id : PeerId) (data : list u8) (h : Hash) (now : Instant) (s : S)
  : S * list Submission * result PropagationError unit :=
  let s := record_from id now s in
  let s := mark_seen h (Some id) now s in
  match extract_block_signature data with
  | Ok (proposer_pubkey, signature) =>
      match verify_block_signature h proposer_pubkey signature with
      | Ok true => complete_and_submit h data id s
      | Ok false => (update_state h Invalid s, [], Ok tt)
      | Err e => (s, [], Err e)
      | Panic => (s, [], Panic)
      end
  | Err e => (s, [], Err e)
  | Panic => (s, [], Panic)
  end.

Definition handle_full_block (id : PeerId) (data : list u8) (now : Instant) (s : S)
  : S * list Submission * result PropagationError unit :=
  match check_full_block id data s with
  | Ok h => accept_full_block id data h now s
  | Err e => (s, [], Err e)
  | Panic => (s, [], Panic)
  end.

(** [connected] is what the network reports, [broadcast] its answers, [n] the
    random nonce. *)
Definition propagate_block (h : Hash) (data : list u8) (tx_hashes : list Hash)
    (connected : list (PeerInfo F))
    (broadcast : list PeerId -> NetworkMessage -> list (result PropagationError unit))
    (n : u64) (now : Instant) (s : S)
  : S * list (list PeerId * NetworkMessage) * result PropagationError PropagationStats :=
  let size := Z.of_nat (length data) in
  if negb (validate_block_size size (config s))
  then (s, [], Err (BlockTooLarge size (max_block_size_bytes (config s))))
  else if SeenBlockCache.has_seen h (seen_cache s) then (s, [], Err (DuplicateBlock h))
  else
    let s := mark_seen h None now s in
    let s := refresh_peers connected now s in
    let selected := select_peers_for_propagation (peer_states s) (fanout (config s)) in
    let peer_ids := peer_id <$> selected in
    let message :=
      if enable_compact_blocks (config s) then
        CompactBlockMsg (serialize_compact_block (create_compact_block sip13 {|
          cbp_header_hash := h; cbp_block_height := 0; cbp_parent_hash := 0;
          cbp_timestamp := now; cbp_tx_hashes := tx_hashes; cbp_nonce := n;
          cbp_prefill_indices := [0%nat] |}))
      else BlockMsg 0 (Some data) in
    let reached := length (filter (fun r => is_ok r = true) (broadcast peer_ids message)) in
    let s := count_propagated (update_state h Complete s) in
    (s, [(peer_ids, message)], Ok {| ps_block_hash := h; peers_reached := reached |}).

End Service.
