(* ===== verification/PropagationProps.v ===== *)
(** * PropagationProps: what block propagation guarantees

    The wire format and compact blocks round-trip; the seen-block cache stays
    bounded and consistent; what is submitted to consensus was verified, and
    is not submitted again while the cache remembers it; a request is answered
    exactly while it is pending; and where the handlers fall short: a peer
    that reaches its rate limit never leaves it, compact blocks travel with an
    empty signature, and any data that starts with a hash suppresses the block
    of that hash. *)

From S2P Require Import Prelude Propagation.

Local Open Scope Z_scope.

(** ** Wire formats *)

Lemma length_ids (ids : list (list Z)) : Forall (fun i => length i = 6%nat) ids ->
  length (concat ids) = (6 * length ids)%nat.
Proof. induction 1; cbn; rewrite ?length_app; lia. Qed.

Lemma parse_ids_concat ids : forall rest, Forall (fun i => length i = 6%nat) ids ->
  parse_ids (length ids) (concat ids ++ rest) = (ids, rest).
Proof.
  induction ids as [|i ids IH]; intros rest Hids; [done|].
  apply Forall_cons in Hids as [Hi Hids]. cbn [length concat parse_ids]. rewrite <- app_assoc.
  destruct (Nat.ltb_spec (length (i ++ concat ids ++ rest)) 6) as [Hlt|_].
  { rewrite length_app in Hlt. lia. }
  rewrite <- Hi, drop_app_length, take_app_length, IH by done. done.
Qed.

Lemma slice_app a b (l1 l2 l3 : list Z) : length l1 = a -> length l2 = (b - a)%nat ->
  slice a b (l1 ++ l2 ++ l3) = l2.
Proof. intros <- Hl. unfold slice. by rewrite drop_app_length, <- Hl, take_app_length. Qed.

Definition block_in_range (c : CompactBlock) : Prop :=
  in_width 256 (header_hash c) /\ in_width 64 (nonce c) /\
  Forall (fun i => length i = 6%nat) (short_txids c) /\ (length (short_txids c) < Z.to_nat (2 ^ 16))%nat.

Lemma extract_serialized c : in_width 256 (header_hash c) ->
  extract_block_hash (serialize_compact_block c) = Ok (header_hash c).
Proof.
  intros Hh. unfold extract_block_hash, serialize_compact_block.
  destruct (Nat.ltb_spec (length (hash_bytes (header_hash c) ++ le_bytes 8 (nonce c) ++
    le_bytes 2 (as_u16 (length (short_txids c))) ++ concat (short_txids c) ++
    replicate 33 0 ++ replicate 64 0)) 32) as [Hlt|_].
  { rewrite length_app, length_be_bytes in Hlt. lia. }
  unfold slice. rewrite drop_0, Nat.sub_0_r, take_app_length' by (by rewrite length_be_bytes).
  by rewrite from_be_bytes_to by (unfold in_width in Hh; change (256 ^ Z.of_nat 32) with (2 ^ 256); lia).
Qed.

Lemma parse_serialized c : block_in_range c ->
  parse_compact_block (serialize_compact_block c) =
    Ok (short_txids c, nonce c, replicate 33 0, replicate 64 0).
Proof.
  intros (Hh & Hn & Hids & Hlen).
  pose proof (length_ids _ Hids) as Hc. unfold parse_compact_block, serialize_compact_block.
  set (ids := concat (short_txids c)) in *. set (cnt := le_bytes 2 _).
  assert (length cnt = 2%nat) as Hcnt by apply length_le_bytes.
  set (data := hash_bytes (header_hash c) ++ le_bytes 8 (nonce c) ++ cnt ++ ids ++ replicate 33 0 ++ replicate 64 0).
  destruct (Nat.ltb_spec (length data) 48) as [Hlt|_].
  { unfold data in Hlt. rewrite !length_app, length_be_bytes, length_le_bytes, !length_replicate in Hlt. lia. }
  assert (slice 32 40 data = le_bytes 8 (nonce c)) as ->
    by (apply slice_app; [apply length_be_bytes|apply length_le_bytes]).
  assert (slice 40 42 data = cnt) as ->.
  { unfold data. rewrite app_assoc. apply slice_app; [|done].
    by rewrite length_app, length_be_bytes, length_le_bytes. }
  assert (drop 42 data = ids ++ replicate 33 0 ++ replicate 64 0) as ->.
  { unfold data. rewrite !app_assoc, <- (app_assoc _ ids), <- app_assoc.
    apply drop_app_length'. by rewrite !length_app, length_be_bytes, length_le_bytes, Hcnt. }
  rewrite from_le_bytes_to by (change (256 ^ Z.of_nat 8) with (2 ^ 64); done).
  unfold cnt. rewrite from_le_bytes_to
    by (unfold as_u16; change (256 ^ Z.of_nat 2) with (2 ^ 16); apply Z.mod_pos_bound; lia).
  unfold as_u16. rewrite Z.mod_small, Nat2Z.id by lia.
  unfold ids. rewrite parse_ids_concat by done. unfold field.
  rewrite !length_app, !length_replicate. cbn [Nat.leb Nat.add].
  rewrite take_app_length', drop_app_length' by (by rewrite length_replicate).
  rewrite length_replicate. cbn [Nat.leb]. by rewrite firstn_all2 by (by rewrite length_replicate).
Qed.

(** A compact block of fewer than [2^16] transactions is parsed
    back from its wire format: its hash, its nonce and its short identifiers.
    The proposer key and the signature that are read back are zeros, because
    that is what is written. *)
Theorem compact_wire_roundtrip c : block_in_range c ->
  extract_block_hash (serialize_compact_block c) = Ok (header_hash c) /\
  parse_compact_block (serialize_compact_block c) =
    Ok (short_txids c, nonce c, replicate 33 0, replicate 64 0).
Proof. intros Hc. split; [apply extract_serialized, Hc|by apply parse_serialized]. Qed.

(** Nothing is missing exactly when everything was found. *)
Lemma missing_none_from l : forall i, missing_from (fun _ => false) i l = [] -> Forall is_Some l.
Proof.
  induction l as [|[h|] l IH]; intros i Hm; [constructor| |done]. constructor; [eauto|].
  by apply (IH (S i)).
Qed.

Lemma missing_none l : missing_indices l = [] -> Forall is_Some l.
Proof. apply missing_none_from. Qed.

(** ** The seen-block cache *)

Import SeenBlockCache.

Record cache_ok (s : SeenBlockCache) : Prop := {
  co_nodup : NoDup (insertion_order s);
  co_keys : forall h, h ∈ insertion_order s <-> is_Some (cache s !! h);
  co_bound : (size (cache s) <= max 1 (max_size s))%nat;
}.

Lemma new_cache_ok n : cache_ok (new n).
Proof.
  split; cbn; [constructor| |rewrite map_size_empty; lia].
  intros h. rewrite lookup_empty. split; [by intros ?%elem_of_nil|by intros []].
Qed.

Lemma keys_length {V} (l : list Z) (m : gmap Z V) : NoDup l ->
  (forall h, h ∈ l <-> is_Some (m !! h)) -> length l = size m.
Proof.
  intros Hn Hk. rewrite <- size_dom. rewrite <- (size_list_to_set (C := gset Z)) by done. f_equal.
  apply set_eq. intros h. rewrite elem_of_list_to_set, elem_of_dom. apply Hk.
Qed.

Lemma order_length s : cache_ok s -> length (insertion_order s) = size (cache s).
Proof. intros [Hn Hk _]. by apply keys_length. Qed.

(** What [mark_seen] does: nothing to a hash it knows; else it drops the oldest
    when the cache is full, and adds the hash as the newest. *)
Lemma mark_seen_spec h p now s : cache_ok s ->
  (is_Some (cache s !! h) /\ SeenBlockCache.mark_seen h p now s = s) \/
  (cache s !! h = None /\ exists order,
     (order = insertion_order s /\ (size (cache s) < max_size s)%nat \/
      order = drop 1 (insertion_order s) /\ (max_size s <= size (cache s))%nat) /\
     insertion_order (SeenBlockCache.mark_seen h p now s) = order ++ [h] /\
     cache (SeenBlockCache.mark_seen h p now s) !! h =
       Some {| first_seen := now; first_peer := p; propagation_state := Announced |} /\
     (forall g, g <> h -> cache (SeenBlockCache.mark_seen h p now s) !! g =
       if decide (g ∈ order) then cache s !! g else None) /\
     max_size (SeenBlockCache.mark_seen h p now s) = max_size s).
Proof.
  intros Hok. pose proof Hok as [Hn Hk Hb]. unfold SeenBlockCache.mark_seen, has_seen.
  destruct (cache s !! h) as [i|] eqn:Hh.
  { left. split; [eauto|]. rewrite bool_decide_eq_true_2 by eauto. cbn [negb].
    rewrite andb_false_r, Hh. by destruct s. }
  right. split; [done|]. rewrite bool_decide_eq_false_2 by (by intros []). cbn [negb].
  rewrite andb_true_r. destruct (Nat.leb_spec (max_size s) (size (cache s))) as [Hfull|Hroom].
  - assert (forall g, g ∉ insertion_order s -> cache s !! g = None) as Hnone.
    { intros g Hg. apply eq_None_not_Some. by rewrite <- Hk. }
    destruct (insertion_order s) as [|o order] eqn:Ho; cbn [drop].
    + exists []. rewrite Hh. cbn. split; [by right|]. split; [done|].
      split; [apply lookup_insert_eq|]. split; [|done]. intros g Hg.
      rewrite lookup_insert_ne by done. rewrite decide_False by apply not_elem_of_nil. apply Hnone, not_elem_of_nil.
    + exists order. apply NoDup_cons in Hn as [Hno Hn].
      assert (o <> h) by (intros ->; assert (is_Some (cache s !! h)) as [] by (apply Hk; left); congruence).
      rewrite lookup_delete_ne, Hh by done. cbn. split; [by right|]. split; [done|].
      split; [apply lookup_insert_eq|]. split; [|done]. intros g Hg. rewrite lookup_insert_ne by done.
      destruct (decide (g = o)) as [->|Hgo].
      * rewrite lookup_delete_eq, decide_False; done.
      * rewrite lookup_delete_ne by done. case_decide as Hin; [done|]. apply Hnone.
        rewrite not_elem_of_cons. done.
  - exists (insertion_order s). rewrite Hh. cbn. split; [by left|]. split; [done|].
    split; [apply lookup_insert_eq|]. split; [|done]. intros g Hg. rewrite lookup_insert_ne by done.
    case_decide as Hin; [done|]. apply eq_None_not_Some. by rewrite <- Hk.
Qed.

Lemma mark_seen_ok h p now s : cache_ok s -> cache_ok (SeenBlockCache.mark_seen h p now s).
Proof.
  intros Hok. destruct (mark_seen_spec h p now s Hok) as [[_ ->]|(Hh & order & Ho & E1 & E2 & E3 & E4)]; [done|].
  pose proof Hok as [Hn Hk Hb]. pose proof (order_length s Hok) as Hlen.
  assert (order ⊆+ insertion_order s) as Hsub
    by (destruct Ho as [[-> _]|[-> _]]; [done|apply sublist_submseteq, sublist_drop]).
  assert (h ∉ order) as Hno.
  { intros Hin. apply (elem_of_submseteq _ _ _ Hin) in Hsub. rewrite Hk, Hh in Hsub. by destruct Hsub. }
  assert (NoDup order) as Hnd by (destruct Ho as [[-> _]|[-> _]]; [done|];
    rewrite <- (take_drop 1 (insertion_order s)) in Hn; by apply NoDup_app in Hn as (_ & _ & ?)).
  assert (NoDup (order ++ [h])) as Hnd'.
  { apply NoDup_app. split; [done|]. split; [|apply NoDup_singleton].
    by intros g Hg ->%list_elem_of_singleton. }
  assert (forall g, g ∈ order ++ [h] <-> is_Some (cache (SeenBlockCache.mark_seen h p now s) !! g)) as Hkeys.
  { intros g. rewrite elem_of_app, list_elem_of_singleton. destruct (decide (g = h)) as [->|Hg].
    - rewrite E2. split; [eauto|by right].
    - rewrite E3 by done. case_decide as Hin.
      + split; [intros _; apply Hk; by eapply elem_of_submseteq|by left].
      + split; [by intros [|]|by intros []]. }
  split; rewrite ?E1, ?E4; [done|done|].
  rewrite <- (keys_length _ _ Hnd' Hkeys), length_app. cbn.
  destruct Ho as [[-> Hs]|[-> Hs]]; rewrite ?length_drop; lia.
Qed.

Lemma update_state_ok h st s : cache_ok s -> cache_ok (SeenBlockCache.update_state h st s).
Proof.
  intros [Hn Hk Hb]. split; cbn; [done| |].
  - intros g. rewrite Hk, lookup_alter_is_Some. done.
  - rewrite <- size_dom, dom_alter_L, size_dom. done.
Qed.

(** ** Calls of the service *)

Section Calls.
Context {F : Type} `{!Reputation F}.
Context (sip13 : u64 -> list u8 -> u64)
  (lookup_ids : list (list u8) -> u64 -> list (option Hash))
  (verify : Hash -> list u8 -> list u8 -> result PropagationError bool)
  (submit : Hash -> list u8 -> Z -> result PropagationError unit).
Abbreviation Srv := (Service F).

Inductive call :=
  | CallAnnouncement (id : Z) (h : Hash)
  | CallCompact (id : Z) (data : list u8)
  | CallFull (id : Z) (data : list u8)
  | CallPropagate (h : Hash) (data : list u8) (txs : list Hash) (connected : list (PeerInfo F))
      (broadcast : list Z -> NetworkMessage -> list (result PropagationError unit)) (n : u64)
  | CallRefresh (connected : list (PeerInfo F)).

(** The state after a call and what it submitted to consensus. *)
Definition serve (s : Srv) (now : Z) (c : call) : Srv * list Submission :=
  match c with
  | CallAnnouncement id h => (handle_announcement id h now s).1
  | CallCompact id data => (handle_compact_block lookup_ids verify submit id data now s).1
  | CallFull id data => (handle_full_block verify submit id data now s).1
  | CallPropagate h data txs connected broadcast n =>
      ((propagate_block sip13 h data txs connected broadcast n now s).1.1, [])
  | CallRefresh connected => (refresh_peers connected now s, [])
  end.

Fixpoint run (s : Srv) (calls : list (Z * call)) : Srv * list Submission :=
  match calls with
  | [] => (s, [])
  | (now, c) :: calls =>
      let '(s, out) := serve s now c in
      let '(s, outs) := run s calls in (s, out ++ outs)
  end.

(** The effect of a handler: it refuses and leaves the state, or records the
    announcement, marks the hash seen and gives it states, submitting at most
    that hash. *)
Inductive effect (s : Srv) (now : Z) : Srv -> list Submission -> Prop :=
  | effect_none : effect s now s []
  | effect_seen id h sts outs p :
      validate_sender id s = Ok p -> invariant_no_duplicate_processing (seen_cache s) h = true ->
      (forall x, x ∈ outs -> x.1.1 = h /\ last sts = Some Complete) ->
      effect s now (foldl (fun s st => Propagation.update_state h st s) (Propagation.mark_seen h (Some id) now (record_from id now s)) sts)
        outs
  | effect_propagate h connected :
      cache (seen_cache s) !! h = None ->
      effect s now
        (count_propagated (Propagation.update_state h Complete (refresh_peers connected now (Propagation.mark_seen h None now s)))) []
  | effect_refresh connected : effect s now (refresh_peers connected now s) [].

Lemma validate_preliminaries_inv data p (s : Srv) h : validate_block_preliminaries data p s = Ok h ->
  invariant_no_duplicate_processing (seen_cache s) h = true /\ extract_block_hash data = Ok h /\
  Z.of_nat (length data) <= max_block_size_bytes (config s).
Proof.
  unfold validate_block_preliminaries. destruct (Z.ltb_spec (max_block_size_bytes (config s)) (Z.of_nat (length data))); [done|].
  destruct (extract_block_hash data) as [h'| |]; [|done..]. cbn [rbind]. unfold check_all_invariants.
  destruct (invariant_no_duplicate_processing (seen_cache s) h') eqn:E; cbn [negb]; [|done].
  repeat case_match; intros; simplify_eq; auto.
Qed.

Lemma not_seen_new h (s : Srv) : has_seen h (seen_cache s) = false ->
  cache (seen_cache s) !! h = None /\ invariant_no_duplicate_processing (seen_cache s) h = true.
Proof.
  unfold has_seen. rewrite bool_decide_eq_false, <- eq_None_not_Some. intros E. split; [done|].
  unfold invariant_no_duplicate_processing, get_state. by rewrite E.
Qed.

Lemma serve_effect s now c : let '(s', out) := serve s now c in effect s now s' out.
Proof.
  destruct c; cbn [serve].
  - unfold handle_announcement. destruct (validate_sender id s) as [p| |] eqn:Hv; [|constructor..].
    destruct (has_seen h (seen_cache s)) eqn:Hs; [constructor|]. apply not_seen_new in Hs as [_ Hs].
    apply (effect_seen s now id h [Announced] [] p Hv Hs). by intros ? ?%elem_of_nil.
  - unfold handle_compact_block, validate_and_register_compact_block.
    destruct (validate_sender id s) as [p| |] eqn:Hv; [|constructor..].
    destruct (validate_block_preliminaries data p s) as [h| |] eqn:Hp; [|constructor..].
    apply validate_preliminaries_inv in Hp as [Hp _]. cbn zeta.
    pose proof (fun sts => effect_seen s now id h sts [] p Hv Hp ltac:(by intros ? ?%elem_of_nil)) as He.
    unfold reconstruct_and_verify, complete_and_submit.
    destruct (parse_compact_block data) as [[[[ids n] pk] sg]| |]; [|apply (He [CompactReceived])..].
    destruct (missing_indices _); [|apply (He [CompactReceived; Reconstructing])].
    destruct (verify h pk sg) as [[]| |]; [|apply (He [CompactReceived; Invalid])|apply (He [CompactReceived])..].
    apply (effect_seen s now id h [CompactReceived; Complete] [(h, data, id)] p Hv Hp).
    by intros ? ->%list_elem_of_singleton.
  - unfold handle_full_block, check_full_block.
    destruct (validate_sender id s) as [p| |] eqn:Hv; [|constructor..]. cbn [rbind].
    destruct (validate_block_preliminaries data p s) as [h| |] eqn:Hp; [|constructor..].
    apply validate_preliminaries_inv in Hp as [Hp _].
    pose proof (fun sts => effect_seen s now id h sts [] p Hv Hp ltac:(by intros ? ?%elem_of_nil)) as He.
    unfold accept_full_block, complete_and_submit. cbn zeta.
    destruct (extract_block_signature data) as [[pk sg]| |]; [|apply (He [])..].
    destruct (verify h pk sg) as [[]| |]; [|apply (He [Invalid])|apply (He [])..].
    apply (effect_seen s now id h [Complete] [(h, data, id)] p Hv Hp).
    by intros ? ->%list_elem_of_singleton.
  - unfold propagate_block. destruct (validate_block_size _ _); cbn [negb]; [|constructor].
    destruct (has_seen h (seen_cache s)) eqn:Hs; [constructor|].
    apply not_seen_new in Hs as [Hs _]. by apply effect_propagate.
  - constructor.
Qed.

Lemma seen_cache_updates h sts : forall s : Srv,
  seen_cache (foldl (fun s st => Propagation.update_state h st s) s sts) =
  foldl (fun c st => SeenBlockCache.update_state h st c) (seen_cache s) sts.
Proof. induction sts as [|st sts IH]; intros s; [done|]. cbn [foldl]. by rewrite IH. Qed.

Lemma updates_peers h sts : forall s : Srv,
  peer_states (foldl (fun s st => Propagation.update_state h st s) s sts) = peer_states s /\
  config (foldl (fun s st => Propagation.update_state h st s) s sts) = config s.
Proof. induction sts as [|st sts IH]; intros s; [done|]. cbn [foldl]. by destruct (IH (Propagation.update_state h st s)) as [-> ->]. Qed.

Lemma updates_ok h sts : forall c, cache_ok c ->
  cache_ok (foldl (fun c st => SeenBlockCache.update_state h st c) c sts).
Proof. induction sts as [|st sts IH]; intros c Hc; [done|]. apply IH. by apply update_state_ok. Qed.

Lemma updates_same h sts : forall c,
  insertion_order (foldl (fun c st => SeenBlockCache.update_state h st c) c sts) = insertion_order c /\
  max_size (foldl (fun c st => SeenBlockCache.update_state h st c) c sts) = max_size c /\
  forall g, g <> h ->
    cache (foldl (fun c st => SeenBlockCache.update_state h st c) c sts) !! g = cache c !! g.
Proof.
  induction sts as [|st sts IH]; intros c; [done|]. cbn [foldl].
  destruct (IH (SeenBlockCache.update_state h st c)) as (-> & -> & E). split; [done|]. split; [done|].
  intros g Hg. rewrite E by done. cbn. by rewrite lookup_alter_ne.
Qed.

(** The cache after an effect: unchanged, or one hash marked and updated. *)
Lemma effect_cache s now s' outs : effect s now s' outs ->
  seen_cache s' = seen_cache s /\ outs = [] \/
  exists h p sts, seen_cache s' =
      foldl (fun c st => SeenBlockCache.update_state h st c)
        (SeenBlockCache.mark_seen h p now (seen_cache s)) sts /\
    invariant_no_duplicate_processing (seen_cache s) h = true /\
    forall x, x ∈ outs -> x.1.1 = h.
Proof.
  destruct 1 as [|id h sts outs p Hv Hi Ho|h connected Hh|connected]; [by left| | |by left].
  - right. exists h, (Some id), sts. rewrite seen_cache_updates. split; [done|]. split; [done|].
    intros x Hx. by apply Ho.
  - right. exists h, None, [Complete]. split; [done|].
    split; [unfold invariant_no_duplicate_processing, get_state; by rewrite Hh|by intros ? ?%elem_of_nil].
Qed.

Lemma effect_cache_ok s now s' outs : effect s now s' outs -> cache_ok (seen_cache s) ->
  cache_ok (seen_cache s') /\ max_size (seen_cache s') = max_size (seen_cache s).
Proof.
  intros He Hc. apply effect_cache in He as [[-> _]|(h & p & sts & -> & _)]; [done|].
  pose proof (mark_seen_ok h p now _ Hc) as Hm. split; [by apply updates_ok|].
  destruct (updates_same h sts (SeenBlockCache.mark_seen h p now (seen_cache s))) as (_ & -> & _).
  destruct (mark_seen_spec h p now _ Hc) as [[_ ->]|(_ & order & _ & _ & _ & _ & E)]; done.
Qed.

Lemma run_cache_ok calls : forall s, cache_ok (seen_cache s) ->
  cache_ok (seen_cache (run s calls).1) /\
  max_size (seen_cache (run s calls).1) = max_size (seen_cache s).
Proof.
  induction calls as [|[now c] calls IH]; intros s Hs; [done|]. cbn [run].
  pose proof (serve_effect s now c) as He. destruct (serve s now c) as [s1 out].
  apply effect_cache_ok in He as [Hs1 Hm]; [|done]. destruct (IH s1 Hs1) as [Hok Hmax].
  destruct (run s1 calls) as [s2 outs]. cbn [fst] in *. split; [done|congruence].
Qed.

(** Whatever calls a new service gets, its seen-block cache holds
    at most the configured number of blocks (one when that is zero), and the
    queue that orders evictions lists exactly the blocks of the cache, once. *)
Theorem seen_cache_inv c calls :
  let cache' := seen_cache (run (service_new c) calls).1 in
  (len cache' <= max 1 (seen_cache_size c))%nat /\ NoDup (insertion_order cache') /\
  (forall h, h ∈ insertion_order cache' <-> has_seen h cache' = true).
Proof.
  cbn zeta. destruct (run_cache_ok calls (service_new c) (new_cache_ok _)) as [[H1 H2 H3] Hm].
  cbn in Hm. rewrite Hm in H3. split; [exact H3|]. split; [done|].
  intros h. rewrite H2. unfold has_seen. by rewrite bool_decide_eq_true.
Qed.

(** ** No block is submitted twice *)

(** [h] is complete and at most [n] blocks were seen after it. *)
Definition remembered (h : Hash) (n : nat) (c : SeenBlockCache) : Prop :=
  get_state h c = Some Complete /\
  exists l1 l2, insertion_order c = l1 ++ h :: l2 /\ (length l2 <= n)%nat.

Lemma mark_remembers g h n p now c : cache_ok c -> remembered h n c -> g <> h ->
  (S n < max_size c)%nat -> remembered h (S n) (SeenBlockCache.mark_seen g p now c).
Proof.
  intros Hc (Hst & l1 & l2 & Ho & Hl) Hne Hn.
  destruct (mark_seen_spec g p now c Hc) as [[_ ->]|(_ & order & Hor & E1 & _ & E3 & _)].
  { split; [done|]. exists l1, l2. auto with lia. }
  assert (exists l1', order = l1' ++ h :: l2) as [l1' ->].
  { pose proof (order_length c Hc) as Hlen. rewrite Ho, length_app in Hlen. cbn in Hlen.
    destruct Hor as [[-> _]|[-> Hfull]]; [by exists l1|]. destruct l1 as [|x l1].
    - cbn in Hlen. lia.
    - exists l1. by rewrite Ho. }
  split.
  - unfold get_state. rewrite E3, decide_True by (done || (apply elem_of_app; right; left)). exact Hst.
  - exists l1', (l2 ++ [g]). rewrite E1, <- app_assoc. split; [done|]. rewrite length_app. cbn. lia.
Qed.

Lemma remembered_le h n m c : (n <= m)%nat -> remembered h n c -> remembered h m c.
Proof. intros Hle (H1 & l1 & l2 & H2 & H3). split; [done|]. exists l1, l2. split; [done|lia]. Qed.

Lemma effect_remembers h n s now s' outs : effect s now s' outs -> cache_ok (seen_cache s) ->
  remembered h n (seen_cache s) ->
  (forall x, x ∈ outs -> x.1.1 <> h) /\
  ((S n < max_size (seen_cache s))%nat -> remembered h (S n) (seen_cache s')).
Proof.
  intros He Hc Hr. apply effect_cache in He as [[E ->]|(g & p & sts & E & Hi & Ho)].
  { split; [by intros ? ?%elem_of_nil|]. intros _. rewrite E. apply (remembered_le h n); [lia|done]. }
  assert (g <> h) as Hne.
  { intros ->. destruct Hr as [Hst _]. unfold invariant_no_duplicate_processing in Hi.
    by rewrite Hst in Hi. }
  split; [intros x Hx; by rewrite (Ho x Hx)|]. intros Hn. rewrite E.
  destruct (updates_same g sts (SeenBlockCache.mark_seen g p now (seen_cache s))) as (E1 & _ & E3).
  destruct (mark_remembers g h n p now _ Hc Hr Hne Hn) as (H1 & l1 & l2 & H2 & H3).
  split; [unfold get_state; by rewrite E3|]. exists l1, l2. by rewrite E1.
Qed.

Lemma run_remembers h calls : forall s n, cache_ok (seen_cache s) -> remembered h n (seen_cache s) ->
  (n + length calls <= max_size (seen_cache s))%nat ->
  forall x, x ∈ (run s calls).2 -> x.1.1 <> h.
Proof.
  induction calls as [|[now c] calls IH]; intros s n Hc Hr Hn x; cbn [run]; [by intros ?%elem_of_nil|].
  pose proof (serve_effect s now c) as He. destruct (serve s now c) as [s1 out].
  destruct (effect_cache_ok _ _ _ _ He Hc) as [Hc1 Hm].
  destruct (effect_remembers h n _ _ _ _ He Hc Hr) as [Hout Hnext].
  destruct (run s1 calls) as [s2 outs] eqn:Hrun. cbn [snd].
  rewrite elem_of_app. intros [Hx|Hx]; [by apply Hout|]. cbn [length] in Hn.
  destruct calls as [|c' calls]; [injection Hrun as <- <-; by apply elem_of_nil in Hx|].
  cbn [length] in *. apply (IH s1 (S n)); [done|apply Hnext; lia|rewrite Hm; lia|by rewrite Hrun].
Qed.

(** Once a block is complete, in a state any calls have led to, it
    is not submitted to consensus again by the next calls, as long as they are
    no more than the cache has room for blocks seen after it. *)
Theorem no_resubmission c calls0 h l1 l2 calls :
  let s := (run (service_new c) calls0).1 in
  get_state h (seen_cache s) = Some Complete ->
  insertion_order (seen_cache s) = l1 ++ h :: l2 ->
  (length l2 + length calls <= seen_cache_size c)%nat ->
  forall x, x ∈ (run s calls).2 -> x.1.1 <> h.
Proof.
  cbn zeta. intros Hst Ho Hn.
  destruct (run_cache_ok calls0 (service_new c) (new_cache_ok _)) as [Hok Hm].
  apply (run_remembers h calls _ (length l2)); [done| |by rewrite Hm].
  split; [done|]. by exists l1, l2.
Qed.

Lemma preliminaries_ok (s : Srv) id data p h :
  validate_sender id s = Ok p -> validate_block_preliminaries data p s = Ok h ->
  extract_block_hash data = Ok h /\ Z.of_nat (length data) <= max_block_size_bytes (config s) /\
  (exists p, find_peer_state id s = Some p /\ check_rate_limit p (config s) = true) /\
  get_state h (seen_cache s) <> Some Complete.
Proof.
  intros Hv Hp. apply validate_preliminaries_inv in Hp as (Hi & He & Hl). split; [done|]. split; [done|].
  split.
  - unfold validate_sender in Hv. destruct (find_peer_state id s) as [q|]; [|done].
    destruct (check_rate_limit q (config s)) eqn:Hr; [|done]. eauto.
  - unfold invariant_no_duplicate_processing in Hi. intros E. by rewrite E in Hi.
Qed.

Lemma full_submitted (s : Srv) now id data x :
  x ∈ (handle_full_block verify submit id data now s).1.2 -> exists p pk sg,
    validate_sender id s = Ok p /\ validate_block_preliminaries data p s = Ok x.1.1 /\
    extract_block_signature data = Ok (pk, sg) /\ verify x.1.1 pk sg = Ok true /\ x = (x.1.1, data, id).
Proof.
  unfold handle_full_block, check_full_block.
  destruct (validate_sender id s) as [p| |] eqn:Hv; [|by intros ?%elem_of_nil..]. cbn [rbind].
  destruct (validate_block_preliminaries data p s) as [h| |] eqn:Hp; [|by intros ?%elem_of_nil..].
  unfold accept_full_block, complete_and_submit. cbn zeta.
  destruct (extract_block_signature data) as [[pk sg]| |]; [|by intros ?%elem_of_nil..].
  destruct (verify h pk sg) as [[]| |] eqn:Hver; [|by intros ?%elem_of_nil..].
  intros ->%list_elem_of_singleton. exists p, pk, sg. auto.
Qed.

Lemma compact_submitted (s : Srv) now id data x :
  x ∈ (handle_compact_block lookup_ids verify submit id data now s).1.2 -> exists p ids n pk sg,
    validate_sender id s = Ok p /\ validate_block_preliminaries data p s = Ok x.1.1 /\
    parse_compact_block data = Ok (ids, n, pk, sg) /\ missing_indices (lookup_ids ids n) = [] /\
    verify x.1.1 pk sg = Ok true /\ x = (x.1.1, data, id).
Proof.
  unfold handle_compact_block, validate_and_register_compact_block.
  destruct (validate_sender id s) as [p| |] eqn:Hv; [|by intros ?%elem_of_nil..].
  destruct (validate_block_preliminaries data p s) as [h| |] eqn:Hp; [|by intros ?%elem_of_nil..].
  unfold reconstruct_and_verify, complete_and_submit. cbn zeta.
  destruct (parse_compact_block data) as [[[[ids n] pk] sg]| |]; [|by intros ?%elem_of_nil..].
  destruct (missing_indices (lookup_ids ids n)) eqn:Hm; [|by intros ?%elem_of_nil].
  destruct (verify h pk sg) as [[]| |] eqn:Hver; [|by intros ?%elem_of_nil..].
  intros ->%list_elem_of_singleton. exists p, ids, n, pk, sg. auto 7.
Qed.

(** Whatever a handler submits to consensus starts with the hash
    it is submitted under, is within the size limit, comes from a connected
    peer within its rate limit, is of a block not complete before, and carries
    a key and a signature that the verifier accepted for that hash. *)
Theorem submissions_verified (s : Srv) now id data x :
  (x ∈ (handle_full_block verify submit id data now s).1.2 ->
     exists pk sg, extract_block_signature data = Ok (pk, sg) /\ verify x.1.1 pk sg = Ok true /\
       x = (x.1.1, data, id)) /\
  (x ∈ (handle_compact_block lookup_ids verify submit id data now s).1.2 ->
     exists ids n pk sg, parse_compact_block data = Ok (ids, n, pk, sg) /\
       verify x.1.1 pk sg = Ok true /\ Forall is_Some (lookup_ids ids n) /\ x = (x.1.1, data, id)) /\
  (x ∈ (handle_full_block verify submit id data now s).1.2 \/
   x ∈ (handle_compact_block lookup_ids verify submit id data now s).1.2 ->
     extract_block_hash data = Ok x.1.1 /\
     Z.of_nat (length data) <= max_block_size_bytes (config s) /\
     (exists p, find_peer_state id s = Some p /\ check_rate_limit p (config s) = true) /\
     get_state x.1.1 (seen_cache s) <> Some Complete).
Proof.
  split; [|split].
  - intros (p & pk & sg & _ & _ & H1 & H2 & H3)%full_submitted. eauto.
  - intros (p & ids & n & pk & sg & _ & _ & H1 & H2 & H3 & H4)%compact_submitted.
    exists ids, n, pk, sg. repeat split; auto. by apply missing_none.
  - intros [(p & pk & sg & H1 & H2 & _)%full_submitted
           |(p & ids & n & pk & sg & H1 & H2 & _)%compact_submitted]; by eapply preliminaries_ok.
Qed.

(** ** The rate limit *)

(** The peer has used up its announcements. *)
Definition limited (id : Z) (s : Srv) : Prop :=
  exists p, find_peer_state id s = Some p /\ check_rate_limit p (config s) = false.

Lemma find_update_other id id' f (states : list (PeerPropagationState F)) : id <> id' ->
  (forall p, peer_id (f p) = peer_id p) ->
  List.find (fun p => peer_id p =? id) (update_first id' f states) =
  List.find (fun p => peer_id p =? id) states.
Proof.
  intros Hne Hf. induction states as [|p states IH]; [done|]. cbn.
  destruct (Z.eqb_spec (peer_id p) id') as [E|]; cbn.
  - rewrite Hf, E. destruct (Z.eqb_spec id' id); [congruence|done].
  - by rewrite IH.
Qed.

Lemma record_announcement_id now (p : PeerPropagationState F) :
  peer_id (record_announcement now p) = peer_id p.
Proof. unfold record_announcement. by case_match. Qed.

Lemma find_app {A} (f : A -> bool) l1 l2 x : List.find f l1 = Some x -> List.find f (l1 ++ l2) = Some x.
Proof. induction l1 as [|y l1 IH]; [done|]. cbn. by case_match. Qed.

Lemma refresh_find connected now id p (s : Srv) : find_peer_state id s = Some p ->
  find_peer_state id (refresh_peers connected now s) = Some p.
Proof.
  unfold find_peer_state, refresh_peers. cbn. generalize (peer_states s).
  induction connected as [|i connected IH]; intros states Hf; [done|]. cbn [foldl]. apply IH.
  case_match; [done|]. by apply find_app.
Qed.

Lemma effect_limited id s now s' outs : effect s now s' outs -> limited id s -> limited id s'.
Proof.
  intros He (q & Hq & Hr). destruct He as [|id' h sts outs p Hv Hi Ho|h connected Hh|connected].
  - by exists q.
  - assert (id <> id') as Hne.
    { intros ->. unfold validate_sender in Hv. rewrite Hq, Hr in Hv. done. }
    destruct (updates_peers h sts (Propagation.mark_seen h (Some id') now (record_from id' now s))) as [E1 E2].
    exists q. unfold find_peer_state in *. rewrite E1, E2. cbn. split; [|done].
    rewrite find_update_other; [done|done|apply record_announcement_id].
  - exists q. split; [|done]. unfold find_peer_state. cbn.
    by apply (refresh_find connected now id q s) in Hq.
  - exists q. split; [|done]. by apply refresh_find.
Qed.

Lemma run_limited id calls : forall s, limited id s -> limited id (run s calls).1.
Proof.
  induction calls as [|[now c] calls IH]; intros s Hs; [done|]. cbn [run].
  pose proof (serve_effect s now c) as He. destruct (serve s now c) as [s1 out].
  apply effect_limited with (id := id) in He; [|done]. specialize (IH s1 He).
  by destruct (run s1 calls).
Qed.

(** A peer that has reached its limit of announcements stays refused
    for ever: whatever calls follow and however much time passes, each of its
    messages is answered with [RateLimited] and changes nothing, because only
    a message that passes the limit starts a new window. *)
Theorem rate_limit_is_permanent (s : Srv) id p calls now data h :
  find_peer_state id s = Some p -> announcement_count p >= max_announcements_per_second (config s) ->
  let s' := (run s calls).1 in
  handle_full_block verify submit id data now s' = (s', [], Err (RateLimited id)) /\
  handle_compact_block lookup_ids verify submit id data now s' = (s', [], Err (RateLimited id)) /\
  handle_announcement id h now s' = (s', [], Err (RateLimited id)).
Proof.
  intros Hp Hc. assert (limited id s) as Hl.
  { exists p. split; [done|]. unfold check_rate_limit. apply Z.ltb_ge. lia. }
  apply (run_limited id calls) in Hl as (q & Hq & Hr). cbn zeta.
  assert (validate_sender id (run s calls).1 = Err (RateLimited id)) as Hv
    by (unfold validate_sender; by rewrite Hq, Hr).
  unfold handle_full_block, check_full_block, handle_compact_block,
    validate_and_register_compact_block, handle_announcement. by rewrite Hv.
Qed.

End Calls.

(** ** Compact blocks *)

Lemma as_u16_small i : Z.of_nat i < 2 ^ 16 -> as_u16 i = Z.of_nat i.
Proof. intros Hi. unfold as_u16. apply Z.mod_small. lia. Qed.

Section Compact.
Context (sip13 : u64 -> list u8 -> u64) (p : CompactBlockParams).
Hypothesis few : Z.of_nat (length (cbp_tx_hashes p)) <= 2 ^ 16.

Lemma tx_index_small i h : cbp_tx_hashes p !! i = Some h -> Z.of_nat i < 2 ^ 16.
Proof. intros Hi%lookup_lt_Some. lia. Qed.

Lemma elem_of_prefilled q : q ∈ prefilled_txs (create_compact_block sip13 p) ->
  exists j, j ∈ cbp_prefill_indices p /\ pf_index q = Z.of_nat j /\
    cbp_tx_hashes p !! j = Some (pf_tx_hash q).
Proof.
  cbn. rewrite list_elem_of_omap. intros (j & Hj & Hq). exists j. split; [done|].
  destruct (cbp_tx_hashes p !! j) as [h|] eqn:Hh; [|done]. injection Hq as <-. cbn.
  split; [|done]. apply as_u16_small. by eapply tx_index_small.
Qed.

Lemma prefilled_at_Some i h q : cbp_tx_hashes p !! i = Some h ->
  prefilled_at (create_compact_block sip13 p) (as_u16 i) = Some q -> pf_tx_hash q = h.
Proof.
  unfold prefilled_at. intros Hi Hq. apply find_some in Hq as [Hin Heq%Z.eqb_eq].
  apply list_elem_of_In, elem_of_prefilled in Hin as (j & _ & Hidx & Hj).
  rewrite as_u16_small in Heq by (by eapply tx_index_small). replace j with i in Hj by lia. congruence.
Qed.

Lemma prefilled_at_in i h : cbp_tx_hashes p !! i = Some h -> i ∈ cbp_prefill_indices p ->
  existsb (fun q => pf_index q =? as_u16 i) (prefilled_txs (create_compact_block sip13 p)) = true.
Proof.
  intros Hi Hin. apply existsb_exists.
  exists {| pf_index := as_u16 i; pf_tx_hash := h; pf_tx_data := [] |}. split; [|apply Z.eqb_refl].
  apply list_elem_of_In. cbn. rewrite list_elem_of_omap. exists i. by rewrite Hi.
Qed.

Lemma missing_from_nil skip l : forall i,
  (forall j, l !! j = Some None -> skip (as_u16 (i + j)) = true) -> missing_from skip i l = [].
Proof.
  induction l as [|[h|] l IH]; intros i Hl; [done| |]; cbn [missing_from].
  - apply IH. intros j Hj. replace (S i + j)%nat with (i + S j)%nat by lia. by apply Hl.
  - specialize (Hl 0%nat eq_refl) as H0. rewrite Nat.add_0_r in H0. rewrite H0.
    apply IH. intros j Hj. replace (S i + j)%nat with (i + S j)%nat by lia. by apply Hl.
Qed.

(** A compact block made of at most [2^16] transactions is
    reconstructed to exactly those transactions when the mempool knows, under
    its short identifier, every transaction that is not prefilled. *)
Theorem compact_block_reconstructs lookup :
  let c := create_compact_block sip13 p in
  length (lookup (short_txids c) (nonce c)) = length (cbp_tx_hashes p) ->
  (forall i h, cbp_tx_hashes p !! i = Some h -> i ∈ cbp_prefill_indices p \/
     lookup (short_txids c) (nonce c) !! i = Some (Some h)) ->
  reconstruct_block c lookup = Success (cbp_header_hash p) (cbp_tx_hashes p).
Proof.
  cbn zeta. intros Hlen Hl. unfold reconstruct_block. set (found := lookup _ _) in *.
  rewrite missing_from_nil.
  - f_equal. apply list_eq. intros i. rewrite list_lookup_imap.
    destruct (cbp_tx_hashes p !! i) as [h|] eqn:Hi.
    + pose proof (lookup_lt_Some _ _ _ Hi) as Hlt. rewrite <- Hlen in Hlt.
      destruct (lookup_lt_is_Some_2 _ _ Hlt) as [o Ho]. rewrite Ho. cbn [fmap option_fmap option_map].
      destruct (prefilled_at (create_compact_block sip13 p) (as_u16 i)) as [q|] eqn:Hq.
      * by rewrite (prefilled_at_Some i h q Hi Hq).
      * destruct (Hl i h Hi) as [Hin|Hfound]; [|by simplify_eq].
        apply (prefilled_at_in i h Hi), existsb_exists in Hin as (q & Hq' & Heq).
        unfold prefilled_at in Hq. by rewrite (find_none _ _ Hq q Hq') in Heq.
    + apply lookup_ge_None in Hi. by rewrite (lookup_ge_None_2 found) by lia.
  - intros j Hj. cbn [Nat.add]. pose proof (lookup_lt_Some _ _ _ Hj) as Hlt. rewrite Hlen in Hlt.
    destruct (lookup_lt_is_Some_2 _ _ Hlt) as [h Hh].
    destruct (Hl j h Hh) as [Hin|Hf]; [by eapply prefilled_at_in|by simplify_eq].
Qed.

End Compact.

Definition three_txs : CompactBlockParams := {|
  cbp_header_hash := 77; cbp_block_height := 1; cbp_parent_hash := 0; cbp_timestamp := 5;
  cbp_tx_hashes := [11; 12; 13]; cbp_nonce := 9; cbp_prefill_indices := [0%nat] |}.

Lemma compact_block_reconstructs_witness :
  reconstruct_block (create_compact_block (fun _ _ => 0) three_txs) (fun _ _ => [None; Some 12; Some 13]) =
  Success 77 [11; 12; 13].
Proof.
  apply (compact_block_reconstructs (fun _ _ => 0) three_txs); [cbn; lia|reflexivity|].
  intros [|[|[|i]]] h; cbn; intros [= <-]; [left; apply list_elem_of_here|by right..].
Defined.

Lemma compact_wire_roundtrip_witness :
  extract_block_hash (serialize_compact_block (create_compact_block (fun _ _ => 0) three_txs)) = Ok 77 /\
  parse_compact_block (serialize_compact_block (create_compact_block (fun _ _ => 0) three_txs)) =
    Ok (replicate 3 (replicate 6 0), 9, replicate 33 0, replicate 64 0).
Proof.
  apply (compact_wire_roundtrip (create_compact_block (fun _ _ => 0) three_txs)).
  split; [by vm_compute|]. split; [by vm_compute|]. split; [|cbn; lia].
  apply Forall_forall. intros i Hi. apply list_elem_of_In in Hi. vm_compute in Hi. naive_solver.
Defined.

(** ** What is sent is refused *)

Lemma created_in_range (sip13 : u64 -> list u8 -> u64) p : in_width 256 (cbp_header_hash p) ->
  in_width 64 (cbp_nonce p) -> (length (cbp_tx_hashes p) < Z.to_nat (2 ^ 16))%nat ->
  block_in_range (create_compact_block sip13 p).
Proof.
  intros Hh Hn Hl. split; [done|]. split; [done|]. cbn. rewrite length_fmap. split; [|done].
  apply Forall_fmap, Forall_true. intros h. cbn. unfold calculate_short_id.
  by rewrite length_take, length_le_bytes.
Qed.

(** A compact block as [propagate_block] sends it is submitted to
    consensus by no receiver whose verifier refuses the zero signature: the
    service writes zeros where the receiver reads key and signature. *)
Theorem propagated_compact_dropped {F} `{!Reputation F} sip13 lookup verify submit
    h data txs connected broadcast n now (s s' : Service F) peers wire r (receiver : Service F) id now' :
  propagate_block sip13 h data txs connected broadcast n now s =
    (s', [(peers, CompactBlockMsg wire)], r) ->
  in_width 256 h -> in_width 64 n -> (length txs < Z.to_nat (2 ^ 16))%nat ->
  verify h (replicate 33 0) (replicate 64 0) <> Ok true ->
  (handle_compact_block lookup verify submit id wire now' receiver).1.2 = [].
Proof.
  intros Hp Hh Hn Hlen Hv. unfold propagate_block in Hp.
  destruct (validate_block_size _ _); [|done]. cbn [negb] in Hp.
  destruct (SeenBlockCache.has_seen _ _); [done|].
  destruct (enable_compact_blocks _); [|done]. injection Hp as _ _ Hw _.
  set (params := Build_CompactBlockParams _ _ _ _ _ _ _) in Hw.
  pose proof (extract_serialized (create_compact_block sip13 params) Hh) as He.
  pose proof (parse_serialized (create_compact_block sip13 params)) as Hparse.
  rewrite Hw in He, Hparse. specialize (Hparse ltac:(by apply created_in_range)).
  destruct (handle_compact_block _ _ _ _ _ _ _).1.2 as [|x outs] eqn:Hout; [done|]. exfalso.
  destruct (compact_submitted lookup verify submit receiver now' id wire x) as
    (p & ids & n' & pk & sg & Hval & Hpre & Hpc & _ & Hver & _); [rewrite Hout; left|].
  destruct (preliminaries_ok receiver id wire p _ Hval Hpre) as [He' _].
  rewrite He in He'. rewrite Hparse in Hpc. simplify_eq.
Qed.

(** ** Requests *)

Import UnsolicitedBlockFilter.

(** A block passes as requested exactly while a request for its
    hash is pending and younger than the timeout; otherwise it is spam when it
    was seen before and an announcement when not. *)
Theorem unsolicited_filter_exact h seen now f :
  let r := (check_block h seen now f).2 in
  ((exists n, r = Allowed n) <->
    exists n q, pending f !! n = Some q /\ pr_block_hash q = h /\ now - requested_at q < timeout f) /\
  (forall n, r = Allowed n -> exists q, pending f !! n = Some q /\ pr_block_hash q = h) /\
  (r = Spam -> seen = true) /\ (r = PossibleAnnouncement -> seen = false).
Proof.
  cbn zeta. unfold check_block. cbn [snd].
  destruct (List.find _ _) as [[n q]|] eqn:Hf.
  - apply find_some in Hf as [Hin%list_elem_of_In%elem_of_map_to_list Heq%Z.eqb_eq]. cbn in Hin, Heq.
    apply map_lookup_filter_Some in Hin as [Hp Ht]. cbn in Ht.
    split; [split; eauto 6|]. split; [|done]. intros n' [= <-]. eauto.
  - assert (~ exists n q, pending f !! n = Some q /\ pr_block_hash q = h /\
      now - requested_at q < timeout f) as Hno.
    { intros (n & q & Hp & Hh & Ht). assert ((n, q) ∈ map_to_list (pending (clean_expired now f))) as Hin
        by (apply elem_of_map_to_list, map_lookup_filter_Some; done).
      apply list_elem_of_In, (find_none _ _ Hf), Z.eqb_neq in Hin. done. }
    split; [|destruct seen; done].
    split; [by intros [n Hn]; destruct seen|done].
Qed.

(** ** Concrete services *)

#[local] Instance Z_reputation : Reputation Z :=
  {| rep_initial := 50; rep_le := Z.le; rep_le_dec := Z.le_dec |}.

Lemma Z_reputation_laws : ReputationLaws Z.
Proof. split; intros ?; intros; unfold rep_le in *; cbn in *; lia. Qed.

Definition peer_one : PeerInfo Z :=
  {| pi_peer_id := 1; pi_reputation := 50; pi_latency_ms := 10; is_connected := true |}.

Definition node : Service Z := refresh_peers [peer_one] 0 (service_new propagation_default).

Definition accept_any (_ : Hash) (_ _ : list Z) : result PropagationError bool := Ok true.
Definition submit_any (_ : Hash) (_ : list Z) (_ : Z) : result PropagationError unit := Ok tt.
Definition found_all (ids : list (list Z)) (_ : Z) : list (option Hash) := (fun _ => Some 0) <$> ids.

Abbreviation runs := (run (fun _ _ => 0) found_all accept_any submit_any).

(** A full block of hash 7 with room for key and signature. *)
Definition block_seven : list Z := hash_bytes 7 ++ replicate 113 1.

Lemma rate_limit_is_permanent_witness :
  let s := (runs node [(0, CallAnnouncement 1 5)]).1 in
  let s' := (runs s [(3600000, CallRefresh [peer_one])]).1 in
  handle_full_block accept_any submit_any 1 block_seven 7200000 s' = (s', [], Err (RateLimited 1)) /\
  handle_compact_block found_all accept_any submit_any 1 block_seven 7200000 s' =
    (s', [], Err (RateLimited 1)) /\
  handle_announcement 1 7 7200000 s' = (s', [], Err (RateLimited 1)).
Proof.
  cbn zeta. eapply (rate_limit_is_permanent (fun _ _ => 0) found_all accept_any submit_any
    (runs node [(0, CallAnnouncement 1 5)]).1); vm_compute; [reflexivity|discriminate].
Defined.

Definition received_seven : list (Z * call) := [(0, CallRefresh [peer_one]); (0, CallFull 1 block_seven)].

Lemma no_resubmission_witness :
  let s := (runs (service_new propagation_default) received_seven).1 in
  forall x, x ∈ (runs s [(5000, CallFull 1 block_seven)]).2 -> x.1.1 <> 7.
Proof.
  apply (no_resubmission (fun _ _ => 0) found_all accept_any submit_any propagation_default
    received_seven 7 [] []); [by vm_compute|by vm_compute|cbn; lia].
Defined.

Lemma propagated_compact_dropped_witness :
  exists wire, (propagate_block (fun _ _ => 0) 7 [] [11] [peer_one] (fun _ _ => []) 9 0 node).1.2 =
      [([1], CompactBlockMsg wire)] /\
    (handle_compact_block found_all (fun _ _ _ => Ok false) submit_any 1 wire 0 node).1.2 = [].
Proof.
  eexists. split; [reflexivity|].
  eapply (propagated_compact_dropped (fun _ _ => 0) found_all (fun _ _ _ => Ok false) submit_any
    7 [] [11] [peer_one] (fun _ _ => []) 9 0 node);
    [reflexivity|by vm_compute|by vm_compute|cbn; lia|discriminate].
Defined.

(** Two handlers of the same block that both check before either accepts submit
    it twice: nothing holds the cache between the check and the mark. *)
Theorem racing_handlers_submit_twice :
  exists h, check_full_block 1 block_seven node = Ok h /\
    let '(s1, out1, _) := accept_full_block accept_any submit_any 1 block_seven h 0 node in
    let '(_, out2, _) := accept_full_block accept_any submit_any 1 block_seven h 0 s1 in
    out1 = [(h, block_seven, 1)] /\ out2 = [(h, block_seven, 1)].
Proof. exists 7. by vm_compute. Qed.

(** 32 bytes that spell a hash are refused as a block, but the hash is seen from
    then on: the node does not propagate its own block of that hash. *)
Theorem garbage_suppresses_block :
  let '(s, out, r) := handle_full_block accept_any submit_any 1 (hash_bytes 7) 0 node in
  r = Err (BlockDataTooShort 145 32) /\ out = [] /\
  (propagate_block (fun _ _ => 0) 7 block_seven [] [] (fun _ _ => []) 9 0 s).2 = Err (DuplicateBlock 7).
Proof. by vm_compute. Qed.

(** The peers a block is sent to are the best [fanout] of all. *)
Lemma selected_are_best {F} `{!Reputation F} `{!ReputationLaws F} (peers : list (PeerPropagationState F)) fan p q :
  p ∈ select_peers_for_propagation peers fan ->
  q ∈ drop fan (stable_sort better peers) -> rep_le (reputation q) (reputation p).
Proof.
  intros Hp Hq. assert (StronglySorted better (stable_sort better peers)) as Hs.
  { apply stable_sort_sorted; unfold better; intros ?; intros; [by etrans|apply rep_le_total]. }
  rewrite <- (take_drop fan (stable_sort better peers)) in Hs.
  by eapply StronglySorted_app_1_elem_of in Hs.
Qed.
