(* ===== verification/FinalitySide.v ===== *)
(** * FinalitySide: the other modules of [qc-09-finality/src/domain/]

    The inactivity leak ([inactivity_leak.rs]), committees and shuffling
    ([committee_cache.rs], [randao.rs]), rewards for inclusion
    ([inclusion.rs]), the reversion shield ([reversion_shield.rs]), batches of
    attestations ([batch_verifier.rs]) and finality proofs ([proof.rs]), with
    what each guarantees.  Keccak is a parameter; the iteration order of a
    [HashMap] is a list argument where it matters. *)

From S2P Require Import Prelude Finality.

Local Open Scope Z_scope.
Local Open Scope qc_scope.

(** ** Inactivity leak *)

Module Leak.

Definition INACTIVITY_LEAK_EPOCHS : u64 := 4.
Definition BASE_PENALTY_BPS : u64 := 100.

Record InactivityLeakConfig := {
  leak_threshold_epochs : u64;
  base_penalty_bps : u64;
  quadratic_factor : u64;
}.

Definition config_default : InactivityLeakConfig := {|
  leak_threshold_epochs := INACTIVITY_LEAK_EPOCHS; base_penalty_bps := BASE_PENALTY_BPS;
  quadratic_factor := 1 |}.

Record InactivityScore := { epochs_inactive : u64; total_penalty : u128 }.
Definition score_default : InactivityScore := {| epochs_inactive := 0; total_penalty := 0 |}.

Record InactivityLeakTracker := {
  config : InactivityLeakConfig;
  scores : gmap ValidatorId InactivityScore;
  finality_lag : u64;
  leak_active : bool;
  leak_start_epoch : option u64;
}.

Definition new (c : InactivityLeakConfig) : InactivityLeakTracker := {|
  config := c; scores := ∅; finality_lag := 0; leak_active := false; leak_start_epoch := None |}.

Definition update_finality_lag (lag current_epoch : u64) (t : InactivityLeakTracker)
  : InactivityLeakTracker :=
  if leak_threshold_epochs (config t) <? lag then {|
    config := config t; scores := scores t; finality_lag := lag; leak_active := true;
    leak_start_epoch := if leak_active t then leak_start_epoch t else Some current_epoch |}
  else {|
    config := config t; scores := ∅; finality_lag := lag; leak_active := false;
    leak_start_epoch := None |}.

Definition set_scores (m : gmap ValidatorId InactivityScore) (t : InactivityLeakTracker)
  : InactivityLeakTracker := {|
  config := config t; scores := m; finality_lag := finality_lag t; leak_active := leak_active t;
  leak_start_epoch := leak_start_epoch t |}.

Definition record_participation (v : ValidatorId) (participated : bool)
    (t : InactivityLeakTracker) : InactivityLeakTracker :=
  if negb (leak_active t) then t
  else
    let score := default score_default (scores t !! v) in
    let inactive := if participated then 0 else wrapping_add 64 (epochs_inactive score) 1 in
    set_scores (<[v := {| epochs_inactive := inactive; total_penalty := total_penalty score |}]>
                  (scores t)) t.

Definition calculate_penalty (v : ValidatorId) (stake : u128) (t : InactivityLeakTracker) : u128 :=
  if negb (leak_active t) then 0
  else match scores t !! v with
  | None => 0
  | Some score =>
      if epochs_inactive score =? 0 then 0
      else
        let base := wrapping_mul 128 stake (base_penalty_bps (config t)) / 10000 in
        let quadratic := saturating_mul 64
          (saturating_mul 64 (epochs_inactive score) (epochs_inactive score))
          (quadratic_factor (config t)) in
        saturating_add 128 base quadratic
  end.

(** [stakes] is the order in which the map of stakes is iterated. *)
Fixpoint apply_penalties (stakes : list (ValidatorId * u128)) (t : InactivityLeakTracker)
  : InactivityLeakTracker * list (ValidatorId * u128) :=
  if negb (leak_active t) then (t, [])
  else match stakes with
  | [] => (t, [])
  | (v, stake) :: stakes =>
      let penalty := calculate_penalty v stake t in
      if penalty =? 0 then apply_penalties stakes t
      else
        let t := match scores t !! v with
                 | None => t
                 | Some s => set_scores (<[v := {| epochs_inactive := epochs_inactive s;
                     total_penalty := saturating_add 128 (total_penalty s) penalty |}]> (scores t)) t
                 end in
        let '(t, rest) := apply_penalties stakes t in (t, (v, penalty) :: rest)
  end.

(** A validator that misses [n] epochs of a leak in a row. *)
Definition misses (v : ValidatorId) (n : nat) (t : InactivityLeakTracker) : InactivityLeakTracker :=
  Nat.iter n (record_participation v false) t.

Lemma misses_score v n t : leak_active t = true -> scores t !! v = None ->
  Z.of_nat n < 2 ^ 64 ->
  leak_active (misses v n t) = true /\ config (misses v n t) = config t /\
  scores (misses v n t) !! v =
    if (n =? 0)%nat then None else Some {| epochs_inactive := Z.of_nat n; total_penalty := 0 |}.
Proof.
  intros Ha Hs. unfold misses. induction n as [|n IH]; intros Hn; [done|].
  destruct IH as (A1 & A2 & A3); [lia|]. rewrite Nat.iter_succ. cbn [Nat.eqb].
  set (u := Nat.iter n _ t) in *. clearbody u. unfold record_participation. rewrite A1.
  cbn [negb set_scores scores leak_active config]. rewrite lookup_insert_eq, A3. split; [done|]. split; [done|]. destruct (Nat.eqb_spec n 0) as [->|]; [done|].
  cbn [default from_option epochs_inactive total_penalty]. unfold Datatypes.id. cbn [epochs_inactive total_penalty]. rewrite wrapping_add_small by lia.
  by rewrite Nat2Z.inj_succ.
Qed.

(** The penalty of a validator that missed [n] epochs in a row: the base rate of
    its stake plus the square of [n]. *)
Lemma quadratic_penalty v n stake t : leak_active t = true -> scores t !! v = None ->
  0 <= stake -> 0 <= base_penalty_bps (config t) -> stake * base_penalty_bps (config t) < 2 ^ 127 ->
  0 <= quadratic_factor (config t) -> (0 < n)%nat ->
  Z.of_nat n * Z.of_nat n < 2 ^ 64 -> Z.of_nat n * Z.of_nat n * quadratic_factor (config t) < 2 ^ 64 ->
  calculate_penalty v stake (misses v n t) =
    stake * base_penalty_bps (config t) / 10000 + Z.of_nat n * Z.of_nat n * quadratic_factor (config t).
Proof.
  intros Ha Hs H0 Hb Hw Hq Hn Hsq Hqf.
  destruct (misses_score v n t Ha Hs) as (A1 & A2 & A3); [nia|].
  unfold calculate_penalty. rewrite A1, A3, A2. cbn [negb].
  destruct (Nat.eqb_spec n 0); [lia|]. cbn [epochs_inactive].
  destruct (Z.eqb_spec (Z.of_nat n) 0); [lia|].
  unfold wrapping_mul, saturating_mul, saturating_add.
  rewrite (Z.mod_small (stake * _)) by nia.
  rewrite (Z.min_l (Z.of_nat n * Z.of_nat n)), (Z.min_l (_ * quadratic_factor _)) by lia.
  assert (stake * base_penalty_bps (config t) / 10000 <= stake * base_penalty_bps (config t))
    by (apply Z.div_le_upper_bound; nia).
  rewrite Z.min_l by lia. done.
Qed.

(** Finality ends the leak and forgets the scores. *)
Lemma finality_ends_leak lag epoch v stake t : lag <= leak_threshold_epochs (config t) ->
  calculate_penalty v stake (update_finality_lag lag epoch t) = 0.
Proof. intros Hl. unfold update_finality_lag. by destruct (Z.ltb_spec (leak_threshold_epochs (config t)) lag); [lia|]. Qed.

(** The square does not depend on the stake: a penalty can exceed it. *)
Lemma penalty_exceeds_stake :
  let t := update_finality_lag 5 10 (new config_default) in
  calculate_penalty 1 10 (misses 1 4 t) = 16.
Proof. by vm_compute. Qed.

End Leak.

(** ** Randomness and committees *)

Module Randao.

Record RandaoAccumulator := { current_epoch : u64; mix : Hash; contributions : u64 }.

Definition new (epoch : u64) (m : Hash) : RandaoAccumulator :=
  {| current_epoch := epoch; mix := m; contributions := 0 |}.

(** Byte by byte; on numbers of 256 bits the exclusive or. *)
Definition xor_hashes (a b : Hash) : Hash := Z.lxor a b.

Definition mix_in (reveal : Hash) (r : RandaoAccumulator) : RandaoAccumulator := {|
  current_epoch := current_epoch r; mix := xor_hashes (mix r) reveal;
  contributions := wrapping_add 64 (contributions r) 1 |}.

Section Seed.
Context (keccak : list u8 -> Hash).

Definition hash_to_seed (m : Hash) (epoch : u64) : Hash := keccak (hash_bytes m ++ le_bytes 8 epoch).

Definition advance_epoch (r : RandaoAccumulator) : RandaoAccumulator * Hash :=
  let next_seed := mix r in
  let epoch := wrapping_add 64 (current_epoch r) 1 in
  ({| current_epoch := epoch; mix := hash_to_seed next_seed epoch; contributions := 0 |}, next_seed).

(** [result.swap(i, j)]. *)
Definition swap {A} (i j : nat) (l : list A) : list A :=
  match l !! i, l !! j with
  | Some x, Some y => <[i := y]> (<[j := x]> l)
  | _, _ => l
  end.

(** [for i in (1..len).rev()]: [i] counts down. *)
Fixpoint shuffle_loop {A} (i : nat) (rng : Hash) (l : list A) : list A :=
  match i with
  | O => l
  | S i' =>
      let rng := hash_to_seed rng (Z.of_nat i) in
      let j := Z.to_nat (from_le_bytes (take 8 (hash_bytes rng)) mod Z.of_nat (i + 1)) in
      shuffle_loop i' rng (swap i j l)
  end.

Definition shuffle_with_seed {A} (items : list A) (seed : Hash) : list A :=
  if (length items <=? 1)%nat then items else shuffle_loop (length items - 1) seed items.

(** [chunks(n)] for a positive [n]. *)
Fixpoint chunks_of {A} (fuel n : nat) (l : list A) : list (list A) :=
  match fuel, l with
  | S fuel, _ :: _ => take n l :: chunks_of fuel n (drop n l)
  | _, _ => []
  end.

(** [None]: [chunks] panics on a size of zero, which no validators give. *)
Definition compute_committees {A} (validators : list A) (seed : Hash) (committee_count : nat)
  : option (list (list A)) :=
  if (committee_count =? 0)%nat then Some []
  else
    let shuffled := shuffle_with_seed validators seed in
    let n := ((length shuffled + committee_count - 1) / committee_count)%nat in
    if (n =? 0)%nat then None else Some (chunks_of (length shuffled) n shuffled).

Lemma swap_perm {A} i j (l : list A) : swap i j l ≡ₚ l.
Proof.
  unfold swap. destruct (l !! i) as [x|] eqn:Hi; [|done]. destruct (l !! j) as [y|] eqn:Hj; [|done].
  destruct (decide (i = j)) as [->|Hne].
  - simplify_eq. rewrite list_insert_insert_eq, list_insert_id; done.
  - assert (<[j := x]> l !! i = Some x) as Hi' by (by rewrite list_lookup_insert_ne).
    apply (list_elem_of_split_length) in Hi' as (l1 & l2 & E1 & ->).
    apply (Permutation_cons_inv (a := x)).
    rewrite E1. rewrite insert_app_r_alt, Nat.sub_diag by lia. cbn.
    transitivity (y :: l1 ++ x :: l2).
    { rewrite <- !Permutation_middle. apply Permutation_swap. }
    rewrite <- E1. apply (list_elem_of_split_length) in Hj as (k1 & k2 & -> & ->).
    rewrite insert_app_r_alt, Nat.sub_diag by lia. cbn. rewrite <- !Permutation_middle. apply Permutation_swap.
Qed.

Lemma shuffle_loop_perm {A} i : forall rng (l : list A), shuffle_loop i rng l ≡ₚ l.
Proof. induction i as [|i IH]; intros rng l; [done|]. cbn [shuffle_loop]. by rewrite IH, swap_perm. Qed.

Lemma shuffle_perm {A} (l : list A) seed : shuffle_with_seed l seed ≡ₚ l.
Proof. unfold shuffle_with_seed. case_match; [done|]. apply shuffle_loop_perm. Qed.

Lemma chunks_of_spec {A} n : (0 < n)%nat -> forall fuel (l : list A), (length l <= fuel)%nat ->
  concat (chunks_of fuel n l) = l /\ Forall (fun c => (1 <= length c <= n)%nat) (chunks_of fuel n l) /\
  (length l <= n * length (chunks_of fuel n l) /\ n * length (chunks_of fuel n l) < length l + n)%nat.
Proof.
  intros Hn. induction fuel as [|fuel IH]; intros [|x l] Hl; cbn [length] in Hl;
    [repeat split; cbn; constructor || lia|lia|repeat split; cbn; constructor || lia|].
  cbn [chunks_of]. destruct (IH (drop n (x :: l))) as (E1 & E2 & E3 & E4).
  { rewrite length_drop. cbn [length]. lia. }
  rewrite length_drop in E3, E4. cbn [concat length] in *. rewrite E1, take_drop. split; [done|]. split.
  - constructor; [|done]. rewrite length_take. cbn [length]. lia.
  - destruct (length (chunks_of fuel n (drop n (x :: l)))); rewrite ?Nat.mul_succ_r in *; lia.
Qed.

(** Every validator is in exactly one committee: shuffling
    permutes, and the committees, none empty and none larger than the ceiling
    of the quotient, are the shuffled validators cut into at most the number of
    committees asked for. *)
Theorem committees_partition {A} (validators : list A) seed (count : nat) :
  validators <> [] -> (0 < count)%nat ->
  exists cs, compute_committees validators seed count = Some cs /\
    concat cs ≡ₚ validators /\ (length cs <= count)%nat /\
    Forall (fun c => (1 <= length c <= (length validators + count - 1) / count)%nat) cs.
Proof.
  intros Hv Hc. unfold compute_committees. destruct (Nat.eqb_spec count 0) as [|Hc0]; [lia|].
  pose proof (shuffle_perm validators seed) as Hperm.
  assert (length (shuffle_with_seed validators seed) = length validators) as Hlen by (by rewrite Hperm).
  rewrite !Hlen. assert (0 < length validators)%nat as Hpos by (destruct validators; [done|cbn; lia]).
  set (n := ((length validators + count - 1) / count)%nat).
  assert (n * count <= length validators + count - 1 < n * count + count)%nat as Hdiv.
  { pose proof (Nat.div_mod (length validators + count - 1) count ltac:(lia)).
    pose proof (Nat.mod_upper_bound (length validators + count - 1) count ltac:(lia)). unfold n. lia. }
  destruct (Nat.eqb_spec n 0); [nia|]. eexists. split; [done|].
  destruct (chunks_of_spec n ltac:(lia) (length validators) (shuffle_with_seed validators seed))
    as (E1 & E2 & E3 & E4); [lia|]. rewrite E1. rewrite Hlen in E3, E4.
  split; [done|]. split; [nia|done].
Qed.

End Seed.

Lemma committees_partition_witness :
  exists cs, compute_committees (fun _ => 5) [10; 20; 30; 40; 50] 1 2 = Some cs /\
    concat cs ≡ₚ [10; 20; 30; 40; 50] /\ (length cs <= 2)%nat /\
    Forall (fun c => (1 <= length c <= (length [10%Z; 20%Z; 30%Z; 40%Z; 50%Z] + 2 - 1) / 2)%nat) cs.
Proof. apply (committees_partition (fun _ => 5) [10; 20; 30; 40; 50] 1 2); [done|lia]. Defined.

(** Committees of no validators panic. *)
Lemma no_validators_panic (keccak : list u8 -> Hash) seed : compute_committees (A := Z) keccak [] seed 2 = None.
Proof. done. Qed.

(** The mix does not depend on the order of the reveals. *)
Lemma mix_order_independent l1 l2 r : l1 ≡ₚ l2 ->
  mix (foldl (fun r x => mix_in x r) r l1) = mix (foldl (fun r x => mix_in x r) r l2).
Proof.
  intros Hp. revert r. induction Hp as [|x l1 l2 _ IH|x y l|l1 l2 l3 _ IH1 _ IH2]; intros r; cbn; [done|by rewrite IH| |by rewrite IH1].
  assert (forall l r r', mix r = mix r' ->
    mix (foldl (fun r x => mix_in x r) r l) = mix (foldl (fun r x => mix_in x r) r' l)) as Hm.
  { clear. induction l as [|z l IH]; intros r r' E; [done|]. cbn. apply IH. cbn. by rewrite E. }
  apply Hm. cbn. unfold xor_hashes. rewrite !Z.lxor_assoc. f_equal. apply Z.lxor_comm.
Qed.

(** Whoever reveals last chooses the mix. *)
Lemma last_reveal_chooses r target : mix (mix_in (xor_hashes (mix r) target) r) = target.
Proof. cbn. unfold xor_hashes. by rewrite <- Z.lxor_assoc, Z.lxor_nilpotent, Z.lxor_0_l. Qed.

End Randao.

(** [committee_cache.rs]: the map from validators to committees.  [validators]
    is the order in which the validator set is iterated. *)
Module Committees.

Definition COMMITTEE_SIZE : nat := 128.

Record CommitteeKeyCache := {
  epoch : u64;
  num_committees : nat;
  validator_committee : gmap ValidatorId nat;
  committee_members : gmap nat (list ValidatorId);
  total_validators : nat;
}.

Definition place (committee_size : nat) (acc : gmap ValidatorId nat * gmap nat (list ValidatorId))
    (iv : nat * ValidatorId) : gmap ValidatorId nat * gmap nat (list ValidatorId) :=
  let idx := (fst iv / committee_size)%nat in
  (<[snd iv := idx]> (fst acc), <[idx := default [] (snd acc !! idx) ++ [snd iv]]> (snd acc)).

(** [None]: a committee size of zero divides by zero. *)
Definition build (e : u64) (validators : list ValidatorId) (committee_size : nat)
  : option CommitteeKeyCache :=
  if (committee_size =? 0)%nat then None
  else
    let n := length validators in
    let '(vc, cm) := foldl (place committee_size) (∅, ∅) (imap pair validators) in
    Some {| epoch := e; num_committees := ((n + committee_size - 1) / committee_size)%nat;
            validator_committee := vc; committee_members := cm; total_validators := n |}.

Definition get_committee (v : ValidatorId) (c : CommitteeKeyCache) : option nat :=
  validator_committee c !! v.
Definition get_committee_members (i : nat) (c : CommitteeKeyCache) : option (list ValidatorId) :=
  committee_members c !! i.

Record ParticipationAnalysis := { present : nat; absent : nat; committees_with_absences : nat }.

(** The committees of the absent, by position; [None]: division by zero. *)
Fixpoint absences (per : nat) (i : nat) (participation : list bool) : option (gset nat) :=
  match participation with
  | [] => Some ∅
  | true :: ps => absences per (S i) ps
  | false :: ps =>
      if (per =? 0)%nat then None
      else s ← absences per (S i) ps; Some ({[(i / per)%nat]} ∪ s)
  end.

Definition analyze_participation (participation : list bool) (c : CommitteeKeyCache)
  : option ParticipationAnalysis :=
  let per := (total_validators c / max (num_committees c) 1)%nat in
  let p := length (filter (fun b => b = true) participation) in
  s ← absences per 0 participation;
  Some {| present := p; absent := (length participation - p)%nat;
          committees_with_absences := size s |}.

Lemma place_spec sz l : (0 < sz)%nat -> NoDup l ->
  let '(vc, cm) := foldl (place sz) (∅, ∅) (imap pair l) in
  (forall v i, vc !! v = Some i <-> exists k, l !! k = Some v /\ i = (k / sz)%nat) /\
  (forall i v, v ∈ default [] (cm !! i) <-> vc !! v = Some i).
Proof.
  intros Hsz. induction l as [|x l IH] using rev_ind; intros Hnd.
  { cbn. split; [intros v i; rewrite lookup_empty; split; [done|by intros (k & ? & _)]|].
    intros i v. rewrite !lookup_empty. split; [by intros ?%elem_of_nil|done]. }
  apply NoDup_app in Hnd as (Hnd & Hx & _). specialize (IH Hnd).
  rewrite imap_app, foldl_app. destruct (foldl (place sz) (∅, ∅) (imap pair l)) as [vc cm].
  destruct IH as [IH1 IH2]. cbn. rewrite Nat.add_0_r.
  assert (forall i, vc !! x <> Some i) as Hnew.
  { intros i (k & Hk & _)%IH1. apply list_elem_of_lookup_2 in Hk. apply (Hx x Hk). left. }
  split.
  - intros v i. destruct (decide (v = x)) as [->|Hne].
    + rewrite lookup_insert_eq. split.
      * intros [= <-]. exists (length l). by rewrite list_lookup_middle.
      * intros (k & Hk & ->). f_equal. f_equal. apply lookup_snoc_Some in Hk as [[_ Hk]|[-> _]]; [|done].
        exfalso. apply list_elem_of_lookup_2 in Hk. apply (Hx x Hk). left.
    + rewrite lookup_insert_ne, IH1 by done. split; intros (k & Hk & ->); exists k; (split; [|done]).
      * by apply lookup_app_l_Some.
      * apply lookup_snoc_Some in Hk as [[_ Hk]|[_ <-]]; done.
  - intros i v. destruct (decide (i = (length l / sz)%nat)) as [->|Hi].
    + rewrite lookup_insert_eq. cbn. rewrite elem_of_app, IH2, list_elem_of_singleton.
      destruct (decide (v = x)) as [->|Hne].
      * rewrite lookup_insert_eq. split; auto.
      * rewrite lookup_insert_ne by done. split; [by intros [|]|auto].
    + rewrite lookup_insert_ne, IH2 by done. destruct (decide (v = x)) as [->|Hne].
      * rewrite lookup_insert_eq. split; [intros []%Hnew|congruence].
      * by rewrite lookup_insert_ne by done.
Qed.

(** The two maps of a cache agree: a validator is a member of exactly the
    committee it is mapped to, the one of its position. *)
Lemma cache_consistent e l sz c : build e l sz = Some c -> NoDup l ->
  (forall v i, get_committee v c = Some i <-> exists k, l !! k = Some v /\ i = (k / sz)%nat) /\
  (forall v i, v ∈ default [] (get_committee_members i c) <-> get_committee v c = Some i).
Proof.
  unfold build. destruct (Nat.eqb_spec sz 0); [done|]. intros Hb Hnd.
  pose proof (place_spec sz l ltac:(lia) Hnd) as Hp.
  destruct (foldl (place sz) (∅, ∅) (imap pair l)) as [vc cm]. injection Hb as <-.
  unfold get_committee, get_committee_members. cbn. destruct Hp as [H1 H2]. split; [done|]. intros; apply H2.
Qed.

(** The analysis divides by the rounded-down number of validators of a
    committee, not by the committee size: of five validators in committees of
    two, absences of the first two are in one committee but are counted in two. *)
Lemma absences_miscounted :
  exists c, build 0 [1; 2; 3; 4; 5] 2 = Some c /\ get_committee 1 c = get_committee 2 c /\
    committees_with_absences <$> analyze_participation [false; false; true; true; true] c = Some 2%nat.
Proof. eexists. split; [reflexivity|]. split; by vm_compute. Qed.

End Committees.

(** ** Rewards for inclusion *)

Module Inclusion.

Definition MAX_INCLUSION_DELAY : u64 := 32.

Inductive RewardCurve := Linear | Exponential (halflife : u64) | Step (threshold : u64).

Record InclusionDelayTracker := { max_inclusion_delay : u64; reward_curve : RewardCurve }.

Definition default_tracker : InclusionDelayTracker :=
  {| max_inclusion_delay := MAX_INCLUSION_DELAY; reward_curve := Linear |}.

(** [None]: a half-life of zero divides by zero. *)
Definition calculate_reward (delay : u64) (base : u128) (t : InclusionDelayTracker) : option u128 :=
  if delay =? 0 then Some base
  else if max_inclusion_delay t <? delay then Some 0
  else match reward_curve t with
  | Linear =>
      Some (wrapping_mul 128 base (max_inclusion_delay t - delay) / max_inclusion_delay t)
  | Exponential halflife =>
      if halflife =? 0 then None
      else
        let halvings := delay / halflife in
        if 64 <=? halvings then Some 0 else Some (Z.shiftr base halvings)
  | Step threshold => Some (if delay <=? threshold then base else 0)
  end.

Definition is_valid_for_inclusion (attestation_slot current_slot : u64) (t : InclusionDelayTracker) : bool :=
  if current_slot <? attestation_slot then false
  else current_slot - attestation_slot <=? max_inclusion_delay t.

Definition calculate_penalty (delay : u64) (base : u128) (t : InclusionDelayTracker) : u128 :=
  let half := max_inclusion_delay t / 2 in
  if delay <=? half then 0
  else
    let excess := delay - half in
    if half <=? excess then base else wrapping_mul 128 base excess / half.

Section Reward.
Context (t : InclusionDelayTracker) (base : u128).
Hypothesis base_range : 0 <= base < 2 ^ 64.
Hypothesis delay_range : 0 <= max_inclusion_delay t < 2 ^ 64.
Hypothesis halflife_range : forall h, reward_curve t = Exponential h -> 0 <= h.

Lemma shifted_bounds k : 0 <= k -> 0 <= Z.shiftr base k <= base.
Proof.
  intros Hk. rewrite Z.shiftr_div_pow2 by done. pose proof (Z.pow_pos_nonneg 2 k ltac:(lia) Hk).
  split; [apply Z.div_pos; lia|apply Z.div_le_upper_bound; nia].
Qed.

Lemma reward_bounds d r : 0 <= d -> calculate_reward d base t = Some r -> 0 <= r <= base.
Proof.
  intros Hd. unfold calculate_reward. destruct (Z.eqb_spec d 0); [intros [= <-]; lia|].
  destruct (Z.ltb_spec (max_inclusion_delay t) d); [intros [= <-]; lia|].
  destruct (reward_curve t) as [|h|th].
  - intros [= <-]. unfold wrapping_mul. rewrite Z.mod_small by nia.
    split; [apply Z.div_pos; nia|apply Z.div_le_upper_bound; nia].
  - pose proof (halflife_range h eq_refl). destruct (Z.eqb_spec h 0); [done|].
    destruct (Z.leb_spec 64 (d / h)); intros [= <-]; [lia|]. apply shifted_bounds, Z.div_pos; lia.
  - intros [= <-]. destruct (d <=? th); lia.
Qed.

(** The reward is within the base and never grows with the delay. *)
Lemma reward_antitone d1 d2 r1 r2 : 0 <= d1 <= d2 ->
  calculate_reward d1 base t = Some r1 -> calculate_reward d2 base t = Some r2 -> 0 <= r2 <= r1.
Proof.
  intros Hd H1 H2. pose proof (reward_bounds d1 r1 ltac:(lia) H1). pose proof (reward_bounds d2 r2 ltac:(lia) H2).
  split; [lia|]. unfold calculate_reward in H1, H2.
  destruct (Z.eqb_spec d1 0); [injection H1 as <-; lia|]. destruct (Z.eqb_spec d2 0); [lia|].
  destruct (Z.ltb_spec (max_inclusion_delay t) d2); [injection H2 as <-; lia|].
  destruct (Z.ltb_spec (max_inclusion_delay t) d1); [lia|].
  destruct (reward_curve t) as [|h|th].
  - injection H1 as <-. injection H2 as <-. unfold wrapping_mul. rewrite !Z.mod_small by nia.
    apply Z.div_le_mono; nia.
  - pose proof (halflife_range h eq_refl). destruct (Z.eqb_spec h 0); [done|].
    assert (0 <= d1 / h) by (apply Z.div_pos; lia). assert (d1 / h <= d2 / h) by (apply Z.div_le_mono; lia).
    destruct (Z.leb_spec 64 (d2 / h)); injection H2 as <-; [lia|].
    destruct (Z.leb_spec 64 (d1 / h)); [lia|]. injection H1 as <-.
    rewrite !Z.shiftr_div_pow2 by lia. pose proof (Z.pow_le_mono_r 2 (d1 / h) (d2 / h)).
    pose proof (Z.pow_pos_nonneg 2 (d1 / h)). apply Z.div_le_compat_l; lia.
  - injection H1 as <-. injection H2 as <-. destruct (Z.leb_spec d1 th), (Z.leb_spec d2 th); lia.
Qed.

End Reward.

End Inclusion.

(** ** The reversion shield *)

Module Shield.

Record ReversionShield := {
  last_finalized : option Hash;
  last_finalized_height : u64;
  finalized_ancestors : gset Hash;
  block_tree : gmap Hash Hash;
}.

Definition new : ReversionShield := {|
  last_finalized := None; last_finalized_height := 0; finalized_ancestors := ∅; block_tree := ∅ |}.

Definition set_finalized (h : Hash) (height : u64) (s : ReversionShield) : ReversionShield := {|
  last_finalized := Some h; last_finalized_height := height;
  finalized_ancestors := {[h]} ∪ finalized_ancestors s; block_tree := block_tree s |}.

Definition record_block (h parent : Hash) (s : ReversionShield) : ReversionShield := {|
  last_finalized := last_finalized s; last_finalized_height := last_finalized_height s;
  finalized_ancestors := finalized_ancestors s; block_tree := <[h := parent]> (block_tree s) |}.

Definition max_depth : nat := 1000.

Fixpoint walk (depth : nat) (tree : gmap Hash Hash) (current target : Hash) : bool :=
  match depth with
  | O => false
  | S depth =>
      match tree !! current with
      | None => false
      | Some parent => if parent =? target then true else walk depth tree parent target
      end
  end.

Definition is_descendant (a b : Hash) (s : ReversionShield) : bool :=
  if a =? b then true else walk max_depth (block_tree s) a b.

Definition is_valid_block (h : Hash) (height : u64) (s : ReversionShield) : bool :=
  match last_finalized s with
  | None => true
  | Some f =>
      if h =? f then true
      else if height <=? last_finalized_height s then bool_decide (h ∈ finalized_ancestors s)
      else is_descendant h f s
  end.

Definition would_reorg_conflict (target : Hash) (s : ReversionShield) : bool :=
  match last_finalized s with
  | None => false
  | Some f => negb (is_descendant f target s)
  end.

(** [a] reaches [b] by [n] steps to the recorded parent. *)
Inductive ancestor (tree : gmap Hash Hash) : nat -> Hash -> Hash -> Prop :=
  | ancestor_refl a : ancestor tree 0 a a
  | ancestor_step n a p b : tree !! a = Some p -> ancestor tree n p b -> ancestor tree (S n) a b.

Lemma walk_sound depth tree : forall a b, walk depth tree a b = true ->
  exists n, (1 <= n <= depth)%nat /\ ancestor tree n a b.
Proof.
  induction depth as [|depth IH]; intros a b; cbn; [done|].
  destruct (tree !! a) as [p|] eqn:Hp; [|done]. destruct (Z.eqb_spec p b) as [->|].
  - intros _. exists 1%nat. split; [lia|]. econstructor; [done|constructor].
  - intros (k & Hk & Ha)%IH. exists (S k). split; [lia|]. by econstructor.
Qed.

Lemma walk_complete tree n : forall depth a b, (1 <= n <= depth)%nat -> ancestor tree n a b ->
  walk depth tree a b = true.
Proof.
  induction n as [|n IH]; intros depth a b Hn Ha; [lia|].
  inversion Ha as [|m a' p b' Hp Hpb]; subst. destruct depth as [|depth]; [lia|]. cbn. rewrite Hp.
  destruct (Z.eqb_spec p b); [done|]. destruct n as [|k]; [by inversion Hpb|].
  apply IH; [lia|done].
Qed.

(** Once a block is finalized, a block above its height is let
    through exactly when the finalized block is at most a thousand recorded
    parents below it; a reorganisation is refused exactly when its target is
    not the finalized block nor one of its thousand nearest recorded ancestors. *)
Theorem shield_exact s f h height :
  last_finalized s = Some f ->
  (last_finalized_height s < height ->
     is_valid_block h height s = true <->
     exists n, (n <= max_depth)%nat /\ ancestor (block_tree s) n h f) /\
  (would_reorg_conflict h s = false <->
     exists n, (n <= max_depth)%nat /\ ancestor (block_tree s) n f h).
Proof.
  intros Hf.
  assert (forall a b, is_descendant a b s = true <->
    exists n, (n <= max_depth)%nat /\ ancestor (block_tree s) n a b) as Hd.
  { intros a b. unfold is_descendant. destruct (Z.eqb_spec a b) as [->|Hne].
    - split; [|done]. intros _. exists 0%nat. split; [lia|constructor].
    - split; [intros (n & Hn & Ha)%walk_sound; exists n; split; [lia|done]|].
      intros (n & Hn & Ha). destruct n as [|n]; [by inversion Ha|].
      apply (walk_complete _ (S n)); [lia|done]. }
  unfold is_valid_block, would_reorg_conflict. rewrite Hf. split.
  - intros Hh. rewrite <- Hd. destruct (Z.eqb_spec h f) as [->|].
    + split; [|done]. intros _. unfold is_descendant. by rewrite Z.eqb_refl.
    + destruct (Z.leb_spec height (last_finalized_height s)); [lia|done].
  - rewrite <- Hd. destruct (is_descendant f h s); cbn; split; congruence.
Qed.

Definition two_blocks : ReversionShield :=
  set_finalized 10 1 (record_block 11 10 (record_block 10 9 new)).

Lemma shield_exact_witness :
  (last_finalized_height two_blocks < 2 ->
     is_valid_block 11 2 two_blocks = true <->
     exists n, (n <= max_depth)%nat /\ ancestor (block_tree two_blocks) n 11 10) /\
  (would_reorg_conflict 11 two_blocks = false <->
     exists n, (n <= max_depth)%nat /\ ancestor (block_tree two_blocks) n 10 11).
Proof. apply (shield_exact two_blocks 10 11 2). reflexivity. Defined.

(** A true ancestor of the finalized block, below its height, is refused:
    only finalized blocks are in the set of known ancestors. *)
Lemma ancestor_refused : is_valid_block 9 0 two_blocks = false.
Proof. by vm_compute. Qed.

End Shield.

(** ** Batches of attestations *)

Module Batch.

Definition BATCH_THRESHOLD : nat := 8.

Record BatchVerificationResult := { total : nat; valid : nat; invalid_indices : list nat }.

Definition all_valid (r : BatchVerificationResult) : bool := (length (invalid_indices r) =? 0)%nat.

Record BatchVerifier := {
  pending : list (Attestation * Hash);
  batch_threshold : nat;
}.

Definition new (n : nat) : BatchVerifier := {| pending := []; batch_threshold := n |}.
Definition add (a : Attestation) (m : Hash) (b : BatchVerifier) : BatchVerifier :=
  {| pending := pending b ++ [(a, m)]; batch_threshold := batch_threshold b |}.
Definition is_ready (b : BatchVerifier) : bool := (batch_threshold b <=? length (pending b))%nat.

Fixpoint find_invalid_from (i : nat) (vs : ValidatorSet) (verifier : Attestation -> Hash -> ValidatorSet -> bool)
    (l : list (Attestation * Hash)) : list nat :=
  match l with
  | [] => []
  | (a, m) :: l =>
      if verifier a m vs then find_invalid_from (S i) vs verifier l
      else i :: find_invalid_from (S i) vs verifier l
  end.

Definition try_aggregate_verify (vs : ValidatorSet) (b : BatchVerifier) : bool :=
  forallb (fun am => vs_contains vs (validator_id (fst am))) (pending b).

Definition verify_batch (vs : ValidatorSet) (verifier : Attestation -> Hash -> ValidatorSet -> bool)
    (b : BatchVerifier) : BatchVerifier * BatchVerificationResult :=
  let n := length (pending b) in
  let invalid :=
    if (n <? batch_threshold b)%nat then find_invalid_from 0 vs verifier (pending b)
    else if try_aggregate_verify vs b then []
    else find_invalid_from 0 vs verifier (pending b) in
  ({| pending := []; batch_threshold := batch_threshold b |},
   {| total := n; valid := (n - length invalid)%nat; invalid_indices := invalid |}).

Lemma find_invalid_spec vs verifier l : forall i j,
  j ∈ find_invalid_from i vs verifier l <->
  (i <= j)%nat /\ exists a m, l !! (j - i)%nat = Some (a, m) /\ verifier a m vs = false.
Proof.
  induction l as [|[a m] l IH]; intros i j; cbn [find_invalid_from].
  { split; [by intros ?%elem_of_nil|by intros (_ & a & m & ? & _)]. }
  assert (j ∈ find_invalid_from (S i) vs verifier l <-> (i < j)%nat /\
    exists a' m', ((a, m) :: l) !! (j - i)%nat = Some (a', m') /\ verifier a' m' vs = false) as Hs.
  { rewrite IH. split.
    - intros (Hij & a' & m' & Hl & Hv). split; [lia|]. exists a', m'.
      replace (j - i)%nat with (S (j - S i)) by lia. done.
    - intros (Hij & a' & m' & Hl & Hv). split; [lia|]. exists a', m'.
      replace (j - i)%nat with (S (j - S i)) in Hl by lia. done. }
  destruct (verifier a m vs) eqn:Hv.
  - rewrite Hs. split; [intros (? & ?); split; [lia|done]|].
    intros (Hij & a' & m' & Hl & Hv'). split; [|eauto]. destruct (decide (i = j)) as [->|]; [|lia].
    rewrite Nat.sub_diag in Hl. cbn in Hl. congruence.
  - rewrite elem_of_cons, Hs. split.
    + intros [->|(Hij & Hex)]; [|split; [lia|done]]. split; [lia|]. rewrite Nat.sub_diag. exists a, m. done.
    + intros (Hij & Hex). destruct (decide (j = i)); [by left|]. right. split; [lia|done].
Qed.

(** Below the threshold, or when a validator is unknown, exactly the attestations
    the verifier refuses are reported. *)
Lemma small_batches_exact vs verifier b j :
  is_ready b = false \/ try_aggregate_verify vs b = false ->
  j ∈ invalid_indices (verify_batch vs verifier b).2 <->
  exists a m, pending b !! j = Some (a, m) /\ verifier a m vs = false.
Proof.
  intros Hc. unfold verify_batch, is_ready in *. cbn [snd invalid_indices].
  assert ((if (length (pending b) <? batch_threshold b)%nat then find_invalid_from 0 vs verifier (pending b)
    else if try_aggregate_verify vs b then [] else find_invalid_from 0 vs verifier (pending b)) =
    find_invalid_from 0 vs verifier (pending b)) as ->.
  { destruct (Nat.ltb_spec (length (pending b)) (batch_threshold b)); [done|].
    destruct Hc as [Hc| ->]; [|done]. destruct (Nat.leb_spec (batch_threshold b) (length (pending b))); [done|lia]. }
  rewrite find_invalid_spec, Nat.sub_0_r. split; [intros (_ & ?); done|intros ?; split; [lia|done]].
Qed.

(** A batch that reaches the threshold is reported as valid in full
    whatever its signatures are, as soon as every attestation names a member of
    the validator set: the verifier is not asked. *)
Theorem full_batches_unverified vs verifier b :
  is_ready b = true ->
  (forall a m, (a, m) ∈ pending b -> vs_contains vs (validator_id a) = true) ->
  (verify_batch vs verifier b).2 =
    {| total := length (pending b); valid := length (pending b); invalid_indices := [] |}.
Proof.
  unfold is_ready. intros Hr%Nat.leb_le Hv. unfold verify_batch. cbn [snd].
  destruct (Nat.ltb_spec (length (pending b)) (batch_threshold b)); [lia|].
  assert (try_aggregate_verify vs b = true) as ->.
  { apply forallb_forall. intros [a m] Hin. apply list_elem_of_In in Hin. by apply (Hv a m). }
  cbn [length]. by rewrite Nat.sub_0_r.
Qed.

Definition an_attestation : Attestation := {|
  validator_id := 1; source_checkpoint := {| id_epoch := 0; id_block_hash := 0 |};
  target_checkpoint := {| id_epoch := 1; id_block_hash := 5 |}; signature := []; slot := 0 |}.

Lemma full_batches_unverified_witness :
  (verify_batch (add_validator (validator_set_new 0) 1 100) (fun _ _ _ => false)
     (add an_attestation 0 (new 1))).2 =
  {| total := 1; valid := 1; invalid_indices := [] |}.
Proof.
  apply (full_batches_unverified (add_validator (validator_set_new 0) 1 100) (fun _ _ _ => false)
    (add an_attestation 0 (new 1))); [reflexivity|].
  intros a m [= -> ->]%list_elem_of_singleton. by vm_compute.
Defined.

End Batch.

(** ** Finality proofs *)

Module Proof_.

Record ProofCheckpoint := { pc_epoch : u64; pc_block_hash : Hash; pc_block_height : u64 }.

Record FinalityProof := {
  fp_source : ProofCheckpoint;
  fp_target : ProofCheckpoint;
  fp_bitmap : list u8;
  participating_stake : u128;
  total_stake : u128;
}.

Definition from_checkpoint (c : Checkpoint) : ProofCheckpoint := {|
  pc_epoch := cp_epoch c; pc_block_hash := cp_block_hash c; pc_block_height := cp_block_height c |}.

Definition is_valid_threshold (p : FinalityProof) : bool :=
  if total_stake p =? 0 then false
  else wrapping_add 128 (wrapping_mul 128 (total_stake p) 2 / 3) 1 <=? participating_stake p.

(** The cast to [u8] keeps the low byte. *)
Definition participation_percent (p : FinalityProof) : u8 :=
  if total_stake p =? 0 then 0
  else (wrapping_mul 128 (participating_stake p) 100 / total_stake p) mod 2 ^ 8.

(** Below [2^127] of stake the threshold is more than two thirds. *)
Lemma threshold_two_thirds p : 0 < total_stake p < 2 ^ 127 ->
  is_valid_threshold p = true <-> 3 * participating_stake p > 2 * total_stake p.
Proof.
  intros Ht. unfold is_valid_threshold. destruct (Z.eqb_spec (total_stake p) 0); [lia|].
  unfold wrapping_mul. rewrite Z.mod_small by lia.
  pose proof (Z.div_mod (total_stake p * 2) 3 ltac:(lia)).
  pose proof (Z.mod_pos_bound (total_stake p * 2) 3 ltac:(lia)).
  rewrite wrapping_add_small by lia. rewrite Z.leb_le. lia.
Qed.

(** From [2^127] on the product wraps: a third of the stake passes. *)
Lemma threshold_wraps :
  is_valid_threshold {| fp_source := {| pc_epoch := 0; pc_block_hash := 0; pc_block_height := 0 |};
    fp_target := {| pc_epoch := 1; pc_block_hash := 0; pc_block_height := 0 |}; fp_bitmap := [];
    participating_stake := 1; total_stake := 2 ^ 127 |} = true.
Proof. by vm_compute. Qed.

End Proof_.
