(* ===== verification/Gateway.v ===== *)
(** * API gateway: methods, middleware and the router

    [qc-16-api-gateway]: the registry of methods with their tiers
    ([domain/methods.rs]), the middleware ([middleware/ip_protection.rs],
    [rate_limit.rs], [whitelist.rs], [validation.rs], [auth.rs], [timeout.rs] and the
    stack of [mod.rs]), the router ([router.rs]) and the HTTP service that puts them
    together ([service.rs]).

    A middleware forwards a request, possibly with other headers, or answers it
    itself.  Of an answer its status and its error code are modelled, texts are left
    out.  JSON parsing, the parsing of parameters into domain types and of addresses,
    the conversion of texts to header values and the token bucket of the rate limiter
    are parameters; what the RPC handlers do is a function of the call and of the state
    of the node, which the requests of a batch pass on. *)

From Stdlib Require Import Ascii.
From stdpp Require Import strings.
From S2P Require Import Prelude Peers.

Local Open Scope string_scope.
Local Open Scope list_scope.
Local Open Scope Z_scope.
Local Open Scope qc_scope.

(** ** Texts *)

(** [s.split(c)]. *)
Fixpoint split (c : ascii) (s : string) : list string :=
  match s with
  | EmptyString => [EmptyString]
  | String a s =>
      match split c s with
      | [] => []
      | w :: ws => if Ascii.eqb a c then EmptyString :: w :: ws else String a w :: ws
      end
  end.

(** [s.strip_prefix(p)]. *)
Fixpoint strip_prefix (p s : string) : option string :=
  match p, s with
  | EmptyString, _ => Some s
  | String a p, String b s => if Ascii.eqb a b then strip_prefix p s else None
  | String _ _, EmptyString => None
  end.

(** White space of a header value, which is printable ASCII and tabs. *)
Definition is_blank (a : ascii) : bool := Ascii.eqb a " " || Ascii.eqb a "009".

Fixpoint trim_start (s : string) : string :=
  match s with String a s' => if is_blank a then trim_start s' else s | _ => s end.
Fixpoint trim_end (s : string) : string :=
  match s with
  | EmptyString => EmptyString
  | String a s =>
      match trim_end s with
      | EmptyString => if is_blank a then EmptyString else String a EmptyString
      | s => String a s
      end
  end.
Definition trim (s : string) : string := trim_start (trim_end s).

Definition lower (a : ascii) : ascii :=
  let n := Ascii.nat_of_ascii a in
  if ((65 <=? n) && (n <=? 90))%nat then Ascii.ascii_of_nat (n + 32) else a.
Fixpoint to_ascii_lowercase (s : string) : string :=
  match s with EmptyString => EmptyString | String a s => String (lower a) (to_ascii_lowercase s) end.
Definition eq_ignore_ascii_case (a b : string) : bool :=
  String.eqb (to_ascii_lowercase a) (to_ascii_lowercase b).

Definition one_of (s : string) (l : list string) : bool := existsb (String.eqb s) l.

(** [s.parse::<usize>()]: digits, after at most one plus sign. *)
Fixpoint parse_digits (acc : Z) (s : string) : option Z :=
  match s with
  | EmptyString => Some acc
  | String a s =>
      let d := Z.of_nat (Ascii.nat_of_ascii a) - 48 in
      if (0 <=? d) && (d <=? 9) then
        let acc := 10 * acc + d in if acc <? 2 ^ 64 then parse_digits acc s else None
      else None
  end.
Definition parse_usize (s : string) : option Z :=
  let s := match s with String a s' => if Ascii.eqb a "+" then s' else s | _ => s end in
  if String.eqb s "" then None else parse_digits 0 s.

(** ** JSON *)

(** [serde_json::Value]; a number is its text. *)
Inductive Json :=
  | JNull
  | JBool (b : bool)
  | JNumber (n : string)
  | JString (s : string)
  | JArray (l : list Json)
  | JObject (o : list (string * Json)).

Definition obj_get (k : string) (o : list (string * Json)) : option Json :=
  snd <$> List.find (fun e => String.eqb (fst e) k) o.
(** [value.get(key)], [None] for what is not an object. *)
Definition jget (k : string) (v : Json) : option Json :=
  match v with JObject o => obj_get k o | _ => None end.
Definition as_str (v : Json) : option string := match v with JString s => Some s | _ => None end.

(** ** Errors *)

Record ApiError := { ae_code : Z }.

Definition parse_error : ApiError := {| ae_code := -32700 |}.
Definition invalid_request : ApiError := {| ae_code := -32600 |}.
Definition method_not_found : ApiError := {| ae_code := -32601 |}.
Definition invalid_params : ApiError := {| ae_code := -32602 |}.
Definition internal : ApiError := {| ae_code := -32603 |}.
Definition limit_exceeded : ApiError := {| ae_code := -32005 |}.
Definition timeout_error : ApiError := {| ae_code := -32006 |}.
Definition unauthorized : ApiError := {| ae_code := -32010 |}.
Definition rate_limited : ApiError := {| ae_code := -32029 |}.

(** ** Methods *)

Inductive MethodTier := Public | Protected | AdminTier.
Inductive MethodCategory := Eth | Web3 | Net | TxPool | AdminCategory | Debug | Trace.

Record MethodBehavior := { timeout : Z; is_write : bool; target_subsystem : option string }.
Record MethodInfo := {
  name : string;
  tier : MethodTier;
  category : MethodCategory;
  behavior : MethodBehavior;
}.

#[export] Instance MethodTier_eq_dec : EqDecision MethodTier.
Proof. solve_decision. Defined.

Definition requires_auth (t : MethodTier) : bool :=
  match t with Protected | AdminTier => true | Public => false end.
Definition requires_localhost (t : MethodTier) : bool :=
  match t with AdminTier => true | _ => false end.

Definition read_only (secs : Z) (target : option string) : MethodBehavior :=
  {| timeout := secs; is_write := false; target_subsystem := target |}.
Definition write (secs : Z) (target : option string) : MethodBehavior :=
  {| timeout := secs; is_write := true; target_subsystem := target |}.
Definition read_method (n : string) (t : MethodTier) (c : MethodCategory) (secs : Z)
  (target : option string) : MethodInfo :=
  {| name := n; tier := t; category := c; behavior := read_only secs target |}.
Definition write_method (n : string) (t : MethodTier) (c : MethodCategory) (secs : Z)
  (target : option string) : MethodInfo :=
  {| name := n; tier := t; category := c; behavior := write secs target |}.

Definition methods : list MethodInfo := [
  read_method "eth_chainId" Public Eth 5 None;
  read_method "eth_blockNumber" Public Eth 5 (Some "qc-02-block-storage");
  read_method "eth_gasPrice" Public Eth 5 (Some "qc-06-mempool");
  read_method "eth_maxPriorityFeePerGas" Public Eth 5 (Some "qc-06-mempool");
  read_method "eth_feeHistory" Public Eth 10 (Some "qc-02-block-storage");
  read_method "eth_getBalance" Public Eth 5 (Some "qc-04-state-management");
  read_method "eth_getCode" Public Eth 5 (Some "qc-04-state-management");
  read_method "eth_getStorageAt" Public Eth 5 (Some "qc-04-state-management");
  read_method "eth_getTransactionCount" Public Eth 5 (Some "qc-04-state-management");
  read_method "eth_accounts" Public Eth 5 None;
  read_method "eth_getBlockByHash" Public Eth 10 (Some "qc-02-block-storage");
  read_method "eth_getBlockByNumber" Public Eth 10 (Some "qc-02-block-storage");
  read_method "eth_getBlockTransactionCountByHash" Public Eth 5 (Some "qc-02-block-storage");
  read_method "eth_getBlockTransactionCountByNumber" Public Eth 5 (Some "qc-02-block-storage");
  read_method "eth_getUncleCountByBlockHash" Public Eth 5 None;
  read_method "eth_getUncleCountByBlockNumber" Public Eth 5 None;
  read_method "eth_getTransactionByHash" Public Eth 10 (Some "qc-03-transaction-indexing");
  read_method "eth_getTransactionByBlockHashAndIndex" Public Eth 10 (Some "qc-03-transaction-indexing");
  read_method "eth_getTransactionByBlockNumberAndIndex" Public Eth 10 (Some "qc-03-transaction-indexing");
  read_method "eth_getTransactionReceipt" Public Eth 10 (Some "qc-03-transaction-indexing");
  read_method "eth_getBlockReceipts" Public Eth 30 (Some "qc-03-transaction-indexing");
  read_method "eth_call" Public Eth 30 (Some "qc-11-smart-contracts");
  read_method "eth_estimateGas" Public Eth 30 (Some "qc-11-smart-contracts");
  read_method "eth_createAccessList" Public Eth 30 (Some "qc-11-smart-contracts");
  write_method "eth_sendRawTransaction" Public Eth 10 (Some "qc-06-mempool");
  read_method "eth_getLogs" Public Eth 60 (Some "qc-03-transaction-indexing");
  read_method "eth_getFilterChanges" Public Eth 10 (Some "qc-03-transaction-indexing");
  read_method "eth_getFilterLogs" Public Eth 60 (Some "qc-03-transaction-indexing");
  read_method "eth_newFilter" Public Eth 5 None;
  read_method "eth_newBlockFilter" Public Eth 5 None;
  read_method "eth_newPendingTransactionFilter" Public Eth 5 None;
  read_method "eth_uninstallFilter" Public Eth 5 None;
  read_method "eth_syncing" Public Eth 5 (Some "node-runtime");
  read_method "web3_clientVersion" Public Web3 5 None;
  read_method "web3_sha3" Public Web3 5 None;
  read_method "net_version" Public Net 5 None;
  read_method "net_listening" Public Net 5 (Some "qc-01-peer-discovery");
  read_method "net_peerCount" Public Net 5 (Some "qc-01-peer-discovery");
  read_method "txpool_status" Protected TxPool 5 (Some "qc-06-mempool");
  read_method "txpool_content" Protected TxPool 30 (Some "qc-06-mempool");
  read_method "txpool_contentFrom" Protected TxPool 10 (Some "qc-06-mempool");
  read_method "txpool_inspect" Protected TxPool 30 (Some "qc-06-mempool");
  read_method "admin_nodeInfo" Protected AdminCategory 5 (Some "qc-01-peer-discovery");
  read_method "admin_peers" Protected AdminCategory 5 (Some "qc-01-peer-discovery");
  read_method "admin_datadir" Protected AdminCategory 5 None;
  write_method "admin_addPeer" AdminTier AdminCategory 10 (Some "qc-01-peer-discovery");
  write_method "admin_removePeer" AdminTier AdminCategory 10 (Some "qc-01-peer-discovery");
  write_method "admin_addTrustedPeer" AdminTier AdminCategory 10 (Some "qc-01-peer-discovery");
  write_method "admin_removeTrustedPeer" AdminTier AdminCategory 10 (Some "qc-01-peer-discovery");
  read_method "debug_traceTransaction" AdminTier Debug 120 (Some "qc-11-smart-contracts");
  read_method "debug_traceBlockByHash" AdminTier Debug 300 (Some "qc-11-smart-contracts");
  read_method "debug_traceBlockByNumber" AdminTier Debug 300 (Some "qc-11-smart-contracts");
  read_method "debug_traceCall" AdminTier Debug 120 (Some "qc-11-smart-contracts");
  read_method "debug_storageRangeAt" AdminTier Debug 30 (Some "qc-04-state-management");
  read_method "debug_accountRange" AdminTier Debug 30 (Some "qc-04-state-management");
  read_method "debug_getHeaderRlp" AdminTier Debug 5 (Some "qc-02-block-storage");
  read_method "debug_getBlockRlp" AdminTier Debug 10 (Some "qc-02-block-storage");
  write_method "debug_setHead" AdminTier Debug 60 (Some "qc-02-block-storage");
  read_method "debug_getRawBlock" AdminTier Debug 10 (Some "qc-02-block-storage");
  read_method "debug_getRawHeader" AdminTier Debug 5 (Some "qc-02-block-storage");
  read_method "debug_getRawReceipts" AdminTier Debug 10 (Some "qc-03-transaction-indexing");
  read_method "debug_getRawTransaction" AdminTier Debug 5 (Some "qc-03-transaction-indexing");
  read_method "trace_block" AdminTier Trace 300 (Some "qc-11-smart-contracts");
  read_method "trace_transaction" AdminTier Trace 120 (Some "qc-11-smart-contracts");
  read_method "trace_call" AdminTier Trace 120 (Some "qc-11-smart-contracts");
  read_method "trace_callMany" AdminTier Trace 300 (Some "qc-11-smart-contracts");
  read_method "trace_rawTransaction" AdminTier Trace 120 (Some "qc-11-smart-contracts");
  read_method "trace_replayBlockTransactions" AdminTier Trace 300 (Some "qc-11-smart-contracts");
  read_method "trace_replayTransaction" AdminTier Trace 120 (Some "qc-11-smart-contracts")
].

(** The map from names to entries, as the list of its entries: the names are distinct
    ([names_distinct]). *)
Definition METHOD_REGISTRY : list MethodInfo := methods.
Definition registry_get (method : string) : option MethodInfo :=
  List.find (fun i => String.eqb (name i) method) METHOD_REGISTRY.

Definition get_method_info (method : string) : option MethodInfo := registry_get method.
Definition is_method_supported (method : string) : bool :=
  match registry_get method with Some _ => true | None => false end.
Definition get_method_tier (method : string) : option MethodTier := tier <$> registry_get method.
Definition get_method_timeout (method : string) : Z :=
  default 10 ((fun i => timeout (behavior i)) <$> registry_get method).
Definition is_write_method (method : string) : bool :=
  default false ((fun i => is_write (behavior i)) <$> registry_get method).
Definition get_methods_by_tier (t : MethodTier) : list string :=
  name <$> filter (fun i => tier i = t) METHOD_REGISTRY.

(** ** Requests *)

(** A header value by what [to_str] makes of it. *)
Definition HeaderValue := option string.

(** [headers] by lower-case name; [connect_info] is the address of the peer, when the
    server records it. *)
Record Request := {
  post : bool;
  headers : gmap string HeaderValue;
  query : option string;
  body : list u8;
  connect_info : option IpAddr;
}.

Definition get_header (n : string) (r : Request) : option HeaderValue :=
  headers r !! to_ascii_lowercase n.
Definition header_str (n : string) (r : Request) : option string := h ← get_header n r; h.
Definition insert_header (n : string) (v : option HeaderValue) (r : Request) : Request :=
  match v with
  | Some v => {| post := post r; headers := <[n := v]> (headers r); query := query r;
                 body := body r; connect_info := connect_info r |}
  | None => r
  end.

(** The first of the pairs of a query string that starts with [prefix]. *)
Definition query_pair (prefix : string) (r : Request) : option string :=
  q ← query r; head (omap (strip_prefix prefix) (split "&" q)).

Inductive Outcome := Forward (r : Request) | Reply (status : Z) (e : ApiError).

Definition LOCALHOST : IpAddr := V4 [127; 0; 0; 1].
Definition LOCALHOST6 : IpAddr := V6 [0; 0; 0; 0; 0; 0; 0; 0; 0; 0; 0; 0; 0; 0; 0; 1].

#[export] Instance IpAddr_countable : Countable IpAddr.
Proof.
  refine (inj_countable'
    (fun a => match a with V4 b => inl b | V6 b => inr b end)
    (fun e => match e with inl b => V4 b | inr b => V6 b end) _).
  by intros [].
Defined.

Section Middleware.
Context (parse_json : list u8 -> option Json).
Context (header_from_str : string -> option HeaderValue).
Context (parse_ip : string -> option IpAddr).
Context (ip_to_string : IpAddr -> string).

(** ** Protection against forged addresses *)

Record TrustedProxyConfig := {
  trusted_proxies : list IpAddr;
  trust_localhost : bool;
  trust_private : bool;
  real_ip_header : string;
  proxy_count : nat;
}.

Definition proxy_default : TrustedProxyConfig := {|
  trusted_proxies := []; trust_localhost := true; trust_private := false;
  real_ip_header := "X-Forwarded-For"; proxy_count := 1 |}.

Definition is_localhost (a : IpAddr) : bool :=
  match a with
  | V4 b => nth 0 b 0 =? 127
  | V6 _ => bool_decide (a = LOCALHOST6)
  end.
Definition is_private_ip (a : IpAddr) : bool :=
  match a with
  | V4 b =>
      let b0 := nth 0 b 0 in
      let b1 := nth 1 b 0 in
      (b0 =? 10) || ((b0 =? 172) && (16 <=? b1) && (b1 <=? 31)) || ((b0 =? 192) && (b1 =? 168)) ||
      ((b0 =? 169) && (b1 =? 254))
  | V6 b => Z.land (nth 0 b 0) 254 =? 252
  end.

Definition is_trusted_proxy (a : IpAddr) (c : TrustedProxyConfig) : bool :=
  if decide (a ∈ trusted_proxies c) then true
  else if trust_localhost c && is_localhost a then true
  else if trust_private c && is_private_ip a then true
  else false.

Definition determine_real_ip (r : Request) (direct : IpAddr) (c : TrustedProxyConfig) : IpAddr :=
  if negb (is_trusted_proxy direct c) then direct
  else
    default direct
      (value ← (if String.eqb (real_ip_header c) "" then None else header_str (real_ip_header c) r);
       if eq_ignore_ascii_case (real_ip_header c) "x-forwarded-for" then
         let ips := trim <$> split "," value in
         let index := (length ips - (proxy_count c + 1))%nat in
         ip ← ips !! index; parse_ip ip
       else parse_ip (trim value)).

Definition ip_protection (c : TrustedProxyConfig) (r : Request) : Outcome :=
  let direct := default LOCALHOST (connect_info r) in
  let real_ip := determine_real_ip r direct c in
  Forward (insert_header "x-real-client-ip" (header_from_str (ip_to_string real_ip)) r).

(** ** Methods of a request and the whitelist *)

Record WhitelistConfig := { allow_unknown : bool; extra_methods : list string }.
Definition whitelist_default : WhitelistConfig := {| allow_unknown := false; extra_methods := [] |}.

Definition method_of (v : Json) : option string := jget "method" v ≫= as_str.

Definition extract_methods (b : list u8) : list string :=
  match parse_json b with
  | Some (JObject o) => match method_of (JObject o) with Some m => [m] | None => [] end
  | Some (JArray arr) => omap method_of arr
  | _ => []
  end.

Definition is_method_allowed (method : string) (c : WhitelistConfig) : bool :=
  if is_method_supported method then true
  else if one_of method (extra_methods c) then true
  else allow_unknown c.

Definition join (sep : string) (l : list string) : string := String.concat sep l.

(** Only the header that later middleware reads matters, but all are set: of one
    method also its timeout and whether it writes. *)
Definition method_headers (pretty_secs : Z -> string) (ms : list string) (r : Request) : Request :=
  let first := default "" (head ms) in
  let r := if (length ms =? 1)%nat then insert_header "x-rpc-method" (header_from_str first) r
           else insert_header "x-rpc-method" (header_from_str first)
                  (insert_header "x-rpc-methods" (header_from_str (join "," ms)) r) in
  if (length ms =? 1)%nat then
    match get_method_info first with
    | Some info =>
        insert_header "x-rpc-write" (header_from_str (if is_write (behavior info) then "true" else "false"))
          (insert_header "x-rpc-timeout" (header_from_str (pretty_secs (timeout (behavior info)))) r)
    | None => r
    end
  else r.

Definition whitelist (pretty_secs : Z -> string) (c : WhitelistConfig) (r : Request) : Outcome :=
  if negb (post r) then Forward r
  else if 1024 * 1024 <? Z.of_nat (length (body r)) then Reply 400 internal
  else
    match extract_methods (body r) with
    | [] => Forward r
    | ms =>
        if forallb (fun m => is_method_allowed m c) ms then Forward (method_headers pretty_secs ms r)
        else Reply 200 method_not_found
    end.

(** ** Validation *)

Record LimitsConfig := { max_request_size : Z; max_batch_size : Z }.
Definition limits_default : LimitsConfig := {| max_request_size := 1024 * 1024; max_batch_size := 100 |}.

Definition validate_single_request (o : list (string * Json)) : result ApiError unit :=
  let? _ := match obj_get "jsonrpc" o with
            | Some (JString v) => if String.eqb v "2.0" then Ok tt else Err invalid_request
            | _ => Err invalid_request
            end in
  let? _ := match obj_get "method" o with
            | Some (JString m) =>
                if String.eqb m "" then Err invalid_request
                else if (256 <? String.length m)%nat then Err invalid_request
                else Ok tt
            | _ => Err invalid_request
            end in
  let? _ := match obj_get "id" o with
            | Some (JString _) | Some (JNumber _) | Some JNull | None => Ok tt
            | Some _ => Err invalid_request
            end in
  match obj_get "params" o with
  | Some (JArray _) | Some (JObject _) | None => Ok tt
  | Some _ => Err invalid_request
  end.

Fixpoint validate_batch (arr : list Json) : result ApiError unit :=
  match arr with
  | [] => Ok tt
  | JObject o :: arr =>
      match validate_single_request o with Ok _ => validate_batch arr | _ => Err invalid_request end
  | _ :: _ => Err invalid_request
  end.

Definition validate_jsonrpc (b : list u8) (c : LimitsConfig) : result ApiError unit :=
  match parse_json b with
  | None => Err parse_error
  | Some (JObject o) => validate_single_request o
  | Some (JArray arr) =>
      if (length arr =? 0)%nat then Err invalid_request
      else if max_batch_size c <? Z.of_nat (length arr) then Err limit_exceeded
      else validate_batch arr
  | Some _ => Err invalid_request
  end.

Definition validation_status (e : ApiError) : Z := if ae_code e =? -32005 then 413 else 400.

Definition validation (c : LimitsConfig) (r : Request) : Outcome :=
  let too_large := match header_str "content-length" r ≫= parse_usize with
                   | Some len => max_request_size c <? len
                   | None => false
                   end in
  if too_large then Reply 413 limit_exceeded
  else if post r then
    if max_request_size c <? Z.of_nat (length (body r)) then Reply 413 limit_exceeded
    else
      match validate_jsonrpc (body r) c with
      | Ok _ => Forward r
      | Err e => Reply (validation_status e) e
      | Panic => Reply 500 internal
      end
  else Forward r.

(** ** Authentication *)

Record AuthConfig := { api_key : option string; allow_external_admin : bool }.

(** Both texts padded to the longer length, with different bytes. *)
Definition bytes_of (s : string) : list Z :=
  (fun a => Z.of_nat (Ascii.nat_of_ascii a)) <$> String.list_ascii_of_string s.
Definition pad (n : nat) (b : Z) (l : list Z) : list Z := l ++ replicate (n - length l) b.
Definition constant_time_compare (a b : string) : bool :=
  let max_len := Nat.max (String.length a) (String.length b) in
  let a_padded := pad max_len 0 (bytes_of a) in
  let b_padded := pad max_len 255 (bytes_of b) in
  (String.length a =? String.length b)%nat && bool_decide (a_padded = b_padded).

Definition is_localhost_ip (a : IpAddr) : bool :=
  bool_decide (a = LOCALHOST) || bool_decide (a = LOCALHOST6).

(** The first address of a list in a header. *)
Definition forwarded_ip (r : Request) : option IpAddr :=
  s ← header_str "x-forwarded-for" r;
  first ← head (split "," s);
  parse_ip (trim first).

Definition is_request_from_localhost (r : Request) : bool :=
  match connect_info r with
  | Some a => is_localhost_ip a
  | None => match forwarded_ip r with Some a => is_localhost_ip a | None => false end
  end.

Definition check_api_key (r : Request) (c : AuthConfig) : bool :=
  match api_key c with
  | None => true
  | Some expected =>
      match header_str "authorization" r ≫= strip_prefix "Bearer " with
      | Some token => constant_time_compare token expected
      | None =>
          match header_str "x-api-key" r with
          | Some key => constant_time_compare key expected
          | None =>
              match query_pair "api_key=" r with
              | Some key => constant_time_compare key expected
              | None => false
              end
          end
      end
  end.

Definition extract_method_from_request (r : Request) : option string :=
  match header_str "x-rpc-method" r with
  | Some m => Some m
  | None => query_pair "method=" r
  end.

Definition auth (c : AuthConfig) (r : Request) : Outcome :=
  match extract_method_from_request r with
  | None => Forward r
  | Some m =>
      let local := is_request_from_localhost r in
      let has_valid_key := check_api_key r c in
      match default AdminTier (get_method_tier m) with
      | Public => Forward r
      | Protected => if negb has_valid_key && negb local then Reply 401 unauthorized else Forward r
      | AdminTier =>
          if negb local && negb (allow_external_admin c) then Reply 401 unauthorized
          else if bool_decide (is_Some (api_key c)) && negb has_valid_key then Reply 401 unauthorized
          else Forward r
      end
  end.

(** ** Timeouts *)

Definition get_timeout_for_request (r : Request) (default_timeout : Z) : Z :=
  match extract_method_from_request r with
  | Some m => get_method_timeout m
  | None => default_timeout
  end.

(** ** Rate limiting *)

(** The token bucket of the [governor] crate: a full one, and a check at an instant
    that takes a token or says how long to wait. *)
Class Limiter (L : Type) : Type := {
  limiter_direct : Z -> Z -> L;
  limiter_check : Z -> L -> L * option Z;
}.

Record RateLimitConfig := {
  requests_per_second : Z;
  writes_per_second : Z;
  burst_size : Z;
  rl_enabled : bool;
  rl_whitelist : list IpAddr;
}.

Definition rate_limit_default : RateLimitConfig := {|
  requests_per_second := 100; writes_per_second := 10; burst_size := 200; rl_enabled := true;
  rl_whitelist := [LOCALHOST] |}.

(** [NonZeroU32::new(n).unwrap_or(d)]. *)
Definition non_zero_or (d n : Z) : Z := if n =? 0 then d else n.

Section RateLimit.
Context {L : Type} `{!Limiter L}.

Record TokenBucket := { read_limiter : L; write_limiter : L; last_access : Z }.

Definition bucket_new (c : RateLimitConfig) (now : Z) : TokenBucket := {|
  read_limiter := limiter_direct (non_zero_or 100 (requests_per_second c)) (non_zero_or 200 (burst_size c));
  write_limiter := limiter_direct (non_zero_or 10 (writes_per_second c)) (non_zero_or 20 (burst_size c / 10));
  last_access := now |}.

Definition check_read (now : Z) (b : TokenBucket) : TokenBucket * option Z :=
  let '(l, wait) := limiter_check now (read_limiter b) in
  ({| read_limiter := l; write_limiter := write_limiter b; last_access := now |}, wait).
Definition check_write (now : Z) (b : TokenBucket) : TokenBucket * option Z :=
  let '(l, wait) := limiter_check now (write_limiter b) in
  ({| read_limiter := read_limiter b; write_limiter := l; last_access := now |}, wait).

Record RateLimitState := { buckets : gmap IpAddr TokenBucket; rl_config : RateLimitConfig }.
Definition rate_limit_new (c : RateLimitConfig) : RateLimitState := {| buckets := ∅; rl_config := c |}.

Definition check (a : IpAddr) (write : bool) (now : Z) (s : RateLimitState)
  : RateLimitState * option Z :=
  if decide (a ∈ rl_whitelist (rl_config s)) then (s, None)
  else if negb (rl_enabled (rl_config s)) then (s, None)
  else
    let bucket := default (bucket_new (rl_config s) now) (buckets s !! a) in
    let '(bucket, wait) := if write then check_write now bucket else check_read now bucket in
    ({| buckets := <[a := bucket]> (buckets s); rl_config := rl_config s |}, wait).

Definition cleanup (max_age now : Z) (s : RateLimitState) : RateLimitState := {|
  buckets := filter (fun e => now - last_access (snd e) <= max_age) (buckets s);
  rl_config := rl_config s |}.

Definition extract_client_ip (r : Request) : IpAddr :=
  match forwarded_ip r with
  | Some a => a
  | None =>
      match header_str "x-real-ip" r ≫= parse_ip with
      | Some a => a
      | None => default LOCALHOST (connect_info r)
      end
  end.

Definition rate_limit (now : Z) (r : Request) (s : RateLimitState) : RateLimitState * Outcome :=
  let a := extract_client_ip r in
  let write := default false (is_write_method <$> header_str "x-rpc-method" r) in
  let '(s, wait) := check a write now s in
  (s, match wait with None => Forward r | Some _ => Reply 429 rate_limited end).

End RateLimit.

End Middleware.

Arguments TokenBucket : clear implicits.
Arguments RateLimitState : clear implicits.

(** ** The router *)

Section Router.
Context {BlockId CallRequest Filter TraceOptions Percentiles : Type}.

(** One constructor per handler method that a route calls. *)
Inductive RpcCall :=
  | chain_id | block_number | gas_price | syncing
  | accounts
  | get_balance (a : Z) (b : option BlockId)
  | get_code (a : Z) (b : option BlockId)
  | get_storage_at (a position : Z) (b : option BlockId)
  | get_transaction_count (a : Z) (b : option BlockId)
  | get_block_by_hash (h : Z) (full_tx : bool)
  | get_block_by_number (b : BlockId) (full_tx : bool)
  | get_block_transaction_count_by_hash (h : Z)
  | get_block_transaction_count_by_number (b : BlockId)
  | get_uncle_count_by_block_hash (h : Z)
  | get_uncle_count_by_block_number (b : BlockId)
  | get_transaction_by_hash (h : Z)
  | get_transaction_receipt (h : Z)
  | get_block_receipts (b : BlockId)
  | send_raw_transaction (raw : list u8)
  | call (c : CallRequest) (b : option BlockId)
  | estimate_gas (c : CallRequest) (b : option BlockId)
  | get_logs (f : Filter)
  | max_priority_fee_per_gas
  | fee_history (count : Z) (newest : BlockId) (percentiles : option Percentiles)
  | client_version | sha3 (data : list u8)
  | net_version | listening | peer_count
  | txpool_status | txpool_content | txpool_inspect | txpool_content_from (a : Z)
  | admin_peers | admin_node_info
  | admin_add_peer (enode : string) | admin_remove_peer (enode : string)
  | admin_datadir
  | trace_block_by_number (b : BlockId) (o : option TraceOptions)
  | subsystem_status (subsystem : string).

(** [serde_json::from_value] at the types of the parameters. *)
Context (to_address to_hash to_u256 : Json -> option Z).
Context (to_bytes : Json -> option (list u8)).
Context (to_block_id : Json -> option BlockId).
Context (to_call_request : Json -> option CallRequest).
Context (to_filter : Json -> option Filter).
Context (to_trace_options : Json -> option TraceOptions).
Context (to_percentiles : Json -> option Percentiles).
Definition to_bool (v : Json) : option bool := match v with JBool b => Some b | _ => None end.

Definition param (params : option Json) (index : nat) : option Json :=
  p ← params;
  match p with
  | JArray l => l !! index
  | _ => if (index =? 0)%nat then Some p else None
  end.

Definition parse_param {T} (from : Json -> option T) (params : option Json) (index : nat)
  : result ApiError T :=
  match param params index with
  | None => Err invalid_params
  | Some v => match from v with Some t => Ok t | None => Err invalid_params end
  end.
Definition parse_param_optional {T} (from : Json -> option T) (params : option Json) (index : nat)
  : option T := v ← param params index; from v.

(** What the handlers do: they work on the state of the node and answer. *)
Context {St : Type} (run : RpcCall -> St -> St * result ApiError Json).

(** A route: it runs a handler, or ends before one. *)
Abbreviation Route := (St -> St * result ApiError Json).
Definition stop (r : result ApiError Json) : Route := fun s => (s, r).
Definition with_param {T} (r : result ApiError T) (k : T -> Route) : Route := fun s =>
  match r with Ok t => k t s | Err e => (s, Err e) | Panic => (s, Panic) end.
Local Notation "'let!' x := r 'in' k" := (with_param r (fun x => k))
  (at level 200, x name, r at level 100, k at level 200, right associativity).

(** [unreachable!] is a panic. *)
Definition route_eth_chain (m : string) : Route :=
  if String.eqb m "eth_chainId" then run chain_id
  else if String.eqb m "eth_blockNumber" then run block_number
  else if String.eqb m "eth_gasPrice" then run gas_price
  else if String.eqb m "eth_syncing" then run syncing
  else stop Panic.

Definition route_eth_account (m : string) (ps : option Json) : Route :=
  if String.eqb m "eth_accounts" then run accounts
  else if String.eqb m "eth_getBalance" then
    let! a := parse_param to_address ps 0 in
    run (get_balance a (parse_param_optional to_block_id ps 1))
  else if String.eqb m "eth_getCode" then
    let! a := parse_param to_address ps 0 in
    run (get_code a (parse_param_optional to_block_id ps 1))
  else if String.eqb m "eth_getStorageAt" then
    let! a := parse_param to_address ps 0 in
    let! position := parse_param to_u256 ps 1 in
    run (get_storage_at a position (parse_param_optional to_block_id ps 2))
  else if String.eqb m "eth_getTransactionCount" then
    let! a := parse_param to_address ps 0 in
    run (get_transaction_count a (parse_param_optional to_block_id ps 1))
  else stop Panic.

Definition full_tx_of (ps : option Json) : bool := default false (parse_param_optional to_bool ps 1).

Definition route_eth_block (m : string) (ps : option Json) : Route :=
  if String.eqb m "eth_getBlockByHash" then
    let! h := parse_param to_hash ps 0 in run (get_block_by_hash h (full_tx_of ps))
  else if String.eqb m "eth_getBlockByNumber" then
    let! b := parse_param to_block_id ps 0 in run (get_block_by_number b (full_tx_of ps))
  else if String.eqb m "eth_getBlockTransactionCountByHash" then
    let! h := parse_param to_hash ps 0 in run (get_block_transaction_count_by_hash h)
  else if String.eqb m "eth_getBlockTransactionCountByNumber" then
    let! b := parse_param to_block_id ps 0 in run (get_block_transaction_count_by_number b)
  else if String.eqb m "eth_getUncleCountByBlockHash" then
    let! h := parse_param to_hash ps 0 in run (get_uncle_count_by_block_hash h)
  else if String.eqb m "eth_getUncleCountByBlockNumber" then
    let! b := parse_param to_block_id ps 0 in run (get_uncle_count_by_block_number b)
  else stop Panic.

Definition route_eth_transaction (m : string) (ps : option Json) : Route :=
  if String.eqb m "eth_getTransactionByHash" then
    let! h := parse_param to_hash ps 0 in run (get_transaction_by_hash h)
  else if String.eqb m "eth_getTransactionReceipt" then
    let! h := parse_param to_hash ps 0 in run (get_transaction_receipt h)
  else if String.eqb m "eth_getBlockReceipts" then
    let! b := parse_param to_block_id ps 0 in run (get_block_receipts b)
  else if String.eqb m "eth_sendRawTransaction" then
    let! raw := parse_param to_bytes ps 0 in run (send_raw_transaction raw)
  else stop Panic.

Definition route_eth_execution (m : string) (ps : option Json) : Route :=
  if String.eqb m "eth_call" then
    let! c := parse_param to_call_request ps 0 in run (call c (parse_param_optional to_block_id ps 1))
  else if String.eqb m "eth_estimateGas" then
    let! c := parse_param to_call_request ps 0 in
    run (estimate_gas c (parse_param_optional to_block_id ps 1))
  else if String.eqb m "eth_getLogs" then
    let! f := parse_param to_filter ps 0 in run (get_logs f)
  else stop Panic.

Definition route_eth_fee_market (m : string) (ps : option Json) : Route :=
  if String.eqb m "eth_maxPriorityFeePerGas" then run max_priority_fee_per_gas
  else if String.eqb m "eth_feeHistory" then
    let! n := parse_param to_u256 ps 0 in
    let! b := parse_param to_block_id ps 1 in
    run (fee_history n b (parse_param_optional to_percentiles ps 2))
  else stop Panic.

Definition route_web3_namespace (m : string) (ps : option Json) : Route :=
  if String.eqb m "web3_clientVersion" then run client_version
  else if String.eqb m "web3_sha3" then
    let! data := parse_param to_bytes ps 0 in run (sha3 data)
  else stop Panic.

Definition route_net_namespace (m : string) : Route :=
  if String.eqb m "net_version" then run net_version
  else if String.eqb m "net_listening" then run listening
  else if String.eqb m "net_peerCount" then run peer_count
  else stop Panic.

Definition route_txpool_namespace (m : string) (ps : option Json) : Route :=
  if String.eqb m "txpool_status" then run txpool_status
  else if String.eqb m "txpool_content" then run txpool_content
  else if String.eqb m "txpool_inspect" then run txpool_inspect
  else if String.eqb m "txpool_contentFrom" then
    let! a := parse_param to_address ps 0 in run (txpool_content_from a)
  else stop Panic.

Definition route_admin_namespace (m : string) (ps : option Json) : Route :=
  if String.eqb m "admin_peers" then run admin_peers
  else if String.eqb m "admin_nodeInfo" then run admin_node_info
  else if String.eqb m "admin_addPeer" then
    let! enode := parse_param as_str ps 0 in run (admin_add_peer enode)
  else if String.eqb m "admin_removePeer" then
    let! enode := parse_param as_str ps 0 in run (admin_remove_peer enode)
  else if String.eqb m "admin_datadir" then run admin_datadir
  else stop Panic.

Definition route_debug_namespace (m : string) (ps : option Json) : Route :=
  if String.eqb m "debug_traceBlockByNumber" then
    let! b := parse_param to_block_id ps 0 in
    run (trace_block_by_number b (parse_param_optional to_trace_options ps 1))
  else if String.eqb m "debug_subsystemStatus" then
    let! id := parse_param as_str ps 0 in run (subsystem_status id)
  else stop Panic.

Definition route_method (m : string) (ps : option Json) : Route :=
  if one_of m ["eth_chainId"; "eth_blockNumber"; "eth_gasPrice"; "eth_syncing"] then
    route_eth_chain m
  else if one_of m ["eth_accounts"; "eth_getBalance"; "eth_getCode"; "eth_getStorageAt";
                    "eth_getTransactionCount"] then route_eth_account m ps
  else if one_of m ["eth_getBlockByHash"; "eth_getBlockByNumber";
                    "eth_getBlockTransactionCountByHash"; "eth_getBlockTransactionCountByNumber";
                    "eth_getUncleCountByBlockHash"; "eth_getUncleCountByBlockNumber"] then
    route_eth_block m ps
  else if one_of m ["eth_getTransactionByHash"; "eth_getTransactionReceipt"; "eth_getBlockReceipts";
                    "eth_sendRawTransaction"] then route_eth_transaction m ps
  else if one_of m ["eth_call"; "eth_estimateGas"; "eth_getLogs"] then route_eth_execution m ps
  else if one_of m ["eth_maxPriorityFeePerGas"; "eth_feeHistory"] then route_eth_fee_market m ps
  else if one_of m ["web3_clientVersion"; "web3_sha3"] then route_web3_namespace m ps
  else if one_of m ["net_version"; "net_listening"; "net_peerCount"] then route_net_namespace m
  else if one_of m ["txpool_status"; "txpool_content"; "txpool_inspect"; "txpool_contentFrom"] then
    route_txpool_namespace m ps
  else if one_of m ["admin_peers"; "admin_nodeInfo"; "admin_addPeer"; "admin_removePeer";
                    "admin_datadir"] then route_admin_namespace m ps
  else if one_of m ["debug_traceBlockByNumber"; "debug_subsystemStatus"] then
    route_debug_namespace m ps
  else stop (Err method_not_found).

(** ** Requests over HTTP *)

(** A response object: the identifier, and a value or an error code. *)
Inductive RpcResponse := RpcResult (id : Json) (v : Json) | RpcFailure (id : Json) (code : Z).

Definition validate_request_id (id : option Json) : result RpcResponse unit :=
  match id with
  | None => Ok tt
  | Some JNull => Err (RpcFailure JNull (-32600))
  | Some (JString s) =>
      if String.eqb s "" then Err (RpcFailure JNull (-32600))
      else if (256 <? String.length s)%nat then Err (RpcFailure JNull (-32600))
      else Ok tt
  | Some (JNumber _) => Ok tt
  | Some _ => Err (RpcFailure JNull (-32600))
  end.

Definition process_single_request (request : Json) (s : St) : St * result unit RpcResponse :=
  let id := jget "id" request in
  match validate_request_id id with
  | Err e => (s, Ok e)
  | Panic => (s, Panic)
  | Ok _ =>
      let m := default "" (jget "method" request ≫= as_str) in
      match route_method m (jget "params" request) s with
      | (s, Ok v) => (s, Ok (RpcResult (default JNull id) v))
      | (s, Err e) => (s, Ok (RpcFailure (default JNull id) (ae_code e)))
      | (s, Panic) => (s, Panic)
      end
  end.

Inductive HttpBody := NoBody | Error (e : ApiError) | One (r : RpcResponse) | Batch (rs : list RpcResponse).
Record HttpResponse := { status : Z; answer : HttpBody }.

Fixpoint process_batch (requests : list Json) (s : St) : St * result unit (list RpcResponse) :=
  match requests with
  | [] => (s, Ok [])
  | r :: rs =>
      let? (s, resp) := process_single_request r s in
      let? (s, resps) := process_batch rs s in
      (s, Ok (resp :: resps))
  end.

Context (parse_json : list u8 -> option Json).

Definition handle_json_rpc (b : list u8) (s : St) : St * result unit HttpResponse :=
  match parse_json b with
  | None => (s, Ok {| status := 400; answer := One (RpcFailure JNull (-32700)) |})
  | Some (JArray requests) =>
      let? (s, rs) := process_batch requests s in (s, Ok {| status := 200; answer := Batch rs |})
  | Some request =>
      let? (s, r) := process_single_request request s in (s, Ok {| status := 200; answer := One r |})
  end.

Context (parse_ip : string -> option IpAddr).
Context {L : Type} `{!Limiter L}.

(** The stack of [build_http_router] around the handler of [/]: validation, then rate
    limiting.  Cross-origin headers, tracing and the timeout around both, which ends a
    request that takes too long with status 504, do not decide what is executed. *)
Definition http_service (limits : LimitsConfig) (now : Z) (r : Request) (s : RateLimitState L) (n : St)
  : RateLimitState L * (St * result unit HttpResponse) :=
  match validation parse_json limits r with
  | Reply st e => (s, (n, Ok {| status := st; answer := Error e |}))
  | Forward r =>
      match rate_limit parse_ip now r s with
      | (s, Reply st e) => (s, (n, Ok {| status := st; answer := Error e |}))
      | (s, Forward r) =>
          (s, if post r then handle_json_rpc (body r) n
              else (n, Ok {| status := 405; answer := NoBody |}))
      end
  end.

End Router.

(** ** Configuration *)

Inductive ConfigError := DuplicatePorts | InvalidRateLimit | InvalidLimit | InvalidTimeout | Invalid.

Record GatewayConfig := {
  http_port : Z;
  websocket_port : Z;
  admin_port : Z;
  gc_rate_limit : RateLimitConfig;
  gc_limits : LimitsConfig;
  default_timeout_ms : Z;
  gc_trusted_proxies : list IpAddr;
  trust_private_ips : bool;
  gc_proxy_count : nat;
  gc_allow_unknown : bool;
  gc_extra_methods : list string;
  disabled_methods : list string;
  admin_api_key : option string;
  admin_allow_external : bool;
}.

Definition gateway_default : GatewayConfig := {|
  http_port := 8545; websocket_port := 8546; admin_port := 8080;
  gc_rate_limit := rate_limit_default; gc_limits := limits_default; default_timeout_ms := 10000;
  gc_trusted_proxies := []; trust_private_ips := false; gc_proxy_count := 1;
  gc_allow_unknown := false; gc_extra_methods := []; disabled_methods := [];
  admin_api_key := None; admin_allow_external := false |}.

Definition validate_config (c : GatewayConfig) : result ConfigError unit :=
  if decide (NoDup [http_port c; websocket_port c; admin_port c]) then
    if requests_per_second (gc_rate_limit c) =? 0 then Err InvalidRateLimit
    else if max_request_size (gc_limits c) =? 0 then Err InvalidLimit
    else if max_batch_size (gc_limits c) =? 0 then Err InvalidLimit
    else if default_timeout_ms c =? 0 then Err InvalidTimeout
    else Ok tt
  else Err DuplicatePorts.

(** The layers of [MiddlewareStack], which [middleware/mod.rs] documents and nothing
    assembles. *)
Record MiddlewareStack := {
  ms_ip_protection : TrustedProxyConfig;
  ms_rate_limit : RateLimitConfig;
  ms_whitelist : WhitelistConfig;
  ms_validation : LimitsConfig;
  ms_auth : AuthConfig;
}.

Definition from_config (c : GatewayConfig) : MiddlewareStack := {|
  ms_ip_protection := {|
    trusted_proxies := gc_trusted_proxies c; trust_localhost := true;
    trust_private := trust_private_ips c; real_ip_header := "X-Forwarded-For";
    proxy_count := gc_proxy_count c |};
  ms_rate_limit := gc_rate_limit c;
  ms_whitelist := {| allow_unknown := gc_allow_unknown c; extra_methods := gc_extra_methods c |};
  ms_validation := gc_limits c;
  ms_auth := {| api_key := admin_api_key c; allow_external_admin := admin_allow_external c |} |}.
