(* ===== verification/GatewayProps.v ===== *)
(** * API gateway: what the middleware and the router guarantee

    The comparison of keys, the authentication and validation layers, the router and
    the HTTP service of [Gateway]; what the stack as it is assembled leaves out. *)

From Stdlib Require Import Ascii.
From stdpp Require Import strings.
From S2P Require Import Prelude Peers Gateway.

Local Open Scope string_scope.
Local Open Scope list_scope.
Local Open Scope Z_scope.
Local Open Scope qc_scope.

(** Lookups of literal keys are evaluated by [vm_compute] only. *)
#[local] Opaque get_header.

(** ** Keys *)

Lemma length_bytes_of s : length (bytes_of s) = String.length s.
Proof. unfold bytes_of. rewrite length_fmap. induction s as [|a s IH]; [done|]. cbn. by rewrite IH. Qed.

Lemma bytes_of_inj a b : bytes_of a = bytes_of b -> a = b.
Proof.
  unfold bytes_of. intros H. apply list_fmap_eq_inj in H.
  - by rewrite <- (String.string_of_list_ascii_of_string a), H, String.string_of_list_ascii_of_string.
  - intros x y E. apply Nat2Z.inj in E.
    by rewrite <- (ascii_nat_embedding x), <- (ascii_nat_embedding y), E.
Qed.

Lemma pad_full n b l : (n <= length l)%nat -> pad n b l = l.
Proof. intros H. unfold pad. replace (n - length l)%nat with 0%nat by lia. apply app_nil_r. Qed.

(** The comparison that takes the same time for all keys of a length decides equality. *)
Lemma constant_time_compare_exact a b : constant_time_compare a b = String.eqb a b.
Proof.
  unfold constant_time_compare. destruct (String.eqb_spec a b) as [-> |Hab].
  - rewrite Nat.eqb_refl, !pad_full by (rewrite length_bytes_of; lia). by rewrite bool_decide_eq_true_2.
  - destruct (Nat.eqb_spec (String.length a) (String.length b)) as [E|E]; [|done].
    rewrite !pad_full by (rewrite length_bytes_of; lia).
    apply bool_decide_eq_false_2. intros H. by apply Hab, bytes_of_inj.
Qed.

(** ** The registry and the router *)

Lemma names_distinct : NoDup (name <$> methods).
Proof. apply (bool_decide_eq_true_1 (NoDup (name <$> methods))). by vm_compute. Qed.

(** The methods the router knows. *)
Definition routed : list string := [
  "eth_chainId"; "eth_blockNumber"; "eth_gasPrice"; "eth_syncing"; "eth_accounts"; "eth_getBalance";
  "eth_getCode"; "eth_getStorageAt"; "eth_getTransactionCount"; "eth_getBlockByHash";
  "eth_getBlockByNumber"; "eth_getBlockTransactionCountByHash"; "eth_getBlockTransactionCountByNumber";
  "eth_getUncleCountByBlockHash"; "eth_getUncleCountByBlockNumber"; "eth_getTransactionByHash";
  "eth_getTransactionReceipt"; "eth_getBlockReceipts"; "eth_sendRawTransaction"; "eth_call";
  "eth_estimateGas"; "eth_getLogs"; "eth_maxPriorityFeePerGas"; "eth_feeHistory"; "web3_clientVersion";
  "web3_sha3"; "net_version"; "net_listening"; "net_peerCount"; "txpool_status"; "txpool_content";
  "txpool_inspect"; "txpool_contentFrom"; "admin_peers"; "admin_nodeInfo"; "admin_addPeer";
  "admin_removePeer"; "admin_datadir"; "debug_traceBlockByNumber"; "debug_subsystemStatus"].

(** One method is routed without being registered. *)
Lemma routed_registered :
  filter (fun m => is_method_supported m = false) routed = ["debug_subsystemStatus"].
Proof. by vm_compute. Qed.

(** Thirty registered methods are not routed, among them the whole [trace] group. *)
Lemma registered_not_routed :
  length (filter (fun i => one_of (name i) routed = false) methods) = 30%nat.
Proof. by vm_compute. Qed.

Lemma one_of_elem m l : one_of m l = true <-> m ∈ l.
Proof.
  unfold one_of. rewrite existsb_exists. split.
  - intros (x & Hx & E). apply String.eqb_eq in E as ->. by apply list_elem_of_In.
  - intros H. exists m. split; [by apply list_elem_of_In|apply String.eqb_refl].
Qed.

Section Router.
Context {BlockId CallRequest Filter TraceOptions Percentiles : Type}.
Context (to_address to_hash to_u256 : Json -> option Z).
Context (to_bytes : Json -> option (list u8)).
Context (to_block_id : Json -> option BlockId).
Context (to_call_request : Json -> option CallRequest).
Context (to_filter : Json -> option Filter).
Context (to_trace_options : Json -> option TraceOptions).
Context (to_percentiles : Json -> option Percentiles).
Context {St : Type}.
Context (run : @RpcCall BlockId CallRequest Filter TraceOptions Percentiles ->
  St -> St * result ApiError Json).

Local Abbreviation route := (route_method to_address to_hash to_u256 to_bytes to_block_id
  to_call_request to_filter to_trace_options to_percentiles run).
Local Abbreviation process := (process_single_request to_address to_hash to_u256 to_bytes to_block_id
  to_call_request to_filter to_trace_options to_percentiles run).
Local Abbreviation batch := (process_batch to_address to_hash to_u256 to_bytes to_block_id
  to_call_request to_filter to_trace_options to_percentiles run).
Local Abbreviation handle := (handle_json_rpc to_address to_hash to_u256 to_bytes to_block_id
  to_call_request to_filter to_trace_options to_percentiles run).

(** *** What the handlers are for

    The method of every handler, as the comment on its function in [rpc/] names
    it, and the parameters it takes, by their position in the request. *)

Definition documented_method (c : @RpcCall BlockId CallRequest Filter TraceOptions Percentiles) : string :=
  match c with
  | chain_id => "eth_chainId" | block_number => "eth_blockNumber" | gas_price => "eth_gasPrice"
  | syncing => "eth_syncing" | accounts => "eth_accounts" | get_balance _ _ => "eth_getBalance"
  | get_code _ _ => "eth_getCode" | get_storage_at _ _ _ => "eth_getStorageAt"
  | get_transaction_count _ _ => "eth_getTransactionCount"
  | get_block_by_hash _ _ => "eth_getBlockByHash" | get_block_by_number _ _ => "eth_getBlockByNumber"
  | get_block_transaction_count_by_hash _ => "eth_getBlockTransactionCountByHash"
  | get_block_transaction_count_by_number _ => "eth_getBlockTransactionCountByNumber"
  | get_uncle_count_by_block_hash _ => "eth_getUncleCountByBlockHash"
  | get_uncle_count_by_block_number _ => "eth_getUncleCountByBlockNumber"
  | get_transaction_by_hash _ => "eth_getTransactionByHash"
  | get_transaction_receipt _ => "eth_getTransactionReceipt"
  | get_block_receipts _ => "eth_getBlockReceipts"
  | send_raw_transaction _ => "eth_sendRawTransaction"
  | call _ _ => "eth_call" | estimate_gas _ _ => "eth_estimateGas" | get_logs _ => "eth_getLogs"
  | max_priority_fee_per_gas => "eth_maxPriorityFeePerGas" | fee_history _ _ _ => "eth_feeHistory"
  | client_version => "web3_clientVersion" | sha3 _ => "web3_sha3"
  | net_version => "net_version" | listening => "net_listening" | peer_count => "net_peerCount"
  | txpool_status => "txpool_status" | txpool_content => "txpool_content"
  | txpool_inspect => "txpool_inspect" | txpool_content_from _ => "txpool_contentFrom"
  | admin_peers => "admin_peers" | admin_node_info => "admin_nodeInfo"
  | admin_add_peer _ => "admin_addPeer" | admin_remove_peer _ => "admin_removePeer"
  | admin_datadir => "admin_datadir"
  | trace_block_by_number _ _ => "debug_traceBlockByNumber"
  | subsystem_status _ => "debug_subsystemStatus"
  end.

(** The parameter at a position of the list of parameters; a value that is no list
    is the first parameter. *)
Inductive argument : option Json -> nat -> Json -> Prop :=
| argument_of_list l i v : l !! i = Some v -> argument (Some (JArray l)) i v
| argument_alone v : (forall l, v <> JArray l) -> argument (Some v) 0 v.

Definition given {T} (from : Json -> option T) (ps : option Json) (i : nat) (t : T) : Prop :=
  exists v, argument ps i v /\ from v = Some t.
(** A parameter that may be missing, or malformed. *)
Definition maybe {T} (from : Json -> option T) (ps : option Json) (i : nat) (o : option T) : Prop :=
  match o with Some t => given from ps i t | None => forall t, ~ given from ps i t end.

Definition takes (c : @RpcCall BlockId CallRequest Filter TraceOptions Percentiles)
  (ps : option Json) : Prop :=
  match c with
  | get_balance a o | get_code a o | get_transaction_count a o =>
      given to_address ps 0 a /\ maybe to_block_id ps 1 o
  | get_storage_at a k o => given to_address ps 0 a /\ given to_u256 ps 1 k /\ maybe to_block_id ps 2 o
  | get_block_by_hash h full => given to_hash ps 0 h
      /\ exists o, maybe to_bool ps 1 o /\ full = default false o
  | get_block_by_number n full => given to_block_id ps 0 n
      /\ exists o, maybe to_bool ps 1 o /\ full = default false o
  | get_block_transaction_count_by_hash h | get_uncle_count_by_block_hash h
  | get_transaction_by_hash h | get_transaction_receipt h => given to_hash ps 0 h
  | get_block_transaction_count_by_number n | get_uncle_count_by_block_number n
  | get_block_receipts n => given to_block_id ps 0 n
  | send_raw_transaction d | sha3 d => given to_bytes ps 0 d
  | call q o | estimate_gas q o => given to_call_request ps 0 q /\ maybe to_block_id ps 1 o
  | get_logs f => given to_filter ps 0 f
  | fee_history n newest o => given to_u256 ps 0 n /\ given to_block_id ps 1 newest
      /\ maybe to_percentiles ps 2 o
  | txpool_content_from a => given to_address ps 0 a
  | admin_add_peer e | admin_remove_peer e | subsystem_status e => given as_str ps 0 e
  | trace_block_by_number n o => given to_block_id ps 0 n /\ maybe to_trace_options ps 1 o
  | _ => True
  end.

(** The call a method with its parameters stands for. *)
Definition stands_for (m : string) (ps : option Json)
  (c : @RpcCall BlockId CallRequest Filter TraceOptions Percentiles) : Prop :=
  documented_method c = m /\ takes c ps.

Lemma argument_param ps i v : argument ps i v <-> param ps i = Some v.
Proof.
  unfold param. split.
  - destruct 1 as [l i v Hv|v Hv]; [done|]. by destruct v; try (exfalso; by eapply Hv).
  - destruct ps as [p|]; [|done]. cbn. destruct p as [| | | |l|o];
      try (destruct i; [|done]; intros [= <-]; constructor; congruence). by constructor.
Qed.

Lemma given_param {T} (from : Json -> option T) ps i t :
  given from ps i t <-> exists v, param ps i = Some v /\ from v = Some t.
Proof. unfold given. apply exist_proper. intros v. by rewrite argument_param. Qed.

Lemma parse_param_cases {T} (from : Json -> option T) ps i :
  (exists t, parse_param from ps i = Ok t /\ given from ps i t)
  \/ (parse_param from ps i = Err invalid_params /\ forall t, ~ given from ps i t).
Proof.
  unfold parse_param. destruct (param ps i) as [v|] eqn:Ep.
  - destruct (from v) as [t|] eqn:E.
    + left. exists t. split; [done|]. apply given_param. by eauto.
    + right. split; [done|]. intros t (v' & Hv & Ht)%given_param. congruence.
  - right. split; [done|]. intros t (v' & Hv & Ht)%given_param. congruence.
Qed.

Lemma parse_param_optional_maybe {T} (from : Json -> option T) ps i :
  maybe from ps i (parse_param_optional from ps i).
Proof.
  unfold parse_param_optional. destruct (param ps i) as [v|] eqn:Ep; cbn.
  - destruct (from v) as [t|] eqn:E; cbn; [apply given_param; by eauto|].
    intros t (v' & Hv & Ht)%given_param. congruence.
  - intros t (v' & Hv & Ht)%given_param. congruence.
Qed.

(** Splits the membership of a method in the names of a route. *)
Ltac each_name H :=
  apply one_of_elem in H;
  repeat (apply elem_of_cons in H as [-> |H]; [cbn|]); [..|by apply elem_of_nil in H].

(** The router refuses exactly the methods outside of its list, before a handler
    runs. *)
Lemma unrouted_not_found m ps s : m ∉ routed -> route m ps s = (s, Err method_not_found).
Proof.
  intros Hm. unfold route_method.
  repeat match goal with
  | |- (if ?b then _ else _) _ = _ => destruct b eqn:H;
      [exfalso; apply Hm; each_name H; apply (bool_decide_unpack _); by vm_compute|clear H]
  end; done.
Qed.

(** No call stands for the method when a parameter it needs is not given. *)
Ltac no_call := let c := fresh in let H := fresh in
  intros c [H ?]; destruct c; try (vm_compute in H; discriminate H); cbn in *; naive_solver.
(** Reads the parameters a route needs, one after the other, and runs its handler. *)
Ltac read_params :=
  unfold with_param;
  repeat match goal with
  | |- context [parse_param ?f ?ps ?i] =>
      let H := fresh "Hgiven" in
      destruct (parse_param_cases f ps i) as [(? & -> & H)|[-> H]]; [|right; split; [no_call|done]]
  end;
  left; eexists; (split; [|reflexivity]); (split; [reflexivity|]); cbn; unfold full_tx_of;
  split_and?; eauto using parse_param_optional_maybe.

(** A method of the router runs the handler it stands for, or a parameter is missing;
    the arms marked unreachable are unreachable. *)
Lemma route_runs m ps s : m ∈ routed ->
  (exists c, stands_for m ps c /\ route m ps s = run c s)
  \/ ((forall c, ~ stands_for m ps c) /\ route m ps s = (s, Err invalid_params)).
Proof.
  intros Hm. unfold routed in Hm.
  repeat (apply elem_of_cons in Hm as [-> |Hm]; [cbn; unfold stands_for; read_params|]).
  by apply elem_of_nil in Hm.
Qed.

(** An identifier is accepted when it is absent, a number, or a text of 1 to 256
    characters. *)
Definition id_ok (id : option Json) : Prop :=
  match id with
  | None | Some (JNumber _) => True
  | Some (JString s) => (1 <= String.length s <= 256)%nat
  | _ => False
  end.

Lemma validate_request_id_spec id :
  (id_ok id /\ validate_request_id id = Ok tt) \/
  (~ id_ok id /\ validate_request_id id = Err (RpcFailure JNull (-32600))).
Proof.
  destruct id as [[| | |s| |]|]; cbn [id_ok validate_request_id]; try (by left); try (right; split; [by intros []|done]).
  destruct (String.eqb_spec s "") as [-> |Hs]; [right; cbn [String.length]; split; [lia|done]|].
  assert (String.length s <> 0%nat) by (by destruct s).
  destruct (Nat.ltb_spec 256 (String.length s)); [right|left]; (split; [lia|done]).
Qed.

(** What a request does to the node and is answered: a malformed identifier is
    refused; otherwise the call its method and parameters stand for is run and
    answered under the identifier of the request; without such a call nothing
    runs, and the parameters or the method are refused. *)
Definition answered (request : Json) (s : St) (resp : RpcResponse) (s' : St) : Prop :=
  let id := jget "id" request in
  let m := default "" (jget "method" request ≫= as_str) in
  let ps := jget "params" request in
  (id_ok id /\
     ((exists c r, stands_for m ps c /\ run c s = (s', r) /\
         match r with
         | Ok v => resp = RpcResult (default JNull id) v
         | Err e => resp = RpcFailure (default JNull id) (ae_code e)
         | Panic => False
         end)
      \/ (s' = s /\ m ∈ routed /\ (forall c, ~ stands_for m ps c)
          /\ resp = RpcFailure (default JNull id) (-32602))
      \/ (s' = s /\ m ∉ routed /\ resp = RpcFailure (default JNull id) (-32601))))
  \/ (~ id_ok id /\ s' = s /\ resp = RpcFailure JNull (-32600)).

(** The requests of a batch, one after the other. *)
Inductive answered_in_order : list Json -> St -> list RpcResponse -> St -> Prop :=
| answered_nil s : answered_in_order [] s [] s
| answered_cons r rs s resp s1 resps s2 : answered r s resp s1 ->
    answered_in_order rs s1 resps s2 -> answered_in_order (r :: rs) s (resp :: resps) s2.

Definition handler_panics : Prop := exists c s, (run c s).2 = Panic.

Lemma process_answers request s :
  match process request s with
  | (s', Ok resp) => answered request s resp s'
  | (_, Err _) => False
  | (_, Panic) => handler_panics
  end.
Proof.
  unfold process_single_request, answered.
  destruct (validate_request_id_spec (jget "id" request)) as [[Hi ->]|[Hi ->]]; [|by right].
  set (m := default "" _). set (ps := jget "params" request).
  destruct (decide (m ∈ routed)) as [Hm|Hm].
  - destruct (route_runs m ps s Hm) as [(c & Hc & ->)|[Hc ->]]; [|left; split; [done|]; by right; left].
    destruct (run c s) as [s' [v|e|]] eqn:Er; [left; split; [done|]; left; by exists c, (Ok v)
      |left; split; [done|]; left; by exists c, (Err e)|exists c, s; by rewrite Er].
  - rewrite unrouted_not_found by done. left. split; [done|]. by right; right.
Qed.

Lemma batch_answers requests : forall s,
  match batch requests s with
  | (s', Ok resps) => answered_in_order requests s resps s'
  | (_, Err _) => False
  | (_, Panic) => handler_panics
  end.
Proof.
  induction requests as [|r rs IH]; intros s; cbn [process_batch]; [constructor|].
  pose proof (process_answers r s) as Hr. destruct (process r s) as [s1 [resp|e|]]; cbn [sbind]; [|done..].
  specialize (IH s1). destruct (batch rs s1) as [s2 [resps|e|]]; cbn [sbind]; [|done..].
  by econstructor.
Qed.

Context (parse_json : list u8 -> option Json).

(** C33 (functional): the HTTP handler answers every body: text that is not JSON with
    status 400 and code -32700, a batch with one response per request in the order of
    the requests, each run on the node that the one before left, anything else with one
    response.  A request with a well-formed identifier runs the handler whose
    documented method it names, with the parameters at their positions, and is answered
    with its value or error code under that identifier; if a needed parameter is missing
    or malformed (-32602) or the method is unknown (-32601), or the identifier is
    malformed (-32600), no handler runs and the node is unchanged.  The router panics
    only where a handler does. *)
Theorem handle_json_rpc_answers b s :
  match handle parse_json b s with
  | (s', Ok resp) =>
      match parse_json b with
      | None => s' = s /\ resp = {| status := 400; answer := One (RpcFailure JNull (-32700)) |}
      | Some (JArray requests) => exists resps,
          resp = {| status := 200; answer := Batch resps |} /\ answered_in_order requests s resps s'
      | Some request => exists r, resp = {| status := 200; answer := One r |} /\ answered request s r s'
      end
  | (_, Err _) => False
  | (_, Panic) => handler_panics
  end.
Proof.
  unfold handle_json_rpc. destruct (parse_json b) as [[]|]; [..|done];
    try (match goal with |- context [process_single_request _ _ _ _ _ _ _ _ _ _ ?v] =>
           pose proof (process_answers v s) as Hr; destruct (process v s) as [s1 [r|e|]]
         end; cbn [sbind]; [by eauto|done|done]).
  pose proof (batch_answers l s) as Hr. destruct (batch l s) as [s1 [resps|e|]]; cbn [sbind]; by eauto.
Qed.

End Router.

(** Handlers that answer null, and a body of two requests. *)
Definition null_run (c : @RpcCall unit unit unit unit unit) (s : nat) : nat * result ApiError Json :=
  (S s, Ok JNull).
Definition no_value {T} (v : Json) : option T := None.
Definition request (id m : string) (params : list Json) : Json := JObject [
  ("jsonrpc", JString "2.0"); ("id", JNumber id); ("method", JString m); ("params", JArray params)].

(** A call, a call without its parameter and an unknown method: one handler runs. *)
Example three_requests :
  handle_json_rpc no_value no_value no_value no_value no_value no_value no_value no_value
    no_value null_run (fun _ => Some (JArray [request "1" "eth_chainId" []; request "2" "eth_getBalance" [];
      request "3" "unknown" []])) [] 0%nat
  = (1%nat, Ok {| status := 200; answer := Batch [RpcResult (JNumber "1") JNull;
      RpcFailure (JNumber "2") (-32602); RpcFailure (JNumber "3") (-32601)] |}).
Proof. by vm_compute. Qed.

(** ** Validation *)

(** A well-formed JSON-RPC request object. *)
Definition request_ok (o : list (string * Json)) : Prop :=
  obj_get "jsonrpc" o = Some (JString "2.0") /\
  (exists m, obj_get "method" o = Some (JString m) /\ (1 <= String.length m <= 256)%nat) /\
  match obj_get "id" o with
  | Some (JString _) | Some (JNumber _) | Some JNull | None => True
  | Some _ => False
  end /\
  match obj_get "params" o with
  | Some (JArray _) | Some (JObject _) | None => True
  | Some _ => False
  end.

Lemma validate_single_request_iff o :
  (request_ok o /\ validate_single_request o = Ok tt) \/
  (~ request_ok o /\ validate_single_request o = Err invalid_request).
Proof.
  unfold validate_single_request, request_ok.
  destruct (obj_get "jsonrpc" o) as [[| | |v| |]|]; cbn [rbind];
    try (right; split; [by intros (? & _)|done]).
  destruct (String.eqb_spec v "2.0") as [-> |Hv]; cbn [rbind];
    [|right; split; [intros ([=] & _); congruence|done]].
  destruct (obj_get "method" o) as [[| | |m| |]|]; cbn [rbind];
    try (right; split; [by intros (_ & (? & [=] & _) & _)|done]).
  destruct (String.eqb_spec m "") as [-> |Hm]; cbn [rbind].
  { right. split; [|done]. intros (_ & (? & [= <-] & ?) & _). cbn [String.length] in *. lia. }
  assert (String.length m <> 0%nat) by (by destruct m).
  destruct (Nat.ltb_spec 256 (String.length m)); cbn [rbind].
  { right. split; [|done]. intros (_ & (? & [= <-] & ?) & _). lia. }
  assert (exists m', Some (JString m) = Some (JString m') /\ (1 <= String.length m' <= 256)%nat)
    by (exists m; split; [done|lia]).
  destruct (obj_get "id" o) as [[]|]; cbn [rbind];
    try (right; split; [by intros (_ & _ & [] & _)|done]);
    destruct (obj_get "params" o) as [[]|];
    try (right; split; [by intros (_ & _ & _ & [])|done]); by left.
Qed.

(** What a body must be to pass validation. *)
Definition body_ok (c : LimitsConfig) (v : option Json) : Prop :=
  match v with
  | Some (JObject o) => request_ok o
  | Some (JArray arr) =>
      arr <> [] /\ Z.of_nat (length arr) <= max_batch_size c /\
      Forall (fun v => exists o, v = JObject o /\ request_ok o) arr
  | _ => False
  end.

Lemma validate_batch_iff arr :
  validate_batch arr = Ok tt <-> Forall (fun v => exists o, v = JObject o /\ request_ok o) arr.
Proof.
  induction arr as [|v arr IH]; [by split|]. rewrite Forall_cons, <- IH.
  destruct v; cbn [validate_batch]; try (split; [done|by intros [(? & [=] & _) _]]).
  destruct (validate_single_request_iff o) as [[Ho ->]|[Ho ->]].
  - split; [by eauto|by intros []].
  - split; [done|]. by intros [(? & [= <-] & ?) _].
Qed.

Lemma validate_jsonrpc_iff parse_json b c :
  validate_jsonrpc parse_json b c = Ok tt <-> body_ok c (parse_json b).
Proof.
  unfold validate_jsonrpc, body_ok. destruct (parse_json b) as [[| | | |arr|o]|]; try done.
  - destruct arr as [|v arr]; [by split; [|intros []]|]. cbn [length Nat.eqb].
    destruct (Z.ltb_spec (max_batch_size c) (Z.of_nat (S (length arr)))).
    + split; [done|]. intros (_ & ? & _). lia.
    + rewrite validate_batch_iff. split; [|by intros (_ & _ & ?)]. intros. split_and!; [done|lia|done].
  - destruct (validate_single_request_iff o) as [[Ho ->]|[Ho ->]]; by split.
Qed.

(** ** Authentication *)

Section Auth.
Context (parse_json : list u8 -> option Json).
Context (header_from_str : string -> option HeaderValue).
Context (parse_ip : string -> option IpAddr).
Context (pretty_secs : Z -> string).

(** The key a request presents: a bearer token, else a key header, else a query
    parameter. *)
Definition presented_key (r : Request) : option string :=
  match header_str "authorization" r ≫= strip_prefix "Bearer " with
  | Some token => Some token
  | None =>
      match header_str "x-api-key" r with
      | Some key => Some key
      | None => query_pair "api_key=" r
      end
  end.

(** Whatever key is configured is presented. *)
Definition holds_key (c : AuthConfig) (r : Request) : Prop :=
  forall key, api_key c = Some key -> presented_key r = Some key.

Lemma check_api_key_iff r c : check_api_key r c = true <-> holds_key c r.
Proof.
  unfold check_api_key, holds_key, presented_key. destruct (api_key c) as [key|]; [|by split].
  destruct (header_str "authorization" r ≫= strip_prefix "Bearer ") as [t|];
    [|destruct (header_str "x-api-key" r) as [t|]; [|destruct (query_pair "api_key=" r) as [t|]]];
    rewrite ?constant_time_compare_exact;
    try (destruct (String.eqb_spec t key) as [-> |Ht]; split;
         [by intros _ ? [= ->]|done|done|intros H; specialize (H key eq_refl); congruence]).
  split; [done|]. intros H. by specialize (H key eq_refl).
Qed.

(** Who may call a method: anyone a public one, a holder of the key or the local host a
    protected one, the local host with the key an administrative or unknown one. *)
Definition authorized (c : AuthConfig) (r : Request) (m : string) : Prop :=
  let local := is_request_from_localhost parse_ip r = true in
  match get_method_tier m with
  | Some Public => True
  | Some Protected => holds_key c r \/ local
  | _ => (local \/ allow_external_admin c = true) /\ holds_key c r
  end.

Lemma check_key_none r c : api_key c = None -> check_api_key r c = true.
Proof. intros E. unfold check_api_key. by rewrite E. Qed.

Lemma auth_method c r m : extract_method_from_request r = Some m ->
  (auth parse_ip c r = Forward r /\ authorized c r m) \/
  (auth parse_ip c r = Reply 401 unauthorized /\ ~ authorized c r m).
Proof.
  intros Hm. unfold auth, authorized. rewrite Hm. cbn zeta.
  pose proof (check_api_key_iff r c) as Hk.
  generalize (get_method_tier m); intros t.
  assert (bool_decide (is_Some (api_key c)) && negb (check_api_key r c) = negb (check_api_key r c)) as ->.
  { destruct (api_key c) eqn:E; [done|]. by rewrite (check_key_none r c E). }
  destruct (is_request_from_localhost parse_ip r), (check_api_key r c), (allow_external_admin c),
    t as [[]|]; cbn [default negb andb]; first [left; split; [done|]; intuition congruence|right; split; [done|]; intuition congruence].
Qed.

(** The authentication layer forwards a request unchanged exactly when
    the method it reads from the request, if it finds one, may be called: a public
    method by anyone, a protected one with the configured key or from the local host, an
    administrative or unknown one from the local host (unless external administration is
    allowed) and with the configured key.  A key counts only when it is equal to the
    configured one. *)
Theorem auth_exact c r :
  (auth parse_ip c r = Forward r <->
     forall m, extract_method_from_request r = Some m -> authorized c r m) /\
  (auth parse_ip c r <> Forward r -> auth parse_ip c r = Reply 401 unauthorized).
Proof.
  destruct (extract_method_from_request r) as [m|] eqn:Hm.
  - destruct (auth_method c r m Hm) as [[-> H]|[-> H]]; split.
    + split; [|reflexivity]. intros _ m' Em. injection Em as <-. exact H.
    + intros []. reflexivity.
    + split; [discriminate|]. intros H'. destruct (H (H' m eq_refl)).
    + reflexivity.
  - unfold auth. rewrite Hm. split; [split|].
    + intros _ m'. discriminate.
    + reflexivity.
    + intros []. reflexivity.
Qed.

(** ** The documented order *)

Lemma header_insert_eq n v r : to_ascii_lowercase n = n -> header_str n (insert_header n (Some v) r) = v.
Proof.
  intros E. unfold header_str. with_strategy transparent [get_header] unfold get_header.
  rewrite E. cbn [insert_header headers]. by rewrite lookup_insert_eq.
Qed.

Lemma header_insert_ne n n' v r : to_ascii_lowercase n <> n' ->
  header_str n (insert_header n' v r) = header_str n r.
Proof.
  intros E. destruct v as [v|]; [|reflexivity].
  unfold header_str. with_strategy transparent [get_header] unfold get_header.
  cbn [insert_header headers]. by rewrite lookup_insert_ne.
Qed.

Lemma insert_header_rest n v r :
  post (insert_header n v r) = post r /\ body (insert_header n v r) = body r /\
  query (insert_header n v r) = query r /\ connect_info (insert_header n v r) = connect_info r.
Proof. by destruct v. Qed.

(** Nothing the authentication looks at besides the method changes with the headers the
    whitelist sets. *)
Definition same_client (r r' : Request) : Prop :=
  connect_info r' = connect_info r /\ query r' = query r /\ body r' = body r /\ post r' = post r /\
  (forall n, n ∈ ["authorization"; "x-api-key"; "x-forwarded-for"; "content-length"] ->
     header_str n r' = header_str n r).

Lemma same_client_insert n v r r' :
  n ∈ ["x-rpc-method"; "x-rpc-methods"; "x-rpc-write"; "x-rpc-timeout"] ->
  same_client r r' -> same_client r (insert_header n v r').
Proof.
  intros Hn (H1 & H2 & H3 & H4 & H5). destruct (insert_header_rest n v r') as (E1 & E2 & E3 & E4).
  unfold same_client. rewrite E1, E2, E3, E4. split_and!; [assumption..|].
  intros k Hk. rewrite header_insert_ne; [by apply H5|].
  repeat (apply elem_of_cons in Hn as [-> |Hn]; [repeat (apply elem_of_cons in Hk as [-> |Hk]; [by vm_compute|]); by apply elem_of_nil in Hk|]).
  by apply elem_of_nil in Hn.
Qed.

Lemma same_client_authorized c r r' m : same_client r r' -> authorized c r' m <-> authorized c r m.
Proof.
  intros (H1 & H2 & _ & _ & H5).
  assert (is_request_from_localhost parse_ip r' = is_request_from_localhost parse_ip r) as El.
  { unfold is_request_from_localhost, forwarded_ip. rewrite H1.
    rewrite (H5 "x-forwarded-for") by (apply (bool_decide_unpack _); by vm_compute). reflexivity. }
  assert (presented_key r' = presented_key r) as Ek.
  { unfold presented_key, query_pair. rewrite H2, (H5 "authorization"), (H5 "x-api-key")
      by (apply (bool_decide_unpack _); by vm_compute). reflexivity. }
  unfold authorized, holds_key. rewrite El, Ek. reflexivity.
Qed.

Lemma method_headers_client ms r : same_client r (method_headers header_from_str pretty_secs ms r).
Proof.
  unfold method_headers.
  destruct (length ms =? 1)%nat; [destruct (get_method_info _)|];
    repeat (apply same_client_insert; [apply (bool_decide_unpack _); by vm_compute|]);
    by split_and!.
Qed.

Lemma registry_elem m i : registry_get m = Some i -> i ∈ methods /\ name i = m.
Proof.
  unfold registry_get. intros H. apply List.find_some in H as [Hi E].
  apply String.eqb_eq in E. split; [by apply list_elem_of_In|exact E].
Qed.

(** The order [middleware/mod.rs] documents: the whitelist names the method, validation
    checks the body, authentication looks at the method. *)
Definition documented (w : WhitelistConfig) (l : LimitsConfig) (a : AuthConfig) (r : Request) : Outcome :=
  match whitelist parse_json header_from_str pretty_secs w r with
  | Forward r =>
      match validation parse_json l r with Forward r => auth parse_ip a r | Reply st e => Reply st e end
  | Reply st e => Reply st e
  end.

(** The names of the registry are visible ASCII, which header values accept. *)
Hypothesis registry_headers : forall i, i ∈ methods -> header_from_str (name i) = Some (Some (name i)).

Lemma method_headers_method m ms r : is_method_supported m = true ->
  header_str "x-rpc-method" (method_headers header_from_str pretty_secs (m :: ms) r) = Some m.
Proof.
  intros Hm. unfold is_method_supported in Hm.
  destruct (registry_get m) as [i|] eqn:Hi; [|discriminate]. destruct (registry_elem _ _ Hi) as [Hi' <-].
  assert (forall r, header_str "x-rpc-method" (insert_header "x-rpc-method" (header_from_str (name i)) r) =
    Some (name i)) as Hins.
  { intros r0. rewrite (registry_headers i Hi'). by apply header_insert_eq. }
  unfold method_headers. change (default "" (head (name i :: ms))) with (name i). cbn zeta. destruct ms as [|m' ms]; cbn [length Nat.eqb]; [|apply Hins].
  unfold get_method_info. rewrite Hi. rewrite !header_insert_ne by (by vm_compute). apply Hins.
Qed.

Lemma whitelist_forwards w r r' : whitelist parse_json header_from_str pretty_secs w r = Forward r' ->
  same_client r r'.
Proof.
  unfold whitelist. destruct (negb (post r)); [intros [= <-]; by split_and!|].
  destruct (_ <? _); [discriminate|]. destruct (extract_methods _ _) as [|m ms]; [intros [= <-]; by split_and!|].
  destruct (forallb _ _); [|discriminate]. intros E. injection E as <-. apply method_headers_client.
Qed.

Lemma validation_forwards l r r' : validation parse_json l r = Forward r' ->
  r' = r /\ (post r = true -> body_ok l (parse_json (body r))).
Proof.
  unfold validation. destruct (match header_str "content-length" r ≫= parse_usize with Some _ => _ | _ => _ end);
    [discriminate|].
  destruct (post r); [|intros [= <-]; split; [reflexivity|discriminate]].
  destruct (_ <? _); [discriminate|].
  destruct (validate_jsonrpc parse_json (body r) l) as [[]| |] eqn:E; [|discriminate..].
  intros [= <-]. split; [reflexivity|]. intros _. by apply validate_jsonrpc_iff.
Qed.

(** In the documented order of whitelist, validation and authentication, a
    request that is one JSON-RPC object reaches the handlers only if its method is
    registered and its sender may call it; the body is passed on unchanged. *)
Theorem single_request_authorized l a r r' o :
  post r = true -> parse_json (body r) = Some (JObject o) ->
  documented whitelist_default l a r = Forward r' ->
  exists m, obj_get "method" o = Some (JString m) /\ is_method_supported m = true /\
    authorized a r m /\ body r' = body r.
Proof.
  intros Hp Hb. unfold documented.
  destruct (whitelist _ _ _ _ r) as [r1|] eqn:Hw; [|discriminate].
  destruct (validation parse_json l r1) as [r2|] eqn:Hv; [|discriminate]. intros Ha.
  pose proof (whitelist_forwards _ _ _ Hw) as Hc. assert (Hc' := Hc).
  destruct Hc' as (_ & _ & Eb & Ep & _).
  destruct (validation_forwards _ _ _ Hv) as [-> Hok]. rewrite Ep, Eb in Hok.
  specialize (Hok Hp). rewrite Hb in Hok. destruct Hok as (_ & (m & Hm & _) & _).
  exists m. split; [assumption|].
  unfold whitelist in Hw. rewrite Hp in Hw. cbn [negb] in Hw. destruct (_ <? _); [discriminate|].
  assert (extract_methods parse_json (body r) = [m]) as Hx.
  { unfold extract_methods. rewrite Hb. unfold method_of. cbn [jget]. rewrite Hm. reflexivity. }
  rewrite Hx in Hw. cbn [forallb] in Hw. rewrite andb_true_r in Hw.
  destruct (is_method_allowed m whitelist_default) eqn:Hal; [|discriminate].
  unfold is_method_allowed in Hal. destruct (is_method_supported m) eqn:Hs; [|discriminate].
  injection Hw as <-. split; [reflexivity|].
  destruct (auth_method a (method_headers header_from_str pretty_secs [m] r) m) as [[Ef Hau]|[Ef _]].
  { unfold extract_method_from_request. by rewrite method_headers_method. }
  - rewrite Ef in Ha. injection Ha as <-. split; [|assumption].
    apply (same_client_authorized _ r _ m) in Hau; assumption.
  - rewrite Ef in Ha. discriminate.
Qed.

End Auth.

(** A visible header value of every text; no address parses; a limiter that never
    refuses. *)
Definition any_header (s : string) : option HeaderValue := Some (Some s).
Definition no_ip (s : string) : option IpAddr := None.
Definition no_text (n : Z) : string := "".
#[local] Instance open_limiter : Limiter unit :=
  {| limiter_direct := fun _ _ => tt; limiter_check := fun _ l => (l, None) |}.

Definition remote : IpAddr := V4 [8; 8; 8; 8].
Definition from_remote : Request :=
  {| post := true; headers := ∅; query := None; body := []; connect_info := Some remote |}.
Definition from_local : Request :=
  {| post := true; headers := ∅; query := None; body := []; connect_info := Some LOCALHOST |}.
Definition add_peer : Json := request "1" "admin_addPeer" [JString "enode://x"].
Definition no_key : AuthConfig := {| api_key := None; allow_external_admin := false |}.

Lemma single_request_authorized_witness :
  (exists r', documented (fun _ => Some add_peer) any_header no_ip no_text whitelist_default
     limits_default no_key from_local = Forward r') /\
  authorized no_ip no_key from_local "admin_addPeer".
Proof.
  destruct (documented (fun _ => Some add_peer) any_header no_ip no_text whitelist_default
     limits_default no_key from_local) as [r'|st e] eqn:E; [|by vm_compute in E].
  split; [by eauto|].
  destruct (single_request_authorized (fun _ => Some add_peer) any_header no_ip no_text
    (fun _ _ => eq_refl) limits_default no_key from_local r' _ eq_refl eq_refl E) as (m & Hm & _ & Ha & _).
  injection Hm as <-. exact Ha.
Defined.

(** A batch is judged by its first method: an administrative call behind a public one
    passes the documented stack from anywhere. *)
Example batch_escapes_auth :
  let b := JArray [request "1" "eth_chainId" []; add_peer] in
  (exists r', documented (fun _ => Some b) any_header no_ip no_text whitelist_default
     limits_default no_key from_remote = Forward r') /\
  ~ authorized no_ip no_key from_remote "admin_addPeer".
Proof.
  split; [eexists; by vm_compute|]. vm_compute. by intros [[|] _].
Qed.

(** ** The stack as it is assembled *)

Section Service.
Context {BlockId CallRequest Filter TraceOptions Percentiles : Type}.
Context (to_address to_hash to_u256 : Json -> option Z).
Context (to_bytes : Json -> option (list u8)).
Context (to_block_id : Json -> option BlockId).
Context (to_call_request : Json -> option CallRequest).
Context (to_filter : Json -> option Filter).
Context (to_trace_options : Json -> option TraceOptions).
Context (to_percentiles : Json -> option Percentiles).
Context {St : Type}.
Context (run : @RpcCall BlockId CallRequest Filter TraceOptions Percentiles ->
  St -> St * result ApiError Json).
Context (parse_json : list u8 -> option Json).
Context (parse_ip : string -> option IpAddr).
Context {L : Type} `{!Limiter L}.

Local Abbreviation serve := (http_service to_address to_hash to_u256 to_bytes to_block_id
  to_call_request to_filter to_trace_options to_percentiles run parse_json parse_ip).
Local Abbreviation handle := (handle_json_rpc to_address to_hash to_u256 to_bytes to_block_id
  to_call_request to_filter to_trace_options to_percentiles run parse_json).

Lemma rate_limit_forwards now r (s : RateLimitState L) s' r' :
  rate_limit parse_ip now r s = (s', Forward r') -> r' = r.
Proof.
  unfold rate_limit. destruct (check _ _ _ _) as [s1 [w|]]; [discriminate|]. by intros [= _ <-].
Qed.

(** What the service executes depends on the body alone, once the request is valid and
    the rate limiter lets it pass: no header, key or address is looked at. *)
Lemma http_service_executes limits now r s n :
  validation parse_json limits r = Forward r -> post r = true ->
  snd (rate_limit parse_ip now r s) = Forward r -> snd (serve limits now r s n) = handle (body r) n.
Proof.
  intros Hv Hp Hl. unfold http_service. rewrite Hv.
  destruct (rate_limit parse_ip now r s) as [s' o] eqn:E. cbn [snd] in Hl. subst o.
  cbn [snd]. by rewrite Hp.
Qed.

(** The HTTP service has no authentication: a valid request to add a peer
    that the rate limiter lets pass is executed and answered, although the request comes
    from another host and the authorization rules of the method refuse it under every
    configuration that does not allow external administration. *)
Theorem admin_call_unauthenticated limits now r s n id enode a :
  validation parse_json limits r = Forward r -> post r = true ->
  snd (rate_limit parse_ip now r s) = Forward r ->
  parse_json (body r) = Some (request id "admin_addPeer" [JString enode]) ->
  is_request_from_localhost parse_ip r = false -> allow_external_admin a = false ->
  ~ authorized parse_ip a r "admin_addPeer" /\
  snd (serve limits now r s n) =
    match run (admin_add_peer enode) n with
    | (n, Ok v) => (n, Ok {| status := 200; answer := One (RpcResult (JNumber id) v) |})
    | (n, Err e) => (n, Ok {| status := 200; answer := One (RpcFailure (JNumber id) (ae_code e)) |})
    | (n, Panic) => (n, Panic)
    end.
Proof.
  intros Hv Hp Hl Hb Hloc Hext. split.
  { unfold authorized. rewrite Hloc, Hext. cbn. by intros [[|] _]. }
  rewrite http_service_executes by assumption. unfold handle_json_rpc. rewrite Hb. cbn.
  by destruct (run (admin_add_peer enode) n) as [? []].
Qed.

End Service.

Lemma admin_call_unauthenticated_witness :
  snd (http_service no_value no_value no_value no_value no_value no_value no_value no_value no_value
    null_run (fun _ => Some add_peer) no_ip limits_default 0 from_remote
    (rate_limit_new rate_limit_default) 0%nat) =
    (1%nat, Ok {| status := 200; answer := One (RpcResult (JNumber "1") JNull) |}).
Proof.
  destruct (admin_call_unauthenticated no_value no_value no_value no_value no_value no_value no_value
    no_value no_value null_run (fun _ => Some add_peer) no_ip limits_default 0 from_remote
    (rate_limit_new rate_limit_default) 0%nat "1" "enode://x" no_key) as [_ E]; [by vm_compute..|].
  exact E.
Defined.

(** ** Addresses and rate limits *)

(** A peer that is not a trusted proxy cannot choose its address. *)
Lemma untrusted_forwarding_ignored parse_ip c r direct :
  is_trusted_proxy direct c = false -> determine_real_ip parse_ip r direct c = direct.
Proof. intros H. unfold determine_real_ip. by rewrite H. Qed.

(** Behind one trusted proxy, which appends the address it sees, a client that sends the
    header itself chooses the address. *)
Example forged_address_believed parse_ip :
  determine_real_ip parse_ip
    {| post := true; headers := {["x-forwarded-for" := Some "6.6.6.6, 9.9.9.9"]}; query := None;
       body := []; connect_info := Some LOCALHOST |} LOCALHOST proxy_default =
    default LOCALHOST (parse_ip "6.6.6.6").
Proof. by vm_compute. Qed.

Section RateLimits.
Context (parse_ip : string -> option IpAddr).
Context {L : Type} `{!Limiter L}.

(** Addresses on the list and a disabled limiter are never limited. *)
Lemma check_exempt a w now (s : RateLimitState L) :
  a ∈ rl_whitelist (rl_config s) \/ rl_enabled (rl_config s) = false -> check a w now s = (s, None).
Proof.
  intros H. unfold check. destruct (decide _) as [|Hn]; [done|]. destruct H as [|H]; [done|]. by rewrite H.
Qed.

(** A check changes one limiter of one address. *)
Lemma check_effect a w now (s : RateLimitState L) :
  a ∉ rl_whitelist (rl_config s) -> rl_enabled (rl_config s) = true ->
  let b := default (bucket_new (rl_config s) now) (buckets s !! a) in
  exists b', buckets (fst (check a w now s)) = <[a := b']> (buckets s) /\
    rl_config (fst (check a w now s)) = rl_config s /\
    (if w then read_limiter b' = read_limiter b /\
               (write_limiter b', snd (check a w now s)) = limiter_check now (write_limiter b)
     else write_limiter b' = write_limiter b /\
          (read_limiter b', snd (check a w now s)) = limiter_check now (read_limiter b)).
Proof.
  intros Ha He b. unfold check. rewrite decide_False, He by done. cbn [negb]. fold b.
  unfold check_write, check_read.
  destruct w; [destruct (limiter_check now (write_limiter b))|destruct (limiter_check now (read_limiter b))];
    eexists; cbn; by split_and!.
Qed.

Lemma check_other a a' w now (s : RateLimitState L) : a <> a' ->
  buckets (fst (check a w now s)) !! a' = buckets s !! a'.
Proof.
  intros Hne. destruct (decide (a ∈ rl_whitelist (rl_config s) \/ rl_enabled (rl_config s) = false)) as [H|H].
  - by rewrite check_exempt.
  - destruct (check_effect a w now s) as (b' & -> & _); [tauto|destruct (rl_enabled _); tauto|].
    by rewrite lookup_insert_ne.
Qed.

(** The address that is counted is the client's to choose: with the default
    configuration a header that names the local host passes in every state. *)
Lemma forged_localhost_unlimited now r (s : RateLimitState L) :
  rl_config s = rate_limit_default -> forwarded_ip parse_ip r = Some LOCALHOST ->
  rate_limit parse_ip now r s = (s, Forward r).
Proof.
  intros Hc Hf. unfold rate_limit, extract_client_ip. rewrite Hf, check_exempt; [reflexivity|].
  left. rewrite Hc. cbn [rl_whitelist rate_limit_default]. by left.
Qed.

(** Without the header of the whitelist layer, which the service does not install, a
    submission of a transaction is counted as a read. *)
Lemma unnamed_counted_as_read now r (s : RateLimitState L) :
  get_header "x-rpc-method" r = None ->
  rate_limit parse_ip now r s =
    (fst (check (extract_client_ip parse_ip r) false now s),
     match snd (check (extract_client_ip parse_ip r) false now s) with
     | None => Forward r | Some _ => Reply 429 rate_limited end).
Proof.
  intros H. unfold rate_limit, header_str. rewrite H. cbn [mbind option_bind fmap option_fmap option_map].
  cbn [default from_option]. by destruct (check _ _ _ _).
Qed.

End RateLimits.

(** The client chooses its own timeout, up to five minutes. *)
Example client_chooses_timeout :
  get_timeout_for_request {| post := true; headers := {["x-rpc-method" := Some "trace_block"]};
    query := None; body := []; connect_info := None |} 10 = 300.
Proof. by vm_compute. Qed.

(** Disabled methods are not looked at. *)
Lemma disabled_methods_ignored c c' :
  c' = {| http_port := http_port c; websocket_port := websocket_port c; admin_port := admin_port c;
    gc_rate_limit := gc_rate_limit c; gc_limits := gc_limits c; default_timeout_ms := default_timeout_ms c;
    gc_trusted_proxies := gc_trusted_proxies c; trust_private_ips := trust_private_ips c;
    gc_proxy_count := gc_proxy_count c; gc_allow_unknown := gc_allow_unknown c;
    gc_extra_methods := gc_extra_methods c; disabled_methods := []; admin_api_key := admin_api_key c;
    admin_allow_external := admin_allow_external c |} -> from_config c' = from_config c.
Proof. by intros ->. Qed.
