(* ===== verification/GatewayState.v ===== *)
(** * API gateway: pending requests, circuits and subscriptions

    The parts of [qc-16-api-gateway] that keep state between requests: the store of
    requests that wait for a subsystem ([adapters/pending.rs]) with the tasks that wait
    and the listener that completes them ([ipc/handler.rs]), the circuit breaker
    ([middleware/circuit_breaker.rs]) with the handler it protects, and the WebSocket
    subscriptions ([ws/subscriptions.rs], [ws/handler.rs]).

    The maps are concurrent; every operation on one entry is one step.  Instants and
    durations are numbers of one clock. *)

From Stdlib Require Import Ascii.
From stdpp Require Import strings.
From S2P Require Import Prelude Gateway.

Local Open Scope string_scope.
Local Open Scope list_scope.
Local Open Scope Z_scope.
Local Open Scope qc_scope.

(** ** Pending requests *)

Module Pending.

Abbreviation CorrelationId := Z (only parsing).
Record ResponseError := { re_code : Z }.
Record SubsystemResponse := { correlation_id : CorrelationId; response : result ResponseError Json }.

Record PendingRequest := { created_at : Z; timeout : Z }.

Record PendingStats := {
  total_registered : u64;
  total_completed : u64;
  total_timeouts : u64;
  total_cancelled : u64;
}.

Record Store := {
  pending : gmap CorrelationId PendingRequest;
  default_timeout : Z;
  stats : PendingStats;
}.

(** The one-shot channel of a request, named by its identifier: whether the receiver is
    still held, and what was sent; without its sender an empty one is closed. *)
Inductive Slot := Empty | Sent (r : SubsystemResponse) | Closed.
Record Channel := { receiver : bool; slot : Slot }.
Abbreviation Channels := (gmap CorrelationId Channel).

Definition new (t : Z) : Store :=
  {| pending := ∅; default_timeout := t;
     stats := {| total_registered := 0; total_completed := 0; total_timeouts := 0; total_cancelled := 0 |} |}.

Definition with_pending (p : gmap CorrelationId PendingRequest) (st : PendingStats) (s : Store) : Store :=
  {| pending := p; default_timeout := default_timeout s; stats := st |}.
Definition count_registered (st : PendingStats) : PendingStats :=
  {| total_registered := wrapping_add 64 (total_registered st) 1; total_completed := total_completed st;
     total_timeouts := total_timeouts st; total_cancelled := total_cancelled st |}.
Definition count_completed (st : PendingStats) : PendingStats :=
  {| total_registered := total_registered st; total_completed := wrapping_add 64 (total_completed st) 1;
     total_timeouts := total_timeouts st; total_cancelled := total_cancelled st |}.
Definition count_timeouts (n : Z) (st : PendingStats) : PendingStats :=
  {| total_registered := total_registered st; total_completed := total_completed st;
     total_timeouts := wrapping_add 64 (total_timeouts st) n; total_cancelled := total_cancelled st |}.
Definition count_cancelled (st : PendingStats) : PendingStats :=
  {| total_registered := total_registered st; total_completed := total_completed st;
     total_timeouts := total_timeouts st; total_cancelled := wrapping_add 64 (total_cancelled st) 1 |}.

(** Dropping a sender. *)
Definition close (c : Channel) : Channel :=
  {| receiver := receiver c; slot := match slot c with Empty => Closed | v => v end |}.

(** [id] is the new identifier.  An entry that an equal identifier replaces would lose
    its sender. *)
Definition register (id : CorrelationId) (t : option Z) (now : Z) (s : Store) (ch : Channels)
  : Store * Channels :=
  let request := {| created_at := now; timeout := default (default_timeout s) t |} in
  (with_pending (<[id := request]> (pending s)) (count_registered (stats s)) s,
   <[id := {| receiver := true; slot := Empty |}]> ch).

Definition complete (id : CorrelationId) (r : result ResponseError Json) (s : Store) (ch : Channels)
  : Store * Channels * bool :=
  match pending s !! id with
  | Some _ =>
      let rest := delete id (pending s) in
      match ch !! id with
      | Some c =>
          if receiver c then
            (with_pending rest (count_completed (stats s)) s,
             <[id := {| receiver := true; slot := Sent {| correlation_id := id; response := r |} |}]> ch, true)
          else (with_pending rest (count_cancelled (stats s)) s, <[id := close c]> ch, false)
      | None => (with_pending rest (count_cancelled (stats s)) s, ch, false)
      end
  | None => (s, ch, false)
  end.

Definition expired (now : Z) (p : PendingRequest) : bool := timeout p <? now - created_at p.

Definition remove_expired (now : Z) (s : Store) (ch : Channels) : Store * Channels * nat :=
  let kept := filter (fun e => expired now (snd e) = false) (pending s) in
  let dropped := filter (fun e => expired now (snd e) = true) (pending s) in
  let removed := size dropped in
  (with_pending kept (count_timeouts (Z.of_nat removed) (stats s)) s,
   map_imap (fun id c => Some (if bool_decide (is_Some (dropped !! id)) then close c else c)) ch,
   removed).

Definition cancel (id : CorrelationId) (s : Store) (ch : Channels) : Store * Channels * bool :=
  match pending s !! id with
  | Some _ => (with_pending (delete id (pending s)) (count_cancelled (stats s)) s, alter close id ch, true)
  | None => (s, ch, false)
  end.

Definition is_pending (id : CorrelationId) (s : Store) : bool := bool_decide (is_Some (pending s !! id)).
Definition pending_count (s : Store) : nat := size (pending s).

(** *** The tasks that wait *)

(** [IpcHandler::request]: registered and sending, waiting for the answer, done. *)
Inductive Task :=
  | Sending (timeout : Z)
  | Waiting (deadline : Z)
  | Done (r : result ResponseError Json).

Record System := { store : Store; channels : Channels; tasks : gmap CorrelationId Task }.

(** What happens: a task registers its request, its message is sent or not, the listener
    gets a response, a waiting task is polled, a task is dropped with its connection,
    the store is cleaned up. *)
Inductive Event :=
  | Register (id : CorrelationId) (t : option Z) (now : Z)
  | SendDone (id : CorrelationId) (ok : bool) (now : Z)
  | Response (id : CorrelationId) (r : result ResponseError Json)
  | Poll (id : CorrelationId) (now : Z)
  | DropTask (id : CorrelationId)
  | Cleanup (now : Z).

Definition set_task (id : CorrelationId) (t : Task) (s : System) : System :=
  {| store := store s; channels := channels s; tasks := <[id := t]> (tasks s) |}.
Definition update_store (st : Store) (ch : Channels) (s : System) : System :=
  {| store := st; channels := ch; tasks := tasks s |}.
Definition drop_receiver (c : Channel) : Channel := {| receiver := false; slot := slot c |}.

(** The timeout gives the receiver precedence over the clock. *)
Definition poll (id : CorrelationId) (now : Z) (s : System) : System :=
  match tasks s !! id with
  | Some (Waiting deadline) =>
      match slot <$> channels s !! id with
      | Some (Sent r) => set_task id (Done (response r)) s
      | Some Closed => set_task id (Done (Err {| re_code := -32603 |})) s
      | Some Empty | None =>
          if deadline <=? now then
            let '(st, ch, _) := cancel id (store s) (channels s) in
            set_task id (Done (Err {| re_code := -32006 |})) (update_store st (alter drop_receiver id ch) s)
          else s
      end
  | _ => s
  end.

Definition step (e : Event) (s : System) : System :=
  match e with
  | Register id t now =>
      let t := default (default_timeout (store s)) t in
      let '(st, ch) := register id (Some t) now (store s) (channels s) in
      set_task id (Sending t) (update_store st ch s)
  | SendDone id ok now =>
      match tasks s !! id with
      | Some (Sending t) =>
          if ok then set_task id (Waiting (now + t)) s
          else
            let '(st, ch, _) := cancel id (store s) (channels s) in
            set_task id (Done (Err {| re_code := -32603 |})) (update_store st (alter drop_receiver id ch) s)
      | _ => s
      end
  | Response id r =>
      let '(st, ch, _) := complete id r (store s) (channels s) in update_store st ch s
  | Poll id now => poll id now s
  | DropTask id =>
      match tasks s !! id with
      | Some (Sending _) | Some (Waiting _) =>
          {| store := store s; channels := alter drop_receiver id (channels s); tasks := delete id (tasks s) |}
      | _ => s
      end
  | Cleanup now =>
      let '(st, ch, _) := remove_expired now (store s) (channels s) in update_store st ch s
  end.

Definition start (t : Z) : System := {| store := new t; channels := ∅; tasks := ∅ |}.
Definition run (t : Z) (es : list Event) : System := foldl (fun s e => step e s) (start t) es.

(** *** Theorems *)

Definition registered (es : list Event) : list CorrelationId :=
  omap (fun e => match e with Register id _ _ => Some id | _ => None end) es.

(** The requests the counters account for, but for wrapping. *)
Definition balance (s : Store) : Z :=
  total_registered (stats s) -
  (Z.of_nat (size (pending s)) + total_completed (stats s) + total_timeouts (stats s) +
   total_cancelled (stats s)).

Definition own_errors (r : result ResponseError Json) : Prop :=
  r = Err {| re_code := -32603 |} \/ r = Err {| re_code := -32006 |}.

Record inv (es : list Event) (s : System) : Prop := {
  inv_balance : (2 ^ 64 | balance (store s));
  inv_pending : forall id p, pending (store s) !! id = Some p ->
    id ∈ registered es /\ slot <$> channels s !! id = Some Empty;
  inv_channels : forall id c, channels s !! id = Some c -> id ∈ registered es;
  inv_sent : forall id c r, channels s !! id = Some c -> slot c = Sent r ->
    correlation_id r = id /\ Response id (response r) ∈ es;
  inv_done : forall id r, tasks s !! id = Some (Done r) -> own_errors r \/ Response id r ∈ es;
}.

Lemma wrapped x n : exists q, wrapping_add 64 x n = x + n + 2 ^ 64 * q.
Proof. unfold wrapping_add. exists (- ((x + n) / 2 ^ 64)). rewrite Z.mod_eq by lia. lia. Qed.

Ltac balance_solve :=
  unfold balance; cbn [stats pending with_pending count_registered count_completed count_timeouts
    count_cancelled total_registered total_completed total_timeouts total_cancelled fst snd];
  match goal with H : (_ | balance _) |- _ => destruct H as [k H]; unfold balance in H end;
  repeat match goal with |- context [wrapping_add 64 ?x ?n] =>
    let q := fresh "q" in let E := fresh "E" in destruct (wrapped x n) as [q E]; rewrite E; clear E end.

Lemma register_balance id t now s ch : pending s !! id = None -> (2 ^ 64 | balance s) ->
  (2 ^ 64 | balance (fst (register id t now s ch))).
Proof.
  intros Hn Hb. unfold register. balance_solve. rewrite map_size_insert_None by done.
  exists (k + q). lia.
Qed.

Lemma size_delete_some id (m : gmap CorrelationId PendingRequest) p : m !! id = Some p ->
  size m = S (size (delete id m)).
Proof.
  intros H. rewrite map_size_delete_Some by (by exists p).
  assert (size m <> 0%nat) by (intros E; apply map_size_empty_inv in E; by rewrite E in H). lia.
Qed.

Lemma cancel_balance id s ch : (2 ^ 64 | balance s) -> (2 ^ 64 | balance (fst (fst (cancel id s ch)))).
Proof.
  intros Hb. unfold cancel. destruct (pending s !! id) as [p|] eqn:E; [|done].
  balance_solve. rewrite (size_delete_some _ _ _ E) in Hb. exists (k - q). lia.
Qed.

Lemma complete_balance id r s ch : (2 ^ 64 | balance s) -> (2 ^ 64 | balance (fst (fst (complete id r s ch)))).
Proof.
  intros Hb. unfold complete. destruct (pending s !! id) as [p|] eqn:E; [|done].
  destruct (ch !! id) as [c|]; [destruct (receiver c)|]; balance_solve;
    rewrite (size_delete_some _ _ _ E) in Hb; exists (k - q); lia.
Qed.

Lemma size_expired now (m : gmap CorrelationId PendingRequest) :
  size m = (size (filter (fun e => expired now (snd e) = false) m) +
            size (filter (fun e => expired now (snd e) = true) m))%nat.
Proof.
  rewrite <- map_size_disj_union.
  - f_equal. apply map_eq. intros i. rewrite lookup_union, !map_lookup_filter.
    destruct (m !! i) as [p|]; [|done]. cbn. by destruct (expired now p).
  - apply map_disjoint_spec. intros i p q Hp Hq.
    apply map_lookup_filter_Some in Hp as [E Hp], Hq as [E' Hq]. cbn in *. congruence.
Qed.

Lemma expired_balance now s ch : (2 ^ 64 | balance s) ->
  (2 ^ 64 | balance (fst (fst (remove_expired now s ch)))).
Proof.
  intros Hb. unfold remove_expired. balance_solve. rewrite (size_expired now) in Hb. exists (k - q). lia.
Qed.

(** What the operations do to the channels. *)
(** A channel of [ch'] is one of [ch] up to dropping its receiver or an unused sender. *)
Definition fades (ch ch' : Channels) : Prop := forall id c', ch' !! id = Some c' ->
  exists c, ch !! id = Some c /\ (slot c' = slot c \/ slot c' = Closed).

Lemma fades_refl ch : fades ch ch.
Proof. intros id c H. eauto. Qed.
Lemma fades_trans ch1 ch2 ch3 : fades ch1 ch2 -> fades ch2 ch3 -> fades ch1 ch3.
Proof.
  intros H1 H2 id c3 H. destruct (H2 _ _ H) as (c2 & E2 & D2). destruct (H1 _ _ E2) as (c1 & E1 & D1).
  exists c1. split; [done|]. destruct D2 as [-> |]; auto.
Qed.
Lemma fades_alter f id ch : (forall c, slot (f c) = slot c \/ slot (f c) = Closed) -> fades ch (alter f id ch).
Proof.
  intros Hf i c'. rewrite lookup_alter. destruct (decide (id = i)) as [-> |].
  - destruct (ch !! i) as [c|] eqn:E; cbn; [|done]. intros [= <-]. eauto.
  - eauto.
Qed.
Lemma close_fades c : slot (close c) = slot c \/ slot (close c) = Closed.
Proof. unfold close. cbn. destruct (slot c); auto. Qed.

Lemma expired_fades now s ch : fades ch (snd (fst (remove_expired now s ch))).
Proof.
  intros id c'. cbn. rewrite map_lookup_imap. destruct (ch !! id) as [c|]; cbn; [|done].
  intros [= <-]. exists c. split; [done|]. destruct (bool_decide _); [apply close_fades|by left].
Qed.

Lemma cancel_fades id s ch : fades ch (snd (fst (cancel id s ch))).
Proof.
  unfold cancel. destruct (pending s !! id); cbn; [apply fades_alter, close_fades|apply fades_refl].
Qed.

(** Only requests leave the store, and nothing is sent to one that stays. *)
Definition shrinks (s : Store) (ch : Channels) (s' : Store) (ch' : Channels) : Prop :=
  forall id p, pending s' !! id = Some p -> pending s !! id = Some p /\ slot <$> ch' !! id = slot <$> ch !! id.

Lemma cancel_shrinks id s ch :
  shrinks s ch (fst (fst (cancel id s ch))) (snd (fst (cancel id s ch))).
Proof.
  intros i p. unfold cancel. destruct (pending s !! id) as [q|] eqn:E; cbn; [|done].
  intros H. apply lookup_delete_Some in H as [Hne H]. by rewrite lookup_alter_ne.
Qed.

Lemma expired_shrinks now s ch :
  shrinks s ch (fst (fst (remove_expired now s ch))) (snd (fst (remove_expired now s ch))).
Proof.
  intros i p. cbn. intros H. apply map_lookup_filter_Some in H as [H He]. cbn in He.
  split; [done|]. rewrite map_lookup_imap. destruct (ch !! i) as [c|]; cbn; [|done].
  rewrite bool_decide_eq_false_2; [done|]. intros [q Hq].
  apply map_lookup_filter_Some in Hq as [Hq Hq']. cbn in Hq'. congruence.
Qed.
Lemma drop_receiver_slot id i (ch : Channels) : slot <$> alter drop_receiver id ch !! i = slot <$> ch !! i.
Proof.
  rewrite lookup_alter. destruct (decide (id = i)) as [-> |]; [|done]. by destruct (ch !! i).
Qed.

Lemma inv_weaken es e s : inv es s -> inv (es ++ [e]) s.
Proof.
  assert (forall id, id ∈ registered es -> id ∈ registered (es ++ [e])) as Hr.
  { intros id H. unfold registered. rewrite omap_app. apply elem_of_app. by left. }
  intros [H1 H2 H3 H4 H5]. split; [done|..].
  - intros id p H. destruct (H2 _ _ H). eauto.
  - eauto.
  - intros id c r Hc Hs. destruct (H4 _ _ _ Hc Hs). split; [done|]. apply elem_of_app. by left.
  - intros id r H. destruct (H5 _ _ H); [by left|right]. apply elem_of_app. by left.
Qed.

Lemma inv_fade es s st ch : inv es s -> (2 ^ 64 | balance st) ->
  shrinks (store s) (channels s) st ch -> fades (channels s) ch -> inv es (update_store st ch s).
Proof.
  intros [H1 H2 H3 H4 H5] Hb Hsh Hf. split; cbn; [done|..|done].
  - intros id p H. destruct (Hsh _ _ H) as [Hp ->]. by apply (H2 _ p).
  - intros id c H. destruct (Hf _ _ H) as (c0 & Hc & _). eauto.
  - intros id c r H Hs. destruct (Hf _ _ H) as (c0 & Hc & [E|E]); rewrite Hs in E; [|done]. eauto.
Qed.

Lemma inv_task es s id t : inv es s -> (forall r, t = Done r -> own_errors r \/ Response id r ∈ es) ->
  inv es (set_task id t s).
Proof.
  intros [H1 H2 H3 H4 H5] Ht. split; try done. intros i r. cbn.
  destruct (decide (id = i)) as [-> |]; [rewrite lookup_insert_eq; intros [= E]; eauto|].
  rewrite lookup_insert_ne by done. eauto.
Qed.

(** Cancelling a request, whose receiver is gone too. *)
Lemma inv_cancel es s id : inv es s ->
  inv es (update_store (fst (fst (cancel id (store s) (channels s))))
            (alter drop_receiver id (snd (fst (cancel id (store s) (channels s))))) s).
Proof.
  intros H. apply inv_fade; [done|apply cancel_balance, H|..].
  - intros i p Hp. destruct (cancel_shrinks id (store s) (channels s) i p Hp) as [Hq <-].
    split; [done|apply drop_receiver_slot].
  - eapply fades_trans; [apply cancel_fades|]. apply fades_alter. by left.
Qed.

Lemma inv_step es e s : inv es s -> NoDup (registered (es ++ [e])) -> inv (es ++ [e]) (step e s).
Proof.
  intros Hi Hnd. assert (Hw := inv_weaken es e s Hi). destruct e as [id t now|id ok now|id r|id now|id|now].
  - cbn [step register fst snd]. apply inv_task; [|by intros ? [=]].
    assert (id ∉ registered es) as Hfresh.
    { unfold registered in Hnd. rewrite omap_app in Hnd. apply NoDup_app in Hnd as (_ & Hd & _).
      intros Hin. apply (Hd id Hin). cbn. by left. }
    assert (id ∈ registered (es ++ [Register id t now])) as Hnew.
    { unfold registered. rewrite omap_app. apply elem_of_app. right. cbn. by left. }
    destruct Hi as [H1 H2 H3 H4 H5], Hw as [W1 W2 W3 W4 W5]. split; cbn [store channels tasks update_store].
    + apply (register_balance id _ now (store s) (channels s)); [|done].
      destruct (pending (store s) !! id) eqn:E; [|done]. by destruct (H2 _ _ E).
    + intros i p. cbn. destruct (decide (id = i)) as [<-|]; rewrite ?lookup_insert_eq, ?lookup_insert_ne by done;
        [done|]. apply W2.
    + intros i c. destruct (decide (id = i)) as [<-|]; rewrite ?lookup_insert_ne by done; eauto.
    + intros i c r. destruct (decide (id = i)) as [<-|];
        rewrite ?lookup_insert_eq, ?lookup_insert_ne by done; [by intros [= <-]|eauto].
    + done.
  - cbn [step]. destruct (tasks s !! id) as [[]|]; try done.
    destruct ok; [apply inv_task; [done|by intros ? [=]]|].
    pose proof (inv_cancel _ _ id Hw) as Hc. destruct (cancel id _ _) as [[st ch] b].
    apply inv_task; [done|]. intros r [= <-]. left. by left.
  - cbn [step]. unfold complete. destruct (pending (store s) !! id) as [p|] eqn:Ep; [|by destruct s].
    destruct (inv_pending _ _ Hi _ _ Ep) as [_ Hs].
    destruct (channels s !! id) as [c|] eqn:Ec; [|done]. cbn in Hs. injection Hs as Hs.
    pose proof (complete_balance id r (store s) (channels s) (inv_balance _ _ Hi)) as Hb.
    unfold complete in Hb. rewrite Ep, Ec in Hb.
    assert (forall i q, delete id (pending (store s)) !! i = Some q ->
      pending (store s) !! i = Some q /\ id <> i) as Hdel.
    { intros i q H. apply lookup_delete_Some in H as [? ?]. done. }
    destruct (receiver c).
    + destruct Hw as [W1 W2 W3 W4 W5]. split; cbn [store channels tasks update_store with_pending pending].
      * exact Hb.
      * intros i q H. destruct (Hdel _ _ H) as [Hq Hne]. rewrite lookup_insert_ne by done. eauto.
      * intros i c'. destruct (decide (id = i)) as [<-|]; rewrite ?lookup_insert_ne by done; eauto.
      * intros i c' r'. destruct (decide (id = i)) as [<-|];
          rewrite ?lookup_insert_eq, ?lookup_insert_ne by done; [|eauto].
        intros [= <-]. cbn. intros [= <-]. cbn. split; [done|]. apply elem_of_app. right. by left.
      * done.
    + apply (inv_fade _ s); [done|exact Hb|..].
      * intros i q H. destruct (Hdel _ _ H) as [Hq Hne]. by rewrite lookup_insert_ne.
      * intros i c'. destruct (decide (id = i)) as [<-|];
          rewrite ?lookup_insert_eq, ?lookup_insert_ne by done; [|eauto].
        intros [= <-]. exists c. split; [done|apply close_fades].
  - cbn [step]. unfold poll. destruct (tasks s !! id) as [[]|]; try done.
    pose proof (inv_cancel _ _ id Hw) as Hc.
    destruct (channels s !! id) as [c|] eqn:Ec; cbn [fmap option_fmap option_map];
      [destruct (slot c) as [|r|] eqn:Es|].
    2: { apply inv_task; [done|]. intros r' [= <-]. right. by apply (inv_sent _ _ Hw id c r Ec Es). }
    2: { apply inv_task; [done|]. intros r' [= <-]. left. by left. }
    all: destruct (deadline <=? now); [|done]; destruct (cancel id _ _) as [[st ch] b];
      apply inv_task; [done|]; intros r' [= <-]; left; by right.
  - cbn [step]. assert (inv (es ++ [DropTask id]) {| store := store s;
      channels := alter drop_receiver id (channels s); tasks := delete id (tasks s) |}) as H.
    { assert (H : inv (es ++ [DropTask id]) (update_store (store s) (alter drop_receiver id (channels s)) s)).
      { apply inv_fade; [done|apply Hw|..].
        - intros i p H. split; [done|apply drop_receiver_slot].
        - apply fades_alter. by left. }
      destruct H as [H1 H2 H3 H4 H5]. split; try done. cbn in *. intros i r H.
      apply lookup_delete_Some in H as [_ H]. eauto. }
    by destruct (tasks s !! id) as [[]|].
  - cbn [step]. pose proof (expired_balance now (store s) (channels s) (inv_balance _ _ Hi)) as Hb.
    pose proof (expired_shrinks now (store s) (channels s)) as Hsh.
    pose proof (expired_fades now (store s) (channels s)) as Hf.
    destruct (remove_expired now (store s) (channels s)) as [[st ch] n]. by apply inv_fade.
Qed.

Lemma run_snoc t es e : run t (es ++ [e]) = step e (run t es).
Proof. unfold run. by rewrite foldl_app. Qed.

Lemma run_inv t es : NoDup (registered es) -> inv es (run t es).
Proof.
  induction es as [|e es IH] using rev_ind; intros Hnd.
  - split; cbn; try done. by exists 0.
  - rewrite run_snoc. apply inv_step; [|done]. apply IH.
    unfold registered in *. rewrite omap_app in Hnd. by apply NoDup_app in Hnd as [? _].
Qed.

Lemma cancel_not_pending id i s ch : pending s !! i = None -> pending (fst (fst (cancel id s ch))) !! i = None.
Proof.
  intros H. unfold cancel. destruct (pending s !! id); cbn; [|done].
  apply lookup_delete_None. by right.
Qed.

Lemma cancel_gone id s ch : pending (fst (fst (cancel id s ch))) !! id = None.
Proof. unfold cancel. destruct (pending s !! id) eqn:E; cbn; [by rewrite lookup_delete_eq|done]. Qed.

(** A request that is not pending and does not register stays out of the store. *)
Lemma step_not_pending e s i : pending (store s) !! i = None -> i ∉ registered [e] ->
  pending (store (step e s)) !! i = None.
Proof.
  intros H Hr. destruct e as [id t now|id ok now|id r|id now|id|now]; cbn [step].
  - cbn. rewrite lookup_insert_ne; [done|]. intros ->. apply Hr. cbn. by left.
  - pose proof (cancel_not_pending id i (store s) (channels s) H).
    destruct (tasks s !! id) as [[]|]; try done. destruct ok; [done|]. by destruct (cancel id _ _) as [[]].
  - unfold complete. destruct (pending (store s) !! id); [|done].
    destruct (channels s !! id) as [c|]; [destruct (receiver c)|]; cbn; apply lookup_delete_None; by right.
  - pose proof (cancel_not_pending id i (store s) (channels s) H).
    unfold poll. destruct (tasks s !! id) as [[]|]; try done.
    destruct (slot <$> channels s !! id) as [[]|]; try done;
      (destruct (_ <=? now); [by destruct (cancel id _ _) as [[]]|done]).
  - by destruct (tasks s !! id) as [[]|].
  - cbn. apply map_lookup_filter_None. by left.
Qed.

Lemma run_not_pending t es es' i : pending (store (run t es)) !! i = None -> i ∉ registered es' ->
  pending (store (run t (es ++ es'))) !! i = None.
Proof.
  intros H. induction es' as [|e es' IH] using rev_ind; intros Hr; [by rewrite app_nil_r|].
  unfold registered in Hr. rewrite omap_app, not_elem_of_app in Hr. destruct Hr as [Hr He].
  rewrite app_assoc, run_snoc. apply step_not_pending; [by apply IH|done].
Qed.

Lemma complete_not_pending id r s ch : pending (fst (fst (complete id r s ch))) !! id = None.
Proof.
  unfold complete. destruct (pending s !! id) eqn:E; [|done].
  destruct (ch !! id) as [c|]; [destruct (receiver c)|]; cbn; by rewrite lookup_delete_eq.
Qed.

(** However registrations, sends, responses, polls, dropped connections
    and clean-ups interleave, as long as identifiers are not reused: every registered
    request is pending or counted once as completed, timed out or cancelled; a task
    ends with a response that arrived for its own identifier or with an error of its
    own; a second response to a request is refused; and a waiting task polled at its
    deadline ends, leaving nothing in the store. *)
Theorem pending_requests_accounted t es : NoDup (registered es) ->
  let s := run t es in
  (2 ^ 64 | balance (store s)) /\
  (forall id r, tasks s !! id = Some (Done r) -> own_errors r \/ Response id r ∈ es) /\
  (forall id r r' es', snd (complete id r (store s) (channels s)) = true ->
     NoDup (registered (es ++ Response id r :: es')) ->
     let s' := run t (es ++ Response id r :: es') in
     snd (complete id r' (store s') (channels s')) = false) /\
  (forall id d now, tasks s !! id = Some (Waiting d) -> d <= now ->
     let s' := step (Poll id now) s in
     (exists r, tasks s' !! id = Some (Done r)) /\ pending (store s') !! id = None).
Proof.
  intros Hnd s. pose proof (run_inv t es Hnd) as Hi. fold s in Hi. split_and!.
  - apply Hi.
  - apply Hi.
  - intros id r r' es' Ht Hnd' s'.
    assert (id ∈ registered es) as Hin.
    { unfold complete in Ht. destruct (pending (store s) !! id) eqn:E; [|done].
      by apply (inv_pending _ _ Hi _ _ E). }
    assert (pending (store s') !! id = None) as Hn.
    { unfold s'. rewrite cons_middle, app_assoc. apply run_not_pending.
      - rewrite run_snoc. cbn [step]. fold s.
        pose proof (complete_not_pending id r (store s) (channels s)). by destruct (complete _ _ _ _) as [[]].
      - unfold registered in *. rewrite omap_app in Hnd'. apply NoDup_app in Hnd' as (_ & Hd & _).
        intros H. by apply (Hd id Hin). }
    unfold complete. by rewrite Hn.
  - intros id d now Ht Hd s'. unfold s'. cbn [step]. unfold poll. rewrite Ht.
    assert (forall sl, slot <$> channels s !! id = Some sl -> sl <> Empty ->
      pending (store s) !! id = None) as Hout.
    { intros sl E Hsl. destruct (pending (store s) !! id) eqn:Ep; [|done].
      destruct (inv_pending _ _ Hi _ _ Ep) as [_ E']. congruence. }
    pose proof (cancel_gone id (store s) (channels s)) as Hg.
    destruct (slot <$> channels s !! id) as [[]|] eqn:E; rewrite ?(proj2 (Z.leb_le _ _) Hd).
    2: { split; [eexists; apply lookup_insert_eq|by eapply Hout]. }
    2: { split; [eexists; apply lookup_insert_eq|by eapply Hout]. }
    all: destruct (cancel id _ _) as [[st ch] b]; split; [eexists; apply lookup_insert_eq|done].
Qed.

(** One request, answered twice. *)
Definition one_request : list Event :=
  [Register 1 None 0; SendDone 1 true 5; Response 1 (Ok JNull); Poll 1 7].

Lemma pending_requests_accounted_witness :
  NoDup (registered one_request) /\
  tasks (run 10 one_request) !! 1 = Some (Done (Ok JNull)) /\
  (own_errors (Ok JNull) \/ Response 1 (Ok JNull) ∈ one_request).
Proof.
  assert (NoDup (registered one_request)) as Hnd by (apply (bool_decide_unpack _); by vm_compute).
  destruct (pending_requests_accounted 10 one_request Hnd) as (_ & Hd & _).
  assert (tasks (run 10 one_request) !! 1 = Some (Done (Ok JNull))) as Ht by reflexivity.
  split; [exact Hnd|]. split; [exact Ht|]. exact (Hd 1 _ Ht).
Defined.

End Pending.

(** ** Circuits *)

Module Circuits.

Inductive CircuitState := Closed | Open | HalfOpen.

Record Config := {
  failure_threshold : Z;
  success_threshold : Z;
  open_timeout : Z;
  enabled : bool;
}.
Definition config_default : Config :=
  {| failure_threshold := 5; success_threshold := 3; open_timeout := 30; enabled := true |}.

Record SubsystemCircuit := {
  state : CircuitState;
  failure_count : Z;
  half_open_successes : Z;
  opened_at : option Z;
  total_requests : u64;
  total_failures : u64;
}.

Definition circuit_new : SubsystemCircuit := {|
  state := Closed; failure_count := 0; half_open_successes := 0; opened_at := None;
  total_requests := 0; total_failures := 0 |}.

Record Manager := { circuits : gmap string SubsystemCircuit; config : Config }.
Definition new (c : Config) : Manager := {| circuits := ∅; config := c |}.
Definition set (n : string) (c : SubsystemCircuit) (m : Manager) : Manager :=
  {| circuits := <[n := c]> (circuits m); config := config m |}.

Definition should_allow (n : string) (now : Z) (m : Manager) : Manager * bool :=
  if negb (enabled (config m)) then (m, true)
  else
    let c := default circuit_new (circuits m !! n) in
    let c := {| state := state c; failure_count := failure_count c;
                half_open_successes := half_open_successes c; opened_at := opened_at c;
                total_requests := wrapping_add 64 (total_requests c) 1;
                total_failures := total_failures c |} in
    match state c with
    | Closed | HalfOpen => (set n c m, true)
    | Open =>
        match opened_at c with
        | Some at_ =>
            if open_timeout (config m) <=? now - at_ then
              (set n {| state := HalfOpen; failure_count := failure_count c; half_open_successes := 0;
                        opened_at := opened_at c; total_requests := total_requests c;
                        total_failures := total_failures c |} m, true)
            else (set n c m, false)
        | None => (set n c m, true)
        end
    end.

Definition record_success (n : string) (m : Manager) : Manager :=
  if negb (enabled (config m)) then m
  else
    match circuits m !! n with
    | Some c =>
        match state c with
        | Closed =>
            set n {| state := Closed; failure_count := 0; half_open_successes := half_open_successes c;
                     opened_at := opened_at c; total_requests := total_requests c;
                     total_failures := total_failures c |} m
        | HalfOpen =>
            let successes := wrapping_add 32 (half_open_successes c) 1 in
            if success_threshold (config m) <=? successes then
              set n {| state := Closed; failure_count := 0; half_open_successes := successes;
                       opened_at := None; total_requests := total_requests c;
                       total_failures := total_failures c |} m
            else
              set n {| state := HalfOpen; failure_count := failure_count c;
                       half_open_successes := successes; opened_at := opened_at c;
                       total_requests := total_requests c; total_failures := total_failures c |} m
        | Open => m
        end
    | None => m
    end.

Definition record_failure (n : string) (now : Z) (m : Manager) : Manager :=
  if negb (enabled (config m)) then m
  else
    let c := default circuit_new (circuits m !! n) in
    let total := wrapping_add 64 (total_failures c) 1 in
    match state c with
    | Closed =>
        let failures := wrapping_add 32 (failure_count c) 1 in
        let '(st, at_) :=
          if failure_threshold (config m) <=? failures then (Open, Some now) else (Closed, opened_at c) in
        set n {| state := st; failure_count := failures; half_open_successes := half_open_successes c;
                 opened_at := at_; total_requests := total_requests c; total_failures := total |} m
    | HalfOpen =>
        set n {| state := Open; failure_count := failure_count c; half_open_successes := 0;
                 opened_at := Some now; total_requests := total_requests c; total_failures := total |} m
    | Open =>
        set n {| state := Open; failure_count := failure_count c;
                 half_open_successes := half_open_successes c; opened_at := Some now;
                 total_requests := total_requests c; total_failures := total |} m
    end.

Definition get_state (n : string) (m : Manager) : CircuitState :=
  default Closed (state <$> circuits m !! n).

Definition reset_circuit (c : SubsystemCircuit) : SubsystemCircuit := {|
  state := Closed; failure_count := 0; half_open_successes := 0; opened_at := None;
  total_requests := total_requests c; total_failures := total_failures c |}.
Definition reset (n : string) (m : Manager) : Manager :=
  {| circuits := alter reset_circuit n (circuits m); config := config m |}.
Definition reset_all (m : Manager) : Manager :=
  {| circuits := reset_circuit <$> circuits m; config := config m |}.

(** [ResilientIpcHandler::request]; [inner] is the answer of the handler it wraps, asked
    for only when the circuit lets the request pass.  The instants are those of the
    check and of the answer. *)
Definition request (n : string) (inner : result Pending.ResponseError Json) (now later : Z) (m : Manager)
  : Manager * bool * result Pending.ResponseError Json :=
  let '(m, allowed) := should_allow n now m in
  if negb allowed then (m, false, Err {| Pending.re_code := -32007 |})
  else
    let m := match inner with
             | Ok _ => record_success n m
             | Err _ => record_failure n later m
             | Panic => m
             end in
    (m, true, inner).

(** *** Theorems *)

(** An open or half-open circuit knows when it opened, a closed one does not; a closed
    one has fewer failures in a row than it takes to open it. *)
Definition circuit_ok (c : Config) (s : SubsystemCircuit) : Prop :=
  match state s with
  | Closed => opened_at s = None /\ 0 <= failure_count s < failure_threshold c
  | Open => is_Some (opened_at s)
  | HalfOpen => is_Some (opened_at s) /\ 0 <= half_open_successes s < success_threshold c
  end.

Definition config_ok (c : Config) : Prop :=
  1 <= failure_threshold c < 2 ^ 32 /\ 1 <= success_threshold c < 2 ^ 32.

Definition manager_ok (m : Manager) : Prop :=
  config_ok (config m) /\ map_Forall (fun _ c => circuit_ok (config m) c) (circuits m).

Lemma entry_ok m n : manager_ok m -> circuit_ok (config m) (default circuit_new (circuits m !! n)).
Proof.
  intros [Hc H]. destruct (circuits m !! n) as [c|] eqn:E; cbn [default]; [by apply (H n c E)|].
  split; [done|]. cbn. unfold config_ok in Hc. lia.
Qed.

Lemma set_ok m n c : manager_ok m -> circuit_ok (config m) c -> manager_ok (set n c m).
Proof. intros [Hc H] Hn. split; [done|]. by apply map_Forall_insert_2. Qed.

Lemma wrap_small a : 0 <= a < 2 ^ 32 - 1 -> wrapping_add 32 a 1 = a + 1.
Proof. intros. unfold wrapping_add. apply Z.mod_small. lia. Qed.

Lemma should_allow_ok n now m : manager_ok m -> manager_ok (fst (should_allow n now m)).
Proof.
  intros H. assert (He := entry_ok m n H). assert (Hc := proj1 H). unfold config_ok in Hc.
  unfold should_allow. destruct (enabled (config m)); [|done]. cbn [negb]. cbn zeta. cbn [state opened_at].
  revert He. generalize (default circuit_new (circuits m !! n)). intros c He.
  unfold circuit_ok in He. destruct (state c) eqn:Es.
  - apply set_ok; [done|]. exact He.
  - destruct He as [t Et]. rewrite Et. destruct (_ <=? _); apply set_ok; try done; unfold circuit_ok; cbn.
    + split; [done|lia].
    + done.
  - apply set_ok; [done|]. exact He.
Qed.

Lemma record_success_ok n m : manager_ok m -> manager_ok (record_success n m).
Proof.
  intros H. assert (Hc := proj1 H). unfold config_ok in Hc.
  unfold record_success. destruct (enabled (config m)); [|done]. cbn [negb].
  destruct (circuits m !! n) as [c|] eqn:E; [|done]. assert (He := proj2 H n c E).
  unfold circuit_ok in He. destruct (state c) eqn:Es; [|done|].
  - apply set_ok; [done|]. unfold circuit_ok. cbn. split; [by destruct He|lia].
  - destruct He as [Ho Hs]. rewrite wrap_small by lia.
    destruct (Z.leb_spec (success_threshold (config m)) (half_open_successes c + 1));
      apply set_ok; try done; unfold circuit_ok; cbn; split; try done; lia.
Qed.

Lemma record_failure_ok n now m : manager_ok m -> manager_ok (record_failure n now m).
Proof.
  intros H. assert (He := entry_ok m n H). assert (Hc := proj1 H). unfold config_ok in Hc.
  unfold record_failure. destruct (enabled (config m)); [|done]. cbn [negb]. cbn zeta.
  revert He. generalize (default circuit_new (circuits m !! n)). intros c He.
  unfold circuit_ok in He. destruct (state c) eqn:Es; [|apply set_ok; [done|]; unfold circuit_ok; cbn; by eexists..].
  destruct He as [Ho Hf]. rewrite wrap_small by lia.
  destruct (Z.leb_spec (failure_threshold (config m)) (failure_count c + 1));
    apply set_ok; try done; unfold circuit_ok; cbn; try done. split; [done|lia].
Qed.

Lemma reset_circuit_ok cf c : config_ok cf -> circuit_ok cf (reset_circuit c).
Proof. intros [? ?]. split; [done|]. cbn. lia. Qed.

Lemma reset_ok n m : manager_ok m -> manager_ok (reset n m).
Proof.
  intros [Hc H]. split; [done|]. intros i c. cbn. rewrite lookup_alter.
  destruct (decide (n = i)) as [-> |]; [|apply H].
  destruct (circuits m !! i); cbn; [|done]. intros [= <-]. by apply reset_circuit_ok.
Qed.

Lemma reset_all_ok m : manager_ok m -> manager_ok (reset_all m).
Proof.
  intros [Hc H]. split; [done|]. intros i c. cbn. rewrite lookup_fmap.
  destruct (circuits m !! i); cbn; [|done]. intros [= <-]. by apply reset_circuit_ok.
Qed.

(** While a circuit is open and its timeout has not passed, requests are answered by the
    breaker: nothing is sent and the circuit stays as it is, but for the count. *)
Lemma open_refuses n c at_ inner now later m : enabled (config m) = true ->
  circuits m !! n = Some c -> state c = Open -> opened_at c = Some at_ ->
  now - at_ < open_timeout (config m) ->
  exists m', request n inner now later m = (m', false, Err {| Pending.re_code := -32007 |}) /\
    get_state n m' = Open.
Proof.
  intros He Hc Hs Ho Ht. unfold request, should_allow. rewrite He, Hc. cbn [negb default]. cbn zeta.
  cbn [from_option]. cbn [Datatypes.id state opened_at]. rewrite Hs, Ho.
  destruct (Z.leb_spec (open_timeout (config m)) (now - at_)); [lia|]. cbn [negb].
  eexists. split; [reflexivity|]. unfold get_state. cbn. by rewrite lookup_insert_eq.
Qed.

(** A failing request counts; the one that reaches the threshold opens the circuit. *)
Lemma closed_failure n e now later m : manager_ok m -> enabled (config m) = true ->
  state (default circuit_new (circuits m !! n)) = Closed ->
  let k := failure_count (default circuit_new (circuits m !! n)) in
  let m' := fst (fst (request n (Err e) now later m)) in
  manager_ok m' /\ config m' = config m /\
  if failure_threshold (config m) <=? k + 1 then get_state n m' = Open
  else state (default circuit_new (circuits m' !! n)) = Closed /\
       failure_count (default circuit_new (circuits m' !! n)) = k + 1.
Proof.
  intros Hok He Hs k m'. subst m' k.
  assert (Hm := should_allow_ok n now m Hok). assert (Hm' := record_failure_ok n later _ Hm).
  assert (Hk := entry_ok m n Hok). unfold circuit_ok in Hk. rewrite Hs in Hk.
  assert (Hc := proj1 Hok). unfold config_ok in Hc.
  unfold request, should_allow in *. rewrite He in *. cbn [negb] in *. cbn zeta in *. cbn [state] in *.
  rewrite Hs in *. cbn [fst snd negb] in *. split; [exact Hm'|].
  unfold record_failure. cbn [config set]. rewrite He. cbn [negb circuits set]. rewrite lookup_insert_eq.
  cbn [default from_option]. cbn [Datatypes.id state failure_count]. rewrite wrap_small by lia.
  split; [by destruct (_ <=? _)|].
  destruct (_ <=? _); cbn; unfold get_state; cbn; rewrite lookup_insert_eq; done.
Qed.

(** A run of failing requests to one subsystem. *)
Fixpoint failing (n : string) (times : list (Z * Z)) (m : Manager) : Manager :=
  match times with
  | [] => m
  | (now, later) :: times =>
      failing n times (fst (fst (request n (Err {| Pending.re_code := -32603 |}) now later m)))
  end.

(** A closed circuit opens after exactly as many failures in a row as are missing. *)
Lemma failures_open n times : forall m, manager_ok m -> enabled (config m) = true ->
  state (default circuit_new (circuits m !! n)) = Closed ->
  Z.of_nat (length times) =
    failure_threshold (config m) - failure_count (default circuit_new (circuits m !! n)) ->
  get_state n (failing n times m) = Open.
Proof.
  induction times as [|[now later] times IH]; intros m Hok He Hs Hlen.
  - assert (Hk := entry_ok m n Hok). unfold circuit_ok in Hk. rewrite Hs in Hk. cbn [length] in Hlen. lia.
  - cbn [failing]. cbn [length] in Hlen.
    destruct (closed_failure n {| Pending.re_code := -32603 |} now later m Hok He Hs) as (Hok' & Ec & H).
    destruct (Z.leb_spec (failure_threshold (config m))
      (failure_count (default circuit_new (circuits m !! n)) + 1)).
    + assert (times = []) as -> by (destruct times; [done|cbn [length] in Hlen; lia]). exact H.
    + destruct H as [Hs' Hk']. apply IH; [done|by rewrite Ec|done|]. rewrite Ec, Hk'. lia.
Qed.

End Circuits.

(** ** Subscriptions *)

Module Subscriptions.

Inductive SubscriptionType := NewHeads | Logs | NewPendingTransactions | Syncing.

Definition type_from_str (s : string) : option SubscriptionType :=
  if String.eqb s "newHeads" then Some NewHeads
  else if String.eqb s "logs" then Some Logs
  else if String.eqb s "newPendingTransactions" then Some NewPendingTransactions
  else if String.eqb s "syncing" then Some Syncing
  else None.

Inductive FilterAddress := SingleAddress (a : Address) | MultipleAddresses (l : list Address).
Inductive FilterTopic := SingleTopic (t : Hash) | MultipleTopics (l : list Hash).
(** The fields a log is matched against. *)
Record Filter := { address : option FilterAddress; topics : option (list (option FilterTopic)) }.

Record Subscription := {
  sub_id : string;
  sub_type : SubscriptionType;
  filter_ : option Filter;
  connection_id : Z;
}.

Record Manager := {
  subscriptions : gmap string Subscription;
  by_connection : gmap Z (list string);
  id_counter : u64;
  max_per_connection : Z;
}.

Inductive SubscribeError := TooManySubscriptions | InvalidType | InvalidFilter.

Definition new (max : Z) : Manager :=
  {| subscriptions := ∅; by_connection := ∅; id_counter := 1; max_per_connection := max |}.

(** [format!("0x{:x}", n)]: sixteen digits hold 64 bits. *)
Definition digit (d : Z) : ascii :=
  Ascii.ascii_of_nat (Z.to_nat (if d <? 10 then 48 + d else 87 + d)).
Fixpoint to_hex (fuel : nat) (n : Z) (acc : string) : string :=
  match fuel with
  | O => acc
  | S fuel =>
      let acc := String (digit (n mod 16)) acc in
      if n / 16 =? 0 then acc else to_hex fuel (n / 16) acc
  end.
Definition format_id (n : u64) : string := String "0" (String "x" (to_hex 16 n "")).

(** The entry of the connection is created before the limit is checked. *)
Definition subscribe (conn : Z) (t : SubscriptionType) (f : option Filter) (m : Manager)
  : Manager * result SubscribeError string :=
  let subs := default [] (by_connection m !! conn) in
  if max_per_connection m <=? Z.of_nat (length subs) mod 2 ^ 32 then
    ({| subscriptions := subscriptions m; by_connection := <[conn := subs]> (by_connection m);
        id_counter := id_counter m; max_per_connection := max_per_connection m |},
     Err TooManySubscriptions)
  else
    let id := format_id (id_counter m) in
    ({| subscriptions := <[id := {| sub_id := id; sub_type := t; filter_ := f; connection_id := conn |}]>
                           (subscriptions m);
        by_connection := <[conn := subs ++ [id]]> (by_connection m);
        id_counter := wrapping_add 64 (id_counter m) 1;
        max_per_connection := max_per_connection m |}, Ok id).

Definition retain_other (id : string) (l : list string) : list string := filter (fun i => i <> id) l.

Definition unsubscribe (id : string) (m : Manager) : Manager * bool :=
  match subscriptions m !! id with
  | Some sub =>
      ({| subscriptions := delete id (subscriptions m);
          by_connection := alter (retain_other id) (connection_id sub) (by_connection m);
          id_counter := id_counter m; max_per_connection := max_per_connection m |}, true)
  | None => (m, false)
  end.

Definition remove_connection (conn : Z) (m : Manager) : Manager :=
  match by_connection m !! conn with
  | Some ids =>
      {| subscriptions := foldl (fun subs id => delete id subs) (subscriptions m) ids;
         by_connection := delete conn (by_connection m);
         id_counter := id_counter m; max_per_connection := max_per_connection m |}
  | None => m
  end.

Definition get (id : string) (m : Manager) : option Subscription := subscriptions m !! id.
Definition get_connection_subscriptions (conn : Z) (m : Manager) : list Subscription :=
  omap (fun id => subscriptions m !! id) (default [] (by_connection m !! conn)).

Definition address_matches (f : option FilterAddress) (a : Address) : bool :=
  match f with
  | None => true
  | Some (SingleAddress b) => b =? a
  | Some (MultipleAddresses l) => bool_decide (a ∈ l)
  end.
Fixpoint topics_match (fs : list (option FilterTopic)) (ts : list Hash) : bool :=
  match fs with
  | [] => true
  | None :: fs => topics_match fs (tail ts)
  | Some f :: fs =>
      match ts with
      | [] => false
      | t :: ts =>
          match f with
          | SingleTopic x => x =? t
          | MultipleTopics l => bool_decide (t ∈ l)
          end && topics_match fs ts
      end
  end.
Definition match_log_filter (f : Filter) (a : Address) (ts : list Hash) : bool :=
  address_matches (address f) a && match topics f with None => true | Some fs => topics_match fs ts end.

Definition is_logs (t : SubscriptionType) : bool := match t with Logs => true | _ => false end.
Definition wants_log (a : Address) (ts : list Hash) (s : Subscription) : bool :=
  is_logs (sub_type s) && match filter_ s with None => true | Some f => match_log_filter f a ts end.
Definition get_matching_log_subscriptions (a : Address) (ts : list Hash) (m : Manager) : list Subscription :=
  filter (fun s => wants_log a ts s = true) ((map_to_list (subscriptions m)).*2).

(** *** Messages of a connection *)

Section Messages.
Context (parse_json : string -> option Json).
Context (to_filter : Json -> option Filter).

Definition fail_with (id : option Json) (code : Z) : RpcResponse := RpcFailure (default JNull id) code.

Definition handle_subscribe (conn : Z) (id params : option Json) (m : Manager) : Manager * RpcResponse :=
  match params with
  | Some (JArray (p :: ps)) =>
      match as_str p ≫= type_from_str with
      | None => (m, fail_with id (-32602))
      | Some t =>
          let filter := if is_logs t then
                          match ps with [] => Some None | v :: _ => Some <$> to_filter v end
                        else Some None in
          match filter with
          | None => (m, fail_with id (-32602))
          | Some f =>
              match subscribe conn t f m with
              | (m, Ok s) => (m, RpcResult (default JNull id) (JString s))
              | (m, _) => (m, fail_with id (-32000))
              end
          end
      end
  | _ => (m, fail_with id (-32602))
  end.

Definition handle_unsubscribe (id params : option Json) (m : Manager) : Manager * RpcResponse :=
  match params with
  | Some (JArray (p :: _)) =>
      match as_str p with
      | None => (m, fail_with id (-32602))
      | Some s => let '(m, b) := unsubscribe s m in (m, RpcResult (default JNull id) (JBool b))
      end
  | _ => (m, fail_with id (-32602))
  end.

Definition handle_message (conn : Z) (text : string) (m : Manager) : Manager * RpcResponse :=
  match parse_json text with
  | None => (m, RpcFailure JNull (-32700))
  | Some request =>
      let id := jget "id" request in
      let method := default "" (jget "method" request ≫= as_str) in
      let params := jget "params" request in
      if String.eqb method "eth_subscribe" then handle_subscribe conn id params m
      else if String.eqb method "eth_unsubscribe" then handle_unsubscribe id params m
      else (m, fail_with id (-32601))
  end.

End Messages.

(** The rate of a connection: at most [rate_limit] messages in a window that starts anew
    with the first message a second after its start. *)
Record Rate := { message_count : Z; rate_limit_window : Z }.
Definition check_rate_limit (limit second now : Z) (r : Rate) : Rate * bool :=
  let r := if second <=? now - rate_limit_window r then {| message_count := 0; rate_limit_window := now |}
           else r in
  let r := {| message_count := wrapping_add 32 (message_count r) 1; rate_limit_window := rate_limit_window r |} in
  (r, message_count r <=? limit).

(** *** Theorems *)

(** The number a text of digits spells, after the number [v]. *)
Definition digit_value (a : ascii) : Z :=
  let n := Z.of_nat (Ascii.nat_of_ascii a) in if n <? 58 then n - 48 else n - 87.
Fixpoint spells (v : Z) (s : string) : Z :=
  match s with EmptyString => v | String a s => spells (16 * v + digit_value a) s end.

Lemma digit_value_digit d : 0 <= d < 16 -> digit_value (digit d) = d.
Proof.
  intros H.
  assert (forallb (fun k => digit_value (digit (Z.of_nat k)) =? Z.of_nat k) (seq 0 16) = true) as Hall
    by (by vm_compute).
  rewrite forallb_forall in Hall. specialize (Hall (Z.to_nat d)).
  rewrite Z2Nat.id in Hall by lia. apply Z.eqb_eq, Hall, in_seq. lia.
Qed.

Lemma to_hex_spells fuel : forall n acc, 0 <= n < 16 ^ Z.of_nat fuel ->
  spells 0 (to_hex fuel n acc) = spells n acc.
Proof.
  induction fuel as [|fuel IH]; intros n acc Hn.
  - change (16 ^ Z.of_nat 0) with 1 in Hn. by replace n with 0 by lia.
  - rewrite Nat2Z.inj_succ, Z.pow_succ_r in Hn by lia. cbn [to_hex].
    pose proof (Z.mod_pos_bound n 16 ltac:(lia)) as Hm. pose proof (Z.div_mod n 16 ltac:(lia)) as Hd.
    destruct (Z.eqb_spec (n / 16) 0) as [E|E].
    + cbn [spells]. rewrite digit_value_digit by done. f_equal. lia.
    + rewrite IH by lia. cbn [spells]. rewrite digit_value_digit by done. f_equal. lia.
Qed.

Lemma format_id_inj a b : in_width 64 a -> in_width 64 b -> format_id a = format_id b -> a = b.
Proof.
  unfold in_width, format_id. intros Ha Hb E.
  apply (f_equal (fun s => spells 0 (match s with String _ (String _ r) => r | _ => s end))) in E.
  change (spells 0 (to_hex 16 a "") = spells 0 (to_hex 16 b "")) in E.
  rewrite !to_hex_spells in E; [exact E|..]; change (16 ^ Z.of_nat 16) with (2 ^ 64); lia.
Qed.

(** What the connections and the store of subscriptions say of each other. *)
Record inv (m : Manager) : Prop := {
  inv_counter : 1 <= id_counter m;
  inv_listed : forall conn l, by_connection m !! conn = Some l ->
    NoDup l /\ Z.of_nat (length l) <= max_per_connection m /\
    forall id, id ∈ l -> exists s, subscriptions m !! id = Some s /\ connection_id s = conn;
  inv_stored : forall id s, subscriptions m !! id = Some s -> sub_id s = id /\
    (exists l, by_connection m !! connection_id s = Some l /\ id ∈ l) /\
    exists k, 1 <= k < id_counter m /\ id = format_id k;
}.

Lemma manager_new_inv max : 0 <= max -> inv (new max).
Proof. intros H. by split. Qed.

Lemma subscribe_inv conn t f m : inv m -> 0 <= max_per_connection m < 2 ^ 32 -> id_counter m < 2 ^ 64 - 1 ->
  inv (fst (subscribe conn t f m)).
Proof.
  intros [H1 H2 H3] Hmax Hc. unfold subscribe.
  assert (exists l, default [] (by_connection m !! conn) = l /\ NoDup l /\
    Z.of_nat (length l) <= max_per_connection m /\
    (forall id, id ∈ l -> exists s, subscriptions m !! id = Some s /\ connection_id s = conn) /\
    (forall l', by_connection m !! conn = Some l' -> l' = l)) as (l & -> & Hnd & Hlen & Hl & Hu).
  { destruct (by_connection m !! conn) as [l|] eqn:E; cbn.
    - destruct (H2 _ _ E) as (? & ? & ?). exists l. split_and!; [done..|congruence].
    - exists []. split_and!; [done|constructor|cbn; lia| |done]. by intros ? ?%elem_of_nil. }
  rewrite Z.mod_small by lia.
  destruct (Z.leb_spec (max_per_connection m) (Z.of_nat (length l))).
  { split; cbn; [done|..].
    - intros c l'. destruct (decide (conn = c)) as [<-|]; rewrite ?lookup_insert_eq, ?lookup_insert_ne by done;
        [intros [= <-]; eauto|apply H2].
    - intros id s E. destruct (H3 _ _ E) as (Hi & (l' & El & Hin) & Hk). split_and!; [done| |done].
      destruct (decide (conn = connection_id s)) as [-> |]; rewrite ?lookup_insert_ne by done; [|eauto].
      rewrite lookup_insert_eq. exists l. by rewrite <- (Hu _ El). }
  assert (forall id s, subscriptions m !! id = Some s -> id <> format_id (id_counter m)) as Hfresh.
  { intros id s E. destruct (H3 _ _ E) as (_ & _ & k & Hk & ->). intros Ek.
    apply format_id_inj in Ek; unfold in_width; lia. }
  assert (wrapping_add 64 (id_counter m) 1 = id_counter m + 1) as Ew by (unfold wrapping_add; apply Z.mod_small; lia).
  split; cbn; rewrite ?Ew; [lia|..].
  - intros c l'. destruct (decide (conn = c)) as [<-|Hne].
    + rewrite lookup_insert_eq. intros [= <-]. rewrite length_app. cbn [length]. split_and!; [|lia|].
      * apply NoDup_app. split_and!; [done| |apply NoDup_singleton].
        intros id Hin ->%list_elem_of_singleton. destruct (Hl _ Hin) as (s & Es & _). by apply Hfresh in Es.
      * intros id [Hin| ->%list_elem_of_singleton]%elem_of_app; [|rewrite lookup_insert_eq; by eauto].
        destruct (Hl _ Hin) as (s & Es & Ec). rewrite lookup_insert_ne by (intros <-; by apply Hfresh in Es).
        eauto.
    + rewrite lookup_insert_ne by done. intros E. destruct (H2 _ _ E) as (? & ? & Hin). split_and!; [done..|].
      intros id Hid. destruct (Hin _ Hid) as (s & Es & Ec).
      rewrite lookup_insert_ne by (intros <-; by apply Hfresh in Es). eauto.
  - intros id s. destruct (decide (format_id (id_counter m) = id)) as [<-|Hne].
    + rewrite lookup_insert_eq. intros [= <-]. cbn. split_and!; [done|..].
      * rewrite lookup_insert_eq. eexists. split; [done|]. apply elem_of_app. right. by left.
      * exists (id_counter m). split; [lia|done].
    + rewrite lookup_insert_ne by done. intros E. destruct (H3 _ _ E) as (Hi & (l' & El & Hin) & k & Hk & Ek).
      split_and!; [done| |exists k; split; [lia|done]].
      destruct (decide (conn = connection_id s)) as [-> |]; rewrite ?lookup_insert_ne by done; [|eauto].
      rewrite lookup_insert_eq. eexists. split; [done|]. apply elem_of_app. left. by rewrite <- (Hu _ El).
Qed.

Lemma unsubscribe_inv id m : inv m -> inv (fst (unsubscribe id m)).
Proof.
  intros [H1 H2 H3]. unfold unsubscribe. destruct (subscriptions m !! id) as [s|] eqn:E; [|done].
  split; cbn; [done|..].
  - intros c l. rewrite lookup_alter. destruct (decide (connection_id s = c)) as [<-|Hne].
    + destruct (by_connection m !! connection_id s) as [l0|] eqn:El; [|done]. cbn. intros [= <-].
      destruct (H2 _ _ El) as (Hnd & Hlen & Hin). unfold retain_other. split_and!.
      * by apply NoDup_filter.
      * pose proof (length_filter (fun i => i <> id) l0). lia.
      * intros i [Hi Hi']%list_elem_of_filter. destruct (Hin _ Hi') as (s' & Es & Ec).
        exists s'. by rewrite lookup_delete_ne.
    + intros El. destruct (H2 _ _ El) as (Hnd & Hlen & Hin). split_and!; [done..|].
      intros i Hi. destruct (Hin _ Hi) as (s' & Es & Ec). exists s'.
      rewrite lookup_delete_ne; [done|]. intros <-. congruence.
  - intros i s'. rewrite lookup_delete_Some. intros [Hne Es].
    destruct (H3 _ _ Es) as (Hi & (l' & El & Hin) & Hk). split_and!; [done| |done].
    rewrite lookup_alter. destruct (decide (connection_id s = connection_id s')) as [Ec|];
      [|rewrite El; eauto].
    rewrite Ec, El. cbn. eexists. split; [done|]. apply list_elem_of_filter. split; [by intros ->|done].
Qed.

Lemma lookup_delete_all ids (subs : gmap string Subscription) i :
  foldl (fun subs id => delete id subs) subs ids !! i = if decide (i ∈ ids) then None else subs !! i.
Proof.
  revert subs. induction ids as [|id ids IH]; intros subs; [done|]. cbn [foldl]. rewrite IH.
  destruct (decide (i ∈ ids)) as [Hin|Hin].
  - rewrite decide_True; [done|by right].
  - destruct (decide (id = i)) as [-> |Hne].
    + rewrite lookup_delete_eq, decide_True; [done|by left].
    + rewrite lookup_delete_ne, decide_False; [done| |done]. intros [->|?]%elem_of_cons; done.
Qed.

Lemma remove_connection_inv conn m : inv m -> inv (remove_connection conn m).
Proof.
  intros [H1 H2 H3]. unfold remove_connection. destruct (by_connection m !! conn) as [ids|] eqn:E; [|done].
  destruct (H2 _ _ E) as (_ & _ & Hids).
  split; cbn; [done|..].
  - intros c l. rewrite lookup_delete_Some. intros [Hne El]. destruct (H2 _ _ El) as (Hnd & Hlen & Hin).
    split_and!; [done..|]. intros i Hi. destruct (Hin _ Hi) as (s & Es & Ec). exists s.
    rewrite lookup_delete_all, decide_False; [done|]. intros Hi'. destruct (Hids _ Hi') as (s' & Es' & Ec').
    congruence.
  - intros i s. rewrite lookup_delete_all. destruct (decide (i ∈ ids)) as [|Hni]; [done|]. intros Es.
    destruct (H3 _ _ Es) as (Hi & (l & El & Hin) & Hk). split_and!; [done| |done].
    exists l. split; [|done]. rewrite lookup_delete_ne; [done|]. intros Hc.
    rewrite Hc in E. assert (l = ids) as -> by congruence. done.
Qed.

(** Calls of the manager. *)
Inductive Op :=
  | Subscribe (conn : Z) (t : SubscriptionType) (f : option Filter)
  | Unsubscribe (id : string)
  | RemoveConnection (conn : Z).
Definition run_op (m : Manager) (o : Op) : Manager :=
  match o with
  | Subscribe conn t f => fst (subscribe conn t f m)
  | Unsubscribe id => fst (unsubscribe id m)
  | RemoveConnection conn => remove_connection conn m
  end.

Lemma run_op_counter m o : 1 <= id_counter m < 2 ^ 64 - 1 ->
  max_per_connection (run_op m o) = max_per_connection m /\
  id_counter m <= id_counter (run_op m o) <= id_counter m + 1.
Proof.
  intros H. destruct o; cbn.
  - unfold subscribe. destruct (_ <=? _); cbn; [split; [done|lia]|].
    unfold wrapping_add. rewrite Z.mod_small by lia. split; [done|lia].
  - unfold unsubscribe. destruct (subscriptions m !! id); cbn; split; (done || lia).
  - unfold remove_connection. destruct (by_connection m !! conn); cbn; split; (done || lia).
Qed.

Lemma run_op_inv m o : inv m -> 0 <= max_per_connection m < 2 ^ 32 -> id_counter m < 2 ^ 64 - 1 ->
  inv (run_op m o).
Proof.
  intros H Hm Hc. destruct o; [by apply subscribe_inv|by apply unsubscribe_inv|by apply remove_connection_inv].
Qed.

Lemma run_ops_inv ops : forall m, inv m -> 0 <= max_per_connection m < 2 ^ 32 ->
  id_counter m + Z.of_nat (length ops) < 2 ^ 64 ->
  inv (foldl run_op m ops) /\ max_per_connection (foldl run_op m ops) = max_per_connection m.
Proof.
  induction ops as [|o ops IH]; intros m Hi Hm Hc; [done|]. cbn [foldl]. cbn [length] in Hc.
  assert (1 <= id_counter m) by apply Hi.
  destruct (run_op_counter m o) as [Em Ec]; [lia|].
  rewrite <- Em. apply IH; [by apply run_op_inv; [| |lia]|by rewrite Em|lia].
Qed.

(** After any calls, fewer than 2^64: a connection lists each of its
    subscriptions once and no others, every subscription is stored under its own
    identifier and listed by its connection, and no connection has more than the
    limit. *)
Theorem subscriptions_consistent max ops m :
  0 <= max < 2 ^ 32 -> Z.of_nat (length ops) < 2 ^ 64 - 1 -> m = foldl run_op (new max) ops ->
  (forall conn l, by_connection m !! conn = Some l -> NoDup l /\ Z.of_nat (length l) <= max) /\
  (forall conn id, (exists l, by_connection m !! conn = Some l /\ id ∈ l) <->
     exists s, get id m = Some s /\ sub_id s = id /\ connection_id s = conn).
Proof.
  intros Hmax Hlen ->.
  destruct (run_ops_inv ops (new max)) as [[H1 H2 H3] Em]; [apply manager_new_inv; lia|done|cbn [id_counter new]; lia|].
  cbn [max_per_connection new] in Em. rewrite Em in H2. split.
  - intros conn l E. by destruct (H2 _ _ E) as (? & ? & _).
  - intros conn id. unfold get. split.
    + intros (l & El & Hin). destruct (H2 _ _ El) as (_ & _ & Hl). destruct (Hl _ Hin) as (s & Es & Ec).
      exists s. split; [done|]. split; [|done]. by destruct (H3 _ _ Es).
    + intros (s & Es & _ & <-). by destruct (H3 _ _ Es) as (_ & ? & _).
Qed.

Definition two_subscribers : list Op := [Subscribe 1 NewHeads None; Subscribe 2 Logs None].
Lemma subscriptions_consistent_witness :
  exists s, get "0x2" (foldl run_op (new 10) two_subscribers) = Some s /\ connection_id s = 2.
Proof.
  destruct (subscriptions_consistent 10 two_subscribers _ ltac:(lia) ltac:(cbn [length two_subscribers]; lia) eq_refl)
    as [_ H].
  destruct (proj1 (H 2 "0x2")) as (s & Hs & _ & Hc).
  - exists ["0x2"]. split; [by vm_compute|by left].
  - exists s. split; [exact Hs|exact Hc].
Defined.

(** Identifiers are consecutive and the connection that asks is not compared: the second
    connection ends the subscription of the first. *)
Example foreign_unsubscribe :
  let m := foldl run_op (new 10) two_subscribers in
  let text := JObject [("method", JString "eth_unsubscribe"); ("params", JArray [JString "0x1"])] in
  let '(m', r) := handle_message (fun _ => Some text) (fun _ => None) 2 "" m in
  get_connection_subscriptions 1 m <> [] /\ get_connection_subscriptions 1 m' = [] /\
  r = RpcResult JNull (JBool true).
Proof. by vm_compute. Qed.

(** The subscriptions a log is sent to are the stored ones that ask for it. *)
Lemma matching_exact a ts m s :
  s ∈ get_matching_log_subscriptions a ts m <->
  (exists id, get id m = Some s) /\ sub_type s = Logs /\
  forall f, filter_ s = Some f -> match_log_filter f a ts = true.
Proof.
  unfold get_matching_log_subscriptions, get. rewrite list_elem_of_filter, list_elem_of_fmap.
  unfold wants_log. rewrite andb_true_iff. split.
  - intros [[Ht Hf] ([id s'] & -> & Hin)]. apply elem_of_map_to_list in Hin. cbn in *.
    split; [by eauto|]. split; [by destruct (sub_type s')|]. intros f E. by rewrite E in Hf.
  - intros ([id Hs] & Ht & Hf). rewrite Ht. split; [split; [done|]|].
    + destruct (filter_ s) as [f|]; [by apply Hf|done].
    + exists (id, s). split; [done|]. by apply elem_of_map_to_list.
Qed.

(** At most the limit passes in one window. *)
Lemma rate_limit_refuses limit second now r :
  0 <= limit < 2 ^ 32 - 1 -> message_count r = limit -> now - rate_limit_window r < second ->
  snd (check_rate_limit limit second now r) = false.
Proof.
  intros Hl Hc Hw. unfold check_rate_limit.
  destruct (Z.leb_spec second (now - rate_limit_window r)); [lia|]. cbn.
  unfold wrapping_add. rewrite Z.mod_small by lia. apply Z.leb_gt. lia.
Qed.

End Subscriptions.
