(* ===== verification/MempoolSide.v ===== *)
(** * Mempool: rejection cache, dust, fee floor, persistence

    The side modules of [qc-06-mempool/src/domain/]: the rolling cache of
    rejected transactions and the dust filter ([dos_protection.rs]), the
    decaying fee floor ([dmmf.rs]) and the format of [mempool.dat]
    ([persistence.rs]).

    [Instant::now] is an argument [now], in milliseconds; an [elapsed] that
    would be negative is zero, as the standard library has it.  The decay
    factor, a [f64], only enters as [(factor * 1000.0) as u64], and that number
    is kept instead. *)

From S2P Require Import Prelude SharedTypes.

Local Open Scope Z_scope.
Local Open Scope qc_scope.

(** ** The cache of rejected transactions *)

Module Rejection.

Record RejectionCache := {
  current : gset Hash;
  previous : gset Hash;
  salt : u64;
  last_roll : Timestamp;
  roll_interval : u64;
  max_entries : usize
}.

Definition DEFAULT_ROLL_INTERVAL : u64 := 3600 * 1000.
Definition DEFAULT_MAX_ENTRIES : usize := 100000.

Definition with_params (rand_salt : u64) (now : Timestamp) (roll_interval : u64)
  (max_entries : usize) : RejectionCache := {|
  current := ∅; previous := ∅; salt := rand_salt; last_roll := now;
  roll_interval := roll_interval; max_entries := max_entries
|}.

Definition new (rand_salt : u64) (now : Timestamp) : RejectionCache :=
  with_params rand_salt now DEFAULT_ROLL_INTERVAL DEFAULT_MAX_ENTRIES.

Definition is_rejected (c : RejectionCache) (tx_hash : Hash) : bool :=
  bool_decide (tx_hash ∈ current c) || bool_decide (tx_hash ∈ previous c).

Definition roll (rand_salt : u64) (now : Timestamp) (c : RejectionCache) : RejectionCache := {|
  current := ∅; previous := current c; salt := rand_salt; last_roll := now;
  roll_interval := roll_interval c; max_entries := max_entries c
|}.

Definition maybe_roll (rand_salt : u64) (now : Timestamp) (c : RejectionCache)
  : RejectionCache :=
  if roll_interval c <=? saturating_sub now (last_roll c) then roll rand_salt now c else c.

Definition mark_rejected (rand_salt : u64) (now : Timestamp) (tx_hash : Hash)
  (c : RejectionCache) : RejectionCache :=
  let c := maybe_roll rand_salt now c in
  let c := if max_entries c <=? Z.of_nat (size (current c)) then roll rand_salt now c else c in
  {| current := {[tx_hash]} ∪ current c; previous := previous c; salt := salt c;
     last_roll := last_roll c; roll_interval := roll_interval c;
     max_entries := max_entries c |}.

Definition clear (c : RejectionCache) : RejectionCache := {|
  current := ∅; previous := ∅; salt := salt c; last_roll := last_roll c;
  roll_interval := roll_interval c; max_entries := max_entries c
|}.

Record RejectionCacheStats := {
  current_entries : usize;
  previous_entries : usize;
  time_since_roll : u64
}.

Definition stats (now : Timestamp) (c : RejectionCache) : RejectionCacheStats := {|
  current_entries := Z.of_nat (size (current c));
  previous_entries := Z.of_nat (size (previous c));
  time_since_roll := saturating_sub now (last_roll c)
|}.

(** *** What the cache remembers *)

(** The calls that change a cache.  The [salt] is stored and never read. *)
Inductive op :=
| OpMark (now : Timestamp) (h : Hash)
| OpRoll (now : Timestamp)
| OpClear.

Definition apply_op (rand_salt : u64) (o : op) (c : RejectionCache) : RejectionCache :=
  match o with
  | OpMark now h => mark_rejected rand_salt now h c
  | OpRoll now => roll rand_salt now c
  | OpClear => clear c
  end.

Definition apply_ops (rand_salt : u64) (l : list op) (c : RejectionCache) : RejectionCache :=
  foldl (fun c o => apply_op rand_salt o c) c l.

Definition will_roll (now : Timestamp) (c : RejectionCache) : bool :=
  (roll_interval c <=? saturating_sub now (last_roll c)) ||
  (max_entries c <=? Z.of_nat (size (current c))).

Definition op_rolls (o : op) (c : RejectionCache) : nat :=
  match o with
  | OpMark now _ => if will_roll now c then 1 else 0
  | OpRoll _ => 1
  | OpClear => 0
  end.

(** How often the cache rolls while the calls are made. *)
Fixpoint rolls (s : u64) (l : list op) (c : RejectionCache) : nat :=
  match l with
  | [] => 0
  | o :: l => op_rolls o c + rolls s l (apply_op s o c)
  end.

Definition within (c : RejectionCache) : Prop :=
  Z.of_nat (size (current c)) <= max_entries c /\
  Z.of_nat (size (previous c)) <= max_entries c.

(** Neither marks [h] again nor clears. *)
Definition leaves (h : Hash) (o : op) : Prop :=
  match o with OpMark _ h' => h' <> h | OpRoll _ => True | OpClear => False end.

Lemma is_rejected_iff c h :
  is_rejected c h = true <-> h ∈ current c \/ h ∈ previous c.
Proof. unfold is_rejected. by rewrite orb_true_iff, !bool_decide_eq_true. Qed.

(** A mark rolls at most once: a roll by time leaves the current filter empty. *)
Lemma mark_rejected_eq s now h c : 0 < max_entries c ->
  let c' := if will_roll now c then roll s now c else c in
  mark_rejected s now h c =
  {| current := {[h]} ∪ current c'; previous := previous c'; salt := salt c';
     last_roll := last_roll c'; roll_interval := roll_interval c;
     max_entries := max_entries c |}.
Proof.
  intros Hm. cbn zeta. unfold mark_rejected, maybe_roll, will_roll. cbn zeta.
  destruct (roll_interval c <=? saturating_sub now (last_roll c)); cbn [orb].
  - cbn [roll max_entries current]. rewrite size_empty.
    by rewrite (proj2 (Z.leb_gt _ _)) by lia.
  - by destruct (max_entries c <=? Z.of_nat (size (current c))).
Qed.

Lemma apply_op_within s o c : 0 < max_entries c -> within c ->
  within (apply_op s o c) /\ max_entries (apply_op s o c) = max_entries c.
Proof.
  intros Hm [H1 H2]. destruct o as [now h|now|]; cbn [apply_op].
  - rewrite mark_rejected_eq by done. split; [|done].
    assert (Hs : (size ({[h]} ∪ current c) <= 1 + size (current c))%nat).
    { rewrite size_union_alt, size_singleton.
      assert (size (current c ∖ {[h]}) <= size (current c))%nat
        by (apply subseteq_size; set_solver). lia. }
    unfold within. cbn. destruct (will_roll now c) eqn:Ew; cbn.
    + rewrite union_empty_r_L, size_singleton. split; lia.
    + unfold will_roll in Ew. bools. split; lia.
  - split; [|done]. unfold within. cbn. rewrite size_empty. lia.
  - split; [|done]. unfold within. cbn. rewrite size_empty. lia.
Qed.

(** How far a hash has travelled: 0 in the current filter, 1 in the previous
    one only, more when it has been forgotten. *)
Definition at_age (h : Hash) (c : RejectionCache) (n : nat) : Prop :=
  match n with
  | O => h ∈ current c
  | 1%nat => h ∉ current c /\ h ∈ previous c
  | _ => h ∉ current c /\ h ∉ previous c
  end.

Lemma apply_op_age s o c h n : 0 < max_entries c -> leaves h o -> at_age h c n ->
  at_age h (apply_op s o c) (op_rolls o c + n).
Proof.
  intros Hm Hl Ha. destruct o as [now h'|now|]; cbn [apply_op op_rolls leaves] in *; [..|done].
  - rewrite mark_rejected_eq by done.
    destruct (will_roll now c), n as [|[|n]]; cbn in *; set_solver.
  - destruct n as [|[|n]]; cbn in *; set_solver.
Qed.

Lemma apply_ops_age s l : forall c h n, 0 < max_entries c -> within c ->
  Forall (leaves h) l -> at_age h c n ->
  at_age h (apply_ops s l c) (rolls s l c + n) /\ within (apply_ops s l c).
Proof.
  induction l as [|o l IH]; intros c h n Hm Hw Hl Ha; [done|].
  apply Forall_cons in Hl as [Ho Hl]. cbn [apply_ops foldl rolls].
  destruct (apply_op_within s o c Hm Hw) as [Hw' Hm'].
  pose proof (apply_op_age s o c h n Hm Ho Ha) as Ha'.
  destruct (IH (apply_op s o c) h _ ltac:(lia) Hw' Hl Ha') as [H1 H2].
  split; [|done].
  by replace (op_rolls o c + rolls s l (apply_op s o c) + n)%nat
    with (rolls s l (apply_op s o c) + (op_rolls o c + n))%nat by lia.
Qed.

Lemma at_age_rejected h c n : at_age h c n -> is_rejected c h = (n <=? 1)%nat.
Proof.
  intros Ha. apply eq_true_iff_eq. rewrite is_rejected_iff.
  destruct n as [|[|n]]; cbn in *; [intuition..|]. split; [tauto|done].
Qed.

(** A transaction marked as rejected is refused exactly until
    the cache has rolled twice since: it survives the first roll, whether by
    time, by a full filter or asked for, and the second forgets it, as long as
    it is not marked again and nothing clears the cache.  Both filters keep
    within the configured number of entries. *)
Theorem rejection_cache_exact s now h c l :
  0 < max_entries c -> within c -> Forall (leaves h) l ->
  let c0 := mark_rejected s now h c in
  is_rejected (apply_ops s l c0) h = (rolls s l c0 <=? 1)%nat /\
  within (apply_ops s l c0).
Proof.
  intros Hm Hw Hl. cbn zeta.
  destruct (apply_op_within s (OpMark now h) c Hm Hw) as [Hw' Hm'].
  cbn [apply_op] in Hw', Hm'.
  destruct (apply_ops_age s l (mark_rejected s now h c) h 0) as [Ha Hb]; [lia|done|done| |].
  - rewrite mark_rejected_eq by done. cbn. set_solver.
  - rewrite Nat.add_0_r in Ha. split; [by apply at_age_rejected|done].
Qed.

Lemma rejection_cache_exact_witness :
  is_rejected (apply_ops 0 [OpMark 5 8; OpRoll 7; OpMark 9 4]
    (mark_rejected 0 3 1 (with_params 0 0 1000 2))) 1 = true.
Proof.
  destruct (rejection_cache_exact 0 3 1 (with_params 0 0 1000 2)
    [OpMark 5 8; OpRoll 7; OpMark 9 4]) as [H _].
  - done.
  - by vm_compute.
  - repeat constructor; discriminate.
  - rewrite H. by vm_compute.
Defined.

(** Only rejected transactions are refused. *)
Lemma rejected_was_marked s l : forall c h,
  is_rejected (apply_ops s l c) h = true ->
  is_rejected c h = true \/ exists now, OpMark now h ∈ l.
Proof.
  induction l as [|o l IH]; intros c h H; [by left|].
  destruct (IH _ _ H) as [Ho|[now Hin]]; [|right; exists now; by constructor].
  rewrite is_rejected_iff in Ho |- *. destruct o as [now h'|now|]; cbn in Ho; [|set_solver..].
  unfold mark_rejected, maybe_roll in Ho. cbn zeta in Ho.
  destruct (decide (h' = h)) as [->|Hne]; [right; exists now; constructor|left].
  destruct (roll_interval c <=? _); cbn in Ho; case_match; cbn in Ho; set_solver.
Qed.

(** The filters are flushed by twice their size of other rejected
    transactions, all within one instant. *)
Example flood_forgets :
  let c := mark_rejected 0 0 1 (with_params 0 0 1000 2) in
  is_rejected c 1 = true /\
  is_rejected (apply_ops 0 [OpMark 0 2; OpMark 0 3; OpMark 0 4; OpMark 0 5] c) 1 = false.
Proof. by vm_compute. Qed.

End Rejection.

(** ** The dust filter *)

Module Dust.

Record DustFilter := {
  min_relay_fee : u64;
  input_overhead : usize
}.

Definition DEFAULT_INPUT_OVERHEAD : usize := 148.
Definition DEFAULT_MIN_RELAY_FEE : u64 := 1.

Definition new : DustFilter := {|
  min_relay_fee := DEFAULT_MIN_RELAY_FEE; input_overhead := DEFAULT_INPUT_OVERHEAD
|}.

Definition with_params (min_relay_fee : u64) (input_overhead : usize) : DustFilter := {|
  min_relay_fee := min_relay_fee; input_overhead := input_overhead
|}.

Definition dust_threshold (f : DustFilter) (output_size : usize) : u64 :=
  let spend_size := wrapping_add 64 (input_overhead f) output_size in
  wrapping_mul 64 spend_size (min_relay_fee f).

Definition is_dust (f : DustFilter) (output_value : u64) (output_size : usize) : bool :=
  output_value <? dust_threshold f output_size.

Definition find_dust_outputs (f : DustFilter) (outputs : list (u64 * usize)) : list nat :=
  omap (fun i => match outputs !! i with
    | Some (value, size) => if is_dust f value size then Some i else None
    | None => None
    end) (seq 0 (length outputs)).

(** The indices are those of the outputs worth less than it costs to spend
    them, as long as that cost fits 64 bits. *)
Lemma find_dust_exact f outputs i :
  Forall (fun o => 0 <= o.2 /\ 0 <= input_overhead f /\ 0 <= min_relay_fee f /\
    input_overhead f + o.2 < 2 ^ 64 /\
    (input_overhead f + o.2) * min_relay_fee f < 2 ^ 64) outputs ->
  i ∈ find_dust_outputs f outputs <->
  exists value size, outputs !! i = Some (value, size) /\
    value < (input_overhead f + size) * min_relay_fee f.
Proof.
  intros Hall. unfold find_dust_outputs. rewrite list_elem_of_omap.
  assert (Ht : forall value size, outputs !! i = Some (value, size) ->
    is_dust f value size = true <-> value < (input_overhead f + size) * min_relay_fee f).
  { intros value size Hi. rewrite Forall_lookup in Hall.
    destruct (Hall _ _ Hi) as (? & ? & ? & ? & ?). cbn in *.
    unfold is_dust, dust_threshold, wrapping_mul. cbn zeta.
    rewrite wrapping_add_small by lia. rewrite Z.mod_small by nia. apply Z.ltb_lt. }
  split.
  - intros (j & _ & Hj). destruct (outputs !! j) as [[value size]|] eqn:E; [|done].
    case_match; simplify_eq. exists value, size. split; [done|]. by apply Ht.
  - intros (value & size & Hi & Hv). exists i. split.
    + apply elem_of_seq. apply lookup_lt_Some in Hi. lia.
    + rewrite Hi. by rewrite (proj2 (Ht _ _ Hi)).
Qed.

(** An output whose spending cost passes [2^64] is not dust at all. *)
Example huge_cost_wraps :
  is_dust (with_params (2 ^ 57) 108) 0 20 = false.
Proof. by vm_compute. Qed.

End Dust.

(** ** The decaying fee floor *)

Module FeeFloor.

Section Dmmf.
Context `{U : U256Ops}.

Record DynamicMinFee := {
  min_fee : U256;
  base_fee : U256;
  last_decay : Timestamp;
  decay_interval_ms : u64;
  factor_fixed : u64;
  fee_bump : U256
}.

Definition DEFAULT_DECAY_INTERVAL_MS : u64 := 600000.
Definition DEFAULT_DECAY_FACTOR : u64 := 500.
Definition DEFAULT_FEE_BUMP : u64 := 1000000.

Definition with_params (now : Timestamp) (base_fee : U256) (decay_interval_ms factor_fixed : u64)
  (fee_bump : U256) : DynamicMinFee := {|
  min_fee := base_fee; base_fee := base_fee; last_decay := now;
  decay_interval_ms := decay_interval_ms; factor_fixed := factor_fixed; fee_bump := fee_bump
|}.

Definition new (now : Timestamp) (base_fee : U256) : DynamicMinFee :=
  with_params now base_fee DEFAULT_DECAY_INTERVAL_MS DEFAULT_DECAY_FACTOR DEFAULT_FEE_BUMP.

Definition set_min (d : DynamicMinFee) (fee : U256) (now : Timestamp) : DynamicMinFee := {|
  min_fee := fee; base_fee := base_fee d; last_decay := now;
  decay_interval_ms := decay_interval_ms d; factor_fixed := factor_fixed d;
  fee_bump := fee_bump d
|}.

Definition meets_minimum (d : DynamicMinFee) (gas_price : U256) : bool :=
  min_fee d <=? gas_price.

Definition raise_floor (evicted_feerate : U256) (now : Timestamp) (d : DynamicMinFee)
  : option DynamicMinFee :=
  fee ← u256_add evicted_feerate (fee_bump d); Some (set_min d fee now).

Definition u256_mul_f64 (value : U256) (factor_fixed : u64) : option U256 :=
  product ← u256_mul value factor_fixed; u256_div product 1000.

Fixpoint decay_loop (n : nat) (factor_fixed : u64) (fee : U256) : option U256 :=
  match n with
  | O => Some fee
  | S n => decayed ← u256_mul_f64 fee factor_fixed; decay_loop n factor_fixed decayed
  end.

(** [as_millis] as [u64]; dividing by an interval of zero panics. *)
Definition apply_decay (now : Timestamp) (d : DynamicMinFee) : option DynamicMinFee :=
  let elapsed := saturating_sub now (last_decay d) mod 2 ^ 64 in
  if decay_interval_ms d =? 0 then None
  else
    let intervals := elapsed / decay_interval_ms d in
    if 0 <? intervals then
      fee ← decay_loop (Z.to_nat (Z.min intervals 10)) (factor_fixed d) (min_fee d);
      Some (set_min d (if fee <? base_fee d then base_fee d else fee) now)
    else Some d.

Definition reset (now : Timestamp) (d : DynamicMinFee) : DynamicMinFee :=
  set_min d (base_fee d) now.

Context `{!U256Laws U}.

Definition sane (d : DynamicMinFee) : Prop :=
  0 < decay_interval_ms d /\ 0 <= factor_fixed d <= 1000 /\ 0 <= base_fee d < 2 ^ 256 /\
  0 <= min_fee d /\ min_fee d * 1000 < 2 ^ 256.

(** One interval of decay. *)
Definition decayed (factor fee : Z) : Z := fee * factor / 1000.

Lemma decay_step factor fee : 0 <= factor <= 1000 -> 0 <= fee -> fee * 1000 < 2 ^ 256 ->
  u256_mul_f64 fee factor = Some (decayed factor fee) /\ 0 <= decayed factor fee <= fee.
Proof.
  intros Hf H0 Hb. unfold u256_mul_f64, decayed.
  assert (fee * factor <= fee * 1000) by nia.
  rewrite u256_mul_spec by (unfold in_width; lia).
  rewrite (proj2 (Z.ltb_lt _ _)) by lia. cbn [mbind option_bind].
  rewrite u256_div_spec by (unfold in_width; nia). cbn. split; [done|]. split.
  - apply Z.div_pos; nia.
  - apply Z.div_le_upper_bound; lia.
Qed.

Lemma decay_loop_eq n : forall factor fee,
  0 <= factor <= 1000 -> 0 <= fee -> fee * 1000 < 2 ^ 256 ->
  decay_loop n factor fee = Some (Nat.iter n (decayed factor) fee) /\
  0 <= Nat.iter n (decayed factor) fee <= fee.
Proof.
  induction n as [|n IH]; intros factor fee Hf H0 Hb; [cbn; split; [done|lia]|].
  destruct (decay_step factor fee Hf H0 Hb) as [E Hd]. cbn [decay_loop]. rewrite E.
  cbn [mbind option_bind]. destruct (IH factor (decayed factor fee)) as [E' Hd']; [lia..|].
  rewrite E', Nat.iter_succ_r. split; [done|lia].
Qed.

(** With a decay factor of at most one and a floor far from the
    top of [U256], decay never panics; after [n] whole intervals since the last
    change the floor is the larger of the base fee and the old floor decayed
    [min n 10] times, so it does not rise above the larger of the two; within
    the first interval nothing changes. *)
Theorem decay_exact now d : sane d -> 0 <= now - last_decay d < 2 ^ 64 ->
  let n := (now - last_decay d) / decay_interval_ms d in
  exists d', apply_decay now d = Some d' /\
    (n = 0 -> d' = d) /\
    (0 < n -> min_fee d' = Z.max (base_fee d)
                (Nat.iter (Z.to_nat (Z.min n 10)) (decayed (factor_fixed d)) (min_fee d)) /\
              base_fee d <= min_fee d' <= Z.max (base_fee d) (min_fee d) /\
              last_decay d' = now).
Proof.
  intros (Hi & Hf & Hbase & Hm & Hb) He. cbn zeta. unfold apply_decay, saturating_sub.
  rewrite Z.max_r, Z.mod_small by lia. rewrite (proj2 (Z.eqb_neq _ _)) by lia.
  set (n := (now - last_decay d) / decay_interval_ms d).
  assert (0 <= n) by (apply Z.div_pos; lia).
  destruct (Z.ltb_spec 0 n) as [Hn|Hn].
  - destruct (decay_loop_eq (Z.to_nat (Z.min n 10)) (factor_fixed d) (min_fee d) Hf Hm Hb) as [E Hd].
    rewrite E. cbn [mbind option_bind]. eexists. split; [done|]. split; [lia|]. intros _.
    cbn [min_fee set_min last_decay].
    destruct (Z.ltb_spec (Nat.iter (Z.to_nat (Z.min n 10)) (decayed (factor_fixed d)) (min_fee d))
      (base_fee d)); split_and!; lia.
  - exists d. split_and!; [done|done|lia].
Qed.

End Dmmf.

Lemma decay_exact_witness :
  exists d', apply_decay (U := exact_u256) 1250000
    (set_min (new 0 1000) 9000 0) = Some d' /\ min_fee d' = 2250.
Proof.
  destruct (decay_exact (U := exact_u256) (U256Laws0 := exact_u256_laws) 1250000
    (set_min (new 0 1000) 9000 0)) as (d' & E & _ & H).
  - unfold sane. cbn [set_min new with_params min_fee base_fee decay_interval_ms factor_fixed].
    unfold DEFAULT_DECAY_INTERVAL_MS, DEFAULT_DECAY_FACTOR. lia.
  - cbn. lia.
  - exists d'. split; [exact E|]. destruct H as [H _]; [by vm_compute|]. rewrite H. by vm_compute.
Defined.

(** Raising the floor sets it to the evicted price and the bump, whatever it
    was: an eviction of a cheap transaction lowers it, below the base fee too. *)
Example eviction_lowers_floor :
  min_fee <$> raise_floor (U := exact_u256) 5 0 (new 0 1000000000) = Some 1000005.
Proof. by vm_compute. Qed.

(** The decay is limited to ten intervals however long the node was idle. *)
Example long_idle_decays_ten :
  min_fee <$> apply_decay (U := exact_u256) (1000 * 600000)
    (set_min (new 0 0) (1024 * 1000) 0) = Some 1000.
Proof. by vm_compute. Qed.

End FeeFloor.

(** ** The format of mempool.dat *)

Module Persistence.

Record PersistedTransaction := {
  hash : Hash;
  sender : Address;
  nonce : u64;
  gas_price : U256;
  gas_limit : u64;
  raw_data : list u8;
  first_seen : Timestamp;
  saved_at_height : u64
}.

Definition DEFAULT_MAX_REORG_DEPTH : u64 := 100.

(** [b"QCMPOOL\x01"]. *)
Definition MEMPOOL_MAGIC : list u8 := [81; 67; 77; 80; 79; 79; 76; 1].

Inductive IoError :=
| UnexpectedEof
| InvalidMagic.

Definition low_u128 (v : U256) : u128 := v mod 2 ^ 128.

Definition u256_to_bytes (value : U256) : list u8 :=
  le_bytes 16 (low_u128 value) ++ le_bytes 16 (low_u128 (Z.shiftr value 128)).

(** The sum of a number below [2^128] and a multiple of [2^128] that fits. *)
Definition bytes_to_u256 (bytes : list u8) : U256 :=
  from_le_bytes (take 16 bytes) + Z.shiftl (from_le_bytes (drop 16 bytes)) 128.

(** [read_exact] into a buffer of [n] bytes. *)
Definition read_exact (n : nat) (reader : list u8) : result IoError (list u8 * list u8) :=
  if (n <=? length reader)%nat then Ok (take n reader, drop n reader) else Err UnexpectedEof.

Definition write_tx (tx : PersistedTransaction) : list u8 :=
  hash_bytes (hash tx) ++ address_bytes (sender tx) ++ le_bytes 8 (nonce tx) ++
  u256_to_bytes (gas_price tx) ++ le_bytes 8 (gas_limit tx) ++ le_bytes 8 (first_seen tx) ++
  le_bytes 8 (saved_at_height tx) ++
  le_bytes 4 (Z.of_nat (length (raw_data tx)) mod 2 ^ 32) ++ raw_data tx.

Definition serialize (transactions : list PersistedTransaction) (current_height : u64)
  : list u8 :=
  MEMPOOL_MAGIC ++ le_bytes 8 current_height ++
  le_bytes 8 (Z.of_nat (length transactions)) ++ concat (map write_tx transactions).

Definition read_tx (reader : list u8)
  : result IoError (option PersistedTransaction * list u8) :=
  let? p := read_exact 32 reader in let hash := from_be_bytes p.1 in
  let? p := read_exact 20 p.2 in let sender := from_be_bytes p.1 in
  let? p := read_exact 8 p.2 in let nonce := from_le_bytes p.1 in
  let? p := read_exact 32 p.2 in let gas_price := bytes_to_u256 p.1 in
  let? p := read_exact 8 p.2 in let gas_limit := from_le_bytes p.1 in
  let? p := read_exact 8 p.2 in let first_seen := from_le_bytes p.1 in
  let? p := read_exact 8 p.2 in let saved_at_height := from_le_bytes p.1 in
  let? p := read_exact 4 p.2 in let len := from_le_bytes p.1 in
  let? p := read_exact (Z.to_nat len) p.2 in
  Ok (Some {| hash := hash; sender := sender; nonce := nonce; gas_price := gas_price;
              gas_limit := gas_limit; raw_data := p.1; first_seen := first_seen;
              saved_at_height := saved_at_height |}, p.2).

Fixpoint read_loop (count : nat) (reader : list u8)
  : result IoError (list PersistedTransaction) :=
  match count with
  | O => Ok []
  | S count =>
      let? p := read_tx reader in
      let? transactions := read_loop count p.2 in
      Ok (match p.1 with Some tx => tx :: transactions | None => transactions end)
  end.

(** A [Vec] of [count] entries is reserved before any is read: [alloc] says
    whether a reservation succeeds, and a refused one panics. *)
Definition deserialize (alloc : Z -> bool) (max_reorg_depth : u64) (data : list u8)
  (current_height : u64) : result IoError (list PersistedTransaction) :=
  let? p := read_exact 8 data in
  if negb (bool_decide (p.1 = MEMPOOL_MAGIC)) then Err InvalidMagic
  else
    let? p := read_exact 8 p.2 in
    let saved_height := from_le_bytes p.1 in
    if max_reorg_depth <? saturating_sub current_height saved_height then Ok []
    else
      let? p := read_exact 8 p.2 in
      let count := from_le_bytes p.1 in
      if alloc count then read_loop (Z.to_nat count) p.2 else Panic.

Definition can_skip_verification (max_reorg_depth : u64) (tx : PersistedTransaction)
  (current_height : u64) : bool :=
  saturating_sub current_height (saved_at_height tx) <=? max_reorg_depth.

(** The fields are in the range of their types and the raw data is shorter
    than [2^32] bytes, the width of its length field. *)
Definition tx_fits (tx : PersistedTransaction) : Prop :=
  in_width 256 (hash tx) /\ in_width 160 (sender tx) /\ in_width 64 (nonce tx) /\
  in_width 256 (gas_price tx) /\ in_width 64 (gas_limit tx) /\ in_width 64 (first_seen tx) /\
  in_width 64 (saved_at_height tx) /\ Z.of_nat (length (raw_data tx)) < 2 ^ 32.

Lemma read_exact_app n l rest : length l = n -> read_exact n (l ++ rest) = Ok (l, rest).
Proof.
  intros <-. unfold read_exact. rewrite length_app.
  rewrite (proj2 (Nat.leb_le _ _)) by lia. by rewrite take_app_length, drop_app_length.
Qed.

Lemma u256_bytes_roundtrip v : in_width 256 v -> bytes_to_u256 (u256_to_bytes v) = v.
Proof.
  intros Hv. unfold bytes_to_u256, u256_to_bytes, low_u128.
  rewrite take_app_length', drop_app_length' by (by rewrite length_le_bytes).
  unfold in_width in Hv. rewrite Z.shiftr_div_pow2, Z.shiftl_mul_pow2 by lia.
  rewrite !from_le_bytes_to.
  - rewrite (Z.mod_small (v / 2 ^ 128)).
    + pose proof (Z.div_mod v (2 ^ 128)). lia.
    + split; [apply Z.div_pos; lia|]. apply Z.div_lt_upper_bound; lia.
  - apply Z.mod_pos_bound. lia.
  - apply Z.mod_pos_bound. lia.
Qed.

Lemma length_u256_to_bytes v : length (u256_to_bytes v) = 32%nat.
Proof. unfold u256_to_bytes. by rewrite length_app, !length_le_bytes. Qed.

(** Reading a transaction undoes writing it and leaves what follows. *)
Lemma read_write_tx tx rest : tx_fits tx ->
  read_tx (write_tx tx ++ rest) = Ok (Some tx, rest).
Proof.
  intros (Hh & Hs & Hn & Hp & Hg & Hf & Ha & Hr). unfold in_width in *.
  unfold write_tx, read_tx. rewrite <-!app_assoc.
  repeat (rewrite read_exact_app by
    (by rewrite ?length_be_bytes, ?length_le_bytes, ?length_u256_to_bytes);
    cbn [rbind fst snd]).
  rewrite Z.mod_small by lia. rewrite !from_le_bytes_to by lia.
  rewrite Nat2Z.id, read_exact_app by done. cbn [rbind fst snd].
  rewrite !from_be_bytes_to, u256_bytes_roundtrip by (unfold in_width; lia).
  by destruct tx.
Qed.

Lemma read_loop_written txs rest : Forall tx_fits txs ->
  read_loop (length txs) (concat (map write_tx txs) ++ rest) = Ok txs.
Proof.
  induction txs as [|tx txs IH]; intros Hf; [done|].
  apply Forall_cons in Hf as [Ht Hf]. cbn [map concat length read_loop].
  rewrite <-app_assoc, read_write_tx by done. cbn [rbind fst snd]. by rewrite IH.
Qed.

(** What was saved comes back, transaction for transaction, when
    the chain has advanced at most [max_reorg_depth] blocks since (or is behind
    the saved height); when it has advanced further, nothing is loaded. *)
Theorem mempool_file_roundtrip alloc depth txs saved current :
  Forall tx_fits txs -> in_width 64 saved -> in_width 64 (Z.of_nat (length txs)) ->
  0 <= depth -> alloc (Z.of_nat (length txs)) = true ->
  deserialize alloc depth (serialize txs saved) current =
  Ok (if current - saved <=? depth then txs else []).
Proof.
  unfold in_width. intros Hf Hs Hl Hd Ha. unfold deserialize, serialize. rewrite <-?app_assoc.
  rewrite read_exact_app by done. cbn [rbind fst snd]. rewrite bool_decide_true by done. cbn [negb].
  rewrite read_exact_app by (by rewrite length_le_bytes). cbn [rbind fst snd].
  rewrite !from_le_bytes_to by lia. unfold saturating_sub.
  destruct (Z.leb_spec (current - saved) depth).
  - rewrite (proj2 (Z.ltb_ge _ _)) by lia.
    rewrite read_exact_app by (by rewrite length_le_bytes). cbn [rbind fst snd].
    rewrite !from_le_bytes_to by lia. rewrite Ha, Nat2Z.id.
    rewrite <-(app_nil_r (concat _)). by apply read_loop_written.
  - by rewrite (proj2 (Z.ltb_lt _ _)) by lia.
Qed.

Definition sample : PersistedTransaction := {|
  hash := 7; sender := 9; nonce := 3; gas_price := 2 ^ 200 + 5; gas_limit := 21000;
  raw_data := [1; 2; 3]; first_seen := 1000; saved_at_height := 40
|}.

Lemma mempool_file_roundtrip_witness :
  deserialize (fun _ => true) 100 (serialize [sample; sample] 40) 140 = Ok [sample; sample].
Proof.
  refine (mempool_file_roundtrip (fun _ => true) 100 [sample; sample] 40 140 _ _ _ _ _).
  - repeat (apply Forall_cons_2; [unfold tx_fits, in_width; cbn; lia|]). apply Forall_nil_2.
  - unfold in_width. lia.
  - unfold in_width. cbn. lia.
  - lia.
  - reflexivity.
Defined.

Lemma read_loop_S count reader : read_loop (S count) reader =
  (let? p := read_tx reader in
   let? transactions := read_loop count p.2 in
   Ok (match p.1 with Some tx => tx :: transactions | None => transactions end)).
Proof. reflexivity. Qed.

Lemma read_loop_short txs tx k : Forall tx_fits txs -> (k < 32)%nat ->
  read_loop (S (length txs)) (concat (map write_tx txs) ++ take k (write_tx tx))
  = Err UnexpectedEof.
Proof.
  intros Hf Hk. induction txs as [|t txs IH]; rewrite read_loop_S; cbn [map concat length app].
  - unfold read_tx, read_exact at 1. rewrite length_take.
    by rewrite (proj2 (Nat.leb_gt _ _)) by lia.
  - apply Forall_cons in Hf as [Hft Hf]. rewrite <-app_assoc, read_write_tx by done.
    cbn [rbind fst snd]. by rewrite IH.
Qed.

(** A truncated file is an error, not a shorter pool: the transactions already
    read are lost with it. *)
Lemma truncated_fails txs tx saved current alloc depth k :
  Forall tx_fits txs -> in_width 64 saved ->
  in_width 64 (Z.of_nat (S (length txs))) ->
  current - saved <= depth -> 0 <= depth -> alloc (Z.of_nat (S (length txs))) = true ->
  (k < 32)%nat ->
  deserialize alloc depth
    (take (length (serialize txs saved) + k) (serialize (txs ++ [tx]) saved)) current
  = Err UnexpectedEof.
Proof.
  unfold in_width. intros Hf Hs Hl Hc Hd Ha Hk.
  assert (E : take (length (serialize txs saved) + k) (serialize (txs ++ [tx]) saved) =
    MEMPOOL_MAGIC ++ le_bytes 8 saved ++ le_bytes 8 (Z.of_nat (S (length txs))) ++
    concat (map write_tx txs) ++ take k (write_tx tx)).
  { unfold serialize. rewrite map_app, concat_app, !length_app, !length_le_bytes.
    cbn [map concat length]. rewrite app_nil_r.
    replace (length txs + 1)%nat with (S (length txs)) by lia.
    rewrite !app_assoc, take_app_ge; rewrite !length_app, !length_le_bytes; [|cbn; lia].
    f_equal. f_equal. cbn. lia. }
  rewrite E. unfold deserialize.
  rewrite read_exact_app by done. cbn [rbind fst snd]. rewrite bool_decide_true by done. cbn [negb].
  rewrite read_exact_app by (by rewrite length_le_bytes). cbn [rbind fst snd].
  rewrite !from_le_bytes_to by lia. unfold saturating_sub.
  rewrite (proj2 (Z.ltb_ge _ _)) by lia.
  rewrite read_exact_app by (by rewrite length_le_bytes). cbn [rbind fst snd].
  rewrite !from_le_bytes_to by lia. rewrite Ha, Nat2Z.id.
  by apply read_loop_short.
Qed.

(** A raw transaction of [2^32] bytes or more is written with its length cut
    to 32 bits: with one of exactly [2^32] bytes the length field is zero. *)
Lemma length_field_cut tx : Z.of_nat (length (raw_data tx)) = 2 ^ 32 ->
  le_bytes 4 (Z.of_nat (length (raw_data tx)) mod 2 ^ 32) = [0; 0; 0; 0].
Proof. intros ->. by vm_compute. Qed.

(** A file of 24 bytes asks for room for [2^64 - 1] transactions. *)
Example forged_count_panics alloc : alloc (2 ^ 64 - 1) = false ->
  deserialize alloc 100 (MEMPOOL_MAGIC ++ le_bytes 8 0 ++ repeat 255 8) 0 = Panic.
Proof.
  intros Ha. transitivity (if alloc (2 ^ 64 - 1) then
    read_loop (Z.to_nat (2 ^ 64 - 1)) [] else Panic); [reflexivity|]. by rewrite Ha.
Qed.

End Persistence.
