(* ===== verification/MempoolFamily.v ===== *)
(** * Mempool: transaction families and the type-state pool

    Parent and child links between a sender's consecutive transactions
    ([qc-06-mempool/src/domain/cpfp.rs]) and the pool of transactions whose
    state is in their type ([typestate.rs]), with the helper functions of
    [services.rs].

    A [HashSet] is a [gset]; the order in which the children of a transaction
    are visited is the argument [order], of which only that it lists the set is
    used.  The marker types of [typestate.rs] are the constructors of [Marker]
    and [TypeStateTx] is indexed by them. *)

From S2P Require Import Prelude SharedTypes.

Local Open Scope Z_scope.
Local Open Scope qc_scope.

Module Family.

Record AncestorInfo := {
  total_ancestor_fees : U256;
  total_ancestor_size : usize;
  ancestor_count : usize;
  ancestor_hashes : gset Hash
}.

Record DescendantInfo := {
  descendant_count : usize;
  total_descendant_fees : U256;
  descendant_hashes : gset Hash
}.

Record TransactionFamily := {
  children : gmap Hash (gset Hash);
  parents : gmap Hash Hash;
  sender_nonces : gmap Address (gmap u64 Hash)
}.

Definition MAX_ANCESTORS : usize := 25.
Definition MAX_DESCENDANTS : usize := 25.

Definition new : TransactionFamily := {| children := ∅; parents := ∅; sender_nonces := ∅ |}.

(** The transaction of [sender] registered with the nonce before [nonce]. *)
Definition predecessor (f : TransactionFamily) (sender : Address) (nonce : u64)
  : option Hash :=
  if 0 <? nonce then
    nonces ← sender_nonces f !! sender; (nonces : gmap u64 Hash) !! (nonce - 1)
  else None.

Definition register (hash : Hash) (sender : Address) (nonce : u64) (f : TransactionFamily)
  : TransactionFamily :=
  let f := match predecessor f sender nonce with
    | Some parent_hash => {|
        parents := <[hash := parent_hash]> (parents f);
        children := <[parent_hash := {[hash]} ∪ default ∅ (children f !! parent_hash)]> (children f);
        sender_nonces := sender_nonces f |}
    | None => f
    end in
  {| parents := parents f; children := children f;
     sender_nonces := <[sender := <[nonce := hash]> (default ∅ (sender_nonces f !! sender))]>
       (sender_nonces f) |}.

Definition unregister (hash : Hash) (sender : Address) (nonce : u64) (f : TransactionFamily)
  : TransactionFamily := {|
  sender_nonces := alter (delete nonce) sender (sender_nonces f);
  parents := delete hash (parents f);
  children :=
    delete hash (match parents f !! hash with
      | Some parent => alter (fun cs => cs ∖ {[hash]}) parent (children f)
      | None => children f
      end)
|}.

Section Fees.
Context `{U : U256Ops} (get_fee : Hash -> option (U256 * usize)).

Definition ancestors_default : AncestorInfo := {|
  total_ancestor_fees := 0; total_ancestor_size := 0; ancestor_count := 0;
  ancestor_hashes := ∅
|}.

(** A round of the loop of [get_ancestors]; [None] is the panic of [U256]. *)
Definition count_ancestor (parent : Hash) (info : AncestorInfo) : option AncestorInfo :=
  match get_fee parent with
  | Some (fee, size) =>
      total ← u256_add (total_ancestor_fees info) fee;
      Some {| total_ancestor_fees := total;
              total_ancestor_size := wrapping_add 64 (total_ancestor_size info) size;
              ancestor_count := wrapping_add 64 (ancestor_count info) 1;
              ancestor_hashes := {[parent]} ∪ ancestor_hashes info |}
  | None => Some info
  end.

(** [Err tt]: the fuel is used up. *)
Fixpoint ancestors_loop (fuel : nat) (f : TransactionFamily) (current : Hash) (seen : gset Hash)
  (info : AncestorInfo) : result unit AncestorInfo :=
  match parents f !! current with
  | None => Ok info
  | Some parent =>
      if bool_decide (parent ∈ seen) || (MAX_ANCESTORS <=? ancestor_count info) then Ok info
      else match fuel with
        | O => Err tt
        | S fuel =>
            match count_ancestor parent info with
            | Some info => ancestors_loop fuel f parent ({[parent]} ∪ seen) info
            | None => Panic
            end
        end
  end.

Definition get_ancestors (f : TransactionFamily) (hash : Hash) : result unit AncestorInfo :=
  ancestors_loop (size (parents f)) f hash ∅ ancestors_default.

Definition effective_fee_rate (f : TransactionFamily) (hash : Hash) (tx_fee : U256)
  (tx_size : usize) : result unit U256 :=
  let? ancestors := get_ancestors f hash in
  match u256_add tx_fee (total_ancestor_fees ancestors) with
  | None => Panic
  | Some total_fee =>
      let total_size := wrapping_add 64 tx_size (total_ancestor_size ancestors) in
      if total_size =? 0 then Ok 0
      else match u256_div total_fee total_size with Some rate => Ok rate | None => Panic end
  end.

End Fees.

Section Descendants.
Context (order : gset Hash -> list Hash).

Definition descendants_default : DescendantInfo := {|
  descendant_count := 0; total_descendant_fees := 0; descendant_hashes := ∅
|}.

(** [pop], with the [continue] for what was seen; the head is the top. *)
Fixpoint pop_unseen (seen : gset Hash) (stack : list Hash) : list Hash :=
  match stack with
  | [] => []
  | x :: stack' => if bool_decide (x ∈ seen) then pop_unseen seen stack' else stack
  end.

Definition count_descendant (hash current : Hash) (info : DescendantInfo) : DescendantInfo :=
  if current =? hash then info
  else {| descendant_count := descendant_count info + 1;
          total_descendant_fees := total_descendant_fees info;
          descendant_hashes := {[current]} ∪ descendant_hashes info |}.

(** [None]: the fuel is used up. *)
Fixpoint descendants_loop (fuel : nat) (f : TransactionFamily) (hash : Hash)
  (stack : list Hash) (seen : gset Hash) (info : DescendantInfo) : option DescendantInfo :=
  match pop_unseen seen stack with
  | [] => Some info
  | current :: stack =>
      match fuel with
      | O => None
      | S fuel =>
          let seen := {[current]} ∪ seen in
          let info := count_descendant hash current info in
          if MAX_DESCENDANTS <=? descendant_count info then Some info
          else
            let stack := match children f !! current with
              | Some cs => reverse (order cs) ++ stack
              | None => stack
              end in
            descendants_loop fuel f hash stack seen info
      end
  end.

Definition get_descendants (f : TransactionFamily) (hash : Hash) : option DescendantInfo :=
  descendants_loop (S (Z.to_nat MAX_DESCENDANTS)) f hash [hash] ∅ descendants_default.

(** The loop of [would_exceed_limits]: whether the ancestors of [current] take
    [count] over the limit. *)
Fixpoint exceeds_ancestors (fuel : nat) (f : TransactionFamily) (current : Hash) (count : usize)
  : option bool :=
  match parents f !! current with
  | None => Some false
  | Some grandparent =>
      let count := count + 1 in
      if MAX_ANCESTORS <? count then Some true
      else match fuel with
        | O => None
        | S fuel => exceeds_ancestors fuel f grandparent count
        end
  end.

Definition would_exceed_limits (f : TransactionFamily) (sender : Address) (nonce : u64)
  : option bool :=
  match predecessor f sender nonce with
  | None => Some false
  | Some parent =>
      exceeded ← exceeds_ancestors (Z.to_nat MAX_ANCESTORS) f parent 1;
      if exceeded : bool then Some true
      else
        descendants ← get_descendants f parent;
        Some (MAX_DESCENDANTS <=? descendant_count descendants)
  end.

End Descendants.

(** *** Lineages *)

(** [l] is the line of parents from [h] up to one that has none. *)
Inductive lineage (f : TransactionFamily) : Hash -> list Hash -> Prop :=
| lineage_end h : parents f !! h = None -> lineage f h []
| lineage_step h p l : parents f !! h = Some p -> lineage f p l -> lineage f h (p :: l).

Lemma lineage_det f h l l' : lineage f h l -> lineage f h l' -> l = l'.
Proof.
  intros H. revert l'. induction H as [h E|h p l E H IH]; intros l' H'; inversion H'; simplify_eq.
  - done.
  - f_equal. by apply IH.
Qed.

Lemma lineage_suffix f h l : lineage f h l -> forall l1 x l2, l = l1 ++ x :: l2 -> lineage f x l2.
Proof.
  induction 1 as [h E|h p l E H IH]; intros l1 x l2 Hl.
  - by destruct l1.
  - destruct l1 as [|y l1]; cbn in Hl; simplify_eq; [done|by eapply IH].
Qed.

Lemma lineage_fresh f h l : lineage f h l -> h ∉ l.
Proof.
  intros H Hin. apply list_elem_of_split in Hin as (l1 & l2 & ->).
  pose proof (lineage_suffix _ _ _ H l1 h l2 eq_refl) as H'.
  pose proof (lineage_det _ _ _ _ H H') as E. apply (f_equal length) in E.
  rewrite length_app in E. cbn in E. lia.
Qed.

Lemma lineage_NoDup f h l : lineage f h l -> NoDup l.
Proof.
  induction 1 as [h E|h p l E H IH]; constructor; [|done]. by apply lineage_fresh in H.
Qed.

(** The lineage is no longer than the map of parents. *)
Lemma lineage_length f h l : lineage f h l -> (length l <= size (parents f))%nat.
Proof.
  intros H. assert (Hsub : list_to_set (h :: l) ∖ dom (parents f) ⊆ ({[default h (last l)]} : gset Hash)).
  { clear -H. induction H as [h E|h p l E H IH]; [cbn; set_solver|].
    replace (default h (last (p :: l))) with (default p (last l))
      by (destruct l as [|y l]; [done|]; by rewrite !last_cons; destruct (last l)).
    assert (Hh : h ∈ dom (parents f)) by (apply elem_of_dom; eauto).
    intros x [Hx Hd]%elem_of_difference. apply IH, elem_of_difference. split; [|done].
    rewrite list_to_set_cons in Hx. set_solver. }
  assert (Hnd : NoDup (h :: l)).
  { constructor; [by apply lineage_fresh with f|by eapply lineage_NoDup]. }
  apply subseteq_size in Hsub. rewrite size_singleton in Hsub.
  pose proof (size_list_to_set (C := gset Hash) (h :: l) Hnd) as Hs.
  assert (size (list_to_set (h :: l) : gset Hash) <= size (dom (parents f)) + 1)%nat.
  { pose proof (size_union_alt (dom (parents f)) (list_to_set (h :: l))).
    assert (size (list_to_set (h :: l) : gset Hash) <=
      size (dom (parents f) ∪ list_to_set (h :: l)))%nat by (apply subseteq_size; set_solver).
    lia. }
  rewrite size_dom in *. cbn [length] in Hs. lia.
Qed.

(** *** Ancestors *)

Section Ancestors.
Context `{U : U256Ops} `{!U256Laws U} (get_fee : Hash -> option (U256 * usize)).

Definition parent_values (f : TransactionFamily) : gset Hash :=
  list_to_set (map_to_list (parents f)).*2.

Lemma parent_values_size f : (size (parent_values f) <= size (parents f))%nat.
Proof.
  unfold parent_values. rewrite <-length_map_to_list, <-(length_fmap snd).
  induction (map_to_list (parents f)).*2 as [|x l IH]; cbn [list_to_set foldr length].
  - by rewrite size_empty.
  - change (foldr (fun x X => {[x]} ∪ X) ∅ l) with (list_to_set (C := gset Hash) l).
    rewrite size_union_alt, size_singleton.
    assert (size (list_to_set l ∖ {[x]} : gset Hash) <= size (list_to_set (C := gset Hash) l))%nat
      by (apply subseteq_size; set_solver). lia.
Qed.

Lemma omap_nil_None {A B} (g : A -> option B) l x : length (omap g l) = 0%nat -> x ∈ l -> g x = None.
Proof.
  intros Hl Hx. destruct (g x) as [y|] eqn:E; [|done].
  assert (Hy : y ∈ omap g l) by (apply list_elem_of_omap; eauto).
  destruct (omap g l); [by apply elem_of_nil in Hy|done].
Qed.

Lemma elem_of_parent_values f h p : parents f !! h = Some p -> p ∈ parent_values f.
Proof.
  intros E. unfold parent_values. rewrite elem_of_list_to_set, list_elem_of_fmap.
  exists (h, p). split; [done|]. by apply elem_of_map_to_list.
Qed.

Lemma ancestors_loop_fuel fuel f : forall current seen info,
  (size (parent_values f ∖ seen) <= fuel)%nat ->
  ancestors_loop get_fee fuel f current seen info <> Err tt.
Proof.
  induction fuel as [|fuel IH]; intros current seen info Hf; cbn [ancestors_loop];
    destruct (parents f !! current) as [p|] eqn:E; try done;
    destruct (bool_decide (p ∈ seen) || _) eqn:Eb; try done; bools;
    apply elem_of_parent_values in E.
  - apply Nat.le_0_r, size_empty_inv in Hf. set_solver.
  - destruct (count_ancestor get_fee p info) as [info'|]; [|done]. apply IH.
    assert (size (parent_values f ∖ ({[p]} ∪ seen)) < size (parent_values f ∖ seen))%nat
      by (apply subset_size; set_solver). lia.
Qed.

Definition sum_fees (l : list (Z * Z)) : Z := foldr (fun x s => x.1 + s) 0 l.
Definition sum_sizes (l : list (Z * Z)) : Z := foldr (fun x s => x.2 + s) 0 l.

Lemma sum_fees_cons x l : sum_fees (x :: l) = x.1 + sum_fees l.
Proof. reflexivity. Qed.
Lemma sum_sizes_cons x l : sum_sizes (x :: l) = x.2 + sum_sizes l.
Proof. reflexivity. Qed.

Definition fee_ok (x : Z * Z) : Prop := in_width 256 x.1 /\ in_width 64 x.2.

Lemma sums_nonneg l : Forall fee_ok l -> 0 <= sum_fees l /\ 0 <= sum_sizes l.
Proof.
  induction 1 as [|x l [Hx Hy] Hl IH]; [done|].
  rewrite sum_fees_cons, sum_sizes_cons. unfold in_width in *. lia.
Qed.

Lemma ancestors_loop_lineage f : forall l current seen info fuel,
  lineage f current l -> (forall x, x ∈ l -> x ∉ seen) -> (length l <= fuel)%nat ->
  let known := omap get_fee l in
  Forall fee_ok known ->
  0 <= ancestor_count info -> ancestor_count info + Z.of_nat (length known) <= 25 ->
  0 <= total_ancestor_fees info -> total_ancestor_fees info + sum_fees known < 2 ^ 256 ->
  0 <= total_ancestor_size info -> total_ancestor_size info + sum_sizes known < 2 ^ 64 ->
  exists info', ancestors_loop get_fee fuel f current seen info = Ok info' /\
    ancestor_count info' = ancestor_count info + Z.of_nat (length known) /\
    total_ancestor_fees info' = total_ancestor_fees info + sum_fees known /\
    total_ancestor_size info' = total_ancestor_size info + sum_sizes known /\
    (forall x, x ∈ ancestor_hashes info' <->
      x ∈ ancestor_hashes info \/ (x ∈ l /\ is_Some (get_fee x))).
Proof.
  induction l as [|p l IH]; intros current seen info fuel Hl Hseen Hfuel known Hok Hc0 Hc Hf0 Hf
    Hs0 Hs; subst known.
  - inversion Hl as [? E|]; subst. exists info. destruct fuel; cbn [ancestors_loop]; rewrite E;
      cbn; split_and!; try done; try lia; set_solver.
  - inversion Hl as [|? ? ? E Hl']; subst. destruct fuel as [|fuel]; [cbn in Hfuel; lia|].
    cbn [ancestors_loop]. rewrite E. rewrite bool_decide_false by (apply Hseen; set_solver).
    cbn [orb]. unfold MAX_ANCESTORS.
    assert (Hfresh : forall x, x ∈ l -> x ∉ {[p]} ∪ seen).
    { intros x Hx. apply lineage_fresh in Hl'. set_solver. }
    unfold count_ancestor.
    change (omap get_fee (p :: l)) with
      (match get_fee p with Some y => y :: omap get_fee l | None => omap get_fee l end) in *.
    destruct (get_fee p) as [[fee sz]|] eqn:Eg.
    + apply Forall_cons in Hok as [[Hw1 Hw2] Hok]. unfold in_width in Hw1, Hw2.
      cbn [fst snd] in *. destruct (sums_nonneg _ Hok).
      rewrite sum_fees_cons in *. rewrite sum_sizes_cons in *. cbn [length fst snd] in *.
      rewrite (proj2 (Z.leb_gt _ _)) by lia.
      rewrite u256_add_spec by (unfold in_width; lia).
      rewrite (proj2 (Z.ltb_lt _ _)) by lia. cbn [mbind option_bind].
      rewrite !wrapping_add_small by lia.
      match goal with |- context [ancestors_loop _ fuel f p _ ?i] =>
        destruct (IH p ({[p]} ∪ seen) i fuel) as (info' & E' & H1 & H2 & H3 & H4) end;
        cbn [ancestor_count total_ancestor_fees total_ancestor_size length] in *;
        [done|done|lia|done|lia..|].
      exists info'. split; [exact E'|]. rewrite H1, H2, H3. split_and!; [lia..|].
      intros x. rewrite H4. cbn. set_solver.
    + destruct (Z.leb_spec 25 (ancestor_count info)) as [Hge|Hlt].
      * assert (Hz : length (omap get_fee l) = 0%nat) by lia.
        exists info. split; [done|]. pose proof (omap_nil_None get_fee l) as Hn.
        destruct (omap get_fee l); [|done]. cbn in *. split_and!; try lia.
        intros x. split; [by left|]. intros [?|[Hx [y Hy]]]; [done|].
        apply elem_of_cons in Hx as [->|Hx]; [congruence|]. rewrite Hn in Hy; done.
      * edestruct (IH p ({[p]} ∪ seen) info fuel) as (info' & E' & H1 & H2 & H3 & H4);
          [done|done|cbn in Hfuel; lia|done..|].
        exists info'. split_and!; try done. intros x. rewrite H4.
        split; [set_solver|]. intros [?|[Hx [y Hy]]]; [by left|].
        apply elem_of_cons in Hx as [->|Hx]; [congruence|]. right. split; [done|eauto].
Qed.

(** The loop over the ancestors always ends, whatever the links
    are; and where they lead from the transaction up to one without a parent,
    it counts exactly the ancestors the pool still has a fee for, adding up
    their fees and sizes, as long as these are at most [MAX_ANCESTORS]. *)
Theorem get_ancestors_exact f hash :
  get_ancestors get_fee f hash <> Err tt /\
  forall l, lineage f hash l ->
    let known := omap get_fee l in
    Forall fee_ok known -> Z.of_nat (length known) <= MAX_ANCESTORS ->
    sum_fees known < 2 ^ 256 -> sum_sizes known < 2 ^ 64 ->
    exists info, get_ancestors get_fee f hash = Ok info /\
      ancestor_count info = Z.of_nat (length known) /\
      total_ancestor_fees info = sum_fees known /\
      total_ancestor_size info = sum_sizes known /\
      forall x, x ∈ ancestor_hashes info <-> x ∈ l /\ is_Some (get_fee x).
Proof.
  split.
  - apply ancestors_loop_fuel. rewrite difference_empty_L. apply parent_values_size.
  - intros l Hl known Hok Hc Hf Hs. unfold MAX_ANCESTORS in Hc.
    destruct (ancestors_loop_lineage f l hash ∅ ancestors_default (size (parents f)))
      as (info & E & H1 & H2 & H3 & H4); cbn; fold known; try lia; try done.
    + by eapply lineage_length.
    + exists info. split_and!; try done. intros x. rewrite H4. cbn. set_solver.
Qed.

End Ancestors.

Lemma get_ancestors_exact_witness :
  let f := register 12 7 2 (register 11 7 1 (register 10 7 0 new)) in
  let fee (h : Hash) := if h =? 11 then None else Some (h * 100, 250) in
  exists info, get_ancestors (U := exact_u256) fee f 12 = Ok info /\
    ancestor_count info = 1 /\ total_ancestor_fees info = 1000.
Proof.
  intros f fee.
  destruct (get_ancestors_exact (U := exact_u256) (U256Laws0 := exact_u256_laws) fee f 12) as [_ H].
  destruct (H [11; 10]) as (info & E & H1 & H2 & _).
  - apply lineage_step; [reflexivity|]. apply lineage_step; [reflexivity|].
    apply lineage_end. reflexivity.
  - apply Forall_cons_2; [unfold fee_ok, in_width; cbn; lia|apply Forall_nil_2].
  - by vm_compute.
  - by vm_compute.
  - by vm_compute.
  - exists info. split; [exact E|]. rewrite H1, H2. by vm_compute.
Defined.

(** *** A sender's chain *)

Fixpoint register_chain (sender : Address) (nonce : u64) (hs : list Hash) (f : TransactionFamily)
  : TransactionFamily :=
  match hs with
  | [] => f
  | h :: hs => register_chain sender (nonce + 1) hs (register h sender nonce f)
  end.

Lemma lineage_insert f g h p x l : parents g = <[h := p]> (parents f) ->
  h ∉ x :: l -> lineage f x l -> lineage g x l.
Proof.
  intros Hg Hh Hl. induction Hl as [x E|x q l E Hl IH].
  - apply lineage_end. rewrite Hg, lookup_insert_ne by set_solver. done.
  - apply lineage_step; [rewrite Hg, lookup_insert_ne by set_solver; done|].
    apply IH. set_solver.
Qed.

(** [prev], latest first, are the transactions of [sender] with the nonces
    below [nonce]. *)
Definition chained (f : TransactionFamily) (sender : Address) (nonce : u64) (prev : list Hash)
  : Prop :=
  (sender_nonces f !! sender ≫= fun nonces => nonces !! (nonce - 1)) = head prev /\
  (forall x, x ∉ prev -> parents f !! x = None /\ children f !! x = None) /\
  (forall x l, prev = x :: l -> lineage f x l /\ children f !! x = None).

Lemma chained_register f sender nonce prev h : 0 < nonce \/ prev = [] -> h ∉ prev ->
  chained f sender nonce prev -> chained (register h sender nonce f) sender (nonce + 1) (h :: prev).
Proof.
  intros Hn Hh (Hp & Hfresh & Hl).
  assert (Hpre : predecessor f sender nonce = head prev).
  { unfold predecessor. destruct (Z.ltb_spec 0 nonce) as [Hlt|Hge].
    - rewrite <-Hp. by destruct (sender_nonces f !! sender).
    - destruct Hn as [| ->]; [lia|done]. }
  unfold chained, register. rewrite Hpre.
  assert (Hsn : forall g, sender_nonces g = sender_nonces f ->
    (<[sender := <[nonce := h]> (default ∅ (sender_nonces g !! sender))]> (sender_nonces g)
       !! sender ≫= fun nonces : gmap u64 Hash => nonces !! (nonce + 1 - 1)) = Some h).
  { intros g _. rewrite lookup_insert_eq. cbn. replace (nonce + 1 - 1) with nonce by lia.
    by rewrite lookup_insert_eq. }
  destruct prev as [|p l]; cbn [head hd_error].
  - split_and!; [by apply Hsn| |].
    + intros x Hx. apply Hfresh. set_solver.
    + intros x l E. simplify_eq. destruct (Hfresh x) as [E1 E2]; [set_solver|].
      split; [by apply lineage_end|done].
  - destruct (Hl p l eq_refl) as [Hlin Hc]. cbn [sender_nonces children parents].
    split_and!; [by apply (Hsn f)| |].
    + intros x Hx. rewrite !lookup_insert_ne by set_solver. apply Hfresh. set_solver.
    + intros x l' E. simplify_eq. split.
      * apply lineage_step with (p := p); [cbn [parents]; by rewrite lookup_insert_eq|].
        eapply lineage_insert; [reflexivity|done|done].
      * rewrite lookup_insert_ne by set_solver. apply Hfresh. done.
Qed.

Lemma chained_chain sender hs : forall nonce prev f, 0 < nonce \/ prev = [] -> 0 <= nonce ->
  NoDup (reverse hs ++ prev) -> chained f sender nonce prev ->
  chained (register_chain sender nonce hs f) sender (nonce + Z.of_nat (length hs))
    (reverse hs ++ prev).
Proof.
  induction hs as [|h hs IH]; intros nonce prev f Hn H0 Hnd Hc.
  - cbn. by rewrite Z.add_0_r.
  - cbn [register_chain length]. rewrite reverse_cons, <-app_assoc in *. cbn [app] in *.
    replace (nonce + Z.of_nat (S (length hs))) with (nonce + 1 + Z.of_nat (length hs)) by lia.
    apply IH; [lia|lia|done|]. apply chained_register; [done| |done].
    apply NoDup_app in Hnd as (_ & _ & Hnd). by apply NoDup_cons in Hnd as [? _].
Qed.

Lemma exceeds_ancestors_lineage f cur l : lineage f cur l -> forall fuel count,
  1 <= count <= 25 -> 25 <= Z.of_nat fuel + count ->
  exceeds_ancestors fuel f cur count = Some (25 <? count + Z.of_nat (length l)).
Proof.
  induction 1 as [h E|h p l E Hl IH]; intros fuel count Hc Hf.
  - destruct fuel; cbn [exceeds_ancestors length]; rewrite E; f_equal; symmetry;
      apply Z.ltb_ge; cbn; lia.
  - destruct fuel as [|fuel]; cbn [exceeds_ancestors length]; rewrite E; unfold MAX_ANCESTORS.
    + rewrite (proj2 (Z.ltb_lt _ _)) by lia. f_equal. symmetry. apply Z.ltb_lt. lia.
    + destruct (Z.ltb_spec 25 (count + 1)).
      * f_equal. symmetry. apply Z.ltb_lt. lia.
      * rewrite IH by lia. f_equal. f_equal. lia.
Qed.

Lemma childless_descendants order f h : children f !! h = None ->
  get_descendants order f h = Some descendants_default.
Proof.
  intros E. unfold get_descendants. generalize (Z.to_nat MAX_DESCENDANTS) as fuel. intros fuel.
  assert (Hp : pop_unseen ∅ [h] = [h]).
  { cbn [pop_unseen]. by rewrite bool_decide_false by set_solver. }
  cbn [descendants_loop]. rewrite Hp. unfold count_descendant. rewrite Z.eqb_refl, E.
  by destruct fuel.
Qed.

(** For a sender whose [hs] transactions were registered in
    the order of their nonces, the last one's ancestors are all the others, and
    the next one is refused exactly when there are more than [MAX_ANCESTORS]
    of them. *)
Theorem chain_limit_exact order sender nonce hs :
  0 <= nonce -> hs <> [] -> NoDup hs ->
  let f := register_chain sender nonce hs new in
  (forall last rest, reverse hs = last :: rest -> lineage f last rest) /\
  would_exceed_limits order f sender (nonce + Z.of_nat (length hs)) =
  Some (MAX_ANCESTORS <? Z.of_nat (length hs)).
Proof.
  intros Hn Hne Hnd f.
  assert (Hc : chained f sender (nonce + Z.of_nat (length hs)) (reverse hs)).
  { rewrite <-(app_nil_r (reverse hs)). apply chained_chain; [by right|done| |].
    - rewrite app_nil_r. by rewrite (reverse_Permutation hs).
    - split_and!; cbn; [done|done|done]. }
  destruct Hc as (Hp & _ & Hl). split; [intros l r E; by apply Hl|].
  pose proof (length_reverse hs) as Hlen.
  destruct (reverse hs) as [|x l] eqn:E.
  { cbn in Hlen. by destruct hs. }
  destruct (Hl x l eq_refl) as [Hlin Hch].
  unfold would_exceed_limits, predecessor.
  rewrite (proj2 (Z.ltb_lt _ _)) by (cbn in Hlen; lia).
  replace (_ ≫= _) with (Some x) by (symmetry; exact Hp).
  change (Z.to_nat MAX_ANCESTORS) with 25%nat.
  rewrite (exceeds_ancestors_lineage _ _ _ Hlin) by lia. cbn [mbind option_bind].
  replace (1 + Z.of_nat (length l)) with (Z.of_nat (length hs)) by (rewrite <-Hlen; cbn; lia).
  unfold MAX_ANCESTORS. destruct (25 <? Z.of_nat (length hs)); [done|].
  rewrite childless_descendants by done. reflexivity.
Qed.

Lemma chain_limit_exact_witness :
  would_exceed_limits elements (register_chain 5 3 [1; 2; 3] new) 5 6 = Some false.
Proof.
  refine (proj2 (chain_limit_exact elements 5 3 [1; 2; 3] _ _ _)); [lia|discriminate|].
  repeat (apply NoDup_cons_2; [set_solver|]). apply NoDup_nil_2.
Defined.

(** *** Descendants *)

Definition child (f : TransactionFamily) (x y : Hash) : Prop :=
  exists cs, children f !! x = Some cs /\ y ∈ cs.

Lemma pop_unseen_spec seen stack :
  (pop_unseen seen stack = [] /\ (forall x, x ∈ stack -> x ∈ seen)) \/
  (exists x rest, pop_unseen seen stack = x :: rest /\ x ∉ seen /\ x ∈ stack /\
    (forall y, y ∈ rest -> y ∈ stack) /\
    forall y, y ∈ stack -> y ∈ seen \/ y = x \/ y ∈ rest).
Proof.
  induction stack as [|x stack IH]; cbn [pop_unseen]; [left; set_solver|].
  destruct (bool_decide (x ∈ seen)) eqn:E; bools.
  - destruct IH as [[-> H]|(z & rest & -> & H1 & H2 & H3 & H4)]; [left; set_solver|].
    right. exists z, rest. split_and!; set_solver.
  - right. exists x, stack. split_and!; set_solver.
Qed.

(** The state of the traversal from [h]. *)
Record walking (f : TransactionFamily) (h : Hash) (stack : list Hash) (seen : gset Hash)
  (info : DescendantInfo) : Prop := {
  walk_hashes : descendant_hashes info = seen ∖ {[h]};
  walk_count : descendant_count info = Z.of_nat (size (seen ∖ {[h]}));
  walk_reach : forall x, x ∈ seen \/ x ∈ stack -> star (child f) h x;
  walk_closed : forall x y, x ∈ seen -> child f x y -> y ∈ seen \/ y ∈ stack;
  walk_start : h ∈ seen \/ h ∈ stack
}.

Lemma star_snoc {A} (R : relation A) a b c : star R a b -> R b c -> star R a c.
Proof.
  intros H Hr. eapply star_trans; [done|]. econstructor; [done|constructor].
Qed.

Lemma walking_step order f h stack seen info x rest :
  (forall X, order X ≡ₚ elements X) ->
  walking f h stack seen info -> pop_unseen seen stack = x :: rest ->
  walking f h (match children f !! x with
    | Some cs => reverse (order cs) ++ rest | None => rest end)
    ({[x]} ∪ seen) (count_descendant h x info) /\ x ∉ seen.
Proof.
  intros Hord [H1 H2 H3 H4 H5] Hpop.
  destruct (pop_unseen_spec seen stack) as [[E _]|(x' & rest' & E & Hx & Hin & Hr1 & Hr2)];
    rewrite Hpop in E; simplify_eq.
  assert (Hch : forall y, y ∈ match children f !! x' with
      | Some cs => reverse (order cs) ++ rest' | None => rest' end <->
      child f x' y \/ y ∈ rest').
  { intros y. unfold child. destruct (children f !! x') as [cs|].
    - rewrite elem_of_app, elem_of_reverse, (Hord cs), elem_of_elements. naive_solver.
    - naive_solver. }
  split; [|done]. split.
  - unfold count_descendant. destruct (Z.eqb_spec x' h); cbn; rewrite H1; set_solver.
  - unfold count_descendant. destruct (Z.eqb_spec x' h) as [->|Hne];
      cbn [descendant_count]; rewrite H2.
    + f_equal. f_equal. set_solver.
    + assert (Eu : ({[x']} ∪ seen) ∖ {[h]} = {[x']} ∪ (seen ∖ {[h]})) by set_solver.
      assert (Hd : size ({[x']} ∪ (seen ∖ {[h]})) = S (size (seen ∖ {[h]}))).
      { rewrite size_union by set_solver. by rewrite size_singleton. }
      rewrite Eu. lia.
  - intros y [Hy|Hy].
    + apply elem_of_union in Hy as [->%elem_of_singleton|Hy]; auto.
    + apply Hch in Hy as [Hy|Hy]; [|by auto].
      apply star_snoc with x'; auto.
  - intros y z Hy Hz. apply elem_of_union in Hy as [->%elem_of_singleton|Hy].
    + right. by apply Hch; left.
    + destruct (H4 y z Hy Hz) as [|Hs]; [set_solver|]. destruct (Hr2 z Hs) as [|[->|]];
        [set_solver..|]. right. by apply Hch; right.
  - destruct H5 as [|Hs]; [set_solver|]. destruct (Hr2 h Hs) as [|[->|]]; [set_solver..|].
    right. by apply Hch; right.
Qed.

(** What the traversal returns. *)
Definition descendants_spec (f : TransactionFamily) (h : Hash) (info : DescendantInfo) : Prop :=
  descendant_count info = Z.of_nat (size (descendant_hashes info)) /\
  descendant_count info <= MAX_DESCENDANTS /\
  (forall x, x ∈ descendant_hashes info -> x <> h /\ star (child f) h x) /\
  (descendant_count info < MAX_DESCENDANTS ->
    forall x, star (child f) h x -> x <> h -> x ∈ descendant_hashes info).

Lemma walking_sound f h stack seen info : walking f h stack seen info ->
  descendant_count info = Z.of_nat (size (descendant_hashes info)) /\
  forall x, x ∈ descendant_hashes info -> x <> h /\ star (child f) h x.
Proof.
  intros [H1 H2 H3 H4 H5]. rewrite H1. split; [done|]. intros x Hx.
  split; [set_solver|]. apply H3. set_solver.
Qed.

Lemma star_closed {A} (R : relation A) (P : A -> Prop) a b :
  (forall x y, P x -> R x y -> P y) -> star R a b -> P a -> P b.
Proof. intros Hp. induction 1; eauto. Qed.

Lemma walking_complete f h stack seen info : walking f h stack seen info ->
  pop_unseen seen stack = [] -> descendant_count info < MAX_DESCENDANTS ->
  descendants_spec f h info.
Proof.
  intros Hw Ep Hc. destruct (walking_sound _ _ _ _ _ Hw) as [W1 W2].
  split_and!; [done|lia|done|]. intros _ x Hx Hne.
  destruct (pop_unseen_spec seen stack) as [[_ Hs]|(? & ? & E & _)]; [|congruence].
  rewrite (walk_hashes _ _ _ _ _ Hw). apply elem_of_difference. split; [|set_solver].
  apply (star_closed (child f) (fun x => x ∈ seen) h x); [|done|].
  - intros a b Ha Hab. destruct (walk_closed _ _ _ _ _ Hw a b Ha Hab); auto.
  - destruct (walk_start _ _ _ _ _ Hw); auto.
Qed.

Lemma descendants_loop_spec order f h : (forall X, order X ≡ₚ elements X) ->
  forall fuel stack seen info, walking f h stack seen info ->
  descendant_count info < MAX_DESCENDANTS -> (26 <= fuel + size seen)%nat ->
  exists info', descendants_loop order fuel f h stack seen info = Some info' /\
    descendants_spec f h info'.
Proof.
  intros Hord fuel. induction fuel as [|fuel IH]; intros stack seen info Hw Hc Hfuel;
    cbn [descendants_loop]; destruct (pop_unseen seen stack) as [|x rest] eqn:Ep.
  1, 3: exists info; split; [done|]; by eapply walking_complete.
  - exfalso. pose proof (walk_count _ _ _ _ _ Hw) as Hcount. unfold MAX_DESCENDANTS in Hc.
    assert (size seen <= 1 + size (seen ∖ {[h]}))%nat.
    { rewrite <-(size_singleton (C := gset Hash) h), <-size_union_alt.
      apply subseteq_size. set_solver. }
    lia.
  - destruct (walking_step order f h stack seen info x rest Hord Hw Ep) as [Hw' Hx].
    cbn zeta. destruct (Z.leb_spec MAX_DESCENDANTS (descendant_count (count_descendant h x info))).
    + eexists. split; [done|]. destruct (walking_sound _ _ _ _ _ Hw') as [W1 W2].
      split_and!; [done| |done|lia].
      unfold count_descendant in *. case_match; cbn in *; lia.
    + apply IH; [done|lia|]. rewrite size_union, size_singleton by set_solver. lia.
Qed.

(** The traversal of the descendants ends, also where the
    links form a cycle: it reports transactions that are reachable from the
    given one, each once and at most [MAX_DESCENDANTS] of them, and all of
    them when they are fewer, whatever the order in which a set of children
    is visited. *)
Theorem get_descendants_exact order f h : (forall X, order X ≡ₚ elements X) ->
  exists info, get_descendants order f h = Some info /\ descendants_spec f h info.
Proof.
  intros Hord. unfold get_descendants. apply descendants_loop_spec; [done| |done|].
  - split.
    + set_solver.
    + by rewrite difference_disjoint_L, size_empty by set_solver.
    + intros x [?|Hx]; [set_solver|]. apply list_elem_of_singleton in Hx as ->. constructor.
    + set_solver.
    + set_solver.
  - rewrite size_empty. by vm_compute.
Qed.

Lemma get_descendants_exact_witness :
  exists info, get_descendants elements (register_chain 5 0 [1; 2; 3] new) 1 = Some info /\
    descendant_count info = 2.
Proof.
  destruct (get_descendants_exact elements (register_chain 5 0 [1; 2; 3] new) 1)
    as (info & E & _); [done|].
  exists info. split; [exact E|]. vm_compute in E. by simplify_eq.
Defined.

(** A parent that arrives after its child is not linked to it. *)
Example late_parent_unlinked :
  let f := register 10 7 0 (register 11 7 1 new) in
  parents f !! 11 = None /\ children f !! 10 = None.
Proof. by vm_compute. Qed.

(** Removing a transaction leaves the link of its child to it, so a later
    transaction with the same hash has that child as a descendant's ancestor
    but not as its child. *)
Example orphan_keeps_parent :
  let f := unregister 10 7 0 (register 11 7 1 (register 10 7 0 new)) in
  parents f !! 11 = Some 10 /\ children f !! 10 = None.
Proof. by vm_compute. Qed.

End Family.

(** ** Transactions with their state in the type *)

Module TypeState.

Inductive Marker := Pending | Proposed | Confirmed.

Inductive StateData :=
| SPending
| SProposed (block_height : u64) (proposed_at : Timestamp)
| SConfirmed (block_height : u64) (confirmed_at : Timestamp).

Record TypeStateTx (S : Marker) := {
  transaction : SignedTransaction;
  hash : Hash;
  sender : Address;
  nonce : u64;
  gas_price : U256;
  gas_limit : u64;
  added_at : Timestamp;
  state_data : StateData
}.
Arguments transaction {S}.
Arguments hash {S}.
Arguments sender {S}.
Arguments nonce {S}.
Arguments gas_price {S}.
Arguments gas_limit {S}.
Arguments added_at {S}.
Arguments state_data {S}.

(** The transitions rebuild the value with another marker and other state. *)
Definition with_state {S} (S' : Marker) (tx : TypeStateTx S) (d : StateData) : TypeStateTx S' := {|
  transaction := transaction tx; hash := hash tx; sender := sender tx; nonce := nonce tx;
  gas_price := gas_price tx; gas_limit := gas_limit tx; added_at := added_at tx;
  state_data := d
|}.

Definition tx_new (sha256 : list u8 -> Hash) (t : SignedTransaction) (added_at : Timestamp)
  : TypeStateTx Pending := {|
  transaction := t; hash := sha256 (hash_preimage t); sender := st_from t; nonce := st_nonce t;
  gas_price := st_gas_price t; gas_limit := st_gas_limit t; added_at := added_at;
  state_data := SPending
|}.

Definition propose (tx : TypeStateTx Pending) (block_height : u64) (now : Timestamp)
  : TypeStateTx Proposed := with_state Proposed tx (SProposed block_height now).

(** [None] is [unreachable!]. *)
Definition proposed_block (tx : TypeStateTx Proposed) : option u64 :=
  match state_data tx with SProposed block_height _ => Some block_height | _ => None end.

Definition proposed_at (tx : TypeStateTx Proposed) : option Timestamp :=
  match state_data tx with SProposed _ proposed_at => Some proposed_at | _ => None end.

Definition confirm (tx : TypeStateTx Proposed) (now : Timestamp)
  : option (TypeStateTx Confirmed) :=
  match state_data tx with
  | SProposed block_height _ => Some (with_state Confirmed tx (SConfirmed block_height now))
  | _ => None
  end.

Definition rollback (tx : TypeStateTx Proposed) : TypeStateTx Pending :=
  with_state Pending tx SPending.

Definition is_timed_out (tx : TypeStateTx Proposed) (now : Timestamp) (timeout_ms : u64)
  : option bool :=
  at_ ← proposed_at tx; Some (timeout_ms <=? saturating_sub now at_).

Definition confirmed_block (tx : TypeStateTx Confirmed) : option u64 :=
  match state_data tx with SConfirmed block_height _ => Some block_height | _ => None end.

Definition confirmed_at (tx : TypeStateTx Confirmed) : option Timestamp :=
  match state_data tx with SConfirmed _ confirmed_at => Some confirmed_at | _ => None end.

Definition consume (tx : TypeStateTx Confirmed) : Hash := hash tx.

Record TypeStatePool := {
  pending : gmap Hash (TypeStateTx Pending);
  sender_counts : gmap Address usize
}.

Definition pool_new : TypeStatePool := {| pending := ∅; sender_counts := ∅ |}.

Inductive PoolError := DuplicateTransaction.

Definition add_pending (tx : TypeStateTx Pending) (p : TypeStatePool)
  : TypeStatePool * result PoolError unit :=
  match pending p !! hash tx with
  | Some _ => (p, Err DuplicateTransaction)
  | None =>
      ({| sender_counts := <[sender tx := wrapping_add 64
             (default 0 (sender_counts p !! sender tx)) 1]> (sender_counts p);
          pending := <[hash tx := tx]> (pending p) |}, Ok tt)
  end.

(** The iterator removes, counts down and proposes one hash after the other. *)
Fixpoint propose_batch (hashes : list Hash) (block_height : u64) (now : Timestamp)
  (p : TypeStatePool) : TypeStatePool * list (TypeStateTx Proposed) :=
  match hashes with
  | [] => (p, [])
  | h :: hashes =>
      match pending p !! h with
      | None => propose_batch hashes block_height now p
      | Some tx =>
          let p := {| pending := delete h (pending p);
                      sender_counts := alter (fun c => saturating_sub c 1) (sender tx)
                        (sender_counts p) |} in
          let '(p, proposed) := propose_batch hashes block_height now p in
          (p, propose tx block_height now :: proposed)
      end
  end.

Definition return_pending := add_pending.

Definition pending_count (p : TypeStatePool) : usize := Z.of_nat (size (pending p)).
Definition contains (p : TypeStatePool) (h : Hash) : bool := bool_decide (is_Some (pending p !! h)).

(** *** States and types agree *)

Section Made.
Context (sha256 : list u8 -> Hash).

(** What the constructor and the transitions can build. *)
Inductive made : forall S, TypeStateTx S -> Prop :=
| made_new t at_ : made Pending (tx_new sha256 t at_)
| made_propose tx block now : made Pending tx -> made Proposed (propose tx block now)
| made_confirm tx now tx' : made Proposed tx -> confirm tx now = Some tx' -> made Confirmed tx'
| made_rollback tx : made Proposed tx -> made Pending (rollback tx).

Definition matches (S : Marker) (d : StateData) : Prop :=
  match S, d with
  | Pending, SPending | Proposed, SProposed _ _ | Confirmed, SConfirmed _ _ => True
  | _, _ => False
  end.

Lemma made_matches S (tx : TypeStateTx S) : made S tx ->
  matches S (state_data tx) /\ hash tx = sha256 (hash_preimage (transaction tx)) /\
  sender tx = st_from (transaction tx) /\ nonce tx = st_nonce (transaction tx).
Proof.
  induction 1 as [t at_|tx block now _ IH|tx now tx' _ IH E|tx _ IH];
    [done|destruct IH as (_ & ?); by split..|destruct IH as (_ & ?)|destruct IH as (_ & ?)].
  - unfold confirm in E. case_match; simplify_eq. by split.
  - by split.
Qed.

(** The state stored in a transaction is always the one its type
    says, so no [unreachable!] is reached: a proposed one has its block and time
    and can be confirmed, for the block it was proposed for, under the hash it
    was made with; and that hash is the hash of the signed transaction. *)
Theorem states_match_types S (tx : TypeStateTx S) : made S tx ->
  matches S (state_data tx) /\ hash tx = sha256 (hash_preimage (transaction tx)) /\
  match S return TypeStateTx S -> Prop with
  | Pending => fun _ => True
  | Proposed => fun tx => forall now, exists b at_ tx',
      proposed_block tx = Some b /\ proposed_at tx = Some at_ /\
      confirm tx now = Some tx' /\ confirmed_block tx' = Some b /\
      confirmed_at tx' = Some now /\ consume tx' = hash tx
  | Confirmed => fun tx => is_Some (confirmed_block tx) /\ is_Some (confirmed_at tx)
  end tx.
Proof.
  intros H. destruct (made_matches S tx H) as (Hm & Hh & _).
  split_and!; [done..|]. clear H Hh. destruct S; [done|intros now|];
    unfold proposed_block, proposed_at, confirm, confirmed_block, confirmed_at;
    destruct (state_data tx); try done.
  eexists _, _, _. by split_and!.
Qed.

End Made.

Lemma states_match_types_witness : exists tx',
  confirm (propose (tx_new (fun _ => 77) {| st_from := 1; st_to := None; st_value := 0; st_nonce := 0;
    st_gas_price := 1; st_gas_limit := 21000; st_data := []; st_signature := [] |} 5) 9 6) 8
  = Some tx' /\ confirmed_block tx' = Some 9.
Proof.
  edestruct (states_match_types (fun _ => 77) Proposed) as (_ & _ & H);
    [apply made_propose, made_new|].
  destruct (H 8) as (b & at_ & tx' & Hb & _ & Hc & Hcb & _). exists tx'. split; [exact Hc|].
  rewrite Hcb. symmetry. exact Hb.
Defined.

(** *** The counts of the pool *)

Definition from_sender (p : TypeStatePool) (a : Address) : nat :=
  size (filter (fun kv : Hash * TypeStateTx Pending => sender kv.2 = a) (pending p)).

(** Every entry is under its own hash and the counts are the numbers of
    entries. *)
Definition pool_inv (p : TypeStatePool) : Prop :=
  map_Forall (fun h tx => hash tx = h) (pending p) /\
  forall a, default 0 (sender_counts p !! a) = Z.of_nat (from_sender p a).

Lemma from_sender_insert p h tx a : pending p !! h = None ->
  size (filter (fun kv : Hash * TypeStateTx Pending => sender kv.2 = a) (<[h := tx]> (pending p)))
  = ((if decide (sender tx = a) then 1 else 0) + from_sender p a)%nat.
Proof.
  intros Hn. unfold from_sender. destruct (decide (sender tx = a)) as [E|E].
  - rewrite map_filter_insert_True by done. rewrite map_size_insert_None; [done|].
    apply map_lookup_filter_None. by left.
  - rewrite map_filter_insert_not' by naive_solver. done.
Qed.

Lemma from_sender_delete p h tx a : pending p !! h = Some tx ->
  from_sender p a = ((if decide (sender tx = a) then 1 else 0) +
  size (filter (fun kv : Hash * TypeStateTx Pending => sender kv.2 = a) (delete h (pending p))))%nat.
Proof.
  intros Hs.
  pose proof (from_sender_insert {| pending := delete h (pending p); sender_counts := ∅ |}
    h tx a (lookup_delete_eq _ _)) as E.
  cbn [pending] in E. rewrite insert_delete_id in E by done. exact E.
Qed.

Lemma from_sender_le p a : (from_sender p a <= size (pending p))%nat.
Proof. apply map_subseteq_size, map_filter_subseteq. Qed.

Lemma add_pending_inv tx p : pool_inv p -> pending_count p < 2 ^ 64 - 1 ->
  pool_inv (add_pending tx p).1.
Proof.
  intros [Hk Hc] Hs. unfold add_pending.
  destruct (pending p !! hash tx) as [tx'|] eqn:E; [done|]. split; cbn [fst pending sender_counts].
  - by apply map_Forall_insert_2.
  - intros a. unfold from_sender at 1. cbn [pending]. rewrite from_sender_insert by done.
    destruct (decide (sender tx = a)) as [<-|Hne].
    + rewrite lookup_insert_eq. cbn [default from_option id]. rewrite Hc.
      pose proof (from_sender_le p (sender tx)). unfold pending_count in Hs.
      unfold id. rewrite wrapping_add_small by lia. lia.
    + rewrite lookup_insert_ne by done. by rewrite Hc.
Qed.

Lemma take_one_inv p h tx : pool_inv p -> pending p !! h = Some tx ->
  pool_inv {| pending := delete h (pending p);
              sender_counts := alter (fun c => saturating_sub c 1) (sender tx)
                (sender_counts p) |}.
Proof.
  intros [Hk Hc] Hs. split; cbn [pending sender_counts].
  - by apply map_Forall_delete.
  - intros a. unfold from_sender at 1. cbn [pending].
    pose proof (from_sender_delete p h tx a Hs) as E. specialize (Hc a).
    rewrite lookup_alter. destruct (decide (sender tx = a)) as [<-|Hne].
    + destruct (sender_counts p !! sender tx) as [c|]; cbn in *; unfold saturating_sub; lia.
    + rewrite Hc. lia.
Qed.

Definition returned (tx : TypeStateTx Proposed) : Hash * TypeStateTx Pending :=
  (hash tx, rollback tx).

Definition all_pending (p : TypeStatePool) : Prop :=
  map_Forall (fun _ tx => state_data tx = SPending) (pending p).

Lemma rollback_propose tx block now : state_data tx = SPending ->
  rollback (propose tx block now) = tx.
Proof. destruct tx; cbn. by intros ->. Qed.

(** The batch takes what it returns out of the pool, each transaction once. *)
Lemma propose_batch_spec block now hashes : forall p p' proposed,
  pool_inv p -> all_pending p -> propose_batch hashes block now p = (p', proposed) ->
  pool_inv p' /\ NoDup (hash <$> proposed) /\
  (forall x, x ∈ hash <$> proposed -> pending p' !! x = None /\ x ∈ hashes) /\
  pending p = list_to_map (returned <$> proposed) ∪ pending p'.
Proof.
  induction hashes as [|h hashes IH]; intros p p' proposed Hi Ha E; cbn [propose_batch] in E.
  { simplify_eq. split_and!; [done|constructor|set_solver|]. cbn. by rewrite (left_id_L ∅ (∪)). }
  destruct (pending p !! h) as [tx|] eqn:Eh.
  - destruct (propose_batch hashes block now _) as [p1 l] eqn:E1. simplify_eq.
    eapply IH in E1 as (H1 & H2 & H3 & H4); [|by apply take_one_inv|by apply map_Forall_delete].
    cbn [pending] in H4. assert (Hh : hash tx = h) by (by apply Hi).
    assert (Hd : delete h (pending p) !! h = None) by apply lookup_delete_eq.
    rewrite H4 in Hd. apply lookup_union_None in Hd as [Hd1 Hd2].
    split_and!; [done| | |].
    + cbn. constructor; [|done]. rewrite Hh. intros Hin.
      apply not_elem_of_list_to_map in Hd1. apply Hd1.
      unfold returned. rewrite <-list_fmap_compose. exact Hin.
    + intros x Hx. cbn in Hx. apply elem_of_cons in Hx as [->|Hx].
      * rewrite Hh. split; [done|constructor].
      * destruct (H3 x Hx). split; [done|by constructor].
    + change (list_to_map (returned <$> (propose tx block now :: l))) with
        (<[hash tx := rollback (propose tx block now)]>
          (list_to_map (returned <$> l) : gmap Hash (TypeStateTx Pending))).
      rewrite rollback_propose by (by eapply Ha).
      rewrite Hh, <-insert_union_l, <-H4. by rewrite insert_delete_id.
  - eapply IH in E as (H1 & H2 & H3 & H4); [|done..]. split_and!; try done.
    intros x Hx. destruct (H3 x Hx). split; [done|by constructor].
Qed.

Definition return_all (l : list (TypeStateTx Proposed)) (p : TypeStatePool) : TypeStatePool :=
  foldl (fun p tx => (return_pending (rollback tx) p).1) p l.

Lemma return_all_pending l : forall p, NoDup (hash <$> l) ->
  (forall x, x ∈ hash <$> l -> pending p !! x = None) ->
  pending (return_all l p) = list_to_map (returned <$> l) ∪ pending p.
Proof.
  induction l as [|tx l IH]; intros p Hnd Hf; cbn.
  { by rewrite (left_id_L ∅ (∪)). }
  cbn in Hnd. apply NoDup_cons in Hnd as [Hx Hnd].
  assert (Ep : pending (return_pending (rollback tx) p).1
    = <[hash tx := rollback tx]> (pending p)).
  { unfold return_pending, add_pending. cbn [hash rollback with_state].
    rewrite (Hf (hash tx)) by (cbn; constructor). done. }
  change (foldl _ _ l) with (return_all l (return_pending (rollback tx) p).1).
  rewrite IH; [|done|].
  - rewrite Ep, <-insert_union_r; [by rewrite insert_union_l|].
    apply not_elem_of_list_to_map. unfold returned. rewrite <-list_fmap_compose. exact Hx.
  - intros x Hxl. rewrite Ep, lookup_insert_ne; [apply Hf; by constructor|]. intros E.
    apply Hx. by rewrite E.
Qed.

Lemma return_all_inv l : forall p, pool_inv p ->
  pending_count p + Z.of_nat (length l) < 2 ^ 64 -> pool_inv (return_all l p).
Proof.
  induction l as [|tx l IH]; intros p Hi Hs; [done|]. cbn [return_all foldl] in *.
  apply IH; [apply add_pending_inv; [done|]; cbn [length] in Hs; lia|].
  unfold return_pending, add_pending, pending_count in *. cbn [length] in Hs.
  destruct (pending p !! hash (rollback tx)) eqn:E; cbn [fst pending]; [lia|].
  rewrite map_size_insert_None by done. lia.
Qed.

(** A batch proposed from the pool and rolled back transaction
    by transaction is back in it: the pending transactions are the ones from
    before.  In between none of the proposed ones is pending, each appears
    once and was asked for, and the counts per sender stay the numbers of
    pending transactions. *)
Theorem propose_rollback_restores hashes block now p p' proposed :
  pool_inv p -> all_pending p -> pending_count p < 2 ^ 64 ->
  propose_batch hashes block now p = (p', proposed) ->
  pending (return_all proposed p') = pending p /\
  pool_inv p' /\ pool_inv (return_all proposed p') /\
  NoDup (hash <$> proposed) /\
  forall x, x ∈ hash <$> proposed -> pending p' !! x = None /\ x ∈ hashes.
Proof.
  intros Hi Ha Hs E. destruct (propose_batch_spec _ _ _ _ _ _ Hi Ha E) as (H1 & H2 & H3 & H4).
  split_and!; [|done| |done|done].
  - rewrite return_all_pending; [done|done|]. intros x Hx. by apply H3.
  - apply return_all_inv; [done|]. unfold pending_count in *. rewrite H4 in Hs.
    rewrite map_size_disj_union, map_size_list_to_map, length_fmap in Hs; [lia| |].
    + unfold returned. rewrite <-list_fmap_compose. exact H2.
    + apply map_disjoint_spec. intros x t1 t2 Hx1 Hx2.
      apply elem_of_list_to_map_2 in Hx1. apply list_elem_of_fmap in Hx1 as (tx & Et & Htx).
      unfold returned in Et. simplify_eq. destruct (H3 (hash tx)) as [Hn _]; [|congruence].
      apply list_elem_of_fmap. eauto.
Qed.

Definition sample_tx (n : Z) : TypeStateTx Pending :=
  tx_new (fun _ => n) {| st_from := 1; st_to := None; st_value := 0; st_nonce := n;
    st_gas_price := 1; st_gas_limit := 21000; st_data := []; st_signature := [] |} 5.

Lemma propose_rollback_restores_witness :
  let p := (add_pending (sample_tx 3) (add_pending (sample_tx 2) pool_new).1).1 in
  pending (return_all (propose_batch [3; 4; 3] 9 6 p).2 (propose_batch [3; 4; 3] 9 6 p).1)
  = pending p.
Proof.
  intros p. refine (proj1 (propose_rollback_restores [3; 4; 3] 9 6 p _ _ _ _ _ _)).
  - repeat apply add_pending_inv; [|by vm_compute..]. split; [by vm_compute|].
    intros a. cbn. unfold from_sender. cbn. by rewrite map_filter_empty.
  - unfold all_pending. subst p. cbn.
    repeat (apply map_Forall_insert_2; [reflexivity|]). apply map_Forall_empty.
  - by vm_compute.
  - reflexivity.
Defined.

End TypeState.

(** ** Helper functions *)

Module Services.

Section Prices.
Context `{U : U256Ops}.

Definition calculate_rbf_min_price (old_price : U256) (bump_percent : u64) : option U256 :=
  product ← u256_mul old_price (wrapping_add 64 100 bump_percent); u256_div product 100.

Definition is_valid_rbf_bump (old_price new_price : U256) (bump_percent : u64) : option bool :=
  min_price ← calculate_rbf_min_price old_price bump_percent; Some (min_price <=? new_price).

End Prices.

Fixpoint nonces_from (expected : u64) (sorted : list u64) : bool :=
  match sorted with
  | [] => true
  | nonce :: sorted =>
      if negb (nonce =? expected) then false else nonces_from (wrapping_add 64 expected 1) sorted
  end.

(** [start_nonce + i] wraps. *)
Definition validate_nonce_sequence (nonces : list u64) (start_nonce : u64) : bool :=
  nonces_from start_nonce (merge_sort Z.le nonces).

(** [sum] of [u64]s wraps. *)
Definition total_gas (gas_limits : list u64) : u64 := foldl (wrapping_add 64) 0 gas_limits.

Lemma nonces_from_spec l : forall start, 0 <= start -> start + Z.of_nat (length l) < 2 ^ 64 ->
  nonces_from start l = true <-> l = seqZ start (Z.of_nat (length l)).
Proof.
  induction l as [|x l IH]; intros start H0 Hb; cbn [nonces_from length] in *; [done|].
  rewrite seqZ_cons by lia. rewrite wrapping_add_small by lia.
  destruct (Z.eqb_spec x start) as [->|Hne]; cbn [negb].
  - rewrite IH by lia. replace (Z.pred (Z.of_nat (S (length l)))) with (Z.of_nat (length l)) by lia.
    replace (Z.succ start) with (start + 1) by lia. split; [by intros <-|by intros [= ?]].
  - split; [done|]. intros [=]. congruence.
Qed.

Lemma seqZ_sorted start n : StronglySorted Z.le (seqZ start n).
Proof.
  unfold seqZ. generalize (Z.to_nat n) as k. intros k. revert start.
  assert (H : forall j start, StronglySorted Z.le ((fun i => Z.of_nat i + start) <$> seq j k)).
  { induction k as [|k IH]; intros j start; [constructor|]. cbn. constructor; [apply IH|].
    apply Forall_fmap, Forall_forall. intros i Hi. apply elem_of_seq in Hi. cbn. lia. }
  apply H.
Qed.

(** The check holds exactly of the nonces [start_nonce], [start_nonce + 1], …
    in any order and without a gap or a repetition. *)
Lemma validate_nonce_sequence_exact nonces start : 0 <= start ->
  start + Z.of_nat (length nonces) < 2 ^ 64 ->
  validate_nonce_sequence nonces start = true <->
  nonces ≡ₚ seqZ start (Z.of_nat (length nonces)).
Proof.
  intros H0 Hb. unfold validate_nonce_sequence.
  pose proof (merge_sort_Permutation Z.le nonces) as Hp.
  pose proof (Permutation_length Hp) as Hl. rewrite nonces_from_spec by lia. rewrite Hl. split.
  - intros <-. done.
  - intros Hs. apply (StronglySorted_unique Z.le).
    + apply StronglySorted_merge_sort; apply _.
    + apply seqZ_sorted.
    + by rewrite Hp.
Qed.

End Services.
