(* ===== verification/Signatures.v ===== *)
(** * Signature verification

    The subsystem [qc-10-signature-verification]: the checks on ECDSA
    signatures and the recovery of the signer ([domain/ecdsa.rs]), the BLS
    wrappers ([domain/bls.rs]), the service with its verification of
    transactions ([service.rs]) and the message handler with its rate limiter
    ([adapters/ipc.rs]).

    The curve arithmetic of [k256] and [blst] and Keccak-256 are the classes
    [K256] and [Blst] and the argument [keccak256]; nothing is assumed of them.
    Scalars, hashes and addresses are kept as the byte arrays the code works
    on.  A [Choice] of the [subtle] crate is a [bool]. *)

From S2P Require Import Prelude Blocks Messages.

Local Open Scope Z_scope.
Local Open Scope qc_scope.

(** ** Entities *)

Module Entities.

Record EcdsaSignature := {
  r : list u8;
  s : list u8;
  v : u8
}.

Inductive SignatureError :=
| InvalidFormat
| VerificationFailed
| MalleableSignature
| InvalidRecoveryId (v : u8)
| RecoveryFailed
| BlsPairingFailed
| EmptyAggregation
| SignerMismatch (expected actual : list u8)
| SubmissionFailed.

Record VerificationRequest := {
  message_hash : list u8;
  signature : EcdsaSignature;
  expected_signer : option (list u8)
}.

Record VerificationResult := {
  valid : bool;
  recovered_address : option (list u8);
  error : option SignatureError
}.

Definition result_valid (address : list u8) : VerificationResult := {|
  valid := true; recovered_address := Some address; error := None
|}.

Definition result_invalid (e : SignatureError) : VerificationResult := {|
  valid := false; recovered_address := None; error := Some e
|}.

Record BatchVerificationResult := {
  results : list VerificationResult;
  all_valid : bool;
  valid_count : usize;
  invalid_count : usize
}.

Definition from_results (results : list VerificationResult) : BatchVerificationResult :=
  let valid_count := Z.of_nat (length (List.filter valid results)) in
  let invalid_count := Z.of_nat (length results) - valid_count in
  {| results := results; all_valid := invalid_count =? 0;
     valid_count := valid_count; invalid_count := invalid_count |}.

Record VerifiedTransaction := {
  transaction : Transaction;
  sender : list u8;
  signature_valid : bool
}.

End Entities.
Import Entities.

(** ** Checks on the scalars *)

Module Scalars.

Definition SECP256K1_ORDER : list u8 := [
  255; 255; 255; 255; 255; 255; 255; 255; 255; 255; 255; 255; 255; 255; 255; 254;
  186; 174; 220; 230; 175; 72; 160; 59; 191; 210; 94; 140; 208; 54; 65; 65
].

Definition SECP256K1_HALF_ORDER : list u8 := [
  127; 255; 255; 255; 255; 255; 255; 255; 255; 255; 255; 255; 255; 255; 255; 255;
  93; 87; 110; 115; 87; 164; 80; 29; 223; 233; 47; 70; 104; 27; 32; 160
].

(** The loop of the constant-time comparisons: whether [a] was found less and
    whether it was found greater. *)
Fixpoint ct_compare (less greater : bool) (a b : list u8) : bool * bool :=
  match a, b with
  | x :: a, y :: b =>
      let not_decided := negb (less || greater) in
      let byte_less := x <? y in
      let byte_greater := y <? x in
      ct_compare (less || (not_decided && byte_less))
        (greater || (not_decided && byte_greater)) a b
  | _, _ => (less, greater)
  end.

Definition is_low_s (s : list u8) : bool := (ct_compare false false s SECP256K1_HALF_ORDER).1.

Definition is_zero (scalar : list u8) : bool := foldl (fun z b => z && (b =? 0)) true scalar.

Definition is_valid_scalar (scalar : list u8) : bool :=
  let not_zero := negb (is_zero scalar) in
  let less := (ct_compare false false scalar SECP256K1_ORDER).1 in
  not_zero && less.

(** [value.chunks(2).skip(1)] all equal to the first two bytes. *)
Fixpoint chunks_equal (x y : u8) (l : list u8) : bool :=
  match l with
  | [] => true
  | [_] => false
  | a :: b :: l => (a =? x) && (b =? y) && chunks_equal x y l
  end.

Fixpoint leading_zeros (l : list u8) : nat :=
  match l with
  | [] => 0
  | b :: l => if b =? 0 then S (leading_zeros l) else 0
  end.

Definition byte_counts (value : list u8) : list nat :=
  (fun i => length (List.filter (Z.eqb (Z.of_nat i)) value)) <$> seq 0 256.

Definition has_sufficient_entropy (value : list u8) : bool :=
  let first := nth 0 value 0 in
  if forallb (fun b => b =? first) value then false
  else if (28 <=? leading_zeros value)%nat then false
  else if (4 <=? length value)%nat && chunks_equal (nth 0 value 0) (nth 1 value 0) (drop 2 value) &&
          negb (nth 0 value 0 =? nth 1 value 0) then false
  else
    let unique_bytes := length (List.filter (fun c => (0 <? c)%nat) (byte_counts value)) in
    let max_count := foldl Nat.max 0%nat (byte_counts value) in
    if (28 <=? max_count)%nat then false
    else if (unique_bytes <=? 3)%nat then false
    else true.

(** [invert_s]: subtraction with borrow, from the last byte to the first; the
    lists here start with the last byte. *)
Fixpoint subtract_loop (borrow : Z) (n s : list u8) : list u8 :=
  match n, s with
  | x :: n, y :: s =>
      let diff := x - y - borrow in
      if diff <? 0 then diff + 256 :: subtract_loop 1 n s else diff :: subtract_loop 0 n s
  | _, _ => []
  end.

Definition invert_s (s : list u8) : list u8 :=
  reverse (subtract_loop 0 (reverse SECP256K1_ORDER) (reverse s)).

(** *** What the checks decide *)

Definition n : Z := from_be_bytes SECP256K1_ORDER.

Definition scalar_bytes (l : list u8) : Prop := length l = 32%nat /\ Forall (in_width 8) l.

#[export] Instance scalar_bytes_dec l : Decision (scalar_bytes l).
Proof. unfold scalar_bytes. apply _. Defined.

Lemma order_value :
  n = 0xFFFFFFFFFFFFFFFFFFFFFFFFFFFFFFFEBAAEDCE6AF48A03BBFD25E8CD0364141 /\
  from_be_bytes SECP256K1_HALF_ORDER = n / 2 /\ n mod 2 = 1.
Proof. by vm_compute. Qed.

Lemma constants_bytes : scalar_bytes SECP256K1_ORDER /\ scalar_bytes SECP256K1_HALF_ORDER.
Proof. split; apply (bool_decide_unpack _); by vm_compute. Qed.

Lemma ct_compare_decided l g a b : l || g = true -> ct_compare l g a b = (l, g).
Proof.
  revert l g b. induction a as [|x a IH]; intros l g b H; [done|]. destruct b as [|y b]; [done|].
  cbn [ct_compare]. rewrite H. cbn. rewrite !orb_false_r. by apply IH.
Qed.

(** The constant-time loop decides the order of the numbers. *)
Lemma ct_compare_spec a : forall b, length a = length b ->
  Forall (in_width 8) a -> Forall (in_width 8) b ->
  ct_compare false false a b =
  (from_be_bytes a <? from_be_bytes b, from_be_bytes b <? from_be_bytes a).
Proof.
  induction a as [|x a IH]; intros [|y b] Hl Ha Hb; cbn in Hl; try lia; [done|].
  apply Forall_cons in Ha as [Hx Ha]. apply Forall_cons in Hb as [Hy Hb].
  pose proof (from_be_bytes_bound a Ha) as Hba. pose proof (from_be_bytes_bound b Hb) as Hbb.
  assert (Hl' : length a = length b) by lia.
  rewrite !from_be_bytes_cons, <-Hl'. rewrite <-Hl' in Hbb.
  remember (256 ^ Z.of_nat (length a)) as p eqn:Ep. clear Ep.
  cbn [ct_compare orb negb andb].
  destruct (Z.ltb_spec x y), (Z.ltb_spec y x); try lia.
  - assert (x * p + p <= y * p) by nia. rewrite ct_compare_decided by done.
    f_equal; symmetry; [apply Z.ltb_lt|apply Z.ltb_ge]; lia.
  - assert (y * p + p <= x * p) by nia. rewrite ct_compare_decided by done.
    f_equal; symmetry; [apply Z.ltb_ge|apply Z.ltb_lt]; lia.
  - assert (x = y) as -> by lia. rewrite IH by (done || lia).
    f_equal; apply eq_true_iff_eq; rewrite !Z.ltb_lt; lia.
Qed.

Lemma is_zero_spec l : Forall (in_width 8) l -> is_zero l = (from_be_bytes l =? 0).
Proof.
  intros Hl. unfold is_zero.
  assert (H : forall z, foldl (fun z b => z && (b =? 0)) z l = z && forallb (fun b => b =? 0) l).
  { clear. induction l as [|b l IH]; intros z; cbn; [by rewrite andb_true_r|].
    by rewrite IH, andb_assoc. }
  rewrite H. cbn [andb]. clear H. apply eq_true_iff_eq. rewrite Z.eqb_eq.
  induction Hl as [|b l Hb Hl IH]; [done|]. cbn [forallb]. rewrite andb_true_iff, IH, from_be_bytes_cons.
  pose proof (from_be_bytes_bound l Hl). unfold in_width in Hb. change (2 ^ 8) with 256 in Hb.
  rewrite Z.eqb_eq. nia.
Qed.

Lemma scalar_checks l : scalar_bytes l ->
  (is_valid_scalar l = true <-> 1 <= from_be_bytes l < n) /\
  (is_low_s l = true <-> from_be_bytes l < n / 2).
Proof.
  intros [Hlen Hb]. destruct constants_bytes as [[L1 B1] [L2 B2]].
  unfold is_valid_scalar, is_low_s.
  rewrite (ct_compare_spec l SECP256K1_ORDER) by (done || lia).
  rewrite (ct_compare_spec l SECP256K1_HALF_ORDER) by (done || lia).
  rewrite is_zero_spec by done. cbn [fst]. fold n.
  destruct order_value as (_ & -> & _). pose proof (from_be_bytes_bound l Hb).
  rewrite andb_true_iff, negb_true_iff, Z.eqb_neq, !Z.ltb_lt. lia.
Qed.

(** Subtraction with borrow, up to a borrow out of the last byte. *)
Lemma subtract_loop_spec a : forall b borrow, length a = length b -> 0 <= borrow <= 1 ->
  Forall (in_width 8) a -> Forall (in_width 8) b ->
  Forall (in_width 8) (subtract_loop borrow a b) /\ length (subtract_loop borrow a b) = length a /\
  exists c, from_le_bytes (subtract_loop borrow a b) =
    from_le_bytes a - from_le_bytes b - borrow + c * 256 ^ Z.of_nat (length a).
Proof.
  induction a as [|x a IH]; intros [|y b] borrow Hl Hbo Ha Hb; cbn in Hl; try lia.
  { split_and!; [constructor|done|exists borrow; cbn; lia]. }
  apply Forall_cons in Ha as [Hx Ha]. apply Forall_cons in Hb as [Hy Hb].
  unfold in_width in Hx, Hy. change (2 ^ 8) with 256 in *. cbn [subtract_loop].
  destruct (Z.ltb_spec (x - y - borrow) 0);
    [destruct (IH b 1) as (H1 & H2 & c & H3)|destruct (IH b 0) as (H1 & H2 & c & H3)];
    try lia; try done;
    (split_and!; [constructor; [unfold in_width; change (2 ^ 8) with 256; lia|done]|cbn; lia|];
     exists c; cbn [from_le_bytes length]; rewrite H3, Nat2Z.inj_succ, Z.pow_succ_r by lia; lia).
Qed.

Lemma subtract_value a b : length a = length b -> Forall (in_width 8) a ->
  Forall (in_width 8) b -> from_be_bytes b <= from_be_bytes a ->
  let d := reverse (subtract_loop 0 (reverse a) (reverse b)) in
  length d = length a /\ Forall (in_width 8) d /\ from_be_bytes d = from_be_bytes a - from_be_bytes b.
Proof.
  intros Hl Ha Hb Hle.
  destruct (subtract_loop_spec (reverse a) (reverse b) 0) as (H1 & H2 & c & H3);
    [by rewrite !length_reverse|lia|by apply Forall_reverse..|].
  cbn zeta. apply Forall_reverse in H1.
  assert (Hlen : length (reverse (subtract_loop 0 (reverse a) (reverse b))) = length a)
    by (by rewrite length_reverse, H2, length_reverse).
  split_and!; [done|done|].
  pose proof (from_be_bytes_bound _ H1) as Hd. rewrite Hlen in Hd.
  pose proof (from_be_bytes_bound a Ha) as Hba. pose proof (from_be_bytes_bound b Hb) as Hbb.
  unfold from_be_bytes in *. rewrite reverse_involutive in *. rewrite length_reverse in H3.
  rewrite H3 in *. remember (256 ^ Z.of_nat (length a)) as p eqn:Ep. clear Ep H3.
  assert (c = 0) by nia. lia.
Qed.

(** [invert_s] subtracts from the order. *)
Lemma invert_s_value s : scalar_bytes s -> from_be_bytes s <= n ->
  scalar_bytes (invert_s s) /\ from_be_bytes (invert_s s) = n - from_be_bytes s.
Proof.
  intros [Hl Hb] Hle. destruct constants_bytes as [[L1 B1] _].
  destruct (subtract_value SECP256K1_ORDER s) as (H1 & H2 & H3); [by rewrite L1|done..|].
  split; [|exact H3]. split; [by rewrite <-L1|exact H2].
Qed.

(** On 32-byte scalars the branch-free byte loops compute the
    comparisons of numbers, and the subtraction with borrow computes the
    subtraction: a scalar is accepted exactly between 1 and n - 1, counts as low
    exactly below n / 2, rounded down, and is inverted to n minus itself. *)
Theorem scalar_checks_exact l : scalar_bytes l ->
  (is_valid_scalar l = true <-> 1 <= from_be_bytes l < n) /\
  (is_low_s l = true <-> from_be_bytes l < n / 2) /\
  (from_be_bytes l <= n -> from_be_bytes (invert_s l) = n - from_be_bytes l).
Proof.
  intros Hl. destruct (scalar_checks l Hl) as [H1 H2]. split_and!; [done|done|].
  intros Hn. by apply invert_s_value.
Qed.

Lemma scalar_checks_exact_witness :
  is_valid_scalar SECP256K1_HALF_ORDER = true /\ is_low_s SECP256K1_HALF_ORDER = false.
Proof.
  destruct (scalar_checks_exact SECP256K1_HALF_ORDER (proj2 constants_bytes)) as (H1 & H2 & _).
  split; [apply H1; by vm_compute|]. apply not_true_iff_false. rewrite H2. by vm_compute.
Defined.

(** The scalar [n / 2] and its inverse are both refused as high. *)
Lemma half_order_has_no_low_form :
  is_low_s SECP256K1_HALF_ORDER = false /\ is_low_s (invert_s SECP256K1_HALF_ORDER) = false.
Proof. by vm_compute. Qed.

End Scalars.
Import Scalars.

(** ** ECDSA *)

(** The part of [k256] that is used: decompression of a point (parsing and the
    curve equation), the encoding [EncodedPoint::from] of a point, parsing of a
    signature, recovery of a key, and the uncompressed encoding of a key. *)
Class K256 := {
  Point : Type;
  Sig : Type;
  Key : Type;
  decompress : list u8 -> option Point;
  encode_point : Point -> list u8;
  sig_from_slice : list u8 -> option Sig;
  recover_from_prehash : list u8 -> Sig -> Z -> option Key;
  uncompressed : Key -> list u8
}.

Section Ecdsa.
Context `{K : K256} (keccak256 : list u8 -> list u8).

Definition is_valid_r_coordinate (r : list u8) : bool :=
  match decompress (2 :: r) with Some _ => true | None => false end.

Definition parse_recovery_id (v : u8) : result SignatureError Z :=
  if (v =? 0) || (v =? 27) then Ok 0
  else if (v =? 1) || (v =? 28) then Ok 1
  else Err (InvalidRecoveryId v).

(** The last 20 bytes of the hash of the encoded key without its first byte. *)
Definition address_of (encoded : list u8) : list u8 := drop 12 (keccak256 (drop 1 encoded)).

Definition address_from_pubkey (public_key : Key) : list u8 :=
  address_of (uncompressed public_key).

Definition recover_address (message_hash : list u8) (signature : EcdsaSignature)
  : result SignatureError (list u8) :=
  let? recovery_id := parse_recovery_id (v signature) in
  match sig_from_slice (r signature ++ s signature) with
  | None => Err InvalidFormat
  | Some sig =>
      match recover_from_prehash message_hash sig recovery_id with
      | None => Err RecoveryFailed
      | Some recovered_key => Ok (address_of (uncompressed recovered_key))
      end
  end.

Definition verify_ecdsa (message_hash : list u8) (signature : EcdsaSignature)
  : VerificationResult :=
  if negb (is_valid_scalar (r signature)) then result_invalid InvalidFormat
  else if negb (is_valid_r_coordinate (r signature)) then result_invalid InvalidFormat
  else if negb (has_sufficient_entropy (r signature)) then result_invalid InvalidFormat
  else if negb (is_valid_scalar (s signature)) then result_invalid InvalidFormat
  else if negb (is_low_s (s signature)) then result_invalid MalleableSignature
  else match recover_address message_hash signature with
    | Ok address => result_valid address
    | Err e => result_invalid e
    | Panic => result_invalid RecoveryFailed
    end.

Definition verify_ecdsa_signer (message_hash : list u8) (signature : EcdsaSignature)
  (expected : list u8) : VerificationResult :=
  let result := verify_ecdsa message_hash signature in
  if negb (valid result) then result
  else match recovered_address result with
    | Some recovered =>
        if negb (bool_decide (recovered = expected))
        then result_invalid (SignerMismatch expected recovered) else result
    | None => result
    end.

Definition verify_single_request (req : VerificationRequest) : VerificationResult :=
  let result := verify_ecdsa (message_hash req) (signature req) in
  if negb (valid result) then result
  else match expected_signer req, recovered_address result with
    | Some expected, Some recovered =>
        if negb (bool_decide (recovered = expected))
        then result_invalid (SignerMismatch expected recovered) else result
    | _, _ => result
    end.

(** The parallel iterator keeps the order of the requests. *)
Definition batch_verify_ecdsa (requests : list VerificationRequest) : BatchVerificationResult :=
  from_results (map verify_single_request requests).

End Ecdsa.

(** ** BLS *)

(** The part of [blst] that is used: parsing of points and the two checks,
    aggregation and the encodings of the results. *)
Class Blst := {
  BlsSig : Type;
  BlsKey : Type;
  BlsAggregate : Type;
  bls_sig_from_bytes : list u8 -> option BlsSig;
  bls_key_from_bytes : list u8 -> option BlsKey;
  bls_verify : list u8 -> BlsSig -> BlsKey -> bool;
  bls_aggregate_verify : BlsSig -> list (list u8) -> list BlsKey -> bool;
  bls_from_signature : BlsSig -> BlsAggregate;
  bls_add_signature : BlsSig -> BlsAggregate -> option BlsAggregate;
  bls_to_bytes : BlsAggregate -> list u8;
  bls_aggregate_keys : list BlsKey -> option (list u8)
}.

Section Bls.
Context `{B : Blst}.

Definition verify_bls (message signature public_key : list u8) : bool :=
  match bls_sig_from_bytes signature with
  | None => false
  | Some sig =>
      match bls_key_from_bytes public_key with
      | None => false
      | Some pk => bls_verify message sig pk
      end
  end.

Definition verify_bls_aggregate (message aggregate_signature : list u8)
  (public_keys : list (list u8)) : bool :=
  match public_keys with
  | [] => false
  | _ =>
      match bls_sig_from_bytes aggregate_signature with
      | None => false
      | Some sig =>
          let pks := omap bls_key_from_bytes public_keys in
          if negb (length pks =? length public_keys)%nat then false
          else bls_aggregate_verify sig (replicate (length pks) message) pks
      end
  end.

Fixpoint add_signatures (signatures : list (list u8)) (aggregate : BlsAggregate)
  : result SignatureError BlsAggregate :=
  match signatures with
  | [] => Ok aggregate
  | sig :: signatures =>
      match bls_sig_from_bytes sig with
      | None => Err InvalidFormat
      | Some parsed =>
          match bls_add_signature parsed aggregate with
          | None => Err BlsPairingFailed
          | Some aggregate => add_signatures signatures aggregate
          end
      end
  end.

Definition aggregate_bls_signatures (signatures : list (list u8))
  : result SignatureError (list u8) :=
  match signatures with
  | [] => Err EmptyAggregation
  | first :: rest =>
      match bls_sig_from_bytes first with
      | None => Err InvalidFormat
      | Some first_sig =>
          let? aggregate := add_signatures rest (bls_from_signature first_sig) in
          Ok (bls_to_bytes aggregate)
      end
  end.

Fixpoint parse_keys (public_keys : list (list u8)) : result SignatureError (list BlsKey) :=
  match public_keys with
  | [] => Ok []
  | pk :: public_keys =>
      match bls_key_from_bytes pk with
      | None => Err InvalidFormat
      | Some pk => let? pks := parse_keys public_keys in Ok (pk :: pks)
      end
  end.

Definition aggregate_bls_public_keys (public_keys : list (list u8))
  : result SignatureError (list u8) :=
  match public_keys with
  | [] => Err EmptyAggregation
  | _ =>
      let? pks := parse_keys public_keys in
      match bls_aggregate_keys pks with Some bytes => Ok bytes | None => Err BlsPairingFailed end
  end.

(** An aggregate is only checked against at least one key, all well formed, and
    the one message for each of them. *)
Lemma verify_bls_aggregate_true message sig keys :
  verify_bls_aggregate message sig keys = true <->
  keys <> [] /\ exists s pks, bls_sig_from_bytes sig = Some s /\
    Forall2 (fun k pk => bls_key_from_bytes k = Some pk) keys pks /\
    bls_aggregate_verify s (replicate (length keys) message) pks = true.
Proof.
  assert (Hp : forall keys, length (omap bls_key_from_bytes keys) = length keys <->
    Forall2 (fun k pk => bls_key_from_bytes k = Some pk) keys (omap bls_key_from_bytes keys)).
  { clear. intros keys. split; [|intros H; by rewrite (Forall2_length _ _ _ H)].
    assert (Hle : forall l, (length (omap bls_key_from_bytes l) <= length l)%nat).
    { induction l as [|k l IH]; [done|]. cbn. destruct (bls_key_from_bytes k); cbn; lia. }
    induction keys as [|k keys IH]; intros H; [constructor|]. cbn in *.
    destruct (bls_key_from_bytes k) as [pk|] eqn:E; cbn in *.
    - constructor; [done|]. apply IH. lia.
    - specialize (Hle keys). lia. }
  unfold verify_bls_aggregate. destruct keys as [|k keys]; [naive_solver|].
  destruct (bls_sig_from_bytes sig) as [s|]; [|naive_solver].
  destruct (Nat.eqb_spec (length (omap bls_key_from_bytes (k :: keys))) (length (k :: keys)))
    as [E|E]; cbn [negb].
  - rewrite E. split.
    + intros H. split; [done|]. exists s, (omap bls_key_from_bytes (k :: keys)).
      split_and!; [done|by apply Hp|done].
    + intros (_ & s' & pks & [= <-] & Hf & Hv).
      replace (omap bls_key_from_bytes (k :: keys)) with pks; [done|].
      clear -Hf. induction Hf as [|x y l l' Hx _ IH]; [done|]. cbn. rewrite Hx. by f_equal.
  - split; [done|]. intros (_ & s' & pks & _ & Hf & _). exfalso. apply E.
    clear -Hf. induction Hf as [|x y l l' Hx _ IH]; [done|]. cbn in *. rewrite Hx. cbn. by f_equal.
Qed.

End Bls.

(** ** The service *)

Section Service.
Context `{K : K256} (keccak256 : list u8 -> list u8).

Definition transaction_preimage (tx : Transaction) : list u8 :=
  rt_from tx ++ default [] (rt_to tx) ++ le_bytes 8 (rt_value tx) ++
  le_bytes 8 (rt_nonce tx) ++ rt_data tx.

Definition compute_transaction_hash (tx : Transaction) : list u8 :=
  keccak256 (transaction_preimage tx).

Definition extract_rs_from_signature (tx : Transaction)
  : result SignatureError (list u8 * list u8) :=
  if negb (length (rt_signature tx) =? 64)%nat then Err InvalidFormat
  else Ok (take 32 (rt_signature tx), drop 32 (rt_signature tx)).

Definition derive_address_from_compressed_pubkey (pubkey : list u8)
  : result SignatureError (list u8) :=
  match decompress pubkey with
  | Some point => Ok (address_of keccak256 (encode_point point))
  | None => Err InvalidFormat
  end.

Definition derive_address_from_pubkey (pubkey : list u8) : list u8 :=
  match decompress (2 :: pubkey) with
  | Some point => address_of keccak256 (encode_point point)
  | None => drop 12 (keccak256 pubkey)
  end.

Definition derive_address (pubkey : list u8) : result SignatureError (list u8) :=
  if (length pubkey =? 33)%nat then derive_address_from_compressed_pubkey pubkey
  else if (length pubkey =? 32)%nat then Ok (derive_address_from_pubkey pubkey)
  else Err InvalidFormat.

Fixpoint try_recovery_ids (vs : list u8) (tx : Transaction) (tx_hash r s expected_sender : list u8)
  : result SignatureError VerifiedTransaction :=
  match vs with
  | [] => Err VerificationFailed
  | v :: vs =>
      if valid (verify_ecdsa_signer keccak256 tx_hash {| r := r; s := s; v := v |} expected_sender)
      then Ok {| transaction := tx; sender := expected_sender; signature_valid := true |}
      else try_recovery_ids vs tx tx_hash r s expected_sender
  end.

Definition verify_transaction (tx : Transaction) : result SignatureError VerifiedTransaction :=
  let tx_hash := compute_transaction_hash tx in
  let? rs := extract_rs_from_signature tx in
  let expected_sender := derive_address_from_pubkey (rt_from tx) in
  try_recovery_ids [27; 28] tx tx_hash rs.1 rs.2 expected_sender.

(** The mempool port, with the state [M] behind it. *)
Definition verify_and_submit {M : Type}
  (submit : VerifiedTransaction -> M -> M * bool) (tx : Transaction) (m : M)
  : M * result SignatureError unit :=
  match verify_transaction tx with
  | Ok verified =>
      let '(m, accepted) := submit verified m in
      (m, if accepted : bool then Ok tt else Err SubmissionFailed)
  | Err e => (m, Err e)
  | Panic => (m, Panic)
  end.

(** *** Which signatures are accepted *)

(** The checks before the recovery. *)
Definition well_formed (r s : list u8) : Prop :=
  1 <= from_be_bytes r < n /\ is_Some (decompress (2 :: r)) /\
  has_sufficient_entropy r = true /\ 1 <= from_be_bytes s < n / 2.

Lemma half_order_lt : n / 2 < n.
Proof. by vm_compute. Qed.

Lemma verify_ecdsa_cases h sig : scalar_bytes (r sig) -> scalar_bytes (s sig) ->
  (exists a, well_formed (r sig) (s sig) /\ recover_address keccak256 h sig = Ok a /\
    verify_ecdsa keccak256 h sig = result_valid a) \/
  ((forall a, well_formed (r sig) (s sig) -> recover_address keccak256 h sig <> Ok a) /\
   exists e, verify_ecdsa keccak256 h sig = result_invalid e).
Proof.
  intros Hr Hs. destruct (scalar_checks (r sig) Hr) as [R1 _].
  destruct (scalar_checks (s sig) Hs) as [S1 S2]. pose proof half_order_lt as Hn.
  unfold verify_ecdsa, is_valid_r_coordinate.
  destruct (is_valid_scalar (r sig)) eqn:E1; cbn [negb].
  2: { right. split; [|eauto]. intros a (H1 & _). apply R1 in H1. done. }
  destruct (decompress (2 :: r sig)) as [p|] eqn:E2; cbn [negb].
  2: { right. split; [|eauto]. intros a (_ & [p Hp] & _). congruence. }
  destruct (has_sufficient_entropy (r sig)) eqn:E3; cbn [negb].
  2: { right. split; [|eauto]. intros a (_ & _ & H3 & _). congruence. }
  destruct (is_valid_scalar (s sig)) eqn:E4; cbn [negb].
  2: { right. split; [|eauto]. intros a (_ & _ & _ & H4).
       assert (false = true) by (apply S1; lia). done. }
  destruct (is_low_s (s sig)) eqn:E5; cbn [negb].
  2: { right. split; [|eauto]. intros a (_ & _ & _ & H4).
       assert (false = true) by (apply S2; lia). done. }
  assert (Hw : well_formed (r sig) (s sig)).
  { split_and!; [by apply R1..|eauto|done| |by apply S2]. apply S1. done. }
  destruct (recover_address keccak256 h sig) as [a|e|] eqn:E6; [left|right..]; eauto 10.
Qed.

Lemma verify_signer_true h sig a : scalar_bytes (r sig) -> scalar_bytes (s sig) ->
  valid (verify_ecdsa_signer keccak256 h sig a) = true <->
  well_formed (r sig) (s sig) /\ recover_address keccak256 h sig = Ok a.
Proof.
  intros Hr Hs. unfold verify_ecdsa_signer.
  destruct (verify_ecdsa_cases h sig Hr Hs) as [(a' & Hw & Hrec & ->)|(Hno & e & ->)].
  - cbn [valid result_valid negb recovered_address].
    destruct (decide (a' = a)) as [->|Hne].
    + rewrite bool_decide_true by done. by cbn [negb valid].
    + rewrite bool_decide_false by done. cbn [negb valid result_invalid].
      split; [discriminate|]. intros [_ E]. congruence.
  - cbn [valid result_invalid negb]. split; [discriminate|]. intros [Hw E]. by destruct (Hno a Hw).
Qed.

(** C26 (safety): signatures are not malleable: of an accepted signature neither
    the one with the inverted scalar nor any other with that scalar passes, for
    any message and recovery identifier; it is refused as malleable. *)
Theorem no_malleable_twin h h' sig v' : scalar_bytes (r sig) -> scalar_bytes (s sig) ->
  valid (verify_ecdsa keccak256 h sig) = true ->
  verify_ecdsa keccak256 h' {| r := r sig; s := invert_s (s sig); v := v' |}
  = result_invalid MalleableSignature.
Proof.
  intros Hr Hs Hv.
  destruct (verify_ecdsa_cases h sig Hr Hs) as [(a & (H1 & H2 & H3 & H4) & _)|(_ & e & E)];
    [|rewrite E in Hv; done].
  pose proof half_order_lt as Hn.
  destruct (invert_s_value (s sig) Hs) as [Hi Hval]; [lia|].
  destruct (scalar_checks (r sig) Hr) as [R1 _].
  destruct (scalar_checks (invert_s (s sig)) Hi) as [S1 S2].
  unfold verify_ecdsa, is_valid_r_coordinate. cbn [r s].
  rewrite (proj2 R1) by done. destruct H2 as [p ->]. rewrite H3, (proj2 S1) by lia. cbn [negb].
  destruct (is_low_s (invert_s (s sig))) eqn:E; [|done].
  exfalso. pose proof (proj1 S2 eq_refl) as Hlow. pose proof (Z.mul_div_le n 2). lia.
Qed.

(** C25 (functional): a transaction with a 64-byte signature is accepted exactly
    when the two halves of the signature are well formed and one of the two
    recovery identifiers gives the address derived from its public key, and
    then with that address as the sender; otherwise the verification fails and
    the mempool is not called. *)
Theorem verify_transaction_exact tx {M} (submit : VerifiedTransaction -> M -> M * bool) (m : M) :
  length (rt_signature tx) = 64%nat -> Forall (in_width 8) (rt_signature tx) ->
  let r := take 32 (rt_signature tx) in
  let s := drop 32 (rt_signature tx) in
  let a := derive_address_from_pubkey (rt_from tx) in
  let accepted := well_formed r s /\ exists v, (v = 27 \/ v = 28) /\
    recover_address keccak256 (compute_transaction_hash tx) {| r := r; s := s; v := v |} = Ok a in
  let verified := {| transaction := tx; sender := a; signature_valid := true |} in
  (accepted /\ verify_transaction tx = Ok verified /\
   verify_and_submit submit tx m =
     ((submit verified m).1, if (submit verified m).2 then Ok tt else Err SubmissionFailed)) \/
  (~ accepted /\ verify_transaction tx = Err VerificationFailed /\
   verify_and_submit submit tx m = (m, Err VerificationFailed)).
Proof.
  intros Hl Hb. cbn zeta.
  assert (Hr : scalar_bytes (take 32 (rt_signature tx))).
  { split; [rewrite length_take; lia|by apply Forall_take]. }
  assert (Hs : scalar_bytes (drop 32 (rt_signature tx))).
  { split; [rewrite length_drop; lia|by apply Forall_drop]. }
  set (h := compute_transaction_hash tx). set (a := derive_address_from_pubkey (rt_from tx)).
  pose proof (fun v => verify_signer_true h
    {| r := take 32 (rt_signature tx); s := drop 32 (rt_signature tx); v := v |} a Hr Hs) as Hv.
  cbn [r s] in Hv.
  assert (E : verify_transaction tx = try_recovery_ids [27; 28] tx h
    (take 32 (rt_signature tx)) (drop 32 (rt_signature tx)) a).
  { unfold verify_transaction, extract_rs_from_signature. by rewrite Hl. }
  unfold verify_and_submit. rewrite E. cbn [try_recovery_ids].
  pose proof (Hv 27) as H27. pose proof (Hv 28) as H28.
  destruct (valid _) eqn:E27; [|destruct (valid (verify_ecdsa_signer _ _ {| v := 28 |} _)) eqn:E28].
  - left. destruct (proj1 H27 eq_refl) as [Hw Hrec]. split_and!; [done|eauto|done|].
    by destruct (submit _ m).
  - left. destruct (proj1 H28 eq_refl) as [Hw Hrec]. split_and!; [done|eauto|done|].
    by destruct (submit _ m).
  - right. split_and!; [|done|done]. intros (Hw & v & [->| ->] & Hrec).
    + assert (false = true) by (apply H27; done). done.
    + assert (false = true) by (apply H28; done). done.
Qed.

End Service.

(** *** Witnesses *)

(** A curve on which every signature recovers the key [k]. *)
Definition toy_k256 (k : list u8) : K256 := {|
  Point := list u8; Sig := list u8; Key := list u8;
  decompress l := Some k; encode_point p := p; sig_from_slice l := Some l;
  recover_from_prehash _ _ _ := Some k; uncompressed k := k
|}.

Definition sample_r : list u8 := (fun i => Z.of_nat i + 1) <$> seq 0 32.
Definition sample_s : list u8 := replicate 31 0 ++ [5].

Lemma no_malleable_twin_witness :
  verify_ecdsa (K := toy_k256 [4; 1; 2]) (fun l => replicate 32 7) []
    {| r := sample_r; s := invert_s sample_s; v := 28 |} = result_invalid MalleableSignature.
Proof.
  refine (no_malleable_twin (K := toy_k256 [4; 1; 2]) (fun l => replicate 32 7) [9] []
    {| r := sample_r; s := sample_s; v := 27 |} 28 _ _ _).
  - apply (bool_decide_unpack _). by vm_compute.
  - apply (bool_decide_unpack _). by vm_compute.
  - by vm_compute.
Defined.

Definition sample_tx : Transaction := {|
  rt_from := replicate 32 1; rt_to := Some (replicate 32 2); rt_value := 10; rt_nonce := 3;
  rt_data := [1; 2]; rt_signature := sample_r ++ sample_s
|}.

Lemma verify_transaction_exact_witness :
  verify_transaction (K := toy_k256 [4; 1; 2]) (fun l => replicate 32 7) sample_tx =
  Ok {| transaction := sample_tx; sender := replicate 20 7; signature_valid := true |}.
Proof.
  destruct (verify_transaction_exact (K := toy_k256 [4; 1; 2]) (fun l => replicate 32 7) sample_tx
    (fun _ (m : nat) => (S m, true)) 0%nat) as [(_ & E & _)|(_ & E & _)].
  - reflexivity.
  - apply (bool_decide_unpack _). by vm_compute.
  - exact E.
  - exfalso. vm_compute in E. discriminate.
Defined.

(** *** What a signature covers *)

(** The preimage leaves an absent recipient out without a marker, so the
    signature of every transaction to a recipient is also one of a transaction
    that creates a contract. *)
Definition as_creation (tx : Transaction) (to : list u8) : Transaction := {|
  rt_from := rt_from tx; rt_to := None;
  rt_value := from_le_bytes (take 8 to); rt_nonce := from_le_bytes (take 8 (drop 8 to));
  rt_data := drop 16 to ++ le_bytes 8 (rt_value tx) ++ le_bytes 8 (rt_nonce tx) ++ rt_data tx;
  rt_signature := rt_signature tx
|}.

Lemma take8_bytes l : (8 <= length l)%nat -> Forall (in_width 8) l ->
  le_bytes 8 (from_le_bytes (take 8 l)) = take 8 l.
Proof.
  intros Hl Hb. rewrite <-(le_bytes_from (take 8 l)) at 2 by (by apply Forall_take).
  by rewrite length_take_le.
Qed.

(** The signature of every transaction that has a recipient is as
    good for another transaction of the same sender: the contract creation whose
    value, nonce and data are spelled by the recipient's key.  The verification
    accepts both or neither. *)
Theorem signature_covers_creation `{K : K256} keccak256 tx to :
  rt_to tx = Some to -> length to = 32%nat -> Forall (in_width 8) to ->
  let tx' := as_creation tx to in
  rt_to tx' = None /\
  compute_transaction_hash keccak256 tx' = compute_transaction_hash keccak256 tx /\
  is_ok (verify_transaction keccak256 tx') = is_ok (verify_transaction keccak256 tx).
Proof.
  intros Hto Hl Hb. cbn zeta.
  assert (E : compute_transaction_hash keccak256 (as_creation tx to)
    = compute_transaction_hash keccak256 tx).
  { unfold compute_transaction_hash, transaction_preimage, as_creation. f_equal. cbn [rt_from
      rt_to rt_value rt_nonce rt_data]. rewrite Hto. cbn [default from_option]. unfold id.
    f_equal. cbn [app]. rewrite (take8_bytes to) by (done || lia).
    rewrite (take8_bytes (drop 8 to)) by (rewrite ?length_drop; lia || by apply Forall_drop).
    assert (Et : to = take 8 to ++ take 8 (drop 8 to) ++ drop 16 to).
    { rewrite <-(take_drop 8 to) at 1. f_equal. rewrite <-(take_drop 8 (drop 8 to)) at 1.
      by rewrite drop_drop. }
    transitivity ((take 8 to ++ take 8 (drop 8 to) ++ drop 16 to) ++
      le_bytes 8 (rt_value tx) ++ le_bytes 8 (rt_nonce tx) ++ rt_data tx);
      [by rewrite <-!app_assoc|by rewrite <-Et]. }
  split_and!; [done|exact E|].
  unfold verify_transaction. rewrite E.
  change (extract_rs_from_signature (as_creation tx to)) with (extract_rs_from_signature tx).
  change (rt_from (as_creation tx to)) with (rt_from tx).
  destruct (extract_rs_from_signature tx) as [rs| |]; cbn [rbind]; [|done..].
  cbn [try_recovery_ids]. by repeat destruct (valid _).
Qed.

Lemma signature_covers_creation_witness :
  is_ok (verify_transaction (K := toy_k256 [4; 1; 2]) (fun l => replicate 32 7)
    (as_creation sample_tx (replicate 32 2))) = true.
Proof.
  refine (eq_trans (proj2 (proj2 (signature_covers_creation (K := toy_k256 [4; 1; 2])
    (fun l => replicate 32 7) sample_tx (replicate 32 2) _ _ _))) _).
  - reflexivity.
  - reflexivity.
  - apply (bool_decide_unpack _). by vm_compute.
  - by vm_compute.
Defined.

(** Every 32 bytes that are not the abscissa of a point still have an address,
    the hash of the bytes. *)
Lemma undecodable_key_has_address `{K : K256} keccak256 pk : decompress (2 :: pk) = None ->
  derive_address_from_pubkey keccak256 pk = drop 12 (keccak256 pk).
Proof. intros E. unfold derive_address_from_pubkey. by rewrite E. Qed.

(** ** The message handler *)

Module Ipc.

Definition SUBSYSTEM_ID : u8 := 10.
Definition MAX_BATCH_SIZE : usize := 1000.

Inductive IpcError :=
| UnauthorizedSender (sender_id : u8)
| ForbiddenSender (sender_id : u8)
| RateLimitExceeded (sender_id : u8) (current limit : u64)
| UnsupportedVersion (version : Z)
| TimestampOutOfRange (timestamp : u64)
| RecipientMismatch (recipient_id expected : u8)
| SignatureFailed (e : SignatureError)
| BatchTooLarge (size max : usize).

Record RateLimits := {
  peer_discovery : u64;
  internal : u64;
  consensus_critical : u64
}.

Definition limits_default : RateLimits := {|
  peer_discovery := 100; internal := 1000; consensus_critical := 2 ^ 64 - 1
|}.

(** Counters: how many requests, and since when (milliseconds). *)
Record RateLimiter := {
  limits : RateLimits;
  counters : gmap u8 (u64 * Timestamp)
}.

Definition limiter_new (limits : RateLimits) : RateLimiter := {|
  limits := limits; counters := ∅
|}.

Definition get_limit (l : RateLimits) (sender_id : u8) : u64 :=
  if sender_id =? 1 then peer_discovery l
  else if (sender_id =? 5) || (sender_id =? 6) then internal l
  else if (sender_id =? 8) || (sender_id =? 9) then consensus_critical l
  else 0.

Definition check (now : Timestamp) (sender_id : u8) (rl : RateLimiter)
  : RateLimiter * result IpcError unit :=
  let limit := get_limit (limits rl) sender_id in
  if limit =? 2 ^ 64 - 1 then (rl, Ok tt)
  else
    let entry := default (0, now) (counters rl !! sender_id) in
    let entry := if 1000 <=? saturating_sub now entry.2 then (0, now) else entry in
    let current := entry.1 in
    let rl := {| limits := limits rl;
                 counters := <[sender_id := (wrapping_add 64 current 1, entry.2)]> (counters rl) |} in
    (rl, if limit <=? current then Err (RateLimitExceeded sender_id current limit) else Ok tt).

Definition is_authorized (sender_id : u8) : bool :=
  (sender_id =? 1) || (sender_id =? 5) || (sender_id =? 6) || (sender_id =? 8) || (sender_id =? 9).

Definition is_forbidden (sender_id : u8) : bool :=
  (sender_id =? 2) || (sender_id =? 3) || (sender_id =? 4) || (sender_id =? 7) ||
  (sender_id =? 11) || (sender_id =? 12) || (sender_id =? 13) || (sender_id =? 14) ||
  (sender_id =? 15).

Definition check_authorized_sender (sender_id : u8) : result IpcError unit :=
  if is_forbidden sender_id then Err (ForbiddenSender sender_id)
  else if negb (is_authorized sender_id) then Err (UnauthorizedSender sender_id)
  else Ok tt.

Definition check_node_identity_authorized (sender_id : u8) : result IpcError unit :=
  if negb (sender_id =? 1) then Err (UnauthorizedSender sender_id) else Ok tt.

Definition check_batch_verify_authorized (sender_id : u8) : result IpcError unit :=
  if negb (sender_id =? 8) then Err (UnauthorizedSender sender_id) else Ok tt.

Definition validate_envelope (now_secs : u64) (msg : AuthenticatedMessage) : result IpcError unit :=
  if negb (am_version msg =? CURRENT_VERSION) then Err (UnsupportedVersion (am_version msg))
  else if negb (am_recipient_id msg =? SUBSYSTEM_ID)
  then Err (RecipientMismatch (am_recipient_id msg) SUBSYSTEM_ID)
  else if (wrapping_add 64 (am_timestamp msg) MAX_AGE <? now_secs) ||
          (wrapping_add 64 now_secs MAX_FUTURE_SKEW <? am_timestamp msg)
  then Err (TimestampOutOfRange (am_timestamp msg))
  else Ok tt.

Record VerifySignatureRequestPayload := {
  vs_public_key : list u8;
  vs_message : list u8;
  vs_signature : list u8
}.

Record VerifyNodeIdentityPayload := {
  ni_node_id : list u8;
  ni_public_key : list u8;
  ni_signature : list u8
}.

Section Handler.
Context `{K : K256} (keccak256 : list u8 -> list u8).

Definition compute_message_hash (message : list u8) : list u8 := keccak256 message.

(** The service is asked with the recovery identifier 27, then 28. *)
Definition either_id (verify : EcdsaSignature -> VerificationResult) (signature : list u8)
  : VerificationResult :=
  let r := take 32 signature in
  let s := drop 32 signature in
  let result := verify {| r := r; s := s; v := 27 |} in
  if valid result then result else verify {| r := r; s := s; v := 28 |}.

(** The answer is the field [valid] of the response. *)
Definition handle_verify_signature (now_secs : u64) (now : Timestamp) (msg : AuthenticatedMessage)
  (payload : VerifySignatureRequestPayload) (rl : RateLimiter)
  : RateLimiter * result IpcError bool :=
  let? (rl, u) := (rl, validate_envelope now_secs msg) in
  let? (rl, u) := (rl, check_authorized_sender (am_sender_id msg)) in
  let? (rl, u) := check now (am_sender_id msg) rl in
  let message_hash := compute_message_hash (vs_message payload) in
  (rl, Ok (valid (either_id (verify_ecdsa keccak256 message_hash) (vs_signature payload)))).

Definition handle_verify_node_identity (now_secs : u64) (now : Timestamp)
  (msg : AuthenticatedMessage) (payload : VerifyNodeIdentityPayload) (rl : RateLimiter)
  : RateLimiter * result IpcError bool :=
  let? (rl, u) := (rl, validate_envelope now_secs msg) in
  let? (rl, u) := (rl, check_node_identity_authorized (am_sender_id msg)) in
  let? (rl, u) := check now (am_sender_id msg) rl in
  match derive_address keccak256 (ni_public_key payload) with
  | Ok expected_address =>
      (rl, Ok (valid (either_id (fun sig =>
        verify_ecdsa_signer keccak256 (ni_node_id payload) sig expected_address)
        (ni_signature payload))))
  | Err e => (rl, Err (SignatureFailed e))
  | Panic => (rl, Panic)
  end.

Definition handle_batch_verify (sender_id : u8) (requests : list VerificationRequest)
  : result IpcError BatchVerificationResult :=
  let? u := check_batch_verify_authorized sender_id in
  if MAX_BATCH_SIZE <? Z.of_nat (length requests)
  then Err (BatchTooLarge (Z.of_nat (length requests)) MAX_BATCH_SIZE)
  else Ok (batch_verify_ecdsa keccak256 requests).

(** *** What an answer means *)

Lemma either_id_valid verify signature :
  valid (either_id verify signature) = true <->
  exists v, (v = 27 \/ v = 28) /\
    valid (verify {| r := take 32 signature; s := drop 32 signature; v := v |}) = true.
Proof.
  unfold either_id. cbn zeta. destruct (valid (verify _)) eqn:E; [naive_solver|].
  split; [eauto|]. intros (v & [->| ->] & Hv); congruence.
Qed.

Lemma halves_scalars signature : length signature = 64%nat -> Forall (in_width 8) signature ->
  scalar_bytes (take 32 signature) /\ scalar_bytes (drop 32 signature).
Proof.
  intros Hl Hb. split; (split; [|by apply Forall_take || apply Forall_drop]).
  - rewrite length_take. lia.
  - rewrite length_drop. lia.
Qed.

(** A positive answer about a node's identity means that the
    request came from peer discovery in an envelope for this subsystem and in
    time, within its rate, and that one of the two recovery identifiers gives,
    for the node identifier and a well-formed signature, the address derived
    from the claimed key. *)
Theorem node_identity_sound now_secs now msg payload rl rl' :
  length (ni_signature payload) = 64%nat -> Forall (in_width 8) (ni_signature payload) ->
  handle_verify_node_identity now_secs now msg payload rl = (rl', Ok true) ->
  am_sender_id msg = 1 /\ am_recipient_id msg = SUBSYSTEM_ID /\
  am_version msg = CURRENT_VERSION /\
  check now 1 rl = (rl', Ok tt) /\
  well_formed (take 32 (ni_signature payload)) (drop 32 (ni_signature payload)) /\
  exists a v, derive_address keccak256 (ni_public_key payload) = Ok a /\ (v = 27 \/ v = 28) /\
    recover_address keccak256 (ni_node_id payload)
      {| r := take 32 (ni_signature payload); s := drop 32 (ni_signature payload); v := v |} = Ok a.
Proof.
  intros Hl Hb. destruct (halves_scalars _ Hl Hb) as [Hr Hs].
  unfold handle_verify_node_identity, validate_envelope, check_node_identity_authorized.
  destruct (Z.eqb_spec (am_version msg) CURRENT_VERSION) as [Ev|]; [|done].
  destruct (Z.eqb_spec (am_recipient_id msg) SUBSYSTEM_ID) as [Er|]; [|done].
  destruct (_ || _); [done|]. cbn [negb sbind].
  destruct (Z.eqb_spec (am_sender_id msg) 1) as [Es|]; [|done]. cbn [negb sbind]. rewrite Es.
  destruct (check now 1 rl) as [rl1 [[]|e|]] eqn:Ec; cbn [sbind]; [|done..].
  destruct (derive_address keccak256 (ni_public_key payload)) as [a|e|] eqn:Ed; [|done..].
  intros [= <- Hv]. apply either_id_valid in Hv as (v & Hv & Hval).
  apply verify_signer_true in Hval as [Hw Hrec]; [|done..]. split_and!; eauto 10.
Qed.

(** The answer to a request to verify a signature does not depend
    on the public key in it: it is positive exactly when the signature is well
    formed and some key, whichever it is, can be recovered from it. *)
Theorem verify_signature_ignores_key now_secs now msg payload rl :
  length (vs_signature payload) = 64%nat -> Forall (in_width 8) (vs_signature payload) ->
  (forall pk, handle_verify_signature now_secs now msg
     {| vs_public_key := pk; vs_message := vs_message payload;
        vs_signature := vs_signature payload |} rl
   = handle_verify_signature now_secs now msg payload rl) /\
  forall rl' b, handle_verify_signature now_secs now msg payload rl = (rl', Ok b) ->
    (b = true <-> well_formed (take 32 (vs_signature payload)) (drop 32 (vs_signature payload)) /\
      exists v a, (v = 27 \/ v = 28) /\
        recover_address keccak256 (keccak256 (vs_message payload))
        {| r := take 32 (vs_signature payload); s := drop 32 (vs_signature payload); v := v |} = Ok a).
Proof.
  intros Hl Hb. destruct (halves_scalars _ Hl Hb) as [Hr Hs]. split; [done|]. intros rl' b.
  unfold handle_verify_signature.
  destruct (validate_envelope now_secs msg) as [[]| |]; cbn [sbind]; [|done..].
  destruct (check_authorized_sender (am_sender_id msg)) as [[]| |]; cbn [sbind]; [|done..].
  destruct (check now (am_sender_id msg) rl) as [rl1 [[]|e|]]; cbn [sbind]; [|done..].
  intros [= <- <-]. rewrite either_id_valid. unfold compute_message_hash. split.
  - intros (v & Hv & Hval).
    destruct (verify_ecdsa_cases keccak256 (keccak256 (vs_message payload))
      {| r := take 32 (vs_signature payload); s := drop 32 (vs_signature payload); v := v |} Hr Hs)
      as [(a & Hw & Hrec & _)|(_ & e & E)]; [eauto 10|]. rewrite E in Hval. done.
  - intros (Hw & v & a & Hv & Hrec). exists v. split; [done|].
    destruct (verify_ecdsa_cases keccak256 (keccak256 (vs_message payload))
      {| r := take 32 (vs_signature payload); s := drop 32 (vs_signature payload); v := v |} Hr Hs)
      as [(a' & _ & _ & ->)|(Hno & _)]; [done|]. by destruct (Hno a Hw).
Qed.

(** A batch is answered request by request, in order, and its counts add up. *)
Lemma batch_verify_exact sender_id requests b :
  handle_batch_verify sender_id requests = Ok b ->
  sender_id = 8 /\ (length requests <= 1000)%nat /\
  results b = map (verify_single_request keccak256) requests /\
  valid_count b + invalid_count b = Z.of_nat (length requests) /\
  (all_valid b = true <-> Forall (fun r => valid (verify_single_request keccak256 r) = true) requests).
Proof.
  unfold handle_batch_verify, check_batch_verify_authorized, MAX_BATCH_SIZE.
  destruct (Z.eqb_spec sender_id 8) as [->|]; [|done]. cbn [negb rbind].
  destruct (Z.ltb_spec 1000 (Z.of_nat (length requests))) as [|Hle]; [done|]. intros [= <-].
  cbn [results valid_count invalid_count all_valid batch_verify_ecdsa from_results].
  rewrite length_map. split_and!; [done|lia|done|lia|].
  rewrite Z.eqb_eq, <-(length_map (verify_single_request keccak256) requests).
  assert (H : forall l : list VerificationResult,
    (length (List.filter valid l) <= length l)%nat /\
    (length (List.filter valid l) = length l <-> Forall (fun r => valid r = true) l)).
  { clear. induction l as [|x l [IH1 IH2]]; [done|]. cbn. rewrite Forall_cons.
    destruct (valid x); cbn; [split; [lia|]; rewrite <-IH2; intuition lia|].
    split; [lia|]. split; [lia|]. intros [? _]. done. }
  destruct (H (map (verify_single_request keccak256) requests)) as [H1 H2].
  rewrite List.Forall_map in H2. rewrite <-H2. lia.
Qed.

End Handler.

(** *** The rate limiter *)

(** How many of the requests of [sender] pass, among requests of anyone at the
    given times. *)
Fixpoint passed (sender : u8) (calls : list (Timestamp * u8)) (rl : RateLimiter) : Z :=
  match calls with
  | [] => 0
  | (now, from) :: calls =>
      let '(rl, res) := check now from rl in
      (if (from =? sender) && is_ok res then 1 else 0) + passed sender calls rl
  end.

Definition entry_count (rl : RateLimiter) (sender : u8) : Z :=
  match counters rl !! sender with Some e => e.1 | None => 0 end.

Lemma rate_check_other now from sender rl : from <> sender ->
  limits (check now from rl).1 = limits rl /\
  counters (check now from rl).1 !! sender = counters rl !! sender.
Proof.
  intros Hne. unfold check. cbn zeta. case_match; [done|]. cbn [fst limits counters].
  by rewrite lookup_insert_ne.
Qed.

(** Once the entry of [sender] is from [t0], requests before [t0 + 1000] do not
    start a new window. *)
Lemma passed_in_window sender calls : forall rl c t0,
  let limit := get_limit (limits rl) sender in
  0 <= limit -> limit <> 2 ^ 64 - 1 -> counters rl !! sender = Some (c, t0) -> 0 <= c ->
  c + Z.of_nat (length calls) < 2 ^ 64 -> Forall (fun x => x.1 < t0 + 1000) calls ->
  passed sender calls rl <= Z.max 0 (limit - c).
Proof.
  induction calls as [|[now from] calls IH]; intros rl c t0 limit Hl Hm He Hc Hb Ht; cbn [passed].
  { lia. }
  apply Forall_cons in Ht as [Hnow Ht]. cbn in Hnow, Hb.
  destruct (decide (from = sender)) as [->|Hne].
  - unfold check. fold limit. rewrite (proj2 (Z.eqb_neq _ _)) by done. rewrite He.
    cbn [default from_option fst snd]. unfold id. cbn [fst snd].
    rewrite (proj2 (Z.leb_gt 1000 _)) by (unfold saturating_sub; lia). cbn [fst snd].
    rewrite wrapping_add_small by lia.
    match goal with |- _ + passed sender calls ?r <= _ => pose proof (IH r (c + 1) t0) as IHr end.
    cbn [limits counters] in IHr. rewrite lookup_insert_eq in IHr. fold limit in IHr.
    rewrite Z.eqb_refl. cbn [andb].
    destruct (Z.leb_spec limit c); cbn [is_ok]; specialize (IHr Hl Hm eq_refl ltac:(lia) ltac:(lia) Ht); lia.
  - destruct (rate_check_other now from sender rl Hne) as [E1 E2].
    destruct (check now from rl) as [rl1 res]. cbn [fst] in E1, E2.
    rewrite (proj2 (Z.eqb_neq _ _)) by done. cbn [andb].
    pose proof (IH rl1 c t0) as IHr. rewrite E1, E2 in IHr. fold limit in IHr.
    specialize (IHr Hl Hm He Hc ltac:(lia) Ht). lia.
Qed.

Lemma passed_twice sender T calls : forall rl,
  let limit := get_limit (limits rl) sender in
  0 <= limit -> limit <> 2 ^ 64 - 1 -> 0 <= entry_count rl sender ->
  entry_count rl sender + Z.of_nat (length calls) < 2 ^ 64 ->
  Forall (fun x => T <= x.1 < T + 1000) calls ->
  passed sender calls rl <= Z.max 0 (limit - entry_count rl sender) + limit.
Proof.
  induction calls as [|[now from] calls IH]; intros rl limit Hl Hm Hc Hb Ht.
  { cbn. lia. }
  pose proof Ht as Ht'. apply Forall_cons in Ht' as [Hnow Ht']. cbn in Hnow, Hb.
  destruct (decide (from = sender)) as [->|Hne].
  - cbn [passed]. unfold check. fold limit. rewrite (proj2 (Z.eqb_neq _ _)) by done.
    set (e0 := default (0, now) (counters rl !! sender)).
    assert (He0 : e0.1 = entry_count rl sender).
    { subst e0. unfold entry_count. by destruct (counters rl !! sender). }
    set (e := if 1000 <=? saturating_sub now e0.2 then (0, now) else e0). cbn zeta.
    assert (He : (e.1 = 0 /\ e.2 = now) \/ e = e0).
    { subst e. case_match; auto. }
    rewrite Z.eqb_refl. cbn [andb].
    match goal with |- _ + passed sender calls ?r <= _ =>
      pose proof (IH r) as IHr; pose proof (passed_in_window sender calls r (e.1 + 1) e.2) as Hw end.
    unfold entry_count in IHr at 1 2 3. cbn [limits counters] in IHr, Hw.
    rewrite lookup_insert_eq in IHr, Hw. cbn [fst] in IHr. fold limit in IHr, Hw.
    rewrite wrapping_add_small in * by (destruct He as [[-> _]| ->]; lia).
    destruct He as [[E1 E2]|E].
    + rewrite E1, E2 in *. specialize (Hw Hl Hm eq_refl ltac:(lia)).
      assert (Hall : Forall (fun x => x.1 < now + 1000) calls).
      { eapply Forall_impl; [exact Ht'|]. intros x Hx. cbn in Hx. lia. }
      specialize (Hw ltac:(lia) Hall).
      destruct (Z.leb_spec limit 0); cbn [is_ok]; lia.
    + rewrite E, He0 in *. specialize (IHr Hl Hm ltac:(lia) ltac:(lia) Ht').
      destruct (Z.leb_spec limit (entry_count rl sender)); cbn [is_ok]; lia.
  - cbn [passed]. destruct (rate_check_other now from sender rl Hne) as [E1 E2].
    destruct (check now from rl) as [rl1 res]. cbn [fst] in E1, E2.
    rewrite (proj2 (Z.eqb_neq _ _)) by done. cbn [andb].
    pose proof (IH rl1) as IHr. unfold entry_count in IHr, Hc, Hb |- *. rewrite E1, E2 in IHr.
    fold limit in IHr. specialize (IHr Hl Hm Hc ltac:(lia) Ht'). lia.
Qed.

(** In any second, whatever requests of other subsystems come in
    between, at most twice the limit of a limited subsystem's requests pass,
    and a subsystem that has no limit of its own passes none. *)
Theorem rate_limit_bounded lim sender T before calls :
  let limit := get_limit lim sender in
  0 <= limit -> limit <> 2 ^ 64 - 1 ->
  Z.of_nat (length before) + Z.of_nat (length calls) < 2 ^ 64 ->
  Forall (fun x => T <= x.1 < T + 1000) calls ->
  passed sender calls (foldl (fun rl x => (check x.1 x.2 rl).1) (limiter_new lim) before)
  <= 2 * limit.
Proof.
  intros limit Hl Hm Hb Ht.
  assert (H : forall before rl k, limits rl = lim -> 0 <= entry_count rl sender <= k ->
    k + Z.of_nat (length before) < 2 ^ 64 ->
    let rl' := foldl (fun rl x => (check x.1 x.2 rl).1) rl before in
    limits rl' = lim /\ 0 <= entry_count rl' sender <= k + Z.of_nat (length before)).
  { clear. induction before as [|[now from] before IH]; intros rl k E Hk Hb; cbn [foldl length].
    - split; [done|lia].
    - cbn [length] in Hb.
      replace (k + Z.of_nat (S (length before))) with (k + 1 + Z.of_nat (length before)) by lia.
      apply IH; [| |lia].
      + unfold check. cbn zeta. by case_match.
      + cbn [fst snd]. destruct (decide (from = sender)) as [->|Hne].
        * unfold check. cbn zeta. case_match; [cbn [fst]; lia|]. unfold entry_count in *.
          cbn [fst counters]. rewrite lookup_insert_eq. cbn [fst].
          destruct (counters rl !! sender) as [[c t]|]; cbn [default from_option fst snd];
            unfold id; cbn [fst snd] in *; case_match; cbn [fst]; rewrite wrapping_add_small by lia; lia.
        * unfold entry_count. rewrite (proj2 (rate_check_other now from sender rl Hne)).
          unfold entry_count in Hk. lia. }
  destruct (H before (limiter_new lim) 0) as [E1 E2]; [done|unfold entry_count; cbn [counters limiter_new]; rewrite lookup_empty; lia|lia|]. cbn zeta in E1, E2.
  pose proof (passed_twice sender T calls
    (foldl (fun rl x => (check x.1 x.2 rl).1) (limiter_new lim) before)) as Hp.
  rewrite E1 in Hp. fold limit in Hp. specialize (Hp Hl Hm ltac:(lia) ltac:(lia) Ht). lia.
Qed.

Lemma rate_limit_bounded_witness :
  passed 1 [(500, 1); (700, 1)] (foldl (fun rl x => (check x.1 x.2 rl).1)
    (limiter_new limits_default) [(0, 1); (1, 6)]) <= 200.
Proof.
  refine (rate_limit_bounded limits_default 1 0 [(0, 1); (1, 6)] [(500, 1); (700, 1)] _ _ _ _).
  - by vm_compute.
  - by vm_compute.
  - by vm_compute.
  - repeat (apply Forall_cons_2; [cbn; lia|]). apply Forall_nil_2.
Defined.

(** The bound is reached: the limit at the end of one window and again at the
    start of the next. *)
Example window_edge_doubles :
  passed 1 [(999, 1); (999, 1); (1000, 1); (1000, 1)]
    (check 0 1 (limiter_new {| peer_discovery := 3; internal := 0; consensus_critical := 0 |})).1 = 4.
Proof. by vm_compute. Qed.

Definition sample_message : AuthenticatedMessage := {|
  am_version := 1; am_sender_id := 1; am_recipient_id := 10; am_correlation_id := 0;
  am_reply_to := None; am_timestamp := 1000; am_nonce := 4; am_signature := []
|}.

Lemma node_identity_sound_witness :
  check 0 1 (limiter_new limits_default) =
    ((handle_verify_node_identity (K := toy_k256 [4; 1; 2]) (fun l => replicate 32 7) 1000 0
      sample_message {| ni_node_id := [1]; ni_public_key := replicate 32 1;
        ni_signature := sample_r ++ sample_s |} (limiter_new limits_default)).1, Ok tt).
Proof.
  refine (proj1 (proj2 (proj2 (proj2 (node_identity_sound (K := toy_k256 [4; 1; 2])
    (fun l => replicate 32 7) 1000 0 sample_message
    {| ni_node_id := [1]; ni_public_key := replicate 32 1; ni_signature := sample_r ++ sample_s |}
    (limiter_new limits_default) _ _ _ _))))).
  - reflexivity.
  - apply (bool_decide_unpack _). by vm_compute.
  - by vm_compute.
Defined.

Lemma verify_signature_ignores_key_witness :
  handle_verify_signature (K := toy_k256 [4; 1; 2]) (fun l => replicate 32 7) 1000 0
    sample_message {| vs_public_key := replicate 32 9; vs_message := [1; 2];
      vs_signature := sample_r ++ sample_s |} (limiter_new limits_default) =
  handle_verify_signature (K := toy_k256 [4; 1; 2]) (fun l => replicate 32 7) 1000 0
    sample_message {| vs_public_key := replicate 32 1; vs_message := [1; 2];
      vs_signature := sample_r ++ sample_s |} (limiter_new limits_default).
Proof.
  refine (proj1 (verify_signature_ignores_key (K := toy_k256 [4; 1; 2]) (fun l => replicate 32 7)
    1000 0 sample_message {| vs_public_key := replicate 32 1; vs_message := [1; 2];
      vs_signature := sample_r ++ sample_s |} (limiter_new limits_default) _ _) (replicate 32 9)).
  - reflexivity.
  - apply (bool_decide_unpack _). by vm_compute.
Defined.

End Ipc.
