(* ===== verification/MempoolIpc.v ===== *)
(** * Mempool: the message handler

    The handler that puts the pool behind messages between subsystems
    ([qc-06-mempool/src/ipc/handler.rs], [security.rs], [payloads.rs]): who may
    send what, the checks of time, signature and nonce, and the calls of the
    pool, which is the one of [Mempool].  The nonce cache, the keys and the
    HMAC are those of [Messages].

    The two readings of the time source in a call are the arguments [now] and
    [now'], in milliseconds as the source documents; [instant] is the
    monotonic clock of the nonce cache, in seconds.  Correlation identifiers
    are copied into the responses and left out; the text of an error in a
    response is the error itself. *)

From S2P Require Import Prelude SharedTypes Mempool MempoolInv MempoolBlock MempoolProps Messages.
Import TransactionPool.

Local Open Scope Z_scope.
Local Open Scope qc_scope.

Inductive HandlerError :=
| UnauthorizedSender (sender_id : u8) (allowed : list u8)
| TimestampTooFuture (timestamp now : u64)
| TimestampTooOld (timestamp now : u64)
| InvalidSignature
| ReplayDetected (nonce : u64)
| SignatureNotVerified.

Record IpcSecurityContext := {
  sender_id : u8;
  timestamp : u64;
  nonce : Uuid;
  signature : list u8;
  message_bytes : list u8
}.

Record IpcHandler := {
  pool : TransactionPool;
  nonce_cache : NonceCache;
  master_secret : list u8
}.

Definition with_master_secret (p : TransactionPool) (secret : list u8) : IpcHandler := {|
  pool := p; nonce_cache := ∅; master_secret := secret
|}.

Definition handler_new (p : TransactionPool) : IpcHandler := with_master_secret p (replicate 32 0).

Definition set_pool (h : IpcHandler) (p : TransactionPool) : IpcHandler := {|
  pool := p; nonce_cache := nonce_cache h; master_secret := master_secret h
|}.

(** ** [security.rs] *)

Definition allow (sender_id : u8) (allowed : list u8) : result HandlerError unit :=
  if negb (bool_decide (sender_id ∈ allowed)) then Err (UnauthorizedSender sender_id allowed)
  else Ok tt.

Definition validate_add_transaction (sender_id : u8) := allow sender_id [10].
Definition validate_get_transactions (sender_id : u8) := allow sender_id [8].
Definition validate_remove_transactions (sender_id : u8) := allow sender_id [8].
Definition validate_storage_confirmation (sender_id : u8) := allow sender_id [2].
Definition validate_block_rejected (sender_id : u8) := allow sender_id [2; 8].

(** ** [payloads.rs] *)

Record AddTransactionRequest := {
  ar_transaction : SignedTransaction;
  ar_signature_verified : bool
}.

Record AddTransactionResponse := {
  accepted : bool;
  tx_hash : option Hash;
  error : option MempoolError
}.

Record GetTransactionsRequest := {
  max_count : Z;
  max_gas : u64;
  target_block_height : u64
}.

Record GetTransactionsResponse := {
  tx_hashes : list Hash;
  total_gas : u64
}.

Record RemoveTransactionsResponse := {
  removed_count : usize;
  removed : list Hash
}.

Record MempoolStatusPayload := {
  sp_pending_count : Z;
  sp_pending_inclusion_count : Z;
  sp_total_gas : u64;
  sp_memory_bytes : u64
}.

(** The counts are cut to 32 bits. *)
Definition status_payload (s : MempoolStatus) : MempoolStatusPayload := {|
  sp_pending_count := ms_pending_count s mod 2 ^ 32;
  sp_pending_inclusion_count := ms_pending_inclusion_count s mod 2 ^ 32;
  sp_total_gas := ms_total_gas s; sp_memory_bytes := ms_memory_bytes s
|}.

(** ** [handler.rs] *)

Section handler.
Context `{U : U256Ops} (sha256 : list u8 -> Hash) (hmac : list u8 -> list u8 -> Hash).

Definition handler_timestamp (msg_timestamp now : u64) : result HandlerError unit :=
  if wrapping_add 64 now MAX_FUTURE_SKEW <? msg_timestamp then
    Err (TimestampTooFuture msg_timestamp now)
  else if (msg_timestamp <? now) && (MAX_AGE <? now - msg_timestamp) then
    Err (TimestampTooOld msg_timestamp now)
  else Ok tt.

Definition validate_security (now : u64) (instant : Z) (ctx : IpcSecurityContext) (h : IpcHandler)
  : IpcHandler * result HandlerError unit :=
  let? (h, u) := (h, handler_timestamp (timestamp ctx) now) in
  match get_shared_secret hmac (master_secret h) (sender_id ctx) with
  | None => (h, Err InvalidSignature)
  | Some shared_secret =>
      if negb (validate_hmac_signature hmac (message_bytes ctx) (signature ctx) shared_secret)
      then (h, Err InvalidSignature)
      else
        let (cache, fresh) := check_and_insert instant (nonce ctx) (nonce_cache h) in
        let h := {| pool := pool h; nonce_cache := cache; master_secret := master_secret h |} in
        if negb fresh then (h, Err (ReplayDetected (nonce ctx mod 2 ^ 64))) else (h, Ok tt)
  end.

Definition handle_add_transaction (now now' : u64) (instant : Z) (ctx : IpcSecurityContext)
  (request : AddTransactionRequest) (h : IpcHandler)
  : IpcHandler * result HandlerError AddTransactionResponse :=
  let? (h, u) := (h, validate_add_transaction (sender_id ctx)) in
  let? (h, u) := validate_security now instant ctx h in
  if negb (ar_signature_verified request) then (h, Err SignatureNotVerified)
  else
    let tx := mempool_transaction_new sha256 (ar_transaction request) now' in
    let '(p, res) := add tx (pool h) in
    (set_pool h p, match res with
      | Ok _ => Ok {| accepted := true; tx_hash := Some (mt_hash tx); error := None |}
      | Err e => Ok {| accepted := false; tx_hash := None; error := Some e |}
      | Panic => Panic
      end).

Definition handle_get_transactions (now now' : u64) (instant : Z) (ctx : IpcSecurityContext)
  (request : GetTransactionsRequest) (h : IpcHandler)
  : IpcHandler * result HandlerError GetTransactionsResponse :=
  let? (h, u) := (h, validate_get_transactions (sender_id ctx)) in
  let? (h, u) := validate_security now instant ctx h in
  let txs := get_for_block (pool h) (max_count request) (max_gas request) in
  let hashes := mt_hash <$> txs in
  let gas := foldl (fun acc tx => wrapping_add 64 acc (mt_gas_limit tx)) 0 txs in
  let '(p, _) := propose hashes (target_block_height request) now' (pool h) in
  (set_pool h p, Ok {| tx_hashes := hashes; total_gas := gas |}).

Definition handle_storage_confirmation (now : u64) (instant : Z) (ctx : IpcSecurityContext)
  (included_transactions : list Hash) (h : IpcHandler)
  : IpcHandler * result HandlerError (list Hash) :=
  let? (h, u) := (h, validate_storage_confirmation (sender_id ctx)) in
  let? (h, u) := validate_security now instant ctx h in
  let '(p, confirmed) := confirm included_transactions (pool h) in
  (set_pool h p, Ok confirmed).

Definition handle_block_rejected (now : u64) (instant : Z) (ctx : IpcSecurityContext)
  (affected_transactions : list Hash) (h : IpcHandler)
  : IpcHandler * result HandlerError (list Hash) :=
  let? (h, u) := (h, validate_block_rejected (sender_id ctx)) in
  let? (h, u) := validate_security now instant ctx h in
  let '(p, rolled_back) := rollback affected_transactions (pool h) in
  (set_pool h p, Ok rolled_back).

Definition remove_step (s : TransactionPool * list Hash) (hash : Hash)
  : TransactionPool * list Hash :=
  match remove hash s.1 with
  | (p, Ok _) => (p, s.2 ++ [hash])
  | (p, _) => (p, s.2)
  end.

Definition handle_remove_transactions (now : u64) (instant : Z) (ctx : IpcSecurityContext)
  (hashes : list Hash) (h : IpcHandler)
  : IpcHandler * result HandlerError RemoveTransactionsResponse :=
  let? (h, u) := (h, validate_remove_transactions (sender_id ctx)) in
  let? (h, u) := validate_security now instant ctx h in
  let '(p, removed) := foldl remove_step (pool h, []) hashes in
  (set_pool h p, Ok {| removed_count := Z.of_nat (length removed); removed := removed |}).

Definition handle_get_status (size_of_tx : usize) (now : u64) (h : IpcHandler)
  : MempoolStatusPayload := status_payload (status size_of_tx (pool h) now).

Definition handler_cleanup_timeouts (now : u64) (h : IpcHandler) : IpcHandler * list Hash :=
  let '(p, hashes) := cleanup_timeouts now (pool h) in (set_pool h p, hashes).

(** ** Messages as steps *)

Inductive request :=
| AddTransaction (r : AddTransactionRequest)
| GetTransactions (r : GetTransactionsRequest)
| StorageConfirmation (included : list Hash)
| BlockRejected (affected : list Hash)
| RemoveTransactions (hashes : list Hash).

Definition allowed_senders (r : request) : list u8 :=
  match r with
  | AddTransaction _ => [10]
  | GetTransactions _ | RemoveTransactions _ => [8]
  | StorageConfirmation _ => [2]
  | BlockRejected _ => [2; 8]
  end.

(** A message with the clocks it is handled at, or a cleanup. *)
Inductive call :=
| Message (now now' : u64) (instant : Z) (ctx : IpcSecurityContext) (r : request)
| Cleanup (now : u64).

(** The new handler and, unless it panicked, the error. *)
Definition outcome {A} (x : IpcHandler * result HandlerError A)
  : IpcHandler * result HandlerError unit :=
  (x.1, let? a := x.2 in Ok tt).

Definition handle (now now' : u64) (instant : Z) (ctx : IpcSecurityContext) (r : request)
  (h : IpcHandler) : IpcHandler * result HandlerError unit :=
  match r with
  | AddTransaction r => outcome (handle_add_transaction now now' instant ctx r h)
  | GetTransactions r => outcome (handle_get_transactions now now' instant ctx r h)
  | StorageConfirmation l => outcome (handle_storage_confirmation now instant ctx l h)
  | BlockRejected l => outcome (handle_block_rejected now instant ctx l h)
  | RemoveTransactions l => outcome (handle_remove_transactions now instant ctx l h)
  end.

Definition perform (c : call) (h : IpcHandler) : IpcHandler :=
  match c with
  | Message now now' instant ctx r => (handle now now' instant ctx r h).1
  | Cleanup now => (handler_cleanup_timeouts now h).1
  end.

(** What the pool does once the checks have passed. *)
Definition work (now' : u64) (r : request) (p : TransactionPool) : TransactionPool :=
  match r with
  | AddTransaction r =>
      if ar_signature_verified r
      then (add (mempool_transaction_new sha256 (ar_transaction r) now') p).1 else p
  | GetTransactions r =>
      (propose (mt_hash <$> get_for_block p (max_count r) (max_gas r))
        (target_block_height r) now' p).1
  | StorageConfirmation l => (confirm l p).1
  | BlockRejected l => (rollback l p).1
  | RemoveTransactions l => (foldl remove_step (p, []) l).1
  end.

(** What passes the checks. *)
Definition authentic (now : u64) (instant : Z) (ctx : IpcSecurityContext) (r : request)
  (h : IpcHandler) : Prop :=
  sender_id ctx ∈ allowed_senders r /\ handler_timestamp (timestamp ctx) now = Ok tt /\
  validate_hmac_signature hmac (message_bytes ctx) (signature ctx)
    (derive_key hmac (master_secret h) (sender_id ctx)) = true /\
  (check_and_insert instant (nonce ctx) (nonce_cache h)).2 = true.

Lemma allow_ok s l : allow s l = Ok tt \/ s ∉ l /\ allow s l = Err (UnauthorizedSender s l).
Proof. unfold allow. destruct (bool_decide (s ∈ l)) eqn:E; bools; auto. Qed.

Lemma allow_in s l : allow s l = Ok tt -> s ∈ l.
Proof. unfold allow. destruct (bool_decide (s ∈ l)) eqn:E; bools; done. Qed.

(** The security checks pass the authentic messages and leave the pool. *)
Lemma validate_security_cases now instant ctx h :
  let out := validate_security now instant ctx h in
  (out.2 = Ok tt /\ handler_timestamp (timestamp ctx) now = Ok tt /\
   validate_hmac_signature hmac (message_bytes ctx) (signature ctx)
     (derive_key hmac (master_secret h) (sender_id ctx)) = true /\
   (check_and_insert instant (nonce ctx) (nonce_cache h)).2 = true /\
   nonce_cache out.1 = (check_and_insert instant (nonce ctx) (nonce_cache h)).1 /\
   pool out.1 = pool h /\ master_secret out.1 = master_secret h) \/
  (exists e, out.2 = Err e /\ pool out.1 = pool h /\ master_secret out.1 = master_secret h /\
   (nonce_cache out.1 = nonce_cache h \/
    nonce_cache out.1 = (check_and_insert instant (nonce ctx) (nonce_cache h)).1) /\
   (handler_timestamp (timestamp ctx) now <> Ok tt \/
    validate_hmac_signature hmac (message_bytes ctx) (signature ctx)
     (derive_key hmac (master_secret h) (sender_id ctx)) = false \/
    (check_and_insert instant (nonce ctx) (nonce_cache h)).2 = false)).
Proof.
  cbn zeta. unfold validate_security.
  destruct (handler_timestamp (timestamp ctx) now) as [[]|e|] eqn:Et; cbn [sbind fst snd].
  2: { right. exists e. split_and!; auto. }
  2: { unfold handler_timestamp in Et. repeat case_match; done. }
  unfold get_shared_secret.
  destruct (validate_hmac_signature hmac _ _ _) eqn:Es; cbn [negb fst snd].
  2: { right. eexists. split_and!; auto. }
  destruct (check_and_insert instant (nonce ctx) (nonce_cache h)) as [c [|]] eqn:Ec;
    cbn [negb fst snd].
  - left. by split_and!.
  - right. eexists. split_and!; auto.
Qed.

(** A message is either refused, and then the pool is as it was, or does its
    work, and then it was authentic. *)
Lemma handle_cases now now' instant ctx r h :
  (authentic now instant ctx r h /\
   pool (handle now now' instant ctx r h).1 = work now' r (pool h) /\
   nonce_cache (handle now now' instant ctx r h).1 =
     (check_and_insert instant (nonce ctx) (nonce_cache h)).1 /\
   master_secret (handle now now' instant ctx r h).1 = master_secret h) \/
  (~ authentic now instant ctx r h /\
   (exists e, (handle now now' instant ctx r h).2 = Err e) /\
   pool (handle now now' instant ctx r h).1 = pool h /\
   master_secret (handle now now' instant ctx r h).1 = master_secret h /\
   (nonce_cache (handle now now' instant ctx r h).1 = nonce_cache h \/
    nonce_cache (handle now now' instant ctx r h).1 =
      (check_and_insert instant (nonce ctx) (nonce_cache h)).1)).
Proof.
  destruct (allow_ok (sender_id ctx) (allowed_senders r)) as [Ea|[Hn Ea]].
  2: { right. split; [intros (H & _); done|].
       destruct r; cbn [handle allowed_senders] in *;
         unfold outcome, handle_add_transaction, handle_get_transactions,
           handle_storage_confirmation, handle_block_rejected, handle_remove_transactions,
           validate_add_transaction, validate_get_transactions, validate_storage_confirmation,
           validate_block_rejected, validate_remove_transactions;
         rewrite Ea; cbn; split_and!; eauto. }
  pose proof (allow_in _ _ Ea) as Hin.
  destruct (validate_security_cases now instant ctx h)
    as [(E2 & Ht & Hs & Hf & Hc & Hp & Hm)|(e & E2 & Hp & Hm & Hc & Hbad)].
  - left. split; [by split_and!|].
    destruct (validate_security now instant ctx h) as [h1 res] eqn:Ev. cbn [fst snd] in *. subst res.
    destruct r; cbn [handle allowed_senders work] in *;
      unfold outcome, handle_add_transaction, handle_get_transactions,
        handle_storage_confirmation, handle_block_rejected, handle_remove_transactions,
        validate_add_transaction, validate_get_transactions, validate_storage_confirmation,
        validate_block_rejected, validate_remove_transactions;
      rewrite Ea; cbn [sbind]; rewrite Ev; cbn [sbind]; rewrite ?Hp.
    + destruct (ar_signature_verified r); cbn [negb]; [|cbn; by rewrite Hp].
      destruct (add _ (pool h)) as [p res]; by cbn.
    + destruct (propose _ _ _ _) as [p res]; by cbn.
    + destruct (confirm _ _) as [p res]; by cbn.
    + destruct (rollback _ _) as [p res]; by cbn.
    + destruct (foldl remove_step _ _) as [p res]; by cbn.
  - right. split.
    { intros (_ & Ht & Hs & Hf). destruct Hbad as [Hb|[Hb|Hb]]; congruence. }
    destruct (validate_security now instant ctx h) as [h1 res] eqn:Ev. cbn [fst snd] in *. subst res.
    destruct r; cbn [handle allowed_senders] in *;
      unfold outcome, handle_add_transaction, handle_get_transactions,
        handle_storage_confirmation, handle_block_rejected, handle_remove_transactions,
        validate_add_transaction, validate_get_transactions, validate_storage_confirmation,
        validate_block_rejected, validate_remove_transactions;
      rewrite Ea; cbn [sbind]; rewrite Ev; cbn; split_and!; eauto.
Qed.

(** ** Composition with the pool *)

Lemma remove_steps_inv hs : forall s, pool_inv s.1 -> pool_inv (foldl remove_step s hs).1.
Proof.
  induction hs as [|h hs IH]; intros s Hs; [done|]. cbn [foldl]. apply IH.
  unfold remove_step. pose proof (remove_inv h s.1 Hs) as Hr.
  destruct (remove h s.1) as [p [tx|e|]]; exact Hr.
Qed.

Lemma work_inv now' r p : pool_inv p -> pool_inv (work now' r p).
Proof.
  intros Hp. destruct r; cbn [work].
  - case_match; [by apply add_inv|done].
  - by apply propose_inv.
  - by apply confirm_inv.
  - by apply rollback_inv.
  - by apply (remove_steps_inv hashes (p, [])).
Qed.

Lemma perform_inv c h : pool_inv (pool h) -> pool_inv (pool (perform c h)).
Proof.
  intros Hp. destruct c as [now now' instant ctx r|now]; cbn [perform].
  - destruct (handle_cases now now' instant ctx r h) as [(_ & E & _)|(_ & _ & E & _)];
      rewrite E; [by apply work_inv|done].
  - unfold handler_cleanup_timeouts. pose proof (cleanup_timeouts_inv now (pool h) Hp) as Hc.
    by destruct (cleanup_timeouts now (pool h)).
Qed.

Lemma perform_keeps c h n exp : 
  match c with Message _ _ instant _ _ => instant < exp | Cleanup _ => True end ->
  nonce_cache h !! n = Some exp -> nonce_cache (perform c h) !! n = Some exp.
Proof.
  intros Hi Hn. destruct c as [now now' instant ctx r|now]; cbn [perform].
  - destruct (handle_cases now now' instant ctx r h) as [(_ & _ & E & _)|(_ & _ & _ & _ & [E|E])];
      rewrite E; [by apply insert_keeps|done|by apply insert_keeps].
  - unfold handler_cleanup_timeouts. by destruct (cleanup_timeouts now (pool h)).
Qed.

Definition before (t : Z) (c : call) : Prop :=
  match c with Message _ _ instant _ _ => instant < t | Cleanup _ => True end.

Lemma performs_keep cs : forall h n exp, Forall (before exp) cs ->
  nonce_cache h !! n = Some exp ->
  nonce_cache (foldl (fun h c => perform c h) h cs) !! n = Some exp.
Proof.
  induction cs as [|c cs IH]; intros h n exp Hb Hn; [done|].
  apply Forall_cons in Hb as [Hc Hb]. cbn [foldl]. apply IH; [done|]. by apply perform_keeps.
Qed.

(** C27 (invariant): behind the handler the pool keeps its invariant whatever
    messages and cleanups come, genuine or forged; and a message changes the
    pool only if its sender may send it, its time is in the window, the bytes
    are signed with the sender's key and its nonce is new, and then by exactly
    the operation it asks for. *)
Theorem handler_guards_pool c cs now now' instant ctx r :
  config_ok c ->
  let h := foldl (fun h c => perform c h) (handler_new (new c)) cs in
  let h' := (handle now now' instant ctx r h).1 in
  pool_inv (pool h) /\
  (pool h' <> pool h -> authentic now instant ctx r h /\ pool h' = work now' r (pool h)).
Proof.
  intros Hc h h'. split.
  - subst h h'. assert (H : forall cs h, pool_inv (pool h) ->
      pool_inv (pool (foldl (fun h c => perform c h) h cs))).
    { clear. induction cs as [|c cs IH]; intros h Hp; [done|]. cbn [foldl].
      by apply IH, perform_inv. }
    apply H. by apply pool_inv_new.
  - intros Hne. destruct (handle_cases now now' instant ctx r h) as [(Ha & E & _)|(_ & _ & E & _)];
      [done|]. by destruct Hne.
Qed.

(** C28 (safety): a message does its work at most once: while its nonce is
    remembered, two minutes of the monotonic clock, any second message with the
    nonce is refused and leaves the pool, whatever is handled in between. *)
Theorem message_works_once h now now' instant ctx r cs now2 now2' instant2 ctx2 r2 :
  authentic now instant ctx r h -> nonce ctx2 = nonce ctx ->
  Forall (before (instant + NONCE_CACHE_TTL)) cs -> instant2 < instant + NONCE_CACHE_TTL ->
  let h1 := (handle now now' instant ctx r h).1 in
  let h2 := foldl (fun h c => perform c h) h1 cs in
  let out := handle now2 now2' instant2 ctx2 r2 h2 in
  (exists e, out.2 = Err e) /\ pool out.1 = pool h2.
Proof.
  intros Ha Hn Hcs Hi h1 h2 out.
  assert (Hc : nonce_cache h1 !! nonce ctx = Some (instant + NONCE_CACHE_TTL)).
  { subst h1. destruct (handle_cases now now' instant ctx r h) as [(_ & _ & E & _)|(Hno & _)];
      [|done]. rewrite E. destruct Ha as (_ & _ & _ & Hf).
    destruct (check_and_insert instant (nonce ctx) (nonce_cache h)) as [cache [|]] eqn:Ec; [|done].
    by apply fresh_inserts in Ec. }
  apply performs_keep with (cs := cs) in Hc; [|done].
  destruct (handle_cases now2 now2' instant2 ctx2 r2 h2) as [((_ & _ & _ & Hf) & _)|(_ & He & Hp & _)];
    [|done].
  exfalso. rewrite Hn in Hf. pose proof (remembered_is_replay _ _ _ _ Hc Hi) as Hr.
  change (foldl _ h1 cs) with h2 in Hr. congruence.
Qed.

(** The signed bytes are never compared with the request: whoever
    has once seen bytes with a signature of the signature verifier can, with a
    new nonce and a current time, put any transaction to the pool. *)
Theorem signature_not_bound_to_request h now now' instant bytes sig ts n tx :
  validate_hmac_signature hmac bytes sig (derive_key hmac (master_secret h) 10) = true ->
  handler_timestamp ts now = Ok tt -> nonce_cache h !! n = None ->
  pool (handle now now' instant
    {| sender_id := 10; timestamp := ts; nonce := n; signature := sig; message_bytes := bytes |}
    (AddTransaction {| ar_transaction := tx; ar_signature_verified := true |}) h).1
  = (add (mempool_transaction_new sha256 tx now') (pool h)).1.
Proof.
  intros Hs Ht Hn. set (ctx := {| sender_id := 10 |}).
  destruct (handle_cases now now' instant ctx
    (AddTransaction {| ar_transaction := tx; ar_signature_verified := true |}) h)
    as [(_ & E & _)|(Hno & _)]; [exact E|].
  destruct Hno. split_and!; [by constructor|done|done|].
  unfold check_and_insert. cbn zeta.
  assert (Hl : (if (MAX_NONCE_CACHE_SIZE <=? size (nonce_cache h))%nat
    then filter (fun e => instant < e.2) (nonce_cache h) else nonce_cache h) !! n = None).
  { case_match; [|done]. apply map_lookup_filter_None. by left. }
  cbn [nonce ctx]. by rewrite Hl.
Qed.

(** A time given in seconds, as the envelope has it, is always too old for the
    handler's clock of milliseconds. *)
Lemma seconds_always_too_old secs ms : 1 <= secs -> 0 <= ms < 1000 ->
  1000 * secs + ms + MAX_FUTURE_SKEW < 2 ^ 64 ->
  handler_timestamp secs (1000 * secs + ms) = Err (TimestampTooOld secs (1000 * secs + ms)).
Proof.
  intros Hs Hm Hb. unfold handler_timestamp, MAX_FUTURE_SKEW, MAX_AGE in *.
  rewrite wrapping_add_small by lia.
  rewrite (proj2 (Z.ltb_ge _ _)) by lia. by rewrite !(proj2 (Z.ltb_lt _ _)) by lia.
Qed.

End handler.

(** ** Witnesses *)

Definition ctx_of (sender ts n : Z) : IpcSecurityContext := {|
  sender_id := sender; timestamp := ts; nonce := n; signature := replicate 64 0;
  message_bytes := [1]
|}.

Lemma handler_guards_pool_witness :
  pool_inv (pool (foldl (fun h c => perform (U := exact_u256) (fun _ => 5) zero_hmac c h)
    (handler_new (new small_config))
    [Message 100 101 0 (ctx_of 10 100 1) (RemoveTransactions [1]); Cleanup 50])).
Proof.
  refine (proj1 (handler_guards_pool (U := exact_u256) (fun _ => 5) zero_hmac small_config
    [Message 100 101 0 (ctx_of 10 100 1) (RemoveTransactions [1]); Cleanup 50]
    0 0 0 (ctx_of 0 0 0) (BlockRejected []) _)).
  split; vm_compute; congruence.
Defined.

Lemma message_works_once_witness :
  pool (handle (U := exact_u256) (fun _ => 5) zero_hmac 110 111 30 (ctx_of 8 110 7)
    (RemoveTransactions [2])
    (handle (U := exact_u256) (fun _ => 5) zero_hmac 100 101 0 (ctx_of 8 100 7)
      (RemoveTransactions [1]) (handler_new full_pool)).1).1
  = pool (handle (U := exact_u256) (fun _ => 5) zero_hmac 100 101 0 (ctx_of 8 100 7)
      (RemoveTransactions [1]) (handler_new full_pool)).1.
Proof.
  refine (proj2 (message_works_once (U := exact_u256) (fun _ => 5) zero_hmac
    (handler_new full_pool) 100 101 0 (ctx_of 8 100 7) (RemoveTransactions [1]) []
    110 111 30 (ctx_of 8 110 7) (RemoveTransactions [2]) _ _ _ _)).
  - split_and!; [constructor|by vm_compute..].
  - reflexivity.
  - apply Forall_nil_2.
  - by vm_compute.
Defined.

Lemma signature_not_bound_to_request_witness :
  pool (handle (U := exact_u256) (fun _ => 5) zero_hmac 100 101 0
    {| sender_id := 10; timestamp := 100; nonce := 9; signature := replicate 64 0;
       message_bytes := [1] |}
    (AddTransaction {| ar_transaction := mt_transaction tx_a; ar_signature_verified := true |})
    (handler_new full_pool)).1
  = (add (U := exact_u256) (mempool_transaction_new (fun _ => 5) (mt_transaction tx_a) 101)
      full_pool).1.
Proof.
  refine (signature_not_bound_to_request (U := exact_u256) (fun _ => 5) zero_hmac
    (handler_new full_pool) 100 101 0 [1] (replicate 64 0) 100 9 (mt_transaction tx_a) _ _ _).
  - by vm_compute.
  - by vm_compute.
  - by vm_compute.
Defined.
