(* ===== verification/BlockIpc.v ===== *)
(** * Block storage: the message handlers

    The handlers that put the block storage service behind messages between
    subsystems ([qc-02-block-storage/src/ipc/]): the envelope validator with its
    nonce set ([envelope.rs]) and the event and request handlers
    ([handlers.rs]).  The service is the one of [BlockService].

    [now] is the wall clock in seconds during the call; the three readings the
    code makes of it are one argument.  HMAC-SHA256 is an argument.  A response
    is its payload: correlation identifiers, fresh nonces and the unsigned
    envelope around it are left out, as are the texts of errors. *)

From S2P Require Import Prelude Blocks BlockStorage BlockKv BlockService BlockFacts BlockInv BlockCalls BlockProps.
From stdpp Require Import strings.
Local Open Scope Z_scope.
Local Open Scope qc_scope.

(** ** [envelope.rs] *)

Module Envelope.

Definition BLOCK_STORAGE : u8 := 2.
Definition FINALITY : u8 := 9.
Definition MIN_SUPPORTED_VERSION : u8 := 1.
Definition MAX_SUPPORTED_VERSION : u8 := 1.
Definition MAX_MESSAGE_AGE_SECS : u64 := 60.

Record AuthenticatedMessage := {
  version : u8;
  correlation_id : list u8;
  reply_to : option u8;  (** [reply_to.subsystem_id] *)
  sender_id : u8;
  recipient_id : u8;
  timestamp : u64;
  nonce : u64;
  signature : list u8
}.

Inductive EnvelopeError :=
| UnsupportedVersion (version min max : u8)
| MessageExpired (age_secs max_age : u64)
| MessageFromFuture (timestamp now : u64)
| NonceReused (nonce : u64)
| InvalidSignature
| UnauthorizedSender (sender : u8) (allowed : list u8)
| ReplyToMismatch (sender reply_to : u8)
| WrongRecipient (expected actual : u8).

Record EnvelopeValidator := {
  our_subsystem_id : u8;
  shared_secret : list u8;
  seen_nonces : gset u64;
  last_cleanup : u64
}.

Definition new (our_subsystem_id : u8) (shared_secret : list u8) : EnvelopeValidator := {|
  our_subsystem_id := our_subsystem_id; shared_secret := shared_secret;
  seen_nonces := ∅; last_cleanup := 0
|}.

Definition cleanup_old_nonces (now : u64) (v : EnvelopeValidator) : EnvelopeValidator :=
  if saturating_sub now (last_cleanup v) <? 30 then v
  else {| our_subsystem_id := our_subsystem_id v; shared_secret := shared_secret v;
          seen_nonces := if 10000 <? Z.of_nat (size (seen_nonces v)) then ∅ else seen_nonces v;
          last_cleanup := now |}.

Definition remember (n : u64) (v : EnvelopeValidator) : EnvelopeValidator := {|
  our_subsystem_id := our_subsystem_id v; shared_secret := shared_secret v;
  seen_nonces := {[n]} ∪ seen_nonces v; last_cleanup := last_cleanup v
|}.

(** The bytes under the signature: the fields of the envelope. *)
Definition signed_bytes (msg : AuthenticatedMessage) : list u8 :=
  le_bytes 1 (version msg) ++ correlation_id msg ++ [sender_id msg] ++ [recipient_id msg] ++
  le_bytes 8 (timestamp msg) ++ le_bytes 8 (nonce msg).

Section validator.
Context (hmac : list u8 -> list u8 -> list u8).

Definition verify_signature (v : EnvelopeValidator) (msg : AuthenticatedMessage) : bool :=
  bool_decide (hmac (shared_secret v) (signed_bytes msg) = signature msg).

Definition validate (now : u64) (msg : AuthenticatedMessage) (v : EnvelopeValidator)
  : EnvelopeValidator * result EnvelopeError unit :=
  if (version msg <? MIN_SUPPORTED_VERSION) || (MAX_SUPPORTED_VERSION <? version msg) then
    (v, Err (UnsupportedVersion (version msg) MIN_SUPPORTED_VERSION MAX_SUPPORTED_VERSION))
  else if negb (recipient_id msg =? our_subsystem_id v) then
    (v, Err (WrongRecipient (our_subsystem_id v) (recipient_id msg)))
  else if now <? timestamp msg then (v, Err (MessageFromFuture (timestamp msg) now))
  else
    let age := saturating_sub now (timestamp msg) in
    if MAX_MESSAGE_AGE_SECS <? age then (v, Err (MessageExpired age MAX_MESSAGE_AGE_SECS))
    else
      let v := cleanup_old_nonces now v in
      if bool_decide (nonce msg ∈ seen_nonces v) then (v, Err (NonceReused (nonce msg)))
      else
        let v := remember (nonce msg) v in
        if negb (verify_signature v msg) then (v, Err InvalidSignature)
        else
          match reply_to msg with
          | Some reply_to =>
              if negb (reply_to =? sender_id msg)
              then (v, Err (ReplyToMismatch (sender_id msg) reply_to)) else (v, Ok tt)
          | None => (v, Ok tt)
          end.

Definition validate_sender (sender_id : u8) (allowed : list u8) : result EnvelopeError unit :=
  if negb (bool_decide (sender_id ∈ allowed)) then Err (UnauthorizedSender sender_id allowed)
  else Ok tt.

(** What an accepted envelope is. *)
Record genuine (now : u64) (v : EnvelopeValidator) (msg : AuthenticatedMessage) : Prop := {
  gn_version : version msg = 1;
  gn_recipient : recipient_id msg = our_subsystem_id v;
  gn_time : timestamp msg <= now <= timestamp msg + MAX_MESSAGE_AGE_SECS;
  gn_fresh : nonce msg ∉ seen_nonces (cleanup_old_nonces now v);
  gn_signed : hmac (shared_secret v) (signed_bytes msg) = signature msg;
  gn_reply : reply_to msg = None \/ reply_to msg = Some (sender_id msg)
}.

Lemma cleanup_secret now v : shared_secret (cleanup_old_nonces now v) = shared_secret v.
Proof. unfold cleanup_old_nonces. by case_match. Qed.

(** Exactly the genuine envelopes pass. *)
Lemma validate_ok now msg v : is_ok (validate now msg v).2 = true <-> genuine now v msg.
Proof.
  unfold validate, MIN_SUPPORTED_VERSION, MAX_SUPPORTED_VERSION. cbn zeta.
  unfold verify_signature. cbn [remember shared_secret]. rewrite cleanup_secret. split.
  - destruct (_ || _) eqn:Ev; [done|]. bools.
    destruct (Z.eqb_spec (recipient_id msg) (our_subsystem_id v)); [|done]. cbn [negb].
    destruct (Z.ltb_spec now (timestamp msg)); [done|].
    destruct (Z.ltb_spec MAX_MESSAGE_AGE_SECS (saturating_sub now (timestamp msg))); [done|].
    destruct (bool_decide (nonce msg ∈ _)) eqn:En; [done|].
    destruct (bool_decide (hmac _ _ = _)) eqn:Es; [|done]. bools. cbn [negb].
    unfold saturating_sub in *. intros Hok. split; try done; [lia|lia|].
    destruct (reply_to msg) as [s|]; [|by left]. right.
    destruct (Z.eqb_spec s (sender_id msg)) as [E|]; [by rewrite E|done].
  - intros [H1 H2 H3 H4 H5 H6]. rewrite H1. cbn [Z.ltb orb Z.compare Pos.compare Pos.compare_cont].
    rewrite H2, Z.eqb_refl. cbn [negb]. rewrite (proj2 (Z.ltb_ge _ _)) by lia.
    rewrite (proj2 (Z.ltb_ge _ _)) by (unfold saturating_sub; lia).
    rewrite bool_decide_false by done. rewrite bool_decide_true by done. cbn [negb].
    destruct H6 as [-> | ->]; [done|]. by rewrite Z.eqb_refl.
Qed.

Lemma validate_no_panic now msg v : (validate now msg v).2 <> Panic.
Proof. unfold validate. cbn zeta. repeat case_match; done. Qed.

(** An accepted nonce is remembered until the set is emptied. *)
Lemma envelope_remembers now msg v : is_ok (validate now msg v).2 = true ->
  nonce msg ∈ seen_nonces (validate now msg v).1.
Proof.
  unfold validate. cbn zeta. repeat case_match; try done; cbn [fst seen_nonces remember];
    set_solver.
Qed.

End validator.

(** A nonce that is in the set is accepted again once the set has more than
    10000 entries and half a minute has passed since the last cleanup: a message
    of the last minute can then be replayed. *)
Lemma flooded_set_forgets now v :
  10000 < Z.of_nat (size (seen_nonces v)) -> 30 <= now - last_cleanup v ->
  seen_nonces (cleanup_old_nonces now v) = ∅.
Proof.
  intros Hs Ht. unfold cleanup_old_nonces, saturating_sub.
  rewrite (proj2 (Z.ltb_ge _ _)) by lia. cbn. by rewrite (proj2 (Z.ltb_lt _ _)).
Qed.

(** A forged message that fails the signature still uses up the nonce. *)
Lemma forged_uses_nonce hmac now msg v :
  (validate hmac now msg v).2 = Err InvalidSignature ->
  nonce msg ∈ seen_nonces (validate hmac now msg v).1.
Proof.
  unfold validate. cbn zeta. repeat case_match; try done; cbn [fst seen_nonces remember];
    set_solver.
Qed.

End Envelope.

(** ** Errors in responses ([payloads.rs], [storage_error_to_payload]) *)

Module ErrorPayload.

Inductive StorageErrorType :=
| BlockNotFound | HeightNotFound | DataCorruption | DatabaseError | TransactionNotFound
| DiskFull | UnauthorizedSender.

Record StorageErrorPayload := {
  error_type : StorageErrorType;
  block_hash : option Hash;
  block_height : option u64
}.

Definition storage_error_to_payload (e : StorageError) : StorageErrorPayload :=
  match e with
  | BlockStorage.BlockNotFound hash =>
      {| error_type := BlockNotFound; block_hash := Some hash; block_height := None |}
  | BlockStorage.HeightNotFound height =>
      {| error_type := HeightNotFound; block_hash := None; block_height := Some height |}
  | BlockStorage.TransactionNotFound _ =>
      {| error_type := TransactionNotFound; block_hash := None; block_height := None |}
  | BlockStorage.DataCorruption hash _ _ =>
      {| error_type := DataCorruption; block_hash := Some hash; block_height := None |}
  | BlockStorage.DiskFull _ _ =>
      {| error_type := DiskFull; block_hash := None; block_height := None |}
  | BlockStorage.UnauthorizedSender _ _ _ =>
      {| error_type := UnauthorizedSender; block_hash := None; block_height := None |}
  | _ => {| error_type := DatabaseError; block_hash := None; block_height := None |}
  end.

(** [map_err(storage_error_to_payload)]. *)
Definition response {A} (r : result StorageError A) : result StorageErrorPayload A :=
  match r with Ok a => Ok a | Err e => Err (storage_error_to_payload e) | Panic => Panic end.

End ErrorPayload.

(** ** [handlers.rs] *)

Section handlers.
Context {KV : Type} {K : KeyValueStore KV} {B : BlockSerializer}.
Context (sha256 : list u8 -> Hash) (crc32c : list u8 -> Z).
Context (hmac : list u8 -> list u8 -> list u8).

Record BlockStorageHandler := {
  service : BlockStorageService KV;
  validator : Envelope.EnvelopeValidator
}.

Definition handler_new (s : BlockStorageService KV) (secret : list u8) : BlockStorageHandler := {|
  service := s; validator := Envelope.new Envelope.BLOCK_STORAGE secret
|}.

Inductive HandlerError :=
| EnvelopeFailed (e : Envelope.EnvelopeError)
| StorageFailed (e : StorageError).

Definition storage_err {A} (r : result StorageError A) : result HandlerError A :=
  match r with Ok a => Ok a | Err e => Err (StorageFailed e) | Panic => Panic end.

Definition envelope_err {A} (r : result Envelope.EnvelopeError A) : result HandlerError A :=
  match r with Ok a => Ok a | Err e => Err (EnvelopeFailed e) | Panic => Panic end.

(** The hash the handlers report for a block. *)
Definition header_preimage (h : BlockHeader) : list u8 :=
  le_bytes 2 (bh_version h) ++ le_bytes 8 (bh_height h) ++ hash_bytes (bh_parent_hash h) ++
  hash_bytes (bh_merkle_root h) ++ hash_bytes (bh_state_root h) ++
  le_bytes 8 (bh_timestamp h) ++ bh_proposer h.

Definition handler_block_hash (h : BlockHeader) : Hash := sha256 (header_preimage h).

Record BlockDifficultyInfo := {
  di_height : u64;
  di_timestamp : u64;
  di_difficulty : U256;
  di_hash : Hash
}.

Definition to_difficulty_info (stored : StoredBlock) : BlockDifficultyInfo := {|
  di_height := bh_height (vb_header (sb_block stored));
  di_timestamp := bh_timestamp (vb_header (sb_block stored));
  di_difficulty := bh_difficulty (vb_header (sb_block stored));
  di_hash := handler_block_hash (vb_header (sb_block stored))
|}.

Record BlockStoredPayload := {
  bs_block_height : u64;
  bs_block_hash : Hash;
  bs_merkle_root : Hash;
  bs_state_root : Hash;
  bs_stored_at : u64
}.

Definition stored_payload (height : u64) (hash : Hash) (b : StoredBlock) : BlockStoredPayload := {|
  bs_block_height := height; bs_block_hash := hash; bs_merkle_root := sb_merkle_root b;
  bs_state_root := sb_state_root b; bs_stored_at := sb_stored_at b
|}.

(** The two checks every guarded handler starts with. *)
Definition guard (now : u64) (msg : Envelope.AuthenticatedMessage) (allowed : list u8)
  (h : BlockStorageHandler) : BlockStorageHandler * result HandlerError unit :=
  let '(v, res) := Envelope.validate hmac now msg (validator h) in
  let h := {| service := service h; validator := v |} in
  let? (h, u) := (h, envelope_err res) in
  (h, envelope_err (Envelope.validate_sender (Envelope.sender_id msg) allowed)).

Definition set_service (h : BlockStorageHandler) (s : BlockStorageService KV)
  : BlockStorageHandler := {| service := s; validator := validator h |}.

Definition handle_block_validated (env : Env) (now : u64) (msg : Envelope.AuthenticatedMessage)
  (block : ValidatedBlock) (block_hash : Hash) (block_height : u64) (h : BlockStorageHandler)
  : BlockStorageHandler * result HandlerError (option BlockStoredPayload) :=
  let? (h, u) := guard now msg [CONSENSUS] h in
  let '(s, res) := on_block_validated sha256 crc32c env (service h)
    (Envelope.sender_id msg) block now in
  let h := set_service h s in
  let? (h, u) := (h, storage_err res) in
  (h, Ok (if block_exists_at_height (service h) block_height then
      match read_block_by_height sha256 crc32c (service h) block_height with
      | Ok stored => Some (stored_payload block_height block_hash stored)
      | _ => None
      end
    else None)).

(** The answer of the two root handlers: the stored block, if it is there. *)
Definition stored_by_hash (s : BlockStorageService KV) (block_hash : Hash)
  : option BlockStoredPayload :=
  if block_exists s block_hash then
    match read_block sha256 crc32c s block_hash with
    | Ok stored => Some (stored_payload (bh_height (vb_header (sb_block stored))) block_hash stored)
    | _ => None
    end
  else None.

Definition handle_merkle_root_computed (env : Env) (now : u64) (msg : Envelope.AuthenticatedMessage)
  (block_hash merkle_root : Hash) (h : BlockStorageHandler)
  : BlockStorageHandler * result HandlerError (option BlockStoredPayload) :=
  let? (h, u) := guard now msg [TRANSACTION_INDEXING] h in
  let '(s, res) := on_merkle_root_computed sha256 crc32c env (service h)
    (Envelope.sender_id msg) block_hash merkle_root now in
  let h := set_service h s in
  let? (h, u) := (h, storage_err res) in
  (h, Ok (stored_by_hash (service h) block_hash)).

Definition handle_state_root_computed (env : Env) (now : u64) (msg : Envelope.AuthenticatedMessage)
  (block_hash state_root : Hash) (h : BlockStorageHandler)
  : BlockStorageHandler * result HandlerError (option BlockStoredPayload) :=
  let? (h, u) := guard now msg [STATE_MANAGEMENT] h in
  let '(s, res) := on_state_root_computed sha256 crc32c env (service h)
    (Envelope.sender_id msg) block_hash state_root now in
  let h := set_service h s in
  let? (h, u) := (h, storage_err res) in
  (h, Ok (stored_by_hash (service h) block_hash)).

Record BlockFinalizedPayload := {
  bf_block_height : u64;
  bf_block_hash : Hash;
  bf_previous_finalized_height : u64
}.

(** The finality proof in the request is not looked at. *)
Definition handle_mark_finalized (now : u64) (msg : Envelope.AuthenticatedMessage)
  (block_height : u64) (h : BlockStorageHandler)
  : BlockStorageHandler * result HandlerError BlockFinalizedPayload :=
  let? (h, u) := guard now msg [Envelope.FINALITY] h in
  let prev_finalized := get_finalized_height (service h) in
  let '(s, res) := mark_finalized (service h) block_height in
  let h := set_service h s in
  let? (h, u) := (h, storage_err res) in
  let? (h, block) := (h, storage_err (read_block_by_height sha256 crc32c (service h) block_height)) in
  (h, Ok {| bf_block_height := block_height;
            bf_block_hash := handler_block_hash (vb_header (sb_block block));
            bf_previous_finalized_height := prev_finalized |}).

Inductive BlockQuery := ByHash (hash : Hash) | ByHeight (height : u64).

(** Reads do not validate the envelope. *)
Definition handle_read_block (query : BlockQuery) (h : BlockStorageHandler)
  : result ErrorPayload.StorageErrorPayload StoredBlock :=
  ErrorPayload.response (match query with
    | ByHash hash => read_block sha256 crc32c (service h) hash
    | ByHeight height => read_block_by_height sha256 crc32c (service h) height
    end).

Record ReadBlockRangeResponsePayload := {
  rr_blocks : list StoredBlock;
  rr_chain_tip_height : u64;
  rr_has_more : bool
}.

Definition handle_read_block_range (start_height limit : u64) (h : BlockStorageHandler)
  : ReadBlockRangeResponsePayload :=
  let chain_tip := get_latest_height (service h) in
  match read_block_range sha256 crc32c (service h) start_height limit with
  | Ok blocks =>
      {| rr_blocks := blocks; rr_chain_tip_height := chain_tip;
         rr_has_more := match last blocks with
           | Some b => bh_height (vb_header (sb_block b)) <? chain_tip
           | None => false
           end |}
  | _ => {| rr_blocks := []; rr_chain_tip_height := chain_tip; rr_has_more := false |}
  end.

Definition handle_get_transaction_location (now : u64) (msg : Envelope.AuthenticatedMessage)
  (transaction_hash : Hash) (h : BlockStorageHandler)
  : BlockStorageHandler * result HandlerError
      (result ErrorPayload.StorageErrorPayload TransactionLocation) :=
  let? (h, u) := guard now msg [TRANSACTION_INDEXING] h in
  (h, Ok (ErrorPayload.response (get_transaction_location (service h) transaction_hash))).

Definition handle_get_transaction_hashes (now : u64) (msg : Envelope.AuthenticatedMessage)
  (block_hash : Hash) (h : BlockStorageHandler)
  : BlockStorageHandler * result HandlerError
      (result ErrorPayload.StorageErrorPayload (list Hash * Hash)) :=
  let? (h, u) := guard now msg [TRANSACTION_INDEXING] h in
  let merkle_root := match read_block sha256 crc32c (service h) block_hash with
    | Ok b => sb_merkle_root b
    | _ => 0
    end in
  (h, Ok (ErrorPayload.response (
    let? hashes := get_transaction_hashes_for_block sha256 crc32c (service h) block_hash in
    Ok (hashes, merkle_root)))).

Record ChainInfoResponsePayload := {
  ci_chain_tip_height : u64;
  ci_chain_tip_hash : Hash;
  ci_chain_tip_timestamp : u64;
  ci_recent_blocks : list BlockDifficultyInfo
}.

Definition handle_get_chain_info (recent_blocks_count : Z) (h : BlockStorageHandler)
  : ChainInfoResponsePayload :=
  let chain_tip_height := get_latest_height (service h) in
  let recent_blocks_count := Z.min recent_blocks_count 100 in
  let start_height := saturating_sub chain_tip_height (saturating_sub recent_blocks_count 1) in
  let recent_blocks :=
    if 0 <? chain_tip_height then
      to_difficulty_info <$>
        omap (fun height => match read_block_by_height sha256 crc32c (service h) height with
          | Ok b => Some b | _ => None end)
        (reverse (seqZ start_height (chain_tip_height - start_height + 1)))
    else [] in
  let tip := match recent_blocks with
    | latest :: _ => (di_hash latest, di_timestamp latest)
    | [] => (0, 0)
    end in
  {| ci_chain_tip_height := chain_tip_height; ci_chain_tip_hash := tip.1;
     ci_chain_tip_timestamp := tip.2; ci_recent_blocks := recent_blocks |}.

Record AssemblyTimeoutPayload := {
  at_block_hash : Hash;
  at_block_height : u64;
  at_had_validated_block : bool;
  at_had_merkle_root : bool;
  at_had_state_root : bool;
  at_pending_duration_secs : u64;
  at_purged_at : u64
}.

Definition handler_gc (now : u64) (h : BlockStorageHandler)
  : BlockStorageHandler * list AssemblyTimeoutPayload :=
  let '(s, expired) := gc_expired_assemblies_with_data (service h) now in
  (set_service h s, (fun e => {|
     at_block_hash := e.1; at_block_height := pa_block_height e.2;
     at_had_validated_block := bool_decide (is_Some (pa_validated_block e.2));
     at_had_merkle_root := bool_decide (is_Some (pa_merkle_root e.2));
     at_had_state_root := bool_decide (is_Some (pa_state_root e.2));
     at_pending_duration_secs := saturating_sub now (pa_started_at e.2); at_purged_at := now |})
   <$> expired).

(** ** Messages *)

Inductive StorageMessage :=
| BlockValidated (block : ValidatedBlock) (block_hash : Hash) (block_height : u64)
| MerkleRootComputed (block_hash merkle_root : Hash)
| StateRootComputed (block_hash state_root : Hash)
| MarkFinalized (block_height : u64)
| GetTransactionLocation (transaction_hash : Hash)
| GetTransactionHashes (block_hash : Hash).

Definition handle_message (env : Env) (now : u64) (msg : Envelope.AuthenticatedMessage)
  (m : StorageMessage) (h : BlockStorageHandler) : BlockStorageHandler :=
  match m with
  | BlockValidated b x k => (handle_block_validated env now msg b x k h).1
  | MerkleRootComputed x r => (handle_merkle_root_computed env now msg x r h).1
  | StateRootComputed x r => (handle_state_root_computed env now msg x r h).1
  | MarkFinalized k => (handle_mark_finalized now msg k h).1
  | GetTransactionLocation t => (handle_get_transaction_location now msg t h).1
  | GetTransactionHashes x => (handle_get_transaction_hashes now msg x h).1
  end.

(** Who may send it, and the call of the service it stands for. *)
Definition message_sender (m : StorageMessage) : u8 :=
  match m with
  | BlockValidated _ _ _ => CONSENSUS
  | MerkleRootComputed _ _ | GetTransactionLocation _ | GetTransactionHashes _ => TRANSACTION_INDEXING
  | StateRootComputed _ _ => STATE_MANAGEMENT
  | MarkFinalized _ => Envelope.FINALITY
  end.

Definition message_call (env : Env) (now : u64) (m : StorageMessage) : list StorageCall :=
  match m with
  | BlockValidated b _ _ => [CallValidated env CONSENSUS b now]
  | MerkleRootComputed x r => [CallMerkle env TRANSACTION_INDEXING x r now]
  | StateRootComputed x r => [CallState env STATE_MANAGEMENT x r now]
  | MarkFinalized k => [CallFinalize k]
  | GetTransactionLocation _ | GetTransactionHashes _ => []
  end.

Lemma guard_cases now msg allowed h :
  let out := guard now msg allowed h in
  (out.2 = Ok tt /\ Envelope.genuine hmac now (validator h) msg /\
   Envelope.sender_id msg ∈ allowed /\ service out.1 = service h) \/
  (exists e, out.2 = Err e /\ service out.1 = service h /\
   ~ (Envelope.genuine hmac now (validator h) msg /\ Envelope.sender_id msg ∈ allowed)).
Proof.
  cbn zeta. unfold guard, Envelope.validate_sender.
  pose proof (Envelope.validate_ok hmac now msg (validator h)) as Hok.
  pose proof (Envelope.validate_no_panic hmac now msg (validator h)) as Hp.
  destruct (Envelope.validate hmac now msg (validator h)) as [v [[]|e|]]; cbn [fst snd] in *;
    [| |done]; cbn [envelope_err sbind].
  - destruct (bool_decide (_ ∈ _)) eqn:E; bools; cbn [negb envelope_err fst snd].
    + left. split_and!; try done. by apply Hok.
    + right. eexists. split_and!; [done|done|]. by intros [_ ?].
  - right. eexists. split_and!; [done|done|]. intros [Hg _]. by apply Hok in Hg.
Qed.

(** A message that passes the guard is one call of the service, any other
    leaves the service alone. *)
Lemma handle_message_cases env now msg m h :
  (Envelope.genuine hmac now (validator h) msg /\ Envelope.sender_id msg = message_sender m /\
   service (handle_message env now msg m h) =
     run_calls sha256 crc32c (service h) (message_call env now m)) \/
  (~ (Envelope.genuine hmac now (validator h) msg /\ Envelope.sender_id msg = message_sender m) /\
   service (handle_message env now msg m h) = service h).
Proof.
  destruct (guard_cases now msg [message_sender m] h)
    as [(E & Hg & Hs%list_elem_of_singleton & Hsv)|(e & E & Hsv & Hn)].
  - left. split_and!; [done|done|].
    destruct (guard now msg [message_sender m] h) as [h1 res] eqn:Eg. cbn [fst snd] in *. subst res.
    destruct m; cbn [handle_message message_sender message_call run_calls foldl run_call] in *;
      unfold handle_block_validated, handle_merkle_root_computed, handle_state_root_computed,
        handle_mark_finalized, handle_get_transaction_location, handle_get_transaction_hashes;
      rewrite Eg; cbn [sbind]; rewrite ?Hs, ?Hsv.
    + destruct (on_block_validated _ _ _ _ _ _ _) as [s [[]| |]]; done.
    + destruct (on_merkle_root_computed _ _ _ _ _ _ _ _) as [s [[]| |]]; done.
    + destruct (on_state_root_computed _ _ _ _ _ _ _ _) as [s [[]| |]]; done.
    + destruct (mark_finalized _ _) as [s [[]| |]]; cbn [storage_err sbind fst]; try done.
      by destruct (read_block_by_height _ _ _ _).
    + exact Hsv.
    + exact Hsv.
  - right. split.
    { intros [Hg Hs]. apply Hn. split; [done|]. rewrite Hs. constructor. }
    destruct (guard now msg [message_sender m] h) as [h1 res] eqn:Eg. cbn [fst snd] in *. subst res.
    destruct m; cbn [handle_message message_sender] in *;
      unfold handle_block_validated, handle_merkle_root_computed, handle_state_root_computed,
        handle_mark_finalized, handle_get_transaction_location, handle_get_transaction_hashes;
      rewrite Eg; exact Hsv.
Qed.

End handlers.

(** ** Sequences of messages *)

(** What reaches the handler: a message, or the periodic collection of expired
    assemblies. *)
Inductive HandlerStep :=
| Deliver (env : Env) (now : u64) (msg : Envelope.AuthenticatedMessage) (m : StorageMessage)
| Collect (now : u64).

Definition step_in_range (st : HandlerStep) : Prop :=
  match st with
  | Deliver _ _ _ (BlockValidated b _ _) => block_in_range b
  | _ => True
  end.

Section runs.
Context {KV : Type} {K : KeyValueStore KV} {B : BlockSerializer}.
Context (sha256 : list u8 -> Hash) (crc32c : list u8 -> Z).
Context (hmac : list u8 -> list u8 -> list u8).

Definition handler_step (h : BlockStorageHandler (KV := KV)) (st : HandlerStep)
  : BlockStorageHandler :=
  match st with
  | Deliver env now msg m => handle_message sha256 crc32c hmac env now msg m h
  | Collect now => (handler_gc now h).1
  end.

Definition handler_run (h : BlockStorageHandler (KV := KV)) (l : list HandlerStep)
  : BlockStorageHandler := foldl handler_step h l.

(** The call [c] of the service comes from the step [st] of a handler with the
    shared secret [secret]: a collection, or a message for this subsystem with
    the subsystem's own sender and a signature under the secret. *)
Definition authorized (secret : list u8) (st : HandlerStep) (c : StorageCall) : Prop :=
  match st with
  | Deliver env now msg m =>
      c ∈ message_call env now m /\ Envelope.sender_id msg = message_sender m
      /\ Envelope.recipient_id msg = Envelope.BLOCK_STORAGE
      /\ Envelope.timestamp msg <= now <= Envelope.timestamp msg + Envelope.MAX_MESSAGE_AGE_SECS
      /\ hmac secret (Envelope.signed_bytes msg) = Envelope.signature msg
  | Collect now => c = CallGcData now
  end.

Lemma validate_identity now msg v :
  Envelope.our_subsystem_id (Envelope.validate hmac now msg v).1 = Envelope.our_subsystem_id v
  /\ Envelope.shared_secret (Envelope.validate hmac now msg v).1 = Envelope.shared_secret v.
Proof.
  unfold Envelope.validate, Envelope.cleanup_old_nonces. cbn zeta. repeat case_match; done.
Qed.

Lemma guard_validator now msg allowed (h : BlockStorageHandler (KV := KV)) :
  validator (guard hmac now msg allowed h).1 = (Envelope.validate hmac now msg (validator h)).1.
Proof.
  unfold guard. destruct (Envelope.validate _ _ _ _) as [v [?|?|]]; cbn; done.
Qed.

Lemma handle_message_validator env now msg m (h : BlockStorageHandler (KV := KV)) :
  validator (handle_message sha256 crc32c hmac env now msg m h)
  = (Envelope.validate hmac now msg (validator h)).1.
Proof.
  rewrite <-(guard_validator now msg [message_sender m] h).
  destruct m; cbn [handle_message message_sender];
    unfold handle_block_validated, handle_merkle_root_computed, handle_state_root_computed,
      handle_mark_finalized, handle_get_transaction_location, handle_get_transaction_hashes;
    destruct (guard hmac now msg _ h) as [h1 [[]|e|]]; cbn [sbind fst]; try done.
  - by destruct (on_block_validated _ _ _ _ _ _ _) as [s [[]| |]].
  - by destruct (on_merkle_root_computed _ _ _ _ _ _ _ _) as [s [[]| |]].
  - by destruct (on_state_root_computed _ _ _ _ _ _ _ _) as [s [[]| |]].
  - destruct (mark_finalized _ _) as [s [[]| |]]; cbn [storage_err sbind fst]; try done.
    by destruct (read_block_by_height _ _ _ _).
Qed.

Definition keyed (secret : list u8) (h : BlockStorageHandler (KV := KV)) : Prop :=
  Envelope.our_subsystem_id (validator h) = Envelope.BLOCK_STORAGE
  /\ Envelope.shared_secret (validator h) = secret.

(** One step is at most one call, and that one is authorized. *)
Lemma handler_step_calls secret st h : keyed secret h -> step_in_range st ->
  keyed secret (handler_step h st) /\
  exists calls, service (handler_step h st) = run_calls sha256 crc32c (service h) calls
  /\ Forall (fun c => call_in_range c /\ is_restart c = false /\ authorized secret st c) calls.
Proof.
  intros [Hid Hsec] Hr. destruct st as [env now msg m|now]; cbn [handler_step].
  - split.
    { destruct (validate_identity now msg (validator h)) as [E1 E2].
      unfold keyed. by rewrite handle_message_validator, E1, E2. }
    destruct (handle_message_cases sha256 crc32c hmac env now msg m h)
      as [(Hg & Hs & Hv)|[_ Hv]]; [|by exists []].
    exists (message_call env now m). split; [exact Hv|]. destruct Hg as [_ Hrec [Ht1 Ht2] _ Hsig _].
    rewrite Hid in Hrec. rewrite Hsec in Hsig. apply Forall_forall. intros c Hc. cbn [authorized].
    split_and!; [| |done..];
      (destruct m; cbn [message_call step_in_range] in Hc, Hr;
       [apply list_elem_of_singleton in Hc as -> ..|by apply elem_of_nil in Hc
         |by apply elem_of_nil in Hc]); done.
  - unfold handler_gc.
    destruct (gc_expired_assemblies_with_data (service h) now) as [s l] eqn:E. cbn [fst].
    split; [done|]. exists [CallGcData now]. cbn. rewrite E. split; [done|].
    by repeat constructor.
Qed.

Lemma handler_run_calls secret l : forall h, keyed secret h -> Forall step_in_range l ->
  keyed secret (handler_run h l) /\
  exists calls, service (handler_run h l) = run_calls sha256 crc32c (service h) calls
  /\ Forall (fun c => call_in_range c /\ is_restart c = false /\
       exists st, st ∈ l /\ authorized secret st c) calls.
Proof.
  induction l as [|st l IH]; intros h Hk Hl; [by split; [|exists []]|].
  apply Forall_cons in Hl as [Hst Hl].
  change (handler_run h (st :: l)) with (handler_run (handler_step h st) l).
  destruct (handler_step_calls secret st h Hk Hst) as [Hk1 (c1 & E1 & H1)].
  destruct (IH _ Hk1 Hl) as [Hk2 (c2 & E2 & H2)]. split; [exact Hk2|].
  exists (c1 ++ c2). split; [rewrite E2, E1; symmetry; apply foldl_app|].
  apply Forall_app. split; eapply Forall_impl; try eassumption; cbn.
  - intros c (?&?&?). split_and!; try done. exists st. split; [left|done].
  - intros c (?&?& st' & ? &?). split_and!; try done. exists st'. split; [by right|done].
Qed.

Context {view : KV -> gmap (list u8) (list u8)} {KL : KeyValueStoreLaws K view}.
Context {BL : BlockSerializerLaws B} (Hsha : forall l, in_width 256 (sha256 l)).

(** C17 (refinement): the handlers add no way into the store.  Whatever messages
    reach the handler of a service opened on an empty store, genuine, forged or
    replayed, with collections in between, the service is the one that some
    sequence of its own calls gives, each the call of a message that carries a
    signature under the shared secret, is addressed to block storage, is at most
    a minute old and names as sender the one subsystem that may send it; no
    block is ever written and no restart made but through the assembler; so the
    service satisfies the storage invariant, and further messages lose no block
    and never lower the finalized height. *)
Theorem handler_refines_storage kv0 config secret l1 l2 (Hempty : view kv0 = ∅)
  (H1 : Forall step_in_range l1) (H2 : Forall step_in_range l2) :
  let h0 := handler_new (new kv0 config) secret in
  let h1 := handler_run h0 l1 in
  let h2 := handler_run h1 l2 in
  (exists calls, service h1 = run_calls sha256 crc32c (new kv0 config) calls
     /\ Forall (fun c => is_restart c = false /\ exists st, st ∈ l1 /\ authorized secret st c) calls)
  /\ inv (view := view) sha256 crc32c (service h1)
  /\ extends (view := view) (service h1) (service h2).
Proof.
  cbn zeta.
  destruct (handler_run_calls secret l1 (handler_new (new kv0 config) secret))
    as [Hk1 (c1 & E1 & F1)]; [done..|].
  destruct (handler_run_calls secret l2 _ Hk1 H2) as [_ (c2 & E2 & F2)].
  cbn [handler_new service] in E1.
  assert (Hi : inv (view := view) sha256 crc32c
    (service (handler_run (handler_new (new kv0 config) secret) l1))).
  { rewrite E1. apply reachable_store_inv; [done..|].
    eapply Forall_impl; [exact F1|]. by intros c (?&_). }
  split_and!; [|exact Hi|].
  - exists c1. split; [exact E1|]. eapply Forall_impl; [exact F1|]. by intros c (_&?&?).
  - rewrite E2. apply run_calls_extends; [done|..|exact Hi].
    + eapply Forall_impl; [exact F2|]. by intros c (?&_).
    + eapply Forall_impl; [exact F2|]. by intros c (_&?&_).
Qed.

End runs.

(** ** The hash in the responses *)

(** The bytes the handlers hash are longer than the ones storage hashes, so the
    hash in a finality event or in the chain information is the hash the block
    is stored under only on a collision. *)
Lemma reported_hash_collides (sha256 : list u8 -> Hash) (b : ValidatedBlock) :
  handler_block_hash sha256 (vb_header b) = compute_block_hash sha256 b ->
  exists x y, x <> y /\ sha256 x = sha256 y.
Proof.
  intros E. exists (header_preimage (vb_header b)), (block_hash_preimage b).
  split; [|exact E]. intros Heq%(f_equal length). revert Heq.
  unfold header_preimage, block_hash_preimage.
  rewrite !length_app, !length_le_bytes, !length_be_bytes. lia.
Qed.

(** ** Concrete runs *)

#[local] Instance ipc_serializer : BlockSerializer :=
  table_serializer [stored_as block0; stored_as block1; stored_as fork1; stored_as block7].
#[local] Instance ipc_serializer_laws : BlockSerializerLaws ipc_serializer :=
  table_serializer_laws _.

Definition toy_hmac (key m : list u8) : list u8 := [poly_hash (key ++ m)].

(** A signed envelope from [sender] with the nonce [n]. *)
Definition sealed (sender : u8) (n : u64) : Envelope.AuthenticatedMessage :=
  let msg := {| Envelope.version := 1; Envelope.correlation_id := []; Envelope.reply_to := None;
    Envelope.sender_id := sender; Envelope.recipient_id := Envelope.BLOCK_STORAGE;
    Envelope.timestamp := 100; Envelope.nonce := n; Envelope.signature := [] |} in
  {| Envelope.version := 1; Envelope.correlation_id := []; Envelope.reply_to := None;
    Envelope.sender_id := sender; Envelope.recipient_id := Envelope.BLOCK_STORAGE;
    Envelope.timestamp := 100; Envelope.nonce := n;
    Envelope.signature := toy_hmac [42] (Envelope.signed_bytes msg) |}.

(** The messages that store a block. *)
Definition storing (b : ValidatedBlock) (n : u64) : list HandlerStep :=
  let x := compute_block_hash poly_hash b in
  [Deliver env0 101 (sealed CONSENSUS n) (BlockValidated b x (bh_height (vb_header b)));
   Deliver env0 101 (sealed TRANSACTION_INDEXING (n + 1)) (MerkleRootComputed x 11);
   Deliver env0 101 (sealed STATE_MANAGEMENT (n + 2)) (StateRootComputed x 12)].

Definition sample_handler : BlockStorageHandler (KV := InMemoryKVStore) :=
  handler_new (new empty_kv storage_config_default) [42].

Definition ipc_run (l : list HandlerStep) : BlockStorageHandler (KV := InMemoryKVStore) :=
  handler_run poly_hash sum_crc toy_hmac sample_handler l.

Lemma ipc_run_app l1 l2 :
  ipc_run (l1 ++ l2) = handler_run poly_hash sum_crc toy_hmac (ipc_run l1) l2.
Proof. apply foldl_app. Qed.

(** Finalizing needs the finality subsystem's message: consensus' own is refused. *)
Definition finalizing (sender : u8) (n : u64) : HandlerStep :=
  Deliver env0 101 (sealed sender n) (MarkFinalized 1).

Lemma storing_in_range b n : block_in_range b -> Forall step_in_range (storing b n).
Proof. intros H. unfold storing. rewrite !Forall_cons. by split_and!. Qed.

Lemma blocks_in_range : block_in_range block0 /\ block_in_range block1.
Proof.
  split; apply sample_block_in_range; by apply (bool_decide_unpack _); vm_compute.
Qed.

Lemma handler_refines_storage_witness :
  let l1 := storing block0 1 ++ storing block1 4 in
  let l2 := [finalizing CONSENSUS 7; finalizing Envelope.FINALITY 8; Collect 200] in
  inv (view := data) poly_hash sum_crc (service (ipc_run l1))
  /\ get_latest_height (service (ipc_run l1)) = 1
  /\ extends (view := data) (service (ipc_run l1)) (service (ipc_run (l1 ++ l2)))
  /\ get_finalized_height (service (ipc_run (l1 ++ l2))) = 1
  /\ get_finalized_height (service (ipc_run (l1 ++ [finalizing CONSENSUS 7]))) = 0.
Proof.
  intros l1 l2.
  assert (H1 : Forall step_in_range l1).
  { apply Forall_app. split; apply storing_in_range, blocks_in_range. }
  assert (H2 : Forall step_in_range l2) by (by repeat constructor).
  destruct (handler_refines_storage poly_hash sum_crc toy_hmac (view := data) poly_hash_in_width
    empty_kv storage_config_default [42] l1 l2 eq_refl H1 H2) as (_ & Hi & He).
  split; [exact Hi|]. split; [by vm_compute|]. split; [|split; by vm_compute].
  rewrite ipc_run_app. exact He.
Defined.

(** A second block for a height that is taken: consensus' message is answered
    with the announcement that it was stored, under its hash, with the roots of
    the block that is there; the block itself is not in the store. *)
Example unstored_block_announced :
  let h := ipc_run (storing block0 1 ++ storing block1 4) in
  let x := compute_block_hash poly_hash fork1 in
  let out := handle_block_validated poly_hash sum_crc toy_hmac env0 101 (sealed CONSENSUS 7)
    fork1 x 1 h in
  (exists p, out.2 = Ok (Some p) /\ bs_block_hash p = x /\ bs_block_height p = 1
     /\ bs_merkle_root p = 11)
  /\ block_exists (service out.1) x = false.
Proof. vm_compute. split; [eexists|]; by repeat split. Qed.

(** With the genesis block alone in the store the chain information has neither
    its hash nor any recent block. *)
Example genesis_not_reported :
  let h := ipc_run (storing block0 1) in
  block_exists_at_height (service h) 0 = true
  /\ handle_get_chain_info poly_hash sum_crc 10 h
     = {| ci_chain_tip_height := 0; ci_chain_tip_hash := 0; ci_chain_tip_timestamp := 0;
          ci_recent_blocks := [] |}.
Proof. split; by vm_compute. Qed.
