(* ===== verification/TxIndex.v ===== *)
(** * Transaction indexing: the index and its message handlers

    Models the transaction index ([TransactionIndex] of
    [qc-03-transaction-indexing/src/domain/entities.rs]) and the handlers in
    front of it ([src/ipc/handler.rs], [payloads.rs], [errors.rs]): a validated
    block is turned into a Merkle tree, its transactions are located, and proof
    requests are answered from the cached trees.

    The cache of trees is the third-party [lru] crate: the class [LruCache] has
    the operations the code calls and [LruCacheLaws] what it relies on.  HMAC-SHA256
    and SHA3-256 are arguments, [now] is the wall clock in seconds.  The
    counters that only feed dashboards (speed, latency, depth) and the texts of
    errors are left out. *)

From S2P Require Import Prelude Blocks Merkle MerkleFacts MerkleProps.
From stdpp Require Import strings.
Local Open Scope Z_scope.
Local Open Scope qc_scope.

(** ** The cache of trees *)

Class LruCache (C : Type) := {
  lru_new : nat -> C;
  lru_put : Hash -> MerkleTree -> C -> C;
  lru_get : Hash -> C -> C * option MerkleTree;
  lru_contains : Hash -> C -> bool;
  lru_len : C -> nat
}.

(** A cache holds a map of at most [cap] entries: a new entry may drop others but
    changes none, and drops none while there is room; a lookup only reorders. *)
Class LruCacheLaws {C} (L : LruCache C) (cached : C -> gmap Hash MerkleTree) (cap : C -> nat) := {
  lru_new_spec n : cached (lru_new n) = ∅ /\ cap (lru_new n) = n;
  lru_put_cap k t c : cap (lru_put k t c) = cap c;
  lru_put_spec k t c : (0 < cap c)%nat ->
    exists kept, kept ⊆ cached c /\ cached (lru_put k t c) = <[k := t]> kept
    /\ (size (cached c) < cap c \/ is_Some (cached c !! k) -> kept = cached c)%nat;
  lru_bound k t c : (0 < cap c -> size (cached c) <= cap c ->
    size (cached (lru_put k t c)) <= cap c)%nat;
  lru_get_spec k c : (lru_get k c).2 = cached c !! k
    /\ cached (lru_get k c).1 = cached c /\ cap (lru_get k c).1 = cap c;
  lru_contains_spec k c : lru_contains k c = bool_decide (is_Some (cached c !! k));
  lru_len_spec c : lru_len c = size (cached c)
}.

(** ** [TransactionIndex] *)

Record IndexConfig := { max_cached_trees : nat; persist_index : bool }.
Definition index_config_default : IndexConfig := {|
  max_cached_trees := 1000; persist_index := true
|}.

Record TransactionLocation := {
  tl_block_height : u64;
  tl_block_hash : Hash;
  tl_tx_index : nat;
  tl_merkle_root : Hash
}.

Record IndexingStats := {
  total_indexed_txs : u64;
  cached_trees : nat;
  proofs_generated : u64;
  proofs_verified : u64;
  last_indexed_height : u64;
  last_merkle_root : option Hash
}.

Definition stats_default : IndexingStats := {|
  total_indexed_txs := 0; cached_trees := 0; proofs_generated := 0; proofs_verified := 0;
  last_indexed_height := 0; last_merkle_root := None
|}.

Section index.
Context {C : Type} {L : LruCache C}.

Record TransactionIndex := {
  locations : gmap Hash TransactionLocation;
  trees : C;
  config : IndexConfig;
  stats : IndexingStats
}.

Definition index_new (config : IndexConfig) : TransactionIndex := {|
  locations := ∅;
  trees := lru_new (if (max_cached_trees config =? 0)%nat then 1000 else max_cached_trees config)%nat;
  config := config; stats := stats_default
|}.

Definition set_stats (i : TransactionIndex) (s : IndexingStats) : TransactionIndex := {|
  locations := locations i; trees := trees i; config := config i; stats := s
|}.

Definition put_location (tx_hash : Hash) (location : TransactionLocation) (i : TransactionIndex)
  : TransactionIndex := {|
  locations := <[tx_hash := location]> (locations i); trees := trees i; config := config i;
  stats := {| total_indexed_txs := wrapping_add 64 (total_indexed_txs (stats i)) 1;
    cached_trees := cached_trees (stats i); proofs_generated := proofs_generated (stats i);
    proofs_verified := proofs_verified (stats i);
    last_indexed_height := last_indexed_height (stats i);
    last_merkle_root := last_merkle_root (stats i) |}
|}.

Definition get_location (tx_hash : Hash) (i : TransactionIndex) : option TransactionLocation :=
  locations i !! tx_hash.

Definition is_indexed (tx_hash : Hash) (i : TransactionIndex) : bool :=
  bool_decide (is_Some (locations i !! tx_hash)).

Definition cache_tree (block_hash : Hash) (tree : MerkleTree) (i : TransactionIndex)
  : TransactionIndex :=
  let trees := lru_put block_hash tree (trees i) in {|
  locations := locations i; trees := trees; config := config i;
  stats := {| total_indexed_txs := total_indexed_txs (stats i);
    cached_trees := lru_len trees; proofs_generated := proofs_generated (stats i);
    proofs_verified := proofs_verified (stats i);
    last_indexed_height := last_indexed_height (stats i);
    last_merkle_root := last_merkle_root (stats i) |}
|}.

Definition get_tree (block_hash : Hash) (i : TransactionIndex)
  : TransactionIndex * option MerkleTree :=
  let '(c, t) := lru_get block_hash (trees i) in
  ({| locations := locations i; trees := c; config := config i; stats := stats i |}, t).

Definition has_tree (block_hash : Hash) (i : TransactionIndex) : bool :=
  lru_contains block_hash (trees i).

Definition get_tx_count_for_block (block_height : u64) (i : TransactionIndex) : option Z :=
  let count := Z.of_nat (length (base.filter
    (fun e => tl_block_height e.2 = block_height) (map_to_list (locations i)))) in
  if 0 <? count then Some count else None.

Definition record_proof_generated (i : TransactionIndex) : TransactionIndex :=
  set_stats i {| total_indexed_txs := total_indexed_txs (stats i);
    cached_trees := cached_trees (stats i);
    proofs_generated := wrapping_add 64 (proofs_generated (stats i)) 1;
    proofs_verified := proofs_verified (stats i);
    last_indexed_height := last_indexed_height (stats i);
    last_merkle_root := last_merkle_root (stats i) |}.

(** The loop that locates the transactions of a block, shared by the message
    handler and the adapter of the node runtime. *)
Definition index_block (block_hash : Hash) (block_height : u64) (merkle_root : Hash)
  (tx_hashes : list Hash) (i : TransactionIndex) : TransactionIndex :=
  foldl (fun i '(idx, tx_hash) => put_location tx_hash {|
      tl_block_height := block_height; tl_block_hash := block_hash; tl_tx_index := idx;
      tl_merkle_root := merkle_root |} i) i (imap pair tx_hashes).

End index.
Arguments TransactionIndex C : clear implicits.

(** ** [errors.rs], [payloads.rs] *)

Inductive IndexingErrorType :=
| TransactionNotFoundType | TreeNotCachedType | InvalidIndexType | EmptyBlockType
| SerializationErrorType | StorageErrorType | UnauthorizedSenderType | CommunicationErrorType
| TimeoutType | ProofTooDeepType.

Record IndexingErrorPayload := {
  error_type : IndexingErrorType;
  ie_transaction_hash : option Hash;
  ie_block_hash : option Hash
}.

Definition error_payload (err : IndexingError) : IndexingErrorPayload :=
  let plain t := {| error_type := t; ie_transaction_hash := None; ie_block_hash := None |} in
  match err with
  | TransactionNotFound tx_hash =>
      {| error_type := TransactionNotFoundType; ie_transaction_hash := Some tx_hash;
         ie_block_hash := None |}
  | TreeNotCached block_hash =>
      {| error_type := TreeNotCachedType; ie_transaction_hash := None;
         ie_block_hash := Some block_hash |}
  | InvalidIndex _ _ => plain InvalidIndexType
  | EmptyBlock block_hash =>
      {| error_type := EmptyBlockType; ie_transaction_hash := None;
         ie_block_hash := Some block_hash |}
  | SerializationError => plain SerializationErrorType
  | StorageError => plain StorageErrorType
  | UnauthorizedSender _ _ => plain UnauthorizedSenderType
  | CommunicationError => plain CommunicationErrorType
  | Timeout => plain TimeoutType
  | ProofTooDeep _ _ => plain ProofTooDeepType
  end.

Record MerkleRootComputedPayload := {
  mr_block_hash : Hash;
  mr_block_height : u64;
  mr_merkle_root : Hash;
  mr_transaction_count : nat
}.

Record MerkleProofResponsePayload := {
  mpr_transaction_hash : Hash;
  mpr_proof : option MerkleProof;
  mpr_error : option IndexingErrorPayload
}.

Definition proof_success (t : Hash) (p : MerkleProof) : MerkleProofResponsePayload :=
  {| mpr_transaction_hash := t; mpr_proof := Some p; mpr_error := None |}.
Definition proof_error (t : Hash) (e : IndexingErrorPayload) : MerkleProofResponsePayload :=
  {| mpr_transaction_hash := t; mpr_proof := None; mpr_error := Some e |}.

Record TransactionLocationResponsePayload := {
  tlr_transaction_hash : Hash;
  tlr_location : option TransactionLocation;
  tlr_error : option IndexingErrorPayload
}.

Definition location_success (t : Hash) (l : TransactionLocation)
  : TransactionLocationResponsePayload :=
  {| tlr_transaction_hash := t; tlr_location := Some l; tlr_error := None |}.
Definition location_error (t : Hash) (e : IndexingErrorPayload)
  : TransactionLocationResponsePayload :=
  {| tlr_transaction_hash := t; tlr_location := None; tlr_error := Some e |}.

(** ** The envelope validator of [handler.rs] *)

Module Envelope.

Definition TRANSACTION_INDEXING : u8 := 3.
Definition CONSENSUS : u8 := 8.

Record AuthenticatedMessage := {
  version : u8;
  correlation_id : list u8;
  sender_id : u8;
  recipient_id : u8;
  timestamp : u64;
  nonce : u64;
  signature : list u8
}.

Inductive EnvelopeError :=
| UnsupportedVersion (version : u8)
| TimestampOutOfRange (timestamp current : u64)
| InvalidSignature
| NonceReused (nonce : u64)
| UnauthorizedSender (sender_id : u8) (expected : list u8)
| WrongRecipient (expected actual : u8).

Record EnvelopeValidator := {
  subsystem_id : u8;
  shared_secret : list u8;
  nonce_cache : gset u64;
  timestamp_window_secs : u64
}.

Definition new (subsystem_id : u8) (shared_secret : list u8) : EnvelopeValidator := {|
  subsystem_id := subsystem_id; shared_secret := shared_secret; nonce_cache := ∅;
  timestamp_window_secs := 60
|}.

Definition signed_bytes (msg : AuthenticatedMessage) : list u8 :=
  le_bytes 1 (version msg) ++ correlation_id msg ++ [sender_id msg] ++ [recipient_id msg] ++
  le_bytes 8 (timestamp msg) ++ le_bytes 8 (nonce msg).

Section validator.
Context (hmac : list u8 -> list u8 -> list u8).

Definition verify_signature (v : EnvelopeValidator) (msg : AuthenticatedMessage) : bool :=
  bool_decide (hmac (shared_secret v) (signed_bytes msg) = signature msg).

Definition validate (current : u64) (msg : AuthenticatedMessage) (v : EnvelopeValidator)
  : EnvelopeValidator * result EnvelopeError unit :=
  if (version msg <? 1) || (2 <? version msg) then (v, Err (UnsupportedVersion (version msg)))
  else if negb (recipient_id msg =? subsystem_id v) then
    (v, Err (WrongRecipient (subsystem_id v) (recipient_id msg)))
  else if (wrapping_add 64 current (timestamp_window_secs v) <? timestamp msg)
       || (timestamp msg <? saturating_sub current (timestamp_window_secs v)) then
    (v, Err (TimestampOutOfRange (timestamp msg) current))
  else if bool_decide (nonce msg ∈ nonce_cache v) then (v, Err (NonceReused (nonce msg)))
  else
    let v := {| subsystem_id := subsystem_id v; shared_secret := shared_secret v;
      nonce_cache := {[nonce msg]} ∪ nonce_cache v;
      timestamp_window_secs := timestamp_window_secs v |} in
    if negb (verify_signature v msg) then (v, Err InvalidSignature) else (v, Ok tt).

Definition validate_sender (sender_id : u8) (allowed : list u8) : result EnvelopeError unit :=
  if negb (bool_decide (sender_id ∈ allowed)) then Err (UnauthorizedSender sender_id allowed)
  else Ok tt.

Lemma validate_fresh current msg v : (validate current msg v).2 = Ok tt ->
  nonce msg ∉ nonce_cache v.
Proof.
  unfold validate. cbn zeta. repeat case_match; try done. by bools.
Qed.

Lemma validate_keeps current msg v :
  nonce_cache v ⊆ nonce_cache (validate current msg v).1.
Proof. unfold validate. cbn zeta. repeat case_match; cbn; set_solver. Qed.

Lemma validate_remembers current msg v : (validate current msg v).2 = Ok tt ->
  nonce msg ∈ nonce_cache (validate current msg v).1.
Proof. unfold validate. cbn zeta. repeat case_match; cbn; try done; set_solver. Qed.

Lemma validate_signed current msg v : (validate current msg v).2 = Ok tt ->
  hmac (shared_secret v) (signed_bytes msg) = signature msg.
Proof.
  unfold validate, verify_signature. cbn zeta. repeat case_match; try done. bools. done.
Qed.

Lemma validate_secret current msg v :
  shared_secret (validate current msg v).1 = shared_secret v.
Proof. unfold validate. cbn zeta. repeat case_match; done. Qed.

End validator.
End Envelope.

(** ** [TransactionIndexingHandler] *)

Section handler.
Context {C : Type} {L : LruCache C}.
Context (sha3 : list u8 -> Hash) (hmac : list u8 -> list u8 -> list u8).

Record TransactionIndexingHandler := {
  index : TransactionIndex C;
  validator : Envelope.EnvelopeValidator
}.

Definition handler_new (config : IndexConfig) (secret : list u8) : TransactionIndexingHandler := {|
  index := index_new config; validator := Envelope.new Envelope.TRANSACTION_INDEXING secret
|}.

Inductive HandlerError :=
| EnvelopeFailed (e : Envelope.EnvelopeError)
| IndexingFailed (e : IndexingError).

Definition set_index (h : TransactionIndexingHandler) (i : TransactionIndex C)
  : TransactionIndexingHandler := {| index := i; validator := validator h |}.

Definition check_envelope (now : u64) (msg : Envelope.AuthenticatedMessage)
  (h : TransactionIndexingHandler) : TransactionIndexingHandler * result HandlerError unit :=
  let '(v, res) := Envelope.validate hmac now msg (validator h) in
  ({| index := index h; validator := v |},
   match res with Ok u => Ok u | Err e => Err (EnvelopeFailed e) | Panic => Panic end).

Definition hash_transaction (tx : ValidatedTransaction) : Hash := vt_tx_hash tx.

Definition handle_block_validated (now : u64) (msg : Envelope.AuthenticatedMessage)
  (block : ValidatedBlock) (block_hash : Hash) (block_height : u64)
  (h : TransactionIndexingHandler)
  : TransactionIndexingHandler * result HandlerError MerkleRootComputedPayload :=
  let? (h, u) := check_envelope now msg h in
  let? (h, u) := (h, match Envelope.validate_sender (Envelope.sender_id msg) [Envelope.CONSENSUS] with
    | Ok u => Ok u | Err e => Err (EnvelopeFailed e) | Panic => Panic end) in
  let tx_hashes := hash_transaction <$> vb_transactions block in
  match build sha3 tx_hashes with
  | None => (h, Panic)
  | Some tree =>
      let i := index_block block_hash block_height (root tree) tx_hashes (index h) in
      let i := cache_tree block_hash tree i in
      (set_index h i,
       Ok {| mr_block_hash := block_hash; mr_block_height := block_height;
             mr_merkle_root := root tree;
             mr_transaction_count := length (vb_transactions block) |})
  end.

Definition handle_merkle_proof_request (now : u64) (msg : Envelope.AuthenticatedMessage)
  (transaction_hash : Hash) (h : TransactionIndexingHandler)
  : TransactionIndexingHandler * result HandlerError MerkleProofResponsePayload :=
  let? (h, u) := check_envelope now msg h in
  match get_location transaction_hash (index h) with
  | None => (h, Ok (proof_error transaction_hash
      (error_payload (TransactionNotFound transaction_hash))))
  | Some location =>
      let '(i, tree) := get_tree (tl_block_hash location) (index h) in
      let h := set_index h i in
      match tree with
      | None => (h, Ok (proof_error transaction_hash
          (error_payload (TreeNotCached (tl_block_hash location)))))
      | Some tree =>
          match generate_proof tree (tl_tx_index location) (tl_block_height location)
            (tl_block_hash location) with
          | Ok proof => (set_index h (record_proof_generated (index h)),
              Ok (proof_success transaction_hash proof))
          | Err e => (h, Ok (proof_error transaction_hash (error_payload e)))
          | Panic => (h, Panic)
          end
      end
  end.

Definition handle_transaction_location_request (now : u64) (msg : Envelope.AuthenticatedMessage)
  (transaction_hash : Hash) (h : TransactionIndexingHandler)
  : TransactionIndexingHandler * result HandlerError TransactionLocationResponsePayload :=
  let? (h, u) := check_envelope now msg h in
  (h, Ok (match get_location transaction_hash (index h) with
    | Some location => location_success transaction_hash location
    | None => location_error transaction_hash (error_payload (TransactionNotFound transaction_hash))
    end)).

(** ** Messages *)

Inductive IndexMessage :=
| BlockValidated (block : ValidatedBlock) (block_hash : Hash) (block_height : u64)
| MerkleProofRequest (transaction_hash : Hash)
| TransactionLocationRequest (transaction_hash : Hash).

Definition handle_message (h : TransactionIndexingHandler)
  (m : u64 * Envelope.AuthenticatedMessage * IndexMessage) : TransactionIndexingHandler :=
  let '(now, msg, p) := m in
  match p with
  | BlockValidated b x k => (handle_block_validated now msg b x k h).1
  | MerkleProofRequest t => (handle_merkle_proof_request now msg t h).1
  | TransactionLocationRequest t => (handle_transaction_location_request now msg t h).1
  end.

Definition handle_messages (h : TransactionIndexingHandler)
  (l : list (u64 * Envelope.AuthenticatedMessage * IndexMessage)) : TransactionIndexingHandler :=
  foldl handle_message h l.

End handler.
Arguments TransactionIndexingHandler C : clear implicits.

(** ** Facts *)

Lemma build_total sha3 txs : exists t, build sha3 txs = Some t.
Proof.
  destruct txs as [|x l]; [by eexists|].
  destruct (build_heap sha3 (x :: l)) as (t & Ht & _); [done|by exists t].
Qed.

Section facts.
Context {C : Type} {L : LruCache C}.

Lemma index_block_trees x k r l : forall (i : TransactionIndex C),
  trees (index_block x k r l i) = trees i /\ config (index_block x k r l i) = config i.
Proof.
  intros i. unfold index_block. generalize (imap pair l). intros ps. revert i.
  induction ps as [|[j t] ps IH]; intros i; [done|].
  cbn [foldl]. rewrite (proj1 (IH _)), (proj2 (IH _)). done.
Qed.

(** The location of a transaction of the block is the one of its last
    occurrence; the others keep theirs. *)
Lemma index_block_locations x k r l : forall (i : TransactionIndex C) t,
  (exists j, l !! j = Some t /\ locations (index_block x k r l i) !! t = Some
     {| tl_block_height := k; tl_block_hash := x; tl_tx_index := j; tl_merkle_root := r |})
  \/ (t ∉ l /\ locations (index_block x k r l i) !! t = locations i !! t).
Proof.
  induction l as [|a l IH] using rev_ind; intros i t; [right; split; [apply not_elem_of_nil|done]|].
  unfold index_block. rewrite imap_app, foldl_app. cbn [imap foldl]. rewrite Nat.add_0_r.
  destruct (decide (t = a)) as [->|Hne].
  - left. exists (length l). split; [by rewrite list_lookup_middle|]. cbn. apply lookup_insert_eq.
  - cbn [put_location locations]. rewrite lookup_insert_ne by done. destruct (IH i t) as [(j & Hj & E)|[Hn E]].
    + left. exists j. split; [by apply lookup_app_l_Some|done].
    + right. split; [|done]. rewrite elem_of_app, list_elem_of_singleton. by intros [].
Qed.

End facts.

(** ** What the answers rest on *)

Section answers.
Context {C : Type} {L : LruCache C} {cached : C -> gmap Hash MerkleTree} {cap : C -> nat}.
Context {LL : LruCacheLaws L cached cap}.
Context (sha3 : list u8 -> Hash) (hmac : list u8 -> list u8 -> list u8).

Abbreviation message := (u64 * Envelope.AuthenticatedMessage * IndexMessage)%type.

(** Among the messages [l] is a block with the hash [x], the height [k] and the
    transactions [txs], signed under the shared secret in the name of consensus. *)
Definition carried (secret : list u8) (l : list message) (x : Hash) (k : u64) (txs : list Hash)
  : Prop :=
  exists now msg b, (now, msg, BlockValidated b x k) ∈ l
    /\ Envelope.sender_id msg = Envelope.CONSENSUS
    /\ hmac secret (Envelope.signed_bytes msg) = Envelope.signature msg
    /\ txs = hash_transaction <$> vb_transactions b.

Lemma carried_mono secret l l' x k txs : l ⊆ l' -> carried secret l x k txs ->
  carried secret l' x k txs.
Proof. intros Hl (now & msg & b & Hin & ?). exists now, msg, b. split; [by apply Hl|done]. Qed.

(** Every location names a carried block that has the transaction there, every
    cached tree is the tree of a carried block, and the cache is within its
    bound. *)
Record index_inv (secret : list u8) (l : list message) (bound : nat) (i : TransactionIndex C)
  : Prop := {
  ii_location t loc : locations i !! t = Some loc -> exists txs tree,
    carried secret l (tl_block_hash loc) (tl_block_height loc) txs
    /\ txs !! tl_tx_index loc = Some t
    /\ build sha3 txs = Some tree /\ root tree = tl_merkle_root loc;
  ii_tree x tree : cached (trees i) !! x = Some tree -> exists k txs,
    carried secret l x k txs /\ build sha3 txs = Some tree;
  ii_cap : cap (trees i) = bound;
  ii_bound : (0 < bound /\ size (cached (trees i)) <= bound)%nat
}.

Lemma index_inv_mono secret l l' bound i : l ⊆ l' ->
  index_inv secret l bound i -> index_inv secret l' bound i.
Proof.
  intros Hl [H1 H2 H3 H4]. split; [| |done|done].
  - intros t loc Ht. destruct (H1 t loc Ht) as (txs & tree & Hc & ?). exists txs, tree.
    split; [by eapply carried_mono|done].
  - intros x tree Hx. destruct (H2 x tree Hx) as (k & txs & Hc & ?). exists k, txs.
    split; [by eapply carried_mono|done].
Qed.

Lemma get_tree_spec x (i : TransactionIndex C) :
  (get_tree x i).2 = cached (trees i) !! x
  /\ locations (get_tree x i).1 = locations i
  /\ cached (trees (get_tree x i).1) = cached (trees i)
  /\ cap (trees (get_tree x i).1) = cap (trees i).
Proof.
  unfold get_tree. destruct (lru_get_spec x (trees i)) as (H1 & H2 & H3).
  destruct (lru_get x (trees i)) as [c t]. cbn in *. done.
Qed.

Lemma index_inv_ext secret l bound (i j : TransactionIndex C) :
  locations j = locations i -> cached (trees j) = cached (trees i) ->
  cap (trees j) = cap (trees i) -> index_inv secret l bound i -> index_inv secret l bound j.
Proof. intros E1 E2 E3 [H1 H2 H3 H4]. split; rewrite ?E1, ?E2, ?E3; done. Qed.

Lemma index_new_inv secret config :
  index_inv secret []
    (if (max_cached_trees config =? 0)%nat then 1000 else max_cached_trees config)%nat
    (index_new config).
Proof.
  unfold index_new.
  destruct (lru_new_spec (if (max_cached_trees config =? 0)%nat then 1000
    else max_cached_trees config)%nat) as [E1 E2].
  split; cbn [locations trees]; rewrite ?E1, ?E2; try done.
  split; [|rewrite map_size_empty; lia].
  destruct (Nat.eqb_spec (max_cached_trees config) 0); lia.
Qed.

Lemma index_block_inv secret l bound (i : TransactionIndex C) x k txs tree :
  carried secret l x k txs -> build sha3 txs = Some tree -> index_inv secret l bound i ->
  index_inv secret l bound (cache_tree x tree (index_block x k (root tree) txs i)).
Proof.
  intros Hc Hb [H1 H2 H3 H4]. destruct (index_block_trees x k (root tree) txs i) as [Et _].
  unfold cache_tree. rewrite Et. split; cbn [locations trees].
  - intros t loc. destruct (index_block_locations x k (root tree) txs i t) as [(j & Hj & ->)|[_ ->]].
    + intros [= <-]. by exists txs, tree.
    + apply H1.
  - destruct (lru_put_spec x tree (trees i)) as (kept & Hk & -> & _); [rewrite H3; apply H4|].
    intros y t'. destruct (decide (y = x)) as [->|Hne].
    + rewrite lookup_insert_eq. intros [= <-]. by exists k, txs.
    + rewrite lookup_insert_ne by done. intros Hy. apply (H2 y t').
      by eapply lookup_weaken.
  - by rewrite lru_put_cap.
  - split; [apply H4|]. rewrite <-H3. apply lru_bound; rewrite H3; apply H4.
Qed.

Lemma check_envelope_index now msg (h : TransactionIndexingHandler C) :
  index (check_envelope hmac now msg h).1 = index h.
Proof. unfold check_envelope. by destruct (Envelope.validate _ _ _ _). Qed.

Lemma check_envelope_secret now msg (h : TransactionIndexingHandler C) :
  Envelope.shared_secret (validator (check_envelope hmac now msg h).1)
  = Envelope.shared_secret (validator h).
Proof.
  unfold check_envelope. pose proof (Envelope.validate_secret hmac now msg (validator h)) as E.
  by destruct (Envelope.validate _ _ _ _).
Qed.

Lemma check_envelope_signed now msg (h : TransactionIndexingHandler C) :
  (check_envelope hmac now msg h).2 = Ok tt ->
  hmac (Envelope.shared_secret (validator h)) (Envelope.signed_bytes msg) = Envelope.signature msg.
Proof.
  unfold check_envelope. pose proof (Envelope.validate_signed hmac now msg (validator h)) as E.
  destruct (Envelope.validate _ _ _ _) as [v [[]|e|]]; cbn in *; [|done..]. auto.
Qed.

(** A message keeps the secret and the invariant. *)
Lemma handle_message_inv secret l bound (h : TransactionIndexingHandler C) m :
  Envelope.shared_secret (validator h) = secret -> index_inv secret l bound (index h) ->
  Envelope.shared_secret (validator (handle_message sha3 hmac h m)) = secret
  /\ index_inv secret (l ++ [m]) bound (index (handle_message sha3 hmac h m)).
Proof.
  intros Hs Hi.
  assert (Hi' : index_inv secret (l ++ [m]) bound (index h))
    by (eapply index_inv_mono; [|done]; set_solver).
  destruct m as [[now msg] p].
  pose proof (check_envelope_index now msg h) as Ex.
  pose proof (check_envelope_secret now msg h) as Es.
  pose proof (check_envelope_signed now msg h) as Eg. rewrite Hs in Es, Eg.
  destruct p as [b x k|t|t]; cbn [handle_message];
    unfold handle_block_validated, handle_merkle_proof_request, handle_transaction_location_request;
    destruct (check_envelope hmac now msg h) as [h1 [[]|e|]]; cbn [fst snd sbind] in *;
    rewrite <-?Ex in Hi'; try done.
  - unfold Envelope.validate_sender. case_bool_decide as Hin; cbn [negb sbind fst]; [|done].
    apply list_elem_of_singleton in Hin.
    destruct (build_total sha3 (hash_transaction <$> vb_transactions b)) as [tree Hb]. rewrite Hb.
    cbn [fst set_index index validator]. split; [done|].
    apply (index_block_inv secret _ bound (index h1)); [|done|done].
    exists now, msg, b. split_and!; [set_solver|done|auto|done].
  - destruct (get_location t (index h1)) as [loc|]; [|done].
    destruct (get_tree_spec (tl_block_hash loc) (index h1)) as (E1 & E2 & E3 & E4).
    destruct (get_tree (tl_block_hash loc) (index h1)) as [i [tree|]]; cbn [fst snd] in *;
      [|split; [done|by eapply index_inv_ext]].
    destruct (generate_proof _ _ _ _); cbn [fst set_index index validator];
      (split; [done|]); by eapply index_inv_ext.
Qed.

Lemma handle_messages_inv secret config l :
  let h := handle_messages sha3 hmac (handler_new config secret) l in
  Envelope.shared_secret (validator h) = secret
  /\ index_inv secret l
       (if (max_cached_trees config =? 0)%nat then 1000 else max_cached_trees config)%nat (index h).
Proof.
  induction l as [|m l IH] using rev_ind; cbn zeta; [by split; [|apply index_new_inv]|].
  unfold handle_messages. rewrite foldl_app. cbn [foldl]. destruct IH as [H1 H2].
  by apply handle_message_inv.
Qed.

(** All blocks that consensus sent under the hash have the same transactions. *)
Definition one_content (secret : list u8) (l : list message) (x : Hash) : Prop :=
  forall k1 k2 txs1 txs2, carried secret l x k1 txs1 -> carried secret l x k2 txs2 -> txs1 = txs2.

(** What the tree of [txs] answers for an index. *)
Lemma generate_proof_cases txs tree i k x : build sha3 txs = Some tree ->
  match generate_proof tree i k x with
  | Ok p => exists t, txs !! i = Some t /\ mp_leaf_hash p = t /\ mp_tx_index p = i
      /\ mp_block_height p = k /\ mp_block_hash p = x /\ mp_root p = root tree
      /\ verify_proof_static sha3 t (mp_path p) (root tree) = true
  | Err _ => txs !! i = None
  | Panic => False
  end.
Proof.
  intros Hb. destruct (txs !! i) as [t|] eqn:Ei.
  - destruct (generate_proof_ok sha3 txs tree i t k x Hb Ei) as (path & -> & _ & Hv & _). exists t.
    split_and!; try done. unfold verify_proof_static. by apply Z.eqb_eq.
  - unfold generate_proof. apply lookup_ge_None in Ei. by rewrite (build_count _ _ _ Hb), (proj2 (Nat.leb_le _ _)).
Qed.

(** C21 (safety): a proof in an answer is a proof.  Whatever messages came before,
    a proof request is answered without a panic, and the cache never exceeds its
    bound.  A proof in the answer verifies from its leaf to the root of the Merkle
    tree of a block that consensus sent with the stated hash and that has the
    leaf at the stated index, and a block that consensus sent with the stated hash
    and height has the transaction asked for at that index.  If all blocks that
    consensus sent under this hash have the same transactions (the handler does
    not check it), the leaf is the transaction asked for.  An answer
    without a proof says that the transaction is not located, that the tree of
    its block was evicted, or that its hash was sent with different
    transactions. *)
Theorem proof_answers_sound secret config l now msg t :
  let h := handle_messages sha3 hmac (handler_new config secret) l in
  let out := (handle_merkle_proof_request hmac now msg t h).2 in
  out <> Panic
  /\ (lru_len (trees (index h)) <=
       if (max_cached_trees config =? 0)%nat then 1000 else max_cached_trees config)%nat
  /\ forall a, out = Ok a ->
     match mpr_proof a with
     | Some p =>
         verify_proof_static sha3 (mp_leaf_hash p) (mp_path p) (mp_root p) = true
         /\ (exists k txs tree, carried secret l (mp_block_hash p) k txs
              /\ txs !! mp_tx_index p = Some (mp_leaf_hash p)
              /\ build sha3 txs = Some tree /\ root tree = mp_root p)
         /\ (exists txs, carried secret l (mp_block_hash p) (mp_block_height p) txs
              /\ txs !! mp_tx_index p = Some t)
         /\ (one_content secret l (mp_block_hash p) -> mp_leaf_hash p = t)
     | None => is_indexed t (index h) = false
         \/ exists loc, get_location t (index h) = Some loc
              /\ (has_tree (tl_block_hash loc) (index h) = false
                  \/ ~ one_content secret l (tl_block_hash loc))
     end.
Proof.
  cbn zeta. destruct (handle_messages_inv secret config l) as [_ Hi].
  set (h := handle_messages _ _ _ _) in *. destruct Hi as [H1 H2 _ H4].
  unfold handle_merkle_proof_request. pose proof (check_envelope_index now msg h) as Ex.
  assert (Hp : (check_envelope hmac now msg h).2 <> Panic).
  { unfold check_envelope, Envelope.validate. cbn zeta. repeat case_match; simplify_eq; done. }
  rewrite lru_len_spec. split_and!; [|apply H4|];
    destruct (check_envelope hmac now msg h) as [h1 [[]|e|]]; cbn [fst snd sbind] in *; try done;
    rewrite Ex; unfold get_location, is_indexed, has_tree in *;
    destruct (locations (index h) !! t) as [loc|] eqn:El; cbn [snd]; try done.
  3: intros a [= <-]; by left.
  all: destruct (get_tree_spec (tl_block_hash loc) (index h)) as (E1 & _);
    destruct (get_tree (tl_block_hash loc) (index h)) as [i tr]; cbn [snd] in E1; subst tr;
    destruct (cached (trees (index h)) !! tl_block_hash loc) as [tree|] eqn:Et; cbn [snd]; try done.
  3:{ intros a [= <-]. right. exists loc. split; [done|]. left.
      by rewrite lru_contains_spec, Et. }
  all: destruct (H1 t loc El) as (txs & tree1 & Hc & Hidx & Hb1 & Hr);
    destruct (H2 _ tree Et) as (k2 & txs2 & Hc2 & Hb2);
    pose proof (generate_proof_cases txs2 tree (tl_tx_index loc) (tl_block_height loc) (tl_block_hash loc) Hb2) as Hg;
    destruct (generate_proof tree _ _ _) as [p|e|]; cbn [snd]; try done.
  - intros a [= <-]. cbn. destruct Hg as (t2 & E2 & <- & -> & -> & -> & -> & Hv). split_and!; [done|..].
    + by exists k2, txs2, tree.
    + by exists txs.
    + intros Ho. rewrite (Ho _ _ _ _ Hc2 Hc) in E2. congruence.
  - intros a [= <-]. right. exists loc. split; [done|]. right. intros Ho.
    rewrite (Ho _ _ _ _ Hc2 Hc) in Hg. congruence.
Qed.

(** A block that was accepted can be proved from.  Once a block
    of consensus is accepted, a request for any of its transactions that passes
    the envelope checks is answered with a proof against the root that was
    announced for the block. *)
Theorem accepted_block_provable secret config l now msg b x k r now' msg' t
  (h := handle_messages sha3 hmac (handler_new config secret) l)
  (out := handle_block_validated sha3 hmac now msg b x k h)
  (Hok : out.2 = Ok r)
  (Hin : t ∈ (hash_transaction <$> vb_transactions b))
  (Hreq : is_ok (check_envelope hmac now' msg' out.1).2 = true) :
  exists p, (handle_merkle_proof_request hmac now' msg' t out.1).2 = Ok (proof_success t p)
    /\ mp_block_hash p = x /\ mp_block_height p = k /\ mp_leaf_hash p = t
    /\ mp_root p = mr_merkle_root r
    /\ verify_proof_static sha3 t (mp_path p) (mr_merkle_root r) = true.
Proof.
  destruct (handle_messages_inv secret config l) as [_ Hi]. fold h in Hi.
  destruct Hi as [_ _ H3 H4]. revert Hok Hreq. subst out. unfold handle_block_validated.
  pose proof (check_envelope_index now msg h) as Ex.
  destruct (check_envelope hmac now msg h) as [h1 [[]|e|]]; cbn [sbind fst snd] in *; try done.
  destruct (Envelope.validate_sender _ _); cbn [sbind]; try done.
  destruct (build_total sha3 (hash_transaction <$> vb_transactions b)) as [tree Hb]. rewrite Hb.
  cbn [fst snd]. intros [= <-] Hreq. cbn [mr_merkle_root].
  set (txs := hash_transaction <$> vb_transactions b) in *.
  set (h2 := set_index _ _) in *. unfold handle_merkle_proof_request.
  pose proof (check_envelope_index now' msg' h2) as Ex2.
  destruct (check_envelope hmac now' msg' h2) as [h3 [[]|e|]]; cbn [sbind fst snd] in *; try done.
  rewrite Ex2. unfold get_location. subst h2. cbn [set_index index].
  destruct (index_block_trees x k (root tree) txs (index h1)) as [Etr _].
  destruct (index_block_locations x k (root tree) txs (index h1) t) as [(j & Hj & El)|[Hn _]];
    [|done].
  cbn [cache_tree locations]. rewrite El. cbn [tl_block_hash].
  set (i2 := cache_tree _ _ _).
  destruct (get_tree_spec x i2) as (E1 & _). destruct (get_tree x i2) as [i3 tr].
  cbn [snd] in E1. subst tr.
  assert (Et : cached (trees i2) !! x = Some tree).
  { subst i2. cbn [cache_tree trees]. rewrite Etr.
    destruct (lru_put_spec x tree (trees (index h1))) as (kept & _ & -> & _);
      [rewrite Ex, H3; apply H4|]. apply lookup_insert_eq. }
  rewrite Et. cbn [tl_tx_index tl_block_height].
  destruct (generate_proof_ok sha3 txs tree j t k x Hb Hj) as (path & Hg & _ & Hv & _).
  rewrite Hg. eexists. split_and!; [done..|]. unfold verify_proof_static. by apply Z.eqb_eq.
Qed.

End answers.

(** ** A cache *)

(** Entries with the order of their last use, most recent first. *)
Record ListLru := {
  ll_map : gmap Hash MerkleTree;
  ll_order : list Hash;
  ll_cap : nat
}.

(** The least recently used entry. *)
Definition ll_victim (c : ListLru) : option Hash :=
  match last (base.filter (fun k => is_Some (ll_map c !! k)) (ll_order c)) with
  | Some k => Some k
  | None => head (map_to_list (ll_map c)).*1
  end.

Definition ll_touch (k : Hash) (o : list Hash) : list Hash := k :: base.filter (fun x => x <> k) o.

Definition ll_put (k : Hash) (t : MerkleTree) (c : ListLru) : ListLru :=
  let kept :=
    if bool_decide (is_Some (ll_map c !! k)) || (size (ll_map c) <? ll_cap c)%nat then ll_map c
    else match ll_victim c with Some v => delete v (ll_map c) | None => ll_map c end in
  {| ll_map := <[k := t]> kept; ll_order := ll_touch k (ll_order c); ll_cap := ll_cap c |}.

#[local] Instance list_lru : LruCache ListLru := {|
  lru_new n := {| ll_map := ∅; ll_order := []; ll_cap := n |};
  lru_put := ll_put;
  lru_get k c := ({| ll_map := ll_map c; ll_order := ll_touch k (ll_order c);
    ll_cap := ll_cap c |}, ll_map c !! k);
  lru_contains k c := bool_decide (is_Some (ll_map c !! k));
  lru_len c := size (ll_map c)
|}.

Lemma ll_victim_spec c v : ll_victim c = Some v -> is_Some (ll_map c !! v).
Proof.
  unfold ll_victim.
  destruct (last (base.filter (fun k => is_Some (ll_map c !! k)) (ll_order c))) as [k|] eqn:E.
  - intros [= <-]. apply last_Some_elem_of, list_elem_of_filter in E. apply E.
  - intros Hh. apply head_Some_elem_of, list_elem_of_fmap in Hh as ([k t] & -> & Hin).
    apply elem_of_map_to_list in Hin. by eexists.
Qed.

Lemma ll_victim_some c : ll_map c <> ∅ -> is_Some (ll_victim c).
Proof.
  intros Hne. unfold ll_victim. destruct (last _); [by eexists|].
  destruct (map_to_list (ll_map c)) as [|e l] eqn:E; [|by eexists].
  by apply map_to_list_empty_iff in E.
Qed.

#[local] Instance list_lru_laws : LruCacheLaws list_lru ll_map ll_cap.
Proof.
  split; try done.
  - cbn [lru_put list_lru]. intros k t c Hc. unfold ll_put. cbn [ll_map].
    destruct (bool_decide (is_Some (ll_map c !! k))) eqn:E1;
      rewrite ?orb_true_l, ?orb_false_l; bools.
    { exists (ll_map c). by split_and!. }
    destruct (Nat.ltb_spec (size (ll_map c)) (ll_cap c)) as [Hlt|Hge].
    { exists (ll_map c). by split_and!. }
    destruct (ll_victim c) as [v|]; eexists; (split_and!; [|done|]).
    + apply delete_subseteq.
    + intros [?|?]; [lia|done].
    + done.
    + done.
  - cbn [lru_put list_lru]. intros k t c Hc Hs. unfold ll_put. cbn [ll_map ll_cap].
    destruct (bool_decide (is_Some (ll_map c !! k))) eqn:E1;
      rewrite ?orb_true_l, ?orb_false_l; bools.
    { by rewrite map_size_insert_Some. }
    apply eq_None_not_Some in E1.
    destruct (Nat.ltb_spec (size (ll_map c)) (ll_cap c)) as [Hlt|Hge].
    { rewrite map_size_insert_None by done. lia. }
    destruct (ll_victim_some c) as [v Hv].
    { intros E. rewrite E, map_size_empty in Hge. lia. }
    rewrite Hv. pose proof (ll_victim_spec c v Hv) as Hsome.
    rewrite map_size_insert_None.
    + rewrite map_size_delete_Some by done. lia.
    + rewrite lookup_delete_None. by right.
Qed.

(** ** Concrete runs *)

Definition toy_hmac (key m : list u8) : list u8 := [toy_hash (key ++ m)].

Definition sealed (sender : u8) (n : u64) : Envelope.AuthenticatedMessage :=
  let msg := {| Envelope.version := 1; Envelope.correlation_id := [];
    Envelope.sender_id := sender; Envelope.recipient_id := Envelope.TRANSACTION_INDEXING;
    Envelope.timestamp := 100; Envelope.nonce := n; Envelope.signature := [] |} in
  {| Envelope.version := 1; Envelope.correlation_id := [];
    Envelope.sender_id := sender; Envelope.recipient_id := Envelope.TRANSACTION_INDEXING;
    Envelope.timestamp := 100; Envelope.nonce := n;
    Envelope.signature := toy_hmac [42] (Envelope.signed_bytes msg) |}.

Definition tx_with (hash : Hash) : ValidatedTransaction := {|
  vt_inner := {| rt_from := []; rt_to := None; rt_value := 0; rt_nonce := 0; rt_data := [];
                 rt_signature := [] |};
  vt_tx_hash := hash
|}.

Definition block_with (hashes : list Hash) : ValidatedBlock := {|
  vb_header := {| bh_version := 1; bh_height := 5; bh_parent_hash := 0; bh_merkle_root := 0;
    bh_state_root := 0; bh_timestamp := 0; bh_proposer := []; bh_difficulty := 0; bh_nonce := 0 |};
  vb_transactions := tx_with <$> hashes;
  vb_consensus_proof := {| cp_block_hash := 0; cp_attestations := []; cp_total_stake := 0 |}
|}.

Definition index_config_two : IndexConfig := {| max_cached_trees := 2; persist_index := true |}.
Definition one_block : list (u64 * Envelope.AuthenticatedMessage * IndexMessage) :=
  [(101, sealed Envelope.CONSENSUS 1, BlockValidated (block_with [21; 22; 23]) 9 5)].

Lemma proof_answers_sound_witness :
  let h := handle_messages toy_hash toy_hmac (handler_new (C := ListLru) index_config_two [42])
    one_block in
  exists p, (handle_merkle_proof_request toy_hmac 102 (sealed 13 2) 22 h).2 = Ok (proof_success 22 p)
    /\ verify_proof_static toy_hash (mp_leaf_hash p) (mp_path p) (mp_root p) = true.
Proof.
  destruct (proof_answers_sound (LL := list_lru_laws) toy_hash toy_hmac [42] index_config_two
    one_block 102 (sealed 13 2) 22) as (_ & _ & H).
  eexists. split; [vm_compute; reflexivity|].
  refine (proj1 (H (proof_success 22 _) _)). vm_compute. reflexivity.
Defined.

Lemma accepted_block_provable_witness :
  let h := handler_new (C := ListLru) index_config_two [42] in
  let out := handle_block_validated toy_hash toy_hmac 101 (sealed Envelope.CONSENSUS 1)
    (block_with [21; 22; 23]) 9 5 h in
  exists p, (handle_merkle_proof_request toy_hmac 102 (sealed 13 2) 22 out.1).2
    = Ok (proof_success 22 p) /\ mp_block_hash p = 9.
Proof.
  destruct (accepted_block_provable (LL := list_lru_laws) toy_hash toy_hmac [42] index_config_two
    [] 101 (sealed Envelope.CONSENSUS 1) (block_with [21; 22; 23]) 9 5
    {| mr_block_hash := 9; mr_block_height := 5;
       mr_merkle_root := root (default three_tree (build toy_hash [21; 22; 23]));
       mr_transaction_count := 3 |} 102 (sealed 13 2) 22) as (p & Hp & Hx & _).
  - vm_compute. reflexivity.
  - apply (bool_decide_unpack _). vm_compute. exact I.
  - vm_compute. reflexivity.
  - exists p. split; [exact Hp|exact Hx].
Defined.

(** The hash in the event is not checked against the block: a second event with
    the same hash replaces the tree, and a transaction of the first block is then
    answered with a proof for another one. *)
Example reused_block_hash_wrong_leaf :
  let h := handle_messages toy_hash toy_hmac (handler_new (C := ListLru) index_config_two [42])
    (one_block ++ [(101, sealed Envelope.CONSENSUS 3, BlockValidated (block_with [31; 32; 33]) 9 5)]) in
  exists p, (handle_merkle_proof_request toy_hmac 102 (sealed 13 2) 22 h).2
    = Ok (proof_success 22 p) /\ mp_leaf_hash p = 32.
Proof. eexists. split; [vm_compute; reflexivity|vm_compute; reflexivity]. Qed.
