(* ===== verification/OrderingIpc.v ===== *)
(** * Transaction ordering: the message handler

    Models [qc-12-transaction-ordering/src/ipc/handler.rs] and the payloads it
    uses: the authorization and size checks, the conversion of a request to
    annotated transactions and the response built from the schedule.  The
    duration in the metrics and the texts of errors are left out. *)

From S2P Require Import Prelude Ordering OrderingFacts OrderingBuild OrderingProps.
Local Open Scope nat_scope.

Definition AUTHORIZED_SENDER : u8 := 8.

Record OrderTransactionsRequest := {
  rq_transaction_hashes : list Hash;
  rq_senders : list Address;
  rq_nonces : list u64;
  rq_read_sets : list (list (Address * Z));
  rq_write_sets : list (list (Address * Z))
}.

Record OrderingMetrics := {
  om_total_transactions : Z;
  om_parallel_groups : Z;
  om_max_parallelism : Z;
  om_conflicts_detected : Z
}.

Definition metrics_default : OrderingMetrics := {|
  om_total_transactions := 0; om_parallel_groups := 0; om_max_parallelism := 0;
  om_conflicts_detected := 0
|}.

Record OrderTransactionsResponse := {
  rs_success : bool;
  rs_parallel_groups : list (list Hash);
  rs_metrics : OrderingMetrics
}.

Definition to_storage_location (p : Address * Z) : StorageLocation :=
  {| sl_address := p.1; sl_key := p.2 |}.

Definition AnnotatedTransaction_new (hash : Hash) (sender : Address) (nonce : u64)
  (access_pattern : AccessPattern) : AnnotatedTransaction := {|
  at_hash := hash; at_sender := sender; at_nonce := nonce; at_access_pattern := access_pattern;
  at_estimated_gas := 21000; at_timestamp := 0
|}.

(** A set the request has no entry for is empty, a missing sender is the zero
    address and a missing nonce is 0. *)
Definition convert_to_annotated_transactions (r : OrderTransactionsRequest)
  : list AnnotatedTransaction :=
  imap (fun i hash =>
    let sender := default 0%Z (rq_senders r !! i) in
    let nonce := default 0%Z (rq_nonces r !! i) in
    let access_pattern := {|
      ap_reads := list_to_set (to_storage_location <$> default [] (rq_read_sets r !! i));
      ap_writes := list_to_set (to_storage_location <$> default [] (rq_write_sets r !! i));
      ap_balance_reads := ∅; ap_balance_writes := ∅ |} in
    AnnotatedTransaction_new hash sender nonce access_pattern) (rq_transaction_hashes r).

Definition failure : OrderTransactionsResponse :=
  {| rs_success := false; rs_parallel_groups := []; rs_metrics := metrics_default |}.

Definition as_u32 (n : nat) : Z := (Z.of_nat n mod 2 ^ 32)%Z.

Definition response_of (schedule : ExecutionSchedule) : OrderTransactionsResponse :=
  let first := match parallel_groups schedule with
    | g :: _ => length (pg_transactions g) | [] => 0 end in
  {| rs_success := true;
     rs_parallel_groups := pg_transactions <$> parallel_groups schedule;
     rs_metrics := {|
       om_total_transactions := as_u32 (total_transactions schedule);
       om_parallel_groups := as_u32 (length (parallel_groups schedule));
       om_max_parallelism := as_u32 (max_parallelism schedule);
       om_conflicts_detected := as_u32 (total_transactions schedule - first) |} |}.

Definition handle_order_transactions (c : OrderingConfig) (sender_id : u8)
  (request : OrderTransactionsRequest) : option OrderTransactionsResponse :=
  if negb (sender_id =? AUTHORIZED_SENDER)%Z then Some failure
  else if oc_max_batch_size c <? length (rq_transaction_hashes request) then Some failure
  else
    match order_transactions c (convert_to_annotated_transactions request) with
    | Some (Ok schedule) => Some (response_of schedule)
    | Some (Err _) => Some failure
    | Some Panic | None => None
    end.

(** ** Facts *)

Lemma convert_hashes r :
  at_hash <$> convert_to_annotated_transactions r = rq_transaction_hashes r.
Proof.
  unfold convert_to_annotated_transactions. rewrite fmap_imap. apply list_eq. intros i.
  rewrite list_lookup_imap. cbn. by destruct (rq_transaction_hashes r !! i).
Qed.

Lemma length_convert r :
  length (convert_to_annotated_transactions r) = length (rq_transaction_hashes r).
Proof. by rewrite <-(convert_hashes r), length_fmap. Qed.

Lemma order_transactions_perm c txs s : NoDup (at_hash <$> txs) ->
  order_transactions c txs = Some (Ok s) -> flatten s ≡ₚ at_hash <$> txs.
Proof.
  intros HN [(e & [=] & _)|[[_ [= ->]]|[_ [[=]|Hk]]]]%order_transactions_cases.
  - by rewrite sequential_flatten.
  - destruct (kahns_ok_spec _ _ (build_wf txs) Hk) as (groups & -> & HNg & _ & _ & Hset).
    change (flatten (schedule_new groups)) with (nodes groups).
    apply NoDup_Permutation; [done|done|]. intros h.
    rewrite <-(elem_of_list_to_set (C := gset Hash) h (nodes groups)), Hset, build_nodes.
    apply elem_of_list_to_set.
Qed.

(** The service returns on every batch. *)
Lemma order_transactions_total c txs :
  exists r, order_transactions c txs = Some r /\ r <> Panic.
Proof.
  unfold order_transactions. destruct (validate_batch c txs) as [[]|e|] eqn:E.
  2: by eexists.
  2: by unfold validate_batch in E; split_matches.
  destruct (should_fallback _ _ _); [by eexists|].
  destruct (oc_max_edge_count c <? _); [by eexists|].
  destruct (kahns_total _ (build_wf txs)) as [[_ ->]|[_ [s ->]]]; by eexists.
Qed.

(** The first group has no more transactions than all: the subtraction in the
    metrics does not underflow. *)
Lemma first_group_le groups g rest : groups = g :: rest ->
  length (pg_transactions g) <= total_transactions (schedule_new groups).
Proof. intros ->. cbn. lia. Qed.

(** Every request is answered.  One from another subsystem than
    consensus, or over the batch limit, or empty, is refused; an accepted one
    with distinct transactions is answered with groups that hold each of its
    transactions exactly once and nothing else. *)
Theorem order_request_answered c sender_id r :
  exists a, handle_order_transactions c sender_id r = Some a
  /\ (sender_id <> AUTHORIZED_SENDER -> a = failure)
  /\ (rq_transaction_hashes r = [] -> a = failure)
  /\ (oc_max_batch_size c < length (rq_transaction_hashes r) -> a = failure)
  /\ (NoDup (rq_transaction_hashes r) -> rs_success a = true ->
      concat (rs_parallel_groups a) ≡ₚ rq_transaction_hashes r).
Proof.
  unfold handle_order_transactions.
  destruct (Z.eqb_spec sender_id AUTHORIZED_SENDER) as [Hs|Hs]; cbn [negb].
  2: exists failure; by split_and!.
  destruct (Nat.ltb_spec (oc_max_batch_size c) (length (rq_transaction_hashes r))) as [Hb|Hb].
  { exists failure; by split_and!. }
  destruct (order_transactions_total c (convert_to_annotated_transactions r)) as (res & E & Hp).
  rewrite E. destruct res as [s|e|]; [|by exists failure; split_and!|done].
  exists (response_of s). split_and!; [done|done| |lia|].
  - intros Hnil. exfalso. revert E. unfold order_transactions, validate_batch.
    by rewrite bool_decide_true by (rewrite length_convert, Hnil; done).
  - intros HN _. rewrite <-(convert_hashes r). change (concat (rs_parallel_groups (response_of s)))
      with (flatten s). apply (order_transactions_perm c); [by rewrite convert_hashes|done].
Qed.
