(* ===== verification/Choreography.v ===== *)
(** * The node: subsystems wired by events

    Models how the node runtime composes the subsystems
    ([crates/node-runtime/src]): the event router with its authorization rules
    ([wiring/event_routing.rs]), the bus adapter every subsystem publishes
    through ([adapters/event_bus.rs]), the adapters around the domain logic
    ([adapters/consensus.rs], [transaction_indexing.rs], [state.rs],
    [block_storage.rs], [transaction_ordering.rs]), the six event handlers
    ([handlers/choreography.rs]) and the bridge that lets produced blocks in
    ([main.rs]).

    Every handler is a task with its own receiver on one broadcast channel.  The
    channel is the third-party tokio broadcast channel: the class [Broadcast] has
    its two operations and [BroadcastLaws] the documented behaviour (every
    receiver sees the events in the order they were sent, and one that falls
    more than the capacity behind skips the oldest).  The node is the state
    below and its runs are the interleavings of the tasks' steps.  The storage
    handler takes the lock of the assembly buffer twice and publishes without
    it, and so is three steps, between which the collector of expired assemblies
    can run; the other handlers touch no state another task changes, and their
    reaction to an event is one step.  Logging and shutdown are left out. *)

From S2P Require Import Prelude Blocks BlockStorage BlockFacts Merkle TxIndex Ordering OrderingIpc ConsensusSide StateTrie.
From stdpp Require Import strings.
Local Open Scope Z_scope.
Local Open Scope qc_scope.

(** ** [shared-types]: [SubsystemId] *)

Inductive SubsystemId :=
| PeerDiscovery | BlockStorage | TransactionIndexing | StateManagement | BlockPropagation | Mempool
| BloomFilters | Consensus | Finality | SignatureVerification | SmartContracts
| TransactionOrdering | LightClient | Sharding | CrossChain | ApiGateway | BlockProduction.

#[export] Instance SubsystemId_eq_dec : EqDecision SubsystemId.
Proof. solve_decision. Defined.

Definition as_u8 (s : SubsystemId) : u8 :=
  match s with
  | PeerDiscovery => 1 | BlockStorage => 2 | TransactionIndexing => 3 | StateManagement => 4
  | BlockPropagation => 5 | Mempool => 6 | BloomFilters => 7 | Consensus => 8 | Finality => 9
  | SignatureVerification => 10 | SmartContracts => 11 | TransactionOrdering => 12
  | LightClient => 13 | Sharding => 14 | CrossChain => 15 | ApiGateway => 16
  | BlockProduction => 17
  end.

Definition from_u8 (id : u8) : option SubsystemId :=
  match id with
  | 1 => Some PeerDiscovery | 2 => Some BlockStorage | 3 => Some TransactionIndexing
  | 4 => Some StateManagement | 5 => Some BlockPropagation | 6 => Some Mempool
  | 7 => Some BloomFilters | 8 => Some Consensus | 9 => Some Finality
  | 10 => Some SignatureVerification | 11 => Some SmartContracts
  | 12 => Some TransactionOrdering | 13 => Some LightClient | 14 => Some Sharding
  | 15 => Some CrossChain | 16 => Some ApiGateway | 17 => Some BlockProduction
  | _ => None
  end.

Lemma from_u8_as_u8 s : from_u8 (as_u8 s) = Some s.
Proof. by destruct s. Qed.

(** ** [event_routing.rs] *)

Inductive ChoreographyEvent :=
| BlockProduced (block_hash : Hash) (block_height : u64) (difficulty : U256) (nonce timestamp : u64)
    (parent_hash : Hash) (sender_id : SubsystemId)
| BlockValidated (block_hash : Hash) (block_height : u64) (sender_id : SubsystemId)
| MerkleRootComputed (block_hash merkle_root : Hash) (sender_id : SubsystemId)
| StateRootComputed (block_hash state_root : Hash) (sender_id : SubsystemId)
| BlockStored (block_hash : Hash) (block_height : u64) (merkle_root state_root : Hash)
    (sender_id : SubsystemId)
| BlockFinalized (block_hash : Hash) (block_height : u64) (finality_proof : list u8)
    (sender_id : SubsystemId)
| TransactionsOrdered (block_hash : Hash) (block_height : u64) (parallel_groups : list (list Hash))
    (max_parallelism : Z) (sender_id : SubsystemId)
| AssemblyTimeout (block_hash : Hash) (missing_components : list string) (sender_id : SubsystemId)
| GenesisInitialized (block_hash : Hash) (timestamp : u64) (sender_id : SubsystemId).

Inductive AuthorizationError :=
| UnauthorizedSender (event_type : string) (expected actual : SubsystemId).

Definition expect_sender (event_type : string) (expected sender_id : SubsystemId)
  : result AuthorizationError unit :=
  if bool_decide (sender_id = expected) then Ok tt
  else Err (UnauthorizedSender event_type expected sender_id).

Definition validate_sender (event : ChoreographyEvent) : result AuthorizationError unit :=
  match event with
  | BlockProduced _ _ _ _ _ _ s => expect_sender "BlockProduced" BlockProduction s
  | BlockValidated _ _ s => expect_sender "BlockValidated" Consensus s
  | MerkleRootComputed _ _ s => expect_sender "MerkleRootComputed" TransactionIndexing s
  | StateRootComputed _ _ s => expect_sender "StateRootComputed" StateManagement s
  | BlockStored _ _ _ _ s => expect_sender "BlockStored" BlockStorage s
  | BlockFinalized _ _ _ s => expect_sender "BlockFinalized" Finality s
  | TransactionsOrdered _ _ _ _ s => expect_sender "TransactionsOrdered" TransactionOrdering s
  | AssemblyTimeout _ _ s => expect_sender "AssemblyTimeout" BlockStorage s
  | GenesisInitialized _ _ s => expect_sender "GenesisInitialized" BlockStorage s
  end.

(** The broadcast channel.  [bc_recv] is [None] while there is nothing new,
    [inl] an event, and [inr n] the notice that [n] events were skipped. *)
Class Broadcast (Ch Rx : Type) := {
  bc_send : ChoreographyEvent -> Ch -> Ch;
  bc_recv : Ch -> Rx -> option (Rx * (ChoreographyEvent + nat))
}.

Class BroadcastLaws {Ch Rx} (BC : Broadcast Ch Rx) (sent : Ch -> list ChoreographyEvent)
  (pos : Rx -> nat) (capacity : nat) := {
  bc_send_spec e c : sent (bc_send e c) = sent c ++ [e];
  bc_recv_none c r : bc_recv c r = None -> (length (sent c) <= pos r)%nat;
  bc_recv_event c r r' e : bc_recv c r = Some (r', inl e) ->
    sent c !! pos r = Some e /\ pos r' = S (pos r);
  bc_recv_lagged c r r' n : bc_recv c r = Some (r', inr n) ->
    (pos r' = pos r + n /\ 0 < n /\ pos r' <= length (sent c)
     /\ capacity < length (sent c) - pos r)%nat
}.

(** [EventRouter::publish]: the result of sending is ignored, an event without
    receivers is lost. *)
Definition router_publish `{Broadcast Ch Rx} (event : ChoreographyEvent) (c : Ch)
  : result AuthorizationError Ch :=
  let? _ := validate_sender event in Ok (bc_send event c).

(** ** [event_bus.rs] *)

Inductive EventBusError :=
| SenderMismatch (expected actual : SubsystemId)
| AuthorizationFailed (e : AuthorizationError).

Definition event_sender (event : ChoreographyEvent) : SubsystemId :=
  match event with
  | BlockProduced _ _ _ _ _ _ s | BlockValidated _ _ s | MerkleRootComputed _ _ s
  | StateRootComputed _ _ s | BlockStored _ _ _ _ s | BlockFinalized _ _ _ s
  | TransactionsOrdered _ _ _ _ s | AssemblyTimeout _ _ s | GenesisInitialized _ _ s => s
  end.

Definition bus_publish `{Broadcast Ch Rx} (subsystem_id : SubsystemId) (event : ChoreographyEvent)
  (c : Ch) : result EventBusError Ch :=
  if negb (bool_decide (event_sender event = subsystem_id))
  then Err (SenderMismatch subsystem_id (event_sender event))
  else match router_publish event c with
       | Ok c => Ok c
       | Err e => Err (AuthorizationFailed e)
       | Panic => Panic
       end.

(** The channel after a publication whose error is only logged. *)
Definition publish_logged `{Broadcast Ch Rx} (subsystem_id : SubsystemId)
  (event : ChoreographyEvent) (c : Ch) : Ch :=
  match bus_publish subsystem_id event c with Ok c' => c' | _ => c end.

(** ** [adapters/consensus.rs] *)

Record BlockProducedParams := {
  pr_block_hash : Hash;
  pr_block_height : u64;
  pr_difficulty : U256;
  pr_nonce : u64;
  pr_timestamp : u64;
  pr_parent_hash : Hash
}.

Record ConsensusAdapter := {
  validated_blocks : gset Hash;
  chain_height : u64
}.

Definition consensus_new : ConsensusAdapter := {| validated_blocks := ∅; chain_height := 0 |}.

Definition set_initial_chain_height (height : u64) (a : ConsensusAdapter) : ConsensusAdapter :=
  {| validated_blocks := validated_blocks a; chain_height := height |}.

Definition on_block_stored (block_height : u64) (a : ConsensusAdapter) : ConsensusAdapter :=
  if chain_height a <? block_height
  then {| validated_blocks := validated_blocks a; chain_height := block_height |} else a.

Definition update_validated_blocks_cache (block_hash : Hash) (a : ConsensusAdapter)
  : ConsensusAdapter :=
  let validated := {[block_hash]} ∪ validated_blocks a in
  {| validated_blocks :=
       if Rules.should_evict_cache Rules.config_default (size validated) then ∅ else validated;
     chain_height := chain_height a |}.

Inductive ConsensusAdapterError :=
| DuplicateBlock
| InvalidDifficulty
| InvalidHeight (expected got : u64)
| InvalidTimestamp
| PublishFailed (e : EventBusError).

Definition from_domain_error (err : Rules.BlockValidationError) : ConsensusAdapterError :=
  match err with
  | Rules.DuplicateBlock _ => DuplicateBlock
  | Rules.NonSequentialHeight expected got => InvalidHeight expected got
  | Rules.ZeroDifficulty => InvalidDifficulty
  | Rules.FutureTimestamp _ _ _ => InvalidTimestamp
  end.

Definition process_block_produced `{Broadcast Ch Rx} (current_time : u64)
  (p : BlockProducedParams) (a : ConsensusAdapter) (c : Ch)
  : (ConsensusAdapter * Ch) * result ConsensusAdapterError unit :=
  let params := {| Rules.p_block_hash := pr_block_hash p; Rules.p_block_height := pr_block_height p;
    Rules.p_difficulty := pr_difficulty p; Rules.p_nonce := pr_nonce p;
    Rules.p_timestamp := pr_timestamp p; Rules.p_parent_hash := pr_parent_hash p |} in
  match Rules.validate_block Rules.config_default params (chain_height a) current_time
          (validated_blocks a) with
  | Ok _ =>
      let a := update_validated_blocks_cache (pr_block_hash p) a in
      match bus_publish Consensus (BlockValidated (pr_block_hash p) (pr_block_height p) Consensus) c with
      | Ok c => ((a, c), Ok tt)
      | Err e => ((a, c), Err (PublishFailed e))
      | Panic => ((a, c), Panic)
      end
  | Err e => ((a, c), Err (from_domain_error e))
  | Panic => ((a, c), Panic)
  end.

(** ** [adapters/transaction_indexing.rs] *)

Definition indexing_process `{Broadcast Ch Rx} {C} {L : LruCache C} (sha3 : list u8 -> Hash)
  (block_hash : Hash) (block_height : u64) (transaction_hashes : list Hash)
  (i : TransactionIndex C) (c : Ch) : option (TransactionIndex C * Ch) :=
  tree ← Merkle.build sha3 transaction_hashes;
  let merkle_root := Merkle.root tree in
  let i := index_block block_hash block_height merkle_root transaction_hashes i in
  let i := cache_tree block_hash tree i in
  Some (i, publish_logged TransactionIndexing
    (MerkleRootComputed block_hash merkle_root TransactionIndexing) c).

(** ** [adapters/state.rs] *)

Record StateTransaction := {
  st_from : Address;
  st_to : option Address;
  st_value : u128
}.

(** [value as i128] and the negation of an [i128]. *)
Definition to_i128 (v : Z) : Z :=
  let m := v mod 2 ^ 128 in if m <? 2 ^ 127 then m else m - 2 ^ 128.

Definition apply_state_transaction (keccak256 : list u8 -> Hash) (t : PatriciaMerkleTrie)
  (tx : StateTransaction) : PatriciaMerkleTrie :=
  let t := (apply_balance_change keccak256 t (st_from tx) (to_i128 (- to_i128 (st_value tx)))).1 in
  match st_to tx with
  | Some to => (apply_balance_change keccak256 t to (to_i128 (st_value tx))).1
  | None => t
  end.

Definition state_process `{Broadcast Ch Rx} (keccak256 : list u8 -> Hash) (block_hash : Hash)
  (transactions : list StateTransaction) (t : PatriciaMerkleTrie) (c : Ch)
  : PatriciaMerkleTrie * Ch :=
  let t := foldl (apply_state_transaction keccak256) t transactions in
  let state_root := StateTrie.root t in
  (t, publish_logged StateManagement (StateRootComputed block_hash state_root StateManagement) c).

(** ** [adapters/block_storage.rs] *)

(** The minimal block the adapter makes up for an announced hash. *)
Definition minimal_block (block_height now : u64) : ValidatedBlock := {|
  vb_header := {| bh_version := 1; bh_height := block_height; bh_parent_hash := 0;
    bh_merkle_root := 0; bh_state_root := 0; bh_timestamp := now;
    bh_proposer := replicate 32 0; bh_difficulty := 2 ^ 252; bh_nonce := 0 |};
  vb_transactions := [];
  vb_consensus_proof := {| cp_block_hash := 0; cp_attestations := []; cp_total_stake := 0 |}
|}.

Definition get_missing_components (a : PendingBlockAssembly) : list string :=
  (if bool_decide (pa_validated_block a = None) then ["BlockValidated"%string] else []) ++
  (if bool_decide (pa_merkle_root a = None) then ["MerkleRootComputed"%string] else []) ++
  (if bool_decide (pa_state_root a = None) then ["StateRootComputed"%string] else []).

Definition storage_on_block_validated (now : u64) (block_hash : Hash) (block_height : u64)
  (b : BlockAssemblyBuffer) : BlockAssemblyBuffer :=
  let b := (BlockAssemblyBuffer.enforce_max_pending b).1 in
  BlockAssemblyBuffer.add_block_validated b block_hash (minimal_block block_height now) now.

(** [try_complete_assembly] up to the publication: the announcement of a
    completed assembly.  Nothing is written to the block store. *)
Definition take_announcement (block_hash : Hash) (b : BlockAssemblyBuffer)
  : BlockAssemblyBuffer * option ChoreographyEvent :=
  let '(b, completed) := BlockAssemblyBuffer.take_complete b block_hash in
  (b, assembly ← completed;
      merkle_root ← pa_merkle_root assembly;
      state_root ← pa_state_root assembly;
      Some (BlockStored block_hash (pa_block_height assembly) merkle_root state_root BlockStorage)).

Definition timeout_event (e : Hash * PendingBlockAssembly) : ChoreographyEvent :=
  AssemblyTimeout e.1 (get_missing_components e.2) BlockStorage.

(** ** [adapters/transaction_ordering.rs] *)

Definition process_order_transactions `{Broadcast Ch Rx} (config : OrderingConfig)
  (sender_id : SubsystemId) (request : OrderTransactionsRequest) (block_hash : Hash)
  (block_height : u64) (c : Ch) : option Ch :=
  response ← handle_order_transactions config (as_u8 sender_id) request;
  Some (if rs_success response then
    publish_logged TransactionOrdering (TransactionsOrdered block_hash block_height
      (rs_parallel_groups response) (om_max_parallelism (rs_metrics response)) TransactionOrdering) c
  else c).

(** ** [FinalityHandler::handle_block_stored] *)

Definition finality_on_block_stored `{Broadcast Ch Rx} (block_hash : Hash) (block_height : u64)
  (c : Ch) : Ch :=
  let epoch_size := 4 in
  if negb (block_height mod epoch_size =? 0) && (10 <? block_height) then c
  else match router_publish (BlockFinalized block_hash block_height [] Finality) c with
       | Ok c' => c'
       | _ => c
       end.

(** ** The node *)

(** Where the storage handler is: waiting for an event, about to look whether
    the assembly of a hash is complete, or about to publish. *)
Inductive StorageTask :=
| Idle
| TryComplete (block_hash : Hash)
| Announce (event : ChoreographyEvent).

Inductive Task :=
| ConsensusTask | IndexingTask | StateTask | StorageTask_ | FinalityTask | OrderingTask.

#[export] Instance Task_eq_dec : EqDecision Task.
Proof. solve_decision. Defined.

Definition all_tasks : list Task :=
  [ConsensusTask; IndexingTask; StateTask; StorageTask_; FinalityTask; OrderingTask].

(** What happens next: a produced block arrives over the bridge, a task takes a
    step at the time [now], or the collector of expired assemblies does. *)
Inductive Action :=
| Bridge (p : BlockProducedParams)
| Run (t : Task) (now : u64)
| Collect (now : u64).

Section node.
Context {Ch Rx : Type} {BC : Broadcast Ch Rx} {C : Type} {L : LruCache C}.
Context (sha3 keccak256 : list u8 -> Hash).

Record Node := {
  channel : Ch;
  receiver : Task -> Rx;
  consensus : ConsensusAdapter;
  tx_index : TransactionIndex C;
  trie : PatriciaMerkleTrie;
  buffer : BlockAssemblyBuffer;
  storage_task : StorageTask;
  gc_queue : list ChoreographyEvent
}.

Definition set_channel (n : Node) (c : Ch) : Node := {|
  channel := c; receiver := receiver n; consensus := consensus n; tx_index := tx_index n;
  trie := trie n; buffer := buffer n; storage_task := storage_task n; gc_queue := gc_queue n |}.

Definition set_receiver (n : Node) (t : Task) (r : Rx) : Node := {|
  channel := channel n; receiver := fun t' => if decide (t' = t) then r else receiver n t';
  consensus := consensus n; tx_index := tx_index n; trie := trie n; buffer := buffer n;
  storage_task := storage_task n; gc_queue := gc_queue n |}.

Definition set_consensus (n : Node) (a : ConsensusAdapter) (c : Ch) : Node := {|
  channel := c; receiver := receiver n; consensus := a; tx_index := tx_index n; trie := trie n;
  buffer := buffer n; storage_task := storage_task n; gc_queue := gc_queue n |}.

Definition set_tx_index (n : Node) (i : TransactionIndex C) (c : Ch) : Node := {|
  channel := c; receiver := receiver n; consensus := consensus n; tx_index := i; trie := trie n;
  buffer := buffer n; storage_task := storage_task n; gc_queue := gc_queue n |}.

Definition set_trie (n : Node) (t : PatriciaMerkleTrie) (c : Ch) : Node := {|
  channel := c; receiver := receiver n; consensus := consensus n; tx_index := tx_index n;
  trie := t; buffer := buffer n; storage_task := storage_task n; gc_queue := gc_queue n |}.

Definition set_storage (n : Node) (b : BlockAssemblyBuffer) (t : StorageTask) (c : Ch) : Node := {|
  channel := c; receiver := receiver n; consensus := consensus n; tx_index := tx_index n;
  trie := trie n; buffer := b; storage_task := t; gc_queue := gc_queue n |}.

Definition set_gc (n : Node) (b : BlockAssemblyBuffer) (q : list ChoreographyEvent) (c : Ch) : Node := {|
  channel := c; receiver := receiver n; consensus := consensus n; tx_index := tx_index n;
  trie := trie n; buffer := b; storage_task := storage_task n; gc_queue := q |}.

(** [bridge_block_produced_event]. *)
Definition bridge (p : BlockProducedParams) (n : Node) : Node :=
  match router_publish (BlockProduced (pr_block_hash p) (pr_block_height p) (pr_difficulty p)
          (pr_nonce p) (pr_timestamp p) (pr_parent_hash p) BlockProduction) (channel n) with
  | Ok c => set_channel n c
  | _ => n
  end.

(** [ConsensusHandler::dispatch_event]. *)
Definition consensus_dispatch (now : u64) (event : ChoreographyEvent) (n : Node) : Node :=
  match event with
  | BlockProduced h k d x t p sender_id =>
      if negb (bool_decide (sender_id = BlockProduction)) then n
      else
        let params := {| pr_block_hash := h; pr_block_height := k; pr_difficulty := d;
          pr_nonce := x; pr_timestamp := t; pr_parent_hash := p |} in
        let '((a, c), _) := process_block_produced now params (consensus n) (channel n) in
        set_consensus n a c
  | BlockStored _ k _ _ sender_id =>
      if negb (bool_decide (sender_id = BlockStorage)) then n
      else set_consensus n (on_block_stored k (consensus n)) (channel n)
  | _ => n
  end.

(** [TxIndexingHandler]: the transactions handed to the adapter are none. *)
Definition indexing_dispatch (event : ChoreographyEvent) (n : Node) : option Node :=
  match event with
  | BlockValidated h k sender_id =>
      if negb (bool_decide (sender_id = Consensus)) then Some n
      else '(i, c) ← indexing_process sha3 h k [] (tx_index n) (channel n);
           Some (set_tx_index n i c)
  | _ => Some n
  end.

(** [StateMgmtHandler]: likewise. *)
Definition state_dispatch (event : ChoreographyEvent) (n : Node) : Node :=
  match event with
  | BlockValidated h k sender_id =>
      if negb (bool_decide (sender_id = Consensus)) then n
      else let '(t, c) := state_process keccak256 h [] (trie n) (channel n) in set_trie n t c
  | _ => n
  end.

(** [BlockStorageHandler::dispatch_event], the part under the first lock. *)
Definition storage_dispatch (now : u64) (event : ChoreographyEvent) (n : Node) : Node :=
  match event with
  | BlockValidated h k sender_id =>
      if bool_decide (sender_id = Consensus)
      then set_storage n (storage_on_block_validated now h k (buffer n)) (TryComplete h) (channel n)
      else n
  | MerkleRootComputed h r sender_id =>
      if bool_decide (sender_id = TransactionIndexing)
      then set_storage n (BlockAssemblyBuffer.add_merkle_root (buffer n) h r now) (TryComplete h)
        (channel n)
      else n
  | StateRootComputed h r sender_id =>
      if bool_decide (sender_id = StateManagement)
      then set_storage n (BlockAssemblyBuffer.add_state_root (buffer n) h r now) (TryComplete h)
        (channel n)
      else n
  | _ => n
  end.

(** [FinalityHandler]. *)
Definition finality_dispatch (event : ChoreographyEvent) (n : Node) : Node :=
  match event with
  | BlockStored h k _ _ sender_id =>
      if negb (bool_decide (sender_id = BlockStorage)) then n
      else set_channel n (finality_on_block_stored h k (channel n))
  | _ => n
  end.

(** The request the ordering handler makes for a block: no transactions. *)
Definition empty_order_request : OrderTransactionsRequest := {|
  rq_transaction_hashes := []; rq_senders := []; rq_nonces := []; rq_read_sets := [];
  rq_write_sets := []
|}.

(** [TransactionOrderingHandler]. *)
Definition ordering_dispatch (event : ChoreographyEvent) (n : Node) : option Node :=
  match event with
  | BlockValidated h k sender_id =>
      if negb (bool_decide (sender_id = Consensus)) then Some n
      else c ← process_order_transactions default_config Consensus empty_order_request h k (channel n);
           Some (set_channel n c)
  | _ => Some n
  end.

Definition dispatch (t : Task) (now : u64) (event : ChoreographyEvent) (n : Node) : option Node :=
  match t with
  | ConsensusTask => Some (consensus_dispatch now event n)
  | IndexingTask => indexing_dispatch event n
  | StateTask => Some (state_dispatch event n)
  | StorageTask_ => Some (storage_dispatch now event n)
  | FinalityTask => Some (finality_dispatch event n)
  | OrderingTask => ordering_dispatch event n
  end.

(** One round of a handler's loop: a lag notice is logged and skipped. *)
Definition receive (t : Task) (now : u64) (n : Node) : option Node :=
  match bc_recv (channel n) (receiver n t) with
  | None => None
  | Some (r, inr _) => Some (set_receiver n t r)
  | Some (r, inl event) => dispatch t now event (set_receiver n t r)
  end.

Definition run_task (t : Task) (now : u64) (n : Node) : option Node :=
  match t, storage_task n with
  | StorageTask_, TryComplete h =>
      let '(b, announcement) := take_announcement h (buffer n) in
      Some (set_storage n b
        (match announcement with Some e => Announce e | None => Idle end) (channel n))
  | StorageTask_, Announce e =>
      Some (set_storage n (buffer n) Idle (publish_logged BlockStorage e (channel n)))
  | _, _ => receive t now n
  end.

(** [gc_stale_assemblies]: remove the expired assemblies under the lock, then
    publish their timeouts one by one. *)
Definition collect (now : u64) (n : Node) : Node :=
  match gc_queue n with
  | e :: q => set_gc n (buffer n) q (publish_logged BlockStorage e (channel n))
  | [] =>
      let '(b, expired) := BlockAssemblyBuffer.gc_expired_with_data (buffer n) now in
      set_gc n b (timeout_event <$> expired) (channel n)
  end.

(** [None]: the task has nothing to do. *)
Definition node_step (n : Node) (a : Action) : option Node :=
  match a with
  | Bridge p => Some (bridge p n)
  | Run t now => run_task t now n
  | Collect now => Some (collect now n)
  end.

Fixpoint node_run (n : Node) (l : list Action) : option Node :=
  match l with
  | [] => Some n
  | a :: l => n' ← node_step n a; node_run n' l
  end.

(** A started node: empty channel, every handler subscribed. *)
Definition node_new (c : Ch) (r : Rx) (assembly_timeout : u64) (max_pending : nat)
  (initial_height : u64) : Node := {|
  channel := c; receiver := fun _ => r;
  consensus := set_initial_chain_height initial_height consensus_new;
  tx_index := index_new index_config_default; trie := StateTrie.new;
  buffer := BlockAssemblyBuffer.new {|
    assembly_timeout_secs := assembly_timeout; max_pending_assemblies := max_pending |};
  storage_task := Idle; gc_queue := []
|}.

(** No task has anything to do. *)
Definition quiescent (n : Node) : Prop := forall t now, run_task t now n = None.

End node.
Arguments Node Ch Rx C : clear implicits.
