(* ===== verification/ChoreographyFacts.v ===== *)
(** * The node: invariants

    What every step of the node of [Choreography] keeps: the causes of the events
    on the channel, the bounds on their number, the potential that bounds the
    length of runs, and what each task has published for what it has seen. *)

From S2P Require Import Prelude Blocks BlockStorage BlockFacts Merkle TxIndex Ordering OrderingIpc ConsensusSide StateTrie Choreography.
From stdpp Require Import strings.
Local Open Scope Z_scope.
Local Open Scope qc_scope.

(** ** Causes *)

(** What must be on the channel before an event. *)
Definition cause_ok (prev : list ChoreographyEvent) (e : ChoreographyEvent) : Prop :=
  match e with
  | BlockProduced _ _ _ _ _ _ s => s = BlockProduction
  | BlockValidated h k s => s = Consensus
      /\ exists d x t p, d <> 0 /\ BlockProduced h k d x t p BlockProduction ∈ prev
  | MerkleRootComputed h r s => s = TransactionIndexing /\ r = SENTINEL_HASH
      /\ exists k, BlockValidated h k Consensus ∈ prev
  | StateRootComputed h r s => s = StateManagement /\ r = EMPTY_TRIE_ROOT
      /\ exists k, BlockValidated h k Consensus ∈ prev
  | BlockStored h k m r s => s = BlockStorage
      /\ BlockValidated h k Consensus ∈ prev
      /\ MerkleRootComputed h m TransactionIndexing ∈ prev
      /\ StateRootComputed h r StateManagement ∈ prev
  | BlockFinalized h k proof s => s = Finality /\ proof = [] /\ (k mod 4 = 0 \/ k <= 10)
      /\ exists m r, BlockStored h k m r BlockStorage ∈ prev
  | AssemblyTimeout _ _ s => s = BlockStorage
  | TransactionsOrdered _ _ _ _ _ | GenesisInitialized _ _ _ => False
  end.

Lemma cause_ok_mono l l' e : l ⊆ l' -> cause_ok l e -> cause_ok l' e.
Proof. intros Hl. destruct e; cbn; naive_solver. Qed.

Definition caused (l : list ChoreographyEvent) : Prop :=
  forall i e, l !! i = Some e -> cause_ok (take i l) e.

Lemma caused_snoc l e : caused l -> cause_ok l e -> caused (l ++ [e]).
Proof.
  intros Hl He i x. destruct (decide (i < length l)%nat) as [Hi|Hi].
  - rewrite lookup_app_l, take_app_le by lia. apply Hl.
  - intros Hx. pose proof (lookup_lt_Some _ _ _ Hx) as Hlt. rewrite length_app in Hlt. cbn in Hlt.
    replace i with (length l) in * by lia. rewrite list_lookup_middle in Hx by done.
    injection Hx as <-. by rewrite take_app_length.
Qed.

Lemma caused_elem l e : caused l -> e ∈ l -> cause_ok l e.
Proof.
  intros Hl (i & Hi)%list_elem_of_lookup. apply (cause_ok_mono (take i l)); [|by apply Hl].
  intros x Hx. by apply (elem_of_take x i l) in Hx as (j & Hj%list_elem_of_lookup_2 & _).
Qed.

(** ** The effect of one reaction *)

Section effects.
Context {Ch Rx : Type} {BC : Broadcast Ch Rx} {C : Type} {L : LruCache C}.
Context {sent : Ch -> list ChoreographyEvent} {pos : Rx -> nat} {capacity : nat}.
Context {BL : BroadcastLaws BC sent pos capacity}.
Context (sha3 keccak256 : list u8 -> Hash).

Abbreviation Node := (Node Ch Rx C).
Abbreviation log n := (sent (channel n)).
Abbreviation at_ n t := (pos (receiver n t)).

Lemma router_publish_ok e (c : Ch) : validate_sender e = Ok tt ->
  router_publish e c = Ok (bc_send e c).
Proof. intros Hv. unfold router_publish. by rewrite Hv. Qed.

Lemma bus_publish_ok s e (c : Ch) : event_sender e = s -> validate_sender e = Ok tt ->
  bus_publish s e c = Ok (bc_send e c).
Proof.
  intros Hs Hv. unfold bus_publish.
  rewrite bool_decide_true by done. cbn [negb]. by rewrite router_publish_ok.
Qed.

Lemma publish_logged_sent s e (c : Ch) : event_sender e = s -> validate_sender e = Ok tt ->
  sent (publish_logged s e c) = sent c ++ [e].
Proof. intros Hs Hv. unfold publish_logged. rewrite bus_publish_ok by done. apply bc_send_spec. Qed.

(** What consensus publishes, and what it then remembers. *)
Lemma consensus_dispatch_spec now e (n : Node) :
  let n' := consensus_dispatch now e n in
  exists out, log n' = log n ++ out
  /\ receiver n' = receiver n /\ trie n' = trie n /\ buffer n' = buffer n
  /\ storage_task n' = storage_task n /\ gc_queue n' = gc_queue n
  /\ (forall h, h ∈ validated_blocks (consensus n') ->
        h ∈ validated_blocks (consensus n) \/ exists k, BlockValidated h k Consensus ∈ out)
  /\ (out = [] \/ exists h k d x t p, e = BlockProduced h k d x t p BlockProduction /\ d <> 0
        /\ out = [BlockValidated h k Consensus])
  /\ (forall h k d x t p, e = BlockProduced h k d x t p BlockProduction -> d <> 0 ->
        t <= wrapping_add 64 now 15 -> h ∈ validated_blocks (consensus n) \/ out <> []).
Proof.
  cbn zeta. destruct e as [h k d x t p s| | | |h k m r s| | | |]; cbn [consensus_dispatch].
  2,3,4,6,7,8,9: exists []; rewrite app_nil_r; split_and!; try done; [by left|by left].
  2:{ exists []. rewrite app_nil_r. case_bool_decide; cbn [negb]; [|by split_and!; try done; left].
      unfold on_block_stored. by split_and!; try done; [case_match; cbn; left|left]. }
  case_bool_decide as Hs; cbn [negb].
  2: exists []; rewrite app_nil_r; split_and!; try done; [by left|by left|congruence].
  subst s. unfold process_block_produced.
  pose proof (Rules.validate_block_exact Rules.config_default {| Rules.p_block_hash := h;
    Rules.p_block_height := k; Rules.p_difficulty := d; Rules.p_nonce := x; Rules.p_timestamp := t;
    Rules.p_parent_hash := p |} (chain_height (consensus n)) now (validated_blocks (consensus n)))
    as Hex.
  cbn [pr_block_hash pr_block_height pr_difficulty pr_nonce pr_timestamp pr_parent_hash].
  destruct (Rules.validate_block _ _ _ _ _) as [res|err|]; cbn [is_ok] in Hex.
  - destruct (proj1 Hex eq_refl) as (Hnew & Hd & _).
    rewrite bus_publish_ok by done. cbn [set_consensus channel].
    exists [BlockValidated h k Consensus]. rewrite bc_send_spec. split_and!; try done.
    + intros y. cbn [set_consensus consensus update_validated_blocks_cache validated_blocks].
      case_match; [set_solver|].
      rewrite elem_of_union, elem_of_singleton. intros [->|Hy]; [|by left].
      right. exists k. by left.
    + right. by eauto 10.
    + by right.
  - exists []. cbn. rewrite app_nil_r. split_and!; try done; [by left|by left|].
    intros ?????? [= <- <- <- <- <- <-] Hd Ht. left. apply dec_stable. intros Hn.
    assert (false = true); [|done]. apply Hex. by split_and!.
  - exists []. cbn. rewrite app_nil_r. split_and!; try done; [by left|by left|].
    intros ?????? [= <- <- <- <- <- <-] Hd Ht. left. apply dec_stable. intros Hn.
    assert (false = true); [|done]. apply Hex. by split_and!.
Qed.

(** The root of an empty list of transactions is the padding hash. *)
Lemma indexing_dispatch_spec e (n n' : Node) : indexing_dispatch sha3 e n = Some n' ->
  exists out, log n' = log n ++ out
  /\ receiver n' = receiver n /\ trie n' = trie n /\ buffer n' = buffer n
  /\ consensus n' = consensus n
  /\ storage_task n' = storage_task n /\ gc_queue n' = gc_queue n
  /\ match e with
     | BlockValidated h k Consensus => out = [MerkleRootComputed h SENTINEL_HASH TransactionIndexing]
     | _ => out = []
     end.
Proof.
  destruct e as [|h k s| | | | | | |]; cbn [indexing_dispatch];
    try (intros [= <-]; exists []; rewrite app_nil_r; by split_and!).
  case_bool_decide as Hs; cbn [negb].
  - subst s. cbn. intros [= <-]. eexists. cbn.
    rewrite publish_logged_sent by done. by split_and!.
  - intros [= <-]. exists []. rewrite app_nil_r. split_and!; try done. by destruct s.
Qed.

Lemma state_dispatch_spec e (n : Node) :
  let n' := state_dispatch keccak256 e n in
  exists out, log n' = log n ++ out
  /\ receiver n' = receiver n /\ trie n' = trie n /\ buffer n' = buffer n
  /\ consensus n' = consensus n
  /\ storage_task n' = storage_task n /\ gc_queue n' = gc_queue n
  /\ match e with
     | BlockValidated h k Consensus =>
         out = [StateRootComputed h (StateTrie.root (trie n)) StateManagement]
     | _ => out = []
     end.
Proof.
  cbn zeta. destruct e as [|h k s| | | | | | |]; cbn [state_dispatch];
    try (exists []; rewrite app_nil_r; by split_and!).
  case_bool_decide as Hs; cbn [negb].
  - subst s. eexists. cbn. rewrite publish_logged_sent by done. by split_and!.
  - exists []. rewrite app_nil_r. split_and!; try done. by destruct s.
Qed.

Lemma finality_dispatch_spec e (n : Node) :
  let n' := finality_dispatch e n in
  exists out, log n' = log n ++ out
  /\ receiver n' = receiver n /\ trie n' = trie n /\ buffer n' = buffer n
  /\ consensus n' = consensus n
  /\ storage_task n' = storage_task n /\ gc_queue n' = gc_queue n
  /\ (out = [] \/ exists h k m r, e = BlockStored h k m r BlockStorage
        /\ (k mod 4 = 0 \/ k <= 10) /\ out = [BlockFinalized h k [] Finality])
  /\ (forall h k m r, e = BlockStored h k m r BlockStorage -> k mod 4 = 0 \/ k <= 10 ->
        out = [BlockFinalized h k [] Finality]).
Proof.
  cbn zeta. destruct e as [| | | |h k m r s| | | |]; cbn [finality_dispatch];
    try (exists []; rewrite app_nil_r; split_and!; try done; by left).
  case_bool_decide as Hs; cbn [negb];
    [|exists []; rewrite app_nil_r; split_and!; try done; [by left|congruence]].
  subst s. unfold finality_on_block_stored.
  destruct (Z.eqb_spec (k mod 4) 0) as [E|E]; cbn [negb andb].
  - exists [BlockFinalized h k [] Finality]. rewrite router_publish_ok by done.
    cbn [set_channel channel]. rewrite bc_send_spec. split_and!; try done.
    + right. by eauto 10.
    + by intros ???? [= <- <- <- <-].
  - destruct (Z.ltb_spec 10 k).
    + exists []. rewrite app_nil_r. cbn. split_and!; try done; [by left|].
      intros ???? [= <- <- <- <-] [?|?]; [done|lia].
    + exists [BlockFinalized h k [] Finality]. rewrite router_publish_ok by done.
    cbn [set_channel channel]. rewrite bc_send_spec. split_and!; try done.
      * right. exists h, k, m, r. split_and!; [done|by right|done].
      * by intros ???? [= <- <- <- <-].
Qed.

(** The ordering handler asks for an empty batch, which the service refuses: it
    publishes nothing. *)
Lemma ordering_dispatch_spec e (n n' : Node) : ordering_dispatch e n = Some n' -> 
  log n' = log n /\ receiver n' = receiver n /\ trie n' = trie n /\ buffer n' = buffer n
  /\ consensus n' = consensus n /\ storage_task n' = storage_task n /\ gc_queue n' = gc_queue n.
Proof.
  destruct e as [|h k s| | | | | | |]; cbn [ordering_dispatch]; try (by intros [= <-]).
  case_bool_decide; cbn [negb]; [|by intros [= <-]]. cbn. by intros [= <-].
Qed.

(** ** The invariant *)

Abbreviation pending n := (BlockAssemblyBuffer.pending (buffer n)).

(** The parts of an assembly were announced. *)
Definition assembly_ok (l : list ChoreographyEvent) (h : Hash) (a : PendingBlockAssembly) : Prop :=
  (exists k, BlockValidated h k Consensus ∈ l)
  /\ (is_Some (pa_validated_block a) -> BlockValidated h (pa_block_height a) Consensus ∈ l)
  /\ (forall r, pa_merkle_root a = Some r -> MerkleRootComputed h r TransactionIndexing ∈ l)
  /\ (forall r, pa_state_root a = Some r -> StateRootComputed h r StateManagement ∈ l).

Lemma assembly_ok_mono l l' h a : l ⊆ l' -> assembly_ok l h a -> assembly_ok l' h a.
Proof. unfold assembly_ok. naive_solver. Qed.

Record node_inv (n : Node) : Prop := {
  ni_caused : caused (log n);
  ni_trie : StateTrie.root (trie n) = EMPTY_TRIE_ROOT;
  ni_pending h a : pending n !! h = Some a -> assembly_ok (log n) h a;
  ni_task e : storage_task n = Announce e ->
    (exists h k m r, e = BlockStored h k m r BlockStorage) /\ cause_ok (log n) e;
  ni_gc : Forall (fun e => exists h m, e = AssemblyTimeout h m BlockStorage) (gc_queue n);
  ni_pos t : (at_ n t <= length (log n))%nat
}.

(** Publishing caused events. *)
Lemma caused_app l out : caused l -> Forall (cause_ok l) out -> caused (l ++ out).
Proof.
  intros Hl. revert l Hl. induction out as [|e out IH]; intros l Hl Ho; [by rewrite app_nil_r|].
  apply Forall_cons in Ho as [He Ho]. rewrite cons_middle, app_assoc. apply IH.
  - by apply caused_snoc.
  - eapply Forall_impl; [exact Ho|]. intros x. apply cause_ok_mono. set_solver.
Qed.

Lemma node_inv_publish (n n' : Node) out : log n' = log n ++ out -> Forall (cause_ok (log n)) out ->
  receiver n' = receiver n -> StateTrie.root (trie n') = StateTrie.root (trie n) ->
  buffer n' = buffer n -> storage_task n' = storage_task n -> gc_queue n' = gc_queue n ->
  node_inv n -> node_inv n'.
Proof.
  intros El Ho Er Et Eb Es Eg [H1 H2 H3 H4 H5 H6].
  split; rewrite ?El, ?Er, ?Et, ?Eb, ?Es, ?Eg; try done.
  - by apply caused_app.
  - intros h a Ha. eapply assembly_ok_mono; [|by apply H3]. set_solver.
  - intros e He. destruct (H4 e He) as [? Hc]. split; [done|].
    eapply cause_ok_mono; [|exact Hc]. set_solver.
  - intros t. rewrite length_app. specialize (H6 t). lia.
Qed.

Lemma set_receiver_inv (n : Node) t r : (pos r <= length (log n))%nat -> node_inv n ->
  node_inv (set_receiver n t r).
Proof.
  intros Hr [H1 H2 H3 H4 H5 H6]. split; try done. intros t'. cbn. case_decide; [done|apply H6].
Qed.

(** The events of a task's processed prefix. *)
Definition seen (n : Node) (t : Task) : list ChoreographyEvent := take (at_ n t) (log n).

Lemma assembly_entry_ok (n : Node) h now k : node_inv n -> BlockValidated h k Consensus ∈ log n ->
  assembly_ok (log n) h (BlockAssemblyBuffer.entry (buffer n) h now).
Proof.
  intros Hi Hk. unfold BlockAssemblyBuffer.entry.
  destruct (pending n !! h) as [a|] eqn:E; cbn; [by apply Hi|].
  split_and!; [by exists k|by intros []|done|done].
Qed.

Lemma storage_dispatch_inv now e (n : Node) : e ∈ log n -> node_inv n ->
  node_inv (storage_dispatch now e n).
Proof.
  intros He Hi. pose proof (caused_elem _ _ (ni_caused n Hi) He) as Hc.
  assert (Hset : forall b h, (forall x a, BlockAssemblyBuffer.pending b !! x = Some a ->
      assembly_ok (log n) x a) -> node_inv (set_storage n b (TryComplete h) (channel n))).
  { intros b h Hb. destruct Hi as [H1 H2 H3 H4 H5 H6]. by split. }
  assert (Hins : forall b h a, (forall x a, BlockAssemblyBuffer.pending b !! x = Some a ->
      assembly_ok (log n) x a) -> assembly_ok (log n) h a ->
      forall x y, <[h := a]> (BlockAssemblyBuffer.pending b) !! x = Some y -> assembly_ok (log n) x y).
  { intros b h a Hb Ha x y. destruct (decide (x = h)) as [->|].
    - rewrite lookup_insert_eq. by intros [= <-].
    - rewrite lookup_insert_ne by done. apply Hb. }
  destruct e as [|h k s|h r s|h r s| | | | |]; cbn [storage_dispatch]; try done;
    (case_bool_decide as Hs; [|done]); subst s; apply Hset; cbn;
    cbn in Hc; [|destruct Hc as (_ & _ & k & Hk)..].
  - assert (Hb : forall x a, BlockAssemblyBuffer.pending
        (BlockAssemblyBuffer.enforce_max_pending (buffer n)).1 !! x = Some a ->
        pending n !! x = Some a).
    { intros x a. destruct (enforce_max_pending_spec (buffer n)) as (_ & _ & Hl & _).
      rewrite Hl. by case_decide. }
    apply Hins; [intros x a ?; apply (ni_pending n Hi); auto|].
    unfold BlockAssemblyBuffer.entry.
    destruct (BlockAssemblyBuffer.pending _ !! h) as [a|] eqn:E; cbn.
    + apply Hb, (ni_pending n Hi) in E as (_ & _ & ? & ?). split_and!; try done. by exists k.
    + split_and!; try done. by exists k.
  - apply Hins; [apply Hi|].
    destruct (assembly_entry_ok n h now k Hi Hk) as (? & ? & ? & ?). split_and!; try done.
    cbn. by intros ? [= <-].
  - apply Hins; [apply Hi|].
    destruct (assembly_entry_ok n h now k Hi Hk) as (? & ? & ? & ?). split_and!; try done.
    cbn. by intros ? [= <-].
Qed.

Lemma dispatch_inv t now e (n n' : Node) : e ∈ log n -> node_inv n ->
  dispatch sha3 keccak256 t now e n = Some n' -> node_inv n'.
Proof.
  intros He Hi. pose proof (caused_elem _ _ (ni_caused n Hi) He) as Hc.
  destruct t; cbn [dispatch].
  - intros [= <-].
    destruct (consensus_dispatch_spec now e n) as (out & ? & ? & E & ? & ? & ? & _ & Ho & _).
    apply (node_inv_publish n _ out); try done; [|by rewrite E].
    destruct Ho as [->|(h & k & d & x & tm & p & -> & Hd & ->)]; constructor; [|done].
    cbn. split; [done|]. by exists d, x, tm, p.
  - intros H. destruct (indexing_dispatch_spec e n n' H) as (out & ? & ? & E & ? & ? & ? & ? & Ho).
    apply (node_inv_publish n _ out); try done; [|by rewrite E].
    destruct e as [|h k []| | | | | | |]; subst out; try done; constructor; [|done].
    cbn. split_and!; [done..|]. by exists k.
  - intros [= <-]. destruct (state_dispatch_spec e n) as (out & ? & ? & E & ? & ? & ? & ? & Ho).
    apply (node_inv_publish n _ out); try done; [|by rewrite E].
    destruct e as [|h k []| | | | | | |]; subst out; try done; constructor; [|done].
    cbn. split_and!; [done|apply Hi|]. by exists k.
  - intros [= <-]. by apply storage_dispatch_inv.
  - intros [= <-]. destruct (finality_dispatch_spec e n) as (out & ? & ? & E & ? & ? & ? & ? & Ho & _).
    apply (node_inv_publish n _ out); try done; [|by rewrite E].
    destruct Ho as [->|(h & k & m & r & -> & Hk & ->)]; constructor; [|done].
    cbn. split_and!; [done..|]. by exists m, r.
  - intros H. destruct (ordering_dispatch_spec e n n' H) as (E1 & ? & E & ? & ? & ? & ?).
    apply (node_inv_publish n _ []); try done; [by rewrite E1, app_nil_r|by rewrite E].
Qed.

Lemma receive_inv t now (n n' : Node) : node_inv n -> receive sha3 keccak256 t now n = Some n' ->
  node_inv n'.
Proof.
  intros Hi. unfold receive. destruct (bc_recv (channel n) (receiver n t)) as [[r [e|k]]|] eqn:E;
    [| |done].
  - destruct (bc_recv_event _ _ _ _ E) as [He Hr]. apply dispatch_inv.
    + by eapply list_elem_of_lookup_2.
    + apply set_receiver_inv; [|done]. apply lookup_lt_Some in He. lia.
  - intros [= <-]. destruct (bc_recv_lagged _ _ _ _ E) as (_ & _ & ? & _).
    by apply set_receiver_inv.
Qed.

Lemma take_announcement_spec h b b' o : take_announcement h b = (b', o) ->
  (b' = b /\ o = None /\ BlockAssemblyBuffer.is_complete b h = false)
  \/ exists a m r, BlockAssemblyBuffer.pending b !! h = Some a /\ is_Some (pa_validated_block a)
       /\ pa_merkle_root a = Some m /\ pa_state_root a = Some r
       /\ b' = BlockAssemblyBuffer.set_pending b (delete h (BlockAssemblyBuffer.pending b))
       /\ o = Some (BlockStored h (pa_block_height a) m r BlockStorage).
Proof.
  unfold take_announcement, BlockAssemblyBuffer.take_complete, BlockAssemblyBuffer.is_complete.
  destruct (BlockAssemblyBuffer.pending b !! h) as [a|] eqn:E; [|by intros [= <- <-]; left].
  destruct (pa_is_complete a) eqn:Ec; [|by intros [= <- <-]; left].
  apply andb_prop in Ec as [[Hv Hm]%andb_prop Hr].
  apply bool_decide_eq_true in Hv, Hm, Hr. destruct Hm as [m Hm], Hr as [r Hr].
  intros [= <- <-]. right. exists a, m, r. cbn. rewrite Hm. cbn. rewrite Hr. by split_and!.
Qed.

Lemma run_task_inv t now (n n' : Node) : node_inv n ->
  run_task sha3 keccak256 t now n = Some n' -> node_inv n'.
Proof.
  intros Hi. unfold run_task. destruct t; try (by apply receive_inv).
  destruct (storage_task n) as [|h|e] eqn:Et; [by apply receive_inv| |].
  - destruct (take_announcement h (buffer n)) as [b o] eqn:E. intros [= <-].
    destruct (Hi) as [H1 H2 H3 H4 H5 H6].
    apply take_announcement_spec in E as [(-> & -> & _)|(a & m & r & Ha & Hv & Hm & Hr & -> & ->)].
    { by split. }
    split; try done; cbn.
    + intros x y [_ Hx]%lookup_delete_Some. by apply H3.
    + intros e [= <-]. destruct (H3 h a Ha) as (_ & Q1 & Q2 & Q3). split; [by eauto|].
      cbn. by auto.
  - intros [= <-]. destruct (ni_task n Hi e Et) as [(h & k & m & r & ->) Hc].
    destruct Hi as [H1 H2 H3 H4 H5 H6].
    split; cbn [set_storage channel trie buffer storage_task gc_queue receiver];
      rewrite ?publish_logged_sent by done; try done.
    + by apply caused_snoc.
    + intros x y Hx. eapply assembly_ok_mono; [|by apply H3]. set_solver.
    + intros t. rewrite length_app. specialize (H6 t). lia.
Qed.

Lemma gc_data_sub b now :
  BlockAssemblyBuffer.pending (BlockAssemblyBuffer.gc_expired_with_data b now).1
  ⊆ BlockAssemblyBuffer.pending b.
Proof.
  rewrite gc_expired_with_data_fst. cbn. apply map_subseteq_spec. intros x y.
  rewrite remove_all_lookup. by case_decide.
Qed.

Lemma node_step_inv (n n' : Node) a : node_inv n ->
  node_step sha3 keccak256 n a = Some n' -> node_inv n'.
Proof.
  intros Hi. destruct a as [p|t now|now]; cbn [node_step].
  - intros [= <-]. unfold bridge. rewrite router_publish_ok by done.
    eapply node_inv_publish; [apply bc_send_spec|..]; try done. by constructor.
  - by apply run_task_inv.
  - intros [= <-]. unfold collect. destruct (gc_queue n) as [|e q] eqn:Eq.
    + pose proof (gc_data_sub (buffer n) now) as Hsub.
      destruct (BlockAssemblyBuffer.gc_expired_with_data (buffer n) now) as [b l]. cbn [fst] in Hsub.
      destruct Hi as [H1 H2 H3 H4 H5 H6]. split; try done; cbn.
      * intros h a Ha. apply H3. by eapply lookup_weaken.
      * apply Forall_fmap, Forall_true. intros [h a]. by eexists _, _.
    + destruct Hi as [H1 H2 H3 H4 H5 H6]. rewrite Eq in H5.
      apply Forall_cons in H5 as [(h & m & ->) H5].
      split; cbn [set_gc channel trie buffer storage_task gc_queue receiver];
        rewrite ?publish_logged_sent by done; try done.
      * by apply caused_snoc.
      * intros x y Hx. eapply assembly_ok_mono; [|by apply H3]. set_solver.
      * intros x Hx. destruct (H4 x Hx). split; [done|]. eapply cause_ok_mono; [|done]. set_solver.
      * intros t. rewrite length_app. specialize (H6 t). lia.
Qed.

Lemma node_run_inv l : forall (n n' : Node), node_inv n ->
  node_run sha3 keccak256 n l = Some n' -> node_inv n'.
Proof.
  induction l as [|a l IH]; intros n n' Hi; cbn; [by intros [= <-]|].
  destruct (node_step _ _ n a) as [n1|] eqn:E; cbn; [|done]. apply IH. by eapply node_step_inv.
Qed.

Lemma node_new_inv c r timeout max_pending height : sent c = [] -> pos r = 0%nat ->
  node_inv (node_new c r timeout max_pending height).
Proof. intros Hc Hr. split; cbn; rewrite ?Hc, ?Hr; try done. Qed.

(** ** Termination *)

(** The steps an unseen event can still cause in a task, and in all of them. *)
Definition weight (t : Task) (e : ChoreographyEvent) : nat :=
  match t, e with
  | ConsensusTask, BlockProduced _ _ _ _ _ _ _ => 61
  | IndexingTask, BlockValidated _ _ _ | StateTask, BlockValidated _ _ _ => 21
  | StorageTask_, BlockValidated _ _ _ | StorageTask_, MerkleRootComputed _ _ _
  | StorageTask_, StateRootComputed _ _ _ => 15
  | FinalityTask, BlockStored _ _ _ _ _ => 7
  | _, _ => 1
  end.

Definition cost (e : ChoreographyEvent) : nat :=
  match e with
  | BlockProduced _ _ _ _ _ _ _ => 66
  | BlockValidated _ _ _ => 60
  | MerkleRootComputed _ _ _ | StateRootComputed _ _ _ => 20
  | BlockStored _ _ _ _ _ => 12
  | _ => 6
  end.

Lemma cost_weights e : cost e = sum_list ((fun t => weight t e) <$> all_tasks).
Proof. by destruct e. Qed.

Definition task_weight (s : StorageTask) : nat :=
  match s with Idle => 0 | TryComplete _ => 14 | Announce _ => 13 end.

Definition backlog (n : Node) (t : Task) : nat :=
  sum_list (weight t <$> drop (at_ n t) (log n)).

Definition potential (n : Node) : nat :=
  (sum_list (backlog n <$> all_tasks) + task_weight (storage_task n))%nat.

Lemma sum_list_cons x (l : list nat) : sum_list (x :: l) = (x + sum_list l)%nat.
Proof. done. Qed.

Lemma sum_list_app (l k : list nat) : sum_list (l ++ k) = (sum_list l + sum_list k)%nat.
Proof. induction l; cbn; lia. Qed.

Lemma backlog_publish (n n' : Node) out t : node_inv n -> log n' = log n ++ out ->
  receiver n' = receiver n ->
  backlog n' t = (backlog n t + sum_list (weight t <$> out))%nat.
Proof.
  intros Hi El Er. unfold backlog. rewrite El, Er, drop_app_le by apply Hi.
  by rewrite fmap_app, sum_list_app.
Qed.

Lemma sum_costs out :
  sum_list (cost <$> out) = sum_list ((fun t => sum_list (weight t <$> out)) <$> all_tasks).
Proof.
  induction out as [|e out IH]; [done|]. rewrite fmap_cons, sum_list_cons, IH, cost_weights. cbn. lia.
Qed.

Lemma potential_publish (n n' : Node) out : node_inv n -> log n' = log n ++ out ->
  receiver n' = receiver n ->
  sum_list (backlog n' <$> all_tasks)
  = (sum_list (backlog n <$> all_tasks) + sum_list (cost <$> out))%nat.
Proof.
  intros Hi El Er. rewrite sum_costs. cbn. rewrite !(backlog_publish n n' out) by done. lia.
Qed.

(** What a reaction publishes costs less than the event it reacts to. *)
Lemma dispatch_cost t now e (n n' : Node) : (t = StorageTask_ -> storage_task n = Idle) ->
  dispatch sha3 keccak256 t now e n = Some n' ->
  exists out, log n' = log n ++ out /\ receiver n' = receiver n /\ gc_queue n' = gc_queue n
  /\ (sum_list (cost <$> out) + task_weight (storage_task n')
      < weight t e + task_weight (storage_task n))%nat.
Proof.
  intros Hidle. destruct t; cbn [dispatch].
  - intros [= <-].
    destruct (consensus_dispatch_spec now e n) as (out & ? & ? & ? & ? & Es & ? & _ & Ho & _).
    exists out. split_and!; try done. rewrite Es; generalize (task_weight (storage_task n)); intros w.
    destruct Ho as [->|(h & k & d & x & tm & p & -> & _ & ->)]; [|cbn; lia].
    destruct e; cbn; lia.
  - intros H. destruct (indexing_dispatch_spec e n n' H) as (out & ? & ? & _ & _ & _ & Es & ? & Ho).
    exists out. split_and!; try done. rewrite Es; generalize (task_weight (storage_task n)); intros w.
    destruct e as [|h k []| | | | | | |]; subst out; cbn; lia.
  - intros [= <-]. destruct (state_dispatch_spec e n) as (out & ? & ? & _ & _ & _ & Es & ? & Ho).
    exists out. split_and!; try done. rewrite Es; generalize (task_weight (storage_task n)); intros w.
    destruct e as [|h k []| | | | | | |]; subst out; cbn; lia.
  - intros [= <-]. exists []. rewrite app_nil_r.
    destruct e; cbn [storage_dispatch]; try case_bool_decide; (split_and!; [done..|]);
      rewrite Hidle by done; cbn; lia.
  - intros [= <-]. destruct (finality_dispatch_spec e n) as (out & ? & ? & _ & _ & _ & Es & ? & Ho & _).
    exists out. split_and!; try done. rewrite Es; generalize (task_weight (storage_task n)); intros w.
    destruct Ho as [->|(h & k & m & r & -> & _ & ->)]; [|cbn; lia]. destruct e; cbn; lia.
  - intros H. destruct (ordering_dispatch_spec e n n' H) as (E1 & ? & _ & _ & _ & Es & ?).
    exists []. rewrite app_nil_r. split_and!; try done. rewrite Es; generalize (task_weight (storage_task n)); intros w. destruct e; cbn; lia.
Qed.

Lemma backlog_receiver (n : Node) t t' r : t' <> t ->
  backlog (set_receiver n t r) t' = backlog n t'.
Proof. intros Hne. unfold backlog. cbn. by rewrite decide_False. Qed.

Lemma backlog_lag (n : Node) t r : (at_ n t < pos r)%nat -> (pos r <= length (log n))%nat ->
  (backlog (set_receiver n t r) t < backlog n t)%nat.
Proof.
  intros H1 H2. unfold backlog. cbn. rewrite decide_True by done.
  destruct (lookup_lt_is_Some_2 (log n) (at_ n t)) as [e He]; [lia|].
  rewrite (drop_S _ _ _ He), fmap_cons, sum_list_cons.
  replace (pos r) with (S (at_ n t) + (pos r - S (at_ n t)))%nat by lia.
  rewrite <-drop_drop. set (l := drop (S (at_ n t)) (log n)).
  assert (sum_list (weight t <$> drop (pos r - S (at_ n t)) l) <= sum_list (weight t <$> l))%nat.
  { rewrite <-(take_drop (pos r - S (at_ n t)) l) at 2. rewrite fmap_app, sum_list_app. lia. }
  assert (0 < weight t e)%nat by (destruct t, e; cbn; lia).
  lia.
Qed.

Lemma backlog_event (n : Node) t r e : log n !! at_ n t = Some e -> pos r = S (at_ n t) ->
  backlog n t = (weight t e + backlog (set_receiver n t r) t)%nat.
Proof.
  intros He Hr. unfold backlog. cbn. rewrite decide_True by done.
  by rewrite (drop_S _ _ _ He), Hr.
Qed.

Lemma sum_backlog_receiver (n : Node) t r d : backlog n t = (d + backlog (set_receiver n t r) t)%nat ->
  sum_list (backlog n <$> all_tasks)
  = (d + sum_list (backlog (set_receiver n t r) <$> all_tasks))%nat.
Proof.
  intros E. pose proof (backlog_receiver n t) as H.
  destruct t; cbn; rewrite E;
    rewrite ?(H ConsensusTask), ?(H IndexingTask), ?(H StateTask), ?(H StorageTask_),
      ?(H FinalityTask), ?(H OrderingTask) by done; lia.
Qed.

Lemma receive_potential t now (n n' : Node) : node_inv n ->
  (t = StorageTask_ -> storage_task n = Idle) ->
  receive sha3 keccak256 t now n = Some n' -> (potential n' < potential n)%nat.
Proof.
  intros Hi Hidle. unfold receive, potential.
  destruct (bc_recv (channel n) (receiver n t)) as [[r [e|k]]|] eqn:E; [| |done].
  - destruct (bc_recv_event _ _ _ _ E) as [He Hr]. intros Hd.
    assert (Hi1 : node_inv (set_receiver n t r)).
    { apply set_receiver_inv; [|done]. apply lookup_lt_Some in He. lia. }
    destruct (dispatch_cost t now e (set_receiver n t r) n' Hidle Hd) as (out & El & Er & _ & Hc).
    rewrite (potential_publish _ n' out Hi1 El Er).
    rewrite (sum_backlog_receiver n t r (weight t e)) by (by apply backlog_event).
    cbn [set_receiver storage_task] in *. lia.
  - intros [= <-]. destruct (bc_recv_lagged _ _ _ _ E) as (H1 & H2 & H3 & _).
    pose proof (backlog_lag n t r) as Hlag.
    rewrite (sum_backlog_receiver n t r (backlog n t - backlog (set_receiver n t r) t)) by lia.
    cbn [set_receiver storage_task]. lia.
Qed.

Lemma run_task_potential t now (n n' : Node) : node_inv n ->
  run_task sha3 keccak256 t now n = Some n' -> (potential n' < potential n)%nat.
Proof.
  intros Hi. unfold run_task. destruct t; try (by apply receive_potential).
  destruct (storage_task n) as [|h|e] eqn:Et; [by apply receive_potential| |].
  - destruct (take_announcement h (buffer n)) as [b o]. intros [= <-]. unfold potential.
    rewrite (potential_publish n _ []) by (done || by rewrite app_nil_r).
    cbn [set_storage storage_task]. rewrite Et. destruct o; cbn; lia.
  - intros [= <-]. destruct (ni_task n Hi e Et) as [(h & k & m & r & ->) _].
    unfold potential. erewrite (potential_publish n _ [_]);
      [|done|cbn [set_storage channel]; by apply publish_logged_sent|done].
    rewrite Et. cbn. lia.
Qed.

(** ** Runs without losses *)

(** The number of events of a kind. *)
Definition count (f : ChoreographyEvent -> bool) (l : list ChoreographyEvent) : nat :=
  length (base.filter (fun e => f e = true) l).

Lemma count_app f l k : count f (l ++ k) = (count f l + count f k)%nat.
Proof. unfold count. by rewrite filter_app, length_app. Qed.

Lemma count_take f i l : (count f (take i l) <= count f l)%nat.
Proof. rewrite <-(take_drop i l) at 2. rewrite count_app. lia. Qed.

Lemma count_one f e : count f [e] = if f e then 1%nat else 0%nat.
Proof. unfold count. cbn. destruct (f e); by case_decide. Qed.

Definition is_produced e := match e with BlockProduced _ _ _ _ _ _ _ => true | _ => false end.
Definition is_validated e := match e with BlockValidated _ _ _ => true | _ => false end.
Definition is_merkle e := match e with MerkleRootComputed _ _ _ => true | _ => false end.
Definition is_state_root e := match e with StateRootComputed _ _ _ => true | _ => false end.
Definition is_stored e := match e with BlockStored _ _ _ _ _ => true | _ => false end.
Definition is_finalized e := match e with BlockFinalized _ _ _ _ => true | _ => false end.
Definition is_timeout e := match e with AssemblyTimeout _ _ _ => true | _ => false end.
Definition is_part e := is_validated e || is_merkle e || is_state_root e.

Definition busy (s : StorageTask) : nat := match s with Idle => 0 | _ => 1 end.

(** Each kind of event is bounded by what its publisher has seen. *)
Record bounded (b : nat) (n : Node) : Prop := {
  bd_produced : count is_produced (log n) = b;
  bd_validated : (count is_validated (log n) <= count is_produced (seen n ConsensusTask))%nat;
  bd_merkle : (count is_merkle (log n) <= count is_validated (seen n IndexingTask))%nat;
  bd_state : (count is_state_root (log n) <= count is_validated (seen n StateTask))%nat;
  bd_stored : (count is_stored (log n) + busy (storage_task n)
    <= count is_part (seen n StorageTask_))%nat;
  bd_finalized : (count is_finalized (log n) <= count is_stored (seen n FinalityTask))%nat;
  bd_timeouts : count is_timeout (log n) = 0%nat;
  bd_gc : gc_queue n = []
}.

Lemma count_parts l :
  count is_part l = (count is_validated l + count is_merkle l + count is_state_root l)%nat.
Proof.
  induction l as [|e l IH]; [done|]. rewrite (cons_middle e [] l : e :: l = [e] ++ l) || idtac.
  change (e :: l) with ([e] ++ l). rewrite !count_app, IH, !count_one. destruct e; cbn; lia.
Qed.

(** At most ten events for each block. *)
Lemma bounded_length b (n : Node) : node_inv n -> bounded b n ->
  (length (log n) <= 10 * b /\ count is_validated (log n) <= b)%nat.
Proof.
  intros Hi [H1 H2 H3 H4 H5 H6 H7 _].
  assert (Hlen : length (log n) = (count is_produced (log n) + count is_validated (log n)
    + count is_merkle (log n) + count is_state_root (log n) + count is_stored (log n)
    + count is_finalized (log n) + count is_timeout (log n))%nat).
  { assert (Hall : Forall (fun e => exists l, cause_ok l e) (log n)).
    { apply Forall_forall. intros e He. exists (log n). by apply caused_elem; [apply Hi|]. }
    clear -Hall. induction Hall as [|e l [k He] _ IH]; [done|].
    change (e :: l) with ([e] ++ l). rewrite !count_app, !count_one, length_app, IH.
    destruct e; cbn in *; try lia; done. }
  pose proof (count_take is_produced (at_ n ConsensusTask) (log n)).
  pose proof (count_take is_validated (at_ n IndexingTask) (log n)).
  pose proof (count_take is_validated (at_ n StateTask) (log n)).
  pose proof (count_take is_part (at_ n StorageTask_) (log n)) as Hp. rewrite (count_parts (log n)) in Hp.
  pose proof (count_take is_stored (at_ n FinalityTask) (log n)).
  unfold seen in *. lia.
Qed.

(** One event more is seen by one task, and the others see what they saw. *)
Lemma receive_event t now (n n' : Node) : node_inv n -> (length (log n) <= capacity)%nat ->
  receive sha3 keccak256 t now n = Some n' ->
  exists r e, e ∈ log n /\ log n !! at_ n t = Some e /\ pos r = S (at_ n t)
  /\ dispatch sha3 keccak256 t now e (set_receiver n t r) = Some n'
  /\ node_inv (set_receiver n t r).
Proof.
  intros Hi Hcap. unfold receive.
  destruct (bc_recv (channel n) (receiver n t)) as [[r [e|k]]|] eqn:E; [| |done].
  - destruct (bc_recv_event _ _ _ _ E) as [He Hr]. intros Hd. exists r, e.
    split_and!; try done; [by eapply list_elem_of_lookup_2|].
    apply set_receiver_inv; [|done]. apply lookup_lt_Some in He. lia.
  - destruct (bc_recv_lagged _ _ _ _ E) as (_ & _ & _ & Hlag). lia.
Qed.

Lemma seen_publish (n n' : Node) out t : node_inv n -> log n' = log n ++ out ->
  receiver n' = receiver n -> seen n' t = seen n t.
Proof. intros Hi El Er. unfold seen. by rewrite El, Er, take_app_le by apply Hi. Qed.

Lemma seen_receive (n n' : Node) t r e out : node_inv (set_receiver n t r) ->
  log n !! at_ n t = Some e -> pos r = S (at_ n t) ->
  log n' = log n ++ out -> receiver n' = receiver (set_receiver n t r) ->
  seen n' t = seen n t ++ [e] /\ forall t', t' <> t -> seen n' t' = seen n t'.
Proof.
  intros Hi He Hr El Er.
  assert (H : forall t', seen n' t' = seen (set_receiver n t r) t') by (intros; by eapply seen_publish).
  split.
  - rewrite H. unfold seen. cbn. rewrite decide_True by done. by rewrite Hr, (take_S_r _ _ _ He).
  - intros t' Hne. rewrite H. unfold seen. cbn. by rewrite decide_False.
Qed.

Definition task_eqb (t t' : Task) : bool :=
  match t, t' with
  | ConsensusTask, ConsensusTask | IndexingTask, IndexingTask | StateTask, StateTask
  | StorageTask_, StorageTask_ | FinalityTask, FinalityTask | OrderingTask, OrderingTask => true
  | _, _ => false
  end.

Lemma task_eqb_spec t t' : reflect (t = t') (task_eqb t t').
Proof. destruct t, t'; by constructor. Qed.

Lemma receive_bounded b t now (n n' : Node) : node_inv n -> (10 * b <= capacity)%nat ->
  (t = StorageTask_ -> storage_task n = Idle) -> bounded b n ->
  receive sha3 keccak256 t now n = Some n' -> bounded b n'.
Proof.
  intros Hi Hcap Hidle Hb Hrec. destruct (bounded_length b n Hi Hb) as [Hlen _].
  destruct (receive_event t now n n' Hi ltac:(lia) Hrec) as (r & e & _ & He & Hr & Hd & Hi1).
  assert (Hx : exists out, log n' = log n ++ out /\ receiver n' = receiver (set_receiver n t r)
    /\ gc_queue n' = gc_queue n
    /\ (count is_produced out = 0 /\ count is_timeout out = 0
        /\ count is_validated out <= (if task_eqb t ConsensusTask then count is_produced [e] else 0)
        /\ count is_merkle out <= (if task_eqb t IndexingTask then count is_validated [e] else 0)
        /\ count is_state_root out <= (if task_eqb t StateTask then count is_validated [e] else 0)
        /\ count is_stored out + busy (storage_task n')
           <= busy (storage_task n) + (if task_eqb t StorageTask_ then count is_part [e] else 0)
        /\ count is_finalized out <= (if task_eqb t FinalityTask then count is_stored [e] else 0))%nat).
  { destruct t; cbn [dispatch] in Hd.
    - injection Hd as <-. destruct (consensus_dispatch_spec now e (set_receiver n ConsensusTask r))
        as (out & El & Er & _ & _ & Es & Eg & _ & Ho & _).
      exists out. split_and!; try done; rewrite ?Es;
        destruct Ho as [->|(h & k & d & x & tm & p & -> & _ & ->)]; rewrite ?count_one; cbn; lia.
    - destruct (indexing_dispatch_spec e _ _ Hd) as (out & El & Er & _ & _ & _ & Es & Eg & Ho).
      exists out. split_and!; try done; rewrite ?Es;
        destruct e as [|h k []| | | | | | |]; subst out; rewrite ?count_one; cbn; lia.
    - injection Hd as <-. destruct (state_dispatch_spec e (set_receiver n StateTask r))
        as (out & El & Er & _ & _ & _ & Es & Eg & Ho).
      exists out. split_and!; try done; rewrite ?Es;
        destruct e as [|h k []| | | | | | |]; subst out; rewrite ?count_one; cbn; lia.
    - injection Hd as <-. exists []. rewrite app_nil_r, Hidle by done.
      destruct e; cbn [storage_dispatch]; try case_bool_decide; split_and!; try done;
        rewrite ?count_one; cbn; rewrite ?Hidle by done; cbn; lia.
    - injection Hd as <-. destruct (finality_dispatch_spec e (set_receiver n FinalityTask r))
        as (out & El & Er & _ & _ & _ & Es & Eg & Ho & _).
      exists out. split_and!; try done; rewrite ?Es;
        destruct Ho as [->|(h & k & m & q & -> & _ & ->)]; rewrite ?count_one; cbn; lia.
    - destruct (ordering_dispatch_spec e _ _ Hd) as (El & Er & _ & _ & _ & Es & Eg).
      exists []. rewrite app_nil_r. split_and!; try done. rewrite Es. cbn. lia. }
  destruct Hx as (out & El & Er & Eg & C1 & C2 & C3 & C4 & C5 & C6 & C7).
  destruct (seen_receive n n' t r e out Hi1 He Hr El Er) as [S1 S2].
  assert (S : forall f t', count f (seen n' t')
    = (count f (seen n t') + if task_eqb t t' then count f [e] else 0)%nat).
  { intros f t'. destruct (task_eqb_spec t t') as [->|Hne]; [by rewrite S1, count_app|].
    rewrite S2 by done. lia. }
  destruct Hb as [H1 H2 H3 H4 H5 H6 H7 H8].
  split; rewrite ?El, ?S, ?count_app; lia || congruence.
Qed.

Lemma bounded_publish b (n n' : Node) : node_inv n -> log n' = log n -> receiver n' = receiver n ->
  gc_queue n' = gc_queue n -> (busy (storage_task n') <= busy (storage_task n))%nat ->
  bounded b n -> bounded b n'.
Proof.
  intros Hi El Er Eg Hb [H1 H2 H3 H4 H5 H6 H7 H8].
  assert (S : forall t, seen n' t = seen n t).
  { intros t. apply (seen_publish n n' []); [done|by rewrite app_nil_r|done]. }
  split; rewrite ?El, ?S, ?Eg; lia || done.
Qed.

Lemma run_task_bounded b t now (n n' : Node) : node_inv n -> (10 * b <= capacity)%nat ->
  bounded b n -> run_task sha3 keccak256 t now n = Some n' -> bounded b n'.
Proof.
  intros Hi Hcap Hb. unfold run_task. destruct t; try (by apply receive_bounded).
  destruct (storage_task n) as [|h|e] eqn:Et; [by apply receive_bounded| |].
  - destruct (take_announcement h (buffer n)) as [b' o]. intros [= <-].
    apply (bounded_publish b n); try done. rewrite Et. cbn. destruct o; cbn; lia.
  - intros [= <-]. destruct (ni_task n Hi e Et) as [(h & k & m & r & ->) _].
    set (n' := set_storage _ _ _ _).
    assert (El : log n' = log n ++ [BlockStored h k m r BlockStorage]) by (by apply publish_logged_sent).
    assert (S : forall t, seen n' t = seen n t) by (intros t; by eapply seen_publish).
    destruct Hb as [H1 H2 H3 H4 H5 H6 H7 H8]. rewrite Et in H5. cbn [busy] in H5.
    split; rewrite ?El, ?S, ?count_app, ?count_one; cbn; lia || done.
Qed.

(** The assembly of a hash: announced, or holding every part that was seen, and
    looked at once it is complete. *)
Definition storage_live (n : Node) (h : Hash) : Prop :=
  (exists k m r, BlockStored h k m r BlockStorage ∈ log n)
  \/ (exists k m r, storage_task n = Announce (BlockStored h k m r BlockStorage))
  \/ ((forall k, BlockValidated h k Consensus ∈ seen n StorageTask_ ->
         exists a, pending n !! h = Some a /\ is_Some (pa_validated_block a))
      /\ (forall r, MerkleRootComputed h r TransactionIndexing ∈ seen n StorageTask_ ->
         exists a, pending n !! h = Some a /\ is_Some (pa_merkle_root a))
      /\ (forall r, StateRootComputed h r StateManagement ∈ seen n StorageTask_ ->
         exists a, pending n !! h = Some a /\ is_Some (pa_state_root a))
      /\ (forall a, pending n !! h = Some a -> pa_is_complete a = true ->
         storage_task n = TryComplete h)).

(** What each task has published for what it has seen, when the blocks are
    stamped no later than [T]. *)
Record live (T : u64) (n : Node) : Prop := {
  lv_times h k d x tm p s : BlockProduced h k d x tm p s ∈ log n -> tm <= T;
  lv_cache h : h ∈ validated_blocks (consensus n) -> exists k, BlockValidated h k Consensus ∈ log n;
  lv_consensus h k d x tm p : BlockProduced h k d x tm p BlockProduction ∈ seen n ConsensusTask ->
    d <> 0 -> exists k', BlockValidated h k' Consensus ∈ log n;
  lv_indexing h k : BlockValidated h k Consensus ∈ seen n IndexingTask ->
    MerkleRootComputed h SENTINEL_HASH TransactionIndexing ∈ log n;
  lv_state h k : BlockValidated h k Consensus ∈ seen n StateTask ->
    StateRootComputed h EMPTY_TRIE_ROOT StateManagement ∈ log n;
  lv_storage h : storage_live n h;
  lv_finality h k m r : BlockStored h k m r BlockStorage ∈ seen n FinalityTask ->
    k mod 4 = 0 \/ k <= 10 -> BlockFinalized h k [] Finality ∈ log n
}.

Lemma storage_live_ext (n n' : Node) h : log n ⊆ log n' -> storage_task n' = storage_task n ->
  seen n' StorageTask_ = seen n StorageTask_ -> buffer n' = buffer n ->
  storage_live n h -> storage_live n' h.
Proof.
  intros Hl Et Es Eb [(k & m & r & H)|[(k & m & r & H)|H]].
  - left. exists k, m, r. by apply Hl.
  - right; left. exists k, m, r. by rewrite Et.
  - right; right. by rewrite Et, Es, Eb.
Qed.

Lemma size_list_to_set_le (l : list Hash) : (size (list_to_set l : gset Hash) <= length l)%nat.
Proof.
  induction l as [|x l IH]; [done|]. cbn [list_to_set length].
  rewrite size_union_alt, size_singleton.
  pose proof (subseteq_size (list_to_set l ∖ {[x]}) (list_to_set l : gset Hash)) as H.
  specialize (H ltac:(set_solver)). lia.
Qed.

(** The hashes in the buffer were validated, so there are no more of them than
    validated blocks. *)
Lemma pending_size (n : Node) : node_inv n ->
  (size (pending n) <= count is_validated (log n))%nat.
Proof.
  intros Hi. rewrite <-size_dom.
  set (hash_of e := match e with BlockValidated h _ _ => Some h | _ => None end).
  assert (Hlen : length (omap hash_of (log n)) = count is_validated (log n)).
  { generalize (log n). intros l. induction l as [|e l IH]; [done|].
    change (e :: l) with ([e] ++ l). rewrite omap_app, length_app, count_app, count_one, IH.
    by destruct e. }
  rewrite <-Hlen. etrans; [|apply size_list_to_set_le].
  apply subseteq_size. intros h [a Ha]%elem_of_dom.
  destruct (ni_pending n Hi h a Ha) as ((k & Hk) & _).
  apply elem_of_list_to_set, list_elem_of_omap. by exists (BlockValidated h k Consensus).
Qed.

(** A part arrives: the assembly gets it and is looked at next. *)
Lemma storage_live_part (n n' : Node) e h0 a0 now : storage_task n = Idle ->
  log n' = log n -> seen n' StorageTask_ = seen n StorageTask_ ++ [e] ->
  pending n' = <[h0 := a0]> (pending n) -> storage_task n' = TryComplete h0 ->
  let a := BlockAssemblyBuffer.entry (buffer n) h0 now in
  (is_Some (pa_validated_block a) -> is_Some (pa_validated_block a0)) ->
  (is_Some (pa_merkle_root a) -> is_Some (pa_merkle_root a0)) ->
  (is_Some (pa_state_root a) -> is_Some (pa_state_root a0)) ->
  match e with
  | BlockValidated x _ _ => x = h0 /\ is_Some (pa_validated_block a0)
  | MerkleRootComputed x _ _ => x = h0 /\ is_Some (pa_merkle_root a0)
  | StateRootComputed x _ _ => x = h0 /\ is_Some (pa_state_root a0)
  | _ => True
  end ->
  (forall h, storage_live n h) -> forall h, storage_live n' h.
Proof.
  intros Hidle El Es Ep Et a V1 V2 V3 He H h.
  destruct (H h) as [(k & m & r & H0)|[(k & m & r & H0)|(P1 & P2 & P3 & P4)]].
  - left. exists k, m, r. by rewrite El.
  - congruence.
  - right; right. rewrite Ep, Es, Et.
    assert (Hold : forall b, pending n !! h0 = Some b -> a = b).
    { intros b Hb. unfold a, BlockAssemblyBuffer.entry. by rewrite Hb. }
    destruct (decide (h = h0)) as [->|Hne].
    + rewrite lookup_insert_eq. split_and!.
      * intros k [Hin|Hin%list_elem_of_singleton]%elem_of_app; exists a0; (split; [done|]).
        -- destruct (P1 k Hin) as (b & Hb & ?). apply V1. by rewrite (Hold b Hb).
        -- subst e. apply He.
      * intros r [Hin|Hin%list_elem_of_singleton]%elem_of_app; exists a0; (split; [done|]).
        -- destruct (P2 r Hin) as (b & Hb & ?). apply V2. by rewrite (Hold b Hb).
        -- subst e. apply He.
      * intros r [Hin|Hin%list_elem_of_singleton]%elem_of_app; exists a0; (split; [done|]).
        -- destruct (P3 r Hin) as (b & Hb & ?). apply V3. by rewrite (Hold b Hb).
        -- subst e. apply He.
      * done.
    + rewrite lookup_insert_ne by done. split_and!.
      * intros k [Hin|Hin%list_elem_of_singleton]%elem_of_app; [by eapply P1|].
        subst e. by destruct He.
      * intros r [Hin|Hin%list_elem_of_singleton]%elem_of_app; [by eapply P2|].
        subst e. by destruct He.
      * intros r [Hin|Hin%list_elem_of_singleton]%elem_of_app; [by eapply P3|].
        subst e. by destruct He.
      * intros b Hb Hc. specialize (P4 b Hb Hc). congruence.
Qed.

Lemma storage_dispatch_live now e (n n' : Node) : caused (log n) -> e ∈ log n ->
  storage_task n = Idle ->
  (size (pending n) <= max_pending_assemblies (BlockAssemblyBuffer.config (buffer n)))%nat ->
  log n' = log n -> seen n' StorageTask_ = seen n StorageTask_ ++ [e] ->
  buffer n' = buffer (storage_dispatch now e n) ->
  storage_task n' = storage_task (storage_dispatch now e n) ->
  (forall h, storage_live n h) -> forall h, storage_live n' h.
Proof.
  intros Hca Hin Hidle Hsz El Es Eb Et H.
  pose proof (caused_elem _ _ Hca Hin) as Hc.
  assert (Hother : buffer n' = buffer n -> storage_task n' = Idle ->
    (forall h k, e <> BlockValidated h k Consensus) ->
    (forall h r, e <> MerkleRootComputed h r TransactionIndexing) ->
    (forall h r, e <> StateRootComputed h r StateManagement) -> forall h, storage_live n' h).
  { intros E1 E2 N1 N2 N3 h.
    destruct (H h) as [(k & m & r & H0)|[(k & m & r & H0)|(P1 & P2 & P3 & P4)]].
    - left. exists k, m, r. by rewrite El.
    - congruence.
    - right; right. rewrite E1, E2, Es. rewrite Hidle in P4. split_and!; [..|done].
      + intros k [?|Hx%list_elem_of_singleton]%elem_of_app; [by eapply P1|]. by destruct (N1 h k).
      + intros r [?|Hx%list_elem_of_singleton]%elem_of_app; [by eapply P2|]. by destruct (N2 h r).
      + intros r [?|Hx%list_elem_of_singleton]%elem_of_app; [by eapply P3|]. by destruct (N3 h r). }
  destruct e as [|h0 k s|h0 r s|h0 r s| | | | |]; cbn [storage_dispatch] in Eb, Et;
    try (apply Hother; [exact Eb|by rewrite Et|done..]).
  - destruct Hc as (-> & _). rewrite bool_decide_true in Eb, Et by done.
    cbn [set_storage buffer storage_task] in Eb, Et. unfold storage_on_block_validated in Eb.
    assert (Ee : (BlockAssemblyBuffer.enforce_max_pending (buffer n)).1 = buffer n).
    { unfold BlockAssemblyBuffer.enforce_max_pending. by rewrite (proj2 (Nat.leb_le _ _)). }
    rewrite Ee in Eb.
    eapply (storage_live_part n n' _ h0 _ now Hidle El Es); [by rewrite Eb|done|..]; cbn; done.
  - destruct Hc as (-> & _). rewrite bool_decide_true in Eb, Et by done.
    cbn [set_storage buffer storage_task] in Eb, Et.
    eapply (storage_live_part n n' _ h0 _ now Hidle El Es); [by rewrite Eb|done|..]; cbn; done.
  - destruct Hc as (-> & _). rewrite bool_decide_true in Eb, Et by done.
    cbn [set_storage buffer storage_task] in Eb, Et.
    eapply (storage_live_part n n' _ h0 _ now Hidle El Es); [by rewrite Eb|done|..]; cbn; done.
Qed.


(** A reaction keeps what the other tasks have published. *)
Lemma live_other T (n n' : Node) t e out : live T n -> log n' = log n ++ out ->
  (forall h k d x tm p s, BlockProduced h k d x tm p s ∉ out) ->
  seen n' t = seen n t ++ [e] -> (forall t', t' <> t -> seen n' t' = seen n t') ->
  (forall h, h ∈ validated_blocks (consensus n') ->
     exists k, BlockValidated h k Consensus ∈ log n') ->
  (t = ConsensusTask -> forall h k d x tm p, e = BlockProduced h k d x tm p BlockProduction ->
     d <> 0 -> exists k', BlockValidated h k' Consensus ∈ log n') ->
  (t = IndexingTask -> forall h k, e = BlockValidated h k Consensus ->
     MerkleRootComputed h SENTINEL_HASH TransactionIndexing ∈ log n') ->
  (t = StateTask -> forall h k, e = BlockValidated h k Consensus ->
     StateRootComputed h EMPTY_TRIE_ROOT StateManagement ∈ log n') ->
  (t = FinalityTask -> forall h k m r, e = BlockStored h k m r BlockStorage ->
     k mod 4 = 0 \/ k <= 10 -> BlockFinalized h k [] Finality ∈ log n') ->
  (forall h, storage_live n' h) -> live T n'.
Proof.
  intros [L1 L2 L3 L4 L5 L6 L7] El Hout St So Q1 Q2 Q3 Q4 Q5 Q6.
  assert (Hsub : log n ⊆ log n') by (rewrite El; set_solver).
  assert (Hin : forall t' x, x ∈ seen n' t' -> x ∈ seen n t' \/ (t' = t /\ x = e)).
  { intros t' x. destruct (decide (t' = t)) as [->|Hne]; [|rewrite So by done; by left].
    rewrite St. intros [?|?%list_elem_of_singleton]%elem_of_app; [by left|by right]. }
  split; try done.
  - intros h k d x tm p s'. rewrite El. intros [?|?]%elem_of_app; [by eapply L1|].
    by destruct (Hout h k d x tm p s').
  - intros h k d x tm p [Ho|[Ht He]]%Hin Hd; [|by eapply Q2].
    destruct (L3 _ _ _ _ _ _ Ho Hd) as [k' ?]. exists k'. by apply Hsub.
  - intros h k [Ho|[Ht He]]%Hin; [|by eapply Q3]. eapply Hsub, L4, Ho.
  - intros h k [Ho|[Ht He]]%Hin; [|by eapply Q4]. eapply Hsub, L5, Ho.
  - intros h k m r [Ho|[Ht He]]%Hin Hk; [|by eapply Q5]. by eapply Hsub, L7.
Qed.

Lemma consensus_receive_live T now (n : Node) r e : T <= wrapping_add 64 now 15 -> live T n ->
  e ∈ log n -> log n !! at_ n ConsensusTask = Some e -> pos r = S (at_ n ConsensusTask) ->
  node_inv (set_receiver n ConsensusTask r) ->
  live T (consensus_dispatch now e (set_receiver n ConsensusTask r)).
Proof.
  intros HT Hl Hin He Hr Hi1.
  destruct (consensus_dispatch_spec now e (set_receiver n ConsensusTask r))
    as (out & El & Er & _ & Eb & Es & _ & Hc & Ho & Hp).
  change (log (set_receiver n ConsensusTask r)) with (log n) in El.
  destruct (seen_receive n _ _ r e out Hi1 He Hr El Er) as [S1 S2].
  apply (live_other T n _ ConsensusTask e out); try done.
  - destruct Ho as [->|(h & k & d & x & tm & p & _ & _ & ->)]; set_solver.
  - intros h [Hh|[k Hk]]%Hc; [|exists k; rewrite El; set_solver].
    destruct (lv_cache T n Hl h Hh) as [k ?]. exists k. rewrite El. set_solver.
  - intros _ h k d x tm p -> Hd.
    destruct (Hp h k d x tm p eq_refl Hd) as [Hh|Hne].
    { pose proof (lv_times T n Hl _ _ _ _ _ _ _ Hin). lia. }
    { destruct (lv_cache T n Hl h Hh) as [k' ?]. exists k'. rewrite El. set_solver. }
    destruct Ho as [->|(? & k' & ? & ? & ? & ? & [= <- <- <- <- <- <-] & _ & ->)]; [done|].
    exists k. rewrite El. set_solver.
  - intros h. apply (storage_live_ext n); try done; [rewrite El; set_solver| |by apply Hl].
    by apply S2.
Qed.

Lemma storage_receive_live T now (n : Node) r e : node_inv n -> storage_task n = Idle -> live T n ->
  (size (pending n) <= max_pending_assemblies (BlockAssemblyBuffer.config (buffer n)))%nat ->
  e ∈ log n -> log n !! at_ n StorageTask_ = Some e -> pos r = S (at_ n StorageTask_) ->
  node_inv (set_receiver n StorageTask_ r) ->
  live T (storage_dispatch now e (set_receiver n StorageTask_ r)).
Proof.
  intros Hi Hidle Hl Hsz Hin He Hr Hi1.
  assert (El : log (storage_dispatch now e (set_receiver n StorageTask_ r)) = log n ++ []).
  { rewrite app_nil_r. destruct e; cbn [storage_dispatch]; try case_bool_decide; done. }
  assert (Er : receiver (storage_dispatch now e (set_receiver n StorageTask_ r))
    = receiver (set_receiver n StorageTask_ r)).
  { destruct e; cbn [storage_dispatch]; try case_bool_decide; done. }
  assert (Ec : consensus (storage_dispatch now e (set_receiver n StorageTask_ r)) = consensus n).
  { destruct e; cbn [storage_dispatch]; try case_bool_decide; done. }
  assert (Ebt : buffer (storage_dispatch now e (set_receiver n StorageTask_ r))
      = buffer (storage_dispatch now e n)
    /\ storage_task (storage_dispatch now e (set_receiver n StorageTask_ r))
      = storage_task (storage_dispatch now e n)).
  { destruct e; cbn [storage_dispatch]; try case_bool_decide; done. }
  destruct (seen_receive n _ _ r e [] Hi1 He Hr El Er) as [S1 S2].
  apply (live_other T n _ StorageTask_ e []); try done.
  - set_solver.
  - rewrite Ec. intros h Hh. destruct (lv_cache T n Hl h Hh) as [k ?]. exists k. rewrite El. set_solver.
  - rewrite app_nil_r in El.
    apply (storage_dispatch_live now e n); try done; [apply Hi|apply Ebt|apply Ebt|apply Hl].
Qed.

Lemma receive_live T b t now (n n' : Node) : node_inv n -> bounded b n ->
  (10 * b <= capacity)%nat ->
  (b <= max_pending_assemblies (BlockAssemblyBuffer.config (buffer n)))%nat ->
  (t = StorageTask_ -> storage_task n = Idle) -> T <= wrapping_add 64 now 15 -> live T n ->
  receive sha3 keccak256 t now n = Some n' -> live T n'.
Proof.
  intros Hi Hb Hcap Hmax Hidle HT Hl Hrec.
  destruct (bounded_length b n Hi Hb) as [Hlen Hval]. pose proof (pending_size n Hi) as Hsz.
  destruct (receive_event t now n n' Hi ltac:(lia) Hrec) as (r & e & Hin & He & Hr & Hd & Hi1).
  assert (Hmono : forall out, log n' = log n ++ out -> log n ⊆ log n')
    by (intros out ->; set_solver).
  destruct t; cbn [dispatch] in Hd.
  - injection Hd as <-. by apply consensus_receive_live.
  - destruct (indexing_dispatch_spec e _ _ Hd) as (out & El & Er & _ & Eb & Ec & Es & _ & Ho).
    change (log (set_receiver n IndexingTask r)) with (log n) in El.
    destruct (seen_receive n n' _ r e out Hi1 He Hr El Er) as [S1 S2].
    apply (live_other T n n' IndexingTask e out); try done.
    + destruct e as [|? ? []| | | | | | |]; subst out; set_solver.
    + rewrite Ec. intros h Hh. destruct (lv_cache T n Hl h Hh) as [k ?]. exists k. rewrite El. set_solver.
    + intros _ h k ->. subst out. rewrite El. set_solver.
    + intros h. apply (storage_live_ext n); try done; [by eapply Hmono| |by apply Hl]. by apply S2.
  - injection Hd as <-. destruct (state_dispatch_spec e (set_receiver n StateTask r))
      as (out & El & Er & _ & Eb & Ec & Es & _ & Ho).
    change (log (set_receiver n StateTask r)) with (log n) in El.
    destruct (seen_receive n _ _ r e out Hi1 He Hr El Er) as [S1 S2].
    apply (live_other T n _ StateTask e out); try done.
    + destruct e as [|? ? []| | | | | | |]; subst out; set_solver.
    + rewrite Ec. intros h Hh. destruct (lv_cache T n Hl h Hh) as [k ?]. exists k. rewrite El. set_solver.
    + intros _ h k ->. subst out. rewrite El. cbn [set_receiver trie]. rewrite (ni_trie n Hi). set_solver.
    + intros h. apply (storage_live_ext n); try done; [by eapply Hmono| |by apply Hl]. by apply S2.
  - injection Hd as <-. apply storage_receive_live; try done; [by apply Hidle|lia].
  - injection Hd as <-. destruct (finality_dispatch_spec e (set_receiver n FinalityTask r))
      as (out & El & Er & _ & Eb & Ec & Es & _ & Ho & Hp).
    change (log (set_receiver n FinalityTask r)) with (log n) in El.
    destruct (seen_receive n _ _ r e out Hi1 He Hr El Er) as [S1 S2].
    apply (live_other T n _ FinalityTask e out); try done.
    + destruct Ho as [->|(h & k & m & q & _ & _ & ->)]; set_solver.
    + rewrite Ec. intros h Hh. destruct (lv_cache T n Hl h Hh) as [k ?]. exists k. rewrite El. set_solver.
    + intros _ h k m q -> Hk. rewrite El, (Hp h k m q eq_refl Hk). set_solver.
    + intros h. apply (storage_live_ext n); try done; [by eapply Hmono| |by apply Hl]. by apply S2.
  - destruct (ordering_dispatch_spec e _ _ Hd) as (El & Er & _ & Eb & Ec & Es & _).
    assert (El' : log n' = log n ++ []) by (by rewrite app_nil_r).
    destruct (seen_receive n n' _ r e [] Hi1 He Hr El' Er) as [S1 S2].
    apply (live_other T n n' OrderingTask e []); try done.
    + set_solver.
    + rewrite Ec. intros h Hh. destruct (lv_cache T n Hl h Hh) as [k ?]. exists k. rewrite El. done.
    + intros h. apply (storage_live_ext n); try done; [by eapply Hmono| |by apply Hl]. by apply S2.
Qed.


(** Steps that see nothing new. *)
Lemma live_quiet T (n n' : Node) out : node_inv n -> live T n -> log n' = log n ++ out ->
  receiver n' = receiver n -> consensus n' = consensus n ->
  (forall h k d x tm p s, BlockProduced h k d x tm p s ∈ out -> tm <= T) ->
  (forall h, storage_live n' h) -> live T n'.
Proof.
  intros Hi [L1 L2 L3 L4 L5 L6 L7] El Er Ec Hout Q.
  assert (Hsub : log n ⊆ log n') by (rewrite El; set_solver).
  assert (S : forall t, seen n' t = seen n t) by (intros t; by eapply seen_publish).
  split; rewrite ?Ec, ?S; try done.
  - intros h k d x tm p s. rewrite El. intros [?|?]%elem_of_app; [by eapply L1|by eapply Hout].
  - intros h Hh. destruct (L2 h Hh) as [k ?]. exists k. by apply Hsub.
  - intros h k d x tm p Hp Hd. destruct (L3 _ _ _ _ _ _ Hp Hd) as [k' ?]. exists k'. by apply Hsub.
  - intros h k Hk. by eapply Hsub, L4.
  - intros h k Hk. by eapply Hsub, L5.
  - intros h k m r Hs Hk. by eapply Hsub, L7.
Qed.

Lemma try_complete_live (n : Node) h b o : node_inv n -> storage_task n = TryComplete h ->
  take_announcement h (buffer n) = (b, o) -> (forall x, storage_live n x) ->
  forall x, storage_live (set_storage n b
    (match o with Some e => Announce e | None => Idle end) (channel n)) x.
Proof.
  intros Hi Et E H x.
  assert (Hs : seen (set_storage n b (match o with Some e => Announce e | None => Idle end)
    (channel n)) StorageTask_ = seen n StorageTask_) by done.
  destruct (H x) as [Hst|[(k & m & r & H0)|(P1 & P2 & P3 & P4)]]; [by left|congruence|].
  apply take_announcement_spec in E as [(-> & -> & Hn)|(a & m & r & Ha & _ & _ & _ & -> & ->)].
  - right; right. rewrite Hs. split_and!; [exact P1|exact P2|exact P3|].
    intros y Hy Hc. specialize (P4 y Hy Hc). rewrite Et in P4. injection P4 as ->.
    unfold BlockAssemblyBuffer.is_complete in Hn. cbn in Hy. rewrite Hy in Hn. congruence.
  - destruct (decide (x = h)) as [->|Hne].
    + right; left. by eexists _, _, _.
    + right; right. rewrite Hs. cbn [set_storage buffer BlockAssemblyBuffer.set_pending
        BlockAssemblyBuffer.pending]. rewrite lookup_delete_ne by done.
      split_and!; [exact P1|exact P2|exact P3|].
      intros y Hy Hc. specialize (P4 y Hy Hc). congruence.
Qed.

Lemma run_task_live T b t now (n n' : Node) : node_inv n -> bounded b n ->
  (10 * b <= capacity)%nat ->
  (b <= max_pending_assemblies (BlockAssemblyBuffer.config (buffer n)))%nat ->
  T <= wrapping_add 64 now 15 -> live T n ->
  run_task sha3 keccak256 t now n = Some n' -> live T n'.
Proof.
  intros Hi Hb Hcap Hmax HT Hl. unfold run_task.
  destruct t; try (by apply (receive_live T b)).
  destruct (storage_task n) as [|h|e] eqn:Et; [by apply (receive_live T b)| |].
  - destruct (take_announcement h (buffer n)) as [b' o] eqn:E. intros [= <-].
    apply (live_quiet T n _ []); try done; [by rewrite app_nil_r|set_solver|].
    exact (try_complete_live n h b' o Hi Et E (lv_storage T n Hl)).
  - intros [= <-]. destruct (ni_task n Hi e Et) as [(h & k & m & r & ->) _].
    set (n' := set_storage _ _ _ _).
    assert (El : log n' = log n ++ [BlockStored h k m r BlockStorage]) by (by apply publish_logged_sent).
    apply (live_quiet T n _ _ Hi Hl El); try done; [set_solver|]. intros x.
    destruct (lv_storage T n Hl x) as [(k' & m' & r' & H0)|[(k' & m' & r' & H0)|(P1 & P2 & P3 & P4)]].
    + left. exists k', m', r'. rewrite El. set_solver.
    + left. rewrite Et in H0. injection H0 as -> -> -> ->. exists k', m', r'. rewrite El. set_solver.
    + right; right. rewrite (seen_publish n n' _ StorageTask_ Hi El eq_refl).
      split_and!; [exact P1|exact P2|exact P3|].
      intros y Hy Hc. specialize (P4 y Hy Hc). congruence.
Qed.

(** A produced block comes in. *)
Definition produced (p : BlockProducedParams) : ChoreographyEvent :=
  BlockProduced (pr_block_hash p) (pr_block_height p) (pr_difficulty p) (pr_nonce p)
    (pr_timestamp p) (pr_parent_hash p) BlockProduction.

Lemma bridge_log p (n : Node) :
  log (bridge p n) = log n ++ [produced p] /\ receiver (bridge p n) = receiver n
  /\ consensus (bridge p n) = consensus n /\ buffer (bridge p n) = buffer n
  /\ storage_task (bridge p n) = storage_task n /\ gc_queue (bridge p n) = gc_queue n.
Proof. unfold bridge. rewrite router_publish_ok by done. cbn. by rewrite bc_send_spec. Qed.

Lemma bridge_bounded b p (n : Node) : node_inv n -> bounded b n -> bounded (S b) (bridge p n).
Proof.
  intros Hi [H1 H2 H3 H4 H5 H6 H7 H8]. destruct (bridge_log p n) as (El & Er & _ & _ & Es & Eg).
  assert (S : forall t, seen (bridge p n) t = seen n t) by (intros t; by eapply seen_publish).
  split; rewrite ?El, ?S, ?Es, ?Eg, ?count_app, ?count_one; cbn; lia || done.
Qed.

Lemma bridge_live T p (n : Node) : node_inv n -> pr_timestamp p <= T -> live T n ->
  live T (bridge p n).
Proof.
  intros Hi Hp Hl. destruct (bridge_log p n) as (El & Er & Ec & Eb & Es & _).
  apply (live_quiet T n _ [produced p]); try done.
  - intros h k d x tm q s Hin%list_elem_of_singleton. injection Hin as -> -> -> -> -> -> ->. done.
  - intros h. apply (storage_live_ext n); try done; [rewrite El; set_solver| |apply Hl].
    by eapply seen_publish.
Qed.

Lemma run_task_config t now (n n' : Node) : run_task sha3 keccak256 t now n = Some n' ->
  node_inv n -> BlockAssemblyBuffer.config (buffer n') = BlockAssemblyBuffer.config (buffer n).
Proof.
  intros Hrun Hi. revert Hrun.
  assert (Hrec : receive sha3 keccak256 t now n = Some n' ->
    BlockAssemblyBuffer.config (buffer n') = BlockAssemblyBuffer.config (buffer n)).
  { unfold receive. destruct (bc_recv _ _) as [[r [e|k]]|]; [|by intros [= <-]|done].
    destruct t; cbn [dispatch].
    - intros [= <-]. by destruct (consensus_dispatch_spec now e (set_receiver n ConsensusTask r))
        as (out & _ & _ & _ & -> & _).
    - intros H. by destruct (indexing_dispatch_spec e _ _ H) as (out & _ & _ & _ & -> & _).
    - intros [= <-]. by destruct (state_dispatch_spec e (set_receiver n StateTask r))
        as (out & _ & _ & _ & -> & _).
    - intros [= <-]. destruct e; cbn [storage_dispatch]; try case_bool_decide; try done. cbn.
      destruct (enforce_max_pending_spec (buffer n)) as (_ & E & _). exact E.
    - intros [= <-]. by destruct (finality_dispatch_spec e (set_receiver n FinalityTask r))
        as (out & _ & _ & _ & -> & _).
    - intros H. by destruct (ordering_dispatch_spec e _ _ H) as (_ & _ & _ & -> & _). }
  unfold run_task. destruct t; try exact Hrec. destruct (storage_task n) as [|h|e]; [exact Hrec| |].
  - destruct (take_announcement h (buffer n)) as [b o] eqn:E. intros [= <-].
    apply take_announcement_spec in E as [(-> & _)|(a & m & r & _ & _ & _ & _ & -> & _)]; done.
  - by intros [= <-].
Qed.


(** ** Whole runs *)

Definition is_bridge (a : Action) : bool := match a with Bridge _ => true | _ => false end.
Definition bridged (l : list Action) : nat := length (base.filter (fun a => is_bridge a = true) l).

(** No collection, and the clock of every step allows timestamps up to [T]. *)
Definition timely (T : u64) (a : Action) : Prop :=
  match a with
  | Bridge p => pr_timestamp p <= T
  | Run _ now => T <= wrapping_add 64 now 15
  | Collect _ => False
  end.

Lemma bridged_cons a l : bridged (a :: l) = ((if is_bridge a then 1 else 0) + bridged l)%nat.
Proof. unfold bridged. rewrite filter_cons. destruct (is_bridge a); by case_decide. Qed.

Lemma bridge_potential p (n : Node) : node_inv n -> potential (bridge p n) = (66 + potential n)%nat.
Proof.
  intros Hi. destruct (bridge_log p n) as (El & Er & _ & _ & Es & _). unfold potential.
  rewrite (potential_publish n _ [produced p] Hi El Er), Es. cbn. lia.
Qed.

Lemma run_task_log t now (n n' : Node) : node_inv n ->
  run_task sha3 keccak256 t now n = Some n' -> log n ⊆ log n'.
Proof.
  intros Hi.
  assert (Hrec : (t = StorageTask_ -> storage_task n = Idle) ->
    receive sha3 keccak256 t now n = Some n' -> log n ⊆ log n').
  { intros Hidle. unfold receive. destruct (bc_recv _ _) as [[r [e|k]]|]; [|by intros [= <-]|done].
    intros (out & -> & _)%dispatch_cost; [cbn; set_solver|done]. }
  unfold run_task. destruct t; try (by apply Hrec).
  destruct (storage_task n) as [|h|e] eqn:Et; [by apply Hrec| |].
  - destruct (take_announcement h (buffer n)). by intros [= <-].
  - intros [= <-]. destruct (ni_task n Hi e Et) as [(h & k & m & r & ->) _].
    cbn [set_storage channel]. rewrite publish_logged_sent by done. set_solver.
Qed.

Lemma run_lossless T maxp l : forall (n n' : Node) b, Forall (timely T) l ->
  node_run sha3 keccak256 n l = Some n' ->
  (10 * (b + bridged l) <= capacity)%nat -> (b + bridged l <= maxp)%nat ->
  max_pending_assemblies (BlockAssemblyBuffer.config (buffer n)) = maxp ->
  node_inv n -> bounded b n -> live T n ->
  node_inv n' /\ live T n' /\ (potential n' + length l <= potential n + 67 * bridged l)%nat
  /\ (forall p, Bridge p ∈ l -> produced p ∈ log n') /\ log n ⊆ log n'.
Proof.
  induction l as [|a l IH]; intros n n' b Hl; cbn [node_run].
  { intros [= <-] _ _ _ Hi Hb Hv. split_and!; try done.
    by intros p Hp%elem_of_nil. }
  apply Forall_cons in Hl as [Ha Hl]. rewrite bridged_cons.
  destruct (node_step _ _ n a) as [n1|] eqn:E; cbn [mbind option_bind]; [|done].
  intros Hrun Hcap Hmax Hcfg Hi Hb Hv. pose proof (node_step_inv n n1 a Hi E) as Hi1.
  destruct a as [p|t now|now]; cbn [node_step is_bridge timely] in *; [| |done].
  - injection E as <-. destruct (bridge_log p n) as (El & _ & _ & Ebuf & _).
    assert (Hcfg1 : max_pending_assemblies (BlockAssemblyBuffer.config (buffer (bridge p n))) = maxp)
      by (by rewrite Ebuf).
    pose proof (bridge_bounded b p n Hi Hb) as Hb1. pose proof (bridge_live T p n Hi Ha Hv) as Hv1.
    destruct (IH _ n' (S b) Hl Hrun ltac:(lia) ltac:(lia) Hcfg1 Hi1 Hb1 Hv1)
      as (H1 & H2 & H3 & H4 & H5).
    rewrite bridge_potential in H3 by done. split_and!; try done; [cbn [length]; lia| |].
    + intros q [[= ->]|Hq]%elem_of_cons; [|by apply H4]. apply H5. rewrite El. set_solver.
    + intros x Hx. apply H5. rewrite El. set_solver.
  - pose proof (run_task_potential t now n n1 Hi E) as Hpot.
    pose proof (run_task_config t now n n1 E Hi) as Hcfg1. rewrite <-Hcfg1 in Hcfg.
    pose proof (run_task_bounded b t now n n1 Hi ltac:(lia) Hb E) as Hb1.
    assert (Hv1 : live T n1).
    { apply (run_task_live T b t now n); try done; [lia|]. rewrite <-Hcfg1. lia. }
    destruct (IH n1 n' b Hl Hrun ltac:(lia) ltac:(lia) Hcfg Hi1 Hb1 Hv1) as (H1 & H2 & H3 & H4 & H5).
    split_and!; try done; [cbn [length]; lia| |].
    + intros q [[=]|Hq]%elem_of_cons. by apply H4.
    + etrans; [|exact H5]. by eapply run_task_log.
Qed.


(** A task that has received an event always finishes its reaction. *)
Lemma dispatch_total t now e (n : Node) : is_Some (dispatch sha3 keccak256 t now e n).
Proof.
  destruct t; cbn [dispatch]; try (by eexists).
  - destruct e as [|h k s| | | | | | |]; cbn [indexing_dispatch]; try (by eexists).
    case_bool_decide; cbn; by eexists.
  - destruct e as [|h k s| | | | | | |]; cbn [ordering_dispatch]; try (by eexists).
    case_bool_decide; cbn; by eexists.
Qed.

(** Whether a task can go on does not depend on the clock. *)
Lemma run_task_clock t now now' (n : Node) : run_task sha3 keccak256 t now n = None ->
  run_task sha3 keccak256 t now' n = None.
Proof.
  assert (Hrec : receive sha3 keccak256 t now n = None -> receive sha3 keccak256 t now' n = None).
  { unfold receive. destruct (bc_recv _ _) as [[r [e|k]]|]; [|done|done]. intros H.
    destruct (dispatch_total t now e (set_receiver n t r)) as [? E]. congruence. }
  unfold run_task. destruct t; try exact Hrec. destruct (storage_task n) as [|h|e]; [exact Hrec| |done].
  by destruct (take_announcement h (buffer n)).
Qed.

(** A node at rest: the storage task waits and every event was seen. *)
Lemma quiescent_spec (n : Node) : quiescent sha3 keccak256 n ->
  storage_task n = Idle /\ forall t, seen n t = log n.
Proof.
  intros Hq.
  assert (Hidle : storage_task n = Idle).
  { specialize (Hq StorageTask_ 0). unfold run_task in Hq.
    destruct (storage_task n) as [|h|e0]; [done| |done].
    by destruct (take_announcement h (buffer n)). }
  split; [done|]. intros t. apply take_ge, (bc_recv_none (Rx := Rx)).
  assert (Hrec : receive sha3 keccak256 t 0 n = None).
  { specialize (Hq t 0). unfold run_task in Hq. rewrite Hidle in Hq. by destruct t. }
  unfold receive in Hrec. destruct (bc_recv _ _) as [[x [e|k]]|]; [|done|done].
  destruct (dispatch_total t 0 e (set_receiver n t x)) as [? E]. by rewrite E in Hrec.
Qed.

(** Left alone, the node comes to rest. *)
Lemma drains now k : forall (n : Node), (potential n <= k)%nat -> node_inv n ->
  exists l n', Forall (fun a => exists t, a = Run t now) l
  /\ node_run sha3 keccak256 n l = Some n' /\ quiescent sha3 keccak256 n'.
Proof.
  induction k as [|k IH]; intros n Hk Hi;
    destruct (decide (Exists (fun t => is_Some (run_task sha3 keccak256 t now n)) all_tasks))
      as [(t & _ & n1 & E)%Exists_exists|Hn].
  1,3: pose proof (run_task_potential t now n n1 Hi E) as Hp.
  - lia.
  - destruct (IH n1 ltac:(lia)) as (l & n' & Hl & Hrun & Hq); [by eapply run_task_inv|].
    exists (Run t now :: l), n'. split_and!; [constructor; [by exists t|done]| |done].
    cbn. rewrite E. exact Hrun.
  - exists [], n. split_and!; [done..|]. intros t now'. apply (run_task_clock t now).
    apply eq_None_not_Some. intros Hs. apply Hn, Exists_exists. exists t. split; [|done].
    destruct t; unfold all_tasks; set_solver.
  - exists [], n. split_and!; [done..|]. intros t now'. apply (run_task_clock t now).
    apply eq_None_not_Some. intros Hs. apply Hn, Exists_exists. exists t. split; [|done].
    destruct t; unfold all_tasks; set_solver.
Qed.

Lemma node_new_live T c r timeout maxp height : sent c = [] ->
  live T (node_new c r timeout maxp height).
Proof.
  intros Hc. assert (Hs : forall t, seen (node_new c r timeout maxp height) t = []).
  { intros t. unfold seen. cbn. by rewrite Hc, take_nil. }
  split; rewrite ?Hs; cbn [node_new channel]; rewrite ?Hc; try (intros *; by rewrite elem_of_nil).
  - cbn. set_solver.
  - intros h. right; right. rewrite Hs. cbn. rewrite lookup_empty.
    split_and!; try done; intros *; by rewrite elem_of_nil.
Qed.

Lemma node_new_bounded c r timeout maxp height : sent c = [] ->
  bounded 0 (node_new c r timeout maxp height).
Proof.
  intros Hc. split; unfold seen; cbn [node_new channel]; rewrite ?Hc; cbn; lia || done.
Qed.

End effects.
