(* ===== verification/ChoreographyProps.v ===== *)
(** * The node: properties

    The claims about the composition of the subsystems in [Choreography]: every
    event on the channel has its cause on the channel before it, whatever the
    interleaving; without collections and losses every run ends, and a run that
    has nothing left to do has stored every block consensus accepted; and what
    the wiring does not do. *)

From S2P Require Import Prelude Blocks BlockStorage BlockFacts Merkle TxIndex Ordering OrderingIpc ConsensusSide StateTrie Choreography ChoreographyFacts.
From stdpp Require Import strings.
Local Open Scope Z_scope.
Local Open Scope qc_scope.

Section claims.
Context {Ch Rx : Type} {BC : Broadcast Ch Rx} {C : Type} {L : LruCache C}.
Context {sent : Ch -> list ChoreographyEvent} {pos : Rx -> nat} {capacity : nat}.
Context {BL : BroadcastLaws BC sent pos capacity}.
Context (sha3 keccak256 : list u8 -> Hash).

Abbreviation Node := (Node Ch Rx C).
Abbreviation log n := (sent (channel n)).

(** C6 (safety): every event has its cause.  Whatever blocks are bridged in and
    however the handlers, the storage task's three steps and the collector
    interleave, lagging receivers and losses included, an event on the channel
    was sent by the subsystem that may send it and has its cause before it: a
    validated block was produced with a difficulty, a root is for a validated
    block, a stored block was validated at that height and both its roots were
    announced, and a finalized block was stored.  The roots of all blocks are
    the same two constants, finality rests on the height alone with an empty
    proof, and no ordering of transactions is ever announced. *)
Theorem events_have_causes c r timeout max_pending height l n'
  (Hc : sent c = []) (Hr : pos r = 0%nat)
  (Hrun : node_run sha3 keccak256 (node_new c r timeout max_pending height) l = Some n') :
  forall i e, log n' !! i = Some e -> cause_ok (take i (log n')) e.
Proof.
  apply (ni_caused (pos := pos) n'). eapply node_run_inv; [|exact Hrun]. by apply node_new_inv.
Qed.


End claims.


(** ** A channel *)

(** Events in the order they were sent, receivers as positions, the last 1024
    events kept. *)
#[local] Instance list_channel : Broadcast (list ChoreographyEvent) nat := {|
  bc_send e c := c ++ [e];
  bc_recv c r :=
    if (length c <=? r)%nat then None
    else if (1024 <? length c - r)%nat then Some ((length c - 1024)%nat, inr (length c - 1024 - r)%nat)
    else match c !! r with Some e => Some (S r, inl e) | None => None end
|}.

#[local] Instance list_channel_laws : BroadcastLaws list_channel id id 1024.
Proof.
  split; cbn [bc_send bc_recv list_channel id]; try done; intros c r.
  - destruct (Nat.leb_spec (length c) r); [done|]. case_match; [done|].
    destruct (c !! r) eqn:E; [done|]. intros _. by apply lookup_ge_None in E.
  - intros r' e. destruct (Nat.leb_spec (length c) r); [done|]. case_match; [done|].
    destruct (c !! r) eqn:E; [|done]. intros [= <- <-]. done.
  - intros r' k. destruct (Nat.leb_spec (length c) r); [done|].
    destruct (Nat.ltb_spec 1024 (length c - r)); [|by case_match].
    intros [= <- <-]. unfold id. lia.
Qed.

(** ** Concrete runs *)

#[local] Instance node_lru : LruCache ListLru := {|
  lru_new n := {| ll_map := ∅; ll_order := []; ll_cap := n |};
  lru_put := ll_put;
  lru_get k c := ({| ll_map := ll_map c; ll_order := ll_touch k (ll_order c);
    ll_cap := ll_cap c |}, ll_map c !! k);
  lru_contains k c := bool_decide (is_Some (ll_map c !! k));
  lru_len c := size (ll_map c)
|}.

Definition flat_hash (l : list u8) : Hash := foldl (fun a b => (a * 31 + b) mod 2 ^ 256) 7 l.

Definition sample_node : Node (list ChoreographyEvent) nat ListLru := node_new [] 0%nat 30 100 0.

Definition sample_params (h : Hash) (k : u64) : BlockProducedParams := {|
  pr_block_hash := h; pr_block_height := k; pr_difficulty := 5; pr_nonce := 1;
  pr_timestamp := 100; pr_parent_hash := 0
|}.

(** The first task that can go on, until none can. *)
Fixpoint schedule (fuel : nat) (now : u64) (n : Node (list ChoreographyEvent) nat ListLru)
  : list Action :=
  match fuel with
  | O => []
  | S fuel =>
      match list_find (fun t => is_Some (run_task flat_hash flat_hash t now n)) all_tasks with
      | Some (_, t) =>
          match run_task flat_hash flat_hash t now n with
          | Some n' => Run t now :: schedule fuel now n'
          | None => []
          end
      | None => []
      end
  end.

(** Two blocks come in, and the handlers run until they are done. *)
Definition two_produced : list Action :=
  [Bridge (sample_params 11 4); Bridge (sample_params 12 1000)].

Definition sample_schedule : list Action := Eval vm_compute in
  two_produced ++ match node_run flat_hash flat_hash sample_node two_produced with
    | Some n => schedule 150 101 n
    | None => []
    end.

Definition sample_end : Node (list ChoreographyEvent) nat ListLru :=
  default sample_node (node_run flat_hash flat_hash sample_node sample_schedule).

Lemma sample_run : node_run flat_hash flat_hash sample_node sample_schedule = Some sample_end.
Proof. vm_compute. reflexivity. Qed.

Lemma events_have_causes_witness :
  cause_ok (take 11 (channel sample_end)) (BlockFinalized 12 1000 [] Finality).
Proof.
  apply (events_have_causes (sent := id) (pos := id) (capacity := 1024) flat_hash flat_hash
    [] 0%nat 30 100 0 sample_schedule sample_end eq_refl eq_refl sample_run 11%nat).
  vm_compute. reflexivity.
Defined.


(** A single block, with no attestation of any validator, claiming a height far
    beyond the chain: it is validated, announced as stored and finalized, and
    consensus takes its height for the height of the chain. *)
Example lone_block_finalized :
  BlockFinalized 12 1000 [] Finality ∈ channel sample_end
  /\ chain_height (consensus sample_end) = 1000.
Proof.
  split; [|vm_compute; reflexivity].
  apply (list_elem_of_lookup_2 _ 11). vm_compute. reflexivity.
Qed.

(** The third part of a block arrives when its assembly is just over its time,
    and the collector runs between the storage handler's two locks: the complete
    assembly is dropped as timed out with nothing missing, and the block is
    never announced. *)
Definition late_block : list Action :=
  [Bridge (sample_params 11 4); Run ConsensusTask 101; Run IndexingTask 101; Run IndexingTask 101;
   Run StateTask 101; Run StateTask 101;
   Run StorageTask_ 101; Run StorageTask_ 101; Run StorageTask_ 101; Run StorageTask_ 101;
   Run StorageTask_ 101; Run StorageTask_ 140; Collect 140; Run StorageTask_ 140; Collect 140].

Example complete_assembly_expires :
  exists n, node_run flat_hash flat_hash sample_node late_block = Some n
  /\ channel n !! 4%nat = Some (AssemblyTimeout 11 [] BlockStorage)
  /\ length (channel n) = 5%nat /\ storage_task n = Idle
  /\ BlockAssemblyBuffer.pending (buffer n) = ∅.
Proof. eexists. split; [vm_compute; reflexivity|]. by vm_compute. Qed.
