(* ===== verification/Registry.v ===== *)
(** * The subsystem registry

    Models [shared-types/src/subsystem_registry.rs] (with the types of
    [subsystem_trait.rs]): registration, the depth-first topological sort of the
    dependencies, starting in that order with the check of the required
    dependencies, and stopping in the reverse order.

    The map of subsystems iterates in an unspecified order: [keys] is the order
    of the iteration, any list with the registered identifiers.  Whether a
    subsystem's own [start] and [stop] succeed is an argument.  The operations
    return the calls of [start] and [stop] they made, in order. *)

From S2P Require Import Prelude Choreography.
From stdpp Require Import strings.
Local Open Scope nat_scope.

#[export] Instance SubsystemId_countable : Countable SubsystemId :=
  inj_countable as_u8 from_u8 from_u8_as_u8.

Inductive SubsystemStatus :=
| Healthy | Degraded | Stopped | Error | Starting | ShuttingDown | Disabled.

#[export] Instance SubsystemStatus_eq_dec : EqDecision SubsystemStatus.
Proof. solve_decision. Defined.

Inductive SubsystemErrorKind :=
| InitializationFailed | NotAvailable | RuntimeError | ShutdownFailed | MissingDependency
| ConfigurationError.

Record SubsystemError := {
  err_subsystem_id : SubsystemId;
  err_kind : SubsystemErrorKind
}.

Record SubsystemEntry := {
  status : SubsystemStatus;
  dependencies : list SubsystemId
}.

Record SubsystemRegistry := {
  subsystems : gmap SubsystemId SubsystemEntry;
  required : list SubsystemId;
  init_order : list SubsystemId
}.

Definition registry_new : SubsystemRegistry := {|
  subsystems := ∅; required := [BlockStorage; Consensus; SignatureVerification]; init_order := []
|}.

Definition set_status (r : SubsystemRegistry) (id : SubsystemId) (s : SubsystemStatus)
  : SubsystemRegistry := {|
  subsystems := alter (fun e => {| status := s; dependencies := dependencies e |}) id (subsystems r);
  required := required r; init_order := init_order r
|}.

(** The dependencies the sort follows: none for a subsystem that is not registered. *)
Definition deps_of (m : gmap SubsystemId SubsystemEntry) (id : SubsystemId) : list SubsystemId :=
  match m !! id with Some e => dependencies e | None => [] end.

(** [visit_for_topo_sort].  Every nested call has one more identifier visited,
    and there are 17 of them: 18 levels are enough. *)
Fixpoint visit (m : gmap SubsystemId SubsystemEntry) (fuel : nat) (id : SubsystemId)
  (acc : gset SubsystemId * list SubsystemId) : gset SubsystemId * list SubsystemId :=
  match fuel with
  | O => acc
  | S fuel =>
      if bool_decide (id ∈ acc.1) then acc
      else
        let acc := foldl (fun acc dep => visit m fuel dep acc) ({[id]} ∪ acc.1, acc.2)
          (deps_of m id) in
        (acc.1, acc.2 ++ [id])
  end.

Definition compute_init_order (keys : list SubsystemId) (m : gmap SubsystemId SubsystemEntry)
  : list SubsystemId := (foldl (fun acc id => visit m 18 id acc) (∅, []) keys).2.

Definition register (keys : list SubsystemId) (id : SubsystemId) (deps : list SubsystemId)
  (r : SubsystemRegistry) : SubsystemRegistry :=
  let m := <[id := {| status := Stopped; dependencies := deps |}]> (subsystems r) in
  {| subsystems := m; required := required r; init_order := compute_init_order keys m |}.

Definition validate_required (r : SubsystemRegistry) : result SubsystemError unit :=
  if bool_decide (Forall (fun id => is_Some (subsystems r !! id)) (required r)) then Ok tt
  else Err {| err_subsystem_id := BlockStorage; err_kind := MissingDependency |}.

(** [check_single_dependency] with [handle_missing_dependency]. *)
Definition check_single_dependency (r : SubsystemRegistry) (subsystem_id dep_id : SubsystemId)
  : result SubsystemError unit :=
  let failed := Err {| err_subsystem_id := subsystem_id; err_kind := MissingDependency |} in
  match subsystems r !! dep_id with
  | None => if negb (bool_decide (dep_id ∈ required r)) then Ok tt else failed
  | Some e =>
      if bool_decide (status e = Healthy) then Ok tt
      else if negb (bool_decide (dep_id ∈ required r)) then Ok tt else failed
  end.

Fixpoint check_dependencies (r : SubsystemRegistry) (subsystem_id : SubsystemId)
  (deps : list SubsystemId) : result SubsystemError unit :=
  match deps with
  | [] => Ok tt
  | d :: deps => rbind (check_single_dependency r subsystem_id d)
      (fun _ => check_dependencies r subsystem_id deps)
  end.

Definition handle_start_failure (r : SubsystemRegistry) (id : SubsystemId) (e : SubsystemError)
  : result SubsystemError unit :=
  if bool_decide (id ∈ required r) then Err e else Ok tt.

Section lifecycle.
Context (start : SubsystemId -> result SubsystemError unit).
Context (stop : SubsystemId -> bool).

(** The registry, the calls of [start] made, and the result. *)
Definition start_subsystem (r : SubsystemRegistry) (id : SubsystemId)
  : SubsystemRegistry * list SubsystemId * result SubsystemError unit :=
  match subsystems r !! id with
  | None => (r, [], Ok tt)
  | Some e =>
      match check_dependencies r id (dependencies e) with
      | Ok _ =>
          let r := set_status r id Starting in
          match start id with
          | Ok _ => (set_status r id Healthy, [id], Ok tt)
          | Err err => (set_status r id Error, [id], handle_start_failure r id err)
          | Panic => (r, [id], Panic)
          end
      | Err err => (r, [], Err err)
      | Panic => (r, [], Panic)
      end
  end.

Fixpoint start_loop (r : SubsystemRegistry) (ids : list SubsystemId)
  : SubsystemRegistry * list SubsystemId * result SubsystemError unit :=
  match ids with
  | [] => (r, [], Ok tt)
  | id :: ids =>
      let '(r, calls, res) := start_subsystem r id in
      match res with
      | Ok _ => let '(r, calls', res) := start_loop r ids in (r, calls ++ calls', res)
      | _ => (r, calls, res)
      end
  end.

Definition start_all (r : SubsystemRegistry)
  : SubsystemRegistry * list SubsystemId * result SubsystemError unit :=
  match validate_required r with
  | Ok _ => start_loop r (init_order r)
  | other => (r, [], other)
  end.

Definition stop_subsystem (r : SubsystemRegistry) (id : SubsystemId)
  : SubsystemRegistry * list SubsystemId :=
  match subsystems r !! id with
  | None => (r, [])
  | Some e =>
      if bool_decide (status e = Healthy) || bool_decide (status e = Degraded) then
        let r := set_status r id ShuttingDown in
        if stop id then (set_status r id Stopped, [id]) else (set_status r id Error, [id])
      else (r, [])
  end.

Fixpoint stop_loop (r : SubsystemRegistry) (ids : list SubsystemId)
  : SubsystemRegistry * list SubsystemId :=
  match ids with
  | [] => (r, [])
  | id :: ids =>
      let '(r, calls) := stop_subsystem r id in
      let '(r, calls') := stop_loop r ids in (r, calls ++ calls')
  end.

Definition stop_all (r : SubsystemRegistry) : SubsystemRegistry * list SubsystemId :=
  stop_loop r (reverse (init_order r)).

End lifecycle.

(** ** The sort *)

(** Every element has its dependencies before it. *)
Definition dependencies_first (m : gmap SubsystemId SubsystemEntry) (l : list SubsystemId) : Prop :=
  forall i x d, l !! i = Some x -> d ∈ deps_of m x -> d ∈ take i l.

(** A rank shows that the dependencies have no cycle. *)
Definition ranked (m : gmap SubsystemId SubsystemEntry) (rank : SubsystemId -> nat) : Prop :=
  forall x d, d ∈ deps_of m x -> rank d < rank x.

Lemma dependencies_first_snoc m l x : dependencies_first m l -> (forall d, d ∈ deps_of m x -> d ∈ l) ->
  dependencies_first m (l ++ [x]).
Proof.
  intros Hl Hx i y d Hy Hd. destruct (decide (i < length l)) as [Hi|Hi].
  - rewrite lookup_app_l in Hy by lia. rewrite take_app_le by lia. by apply (Hl i y).
  - pose proof (lookup_lt_Some _ _ _ Hy) as Hlt. rewrite length_app in Hlt. cbn in Hlt.
    replace i with (length l) in * by lia. rewrite list_lookup_middle in Hy by done.
    injection Hy as <-. rewrite take_app_length. by apply Hx.
Qed.

(** What is visited and sorted: the identifiers that are visited but still open
    have at least the rank [bound]. *)
Record sorting (m : gmap SubsystemId SubsystemEntry) (rank : SubsystemId -> nat) (bound : nat)
  (acc : gset SubsystemId * list SubsystemId) : Prop := {
  so_first : dependencies_first m acc.2;
  so_nodup : NoDup acc.2;
  so_sub x : x ∈ acc.2 -> x ∈ acc.1;
  so_open x : x ∈ acc.1 -> x ∈ acc.2 \/ bound <= rank x
}.

(** [acc'] goes on from [acc]: what is new in the order was not visited before,
    and what is newly visited is in the order. *)
Record goes_on (acc acc' : gset SubsystemId * list SubsystemId) : Prop := {
  go_visited : acc.1 ⊆ acc'.1;
  go_order : exists new, acc'.2 = acc.2 ++ new;
  go_fresh x : x ∈ acc.1 -> x ∈ acc'.2 -> x ∈ acc.2;
  go_closed x : x ∈ acc'.1 -> x ∈ acc.1 \/ x ∈ acc'.2
}.

Lemma goes_on_refl acc : goes_on acc acc.
Proof. split; try done; [exists []; by rewrite app_nil_r|by left]. Qed.

Lemma goes_on_order acc acc' x : goes_on acc acc' -> x ∈ acc.2 -> x ∈ acc'.2.
Proof. intros [_ [new ->] _ _] Hx. apply elem_of_app. by left. Qed.

Lemma goes_on_trans acc1 acc2 acc3 : goes_on acc1 acc2 -> goes_on acc2 acc3 -> goes_on acc1 acc3.
Proof.
  intros H12 H23. split.
  - etrans; [apply H12|apply H23].
  - destruct (go_order _ _ H12) as [n1 E1], (go_order _ _ H23) as [n2 E2].
    exists (n1 ++ n2). by rewrite E2, E1, app_assoc.
  - intros x Hx H3. apply (go_fresh _ _ H12 x Hx), (go_fresh _ _ H23 x); [|done].
    by apply (go_visited _ _ H12).
  - intros x [Hx|Hx]%(go_closed _ _ H23); [|by right].
    apply (go_closed _ _ H12) in Hx as [?|?]; [by left|right]. by eapply goes_on_order.
Qed.

Lemma sorting_weaken m rank b b' acc : b' <= b -> sorting m rank b acc -> sorting m rank b' acc.
Proof.
  intros Hb [H1 H2 H3 H4]. split; try done. intros x Hx. destruct (H4 x Hx); [by left|right; lia].
Qed.

(** Going on keeps the rank of the open identifiers. *)
Lemma sorting_back m rank b b' acc acc' : sorting m rank b acc -> goes_on acc acc' ->
  sorting m rank b' acc' -> sorting m rank b acc'.
Proof.
  intros [_ _ _ H4] Hg [T1 T2 T3 T4]. split; try done. intros x [Hx|Hx]%(go_closed _ _ Hg); [|by left].
  destruct (H4 x Hx); [left; by eapply goes_on_order|by right].
Qed.

Definition all_ids : gset SubsystemId :=
  list_to_set (omap from_u8 (Z.of_nat <$> seq 1 17)).

Lemma all_ids_spec x : x ∈ all_ids.
Proof. by destruct x; apply (bool_decide_unpack _). Qed.

Lemma size_all_ids : size all_ids = 17.
Proof. by vm_compute. Qed.

Lemma visited_bound (s : gset SubsystemId) : size s <= 17.
Proof. rewrite <-size_all_ids. apply subseteq_size. intros x _. apply all_ids_spec. Qed.

Lemma visited_lt (s : gset SubsystemId) x : x ∉ s -> size s < size ({[x]} ∪ s).
Proof. intros Hx. rewrite size_union by set_solver. rewrite size_singleton. lia. Qed.

(** The loop over the dependencies, given what one visit does. *)
Lemma visit_loop m rank fuel bound :
  (forall id acc, 17 - size acc.1 < fuel -> sorting m rank (S (rank id)) acc ->
     sorting m rank (S (rank id)) (visit m fuel id acc) /\ id ∈ (visit m fuel id acc).2
     /\ goes_on acc (visit m fuel id acc)) ->
  forall deps acc, (forall d, d ∈ deps -> rank d < bound) -> 17 - size acc.1 < fuel ->
  sorting m rank bound acc ->
  let acc' := foldl (fun acc dep => visit m fuel dep acc) acc deps in
  sorting m rank bound acc' /\ goes_on acc acc' /\ forall d, d ∈ deps -> d ∈ acc'.2.
Proof.
  intros IH. induction deps as [|d deps IHd]; intros acc Hd Hf Hs; cbn zeta.
  { split_and!; [done|apply goes_on_refl|]. by intros x Hx%elem_of_nil. }
  cbn [foldl]. assert (Hrd : rank d < bound) by (apply Hd; left).
  destruct (IH d acc Hf) as (Q1 & Q2 & Q3); [by eapply sorting_weaken; [|exact Hs]|].
  pose proof (subseteq_size _ _ (go_visited _ _ Q3)) as Hsz.
  destruct (IHd (visit m fuel d acc)) as (R1 & R2 & R3).
  - intros x Hx. apply Hd. by right.
  - lia.
  - by eapply sorting_back.
  - split_and!; [done|by eapply goes_on_trans|].
    intros x [->|Hx]%elem_of_cons; [by eapply goes_on_order|by apply R3].
Qed.

Lemma visit_spec m rank : ranked m rank -> forall fuel id acc,
  17 - size acc.1 < fuel -> sorting m rank (S (rank id)) acc ->
  sorting m rank (S (rank id)) (visit m fuel id acc) /\ id ∈ (visit m fuel id acc).2
  /\ goes_on acc (visit m fuel id acc).
Proof.
  intros Hrank. induction fuel as [|fuel IH]; intros id acc Hf Hs; [lia|].
  cbn [visit]. case_bool_decide as Hv.
  { split_and!; [done| |apply goes_on_refl]. destruct (so_open _ _ _ _ Hs id Hv); [done|lia]. }
  set (acc0 := ({[id]} ∪ acc.1, acc.2)).
  assert (Hid : id ∉ acc.2) by (intros ?%(so_sub _ _ _ _ Hs); done).
  assert (Hs0 : sorting m rank (rank id) acc0).
  { destruct Hs as [H1 H2 H3 H4]. split; cbn; try done; [set_solver|].
    intros x [->%elem_of_singleton|Hx]%elem_of_union; [by right|].
    destruct (H4 x Hx); [by left|right; lia]. }
  pose proof (visited_lt acc.1 id Hv) as Hlt. pose proof (visited_bound ({[id]} ∪ acc.1)) as Hle.
  destruct (visit_loop m rank fuel (rank id) IH (deps_of m id) acc0) as (R1 & R2 & R3);
    [by apply Hrank|cbn; lia|done|].
  set (acc1 := foldl _ acc0 (deps_of m id)) in *.
  assert (Hid1 : id ∉ acc1.2).
  { intros Hx. apply Hid, (go_fresh _ _ R2 id); [cbn; set_solver|done]. }
  assert (Hg : goes_on acc (acc1.1, acc1.2 ++ [id])).
  { destruct R2 as [G1 [new G2] G3 G4]. cbn in *. split; cbn.
    - set_solver.
    - exists (new ++ [id]). by rewrite G2, app_assoc.
    - intros x Hx [H1| ->%list_elem_of_singleton]%elem_of_app; [|done]. apply G3; set_solver.
    - intros x [[->%elem_of_singleton|Hx]%elem_of_union|Hx]%G4; set_solver. }
  split_and!; [|cbn; set_solver|done].
  destruct R1 as [H1 H2 H3 H4]. split; cbn.
  - by apply dependencies_first_snoc.
  - apply NoDup_app. split_and!; [done| |by apply NoDup_singleton].
    intros x Hx ->%list_elem_of_singleton. done.
  - intros x [Hx| ->%list_elem_of_singleton]%elem_of_app; [by apply H3|].
    apply (go_visited _ _ R2). cbn. set_solver.
  - intros x [Hx|Hx]%(go_closed _ _ Hg); [|by left].
    destruct (so_open _ _ _ _ Hs x Hx); [left|by right].
    exact (goes_on_order _ _ x Hg ltac:(done)).
Qed.

Lemma sorting_nil m rank b : sorting m rank b (∅, []).
Proof.
  split.
  - intros i x d Hi. cbn in Hi. discriminate Hi.
  - apply NoDup_nil_2.
  - intros x Hx. by apply elem_of_nil in Hx.
  - intros x Hx. by apply elem_of_empty in Hx.
Qed.

Lemma init_order_spec m rank keys : ranked m rank ->
  let l := compute_init_order keys m in
  dependencies_first m l /\ NoDup l /\ forall x, x ∈ keys -> x ∈ l.
Proof.
  intros Hrank. cbn zeta. unfold compute_init_order.
  assert (H : forall keys acc, sorting m rank (S (list_max (rank <$> keys))) acc ->
    (forall x, x ∈ acc.1 -> x ∈ acc.2) ->
    sorting m rank 0 (foldl (fun acc id => visit m 18 id acc) acc keys)
    /\ goes_on acc (foldl (fun acc id => visit m 18 id acc) acc keys)
    /\ forall x, x ∈ keys -> x ∈ (foldl (fun acc id => visit m 18 id acc) acc keys).2).
  { clear keys. induction keys as [|k keys IH]; intros acc Hs Hc; cbn [foldl].
    { split_and!; [by eapply sorting_weaken; [|exact Hs]; lia|apply goes_on_refl|].
      by intros x Hx%elem_of_nil. }
    assert (Hany : forall b, sorting m rank b acc).
    { destruct Hs as [H1 H2 H3 _]. intros b. split; try done. intros x Hx. left. auto. }
    destruct (visit_spec m rank Hrank 18 k acc) as (Q1 & Q2 & Q3); [lia|apply Hany|].
    assert (Hc1 : forall x, x ∈ (visit m 18 k acc).1 -> x ∈ (visit m 18 k acc).2).
    { intros x [Hx|Hx]%(go_closed _ _ Q3); [|done]. by eapply goes_on_order, Hc. }
    destruct (IH (visit m 18 k acc)) as (R1 & R2 & R3); [|done|].
    { destruct Q1 as [H1 H2 H3 _]. split; try done. intros x Hx. left. auto. }
    split_and!; [done|by eapply goes_on_trans|].
    intros x [->|Hx]%elem_of_cons; [by eapply goes_on_order|by apply R3]. }
  destruct (H keys (∅, []) (sorting_nil m rank _)) as ([H1 H2 _ _] & _ & H3).
  - intros x Hx. by apply elem_of_empty in Hx.
  - split; [exact H1|]. split; [exact H2|exact H3].
Qed.

(** ** Starting and stopping *)

Section order.
Context (start : SubsystemId -> result SubsystemError unit).

Definition registered (r : SubsystemRegistry) (x : SubsystemId) : Prop := is_Some (subsystems r !! x).

(** The status a start leaves. *)
Definition started_status (x : SubsystemId) : SubsystemStatus :=
  match start x with Ok _ => Healthy | Err _ => Error | Panic => Starting end.

Lemma set_status_lookup r x s y : subsystems (set_status r x s) !! y
  = if decide (y = x)
    then (fun e => {| status := s; dependencies := dependencies e |}) <$> subsystems r !! y
    else subsystems r !! y.
Proof.
  cbn. case_decide; [subst; apply lookup_alter_eq|by apply lookup_alter_ne].
Qed.

Lemma set_status_registered r x s y : registered (set_status r x s) y <-> registered r y.
Proof.
  unfold registered. rewrite set_status_lookup. case_decide; [|done]. by rewrite fmap_is_Some.
Qed.

(** What one start does: it makes the call or it stops everything. *)
Lemma start_subsystem_spec r x :
  let '(r', calls, res) := start_subsystem start r x in
  required r' = required r /\ (forall y, registered r' y <-> registered r y)
  /\ (forall y, y <> x -> subsystems r' !! y = subsystems r !! y)
  /\ ((calls = [] /\ (registered r x -> res <> Ok tt))
      \/ (calls = [x] /\ registered r x
          /\ status <$> subsystems r' !! x = Some (started_status x)
          /\ (res = Ok tt -> x ∈ required r -> start x = Ok tt)
          /\ (start x = Ok tt -> res = Ok tt))).
Proof.
  unfold start_subsystem. destruct (subsystems r !! x) as [e|] eqn:Ex.
  2:{ split_and!; try done. left. split; [done|]. intros [? ?]. congruence. }
  assert (Hx : registered r x) by (by eexists).
  destruct (check_dependencies r x (dependencies e)) as [u|err|]; cbn zeta.
  2,3: split_and!; try done; by left.
  unfold started_status. destruct (start x) as [[]|err|] eqn:Es; (split_and!; [done|..]).
  1,4,7: intros y; by rewrite !set_status_registered.
  1,3,5: intros y Hy; by rewrite !set_status_lookup, !decide_False by done.
  - right. split_and!; try done. by rewrite !set_status_lookup, !decide_True, Ex by done.
  - right. split_and!; try done; [by rewrite !set_status_lookup, !decide_True, Ex by done|].
    unfold handle_start_failure. cbn. case_bool_decide; done.
  - right. split_and!; try done. by rewrite !set_status_lookup, !decide_True, Ex by done.
Qed.

#[local] Instance registered_dec r x : Decision (registered r x).
Proof. unfold registered. apply _. Defined.

(** Every call but the last of a required subsystem succeeded. *)
Definition required_ok_before (r : SubsystemRegistry) (calls : list SubsystemId) : Prop :=
  forall i j x, i < j -> calls !! i = Some x -> j < length calls -> x ∈ required r -> start x = Ok tt.

Lemma required_ok_before_short r calls : length calls <= 1 -> required_ok_before r calls.
Proof. intros Hl i j x Hij _ Hj. lia. Qed.

Lemma required_ok_before_cons r x calls : (x ∈ required r -> start x = Ok tt) ->
  required_ok_before r calls -> required_ok_before r (x :: calls).
Proof.
  intros Hx Hc [|i] [|j] y Hij Hi Hj; cbn in *; [lia|by simplify_eq|lia|].
  apply (Hc i j y); [lia|done|lia].
Qed.

Lemma start_loop_spec ids : forall r, NoDup ids ->
  let '(r', calls, res) := start_loop start r ids in
  required r' = required r /\ (forall y, registered r' y <-> registered r y)
  /\ (forall y, y ∉ ids -> subsystems r' !! y = subsystems r !! y)
  /\ calls `prefix_of` base.filter (registered r) ids
  /\ (res = Ok tt -> calls = base.filter (registered r) ids)
  /\ (forall y, y ∈ calls -> status <$> subsystems r' !! y = Some (started_status y))
  /\ required_ok_before r calls
  /\ (res = Ok tt -> Forall (fun x => x ∈ required r -> start x = Ok tt) calls).
Proof.
  induction ids as [|x ids IH]; intros r Hn; cbn [start_loop].
  { split_and!; try done; intros y Hy%elem_of_nil; done. }
  apply NoDup_cons in Hn as [Hx Hn]. pose proof (start_subsystem_spec r x) as H1.
  destruct (start_subsystem start r x) as [[r1 c1] res1]. destruct H1 as (E1 & Ereg & Eo & Hc).
  assert (Hf : base.filter (registered r) ids = base.filter (registered r1) ids).
  { apply list_filter_iff. intros y. by rewrite Ereg. }
  assert (Hres : res1 = Ok tt \/ res1 <> Ok tt) by (destruct res1 as [[]| |]; [by left|by right..]).
  destruct Hres as [->|Hne].
  2:{ assert (Hgoal : required r1 = required r /\ (forall y, registered r1 y <-> registered r y)
        /\ (forall y, y ∉ x :: ids -> subsystems r1 !! y = subsystems r !! y)
        /\ c1 `prefix_of` base.filter (registered r) (x :: ids)
        /\ (forall y, y ∈ c1 -> status <$> subsystems r1 !! y = Some (started_status y))
        /\ required_ok_before r c1).
      { split_and!; [done|done|by intros y [? _]%not_elem_of_cons; apply Eo|..];
          destruct Hc as [[-> _]|(-> & Hr & Hst & _)].
        - apply prefix_nil.
        - rewrite filter_cons_True by done. apply prefix_cons, prefix_nil.
        - by intros y Hy%elem_of_nil.
        - by intros y ->%list_elem_of_singleton.
        - apply required_ok_before_short; cbn; lia.
        - apply required_ok_before_short; cbn; lia. }
      destruct Hgoal as (G1 & G2 & G3 & G4 & G5 & G6).
      destruct res1 as [[]|e|]; [done|by split_and!|by split_and!]. }
  specialize (IH r1 Hn). destruct (start_loop start r1 ids) as [[r2 c2] res2].
  destruct IH as (F1 & F2 & F3 & F4 & F5 & F6 & F7 & F8). rewrite <-Hf in F4, F5.
  unfold required_ok_before in F7. rewrite E1 in F7, F8.
  split; [congruence|]. split; [intros y; by rewrite F2, Ereg|].
  split; [intros y [? ?]%not_elem_of_cons; by rewrite F3, Eo|].
  destruct Hc as [[-> Hno]|(-> & Hr & Hst & Hreq & _)]; cbn [app].
  - rewrite filter_cons_False by (intros Hr; by apply (Hno Hr)). by split_and!.
  - rewrite filter_cons_True by done. split_and!.
    + by apply prefix_cons.
    + intros Hok. by rewrite F5.
    + intros y [->|Hy]%elem_of_cons; [|by apply F6]. by rewrite F3.
    + apply required_ok_before_cons; [by apply Hreq|exact F7].
    + intros Hok. constructor; [by apply Hreq|]. by apply F8.
Qed.

Lemma filter_keeps_order (P : SubsystemId -> Prop) `{!forall x, Decision (P x)} l d x : P d -> NoDup l ->
  forall i, base.filter P l !! i = Some x -> (forall j, l !! j = Some x -> d ∈ take j l) ->
  d ∈ take i (base.filter P l).
Proof.
  intros HP. induction l as [|y l IH]; intros Hn i Hi Hb; [done|].
  apply NoDup_cons in Hn as [Hy Hn].
  assert (Hxl : x ∈ base.filter P (y :: l)) by (by eapply list_elem_of_lookup_2).
  apply list_elem_of_filter in Hxl as [HPx Hxl].
  destruct (decide (d = y)) as [->|Hdy].
  - rewrite filter_cons_True in Hi |- * by done. destruct i as [|i]; [|by left].
    injection Hi as <-. specialize (Hb 0 eq_refl). by apply elem_of_nil in Hb.
  - assert (Hxy : x <> y).
    { intros ->. specialize (Hb 0 eq_refl). by apply elem_of_nil in Hb. }
    assert (Hb' : forall j, l !! j = Some x -> d ∈ take j l).
    { intros j Hj. specialize (Hb (S j) Hj). cbn in Hb. by apply elem_of_cons in Hb as [?|?]. }
    destruct (decide (P y)) as [HPy|HPy].
    + rewrite filter_cons_True in Hi |- * by done. destruct i as [|i]; [by injection Hi as <-|].
      right. by apply IH.
    + rewrite filter_cons_False in Hi |- * by done. by apply IH.
Qed.

(** C36 (safety): subsystems come up in the order of their dependencies.  If the
    registered dependencies have no cycle, then in whatever order the map of
    subsystems is iterated, starting calls each subsystem at most once, only
    after every registered one it depends on was called, and only if those that
    are required started; and if starting succeeds, every registered subsystem
    was called and every required one is healthy. *)
Theorem start_in_dependency_order r keys rank
  (Horder : init_order r = compute_init_order keys (subsystems r))
  (Hkeys : forall x, registered r x -> x ∈ keys)
  (Hrank : ranked (subsystems r) rank) :
  let '(r', calls, res) := start_all start r in
  NoDup calls
  /\ (forall i x d, calls !! i = Some x -> d ∈ deps_of (subsystems r) x -> registered r d ->
        d ∈ take i calls /\ (d ∈ required r -> start d = Ok tt))
  /\ (res = Ok tt -> (forall x, registered r x -> x ∈ calls)
        /\ forall x, x ∈ required r -> status <$> subsystems r' !! x = Some Healthy).
Proof.
  unfold start_all, validate_required. case_bool_decide as Hreq.
  2:{ split_and!; [constructor|by intros|done]. }
  destruct (init_order_spec (subsystems r) rank keys Hrank) as (O1 & O2 & O3). rewrite <-Horder in *.
  pose proof (start_loop_spec (init_order r) r O2) as H.
  destruct (start_loop start r (init_order r)) as [[r' calls] res].
  destruct H as (_ & _ & _ & [suf Hpre] & Hall & Hst & Hbefore & Hdone). split_and!.
  - eapply sublist_NoDup; [exact O2|]. etrans; [|apply (sublist_filter (registered r))].
    rewrite Hpre. apply sublist_inserts_r. reflexivity.
  - intros i x d Hi Hd Hr.
    assert (Hin : d ∈ take i calls).
    { assert (Hf : base.filter (registered r) (init_order r) !! i = Some x)
        by (rewrite Hpre; by apply lookup_app_l_Some).
      assert (Hfi : d ∈ take i (base.filter (registered r) (init_order r))).
      { apply (filter_keeps_order _ _ d x Hr O2 i Hf). intros j Hj. by apply (O1 j x). }
      rewrite Hpre, take_app_le in Hfi; [done|]. apply lookup_lt_Some in Hi. lia. }
    split; [done|]. intros Hdr.
    apply list_elem_of_lookup in Hin as (j & Hj). apply lookup_take_Some in Hj as [Hj Hlt].
    apply (Hbefore j i d); try done. by apply lookup_lt_Some in Hi.
  - intros Hok. specialize (Hall Hok). specialize (Hdone Hok). split.
    + intros x Hx. rewrite Hall. apply list_elem_of_filter. split; [done|]. by apply O3, Hkeys.
    + intros x Hx.
      assert (Hxr : registered r x) by (by eapply Forall_forall in Hreq).
      assert (Hxc : x ∈ calls).
      { rewrite Hall. apply list_elem_of_filter. split; [done|]. by apply O3, Hkeys. }
      rewrite (Hst x Hxc). unfold started_status.
      eapply Forall_forall in Hdone; [|exact Hxc]. by rewrite Hdone.
Qed.

End order.

(** Stopping calls the running subsystems of the start order, last first. *)
Definition running (r : SubsystemRegistry) (x : SubsystemId) : Prop :=
  exists e, subsystems r !! x = Some e /\ (status e = Healthy \/ status e = Degraded).

#[export] Instance running_dec r x : Decision (running r x).
Proof.
  refine (match subsystems r !! x as o return subsystems r !! x = o -> _ with
    | Some e => fun E => cast_if (decide (status e = Healthy \/ status e = Degraded))
    | None => fun E => right _ end eq_refl); unfold running.
  - by exists e.
  - intros (e' & ? & ?). congruence.
  - intros (e & ? & _). congruence.
Defined.

Lemma stop_subsystem_spec stop r x :
  (stop_subsystem stop r x).2 = (if decide (running r x) then [x] else [])
  /\ (forall y, y <> x -> subsystems (stop_subsystem stop r x).1 !! y = subsystems r !! y).
Proof.
  unfold stop_subsystem. destruct (subsystems r !! x) as [e|] eqn:Ex.
  2:{ rewrite decide_False; [done|]. intros (e & ? & _). congruence. }
  assert (Hrun : running r x <-> status e = Healthy \/ status e = Degraded).
  { unfold running. rewrite Ex. split; [intros (e' & [= <-] & H); done|by exists e]. }
  destruct (bool_decide (status e = Healthy) || bool_decide (status e = Degraded)) eqn:Eb.
  - rewrite decide_True by (rewrite Hrun;
      by apply orb_true_iff in Eb as [H%bool_decide_eq_true|H%bool_decide_eq_true]; auto).
    destruct (stop x); (split; [done|]); intros y Hy; cbn [fst];
      by rewrite !set_status_lookup, !decide_False by done.
  - rewrite decide_False; [done|]. rewrite Hrun.
    apply orb_false_iff in Eb as [H1%bool_decide_eq_false H2%bool_decide_eq_false]. tauto.
Qed.

(** Stopping is the reverse of the start order, restricted to what runs. *)
Lemma stop_all_reverses stop r : NoDup (init_order r) ->
  (stop_all stop r).2 = reverse (base.filter (running r) (init_order r)).
Proof.
  intros Hn. unfold stop_all. rewrite <-filter_reverse.
  assert (Hn' : NoDup (reverse (init_order r))) by (by rewrite reverse_Permutation).
  revert Hn'. generalize (reverse (init_order r)). intros l. clear Hn. revert r.
  induction l as [|x l IH]; intros r Hn; [done|]. apply NoDup_cons in Hn as [Hx Hn].
  cbn [stop_loop]. destruct (stop_subsystem_spec stop r x) as [Hc Ho].
  destruct (stop_subsystem stop r x) as [r1 c1]. cbn [fst snd] in Hc, Ho.
  specialize (IH r1 Hn). destruct (stop_loop stop r1 l) as [r2 c2]. cbn [snd] in IH |- *.
  assert (Hf : base.filter (running r1) l = base.filter (running r) l).
  { clear -Hx Ho. induction l as [|y l IH]; [done|]. apply not_elem_of_cons in Hx as [Hxy Hx].
    assert (Hy : running r1 y <-> running r y) by (unfold running; by rewrite Ho).
    rewrite !filter_cons, IH by done. destruct (decide (running r1 y)), (decide (running r y)); tauto. }
  subst c1 c2. rewrite filter_cons, Hf. by case_decide.
Qed.

(** ** An example *)

Definition example_registry : SubsystemRegistry :=
  let keys := [TransactionIndexing; Consensus; BlockStorage; SignatureVerification; Mempool] in
  register keys Mempool [SignatureVerification]
    (register keys SignatureVerification []
      (register keys Consensus [BlockStorage; SignatureVerification]
        (register keys TransactionIndexing [Consensus; Mempool]
          (register keys BlockStorage [] registry_new)))).

Definition example_rank (x : SubsystemId) : nat :=
  match x with TransactionIndexing => 2 | Consensus | Mempool => 1 | _ => 0 end.

Lemma example_ranked : ranked (subsystems example_registry) example_rank.
Proof.
  assert (E : set_Forall (fun x => Forall (fun d => example_rank d < example_rank x)
    (deps_of (subsystems example_registry) x)) all_ids).
  { apply (bool_decide_unpack _). by vm_compute. }
  intros x d Hd. by eapply Forall_forall in Hd; [|apply (E x), all_ids_spec].
Qed.

Definition all_start (_ : SubsystemId) : result SubsystemError unit := Ok tt.

Lemma start_in_dependency_order_witness :
  let '(r', calls, res) := start_all all_start example_registry in
  calls = [BlockStorage; SignatureVerification; Consensus; Mempool; TransactionIndexing]
  /\ NoDup calls
  /\ (res = Ok tt -> forall x, x ∈ required example_registry ->
        status <$> subsystems r' !! x = Some Healthy).
Proof.
  pose proof (start_in_dependency_order all_start example_registry
    [TransactionIndexing; Consensus; BlockStorage; SignatureVerification; Mempool] example_rank
    ltac:(by vm_compute)
    ltac:(intros x [e He]; destruct x; vm_compute in He; try discriminate He; set_solver)
    example_ranked) as H.
  assert (E : (start_all all_start example_registry).1.2
    = [BlockStorage; SignatureVerification; Consensus; Mempool; TransactionIndexing])
    by (by vm_compute).
  destruct (start_all all_start example_registry) as [[r' calls] res]. cbn in E.
  destruct H as (H1 & _ & H3). split; [exact E|]. split; [exact H1|].
  intros Hok. by apply H3.
Defined.

(** With a cycle the sort still ends, and one of the dependencies comes after
    the subsystem that needs it. *)
Example cycle_starts_dependent_first :
  init_order (register [Mempool; Consensus] Consensus [Mempool]
    (register [Mempool] Mempool [Consensus] registry_new)) = [Consensus; Mempool].
Proof. by vm_compute. Qed.
