(* ===== verification/StateIpc.v ===== *)
(** * State management: the IPC handler and the side structures

    Models the rest of [qc-04-state-management]: conflict detection
    ([domain/conflicts.rs]), the account cache ([domain/cache.rs]), the flat view of
    the trie ([domain/flat_storage.rs]), the parallel computation of storage
    roots ([domain/parallel.rs]) and the authenticated handler over the trie
    ([ipc/handler.rs], [events/payloads.rs]).

    The handler verifies its messages with the shared verifier of [Messages].
    Each of its calls holds the lock of the trie from the first change to the
    last, so a call is one step; a lock is never poisoned, because no call
    panics ([block_moves_exactly], [trie_op_inv]).  The time a block took is left out of the
    answer. *)

From S2P Require Import Prelude StateTrie StateFacts StateProps Messages.
From stdpp Require Import strings.
Local Open Scope Z_scope.
Local Open Scope qc_scope.

Local Abbreviation u32 := Z (only parsing).

(** ** [domain/conflicts.rs] *)

Module Conflicts.

(** A location: an account or one of its slots. *)
Abbreviation Location := (Address * option Hash)%type.

Record TransactionAccessPattern := {
  tx_hash : Hash;
  reads : list Location;
  writes : list Location
}.

Inductive ConflictType := ReadWrite | WriteWrite | NonceConflict.

Record ConflictInfo := {
  tx1_index : nat;
  tx2_index : nat;
  conflict_type : ConflictType;
  conflicting_address : Address;
  conflicting_key : option Hash
}.

(** The two nested loops over the locations. *)
Definition common_locations (kind : ConflictType) (i j : nat) (l1 l2 : list Location)
  : list ConflictInfo :=
  a1 ← l1; a2 ← l2;
  if bool_decide (a1 = a2) then
    [{| tx1_index := i; tx2_index := j; conflict_type := kind;
        conflicting_address := a1.1; conflicting_key := a1.2 |}]
  else [].

Definition check_write_write_conflicts (p1 p2 : TransactionAccessPattern) (i j : nat)
  : list ConflictInfo := common_locations WriteWrite i j (writes p1) (writes p2).

Definition check_read_write_conflicts (p1 p2 : TransactionAccessPattern) (i j : nat)
  : list ConflictInfo :=
  common_locations ReadWrite i j (reads p1) (writes p2)
  ++ common_locations ReadWrite i j (writes p1) (reads p2).

Definition detect_conflicts (patterns : list TransactionAccessPattern) : list ConflictInfo :=
  i ← seq 0 (length patterns);
  j ← seq (S i) (length patterns - S i);
  match patterns !! i, patterns !! j with
  | Some p1, Some p2 => check_write_write_conflicts p1 p2 i j ++ check_read_write_conflicts p1 p2 i j
  | _, _ => []
  end.

Lemma common_locations_spec kind i j l1 l2 c : c ∈ common_locations kind i j l1 l2 <->
  tx1_index c = i /\ tx2_index c = j /\ conflict_type c = kind
  /\ (conflicting_address c, conflicting_key c) ∈ l1
  /\ (conflicting_address c, conflicting_key c) ∈ l2.
Proof.
  unfold common_locations. setoid_rewrite list_elem_of_bind. split.
  - intros (a1 & Hin & H1). apply list_elem_of_bind in Hin as (a2 & Hin & H2).
    case_bool_decide; [|by apply elem_of_nil in Hin]. subst a2.
    apply list_elem_of_singleton in Hin as ->. cbn. by rewrite <-surjective_pairing.
  - intros (<- & <- & <- & H1 & H2). eexists. split; [|exact H1]. apply list_elem_of_bind.
    eexists. split; [|exact H2]. rewrite bool_decide_true by done. apply list_elem_of_singleton.
    by destruct c.
Qed.

(** The conflicts of [i < j], exactly. *)
Lemma detect_conflicts_spec patterns c : c ∈ detect_conflicts patterns <->
  exists p1 p2, (tx1_index c < tx2_index c)%nat
    /\ patterns !! tx1_index c = Some p1 /\ patterns !! tx2_index c = Some p2
    /\ let a := (conflicting_address c, conflicting_key c) in
       (conflict_type c = WriteWrite /\ a ∈ writes p1 /\ a ∈ writes p2)
       \/ (conflict_type c = ReadWrite
           /\ (a ∈ reads p1 /\ a ∈ writes p2 \/ a ∈ writes p1 /\ a ∈ reads p2)).
Proof.
  unfold detect_conflicts. rewrite list_elem_of_bind. setoid_rewrite list_elem_of_bind.
  setoid_rewrite elem_of_seq.
  assert (Hc : forall p1 p2 i j, c ∈ check_write_write_conflicts p1 p2 i j ++ check_read_write_conflicts p1 p2 i j
    <-> tx1_index c = i /\ tx2_index c = j
      /\ ((conflict_type c = WriteWrite /\ (conflicting_address c, conflicting_key c) ∈ writes p1
            /\ (conflicting_address c, conflicting_key c) ∈ writes p2)
         \/ (conflict_type c = ReadWrite
           /\ ((conflicting_address c, conflicting_key c) ∈ reads p1
                /\ (conflicting_address c, conflicting_key c) ∈ writes p2
              \/ (conflicting_address c, conflicting_key c) ∈ writes p1
                /\ (conflicting_address c, conflicting_key c) ∈ reads p2)))).
  { intros p1 p2 i j. unfold check_write_write_conflicts, check_read_write_conflicts.
    rewrite !elem_of_app, !common_locations_spec. tauto. }
  cbn zeta. split.
  - intros (i & (j & Hin & Hj) & Hi).
    destruct (patterns !! i) as [p1|] eqn:E1; [|by apply elem_of_nil in Hin].
    destruct (patterns !! j) as [p2|] eqn:E2; [|by apply elem_of_nil in Hin].
    apply Hc in Hin as (<- & <- & Hk). exists p1, p2. split; [lia|]. by split_and!.
  - intros (p1 & p2 & Hlt & E1 & E2 & Hk). exists (tx1_index c).
    pose proof (lookup_lt_Some _ _ _ E2). split; [|lia].
    exists (tx2_index c). split; [|lia]. rewrite E1, E2. apply Hc. by split_and!.
Qed.

(** *** What the patterns are for

    A transaction that keeps to its pattern: a change of the state that writes
    only the locations it declares, with values that depend only on those it
    declares as read. *)
Section semantics.
Context {V : Type}.

Definition keeps_to (p : TransactionAccessPattern) (f : (Location -> V) -> Location -> V) : Prop :=
  (forall s a, a ∉ writes p -> f s a = s a)
  /\ (forall s s', (forall a, a ∈ reads p -> s a = s' a) -> forall a, a ∈ writes p -> f s a = f s' a).

Definition run_all (fs : list ((Location -> V) -> Location -> V)) (s : Location -> V) : Location -> V :=
  foldl (fun s f => f s) s fs.

Definition disjoint (p1 p2 : TransactionAccessPattern) : Prop :=
  forall a, (a ∈ writes p1 -> a ∉ writes p2) /\ (a ∈ reads p1 -> a ∉ writes p2)
    /\ (a ∈ writes p1 -> a ∉ reads p2).

Lemma disjoint_sym p1 p2 : disjoint p1 p2 -> disjoint p2 p1.
Proof. intros H a. destruct (H a) as (H1 & H2 & H3). split_and!; intros ??; tauto. Qed.

Lemma no_conflict_disjoint patterns i j p1 p2 : detect_conflicts patterns = [] -> i <> j ->
  patterns !! i = Some p1 -> patterns !! j = Some p2 -> disjoint p1 p2.
Proof.
  assert (H : forall i j p1 p2, detect_conflicts patterns = [] -> (i < j)%nat ->
    patterns !! i = Some p1 -> patterns !! j = Some p2 -> disjoint p1 p2).
  { clear. intros i j p1 p2 Hd Hlt E1 E2 a.
    assert (Hn : forall k, {| tx1_index := i; tx2_index := j; conflict_type := k;
      conflicting_address := a.1; conflicting_key := a.2 |} ∉ detect_conflicts patterns)
      by (intros k; rewrite Hd; apply not_elem_of_nil).
    split_and!; intros H1 H2;
      [apply (Hn WriteWrite)|apply (Hn ReadWrite)|apply (Hn ReadWrite)];
      apply detect_conflicts_spec; exists p1, p2; cbn; rewrite <-surjective_pairing; tauto. }
  intros Hd Hne E1 E2. destruct (Nat.lt_gt_cases i j) as [Hc _].
  destruct (Hc Hne) as [Hlt|Hlt]; [by eapply H|]. apply disjoint_sym. by eapply H.
Qed.

(** Transactions with disjoint patterns commute, location by location. *)
Lemma disjoint_commute p1 p2 f1 f2 s a : keeps_to p1 f1 -> keeps_to p2 f2 -> disjoint p1 p2 ->
  f2 (f1 s) a = f1 (f2 s) a.
Proof.
  intros [W1 R1] [W2 R2] Hd. destruct (decide (a ∈ writes p1)) as [H1|H1].
  - destruct (Hd a) as (Hw & _). rewrite W2 by auto. apply R1; [|done].
    intros b Hb. symmetry. apply W2. by apply (Hd b).
  - rewrite (W1 (f2 s)) by done. destruct (decide (a ∈ writes p2)) as [H2|H2].
    + apply R2; [|done]. intros b Hb. apply W1. intros Hb1. by apply (Hd b) in Hb1.
    + by rewrite !W2, W1 by done.
Qed.

Lemma keeps_to_ext p f s s' : keeps_to p f -> (forall a, s a = s' a) -> forall a, f s a = f s' a.
Proof.
  intros [W R] Hs a. destruct (decide (a ∈ writes p)) as [Ha|Ha]; [by apply R|].
  by rewrite !W.
Qed.

Lemma run_all_ext (l : list (TransactionAccessPattern * ((Location -> V) -> Location -> V))) :
  Forall (fun e => keeps_to e.1 e.2) l -> forall s s', (forall a, s a = s' a) ->
  forall a, run_all l.*2 s a = run_all l.*2 s' a.
Proof.
  induction 1 as [|e l He Hl IH]; intros s s' Hs; [done|]. cbn. apply IH. by apply (keeps_to_ext e.1).
Qed.

(** The order of transactions without conflicts does not matter. *)
Lemma run_all_perm (l l' : list (TransactionAccessPattern * ((Location -> V) -> Location -> V))) :
  l ≡ₚ l' -> Forall (fun e => keeps_to e.1 e.2) l ->
  (forall i j e1 e2, i <> j -> l !! i = Some e1 -> l !! j = Some e2 -> disjoint e1.1 e2.1) ->
  forall s a, run_all l.*2 s a = run_all l'.*2 s a.
Proof.
  intros Hp Hk Hd s a. revert s. revert Hk Hd.
  assert (Hgen : l ≡ₚ l' -> Forall (fun e => keeps_to e.1 e.2) l ->
    (forall e1 e2 k, l ≡ₚ e1 :: e2 :: k -> disjoint e1.1 e2.1) ->
    forall s a, run_all l.*2 s a = run_all l'.*2 s a).
  { clear. induction 1 as [|e l l' Hp IH|e1 e2 l|l1 l2 l3 H12 IH1 H23 IH2]; intros Hk Hd s a.
    - done.
    - apply Forall_cons in Hk as [He Hk]. cbn. apply IH; [done|].
      intros e1 e2 k Hk'. apply (Hd e1 e2 (e :: k)). rewrite Hk'. etrans; [apply Permutation_swap|]. by apply Permutation_skip, Permutation_swap.
    - apply Forall_cons in Hk as [H1 Hk]. apply Forall_cons in Hk as [H2 Hk]. cbn.
      apply (run_all_ext l); [done|]. intros b. apply (disjoint_commute e2.1 e1.1); [done|done|].
      by apply (Hd e2 e1 l).
    - rewrite IH1 by done. apply IH2; [by rewrite <-H12|].
      intros e1 e2 k Hk2. apply (Hd e1 e2 k). by rewrite H12. }
  intros Hk Hd s. apply Hgen; [done|done|]. intros e1 e2 k Hperm.
  destruct (proj1 (Permutation_inj _ _) (symmetry Hperm)) as (_ & g & Hg & Hl').
  apply (Hd (g 0%nat) (g 1%nat)); [by intros ?%Hg|by rewrite <-Hl'|by rewrite <-Hl'].
Qed.

(** Detected conflicts are all that matters.  A batch in which no
    conflict is detected, of transactions that keep to their patterns, gives the
    same state in whatever order it is executed. *)
Theorem conflict_free_order_irrelevant patterns fs order s a
  (Hk : Forall2 keeps_to patterns fs) (Hd : detect_conflicts patterns = [])
  (Hp : order ≡ₚ fs) : run_all order s a = run_all fs s a.
Proof.
  assert (Hl : length patterns = length fs) by (by eapply Forall2_length).
  assert (E2 : (zip patterns fs).*2 = fs) by (apply snd_zip; lia).
  rewrite <-E2 in Hp. apply Permutation_map_inv in Hp as (l & -> & Hp).
  rewrite <-E2 at 1. symmetry. apply run_all_perm.
  - by symmetry.
  - apply Forall_forall. intros [p f] Hin. apply list_elem_of_lookup in Hin as [i Hi].
    apply lookup_zip_with_Some in Hi as (p' & f' & [= <- <-] & H1 & H2).
    by eapply Forall2_lookup_lr in Hk.
  - intros i j [p1 f1] [p2 f2] Hne H1 H2.
    apply lookup_zip_with_Some in H1 as (? & ? & [= <- <-] & H1 & _).
    apply lookup_zip_with_Some in H2 as (? & ? & [= <- <-] & H2 & _).
    by eapply no_conflict_disjoint.
Qed.

End semantics.

(** Two transfers between different accounts, in both orders. *)
Definition transfer (from to : Address) (v : Z) (s : Location -> Z) (a : Location) : Z :=
  if bool_decide (a = (from, None)) then s (from, None) - v
  else if bool_decide (a = (to, None)) then s (to, None) + v else s a.

Definition transfer_pattern (from to : Address) : TransactionAccessPattern := {|
  tx_hash := from; reads := [(from, None); (to, None)]; writes := [(from, None); (to, None)]
|}.

Lemma transfer_keeps from to v : keeps_to (transfer_pattern from to) (transfer from to v).
Proof.
  split; unfold transfer; cbn [writes reads transfer_pattern].
  - intros s a [H1 [H2 _]%not_elem_of_cons]%not_elem_of_cons. by rewrite !bool_decide_false.
  - intros s s' Hs a Ha. rewrite !Hs by set_solver. repeat case_bool_decide; [done|done|].
    set_solver.
Qed.

Lemma conflict_free_order_irrelevant_witness :
  detect_conflicts [transfer_pattern 1 2; transfer_pattern 3 4] = []
  /\ run_all [transfer 3 4 7; transfer 1 2 5] (fun _ => 10) (1, None)
     = run_all [transfer 1 2 5; transfer 3 4 7] (fun _ => 10) (1, None).
Proof.
  split; [by vm_compute|].
  apply (conflict_free_order_irrelevant [transfer_pattern 1 2; transfer_pattern 3 4]).
  - repeat constructor; apply transfer_keeps.
  - by vm_compute.
  - apply Permutation_swap.
Defined.

End Conflicts.

(** ** [domain/flat_storage.rs] *)

Module Flat.

Record FlatKey := { fk_address : Address; fk_slot : option Hash }.

#[export] Instance FlatKey_eq_dec : EqDecision FlatKey.
Proof. solve_decision. Defined.
#[export] Instance FlatKey_countable : Countable FlatKey :=
  inj_countable' (fun k => (fk_address k, fk_slot k)) (fun e => {| fk_address := e.1; fk_slot := e.2 |})
    ltac:(by intros []).

Definition account_key (address : Address) : FlatKey := {| fk_address := address; fk_slot := None |}.
Definition storage_key (address : Address) (slot : Hash) : FlatKey :=
  {| fk_address := address; fk_slot := Some slot |}.

Definition to_bytes (k : FlatKey) : list u8 :=
  address_bytes (fk_address k) ++ match fk_slot k with Some slot => hash_bytes slot | None => [] end.

Inductive FlatValue := Account (state : AccountState) | Storage (value : Hash).

Record FlatStorage := {
  data : gmap FlatKey FlatValue;
  state_root : Hash;
  height : u64
}.

Definition new : FlatStorage := {| data := ∅; state_root := 0; height := 0 |}.

Definition set_root (root : Hash) (h : u64) (f : FlatStorage) : FlatStorage :=
  {| data := data f; state_root := root; height := h |}.

Definition set_data (f : FlatStorage) (d : gmap FlatKey FlatValue) : FlatStorage :=
  {| data := d; state_root := state_root f; height := height f |}.

Definition put_account (address : Address) (state : AccountState) (f : FlatStorage) : FlatStorage :=
  set_data f (<[account_key address := Account state]> (data f)).

Definition put_storage (address : Address) (slot value : Hash) (f : FlatStorage) : FlatStorage :=
  set_data f (<[storage_key address slot := Storage value]> (data f)).

Definition delete_storage (address : Address) (slot : Hash) (f : FlatStorage) : FlatStorage :=
  set_data f (delete (storage_key address slot) (data f)).

Definition get_account (address : Address) (f : FlatStorage) : option AccountState :=
  match data f !! account_key address with Some (Account state) => Some state | _ => None end.

Definition get_balance (address : Address) (f : FlatStorage) : u128 :=
  match get_account address f with Some a => balance a | None => 0 end.

Definition get_nonce (address : Address) (f : FlatStorage) : u64 :=
  match get_account address f with Some a => nonce a | None => 0 end.

Definition get_storage (address : Address) (slot : Hash) (f : FlatStorage) : option Hash :=
  match data f !! storage_key address slot with Some (Storage value) => Some value | _ => None end.

Definition exists_ (address : Address) (f : FlatStorage) : bool :=
  bool_decide (is_Some (data f !! account_key address)).

(** The keys of accounts and slots do not collide as bytes. *)
Lemma to_bytes_inj k1 k2 : in_width 160 (fk_address k1) -> in_width 160 (fk_address k2) ->
  (forall x, fk_slot k1 = Some x -> in_width 256 x) -> (forall x, fk_slot k2 = Some x -> in_width 256 x) ->
  to_bytes k1 = to_bytes k2 -> k1 = k2.
Proof.
  destruct k1 as [a1 o1], k2 as [a2 o2]. unfold to_bytes. cbn [fk_address fk_slot].
  intros Ha1 Ha2 H1 H2 E.
  apply app_inj_1 in E as [Ea Eo]; [|by rewrite !length_be_bytes].
  apply be_bytes_inj in Ea; [|exact Ha1|exact Ha2]. subst a2. f_equal.
  destruct o1 as [x|], o2 as [y|]; [|exfalso..|done].
  - f_equal. apply hash_bytes_inj; auto.
  - by apply (f_equal length) in Eo; rewrite length_be_bytes in Eo.
  - by apply (f_equal length) in Eo; rewrite length_be_bytes in Eo.
Qed.

End Flat.

(** ** [domain/cache.rs] *)

Module Cache.

Abbreviation CacheKey := (Address * Hash)%type.

(** The third-party LRU cache: a map that may drop other entries when one is put. *)
Class AccountLru (C : Type) := {
  al_new : nat -> C;
  al_get : CacheKey -> C -> C * option AccountState;
  al_put : CacheKey -> AccountState -> C -> C;
  al_pop : CacheKey -> C -> C;
  al_keys : C -> list CacheKey;
  al_clear : C -> C
}.

Class AccountLruLaws {C} (L : AccountLru C) (cached : C -> gmap CacheKey AccountState) := {
  al_new_spec n : cached (al_new n) = ∅;
  al_get_spec k c : (al_get k c).2 = cached c !! k /\ cached (al_get k c).1 = cached c;
  al_put_spec k s c : exists kept, kept ⊆ cached c /\ cached (al_put k s c) = <[k := s]> kept;
  al_pop_spec k c : cached (al_pop k c) = delete k (cached c);
  al_keys_spec k c : k ∈ al_keys c <-> is_Some (cached c !! k);
  al_clear_spec c : cached (al_clear c) = ∅
}.

Section cache.
Context {C : Type} {L : AccountLru C}.

Record VersionedAccountCache := {
  cache : C;
  current_head : Hash;
  cache_height : u64;
  stale_hashes : list Hash
}.

Definition with_capacity (capacity : nat) : VersionedAccountCache := {|
  cache := al_new (Nat.max capacity 1); current_head := 0; cache_height := 0; stale_hashes := []
|}.

Definition set_cache (v : VersionedAccountCache) (c : C) : VersionedAccountCache := {|
  cache := c; current_head := current_head v; cache_height := cache_height v;
  stale_hashes := stale_hashes v
|}.

Definition set_head (block_hash : Hash) (height : u64) (v : VersionedAccountCache)
  : VersionedAccountCache := {|
  cache := cache v; current_head := block_hash; cache_height := height; stale_hashes := stale_hashes v
|}.

Definition get (address : Address) (v : VersionedAccountCache)
  : VersionedAccountCache * option AccountState :=
  let (c, found) := al_get (address, current_head v) (cache v) in (set_cache v c, found).

Definition put (address : Address) (state : AccountState) (v : VersionedAccountCache)
  : VersionedAccountCache := set_cache v (al_put (address, current_head v) state (cache v)).

Definition flush_stale (v : VersionedAccountCache) : VersionedAccountCache :=
  let keys_to_remove := base.filter (fun k => k.2 ∈ stale_hashes v) (al_keys (cache v)) in
  {| cache := foldl (fun c k => al_pop k c) (cache v) keys_to_remove;
     current_head := current_head v; cache_height := cache_height v; stale_hashes := [] |}.

Definition handle_reorg (old_head new_head : Hash) (v : VersionedAccountCache)
  : VersionedAccountCache :=
  let v := {| cache := cache v; current_head := new_head; cache_height := cache_height v;
              stale_hashes := stale_hashes v ++ [old_head] |} in
  if (100 <? length (stale_hashes v))%nat then flush_stale v else v.

Definition clear (v : VersionedAccountCache) : VersionedAccountCache := {|
  cache := al_clear (cache v); current_head := current_head v; cache_height := cache_height v;
  stale_hashes := []
|}.

Inductive Op :=
| SetHead (block_hash : Hash) (height : u64)
| Get (address : Address)
| Put (address : Address) (state : AccountState)
| Reorg (old_head new_head : Hash)
| Flush
| Clear.

Definition run_op (v : VersionedAccountCache) (o : Op) : VersionedAccountCache :=
  match o with
  | SetHead b h => set_head b h v
  | Get a => (get a v).1
  | Put a s => put a s v
  | Reorg o n => handle_reorg o n v
  | Flush => flush_stale v
  | Clear => clear v
  end.

(** What was last put for each address under each head. *)
Definition record_op (acc : VersionedAccountCache * gmap CacheKey AccountState) (o : Op)
  : VersionedAccountCache * gmap CacheKey AccountState :=
  (run_op acc.1 o,
   match o with Put a s => <[(a, current_head acc.1) := s]> acc.2 | _ => acc.2 end).

Context {cached : C -> gmap CacheKey AccountState} {LL : AccountLruLaws L cached}.

Lemma pops_spec ks : forall c k, cached (foldl (fun c k => al_pop k c) c ks) !! k
  = if decide (k ∈ ks) then None else cached c !! k.
Proof.
  induction ks as [|x ks IH]; intros c k; cbn [foldl]; [done|].
  rewrite IH, al_pop_spec. destruct (decide (k = x)) as [->|Hne].
  - rewrite lookup_delete_eq, (decide_True (P := x ∈ x :: ks)) by left. by case_decide.
  - rewrite lookup_delete_ne by done. repeat case_decide; set_solver.
Qed.

Lemma flush_spec v k : cached (cache (flush_stale v)) !! k
  = if decide (k.2 ∈ stale_hashes v) then None else cached (cache v) !! k.
Proof.
  cbn [flush_stale cache]. rewrite pops_spec.
  destruct (decide (k.2 ∈ stale_hashes v)) as [Hs|Hs].
  - case_decide as Hin; [done|]. destruct (cached (cache v) !! k) eqn:E; [|done].
    destruct Hin. apply list_elem_of_filter. split; [done|]. apply al_keys_spec. by eexists.
  - rewrite decide_False; [done|]. by intros [? _]%list_elem_of_filter.
Qed.

(** An answer of the cache is what was last put for the address while the current
    head was the head, whatever reorganizations and flushes were in between;
    after a flush nothing is left of the heads that were abandoned. *)
Theorem cache_answers_current n ops a :
  let '(v, last) := foldl record_op (with_capacity n, ∅) ops in
  (forall s, (get a v).2 = Some s -> last !! (a, current_head v) = Some s)
  /\ (current_head v ∈ stale_hashes v -> (get a (flush_stale v)).2 = None).
Proof.
  assert (Hsub : let '(v, last) := foldl record_op (with_capacity n, ∅) ops in cached (cache v) ⊆ last).
  { induction ops as [|o ops IH] using rev_ind.
    { cbn. rewrite al_new_spec. apply map_empty_subseteq. }
    rewrite foldl_app. destruct (foldl record_op (with_capacity n, ∅) ops) as [v last].
    assert (Hflush : forall v last, cached (cache v) ⊆ last -> cached (cache (flush_stale v)) ⊆ last).
    { clear -LL. intros v last H. apply map_subseteq_spec. intros k s Hk. rewrite flush_spec in Hk.
      case_decide; [done|]. by eapply map_subseteq_spec in H. }
    destruct o; cbn [foldl record_op run_op fst snd]; try done.
    - destruct (al_get_spec (address, current_head v) (cache v)) as [_ H]. unfold get.
      destruct (al_get _ _) as [c r]. cbn [fst] in H |- *. cbn [set_cache cache]. by rewrite H.
    - destruct (al_put_spec (address, current_head v) state (cache v)) as (kept & Hk & E).
      cbn [put set_cache cache]. rewrite E. apply insert_mono. by etrans.
    - unfold handle_reorg. case_match; [|done]. by apply Hflush.
    - by apply Hflush.
    - cbn. rewrite al_clear_spec. apply map_empty_subseteq. }
  destruct (foldl record_op (with_capacity n, ∅) ops) as [v last].
  assert (Hget : forall v, (get a v).2 = cached (cache v) !! (a, current_head v)).
  { clear -LL. intros v. unfold get. pose proof (al_get_spec (a, current_head v) (cache v)) as [H _].
    by destruct (al_get _ _). }
  split.
  - intros s. rewrite Hget. intros Hs. by eapply map_subseteq_spec in Hsub.
  - intros Hst. rewrite Hget, flush_spec. cbn [current_head flush_stale]. by rewrite decide_True.
Qed.

End cache.

End Cache.

(** ** [domain/parallel.rs] *)

Module Parallel.

Record StorageUpdate := {
  su_address : Address;
  changes : list (Hash * option Hash)
}.

Record StorageRootResult := { sr_address : Address; new_storage_root : Hash }.

Section roots.
Context (keccak256 : list u8 -> Hash) (get_current_root : Address -> Hash).

Definition change_bytes (c : Hash * option Hash) : list u8 :=
  hash_bytes c.1 ++ match c.2 with Some v => hash_bytes v | None => [] end.

Definition compute_single_storage_root (u : StorageUpdate) : StorageRootResult := {|
  sr_address := su_address u;
  new_storage_root := keccak256 (hash_bytes (get_current_root (su_address u))
    ++ concat (change_bytes <$> changes u))
|}.

(** The parallel iterator keeps the order of the updates, so both branches of
    [compute_storage_roots_parallel] are this map. *)
Definition compute_storage_roots_parallel (updates : list StorageUpdate) : list StorageRootResult :=
  compute_single_storage_root <$> updates.

(** Writing a slot gives the storage root of deleting two: the hashed bytes have
    no marker for a deletion. *)
Lemma deletion_ambiguous a k v :
  compute_single_storage_root {| su_address := a; changes := [(k, Some v)] |}
  = compute_single_storage_root {| su_address := a; changes := [(k, None); (v, None)] |}.
Proof. unfold compute_single_storage_root. cbn. by rewrite !app_nil_r. Qed.

End roots.

End Parallel.

(** ** [ipc/handler.rs] *)

Definition CONSENSUS : u8 := 8.
Definition MEMPOOL : u8 := 6.
Definition SMART_CONTRACTS : u8 := 11.
Definition TX_ORDERING : u8 := 12.
Definition SHARDING : u8 := 14.

(** [StaticKeyProvider]: one secret for the subsystems 1 to 15. *)
Definition static_key_provider (default_secret : list u8) (sender_id : u8) : option (list u8) :=
  if (1 <=? sender_id) && (sender_id <=? 15) then Some default_secret else None.

Record TransactionData := {
  td_hash : Hash;
  td_from : Address;
  td_to : option Address;
  td_value : u128;
  td_nonce : u64
}.

Record BlockValidatedPayload := {
  bv_block_hash : Hash;
  bv_block_height : u64;
  bv_transactions : list TransactionData
}.

Record StateRootComputedPayload := {
  sc_block_hash : Hash;
  sc_block_height : u64;
  sc_state_root : Hash;
  sc_previous_state_root : Hash;
  sc_accounts_modified : u32;
  sc_storage_slots_modified : u32
}.

Record StateReadRequestPayload := {
  rd_address : Address;
  rd_storage_key : option Hash;
  rd_block_number : option u64
}.

Record StateReadResponsePayload := {
  rr_address : Address;
  rr_storage_key : option Hash;
  rr_value : option (list u8);
  rr_block_number : u64
}.

Record StateWriteRequestPayload := {
  wr_address : Address;
  wr_storage_key : Hash;
  wr_value : Hash;
  wr_block_height : u64;
  wr_tx_hash : Hash
}.

Record BalanceCheckRequestPayload := { bc_address : Address; bc_required_balance : u128 }.

Record BalanceCheckResponsePayload := {
  br_address : Address;
  br_has_sufficient_balance : bool;
  br_current_balance : u128;
  br_required_balance : u128
}.

Record ConflictDetectionResponsePayload := {
  cd_conflicts : list Conflicts.ConflictInfo;
  cd_total_transactions : nat;
  cd_conflicting_pairs : nat
}.

(** [v as i128] and the negation, which wraps at the least number. *)
Definition as_i128 (v : u128) : Z := if v <? 2 ^ 127 then v else v - 2 ^ 128.
Definition neg_i128 (x : Z) : Z := if x =? - 2 ^ 127 then x else - x.

Section handler.
Context (keccak256 : list u8 -> Hash) (hmac : list u8 -> list u8 -> Hash).
Context (key_provider : u8 -> option (list u8)).

Record IpcHandler := {
  nonce_cache : NonceCache;
  trie : PatriciaMerkleTrie;
  current_height : u64;
  state_roots : gmap u64 Hash
}.

Definition handler_with_config (cache : NonceCache) (c : StateConfig) : IpcHandler := {|
  nonce_cache := cache; trie := with_config c; current_height := 0; state_roots := ∅
|}.

Definition handler_new (cache : NonceCache) : IpcHandler := {|
  nonce_cache := cache; trie := new; current_height := 0; state_roots := ∅
|}.

Definition set_trie (h : IpcHandler) (t : PatriciaMerkleTrie) : IpcHandler := {|
  nonce_cache := nonce_cache h; trie := t; current_height := current_height h;
  state_roots := state_roots h
|}.

(** The verification and the check of the sender every handler begins with. *)
Definition check_message (now : u64) (instant : Z) (msg : AuthenticatedMessage) (bytes : list u8)
  (senders : list u8) (h : IpcHandler) : IpcHandler * result StateError unit :=
  let (cache, res) := verify hmac key_provider now instant msg bytes (nonce_cache h) in
  let h := {| nonce_cache := cache; trie := trie h; current_height := current_height h;
              state_roots := state_roots h |} in
  if negb (is_valid res) then (h, Err (UnauthorizedSender (am_sender_id msg)))
  else if negb (bool_decide (am_sender_id msg ∈ senders))
  then (h, Err (UnauthorizedSender (am_sender_id msg)))
  else (h, Ok tt).

(** The body of the loop over the transactions, with the counter of modified
    accounts. *)
Definition apply_transaction (tx : TransactionData) (t : PatriciaMerkleTrie) (modified : u32)
  : PatriciaMerkleTrie * result StateError u32 :=
  if td_value tx =? 0 then
    let? (t, u) := apply_nonce_increment keccak256 t (td_from tx) (td_nonce tx) in
    (t, Ok modified)
  else
    let? (t, u) := apply_balance_change keccak256 t (td_from tx) (neg_i128 (as_i128 (td_value tx))) in
    let modified := wrapping_add 32 modified 1 in
    let? (t, modified) :=
      match td_to tx with
      | Some to =>
          let? (t, u) := apply_balance_change keccak256 t to (as_i128 (td_value tx)) in
          (t, Ok (wrapping_add 32 modified 1))
      | None => (t, Ok modified)
      end in
    let? (t, u) := apply_nonce_increment keccak256 t (td_from tx) (td_nonce tx) in
    (t, Ok modified).

Fixpoint apply_transactions (txs : list TransactionData) (t : PatriciaMerkleTrie) (modified : u32)
  : PatriciaMerkleTrie * result StateError u32 :=
  match txs with
  | [] => (t, Ok modified)
  | tx :: txs => let? (t, modified) := apply_transaction tx t modified in apply_transactions txs t modified
  end.

(** An error in the loop returns with the changes made so far. *)
Definition handle_block_validated (now : u64) (instant : Z) (msg : AuthenticatedMessage)
  (bytes : list u8) (p : BlockValidatedPayload) (h : IpcHandler)
  : IpcHandler * result StateError StateRootComputedPayload :=
  let? (h, u) := check_message now instant msg bytes [CONSENSUS] h in
  let previous_root := root (trie h) in
  let (t, res) := apply_transactions (bv_transactions p) (trie h) 0 in
  let h := set_trie h t in
  let? (h, modified) := (h, res) in
  ({| nonce_cache := nonce_cache h; trie := trie h; current_height := bv_block_height p;
      state_roots := <[bv_block_height p := root (trie h)]> (state_roots h) |},
   Ok {| sc_block_hash := bv_block_hash p; sc_block_height := bv_block_height p;
         sc_state_root := root (trie h); sc_previous_state_root := previous_root;
         sc_accounts_modified := modified; sc_storage_slots_modified := 0 |}).

Definition handle_state_read (now : u64) (instant : Z) (msg : AuthenticatedMessage)
  (bytes : list u8) (p : StateReadRequestPayload) (h : IpcHandler)
  : IpcHandler * result StateError StateReadResponsePayload :=
  let? (h, u) := check_message now instant msg bytes
    [MEMPOOL; SMART_CONTRACTS; TX_ORDERING; SHARDING] h in
  let value := match rd_storage_key p with
    | Some key => hash_bytes <$> get_storage (trie h) (rd_address p) key
    | None => (fun acc => be_bytes 16 (balance acc) ++ be_bytes 8 (nonce acc))
        <$> get_account (trie h) (rd_address p)
    end in
  (h, Ok {| rr_address := rd_address p; rr_storage_key := rd_storage_key p; rr_value := value;
            rr_block_number := current_height h |}).

Definition handle_state_write (now : u64) (instant : Z) (msg : AuthenticatedMessage)
  (bytes : list u8) (p : StateWriteRequestPayload) (h : IpcHandler)
  : IpcHandler * result StateError unit :=
  let? (h, u) := check_message now instant msg bytes [SMART_CONTRACTS] h in
  let (t, res) := set_storage keccak256 (trie h) (wr_address p) (wr_storage_key p) (wr_value p) in
  (set_trie h t, res).

Definition handle_balance_check (now : u64) (instant : Z) (msg : AuthenticatedMessage)
  (bytes : list u8) (p : BalanceCheckRequestPayload) (h : IpcHandler)
  : IpcHandler * result StateError BalanceCheckResponsePayload :=
  let? (h, u) := check_message now instant msg bytes [MEMPOOL] h in
  let current_balance := get_balance (trie h) (bc_address p) in
  (h, Ok {| br_address := bc_address p;
            br_has_sufficient_balance := bc_required_balance p <=? current_balance;
            br_current_balance := current_balance; br_required_balance := bc_required_balance p |}).

Definition handle_conflict_detection (now : u64) (instant : Z) (msg : AuthenticatedMessage)
  (bytes : list u8) (transactions : list Conflicts.TransactionAccessPattern) (h : IpcHandler)
  : IpcHandler * result StateError ConflictDetectionResponsePayload :=
  let? (h, u) := check_message now instant msg bytes [TX_ORDERING] h in
  let conflicts := Conflicts.detect_conflicts transactions in
  (h, Ok {| cd_conflicts := conflicts; cd_total_transactions := length transactions;
            cd_conflicting_pairs := length conflicts |}).

End handler.

(** ** Balances *)

Definition add_balance (_ : Address) (s : AccountState) (acc : Z) : Z := balance s + acc.

Definition supply (t : PatriciaMerkleTrie) : Z := map_fold add_balance 0 (accounts t).

Definition balances_ok (t : PatriciaMerkleTrie) : Prop := forall a, in_width 128 (get_balance t a).

Lemma supply_fresh (m : gmap Address AccountState) a s : m !! a = None ->
  map_fold add_balance 0 (<[a := s]> m) = balance s + map_fold add_balance 0 m.
Proof.
  intros Hm. rewrite map_fold_insert_L; [done| |done]. intros. unfold add_balance. lia.
Qed.

Lemma supply_insert t t' a s : accounts t' = <[a := s]> (accounts t) ->
  supply t' = supply t - get_balance t a + balance s.
Proof.
  intros E. unfold supply, get_balance. rewrite E. destruct (accounts t !! a) as [s0|] eqn:Es.
  - rewrite <-insert_delete_eq. rewrite supply_fresh by apply lookup_delete_eq.
    rewrite <-(insert_delete_id _ _ _ Es) at 2. rewrite supply_fresh by apply lookup_delete_eq. lia.
  - rewrite supply_fresh by done. lia.
Qed.

Lemma fold_nonneg (m : gmap Address AccountState) :
  (forall b s, m !! b = Some s -> 0 <= balance s) -> 0 <= map_fold add_balance 0 m.
Proof.
  induction m as [|b s m Hm IH] using map_ind; intros Hb; [by rewrite map_fold_empty|].
  rewrite supply_fresh by done. assert (0 <= balance s) by (apply (Hb b); apply lookup_insert_eq).
  enough (0 <= map_fold add_balance 0 m) by lia. apply IH. intros c s' Hc. apply (Hb c).
  rewrite lookup_insert_ne; [done|]. congruence.
Qed.

Lemma balance_le_supply t a : balances_ok t -> 0 <= get_balance t a <= supply t.
Proof.
  intros Hb. split; [apply Hb|]. unfold supply.
  assert (Hn : forall b s, accounts t !! b = Some s -> 0 <= balance s).
  { intros b s Hs. specialize (Hb b). unfold get_balance in Hb. rewrite Hs in Hb. apply Hb. }
  unfold get_balance. destruct (accounts t !! a) as [s|] eqn:Es; [|by apply fold_nonneg].
  rewrite <-(insert_delete_id _ _ _ Es). rewrite supply_fresh by apply lookup_delete_eq.
  enough (0 <= map_fold add_balance 0 (delete a (accounts t))) by lia. apply fold_nonneg.
  intros b s' [_ Hb']%lookup_delete_Some. by eapply Hn.
Qed.

Section apply.
Context (keccak256 : list u8 -> Hash).
Context (Hwidth : forall l, in_width 256 (keccak256 l)).
Context (Haddr : forall a b, in_width 160 a -> in_width 160 b ->
  keccak256 (address_bytes a) = keccak256 (address_bytes b) -> a = b).

(** What an account is set to, seen through balances, nonces and the supply. *)
Lemma set_account_views t t' a s : accounts t' = <[a := s]> (accounts t) ->
  (forall b, get_balance t' b = if decide (b = a) then balance s else get_balance t b)
  /\ (forall b, get_nonce t' b = if decide (b = a) then nonce s else get_nonce t b)
  /\ supply t' = supply t - get_balance t a + balance s.
Proof.
  intros E. split_and!; [..|by apply supply_insert]; intros b; unfold get_balance, get_nonce; rewrite E;
    (case_decide; [subst; by rewrite lookup_insert_eq|by rewrite lookup_insert_ne]).
Qed.

Lemma account_entry_views t a :
  balance (account_entry t a) = get_balance t a /\ nonce (account_entry t a) = get_nonce t a.
Proof. unfold account_entry, get_balance, get_nonce. by destruct (accounts t !! a). Qed.

Record state_ok (t : PatriciaMerkleTrie) : Prop := {
  so_trie : trie_inv keccak256 t;
  so_balances : balances_ok t
}.

(** A change of a balance. *)
Lemma balance_change_spec t a delta : state_ok t -> in_width 160 a -> - 2 ^ 127 <= delta < 2 ^ 127 ->
  let r := apply_balance_change keccak256 t a delta in
  state_ok r.1 /\
  ((r.1 = t /\ get_balance t a + delta < 0 /\ exists e, r.2 = Err e)
   \/ (r.2 = Ok tt /\ 0 <= get_balance t a + delta
       /\ let b' := Z.min (get_balance t a + delta) (2 ^ 128 - 1) in
          (forall b, get_balance r.1 b = if decide (b = a) then b' else get_balance t b)
          /\ (forall b, get_nonce r.1 b = get_nonce t b)
          /\ supply r.1 = supply t - get_balance t a + b')).
Proof.
  intros [Hi Hb] Ha Hd. cbn zeta. pose proof (Hb a) as Hba. unfold in_width in Hba.
  destruct (account_entry_views t a) as [_ En].
  assert (Hset : forall b', in_width 128 b' ->
    let r := set_balance keccak256 t a b' in
    state_ok r.1 /\ r.2 = Ok tt
    /\ (forall b, get_balance r.1 b = if decide (b = a) then b' else get_balance t b)
    /\ (forall b, get_nonce r.1 b = get_nonce t b)
    /\ supply r.1 = supply t - get_balance t a + b').
  { intros b' Hw. unfold set_balance. cbn zeta.
    destruct (set_account_inv keccak256 Hwidth Haddr t a {| balance := b'; nonce := nonce (account_entry t a);
      code_hash := code_hash (account_entry t a); storage_root := storage_root (account_entry t a) |} Hi Ha)
      as (I1 & I2 & I3 & _).
    destruct (set_account_views t _ a _ I3) as (V1 & V2 & V3). cbn [balance nonce] in V1, V2, V3.
    split_and!; [|done|exact V1| |exact V3].
    - split; [done|]. intros b. rewrite V1. case_decide; [done|apply Hb].
    - intros b. rewrite V2. case_decide; [by subst|done]. }
  unfold apply_balance_change, saturating_add. destruct (0 <=? delta) eqn:E; bools.
  - destruct (Hset (Z.min (get_balance t a + delta) (2 ^ 128 - 1))) as (S1 & S2 & S3 & S4 & S5);
      [unfold in_width; lia|]. split; [done|]. right.
    split_and!; [exact S2|lia|exact S3|exact S4|exact S5].
  - rewrite Z.mod_small by lia. destruct (get_balance t a <? - delta) eqn:E2; bools.
    + split; [by split|]. left. split_and!; [done|lia|by eexists].
    + destruct (Hset (get_balance t a - - delta)) as (S1 & S2 & S3 & S4 & S5); [unfold in_width; lia|].
      rewrite Z.min_l by lia. replace (get_balance t a + delta) with (get_balance t a - - delta) by lia.
      split; [done|]. right.
      split_and!; [exact S2|lia|exact S3|exact S4|exact S5].
Qed.

(** An increment of a nonce. *)
Lemma nonce_increment_spec t a n : state_ok t -> in_width 160 a ->
  let r := apply_nonce_increment keccak256 t a n in
  state_ok r.1 /\ (forall b, get_balance r.1 b = get_balance t b) /\ supply r.1 = supply t
  /\ ((exists e, r.2 = Err e)
      \/ (r.2 = Ok tt /\ get_nonce t a = n
          /\ forall b, get_nonce r.1 b = if decide (b = a) then n + 1 else get_nonce t b)).
Proof.
  intros [Hi Hb] Ha. cbn zeta.
  pose proof (trie_op_inv keccak256 Hwidth Haddr t (OpNonceIncrement a n) Hi Ha) as [Hinv Hp].
  cbn [run_op] in Hinv, Hp. destruct (account_entry_views t a) as [Eb En].
  unfold apply_nonce_increment in *. destruct (get_nonce t a =? n) eqn:E; bools; cbn [negb] in *.
  2:{ destruct (_ <? _); cbn; (split_and!; [by split|done|done|left; by eexists]). }
  unfold increment_nonce in *. destruct (nonce (account_entry t a) =? 2 ^ 64 - 1) eqn:E2; bools.
  - destruct (set_account_views t (set_accounts t (<[a := account_entry t a]> (accounts t))) a
      (account_entry t a) eq_refl) as (V1 & _ & V3).
    assert (Hsame : forall b, get_balance (set_accounts t (<[a := account_entry t a]> (accounts t))) b
      = get_balance t b) by (intros b; rewrite V1; case_decide; by subst).
    split_and!; [split; [exact Hinv|intros b; cbn [fst]; rewrite Hsame; apply Hb]|done| |left; by eexists].
    cbn [fst]. rewrite V3, Eb. lia.
  - destruct (set_account_inv keccak256 Hwidth Haddr t a {| balance := balance (account_entry t a);
      nonce := nonce (account_entry t a) + 1; code_hash := code_hash (account_entry t a);
      storage_root := storage_root (account_entry t a) |} Hi Ha) as (I1 & I2 & I3 & _).
    destruct (set_account_views t _ a _ I3) as (V1 & V2 & V3). cbn [balance nonce] in V1, V2, V3.
    assert (Hsame : forall b, get_balance (rebuilt keccak256 (set_accounts t (<[a := {|
        balance := balance (account_entry t a); nonce := nonce (account_entry t a) + 1;
        code_hash := code_hash (account_entry t a); storage_root := storage_root (account_entry t a)
      |}]> (accounts t)))).1 b = get_balance t b).
    { intros b. rewrite V1. case_decide; by subst. }
    split_and!; [split; [done|intros b; rewrite Hsame; apply Hb]|exact Hsame|rewrite V3, Eb; lia|].
    right. split_and!; [done|done|]. intros b. rewrite V2, En. case_decide; [lia|done].
Qed.

(** What a list of transactions moves. *)
Definition sent_by (a : Address) (tx : TransactionData) : Z :=
  if decide (td_from tx = a) then td_value tx else 0.
Definition received_by (a : Address) (tx : TransactionData) : Z :=
  if decide (td_to tx = Some a) then td_value tx else 0.
Definition counted_for (a : Address) (tx : TransactionData) : Z :=
  if decide (td_from tx = a) then 1 else 0.
Definition total {A} (f : A -> Z) (l : list A) : Z := foldr (fun x acc => f x + acc) 0 l.

(** Addresses of 20 bytes and a value below half the range of its type. *)
Definition tx_in_range (tx : TransactionData) : Prop :=
  in_width 160 (td_from tx) /\ (forall to, td_to tx = Some to -> in_width 160 to)
  /\ 0 <= td_value tx < 2 ^ 127.

(** The effect of a list of transactions that succeeds: each account pays what it
    sends, gets what it is sent, and its nonce counts its transactions. *)
Definition moved (txs : list TransactionData) (t t' : PatriciaMerkleTrie) : Prop :=
  forall a, get_balance t' a = get_balance t a - total (sent_by a) txs + total (received_by a) txs
    /\ get_nonce t' a = get_nonce t a + total (counted_for a) txs.

Lemma i128_small v : 0 <= v < 2 ^ 127 -> as_i128 v = v /\ neg_i128 v = - v.
Proof.
  intros Hv. unfold as_i128, neg_i128. rewrite (proj2 (Z.ltb_lt _ _)) by lia.
  by rewrite (proj2 (Z.eqb_neq _ _)) by lia.
Qed.

Lemma apply_transaction_spec tx t n : state_ok t -> tx_in_range tx ->
  let r := apply_transaction keccak256 tx t n in
  state_ok r.1 /\ r.2 <> Panic /\ supply r.1 <= supply t
  /\ (is_ok r.2 = true -> supply t < 2 ^ 128 -> moved [tx] t r.1).
Proof.
  intros Hs (Hf & Ht & Hv). cbn zeta. unfold apply_transaction.
  destruct (i128_small _ Hv) as [-> ->]. destruct (td_value tx =? 0) eqn:E0; bools.
  - destruct (nonce_increment_spec t (td_from tx) (td_nonce tx) Hs Hf) as (N1 & N2 & N3 & N4).
    destruct (apply_nonce_increment keccak256 t (td_from tx) (td_nonce tx)) as [t1 r1]. cbn [fst snd] in *.
    destruct N4 as [[e ->]|(-> & Hn & N4)]; cbn [sbind fst snd]; (split_and!; [done|done|lia|]); [done|].
    intros _ _ a. rewrite N2, N4. unfold total, sent_by, received_by, counted_for. cbn.
    rewrite E0. repeat case_decide; subst; try (split; lia); congruence.
  - destruct (balance_change_spec t (td_from tx) (- td_value tx) Hs Hf) as (S1 & C1); [lia|].
    destruct (apply_balance_change keccak256 t (td_from tx) (- td_value tx)) as [t1 r1].
    cbn [fst snd] in S1, C1.
    destruct C1 as [(-> & _ & [e ->])|(-> & G1 & B1 & K1 & P1)]; cbn [sbind fst snd];
      [by split_and!; [|done|lia|]|].
    pose proof (so_balances _ Hs (td_from tx)) as Hb1. unfold in_width in Hb1.
    rewrite Z.min_l in B1, P1 by lia.
    assert (Hto : exists t2 r2, (match td_to tx with
        | Some to => sbind (apply_balance_change keccak256 t1 to (td_value tx))
            (fun t _ => (t, Ok (wrapping_add 32 (wrapping_add 32 n 1) 1)))
        | None => (t1, Ok (wrapping_add 32 n 1))
        end) = (t2, Ok r2) /\ state_ok t2 /\ supply t2 <= supply t
      /\ (forall b, get_nonce t2 b = get_nonce t b)
      /\ (supply t < 2 ^ 128 -> forall b, get_balance t2 b = get_balance t1 b + received_by b tx)).
    { unfold received_by. destruct (td_to tx) as [to|] eqn:Eto.
      - destruct (balance_change_spec t1 to (td_value tx) S1 (Ht to eq_refl)) as (S2 & C2); [lia|].
        destruct (apply_balance_change keccak256 t1 to (td_value tx)) as [t2 r2]. cbn [fst snd] in S2, C2.
        pose proof (balance_le_supply t1 to (so_balances _ S1)) as Hle.
        destruct C2 as [(_ & Hneg & _)|(-> & G2 & B2 & K2 & P2)]; [lia|].
        exists t2. eexists. split; [reflexivity|]. split_and!; [done|lia|by intros; rewrite K2|].
        intros Hsup b. rewrite B2. destruct (decide (b = to)) as [->|Hne].
        + rewrite decide_True by done. lia.
        + rewrite decide_False by congruence. lia.
      - exists t1. eexists. split_and!; [reflexivity|done|lia|done|]. intros _ b.
        rewrite decide_False by done. lia. }
    destruct Hto as (t2 & r2 & -> & S2 & P2 & K2 & B2). cbn [sbind].
    destruct (nonce_increment_spec t2 (td_from tx) (td_nonce tx) S2 Hf) as (N1 & N2 & N3 & N4).
    destruct (apply_nonce_increment keccak256 t2 (td_from tx) (td_nonce tx)) as [t3 r3]. cbn [fst snd] in *.
    destruct N4 as [[e ->]|(-> & Hn & N4)]; cbn [sbind fst snd]; (split_and!; [done|done|lia|]); [done|].
    intros _ Hsup a. rewrite N2, N4, B2, B1 by done. rewrite K2 in Hn. rewrite K2.
    unfold total, sent_by, counted_for. cbn. repeat case_decide; subst; try (split; lia); congruence.
Qed.

Lemma moved_cons tx txs t1 t2 t3 : moved [tx] t1 t2 -> moved txs t2 t3 -> moved (tx :: txs) t1 t3.
Proof.
  intros H1 H2 a. destruct (H1 a) as [B1 N1], (H2 a) as [B2 N2]. unfold total in *. cbn in *.
  split; lia.
Qed.

Lemma apply_transactions_spec txs : forall t n, state_ok t -> Forall tx_in_range txs ->
  let r := apply_transactions keccak256 txs t n in
  state_ok r.1 /\ r.2 <> Panic /\ supply r.1 <= supply t
  /\ (is_ok r.2 = true -> supply t < 2 ^ 128 -> moved txs t r.1).
Proof.
  induction txs as [|tx txs IH]; intros t n Hs Hr; cbn zeta; cbn [apply_transactions].
  { split_and!; [done|done|done|]. intros _ _ a. unfold total. cbn. split; lia. }
  apply Forall_cons in Hr as [Htx Hr].
  destruct (apply_transaction_spec tx t n Hs Htx) as (S1 & P1 & L1 & M1).
  destruct (apply_transaction keccak256 tx t n) as [t1 [m|e|]]; cbn [fst snd sbind is_ok] in *; [|done..].
  destruct (IH t1 m S1 Hr) as (S2 & P2 & L2 & M2). split_and!; [done|done|lia|].
  intros Hok Hsup. eapply moved_cons; [by apply M1|]. apply M2; [done|lia].
Qed.

(** Addresses of 20 bytes and a value of its type. *)
Definition tx_typed (tx : TransactionData) : Prop :=
  in_width 160 (td_from tx) /\ (forall to, td_to tx = Some to -> in_width 160 to)
  /\ in_width 128 (td_value tx).

Lemma tx_in_range_typed tx : tx_in_range tx -> tx_typed tx.
Proof. intros (? & ? & Hv). split; [done|]. split; [done|]. unfold in_width. lia. Qed.

Lemma tx_typed_small tx : tx_typed tx -> td_value tx < 2 ^ 127 -> tx_in_range tx.
Proof. intros (? & ? & Hv) ?. split; [done|]. split; [done|]. unfold in_width in Hv. lia. Qed.

(** Whatever the value, a transaction keeps the trie consistent and returns. *)
Lemma apply_transaction_safe tx t n : state_ok t -> tx_typed tx ->
  let r := apply_transaction keccak256 tx t n in state_ok r.1 /\ r.2 <> Panic.
Proof.
  intros Hs (Hf & Ht & Hv). cbn zeta. unfold apply_transaction.
  assert (Hi : - 2 ^ 127 <= as_i128 (td_value tx) < 2 ^ 127
    /\ - 2 ^ 127 <= neg_i128 (as_i128 (td_value tx)) < 2 ^ 127).
  { unfold as_i128, neg_i128, in_width in *. repeat case_match; bools; lia. }
  destruct Hi as [Hi Hn].
  assert (Hnonce : forall t k, state_ok t ->
    let r := sbind (apply_nonce_increment keccak256 t (td_from tx) (td_nonce tx))
      (fun t _ => (t, Ok k : result StateError u32)) in state_ok r.1 /\ r.2 <> Panic).
  { intros t' k Hs'. destruct (nonce_increment_spec t' (td_from tx) (td_nonce tx) Hs' Hf) as (N1 & _ & _ & N4).
    destruct (apply_nonce_increment _ _ _ _) as [t1 r1]. cbn [fst snd] in *.
    by destruct N4 as [[e ->]|(-> & _)]. }
  destruct (td_value tx =? 0); [by apply Hnonce|].
  destruct (balance_change_spec t (td_from tx) (neg_i128 (as_i128 (td_value tx))) Hs Hf Hn) as (S1 & C1).
  destruct (apply_balance_change keccak256 t (td_from tx) _) as [t1 r1]. cbn [fst snd] in S1, C1.
  destruct C1 as [(-> & _ & [e ->])|(-> & _)]; cbn [sbind fst snd]; [done|].
  destruct (td_to tx) as [to|]; [|by apply Hnonce].
  destruct (balance_change_spec t1 to (as_i128 (td_value tx)) S1 (Ht to eq_refl) Hi) as (S2 & C2).
  destruct (apply_balance_change keccak256 t1 to _) as [t2 r2]. cbn [fst snd] in S2, C2.
  destruct C2 as [(-> & _ & [e ->])|(-> & _)]; cbn [sbind fst snd]; [done|by apply Hnonce].
Qed.

Lemma apply_transactions_safe txs : forall t n, state_ok t -> Forall tx_typed txs ->
  let r := apply_transactions keccak256 txs t n in state_ok r.1 /\ r.2 <> Panic.
Proof.
  induction txs as [|tx txs IH]; intros t n Hs Hr; cbn zeta; cbn [apply_transactions]; [done|].
  apply Forall_cons in Hr as [Htx Hr]. destruct (apply_transaction_safe tx t n Hs Htx) as [S1 P1].
  destruct (apply_transaction keccak256 tx t n) as [t1 [m|e|]]; cbn [fst snd sbind] in *; [|done..].
  by apply IH.
Qed.

(** ** The handlers *)

Context (hmac : list u8 -> list u8 -> Hash) (key_provider : u8 -> option (list u8)).

(** A message that passes: valid for the shared verifier, from one of the senders. *)
Definition accepted (now : u64) (instant : Z) (msg : AuthenticatedMessage) (bytes : list u8)
  (senders : list u8) (h : IpcHandler) : Prop :=
  is_valid (verify hmac key_provider now instant msg bytes (nonce_cache h)).2 = true
  /\ am_sender_id msg ∈ senders.

Lemma check_message_cases now instant msg bytes senders h :
  exists h', trie h' = trie h /\ current_height h' = current_height h /\ state_roots h' = state_roots h
    /\ ((accepted now instant msg bytes senders h
          /\ check_message hmac key_provider now instant msg bytes senders h = (h', Ok tt))
        \/ check_message hmac key_provider now instant msg bytes senders h
           = (h', Err (UnauthorizedSender (am_sender_id msg)))).
Proof.
  unfold check_message, accepted.
  destruct (verify hmac key_provider now instant msg bytes (nonce_cache h)) as [c res].
  eexists {| nonce_cache := c; trie := trie h |}. cbn [fst snd]. split_and!; [done..|].
  destruct (is_valid res); cbn [negb]; [|by right].
  case_bool_decide; cbn [negb]; [by left|by right].
Qed.

(** C24 (functional): a validated block moves money exactly.  In a consistent trie
    with balances in range, a block is answered without a panic, the trie stays
    consistent, and it changes only for a message that the shared verifier
    accepts and that consensus sent.  When the block is answered, the answer and
    the table of roots have the root of the new trie.  If the values of the block
    are below [2^127] (larger ones turn negative in the code), the sum of all
    balances never increases; and if moreover that sum fits 128 bits and the block
    is answered, every account has paid exactly what it sent and received exactly
    what was sent to it, and its nonce has grown by the number of its
    transactions. *)
Theorem block_moves_exactly now instant msg bytes p h
  (Hh : state_ok (trie h)) (Hp : Forall tx_typed (bv_transactions p)) :
  let out := handle_block_validated keccak256 hmac key_provider now instant msg bytes p h in
  let small := Forall (fun tx => td_value tx < 2 ^ 127) (bv_transactions p) in
  out.2 <> Panic
  /\ state_ok (trie out.1)
  /\ (trie out.1 <> trie h -> accepted now instant msg bytes [CONSENSUS] h)
  /\ (small -> supply (trie out.1) <= supply (trie h))
  /\ (forall a, out.2 = Ok a ->
        sc_state_root a = root (trie out.1) /\ sc_previous_state_root a = root (trie h)
        /\ state_roots out.1 !! bv_block_height p = Some (root (trie out.1))
        /\ (small -> supply (trie h) < 2 ^ 128 -> moved (bv_transactions p) (trie h) (trie out.1))).
Proof.
  cbn zeta. unfold handle_block_validated.
  destruct (check_message_cases now instant msg bytes [CONSENSUS] h)
    as (h' & Et & Eh & Er & [[Ha ->]| ->]); cbn [sbind fst snd].
  2:{ rewrite Et. split_and!; [done|done|done|intros _; reflexivity|done]. }
  rewrite Et. destruct (apply_transactions_safe (bv_transactions p) (trie h) 0 Hh Hp) as (S1 & P1).
  assert (Hsm : Forall (fun tx => td_value tx < 2 ^ 127) (bv_transactions p) ->
    let r := apply_transactions keccak256 (bv_transactions p) (trie h) 0 in
    supply r.1 <= supply (trie h)
    /\ (is_ok r.2 = true -> supply (trie h) < 2 ^ 128 -> moved (bv_transactions p) (trie h) r.1)).
  { intros Hs. apply apply_transactions_spec; [done|]. apply Forall_forall. intros tx Htx.
    rewrite Forall_forall in Hp, Hs. apply tx_typed_small; auto. }
  destruct (apply_transactions keccak256 (bv_transactions p) (trie h) 0) as [t [m|e|]];
    cbn [sbind fst snd set_trie trie state_roots is_ok] in *;
    [|split_and!; [done|done|done|apply Hsm|done]..].
  split_and!; [done|done|done|apply Hsm|]. intros a [= <-]. cbn. split_and!; [done|done| |].
  - apply lookup_insert_eq.
  - intros Hs. by apply Hsm.
Qed.

(** A write changes no balance. *)
Lemma set_storage_balances t c k v a :
  get_balance (set_storage keccak256 t c k v).1 a = get_balance t a.
Proof.
  unfold set_storage. destruct (_ && _)%bool; [done|]. cbn zeta.
  unfold get_balance. rewrite (proj1 (rebuilt_accounts keccak256 _)). unfold refresh_storage_root.
  cbn [accounts set_storage_maps storage]. destruct (accounts t !! c) as [s|] eqn:Es; [|done].
  cbn [accounts set_accounts]. destruct (decide (a = c)) as [->|Hne].
  - by rewrite lookup_insert_eq, Es.
  - by rewrite lookup_insert_ne.
Qed.

Lemma set_storage_supply t c k v : supply (set_storage keccak256 t c k v).1 = supply t.
Proof.
  unfold set_storage. destruct (_ && _)%bool; [done|]. cbn zeta.
  unfold supply at 1. rewrite (proj1 (rebuilt_accounts keccak256 _)). unfold refresh_storage_root.
  cbn [accounts set_storage_maps storage]. destruct (accounts t !! c) as [s|] eqn:Es; [|done].
  cbn [accounts set_accounts].
  match goal with |- map_fold _ _ (<[c := ?s']> _) = _ =>
    pose proof (supply_insert t (set_accounts t (<[c := s']> (accounts t))) c s' eq_refl) as H end.
  unfold supply at 1 in H. cbn [accounts set_accounts balance] in H. rewrite H.
  unfold get_balance. rewrite Es. lia.
Qed.

Inductive Request :=
| BlockValidated (p : BlockValidatedPayload)
| StateRead (p : StateReadRequestPayload)
| StateWrite (p : StateWriteRequestPayload)
| BalanceCheck (p : BalanceCheckRequestPayload)
| ConflictDetection (transactions : list Conflicts.TransactionAccessPattern).

(** A message as it arrives: both clocks, the envelope, its bytes and the request. *)
Definition serve (c : u64 * Z * AuthenticatedMessage * list u8 * Request) (h : IpcHandler) : IpcHandler :=
  let '(now, instant, msg, bytes, req) := c in
  match req with
  | BlockValidated p => (handle_block_validated keccak256 hmac key_provider now instant msg bytes p h).1
  | StateRead p => (handle_state_read hmac key_provider now instant msg bytes p h).1
  | StateWrite p => (handle_state_write keccak256 hmac key_provider now instant msg bytes p h).1
  | BalanceCheck p => (handle_balance_check hmac key_provider now instant msg bytes p h).1
  | ConflictDetection l => (handle_conflict_detection hmac key_provider now instant msg bytes l h).1
  end.

Definition request_in_range (r : Request) : Prop :=
  match r with BlockValidated p => Forall tx_in_range (bv_transactions p) | _ => True end.

Lemma state_serve_ok c h : state_ok (trie h) -> request_in_range c.2 ->
  state_ok (trie (serve c h)) /\ supply (trie (serve c h)) <= supply (trie h).
Proof.
  destruct c as [[[[now instant] msg] bytes] req]. intros Hh Hr. cbn [snd] in Hr.
  assert (Hread : forall senders {A} (k : IpcHandler -> unit -> IpcHandler * result StateError A),
    (forall h' u, trie (k h' u).1 = trie h') ->
    trie (sbind (check_message hmac key_provider now instant msg bytes senders h) k).1 = trie h).
  { intros senders A k Hk. destruct (check_message_cases now instant msg bytes senders h)
      as (h' & Et & _ & _ & [[_ ->]| ->]); cbn [sbind fst]; [by rewrite Hk|done]. }
  destruct req as [p|p|p|p|l]; cbn [serve].
  - destruct (apply_transactions_spec (bv_transactions p) (trie h) 0 Hh Hr) as (S1 & _ & L1 & _).
    unfold handle_block_validated.
    destruct (check_message_cases now instant msg bytes [CONSENSUS] h)
      as (h' & Et & _ & _ & [[_ ->]| ->]); cbn [sbind fst]; rewrite Et; [|split; [done|lia]].
    by destruct (apply_transactions keccak256 (bv_transactions p) (trie h) 0) as [t [m|e|]].
  - unfold handle_state_read. rewrite Hread by done. split; [done|lia].
  - unfold handle_state_write. destruct (check_message_cases now instant msg bytes [SMART_CONTRACTS] h)
      as (h' & Et & _ & _ & [[_ ->]| ->]); cbn [sbind fst]; rewrite Et; [|split; [done|lia]].
    pose proof (set_storage_supply (trie h) (wr_address p) (wr_storage_key p) (wr_value p)) as Hsup.
    pose proof (set_storage_balances (trie h) (wr_address p) (wr_storage_key p) (wr_value p)) as Hbal.
    destruct (set_storage_inv keccak256 Hwidth Haddr (trie h) (wr_address p) (wr_storage_key p) (wr_value p)
      (so_trie _ Hh)) as (Hi & _).
    destruct (set_storage keccak256 _ _ _ _) as [t res]. cbn [fst set_trie trie] in *.
    split; [|lia]. split; [done|]. intros a. rewrite Hbal. apply Hh.
  - unfold handle_balance_check. rewrite Hread by done. split; [done|lia].
  - unfold handle_conflict_detection. rewrite Hread by done. split; [done|lia].
Qed.

(** No sequence of messages creates money.  Whatever messages reach a
    handler, genuine or forged, whose values are below [2^127], its trie is the
    one rebuilt from its accounts with balances in range, and the sum of its
    balances is at most what the handler started with; a new handler starts
    with nothing, so all its balances stay zero. *)
Theorem messages_mint_nothing h calls (Hh : state_ok (trie h))
  (Hr : Forall (fun c => request_in_range c.2) calls) :
  let h' := foldl (fun h c => serve c h) h calls in
  state_ok (trie h') /\ supply (trie h') <= supply (trie h)
  /\ (forall cache c, h = handler_with_config cache c -> forall a, get_balance (trie h') a = 0).
Proof.
  cbn zeta. assert (H : state_ok (trie (foldl (fun h c => serve c h) h calls))
    /\ supply (trie (foldl (fun h c => serve c h) h calls)) <= supply (trie h)).
  { revert h Hh. induction Hr as [|c calls Hc Hr IH]; intros h Hh; [split; [done|reflexivity]|]. cbn [foldl].
    destruct (state_serve_ok c h Hh Hc) as [S1 L1]. destruct (IH _ S1) as [S2 L2]. split; [done|lia]. }
  destruct H as [S L]. split_and!; [done|done|]. intros cache c -> a.
  pose proof (balance_le_supply _ a (so_balances _ S)) as Ha.
  assert (supply (trie (handler_with_config cache c)) = 0) by (apply map_fold_empty). lia.
Qed.

Lemma handler_new_ok cache c : state_ok (trie (handler_with_config cache c)).
Proof. split; [apply new_inv|]. intros a. unfold get_balance. cbn. by rewrite lookup_empty. Qed.

End apply.

(** ** Examples *)

Definition genuine (sender nonce : Z) : AuthenticatedMessage := {|
  am_version := 1; am_sender_id := sender; am_recipient_id := 4; am_correlation_id := nonce;
  am_reply_to := None; am_timestamp := 100; am_nonce := nonce; am_signature := hash_bytes 0
|}.

Definition example_keys : u8 -> option (list u8) := static_key_provider [].

Definition pay (from : Address) (to : option Address) (v n : Z) : TransactionData :=
  {| td_hash := 0; td_from := from; td_to := to; td_value := v; td_nonce := n |}.

Lemma pay_in_range from to v n : in_width 160 from ->
  match to with Some a => in_width 160 a | None => True end -> 0 <= v < 2 ^ 127 ->
  tx_in_range (pay from to v n).
Proof.
  intros Hf Ht Hv. split; [exact Hf|]. split; [|exact Hv]. intros a Ha. cbn in Ha. by subst to.
Qed.

Definition block (txs : list TransactionData) : BlockValidatedPayload :=
  {| bv_block_hash := 0; bv_block_height := 1; bv_transactions := txs |}.

(** Discharges the ranges of example transactions. *)
Local Ltac payments :=
  cbn [bv_transactions block]; repeat apply Forall_cons_2; try apply Forall_nil_2;
  apply pay_in_range; unfold in_width; try lia.

(** A handler over a trie with an account that has 100. *)
Definition funded : IpcHandler := {|
  nonce_cache := ∅; trie := (set_balance toy_keccak new 17 100).1; current_height := 0; state_roots := ∅
|}.

Lemma funded_ok : state_ok toy_keccak (trie funded).
Proof.
  destruct (balance_change_spec toy_keccak toy_width toy_addresses new 17 100) as [H _].
  - apply (handler_new_ok toy_keccak ∅ state_config_default).
  - done.
  - lia.
  - exact H.
Qed.

Lemma block_moves_exactly_witness :
  let out := handle_block_validated toy_keccak zero_hmac example_keys 100 0 (genuine 8 1) []
    (block [pay 17 (Some 18) 30 0; pay 18 None 5 0; pay 17 (Some 17) 1 1]) funded in
  is_ok out.2 = true /\ get_balance (trie out.1) 17 = 70 /\ get_balance (trie out.1) 18 = 25
  /\ supply (trie out.1) <= supply (trie funded).
Proof.
  pose proof (block_moves_exactly toy_keccak toy_width toy_addresses zero_hmac example_keys 100 0
    (genuine 8 1) [] (block [pay 17 (Some 18) 30 0; pay 18 None 5 0; pay 17 (Some 17) 1 1]) funded
    funded_ok) as H.
  cbn zeta in H |- *. split_and!; [by vm_compute|by vm_compute|by vm_compute|].
  apply H.
  - cbn [bv_transactions block]; repeat apply Forall_cons_2; try apply Forall_nil_2;
      apply tx_in_range_typed, pay_in_range; unfold in_width; try lia; exact I.
  - cbn [bv_transactions block]; repeat apply Forall_cons_2; try apply Forall_nil_2; cbn; lia.
Defined.

Lemma messages_mint_nothing_witness :
  let h := foldl (fun h c => serve toy_keccak zero_hmac example_keys c h) (handler_new ∅)
    [(100, 0, genuine 11 1, [], StateWrite {| wr_address := 17; wr_storage_key := 1; wr_value := 2;
        wr_block_height := 1; wr_tx_hash := 0 |});
     (100, 1, genuine 8 2, [], BlockValidated (block [pay 17 (Some 18) 30 0]))] in
  get_storage (trie h) 17 1 = Some 2 /\ forall a, get_balance (trie h) a = 0.
Proof.
  split; [by vm_compute|]. intros a.
  apply (messages_mint_nothing toy_keccak toy_width toy_addresses zero_hmac example_keys (handler_new ∅)
    [(100, 0, genuine 11 1, [], StateWrite {| wr_address := 17; wr_storage_key := 1; wr_value := 2;
        wr_block_height := 1; wr_tx_hash := 0 |});
     (100, 1, genuine 8 2, [], BlockValidated (block [pay 17 (Some 18) 30 0]))]
    (handler_new_ok toy_keccak ∅ state_config_default)) with (cache := ∅) (c := state_config_default).
  - apply Forall_cons. split; [done|]. apply Forall_singleton. cbn. payments.
  - reflexivity.
Defined.

(** A value of [2^128 - 100] is -100 as a signed number: the sender is credited. *)
Example huge_value_mints :
  let out := handle_block_validated toy_keccak zero_hmac example_keys 100 0 (genuine 8 1) []
    (block [pay 17 None (2 ^ 128 - 100) 0]) (handler_new ∅) in
  is_ok out.2 = true /\ get_balance (trie out.1) 17 = 100.
Proof. by vm_compute. Qed.

(** A block whose second transaction fails is refused, but the first is in the
    trie, and the root of the trie is not in the table of roots. *)
Example failed_block_half_applied :
  let out := handle_block_validated toy_keccak zero_hmac example_keys 100 0 (genuine 8 1) []
    (block [pay 17 (Some 18) 30 0; pay 17 (Some 18) 500 1]) funded in
  is_ok out.2 = false /\ get_balance (trie out.1) 17 = 70 /\ get_balance (trie out.1) 18 = 30
  /\ state_roots out.1 !! 1 = None.
Proof. by vm_compute. Qed.

(** A debit stays although the nonce of its transaction is refused. *)
Example wrong_nonce_still_pays :
  let out := handle_block_validated toy_keccak zero_hmac example_keys 100 0 (genuine 8 1) []
    (block [pay 17 (Some 18) 30 9]) funded in
  is_ok out.2 = false /\ get_balance (trie out.1) 17 = 70.
Proof. by vm_compute. Qed.
