(* ===== verification/Mining.v ===== *)
(** * Block production: genesis, the mining engine and the producer

    [qc-17-block-production]: genesis and coinbase transactions of
    [domain/genesis.rs] (Module [Genesis]) and the producer of [service.rs] with
    its mining task (Module [Producer]); [qc-compute]: the CPU engine of
    [backends/cpu.rs] as its threads run it (Module [Engine]); the threads of
    [PoWMiner::mine_block] in [domain/services.rs] (Module [Miner]).

    SHA-256 is an argument.  A mining task is modelled one round at a time: the
    clock, the number of compute units and the scheduler that picks the thread that
    makes the next access are arguments of the round, and the round runs the engine
    and then the miner under that scheduler (Module [Scheduler]).  The OpenCL engine,
    waiting, logging and the estimate of the hash rate are left out. *)

From S2P Require Import Prelude Production Difficulty Blocks.
From stdpp Require Import strings.
Local Open Scope Z_scope.
Local Open Scope qc_scope.

(** ** [domain/genesis.rs] *)

Module Genesis.

Inductive GenesisError := InvalidConfig | AlreadyExists | InvalidAmount.

(** Without the validators, which nothing here reads. *)
Record GenesisConfig := {
  chain_id : u64;
  gc_timestamp : u64;
  allocations : list (Address * U256);
  total_supply : U256
}.

(** [U256::as_u64] panics when the number does not fit. *)
Definition as_u64 {E} (x : U256) : result E u64 := if x <? 2 ^ 64 then Ok x else Panic.

Definition address_to_pubkey (address : Address) : list u8 := address_bytes address ++ replicate 12 0.

(** The digits of a [u64]: there are at most 20. *)
Fixpoint digits (fuel : nat) (x : Z) (acc : list u8) : list u8 :=
  match fuel with
  | O => acc
  | S fuel => let acc := 48 + x mod 10 :: acc in
              if x / 10 =? 0 then acc else digits fuel (x / 10) acc
  end.

Definition text (s : string) : list u8 := (fun c => Z.of_N (Ascii.N_of_ascii c)) <$> String.list_ascii_of_string s.

Section genesis.
Context (sha256 : list u8 -> Hash).

Definition calculate_transaction_hash (tx : Transaction) : Hash :=
  sha256 (rt_from tx ++ match rt_to tx with Some to => to | None => [] end
    ++ le_bytes 8 (rt_value tx) ++ le_bytes 8 (rt_nonce tx) ++ rt_data tx).

Definition create_genesis_transaction (recipient : Address) (amount : U256)
  : result GenesisError ValidatedTransaction :=
  let? value := as_u64 amount in
  let tx := {| rt_from := replicate 32 0; rt_to := Some (address_to_pubkey recipient);
               rt_value := value; rt_nonce := 0; rt_data := text "GENESIS";
               rt_signature := replicate 64 0 |} in
  Ok {| vt_inner := tx; vt_tx_hash := calculate_transaction_hash tx |}.

Definition create_coinbase_transaction (block_height : u64) (miner_address : Address)
  (base_reward transaction_fees : U256) : result GenesisError ValidatedTransaction :=
  let total_reward := base_reward + transaction_fees in
  if 2 ^ 256 <=? total_reward then Panic
  else if 2 ^ 64 - 1 <? total_reward then Err InvalidAmount
  else
    let? value := as_u64 total_reward in
    let tx := {| rt_from := replicate 32 0; rt_to := Some (address_to_pubkey miner_address);
                 rt_value := value; rt_nonce := block_height;
                 rt_data := text "COINBASE:HEIGHT:" ++ digits 20 block_height [];
                 rt_signature := replicate 64 0 |} in
    Ok {| vt_inner := tx; vt_tx_hash := calculate_transaction_hash tx |}.

Fixpoint next_level (hashes : list Hash) : list Hash :=
  match hashes with
  | a :: b :: l => sha256 (hash_bytes a ++ hash_bytes b) :: next_level l
  | l => l
  end.

(** Every level is shorter, so the number of hashes is enough. *)
Fixpoint merkle_loop (fuel : nat) (hashes : list Hash) : option Hash :=
  match fuel with
  | O => None
  | S fuel => match hashes with
              | [] => None
              | [h] => Some h
              | l => merkle_loop fuel (next_level l)
              end
  end.

Definition calculate_merkle_root (transactions : list ValidatedTransaction) : option Hash :=
  if bool_decide (transactions = []) then Some 0
  else merkle_loop (length transactions) (vt_tx_hash <$> transactions).

Definition calculate_block_hash (h : BlockHeader) : Hash :=
  sha256 (le_bytes 2 (bh_version h) ++ le_bytes 8 (bh_height h) ++ hash_bytes (bh_parent_hash h)
    ++ hash_bytes (bh_merkle_root h) ++ hash_bytes (bh_state_root h)
    ++ le_bytes 8 (bh_timestamp h) ++ bh_proposer h).

Fixpoint genesis_transactions (l : list (Address * U256))
  : result GenesisError (list ValidatedTransaction) :=
  match l with
  | [] => Ok []
  | (address, amount) :: l =>
      let? tx := create_genesis_transaction address amount in
      let? txs := genesis_transactions l in
      Ok (tx :: txs)
  end.

Definition create_genesis_block (config : GenesisConfig) : result GenesisError ValidatedBlock :=
  let? transactions := genesis_transactions (allocations config) in
  match calculate_merkle_root transactions with
  | None => Panic
  | Some merkle_root =>
      let header := {|
        bh_version := 1; bh_height := 0; bh_parent_hash := 0; bh_merkle_root := merkle_root;
        bh_state_root := 0; bh_timestamp := gc_timestamp config; bh_proposer := replicate 32 0;
        bh_difficulty := dc_initial_difficulty DifficultyConfig_default; bh_nonce := 0 |} in
      Ok {| vb_header := header; vb_transactions := transactions;
            vb_consensus_proof := {| cp_block_hash := calculate_block_hash header;
                                     cp_attestations := []; cp_total_stake := 0 |} |}
  end.

End genesis.

Definition INITIAL_REWARD : u64 := 50.
Definition HALVING_INTERVAL : u64 := 210000.
Definition DECIMALS : u128 := 10 ^ 8.

Definition calculate_block_reward (height : u64) : U256 :=
  let halvings := height / HALVING_INTERVAL in
  if 64 <=? halvings then 0 else Z.shiftr INITIAL_REWARD halvings * DECIMALS.

Definition BASE_FEE : u64 := 1000000.

Definition calculate_transaction_fees (transactions : list ValidatedTransaction) : U256 :=
  wrapping_mul 64 (Z.of_nat (length transactions)) BASE_FEE.

(** *** The Merkle root *)

Lemma length_genesis_level sha256 n : forall l, (length l <= n)%nat ->
  (length (next_level sha256 l) <= length l)%nat
  /\ ((2 <= length l)%nat -> (1 <= length (next_level sha256 l) < length l)%nat).
Proof.
  induction n as [|n IH]; intros l Hl; [destruct l; cbn in *; [lia|lia]|].
  destruct l as [|a [|b l]]; cbn in *; [lia|lia|].
  destruct (IH l) as [H1 _]; [lia|]. lia.
Qed.

(** The root is computed: the loop ends with one hash. *)
Lemma genesis_merkle_total sha256 fuel : forall l, (0 < length l <= fuel)%nat ->
  is_Some (merkle_loop sha256 fuel l).
Proof.
  induction fuel as [|fuel IH]; intros l Hl; [lia|]. destruct l as [|a [|b l]]; cbn [merkle_loop].
  - cbn in Hl. lia.
  - by eexists.
  - apply IH. destruct (length_genesis_level sha256 (length (a :: b :: l)) (a :: b :: l)) as [_ H]; [done|].
    cbn [length] in *. lia.
Qed.

Lemma genesis_transactions_ok sha256 l : Forall (fun e => in_width 64 e.2) l ->
  exists txs, genesis_transactions sha256 l = Ok txs
    /\ Forall2 (fun e t => rt_value (vt_inner t) = e.2
         /\ rt_to (vt_inner t) = Some (address_to_pubkey e.1)
         /\ vt_tx_hash t = calculate_transaction_hash sha256 (vt_inner t)) l txs.
Proof.
  induction 1 as [|[a x] l [_ Hx] _ (txs & E & IH)]; cbn [genesis_transactions]; [by exists []|].
  cbn [snd] in Hx. unfold create_genesis_transaction, as_u64. rewrite (proj2 (Z.ltb_lt _ _)) by done.
  cbn [rbind]. rewrite E. cbn [rbind]. eexists. split; [done|]. by constructor.
Qed.

(** The genesis block of a configuration whose allocations fit 64 bits exists, has
    height 0 and one transaction for each allocation, in order. *)
Theorem genesis_block_total sha256 config (Ha : Forall (fun e => in_width 64 e.2) (allocations config)) :
  exists b, create_genesis_block sha256 config = Ok b /\ vb_height b = 0
    /\ cp_block_hash (vb_consensus_proof b) = calculate_block_hash sha256 (vb_header b)
    /\ Forall2 (fun e t => rt_value (vt_inner t) = e.2
         /\ rt_to (vt_inner t) = Some (address_to_pubkey e.1)) (allocations config) (vb_transactions b).
Proof.
  destruct (genesis_transactions_ok sha256 _ Ha) as (txs & E & Hf). unfold create_genesis_block.
  rewrite E. cbn [rbind].
  assert (Hr : is_Some (calculate_merkle_root sha256 txs)).
  { unfold calculate_merkle_root. case_bool_decide; [by eexists|]. apply genesis_merkle_total.
    rewrite length_fmap. destruct txs; [done|cbn; lia]. }
  destruct Hr as [r ->]. eexists. split; [done|]. split_and!; [done|done|].
  eapply Forall2_impl; [exact Hf|]. cbn. naive_solver.
Qed.

(** An allocation of [2^64] panics. *)
Example large_allocation_panics sha256 :
  create_genesis_block sha256 {| chain_id := 1; gc_timestamp := 0; allocations := [(1, 2 ^ 64)];
    total_supply := 2 ^ 64 |} = Panic.
Proof. by vm_compute. Qed.

(** *** Issuance *)

(** The rewards of the first [n] heights. *)
Fixpoint issued (n : nat) : Z :=
  match n with O => 0 | S n => issued n + calculate_block_reward (Z.of_nat n) end.

(** The reward of the era of a height. *)
Definition era_reward (h : Z) : Z :=
  if h <? 210000 then 50 else if h <? 420000 then 25 else if h <? 630000 then 12
  else if h <? 840000 then 6 else if h <? 1050000 then 3 else if h <? 1260000 then 1 else 0.

Lemma reward_eras h : 0 <= h -> calculate_block_reward h = era_reward h * DECIMALS.
Proof.
  intros Hh. unfold calculate_block_reward, HALVING_INTERVAL.
  pose proof (Z.div_mod h 210000 ltac:(lia)) as Hq. pose proof (Z.mod_pos_bound h 210000 ltac:(lia)) as Hm.
  set (q := h / 210000) in *. destruct (Z_lt_le_dec q 6) as [H6|H6].
  - assert (Hc : q = 0 \/ q = 1 \/ q = 2 \/ q = 3 \/ q = 4 \/ q = 5) by lia.
    unfold era_reward. destruct Hc as [-> |[-> |[-> |[-> |[-> | ->]]]]]; cbn [Z.leb Z.compare];
      repeat (case_match; bools; try lia); reflexivity.
  - assert (E : Z.shiftr INITIAL_REWARD q = 0) by (apply Z.shiftr_eq_0; [done|change (Z.log2 INITIAL_REWARD) with 5; lia]).
    rewrite E. unfold era_reward. repeat (case_match; bools; try lia).
Qed.

(** The heights below [n] of the era that starts at [k]. *)
Definition in_era (k n : Z) : Z := Z.max 0 (Z.min (n - k) 210000).

Lemma in_era_succ k n : in_era k (Z.succ n) = in_era k n + (if (k <=? n) && (n <? k + 210000) then 1 else 0).
Proof. unfold in_era. destruct (Z.leb_spec k n), (Z.ltb_spec n (k + 210000)); cbn [andb]; lia. Qed.

(** What was issued, era by era. *)
Definition issued_closed (n : Z) : Z :=
  50 * in_era 0 n + 25 * in_era 210000 n + 12 * in_era 420000 n + 6 * in_era 630000 n
  + 3 * in_era 840000 n + in_era 1050000 n.

Lemma era_reward_indicators n : 0 <= n -> era_reward n =
  let i k := if (k <=? n) && (n <? k + 210000) then 1 else 0 in
  50 * i 0 + 25 * i 210000 + 12 * i 420000 + 6 * i 630000 + 3 * i 840000 + i 1050000.
Proof.
  intros Hn. cbn zeta. unfold era_reward.
  assert (Hi : forall k, (if (k <=? n) && (n <? k + 210000) then 1 else 0)
    = if decide (k <= n < k + 210000) then 1 else 0).
  { intros k. destruct (Z.leb_spec k n), (Z.ltb_spec n (k + 210000)); cbn [andb];
      (rewrite decide_True by lia; done) || (rewrite decide_False by lia; done). }
  rewrite !Hi.
  repeat (case_match; bools; try lia).
Qed.

Lemma issued_eras n : issued n = issued_closed (Z.of_nat n) * DECIMALS.
Proof.
  induction n as [|n IH]; [reflexivity|]. cbn [issued]. rewrite IH, reward_eras by lia.
  rewrite <-Z.mul_add_distr_r. f_equal. rewrite Nat2Z.inj_succ. unfold issued_closed.
  rewrite !in_era_succ, era_reward_indicators by lia. cbn zeta. ring.
Qed.

Lemma in_era_bounds k n : 0 <= in_era k n <= 210000 /\ (k + 210000 <= n -> in_era k n = 210000).
Proof. unfold in_era. lia. Qed.

(** The supply is bounded.  The rewards of any number of blocks add
    up to at most 20,370,000 coins, all of them once the height is 1,260,000,
    from where on blocks have no reward; a reward always fits the 64 bits of a
    coinbase transaction, with the fees of any number of transactions that is
    below ten million. *)
Theorem issuance_bounded n txs (Htx : Z.of_nat (length txs) < 10000000) :
  0 <= issued n <= 20370000 * DECIMALS
  /\ (1260000 <= Z.of_nat n -> issued n = 20370000 * DECIMALS
        /\ calculate_block_reward (Z.of_nat n) = 0)
  /\ forall sha256 miner, exists tx,
       create_coinbase_transaction sha256 (Z.of_nat n) miner (calculate_block_reward (Z.of_nat n))
         (calculate_transaction_fees txs) = Ok tx
       /\ rt_value (vt_inner tx) = calculate_block_reward (Z.of_nat n) + Z.of_nat (length txs) * BASE_FEE.
Proof.
  rewrite issued_eras, reward_eras by lia. unfold DECIMALS. split_and!.
  1,2: pose proof (fun k => in_era_bounds k (Z.of_nat n)) as H; unfold issued_closed;
    pose proof (H 0); pose proof (H 210000); pose proof (H 420000); pose proof (H 630000);
    pose proof (H 840000); pose proof (H 1050000); clear H; lia.
  - intros Hn. split.
    + pose proof (fun k => proj2 (in_era_bounds k (Z.of_nat n))) as H. unfold issued_closed.
      rewrite !H by lia. reflexivity.
    + unfold era_reward. repeat (case_match; bools; try lia).
  - intros sha256 miner. unfold calculate_transaction_fees, create_coinbase_transaction, as_u64, wrapping_mul, BASE_FEE.
    rewrite (Z.mod_small (_ * _)) by lia.
    assert (Hr : 0 <= era_reward (Z.of_nat n) <= 50) by (unfold era_reward; repeat case_match; lia).
    rewrite (proj2 (Z.leb_gt _ _)) by lia. rewrite (proj2 (Z.ltb_ge _ _)) by lia.
    rewrite (proj2 (Z.ltb_lt _ _)) by lia. cbn [rbind]. eexists. split; [done|]. done.
Qed.

Lemma issuance_bounded_witness : 0 <= issued 10 <= 20370000 * DECIMALS.
Proof. apply (issuance_bounded 10 []). done. Defined.

(** The reward is halved before it is scaled to the smallest unit, so the third
    era has 12 coins a block instead of 12.5. *)
Example halving_loses_half : calculate_block_reward 420000 = 12 * DECIMALS.
Proof. by vm_compute. Qed.

End Genesis.

(** ** Threads that run until they have joined *)

Module Scheduler.
Section run.
Context {St Ph : Type} `{EqDecision Ph} (phases : St -> list Ph) (done : Ph) (step : St -> nat -> St).

(** The threads that are not done. *)
Definition live (st : St) : list nat :=
  filter (fun i => phases st !! i <> Some done) (seq 0 (length (phases st))).

(** Runs the threads until all are done; [pick] chooses, at every access, the thread
    that makes it among those that are not.  [None] means that some are left. *)
Fixpoint join (fuel : nat) (pick : nat -> nat) (st : St) : option St :=
  match live st with
  | [] => Some st
  | i :: l =>
      match fuel with
      | O => None
      | S fuel => join fuel (fun k => pick (S k))
                    (step st (nth (pick 0 mod S (length l)) (i :: l) i))
      end
  end%nat.

Lemma live_elem st i : i ∈ live st -> exists p, phases st !! i = Some p /\ p <> done.
Proof.
  intros [Hd Hi%elem_of_seq]%list_elem_of_filter.
  destruct (lookup_lt_is_Some_2 (phases st) i) as [p Hp]; [lia|]. exists p. split; congruence.
Qed.

Lemma live_nil st : live st = [] -> Forall (fun p => p = done) (phases st).
Proof.
  intros Hl. apply Forall_lookup. intros i p Hp. destruct (decide (p = done)) as [|Hne]; [done|].
  assert (Hi : i ∈ live st).
  { apply list_elem_of_filter. split; [congruence|]. apply elem_of_seq. apply lookup_lt_Some in Hp. lia. }
  rewrite Hl in Hi. by apply elem_of_nil in Hi.
Qed.

(** With an access of a thread that is not done, a measure decreases: the threads
    join, whoever is picked, and an invariant of their accesses holds. *)
Lemma join_ends (I : St -> Prop) (work : St -> nat) :
  (forall st i p, I st -> phases st !! i = Some p -> p <> done ->
     I (step st i) /\ (work (step st i) < work st)%nat) ->
  forall fuel pick st, I st -> (work st <= fuel)%nat ->
  exists st', join fuel pick st = Some st' /\ I st' /\ Forall (fun p => p = done) (phases st').
Proof.
  intros Hstep fuel. induction fuel as [|fuel IH]; intros pick st Hi Hw; cbn [join];
    (destruct (live st) as [|i l] eqn:El; [exists st; split_and!; [done..|by apply live_nil]|]).
  - destruct (live_elem st i) as (p & Hp & Hne); [rewrite El; left|].
    destruct (Hstep st i p Hi Hp Hne). lia.
  - set (j := nth _ (i :: l) i). assert (Hj : j ∈ live st).
    { rewrite El. apply list_elem_of_In, nth_In. apply Nat.mod_upper_bound. done. }
    destruct (live_elem st j Hj) as (p & Hp & Hne). destruct (Hstep st j p Hi Hp Hne).
    apply IH; [done|lia].
Qed.

End run.
End Scheduler.

(** ** [qc-compute/src/backends/cpu.rs] *)

Module Engine.

(** Where a thread of [pow_mine] is: about to read the flag before a nonce, after
    that read, about to hash a nonce, about to store the nonce it found, about to
    store its hash, or past its loop. *)
Inductive Phase :=
| Scan (nonce stop : u64)
| Recheck (nonce stop : u64)
| Try (nonce stop : u64)
| StoreNonce (nonce : u64)
| StoreHash (nonce : u64)
| Done.

#[export] Instance Phase_eq_dec : EqDecision Phase.
Proof. solve_decision. Defined.

Record Shared := {
  found : bool;
  result_nonce : u64;
  result_hash : Hash
}.

Record State := {
  shared : Shared;
  threads : list Phase
}.

Section engine.
Context (sha256 : list u8 -> Hash) (header_template : list u8) (target : U256).

Definition nonce_hash (nonce : u64) : Hash := sha256d sha256 (header_template ++ le_bytes 8 nonce).

(** One access of a thread to the shared variables. *)
Definition thread_step (s : Shared) (p : Phase) : Shared * Phase :=
  match p with
  | Scan nonce stop =>
      if nonce <? stop then (s, if found s then Done else Recheck nonce stop) else (s, Done)
  | Recheck nonce stop =>
      (s, if (nonce mod 10000 =? 0) && found s then Done else Try nonce stop)
  | Try nonce stop =>
      if nonce_hash nonce <=? target
      then ({| found := true; result_nonce := result_nonce s; result_hash := result_hash s |},
            StoreNonce nonce)
      else (s, Scan (nonce + 1) stop)
  | StoreNonce nonce =>
      ({| found := found s; result_nonce := nonce; result_hash := result_hash s |}, StoreHash nonce)
  | StoreHash nonce =>
      ({| found := found s; result_nonce := result_nonce s; result_hash := nonce_hash nonce |}, Done)
  | Done => (s, Done)
  end.

Definition step (st : State) (i : nat) : State :=
  match threads st !! i with
  | Some p => let (s, p') := thread_step (shared st) p in
              {| shared := s; threads := <[i := p']> (threads st) |}
  | None => st
  end.

Definition run (st : State) (schedule : list nat) : State := foldl step st schedule.

(** The part of the range a thread searches. *)
Definition chunk_start (num_threads : nat) (nonce_start nonce_count : u64) (i : nat) : u64 :=
  wrapping_add 64 nonce_start (wrapping_mul 64 (Z.of_nat i) (nonce_count / Z.of_nat num_threads)).

Definition chunk_stop (num_threads : nat) (nonce_start nonce_count : u64) (i : nat) : u64 :=
  if (i =? num_threads - 1)%nat then wrapping_add 64 nonce_start nonce_count
  else wrapping_add 64 (chunk_start num_threads nonce_start nonce_count i)
         (nonce_count / Z.of_nat num_threads).

Definition pow_mine_start (num_threads : nat) (nonce_start nonce_count : u64) : State := {|
  shared := {| found := false; result_nonce := 0; result_hash := 0 |};
  threads := (fun i => Scan (chunk_start num_threads nonce_start nonce_count i)
    (chunk_stop num_threads nonce_start nonce_count i)) <$> seq 0 num_threads
|}.

Definition finished (st : State) : Prop := Forall (fun p => p = Done) (threads st).

(** What [pow_mine] answers once its threads have joined. *)
Definition pow_mine_result (st : State) : option (u64 * Hash) :=
  if found (shared st) then Some (result_nonce (shared st), result_hash (shared st)) else None.

(** *** The invariant *)

Context (lo hi : Z).

(** A nonce of the range whose hash meets the target. *)
Definition winner (n : Z) : Prop := lo <= n < hi /\ nonce_hash n <= target.

(** [start] begins the thread's part and [fin] ends it. *)
Definition phase_ok (f : bool) (start fin : Z) (p : Phase) : Prop :=
  let failed n := forall k, start <= k < n -> target < nonce_hash k in
  match p with
  | Scan n stop => stop = fin /\ start <= n /\ (n <= fin \/ fin <= start) /\ failed n
  | Recheck n stop | Try n stop => stop = fin /\ start <= n < fin /\ failed n
  | StoreNonce n | StoreHash n => f = true /\ winner n
  | Done => f = true \/ failed fin
  end.

Record engine_inv (bounds : list (Z * Z)) (st : State) : Prop := {
  ei_phases : Forall2 (fun b p => phase_ok (found (shared st)) b.1 b.2 p) bounds (threads st);
  ei_nonce : found (shared st) = true ->
    (exists n, StoreNonce n ∈ threads st) \/ winner (result_nonce (shared st));
  ei_hash : found (shared st) = true ->
    (exists n, StoreNonce n ∈ threads st) \/ (exists n, StoreHash n ∈ threads st)
    \/ (exists n, winner n /\ result_hash (shared st) = nonce_hash n)
}.

Lemma phase_ok_found f start fin p : phase_ok f start fin p -> phase_ok true start fin p.
Proof. destruct p; cbn; tauto. Qed.

(** What a step does to a phase and to the flag. *)
Lemma thread_step_ok s start fin p : lo <= start -> fin <= hi -> phase_ok (found s) start fin p ->
  let '(s', p') := thread_step s p in
  phase_ok (found s') start fin p' /\ (found s = true -> found s' = true)
  /\ (found s' = true -> found s = true \/ exists n, p' = StoreNonce n).
Proof.
  intros Hlo Hhi. destruct p as [n stop|n stop|n stop|n|n|]; cbn [thread_step phase_ok].
  - intros (-> & Hn & Hle & Hf). destruct (n <? fin) eqn:E; bools.
    + split; [|tauto]. destruct (found s); cbn; [by left|]. split_and!; [done|lia|lia|done].
    + split; [|tauto]. right. intros k Hk. apply Hf. lia.
  - intros (-> & Hn & Hf). split; [|tauto]. destruct ((n mod 10000 =? 0) && found s) eqn:E; cbn.
    + apply andb_true_iff in E as [_ ->]. by left.
    + split_and!; [done|lia|lia|done].
  - intros (-> & Hn & Hf). destruct (nonce_hash n <=? target) eqn:E; bools; cbn.
    + split; [split; [done|]; split; lia|]. split; [done|]. intros _. right. by eexists.
    + split; [|tauto]. split_and!; [done|lia|lia|]. intros k Hk.
      destruct (decide (k = n)) as [->|Hne]; [done|]. apply Hf. lia.
  - intros [Hf Hw]. cbn. split; [by split|tauto].
  - intros [Hf Hw]. cbn. split; [by left|tauto].
  - intros Hd. cbn. split; [done|tauto].
Qed.
Lemma elem_of_insert_other (l : list Phase) i p p' x :
  l !! i = Some p -> x ∈ l -> x <> p -> x ∈ <[i := p']> l.
Proof.
  intros Hi [j Hj]%list_elem_of_lookup Hne. apply list_elem_of_lookup. exists j.
  rewrite list_lookup_insert_ne; [done|]. intros <-. congruence.
Qed.

Lemma elem_of_inserted (l : list Phase) i p p' : l !! i = Some p -> p' ∈ <[i := p']> l.
Proof.
  intros Hi. apply list_elem_of_lookup. exists i. apply list_lookup_insert_eq.
  by eapply lookup_lt_Some.
Qed.

Lemma step_inv bounds st i : Forall (fun b => lo <= b.1 /\ b.2 <= hi) bounds ->
  engine_inv bounds st -> engine_inv bounds (step st i).
Proof.
  intros Hb [H1 H2 H3]. unfold step. destruct (threads st !! i) as [p|] eqn:Ep; [|by split].
  destruct (Forall2_lookup_r _ _ _ _ _ H1 Ep) as ([start fin] & Eb & Hp). cbn [fst snd] in Hp.
  destruct (proj1 (Forall_lookup _ _) Hb i (start, fin) Eb) as [Hlo Hhi]. cbn [fst snd] in Hlo, Hhi.
  pose proof (thread_step_ok (shared st) start fin p Hlo Hhi Hp) as Hstep.
  destruct (thread_step (shared st) p) as [s' p'] eqn:Es. destruct Hstep as (S1 & S2 & S3).
  split; cbn [shared threads].
  - apply Forall2_same_length_lookup in H1 as [Hl H1]. apply Forall2_same_length_lookup.
    split; [by rewrite length_insert|]. intros j [a b] q Hj Hq. cbn [fst snd].
    destruct (decide (j = i)) as [->|Hne].
    + rewrite list_lookup_insert_eq in Hq by (by eapply lookup_lt_Some). by simplify_eq.
    + rewrite list_lookup_insert_ne in Hq by done. specialize (H1 j _ q Hj Hq). cbn [fst snd] in H1.
      destruct (found s') eqn:Ef; [by eapply phase_ok_found|].
      destruct (found (shared st)); [by specialize (S2 eq_refl)|done].
  - intros Hf. destruct (S3 Hf) as [Hold|[n ->]]; [|left; exists n; by eapply elem_of_inserted].
    destruct p as [n stop|n stop|n stop|n|n|].
    4:{ cbn in Es. injection Es as <- <-. right. cbn. by destruct Hp. }
    all: destruct (H2 Hold) as [[m Hm]|Hw]; [left; exists m; by eapply elem_of_insert_other|];
      right; cbn in Es; repeat case_match; by simplify_eq.
  - intros Hf. destruct (S3 Hf) as [Hold|[n ->]]; [|left; exists n; by eapply elem_of_inserted].
    destruct p as [n stop|n stop|n stop|n|n|].
    4:{ cbn in Es. injection Es as <- <-. right. left. exists n. by eapply elem_of_inserted. }
    4:{ cbn in Es. injection Es as <- <-. right. right. exists n. cbn. by destruct Hp. }
    all: destruct (H3 Hold) as [[m Hm]|[[m Hm]|(m & Hm & Eh)]];
      [left; exists m; by eapply elem_of_insert_other
      |right; left; exists m; by eapply elem_of_insert_other
      |right; right; exists m; split; [done|]; cbn in Es; repeat case_match; by simplify_eq].
Qed.

Lemma engine_run_inv bounds schedule : Forall (fun b => lo <= b.1 /\ b.2 <= hi) bounds ->
  forall st, engine_inv bounds st -> engine_inv bounds (run st schedule).
Proof.
  intros Hb. induction schedule as [|i l IH]; intros st Hi; [done|]. cbn. by apply IH, step_inv.
Qed.

End engine.

(** *** The range and its parts *)

Section chunks.
Context (num_threads : nat) (nonce_start nonce_count : Z).
Context (Hn : (0 < num_threads)%nat) (Hs : 0 <= nonce_start) (Hc : 0 <= nonce_count).
Context (Hfit : nonce_start + nonce_count < 2 ^ 64).

Lemma chunk_bounds i : (i < num_threads)%nat ->
  let c := nonce_count / Z.of_nat num_threads in
  chunk_start num_threads nonce_start nonce_count i = nonce_start + Z.of_nat i * c
  /\ chunk_stop num_threads nonce_start nonce_count i
     = if (i =? num_threads - 1)%nat then nonce_start + nonce_count
       else nonce_start + Z.of_nat (S i) * c.
Proof.
  intros Hi. cbn zeta. set (c := nonce_count / Z.of_nat num_threads).
  assert (Hc0 : 0 <= c) by (apply Z.div_pos; lia).
  assert (Hcn : Z.of_nat num_threads * c <= nonce_count) by (apply Z.mul_div_le; lia).
  assert (Hic : 0 <= Z.of_nat i * c /\ Z.of_nat i * c + c <= nonce_count) by nia.
  assert (E : chunk_start num_threads nonce_start nonce_count i = nonce_start + Z.of_nat i * c).
  { unfold chunk_start, wrapping_add, wrapping_mul. fold c.
    rewrite (Z.mod_small (_ * _)) by lia. by rewrite Z.mod_small by lia. }
  split; [done|]. unfold chunk_stop. rewrite E. fold c. unfold wrapping_add.
  destruct (i =? num_threads - 1)%nat; rewrite Z.mod_small by lia; lia.
Qed.

Definition chunk (i : nat) : Z * Z :=
  (chunk_start num_threads nonce_start nonce_count i, chunk_stop num_threads nonce_start nonce_count i).

Lemma chunks_inside : Forall (fun b => nonce_start <= b.1 /\ b.2 <= nonce_start + nonce_count)
  (chunk <$> seq 0 num_threads).
Proof.
  apply Forall_fmap, Forall_forall. intros i Hi%elem_of_seq. cbn [chunk compose fst snd].
  destruct (chunk_bounds i) as [-> ->]; [lia|].
  assert (Hc0 : 0 <= nonce_count / Z.of_nat num_threads) by (apply Z.div_pos; lia).
  assert (Z.of_nat num_threads * (nonce_count / Z.of_nat num_threads) <= nonce_count)
    by (apply Z.mul_div_le; lia).
  split; [nia|]. destruct (i =? num_threads - 1)%nat; nia.
Qed.

(** Every nonce of the range is in the part of some thread. *)
Lemma chunks_cover n : nonce_start <= n < nonce_start + nonce_count ->
  exists i, (i < num_threads)%nat /\ (chunk i).1 <= n < (chunk i).2.
Proof.
  intros Hr. pose proof chunk_bounds as Hb. cbn zeta in Hb.
  assert (Hc0 : 0 <= nonce_count / Z.of_nat num_threads) by (apply Z.div_pos; lia).
  assert (Hcn : Z.of_nat num_threads * (nonce_count / Z.of_nat num_threads) <= nonce_count)
    by (apply Z.mul_div_le; lia).
  revert Hb Hc0 Hcn. generalize (nonce_count / Z.of_nat num_threads). intros c Hb Hc0 Hcn.
  pose proof (Z.div_mod (n - nonce_start) (Z.max c 1) ltac:(lia)) as Hd.
  pose proof (Z.mod_pos_bound (n - nonce_start) (Z.max c 1) ltac:(lia)) as Hm.
  assert (Hq0 : 0 <= (n - nonce_start) / Z.max c 1) by (apply Z.div_pos; lia).
  revert Hd Hm Hq0. generalize ((n - nonce_start) / Z.max c 1), ((n - nonce_start) mod Z.max c 1).
  intros q r Hd Hm Hq0. destruct (decide (c = 0 \/ Z.of_nat num_threads - 1 <= q)) as [Hlast|Hlast].
  - exists (num_threads - 1)%nat. split; [lia|]. unfold chunk.
    destruct (Hb (num_threads - 1)%nat) as [E1 E2]; [lia|]. rewrite Nat.eqb_refl in E2.
    cbn [fst snd]. rewrite E1, E2. split; [|lia]. destruct Hlast as [->|Hlast]; [lia|].
    assert (Z.of_nat (num_threads - 1) * c <= Z.max c 1 * q) by nia. lia.
  - exists (Z.to_nat q). split; [lia|]. unfold chunk. destruct (Hb (Z.to_nat q)) as [E1 E2]; [lia|].
    rewrite (proj2 (Nat.eqb_neq _ (num_threads - 1))) in E2 by lia.
    cbn [fst snd]. rewrite E1, E2. rewrite Z.max_l in Hd, Hm by lia.
    rewrite Nat2Z.inj_succ, Z2Nat.id by done. nia.
Qed.

End chunks.

Lemma start_inv sha256 header target num_threads nonce_start nonce_count :
  (0 < num_threads)%nat -> 0 <= nonce_start -> 0 <= nonce_count -> nonce_start + nonce_count < 2 ^ 64 ->
  engine_inv sha256 header target nonce_start (nonce_start + nonce_count)
    (chunk num_threads nonce_start nonce_count <$> seq 0 num_threads)
    (pow_mine_start num_threads nonce_start nonce_count).
Proof.
  intros Hn Hs Hc Hfit. split; [|done|done]. cbn [pow_mine_start threads shared found].
  apply Forall2_fmap_2, Forall_Forall2_diag, Forall_forall. intros i Hi%elem_of_seq.
  cbn [phase_ok chunk fst snd].
  destruct (chunk_bounds num_threads nonce_start nonce_count Hn Hs Hc Hfit i) as [-> ->]; [lia|].
  assert (Hc0 : 0 <= nonce_count / Z.of_nat num_threads) by (apply Z.div_pos; lia).
  assert (Z.of_nat num_threads * (nonce_count / Z.of_nat num_threads) <= nonce_count)
    by (apply Z.mul_div_le; lia).
  split_and!; [done|lia| |lia]. left. destruct (i =? num_threads - 1)%nat; nia.
Qed.

(** What the engine answers once its threads are done. *)
Lemma engine_answer sha256 header target num_threads nonce_start nonce_count st :
  (0 < num_threads)%nat -> 0 <= nonce_start -> 0 <= nonce_count -> nonce_start + nonce_count < 2 ^ 64 ->
  engine_inv sha256 header target nonce_start (nonce_start + nonce_count)
    (chunk num_threads nonce_start nonce_count <$> seq 0 num_threads) st ->
  finished st ->
  let wins := winner sha256 header target nonce_start (nonce_start + nonce_count) in
  match pow_mine_result st with
  | None => forall n, nonce_start <= n < nonce_start + nonce_count -> target < nonce_hash sha256 header n
  | Some (nonce, hash) => wins nonce /\ exists n, wins n /\ hash = nonce_hash sha256 header n
  end.
Proof.
  intros Hn Hs Hc Hfit [H1 H2 H3] Hf. cbn zeta. unfold pow_mine_result.
  assert (Hnot : forall p, p ∈ threads st -> p = Done) by (by apply Forall_forall).
  destruct (found (shared st)) eqn:Ef.
  - split.
    + destruct (H2 eq_refl) as [[n Hn'%Hnot]|Hw]; [done|exact Hw].
    + destruct (H3 eq_refl) as [[n Hn'%Hnot]|[[n Hn'%Hnot]|Hw]]; [done|done|exact Hw].
  - intros n Hr. destruct (chunks_cover num_threads nonce_start nonce_count Hn Hs Hc Hfit n Hr)
      as (i & Hi & Hb).
    assert (Eb : (chunk num_threads nonce_start nonce_count <$> seq 0 num_threads) !! i
      = Some (chunk num_threads nonce_start nonce_count i))
      by (by rewrite list_lookup_fmap, lookup_seq_lt).
    destruct (Forall2_lookup_l _ _ _ _ _ H1 Eb) as (p & Ep & Hp).
    apply list_elem_of_lookup_2, Hnot in Ep as ->. destruct Hp as [Hp|Hp]; [done|]. by apply Hp.
Qed.

(** C38 (safety): the engine answers for the whole range.  However its threads are
    scheduled, once they are done a search that answers nothing has no nonce in
    the range whose hash meets the target; and an answer has a nonce of the range
    that does, with a hash that meets the target and belongs to a nonce of the
    range, though not always to that one. *)
Theorem pow_mine_sound sha256 header target num_threads nonce_start nonce_count schedule
  (Hn : (0 < num_threads)%nat) (Hs : 0 <= nonce_start) (Hc : 0 <= nonce_count)
  (Hfit : nonce_start + nonce_count < 2 ^ 64) :
  let st := run sha256 header target (pow_mine_start num_threads nonce_start nonce_count) schedule in
  let wins := winner sha256 header target nonce_start (nonce_start + nonce_count) in
  finished st ->
  match pow_mine_result st with
  | None => forall n, nonce_start <= n < nonce_start + nonce_count -> target < nonce_hash sha256 header n
  | Some (nonce, hash) => wins nonce /\ exists n, wins n /\ hash = nonce_hash sha256 header n
  end.
Proof.
  cbn zeta. intros Hf. apply (engine_answer _ _ _ num_threads); try done. apply engine_run_inv.
  - by apply chunks_inside.
  - by apply start_inv.
Qed.

(** *** Termination *)

(** The accesses a thread has left, at most. *)
Definition work (p : Phase) : nat :=
  match p with
  | Scan n stop => 3 * Z.to_nat (stop - n) + 3
  | Recheck n stop => 3 * Z.to_nat (stop - n) + 2
  | Try n stop => 3 * Z.to_nat (stop - n) + 1
  | StoreNonce _ => 2
  | StoreHash _ => 1
  | Done => 0
  end.

Definition sum_work (l : list Phase) : nat := foldr (fun p acc => (work p + acc)%nat) O l.

Definition total_work (st : State) : nat := sum_work (threads st).

(** The whole call, with the accesses of the threads in the order [pick] chooses.  A
    machine without compute units makes it divide by zero. *)
Definition pow_mine (sha256 : list u8 -> Hash) (pick : nat -> nat) (num_threads : nat)
  (header_template : list u8) (target : U256) (nonce_start nonce_count : u64)
  : option (result unit (option (u64 * Hash))) :=
  if (num_threads =? 0)%nat then Some Panic
  else
    let st := pow_mine_start num_threads nonce_start nonce_count in
    st ← Scheduler.join threads Done (step sha256 header_template target) (total_work st) pick st;
    Some (Ok (pow_mine_result st)).

(** A schedule that picks only threads that are not done. *)
Fixpoint busy sha256 header target (st : State) (schedule : list nat) : Prop :=
  match schedule with
  | [] => True
  | i :: l => (exists p, threads st !! i = Some p /\ p <> Done)
              /\ busy sha256 header target (step sha256 header target st i) l
  end.

Lemma sum_work_insert (l : list Phase) i p p' : l !! i = Some p ->
  (sum_work (<[i := p']> l) + work p = sum_work l + work p')%nat.
Proof.
  revert i. induction l as [|x l IH]; intros [|i] Hi; try done.
  - injection Hi as ->. change (<[0%nat := p']> (p :: l)) with (p' :: l). unfold sum_work. cbn [foldr]. lia.
  - specialize (IH i Hi). change (<[S i := p']> (x :: l)) with (x :: <[i := p']> l).
    unfold sum_work in *. cbn [foldr]. lia.
Qed.

Lemma step_work sha256 header target lo hi bounds st i p :
  engine_inv sha256 header target lo hi bounds st -> threads st !! i = Some p -> p <> Done ->
  (total_work (step sha256 header target st i) < total_work st)%nat.
Proof.
  intros [H1 _ _] Hp Hne. destruct (Forall2_lookup_r _ _ _ _ _ H1 Hp) as (b & _ & Hok).
  unfold step. rewrite Hp. destruct (thread_step sha256 header target (shared st) p) as [s' p'] eqn:Es.
  unfold total_work. cbn [threads]. pose proof (sum_work_insert (threads st) i p p' Hp) as Hsum.
  enough (work p' < work p)%nat by lia. clear Hsum H1 Hp.
  destruct p as [n stop|n stop|n stop|n|n|]; cbn in Es, Hok; repeat case_match; simplify_eq; cbn [work];
    bools; try done; lia.
Qed.

(** The call returns, whatever thread is picked at every access. *)
Lemma pow_mine_answers sha256 pick num_threads header target nonce_start nonce_count :
  (0 < num_threads)%nat -> 0 <= nonce_start -> 0 <= nonce_count -> nonce_start + nonce_count < 2 ^ 64 ->
  exists r, pow_mine sha256 pick num_threads header target nonce_start nonce_count = Some (Ok r)
  /\ match r with
     | None => True
     | Some (nonce, hash) => nonce_hash sha256 header nonce <= target
         /\ exists n, nonce_hash sha256 header n <= target /\ hash = nonce_hash sha256 header n
     end.
Proof.
  intros Hn Hs Hc Hfit. unfold pow_mine. rewrite (proj2 (Nat.eqb_neq _ _)) by lia. cbn zeta.
  set (st := pow_mine_start _ _ _).
  destruct (Scheduler.join_ends threads Done (step sha256 header target)
    (engine_inv sha256 header target nonce_start (nonce_start + nonce_count)
       (chunk num_threads nonce_start nonce_count <$> seq 0 num_threads)) total_work) with
    (fuel := total_work st) (pick := pick) (st := st) as (st' & -> & Hi & Hf).
  - intros st1 i p Hi Hp Hne. split; [|by eapply step_work]. apply step_inv; [by apply chunks_inside|done].
  - by apply start_inv.
  - done.
  - cbn [mbind option_bind]. eexists. split; [done|].
    pose proof (engine_answer _ _ _ _ _ _ _ Hn Hs Hc Hfit Hi Hf) as Ha. cbn zeta in Ha.
    destruct (pow_mine_result st') as [[nonce hash]|]; [|done].
    destruct Ha as [[_ H1] (n & [_ H2] & H3)]. by eauto.
Qed.

Lemma busy_work sha256 header target lo hi bounds schedule :
  Forall (fun b => lo <= b.1 /\ b.2 <= hi) bounds ->
  forall st, engine_inv sha256 header target lo hi bounds st -> busy sha256 header target st schedule ->
  (length schedule <= total_work st)%nat.
Proof.
  intros Hin. induction schedule as [|i l IH]; intros st Hi Hb; cbn [length]; [lia|].
  destruct Hb as [(p & Hp & Hne) Hb]. pose proof (step_work _ _ _ _ _ _ _ i p Hi Hp Hne) as Hw.
  specialize (IH _ (step_inv _ _ _ _ _ bounds st i Hin Hi) Hb). lia.
Qed.

(** Running any thread that is not done until none is left. *)
Lemma can_finish sha256 header target lo hi bounds st :
  Forall (fun b => lo <= b.1 /\ b.2 <= hi) bounds ->
  engine_inv sha256 header target lo hi bounds st ->
  exists more, finished (foldl (step sha256 header target) st more).
Proof.
  intros Hin. remember (total_work st) as w eqn:Ew. revert st Ew.
  induction (lt_wf w) as [w _ IH]; intros st -> Hi.
  destruct (decide (Forall (fun p => p = Done) (threads st))) as [Hd|Hd]; [by exists []|].
  apply not_Forall_Exists in Hd; [|apply _]. apply Exists_exists in Hd as (p & [i Hp]%list_elem_of_lookup & Hne).
  destruct (IH _ (step_work _ _ _ _ _ _ _ i p Hi Hp Hne) _ eq_refl) as [more Hm]; [by apply step_inv|].
  by exists (i :: more).
Qed.

Lemma start_work num_threads nonce_start nonce_count :
  (0 < num_threads)%nat -> 0 <= nonce_start -> 0 <= nonce_count -> nonce_start + nonce_count < 2 ^ 64 ->
  Z.of_nat (total_work (pow_mine_start num_threads nonce_start nonce_count))
  <= 3 * nonce_count + 3 * Z.of_nat num_threads.
Proof.
  intros Hn Hs Hc Hfit. unfold total_work. cbn [pow_mine_start threads].
  pose proof (chunk_bounds num_threads nonce_start nonce_count Hn Hs Hc Hfit) as Hb. cbn zeta in Hb.
  assert (Hc0 : 0 <= nonce_count / Z.of_nat num_threads) by (apply Z.div_pos; lia).
  assert (Hcn : Z.of_nat num_threads * (nonce_count / Z.of_nat num_threads) <= nonce_count)
    by (apply Z.mul_div_le; lia).
  revert Hb Hc0 Hcn. generalize (nonce_count / Z.of_nat num_threads). intros c Hb Hc0 Hcn.
  assert (Hpart : forall m k, (k + m = num_threads)%nat -> (0 < m)%nat ->
    Z.of_nat (sum_work ((fun i => Scan (chunk_start num_threads nonce_start nonce_count i)
      (chunk_stop num_threads nonce_start nonce_count i)) <$> seq k m))
    <= 3 * (nonce_count - Z.of_nat k * c) + 3 * Z.of_nat m).
  { induction m as [|m IH]; intros k Hk Hm; [lia|]. cbn [seq fmap list_fmap]. unfold sum_work in *.
    cbn [foldr work]. destruct (Hb k) as [-> ->]; [lia|]. destruct (decide (m = O)) as [->|Hm0].
    - rewrite (proj2 (Nat.eqb_eq k (num_threads - 1))) by lia. cbn [seq fmap list_fmap foldr].
      assert (Z.of_nat k * c <= nonce_count) by nia. lia.
    - rewrite (proj2 (Nat.eqb_neq k (num_threads - 1))) by lia. specialize (IH (S k)).
      assert (Z.of_nat (S k) * c <= nonce_count) by nia.
      rewrite !Nat2Z.inj_add. specialize (IH ltac:(lia) ltac:(lia)). nia. }
  specialize (Hpart num_threads O ltac:(lia) ltac:(lia)). lia.
Qed.

(** The search ends.  A schedule that only runs threads that are
    not done makes at most three accesses for each nonce and three for each
    thread, and every schedule can be continued until all threads are done. *)
Theorem pow_mine_terminates sha256 header target num_threads nonce_start nonce_count schedule
  (Hn : (0 < num_threads)%nat) (Hs : 0 <= nonce_start) (Hc : 0 <= nonce_count)
  (Hfit : nonce_start + nonce_count < 2 ^ 64) :
  let st := pow_mine_start num_threads nonce_start nonce_count in
  (busy sha256 header target st schedule ->
     Z.of_nat (length schedule) <= 3 * nonce_count + 3 * Z.of_nat num_threads)
  /\ exists more, finished (run sha256 header target st (schedule ++ more)).
Proof.
  cbn zeta. set (bounds := chunk num_threads nonce_start nonce_count <$> seq 0 num_threads).
  assert (Hin : Forall (fun b => nonce_start <= b.1 /\ b.2 <= nonce_start + nonce_count) bounds)
    by (by apply chunks_inside).
  pose proof (start_inv sha256 header target num_threads nonce_start nonce_count Hn Hs Hc Hfit) as H0.
  fold bounds in H0. split.
  - intros Hb. assert (Hw : (length schedule <= total_work (pow_mine_start num_threads nonce_start nonce_count))%nat)
      by (by eapply busy_work).
    pose proof (start_work num_threads nonce_start nonce_count Hn Hs Hc Hfit) as Hsw. lia.
  - unfold run. setoid_rewrite foldl_app. eapply can_finish; [exact Hin|].
    by apply engine_run_inv.
Qed.

(** Every nonce wins, two threads find one each, and the answer has the nonce of
    the second with the hash of the first. *)
Example racing_threads_mix_results :
  let sha256 l := from_be_bytes l mod 2 ^ 256 in
  let st := run sha256 [] (2 ^ 255) (pow_mine_start 2 0 2) [0; 1; 0; 1; 0; 1; 0; 1; 1; 0]%nat in
  threads st = [Done; Done]
  /\ exists hash, pow_mine_result st = Some (1, hash) /\ hash = nonce_hash sha256 [] 0
     /\ hash <> nonce_hash sha256 [] 1.
Proof. cbn zeta. split; [by vm_compute|]. eexists. split_and!; [by vm_compute|by vm_compute|by vm_compute]. Qed.

Lemma pow_mine_sound_witness :
  let sha256 l := from_be_bytes l mod 2 ^ 256 in
  let st := run sha256 [] (2 ^ 50) (pow_mine_start 2 1 2) [0; 1; 0; 1; 0; 1; 0; 1]%nat in
  pow_mine_result st = None /\ forall n, 1 <= n < 1 + 2 -> 2 ^ 50 < nonce_hash sha256 [] n.
Proof.
  cbn zeta. split; [by vm_compute|].
  assert (E : pow_mine_result (run (fun l => from_be_bytes l mod 2 ^ 256) [] (2 ^ 50) (pow_mine_start 2 1 2)
    [0; 1; 0; 1; 0; 1; 0; 1]%nat) = None) by (by vm_compute).
  pose proof (pow_mine_sound (fun l => from_be_bytes l mod 2 ^ 256) [] (2 ^ 50) 2 1 2
    [0; 1; 0; 1; 0; 1; 0; 1]%nat ltac:(lia) ltac:(lia) ltac:(lia) ltac:(lia)) as H.
  cbn zeta in H. rewrite E in H. apply H. unfold finished. by apply (bool_decide_unpack _); vm_compute.
Defined.

Lemma pow_mine_terminates_witness :
  let sha256 l := from_be_bytes l mod 2 ^ 256 in
  exists more, finished (run sha256 [] (2 ^ 50) (pow_mine_start 2 1 2) ([0; 1]%nat ++ more)).
Proof.
  cbn zeta. apply (pow_mine_terminates (fun l => from_be_bytes l mod 2 ^ 256) [] (2 ^ 50) 2 1 2 [0; 1]%nat); lia.
Defined.

End Engine.

(** ** [PoWMiner::mine_block] of [domain/services.rs] *)

Module Miner.

(** Where a thread is: before the first read of the flag for a nonce, before the
    second, about to check the nonce, about to store it, or past its loop. *)
Inductive Phase :=
| Scan (nonce stop : u64)
| Recheck (nonce stop : u64)
| Check (nonce stop : u64)
| Store (nonce : u64)
| Done.

#[export] Instance Phase_eq_dec : EqDecision Phase.
Proof. solve_decision. Defined.

Record State := {
  found : bool;
  result_nonce : u64;
  threads : list Phase
}.

Section miner.
Context (sha256 : list u8 -> Hash) (num_threads : u8) (template : BlockTemplate).
Context (difficulty_target : U256).

(** One access of a thread to the flag or the result. *)
Definition thread_step (f : bool) (r : u64) (p : Phase) : bool * u64 * Phase :=
  match p with
  | Scan nonce stop =>
      if nonce <? stop then (f, r, if f then Done else Recheck nonce stop) else (f, r, Done)
  | Recheck nonce stop =>
      (f, r, if (nonce mod 10000 =? 0) && f then Done else Check nonce stop)
  | Check nonce stop =>
      if check_pow sha256 template nonce difficulty_target then (true, r, Store nonce)
      else (f, r, Scan (nonce + 1) stop)
  | Store nonce => (f, nonce, Done)
  | Done => (f, r, Done)
  end.

Definition step (st : State) (i : nat) : State :=
  match threads st !! i with
  | Some p => let '(f, r, p') := thread_step (found st) (result_nonce st) p in
              {| found := f; result_nonce := r; threads := <[i := p']> (threads st) |}
  | None => st
  end.

Definition start (ranges : list (u64 * u64)) : State :=
  {| found := false; result_nonce := 0; threads := (fun r => Scan r.1 r.2) <$> ranges |}.

(** The accesses a thread has left, at most. *)
Definition work (p : Phase) : nat :=
  match p with
  | Scan n stop => 3 * Z.to_nat (stop - n) + 3
  | Recheck n stop => 3 * Z.to_nat (stop - n) + 2
  | Check n stop => 3 * Z.to_nat (stop - n) + 1
  | Store _ => 1
  | Done => 0
  end.

Definition total_work (st : State) : nat := sum_list_with work (threads st).

Definition ranges : option (list (u64 * u64)) :=
  mapM (fun thread_id => nonce_range num_threads (Z.of_nat thread_id)) (seq 0 (Z.to_nat num_threads)).

(** The call, with the accesses in the order [pick] chooses.  No thread to divide the
    nonces among is a panic, [None]. *)
Definition mine_block (pick : nat -> nat) : option (option u64) :=
  if num_threads =? 0 then None
  else
    ranges ← ranges;
    st ← Scheduler.join threads Done step (total_work (start ranges)) pick (start ranges);
    Some (if found st then Some (result_nonce st) else None).

(** *** What it returns *)

Definition passes (n : Z) : Prop := check_pow sha256 template n difficulty_target = true.
Definition wins (ranges : list (u64 * u64)) (n : Z) : Prop :=
  passes n /\ exists b, b ∈ ranges /\ b.1 <= n < b.2.

Definition phase_ok (ranges : list (u64 * u64)) (f : bool) (b : u64 * u64) (p : Phase) : Prop :=
  let failed n := forall k, b.1 <= k < n -> ~ passes k in
  match p with
  | Scan n stop => stop = b.2 /\ b.1 <= n /\ failed n
  | Recheck n stop | Check n stop => stop = b.2 /\ b.1 <= n < b.2 /\ failed n
  | Store n => f = true /\ wins ranges n
  | Done => f = true \/ failed b.2
  end.

Record miner_inv (ranges : list (u64 * u64)) (st : State) : Prop := {
  mi_phases : Forall2 (phase_ok ranges (found st)) ranges (threads st);
  mi_nonce : found st = true ->
    (exists n, Store n ∈ threads st) \/ wins ranges (result_nonce st)
}.

Lemma miner_phase_found ranges f b p : phase_ok ranges f b p -> phase_ok ranges true b p.
Proof. destruct p; cbn; naive_solver. Qed.

Lemma miner_thread_ok ranges f r b p f' r' p' : b ∈ ranges -> phase_ok ranges f b p ->
  thread_step f r p = (f', r', p') ->
  phase_ok ranges f' b p' /\ (f = true -> f' = true)
  /\ (f' = true -> f = true \/ exists n, p' = Store n)
  /\ (r' = r \/ wins ranges r')
  /\ (forall n, p = Store n -> wins ranges r')
  /\ (p <> Done -> (work p' < work p)%nat).
Proof.
  intros Hb Hp E. destruct p as [n stop|n stop|n stop|n|]; cbn in Hp, E.
  - destruct (Z.ltb_spec n stop); simplify_eq.
    + destruct f'; cbn; naive_solver lia.
    + cbn. split_and!; try naive_solver lia.
  - destruct ((n mod 10000 =? 0) && f) eqn:Ef; simplify_eq; bools; cbn; naive_solver lia.
  - destruct (check_pow sha256 template n difficulty_target) eqn:Ec; simplify_eq; cbn.
    + split_and!; try naive_solver lia. split; [done|]. exists b. naive_solver.
    + destruct Hp as (-> & Hn & Hf). split_and!; try naive_solver lia.
      intros k Hk. destruct (decide (k = n)) as [->|]; [unfold passes; congruence|]. apply Hf. lia.
  - simplify_eq. cbn. naive_solver lia.
  - simplify_eq. cbn. naive_solver.
Qed.

Lemma sum_with_insert (l : list Phase) i p p' : l !! i = Some p ->
  (sum_list_with work (<[i := p']> l) + work p = sum_list_with work l + work p')%nat.
Proof.
  revert i. induction l as [|x l IH]; intros [|i] Hi; try done.
  - injection Hi as ->. change (<[0%nat := p']> (p :: l)) with (p' :: l). cbn [sum_list_with]. lia.
  - specialize (IH i Hi). change (<[S i := p']> (x :: l)) with (x :: <[i := p']> l).
    cbn [sum_list_with]. lia.
Qed.

Lemma miner_step_inv ranges st i p : miner_inv ranges st -> threads st !! i = Some p -> p <> Done ->
  miner_inv ranges (step st i) /\ (total_work (step st i) < total_work st)%nat.
Proof.
  intros [H1 H2] Hp Hne. destruct (Forall2_lookup_r _ _ _ _ _ H1 Hp) as (b & Hb & Hok).
  unfold step. rewrite Hp. destruct (thread_step (found st) (result_nonce st) p) as [[f r] p'] eqn:E.
  destruct (miner_thread_ok _ _ _ _ _ _ _ _ (list_elem_of_lookup_2 _ _ _ Hb) Hok E)
    as (K1 & K2 & K3 & K4 & K5 & K6).
  split; [split; cbn|].
  - rewrite <-(list_insert_id ranges i b Hb) at 2. apply Forall2_insert; [|exact K1].
    eapply Forall2_impl; [exact H1|]. intros b' q Hq.
    destruct (found st); [by rewrite K2|]. destruct f; [by eapply miner_phase_found|done].
  - intros ->. destruct (K3 eq_refl) as [Hf|[n ->]].
    + destruct (H2 Hf) as [[n Hn]|Hw].
      * apply list_elem_of_lookup in Hn as [j Hj]. destruct (decide (i = j)) as [<-|Hij].
        -- right. apply (K5 n). congruence.
        -- left. exists n. apply list_elem_of_lookup_2 with j. by rewrite list_lookup_insert_ne.
      * right. by destruct K4 as [-> |].
    + left. exists n. apply list_elem_of_lookup_2 with i. apply list_lookup_insert_eq.
      by eapply lookup_lt_Some.
  - unfold total_work. cbn [threads]. pose proof (sum_with_insert _ i p p' Hp). specialize (K6 Hne). lia.
Qed.

Lemma ranges_total : 0 < num_threads ->
  exists l, ranges = Some l /\ forall b, b ∈ l <-> exists thread_id,
    0 <= thread_id < num_threads /\ nonce_range num_threads thread_id = Some b.
Proof.
  intros Hn. unfold ranges.
  assert (Hr : forall t, is_Some (nonce_range num_threads t)).
  { intros t. unfold nonce_range, udiv. destruct (Z.eqb_spec num_threads 0); [lia|]. by eexists. }
  destruct (mapM_is_Some_2 (fun i => nonce_range num_threads (Z.of_nat i)) (seq 0 (Z.to_nat num_threads)))
    as [l Hl]; [apply Forall_forall; intros i _; apply Hr|].
  exists l. split; [exact Hl|]. apply mapM_Some in Hl. intros b. split.
  - intros [i Hi]%list_elem_of_lookup. destruct (Forall2_lookup_r _ _ _ _ _ Hl Hi) as (k & Hk & Hb).
    exists (Z.of_nat k). split; [|exact Hb]. apply list_elem_of_lookup_2, elem_of_seq in Hk. lia.
  - intros (t & Ht & Hb).
    assert (Hk : seq 0 (Z.to_nat num_threads) !! Z.to_nat t = Some (Z.to_nat t))
      by (rewrite lookup_seq; lia).
    destruct (Forall2_lookup_l _ _ _ _ _ Hl Hk) as (b' & Hb' & E). rewrite Z2Nat.id in E by lia.
    simplify_eq. by eapply list_elem_of_lookup_2.
Qed.

(** The search returns, whatever thread is picked at every access: a nonce of some
    thread's range that passes the check, or nothing if no nonce of a range does. *)
Theorem mine_block_refines pick : 0 < num_threads ->
  exists r, mine_block pick = Some r
    /\ mine_block_returns sha256 num_threads template difficulty_target r.
Proof.
  intros Hn. unfold mine_block. rewrite (proj2 (Z.eqb_neq _ _)) by lia.
  destruct (ranges_total Hn) as (l & -> & Hl). cbn [mbind option_bind].
  destruct (Scheduler.join_ends threads Done step (miner_inv l) total_work) with
    (fuel := total_work (start l)) (pick := pick) (st := start l) as (st & -> & [H1 H2] & Hf).
  - intros st i p Hi Hp Hne. by apply (miner_step_inv l st i p).
  - split; [|done]. cbn. apply Forall2_fmap_r, Forall_Forall2_diag, Forall_forall.
    intros b _. cbn. split_and!; [done|lia|lia].
  - done.
  - cbn [mbind option_bind]. eexists. split; [done|].
    assert (Hnot : forall p, p ∈ threads st -> p = Done) by (by apply Forall_forall).
    destruct (found st).
    + destruct (H2 eq_refl) as [[n Hs%Hnot]|(Hp & b & Hb & Hr)]; [done|].
      apply Hl in Hb as (t & Ht & Hb). exists t, b.1, b.2. split_and!; [lia|lia|by destruct b|lia|lia|done].
    + intros t lo hi n Ht Hr Hin. assert (Hb : (lo, hi) ∈ l) by (apply Hl; by eauto).
      apply list_elem_of_lookup in Hb as [i Hi]. destruct (Forall2_lookup_l _ _ _ _ _ H1 Hi) as (p & Hp & Hok).
      apply list_elem_of_lookup_2, Hnot in Hp as ->. destruct Hok as [Hok|Hok]; [done|].
      specialize (Hok n Hin). unfold passes in Hok. by destruct (check_pow _ _ _ _).
Qed.

End miner.
End Miner.

(** ** [service.rs] *)

Module Producer.

Inductive ConsensusMode := ProofOfWork | ProofOfStake | PBFT.

#[export] Instance ConsensusMode_eq_dec : EqDecision ConsensusMode.
Proof. solve_decision. Defined.

Record HistoricalBlockInfo := {
  hb_height : u64;
  hb_timestamp : u64;
  hb_difficulty : U256;
  hb_hash : Hash
}.

(** The fields of [ProductionConfig] that the service reads. *)
Record ProductionConfig := {
  starting_height : u64;
  last_difficulty : option U256;
  recent_blocks : list HistoricalBlockInfo
}.

Definition production_config_default : ProductionConfig :=
  {| starting_height := 0; last_difficulty := None; recent_blocks := [] |}.

Record ChainInfo := {
  chain_tip_height : u64;
  chain_tip_hash : Hash;
  chain_tip_timestamp : u64;
  ci_recent_blocks : list HistoricalBlockInfo
}.

Record ProductionStatus := {
  active : bool;
  mode : option ConsensusMode;
  blocks_produced : u64;
  last_block_at : option u64;
  current_difficulty : option U256;
  last_nonce : option u64
}.

(** The mining settings of [PoWConfig] and the gas limit. *)
Record BlockProductionConfig := {
  bp_mode : ConsensusMode;
  gas_limit : u64;
  min_gas_price : U256;
  threads : option u8;
  target_block_time : option u64;
  use_dgw : option bool;
  dgw_window : option nat;
  batch_size : option u64
}.

(** The event on the bus. *)
Record BlockProduced := {
  ev_block_height : u64;
  ev_block_hash : Hash;
  ev_difficulty : U256;
  ev_nonce : u64;
  ev_timestamp : u64;
  ev_parent_hash : Hash
}.

(** The variables of the mining task. *)
Record MiningTask := {
  blocks_mined : u64;
  recent : list BlockInfo;
  last_block_hash : Hash;
  last_block_timestamp : u64;
  task_config : BlockProductionConfig;
  adjuster : option DifficultyConfig
}.

(** What a round of the task meets: the clock, the compute units of the CPU engine if
    the miner has an engine, and the scheduler, which picks the thread of the engine
    (in the batch that starts at a nonce) or of the miner that makes the next access. *)
Record Surroundings := {
  now : u64;
  compute_units : option nat;
  engine_pick : u64 -> nat -> nat;
  miner_pick : nat -> nat
}.

Definition difficulty_adjuster (c : BlockProductionConfig) : option DifficultyConfig :=
  let d := DifficultyConfig_default in
  if bool_decide (bp_mode c = ProofOfWork) then
    Some {| dc_target_block_time := default 10 (target_block_time c);
            dc_adjustment_period := dc_adjustment_period d;
            dc_use_dgw := default true (use_dgw c);
            dc_dgw_window := default 24%nat (dgw_window c);
            dc_initial_difficulty := dc_initial_difficulty d;
            dc_min_difficulty := dc_min_difficulty d; dc_max_difficulty := dc_max_difficulty d;
            dc_max_adjustment_factor := dc_max_adjustment_factor d |}
  else None.

(** The loop over batches of nonces; [None] means that it is still running or that the
    engine panicked. *)
Fixpoint engine_loop (fuel : nat) (pow_mine : u64 -> u64 -> option (result unit (option (u64 * Hash))))
  (batch nonce_start : u64) : option (option (u64 * Hash)) :=
  match fuel with
  | O => None
  | S fuel =>
      match pow_mine nonce_start batch with
      | Some (Ok (Some r)) => Some (Some r)
      | Some (Ok None) =>
          let nonce_start := wrapping_add 64 nonce_start batch in
          if U64_MAX - batch <? nonce_start then Some None
          else engine_loop fuel pow_mine batch nonce_start
      | Some (Err _) => Some None
      | Some Panic | None => None
      end
  end.

Section task.
Context `{U256Ops} `{U256SatOps}.
Context (sha256 : list u8 -> Hash) (to_vec : ValidatedTransaction -> list u8).

(** The start of the task: the historical blocks, or one made up from the last
    difficulty. *)
Definition task_new (clock : u64) (c : BlockProductionConfig) (p : ProductionConfig) : MiningTask :=
  let history := (fun b => {| bi_height := hb_height b; bi_timestamp := hb_timestamp b;
                              bi_difficulty := hb_difficulty b |}) <$> recent_blocks p in
  {| blocks_mined := starting_height p;
     recent := match history, last_difficulty p with
       | [], Some d => [{| bi_height := starting_height p; bi_timestamp := clock; bi_difficulty := d |}]
       | _, _ => history
       end;
     last_block_hash := 0; last_block_timestamp := 0;
     task_config := c; adjuster := difficulty_adjuster c |}.

(** The block that is mined in a round. *)
Definition round_template (s : Surroundings) (t : MiningTask) (coinbase : ValidatedTransaction)
  (difficulty : U256) : BlockTemplate := {|
  bt_header := {|
    Production.bh_parent_hash := last_block_hash t;
    bh_block_number := wrapping_add 64 1 (blocks_mined t);
    Production.bh_timestamp := Z.max (now s) (wrapping_add 64 (last_block_timestamp t) 1);
    bh_beneficiary := 0; bh_gas_used := 0; bh_gas_limit := gas_limit (task_config t);
    Production.bh_difficulty := difficulty; Production.bh_state_root := Some 0 |};
  bt_transactions := [to_vec coinbase];
  bt_total_gas_used := 0;
  bt_total_fees := Genesis.calculate_transaction_fees []
|}.

Definition header_bytes (template : BlockTemplate) (nonce : option u64) : list u8 :=
  let h := bt_header template in
  serialize_block_header (Production.bh_parent_hash h) (bh_block_number h) (Production.bh_timestamp h)
    (bh_beneficiary h) (bh_gas_used h) nonce.

(** The search of the engine, if the miner has one. *)
Definition engine_search (fuel : nat) (s : Surroundings) (t : MiningTask) (template : BlockTemplate)
  (difficulty : U256) : option (option (u64 * Hash)) :=
  match compute_units s with
  | Some units =>
      engine_loop fuel (fun nonce_start => Engine.pow_mine sha256 (engine_pick s nonce_start) units
        (header_bytes template None) difficulty nonce_start)
        (default 10000000 (batch_size (task_config t))) 0
  | None => Some None
  end.

(** The threads of the miner if the engine found nothing. *)
Definition find_nonce (fuel : nat) (s : Surroundings) (t : MiningTask) (template : BlockTemplate)
  (difficulty : U256) : option (option (u64 * Hash)) :=
  mining_result ← engine_search fuel s t template difficulty;
  match mining_result with
  | Some r => Some (Some r)
  | None =>
      match Miner.mine_block sha256 (default 4 (threads (task_config t))) template difficulty
              (miner_pick s) with
      | Some (Some nonce) => Some (Some (nonce, sha256d sha256 (header_bytes template (Some nonce))))
      | Some None => Some None
      | None => None
      end
  end.

(** One round of the task: the next state and the event it publishes.  [None] means
    that the round panics or does not return. *)
Definition mining_round (fuel : nat) (s : Surroundings) (t : MiningTask)
  : option (MiningTask * option BlockProduced) :=
  let block_number := wrapping_add 64 1 (blocks_mined t) in
  let timestamp := Z.max (now s) (wrapping_add 64 (last_block_timestamp t) 1) in
  match Genesis.create_coinbase_transaction sha256 block_number 0
          (Genesis.calculate_block_reward block_number) (Genesis.calculate_transaction_fees []) with
  | Panic => None
  | Err _ => Some (t, None)
  | Ok coinbase =>
      difficulty ← match adjuster t with
        | Some c => calculate_next_difficulty c (recent t)
        | None => Some (2 ^ 240)
        end;
      let template := round_template s t coinbase difficulty in
      mining_result ← find_nonce fuel s t template difficulty;
      Some match mining_result with
      | Some (nonce, block_hash) =>
          ({| blocks_mined := wrapping_add 64 (blocks_mined t) 1;
              recent := take 50 ({| bi_height := block_number; bi_timestamp := timestamp;
                                    bi_difficulty := difficulty |} :: recent t);
              last_block_hash := block_hash; last_block_timestamp := timestamp;
              task_config := task_config t; adjuster := adjuster t |},
           Some {| ev_block_height := block_number; ev_block_hash := block_hash;
                   ev_difficulty := difficulty; ev_nonce := nonce; ev_timestamp := timestamp;
                   ev_parent_hash := last_block_hash t |})
      | None => (t, None)
      end
  end.

(** The rounds of a task and the events they publish. *)
Fixpoint mine (fuel : nat) (ss : list Surroundings) (t : MiningTask) : option (MiningTask * list BlockProduced) :=
  match ss with
  | [] => Some (t, [])
  | s :: ss =>
      r ← mining_round fuel s t;
      r' ← mine fuel ss r.1;
      Some (r'.1, match r.2 with Some e => e :: r'.2 | None => r'.2 end)
  end.

(** *** The producer *)

Record ConcreteBlockProducer := {
  config : BlockProductionConfig;
  status : ProductionStatus;
  is_active : bool;
  tasks : list (MiningTask * bool);  (** every task that was spawned, and whether it runs *)
  mining_handle : option nat;
  difficulty : option DifficultyConfig
}.

Definition producer_new (c : BlockProductionConfig) : ConcreteBlockProducer := {|
  config := c;
  status := {| active := false; mode := Some (bp_mode c); blocks_produced := 0; last_block_at := None;
               current_difficulty := None; last_nonce := None |};
  is_active := false; tasks := []; mining_handle := None; difficulty := difficulty_adjuster c
|}.

Definition query_chain_state (reader : option (Z -> option ChainInfo)) (p : ConcreteBlockProducer)
  : ProductionConfig :=
  let window := Z.of_nat (default 24%nat (dgw_window (config p))) mod 2 ^ 32 in
  match reader with
  | None => production_config_default
  | Some get_chain_info =>
      match get_chain_info window with
      | None => production_config_default
      | Some info => {| starting_height := chain_tip_height info;
                        last_difficulty := hb_difficulty <$> head (ci_recent_blocks info);
                        recent_blocks := ci_recent_blocks info |}
      end
  end.

(** A new task takes the place of the handle; an earlier task is detached and goes
    on. *)
Definition start_production (clock : u64) (m : ConsensusMode) (c : ProductionConfig)
  (p : ConcreteBlockProducer) : ConcreteBlockProducer :=
  let st := {| active := true; mode := Some m; blocks_produced := starting_height c;
               last_block_at := last_block_at (status p);
               current_difficulty := Some (default (dc_initial_difficulty DifficultyConfig_default)
                                             (last_difficulty c));
               last_nonce := last_nonce (status p) |} in
  match m with
  | ProofOfWork =>
      let t := task_new clock (config p) c in
      let t := {| blocks_mined := blocks_mined t; recent := recent t;
                  last_block_hash := last_block_hash t; last_block_timestamp := last_block_timestamp t;
                  task_config := task_config t; adjuster := difficulty p |} in
      {| config := config p; status := st; is_active := true; tasks := tasks p ++ [(t, true)];
         mining_handle := Some (length (tasks p)); difficulty := difficulty p |}
  | _ => {| config := config p; status := st; is_active := true; tasks := tasks p;
            mining_handle := mining_handle p; difficulty := difficulty p |}
  end.

Definition stop_production (p : ConcreteBlockProducer) : ConcreteBlockProducer := {|
  config := config p;
  status := {| active := false; mode := mode (status p); blocks_produced := blocks_produced (status p);
               last_block_at := last_block_at (status p);
               current_difficulty := current_difficulty (status p); last_nonce := last_nonce (status p) |};
  is_active := false;
  tasks := match mining_handle p with
           | Some i => alter (fun t => (t.1, false)) i (tasks p)
           | None => tasks p
           end;
  mining_handle := None; difficulty := difficulty p
|}.

Definition update_gas_limit (new_limit : u64) (p : ConcreteBlockProducer) : ConcreteBlockProducer :=
  let c := config p in
  {| config := {| bp_mode := bp_mode c; gas_limit := new_limit; min_gas_price := min_gas_price c;
                  threads := threads c; target_block_time := target_block_time c;
                  use_dgw := use_dgw c; dgw_window := dgw_window c; batch_size := batch_size c |};
     status := status p; is_active := is_active p; tasks := tasks p;
     mining_handle := mining_handle p; difficulty := difficulty p |}.

Definition update_min_gas_price (new_price : U256) (p : ConcreteBlockProducer) : ConcreteBlockProducer :=
  let c := config p in
  {| config := {| bp_mode := bp_mode c; gas_limit := gas_limit c; min_gas_price := new_price;
                  threads := threads c; target_block_time := target_block_time c;
                  use_dgw := use_dgw c; dgw_window := dgw_window c; batch_size := batch_size c |};
     status := status p; is_active := is_active p; tasks := tasks p;
     mining_handle := mining_handle p; difficulty := difficulty p |}.

(** A round of a running task, with what it leaves in the shared status. *)
Definition run_round (fuel : nat) (i : nat) (s : Surroundings) (p : ConcreteBlockProducer)
  : option (ConcreteBlockProducer * option BlockProduced) :=
  match tasks p !! i with
  | Some (t, true) =>
      r ← mining_round fuel s t;
      let st := match r.2 with
        | Some e => {| active := active (status p); mode := mode (status p);
                       blocks_produced := blocks_mined r.1; last_block_at := Some (ev_timestamp e);
                       current_difficulty := Some (ev_difficulty e); last_nonce := Some (ev_nonce e) |}
        | None => status p
        end in
      Some ({| config := config p; status := st; is_active := is_active p;
               tasks := <[i := (r.1, true)]> (tasks p); mining_handle := mining_handle p;
               difficulty := difficulty p |}, r.2)
  | _ => Some (p, None)
  end.

End task.

(** ** What the task publishes *)

Section task_props.
Context {U : U256Ops} {UL : U256Laws U} {S : U256SatOps} {SL : U256SatLaws S}.
Context (sha256 : list u8 -> Hash) (to_vec : ValidatedTransaction -> list u8).

(** A machine has a compute unit. *)
Definition machine (s : Surroundings) : Prop :=
  match compute_units s with Some units => (0 < units)%nat | None => True end.

(** The loop over the batches ends, with an answer of the engine or none. *)
Lemma engine_loop_answers fuel pow batch (Q : u64 * Hash -> Prop) : 0 < batch < 2 ^ 64 ->
  (forall start, 0 <= start -> start + batch < 2 ^ 64 ->
     exists r, pow start batch = Some (Ok r) /\ match r with Some r => Q r | None => True end) ->
  forall start, 0 <= start <= U64_MAX - batch -> 2 ^ 64 <= start + Z.of_nat fuel * batch ->
  exists r, engine_loop fuel pow batch start = Some r /\ match r with Some r => Q r | None => True end.
Proof.
  intros Hb Hp. unfold U64_MAX. induction fuel as [|fuel IH]; intros start Hs Hf; [lia|].
  cbn [engine_loop]. destruct (Hp start) as ([r|] & -> & Hr); [lia|lia|by eexists|].
  rewrite wrapping_add_small by lia. destruct (_ <? _) eqn:E; [by exists None|].
  unfold U64_MAX in E. bools. apply IH; lia.
Qed.

Definition template_hash (template : BlockTemplate) (nonce : u64) : Hash :=
  sha256d sha256 (header_bytes template (Some nonce)).

Lemma engine_hash template n :
  Engine.nonce_hash sha256 (header_bytes template None) n = template_hash template n.
Proof.
  unfold Engine.nonce_hash, template_hash, header_bytes, serialize_block_header.
  by rewrite app_nil_r, <-!app_assoc.
Qed.

(** A search that found a nonce: it meets the target, and so does the nonce of the
    hash. *)
Definition found_for (template : BlockTemplate) (d : U256) (r : u64 * Hash) : Prop :=
  template_hash template r.1 <= d /\ exists n, r.2 = template_hash template n /\ r.2 <= d.

Lemma engine_search_answers fuel s t template d :
  let batch := default 10000000 (batch_size (task_config t)) in
  machine s -> 0 < batch < 2 ^ 64 -> 2 ^ 64 <= Z.of_nat fuel * batch ->
  exists r, engine_search sha256 fuel s t template d = Some r
    /\ match r with Some r => found_for template d r | None => True end.
Proof.
  cbn zeta. intros Hm Hb Hf. unfold machine in Hm. unfold engine_search.
  destruct (compute_units s) as [units|]; [|by eexists].
  apply engine_loop_answers; [done| |unfold U64_MAX; lia|lia]. intros start Hs Hfit.
  destruct (Engine.pow_mine_answers sha256 (engine_pick s start) units (header_bytes template None) d start
    (default 10000000 (batch_size (task_config t)))) as (r & -> & Hr); [done|lia..|].
  eexists. split; [done|]. destruct r as [[nonce hash]|]; [|done]. rewrite engine_hash in Hr.
  destruct Hr as [H1 (n & H2 & ->)]. rewrite engine_hash in *. split; [done|]. by exists n.
Qed.

Lemma find_nonce_answers fuel s t template d :
  let batch := default 10000000 (batch_size (task_config t)) in
  machine s -> 0 < batch < 2 ^ 64 -> 0 < default 4 (threads (task_config t)) ->
  2 ^ 64 <= Z.of_nat fuel * batch ->
  exists r, find_nonce sha256 fuel s t template d = Some r
    /\ match r with Some r => found_for template d r | None => True end.
Proof.
  cbn zeta. intros Hm Hb Ht Hf. unfold find_nonce.
  destruct (engine_search_answers fuel s t template d Hm Hb Hf) as (found & -> & Hfound).
  cbn [mbind option_bind]. destruct found as [r|]; [by eexists|].
  destruct (Miner.mine_block_refines sha256 (default 4 (threads (task_config t))) template d (miner_pick s))
    as (r & -> & Hr); [lia|].
  destruct r as [n|]; cbn; [|by eexists]. eexists. split; [done|].
  destruct Hr as (? & ? & ? & _ & _ & _ & Hc). unfold check_pow, meets_difficulty in Hc. bools.
  split; [done|]. by exists n.
Qed.

(** A task whose settings and history leave room for the arithmetic. *)
Record task_ok (t : MiningTask) : Prop := {
  to_adjuster : match adjuster t with
    | Some d => config_ok d /\ dc_use_dgw d = true
        /\ 0 <= dc_initial_difficulty d <= dc_max_difficulty d /\ Forall (block_ok d) (recent t)
    | None => True
    end;
  to_batch : 0 < default 10000000 (batch_size (task_config t)) < 2 ^ 64;
  to_threads : 0 < default 4 (threads (task_config t))
}.

Lemma next_difficulty_ok d recent : config_ok d -> dc_use_dgw d = true ->
  0 <= dc_initial_difficulty d <= dc_max_difficulty d -> Forall (block_ok d) recent ->
  exists x, calculate_next_difficulty d recent = Some x /\ 0 <= x <= dc_max_difficulty d.
Proof.
  intros Hc Hu Hi Hr. unfold calculate_next_difficulty. rewrite Hu.
  destruct recent as [|b1 [|b2 l]]; [by eexists|by eexists|].
  pose proof (ok_window d Hc) as Hw. pose proof (ok_min d Hc) as Hm.
  edestruct (dgw_computes d (b1 :: b2 :: l)) as (time & x & _ & _ & E & _); [done|done|reflexivity| |reflexivity..|].
  { cbn [length]. lia. }
  rewrite E. eexists. split; [done|].
  pose proof (clamp_difficulty_bounds d) as Hb.
  split; [etrans; [exact Hm|]|]; apply Hb; apply Hc.
Qed.

Lemma coinbase_total height miner : 0 <= height ->
  is_ok (Genesis.create_coinbase_transaction sha256 height miner
    (Genesis.calculate_block_reward height) (Genesis.calculate_transaction_fees [])) = true.
Proof.
  intros Hh. rewrite Genesis.reward_eras by done. unfold Genesis.create_coinbase_transaction, Genesis.as_u64.
  assert (He : 0 <= Genesis.era_reward height <= 50) by (unfold Genesis.era_reward; repeat case_match; lia).
  change (Genesis.calculate_transaction_fees []) with 0. unfold Genesis.DECIMALS.
  rewrite (proj2 (Z.leb_gt _ _)), (proj2 (Z.ltb_ge _ _)), (proj2 (Z.ltb_lt _ _)) by lia. done.
Qed.

(** A block of a task was mined: its nonce meets its difficulty with the header of the
    block, and its hash is the one of a nonce that does. *)
Definition mined (e : BlockProduced) : Prop :=
  let hash n := sha256d sha256 (serialize_block_header (ev_parent_hash e) (ev_block_height e)
    (ev_timestamp e) 0 0 (Some n)) in
  hash (ev_nonce e) <= ev_difficulty e
  /\ exists n, ev_block_hash e = hash n /\ ev_block_hash e <= ev_difficulty e.

(** What a round does: it returns, with the task as it was, or with the next block. *)
Lemma mining_round_spec fuel s t : task_ok t -> machine s ->
  0 <= blocks_mined t -> blocks_mined t + 1 < 2 ^ 64 ->
  0 <= last_block_timestamp t -> last_block_timestamp t + 1 < 2 ^ 64 -> now s < 2 ^ 64 ->
  2 ^ 64 <= Z.of_nat fuel * default 10000000 (batch_size (task_config t)) ->
  exists t' e, mining_round sha256 to_vec fuel s t = Some (t', e) /\ task_ok t'
    /\ task_config t' = task_config t
    /\ ((t' = t /\ e = None)
        \/ (exists ev, e = Some ev /\ ev_block_height ev = blocks_mined t + 1
             /\ ev_parent_hash ev = last_block_hash t
             /\ ev_timestamp ev = Z.max (now s) (last_block_timestamp t + 1)
             /\ mined ev
             /\ blocks_mined t' = blocks_mined t + 1 /\ last_block_hash t' = ev_block_hash ev
             /\ last_block_timestamp t' = ev_timestamp ev)).
Proof.
  intros [Ha Hb Hth] Hm H1 H2 H3 H4 H5 Hf. unfold mining_round.
  rewrite !(wrapping_add_small 64) by lia. replace (1 + blocks_mined t) with (blocks_mined t + 1) by lia.
  pose proof (coinbase_total (blocks_mined t + 1) 0 ltac:(lia)) as Hc.
  destruct (Genesis.create_coinbase_transaction _ _ _ _ _) as [coinbase|err|]; [|done|done]. clear Hc.
  assert (Hd : exists x, match adjuster t with
      | Some c => calculate_next_difficulty c (recent t) | None => Some (2 ^ 240) end = Some x
      /\ match adjuster t with Some c => 0 <= x <= dc_max_difficulty c | None => True end).
  { destruct (adjuster t) as [d|]; [|by eexists]. destruct Ha as (Hc & Hu & Hi & Hr).
    by apply next_difficulty_ok. }
  destruct Hd as (x & -> & Hx). cbn [mbind option_bind].
  set (template := round_template _ s t coinbase x).
  destruct (find_nonce_answers fuel s t template x Hm Hb Hth Hf) as (r & -> & Hr).
  cbn [mbind option_bind]. destruct r as [[nonce hash]|].
  - eexists _, _. split; [done|]. split; [|split; [done|right]].
    + split; [|exact Hb|exact Hth]. cbn [adjuster recent].
      destruct (adjuster t) as [d|]; [|done]. destruct Ha as (Hc & Hu & Hi & Hrec).
      split_and!; [done|done|lia|lia|].
      apply (list.Forall_take (block_ok d)), Forall_cons_2; [|done].
      split; [cbn; unfold in_width; lia|cbn; lia].
    + eexists. split; [done|]. cbn. split_and!; try done.
      unfold found_for, template_hash, header_bytes, template, round_template in Hr. cbn in Hr.
      rewrite !(wrapping_add_small 64) in Hr by lia.
      replace (1 + blocks_mined t) with (blocks_mined t + 1) in Hr by lia. exact Hr.
  - eexists _, _. split; [done|]. split; [by split|]. split; [done|by left].
Qed.

(** The blocks of a chain that goes on from a height, a time and a hash. *)
Fixpoint linked (height time : Z) (parent : Hash) (es : list BlockProduced) : Prop :=
  match es with
  | [] => True
  | e :: es =>
      ev_block_height e = height + 1 /\ ev_parent_hash e = parent /\ time < ev_timestamp e
      /\ mined e
      /\ linked (height + 1) (ev_timestamp e) (ev_block_hash e) es
  end.

Lemma mine_linked fuel ss : forall t T, task_ok t -> Forall machine ss -> Forall (fun s => now s <= T) ss ->
  0 <= blocks_mined t -> blocks_mined t + Z.of_nat (length ss) < 2 ^ 64 ->
  0 <= last_block_timestamp t <= T -> T + Z.of_nat (length ss) < 2 ^ 64 ->
  2 ^ 64 <= Z.of_nat fuel * default 10000000 (batch_size (task_config t)) ->
  exists t' es, mine sha256 to_vec fuel ss t = Some (t', es)
    /\ linked (blocks_mined t) (last_block_timestamp t) (last_block_hash t) es
    /\ blocks_mined t' = blocks_mined t + Z.of_nat (length es).
Proof.
  induction ss as [|s ss IH]; intros t T Ht Hh Hn Hb1 Hb2 Ht1 Ht2 Hf; cbn [mine].
  { exists t, []. split_and!; [done|done|cbn; lia]. }
  apply Forall_cons in Hh as [Hs Hh], Hn as [Hns Hn]. cbn [length] in Hb2, Ht2.
  destruct (mining_round_spec fuel s t) as (t1 & e & -> & Ht' & Hc & Hcase); [done|done|lia..|].
  cbn [mbind option_bind fst snd].
  destruct Hcase as [[-> ->]|(ev & -> & E1 & E2 & E3 & E4 & F1 & F2 & F3)].
  - destruct (IH t T) as (t' & es & -> & L1 & L2); [done..|lia|lia|lia|lia|done|].
    cbn [mbind option_bind fst snd]. by exists t', es.
  - destruct (IH t1 (T + 1)) as (t' & es & -> & L1 & L2); try done; try lia; [|by rewrite Hc|].
    { eapply Forall_impl; [exact Hn|]. cbn. lia. }
    cbn [mbind option_bind fst snd]. exists t', (ev :: es). split; [done|]. rewrite F1, F2, F3 in L1.
    split; [split_and!; (done || lia)|]. rewrite L2, F1. cbn [length]. lia.
Qed.

(** C34 (safety): a mining task publishes a mined chain.  For a task with the CPU engine
    or with none, whose batch size and number of threads are positive, with
    Dark Gravity Wave adjustment (the default) or a fixed difficulty and settings and a
    history that leave room for its arithmetic, every round returns, however its threads
    are scheduled and whatever the clock shows below 2^64.  The blocks the task publishes
    have the heights after the starting height one by one, each names the hash of the
    one before as its parent, and their times strictly increase.  The nonce of a block
    meets its difficulty, and its hash is that of its header with a nonce that does,
    though not always with its own.  The first block names the hash zero as its parent,
    also when the task resumes a chain. *)
Theorem mined_blocks_linked fuel clock c p ss T
  (Ht : task_ok (task_new clock c p))
  (Hm : Forall machine ss) (Hn : Forall (fun s => now s <= T) ss) (HT : 0 <= T)
  (Hb : 0 <= starting_height p) (Hb2 : starting_height p + Z.of_nat (length ss) < 2 ^ 64)
  (HT2 : T + Z.of_nat (length ss) < 2 ^ 64)
  (Hf : 2 ^ 64 <= Z.of_nat fuel * default 10000000 (batch_size c)) :
  exists t' es, mine sha256 to_vec fuel ss (task_new clock c p) = Some (t', es)
    /\ linked (starting_height p) 0 0 es
    /\ blocks_mined t' = starting_height p + Z.of_nat (length es).
Proof. apply (mine_linked fuel ss (task_new clock c p) T); try done; cbn; lia. Qed.

End task_props.

(** ** What the settings allow *)

Definition pow_config (batch : option u64) : BlockProductionConfig := {|
  bp_mode := ProofOfWork; gas_limit := 30000000; min_gas_price := 0; threads := None;
  target_block_time := None; use_dgw := None; dgw_window := None; batch_size := batch
|}.

(** Two compute units that take turns. *)
Definition two_units (clock : u64) : Surroundings := {|
  now := clock; compute_units := Some 2%nat; engine_pick := fun _ k => k; miner_pick := fun k => k
|}.

Lemma mined_blocks_linked_witness :
  let p := {| starting_height := 5; last_difficulty := Some (2 ^ 210); recent_blocks := [] |} in
  let c := pow_config (Some (2 ^ 62)) in
  exists t' es, @mine exact_u256 exact_sat (fun _ => 9) (fun _ => []) 4
      [two_units 100; two_units 90] (task_new 80 c p) = Some (t', es)
    /\ linked (fun _ => 9) 5 0 0 es /\ blocks_mined t' = 5 + Z.of_nat (length es).
Proof.
  cbn zeta. apply (@mined_blocks_linked exact_u256 exact_u256_laws exact_sat exact_sat_laws (fun _ => 9) (fun _ => [])
    4 80 (pow_config (Some (2 ^ 62))) {| starting_height := 5; last_difficulty := Some (2 ^ 210); recent_blocks := [] |}
    [two_units 100; two_units 90] 100); try (cbn; lia).
  - split; [|by vm_compute|by vm_compute].
    split; [split; vm_compute; try done; try lia|]. split; [done|]. split; [by split; vm_compute|].
    apply Forall_singleton. split; split; by vm_compute.
  - repeat constructor.
  - repeat constructor; cbn; lia.
Defined.

(** A batch size of zero: an engine that finds nothing is asked for ever. *)
Lemma zero_batch_hangs fuel pow start : (forall a b, pow a b = Some (Ok None)) -> 0 <= start <= U64_MAX ->
  engine_loop fuel pow 0 start = None.
Proof.
  intros Hp Hs. revert start Hs. induction fuel as [|fuel IH]; intros start Hs; cbn [engine_loop]; [done|].
  unfold U64_MAX in *. rewrite Hp, wrapping_add_small by lia. unfold U64_MAX.
  rewrite (proj2 (Z.ltb_ge _ _)) by lia. apply IH. lia.
Qed.

(** A second start detaches the first task; no later stop reaches it. *)
Example second_start_leaks_task c d :
  let p := producer_new c in
  let p := start_production 10 ProofOfWork d (start_production 0 ProofOfWork d p) in
  let p := stop_production (stop_production p) in
  is_active p = false /\ snd <$> tasks p = [true; false].
Proof. done. Qed.

(** A resumed task starts from a known tip and names the hash zero as parent. *)
Example resumed_chain_is_detached :
  let tip := {| hb_height := 5; hb_timestamp := 70; hb_difficulty := 2 ^ 210; hb_hash := 1234 |} in
  let p := {| starting_height := 5; last_difficulty := None; recent_blocks := [tip] |} in
  exists t e, @mining_round exact_u256 exact_sat (fun _ => 9) (fun _ => []) 4 (two_units 100)
      (task_new 80 (pow_config (Some 4)) p) = Some (t, Some e)
    /\ ev_block_height e = 6 /\ ev_parent_hash e = 0.
Proof. cbn zeta. eexists _, _. split; [by vm_compute|done]. Qed.

(** The gas limit of a running task is the one it was started with. *)
Example gas_limit_of_running_task c d i l :
  tasks (update_gas_limit l (start_production i ProofOfWork d (producer_new c)))
  = tasks (start_production i ProofOfWork d (producer_new c)).
Proof. done. Qed.

End Producer.
