(* ===== verification/PeerNet.v ===== *)
(** * Peer discovery: addresses, slots, probes, handshakes and records

    The parts of [qc-01-peer-discovery/src/domain/] that decide which peers a
    node knows and talks to: the address manager with its New and Tried tables
    ([address_manager/], Module [AddrMan]), the connection slots with eviction
    ([connection_slots/], Module [Slots]), the feeler probes with their
    coordinator of [adapters/feeler/] (Module [Feeler]), the chain handshake
    ([handshake/], Module [Handshake]) and the node records with their cache
    ([enr/], Module [Enr]).

    The hash of [DefaultHasher] is an argument.  Floating-point scores are values
    of the class [Slots.Float]; what is proved of their order assumes it only of
    the numbers it names.  The order in which a [HashMap] is visited is an
    argument, of which only that it visits every value once is assumed. *)

From S2P Require Import Prelude Peers.
From stdpp Require Import strings.
Local Open Scope Z_scope.

(** ** [domain/address_manager/] *)

Module AddrMan.

Abbreviation u32 := Z (only parsing).

(** Four bytes. *)
Abbreviation SubnetKey := (list Z) (only parsing).

Definition from_ip (a : IpAddr) : SubnetKey :=
  match a with
  | V4 bytes => [bytes !!! 0%nat; bytes !!! 1%nat; 0; 0]
  | V6 bytes => [bytes !!! 0%nat; bytes !!! 1%nat; bytes !!! 2%nat; bytes !!! 3%nat]
  end.

Inductive AddressManagerError := InvalidAddress.

Record AddressManagerConfig := {
  new_bucket_count : nat;
  tried_bucket_count : nat;
  bucket_size : nat;
  max_per_subnet_per_bucket : nat;
  max_per_subnet_total : nat
}.

Definition config_default : AddressManagerConfig := {|
  new_bucket_count := 1024; tried_bucket_count := 256; bucket_size := 64;
  max_per_subnet_per_bucket := 2; max_per_subnet_total := 64
|}.

Record AddressEntry := {
  peer_info : PeerInfo;
  first_seen : Timestamp;
  last_attempt : option Timestamp;
  last_success : option Timestamp;
  attempts : u32;
  source_subnet : SubnetKey
}.

Definition entry_new (p : PeerInfo) (now : Timestamp) (source : SubnetKey) : AddressEntry := {|
  peer_info := p; first_seen := now; last_attempt := None; last_success := None;
  attempts := 0; source_subnet := source
|}.

Definition entry_id (e : AddressEntry) : NodeId := node_id (peer_info e).
Definition entry_subnet (e : AddressEntry) : SubnetKey := from_ip (ip (socket_addr (peer_info e))).

(** *** Buckets *)

Record AddressBucket := {
  entries : list AddressEntry;
  subnet_counts : gmap SubnetKey nat
}.

Definition bucket_new : AddressBucket := {| entries := []; subnet_counts := ∅ |}.

(** [get(..).copied().unwrap_or(0)]. *)
Definition count_of (m : gmap SubnetKey nat) (s : SubnetKey) : nat := default 0%nat (m !! s).

Definition can_accept (b : AddressBucket) (s : SubnetKey) (c : AddressManagerConfig) : bool :=
  if (bucket_size c <=? length (entries b))%nat then false
  else (count_of (subnet_counts b) s <? max_per_subnet_per_bucket c)%nat.

Definition bucket_add (b : AddressBucket) (e : AddressEntry) : AddressBucket := {|
  entries := entries b ++ [e];
  subnet_counts := <[entry_subnet e := S (count_of (subnet_counts b) (entry_subnet e))]> (subnet_counts b)
|}.

(** The entry at a position is taken out and its subnet counted down; a count of
    zero is removed. *)
Definition remove_at (b : AddressBucket) (pos : nat) (e : AddressEntry) : AddressBucket := {|
  entries := delete pos (entries b);
  subnet_counts :=
    match subnet_counts b !! entry_subnet e with
    | Some count => if (count - 1 =? 0)%nat then delete (entry_subnet e) (subnet_counts b)
                    else <[entry_subnet e := (count - 1)%nat]> (subnet_counts b)
    | None => subnet_counts b
    end
|}.

Definition bucket_remove (b : AddressBucket) (id : NodeId) : option (AddressBucket * AddressEntry) :=
  found ← list_find (fun e => entry_id e = id) (entries b);
  Some (remove_at b found.1 found.2, found.2).

Definition success_time (e : AddressEntry) : u64 := default 0 (last_success e).

(** [min_by] keeps the first of equal elements. *)
Fixpoint oldest_from (i : nat) (l : list AddressEntry) (best : nat * AddressEntry) : nat * AddressEntry :=
  match l with
  | [] => best
  | e :: l => oldest_from (S i) l (if success_time e <? success_time best.2 then (i, e) else best)
  end.

Definition evict_oldest (b : AddressBucket) : option (AddressBucket * AddressEntry) :=
  match entries b with
  | [] => None
  | e :: l => let oldest := oldest_from 1 l (0%nat, e) in
              Some (remove_at b oldest.1 oldest.2, oldest.2)
  end.

Definition random_entry_at (b : AddressBucket) (random_index : nat) : option AddressEntry :=
  match entries b with
  | [] => None
  | l => l !! (random_index mod length l)%nat
  end.

(** *** Tables *)

Record AddressTable := {
  buckets : list AddressBucket;
  subnet_totals : gmap SubnetKey nat;
  node_to_bucket : gmap NodeId nat
}.

Definition table_new (bucket_count : nat) : AddressTable := {|
  buckets := replicate bucket_count bucket_new; subnet_totals := ∅; node_to_bucket := ∅
|}.

Definition table_len (t : AddressTable) : nat := sum_list_with (fun b => length (entries b)) (buckets t).

Definition table_is_empty (t : AddressTable) : bool :=
  negb (existsb (fun b => negb (length (entries b) =? 0)%nat) (buckets t)).

Definition contains (t : AddressTable) (id : NodeId) : bool := bool_decide (is_Some (node_to_bucket t !! id)).

Fixpoint entry_at (bs : list AddressBucket) (remaining : nat) : option AddressEntry :=
  match bs with
  | [] => None
  | b :: bs => if (remaining <? length (entries b))%nat then entries b !! remaining
               else entry_at bs (remaining - length (entries b))
  end.

Definition random_entry_with (t : AddressTable) (random_fn : nat -> nat) : option AddressEntry :=
  let total := table_len t in
  if (total =? 0)%nat then None else entry_at (buckets t) (random_fn total).

Definition random_entry (t : AddressTable) : option AddressEntry :=
  head (omap (fun b => head (entries b)) (buckets t)).

(** An entry goes into the bucket [idx], whose content is [b]. *)
Definition insert_entry (t : AddressTable) (idx : nat) (b : AddressBucket) (e : AddressEntry) : AddressTable := {|
  buckets := <[idx := bucket_add b e]> (buckets t);
  subnet_totals := <[entry_subnet e := S (count_of (subnet_totals t) (entry_subnet e))]> (subnet_totals t);
  node_to_bucket := <[entry_id e := idx]> (node_to_bucket t)
|}.

(** An entry has left the bucket [idx], whose content is now [b]. *)
Definition forget_entry (t : AddressTable) (idx : nat) (b : AddressBucket) (e : AddressEntry) : AddressTable := {|
  buckets := <[idx := b]> (buckets t);
  subnet_totals :=
    match subnet_totals t !! entry_subnet e with
    | Some count => <[entry_subnet e := (count - 1)%nat]> (subnet_totals t)
    | None => subnet_totals t
    end;
  node_to_bucket := delete (entry_id e) (node_to_bucket t)
|}.

(** *** The manager *)

Record AddressManager := {
  new_table : AddressTable;
  tried_table : AddressTable;
  config : AddressManagerConfig
}.

Definition new (c : AddressManagerConfig) : AddressManager := {|
  new_table := table_new (new_bucket_count c); tried_table := table_new (tried_bucket_count c);
  config := c
|}.

Record AddressManagerStats := { new_count : nat; tried_count : nat; st_new_buckets : nat; st_tried_buckets : nat }.

Definition stats (m : AddressManager) : AddressManagerStats := {|
  new_count := table_len (new_table m); tried_count := table_len (tried_table m);
  st_new_buckets := new_bucket_count (config m); st_tried_buckets := tried_bucket_count (config m)
|}.

Section manager.
Context (pair_hash : SubnetKey -> SubnetKey -> u64) (subnet_hash : SubnetKey -> u64).

(** A remainder by zero panics. *)
Definition bucket_index (hash : u64) (count : nat) : option nat :=
  if (count =? 0)%nat then None else Some (Z.to_nat (hash mod Z.of_nat count)).

Definition calculate_new_bucket (m : AddressManager) (source addr : SubnetKey) : option nat :=
  bucket_index (pair_hash source addr) (new_bucket_count (config m)).

Definition calculate_tried_bucket (m : AddressManager) (addr : SubnetKey) : option nat :=
  bucket_index (subnet_hash addr) (tried_bucket_count (config m)).

Definition add_new (p : PeerInfo) (source_ip : IpAddr) (now : Timestamp) (m : AddressManager)
  : AddressManager * result AddressManagerError bool :=
  if contains (tried_table m) (node_id p) || contains (new_table m) (node_id p) then (m, Ok false)
  else
    let source := from_ip source_ip in
    let addr := from_ip (ip (socket_addr p)) in
    let total_count :=
      (count_of (subnet_totals (new_table m)) addr + count_of (subnet_totals (tried_table m)) addr)%nat in
    if (max_per_subnet_total (config m) <=? total_count)%nat then (m, Ok false)
    else
      match calculate_new_bucket m source addr with
      | None => (m, Panic)
      | Some idx =>
          match buckets (new_table m) !! idx with
          | None => (m, Panic)
          | Some b =>
              if negb (can_accept b addr (config m)) then (m, Ok false)
              else ({| new_table := insert_entry (new_table m) idx b (entry_new p now source);
                       tried_table := tried_table m; config := config m |}, Ok true)
          end
      end.

(** The entry with the time of its first success. *)
Definition succeeded (e : AddressEntry) (now : Timestamp) : AddressEntry := {|
  peer_info := peer_info e; first_seen := first_seen e; last_attempt := last_attempt e;
  last_success := Some now; attempts := wrapping_add 32 (attempts e) 1; source_subnet := source_subnet e
|}.

Definition promote_to_tried (id : NodeId) (now : Timestamp) (m : AddressManager)
  : AddressManager * result AddressManagerError bool :=
  match node_to_bucket (new_table m) !! id with
  | None => (m, Ok false)
  | Some idx =>
      match buckets (new_table m) !! idx with
      | None => (m, Panic)
      | Some b =>
          match bucket_remove b id with
          | None => (m, Ok false)
          | Some (b', e) =>
              let e := succeeded e now in
              let m := {| new_table := forget_entry (new_table m) idx b' e;
                          tried_table := tried_table m; config := config m |} in
              match calculate_tried_bucket m (entry_subnet e) with
              | None => (m, Panic)
              | Some tried_idx =>
                  match buckets (tried_table m) !! tried_idx with
                  | None => (m, Panic)
                  | Some tb =>
                      let accept t tb := ({| new_table := new_table m;
                        tried_table := insert_entry t tried_idx tb e; config := config m |}, Ok true) in
                      if negb (can_accept tb (entry_subnet e) (config m)) then
                        match evict_oldest tb with
                        | None => (m, Ok false)
                        | Some (tb', evicted) => accept (forget_entry (tried_table m) tried_idx tb' evicted) tb'
                        end
                      else accept (tried_table m) tb
                  end
              end
          end
      end
  end.

Inductive Op :=
| AddNew (p : PeerInfo) (source_ip : IpAddr) (now : Timestamp)
| Promote (id : NodeId) (now : Timestamp).

Definition perform (m : AddressManager) (o : Op) : AddressManager * result AddressManagerError bool :=
  match o with
  | AddNew p s now => add_new p s now m
  | Promote id now => promote_to_tried id now m
  end.

End manager.

(** *** Counting *)

Definition count_in (s : SubnetKey) (l : list AddressEntry) : nat :=
  length (base.filter (fun e => entry_subnet e = s) l).

#[global] Arguments count_in : simpl never.

Lemma count_in_perm s l l' : l ≡ₚ l' -> count_in s l = count_in s l'.
Proof. intros Hp. unfold count_in. by rewrite Hp. Qed.

Lemma count_in_cons s e l :
  count_in s (e :: l) = ((if decide (entry_subnet e = s) then 1 else 0) + count_in s l)%nat.
Proof. unfold count_in. rewrite filter_cons. by case_decide. Qed.

Lemma count_of_insert m s s' n : count_of (<[s := n]> m) s' = if decide (s = s') then n else count_of m s'.
Proof. unfold count_of. case_decide as E; [subst; by rewrite lookup_insert_eq|by rewrite lookup_insert_ne]. Qed.

Definition bucket_ok (b : AddressBucket) : Prop :=
  forall s, count_of (subnet_counts b) s = count_in s (entries b).

Lemma bucket_add_ok b e : bucket_ok b -> bucket_ok (bucket_add b e).
Proof.
  intros Hb s. cbn [bucket_add entries subnet_counts]. rewrite count_of_insert, (count_in_perm s _ (e :: entries b))
    by (by rewrite Permutation_app_comm). rewrite count_in_cons, (Hb (entry_subnet e)).
  case_decide as E; [by subst|apply Hb].
Qed.

Lemma remove_at_ok b pos e : bucket_ok b -> entries b !! pos = Some e -> bucket_ok (remove_at b pos e).
Proof.
  intros Hb He s. pose proof (Hb s) as Hs. pose proof (Hb (entry_subnet e)) as Hse.
  pose proof (delete_Permutation _ _ _ He) as Hp.
  rewrite (count_in_perm _ _ _ Hp), count_in_cons in Hs. rewrite (count_in_perm _ _ _ Hp), count_in_cons in Hse.
  rewrite decide_True in Hse by done.
  cbn [remove_at entries subnet_counts]. unfold count_of in Hs, Hse |- *. destruct (subnet_counts b !! entry_subnet e) as [c|] eqn:Ec;
    cbn in Hse; [|done]. case_decide as E.
  - subst s. destruct (c - 1 =? 0)%nat eqn:E0.
    + rewrite lookup_delete_eq. apply Nat.eqb_eq in E0. cbn. lia.
    + rewrite lookup_insert_eq. cbn. lia.
  - destruct (c - 1 =? 0)%nat; [rewrite lookup_delete_ne by done|rewrite lookup_insert_ne by done]; done.
Qed.

(** *** Tables *)

Definition all_entries (t : AddressTable) : list AddressEntry := concat (entries <$> buckets t).

Record table_ok (t : AddressTable) : Prop := {
  to_buckets : Forall bucket_ok (buckets t);
  to_totals s : count_of (subnet_totals t) s = count_in s (all_entries t);
  to_nodup : NoDup (entry_id <$> all_entries t);
  to_index n i : node_to_bucket t !! n = Some i
    <-> exists b, buckets t !! i = Some b /\ n ∈ entry_id <$> entries b
}.

Lemma all_entries_update bs i b b' : bs !! i = Some b ->
  concat (entries <$> <[i := b']> bs) ++ entries b ≡ₚ concat (entries <$> bs) ++ entries b'.
Proof.
  revert i. induction bs as [|x bs IH]; intros [|i] Hi; try done; cbn in *.
  - injection Hi as ->. set (l := concat _). rewrite (Permutation_app_comm (entries b) l).
    rewrite <- (assoc_L (++) l), (Permutation_app_comm (entries b') l), <- (assoc_L (++) l).
    by rewrite (Permutation_app_comm (entries b)).
  - by rewrite <- !(assoc_L (++)), IH.
Qed.

Lemma elem_of_all t i b e : buckets t !! i = Some b -> e ∈ entries b -> e ∈ all_entries t.
Proof.
  intros Hb He. apply list_elem_of_In, in_concat. exists (entries b).
  split; [|by apply list_elem_of_In]. apply list_elem_of_In, list_elem_of_fmap. exists b.
  split; [done|]. by eapply list_elem_of_lookup_2.
Qed.

Lemma elem_of_all_inv t e : e ∈ all_entries t -> exists i b, buckets t !! i = Some b /\ e ∈ entries b.
Proof.
  intros He%list_elem_of_In. apply in_concat in He as (l & Hl & He).
  apply list_elem_of_In, list_elem_of_fmap in Hl as (b & -> & [i Hi]%list_elem_of_lookup).
  exists i, b. by rewrite <- list_elem_of_In in He.
Qed.

Lemma in_index t n : table_ok t -> is_Some (node_to_bucket t !! n) <-> n ∈ entry_id <$> all_entries t.
Proof.
  intros [_ _ _ Hi]. split.
  - intros [i (b & Hb & (e & -> & He)%list_elem_of_fmap)%Hi]. apply list_elem_of_fmap_2. by eapply elem_of_all.
  - intros (e & -> & (i & b & Hb & He)%elem_of_all_inv)%list_elem_of_fmap. exists i. apply Hi.
    exists b. split; [done|]. by apply list_elem_of_fmap_2.
Qed.

Lemma insert_entry_perm t i b e : buckets t !! i = Some b ->
  all_entries (insert_entry t i b e) ≡ₚ e :: all_entries t.
Proof.
  intros Hb. pose proof (all_entries_update (buckets t) i b (bucket_add b e) Hb) as Hp. cbn in Hp.
  unfold all_entries. cbn. rewrite (assoc_L (++)) in Hp.
  apply (Permutation_app_inv_r (entries b)). cbn. rewrite Hp.
  rewrite (Permutation_app_comm _ [e]). cbn. done.
Qed.

Lemma forget_entry_perm t i b pos e e' : buckets t !! i = Some b -> entries b !! pos = Some e ->
  e :: all_entries (forget_entry t i (remove_at b pos e) e') ≡ₚ all_entries t.
Proof.
  intros Hb He. pose proof (all_entries_update (buckets t) i b (remove_at b pos e) Hb) as Hp. cbn in Hp.
  pose proof (delete_Permutation _ _ _ He) as Hd. revert Hp Hd. unfold all_entries. cbn.
  generalize (concat (entries <$> <[i:=remove_at b pos e]> (buckets t))) (delete pos (entries b)).
  intros l d Hp Hd. rewrite Hd in Hp. apply (Permutation_app_inv_r d). rewrite <- Hp. cbn.
  by rewrite Permutation_middle.
Qed.

Lemma insert_entry_ok t i b e : table_ok t -> buckets t !! i = Some b ->
  entry_id e ∉ entry_id <$> all_entries t -> table_ok (insert_entry t i b e).
Proof.
  intros Ht Hb Hn. pose proof (insert_entry_perm t i b e Hb) as Hp. destruct Ht as [T1 T2 T3 T4]. split.
  - apply Forall_insert; [done|]. apply bucket_add_ok. by eapply (Forall_lookup_1 _ _ _ _ T1).
  - intros s. rewrite (count_in_perm _ _ _ Hp), count_in_cons. cbn [insert_entry subnet_totals].
    rewrite count_of_insert. case_decide as E; [|apply T2]. subst s. by rewrite T2.
  - rewrite Hp. cbn. by constructor.
  - intros n j. cbn [insert_entry node_to_bucket buckets].
    assert (Hlen : (i < length (buckets t))%nat) by (by eapply lookup_lt_Some).
    destruct (decide (n = entry_id e)) as [->|Hne].
    + rewrite lookup_insert_eq. split.
      * intros [= <-]. exists (bucket_add b e). rewrite list_lookup_insert_eq by done. split; [done|].
        cbn. rewrite fmap_app. apply elem_of_app. right. apply list_elem_of_singleton. done.
      * intros (b' & Hb' & Hin). destruct (decide (i = j)) as [->|Hij]; [done|].
        rewrite list_lookup_insert_ne in Hb' by done. destruct Hn.
        apply list_elem_of_fmap in Hin as (e' & -> & He'). apply list_elem_of_fmap_2. by eapply elem_of_all.
    + rewrite lookup_insert_ne by done. rewrite T4. destruct (decide (i = j)) as [->|Hij].
      * rewrite list_lookup_insert_eq by done. split; intros (b' & Hb' & Hin).
        -- simplify_eq. eexists. split; [done|]. cbn. rewrite fmap_app. apply elem_of_app. by left.
        -- simplify_eq. exists b. split; [done|]. cbn in Hin. rewrite fmap_app in Hin.
           apply elem_of_app in Hin as [?|Hin]; [done|]. by apply list_elem_of_singleton in Hin.
      * by rewrite list_lookup_insert_ne by done.
Qed.

Lemma forget_entry_ok t i b pos e e' : table_ok t -> buckets t !! i = Some b -> entries b !! pos = Some e ->
  entry_id e' = entry_id e -> entry_subnet e' = entry_subnet e ->
  table_ok (forget_entry t i (remove_at b pos e) e').
Proof.
  intros Ht Hb He Eid Esub. pose proof (forget_entry_perm t i b pos e e' Hb He) as Hp.
  destruct Ht as [T1 T2 T3 T4]. rewrite <- Hp in T3. apply NoDup_cons in T3 as [Hnot T3]. split.
  - apply Forall_insert; [done|]. apply remove_at_ok; [|done]. by eapply (Forall_lookup_1 _ _ _ _ T1).
  - intros s. pose proof (T2 s) as Hs. pose proof (T2 (entry_subnet e)) as Hse.
    rewrite <- (count_in_perm _ _ _ Hp), count_in_cons in Hs.
    rewrite <- (count_in_perm _ _ _ Hp), count_in_cons, decide_True in Hse by done.
    cbn [forget_entry subnet_totals]. rewrite Esub. unfold count_of in Hs, Hse |- *.
    destruct (subnet_totals t !! entry_subnet e) as [c|] eqn:Ec; cbn in Hse; [|done].
    case_decide as E; [subst s; rewrite lookup_insert_eq; cbn; lia|]. by rewrite lookup_insert_ne.
  - done.
  - intros n j. cbn [forget_entry node_to_bucket buckets]. rewrite Eid.
    assert (Hlen : (i < length (buckets t))%nat) by (by eapply lookup_lt_Some).
    destruct (decide (n = entry_id e)) as [->|Hne].
    + rewrite lookup_delete_eq. split; [done|]. intros (b' & Hb' & (x & Ex & Hx)%list_elem_of_fmap).
      destruct Hnot. rewrite Ex. apply list_elem_of_fmap_2. by eapply (elem_of_all (forget_entry _ _ _ _)).
    + rewrite lookup_delete_ne by done. rewrite T4. destruct (decide (i = j)) as [->|Hij].
      * rewrite list_lookup_insert_eq by done. pose proof (delete_Permutation _ _ _ He) as Hd.
        split; intros (b' & Hb' & Hin); simplify_eq; eexists; (split; [done|]); cbn [remove_at entries] in *;
          revert Hd Hin; generalize (delete pos (entries b)); intros d Hd Hin; rewrite Hd in *; cbn in *.
        -- by apply elem_of_cons in Hin as [?|?].
        -- apply elem_of_cons. by right.
      * by rewrite list_lookup_insert_ne by done.
Qed.

Lemma oldest_from_lookup l i best (n : list AddressEntry) : (forall k e, l !! k = Some e -> n !! (i + k)%nat = Some e) ->
  n !! best.1 = Some best.2 -> n !! (oldest_from i l best).1 = Some (oldest_from i l best).2.
Proof.
  revert i best. induction l as [|e l IH]; intros i best Hl Hb; cbn [oldest_from]; [done|].
  apply IH.
  - intros k x Hk. replace (S i + k)%nat with (i + S k)%nat by lia. by apply Hl.
  - destruct (_ <? _); [|done]. cbn. specialize (Hl O e eq_refl). by rewrite Nat.add_0_r in Hl.
Qed.

Lemma evict_oldest_spec b b' e : evict_oldest b = Some (b', e) ->
  exists pos, entries b !! pos = Some e /\ b' = remove_at b pos e.
Proof.
  unfold evict_oldest. destruct (entries b) as [|x l] eqn:El; [done|]. intros [= <- <-].
  eexists. split; [|done]. apply oldest_from_lookup; [|done]. intros k y Hk. done.
Qed.

(** *** The manager *)

Section manager_props.
Context (pair_hash : SubnetKey -> SubnetKey -> u64) (subnet_hash : SubnetKey -> u64).

Abbreviation ids t := (entry_id <$> all_entries t).

Record manager_ok (m : AddressManager) : Prop := {
  mo_new : table_ok (new_table m);
  mo_tried : table_ok (tried_table m);
  mo_disjoint id : id ∈ ids (new_table m) -> id ∉ ids (tried_table m);
  mo_size_new : Forall (fun b => length (entries b) <= bucket_size (config m))%nat (buckets (new_table m));
  mo_size_tried : Forall (fun b => length (entries b) <= bucket_size (config m))%nat (buckets (tried_table m));
  mo_subnet_new : Forall (fun b => forall s, count_in s (entries b) <= max_per_subnet_per_bucket (config m))%nat
    (buckets (new_table m));
  mo_total s : (count_in s (all_entries (new_table m)) + count_in s (all_entries (tried_table m))
                <= max_per_subnet_total (config m))%nat;
  mo_never : Forall (fun e => last_success e = None) (all_entries (new_table m));
  mo_succeeded : Forall (fun e => is_Some (last_success e)) (all_entries (tried_table m));
  mo_length_new : length (buckets (new_table m)) = new_bucket_count (config m);
  mo_length_tried : length (buckets (tried_table m)) = tried_bucket_count (config m);
  mo_place i b e : buckets (tried_table m) !! i = Some b -> e ∈ entries b ->
    calculate_tried_bucket subnet_hash m (entry_subnet e) = Some i
}.

Lemma bucket_index_lookup {A} hash count (l : list A) : (0 < count)%nat -> length l = count ->
  exists i x, bucket_index hash count = Some i /\ l !! i = Some x.
Proof.
  intros Hc Hl. unfold bucket_index. rewrite (proj2 (Nat.eqb_neq _ _)) by lia.
  pose proof (Z.mod_pos_bound hash (Z.of_nat count) ltac:(lia)) as Hm.
  destruct (lookup_lt_is_Some_2 l (Z.to_nat (hash mod Z.of_nat count))) as [x Hx]; [lia|]. eauto.
Qed.

Lemma table_new_ok n : table_ok (table_new n) /\ all_entries (table_new n) = [].
Proof.
  assert (Ha : all_entries (table_new n) = []) by (unfold all_entries; cbn; induction n; done).
  split; [|done]. split.
  - cbn. apply Forall_replicate. intros s. done.
  - intros s. by rewrite Ha.
  - rewrite Ha. constructor.
  - intros k i. cbn. split; [done|]. intros (b & Hb & Hin). apply lookup_replicate in Hb as [-> _]. by apply elem_of_nil in Hin.
Qed.

Lemma manager_new_ok c : manager_ok (new c).
Proof.
  destruct (table_new_ok (new_bucket_count c)) as [N1 N2], (table_new_ok (tried_bucket_count c)) as [T1 T2].
  split; cbn [new new_table tried_table config]; rewrite ?N2, ?T2; try done.
  - intros id Hid. by apply elem_of_nil in Hid.
  - apply Forall_replicate. cbn. lia.
  - apply Forall_replicate. cbn. lia.
  - apply Forall_replicate. intros s. unfold count_in. cbn. lia.
  - intros s. unfold count_in. cbn. lia.
  - cbn. by rewrite length_replicate.
  - cbn. by rewrite length_replicate.
  - intros i b e Hb He. apply lookup_replicate in Hb as [-> _]. by apply elem_of_nil in He.
Qed.

Lemma can_accept_spec b s c : bucket_ok b -> can_accept b s c = true ->
  (length (entries b) < bucket_size c)%nat /\ (count_in s (entries b) < max_per_subnet_per_bucket c)%nat.
Proof.
  intros Hb Ha. unfold can_accept in Ha. destruct (_ <=? _)%nat eqn:E; [done|].
  apply Nat.leb_gt in E. apply Nat.ltb_lt in Ha. by rewrite Hb in Ha.
Qed.

Lemma add_new_ok p src now m : (0 < new_bucket_count (config m))%nat -> manager_ok m ->
  let r := add_new pair_hash p src now m in
  manager_ok r.1 /\ config r.1 = config m /\ r.2 <> Panic
  /\ (r.2 = Ok true -> node_id p ∈ ids (new_table r.1)).
Proof.
  intros Hc Hm. cbn zeta. unfold add_new. destruct (_ || _) eqn:Ek; [by split_and!|].
  apply orb_false_iff in Ek as [Et%bool_decide_eq_false En%bool_decide_eq_false].
  rewrite in_index in Et, En by apply Hm.
  set (addr := from_ip (ip (socket_addr p))). destruct (_ <=? _)%nat eqn:Etot; [by split_and!|].
  apply Nat.leb_gt in Etot. rewrite !to_totals in Etot by apply Hm.
  unfold calculate_new_bucket.
  destruct (bucket_index_lookup (pair_hash (from_ip src) addr) _ (buckets (new_table m)) Hc)
    as (i & b & -> & Hb); [apply Hm|]. rewrite Hb.
  destruct (can_accept b addr (config m)) eqn:Ea; cbn [negb]; [|by split_and!].
  destruct Hm as [M1 M2 M3 M4 M5 M6 M7 M8 M9 M10 M11 M12].
  apply can_accept_spec in Ea as [Ea1 Ea2]; [|by eapply (Forall_lookup_1 _ _ _ _ (to_buckets _ M1))].
  set (e := entry_new p now (from_ip src)). pose proof (insert_entry_perm (new_table m) i b e Hb) as Hp.
  split_and!; [|done|done|].
  - split; cbn [fst new_table tried_table config]; try done.
    + by apply insert_entry_ok.
    + intros id. rewrite Hp. cbn. rewrite elem_of_cons. intros [->|Hid]; [done|]. by apply M3.
    + apply Forall_insert; [done|]. cbn. rewrite length_app. cbn. lia.
    + apply Forall_insert; [done|]. intros s. cbn [bucket_add entries].
      rewrite (count_in_perm s _ (e :: entries b)) by (by rewrite Permutation_app_comm).
      rewrite count_in_cons. pose proof (Forall_lookup_1 _ _ _ _ M6 Hb s) as Hs. cbn in Hs.
      case_decide as Es; [|lia]. subst s. change (entry_subnet e) with addr. lia.
    + intros s. rewrite (count_in_perm s _ _ Hp), count_in_cons. specialize (M7 s).
      case_decide as Es; [|lia]. subst s. change (entry_subnet e) with addr. fold addr in Etot. lia.
    + rewrite Hp. by constructor.
    + cbn. by rewrite length_insert.
  - intros _. cbn [fst new_table]. rewrite Hp. cbn. by left.
Qed.

Lemma bucket_remove_spec b id b' e : bucket_remove b id = Some (b', e) ->
  exists pos, entries b !! pos = Some e /\ entry_id e = id /\ b' = remove_at b pos e.
Proof.
  unfold bucket_remove. intros ([pos x] & Hf & Hr)%bind_Some. injection Hr as <- <-.
  apply list_find_Some in Hf as (H1 & H2 & _). eauto.
Qed.

(** An address that leaves the New table takes its place in the Tried table. *)
Lemma accept_ok m t tb i e : manager_ok m -> table_ok t -> buckets t !! i = Some tb ->
  entry_id e ∉ ids t -> entry_id e ∉ ids (new_table m) -> is_Some (last_success e) ->
  Forall (fun b => length (entries b) <= bucket_size (config m))%nat (buckets t) ->
  (length (entries tb) < bucket_size (config m))%nat ->
  (forall s, count_in s (all_entries (new_table m)) + count_in s (all_entries t)
     + (if decide (entry_subnet e = s) then 1 else 0) <= max_per_subnet_total (config m))%nat ->
  (forall id, id ∈ ids (new_table m) -> id ∉ ids t) ->
  Forall (fun e => is_Some (last_success e)) (all_entries t) ->
  length (buckets t) = tried_bucket_count (config m) ->
  (forall i b e, buckets t !! i = Some b -> e ∈ entries b ->
     calculate_tried_bucket subnet_hash m (entry_subnet e) = Some i) ->
  calculate_tried_bucket subnet_hash m (entry_subnet e) = Some i ->
  manager_ok {| new_table := new_table m; tried_table := insert_entry t i tb e; config := config m |}.
Proof.
  intros Hm Ht Hb Hn1 Hn2 Hl Hsz Hroom Htot Hdis Hsuc Hlen Hpl Hi.
  pose proof (insert_entry_perm t i tb e Hb) as Hp.
  destruct Hm as [M1 M2 M3 M4 M5 M6 M7 M8 M9 M10 M11 M12]. split; cbn [new_table tried_table config]; try done.
  - by apply insert_entry_ok.
  - intros id Hid. rewrite Hp. cbn. rewrite elem_of_cons. intros [->|Hid']; [done|]. by eapply Hdis.
  - apply Forall_insert; [done|]. cbn. rewrite length_app. cbn. lia.
  - intros s. rewrite (count_in_perm s _ _ Hp), count_in_cons. specialize (Htot s). lia.
  - rewrite Hp. by constructor.
  - cbn. by rewrite length_insert.
  - intros j b x Hj Hx. cbn in Hj. unfold calculate_tried_bucket in *. cbn [config].
    assert (Hlt : (i < length (buckets t))%nat) by (by eapply lookup_lt_Some).
    destruct (decide (i = j)) as [->|Hne].
    + rewrite list_lookup_insert_eq in Hj by done. injection Hj as <-. cbn in Hx.
      apply elem_of_app in Hx as [Hx|Hx%list_elem_of_singleton]; [by eapply Hpl|by subst x].
    + rewrite list_lookup_insert_ne in Hj by done. by eapply Hpl.
Qed.

(** An entry of the New table is taken out. *)
Lemma taken_ok m i b pos e e' : manager_ok m -> buckets (new_table m) !! i = Some b ->
  entries b !! pos = Some e -> entry_id e' = entry_id e -> entry_subnet e' = entry_subnet e ->
  let m' := {| new_table := forget_entry (new_table m) i (remove_at b pos e) e';
               tried_table := tried_table m; config := config m |} in
  manager_ok m' /\ entry_id e ∉ ids (new_table m') /\ entry_id e ∉ ids (tried_table m')
  /\ forall s, (count_in s (all_entries (new_table m')) + count_in s (all_entries (tried_table m))
        + (if decide (entry_subnet e = s) then 1 else 0) <= max_per_subnet_total (config m))%nat.
Proof.
  intros Hm Hb He Eid Esub. cbn zeta. pose proof (forget_entry_perm (new_table m) i b pos e e' Hb He) as Hp.
  pose proof (delete_Permutation _ _ _ He) as Hd.
  destruct Hm as [M1 M2 M3 M4 M5 M6 M7 M8 M9 M10 M11 M12]. pose proof (to_nodup _ M1) as Hnd.
  rewrite <- Hp in Hnd. apply NoDup_cons in Hnd as [Hnot _].
  assert (Hsub : forall x, x ∈ all_entries (forget_entry (new_table m) i (remove_at b pos e) e') ->
    x ∈ all_entries (new_table m)) by (intros x Hx; rewrite <- Hp; by apply list_elem_of_further).
  assert (Htot : forall s, (count_in s (all_entries (forget_entry (new_table m) i (remove_at b pos e) e'))
     + (if decide (entry_subnet e = s) then 1 else 0) = count_in s (all_entries (new_table m)))%nat).
  { intros s. rewrite <- (count_in_perm s _ _ Hp), count_in_cons. lia. }
  split; [|split_and!]; cbn [new_table tried_table config] in *; try done.
  2:{ apply M3. rewrite <- Hp. cbn. by left. }
  2:{ intros s. specialize (M7 s). specialize (Htot s). lia. }
  split; cbn [new_table tried_table config]; try done.
  - by apply forget_entry_ok.
  - intros id (x & -> & Hx)%list_elem_of_fmap. by apply M3, list_elem_of_fmap_2, Hsub.
  - apply Forall_insert; [done|]. pose proof (Forall_lookup_1 _ _ _ _ M4 Hb) as Hl. cbn in Hl |- *.
    apply Permutation_length in Hd. cbn in Hd. lia.
  - apply Forall_insert; [done|]. intros s. pose proof (Forall_lookup_1 _ _ _ _ M6 Hb s) as Hs. cbn in Hs |- *.
    rewrite (count_in_perm s _ _ Hd), count_in_cons in Hs. lia.
  - intros s. specialize (M7 s). specialize (Htot s). lia.
  - apply Forall_forall. intros x Hx. eapply Forall_forall in M8; [exact M8|]. by apply Hsub.
  - cbn. by rewrite length_insert.
Qed.

Lemma promote_ok id now m : (0 < tried_bucket_count (config m))%nat -> manager_ok m ->
  let r := promote_to_tried subnet_hash id now m in
  manager_ok r.1 /\ config r.1 = config m /\ r.2 <> Panic
  /\ (r.2 = Ok true -> id ∈ ids (tried_table r.1)).
Proof.
  intros Hc Hm. cbn zeta. unfold promote_to_tried.
  destruct (node_to_bucket (new_table m) !! id) as [i|] eqn:Ei; [|by split_and!].
  apply (to_index _ (mo_new _ Hm)) in Ei as (b & Hb & _). rewrite Hb.
  destruct (bucket_remove b id) as [[b' e]|] eqn:Er; [|by split_and!].
  apply bucket_remove_spec in Er as (pos & He & <- & ->).
  destruct (taken_ok m i b pos e (succeeded e now) Hm Hb He eq_refl eq_refl) as (Hm' & Hn1 & Hn2 & Htot).
  set (m' := {| new_table := _; tried_table := _; config := _ |}) in *.
  set (e' := succeeded e now) in *.
  destruct (bucket_index_lookup (subnet_hash (entry_subnet e')) _ (buckets (tried_table m')) Hc)
    as (ti & tb & Hti & Htb); [apply Hm|].
  change (calculate_tried_bucket subnet_hash m' (entry_subnet e') = Some ti) in Hti. rewrite Hti, Htb.
  pose proof (mo_tried _ Hm') as Ht. pose proof (Forall_lookup_1 _ _ _ _ (to_buckets _ Ht) Htb) as Hbo.
  pose proof (Forall_lookup_1 _ _ _ _ (mo_size_tried _ Hm') Htb) as Hsz. cbn beta in Hsz.
  change (config m') with (config m) in Hsz.
  destruct (can_accept tb (entry_subnet e') (config m')) eqn:Ea; cbn [negb].
  - apply can_accept_spec in Ea as [Ea _]; [|done]. split_and!; [|done|done|].
    + apply (accept_ok m' (tried_table m') tb ti e' Hm' Ht); try done; apply Hm'.
    + intros _. cbn [fst tried_table]. rewrite insert_entry_perm by done. cbn. by left.
  - destruct (evict_oldest tb) as [[tb' x]|] eqn:Ex; [|by split_and!].
    apply evict_oldest_spec in Ex as (xpos & Hx & ->).
    pose proof (forget_entry_perm (tried_table m') ti tb xpos x x Htb Hx) as Hp.
    pose proof (forget_entry_ok (tried_table m') ti tb xpos x x Ht Htb Hx eq_refl eq_refl) as Ht'.
    pose proof (delete_Permutation _ _ _ Hx) as Hd. apply Permutation_length in Hd. cbn in Hd.
    set (t' := forget_entry (tried_table m') ti (remove_at tb xpos x) x) in *.
    assert (Hsub : forall y, y ∈ all_entries t' -> y ∈ all_entries (tried_table m'))
      by (intros y Hy; rewrite <- Hp; by apply list_elem_of_further).
    assert (Hids : forall n, n ∈ ids t' -> n ∈ ids (tried_table m')).
    { intros n (y & -> & Hy)%list_elem_of_fmap. by apply list_elem_of_fmap_2, Hsub. }
    assert (Htb' : buckets t' !! ti = Some (remove_at tb xpos x)).
    { cbn. apply list_lookup_insert_eq. by eapply lookup_lt_Some. }
    split_and!; [|done|done|].
    + apply (accept_ok m' t' _ ti e' Hm' Ht' Htb'); try done.
      * intros Hin. by apply Hn2, Hids.
      * apply Forall_insert; [apply Hm'|]. cbn [remove_at entries]. change (config m') with (config m). lia.
      * cbn [remove_at entries]. change (config m') with (config m). lia.
      * intros s. specialize (Htot s).
        pose proof (count_in_perm s _ _ Hp) as Hq. rewrite count_in_cons in Hq.
        change (tried_table m') with (tried_table m) in Hq. change (entry_subnet e') with (entry_subnet e).
        change (config m') with (config m). revert Htot Hq. cbn [new_table m']. lia.
      * intros n Hin Hin'. by eapply (mo_disjoint _ Hm'), Hids.
      * apply Forall_forall. intros y Hy. pose proof (mo_succeeded _ Hm') as Hs.
        eapply Forall_forall in Hs; [exact Hs|]. by apply Hsub.
      * cbn. rewrite length_insert. apply Hm.
      * intros j y z Hj Hz. assert (Hlt : (ti < length (buckets (tried_table m')))%nat) by (by eapply lookup_lt_Some).
        cbn in Hj. destruct (decide (ti = j)) as [->|Hne].
        -- rewrite list_lookup_insert_eq in Hj by done. injection Hj as <-. cbn in Hz.
           eapply (mo_place _ Hm'); [exact Htb|]. by eapply list_elem_of_delete_inv.
        -- rewrite list_lookup_insert_ne in Hj by done. by eapply (mo_place _ Hm').
    + intros _. cbn [fst tried_table]. rewrite insert_entry_perm by done. cbn. by left.
Qed.

(** C31 (invariant): the address manager keeps its tables apart and within their
    limits.  After any additions and promotions the indices are exact (a node is
    in at most one bucket of one table, where the index finds it, and the counts
    of every subnet are the numbers of its entries), no bucket is above its size,
    no bucket of the New table holds more addresses of a subnet than allowed, and
    both tables together hold no more of a subnet than its total; the New table
    has only addresses that never answered, the Tried table only addresses that
    did, in the bucket of their subnet; no call panics. *)
Theorem address_manager_inv c (Hn : (0 < new_bucket_count c)%nat) (Ht : (0 < tried_bucket_count c)%nat) ops :
  let m := foldl (fun m o => (perform pair_hash subnet_hash m o).1) (new c) ops in
  manager_ok m /\ config m = c /\ forall o, (perform pair_hash subnet_hash m o).2 <> Panic.
Proof.
  cbn zeta.
  assert (Hstep : forall m o, manager_ok m -> config m = c -> let r := perform pair_hash subnet_hash m o in
    manager_ok r.1 /\ config r.1 = c /\ r.2 <> Panic).
  { intros m [p src now|id now] Hm <-; cbn [perform].
    - by destruct (add_new_ok p src now m Hn Hm) as (? & ? & ? & _).
    - by destruct (promote_ok id now m Ht Hm) as (? & ? & ? & _). }
  assert (H0 : forall ops m, manager_ok m -> config m = c ->
    let m' := foldl (fun m o => (perform pair_hash subnet_hash m o).1) m ops in
    manager_ok m' /\ config m' = c).
  { clear ops. induction ops as [|o ops IH]; intros m Hm Hc; [done|]. cbn [foldl].
    destruct (Hstep m o Hm Hc) as (? & ? & _). by apply IH. }
  destruct (H0 ops (new c) (manager_new_ok c) eq_refl) as [H1 H2]. split_and!; [done|done|].
  intros o. by apply Hstep.
Qed.

End manager_props.

(** A random index below the number of entries picks the entry at that index of all
    entries in the order of the buckets: each one by exactly one index. *)
Lemma random_entry_exact t random_fn : (random_fn (table_len t) < table_len t)%nat ->
  random_entry_with t random_fn = all_entries t !! random_fn (table_len t).
Proof.
  intros Hr. unfold random_entry_with. rewrite (proj2 (Nat.eqb_neq _ _)) by lia. clear Hr.
  generalize (random_fn (table_len t)). intros r. unfold all_entries. revert r.
  induction (buckets t) as [|b bs IH]; intros r; cbn [entry_at fmap list_fmap concat]; [by rewrite lookup_nil|].
  destruct (r <? length (entries b))%nat eqn:E.
  - apply Nat.ltb_lt in E. rewrite lookup_app_l; done.
  - apply Nat.ltb_ge in E. rewrite lookup_app_r, IH; done.
Qed.

Definition small_tables : AddressManagerConfig := {|
  new_bucket_count := 4; tried_bucket_count := 1; bucket_size := 3;
  max_per_subnet_per_bucket := 2; max_per_subnet_total := 8 |}.
Definition source_hash (source addr : SubnetKey) : u64 := source !!! 0%nat.
Definition example_peer (id a b : Z) : PeerInfo := peer_new id {| ip := V4 [a; b; 0; id]; port := 1 |} 0.
Definition takeover : list Op := [
  AddNew (example_peer 1 10 10) (V4 [0; 0; 0; 0]) 1; Promote 1 1;
  AddNew (example_peer 2 66 66) (V4 [1; 0; 0; 0]) 2; Promote 2 2;
  AddNew (example_peer 3 66 66) (V4 [2; 0; 0; 0]) 3; Promote 3 3;
  AddNew (example_peer 4 66 66) (V4 [3; 0; 0; 0]) 4; Promote 4 4].

Lemma address_manager_inv_witness :
  manager_ok (fun _ => 0) (foldl (fun m o => (perform source_hash (fun _ => 0) m o).1) (new small_tables) takeover).
Proof.
  apply (address_manager_inv source_hash (fun _ => 0) small_tables ltac:(cbn; lia) ltac:(cbn; lia) takeover).
Defined.

(** The third address of a subnet displaces the oldest address of another subnet
    from the Tried table, and the bucket holds three of a subnet where two are
    allowed. *)
Example tried_subnet_limit_exceeded :
  let m := foldl (fun m o => (perform source_hash (fun _ => 0) m o).1) (new small_tables) takeover in
  entry_id <$> all_entries (tried_table m) = [2; 3; 4]
  /\ (max_per_subnet_per_bucket small_tables < count_in [66; 66; 0; 0]%Z (all_entries (tried_table m)))%nat.
Proof. split; vm_compute; [done|lia]. Qed.

(** A network of the sixth version of the protocol shares its key with one of the
    fourth. *)
Example subnet_keys_collide : from_ip (V4 [32; 1; 5; 6]) = from_ip (V6 (32 :: 1 :: replicate 14 0)).
Proof. done. Qed.

End AddrMan.

(** ** [domain/connection_slots/] *)

Module Slots.

(** Scores are [f64].  [f_lt] and [f_le] are its comparisons, false when a side is
    not a number. *)
Class Float : Type := {
  F : Type;
  f_zero : F;
  f_of_Z : Z -> F;
  f_ratio : Z -> Z -> F;
  f_add : F -> F -> F;
  f_mul : F -> F -> F;
  f_div : F -> F -> F;
  f_lt : F -> F -> bool;
  f_le : F -> F -> bool
}.

Inductive ConnectionDirection := Outbound | Inbound.
#[export] Instance ConnectionDirection_eq_dec : EqDecision ConnectionDirection.
Proof. solve_decision. Defined.

Inductive AcceptResult := Accepted | Rejected | Evicted (victim : NodeId).

Section slots.
Context `{Float}.

Record ConnectionSlotsConfig := {
  max_outbound : nat;
  max_inbound : nat;
  protection_threshold_secs : u64;
  protection_threshold_score : F;
  max_protected_per_round : nat
}.

Definition slots_config_default : ConnectionSlotsConfig := {|
  max_outbound := 10; max_inbound := 40; protection_threshold_secs := 3600;
  protection_threshold_score := f_of_Z 5; max_protected_per_round := 10
|}.

Record ConnectionInfo := {
  conn_id : NodeId;
  direction : ConnectionDirection;
  connected_at : Timestamp;
  score : F;
  bytes_received : u64;
  bytes_sent : u64;
  ping_failures : Z
}.

Definition connection_new (id : NodeId) (d : ConnectionDirection) (now : Timestamp) : ConnectionInfo := {|
  conn_id := id; direction := d; connected_at := now; score := f_zero;
  bytes_received := 0; bytes_sent := 0; ping_failures := 0
|}.

Definition uptime_secs (c : ConnectionInfo) (now : Timestamp) : u64 := saturating_sub now (connected_at c).

Definition is_protected (c : ConnectionInfo) (now : Timestamp) (config : ConnectionSlotsConfig) : bool :=
  (protection_threshold_secs config <=? uptime_secs c now)
  || f_le (protection_threshold_score config) (score c).

Definition eviction_score (c : ConnectionInfo) (now : Timestamp) : F :=
  let uptime_minutes := f_div (f_of_Z (uptime_secs c now)) (f_of_Z 60) in
  let bandwidth_score := f_div (f_of_Z (wrapping_add 64 (bytes_received c) (bytes_sent c))) (f_of_Z 1000000) in
  let ping_penalty := f_mul (f_of_Z (ping_failures c)) (f_of_Z (-2)) in
  f_add (f_add (f_add (score c) (f_mul uptime_minutes (f_ratio 1 10))) bandwidth_score) ping_penalty.

Record ConnectionSlots := {
  connections : gmap NodeId ConnectionInfo;
  config : ConnectionSlotsConfig
}.

Definition new (c : ConnectionSlotsConfig) : ConnectionSlots := {| connections := ∅; config := c |}.

Definition count_dir (d : ConnectionDirection) (m : gmap NodeId ConnectionInfo) : nat :=
  size (filter (fun kv => direction kv.2 = d) m).

Definition outbound_count (s : ConnectionSlots) : nat := count_dir Outbound (connections s).
Definition inbound_count (s : ConnectionSlots) : nat := count_dir Inbound (connections s).
Definition has_outbound_slot (s : ConnectionSlots) : bool := (outbound_count s <? max_outbound (config s))%nat.
Definition has_inbound_slot (s : ConnectionSlots) : bool := (inbound_count s <? max_inbound (config s))%nat.
Definition is_connected (s : ConnectionSlots) (id : NodeId) : bool := bool_decide (is_Some (connections s !! id)).

Definition set_connections (s : ConnectionSlots) (m : gmap NodeId ConnectionInfo) : ConnectionSlots :=
  {| connections := m; config := config s |}.

Definition reserve_outbound (id : NodeId) (now : Timestamp) (s : ConnectionSlots) : ConnectionSlots * bool :=
  if is_connected s id then (s, false)
  else if negb (has_outbound_slot s) then (s, false)
  else (set_connections s (<[id := connection_new id Outbound now]> (connections s)), true).

(** [sort_by] with what is not comparable taken as equal. *)
Definition worse (now : Timestamp) (a b : ConnectionInfo) : Prop :=
  f_lt (eviction_score b now) (eviction_score a now) = false.
#[export] Instance worse_dec now a b : Decision (worse now a b).
Proof. unfold worse. apply _. Defined.

(** [values] is the order in which the map is visited. *)
Definition find_eviction_candidate (values : list ConnectionInfo) (new_peer_score : F) (now : Timestamp)
  (s : ConnectionSlots) : option NodeId :=
  let candidates := base.filter (fun c => is_protected c now (config s) = false)
    (base.filter (fun c => direction c = Inbound) values) in
  worst ← head (stable_sort (worse now) candidates);
  if f_lt (eviction_score worst now) new_peer_score then Some (conn_id worst) else None.

Definition inbound_connection (id : NodeId) (sc : F) (now : Timestamp) : ConnectionInfo := {|
  conn_id := id; direction := Inbound; connected_at := now; score := sc;
  bytes_received := 0; bytes_sent := 0; ping_failures := 0
|}.

Definition try_accept_inbound (values : list ConnectionInfo) (id : NodeId) (sc : F) (now : Timestamp)
  (s : ConnectionSlots) : ConnectionSlots * AcceptResult :=
  let conn := inbound_connection id sc now in
  if is_connected s id then (s, Rejected)
  else if has_inbound_slot s then (set_connections s (<[id := conn]> (connections s)), Accepted)
  else
    match find_eviction_candidate values sc now s with
    | Some victim => (set_connections s (<[id := conn]> (delete victim (connections s))), Evicted victim)
    | None => (s, Rejected)
    end.

Definition disconnect (id : NodeId) (s : ConnectionSlots) : ConnectionSlots * option ConnectionInfo :=
  (set_connections s (delete id (connections s)), connections s !! id).

Definition update_connection (f : ConnectionInfo -> ConnectionInfo) (id : NodeId) (s : ConnectionSlots)
  : ConnectionSlots := set_connections s (alter f id (connections s)).

Definition update_score (id : NodeId) (sc : F) : ConnectionSlots -> ConnectionSlots :=
  update_connection (fun c => {| conn_id := conn_id c; direction := direction c; connected_at := connected_at c;
    score := sc; bytes_received := bytes_received c; bytes_sent := bytes_sent c;
    ping_failures := ping_failures c |}) id.

Definition record_bytes_received (id : NodeId) (bytes : u64) : ConnectionSlots -> ConnectionSlots :=
  update_connection (fun c => {| conn_id := conn_id c; direction := direction c; connected_at := connected_at c;
    score := score c; bytes_received := saturating_add 64 (bytes_received c) bytes;
    bytes_sent := bytes_sent c; ping_failures := ping_failures c |}) id.

Definition record_bytes_sent (id : NodeId) (bytes : u64) : ConnectionSlots -> ConnectionSlots :=
  update_connection (fun c => {| conn_id := conn_id c; direction := direction c; connected_at := connected_at c;
    score := score c; bytes_received := bytes_received c;
    bytes_sent := saturating_add 64 (bytes_sent c) bytes; ping_failures := ping_failures c |}) id.

Definition record_ping_failure (id : NodeId) : ConnectionSlots -> ConnectionSlots :=
  update_connection (fun c => {| conn_id := conn_id c; direction := direction c; connected_at := connected_at c;
    score := score c; bytes_received := bytes_received c; bytes_sent := bytes_sent c;
    ping_failures := wrapping_add 32 (ping_failures c) 1 |}) id.

Record ConnectionStats := { cs_outbound : nat; cs_inbound : nat; cs_max_outbound : nat; cs_max_inbound : nat }.

Definition stats (s : ConnectionSlots) : ConnectionStats := {|
  cs_outbound := outbound_count s; cs_inbound := inbound_count s;
  cs_max_outbound := max_outbound (config s); cs_max_inbound := max_inbound (config s)
|}.

(** *** What the slots keep *)

Inductive Op :=
| ReserveOutbound (id : NodeId) (now : Timestamp)
| TryAcceptInbound (values : list ConnectionInfo) (id : NodeId) (sc : F) (now : Timestamp)
| Disconnect (id : NodeId)
| UpdateScore (id : NodeId) (sc : F)
| BytesReceived (id : NodeId) (bytes : u64)
| BytesSent (id : NodeId) (bytes : u64)
| PingFailure (id : NodeId).

Definition perform (s : ConnectionSlots) (o : Op) : ConnectionSlots :=
  match o with
  | ReserveOutbound id now => (reserve_outbound id now s).1
  | TryAcceptInbound values id sc now => (try_accept_inbound values id sc now s).1
  | Disconnect id => (disconnect id s).1
  | UpdateScore id sc => update_score id sc s
  | BytesReceived id b => record_bytes_received id b s
  | BytesSent id b => record_bytes_sent id b s
  | PingFailure id => record_ping_failure id s
  end.

(** The values are visited once each. *)
Definition op_ok (s : ConnectionSlots) (o : Op) : Prop :=
  match o with
  | TryAcceptInbound values _ _ _ => values ≡ₚ (map_to_list (connections s)).*2
  | _ => True
  end.

Fixpoint ops_ok (s : ConnectionSlots) (os : list Op) : Prop :=
  match os with
  | [] => True
  | o :: os => op_ok s o /\ ops_ok (perform s o) os
  end.

Record slots_ok (s : ConnectionSlots) : Prop := {
  so_ids id c : connections s !! id = Some c -> conn_id c = id;
  so_outbound : (outbound_count s <= max_outbound (config s))%nat;
  so_inbound : (inbound_count s <= max_inbound (config s))%nat
}.

Lemma count_insert_new d m id c : m !! id = None ->
  count_dir d (<[id := c]> m) = ((if decide (direction c = d) then 1 else 0) + count_dir d m)%nat.
Proof.
  intros Hn. unfold count_dir. case_decide as E.
  - rewrite map_filter_insert_True by done. rewrite map_size_insert_None; [done|].
    apply map_lookup_filter_None. by left.
  - rewrite map_filter_insert_False by done. by rewrite delete_id.
Qed.

Lemma count_delete d m id c : m !! id = Some c ->
  (count_dir d (delete id m) + (if decide (direction c = d) then 1 else 0) = count_dir d m)%nat.
Proof.
  intros Hc. rewrite <- (insert_delete_id m id c Hc) at 2. rewrite count_insert_new by apply lookup_delete_eq. lia.
Qed.

Lemma count_alter d m id f : (forall c, direction (f c) = direction c) ->
  count_dir d (alter f id m) = count_dir d m.
Proof.
  intros Hf. destruct (m !! id) as [c|] eqn:E.
  - rewrite <- (insert_delete_id m id c E) at 1. rewrite alter_insert_eq.
    rewrite count_insert_new by apply lookup_delete_eq. pose proof (count_delete d m id c E) as Hd.
    rewrite Hf. lia.
  - by rewrite alter_id by (intros; congruence).
Qed.

Lemma update_connection_ok f id s : (forall c, direction (f c) = direction c) ->
  (forall c, conn_id (f c) = conn_id c) -> slots_ok s -> slots_ok (update_connection f id s).
Proof.
  intros Hd Hi [S1 S2 S3]. split; unfold outbound_count, inbound_count; cbn.
  - intros id' c Hc. destruct (decide (id = id')) as [->|Hne].
    + rewrite lookup_alter_eq in Hc. apply fmap_Some in Hc as (c' & Hc' & ->). rewrite Hi. by apply S1.
    + rewrite lookup_alter_ne in Hc by done. by apply S1.
  - by rewrite count_alter.
  - by rewrite count_alter.
Qed.

(** The victim is a connected inbound peer without protection. *)
Lemma victim_spec values sc now s victim : slots_ok s -> values ≡ₚ (map_to_list (connections s)).*2 ->
  find_eviction_candidate values sc now s = Some victim ->
  exists c, connections s !! victim = Some c /\ direction c = Inbound
    /\ is_protected c now (config s) = false /\ f_lt (eviction_score c now) sc = true.
Proof.
  intros Hs Hv Hf. unfold find_eviction_candidate in Hf. apply bind_Some in Hf as (w & Hw & Hf).
  destruct (f_lt _ _) eqn:El; [|done]. injection Hf as <-.
  assert (Hin : w ∈ values).
  { apply head_Some_elem_of in Hw. rewrite stable_sort_perm in Hw.
    by apply list_elem_of_filter in Hw as [_ [_ Hw]%list_elem_of_filter]. }
  assert (Hp : is_protected w now (config s) = false /\ direction w = Inbound).
  { apply head_Some_elem_of in Hw. rewrite stable_sort_perm in Hw.
    by apply list_elem_of_filter in Hw as [? [? _]%list_elem_of_filter]. }
  rewrite Hv in Hin. apply list_elem_of_fmap in Hin as ([id c] & -> & Hin%elem_of_map_to_list).
  cbn in *. rewrite (so_ids _ Hs id c Hin). exists c. by destruct Hp.
Qed.

Lemma slots_perform_ok s o : slots_ok s -> op_ok s o -> slots_ok (perform s o) /\ config (perform s o) = config s.
Proof.
  intros Hs Ho. destruct o as [id now|values id sc now|id|id sc|id b|id b|id]; cbn [perform];
    try (split; [by apply update_connection_ok|done]).
  - unfold reserve_outbound. destruct (is_connected s id) eqn:Ec; [done|].
    destruct (has_outbound_slot s) eqn:Eo; cbn [negb]; [|done].
    apply bool_decide_eq_false, eq_None_not_Some in Ec. apply Nat.ltb_lt in Eo. split; [|done].
    destruct Hs as [S1 S2 S3]. split; unfold outbound_count, inbound_count in *; cbn.
    + intros id' c [[<- <-]|[_ Hc]]%lookup_insert_Some; [done|by apply S1].
    + rewrite count_insert_new by done. case_decide as E; cbn in E; (done || lia).
    + rewrite count_insert_new by done. case_decide as E; cbn in E; (done || lia).
  - unfold try_accept_inbound. destruct (is_connected s id) eqn:Ec; [done|].
    apply bool_decide_eq_false, eq_None_not_Some in Ec.
    destruct (has_inbound_slot s) eqn:Eo.
    + apply Nat.ltb_lt in Eo. split; [|done].
      destruct Hs as [S1 S2 S3]. split; unfold outbound_count, inbound_count in *; cbn.
      * intros id' c [[<- <-]|[_ Hc]]%lookup_insert_Some; [done|by apply S1].
      * rewrite count_insert_new by done. case_decide as E; cbn in E; (done || lia).
      * rewrite count_insert_new by done. case_decide as E; cbn in E; (done || lia).
    + destruct (find_eviction_candidate values sc now s) as [victim|] eqn:Ev; [|done].
      destruct (victim_spec _ _ _ _ _ Hs Ho Ev) as (c & Hc & Hd & _). split; [|done].
      assert (Hn : delete victim (connections s) !! id = None) by (apply lookup_delete_None; by right).
      destruct Hs as [S1 S2 S3]. split; unfold outbound_count, inbound_count in *; cbn.
      * intros id' x [[<- <-]|[_ [_ Hx]%lookup_delete_Some]]%lookup_insert_Some; [done|by apply S1].
      * rewrite count_insert_new by done. rewrite decide_False by done.
        pose proof (count_delete Outbound _ _ _ Hc). lia.
      * rewrite count_insert_new by done. rewrite decide_True by done.
        pose proof (count_delete Inbound _ _ _ Hc) as Hq.
        rewrite Hd, decide_True in Hq by done. lia.
  - split; [|done]. destruct Hs as [S1 S2 S3].
    assert (Hle : forall d, (count_dir d (delete id (connections s)) <= count_dir d (connections s))%nat).
    { intros d. destruct (connections s !! id) as [c|] eqn:E; [pose proof (count_delete d _ _ _ E); lia|].
      by rewrite delete_id. }
    split; unfold outbound_count, inbound_count in *; cbn.
    + intros id' x [_ Hx]%lookup_delete_Some. by apply S1.
    + etrans; [apply Hle|done].
    + etrans; [apply Hle|done].
Qed.

(** What keeps a connection: it is not told to disconnect, and it is outbound or
    protected when an inbound peer asks. *)
Definition safe_from (s : ConnectionSlots) (o : Op) (id : NodeId) (c : ConnectionInfo) : Prop :=
  match o with
  | Disconnect id' => id' <> id
  | TryAcceptInbound _ _ _ now => direction c = Outbound \/ is_protected c now (config s) = true
  | _ => True
  end.

Lemma slots_perform_keeps s o id c : slots_ok s -> op_ok s o -> connections s !! id = Some c -> safe_from s o id c ->
  exists c', connections (perform s o) !! id = Some c' /\ direction c' = direction c
    /\ connected_at c' = connected_at c.
Proof.
  intros Hs Ho Hc Hsafe.
  assert (Hupd : forall f id', (forall x, direction (f x) = direction x) ->
    (forall x, connected_at (f x) = connected_at x) ->
    exists c', connections (update_connection f id' s) !! id = Some c' /\ direction c' = direction c
      /\ connected_at c' = connected_at c).
  { intros f id' H1 H2. cbn. destruct (decide (id' = id)) as [->|Hne].
    - rewrite lookup_alter_eq, Hc. cbn. eauto.
    - rewrite lookup_alter_ne by done. eauto. }
  destruct o as [id' now|values id' sc now|id'|id' sc|id' b|id' b|id']; cbn [perform]; try by apply Hupd.
  - unfold reserve_outbound. destruct (is_connected s id') eqn:Ec; [eauto|].
    destruct (negb _); [eauto|]. cbn. apply bool_decide_eq_false in Ec.
    rewrite lookup_insert_ne by (intros ->; apply Ec; by eexists). eauto.
  - unfold try_accept_inbound. destruct (is_connected s id') eqn:Ec; [eauto|].
    apply bool_decide_eq_false in Ec. assert (Hne : id' <> id) by (intros ->; apply Ec; by eexists).
    destruct (has_inbound_slot s); cbn; [rewrite lookup_insert_ne by done; eauto|].
    destruct (find_eviction_candidate values sc now s) as [victim|] eqn:Ev; cbn; [|eauto].
    destruct (victim_spec _ _ _ _ _ Hs Ho Ev) as (v & Hv & Hd & Hp & _).
    rewrite lookup_insert_ne by done. rewrite lookup_delete_ne; [eauto|]. intros ->.
    rewrite Hc in Hv. simplify_eq. cbn in Hsafe. destruct Hsafe as [E|E]; congruence.
  - cbn in Hsafe |- *. rewrite lookup_delete_ne by done. eauto.
Qed.

(** Slots are kept.  In every state that the operations of the slots
    reach, outbound and inbound connections are within their limits, and the next
    operation keeps every connection, with its direction and age, that it does
    not disconnect, unless an inbound peer replaces an inbound connection without
    protection: inbound peers never displace outbound or protected ones. *)
Theorem connections_are_kept c os o : ops_ok (new c) (os ++ [o]) ->
  let s := foldl perform (new c) os in
  (outbound_count s <= max_outbound c)%nat /\ (inbound_count s <= max_inbound c)%nat
  /\ forall id conn, connections s !! id = Some conn -> safe_from s o id conn ->
       exists conn', connections (perform s o) !! id = Some conn' /\ direction conn' = direction conn
         /\ connected_at conn' = connected_at conn.
Proof.
  intros Hok. cbn zeta.
  assert (H0 : forall os s, slots_ok s -> ops_ok s (os ++ [o]) ->
    slots_ok (foldl perform s os) /\ config (foldl perform s os) = config s /\ op_ok (foldl perform s os) o).
  { clear Hok. induction os0 as [|o' os' IH]; intros s Hs Hok; [by destruct Hok|].
    destruct Hok as [Ho Hok]. destruct (slots_perform_ok s o' Hs Ho) as [Hs' Hc].
    destruct (IH _ Hs' Hok) as (? & Hc' & ?). rewrite Hc in Hc'. done. }
  destruct (H0 os (new c)) as (Hs & Hc & Ho); [|done|].
  { split; unfold outbound_count, inbound_count, count_dir; cbn; [done| |]; rewrite map_filter_empty, map_size_empty; lia. }
  cbn in Hc. pose proof (so_outbound _ Hs) as S2. pose proof (so_inbound _ Hs) as S3. rewrite Hc in S2, S3. split_and!; [done|done|]. intros id conn Hid Hsafe. by apply slots_perform_keeps.
Qed.

(** Where the comparison orders the scores of the candidates, the victim has a least
    score among them. *)
Lemma victim_least values sc now s victim (P : F -> Prop) : slots_ok s ->
  values ≡ₚ (map_to_list (connections s)).*2 ->
  (forall x y z, P x -> P y -> P z -> f_lt x z = true -> f_lt x y = true \/ f_lt y z = true) ->
  (forall x y, P x -> P y -> f_lt x y = true -> f_lt y x = false) ->
  (forall id c, connections s !! id = Some c -> P (eviction_score c now)) ->
  find_eviction_candidate values sc now s = Some victim ->
  forall id c, connections s !! id = Some c -> direction c = Inbound -> is_protected c now (config s) = false ->
  forall v, connections s !! victim = Some v -> f_lt (eviction_score c now) (eviction_score v now) = false.
Proof.
  intros Hs Hv Hnt Has HP Hf id c Hc Hd Hp v Hvv. unfold find_eviction_candidate in Hf.
  apply bind_Some in Hf as (w & Hw & Hf). destruct (f_lt _ sc) eqn:El; [|done]. injection Hf as Ew.
  set (cands := base.filter _ (base.filter _ values)) in *.
  assert (Hall : forall x, x ∈ cands -> exists k, connections s !! k = Some x).
  { intros x [_ [_ Hx]%list_elem_of_filter]%list_elem_of_filter. rewrite Hv in Hx.
    apply list_elem_of_fmap in Hx as ([k y] & -> & Hx%elem_of_map_to_list). eauto. }
  assert (Hin : c ∈ cands).
  { apply list_elem_of_filter. split; [done|]. apply list_elem_of_filter. split; [done|]. rewrite Hv.
    apply list_elem_of_fmap. exists (id, c). split; [done|]. by apply elem_of_map_to_list. }
  assert (Hwin : w ∈ cands) by (apply head_Some_elem_of in Hw; by rewrite stable_sort_perm in Hw).
  assert (Hvw : v = w).
  { destruct (Hall w Hwin) as [k Hk]. rewrite <- Ew, (so_ids _ Hs k w Hk) in Hvv. by simplify_eq. }
  subst v.
  assert (Hmin : forall l x y, (forall z, z ∈ l -> z ∈ cands) -> head (stable_sort (worse now) l) = Some x ->
    y ∈ l -> worse now x y).
  { clear Hin Hwin Hw Ew El Hvv. intros l. induction l as [|a l IH]; intros x y Hsub Hh Hy; [by apply elem_of_nil in Hy|].
    change (head (stable_insert (worse now) a (stable_sort (worse now) l)) = Some x) in Hh.
    assert (Ha : a ∈ cands) by (apply Hsub; by left).
    assert (Hsub' : forall z, z ∈ l -> z ∈ cands) by (intros z Hz; apply Hsub; by right).
    assert (HPc : forall z, z ∈ cands -> P (eviction_score z now)) by (intros z [k Hk]%Hall; by eapply HP).
    assert (Hrefl : forall z, z ∈ cands -> worse now z z).
    { intros z Hz%HPc. unfold worse. destruct (f_lt _ _) eqn:E; [|done]. by rewrite (Has _ _ Hz Hz E) in E. }
    destruct (stable_sort (worse now) l) as [|h t] eqn:Est.
    - cbn in Hh. simplify_eq. pose proof (stable_sort_perm (worse now) l) as Hpm. rewrite Est in Hpm.
      destruct l as [|? ?]; [|by apply Permutation_nil_cons in Hpm]. apply list_elem_of_singleton in Hy as ->. by apply Hrefl.
    - assert (Hh' : h ∈ cands) by (apply Hsub'; rewrite <- (stable_sort_perm (worse now)), Est; by left).
      cbn in Hh. case_decide as E; injection Hh as <-; apply elem_of_cons in Hy as [->|Hy].
      + by apply Hrefl.
      + assert (IHy : worse now h y) by (by apply IH). unfold worse in *.
        destruct (f_lt (eviction_score y now) (eviction_score a now)) eqn:Ey; [|done].
        destruct (Hnt _ (eviction_score h now) _ (HPc _ (Hsub' _ Hy)) (HPc _ Hh') (HPc _ Ha) Ey); congruence.
      + unfold worse in *. apply Has; [by apply HPc..|]. by destruct (f_lt _ _).
      + by apply IH. }
  exact (Hmin cands w c (fun z Hz => Hz) Hw Hin).
Qed.

End slots.

(** Scores in tenths. *)
Definition tenths : Float := {|
  F := Z; f_zero := 0; f_of_Z x := 10 * x; f_ratio a b := 10 * a / b; f_add := Z.add;
  f_mul a b := a * b / 10; f_div a b := 10 * a / b; f_lt := Z.ltb; f_le := Z.leb
|}.

Definition one_slot : @ConnectionSlotsConfig tenths :=
  @Build_ConnectionSlotsConfig tenths 1 1 60 20 2.

Definition two_calls : list (@Op tenths) := [
  @ReserveOutbound tenths 1 0; @TryAcceptInbound tenths [@connection_new tenths 1 Outbound 0] 2 0 5].

Definition third_call : @Op tenths := @TryAcceptInbound tenths
  [@connection_new tenths 1 Outbound 0; @inbound_connection tenths 2 0 5] 3 10 6.

Lemma connections_are_kept_witness :
  let s := foldl (@perform tenths) (@new tenths one_slot) two_calls in
  exists conn', connections (perform s third_call) !! 1 = Some conn' /\ direction conn' = Outbound.
Proof.
  cbn zeta. destruct (@connections_are_kept tenths one_slot two_calls third_call) as (_ & _ & H).
  - split; [exact I|]. split; [vm_compute; apply Permutation_refl|].
    split; [vm_compute; apply perm_swap|exact I].
  - destruct (H 1 (@connection_new tenths 1 Outbound 0) eq_refl (or_introl eq_refl)) as (c' & H1 & H2 & _).
    exists c'. split; [exact H1|exact H2].
Defined.

End Slots.

(** ** [domain/handshake/] *)

Module Handshake.

Record ForkId := { fork_hash : Z; next : u64 }.
#[export] Instance ForkId_eq_dec : EqDecision ForkId.
Proof. solve_decision. Defined.

Definition is_compatible (self other : ForkId) (our_height : u64) : bool :=
  if negb (fork_hash self =? fork_hash other) then false
  else if (next self =? 0) || (next other =? 0) then true
  else if next self =? next other then true
  else if next other <=? our_height then false
  else true.

Definition is_stale (self : ForkId) (remote_next our_height : u64) : bool :=
  negb (remote_next =? 0) && (remote_next <=? our_height) && negb (remote_next =? next self).

Record ChainInfo := { network_id : Z; genesis_hash : Hash; protocol_version : Z }.
Record HeadState := { hs_height : u64; hs_hash : Hash; total_difficulty : u128 }.
Record HandshakeData := { chain_info : ChainInfo; head_state : HeadState }.

Record HandshakeConfig := {
  min_protocol_version : Z;
  max_protocol_version : Z;
  finalized_height : u64;
  finalized_hash : Hash;
  max_behind_blocks : u64
}.

Definition handshake_config_default : HandshakeConfig := {|
  min_protocol_version := 1; max_protocol_version := 1; finalized_height := 0; finalized_hash := 0;
  max_behind_blocks := 1000
|}.

Inductive PeerClassification := SyncTarget | SyncSource | Equal.
Inductive RejectReason := WrongNetwork | NetworkIdMismatch | ProtocolMismatch | TooFarBehind | ForkDivergence.
Inductive HandshakeResult := Accept (c : PeerClassification) | Reject (r : RejectReason).

Definition verify_handshake (ours theirs : HandshakeData) (config : HandshakeConfig) : HandshakeResult :=
  if negb (genesis_hash (chain_info ours) =? genesis_hash (chain_info theirs)) then Reject WrongNetwork
  else if negb (network_id (chain_info ours) =? network_id (chain_info theirs)) then Reject NetworkIdMismatch
  else if (protocol_version (chain_info theirs) <? min_protocol_version config)
          || (max_protocol_version config <? protocol_version (chain_info theirs)) then Reject ProtocolMismatch
  else if wrapping_add 64 (hs_height (head_state theirs)) (max_behind_blocks config) <? finalized_height config
  then Reject TooFarBehind
  else
    let theirs_total := total_difficulty (head_state theirs) in
    let ours_total := total_difficulty (head_state ours) in
    Accept (if ours_total <? theirs_total then SyncSource
            else if theirs_total <? ours_total then SyncTarget else Equal).

(** What the peer sees when it accepts us. *)
Definition mirror (c : PeerClassification) : PeerClassification :=
  match c with SyncTarget => SyncSource | SyncSource => SyncTarget | Equal => Equal end.

(** A handshake is accepted exactly between nodes of one network where the peer has
    a supported version and is not further behind than allowed; two nodes that
    accept each other classify each other in opposite ways. *)
Theorem handshake_exact ours theirs c (Hfit : hs_height (head_state theirs) + max_behind_blocks c < 2 ^ 64)
  (Hpos : 0 <= hs_height (head_state theirs)) (Hb : 0 <= max_behind_blocks c) :
  (forall cl, verify_handshake ours theirs c = Accept cl ->
     genesis_hash (chain_info ours) = genesis_hash (chain_info theirs)
     /\ network_id (chain_info ours) = network_id (chain_info theirs)
     /\ min_protocol_version c <= protocol_version (chain_info theirs) <= max_protocol_version c
     /\ finalized_height c <= hs_height (head_state theirs) + max_behind_blocks c
     /\ (cl = SyncSource <-> total_difficulty (head_state ours) < total_difficulty (head_state theirs)))
  /\ (genesis_hash (chain_info ours) = genesis_hash (chain_info theirs) ->
      network_id (chain_info ours) = network_id (chain_info theirs) ->
      min_protocol_version c <= protocol_version (chain_info theirs) <= max_protocol_version c ->
      finalized_height c <= hs_height (head_state theirs) + max_behind_blocks c ->
      exists cl, verify_handshake ours theirs c = Accept cl)
  /\ (forall cl cl' c', verify_handshake ours theirs c = Accept cl ->
      verify_handshake theirs ours c' = Accept cl' -> cl' = mirror cl).
Proof.
  unfold verify_handshake. rewrite wrapping_add_small by lia. split_and!.
  - intros cl Hv. repeat case_match; simplify_eq; bools; split_and!; try lia; split; try done; lia.
  - intros -> -> Hv Hf. rewrite !Z.eqb_refl. cbn [negb].
    rewrite !(proj2 (Z.ltb_ge _ _)) by lia. cbn [orb]. eauto.
  - intros cl cl' c' H1 H2. repeat case_match; simplify_eq; cbn; bools; try done; lia.
Qed.

(** A peer that claims the greatest height is taken for one that is far behind. *)
Example claimed_height_wraps :
  let data h := {| chain_info := {| network_id := 1; genesis_hash := 0; protocol_version := 1 |};
                   head_state := {| hs_height := h; hs_hash := 0; total_difficulty := 5 |} |} in
  let c := {| min_protocol_version := 1; max_protocol_version := 1; finalized_height := 2000;
              finalized_hash := 0; max_behind_blocks := 1000 |} in
  verify_handshake (data 2500) (data (2 ^ 64 - 1)) c = Reject TooFarBehind.
Proof. done. Qed.

(** Our next fork lies in the past and the peer has not scheduled it: the rule for a
    stale node is documented, and the two are compatible. *)
Example stale_fork_compatible :
  is_compatible {| fork_hash := 7; next := 5 |} {| fork_hash := 7; next := 10 |} 8 = true
  /\ is_compatible {| fork_hash := 7; next := 10 |} {| fork_hash := 7; next := 5 |} 8 = false.
Proof. done. Qed.

End Handshake.

(** ** [domain/feeler/] and [adapters/feeler/] *)

Module Feeler.
Import Handshake.

#[export] Instance IpAddr_countable : Countable IpAddr.
Proof.
  refine (inj_countable' (fun a => match a with V4 b => (true, b) | V6 b => (false, b) end)
    (fun p => if p.1 : bool then V4 p.2 else V6 p.2) _). by intros [].
Defined.
#[export] Instance SocketAddr_countable : Countable SocketAddr.
Proof.
  refine (inj_countable' (fun a => (ip a, port a)) (fun p => {| ip := p.1; port := p.2 |}) _). by intros [].
Defined.

Record FeelerConfig := {
  probe_interval_secs : u64;
  jitter_max_secs : u64;
  connection_timeout_secs : u64;
  max_failures : Z;
  max_concurrent_probes : nat
}.

Definition feeler_config_default : FeelerConfig := {|
  probe_interval_secs := 120; jitter_max_secs := 30; connection_timeout_secs := 10;
  max_failures := 3; max_concurrent_probes := 2
|}.

Record FeelerProbe := {
  target : SocketAddr;
  probe_node : option NodeId;
  started_at : Timestamp;
  deadline : Timestamp
}.

Definition probe_new (a : SocketAddr) (id : option NodeId) (now : Timestamp) (timeout : u64) : FeelerProbe := {|
  target := a; probe_node := id; started_at := now; deadline := timestamp_new (wrapping_add 64 now timeout)
|}.

Definition is_timed_out (p : FeelerProbe) (now : Timestamp) : bool := deadline p <=? now.

Inductive FeelerResult := Success | ConnectionFailed | WrongChain | TooFarBehind_ | NoAddressAvailable.

Record FeelerState := {
  active_probes : gmap SocketAddr FeelerProbe;
  failure_counts : gmap SocketAddr Z;
  next_probe_at : Timestamp;
  config : FeelerConfig;
  probe_counter : u64
}.

Definition state_new (c : FeelerConfig) (now : Timestamp) : FeelerState := {|
  active_probes := ∅; failure_counts := ∅;
  next_probe_at := timestamp_new (wrapping_add 64 now (probe_interval_secs c));
  config := c; probe_counter := 0
|}.

Definition should_probe (s : FeelerState) (now : Timestamp) : bool :=
  (next_probe_at s <=? now) && (size (active_probes s) <? max_concurrent_probes (config s))%nat.

(** [None] is the panic of a remainder by zero. *)
Definition start_probe (a : SocketAddr) (id : option NodeId) (now : Timestamp) (s : FeelerState)
  : option (FeelerState * option FeelerProbe) :=
  if (max_concurrent_probes (config s) <=? size (active_probes s))%nat then Some (s, None)
  else if bool_decide (is_Some (active_probes s !! a)) then Some (s, None)
  else
    let probe := probe_new a id now (connection_timeout_secs (config s)) in
    let counter := wrapping_add 64 (probe_counter s) 1 in
    let divisor := wrapping_add 64 (jitter_max_secs (config s)) 1 in
    if divisor =? 0 then None
    else Some ({| active_probes := <[a := probe]> (active_probes s); failure_counts := failure_counts s;
                  next_probe_at := timestamp_new (wrapping_add 64
                    (wrapping_add 64 now (probe_interval_secs (config s))) (counter mod divisor));
                  config := config s; probe_counter := counter |}, Some probe).

Definition set_probes (s : FeelerState) (probes : gmap SocketAddr FeelerProbe) (failures : gmap SocketAddr Z)
  : FeelerState := {|
  active_probes := probes; failure_counts := failures; next_probe_at := next_probe_at s;
  config := config s; probe_counter := probe_counter s |}.

Definition on_probe_success (a : SocketAddr) (s : FeelerState) : FeelerState :=
  set_probes s (delete a (active_probes s)) (delete a (failure_counts s)).

Definition failure_count (a : SocketAddr) (s : FeelerState) : Z := default 0 (failure_counts s !! a).

Definition on_probe_failure (a : SocketAddr) (s : FeelerState) : FeelerState * bool :=
  let count := wrapping_add 32 (failure_count a s) 1 in
  (set_probes s (delete a (active_probes s)) (<[a := count]> (failure_counts s)), max_failures (config s) <=? count).

Definition get_timed_out_probes (now : Timestamp) (s : FeelerState) : list SocketAddr :=
  (map_to_list (filter (fun kv => is_timed_out kv.2 now = true) (active_probes s))).*1.

Definition cancel_probe (a : SocketAddr) (s : FeelerState) : FeelerState :=
  set_probes s (delete a (active_probes s)) (failure_counts s).

(** *** [BucketFreshness] *)

Definition record_probe (bucket_idx : nat) (now : Timestamp) (last_probe : gmap nat Timestamp)
  : gmap nat Timestamp := <[bucket_idx := now]> last_probe.

Definition last_of (last_probe : gmap nat Timestamp) (idx : nat) : Timestamp := default 0 (last_probe !! idx).

Fixpoint stalest_from (last_probe : gmap nat Timestamp) (idx : nat) (counts : list nat)
  (best : option nat) (time : Timestamp) : option nat :=
  match counts with
  | [] => best
  | count :: counts =>
      if (count =? 0)%nat then stalest_from last_probe (S idx) counts best time
      else
        let last := last_of last_probe idx in
        if last <? time then stalest_from last_probe (S idx) counts (Some idx) last
        else stalest_from last_probe (S idx) counts best time
  end.

Definition select_stalest_bucket (counts : list nat) (now : Timestamp) (last_probe : gmap nat Timestamp)
  : option nat := stalest_from last_probe 0 counts None now.

(** *** The coordinator *)

Record FeelerCoordinator := {
  state : FeelerState;
  freshness : gmap nat Timestamp;
  our_fork_id : ForkId
}.

Definition coordinator_new (c : FeelerConfig) (now : Timestamp) (f : ForkId) : FeelerCoordinator :=
  {| state := state_new c now; freshness := ∅; our_fork_id := f |}.

Definition set_state (c : FeelerCoordinator) (s : FeelerState) : FeelerCoordinator :=
  {| state := s; freshness := freshness c; our_fork_id := our_fork_id c |}.

(** [port] answers a probe or fails; [None] as a whole is a panic. *)
Definition maybe_probe (port : SocketAddr -> u64 -> ForkId -> option FeelerResult) (now : Timestamp)
  (counts : list nat) (get_address : nat -> option (SocketAddr * option NodeId)) (c : FeelerCoordinator)
  : option (FeelerCoordinator * option (SocketAddr * FeelerResult)) :=
  if negb (should_probe (state c) now) then Some (c, None)
  else
    match select_stalest_bucket counts now (freshness c) with
    | None => Some (c, None)
    | Some idx =>
        match get_address idx with
        | None => Some (c, None)
        | Some (a, id) =>
            started ← start_probe a id now (state c);
            match started.2 with
            | None => Some (set_state c started.1, None)
            | Some probe =>
                let timeout := (deadline probe - now) mod 2 ^ 64 in
                let result := default ConnectionFailed (port a timeout (our_fork_id c)) in
                let s := match result with
                  | Success => on_probe_success a started.1
                  | _ => (on_probe_failure a started.1).1
                  end in
                Some ({| state := s; freshness := record_probe idx now (freshness c);
                         our_fork_id := our_fork_id c |}, Some (a, result))
            end
        end
    end.

Definition gc_timed_out (now : Timestamp) (c : FeelerCoordinator) : FeelerCoordinator * list SocketAddr :=
  let timed_out := get_timed_out_probes now (state c) in
  (set_state c (foldl (fun s a => (on_probe_failure a (cancel_probe a s)).1) (state c) timed_out), timed_out).

(** *** What the probes keep *)

Inductive Op :=
| StartProbe (a : SocketAddr) (id : option NodeId) (now : Timestamp)
| ProbeSuccess (a : SocketAddr)
| ProbeFailure (a : SocketAddr)
| CancelProbe (a : SocketAddr).

Definition perform (s : FeelerState) (o : Op) : FeelerState :=
  match o with
  | StartProbe a id now => match start_probe a id now s with Some r => r.1 | None => s end
  | ProbeSuccess a => on_probe_success a s
  | ProbeFailure a => (on_probe_failure a s).1
  | CancelProbe a => cancel_probe a s
  end.

(** The failures of an address since its last success. *)
Definition failures_step (a : SocketAddr) (n : Z) (o : Op) : Z :=
  match o with
  | ProbeSuccess b => if decide (a = b) then 0 else n
  | ProbeFailure b => if decide (a = b) then n + 1 else n
  | _ => n
  end.

(** Probes stay within their number, and the address is given up exactly when its
    failures since the last success have reached the limit. *)
Theorem feeler_counts_failures c now ops a (Hlen : Z.of_nat (length ops) + 1 < 2 ^ 32) :
  let s := foldl perform (state_new c now) ops in
  let n := foldl (failures_step a) 0 ops in
  (size (active_probes s) <= max_concurrent_probes c)%nat
  /\ failure_count a s = n
  /\ (on_probe_failure a s).2 = (max_failures c <=? n + 1).
Proof.
  cbn zeta.
  assert (H0 : forall ops s n, Z.of_nat (length ops) + n + 1 < 2 ^ 32 -> 0 <= n -> failure_count a s = n ->
    (size (active_probes s) <= max_concurrent_probes (config s))%nat ->
    let s' := foldl perform s ops in let n' := foldl (failures_step a) n ops in
    (size (active_probes s') <= max_concurrent_probes (config s'))%nat /\ failure_count a s' = n'
    /\ config s' = config s /\ 0 <= n' <= n + Z.of_nat (length ops)).
  { clear Hlen ops. induction ops as [|o ops IH]; intros s n Hl Hn Hf Hs; cbn [foldl length]; [split_and!; try done; lia|].
    cbn [length] in Hl. rewrite Nat2Z.inj_succ in Hl.
    assert (Hstep : (size (active_probes (perform s o)) <= max_concurrent_probes (config (perform s o)))%nat
      /\ failure_count a (perform s o) = failures_step a n o /\ config (perform s o) = config s
      /\ 0 <= failures_step a n o <= n + 1).
    { destruct o as [b id t|b|b|b]; cbn [perform failures_step].
      - unfold start_probe. destruct (_ <=? _)%nat eqn:E1; [split_and!; (done || lia)|]. apply Nat.leb_gt in E1.
        case_bool_decide as E2; [split_and!; (done || lia)|]. destruct (_ =? 0); [split_and!; (done || lia)|].
        cbn. rewrite map_size_insert_None by (by apply eq_None_not_Some). split_and!; (done || lia).
      - cbn. pose proof (size_delete_le (active_probes s) b) as Hd. unfold failure_count in *. cbn.
        case_decide as E; [subst b; rewrite lookup_delete_eq|rewrite lookup_delete_ne by done];
          split_and!; (done || lia).
      - cbn. pose proof (size_delete_le (active_probes s) b) as Hd. unfold failure_count at 1. cbn.
        case_decide as E; [subst b; rewrite lookup_insert_eq|rewrite lookup_insert_ne by done]; cbn.
        + rewrite Hf, wrapping_add_small by lia. split_and!; (done || lia).
        + split_and!; (done || lia).
      - cbn. pose proof (size_delete_le (active_probes s) b) as Hd. split_and!; (done || lia). }
    destruct Hstep as (S1 & S2 & S3 & S4). destruct (IH (perform s o) (failures_step a n o) ltac:(lia) ltac:(lia) S2 S1) as (I1 & I2 & I3 & I4).
    split_and!; [done|done|by rewrite I3|lia|lia]. }
  destruct (H0 ops (state_new c now) 0 ltac:(lia) ltac:(lia) eq_refl) as (I1 & I2 & I3 & I4).
  { cbn. rewrite map_size_empty. lia. }
  cbn in I3. rewrite I3 in I1. split_and!; [done|done|]. unfold on_probe_failure. cbn [snd].
  rewrite I2, I3, wrapping_add_small by lia. done.
Qed.

(** The bucket that is probed has entries and was probed least recently, before now;
    none is chosen only when no bucket with entries qualifies. *)
Lemma stalest_spec last_probe counts now :
  match select_stalest_bucket counts now last_probe with
  | Some i => (exists n, counts !! i = Some n /\ n <> 0%nat) /\ last_of last_probe i < now
      /\ forall j n, counts !! j = Some n -> n <> 0%nat -> last_of last_probe i <= last_of last_probe j
  | None => forall j n, counts !! j = Some n -> n <> 0%nat -> now <= last_of last_probe j
  end.
Proof.
  unfold select_stalest_bucket.
  enough (Hgen : forall l pre best time, counts = pre ++ l -> time <= now ->
    (match best with
     | Some i => (exists n, counts !! i = Some n /\ n <> 0%nat) /\ last_of last_probe i = time /\ time < now
     | None => time = now end) ->
    (forall j n, pre !! j = Some n -> n <> 0%nat -> time <= last_of last_probe j) ->
    match stalest_from last_probe (length pre) l best time with
    | Some i => (exists n, counts !! i = Some n /\ n <> 0%nat) /\ last_of last_probe i < now
        /\ forall j n, counts !! j = Some n -> n <> 0%nat -> last_of last_probe i <= last_of last_probe j
    | None => forall j n, counts !! j = Some n -> n <> 0%nat -> now <= last_of last_probe j
    end).
  { apply (Hgen counts [] None now); try done. }
  induction l as [|c l IH]; intros pre best time Hc Ht Hb Hpre; cbn [stalest_from].
  { rewrite app_nil_r in Hc. subst pre. destruct best as [i|]; [|by subst time].
    destruct Hb as (? & <- & ?). done. }
  assert (Hsn : length (pre ++ [c]) = S (length pre)) by (rewrite length_app; cbn; lia).
  pose proof (IH (pre ++ [c])) as Hnext.
  rewrite Hsn in Hnext. rewrite <- (assoc_L (++)) in Hnext.
  assert (Hlast : forall t, t <= time -> (c <> 0%nat -> t <= last_of last_probe (length pre)) ->
    forall j n, (pre ++ [c]) !! j = Some n -> n <> 0%nat -> t <= last_of last_probe j).
  { intros t Hle Hc' j n Hj Hn. destruct (decide (j < length pre)%nat) as [Hlt|Hge].
    - rewrite lookup_app_l in Hj by done. etrans; [exact Hle|]. by eapply Hpre.
    - rewrite lookup_app_r in Hj by lia. apply list_lookup_singleton_Some in Hj as [Hj ->].
      replace j with (length pre) by lia. by apply Hc'. }
  destruct (c =? 0)%nat eqn:E0.
  - apply Nat.eqb_eq in E0. apply Hnext; [done|done|done|]. apply Hlast; [lia|intros; lia].
  - apply Nat.eqb_neq in E0. destruct (_ <? time) eqn:El; bools.
    + apply Hnext; [done|lia| |apply Hlast; [lia|intros; lia]]. split; [|split; [done|lia]]. exists c. split; [|done].
      rewrite Hc, lookup_app_r, Nat.sub_diag by lia. done.
    + apply Hnext; [done|done|done|]. apply Hlast; [lia|intros; lia].
Qed.

(** A probe of the coordinator is over when the call returns: no probe is ever left
    to time out. *)
Lemma no_probe_left port now counts get c c' r : active_probes (state c) = ∅ ->
  maybe_probe port now counts get c = Some (c', r) ->
  active_probes (state c') = ∅ /\ (forall t, (gc_timed_out t c').2 = []).
Proof.
  intros He Hm. assert (H0 : active_probes (state c') = ∅).
  { unfold maybe_probe in Hm. destruct (negb _); [by simplify_eq|]. destruct (select_stalest_bucket _ _ _) as [i|];
      [|by simplify_eq]. destruct (get i) as [[a id]|]; [|by simplify_eq].
    apply bind_Some in Hm as ([s1 p] & Hs & Hm). cbn [fst snd] in Hm. unfold start_probe in Hs.
    destruct (_ <=? _)%nat; [by simplify_eq|]. destruct (bool_decide _); [by simplify_eq|].
    destruct (_ =? 0); [done|]. simplify_eq. cbn.
    destruct (default ConnectionFailed _); cbn; by rewrite He, delete_insert_eq. }
  split; [done|]. intros t. unfold gc_timed_out, get_timed_out_probes. cbn. by rewrite H0, map_filter_empty, map_to_list_empty.
Qed.

Definition always_failing : SocketAddr -> u64 -> ForkId -> option FeelerResult := fun _ _ _ => None.
Definition only_address : SocketAddr := {| ip := V4 [10; 0; 0; 1]; port := 30303 |}.
Definition probe_at (now : Timestamp) (c : FeelerCoordinator)
  : FeelerCoordinator * option (SocketAddr * FeelerResult) :=
  default (c, None) (maybe_probe always_failing now [1%nat] (fun _ => Some (only_address, None)) c).

(** The third failure is answered like the first: the caller does not learn that the
    address is to be removed. *)
Example removal_not_reported :
  let c := coordinator_new feeler_config_default 0 {| fork_hash := 0; next := 0 |} in
  let r1 := probe_at 200 c in
  let r2 := probe_at 400 r1.1 in
  let r3 := probe_at 600 r2.1 in
  r1.2 = Some (only_address, ConnectionFailed) /\ r3.2 = r1.2
  /\ failure_count only_address (state r3.1) = max_failures feeler_config_default.
Proof. split_and!; by vm_compute. Qed.

End Feeler.

(** ** [domain/enr/] *)

Module Enr.

Inductive CapabilityType := FullNode | LightServer | Shard | ShardRange | Archive | Custom.
#[export] Instance CapabilityType_eq_dec : EqDecision CapabilityType.
Proof. solve_decision. Defined.

Definition type_byte (t : CapabilityType) : u8 :=
  match t with
  | FullNode => 1 | LightServer => 2 | Shard => 3 | ShardRange => 4 | Archive => 5 | Custom => 255
  end.

Inductive CapabilityData :=
| NoData
| ShardId (id : Z)
| ShardSpan (start stop : Z)
| CustomData (data : list u8).

Record Capability := { cap_type : CapabilityType; data : CapabilityData }.

Definition full_node : Capability := {| cap_type := FullNode; data := NoData |}.
Definition light_server : Capability := {| cap_type := LightServer; data := NoData |}.
Definition shard (id : Z) : Capability := {| cap_type := Shard; data := ShardId id |}.
Definition shard_range (start stop : Z) : Capability := {| cap_type := ShardRange; data := ShardSpan start stop |}.

Definition to_bytes (c : Capability) : list u8 :=
  type_byte (cap_type c) ::
    match data c with
    | NoData => []
    | ShardId id => be_bytes 2 id
    | ShardSpan start stop => be_bytes 2 start ++ be_bytes 2 stop
    | CustomData d => Z.of_nat (length d) mod 2 ^ 8 :: d
    end.

Record EnrConfig := { max_record_size : nat; max_record_age_secs : u64; max_capabilities : nat }.

Definition enr_config_default : EnrConfig :=
  {| max_record_size := 300; max_record_age_secs := 86400; max_capabilities := 16 |}.

Record NodeRecord := {
  seq : u64;
  pubkey : list u8;
  rec_ip : IpAddr;
  udp_port : Z;
  tcp_port : Z;
  capabilities : list Capability;
  signature : list u8
}.

Definition socket_addr (r : NodeRecord) : SocketAddr := {| ip := rec_ip r; port := udp_port r |}.

Definition has_capability (r : NodeRecord) (t : CapabilityType) : bool :=
  existsb (fun c => bool_decide (cap_type c = t)) (capabilities r).

Definition get_capabilities (r : NodeRecord) (t : CapabilityType) : list Capability :=
  base.filter (fun c => cap_type c = t) (capabilities r).

Definition signing_payload (r : NodeRecord) : list u8 :=
  be_bytes 8 (seq r) ++ pubkey r
  ++ match rec_ip r with V4 bytes => 4 :: bytes | V6 bytes => 16 :: bytes end
  ++ be_bytes 2 (udp_port r) ++ be_bytes 2 (tcp_port r)
  ++ Z.of_nat (length (capabilities r)) mod 2 ^ 8 :: concat (to_bytes <$> capabilities r).

Record CachedRecord := { record : NodeRecord; received_at : u64; last_verified : option u64 }.

Record EnrCache := { records : gmap NodeId CachedRecord; cache_config : EnrConfig }.

Definition cache_new (c : EnrConfig) : EnrCache := {| records := ∅; cache_config := c |}.

Section enr.
Context (enr_hash : list u8 -> Z).

Definition record_id (r : NodeRecord) : NodeId :=
  from_be_bytes (be_bytes 4 (enr_hash (pubkey r)) ++ take 28 (pubkey r)).

Definition verify_signature (r : NodeRecord) : bool :=
  if (length (signature r) <? 4)%nat then false
  else from_be_bytes (take 4 (signature r)) =? enr_hash (signing_payload r).

Definition sign (r : NodeRecord) (private_key : list u8) : NodeRecord := {|
  seq := seq r; pubkey := pubkey r; rec_ip := rec_ip r; udp_port := udp_port r; tcp_port := tcp_port r;
  capabilities := capabilities r;
  signature := be_bytes 4 (enr_hash (signing_payload r)) ++ replicate 60 0
|}.

(** The record that is known has at least its sequence number. *)
Definition is_outdated (r : NodeRecord) (c : EnrCache) : bool :=
  match records c !! record_id r with
  | Some existing => seq r <=? seq (record existing)
  | None => false
  end.

Definition insert (r : NodeRecord) (now : u64) (c : EnrCache) : EnrCache * bool :=
  if negb (verify_signature r) then (c, false)
  else
    let id := record_id r in
    if is_outdated r c then (c, false)
    else if (max_capabilities (cache_config c) <? length (capabilities r))%nat then (c, false)
    else ({| records := <[id := {| record := r; received_at := now; last_verified := None |}]> (records c);
             cache_config := cache_config c |}, true).

Definition get (id : NodeId) (c : EnrCache) : option NodeRecord := record <$> records c !! id.

Definition find_by_capability (t : CapabilityType) (c : EnrCache) : list NodeRecord :=
  base.filter (fun r => has_capability r t = true) (record <$> (map_to_list (records c)).*2).

(** The age is computed in [u64]. *)
Definition gc_stale (now : u64) (c : EnrCache) : EnrCache * nat :=
  let kept := filter (fun kv => (now - received_at kv.2) mod 2 ^ 64 < max_record_age_secs (cache_config c)) (records c) in
  ({| records := kept; cache_config := cache_config c |}, (size (records c) - size kept)%nat).

Definition mark_verified (id : NodeId) (now : u64) (c : EnrCache) : EnrCache := {|
  records := alter (fun x => {| record := record x; received_at := received_at x; last_verified := Some now |})
    id (records c);
  cache_config := cache_config c
|}.

Inductive Op := Insert (r : NodeRecord) (now : u64) | GcStale (now : u64) | MarkVerified (id : NodeId) (now : u64).

Definition perform (c : EnrCache) (o : Op) : EnrCache :=
  match o with
  | Insert r now => (insert r now c).1
  | GcStale now => (gc_stale now c).1
  | MarkVerified id now => mark_verified id now c
  end.

Definition cache_ok (c : EnrCache) : Prop := forall id x, records c !! id = Some x ->
  record_id (record x) = id /\ verify_signature (record x) = true
  /\ (length (capabilities (record x)) <= max_capabilities (cache_config c))%nat.

Lemma cache_perform_ok c o : cache_ok c -> cache_ok (perform c o) /\ cache_config (perform c o) = cache_config c
  /\ forall id x y, records c !! id = Some x -> records (perform c o) !! id = Some y ->
       seq (record x) <= seq (record y).
Proof.
  intros Hc. destruct o as [r now|now|id now]; cbn [perform].
  - unfold insert. destruct (verify_signature r) eqn:Ev; cbn [negb].
    2:{ split_and!; [done|done|]. intros id x y Hx Hy. cbn in Hy. simplify_eq. lia. }
    destruct (is_outdated r c) eqn:Es.
    { split_and!; [done|done|]. intros id x y Hx Hy. cbn in Hy. simplify_eq. lia. }
    destruct (_ <? _)%nat eqn:El.
    { split_and!; [done|done|]. intros id x y Hx Hy. cbn in Hy. simplify_eq. lia. }
    apply Nat.ltb_ge in El. unfold cache_ok. cbn. split_and!; [|done|].
    + intros id x [[<- <-]|[_ Hx]]%lookup_insert_Some; [done|by apply Hc].
    + intros id x y Hx [[<- <-]|[_ Hy]]%lookup_insert_Some; [|by simplify_eq; lia].
      unfold is_outdated in Es. rewrite Hx in Es. bools. cbn. lia.
  - unfold cache_ok. cbn. split_and!; [|done|].
    + intros id x [Hx _]%map_lookup_filter_Some. by apply Hc.
    + intros id x y Hx [Hy _]%map_lookup_filter_Some. simplify_eq. lia.
  - unfold cache_ok. cbn. split_and!; [|done|].
    + intros id' x Hx. destruct (decide (id = id')) as [->|Hne].
      * rewrite lookup_alter_eq in Hx. apply fmap_Some in Hx as (y & Hy & ->). by destruct (Hc _ _ Hy) as (? & ? & ?).
      * rewrite lookup_alter_ne in Hx by done. by apply Hc.
    + intros id' x y Hx Hy. destruct (decide (id = id')) as [->|Hne].
      * rewrite lookup_alter_eq, Hx in Hy. cbn in Hy. simplify_eq. cbn. lia.
      * rewrite lookup_alter_ne in Hy by done. simplify_eq. lia.
Qed.

(** The cache holds records that pass the check, under the identifiers of their keys,
    with no more capabilities than allowed, and no operation replaces a record by an
    older one. *)
Theorem records_never_go_back c ops o :
  let s := foldl perform (cache_new c) ops in
  cache_ok s /\ forall id x y, records s !! id = Some x -> records (perform s o) !! id = Some y ->
    seq (record x) <= seq (record y).
Proof.
  cbn zeta. assert (Hs : cache_ok (foldl perform (cache_new c) ops)).
  { apply (foldl_inv perform cache_ok); [intros s o' Hs; by apply cache_perform_ok|].
    intros id x Hx. cbn in Hx. by rewrite lookup_empty in Hx. }
  split; [done|]. by apply cache_perform_ok.
Qed.

(** Signing needs no key, so a record of any node can be made by anyone. *)
Theorem anyone_signs r key key' : 0 <= enr_hash (signing_payload r) < 2 ^ 32 ->
  verify_signature (sign r key) = true /\ sign r key = sign r key'.
Proof.
  intros Hh. split; [|done]. unfold verify_signature. cbn [sign signature]. rewrite length_app, length_be_bytes.
  cbn [Nat.ltb Nat.leb Nat.add]. rewrite take_app_length' by (by rewrite length_be_bytes).
  apply Z.eqb_eq. rewrite from_be_bytes_to; [done|]. exact Hh.
Qed.

End enr.

(** Two records with one payload: they differ in their capabilities. *)
Example payload_is_ambiguous :
  let r caps := {| seq := 1; pubkey := []; rec_ip := V4 [1; 2; 3; 4]; udp_port := 1; tcp_port := 0;
                   capabilities := caps; signature := [] |} in
  signing_payload (r [{| cap_type := FullNode; data := ShardId 0x0202 |}; full_node; full_node])
  = signing_payload (r [full_node; light_server; {| cap_type := LightServer; data := ShardId 0x0101 |}]).
Proof. done. Qed.

(** A record made without the key of the node replaces the record of the node. *)
Example forged_record_replaces :
  let hash l := foldr Z.add 0 l in
  let r n a := {| seq := n; pubkey := replicate 33 7; rec_ip := V4 [a; 0; 0; 1]; udp_port := 1; tcp_port := 0;
                  capabilities := []; signature := [] |} in
  let c := (insert hash (sign hash (r 1 10) [1]) 0 (cache_new enr_config_default)).1 in
  let forged := sign hash (r 2 66) [] in
  (insert hash forged 5 c).2 = true
  /\ get (record_id hash (r 1 10)) (insert hash forged 5 c).1 = Some forged.
Proof. split; by vm_compute. Qed.

(** A record that a fast clock dated into the future is dropped as stale. *)
Example future_record_dropped :
  let hash l := foldr Z.add 0 l in
  let r := {| seq := 1; pubkey := replicate 33 7; rec_ip := V4 [1; 0; 0; 1]; udp_port := 1; tcp_port := 0;
              capabilities := []; signature := [] |} in
  let c := (insert hash (sign hash r []) 101 (cache_new enr_config_default)).1 in
  size (records c) = 1%nat /\ (gc_stale 100 c).2 = 1%nat.
Proof. split; by vm_compute. Qed.

End Enr.
