(* ===== verification/PeerEntry.v ===== *)
(** * Peer discovery: how a peer gets in and who may ask for peers

    The adapters of [qc-01-peer-discovery/src/] around the routing table of
    [Peers]: the proof of work and the parser of a bootstrap message
    ([adapters/bootstrap_handler/security.rs], [adapters/network/security.rs]),
    the bootstrap handler ([adapters/bootstrap_handler/handler.rs]), the
    subscriber for identity results ([adapters/subscriber/]), the rate limiter
    ([adapters/security/rate_limit.rs]) and the message handler with its rules
    ([ipc/handler/], [ipc/security/], [ipc/payloads/]).

    SHA-256, the validator of node identifiers and HMAC are arguments.  Every
    call of the service reads the clock again, so a handler takes a reading for
    each call it makes.  Whether a verification request could be published makes
    no difference, as in the code. *)

From S2P Require Import Prelude Peers PeersProps Messages.
From stdpp Require Import strings.
Local Open Scope Z_scope.
Local Open Scope qc_scope.

(** ** Proof of work *)

Fixpoint count_leading_zero_bits (bytes : list u8) : Z :=
  match bytes with
  | [] => 0
  | byte :: bytes => if byte =? 0 then 8 + count_leading_zero_bits bytes else leading_zeros byte
  end.

(** [ProofOfWorkValidator]: the identifier itself has the zeros. *)
Definition validate_node_id (required_zero_bits : u8) (id : NodeId) : bool :=
  required_zero_bits <=? count_leading_zero_bits (hash_bytes id).

(** [NoOpNodeIdValidator]. *)
Definition accept_all (id : NodeId) : bool := true.

(** ** The bootstrap message *)

Record BootstrapRequest := {
  br_node_id : NodeId;
  ip_address : IpAddr;
  br_port : Z;
  proof_of_work : list u8;
  claimed_pubkey : list u8;
  br_signature : list u8
}.

Inductive NetworkError := Timeout | ConnectionRefused | InvalidAddress | MessageTooLarge.

Definition BOOTSTRAP : u8 := 5.

(** [data[a..b]]. *)
Definition slice (data : list u8) (a b : nat) : list u8 := take (b - a) (drop a data).

Definition parse_bootstrap_request (data : list u8) : result NetworkError BootstrapRequest :=
  if (length data <? 167)%nat then Err MessageTooLarge
  else if negb (data !!! 0%nat =? BOOTSTRAP) then Err InvalidAddress
  else if (length data <? 164)%nat then Err MessageTooLarge
  else
    let ip_bytes := drop 164 data in
    let? address := if (length ip_bytes =? 4)%nat then Ok (V4 ip_bytes)
                    else if (length ip_bytes =? 16)%nat then Ok (V6 ip_bytes)
                    else Err InvalidAddress in
    Ok {| br_node_id := from_be_bytes (slice data 1 33); ip_address := address;
          br_port := from_be_bytes (slice data 162 164); proof_of_work := slice data 33 65;
          claimed_pubkey := slice data 65 98; br_signature := slice data 98 162 |}.

Record VerifyNodeIdentityRequest := { vn_node_id : NodeId; vn_pubkey : list u8; vn_signature : list u8 }.

Definition to_verification_request (r : BootstrapRequest) : VerifyNodeIdentityRequest := {|
  vn_node_id := br_node_id r; vn_pubkey := claimed_pubkey r; vn_signature := br_signature r
|}.

Inductive BootstrapResult :=
| PendingVerification (correlation_id : Z)
| InvalidProofOfWork
| StagingFull
| Banned
| SubnetLimit.

Section entry.
Context (sha256 : list u8 -> Hash) (validator : NodeId -> bool) (pow_difficulty : Z).

Definition verify_binding (pow : list u8) (id : NodeId) (required_zeros : Z) : bool :=
  required_zeros <=? count_leading_zero_bits (hash_bytes (sha256 (hash_bytes id ++ pow))).

(** The clock is read for the peer, for the ban and for the staging; the answer
    comes with the verification request that is published. *)
Definition handle_bootstrap (now banned_at staged_at : Timestamp) (correlation_id : Z) (r : BootstrapRequest)
  (t : RoutingTable) : RoutingTable * BootstrapResult * option VerifyNodeIdentityRequest :=
  let id := br_node_id r in
  if negb (validator id) then (t, InvalidProofOfWork, None)
  else if negb (verify_binding (proof_of_work r) id pow_difficulty) then (t, InvalidProofOfWork, None)
  else if RoutingTable.is_banned t id banned_at then (t, Banned, None)
  else
    let peer := peer_new id {| ip := ip_address r; port := br_port r |} now in
    match RoutingTable.stage_peer t peer staged_at with
    | (t, Ok true) => (t, PendingVerification correlation_id, Some (to_verification_request r))
    | (t, Ok false) => (t, SubnetLimit, None)
    | (t, Err StagingAreaFull) => (t, StagingFull, None)
    | (t, Err SubnetLimitReached) => (t, SubnetLimit, None)
    | (t, Err PeerBanned) => (t, Banned, None)
    | (t, _) => (t, StagingFull, None)
    end.

(** ** Identity results *)

Record NodeIdentityVerificationResult := {
  nv_node_id : NodeId;
  identity_valid : bool;
  verification_timestamp : u64
}.

Inductive VerificationOutcome :=
| PeerPromoted (id : NodeId)
| PeerRejected (id : NodeId)
| ChallengeRequired (new_peer challenged_peer : NodeId)
| NotFound (id : NodeId).

Inductive SecurityError :=
| SecUnsupportedVersion (received min_supported max_supported : Z)
| SecTimestampOutOfRange (timestamp now : u64)
| UnauthorizedSender (sender_id : u8) (allowed_senders : list u8)
| SecInvalidSignature
| SecReplyToMismatch (sender_id reply_to_subsystem : u8)
| UnknownSubsystem (id : u8)
| MissingReplyTo
| ReplayDetectedUuid (nonce : Uuid).

Inductive SubscriptionError :=
| SecurityViolation (e : SecurityError)
| UnknownNode (id : NodeId)
| ProcessingError (e : PeerDiscoveryError).

Definition SIGNATURE_VERIFICATION : u8 := 10.

Definition validate_identity_result_sender (sender_id : u8) : result SecurityError unit :=
  if negb (sender_id =? SIGNATURE_VERIFICATION) then Err (UnauthorizedSender sender_id [10]) else Ok tt.

Definition on_node_identity_result (now : Timestamp) (sender_id : u8) (r : NodeIdentityVerificationResult)
  (t : RoutingTable) : RoutingTable * result SubscriptionError VerificationOutcome :=
  match validate_identity_result_sender sender_id with
  | Ok _ =>
      match RoutingTable.on_verification_result t (nv_node_id r) (identity_valid r) now with
      | (t, Ok (Some challenged)) => (t, Ok (ChallengeRequired (nv_node_id r) challenged))
      | (t, Ok None) =>
          (t, Ok (if identity_valid r then PeerPromoted (nv_node_id r) else PeerRejected (nv_node_id r)))
      | (t, Err PeerNotFound) => (t, Ok (NotFound (nv_node_id r)))
      | (t, Err e) => (t, Err (ProcessingError e))
      | (t, Panic) => (t, Panic)
      end
  | Err e => (t, Err (SecurityViolation e))
  | Panic => (t, Panic)
  end.

(** ** The way in *)

(** What happens to the table: requests of peers, results of the signature
    subsystem or of anyone who sends them, and the other calls of the service. *)
Inductive Event :=
| Bootstrap (now banned_at staged_at : Timestamp) (correlation_id : Z) (r : BootstrapRequest)
| IdentityResult (now : Timestamp) (sender_id : u8) (r : NodeIdentityVerificationResult)
| Ban (now : Timestamp) (id : NodeId) (details : BanDetails)
| Touch (now : Timestamp) (id : NodeId)
| Remove (now : Timestamp) (id : NodeId)
| Challenged (now : Timestamp) (id : NodeId) (is_alive : bool)
| Collect (now : Timestamp)
| Expire (now : Timestamp).

Definition occur (t : RoutingTable) (e : Event) : RoutingTable :=
  match e with
  | Bootstrap now banned_at staged_at c r => (handle_bootstrap now banned_at staged_at c r t).1.1
  | IdentityResult now s r => (on_node_identity_result now s r t).1
  | Ban now id d => serve t now (BanPeer id d)
  | Touch now id => serve t now (TouchPeer id)
  | Remove now id => serve t now (RemovePeer id)
  | Challenged now id alive => serve t now (ChallengeResponse id alive)
  | Collect now => serve t now Gc
  | Expire now => serve t now CheckExpired
  end.

(** The service calls an event makes. *)
Definition calls_of (t : RoutingTable) (e : Event) : list (Timestamp * Call) :=
  match e with
  | Bootstrap now banned_at staged_at _ r =>
      if validator (br_node_id r) && verify_binding (proof_of_work r) (br_node_id r) pow_difficulty
         && negb (RoutingTable.is_banned t (br_node_id r) banned_at)
      then [(staged_at, AddPeer (peer_new (br_node_id r) {| ip := ip_address r; port := br_port r |} now))]
      else []
  | IdentityResult now s r =>
      if s =? SIGNATURE_VERIFICATION then [(now, Verification (nv_node_id r) (identity_valid r))] else []
  | Ban now id d => [(now, BanPeer id d)]
  | Touch now id => [(now, TouchPeer id)]
  | Remove now id => [(now, RemovePeer id)]
  | Challenged now id alive => [(now, ChallengeResponse id alive)]
  | Collect now => [(now, Gc)]
  | Expire now => [(now, CheckExpired)]
  end.

Lemma occur_calls t e : occur t e = foldl (fun t '(now, call) => serve t now call) t (calls_of t e).
Proof.
  destruct e as [now ban st c r|now s r| | | | | |]; try done; cbn [occur calls_of].
  - unfold handle_bootstrap. destruct (validator _); [|done]. cbn [negb andb].
    destruct (verify_binding _ _ _); [|done]. cbn [negb andb].
    destruct (RoutingTable.is_banned _ _ _); [done|]. cbn [negb foldl serve].
    destruct (RoutingTable.stage_peer _ _ _) as [t' [[|]|[]|]]; done.
  - unfold on_node_identity_result, validate_identity_result_sender. destruct (s =? _); [|done].
    cbn [negb foldl serve].
    destruct (RoutingTable.on_verification_result _ _ _ _) as [t' [[c|]|[]|]]; done.
Qed.

Definition run_events (local : NodeId) (c : KademliaConfig) (es : list Event) : RoutingTable :=
  foldl occur (RoutingTable.new local c) es.

(** Every history of events is a history of service calls, in which peers are
    offered only by requests that pass both checks and verified only by results
    from the signature subsystem. *)
Lemma events_are_calls local c es : exists calls, run_events local c es = run local c calls
  /\ (forall now p, (now, AddPeer p) ∈ calls -> exists n b s k r, Bootstrap n b s k r ∈ es
        /\ p = peer_new (br_node_id r) {| ip := ip_address r; port := br_port r |} n
        /\ validator (br_node_id r) = true
        /\ verify_binding (proof_of_work r) (br_node_id r) pow_difficulty = true)
  /\ (forall now id v, (now, Verification id v) ∈ calls -> exists n r,
        IdentityResult n SIGNATURE_VERIFICATION r ∈ es /\ nv_node_id r = id /\ identity_valid r = v).
Proof.
  induction es as [|e es IH] using rev_ind.
  { exists []. split; [done|]. split; intros * Hin; by apply elem_of_nil in Hin. }
  destruct IH as (calls & Hr & Ha & Hv). set (t := run_events local c es) in *.
  exists (calls ++ calls_of t e). split_and!.
  - unfold run_events, run. rewrite !foldl_app. cbn [foldl]. fold (run_events local c es) (run local c calls).
    rewrite <- Hr. apply occur_calls.
  - intros now p [Hin|Hin]%elem_of_app.
    + destruct (Ha now p Hin) as (n & b & s & k & r & H1 & H2). exists n, b, s, k, r.
      split; [|done]. apply elem_of_app. by left.
    + destruct e as [n b s k r|n s r| | | | | |]; cbn [calls_of] in Hin;
        try (by apply list_elem_of_singleton in Hin).
      * destruct (_ && _) eqn:E; [|by apply elem_of_nil in Hin]. apply list_elem_of_singleton in Hin. simplify_eq.
        apply andb_true_iff in E as [[E1 E2]%andb_true_iff _]. exists n, b, s, k, r.
        split_and!; try done. apply elem_of_app. right. by left.
      * destruct (_ =? _); [|by apply elem_of_nil in Hin]. by apply list_elem_of_singleton in Hin.
  - intros now id v [Hin|Hin]%elem_of_app.
    + destruct (Hv now id v Hin) as (n & r & H1 & H2). exists n, r. split; [|done]. apply elem_of_app. by left.
    + destruct e as [n b s k r|n s r| | | | | |]; cbn [calls_of] in Hin;
        try (by apply list_elem_of_singleton in Hin).
      * destruct (_ && _); [|by apply elem_of_nil in Hin]. by apply list_elem_of_singleton in Hin.
      * destruct (s =? _) eqn:E; [|by apply elem_of_nil in Hin]. bools. subst s.
        apply list_elem_of_singleton in Hin. simplify_eq. exists n, r. split; [|done]. apply elem_of_app. right. by left.
Qed.

(** C30 (safety): nobody gets in without work and identity.  Whatever requests,
    identity results from anyone, bans, challenges and collections reach a node,
    every peer of its routing table sent a request whose identifier the validator
    accepts and whose proof of work hashes with that identifier to the required
    number of zeros, and the signature subsystem reported its identity as valid. *)
Theorem entry_needs_work_and_identity local c es p :
  p ∈ RoutingTable.all_peers (run_events local c es) ->
  (exists n b s k r, Bootstrap n b s k r ∈ es /\ br_node_id r = node_id p
     /\ validator (node_id p) = true
     /\ pow_difficulty <= count_leading_zero_bits
          (hash_bytes (sha256 (hash_bytes (node_id p) ++ proof_of_work r))))
  /\ (exists n r, IdentityResult n SIGNATURE_VERIFICATION r ∈ es /\ nv_node_id r = node_id p
        /\ identity_valid r = true).
Proof.
  destruct (events_are_calls local c es) as (calls & -> & Ha & Hv). intros Hp.
  assert (Hid : node_id p ∈ node_id <$> RoutingTable.all_peers (run local c calls)) by (by apply list_elem_of_fmap_2).
  apply elem_of_all_peers in Hid as (i & b & Hb & Hid).
  destruct (pv_peers _ _ (run_provenance local c calls) b (node_id p)) as [(n & q & Hq & Eq) [n' Hn']];
    [by eapply list_elem_of_lookup_2|done|]. split.
  - destruct (Ha n q Hq) as (n1 & b1 & s1 & k1 & r & H1 & -> & H3 & H4). cbn in Eq. rewrite Eq in H3, H4.
    exists n1, b1, s1, k1, r. split_and!; try done. unfold verify_binding in H4. by bools.
  - destruct (Hv _ _ _ Hn') as (n1 & r & H1 & H2 & H3). eauto.
Qed.

End entry.

(** ** What the proof of work costs *)

(** The zeros of the bytes of a number are those of the number. *)
Lemma count_zeros n h : 0 < h < 256 ^ Z.of_nat n ->
  count_leading_zero_bits (be_bytes n h) = 8 * Z.of_nat n - 1 - Z.log2 h.
Proof.
  induction n as [|n IH]; intros Hh; [cbn in Hh; lia|]. rewrite be_bytes_cons. cbn [count_leading_zero_bits].
  rewrite Nat2Z.inj_succ, Z.pow_succ_r in Hh by lia.
  assert (Hd : 0 <= h / 256 ^ Z.of_nat n < 256).
  { split; [apply Z.div_pos; lia|]. apply Z.div_lt_upper_bound; lia. }
  rewrite Z.mod_small by done. destruct (Z.eqb_spec (h / 256 ^ Z.of_nat n) 0) as [E|E].
  - apply Z.div_small_iff in E; [|lia]. rewrite IH by lia. lia.
  - unfold leading_zeros. rewrite (proj2 (Z.eqb_neq _ 0)) by done.
    assert (Hlog : Z.log2 (h / 256 ^ Z.of_nat n) = Z.log2 h - 8 * Z.of_nat n).
    { replace (256 ^ Z.of_nat n) with (2 ^ (8 * Z.of_nat n)) by (by rewrite Z.pow_mul_r by lia).
      rewrite <- Z.shiftr_div_pow2 by lia. rewrite Z.log2_shiftr by lia. apply Z.max_r.
      assert (256 ^ Z.of_nat n <= h) by (destruct (Z.lt_ge_cases h (256 ^ Z.of_nat n)); [by rewrite Z.div_small in E by lia|done]).
      replace (256 ^ Z.of_nat n) with (2 ^ (8 * Z.of_nat n)) in * by (by rewrite Z.pow_mul_r by lia).
      assert (8 * Z.of_nat n <= Z.log2 h) by (apply Z.log2_le_pow2; lia). lia. }
    rewrite Hlog. lia.
Qed.

(** A proof of work is accepted exactly when the hash is below the bound of its
    difficulty. *)
Theorem proof_of_work_bound sha256 pow id d : 0 <= d <= 256 ->
  in_width 256 (sha256 (hash_bytes id ++ pow)) ->
  verify_binding sha256 pow id d = (sha256 (hash_bytes id ++ pow) <? 2 ^ (256 - d)).
Proof.
  intros Hd Hw. unfold verify_binding. set (h := sha256 _) in *. destruct (decide (h = 0)) as [->|Hne].
  - change (count_leading_zero_bits (hash_bytes 0)) with 256. rewrite (proj2 (Z.leb_le _ _)) by lia.
    symmetry. apply Z.ltb_lt, Z.pow_pos_nonneg; lia.
  - unfold in_width in Hw. rewrite count_zeros by (change (256 ^ Z.of_nat 32) with (2 ^ 256); lia).
    apply eq_true_iff_eq. rewrite Z.leb_le, Z.ltb_lt. change (8 * Z.of_nat 32) with 256.
    assert (0 < h) by lia. split; intros Hx.
    + apply Z.log2_lt_pow2; [done|]. lia.
    + apply Z.log2_lt_pow2 in Hx; [|done]. lia.
Qed.

(** ** The wire format *)

Definition wire (r : BootstrapRequest) : list u8 :=
  BOOTSTRAP :: hash_bytes (br_node_id r) ++ proof_of_work r ++ claimed_pubkey r ++ br_signature r
    ++ be_bytes 2 (br_port r) ++ match ip_address r with V4 b => b | V6 b => b end.

Record request_ok (r : BootstrapRequest) : Prop := {
  ro_id : in_width 256 (br_node_id r);
  ro_pow : length (proof_of_work r) = 32%nat;
  ro_key : length (claimed_pubkey r) = 33%nat;
  ro_sig : length (br_signature r) = 64%nat;
  ro_port : in_width 16 (br_port r);
  ro_ip : match ip_address r with V4 b => length b = 4%nat | V6 b => length b = 16%nat end
}.

Lemma wire_slice_app (l1 l2 l3 : list u8) a b : length l1 = a -> length l2 = (b - a)%nat ->
  slice (l1 ++ l2 ++ l3) a b = l2.
Proof. intros H1 H2. unfold slice. rewrite drop_app_length' by done. by apply take_app_length'. Qed.

(** A request that is written in the documented format is read back. *)
Theorem bootstrap_wire_roundtrip r (Hr : request_ok r) : parse_bootstrap_request (wire r) = Ok r.
Proof.
  destruct Hr as [R1 R2 R3 R4 R5 R6]. set (ipb := match ip_address r with V4 b => b | V6 b => b end).
  assert (Hip : length ipb = 4%nat \/ length ipb = 16%nat) by (unfold ipb; destruct (ip_address r); auto).
  assert (Hlen : length (wire r) = (164 + length ipb)%nat).
  { unfold wire. fold ipb. cbn [length]. rewrite !length_app, !length_be_bytes. lia. }
  assert (E1 : wire r = [BOOTSTRAP] ++ hash_bytes (br_node_id r)
    ++ (proof_of_work r ++ claimed_pubkey r ++ br_signature r ++ be_bytes 2 (br_port r) ++ ipb)) by done.
  assert (E2 : wire r = ([BOOTSTRAP] ++ hash_bytes (br_node_id r)) ++ proof_of_work r
    ++ (claimed_pubkey r ++ br_signature r ++ be_bytes 2 (br_port r) ++ ipb)) by (by rewrite E1, <- !(assoc_L (++))).
  assert (E3 : wire r = ([BOOTSTRAP] ++ hash_bytes (br_node_id r) ++ proof_of_work r) ++ claimed_pubkey r
    ++ (br_signature r ++ be_bytes 2 (br_port r) ++ ipb)) by (by rewrite E1, <- !(assoc_L (++))).
  assert (E4 : wire r = ([BOOTSTRAP] ++ hash_bytes (br_node_id r) ++ proof_of_work r ++ claimed_pubkey r)
    ++ br_signature r ++ (be_bytes 2 (br_port r) ++ ipb)) by (by rewrite E1, <- !(assoc_L (++))).
  assert (E5 : wire r = ([BOOTSTRAP] ++ hash_bytes (br_node_id r) ++ proof_of_work r ++ claimed_pubkey r
    ++ br_signature r) ++ be_bytes 2 (br_port r) ++ ipb) by (by rewrite E1, <- !(assoc_L (++))).
  assert (S1 : slice (wire r) 1 33 = hash_bytes (br_node_id r)) by (rewrite E1; apply wire_slice_app; [done|by rewrite length_be_bytes]).
  assert (S2 : slice (wire r) 33 65 = proof_of_work r)
    by (rewrite E2; apply wire_slice_app; [rewrite !length_app, !length_be_bytes; done|done]).
  assert (S3 : slice (wire r) 65 98 = claimed_pubkey r)
    by (rewrite E3; apply wire_slice_app; [rewrite !length_app, !length_be_bytes, R2; done|done]).
  assert (S4 : slice (wire r) 98 162 = br_signature r)
    by (rewrite E4; apply wire_slice_app; [rewrite !length_app, !length_be_bytes, R2, R3; done|done]).
  assert (S5 : slice (wire r) 162 164 = be_bytes 2 (br_port r))
    by (rewrite E5; apply wire_slice_app; [rewrite !length_app, !length_be_bytes, R2, R3, R4; done|by rewrite length_be_bytes]).
  assert (S6 : drop 164 (wire r) = ipb).
  { rewrite E5, (assoc_L (++)). apply drop_app_length'. rewrite !length_app, !length_be_bytes, R2, R3, R4. done. }
  unfold parse_bootstrap_request. rewrite Hlen.
  rewrite (proj2 (Nat.ltb_ge (164 + length ipb) 167)) by lia.
  change (wire r !!! 0%nat) with BOOTSTRAP. rewrite Z.eqb_refl. cbn [negb].
  rewrite (proj2 (Nat.ltb_ge (164 + length ipb) 164)) by lia.
  rewrite S1, S2, S3, S4, S5, S6, !from_be_bytes_to by done.
  unfold ipb in *. destruct r as [id a p w k s]. cbn in *. destruct a as [b|b]; cbn; rewrite R6; done.
Qed.

(** ** [ipc/security/authorization.rs] *)

Module AuthorizationRules.

Definition PEER_LIST_ALLOWED : list u8 := [5; 7; 13].
Definition FULL_NODE_LIST_ALLOWED : list u8 := [13].
Definition ALLOWED_RECIPIENTS : list u8 := [5; 7; 10; 13].
Definition MIN_SUPPORTED_VERSION : Z := 1.
Definition MAX_SUPPORTED_VERSION : Z := 1.
Definition TIMESTAMP_MAX_AGE : u64 := 60.
Definition TIMESTAMP_MAX_FUTURE : u64 := 10.

Definition is_peer_list_authorized (sender_id : u8) : bool := bool_decide (sender_id ∈ PEER_LIST_ALLOWED).
Definition is_full_node_list_authorized (sender_id : u8) : bool := bool_decide (sender_id ∈ FULL_NODE_LIST_ALLOWED).
Definition is_recipient_allowed (recipient_id : u8) : bool := bool_decide (recipient_id ∈ ALLOWED_RECIPIENTS).

Definition validate_version (version : Z) : result SecurityError unit :=
  if (version <? MIN_SUPPORTED_VERSION) || (MAX_SUPPORTED_VERSION <? version)
  then Err (SecUnsupportedVersion version MIN_SUPPORTED_VERSION MAX_SUPPORTED_VERSION)
  else Ok tt.

Definition validate_timestamp (timestamp now : u64) : result SecurityError unit :=
  let min_valid := saturating_sub now TIMESTAMP_MAX_AGE in
  let max_valid := saturating_add 64 now TIMESTAMP_MAX_FUTURE in
  if (timestamp <? min_valid) || (max_valid <? timestamp) then Err (SecTimestampOutOfRange timestamp now) else Ok tt.

Definition validate_peer_list_sender (sender_id : u8) : result SecurityError unit :=
  if negb (is_peer_list_authorized sender_id) then Err (UnauthorizedSender sender_id PEER_LIST_ALLOWED) else Ok tt.

Definition validate_full_node_list_sender (sender_id : u8) : result SecurityError unit :=
  if negb (is_full_node_list_authorized sender_id) then Err (UnauthorizedSender sender_id FULL_NODE_LIST_ALLOWED)
  else Ok tt.

Definition validate_reply_to (sender_id : u8) (reply_to_subsystem : option u8) : result SecurityError unit :=
  match reply_to_subsystem with
  | Some reply_to => if negb (reply_to =? sender_id) then Err (SecReplyToMismatch sender_id reply_to) else Ok tt
  | None => Ok tt
  end.

End AuthorizationRules.

(** [unreachable!] panics. *)
Definition from_verification_result {A} (r : VerificationResult) : result SecurityError A :=
  match r with
  | Valid => Panic
  | UnsupportedVersion received supported => Err (SecUnsupportedVersion received supported supported)
  | TimestampOutOfRange timestamp now => Err (SecTimestampOutOfRange timestamp now)
  | ReplayDetected nonce => Err (ReplayDetectedUuid nonce)
  | InvalidSignature => Err SecInvalidSignature
  | ReplyToMismatch reply_to sender => Err (SecReplyToMismatch sender reply_to)
  end.

(** ** [ipc/handler/] *)

Record PeerFilter := { min_reputation : u8; exclude_subnets : list SubnetMask }.
Record PeerListRequestPayload := { max_peers : u64; pl_filter : option PeerFilter }.
Record FullNodeListRequestPayload := { max_nodes : u64; preferred_region : option string }.
Record PeerListResponsePayload := { rp_peers : list PeerInfo; total_available : nat }.

Record PendingRequest := { sent_at : u64; timeout_secs : u64; pr_correlation_id : Z }.

Record IpcHandler := {
  pending_requests : gmap Z PendingRequest;
  default_timeout : u64;
  nonce_cache : NonceCache
}.

Definition DEFAULT_TIMEOUT_SECS : u64 := 30.

Definition with_key_provider (cache : NonceCache) : IpcHandler := {|
  pending_requests := ∅; default_timeout := DEFAULT_TIMEOUT_SECS; nonce_cache := cache
|}.

(** [StaticKeyProvider::new]: one secret for the subsystems 1 to 15. *)
Definition static_key_provider (default_secret : list u8) (sender_id : u8) : option (list u8) :=
  if (1 <=? sender_id) && (sender_id <=? 15) then Some default_secret else None.

Section handler.
Context (hmac : list u8 -> list u8 -> Hash) (key_provider : u8 -> option (list u8)).

Definition verify_message (now : u64) (instant : Z) (msg : AuthenticatedMessage) (bytes : list u8) (h : IpcHandler)
  : IpcHandler * result SecurityError unit :=
  let (cache, res) := verify hmac key_provider now instant msg bytes (nonce_cache h) in
  let h := {| pending_requests := pending_requests h; default_timeout := default_timeout h; nonce_cache := cache |} in
  if negb (is_valid res) then (h, from_verification_result res) else (h, Ok tt).

(** The random peers of a doubled count, filtered and cut to the count. *)
Definition filtered_peers (t : RoutingTable) (count : u64) (min_rep : u8) : list PeerInfo :=
  take (Z.to_nat count) (base.filter (fun p => min_rep <= reputation_score p)
    (RoutingTable.get_random_peers t (Z.to_nat (wrapping_mul 64 count 2)))).

Definition handle_peer_list_request (now : u64) (instant : Z) (msg : AuthenticatedMessage) (bytes : list u8)
  (p : PeerListRequestPayload) (t : RoutingTable) (h : IpcHandler)
  : IpcHandler * result SecurityError PeerListResponsePayload :=
  let? (h, u) := verify_message now instant msg bytes h in
  let? (h, u) := (h, AuthorizationRules.validate_peer_list_sender (am_sender_id msg)) in
  let peers := match pl_filter p with
    | Some f => filtered_peers t (max_peers p) (min_reputation f)
    | None => RoutingTable.get_random_peers t (Z.to_nat (max_peers p))
    end in
  (h, Ok {| rp_peers := peers; total_available := RoutingTable.total_peer_count t |}).

Definition handle_full_node_list_request (now : u64) (instant : Z) (msg : AuthenticatedMessage) (bytes : list u8)
  (p : FullNodeListRequestPayload) (t : RoutingTable) (h : IpcHandler)
  : IpcHandler * result SecurityError PeerListResponsePayload :=
  let? (h, u) := verify_message now instant msg bytes h in
  let? (h, u) := (h, AuthorizationRules.validate_full_node_list_sender (am_sender_id msg)) in
  (h, Ok {| rp_peers := filtered_peers t (max_nodes p) 50; total_available := RoutingTable.total_peer_count t |}).

Definition set_pending (h : IpcHandler) (m : gmap Z PendingRequest) : IpcHandler :=
  {| pending_requests := m; default_timeout := default_timeout h; nonce_cache := nonce_cache h |}.

Definition register_pending_request (id : Z) (now : u64) (h : IpcHandler) : IpcHandler :=
  set_pending h (<[id := {| sent_at := now; timeout_secs := default_timeout h; pr_correlation_id := id |}]>
    (pending_requests h)).

Definition match_response (id : Z) (h : IpcHandler) : IpcHandler * option PendingRequest :=
  (set_pending h (delete id (pending_requests h)), pending_requests h !! id).

Definition gc_expired_requests (now : u64) (h : IpcHandler) : IpcHandler * nat :=
  let kept := filter (fun kv => now <= saturating_add 64 (sent_at kv.2) (timeout_secs kv.2)) (pending_requests h) in
  (set_pending h kept, (size (pending_requests h) - size kept)%nat).

(** An answer goes only to a subsystem that may ask, for a message the shared
    verifier accepts; it has no more peers than asked for, all of the table and
    with the reputation asked for; and a message is never answered by a panic. *)
Theorem peer_lists_guarded now instant msg bytes p t h (Hmax : 0 <= max_peers p) :
  let r := handle_peer_list_request now instant msg bytes p t h in
  r.2 <> Panic
  /\ forall a, r.2 = Ok a ->
       (verify hmac key_provider now instant msg bytes (nonce_cache h)).2 = Valid
       /\ am_sender_id msg ∈ AuthorizationRules.PEER_LIST_ALLOWED
       /\ Z.of_nat (length (rp_peers a)) <= max_peers p
       /\ (forall x, x ∈ rp_peers a -> x ∈ RoutingTable.all_peers t
             /\ forall f, pl_filter p = Some f -> min_reputation f <= reputation_score x).
Proof.
  cbn zeta. unfold handle_peer_list_request, verify_message.
  destruct (verify _ _ _ _ _ _ _) as [cache res]. cbn [fst snd].
  destruct res; cbn [is_valid negb sbind from_verification_result snd]; try by split.
  unfold AuthorizationRules.validate_peer_list_sender, AuthorizationRules.is_peer_list_authorized.
  case_bool_decide as Ha; cbn [negb sbind snd]; [|by split]. split; [done|]. intros a [= <-]. cbn [rp_peers].
  split; [done|]. split; [done|]. destruct (pl_filter p) as [f|].
  - unfold filtered_peers, RoutingTable.get_random_peers. split.
    + rewrite length_take. lia.
    + intros x Hx%elem_of_take. destruct Hx as (i & Hi & _). apply list_elem_of_lookup_2 in Hi.
      apply list_elem_of_filter in Hi as [Hr Hi]. apply elem_of_take in Hi as (j & Hj & _).
      split; [by eapply list_elem_of_lookup_2|]. by intros f' [= <-].
  - unfold RoutingTable.get_random_peers. split.
    + rewrite length_take. lia.
    + intros x (i & Hi & _)%elem_of_take. split; [by eapply list_elem_of_lookup_2|]. done.
Qed.

End handler.

(** A request for half the greatest count, doubled, asks for nobody. *)
Lemma huge_request_gets_nobody t min_rep : filtered_peers t (2 ^ 63) min_rep = [].
Proof.
  unfold filtered_peers. change (wrapping_mul 64 (2 ^ 63) 2) with 0. unfold RoutingTable.get_random_peers.
  rewrite Z2Nat.inj_0. rewrite take_0. apply take_nil.
Qed.

(** ** [adapters/security/rate_limit.rs] *)

Module RateLimit.

Definition check_rate (now : u64) (key : list u8) (limit : Z) (window_secs : u64) (rs : gmap (list Z) (Z * Z))
  : gmap (list Z) (Z * Z) * bool :=
  let r := default (0, now) (rs !! key) in
  if wrapping_add 64 r.2 window_secs <=? now then (<[key := (1, now)]> rs, true)
  else if limit <=? r.1 then (<[key := r]> rs, false)
  else (<[key := (wrapping_add 32 r.1 1, r.2)]> rs, true).

(** In the window of a key no more requests are counted than the limit allows, or one. *)
Lemma rate_within_limit now key limit window rs : 0 <= limit < 2 ^ 32 ->
  (forall c w, rs !! key = Some (c, w) -> 0 <= c <= Z.max limit 1) ->
  forall c w, (check_rate now key limit window rs).1 !! key = Some (c, w) -> 0 <= c <= Z.max limit 1.
Proof.
  intros Hl Hi c w. unfold check_rate.
  assert (Hr : 0 <= (default (0, now) (rs !! key)).1 <= Z.max limit 1).
  { destruct (rs !! key) as [[c' w']|] eqn:E; cbn; [by eapply Hi|lia]. }
  destruct (default (0, now) (rs !! key)) as [c0 w0]. cbn [fst snd] in *.
  destruct (_ <=? now); cbn [fst]; [rewrite lookup_insert_eq; intros [= <- <-]; lia|].
  destruct (limit <=? c0) eqn:E; bools; cbn [fst]; rewrite lookup_insert_eq; intros [= <- <-]; [done|].
  rewrite wrapping_add_small by lia. lia.
Qed.

(** A limit of zero lets the first request after each window through. *)
Example zero_limit_passes :
  let r1 := check_rate 100 [1] 0 60 ∅ in
  let r2 := check_rate 160 [1] 0 60 r1.1 in
  r1.2 = false /\ r2.2 = true.
Proof. by split; vm_compute. Qed.

End RateLimit.

(** ** Witnesses and where the checks fall short *)

Definition easy_sha (l : list u8) : Hash := 0.

Definition request_from (id a : Z) : BootstrapRequest := {|
  br_node_id := id; ip_address := V4 [a; 0; 0; 1]; br_port := 30303; proof_of_work := replicate 32 0;
  claimed_pubkey := replicate 33 2; br_signature := replicate 64 0
|}.

Definition vouch (now id : Z) : Event :=
  IdentityResult now SIGNATURE_VERIFICATION {| nv_node_id := id; identity_valid := true; verification_timestamp := now |}.

Definition one_entry : list Event := [Bootstrap 1000 1000 1000 1 (request_from 77 10); vouch 1001 77].

Lemma entry_needs_work_and_identity_witness :
  exists n r, IdentityResult n SIGNATURE_VERIFICATION r ∈ one_entry /\ nv_node_id r = 77 /\ identity_valid r = true.
Proof.
  destruct (entry_needs_work_and_identity easy_sha accept_all 24 0 for_testing one_entry
    (peer_new 77 {| ip := V4 [10; 0; 0; 1]; port := 30303 |} 1000)) as [_ H].
  - apply list_elem_of_In. vm_compute. auto.
  - exact H.
Defined.

Lemma bootstrap_wire_roundtrip_witness : parse_bootstrap_request (wire (request_from 77 10)) = Ok (request_from 77 10).
Proof. apply (bootstrap_wire_roundtrip (request_from 77 10)). by split. Defined.

Lemma peer_lists_guarded_witness :
  let h := with_key_provider ∅ in
  (handle_peer_list_request zero_hmac empty_keys 100 0 (example_message []) [] {| max_peers := 3; pl_filter := None |}
     (RoutingTable.new 0 for_testing) h).2 <> Panic.
Proof.
  cbn zeta. apply (peer_lists_guarded zero_hmac empty_keys 100 0 (example_message []) []
    {| max_peers := 3; pl_filter := None |} (RoutingTable.new 0 for_testing) (with_key_provider ∅)). cbn. lia.
Defined.

(** An identity result names a node and no request: the result for the first request
    lets in the address of a second one, which was never verified. *)
Example result_admits_another_address :
  let es := [Bootstrap 1000 1000 1000 1 (request_from 77 10); Collect 1100;
             Bootstrap 1101 1101 1101 2 (request_from 77 66); vouch 1102 77] in
  (fun p => ip (socket_addr p)) <$> RoutingTable.all_peers (run_events easy_sha accept_all 24 0 for_testing es)
  = [V4 [66; 0; 0; 1]].
Proof. by vm_compute. Qed.

(** A refused identity is not banned and may ask again at once. *)
Example invalid_identity_not_banned :
  let es := [Bootstrap 1000 1000 1000 1 (request_from 77 10);
             IdentityResult 1001 SIGNATURE_VERIFICATION
               {| nv_node_id := 77; identity_valid := false; verification_timestamp := 1001 |}] in
  let t := run_events easy_sha accept_all 24 0 for_testing es in
  (handle_bootstrap easy_sha accept_all 24 1002 1002 1002 2 (request_from 77 10) t).1.2 = PendingVerification 2.
Proof. by vm_compute. Qed.

(** A message one byte too short for an address is within the least length. *)
Example least_length_too_short :
  parse_bootstrap_request (BOOTSTRAP :: replicate 166 0) = Err InvalidAddress.
Proof. by vm_compute. Qed.
